(* ===== verification/_CoqProject ===== *)
-Q . S2P
Prelude.v
Utf8.v
Protocol.v
Varint.v
Wire.v
MsgSession.v
MsgTransfer.v
MsgResume.v
Chunking.v
MsgManifest.v
Message.v
Frame.v
Compression.v
DataPath.v
Session.v
ChunkEngine.v
Bitmap.v
Rle.v
Bloom.v
StateStore.v
Ledger.v
Paths.v
ManifestEntry.v
ManifestFile.v
LinAlg.v
Gf256.v
GfMatrix.v
Fec.v
ErasureCoding.v
Consensus.v
ConsensusSafety.v
Scheduler.v
Lock.v
AuditLog.v
Geo.v
Pmtu.v
BandwidthSchedule.v
Xattr.v
DirectoryDiff.v
Scanner.v
SyncPlan.v
FileSys.v
Transaction.v
CasGc.v
TxSnapshot.v
ChunkStore.v
DeltaSync.v
Batch.v
Checkpoint.v
Upload.v
UploadSafety.v
UploadResume.v
UploadComplete.v
Download.v
DownloadCorrect.v
Parallel.v
ParallelCorrect.v
EngineM3.v
SlidingWindow.v
Migration.v
MemoryBackend.v
Authorization.v
Authentication.v
