(* ===== verification/Prelude.v ===== *)
(** * Velcrux: protocol, data path, state and coordination

    Velcrux moves files between a client and a server over QUIC. Control messages are framed
    on one stream; chunks travel on DATA streams; both ends keep transfer state so that an
    interrupted transfer resumes and a repeated request does not run twice. Around this core it
    protects symbols and objects with erasure codes, schedules and limits transfers, coordinates
    nodes (consensus, leases, replication between regions) and keeps an audit log. This
    development models the part of [src/crates/velcrux-core/src] that computes: codecs, state
    machines and algorithms, without the I/O around them.

    ** Conventions

    A Rust function is a Gallina function. [Result] and panics are [outcome]: [Ok], [Err] or
    [Panic], with [let?] for the [?] operator; an index or slice out of range, [copy_from_slice]
    with wrong lengths and [String::truncate] inside a character are [Panic], so that a theorem
    can say that no input makes a decoder panic ([wp c Q]: no panic, and a result satisfies
    [Q]). Code that cannot return an error is [pure], and [lift] uses it in code that can.
    Integers are [Z] with their width explicit where it matters ([fits], [wrap], [checked_*],
    [saturating_*]); [usize] is 64 bits wide; [debug_assert] and overflow checks are off, as in a
    release build. Bytes are [list Z]; strings are their UTF-8 bytes, ordered by [bytes_lt]. A
    [&mut] argument is passed and returned; the time is an argument.

    A [for] loop is [for_each] or [for_range]; other loops are fixpoints, structural where
    possible and with fuel otherwise; fuel zero is [Panic], and the bound given at the call is
    proved sufficient by the safety and correctness theorems (a varint has at most ten bytes, a
    loop that consumes a byte per round gets the buffer's length plus one, [decompress_loop] gets
    [max_bytes + 1] because every round that continues adds a byte below the limit).

    A [HashMap] or [BTreeMap] is a [gmap]; its order, where the source iterates over it, is
    that of [map_to_list], and no theorem depends on it.

    Code outside the repository is an interface: zstd is the class [Zstd] with the laws
    [ZstdLaws] (what was compressed reads back, in pieces of any size), ring's AEAD is [Aead]
    with [AeadLaws] (sealing keeps the length, adds a 16-byte tag, and opens), blake3 is a hash
    function and an incremental hasher that agree, the sum over the entropy histogram and the
    sizing of the Bloom filter, which are floating point, are functions. [TrimCodec] and
    [SumAead] are instances that satisfy the laws and run the theorems on examples.

    ** Files

    - [Prelude]: outcomes, machine integers, slices, loops, little-endian integers, the order of
      byte strings, and the tactics ([run], [wps], [cursor]) that the codec proofs share. [Utf8]:
      validity, character boundaries, [String::truncate], decimal numbers.
    - [Protocol]: protocol/limits.rs, error.rs, protocol/error.rs (codes, [ErrorDetail]),
      protocol/capabilities.rs. [Varint]: protocol/varint.rs, with the reference digits.
    - [Wire]: Hash and TransferId (util/), length-prefixed strings and index lists, and the
      class [WireCodec] that a payload type promises to the dispatcher: encoding is total on
      well-formed values, decoding is safe on all bytes, and the two are inverse.
    - [MsgSession], [MsgTransfer], [MsgResume], [MsgManifest]: one module per payload of
      protocol/message.rs, each with its record, [encode], [decode], invariant [ok] and
      [WireCodec] instance. [Message]: the dispatch over all of them, proved from the class.
    - [Frame]: protocol/frame.rs, control frames (module [Frame]) and DATA preambles and
      headers (module [Data]).
    - [Compression]: protocol/compression.rs: sampling, bounded decompression, the adaptive
      selector. [DataPath]: crypto/chunk_aead.rs and the compressing and encrypting encoders of
      frame.rs. [Session]: session/mod.rs over a receive stream (what is still to arrive and
      how the stream ends).
    - [Chunking]: chunking/mod.rs and fastcdc.rs. The specification of a chunker is [spec_run]:
      bytes are appended to the current chunk and a condition on its content ends it. The class
      [ChunkerSpec] says that an implementation refines [spec_run]; the three chunkers are
      instances. [ChunkEngine]: the boxed chunker, the zero test and [chunk_reader], proved
      against the class.
    - [Bitmap]: state/bitmap.rs. [Rle]: sync/rle.rs. [Bloom]: sync/bloom.rs.
    - [StateStore]: state/mod.rs and the in-memory store of state/mock.rs, with a step relation
      over its operations. [Ledger]: state/ledger.rs, with the sequential operations and the
      two-step interleaving of concurrent calls.
    - [Paths]: [VPath] of storage/mod.rs. [ManifestEntry]: manifest/entry.rs and codec.rs.
      [ManifestFile]: manifest/writer.rs and reader.rs; a file is its bytes.
    - [LinAlg]: sums, vectors and matrices over a field of bytes given as a class, with the facts
      about Gauss-Jordan elimination and Cauchy matrices. [Gf256], [GfMatrix], [Fec]:
      transport/fec.rs: the field, the matrices and the block codec. [ErasureCoding]:
      ec/engine.rs, which uses the same matrices.
    - [Consensus]: consensus/mod.rs. [ConsensusSafety]: a cluster of coordinators that exchange
      messages, which may be lost, repeated and reordered, as a step relation.
    - [Scheduler]: transfer/scheduler.rs: deficit round robin and the limiter with its waiters.
    - [Lock]: sync/lock.rs, with runs in which saves fail and the process restarts.
    - [AuditLog]: audit/mod.rs. [Geo]: sync/geo.rs. [Pmtu]: transport/pmtu.rs.
      [BandwidthSchedule]: scheduler/schedule.rs.
    - [Xattr]: storage/xattr.rs, access control lists and attribute policies, and the sidecar codec of
      storage/mod.rs. [DirectoryDiff]: the reconciliation of sync/directory.rs, over maps and over
      manifest streams. [Scanner]: manifest/scanner.rs. [SyncPlan]: sync/plan.rs, filters and
      guardrails of deletions.
    - [FileSys]: the files of the components below. Every call takes the next event of the
      environment, which lets it go, fail (a write possibly in part) or kill the process; [only P c] says
      that [c] changes files only at paths with [P], whatever the events are. A file is known by the text of its path: there are no links, and theorems that
      need it ask for paths without [.] and [..].
    - [Transaction]: sync/transaction.rs over [FileSys], with recovery after a crash. [CasGc]:
      storage/cas_gc.rs and storage/gc.rs. [TxSnapshot]: txsnapshot/mod.rs, with an abstract catalog of
      versions that it refines.
    - [ChunkStore]: storage/chunk_store.rs. [DeltaSync]: sync/mod.rs ([execute_dedup_sync]) with
      inventory.rs, estimator.rs and reconstruct.rs, over [FileSys], [ChunkStore] and [ChunkEngine].
      [Batch]: sync/batch.rs over [FileSys].
    - [Checkpoint]: transfer/checkpoint.rs and transfer/recovery.rs against the class [StateStore] of a store
      whose calls can fail, with its laws [StateStoreLaws]; the store of [StateStore] is an instance.
      [Upload]: the two halves of an upload on one stream (transfer/engine.rs) and the staging files
      of storage/mod.rs; a [session] holds the store, the files, both streams and the clock, and every
      call of them can fail, a write of a staging file also after it was handed over. [UploadSafety], [UploadResume] and [UploadComplete] hold its theorems:
      triples over sessions, the invariant of interrupted uploads, and the run of both sides together.
    - [Download] and [DownloadCorrect]: the two halves of a download, and pipes (transfer/engine.rs).
      [Parallel] and [ParallelCorrect]: the branches with several streams, as tasks whose turns come in any order.
      [EngineM3]: transfer/engine_m3.rs, with the cancellation of a transfer.
    - [Migration]: transport/migration.rs, with the addresses of [std::net] and their texts. [MemoryBackend]:
      storage/memory.rs with the staging buffers that its writers share, and the store it refines.
      [SlidingWindow]: what a list of recent times promises, for the two limiters that keep one.
    - [Authorization]: auth/mod.rs (permissions, grants, the authorizer, the limiter of deletions) and the
      deleting branch of session/server.rs. [Authentication]: auth/pubkey.rs, auth/crl.rs and the
      authenticators, against the class [Ed25519].

    ** What is proved

    The theorems with a number are the properties of the manifest; here they are named.

    Each has its conditions in its comment; where the code behaves otherwise outside of them, an example shows it.

    Round trips: messages over a stream, through compression, up to 1 MiB and the limits of the reader ([session_message_roundtrip]);
    manifest files whose batches are within these limits ([manifest_file_roundtrip]); FEC blocks and
    erasure-coded objects from any [k] symbols or shards ([fec_block_recovers],
    [ec_reconstructs]); batches of files with distinct paths when no call fails ([batch_roundtrip]).

    Safety on arbitrary input: the stream reader ([read_frame_safe], [read_frame_bomb]), decompression ([decompress_always_bounded]), manifests
    ([manifest_reader_safe]), paths ([validate_confined]), batch containers ([unpack_confined]). Access: the authorizer answers exactly as the
    grants say for the path without its outer slashes ([authorization_exact]), and nothing is deleted without policy and grant ([deletion_governed]).

    Directory transactions, for paths of plain names on a disk without links: without failing calls a commit makes all changes and a rollback
    none, as does a commit in which the move of a created or deleted file fails ([tx_atomic]); a crash in the middle of a
    commit is outside of it, and leaves half of the changes ([TxExamples.crash_leaves_half]). Before the commit nothing is visible, whatever fails and wherever
    the process dies ([tx_isolated]).

    Files under faults and crashes: an upload publishes nothing but a file with a hash that the peer asked for in VERIFY, the announced one unless none
    was announced ([upload_verified], [parallel_verified]); it leaves a staging file that holds what the stored bitmap counts, but for a chunk whose write fails after
    it was handed over ([upload_resumable]). When no call fails, an upload in fixed chunks without compression succeeds on both sides, on one stream and on
    several in any order of their tasks ([upload_complete], [parallel_upload]), and so does a download without
    compression ([download_complete], [parallel_download]). A delta synchronisation publishes nothing but a
    verified file, and succeeds when no call fails and no stored chunk is damaged ([delta_commit_verified], [delta_sync_correct]). Snapshots stay as
    they were published, and what can be read of them stays so ([snapshots_stable]); their engine is that of the specification as long as failures leave no half of a file
    ([tx_refines]). Garbage collection deletes only what was unreferenced for the retention time, when its removals succeed ([gc_retention]); the chunk store answers for its files
    ([chunk_store_correct]).

    Refinement and equivalence: the engine computes the content-defined chunks
    of the whole input independently of buffering ([chunk_reader_correct]); the streaming comparison of manifests is the comparison of maps, and the
    plan reconciles ([streaming_diff_correct], [plan_reconciles]); regions converge to the newest
    version when the clocks of the versions are sound ([geo_lww_converges]).

    State and coordination: the store's tables stay consistent along any run, its index when callers keep the keys
    ([store_invariant]); the ledger answers retries with the same transfer until it is pruned, for calls one after another ([ledger_idempotent]);
    one leader per term and matching logs ([raft_election_safety], [raft_log_matching]); mutual
    exclusion of the leases in the table of a lock manager ([lock_mutual_exclusion]); no task starves ([drr_no_starvation]); the audit
    tree and its proofs ([audit_inclusion_sound], [audit_index_wf]).

    Further theorems, without a number, cover varints and frames, the dispatch and decoding of messages, encrypted chunks, the three chunkers,
    checkpoints and recovery, pipes, cancellation, single sweeps and pruning, access control lists between systems, bitmaps and run-length bitmaps, the
    Bloom filter, capability negotiation, the compression selector, matrix inversion, restarts of the
    lock manager, the limiter, the MTU search, the rate limits of connection migration and deletions, the in-memory backend and uploads to it, rollbacks,
    extended attributes, authentication by keys and certificates, bandwidth schedules, glob matching, guarded deletion,
    the order of the scanner, the planning of batches and more. The modules named [..Examples] run the
    definitions on small inputs, and state as theorems where the code departs from its documentation
    or would surprise a caller.

    ** Not modelled

    The dispatch loops (session/client.rs, session/server.rs), QUIC itself, SQL (state/sqlite.rs), cloud storage backends, the binaries, floating-point control
    (rate limiting, congestion, FEC adaptation), printing and JSON, and the operational extensions
    (key management, telemetry and the like). Next: the server's session as a state machine. *)

From stdpp Require Export base list gmap strings pretty fin_maps sorting.
From Stdlib Require Export ZArith Lia.

#[global] Open Scope Z_scope.

(** ** Outcomes of Rust code *)

(** A Rust function of the source either returns [Ok], returns [Err], or
    panics (an out-of-range slice or index, [String::truncate] off a character
    boundary).  [Panic] is an outcome of its own so that "no input makes the
    decoder panic" is a statement of the model. *)
Inductive outcome (E A : Type) : Type :=
  | Ok (a : A)
  | Err (e : E)
  | Panic.
Arguments Ok {E A} _.
Arguments Err {E A} _.
Arguments Panic {E A}.

(** The [?] operator: errors and panics leave the function at once. *)
Definition obind {E A B} (c : outcome E A) (k : A -> outcome E B) : outcome E B :=
  match c with
  | Ok a => k a
  | Err e => Err e
  | Panic => Panic
  end.

(** Code that returns or panics. *)
Abbreviation pure A := (outcome Empty_set A).

Declare Scope rust_scope.
Delimit Scope rust_scope with rust.
#[global] Open Scope rust_scope.
Notation "'let?' x := c 'in' k" := (obind c (fun x => k))
  (at level 10, x binder, c at level 200, k at level 200) : rust_scope.
Notation "'let?' ' p := c 'in' k" := (obind c (fun x => match x with p => k end))
  (at level 10, p strict pattern, c at level 200, k at level 200) : rust_scope.

(** [Option::ok_or]. *)
Definition ok_or {E A} (o : option A) (e : E) : outcome E A :=
  match o with Some a => Ok a | None => Err e end.

(** [Result::map_err]. *)
Definition map_err {E F A} (f : E -> F) (c : outcome E A) : outcome F A :=
  match c with Ok a => Ok a | Err e => Err (f e) | Panic => Panic end.

(** [wp c Q]: [c] does not panic, and a returned value satisfies [Q]. *)
Definition wp {E A} (c : outcome E A) (Q : A -> Prop) : Prop :=
  match c with
  | Ok a => Q a
  | Err _ => True
  | Panic => False
  end.

Section wp_rules.
Context {E A B : Type}.
Implicit Types (c : outcome E A) (k : A -> outcome E B).

Lemma wp_bind c k Q : wp c (fun a => wp (k a) Q) -> wp (obind c k) Q.
Proof. by destruct c. Qed.

Lemma wp_mono c (P Q : A -> Prop) : wp c P -> (forall a, P a -> Q a) -> wp c Q.
Proof. destruct c; simpl; auto. Qed.

Lemma wp_bind_mono c k (P : A -> Prop) Q :
    wp c P -> (forall a, P a -> wp (k a) Q) -> wp (obind c k) Q.
Proof. destruct c; simpl; auto. Qed.

Lemma wp_ok (a : A) (Q : A -> Prop) : Q a -> wp (@Ok E A a) Q.
Proof. done. Qed.

Lemma wp_inv c Q a : wp c Q -> c = Ok a -> Q a.
Proof. by intros H ->. Qed.

Lemma wp_no_panic c Q : wp c Q -> c <> Panic.
Proof. by destruct c. Qed.

Lemma wp_ok_or (o : option A) (e : E) (Q : A -> Prop) :
    (forall a, o = Some a -> Q a) -> wp (ok_or o e) Q.
Proof. destruct o; simpl; auto. Qed.

Lemma wp_if (b : bool) c1 c2 Q :
    (b = true -> wp c1 Q) -> (b = false -> wp c2 Q) -> wp (if b then c1 else c2) Q.
Proof. destruct b; auto. Qed.
End wp_rules.

Lemma wp_map_err {E F A} (f : E -> F) (c : outcome E A) Q : wp c Q -> wp (map_err f c) Q.
Proof. by destruct c. Qed.

Lemma obind_ok_inv {E A B} (c : outcome E A) (k : A -> outcome E B) b :
  obind c k = Ok b -> exists a, c = Ok a /\ k a = Ok b.
Proof. destruct c; simpl; naive_solver. Qed.

(** Code without an error path: with [wp] it returns. *)
Definition no_err {E A} (c : outcome E A) : Prop := match c with Err _ => False | _ => True end.

Lemma no_err_bind {E A B} (c : outcome E A) (k : A -> outcome E B) :
  no_err c -> (forall a, no_err (k a)) -> no_err (obind c k).
Proof. destruct c; simpl; auto. Qed.

Lemma no_err_if {E A} (b : bool) (c1 c2 : outcome E A) :
  no_err c1 -> no_err c2 -> no_err (if b then c1 else c2).
Proof. by destruct b. Qed.

Lemma wp_returns {E A} (c : outcome E A) Q : no_err c -> wp c Q -> exists a, c = Ok a /\ Q a.
Proof. destruct c; simpl; naive_solver. Qed.

(** ** Machine integers *)

(** A [w]-bit unsigned integer is a [Z] in range; [wrap w] is the [as] cast. *)
Definition fits (w v : Z) : Prop := 0 <= v < 2 ^ w.
Definition wrap (w v : Z) : Z := v mod 2 ^ w.

#[global] Instance fits_dec w v : Decision (fits w v).
Proof. unfold fits. apply _. Defined.

(** [usize] is 64 bits wide on every supported target. *)
Definition checked_add (w a b : Z) : option Z :=
  if a + b <? 2 ^ w then Some (a + b) else None.
Definition checked_mul (w a b : Z) : option Z :=
  if a * b <? 2 ^ w then Some (a * b) else None.
Definition saturating_add (w a b : Z) : Z := Z.min (a + b) (2 ^ w - 1).
Definition saturating_sub (a b : Z) : Z := Z.max 0 (a - b).
(** [u64::checked_shl]: [None] only when the shift is the width or more; the
    bits shifted out are dropped. *)
Definition checked_shl (w a s : Z) : option Z :=
  if s <? w then Some (wrap w (Z.shiftl a s)) else None.
(** [usize::try_from(u64)]. *)
Definition usize_try_from (v : Z) : option Z := if v <? 2 ^ 64 then Some v else None.

Lemma wrap_small w v : fits w v -> wrap w v = v.
Proof. apply Z.mod_small. Qed.

Lemma wrap_fits w v : 0 <= w -> fits w (wrap w v).
Proof. intros. apply Z.mod_pos_bound. lia. Qed.

Lemma fits_weaken w w' v : w <= w' -> fits w v -> fits w' v.
Proof.
  intros Hw [H0 H1]. split; [done|].
  destruct (Z.le_gt_cases 0 w).
  - apply Z.lt_le_trans with (2 ^ w); [done|]. apply Z.pow_le_mono_r; lia.
  - rewrite Z.pow_neg_r in H1; lia.
Qed.

Lemma checked_add_Some w a b s : checked_add w a b = Some s -> s = a + b /\ a + b < 2 ^ w.
Proof. unfold checked_add. case_match; naive_solver lia. Qed.

Lemma checked_mul_ok w a b : a * b < 2 ^ w -> checked_mul w a b = Some (a * b).
Proof. intros. unfold checked_mul. by rewrite (proj2 (Z.ltb_lt _ _)). Qed.
Lemma checked_mul_Some w a b c : checked_mul w a b = Some c -> c = a * b /\ a * b < 2 ^ w.
Proof. unfold checked_mul. case_match; intros [= <-]. split; [done|lia]. Qed.

Lemma checked_add_ok w a b : a + b < 2 ^ w -> checked_add w a b = Some (a + b).
Proof. unfold checked_add. intros. case_match; [done|lia]. Qed.

Lemma usize_try_from_Some v s : usize_try_from v = Some s -> s = v /\ v < 2 ^ 64.
Proof. unfold usize_try_from. case_match; naive_solver lia. Qed.

Lemma usize_try_from_ok v : fits 64 v -> usize_try_from v = Some v.
Proof. unfold usize_try_from, fits. intros. case_match; [done|lia]. Qed.

(** Disjoint bit fields: [or] is addition. *)
Lemma lor_disjoint k a b : 0 <= k -> fits k a -> Z.lor a (Z.shiftl b k) = a + b * 2 ^ k.
Proof.
  intros Hk Ha. rewrite <- Z.shiftl_mul_pow2 by lia.
  rewrite <- Z.add_lor_land.
  assert (Z.land a (Z.shiftl b k) = 0) as ->; [|lia].
  apply Z.bits_inj'. intros n Hn. rewrite Z.land_spec, Z.bits_0.
  destruct (Z.lt_ge_cases n k).
  - rewrite Z.shiftl_spec_low by lia. apply andb_false_r.
  - rewrite <- (Z.mod_small a (2 ^ k)) by done.
    by rewrite Z.mod_pow2_bits_high by lia.
Qed.

Lemma land_ones_mod n v : 0 <= n -> Z.land v (Z.ones n) = v mod 2 ^ n.
Proof. apply Z.land_ones. Qed.

(** Testing one bit, as the source writes it: [(x & (1 << n)) != 0]. *)
Definition has_bit (x n : Z) : bool := negb (Z.land x (Z.shiftl 1 n) =? 0).

Lemma has_bit_testbit x n : 0 <= n -> has_bit x n = Z.testbit x n.
Proof.
  intros Hn. unfold has_bit. rewrite Z.shiftl_1_l.
  destruct (Z.testbit x n) eqn:Ht.
  - apply negb_true_iff, Z.eqb_neq. intros H0.
    apply (f_equal (fun z => Z.testbit z n)) in H0.
    by rewrite Z.land_spec, Z.bits_0, Ht, Z.pow2_bits_true in H0.
  - apply negb_false_iff, Z.eqb_eq, Z.bits_inj'. intros m Hm.
    rewrite Z.land_spec, Z.bits_0, Z.pow2_bits_eqb by done.
    destruct (Z.eqb_spec n m) as [->|]; [by rewrite Ht|apply andb_false_r].
Qed.

Lemma lor_fits w a b : 0 <= w -> fits w a -> fits w b -> fits w (Z.lor a b).
Proof.
  intros Hw [Ha0 Ha1] [Hb0 Hb1]. split; [by apply Z.lor_nonneg|].
  destruct (Z.eq_dec (Z.lor a b) 0) as [->|Hn]; [lia|].
  assert (0 <= Z.lor a b) by by apply Z.lor_nonneg.
  apply Z.log2_lt_pow2; [lia|]. rewrite Z.log2_lor by done.
  destruct (Z.eq_dec a 0) as [->|], (Z.eq_dec b 0) as [->|]; simpl in *.
  - done.
  - rewrite Z.max_r by apply Z.log2_nonneg. apply Z.log2_lt_pow2; lia.
  - rewrite Z.max_l by apply Z.log2_nonneg. apply Z.log2_lt_pow2; lia.
  - apply Z.max_lub_lt; apply Z.log2_lt_pow2; lia.
Qed.

(** The two halves of a byte. *)
Lemma byte_land_127 b : fits 8 b -> Z.land b 0x7F = b mod 128.
Proof. intros. change 0x7F with (Z.ones 7). by rewrite Z.land_ones. Qed.

Lemma byte_land_128 b : fits 8 b -> (Z.land b 0x80 =? 0) = (b <? 128).
Proof.
  intros [H0 H1]. pose proof (has_bit_testbit b 7 ltac:(lia)) as Hb.
  unfold has_bit in Hb. change (Z.shiftl 1 7) with 0x80 in Hb.
  rewrite Z.testbit_odd, Z.shiftr_div_pow2 in Hb by lia. change (2 ^ 7) with 128 in Hb.
  destruct (Z.ltb_spec b 128).
  - rewrite Z.div_small in Hb by lia. by apply negb_false_iff in Hb.
  - replace (b / 128) with 1 in Hb; [by apply negb_true_iff in Hb|].
    apply Z.div_unique with (b - 128); lia.
Qed.

(** ** Byte buffers *)

(** A byte buffer is a list of [Z]; [is_bytes] says every element is a [u8]. *)
Abbreviation bytes := (list Z).
Definition is_bytes (l : bytes) : Prop := Forall (fits 8) l.

Definition zlen {A} (l : list A) : Z := Z.of_nat (length l).

(** [&buf[i..j]], panicking out of range. *)
Definition slice {E A} (buf : list A) (i j : Z) : outcome E (list A) :=
  if (0 <=? i) && (i <=? j) && (j <=? zlen buf)
  then Ok (take (Z.to_nat (j - i)) (drop (Z.to_nat i) buf)) else Panic.
(** [&buf[i..]]. *)
Definition slice_from {E A} (buf : list A) (i : Z) : outcome E (list A) :=
  slice buf i (zlen buf).
(** [buf[i]]. *)
Definition index {E A} (buf : list A) (i : Z) : outcome E A :=
  if 0 <=? i then match buf !! Z.to_nat i with Some b => Ok b | None => Panic end else Panic.
(** [buf[i] = b]. *)
Definition write_at {E A} (buf : list A) (i : Z) (b : A) : outcome E (list A) :=
  if (0 <=? i) && (i <? zlen buf) then Ok (<[Z.to_nat i := b]> buf) else Panic.
(** [buf[i..j].copy_from_slice(src)], panicking also on a length mismatch. *)
Definition copy_into {E A} (buf : list A) (i j : Z) (src : list A) : outcome E (list A) :=
  if (0 <=? i) && (i <=? j) && (j <=? zlen buf) && (zlen src =? j - i)
  then Ok (take (Z.to_nat i) buf ++ src ++ drop (Z.to_nat j) buf) else Panic.

(** The byte a [Vec::push] appends. *)
Definition push (b : Z) : bytes := [b].

(** Reserved bytes, zero on send: [[0u8; n]]. *)
Definition zeros (n : nat) : bytes := replicate n 0.

Create Rewrite HintDb len.

Lemma zlen_nonneg {A} (l : list A) : 0 <= zlen l.
Proof. unfold zlen. lia. Qed.
Lemma zlen_nil {A} : zlen (@nil A) = 0.
Proof. done. Qed.
Lemma zlen_cons {A} (x : A) l : zlen (x :: l) = 1 + zlen l.
Proof. unfold zlen. simpl. lia. Qed.
Lemma zlen_app {A} (k l : list A) : zlen (k ++ l) = zlen k + zlen l.
Proof. unfold zlen. rewrite length_app. lia. Qed.
Lemma zlen_replicate {A} n (x : A) : zlen (replicate n x) = Z.of_nat n.
Proof. unfold zlen. by rewrite length_replicate. Qed.
Lemma zlen_insert {A} i (x : A) l : zlen (<[i := x]> l) = zlen l.
Proof. unfold zlen. by rewrite length_insert. Qed.
Lemma zlen_take {A} n (l : list A) : zlen (take n l) = Z.min (Z.of_nat n) (zlen l).
Proof. unfold zlen. rewrite length_take. lia. Qed.
Lemma zlen_drop {A} n (l : list A) : zlen (drop n l) = Z.max 0 (zlen l - Z.of_nat n).
Proof. unfold zlen. rewrite length_drop. lia. Qed.
Lemma push_eq b : push b = [b].
Proof. done. Qed.
Lemma zlen_push b : zlen (push b) = 1.
Proof. done. Qed.
Lemma zlen_zeros n : zlen (zeros n) = Z.of_nat n.
Proof. apply zlen_replicate. Qed.
#[export] Hint Rewrite zlen_zeros zlen_push @zlen_nil @zlen_cons @zlen_app @zlen_replicate @zlen_insert
  @zlen_take @zlen_drop : len.

(** Facts other files contribute to [len] (bounds of [varint_len], ...). *)
Ltac len_facts := idtac.
(** Length arithmetic: normalise [zlen] and call [lia]. *)
Ltac len := autorewrite with len; len_facts; unfold zlen in *; lia.

Lemma no_err_index {E A} (l : list A) i : no_err (@index E A l i).
Proof. unfold index. by repeat case_match. Qed.
Lemma no_err_write_at {E A} (l : list A) i x : no_err (@write_at E A l i x).
Proof. unfold write_at. by repeat case_match. Qed.
Lemma no_err_slice {E A} (l : list A) i j : no_err (@slice E A l i j).
Proof. unfold slice. by repeat case_match. Qed.
Lemma no_err_slice_from {E A} (l : list A) i : no_err (@slice_from E A l i).
Proof. apply no_err_slice. Qed.
Lemma no_err_ok {E A} (a : A) : no_err (@Ok E A a).
Proof. done. Qed.
Create HintDb no_err.
#[export] Hint Resolve no_err_bind no_err_if no_err_index no_err_write_at no_err_slice
  no_err_slice_from no_err_ok : no_err.

Section slices.
Context {E A : Type}.
Implicit Types (a b l : list A).

Lemma slice_skip a b i j : zlen a <= i ->
    @slice E A (a ++ b) i j = slice b (i - zlen a) (j - zlen a).
Proof.
    intros Hi. pose proof (zlen_nonneg a). unfold slice. rewrite zlen_app.
    replace (j - zlen a - (i - zlen a)) with (j - i) by lia.
    rewrite skipn_app, (drop_ge a) by (unfold zlen in *; lia). simpl.
    replace (Z.to_nat i - length a)%nat with (Z.to_nat (i - zlen a)) by (unfold zlen; lia).
    destruct ((0 <=? i) && (i <=? j) && (j <=? zlen a + zlen b)) eqn:H1,
      ((0 <=? i - zlen a) && (i - zlen a <=? j - zlen a) && (j - zlen a <=? zlen b)) eqn:H2;
      auto; lia.
Qed.

Lemma slice_here a b i j : i = 0 -> j = zlen a -> @slice E A (a ++ b) i j = Ok a.
Proof.
    intros -> ->. unfold slice. rewrite zlen_app. pose proof (zlen_nonneg a).
    pose proof (zlen_nonneg b).
    replace ((0 <=? 0) && (0 <=? zlen a) && (zlen a <=? zlen a + zlen b)) with true by lia.
    simpl. replace (Z.to_nat (zlen a - 0)) with (length a) by (unfold zlen; lia).
    by rewrite drop_0, take_app_length.
Qed.

Lemma slice_all a i j : i = 0 -> j = zlen a -> @slice E A a i j = Ok a.
Proof. intros. rewrite <- (app_nil_r a). rewrite slice_here; by rewrite ?app_nil_r. Qed.

Lemma slice_from_skip a b i : zlen a <= i ->
    @slice_from E A (a ++ b) i = slice_from b (i - zlen a).
Proof. intros. unfold slice_from. rewrite slice_skip by done. f_equal. len. Qed.

Lemma slice_from_0 a i : i = 0 -> @slice_from E A a i = Ok a.
Proof. intros. by apply slice_all. Qed.

Lemma index_skip a b i : zlen a <= i -> @index E A (a ++ b) i = index b (i - zlen a).
Proof.
    intros. unfold index. pose proof (zlen_nonneg a).
    rewrite lookup_app_r by (unfold zlen in *; lia).
    replace (Z.to_nat i - length a)%nat with (Z.to_nat (i - zlen a)) by (unfold zlen; lia).
    destruct (0 <=? i) eqn:?, (0 <=? i - zlen a) eqn:?; auto; lia.
Qed.

Lemma wp_slice l i j Q : 0 <= i <= j -> j <= zlen l ->
    (forall s, s = take (Z.to_nat (j - i)) (drop (Z.to_nat i) l) -> zlen s = j - i ->
       (forall P, Forall P l -> Forall P s) -> Q s) -> wp (@slice E A l i j) Q.
Proof.
    intros Hi Hj HQ. unfold slice.
    replace ((0 <=? i) && (i <=? j) && (j <=? zlen l)) with true by lia. simpl.
    apply HQ; [done|len|]. intros P HP. by apply Forall_take, Forall_drop.
Qed.

Lemma wp_slice_from l i Q : 0 <= i <= zlen l ->
    (forall s, s = drop (Z.to_nat i) l -> zlen s = zlen l - i ->
       (forall P, Forall P l -> Forall P s) -> Q s) -> wp (@slice_from E A l i) Q.
Proof.
    intros Hi HQ. apply wp_slice; [lia|lia|]. intros s -> Hs HP.
    apply HQ; [|done|done]. apply take_ge. unfold zlen. rewrite length_drop. lia.
Qed.

Lemma wp_index l i (Q : A -> Prop) : 0 <= i < zlen l ->
    (forall x, l !! Z.to_nat i = Some x -> (forall P, Forall P l -> P x) -> Q x) ->
    wp (@index E A l i) Q.
Proof.
    intros Hi HQ. unfold index. replace (0 <=? i) with true by lia.
    destruct (lookup_lt_is_Some_2 l (Z.to_nat i)) as [x Hb]; [unfold zlen in *; lia|].
    rewrite Hb. apply HQ; [done|]. intros P HP. by eapply Forall_lookup_1.
Qed.

Lemma write_at_app a x y b i : i = zlen a ->
    @write_at E A (a ++ x :: b) i y = Ok (a ++ y :: b).
Proof.
    intros ->. unfold write_at. pose proof (zlen_nonneg a). pose proof (zlen_nonneg b).
    rewrite zlen_app, zlen_cons.
    replace ((0 <=? zlen a) && (zlen a <? zlen a + (1 + zlen b))) with true by lia.
    f_equal. replace (Z.to_nat (zlen a)) with (length a + 0)%nat by (unfold zlen; lia).
    by rewrite insert_app_r.
Qed.

Lemma copy_into_ok l i j src : 0 <= i <= j -> j <= zlen l -> zlen src = j - i ->
    @copy_into E A l i j src = Ok (take (Z.to_nat i) l ++ src ++ drop (Z.to_nat j) l).
Proof.
    intros. unfold copy_into.
    by replace ((0 <=? i) && (i <=? j) && (j <=? zlen l) && (zlen src =? j - i)) with true by lia.
Qed.
End slices.

Lemma index_ok {E A} (l : list A) i x : 0 <= i -> l !! Z.to_nat i = Some x -> @index E A l i = Ok x.
Proof. intros Hi Hx. unfold index. by rewrite (proj2 (Z.leb_le 0 i)), Hx. Qed.
Lemma write_at_ok {E A} (l : list A) i x : 0 <= i < zlen l ->
  @write_at E A l i x = Ok (<[Z.to_nat i := x]> l).
Proof. intros Hi. unfold write_at. by rewrite (proj2 (Z.leb_le 0 i)), (proj2 (Z.ltb_lt i _)) by lia. Qed.

(** Filling a buffer from left to right: what is written, then what is left. *)
Lemma copy_cursor {E A} (fin rest src : list A) i j :
  i = zlen fin -> j = i + zlen src -> zlen src <= zlen rest ->
  @copy_into E A (fin ++ rest) i j src = Ok ((fin ++ src) ++ drop (length src) rest).
Proof.
  intros -> -> Hl. pose proof (zlen_nonneg fin). pose proof (zlen_nonneg src).
  rewrite copy_into_ok by (rewrite ?zlen_app; lia). f_equal. unfold zlen in *.
  rewrite Nat2Z.id, take_app_length. replace (Z.to_nat _) with (length fin + length src)%nat by lia.
  rewrite drop_app_add. by rewrite app_assoc.
Qed.

Lemma write_cursor {E A} (fin rest : list A) i b :
  i = zlen fin -> 1 <= zlen rest -> @write_at E A (fin ++ rest) i b = Ok ((fin ++ [b]) ++ drop 1 rest).
Proof.
  intros -> Hl. destruct rest as [|x rest]; [done|]. rewrite write_at_app by done.
  by rewrite <- app_assoc.
Qed.

Lemma slice_cursor {E A} (fin rest : list A) i j :
  i = zlen fin -> i <= j -> j - i <= zlen rest ->
  @slice E A (fin ++ rest) i j = Ok (take (Z.to_nat (j - i)) rest).
Proof.
  intros -> Hj Hl. pose proof (zlen_nonneg fin). unfold slice.
  rewrite zlen_app.
  replace ((0 <=? zlen fin) && (zlen fin <=? j) && (j <=? zlen fin + zlen rest)) with true by lia.
  do 2 f_equal. unfold zlen. by rewrite Nat2Z.id, drop_app_length.
Qed.

Ltac cursor lem :=
  rewrite lem by (rewrite ?zlen_app, ?zlen_drop, ?zlen_cons; change (zlen (@nil Z)) with 0; unfold zlen in *; lia); cbn [obind].

(** Reads that succeed on a buffer succeed with the same result on an extension. *)
Lemma slice_app {E A} (l r : list A) i j s :
  @slice E A l i j = Ok s -> @slice E A (l ++ r) i j = Ok s.
Proof.
  unfold slice. rewrite zlen_app. pose proof (zlen_nonneg r). intros Hs.
  destruct ((0 <=? i) && (i <=? j) && (j <=? zlen l)) eqn:Hc; [|done].
  replace ((0 <=? i) && (i <=? j) && (j <=? zlen l + zlen r)) with true by lia.
  injection Hs as <-. f_equal. unfold zlen in *.
  rewrite drop_app_le by lia. rewrite take_app_le by (rewrite length_drop; lia). done.
Qed.

Lemma slice_from_app {E A} (l r : list A) i s :
  @slice_from E A l i = Ok s -> @slice_from E A (l ++ r) i = Ok (s ++ r).
Proof.
  unfold slice_from, slice. rewrite zlen_app. pose proof (zlen_nonneg r). intros Hs.
  destruct ((0 <=? i) && (i <=? zlen l) && (zlen l <=? zlen l)) eqn:Hc; [|done].
  replace (_ && _ && _) with true by lia. injection Hs as <-. f_equal. unfold zlen in *.
  rewrite drop_app_le by lia. rewrite !take_ge; [done|rewrite length_drop; lia|].
  rewrite length_app, length_drop. lia.
Qed.

Lemma index_app {E A} (l r : list A) i b :
  @index E A l i = Ok b -> @index E A (l ++ r) i = Ok b.
Proof.
  unfold index. destruct (0 <=? i); [|done]. destruct (l !! Z.to_nat i) eqn:Hl; [|done].
  by rewrite (lookup_app_l_Some _ _ _ _ Hl).
Qed.

Lemma index_last {E A} (l : list A) b : @index E A (l ++ [b]) (zlen (l ++ [b]) - 1) = Ok b.
Proof.
  pose proof (zlen_nonneg l). rewrite index_skip by (rewrite zlen_app, zlen_cons; change (zlen []) with 0; lia).
  rewrite zlen_app. change (zlen [b]) with 1. by replace (zlen l + 1 - 1 - zlen l) with 0 by lia.
Qed.

Lemma index_here {E} x (b : bytes) i : i = 0 -> @index E Z (push x ++ b) i = Ok x.
Proof. by intros ->. Qed.

Lemma wp_index_byte {E} (l : bytes) i (Q : Z -> Prop) : is_bytes l -> 0 <= i < zlen l ->
  (forall b, 0 <= b < 256 -> Q b) -> wp (@index E Z l i) Q.
Proof. intros Hl Hi HQ. apply wp_index; [done|]. intros b _ HP. apply HQ, (HP _ Hl). Qed.

(** ** Little-endian integers *)

(** [v.to_le_bytes()] of an [n]-byte integer, and [from_le_bytes]. *)
Fixpoint to_le (n : nat) (v : Z) : bytes :=
  match n with
  | O => []
  | S n' => v mod 256 :: to_le n' (v / 256)
  end.
Fixpoint from_le (l : bytes) : Z :=
  match l with
  | [] => 0
  | b :: l' => b + 256 * from_le l'
  end.
(** [uN::from_le_bytes(buf[i..i + n].try_into().unwrap())]. *)
Definition read_le {E} (buf : bytes) (i n : Z) : outcome E Z :=
  let? s := slice buf i (i + n) in Ok (from_le s).

Lemma zlen_to_le n v : zlen (to_le n v) = Z.of_nat n.
Proof. revert v. induction n; intros; simpl; [done|]. rewrite zlen_cons, IHn. lia. Qed.
#[export] Hint Rewrite zlen_to_le : len.

Lemma is_bytes_to_le n v : is_bytes (to_le n v).
Proof.
  revert v. induction n; intros; constructor; [|apply IHn].
  split; [apply Z.mod_pos_bound|apply Z.mod_pos_bound]; lia.
Qed.

Lemma from_to_le n v : fits (8 * Z.of_nat n) v -> from_le (to_le n v) = v.
Proof.
  revert v. induction n as [|n IH]; intros v [H0 H1]; simpl; [simpl in H1; lia|].
  rewrite IH; [pose proof (Z.div_mod v 256); lia|].
  replace (8 * Z.of_nat (S n)) with (8 + 8 * Z.of_nat n) in H1 by lia.
  rewrite Z.pow_add_r in H1 by lia. split; [apply Z.div_pos; lia|].
  apply Z.div_lt_upper_bound; lia.
Qed.

Lemma from_le_fits l : is_bytes l -> fits (8 * zlen l) (from_le l).
Proof.
  induction 1 as [|b l [Hb0 Hb1] _ [IH0 IH1]]; [done|].
  rewrite zlen_cons. pose proof (zlen_nonneg l). simpl.
  replace (8 * (1 + zlen l)) with (8 + 8 * zlen l) by lia.
  unfold fits. rewrite Z.pow_add_r by lia. lia.
Qed.

Lemma to_from_le l : is_bytes l -> to_le (length l) (from_le l) = l.
Proof.
  induction 1 as [|b l [Hb0 Hb1] _ IH]; [done|]. simpl.
  rewrite (Z.mul_comm 256), Z_mod_plus_full, Z.mod_small by lia.
  rewrite Z.div_add, Z.div_small, Z.add_0_l by lia. by rewrite IH.
Qed.

(** Big-endian integers: [to_be_bytes] and [from_be_bytes]. *)
Definition to_be (n : nat) (v : Z) : bytes := reverse (to_le n v).
Definition from_be (l : bytes) : Z := from_le (reverse l).
Definition read_be {E} (buf : bytes) (i n : Z) : outcome E Z :=
  let? s := slice buf i (i + n) in Ok (from_be s).

Lemma zlen_to_be n v : zlen (to_be n v) = Z.of_nat n.
Proof. unfold to_be, zlen. rewrite length_reverse. apply zlen_to_le. Qed.
#[export] Hint Rewrite zlen_to_be : len.

Lemma from_to_be n v : fits (8 * Z.of_nat n) v -> from_be (to_be n v) = v.
Proof. unfold from_be, to_be. rewrite reverse_involutive. apply from_to_le. Qed.

Lemma to_from_be l : is_bytes l -> to_be (length l) (from_be l) = l.
Proof.
  intros Hl. unfold from_be, to_be. rewrite <- (length_reverse l), to_from_le, reverse_involutive; [done|].
  by apply Forall_reverse.
Qed.

Lemma from_be_fits l : is_bytes l -> fits (8 * zlen l) (from_be l).
Proof.
  intros Hl. unfold from_be, zlen. rewrite <- length_reverse. apply from_le_fits. by apply Forall_reverse.
Qed.

Section read_le.
Context {E : Type}.

Lemma read_le_skip a b i n : zlen a <= i ->
    @read_le E (a ++ b) i n = read_le b (i - zlen a) n.
Proof.
    intros. unfold read_le. rewrite slice_skip by done. do 2 f_equal. lia.
Qed.

Lemma read_le_here k v b i n : i = 0 -> n = Z.of_nat k -> fits (8 * n) v ->
    @read_le E (to_le k v ++ b) i n = Ok v.
Proof.
    intros -> -> Hv. unfold read_le. rewrite slice_here by len.
    simpl. by rewrite from_to_le.
Qed.

Lemma read_le_last k v i n : i = 0 -> n = Z.of_nat k -> fits (8 * n) v ->
    @read_le E (to_le k v) i n = Ok v.
Proof. intros. rewrite <- (app_nil_r (to_le k v)). by apply read_le_here. Qed.

Lemma wp_read_le buf i n (Q : Z -> Prop) : is_bytes buf -> 0 <= i -> 0 <= n ->
    i + n <= zlen buf -> (forall v, fits (8 * n) v -> Q v) -> wp (@read_le E buf i n) Q.
Proof.
    intros Hb Hi Hn Hl HQ. unfold read_le. apply wp_bind, wp_slice; [lia|lia|].
    intros s _ Hs HP. simpl. apply HQ. replace n with (zlen s) by lia.
    apply from_le_fits, HP, Hb.
Qed.
End read_le.

Lemma is_bytes_push b : fits 8 b -> is_bytes (push b).
Proof. intros. constructor; [done|constructor]. Qed.

Lemma is_bytes_zeros n : is_bytes (zeros n).
Proof. by apply Forall_replicate. Qed.

Lemma from_le_zero l : is_bytes l -> (from_le l =? 0) = forallb (Z.eqb 0) l.
Proof.
  induction 1 as [|b l [Hb0 Hb1] Hl IH]; [done|]. cbn [from_le forallb]. rewrite <- IH.
  assert (0 <= from_le l) by (clear IH; induction Hl as [|c l [Hc _] _ IHl]; cbn; lia).
  destruct (Z.eqb_spec 0 b), (Z.eqb_spec (from_le l) 0), (Z.eqb_spec (b + 256 * from_le l) 0); cbn; lia.
Qed.

Lemma read_le_app {E} (l r : bytes) i n v :
  @read_le E l i n = Ok v -> @read_le E (l ++ r) i n = Ok v.
Proof.
  unfold read_le. intros Hr. apply obind_ok_inv in Hr as (s & Hs & Hr).
  by rewrite (slice_app _ _ _ _ _ Hs).
Qed.

Lemma zeros_le n : zeros n = to_le n 0.
Proof. unfold zeros. induction n as [|n IH]; [done|]. cbn. by rewrite IH. Qed.
Lemma drop_zeros n m : drop n (zeros m) = zeros (m - n).
Proof. apply drop_replicate. Qed.
Lemma zeros_nil n : n = 0%nat -> zeros n = [].
Proof. by intros ->. Qed.

#[global] Opaque to_le from_le push zeros.

(** ** Loops *)

(** [for x in l { body }] over a mutable state: errors and panics leave the loop. *)
Fixpoint for_each {E S A} (l : list A) (body : A -> S -> outcome E S) (s : S) : outcome E S :=
  match l with
  | [] => Ok s
  | x :: l' => let? s' := body x s in for_each l' body s'
  end.
(** [for i in lo..hi { body }]. *)
Definition for_range {E S} (lo hi : Z) (body : Z -> S -> outcome E S) (s : S) : outcome E S :=
  for_each (seqZ lo (hi - lo)) body s.

(** [returns c Q]: [c] returns, and the value satisfies [Q]. *)
Definition returns {E A} (c : outcome E A) (Q : A -> Prop) : Prop :=
  match c with Ok a => Q a | Err _ | Panic => False end.

Lemma returns_ok {E A} (a : A) (Q : A -> Prop) : Q a -> returns (@Ok E A a) Q.
Proof. done. Qed.
Lemma returns_bind {E A B} (c : outcome E A) (k : A -> outcome E B) Q :
  returns c (fun a => returns (k a) Q) -> returns (obind c k) Q.
Proof. by destruct c. Qed.
Lemma returns_mono {E A} (c : outcome E A) (P Q : A -> Prop) :
  returns c P -> (forall a, P a -> Q a) -> returns c Q.
Proof. destruct c; simpl; auto. Qed.
Lemma returns_inv {E A} (c : outcome E A) Q : returns c Q -> exists a, c = Ok a /\ Q a.
Proof. destruct c; naive_solver. Qed.

(** A loop keeps an invariant of the position it has reached. *)
Lemma for_each_inv {E S A} (body : A -> S -> outcome E S) (I : list A -> S -> Prop) l :
  forall done_ s, I done_ s ->
  (forall d x r s, done_ ++ l = d ++ x :: r -> I d s -> returns (body x s) (I (d ++ [x]))) ->
  returns (for_each l body s) (I (done_ ++ l)).
Proof.
  induction l as [|x l IH]; intros d s Hs Hb; cbn [for_each].
  { by rewrite app_nil_r. }
  apply returns_bind, (returns_mono _ _ _ (Hb d x l s eq_refl Hs)). intros s' Hs'.
  replace (d ++ x :: l) with ((d ++ [x]) ++ l) by by rewrite <- app_assoc.
  apply IH; [done|]. intros d' y r s'' Heq. apply (Hb d' y r). by rewrite <- Heq, <- app_assoc.
Qed.

Lemma for_range_inv {E S} (body : Z -> S -> outcome E S) (I : Z -> S -> Prop) lo hi s :
  lo <= hi -> I lo s ->
  (forall i s, lo <= i < hi -> I i s -> returns (body i s) (I (i + 1))) ->
  returns (for_range lo hi body s) (I hi).
Proof.
  intros Hle Hs Hb. unfold for_range.
  remember (Z.to_nat (hi - lo)) as n eqn:Hn. revert lo s Hle Hs Hb Hn.
  induction n as [|n IH]; intros lo s Hle Hs Hb Hn.
  - rewrite seqZ_nil by lia. cbn. by replace hi with lo by lia.
  - rewrite seqZ_cons by lia. cbn [for_each]. apply returns_bind.
    apply (returns_mono _ _ _ (Hb lo s ltac:(lia) Hs)). intros s' Hs'.
    replace (Z.pred (hi - lo)) with (hi - Z.succ lo) by lia.
    apply IH; [lia|done| |lia]. intros i s'' Hi. apply Hb. lia.
Qed.

(** ** Tactics of the codec proofs *)

Lemma for_each_ext {E S A} (l : list A) (f g : A -> S -> outcome E S) s :
  (forall x s, f x s = g x s) -> for_each l f s = for_each l g s.
Proof.
  intros H. revert s. induction l as [|x l IH]; intros s; cbn [for_each]; [done|]. rewrite H.
  destruct (g x s); cbn [obind]; auto.
Qed.

Lemma for_each_fmap {E S A B} (g : A -> B) (l : list A) (body : B -> S -> outcome E S) s :
  for_each (g <$> l) body s = for_each l (fun x => body (g x)) s.
Proof. revert s. induction l as [|x l IH]; intros s; cbn [for_each fmap list_fmap]; [done|]. destruct (body (g x) s); cbn [obind]; auto. Qed.

Lemma index_fmap {E A B} (g : A -> B) (l : list A) i :
  @index E B (g <$> l) i = let? x := index l i in Ok (g x).
Proof. unfold index. destruct (0 <=? i); [|done]. rewrite list_lookup_fmap. by destruct (l !! _). Qed.

Lemma slice_prefix {E A} (l : list A) j : 0 <= j <= zlen l -> @slice E A l 0 j = Ok (take (Z.to_nat j) l).
Proof. intros Hj. unfold slice. replace (_ && _ && _) with true by lia. by rewrite Z.sub_0_r. Qed.

(** A slice inside a buffer, with what it says of it. *)
Lemma slice_read {E A} (l : list A) i j : 0 <= i <= j -> j <= zlen l -> exists s,
  @slice E A l i j = Ok s /\ zlen s = j - i /\ drop (Z.to_nat i) l = s ++ drop (Z.to_nat j) l /\
  (forall P, Forall P l -> Forall P s).
Proof.
  intros Hi Hj. unfold slice. replace (_ && _ && _) with true by lia. eexists. split; [done|].
  split; [rewrite zlen_take, zlen_drop; lia|]. split; [|intros P HP; by apply Forall_take, Forall_drop].
  replace (Z.to_nat j) with (Z.to_nat i + Z.to_nat (j - i))%nat by lia. by rewrite <- drop_drop, take_drop.
Qed.
(** A computation without errors of its own, where errors are possible. *)
Definition lift {E A} (c : pure A) : outcome E A :=
  match c with Ok a => Ok a | Err e => match e with end | Panic => Panic end.

(** ** The order of byte strings *)

(** [Ord] of byte arrays and strings. *)
Fixpoint bytes_lt (a b : bytes) : bool :=
  match a, b with
  | x :: a, y :: b => (x <? y) || ((x =? y) && bytes_lt a b)
  | [], _ :: _ => true
  | _, [] => false
  end.

Lemma bytes_lt_irrefl a : bytes_lt a a = false.
Proof. induction a as [|x a IH]; cbn; [done|]. by rewrite Z.ltb_irrefl, Z.eqb_refl, IH. Qed.

Lemma bytes_lt_cons x a y b : bytes_lt (x :: a) (y :: b) = true <-> x < y \/ (x = y /\ bytes_lt a b = true).
Proof. cbn. rewrite orb_true_iff, andb_true_iff, Z.ltb_lt, Z.eqb_eq. done. Qed.

Lemma bytes_lt_trans a b c : bytes_lt a b = true -> bytes_lt b c = true -> bytes_lt a c = true.
Proof.
  revert b c. induction a as [|x a IH]; intros [|y b] [|z c]; try done.
  rewrite !bytes_lt_cons. intros [?|[-> ?]] [?|[-> ?]]; [left; lia..|right; eauto].
Qed.

Lemma bytes_lt_total a b : bytes_lt a b = false -> bytes_lt b a = false -> a = b.
Proof.
  revert b. induction a as [|x a IH]; intros [|y b]; try done. cbn.
  destruct (Z.ltb_spec x y), (Z.ltb_spec y x), (Z.eqb_spec x y), (Z.eqb_spec y x); cbn; try done; try lia.
  intros. subst. f_equal. auto.
Qed.

(** At most, in that order. *)
Definition bytes_le (a b : bytes) : Prop := bytes_lt b a = false.

#[export] Instance bytes_le_preorder : PreOrder bytes_le.
Proof.
  split; [intros a; apply bytes_lt_irrefl|]. intros a b c Hab Hbc. unfold bytes_le in *.
  destruct (bytes_lt c a) eqn:Hca; [|done]. destruct (bytes_lt a b) eqn:E.
  - by rewrite (bytes_lt_trans _ _ _ Hca E) in Hbc.
  - assert (a = b) as -> by by apply bytes_lt_total. congruence.
Qed.
Lemma bytes_lt_le a b : bytes_lt a b = true -> bytes_le a b.
Proof.
  intros H. unfold bytes_le. destruct (bytes_lt b a) eqn:E; [|done].
  pose proof (bytes_lt_trans _ _ _ H E) as Hx. by rewrite bytes_lt_irrefl in Hx.
Qed.
Lemma bytes_le_lt_trans a b c : bytes_le a b -> bytes_lt b c = true -> bytes_lt a c = true.
Proof.
  intros Hab Hbc. destruct (bytes_lt a c) eqn:E; [done|]. unfold bytes_le in Hab.
  assert (bytes_le c b) as Hcb by (by transitivity a). unfold bytes_le in Hcb. congruence.
Qed.
Lemma bytes_lt_le_trans a b c : bytes_lt a b = true -> bytes_le b c -> bytes_lt a c = true.
Proof.
  intros Hab Hbc. destruct (bytes_lt a c) eqn:E; [done|].
  assert (bytes_le b a) as Hba by (by transitivity c). unfold bytes_le in Hba. congruence.
Qed.

(** Decide a boolean test of the goal by length arithmetic. *)
Ltac decide_test b :=
  lazymatch b with
  | negb ?c => decide_test c; cbn [negb]
  | (?c && ?d)%bool => first [decide_test c | decide_test d]; cbn [andb]
  | (?c || ?d)%bool => first [decide_test c | decide_test d]; cbn [orb]
  | ?x <? ?y => first [rewrite (proj2 (Z.ltb_ge x y)) by len | rewrite (proj2 (Z.ltb_lt x y)) by len]
  | ?x <=? ?y => first [rewrite (proj2 (Z.leb_gt x y)) by len | rewrite (proj2 (Z.leb_le x y)) by len]
  | ?x =? ?y => first [rewrite (proj2 (Z.eqb_neq x y)) by len | rewrite (proj2 (Z.eqb_eq x y)) by len]
  end.

(** One reduction step of a decoder run on the concatenation an encoder built. *)
Ltac run_step :=
  match goal with
  | |- context [obind (Ok _) _] => cbn [obind]
  | |- context [obind (Err _) _] => cbn [obind]
  | |- context [@read_le ?E (?a ++ ?b) ?i ?n] =>
      first [ rewrite (@read_le_here E) by (first [done | assumption | len | (apply wrap_fits; lia)])
            | rewrite (@read_le_skip E a b i n) by len ]
  | |- context [@read_le ?E (to_le ?k ?v) ?i ?n] =>
      rewrite (@read_le_last E k v i n) by (first [done | assumption | len | (apply wrap_fits; lia)])
  | |- context [@index ?E ?A (push ?x ++ ?b) ?i] =>
      first [ rewrite (@index_here E x b i) by len
            | rewrite (@index_skip E A (push x) b i) by len ]
  | |- context [@index ?E ?A (?a ++ ?b) ?i] => rewrite (@index_skip E A a b i) by len
  | |- context [@slice_from ?E ?A (?a ++ ?b) ?i] =>
      first [ rewrite (@slice_from_0 E A (a ++ b) i) by len
            | rewrite (@slice_from_skip E A a b i) by len ]
  | |- context [@slice_from ?E ?A ?a ?i] => rewrite (@slice_from_0 E A a i) by len
  | |- context [@slice ?E ?A (?a ++ ?b) ?i ?j] =>
      first [ rewrite (@slice_here E A a b i j) by len
            | rewrite (@slice_skip E A a b i j) by len ]
  | |- context [@slice ?E ?A ?a ?i ?j] => rewrite (@slice_all E A a i j) by len
  | |- context [if ?b then _ else _] =>
      decide_test b
  end.
