(* ===== verification/Utf8.v ===== *)
(** UTF-8 strings of the Rust standard library, as far as the source uses them:
    [std::str::from_utf8] (the well-formed byte sequences of the Unicode
    standard, table 3-7), [str::is_char_boundary] and [String::truncate].
    A Rust [String] is modelled by its bytes; [utf8_valid] is the invariant the
    type carries. *)

From S2P Require Import Prelude.

Module Utf8.

Definition in_range (lo hi b : Z) : bool := (lo <=? b) && (b <=? hi).
Definition is_cont (b : Z) : bool := in_range 0x80 0xBF b.

(** Second byte allowed after a three- or four-byte lead. *)
Definition second3 (b0 b1 : Z) : bool :=
  if b0 =? 0xE0 then in_range 0xA0 0xBF b1
  else if b0 =? 0xED then in_range 0x80 0x9F b1
  else in_range 0xE1 0xEF b0 && is_cont b1.
Definition second4 (b0 b1 : Z) : bool :=
  if b0 =? 0xF0 then in_range 0x90 0xBF b1
  else if b0 =? 0xF4 then in_range 0x80 0x8F b1
  else in_range 0xF1 0xF3 b0 && is_cont b1.

Fixpoint utf8_valid (l : bytes) : bool :=
  match l with
  | [] => true
  | b0 :: l1 =>
      if in_range 0 0x7F b0 then utf8_valid l1 else
      match l1 with
      | [] => false
      | b1 :: l2 =>
          if in_range 0xC2 0xDF b0 then is_cont b1 && utf8_valid l2 else
          match l2 with
          | [] => false
          | b2 :: l3 =>
              if in_range 0xE0 0xEF b0 then second3 b0 b1 && is_cont b2 && utf8_valid l3 else
              match l3 with
              | [] => false
              | b3 :: l4 =>
                  in_range 0xF0 0xF4 b0 && second4 b0 b1 && is_cont b2 && is_cont b3
                  && utf8_valid l4
              end
          end
      end
  end.

(** [std::str::from_utf8]. *)
Definition from_utf8 (l : bytes) : option bytes := if utf8_valid l then Some l else None.

(** [str::is_char_boundary]. *)
Definition is_char_boundary (s : bytes) (n : Z) : bool :=
  if n =? 0 then true
  else if zlen s <=? n then n =? zlen s
  else match s !! Z.to_nat n with Some b => negb (is_cont b) | None => false end.

(** [String::truncate]: a no-op past the end, a panic inside a character. *)
Definition truncate {E} (s : bytes) (n : Z) : outcome E bytes :=
  if n <=? zlen s
  then if is_char_boundary s n then Ok (take (Z.to_nat n) s) else Panic
  else Ok s.

(** The bytes of a string literal. *)
Definition str_bytes (s : string) : bytes :=
  (fun c => Z.of_N (Ascii.N_of_ascii c)) <$> String.list_ascii_of_string s.

(** [{}] of an unsigned integer. *)
Definition decimal (v : Z) : bytes := str_bytes (pretty (Z.to_N v)).

(** The lengths a character can have, and its split off the front. *)
Lemma utf8_valid_cons_inv b l : utf8_valid (b :: l) = true ->
  exists c r, b :: l = (b :: c) ++ r /\ utf8_valid r = true /\
    Forall (fun x => is_cont x = true) c /\
    (forall r', utf8_valid r' = true -> utf8_valid ((b :: c) ++ r') = true).
Proof.
  intros H. cbn [utf8_valid] in H. destruct (in_range 0 127 b) eqn:E1.
  { exists [], l. repeat split; [done|constructor|]. intros r' Hr. cbn. by rewrite E1. }
  destruct l as [|b1 l]; [done|]. destruct (in_range 0xC2 0xDF b) eqn:E2.
  { apply andb_true_iff in H as [H1 H2]. exists [b1], l. repeat split; [done|by repeat constructor|].
    intros r' Hr. cbn. by rewrite E1, E2, H1, Hr. }
  destruct l as [|b2 l]; [done|]. destruct (in_range 0xE0 0xEF b) eqn:E3.
  { rewrite !andb_true_iff in H. destruct H as [[H1 H2] H3]. exists [b1; b2], l.
    repeat split; [done| |].
    - repeat constructor; [|done]. unfold second3, is_cont, in_range in *.
      repeat case_match; lia.
    - intros r' Hr. cbn. by rewrite E1, E2, E3, H1, H2, Hr. }
  destruct l as [|b3 l]; [done|]. rewrite !andb_true_iff in H.
  destruct H as [[[[H0 H1] H2] H3] H4]. exists [b1; b2; b3], l. repeat split; [done| |].
  - repeat constructor; [|done|done]. unfold second4, is_cont, in_range in *.
    repeat case_match; lia.
  - intros r' Hr. cbn. by rewrite E1, E2, E3, H0, H1, H2, H3, Hr.
Qed.

(** Cutting a string at a character boundary leaves a string. *)
Lemma utf8_valid_take s n : utf8_valid s = true -> is_char_boundary s (Z.of_nat n) = true ->
  utf8_valid (take n s) = true.
Proof.
  remember (length s) as k eqn:Hk. revert s n Hk.
  induction k as [k IH] using lt_wf_ind. intros s n -> Hs Hn.
  destruct (decide (n = 0%nat)) as [->|Hn0]; [done|]. destruct s as [|b s]; [by destruct n|].
  destruct (utf8_valid_cons_inv b s Hs) as (c & r & Heq & Hr & Hc & Hback).
  destruct (decide (length (b :: c) <= n)%nat) as [Hle|Hgt].
  - rewrite Heq, take_app_ge by done. apply Hback.
    eapply IH; [|done|done|].
    + rewrite Heq, length_app. cbn [length]. lia.
    + revert Hn. rewrite Heq. unfold is_char_boundary.
      rewrite zlen_app. set (m := (n - length (b :: c))%nat).
      rewrite !Nat2Z.id, (lookup_app_r (b :: c)) by done. fold m.
      assert (Hm : Z.of_nat (n) = zlen (b :: c) + Z.of_nat m) by (unfold zlen, m; lia).
      pose proof (zlen_nonneg r). assert (1 <= zlen (b :: c)) by len.
      rewrite Hm. clearbody m. generalize dependent (zlen (b :: c)). intros k Hk1 Hk2.
      replace (k + Z.of_nat m =? 0) with false by lia.
      replace (k + zlen r <=? k + Z.of_nat m) with (zlen r <=? Z.of_nat m) by lia.
      replace (k + Z.of_nat m =? k + zlen r) with (Z.of_nat m =? zlen r) by lia.
      by destruct (Z.of_nat m =? 0).
  - exfalso. revert Hn. unfold is_char_boundary. rewrite Nat2Z.id.
    replace (Z.of_nat (n) =? 0) with false by lia.
    assert (Hlt : (n < length (b :: s))%nat) by (rewrite Heq, length_app; lia).
    replace (zlen (b :: s) <=? Z.of_nat (n)) with false by (unfold zlen; lia).
    rewrite Heq, lookup_app_l by lia. destruct n as [|n]; [done|]. simpl.
    destruct (lookup_lt_is_Some_2 c n) as [x Hx]; [simpl in *; lia|].
    rewrite Hx. rewrite Forall_lookup in Hc. by rewrite (Hc _ _ Hx).
Qed.

Lemma truncate_valid {E} s n s' : 0 <= n -> utf8_valid s = true ->
  @truncate E s n = Ok s' -> utf8_valid s' = true /\ zlen s' = Z.min n (zlen s).
Proof.
  unfold truncate. intros Hn Hs H. repeat case_match; simplify_eq.
  - split; [|len]. apply utf8_valid_take; [done|]. by rewrite Z2Nat.id.
  - split; [done|lia].
Qed.

Lemma from_utf8_Some l s : from_utf8 l = Some s -> s = l /\ utf8_valid l = true.
Proof. unfold from_utf8. by case_match; intros; simplify_eq. Qed.

Lemma from_utf8_ok l : utf8_valid l = true -> from_utf8 l = Some l.
Proof. unfold from_utf8. by intros ->. Qed.

End Utf8.
