(* ===== verification/Protocol.v ===== *)
(** Named limits, protocol errors, wire error codes and the capability bitset
    (crates/velcrux-core/src/error.rs and src/protocol/{limits,error,capabilities}.rs). *)

From S2P Require Import Prelude Utf8.

(** ** Limits (protocol/limits.rs) *)
Module Limits.
Definition PROTOCOL_VERSION : Z := 1.
Definition MAX_MESSAGE_SIZE : Z := 1024 * 1024.
Definition MAX_CHUNK_SIZE : Z := 4 * 1024 * 1024.
Definition MAX_MANIFEST_ENTRIES : Z := 50000000.
Definition MAX_MANIFEST_BYTES : Z := 8 * 1024 * 1024 * 1024.
Definition MANIFEST_BATCH_SIZE : Z := 4096.
Definition MAX_BATCH_DECOMPRESSED_BYTES : Z := 16 * 1024 * 1024.
Definition MAX_ERROR_DETAIL : Z := 256.
Definition AGENT_STRING : bytes := Utf8.str_bytes "velcrux/0.1.0".
Definition MAX_AUTH_TOKEN : Z := 4096.
Definition MAX_IDENTITY_LEN : Z := 255.
Definition MAX_PATH_COMPONENT : Z := 255.
Definition MAX_PATH_TOTAL : Z := 4096.
Definition MAX_XATTR_NAME_LEN : Z := 255.
Definition MAX_XATTR_VALUE_LEN : Z := 64 * 1024.
Definition MAX_XATTR_COUNT : Z := 256.
Definition MAX_TOTAL_XATTR_BYTES : Z := 256 * 1024.
Definition MAX_PATH_DEPTH : Z := 128.
End Limits.

(** ** Protocol errors (error.rs) *)

(** A 32-byte content hash and a 16-byte transfer identifier, by their bytes. *)
Definition Hash : Type := bytes.
Definition TransferId : Type := bytes.

Inductive ProtocolError : Type :=
  | Empty
  | NonCanonicalVarint
  | VarintOverflow
  | FrameTooLarge (declared limit : Z)
  | VersionMismatch (got expected : Z)
  | UnsupportedMessage (t : Z)
  | InvalidStateTransition (why : string)
  | Malformed (why : string)
  | InvalidPath
  | InvalidIdentity (why : string)
  | PermissionDenied
  | InvalidManifest (why : string)
  | ResourceLimitExceeded (why : string)
  | QuotaExceeded (why : string)
  | DecompressionBomb (why : string)
  | DiskFull (why : string)
  | ChecksumMismatch (chunk_index : Z) (expected actual : Hash).

Abbreviation presult := (outcome ProtocolError).

(** [VelcruxError], the variants the modelled layers produce. *)
Inductive VelcruxError : Type :=
  | EProtocol (e : ProtocolError)
  | ETransport (why : string)
  | EIo (why : string)
  | EInternal (why : string)
  | EConfig (why : string).

(** ** Wire error codes (protocol/error.rs) *)
Module ErrorCode.

Inductive t : Type :=
  | AuthFailed | PermissionDenied | ProtocolVersionUnsupported | ProtocolViolation
  | UnsupportedMessage | FileNotFound | InvalidPath | TransferNotFound | InvalidManifest
  | ChunkNotFound | ChecksumMismatch | PartialWrite | ResourceLimit | ServerBusy | DiskFull
  | QuotaExceeded | TransferCancelled | NetworkError | InternalError.

#[global] Instance t_eq_dec : EqDecision t.
Proof. solve_decision. Defined.

Definition retryable (c : t) : bool :=
  match c with
  | ChunkNotFound | ChecksumMismatch | PartialWrite | ResourceLimit | ServerBusy
  | DiskFull | NetworkError | InternalError => true
  | _ => false
  end.

Definition to_wire (c : t) : Z :=
  match c with
  | AuthFailed => 1000 | PermissionDenied => 1001 | ProtocolVersionUnsupported => 1002
  | ProtocolViolation => 1003 | UnsupportedMessage => 1004
  | FileNotFound => 2000 | InvalidPath => 2001 | TransferNotFound => 2002
  | InvalidManifest => 2003 | ChunkNotFound => 2004
  | ChecksumMismatch => 3000 | PartialWrite => 3001
  | ResourceLimit => 4000 | ServerBusy => 4001 | DiskFull => 4002 | QuotaExceeded => 4003
  | TransferCancelled => 5000 | NetworkError => 5001 | InternalError => 5002
  end.

Definition from_wire (code : Z) : t :=
  if code =? 1000 then AuthFailed
  else if code =? 1001 then PermissionDenied
  else if code =? 1002 then ProtocolVersionUnsupported
  else if code =? 1003 then ProtocolViolation
  else if code =? 1004 then UnsupportedMessage
  else if code =? 2000 then FileNotFound
  else if code =? 2001 then InvalidPath
  else if code =? 2002 then TransferNotFound
  else if code =? 2003 then InvalidManifest
  else if code =? 2004 then ChunkNotFound
  else if code =? 3000 then ChecksumMismatch
  else if code =? 3001 then PartialWrite
  else if code =? 4000 then ResourceLimit
  else if code =? 4001 then ServerBusy
  else if code =? 4002 then DiskFull
  else if code =? 4003 then QuotaExceeded
  else if code =? 5000 then TransferCancelled
  else if code =? 5001 then NetworkError
  else if code =? 5002 then InternalError
  else InternalError.

Definition ERROR_CODE_NAMES : list (Z * string) :=
  [(1000, "AUTH_FAILED"); (1001, "PERMISSION_DENIED"); (1002, "PROTOCOL_VERSION_UNSUPPORTED");
   (1003, "PROTOCOL_VIOLATION"); (1004, "UNSUPPORTED_MESSAGE"); (2000, "FILE_NOT_FOUND");
   (2001, "INVALID_PATH"); (2002, "TRANSFER_NOT_FOUND"); (2003, "INVALID_MANIFEST");
   (2004, "CHUNK_NOT_FOUND"); (3000, "CHECKSUM_MISMATCH"); (3001, "PARTIAL_WRITE");
   (4000, "RESOURCE_LIMIT"); (4001, "SERVER_BUSY"); (4002, "DISK_FULL");
   (4003, "QUOTA_EXCEEDED"); (5000, "TRANSFER_CANCELLED"); (5001, "NETWORK_ERROR");
   (5002, "INTERNAL_ERROR")]%string.

Lemma to_wire_fits c : fits 32 (to_wire c).
Proof. by destruct c. Qed.

Lemma from_to_wire c : from_wire (to_wire c) = c.
Proof. by destruct c. Qed.

(** Every code the decoder recognises is in the names table; every other one
    is [InternalError]. *)
Lemma from_wire_spec code :
  from_wire code = InternalError \/ to_wire (from_wire code) = code.
Proof.
  unfold from_wire.
  repeat (match goal with |- context [if ?a =? ?b then _ else _] =>
            destruct (Z.eqb_spec a b); [by right|] end).
  by left.
Qed.

End ErrorCode.

(** ** Error details (protocol/error.rs) *)
Module ErrorDetail.

(** [ErrorDetail::new]: truncation to [MAX_ERROR_DETAIL] bytes. *)
Definition new {E} (s : bytes) : outcome E bytes :=
  if Limits.MAX_ERROR_DETAIL <? zlen s then Utf8.truncate s Limits.MAX_ERROR_DETAIL else Ok s.

Definition not_found_or_denied {E} : outcome E bytes := new (Utf8.str_bytes "not found").

Definition from_protocol_error {E} (e : ProtocolError) : outcome E bytes :=
  new (Utf8.str_bytes
    match e with
    | Empty => "empty frame"
    | NonCanonicalVarint => "non-canonical varint"
    | VarintOverflow => "varint overflow"
    | FrameTooLarge _ _ => "frame too large"
    | VersionMismatch _ _ => "version mismatch"
    | UnsupportedMessage _ => "unsupported message"
    | InvalidStateTransition _ => "invalid state transition"
    | Malformed _ => "malformed payload"
    | InvalidPath => "not found"
    | InvalidIdentity _ => "invalid identity"
    | PermissionDenied => "not found"
    | InvalidManifest _ => "invalid manifest"
    | ResourceLimitExceeded _ => "resource limit exceeded"
    | QuotaExceeded _ => "quota exceeded"
    | DecompressionBomb _ => "decompression limit exceeded"
    | DiskFull _ => "disk full"
    | ChecksumMismatch _ _ _ => "checksum mismatch"
    end%string).

(** [ErrorDetail::new] on a valid string: it panics exactly when the cut falls
    inside a character, and otherwise returns a valid string within the cap. *)
Lemma error_detail_new_spec {E} s : Utf8.utf8_valid s = true ->
  (@new E s = Panic <->
     Limits.MAX_ERROR_DETAIL < zlen s /\
     Utf8.is_char_boundary s Limits.MAX_ERROR_DETAIL = false) /\
  (forall d, @new E s = Ok d ->
     Utf8.utf8_valid d = true /\ zlen d = Z.min Limits.MAX_ERROR_DETAIL (zlen s)).
Proof.
  intros Hs. unfold new. split.
  - unfold Utf8.truncate. repeat case_match; naive_solver lia.
  - intros d. destruct (Z.ltb_spec Limits.MAX_ERROR_DETAIL (zlen s)).
    + intros H'. by apply Utf8.truncate_valid in H'.
    + intros ?; simplify_eq. split; [done|lia].
Qed.

(** [ErrorDetail::new] panics on valid input: exactly on strings of more than 256 bytes that
    have a multi-byte character across byte 256. Otherwise it returns a valid string of at most
    256 bytes. *)
Theorem error_detail_panics {E} s : Utf8.utf8_valid s = true ->
  (@new E s = Panic <->
     Limits.MAX_ERROR_DETAIL < zlen s /\
     Utf8.is_char_boundary s Limits.MAX_ERROR_DETAIL = false) /\
  (forall d, @new E s = Ok d ->
     Utf8.utf8_valid d = true /\ zlen d = Z.min Limits.MAX_ERROR_DETAIL (zlen s)).
Proof. apply error_detail_new_spec. Qed.

End ErrorDetail.

(** ** Capabilities (protocol/capabilities.rs) *)
Module Capabilities.

Inductive Capability : Type :=
  | FixedChunking | CdcChunking | Blake3 | Sha256 | DedupChunkStore | CompressionZstd
  | SparseFiles | Symlinks | Hardlinks | InventoryBloom | ChunkEncryption.

#[global] Instance Capability_eq_dec : EqDecision Capability.
Proof. solve_decision. Defined.

(** [c as u8]. *)
Definition bit_of (c : Capability) : Z :=
  match c with
  | FixedChunking => 0 | CdcChunking => 1 | Blake3 => 2 | Sha256 => 3 | DedupChunkStore => 4
  | CompressionZstd => 5 | SparseFiles => 6 | Symlinks => 7 | Hardlinks => 8
  | InventoryBloom => 9 | ChunkEncryption => 10
  end.

(** [Capabilities(u32)] is its bitset. *)
Definition EMPTY : Z := 0.
Definition from_wire (bits : Z) : Z := Z.land bits 0xFFF.
Definition to_wire (c : Z) : Z := Z.land c 0xFFF.
Definition set (self : Z) (c : Capability) : Z := Z.lor self (Z.shiftl 1 (bit_of c)).
(** [self & !(1 << c)]. *)
Definition clear (self : Z) (c : Capability) : Z := Z.ldiff self (Z.shiftl 1 (bit_of c)).
Definition has (self : Z) (c : Capability) : bool := has_bit self (bit_of c).
Definition intersect (self other : Z) : Z := Z.land self other.
Definition is_empty (self : Z) : bool := self =? 0.
Definition validate_intersection (i : Z) : outcome string unit :=
  if negb (has i Blake3) then Err "intersection lacks mandatory BLAKE3"%string
  else if negb (has i FixedChunking) && negb (has i CdcChunking)
  then Err "intersection lacks any chunking mode"%string
  else Ok tt.

Lemma bit_of_bounds c : 0 <= bit_of c <= 10.
Proof. by destruct c. Qed.

Lemma bit_of_inj c d : bit_of c = bit_of d -> c = d.
Proof. by destruct c, d. Qed.

Lemma has_testbit s c : has s c = Z.testbit s (bit_of c).
Proof. apply has_bit_testbit. pose proof (bit_of_bounds c). lia. Qed.

Lemma has_intersect a b c : has (intersect a b) c = has a c && has b c.
Proof. rewrite !has_testbit. apply Z.land_spec. Qed.

Lemma has_set s c d : has (set s c) d = bool_decide (c = d) || has s d.
Proof.
  rewrite !has_testbit. unfold set. rewrite Z.lor_spec, Z.shiftl_1_l.
  pose proof (bit_of_bounds c). rewrite Z.pow2_bits_eqb, orb_comm by lia.
  f_equal. case_bool_decide as Hcd; [subst; apply Z.eqb_refl|].
  apply Z.eqb_neq. intros ?%bit_of_inj. done.
Qed.

Lemma has_clear s c d : has (clear s c) d = negb (bool_decide (c = d)) && has s d.
Proof.
  rewrite !has_testbit. unfold clear. rewrite Z.ldiff_spec, Z.shiftl_1_l.
  pose proof (bit_of_bounds c). rewrite Z.pow2_bits_eqb, andb_comm by lia.
  do 2 f_equal. case_bool_decide as Hcd; [subst; apply Z.eqb_refl|].
  apply Z.eqb_neq. intros ?%bit_of_inj. done.
Qed.

(** The wire mask keeps exactly bits 0..11. *)
Lemma from_wire_testbit w n : 0 <= n -> Z.testbit (from_wire w) n = Z.testbit w n && (n <? 12).
Proof.
  intros. unfold from_wire. change 0xFFF with (Z.ones 12). rewrite Z.land_spec. f_equal.
  destruct (Z.ltb_spec n 12); [apply Z.ones_spec_low|apply Z.ones_spec_high]; lia.
Qed.

Lemma has_from_wire w c : has (from_wire w) c = has w c.
Proof.
  rewrite !has_testbit. pose proof (bit_of_bounds c).
  rewrite from_wire_testbit by lia. replace (bit_of c <? 12) with true by lia. apply andb_true_r.
Qed.

Lemma from_wire_fits w : fits 32 (from_wire w).
Proof.
  unfold from_wire. change 0xFFF with (Z.ones 12). rewrite Z.land_ones by lia.
  apply (fits_weaken 12); [lia|]. by apply wrap_fits.
Qed.

Lemma from_wire_idem w : from_wire (from_wire w) = from_wire w.
Proof. unfold from_wire. by rewrite <- Z.land_assoc. Qed.

Lemma to_wire_from_wire c : from_wire (to_wire c) = to_wire c.
Proof. apply from_wire_idem. Qed.

(** Negotiation: what the two sides agree on is what both announced, through the wire mask;
    an intersection is accepted exactly when both sides have BLAKE3 and share a chunking mode;
    and setting or clearing a capability changes that capability only. *)
Theorem negotiation_correct a b c d :
  let i := intersect (from_wire (to_wire a)) (from_wire (to_wire b)) in
  has i c = has a c && has b c /\
  (validate_intersection i = Ok tt <->
     has a Blake3 = true /\ has b Blake3 = true /\
     (has a FixedChunking = true /\ has b FixedChunking = true \/
      has a CdcChunking = true /\ has b CdcChunking = true)) /\
  has (set a c) d = bool_decide (c = d) || has a d /\
  has (clear a c) d = negb (bool_decide (c = d)) && has a d.
Proof.
  assert (Hi : forall c, has (intersect (from_wire (to_wire a)) (from_wire (to_wire b))) c = has a c && has b c).
  { intros x. rewrite has_intersect, !has_from_wire. f_equal; exact (has_from_wire _ x). }
  cbv zeta. split_and!; [apply Hi| |apply has_set|apply has_clear].
  unfold validate_intersection. rewrite !Hi.
  destruct (has a Blake3), (has b Blake3), (has a FixedChunking), (has b FixedChunking),
    (has a CdcChunking), (has b CdcChunking); cbn; naive_solver.
Qed.

End Capabilities.

(** ** The theorem at a concrete string: [é] (two bytes) across byte 256 *)
Module ProtocolExamples.

Definition long : bytes := replicate 255 97 ++ [0xC3; 0xA9].

Lemma error_detail_panics_witness :
  (@ErrorDetail.new Empty_set long = Panic <->
     Limits.MAX_ERROR_DETAIL < zlen long /\
     Utf8.is_char_boundary long Limits.MAX_ERROR_DETAIL = false) /\
  (forall d, @ErrorDetail.new Empty_set long = Ok d ->
     Utf8.utf8_valid d = true /\ zlen d = Z.min Limits.MAX_ERROR_DETAIL (zlen long)).
Proof. apply (ErrorDetail.error_detail_panics long). vm_compute. reflexivity. Defined.

End ProtocolExamples.
