(* ===== verification/Varint.v ===== *)
(** LEB128 varints (crates/velcrux-core/src/protocol/varint.rs). *)

From S2P Require Import Prelude Protocol.

Module Varint.

Definition MAX_VARINT_BYTES : Z := 10.

(** Number of bytes of the canonical encoding: the table of [varint_len]. *)
Definition varint_len (value : Z) : Z :=
  if value <=? 0x7F then 1
  else if value <=? 0x3FFF then 2
  else if value <=? 0x1FFFFF then 3
  else if value <=? 0xFFFFFFF then 4
  else if value <=? 0x7FFFFFFFF then 5
  else if value <=? 0x3FFFFFFFFFF then 6
  else if value <=? 0x1FFFFFFFFFFFF then 7
  else if value <=? 0xFFFFFFFFFFFFFF then 8
  else if value <=? 0x7FFFFFFFFFFFFFFF then 9
  else 10.

(** The loop of [encode_varint]: [while value >= 0x80 { buf[i] = ...; value >>= 7; i += 1 }]
    then [buf[i] = value as u8].  A [u64] leaves the loop within nine rounds, so
    ten units of fuel reach the last write; fuel zero is unreachable. *)
Fixpoint encode_loop (fuel : nat) (value : Z) (buf : bytes) (i : Z) : presult bytes :=
  match fuel with
  | O => Panic
  | S fuel' =>
      if 0x80 <=? value then
        let? buf := write_at buf i (Z.lor (Z.land (wrap 8 value) 0x7F) 0x80) in
        encode_loop fuel' (Z.shiftr value 7) buf (i + 1)
      else write_at buf i (wrap 8 value)
  end.

(** [encode_varint(value, buf)]: the mutated buffer and the byte count. *)
Definition encode_varint (value : Z) (buf : bytes) : presult (bytes * Z) :=
  let needed := varint_len value in
  let? buf := encode_loop 10 value buf 0 in
  Ok (buf, needed).

(** The idiom of every encoder of the crate:
    [let n = encode_varint(v, &mut tmp); out.extend_from_slice(&tmp[..n])] with a
    ten-byte scratch buffer. *)
Definition put_varint (v : Z) : presult bytes :=
  let? '(tmp, n) := encode_varint v (replicate 10 0) in
  slice tmp 0 n.

(** The loop of [decode_varint] on the bytes not yet read. *)
Fixpoint decode_loop (rest : bytes) (value shift i : Z) : presult (Z * Z) :=
  match rest with
  | [] => Err VarintOverflow
  | b :: rest' =>
      let i := i + 1 in
      if MAX_VARINT_BYTES <? i then Err VarintOverflow else
      let? value :=
        if shift <? 64 then
          let low := Z.land b 0x7F in
          if (57 <=? shift) && bool_decide (checked_shl 64 low shift = None)
          then Err VarintOverflow
          else Ok (Z.lor value (default 0 (checked_shl 64 low shift)))
        else if negb (Z.land b 0x7F =? 0) then Err VarintOverflow
        else Ok value in
      let shift := shift + 7 in
      if Z.land b 0x80 =? 0 then Ok (value, i) else decode_loop rest' value shift i
  end.

Definition decode_varint (buf : bytes) : presult (Z * Z) :=
  match buf with
  | [] => Err Empty
  | _ :: _ =>
      let? '(value, i) := decode_loop buf 0 0 0 in
      if negb (varint_len value =? i) then Err NonCanonicalVarint else Ok (value, i)
  end.

(** ** Reference encoding *)

(** Base-128 digits, least significant first, continuation bit on all but the last. *)
Fixpoint digits (fuel : nat) (v : Z) : bytes :=
  match fuel with
  | O => []
  | S fuel' => if v <? 128 then [v] else (v mod 128 + 128) :: digits fuel' (v / 128)
  end.
Definition varint_bytes (v : Z) : bytes := digits 10 v.

Lemma digits_S k v :
  digits (S k) v = if v <? 128 then [v] else (v mod 128 + 128) :: digits k (v / 128).
Proof. done. Qed.

Lemma encode_loop_S k v buf i : encode_loop (S k) v buf i =
  if 0x80 <=? v then
    obind (write_at buf i (Z.lor (Z.land (wrap 8 v) 0x7F) 0x80))
      (fun buf => encode_loop k (Z.shiftr v 7) buf (i + 1))
  else write_at buf i (wrap 8 v).
Proof. done. Qed.

(** ** Lengths *)

Lemma varint_len_bounds v : 1 <= varint_len v <= 10.
Proof. unfold varint_len. repeat case_match; lia. Qed.

(** The table is the number of base-128 digits. *)
Lemma varint_len_step v : fits 64 v -> 128 <= v -> varint_len v = 1 + varint_len (v / 128).
Proof.
  unfold fits. intros Hv Hge. pose proof (Z.div_mod v 128) as Hd.
  pose proof (Z.mod_pos_bound v 128) as Hm.
  set (q := v / 128) in *. set (r := v mod 128) in *. clearbody q r.
  unfold varint_len. repeat case_match; lia.
Qed.

Lemma digits_length k v : 0 <= v < 128 ^ (1 + Z.of_nat k) -> fits 64 v ->
  zlen (digits (S k) v) = varint_len v.
Proof.
  revert v. induction k as [|k IH]; intros v Hv Hf; rewrite digits_S.
  - replace (v <? 128) with true by lia. unfold varint_len. by replace (v <=? 127) with true by lia.
  - destruct (Z.ltb_spec v 128).
    + unfold varint_len. by replace (v <=? 127) with true by lia.
    + assert (0 <= v / 128 < 128 ^ (1 + Z.of_nat k)).
      { split; [apply Z.div_pos; lia|]. apply Z.div_lt_upper_bound; [lia|].
        rewrite <- Z.pow_succ_r by lia.
        replace (Z.succ _) with (1 + Z.of_nat (S k)) by lia. apply Hv. }
      rewrite zlen_cons, IH, <- varint_len_step; [done|done|lia|done|].
      unfold fits in *. split; [lia|]. apply Z.div_lt_upper_bound; lia.
Qed.

Lemma zlen_varint_bytes v : fits 64 v -> zlen (varint_bytes v) = varint_len v.
Proof. intros Hf. apply (digits_length 9); [|done]. unfold fits in Hf. simpl. lia. Qed.

Lemma is_bytes_digits k v : 0 <= v -> is_bytes (digits k v).
Proof.
  revert v. induction k as [|k IH]; intros v Hv; simpl; [constructor|].
  destruct (Z.ltb_spec v 128); repeat constructor; try (unfold fits; lia).
  - pose proof (Z.mod_pos_bound v 128). lia.
  - pose proof (Z.mod_pos_bound v 128). lia.
  - apply IH. by apply Z.div_pos.
Qed.

Lemma is_bytes_varint v : fits 64 v -> is_bytes (varint_bytes v).
Proof. intros [H _]. by apply is_bytes_digits. Qed.

(** ** Encoding *)

Lemma low_digit v : 0 <= v -> Z.lor (Z.land (wrap 8 v) 0x7F) 0x80 = v mod 128 + 128.
Proof.
  intros Hv. change 0x7F with (Z.ones 7). rewrite Z.land_ones by lia.
  change (Z.lor ?x 0x80) with (Z.lor x (Z.shiftl 1 7)).
  rewrite lor_disjoint by (first [lia | apply Z.mod_pos_bound; lia]).
  unfold wrap. change (2 ^ 8) with (128 * 2). change (2 ^ 7) with 128.
  rewrite Z.rem_mul_r by lia. rewrite (Z.mul_comm 128 (_ mod 2)), Z_mod_plus_full, Zmod_mod. lia.
Qed.

(** The in-place loop writes the reference digits at [i] and leaves the rest. *)
Lemma encode_loop_spec k v pre mid post : 0 <= v < 128 ^ (1 + Z.of_nat k) ->
  length mid = length (digits (S k) v) ->
  encode_loop (S k) v (pre ++ mid ++ post) (zlen pre) = Ok (pre ++ digits (S k) v ++ post).
Proof.
  revert v pre mid. induction k as [|k IH]; intros v pre mid Hv Hm;
    rewrite digits_S in *; rewrite encode_loop_S; (destruct mid as [|m mid]; [by revert Hm; case_match|]);
    (destruct (Z.ltb_spec v 128) as [Hlt|Hge];
       [replace (128 <=? v) with false by lia; destruct mid; [|done];
        cbn [app]; rewrite write_at_app, wrap_small by (try done; unfold fits; lia); done|]).
  - simpl in Hv. lia.
  - replace (128 <=? v) with true by lia. cbn [app]. rewrite write_at_app, low_digit by (done || lia).
    cbn [obind]. rewrite Z.shiftr_div_pow2 by lia. change (2 ^ 7) with 128.
    set (d := v mod 128 + 128) in *.
    replace (pre ++ d :: mid ++ post) with ((pre ++ [d]) ++ mid ++ post) by by rewrite <- app_assoc.
    replace (zlen pre + 1) with (zlen (pre ++ [d])) by len.
    rewrite IH; [by rewrite <- app_assoc| |by injection Hm].
    split; [apply Z.div_pos; lia|]. apply Z.div_lt_upper_bound; [lia|].
    rewrite <- Z.pow_succ_r by lia. replace (Z.succ _) with (1 + Z.of_nat (S k)) by lia. apply Hv.
Qed.

(** [encode_varint] on any buffer that is long enough: the canonical digits
    overwrite its front, nothing else changes, and the count is [varint_len]. *)
Lemma encode_varint_spec v buf : fits 64 v -> varint_len v <= zlen buf ->
  encode_varint v buf = Ok (varint_bytes v ++ drop (Z.to_nat (varint_len v)) buf, varint_len v).
Proof.
  intros Hf Hl. unfold encode_varint. pose proof (varint_len_bounds v).
  rewrite <- (take_drop (Z.to_nat (varint_len v)) buf) at 1.
  pose proof (encode_loop_spec 9 v [] (take (Z.to_nat (varint_len v)) buf)
                (drop (Z.to_nat (varint_len v)) buf)) as Hs.
  cbn [app] in Hs. change (zlen []) with 0 in Hs. rewrite Hs; [done| |].
  - unfold fits in Hf. simpl. lia.
  - apply Nat2Z.inj. change (zlen (take (Z.to_nat (varint_len v)) buf) = zlen (varint_bytes v)).
    rewrite zlen_varint_bytes by done. len.
Qed.

(** The scratch buffer of an encoder contributes nothing. *)
Lemma put_varint_spec v : fits 64 v -> put_varint v = Ok (varint_bytes v).
Proof.
  intros Hf. unfold put_varint. pose proof (varint_len_bounds v).
  rewrite encode_varint_spec by (try done; rewrite zlen_replicate; lia). cbn [obind].
  apply slice_here; [done|]. by rewrite zlen_varint_bytes.
Qed.

(** ** Decoding *)

Lemma decode_loop_cons b rest value i : fits 8 b -> 0 <= i <= 9 -> fits (7 * i) value ->
  decode_loop (b :: rest) value (7 * i) i =
  let value := value + wrap 64 ((b mod 128) * 2 ^ (7 * i)) in
  if b <? 128 then Ok (value, i + 1) else decode_loop rest value (7 * (i + 1)) (i + 1).
Proof.
  intros Hb Hi Hv. cbn [decode_loop]. unfold MAX_VARINT_BYTES, checked_shl.
  replace (10 <? i + 1) with false by lia. replace (7 * i <? 64) with true by lia.
  rewrite bool_decide_eq_false_2, andb_false_r by done. cbn [obind default from_option id].
  rewrite byte_land_127, byte_land_128 by done.
  replace (wrap 64 (Z.shiftl (b mod 128) (7 * i)))
    with (Z.shiftl ((b mod 128) mod 2 ^ (64 - 7 * i)) (7 * i)).
  - rewrite lor_disjoint by (done || lia).
    rewrite <- Z.mul_mod_distr_r, <- Z.pow_add_r by lia.
    replace (64 - 7 * i + 7 * i) with 64 by lia. fold (wrap 64 (b mod 128 * 2 ^ (7 * i))).
    by replace (7 * i + 7) with (7 * (i + 1)) by lia.
  - unfold wrap. rewrite !Z.shiftl_mul_pow2 by lia.
    rewrite <- Z.mul_mod_distr_r, <- Z.pow_add_r by lia. do 2 f_equal. lia.
Qed.

Lemma decode_loop_digits k w rest value i :
  0 <= i -> i + 1 + Z.of_nat k <= 10 -> fits (7 * i) value ->
  0 <= w < 128 ^ (1 + Z.of_nat k) -> fits 64 (w * 2 ^ (7 * i)) ->
  decode_loop (digits (S k) w ++ rest) value (7 * i) i =
  Ok (value + w * 2 ^ (7 * i), i + zlen (digits (S k) w)).
Proof.
  revert w value i. induction k as [|k IH]; intros w value i Hi Hk Hv Hw Hf;
    rewrite digits_S; (destruct (Z.ltb_spec w 128) as [Hlt|Hge];
      [cbn [app]; rewrite decode_loop_cons by (unfold fits in *; lia);
       rewrite Z.mod_small, wrap_small by (done || lia); cbv zeta;
       by replace (w <? 128) with true by lia|]).
  - simpl in Hw. lia.
  - pose proof (Z.mod_pos_bound w 128 ltac:(lia)) as Hm. pose proof (Z.div_mod w 128) as Hd.
    assert (0 < 2 ^ (7 * i)) by lia. cbn [app].
    assert (Hp : 2 ^ (7 * (i + 1)) = 128 * 2 ^ (7 * i)).
    { replace (7 * (i + 1)) with (7 + 7 * i) by lia. by rewrite Z.pow_add_r by lia. }
    set (q := w / 128) in *. set (r := w mod 128) in *. clearbody q r.
    rewrite decode_loop_cons by (unfold fits in *; lia). cbv zeta.
    replace (r + 128 <? 128) with false by lia.
    replace ((r + 128) mod 128) with r
      by (replace (r + 128) with (r + 1 * 128) by lia; rewrite Z_mod_plus_full; by rewrite Z.mod_small).
    unfold fits in *. rewrite wrap_small by (unfold fits; nia).
    rewrite IH; [|lia|lia| | |].
    + rewrite zlen_cons, Hp. do 2 f_equal; nia.
    + unfold fits. nia.
    + split; [nia|]. apply Z.mul_lt_mono_pos_l with 128; [lia|].
      rewrite <- Z.pow_succ_r by lia. replace (Z.succ _) with (1 + Z.of_nat (S k)) by lia. lia.
    + unfold fits. nia.
Qed.

(** Decoding what the encoder wrote, whatever follows it. *)
Lemma decode_varint_bytes v rest : fits 64 v ->
  decode_varint (varint_bytes v ++ rest) = Ok (v, varint_len v).
Proof.
  intros Hf. unfold decode_varint.
  pose proof (decode_loop_digits 9 v rest 0 0) as H.
  change (7 * 0) with 0 in H. change (2 ^ 0) with 1 in H. rewrite Z.mul_1_r, !Z.add_0_l in H.
  fold (varint_bytes v) in H. rewrite zlen_varint_bytes in H by done.
  destruct (varint_bytes v ++ rest) as [|b l] eqn:E.
  { pose proof (zlen_varint_bytes v Hf) as Hl. pose proof (varint_len_bounds v).
    apply app_nil in E as [E _]. rewrite E in Hl. change (zlen []) with 0 in Hl. lia. }
  rewrite H; [|lia|simpl; lia|done|unfold fits in Hf; simpl; lia|done].
  cbn [obind]. by rewrite Z.eqb_refl.
Qed.

Lemma decode_loop_wp rest value shift i : is_bytes rest -> fits 64 value -> 0 <= shift ->
  wp (decode_loop rest value shift i)
     (fun '(v, n) => fits 64 v /\ i < n <= i + zlen rest /\ n <= 10).
Proof.
  revert value shift i. induction rest as [|b rest IH]; intros value shift i Hr Hv Hs; [done|].
  apply Forall_cons in Hr as [Hb Hr]. cbn [decode_loop]. unfold MAX_VARINT_BYTES.
  apply wp_if; [done|intros Hi]. pose proof (zlen_nonneg rest). rewrite zlen_cons.
  apply wp_bind_mono with (fun v => fits 64 v).
  - apply wp_if; intros _; [|apply wp_if; done].
    apply wp_if; intros; [done|]. apply wp_ok. unfold checked_shl.
    apply lor_fits; [done|done|]. case_match; cbn; [by apply wrap_fits|done].
  - intros v Hv'. apply wp_if; intros _.
    + simpl. split; [done|]. lia.
    + eapply wp_mono; [apply IH; [done|done|lia]|]. intros [v' n] (Hf & Hn & Hn').
      split; [done|]. lia.
Qed.

(** No input makes [decode_varint] panic; what it returns is a [u64] and a byte
    count within the buffer. *)
Lemma wp_decode_varint buf (Q : Z * Z -> Prop) : is_bytes buf ->
  (forall v n, fits 64 v -> 1 <= n <= 10 -> n <= zlen buf -> n = varint_len v -> Q (v, n)) ->
  wp (decode_varint buf) Q.
Proof.
  intros Hb HQ. unfold decode_varint. destruct buf as [|b buf]; [done|].
  eapply wp_bind_mono; [by apply (decode_loop_wp _ 0 0 0)|]. intros [v n] (Hv & Hn & Hn').
  apply wp_if; [done|]. intros Hc. apply HQ; try done; try lia.
Qed.

(** A proper prefix of an encoding (all continuation bytes) is an error. *)
Lemma decode_loop_cont rest value shift i : Forall (fun b => 128 <= b < 256) rest ->
  decode_loop rest value shift i = Err VarintOverflow.
Proof.
  revert value shift i. induction rest as [|b rest IH]; intros value shift i Hr; [done|].
  apply Forall_cons in Hr as [Hb Hr]. cbn [decode_loop].
  rewrite byte_land_128 by (unfold fits; lia). replace (b <? 128) with false by lia.
  repeat case_match; cbn [obind]; auto.
Qed.

Lemma digits_cont k v m : 0 <= v -> (m < length (digits k v))%nat ->
  Forall (fun b => 128 <= b < 256) (take m (digits k v)).
Proof.
  revert v m. induction k as [|k IH]; intros v m Hv Hm; [simpl in Hm; lia|].
  rewrite digits_S in *. destruct m as [|m]; [constructor|].
  destruct (Z.ltb_spec v 128); [simpl in Hm; lia|]. cbn [take]. constructor.
  - pose proof (Z.mod_pos_bound v 128). lia.
  - apply IH; [by apply Z.div_pos|]. simpl in Hm. lia.
Qed.

(** ** What the decoder accepts *)

(** Value of a run of continuation bytes. *)
Fixpoint cont_value (pre : bytes) : Z :=
  match pre with
  | [] => 0
  | b :: pre' => (b - 128) + 128 * cont_value pre'
  end.

(** The tenth byte is shifted by 63 bits, so only its lowest bit is kept. *)
Definition top_digit (n last : Z) : Z := if n =? 10 then last mod 2 else last.

Lemma cont_value_bound pre : Forall (fun b => 128 <= b < 256) pre ->
  0 <= cont_value pre < 128 ^ zlen pre.
Proof.
  induction 1 as [|b pre Hb _ IH]; [done|]. rewrite zlen_cons, Z.pow_add_r by (lia || apply zlen_nonneg).
  simpl. lia.
Qed.

Lemma wrap_top b i : 0 <= b < 128 -> 0 <= i <= 9 ->
  wrap 64 (b * 2 ^ (7 * i)) = top_digit (i + 1) b * 2 ^ (7 * i).
Proof.
  intros Hb Hi. unfold top_digit. destruct (Z.eqb_spec (i + 1) 10).
  - assert (i = 9) as -> by lia. change (7 * 9) with 63. unfold wrap.
    change (2 ^ 64) with (2 * 2 ^ 63). by rewrite Z.mul_mod_distr_r by lia.
  - apply wrap_small. split; [nia|].
    apply Z.lt_le_trans with (128 * 2 ^ (7 * i)); [apply Z.mul_lt_mono_pos_r; lia|].
    change 128 with (2 ^ 7). rewrite <- Z.pow_add_r by lia. apply Z.pow_le_mono_r; lia.
Qed.

Lemma decode_loop_inv rest value i v n : is_bytes rest -> 0 <= i <= 9 -> fits (7 * i) value ->
  decode_loop rest value (7 * i) i = Ok (v, n) ->
  exists pre last suf, rest = pre ++ last :: suf /\ Forall (fun b => 128 <= b < 256) pre /\
    0 <= last < 128 /\ n = i + zlen pre + 1 /\ n <= 10 /\
    v = value + (cont_value pre + 128 ^ zlen pre * top_digit n last) * 2 ^ (7 * i).
Proof.
  revert value i. induction rest as [|b rest IH]; intros value i Hr Hi Hv H; [done|].
  apply Forall_cons in Hr as [Hb Hr]. rewrite decode_loop_cons in H by done. cbv zeta in H.
  pose proof (Z.mod_pos_bound b 128 ltac:(lia)) as Hm.
  destruct (Z.ltb_spec b 128).
  - simplify_eq. exists [], b, rest. rewrite Z.mod_small, wrap_top by (unfold fits in *; lia).
    unfold fits in Hb. repeat split; try constructor; try lia; try (rewrite zlen_nil; lia).
    change (cont_value [] + 128 ^ zlen [] * top_digit (i + 1) b) with (0 + 1 * top_digit (i + 1) b).
    ring.
  - assert (Hbm : b mod 128 = b - 128).
    { replace b with ((b - 128) + 1 * 128) at 1 by lia. rewrite Z_mod_plus_full.
      apply Z.mod_small. unfold fits in Hb. lia. }
    destruct (decide (i = 9)) as [->|Hne].
    { destruct rest; [done|]. cbn [decode_loop] in H. done. }
    assert (Hp : 2 ^ (7 * (i + 1)) = 128 * 2 ^ (7 * i)).
    { replace (7 * (i + 1)) with (7 + 7 * i) by lia. by rewrite Z.pow_add_r by lia. }
    rewrite wrap_top in H by lia. unfold top_digit in H.
    replace (i + 1 =? 10) with false in H by lia.
    apply IH in H as (pre & last & suf & -> & Hpre & Hl & Hn & Hn' & Hval);
      [|done|lia|unfold fits in *; nia].
    exists (b :: pre), last, suf. rewrite zlen_cons. repeat split; try lia.
    + constructor; [unfold fits in Hb; lia|done].
    + rewrite Z.pow_add_r by (lia || apply zlen_nonneg). rewrite Hval, Hp, Hbm.
      change (128 ^ 1) with 128. cbn [cont_value]. ring.
Qed.

Lemma digits_app k pre d : Forall (fun b => 128 <= b < 256) pre ->
  (length pre <= k)%nat -> (pre = [] -> 0 <= d < 128) -> (pre <> [] -> 0 < d < 128) ->
  digits (S k) (cont_value pre + 128 ^ zlen pre * d) = pre ++ [d].
Proof.
  intros Hp. revert k. induction Hp as [|b pre Hb Hp IH]; intros k Hk Hd Hd'; rewrite digits_S.
  - specialize (Hd eq_refl). change (cont_value [] + 128 ^ zlen [] * d) with (0 + 1 * d).
    replace (0 + 1 * d) with d by lia. by replace (d <? 128) with true by lia.
  - specialize (Hd' ltac:(done)). pose proof (cont_value_bound pre Hp).
    assert (0 < 128 ^ zlen pre) by (apply Z.pow_pos_nonneg; [lia|apply zlen_nonneg]).
    rewrite zlen_cons, Z.pow_add_r by (lia || apply zlen_nonneg). cbn [cont_value].
    change (128 ^ 1) with 128.
    replace (b - 128 + 128 * cont_value pre + 128 * 128 ^ zlen pre * d)
      with ((b - 128) + (cont_value pre + 128 ^ zlen pre * d) * 128) by ring.
    set (q := cont_value pre + 128 ^ zlen pre * d) in *. assert (1 <= q) by nia.
    replace (b - 128 + q * 128 <? 128) with false by lia.
    rewrite Z_mod_plus_full, Z.mod_small, Z.div_add, Z.div_small, Z.add_0_l by lia.
    destruct k as [|k]; [simpl in Hk; lia|]. subst q. rewrite IH; [|simpl in Hk; lia|lia|lia].
    simpl. f_equal. lia.
Qed.

Lemma varint_len_upper v m : 0 <= v < 128 ^ m -> 1 <= m <= 9 -> varint_len v <= m.
Proof.
  intros Hv Hm. unfold varint_len.
  assert (m = 1 \/ m = 2 \/ m = 3 \/ m = 4 \/ m = 5 \/ m = 6 \/ m = 7 \/ m = 8 \/ m = 9) as Hc by lia.
  destruct_or? Hc; subst; simpl in Hv; repeat case_match; lia.
Qed.

(** The accepted encodings of [v]: its canonical digits, and for ten-byte
    encodings the canonical digits up to the unused bits of the last byte. *)
Lemma decode_varint_inv buf v n : is_bytes buf -> decode_varint buf = Ok (v, n) ->
  exists pre last suf, buf = pre ++ last :: suf /\ n = zlen pre + 1 /\ n <= 10 /\
    0 <= last < 128 /\ varint_bytes v = pre ++ [top_digit n last].
Proof.
  intros Hb H. unfold decode_varint in H. destruct buf as [|b0 buf]; [done|].
  destruct (decode_loop (b0 :: buf) 0 0 0) as [[v' n']| |] eqn:E; cbn [obind] in H; try done.
  destruct (Z.eqb_spec (varint_len v') n') as [Hlen|]; [|done]. simpl in H; simplify_eq.
  apply (decode_loop_inv _ 0 0) in E as (pre & last & suf & -> & Hpre & Hl & Hn & Hn' & Hv); [|done|lia|done].
  change (2 ^ (7 * 0)) with 1 in Hv. rewrite Z.mul_1_r, Z.add_0_l in Hv.
  exists pre, last, suf. repeat split; try lia.
  pose proof (cont_value_bound pre Hpre). pose proof (zlen_nonneg pre).
  assert (0 <= top_digit (varint_len v) last < 128).
  { unfold top_digit. case_match; [|done]. pose proof (Z.mod_pos_bound last 2). lia. }
  unfold varint_bytes. rewrite Hv at 1. apply digits_app; [done|unfold zlen in *; lia|done|].
  intros Hne. destruct (decide (top_digit (varint_len v) last = 0)) as [Hz|]; [|lia].
  rewrite Hz in Hv. assert (1 <= zlen pre) by (destruct pre; [done|len]).
  pose proof (varint_len_upper v (zlen pre)). lia.
Qed.

(** The shape a streaming reader relies on: continuation bytes, then a final byte. *)
Lemma digits_shape k v : 0 <= v < 128 ^ (1 + Z.of_nat k) ->
  exists pre last, digits (S k) v = pre ++ [last] /\ Forall (fun b => 128 <= b < 256) pre /\
    0 <= last < 128.
Proof.
  revert v. induction k as [|k IH]; intros v Hv; rewrite digits_S.
  - simpl in Hv. replace (v <? 128) with true by lia. exists [], v. repeat split; [constructor|lia..].
  - destruct (Z.ltb_spec v 128).
    + exists [], v. repeat split; [constructor|lia..].
    + destruct (IH (v / 128)) as (pre & last & -> & Hp & Hl).
      { split; [apply Z.div_pos; lia|]. apply Z.div_lt_upper_bound; [lia|].
        rewrite <- Z.pow_succ_r by lia. replace (Z.succ _) with (1 + Z.of_nat (S k)) by lia. apply Hv. }
      exists (v mod 128 + 128 :: pre), last. repeat split; try apply Hl. constructor; [|done].
      pose proof (Z.mod_pos_bound v 128). lia.
Qed.

Lemma varint_shape v : fits 64 v ->
  exists pre last, varint_bytes v = pre ++ [last] /\ Forall (fun b => 128 <= b < 256) pre /\
    0 <= last < 128.
Proof. intros Hf. apply (digits_shape 9). unfold fits in Hf. simpl. lia. Qed.

(** Bytes after the varint do not change what is decoded. *)
Lemma decode_loop_app l r value shift i x :
  decode_loop l value shift i = Ok x -> decode_loop (l ++ r) value shift i = Ok x.
Proof.
  revert value shift i. induction l as [|b l IH]; intros value shift i; [done|].
  cbn [decode_loop app]. case_match; [done|]. intros Hl.
  apply obind_ok_inv in Hl as (v & Hv & Hl). rewrite Hv. cbn [obind]. revert Hl.
  destruct (Z.land b 0x80 =? 0); [done|apply IH].
Qed.

Lemma decode_varint_app l r x : decode_varint l = Ok x -> decode_varint (l ++ r) = Ok x.
Proof.
  destruct l as [|b l]; [done|]. cbn [decode_varint app]. intros H.
  apply obind_ok_inv in H as ([v n] & Hv & H).
  change (b :: l ++ r) with ((b :: l) ++ r). by rewrite (decode_loop_app _ r _ _ _ _ Hv).
Qed.

(** Varints round-trip whatever follows them: [encode_varint] into any large enough buffer
    writes [varint_len v] bytes at its front and nothing else, and decoding them gives [v]. *)
Theorem varint_roundtrip v buf rest : fits 64 v -> varint_len v <= zlen buf ->
  exists out, encode_varint v buf = Ok (out ++ drop (Z.to_nat (varint_len v)) buf, varint_len v) /\
    zlen out = varint_len v /\ decode_varint (out ++ rest) = Ok (v, varint_len v).
Proof.
  intros Hv Hl. exists (varint_bytes v). split_and!.
  - by apply encode_varint_spec.
  - by apply zlen_varint_bytes.
  - by apply decode_varint_bytes.
Qed.

(** Canonicity of the decoder: what it accepts as [v] in fewer than ten bytes is exactly the
    encoding of [v]; in ten bytes it is the encoding of [v] up to the high bits of the last byte. *)
Theorem varint_canonical buf v n : is_bytes buf -> decode_varint buf = Ok (v, n) ->
  (n < 10 -> take (Z.to_nat n) buf = varint_bytes v) /\
  (n = 10 -> exists pre last, take 10 buf = pre ++ [last] /\ varint_bytes v = pre ++ [last mod 2]).
Proof.
  intros Hb H. destruct (decode_varint_inv buf v n Hb H) as (pre & last & suf & -> & Hn & Hn' & Hl & Hv).
  assert (Htake : take (Z.to_nat n) (pre ++ last :: suf) = pre ++ [last]).
  { replace (Z.to_nat n) with (length pre + 1)%nat by (unfold zlen in Hn; lia). by rewrite take_app_add. }
  unfold top_digit in Hv. split; intros Hc.
  - rewrite (proj2 (Z.eqb_neq n 10)) in Hv by lia. by rewrite Htake, Hv.
  - subst n. rewrite Hc in *. exists pre, last. by split.
Qed.

(** The decoder is not canonical: ten bytes whose last one has bits beyond the sixty-fourth
    are accepted as [u64::MAX], a value whose only encoding ends in 1. *)
Theorem varint_noncanonical_accepted :
  decode_varint (replicate 9 255 ++ [0x7F]) = Ok (2 ^ 64 - 1, 10) /\
  varint_bytes (2 ^ 64 - 1) = replicate 9 255 ++ [1].
Proof. by vm_compute. Qed.

#[global] Opaque varint_bytes varint_len encode_varint decode_varint put_varint.

End Varint.

(** ** The theorems at concrete values *)
Module VarintExamples.

Lemma varint_roundtrip_witness :
  exists out, Varint.encode_varint 300 [7; 7; 7] = Ok (out ++ [7], 2) /\ zlen out = 2 /\
    Varint.decode_varint (out ++ [9]) = Ok (300, 2).
Proof. apply (Varint.varint_roundtrip 300 [7; 7; 7] [9]); by vm_compute. Defined.

Lemma varint_canonical_witness :
  (2 < 10 -> take 2 [172; 2; 9] = Varint.varint_bytes 300) /\
  (2 = 10 -> exists pre last, take 10 [172; 2; 9] = pre ++ [last] /\
     Varint.varint_bytes 300 = pre ++ [last mod 2]).
Proof.
  apply (Varint.varint_canonical [172; 2; 9] 300 2); [repeat constructor; lia|vm_compute; reflexivity].
Defined.

End VarintExamples.
