(* ===== verification/Wire.v ===== *)
(** Shared vocabulary of the payload codecs: identifiers
    (crates/velcrux-core/src/util/{hash,ulid}.rs), the varint-prefixed strings
    and index lists the message decoders read, and the [WireCodec] interface
    every payload implements. *)

From S2P Require Import Prelude Utf8 Protocol Varint.

(** [len] knows the bounds of the varints in the goal. *)
Ltac len_facts ::=
  repeat match goal with
  | |- context [Varint.varint_len ?v] =>
      lazymatch goal with
      | _ : 1 <= Varint.varint_len v <= 10 |- _ => fail
      | _ => pose proof (Varint.varint_len_bounds v)
      end
  end.

(** ** Identifiers *)

Definition CHUNK_HASH_BYTES : Z := 32.
(** [Hash::from_bytes]. *)
Definition Hash_from_bytes (b : bytes) : option Hash :=
  if negb (zlen b =? CHUNK_HASH_BYTES) then None else Some b.
(** [TransferId::from_bytes]. *)
Definition TransferId_from_bytes (b : bytes) : option TransferId :=
  if negb (zlen b =? 16) then None else Some b.
Definition Hash_ZERO : Hash := replicate 32 0.

(** The invariant of the array types [[u8; 32]] and [[u8; 16]]. *)
Definition wf_hash (h : Hash) : Prop := is_bytes h /\ zlen h = 32.
Definition wf_id (t : TransferId) : Prop := is_bytes t /\ zlen t = 16.
(** The invariants of [String] and of a byte slice: no allocation exceeds
    [isize::MAX] bytes. *)
Definition wf_str (s : bytes) : Prop := Utf8.utf8_valid s = true /\ zlen s < 2 ^ 63.
Definition is_buf (p : bytes) : Prop := is_bytes p /\ zlen p < 2 ^ 63.

Lemma Hash_from_bytes_ok h : zlen h = 32 -> Hash_from_bytes h = Some h.
Proof. unfold Hash_from_bytes. by intros ->. Qed.
Lemma TransferId_from_bytes_ok h : zlen h = 16 -> TransferId_from_bytes h = Some h.
Proof. unfold TransferId_from_bytes. by intros ->. Qed.
Lemma Hash_from_bytes_Some b h : Hash_from_bytes b = Some h -> h = b /\ zlen b = 32.
Proof.
  unfold Hash_from_bytes, CHUNK_HASH_BYTES. destruct (Z.eqb_spec (zlen b) 32); naive_solver.
Qed.
Lemma TransferId_from_bytes_Some b h : TransferId_from_bytes b = Some h -> h = b /\ zlen b = 16.
Proof. unfold TransferId_from_bytes. destruct (Z.eqb_spec (zlen b) 16); naive_solver. Qed.

Lemma wf_str_fits s : wf_str s -> fits 64 (zlen s).
Proof. intros [_ H]. pose proof (zlen_nonneg s). unfold fits. lia. Qed.

Lemma wf_str_bytes s : wf_str s -> is_bytes s.
Proof.
  intros [Hs _]. revert Hs. remember (length s) as k eqn:Hk. revert s Hk.
  induction k as [k IH] using lt_wf_ind. intros s -> Hs. destruct s as [|b s]; [constructor|].
  assert (Hb : fits 8 b).
  { cbn in Hs. unfold Utf8.in_range in Hs. unfold fits. destruct s as [|? [|? [|? ?]]];
      repeat case_match; rewrite ?andb_true_iff in *; try done; lia. }
  destruct (Utf8.utf8_valid_cons_inv b s Hs) as (c & r & Heq & Hr & Hc & _).
  rewrite Heq. apply Forall_app. split; [constructor; [done|]|].
  - eapply Forall_impl; [done|]. unfold Utf8.is_cont, Utf8.in_range, fits. simpl. lia.
  - eapply IH; [|done|done]. rewrite Heq, length_app. simpl. lia.
Qed.

(** Hexadecimal text of a hash: [Hash::from_hex] and [Display]. *)
Definition to_digit16 (c : Z) : option Z :=
  if (48 <=? c) && (c <=? 57) then Some (c - 48)
  else if (97 <=? c) && (c <=? 102) then Some (c - 87)
  else if (65 <=? c) && (c <=? 70) then Some (c - 55)
  else None.
Fixpoint hex_pairs (s : bytes) : option bytes :=
  match s with
  | [] => Some []
  | h :: l :: s' =>
      high ← to_digit16 h; low ← to_digit16 l; r ← hex_pairs s';
      Some (Z.lor (Z.shiftl high 4) low :: r)
  | _ => None
  end.
Definition Hash_from_hex (s : bytes) : option Hash :=
  if negb (zlen s =? CHUNK_HASH_BYTES * 2) then None else hex_pairs s.
Definition HEX : bytes := Utf8.str_bytes "0123456789abcdef".
Definition hex_byte (b : Z) : bytes :=
  [default 0 (HEX !! Z.to_nat (Z.shiftr b 4)); default 0 (HEX !! Z.to_nat (Z.land b 0xF))].
Definition Hash_to_hex (h : Hash) : bytes := mjoin (hex_byte <$> h).

(** ** Strings with a varint length *)

(** [let (n, c) = decode_varint(&buf[i..])?; ...; from_utf8(&buf[i..end])], with the
    error texts of the message at hand; returns the string and the new offset. *)
Definition read_str (e_large e_over e_trunc e_utf8 : string) (buf : bytes) (i : Z)
    : presult (bytes * Z) :=
  let? rest := slice_from buf i in
  let? '(n, c) := Varint.decode_varint rest in
  let i := i + c in
  let? n_us := ok_or (usize_try_from n) (Malformed e_large) in
  let? e := ok_or (checked_add 64 i n_us) (Malformed e_over) in
  if zlen buf <? e then Err (Malformed e_trunc) else
  let? raw := slice buf i e in
  let? s := ok_or (Utf8.from_utf8 raw) (Malformed e_utf8) in
  Ok (s, e).

(** The matching encoder: varint length, then the bytes. *)
Definition put_str (s : bytes) : presult bytes :=
  let? l := Varint.put_varint (zlen s) in Ok (l ++ s).

(** [match buf[i] { 0 => false, 1 => true, _ => return Err(..) }]. *)
Definition read_bool (e : string) (buf : bytes) (i : Z) : presult bool :=
  let? b := index buf i in
  if b =? 0 then Ok false else if b =? 1 then Ok true else Err (Malformed e).

(** ** Strictly increasing index lists *)

Fixpoint read_indices (e_trunc e_mono : string) (count : nat) (buf : bytes) (i : Z)
    (prev : option Z) : presult (list Z * Z) :=
  match count with
  | O => Ok ([], i)
  | S count' =>
      if zlen buf <=? i then Err (Malformed e_trunc) else
      let? rest := slice_from buf i in
      let? '(idx, c) := Varint.decode_varint rest in
      let i := i + c in
      if match prev with Some p => idx <=? p | None => false end
      then Err (Malformed e_mono) else
      let? '(l, i) := read_indices e_trunc e_mono count' buf i (Some idx) in
      Ok (idx :: l, i)
  end.

Fixpoint put_indices (l : list Z) : presult bytes :=
  match l with
  | [] => Ok []
  | idx :: l' => let? v := Varint.put_varint idx in let? r := put_indices l' in Ok (v ++ r)
  end.

(** Strictly increasing, starting above [prev]. *)
Definition above (prev : option Z) (l : list Z) : Prop :=
  match prev with Some p => Forall (fun x => p < x) l | None => True end.
Definition increasing (l : list Z) : Prop := StronglySorted Z.lt l.

(** ** Lemmas *)

Lemma slice_of_slice_from {E A} (buf r : list A) i x y :
  @slice_from E A buf i = Ok r -> 0 <= x -> @slice E A buf (i + x) (i + y) = slice r x y.
Proof.
  unfold slice_from, slice at 1. intros H Hx.
  destruct ((0 <=? i) && (i <=? zlen buf) && (zlen buf <=? zlen buf)) eqn:Hi; [|done].
  assert (r = drop (Z.to_nat i) buf) as ->.
  { injection H as <-. apply take_ge. rewrite length_drop. unfold zlen. lia. }
  unfold slice. rewrite zlen_drop, drop_drop, Z2Nat.id by lia.
  replace (Z.to_nat i + Z.to_nat x)%nat with (Z.to_nat (i + x)) by lia.
  replace (i + y - (i + x)) with (y - x) by lia.
  destruct ((0 <=? i + x) && (i + x <=? i + y) && (i + y <=? zlen buf)) eqn:H1,
    ((0 <=? x) && (x <=? y) && (y <=? Z.max 0 (zlen buf - i))) eqn:H2; auto; lia.
Qed.

Lemma slice_from_length {E A} (buf r : list A) i :
  @slice_from E A buf i = Ok r -> 0 <= i /\ zlen buf = i + zlen r.
Proof.
  unfold slice_from, slice. intros H.
  destruct ((0 <=? i) && (i <=? zlen buf) && (zlen buf <=? zlen buf)) eqn:Hi; [|done].
  injection H as <-. rewrite zlen_take, zlen_drop. pose proof (zlen_nonneg buf). lia.
Qed.

Lemma slice_from_from {E A} (buf r : list A) i x :
  @slice_from E A buf i = Ok r -> 0 <= x -> @slice_from E A buf (i + x) = slice_from r x.
Proof.
  intros H Hx. destruct (slice_from_length _ _ _ H) as [_ Hl]. unfold slice_from at 1.
  rewrite Hl. by apply slice_of_slice_from.
Qed.

Lemma read_bool_skip e a b i : zlen a <= i -> read_bool e (a ++ b) i = read_bool e b (i - zlen a).
Proof. intros. unfold read_bool. by rewrite index_skip. Qed.

Lemma read_bool_here e (f : bool) b i : i = 0 -> read_bool e (push (Z.b2z f) ++ b) i = Ok f.
Proof. intros. unfold read_bool. rewrite index_here by done. by destruct f. Qed.

Lemma wp_read_bool e buf i (Q : bool -> Prop) : is_bytes buf -> 0 <= i < zlen buf ->
  (forall b, Q b) -> wp (read_bool e buf i) Q.
Proof.
  intros. unfold read_bool. apply wp_bind, wp_index_byte; [done|done|]. intros b _.
  repeat (apply wp_if; intros _); simpl; auto.
Qed.

Section read_str.
Context (el eo et eu : string).

Lemma read_str_at buf i s post :
    slice_from buf i = @Ok ProtocolError _ (Varint.varint_bytes (zlen s) ++ s ++ post) ->
    wf_str s -> zlen buf < 2 ^ 63 ->
    read_str el eo et eu buf i = Ok (s, i + Varint.varint_len (zlen s) + zlen s).
  Proof.
    intros Hf [Hs _] Hlen. unfold read_str. rewrite Hf. cbn [obind].
    destruct (slice_from_length _ _ _ Hf) as [Hi Hbuf].
    pose proof (zlen_nonneg s). pose proof (zlen_nonneg post).
    assert (Hfit : fits 64 (zlen s)).
    { split; [done|]. rewrite Hbuf, !zlen_app in Hlen.
      pose proof (zlen_nonneg (Varint.varint_bytes (zlen s))). lia. }
    rewrite !zlen_app, Varint.zlen_varint_bytes in Hbuf by done.
    rewrite Varint.decode_varint_bytes by done. cbn [obind].
    rewrite usize_try_from_ok by done. cbn [ok_or obind].
    rewrite checked_add_ok by lia. cbn [ok_or obind].
    replace (zlen buf <? _) with false by lia.
    rewrite <- Z.add_assoc, (slice_of_slice_from _ _ _ _ _ Hf)
      by (pose proof (Varint.varint_len_bounds (zlen s)); lia).
    rewrite slice_skip, slice_here
      by (rewrite ?Varint.zlen_varint_bytes by done; lia). cbn [obind].
    by rewrite Utf8.from_utf8_ok.
  Qed.

Lemma read_str_end buf i s :
    slice_from buf i = @Ok ProtocolError _ (Varint.varint_bytes (zlen s) ++ s) ->
    wf_str s -> zlen buf < 2 ^ 63 ->
    read_str el eo et eu buf i = Ok (s, i + Varint.varint_len (zlen s) + zlen s).
  Proof. intros H. apply (read_str_at _ _ _ []). by rewrite app_nil_r. Qed.

Lemma wp_read_str buf i (Q : bytes * Z -> Prop) : is_buf buf -> 0 <= i <= zlen buf ->
    (forall s e, wf_str s -> i < e -> i + 1 + zlen s <= e <= zlen buf -> Q (s, e)) ->
    wp (read_str el eo et eu buf i) Q.
  Proof.
    intros [Hb Hbl] Hi HQ. unfold read_str. apply wp_bind, wp_slice_from; [done|].
    intros rest _ Hrest HP. apply wp_bind, Varint.wp_decode_varint; [by apply HP|].
    intros n c Hn Hc Hc' _. apply wp_bind, wp_ok_or. intros ? [-> _]%usize_try_from_Some.
    apply wp_bind, wp_ok_or. intros e [-> He]%checked_add_Some. unfold fits in Hn.
    apply wp_if; [done|intros Htr]. apply wp_bind, wp_slice; [lia|lia|].
    intros raw _ Hraw _. apply wp_bind, wp_ok_or. intros s [-> Hv]%Utf8.from_utf8_Some.
    apply HQ; [split; [done|lia]|lia|lia].
  Qed.
End read_str.

Lemma put_str_spec s : fits 64 (zlen s) -> put_str s = Ok (Varint.varint_bytes (zlen s) ++ s).
Proof. intros. unfold put_str. by rewrite Varint.put_varint_spec. Qed.

(** The concatenated canonical varints of an index list. *)
Definition indices_bytes (l : list Z) : bytes := mjoin (Varint.varint_bytes <$> l).

Lemma indices_bytes_cons x l : indices_bytes (x :: l) = Varint.varint_bytes x ++ indices_bytes l.
Proof. done. Qed.

Lemma put_indices_spec l : Forall (fits 64) l -> put_indices l = Ok (indices_bytes l).
Proof.
  induction 1 as [|x l Hx Hl IH]; [done|]. cbn [put_indices].
  rewrite Varint.put_varint_spec by done. cbn [obind]. by rewrite IH.
Qed.

Lemma wp_put_varint v (Q : bytes -> Prop) :
  fits 64 v -> Q (Varint.varint_bytes v) -> wp (Varint.put_varint v) Q.
Proof. intros. by rewrite Varint.put_varint_spec. Qed.

Lemma wp_put_indices l (Q : bytes -> Prop) :
  Forall (fits 64) l -> Q (indices_bytes l) -> wp (put_indices l) Q.
Proof. intros. by rewrite put_indices_spec. Qed.

Section read_indices.
Context (et em : string).

Lemma read_indices_at l buf i prev post :
    slice_from buf i = @Ok ProtocolError _ (indices_bytes l ++ post) ->
    Forall (fits 64) l -> increasing l -> above prev l ->
    read_indices et em (length l) buf i prev = Ok (l, i + zlen (indices_bytes l)).
  Proof.
    revert i prev. induction l as [|x l IH]; intros i prev Hf Hl Hs Hp.
    { cbn. do 2 f_equal. unfold zlen; simpl; lia. }
    apply Forall_cons in Hl as [Hx Hl]. apply StronglySorted_inv in Hs as [Hs Hxl].
    cbn [length read_indices]. rewrite indices_bytes_cons, <- app_assoc in Hf.
    destruct (slice_from_length _ _ _ Hf) as [Hi Hlen].
    rewrite !zlen_app, Varint.zlen_varint_bytes in Hlen by done.
    pose proof (Varint.varint_len_bounds x). pose proof (zlen_nonneg (indices_bytes l)).
    pose proof (zlen_nonneg post). replace (zlen buf <=? i) with false by lia.
    rewrite Hf. cbn [obind]. rewrite Varint.decode_varint_bytes by done. cbn [obind].
    replace (match prev with Some p => x <=? p | None => false end) with false.
    2:{ destruct prev as [p|]; [|done]. apply Forall_cons in Hp as [Hp _]. lia. }
    rewrite (IH (i + Varint.varint_len x) (Some x)).
    - cbn [obind]. do 2 f_equal. rewrite indices_bytes_cons, zlen_app, Varint.zlen_varint_bytes by done. lia.
    - unfold slice_from in *. replace (zlen buf) with (i + (zlen buf - i)) at 1 by lia.
      rewrite (slice_of_slice_from _ _ _ _ _ Hf) by lia.
      rewrite slice_skip by (rewrite Varint.zlen_varint_bytes by done; lia).
      apply slice_all; rewrite ?Varint.zlen_varint_bytes, ?zlen_app by done; lia.
    - done.
    - done.
    - by eapply Forall_impl; [apply Hxl|].
  Qed.

Lemma read_indices_end l buf i :
    slice_from buf i = @Ok ProtocolError _ (indices_bytes l) ->
    Forall (fits 64) l -> increasing l ->
    read_indices et em (Z.to_nat (zlen l)) buf i None = Ok (l, i + zlen (indices_bytes l)).
  Proof.
    intros. unfold zlen at 1. rewrite Nat2Z.id. apply (read_indices_at l buf i None []); try done.
    by rewrite app_nil_r.
  Qed.

Lemma wp_read_indices k buf i prev (Q : list Z * Z -> Prop) : is_bytes buf -> 0 <= i ->
    (forall l e, length l = k -> Forall (fits 64) l -> increasing l -> above prev l ->
       i <= e -> Q (l, e)) ->
    wp (read_indices et em k buf i prev) Q.
  Proof.
    revert i prev Q. induction k as [|k IH]; intros i prev Q Hb Hi HQ; cbn [read_indices].
    { apply wp_ok, HQ; [done|constructor|constructor|destruct prev; constructor|lia]. }
    apply wp_if; [done|intros Hlt]. apply wp_bind, wp_slice_from; [lia|].
    intros rest _ Hrest HP. apply wp_bind, Varint.wp_decode_varint; [by apply HP|].
    intros idx c Hidx Hc Hc' _. apply wp_if; [done|intros Hmono].
    apply wp_bind, IH; [done|lia|]. intros l e Hk Hl Hs Ha He. apply wp_ok, HQ.
    - simpl. lia.
    - by constructor.
    - by constructor.
    - destruct prev as [p|]; [|done]. constructor; [lia|].
      eapply Forall_impl; [apply Ha|]. simpl. lia.
    - lia.
  Qed.
End read_indices.

(** ** The codec interface *)

(** What a message payload promises to the dispatcher: [codec_ok] holds of every
    value the decoder returns, the decoder inverts the encoder on such values,
    and neither direction panics. *)
Class WireCodec (A : Type) := {
  codec_encode : A -> presult bytes;
  codec_decode : bytes -> presult A;
  codec_ok : A -> Prop;
  codec_roundtrip a p :
    codec_ok a -> codec_encode a = Ok p -> zlen p < 2 ^ 63 -> codec_decode p = Ok a;
  codec_safe p : is_buf p -> wp (codec_decode p) codec_ok;
  codec_total a : codec_ok a -> wp (codec_encode a) is_bytes
}.

(** Decoding is stable: whatever a decoded value re-encodes to decodes to it again. *)
Lemma codec_stable `{WireCodec A} p a p' : is_buf p -> codec_decode p = Ok a ->
  codec_encode a = Ok p' -> zlen p' < 2 ^ 63 -> codec_decode p' = Ok a.
Proof. intros Hp Hd. apply codec_roundtrip. eapply wp_inv; [by apply codec_safe|done]. Qed.

(** Two decodable values with the same encoding are equal. *)
Lemma codec_inj `{WireCodec A} a b p : codec_ok a -> codec_ok b ->
  codec_encode a = Ok p -> codec_encode b = Ok p -> zlen p < 2 ^ 63 -> a = b.
Proof.
  intros Ha Hb Ea Eb Hp. pose proof (codec_roundtrip a p Ha Ea Hp) as H1.
  rewrite (codec_roundtrip b p Hb Eb Hp) in H1. by injection H1.
Qed.

(** ** Tactics of the payload codecs *)

Lemma wf_hash_bytes h : wf_hash h -> is_bytes h.
Proof. by intros []. Qed.
Lemma wf_id_bytes h : wf_id h -> is_bytes h.
Proof. by intros []. Qed.

Lemma indices_bytes_bytes l : Forall (fits 64) l -> is_bytes (indices_bytes l).
Proof.
  induction 1; [constructor|]. rewrite indices_bytes_cons. apply Forall_app.
  split; [by apply Varint.is_bytes_varint|done].
Qed.

Lemma is_bytes_app a b : is_bytes a -> is_bytes b -> is_bytes (a ++ b).
Proof. apply Forall_app_2. Qed.

Lemma is_bytes_sub l s : (forall P, Forall P l -> Forall P s) -> is_bytes l -> is_bytes s.
Proof. intros H. apply H. Qed.

Lemma is_bytes_nil : is_bytes [].
Proof. constructor. Qed.

Create HintDb is_bytes.
#[export] Hint Resolve is_bytes_app is_bytes_zeros is_bytes_to_le Varint.is_bytes_varint wf_str_bytes wf_str_fits
  wf_hash_bytes wf_id_bytes indices_bytes_bytes is_bytes_push is_bytes_sub is_bytes_nil : is_bytes.
Lemma fits_b2z f : fits 8 (Z.b2z f).
Proof. by destruct f. Qed.
#[export] Hint Resolve fits_b2z : is_bytes.
#[export] Hint Extern 5 (fits _ _) => (apply wrap_fits; lia) : is_bytes.
#[export] Hint Extern 6 (fits _ _) => (unfold fits, zlen in *; lia) : is_bytes.

#[export] Hint Rewrite Varint.zlen_varint_bytes
  using (first [assumption | apply wf_str_fits; assumption | (unfold fits, zlen in *; lia)]) : len.

Ltac step_slice_from :=
  match goal with
  | |- @slice_from ?E ?A (?a ++ ?b) ?i = _ =>
      first [ rewrite (@slice_from_0 E A (a ++ b) i) by len
            | rewrite (@slice_from_skip E A a b i) by len ]
  | |- @slice_from ?E ?A ?a ?i = _ => rewrite (@slice_from_0 E A a i) by len
  end.

(** Run [read_str], [decode_varint] and the conversions on encoder output. *)
Ltac run_wire :=
  match goal with
  | |- context [read_str ?a ?b ?c ?d ?buf ?i] =>
      let H := fresh in
      eassert (H : @slice_from ProtocolError Z buf i = Ok _)
        by (repeat step_slice_from; reflexivity);
      first [ rewrite (read_str_at a b c d buf i _ _ H) by (assumption || len)
            | rewrite (read_str_end a b c d buf i _ H) by (assumption || len) ];
      clear H; cbn [obind]
  | |- context [Varint.decode_varint (Varint.varint_bytes ?v ++ _)] =>
      rewrite (Varint.decode_varint_bytes v) by (assumption || (unfold fits; len)); cbn [obind]
  | |- context [read_indices ?a ?b _ ?buf ?i None] =>
      let H := fresh in
      eassert (H : @slice_from ProtocolError Z buf i = Ok _)
        by (repeat step_slice_from; reflexivity);
      rewrite (read_indices_end a b _ buf i H) by assumption; clear H; cbn [obind]
  | |- context [Hash_from_bytes ?h] =>
      rewrite (Hash_from_bytes_ok h) by (assumption || len); cbn [ok_or obind]
  | |- context [TransferId_from_bytes ?h] =>
      rewrite (TransferId_from_bytes_ok h) by (assumption || len); cbn [ok_or obind]
  | |- context [Utf8.from_utf8 ?s] =>
      rewrite (Utf8.from_utf8_ok s) by assumption; cbn [ok_or obind]
  | |- context [usize_try_from ?v] =>
      rewrite (usize_try_from_ok v) by (assumption || (unfold fits; len)); cbn [ok_or obind]
  | |- context [checked_add ?w ?a ?b] =>
      rewrite (checked_add_ok w a b) by len; cbn [ok_or obind]
  | |- context [read_bool ?e (push (Z.b2z ?f) ++ ?b) ?i] =>
      first [ rewrite (read_bool_here e f b i) by len | rewrite (read_bool_skip e _ b i) by len ]
  | |- context [read_bool ?e (?a ++ ?b) ?i] => rewrite (read_bool_skip e a b i) by len
  | _ => run_step
  end.
Ltac run := repeat run_wire.

(** Walk a decoder with [wp], leaving only the postcondition. *)
Ltac wp_step :=
  match goal with
  | |- wp (obind _ _) _ => apply wp_bind
  | |- wp (Err _) _ => exact I
  | |- wp (if _ then _ else _) _ => apply wp_if; intros ?Hif
  | |- wp (slice _ _ _) _ => apply wp_slice; [lia|lia|intros ?s _ ?Hs ?HP]
  | |- wp (slice_from _ _) _ => apply wp_slice_from; [lia|intros ?s _ ?Hs ?HP]
  | |- wp (index _ _) _ => apply wp_index_byte; [assumption|lia|intros ?b ?Hb]
  | |- wp (read_le _ _ _) _ =>
      apply wp_read_le; [assumption|lia|lia|lia|
        let v := fresh "v" in let H := fresh "Hv" in intros v H; pose proof H as [?Hlo ?Hhi]]
  | |- wp (read_bool _ _ _) _ => apply wp_read_bool; [assumption|lia|intros ?f]
  | |- wp (read_str _ _ _ _ _ _) _ =>
      apply wp_read_str; [split; assumption|lia|intros ?s ?e ?Hs ?Hie ?He]
  | |- wp (Varint.decode_varint _) _ =>
      apply Varint.wp_decode_varint; [eauto with is_bytes|
        let v := fresh "v" in let H := fresh "Hv" in
        intros v ?n H ?Hn ?Hn' ?Hnv; pose proof H as [?Hlo ?Hhi]]
  | |- wp (ok_or (usize_try_from _) _) _ =>
      apply wp_ok_or; intros ? [-> ?H]%usize_try_from_Some
  | |- wp (ok_or (checked_add _ _ _) _) _ =>
      apply wp_ok_or; intros ? [-> ?H]%checked_add_Some
  | |- wp (ok_or (Hash_from_bytes _) _) _ =>
      apply wp_ok_or; intros ? [-> ?H]%Hash_from_bytes_Some
  | |- wp (ok_or (TransferId_from_bytes _) _) _ =>
      apply wp_ok_or; intros ? [-> ?H]%TransferId_from_bytes_Some
  | |- wp (ok_or (Utf8.from_utf8 _) _) _ =>
      apply wp_ok_or; intros ? [-> ?H]%Utf8.from_utf8_Some
  | |- wp (Varint.put_varint _) _ => apply wp_put_varint; [auto with is_bytes|]
  | |- wp (read_indices _ _ _ _ _ _) _ =>
      apply wp_read_indices; [assumption|lia|intros ?l ?e ?Hlen ?Hl ?Hinc _ ?He]
  | |- wp (put_indices _) _ => apply wp_put_indices; [auto with is_bytes|]
  | |- wp (Ok _) _ => apply wp_ok
  end.
Ltac wps := repeat wp_step.

(** The totality goal of an encoder: every branch is bytes. *)
Ltac solve_total := wps; auto 20 with is_bytes.

(** Replace the encoder's varints by their bytes in a hypothesis. *)
Ltac put_norm H :=
  repeat (rewrite Varint.put_varint_spec in H by auto with is_bytes; cbn [obind] in H);
  repeat (rewrite put_indices_spec in H by assumption; cbn [obind] in H).

(** Close the conjuncts of a payload invariant. *)
Ltac post :=
  hnf; cbn;
  repeat match goal with |- _ /\ _ => split end;
  try assumption;
  try (unfold fits, wf_str, wf_hash, wf_id in *; cbn in *; lia);
  try solve [eauto with is_bytes];
  try (repeat split; eauto with is_bytes; lia).
