(* ===== verification/MsgSession.v ===== *)
(** Session messages (crates/velcrux-core/src/protocol/message.rs, lines 95-680):
    HELLO, HELLO_ACK, AUTH, AUTH_OK, PING/PONG, BYE, ERROR, SESSION_INIT.
    One Module per payload: its struct, [encode], [decode], the values [decode]
    can return ([ok]) and the [WireCodec] instance. *)

From S2P Require Import Prelude Utf8 Protocol Varint Wire.

(** Integer maxima the encoders compare with. *)
Definition U8_MAX : Z := 255.
Definition U16_MAX : Z := 65535.

(** Filling a zeroed array field by field is concatenation. *)
Lemma copy_two a b x y n m : n = Z.of_nat a -> m = n + Z.of_nat b ->
  (let? out := copy_into (zeros (a + b)) 0 n (to_le a x) in copy_into out n m (to_le b y))
  = @Ok ProtocolError _ (to_le a x ++ to_le b y).
Proof.
  intros -> ->. rewrite copy_into_ok by len. cbn [obind]. change (Z.to_nat 0) with 0%nat.
  rewrite firstn_O. cbn [app]. rewrite copy_into_ok by len. f_equal. rewrite !Nat2Z.id.
  assert (Hl : length (to_le a x) = a) by (pose proof (zlen_to_le a x); unfold zlen in *; lia).
  rewrite take_app_length' by (symmetry; exact Hl). f_equal.
  rewrite (drop_ge (_ ++ _)); [apply app_nil_r|]. 
  pose proof (zlen_zeros (a + b)). unfold zlen in *. rewrite length_app, length_drop. lia.
Qed.

(** ** HELLO *)
Module Hello.

Record t := mk { versions : bytes; capabilities : Z; agent : bytes }.

Definition default_client : t :=
  let caps := Capabilities.EMPTY in
  let caps := Capabilities.set caps Capabilities.FixedChunking in
  let caps := Capabilities.set caps Capabilities.CdcChunking in
  let caps := Capabilities.set caps Capabilities.Blake3 in
  let caps := Capabilities.set caps Capabilities.CompressionZstd in
  let caps := Capabilities.set caps Capabilities.SparseFiles in
  let caps := Capabilities.set caps Capabilities.Symlinks in
  let caps := Capabilities.set caps Capabilities.Hardlinks in
  mk [Limits.PROTOCOL_VERSION] caps Limits.AGENT_STRING.

Definition encode (h : t) : presult bytes :=
  if U16_MAX <? zlen (agent h) then Err (Malformed "agent too long") else
  if U8_MAX <? zlen (versions h) then Err (Malformed "too many versions") else
  let? n := Varint.put_varint (zlen (agent h)) in
  Ok (push (wrap 8 (zlen (versions h))) ++ versions h
      ++ to_le 4 (Capabilities.to_wire (capabilities h)) ++ n ++ agent h).

Definition decode (buf : bytes) : presult t :=
  if zlen buf =? 0 then Err (Malformed "HELLO: empty") else
  let? count := index buf 0 in
  if zlen buf <? 1 + count then Err (Malformed "HELLO: truncated versions") else
  let i := 1 + count in
  if zlen buf <? i + 4 then Err (Malformed "HELLO: truncated capabilities") else
  let? versions := slice buf 1 (1 + count) in
  let? caps_raw := read_le buf i 4 in
  let capabilities := Capabilities.from_wire caps_raw in
  let i := i + 4 in
  let? '(agent, _) := read_str "HELLO: agent_len too large" "HELLO: agent_len overflow"
                        "HELLO: truncated agent" "HELLO: agent not UTF-8" buf i in
  Ok (mk versions capabilities agent).

Definition ok (h : t) : Prop :=
  is_bytes (versions h) /\ zlen (versions h) <= 255 /\
  capabilities h = Capabilities.from_wire (capabilities h) /\ wf_str (agent h).

Lemma hello_roundtrip h p : ok h -> encode h = Ok p -> zlen p < 2 ^ 63 -> decode p = Ok h.
Proof.
  destruct h as [vs caps ag]. intros (Hv & Hvl & Hc & Ha) He Hp. cbn in *. unfold encode in He.
  cbn in He. destruct (U16_MAX <? zlen ag) eqn:?; [done|]. destruct (U8_MAX <? zlen vs) eqn:?; [done|].
  put_norm He. simplify_eq.
  pose proof (Capabilities.from_wire_fits caps) as Hcf. rewrite <- Hc in Hcf.
  assert (Hcw : Capabilities.to_wire caps = caps) by done. rewrite Hcw in *.
  rewrite wrap_small in * by (unfold fits; len). unfold decode.
  run. by rewrite <- Hc.
Qed.

Lemma hello_safe p : is_buf p -> wp (decode p) ok.
Proof.
  intros [Hb Hl]. pose proof (zlen_nonneg p). unfold decode. wps.
  repeat split; cbn; eauto with is_bytes; try apply Hs0; try lia.
  by rewrite Capabilities.from_wire_idem.
Qed.

Lemma hello_total h : ok h -> wp (encode h) is_bytes.
Proof.
  intros (Hv & Hvl & Hc & Ha). unfold encode. solve_total.
Qed.

#[global] Instance hello_codec : WireCodec t := {|
  codec_roundtrip := hello_roundtrip; codec_safe := hello_safe; codec_total := hello_total |}.

End Hello.

(** ** HELLO_ACK *)
Module HelloAck.

(** [Limits], the server-side limits. *)
Record limits_t := mk_limits {
  max_message_size : Z; max_chunk_size : Z; max_manifest_entries : Z; max_concurrent_streams : Z }.

(** [Limits::default]. *)
Definition default_limits : limits_t :=
  mk_limits Limits.MAX_MESSAGE_SIZE Limits.MAX_CHUNK_SIZE Limits.MAX_MANIFEST_ENTRIES 32.

Record t := mk { version : Z; capabilities : Z; limits : limits_t; agent : bytes }.

Definition encode (h : t) : presult bytes :=
  if U16_MAX <? zlen (agent h) then Err (Malformed "agent too long") else
  let? n := Varint.put_varint (zlen (agent h)) in
  Ok (push (version h) ++ to_le 4 (Capabilities.to_wire (capabilities h))
      ++ to_le 8 (max_message_size (limits h)) ++ to_le 8 (max_chunk_size (limits h))
      ++ to_le 8 (max_manifest_entries (limits h)) ++ to_le 4 (max_concurrent_streams (limits h))
      ++ n ++ agent h).

Definition decode (buf : bytes) : presult t :=
  if zlen buf <? 1 + 4 + 8 * 3 + 4 then Err (Malformed "HELLO_ACK: truncated") else
  let? version := index buf 0 in
  let i := 1 in
  let? caps_raw := read_le buf i 4 in
  let capabilities := Capabilities.from_wire caps_raw in
  let i := i + 4 in
  let? max_message_size := read_le buf i 8 in
  let i := i + 8 in
  let? max_chunk_size := read_le buf i 8 in
  let i := i + 8 in
  let? max_manifest_entries := read_le buf i 8 in
  let i := i + 8 in
  let? max_concurrent_streams := read_le buf i 4 in
  let i := i + 4 in
  let? '(agent, _) := read_str "HELLO_ACK: agent_len too large" "HELLO_ACK: agent_len overflow"
                        "HELLO_ACK: truncated agent" "HELLO_ACK: agent not UTF-8" buf i in
  Ok (mk version capabilities
        (mk_limits max_message_size max_chunk_size max_manifest_entries max_concurrent_streams) agent).

Definition ok (h : t) : Prop :=
  fits 8 (version h) /\ capabilities h = Capabilities.from_wire (capabilities h) /\
  fits 64 (max_message_size (limits h)) /\ fits 64 (max_chunk_size (limits h)) /\
  fits 64 (max_manifest_entries (limits h)) /\ fits 32 (max_concurrent_streams (limits h)) /\
  wf_str (agent h).

Lemma hello_ack_roundtrip h p : ok h -> encode h = Ok p -> zlen p < 2 ^ 63 -> decode p = Ok h.
Proof.
  destruct h as [v caps [l1 l2 l3 l4] ag]. intros (Hv & Hc & H1 & H2 & H3 & H4 & Ha) He Hp.
  unfold encode in He. cbn in *. destruct (U16_MAX <? zlen ag) eqn:?; [done|]. put_norm He. simplify_eq.
  pose proof (Capabilities.from_wire_fits caps) as Hcf. rewrite <- Hc in Hcf.
  assert (Hcw : Capabilities.to_wire caps = caps) by done. rewrite Hcw in *. unfold decode.
  run. by rewrite <- Hc.
Qed.

Lemma hello_ack_safe p : is_buf p -> wp (decode p) ok.
Proof.
  intros [Hb Hl]. pose proof (zlen_nonneg p). unfold decode. wps.
  repeat split; cbn; try done; try apply Hs; try apply Hv; try apply Hv0; try apply Hv1;
    try apply Hv2; try apply Hv3; try lia.
  by rewrite Capabilities.from_wire_idem.
Qed.

Lemma hello_ack_total h : ok h -> wp (encode h) is_bytes.
Proof. intros (Hv & Hc & _ & _ & _ & _ & Ha). unfold encode. solve_total. Qed.

#[global] Instance hello_ack_codec : WireCodec t := {|
  codec_roundtrip := hello_ack_roundtrip; codec_safe := hello_ack_safe;
  codec_total := hello_ack_total |}.

End HelloAck.

(** ** AUTH *)
Module Auth.

Definition AUTH_MECHANISM_MTLS : Z := 0.
Definition AUTH_MECHANISM_SSH_PUBKEY : Z := 1.

Record t := mk { mechanism : Z; token : bytes }.

Definition mtls : t := mk AUTH_MECHANISM_MTLS [].

Definition encode (a : t) : presult bytes :=
  if Limits.MAX_AUTH_TOKEN <? zlen (token a) then Err (Malformed "AUTH: token too long") else
  Ok (to_le 2 (mechanism a) ++ to_le 2 0 ++ to_le 4 (wrap 32 (zlen (token a))) ++ token a).

Definition decode (buf : bytes) : presult t :=
  if zlen buf <? 8 then Err (Malformed "AUTH: truncated") else
  let? mechanism := read_le buf 0 2 in
  let? token_len := read_le buf 4 4 in
  if Limits.MAX_AUTH_TOKEN <? token_len then Err (Malformed "AUTH: token too long") else
  if zlen buf <? 8 + token_len then Err (Malformed "AUTH: truncated token") else
  if negb (mechanism =? AUTH_MECHANISM_MTLS) && negb (mechanism =? AUTH_MECHANISM_SSH_PUBKEY)
  then Err (Malformed "AUTH: unknown mechanism") else
  let? token := slice buf 8 (8 + token_len) in
  Ok (mk mechanism token).

Definition ok (a : t) : Prop :=
  (mechanism a = AUTH_MECHANISM_MTLS \/ mechanism a = AUTH_MECHANISM_SSH_PUBKEY) /\
  is_bytes (token a) /\ zlen (token a) <= Limits.MAX_AUTH_TOKEN.

Lemma auth_roundtrip a p : ok a -> encode a = Ok p -> zlen p < 2 ^ 63 -> decode p = Ok a.
Proof.
  destruct a as [m tk]. intros (Hm & Hb & Hl) He Hp. unfold encode in He. cbn in *.
  destruct (Limits.MAX_AUTH_TOKEN <? zlen tk) eqn:?; [done|]. unfold Limits.MAX_AUTH_TOKEN in *.
  rewrite wrap_small in He by (unfold fits; len). simplify_eq. unfold decode.
  assert (Hmf : fits (8 * 2) m) by by destruct Hm as [-> | ->].
  assert (Htf : fits (8 * 4) (zlen tk)) by (unfold fits; len).
  assert (Htest : negb (m =? AUTH_MECHANISM_MTLS) && negb (m =? AUTH_MECHANISM_SSH_PUBKEY) = false)
    by by destruct Hm as [-> | ->].
  unfold Limits.MAX_AUTH_TOKEN. run. rewrite Htest. by run.
Qed.

Lemma auth_safe p : is_buf p -> wp (decode p) ok.
Proof.
  intros [Hb Hl]. unfold decode. wps; try (unfold fits in *; lia). unfold fits in *. wps.
  unfold ok, AUTH_MECHANISM_MTLS, AUTH_MECHANISM_SSH_PUBKEY in *.
  repeat split; cbn; [lia|eauto with is_bytes|lia].
Qed.

Lemma auth_total a : ok a -> wp (encode a) is_bytes.
Proof. intros (_ & Hb & _). unfold encode. solve_total. Qed.

#[global] Instance auth_codec : WireCodec t := {|
  codec_roundtrip := auth_roundtrip; codec_safe := auth_safe; codec_total := auth_total |}.

End Auth.

(** ** AUTH_OK *)
Module AuthOk.

Record t := mk { identity : bytes; permissions : Z }.

Definition encode (a : t) : presult bytes :=
  if Limits.MAX_IDENTITY_LEN <? zlen (identity a)
  then Err (Malformed "AUTH_OK: identity too long") else
  let? n := Varint.put_varint (zlen (identity a)) in
  Ok (n ++ identity a ++ to_le 8 (permissions a)).

Definition decode (buf : bytes) : presult t :=
  if zlen buf =? 0 then Err (Malformed "AUTH_OK: empty") else
  let? '(ilen, consumed) := Varint.decode_varint buf in
  let i := consumed in
  let? ilen_us := ok_or (usize_try_from ilen) (Malformed "AUTH_OK: identity_len too large") in
  if Limits.MAX_IDENTITY_LEN <? ilen_us then Err (Malformed "AUTH_OK: identity too long") else
  let? off := ok_or (checked_add 64 i ilen_us) (Malformed "AUTH_OK: identity_len overflow") in
  let? needed := ok_or (checked_add 64 off 8) (Malformed "AUTH_OK: length overflow") in
  if zlen buf <? needed then Err (Malformed "AUTH_OK: truncated") else
  let? raw := slice buf i off in
  let? identity := ok_or (Utf8.from_utf8 raw) (Malformed "AUTH_OK: identity not UTF-8") in
  let? permissions := read_le buf off 8 in
  Ok (mk identity permissions).

Definition ok (a : t) : Prop :=
  wf_str (identity a) /\ zlen (identity a) <= Limits.MAX_IDENTITY_LEN /\ fits 64 (permissions a).

Lemma auth_ok_roundtrip a p : ok a -> encode a = Ok p -> zlen p < 2 ^ 63 -> decode p = Ok a.
Proof.
  destruct a as [ident perms]. intros (Hi & Hl & Hp) He Hlen. unfold encode in He. cbn in *.
  destruct (Limits.MAX_IDENTITY_LEN <? zlen ident) eqn:?; [done|]. put_norm He. simplify_eq.
  unfold Limits.MAX_IDENTITY_LEN in *. assert (Utf8.utf8_valid ident = true) by apply Hi.
  assert (fits 64 (zlen ident)) by by apply wf_str_fits.
  unfold decode, Limits.MAX_IDENTITY_LEN. by run.
Qed.

Lemma auth_ok_safe p : is_buf p -> wp (decode p) ok.
Proof.
  intros [Hb Hl]. pose proof (zlen_nonneg p). unfold decode, Limits.MAX_IDENTITY_LEN. wps.
  all: unfold fits in *; wps. unfold ok, wf_str, fits, Limits.MAX_IDENTITY_LEN in *. cbn.
  repeat split; (done || lia).
Qed.

Lemma auth_ok_total a : ok a -> wp (encode a) is_bytes.
Proof. intros (Hi & _ & _). unfold encode. solve_total. Qed.

#[global] Instance auth_ok_codec : WireCodec t := {|
  codec_roundtrip := auth_ok_roundtrip; codec_safe := auth_ok_safe; codec_total := auth_ok_total |}.

End AuthOk.

(** ** PING / PONG *)
Module Ping.

Record t := mk { nonce : Z; sender_ts_ms : Z }.

Definition encode (p : t) : presult bytes :=
  let out := zeros 16 in
  let? out := copy_into out 0 8 (to_le 8 (nonce p)) in
  copy_into out 8 16 (to_le 8 (sender_ts_ms p)).

Definition decode (buf : bytes) : presult t :=
  if zlen buf <? 16 then Err (Malformed "PING: truncated") else
  let? nonce := read_le buf 0 8 in
  let? sender_ts_ms := read_le buf 8 8 in
  Ok (mk nonce sender_ts_ms).

Definition ok (p : t) : Prop := fits 64 (nonce p) /\ fits 64 (sender_ts_ms p).

Lemma ping_encode_spec p : encode p = Ok (to_le 8 (nonce p) ++ to_le 8 (sender_ts_ms p)).
Proof. unfold encode. by rewrite (copy_two 8 8). Qed.

Lemma ping_roundtrip p b : ok p -> encode p = Ok b -> zlen b < 2 ^ 63 -> decode b = Ok p.
Proof.
  destruct p as [n ts]. intros (Hn & Ht) He _. rewrite ping_encode_spec in He. simplify_eq.
  unfold decode. cbn in *. by run.
Qed.

Lemma ping_safe p : is_buf p -> wp (decode p) ok.
Proof. intros [Hb Hl]. unfold decode. by wps. Qed.

Lemma ping_total p : ok p -> wp (encode p) is_bytes.
Proof. intros _. rewrite ping_encode_spec. solve_total. Qed.

#[global] Instance ping_codec : WireCodec t := {|
  codec_roundtrip := ping_roundtrip; codec_safe := ping_safe; codec_total := ping_total |}.

End Ping.

(** ** BYE *)
Module Bye.

Record t := mk { code : Z }.

Definition encode (b : t) : presult bytes := Ok (to_le 4 (code b)).

Definition decode (buf : bytes) : presult t :=
  if zlen buf <? 4 then Err (Malformed "BYE: truncated") else
  let? code := read_le buf 0 4 in
  Ok (mk code).

Definition ok (b : t) : Prop := fits 32 (code b).

Lemma bye_roundtrip b p : ok b -> encode b = Ok p -> zlen p < 2 ^ 63 -> decode p = Ok b.
Proof.
  destruct b as [c]. unfold ok, encode, decode. intros Hc He _. cbn in *. simplify_eq. by run.
Qed.

Lemma bye_safe p : is_buf p -> wp (decode p) ok.
Proof. intros [Hb Hl]. unfold decode. by wps. Qed.

Lemma bye_total b : ok b -> wp (encode b) is_bytes.
Proof. intros _. unfold encode. solve_total. Qed.

#[global] Instance bye_codec : WireCodec t := {|
  codec_roundtrip := bye_roundtrip; codec_safe := bye_safe; codec_total := bye_total |}.

End Bye.

(** ** ERROR *)
Module ErrorMsg.

Record t := mk { code : ErrorCode.t; retryable : bool; detail : bytes }.

(** [ErrorMsg::new], for a detail given as a string. *)
Definition new {E} (code : ErrorCode.t) (detail : bytes) : outcome E t :=
  let? detail := ErrorDetail.new detail in
  let retryable := ErrorCode.retryable code in
  Ok (mk code retryable detail).

Definition encode (m : t) : presult bytes :=
  let? n := Varint.put_varint (zlen (detail m)) in
  Ok (to_le 4 (ErrorCode.to_wire (code m)) ++ push (Z.b2z (retryable m)) ++ n ++ detail m).

Definition decode (buf : bytes) : presult t :=
  if zlen buf <? 4 + 1 then Err (Malformed "ERROR: truncated header") else
  let? code := read_le buf 0 4 in
  let? retryable := read_bool "ERROR: retryable not 0/1" buf 4 in
  let? '(detail, _) := read_str "ERROR: detail_len too large" "ERROR: detail_len overflow"
                         "ERROR: truncated detail" "ERROR: detail not UTF-8" buf 5 in
  Ok (mk (ErrorCode.from_wire code) retryable detail).

Definition ok (m : t) : Prop := wf_str (detail m).

Lemma error_roundtrip m p : ok m -> encode m = Ok p -> zlen p < 2 ^ 63 -> decode p = Ok m.
Proof.
  destruct m as [c r d]. unfold ok, encode. intros Hd He Hp. cbn in *. put_norm He. simplify_eq.
  pose proof (ErrorCode.to_wire_fits c). unfold decode. run. by rewrite ErrorCode.from_to_wire.
Qed.

Lemma error_safe p : is_buf p -> wp (decode p) ok.
Proof. intros [Hb Hl]. unfold decode. by wps. Qed.

Lemma error_total m : ok m -> wp (encode m) is_bytes.
Proof. unfold ok, encode. intros. solve_total. Qed.

#[global] Instance error_codec : WireCodec t := {|
  codec_roundtrip := error_roundtrip; codec_safe := error_safe; codec_total := error_total |}.

End ErrorMsg.

(** ** SESSION_INIT *)
Module SessionOptions.

Record t := mk { bandwidth_bps : Z; priority : Z }.

Definition encode (s : t) : presult bytes :=
  let out := zeros 10 in
  let? out := copy_into out 0 8 (to_le 8 (bandwidth_bps s)) in
  copy_into out 8 10 (to_le 2 (priority s)).

Definition decode (buf : bytes) : presult t :=
  if zlen buf <? 10 then Err (Malformed "SESSION_INIT: truncated") else
  let? bandwidth_bps := read_le buf 0 8 in
  let? priority := read_le buf 8 2 in
  Ok (mk bandwidth_bps priority).

Definition ok (s : t) : Prop := fits 64 (bandwidth_bps s) /\ fits 16 (priority s).

Lemma session_encode_spec s : encode s = Ok (to_le 8 (bandwidth_bps s) ++ to_le 2 (priority s)).
Proof. unfold encode. by rewrite (copy_two 8 2). Qed.

Lemma session_roundtrip s p : ok s -> encode s = Ok p -> zlen p < 2 ^ 63 -> decode p = Ok s.
Proof.
  destruct s as [b pr]. intros (Hb & Hp) He _. rewrite session_encode_spec in He. simplify_eq.
  unfold decode. cbn in *. by run.
Qed.

Lemma session_safe p : is_buf p -> wp (decode p) ok.
Proof. intros [Hb Hl]. unfold decode. by wps. Qed.

Lemma session_total s : ok s -> wp (encode s) is_bytes.
Proof. intros _. rewrite session_encode_spec. solve_total. Qed.

#[global] Instance session_codec : WireCodec t := {|
  codec_roundtrip := session_roundtrip; codec_safe := session_safe; codec_total := session_total |}.

End SessionOptions.
