(* ===== verification/MsgTransfer.v ===== *)
(** Transfer lifecycle messages (crates/velcrux-core/src/protocol/message.rs,
    lines 680-1130): TRANSFER_CREATE, TRANSFER_CREATED, TRANSFER_PLAN,
    TRANSFER_BEGIN, VERIFY, VERIFY_RESULT, COMMIT, COMMITTED. *)

From S2P Require Import Prelude Utf8 Protocol Varint Wire MsgSession.

(** ** TRANSFER_CREATE *)
Module TransferOp.

Inductive t : Type :=
  | Upload | Download | SyncUpload | SyncDownload | Delete | Symlink | Hardlink | SetXattr
  | SyncDelete.

#[global] Instance t_eq_dec : EqDecision t.
Proof. solve_decision. Defined.

Definition from_wire (b : Z) : presult t :=
  if b =? 1 then Ok Upload
  else if b =? 2 then Ok Download
  else if b =? 3 then Ok SyncUpload
  else if b =? 4 then Ok SyncDownload
  else if b =? 5 then Ok Delete
  else if b =? 6 then Ok Symlink
  else if b =? 7 then Ok Hardlink
  else if b =? 8 then Ok SetXattr
  else if b =? 9 then Ok SyncDelete
  else Err (Malformed "TRANSFER_CREATE: unknown op").

Definition to_wire (o : t) : Z :=
  match o with
  | Upload => 1 | Download => 2 | SyncUpload => 3 | SyncDownload => 4 | Delete => 5
  | Symlink => 6 | Hardlink => 7 | SetXattr => 8 | SyncDelete => 9
  end.

Lemma op_roundtrip o : from_wire (to_wire o) = Ok o.
Proof. by destruct o. Qed.

Lemma wp_op b (Q : t -> Prop) : (forall o, Q o) -> wp (from_wire b) Q.
Proof. intros HQ. unfold from_wire. repeat (apply wp_if; intros _); simpl; auto. Qed.

End TransferOp.

Module TransferCreate.

Record t := mk {
  op : TransferOp.t; src_path : bytes; dst_path : bytes; idempotency_key : bytes;
  file_size : Z; file_hash : Hash }.

Definition encode (m : t) : presult bytes :=
  if (Limits.MAX_MESSAGE_SIZE <? zlen (src_path m)) || (U16_MAX <? zlen (dst_path m))
     || (U16_MAX <? zlen (idempotency_key m))
  then Err (Malformed "TRANSFER_CREATE: field too long") else
  let? n1 := Varint.put_varint (zlen (src_path m)) in
  let? n2 := Varint.put_varint (zlen (dst_path m)) in
  let? n3 := Varint.put_varint (zlen (idempotency_key m)) in
  Ok (push (TransferOp.to_wire (op m)) ++ zeros 7 ++ n1 ++ src_path m ++ n2 ++ dst_path m
      ++ n3 ++ idempotency_key m ++ to_le 8 (file_size m) ++ file_hash m).

Definition decode (buf : bytes) : presult t :=
  if zlen buf <? 8 + 8 + 32 then Err (Malformed "TRANSFER_CREATE: truncated") else
  let? b0 := index buf 0 in
  let? op := TransferOp.from_wire b0 in
  let i := 8 in
  let? '(src_path, i) :=
    read_str "TRANSFER_CREATE: src_path_len too large" "TRANSFER_CREATE: src_path_len overflow"
      "TRANSFER_CREATE: truncated src_path" "TRANSFER_CREATE: src_path not UTF-8" buf i in
  let? '(dst_path, i) :=
    read_str "TRANSFER_CREATE: dst_path_len too large" "TRANSFER_CREATE: dst_path_len overflow"
      "TRANSFER_CREATE: truncated dst_path" "TRANSFER_CREATE: dst_path not UTF-8" buf i in
  let? rest := slice_from buf i in
  let? '(id_len, consumed) := Varint.decode_varint rest in
  let i := i + consumed in
  let? id_len_us := ok_or (usize_try_from id_len)
                      (Malformed "TRANSFER_CREATE: idempotency_len too large") in
  let? id_end := ok_or (checked_add 64 i id_len_us)
                   (Malformed "TRANSFER_CREATE: idempotency_len overflow") in
  let? tail_end := ok_or (checked_add 64 id_end (8 + 32))
                     (Malformed "TRANSFER_CREATE: tail overflow") in
  if zlen buf <? tail_end then Err (Malformed "TRANSFER_CREATE: truncated tail") else
  let? raw := slice buf i id_end in
  let? idempotency_key := ok_or (Utf8.from_utf8 raw)
                            (Malformed "TRANSFER_CREATE: idempotency not UTF-8") in
  let i := id_end in
  let? file_size := read_le buf i 8 in
  let i := i + 8 in
  let? h := slice buf i (i + 32) in
  let? file_hash := ok_or (Hash_from_bytes h) (Malformed "TRANSFER_CREATE: bad hash") in
  Ok (mk op src_path dst_path idempotency_key file_size file_hash).

Definition ok (m : t) : Prop :=
  wf_str (src_path m) /\ wf_str (dst_path m) /\ wf_str (idempotency_key m) /\
  fits 64 (file_size m) /\ wf_hash (file_hash m).

Lemma transfer_create_roundtrip m p :
  ok m -> encode m = Ok p -> zlen p < 2 ^ 63 -> decode p = Ok m.
Proof.
  destruct m as [op sp dp id sz h]. intros (Hs & Hd & Hi & Hz & [Hh Hhl]) He Hp.
  unfold encode in He. cbn [src_path dst_path idempotency_key file_size file_hash TransferCreate.op] in *.
  destruct (_ || _) eqn:Hl; [done|]. put_norm He. simplify_eq.
  assert (fits 64 (zlen id)) by by apply wf_str_fits. assert (Utf8.utf8_valid id = true) by apply Hi.
  revert Hp. autorewrite with len. intros Hp.
  unfold decode. run. rewrite TransferOp.op_roundtrip. by run.
Qed.

Lemma transfer_create_safe p : is_buf p -> wp (decode p) ok.
Proof.
  intros [Hb Hl]. unfold decode. wps. apply TransferOp.wp_op. intros op.
  wps. post.
Qed.

Lemma transfer_create_total m : ok m -> wp (encode m) is_bytes.
Proof.
  intros (Hs & Hd & Hi & Hz & Hh). unfold encode. wps.
  assert (fits 8 (TransferOp.to_wire (op m))) by by destruct (op m). auto 20 with is_bytes.
Qed.

#[global] Instance transfer_create_codec : WireCodec t := {|
  codec_roundtrip := transfer_create_roundtrip; codec_safe := transfer_create_safe;
  codec_total := transfer_create_total |}.

End TransferCreate.

(** ** TRANSFER_CREATED *)
Module TransferCreated.

Record t := mk { transfer_id : TransferId; resumed : bool; max_chunk_size : Z }.

Definition encode (m : t) : presult bytes :=
  Ok (transfer_id m ++ push (Z.b2z (resumed m)) ++ zeros 7 ++ to_le 8 (max_chunk_size m)).

Definition decode (buf : bytes) : presult t :=
  if zlen buf <? 16 + 1 + 7 + 8 then Err (Malformed "TRANSFER_CREATED: truncated") else
  let? raw := slice buf 0 16 in
  let? transfer_id := ok_or (TransferId_from_bytes raw)
                        (Malformed "TRANSFER_CREATED: bad transfer_id") in
  let? resumed := read_bool "TRANSFER_CREATED: bad resumed" buf 16 in
  let i := 16 + 1 + 7 in
  let? max_chunk_size := read_le buf i 8 in
  Ok (mk transfer_id resumed max_chunk_size).

Definition ok (m : t) : Prop := wf_id (transfer_id m) /\ fits 64 (max_chunk_size m).

Lemma transfer_created_roundtrip m p :
  ok m -> encode m = Ok p -> zlen p < 2 ^ 63 -> decode p = Ok m.
Proof.
  destruct m as [id r mx]. intros ([Hib Hil] & Hm) He _. unfold encode in He. cbn in *.
  simplify_eq. unfold decode. by run.
Qed.

Lemma transfer_created_safe p : is_buf p -> wp (decode p) ok.
Proof. intros [Hb Hl]. unfold decode. wps. post. Qed.

Lemma transfer_created_total m : ok m -> wp (encode m) is_bytes.
Proof. intros (Hi & _). unfold encode. solve_total. Qed.

#[global] Instance transfer_created_codec : WireCodec t := {|
  codec_roundtrip := transfer_created_roundtrip; codec_safe := transfer_created_safe;
  codec_total := transfer_created_total |}.

End TransferCreated.

(** ** TRANSFER_PLAN *)
Module TransferPlan.

Record t := mk {
  transfer_id : TransferId; bytes_total : Z; bytes_to_transfer : Z; bytes_reusable : Z }.

Definition encode (m : t) : presult bytes :=
  Ok (transfer_id m ++ to_le 8 (bytes_total m) ++ to_le 8 (bytes_to_transfer m)
      ++ to_le 8 (bytes_reusable m)).

Definition decode (buf : bytes) : presult t :=
  if zlen buf <? 16 + 8 * 3 then Err (Malformed "TRANSFER_PLAN: truncated") else
  let? raw := slice buf 0 16 in
  let? transfer_id := ok_or (TransferId_from_bytes raw)
                        (Malformed "TRANSFER_PLAN: bad transfer_id") in
  let i := 16 in
  let? bytes_total := read_le buf i 8 in
  let i := i + 8 in
  let? bytes_to_transfer := read_le buf i 8 in
  let i := i + 8 in
  let? bytes_reusable := read_le buf i 8 in
  Ok (mk transfer_id bytes_total bytes_to_transfer bytes_reusable).

Definition ok (m : t) : Prop :=
  wf_id (transfer_id m) /\ fits 64 (bytes_total m) /\ fits 64 (bytes_to_transfer m) /\
  fits 64 (bytes_reusable m).

Lemma transfer_plan_roundtrip m p : ok m -> encode m = Ok p -> zlen p < 2 ^ 63 -> decode p = Ok m.
Proof.
  destruct m as [id a b c]. intros ([Hib Hil] & Ha & Hb & Hc) He _. unfold encode in He. cbn in *.
  simplify_eq. unfold decode. by run.
Qed.

Lemma transfer_plan_safe p : is_buf p -> wp (decode p) ok.
Proof. intros [Hb Hl]. unfold decode. wps. post. Qed.

Lemma transfer_plan_total m : ok m -> wp (encode m) is_bytes.
Proof. intros (Hi & _). unfold encode. solve_total. Qed.

#[global] Instance transfer_plan_codec : WireCodec t := {|
  codec_roundtrip := transfer_plan_roundtrip; codec_safe := transfer_plan_safe;
  codec_total := transfer_plan_total |}.

End TransferPlan.

(** ** TRANSFER_BEGIN *)
Module TransferBegin.

Record t := mk { transfer_id : TransferId; streams : Z }.

Definition new (transfer_id : TransferId) : t := mk transfer_id 1.
Definition with_streams (transfer_id : TransferId) (streams : Z) : t :=
  mk transfer_id (Z.max streams 1).

(** The stream count is on the wire only when it is more than one. *)
Definition encode (m : t) : presult bytes :=
  Ok (transfer_id m ++ if 1 <? streams m then push (streams m) else []).

Definition decode (buf : bytes) : presult t :=
  if zlen buf <? 16 then Err (Malformed "TRANSFER_BEGIN: truncated") else
  let? raw := slice buf 0 16 in
  let? transfer_id := ok_or (TransferId_from_bytes raw)
                        (Malformed "TRANSFER_BEGIN: bad transfer_id") in
  let? streams := if 16 <? zlen buf then let? s := index buf 16 in Ok (Z.max s 1) else Ok 1 in
  Ok (mk transfer_id streams).

Definition ok (m : t) : Prop := wf_id (transfer_id m) /\ fits 8 (streams m) /\ 1 <= streams m.

Lemma transfer_begin_roundtrip m p :
  ok m -> encode m = Ok p -> zlen p < 2 ^ 63 -> decode p = Ok m.
Proof.
  destruct m as [id n]. intros ([Hib Hil] & Hn & Hn1) He _. unfold encode in He. cbn in *.
  simplify_eq. unfold decode. destruct (Z.ltb_spec 1 n).
  - rewrite <- (app_nil_r (push n)). run. do 2 f_equal. lia.
  - rewrite app_nil_r. run. do 2 f_equal. lia.
Qed.

Lemma transfer_begin_safe p : is_buf p -> wp (decode p) ok.
Proof.
  intros [Hb Hl]. unfold decode. wps; post.
Qed.

Lemma transfer_begin_total m : ok m -> wp (encode m) is_bytes.
Proof. intros (Hi & Hn & _). unfold encode. wps. apply is_bytes_app; [|case_match]; auto with is_bytes. Qed.

#[global] Instance transfer_begin_codec : WireCodec t := {|
  codec_roundtrip := transfer_begin_roundtrip; codec_safe := transfer_begin_safe;
  codec_total := transfer_begin_total |}.

End TransferBegin.

(** ** VERIFY / VERIFY_RESULT *)
Module Verify.

Record t := mk { transfer_id : TransferId; expected_hash : Hash }.

Definition encode (m : t) : presult bytes := Ok (transfer_id m ++ expected_hash m).

Definition decode (buf : bytes) : presult t :=
  if zlen buf <? 16 + 32 then Err (Malformed "VERIFY: truncated") else
  let? raw := slice buf 0 16 in
  let? transfer_id := ok_or (TransferId_from_bytes raw) (Malformed "VERIFY: bad transfer_id") in
  let? h := slice buf 16 (16 + 32) in
  let? expected_hash := ok_or (Hash_from_bytes h) (Malformed "VERIFY: bad hash") in
  Ok (mk transfer_id expected_hash).

Definition ok (m : t) : Prop := wf_id (transfer_id m) /\ wf_hash (expected_hash m).

Lemma verify_roundtrip m p : ok m -> encode m = Ok p -> zlen p < 2 ^ 63 -> decode p = Ok m.
Proof.
  destruct m as [id h]. intros ([Hib Hil] & [Hhb Hhl]) He _. unfold encode in He. cbn in *.
  simplify_eq. unfold decode. by run.
Qed.

Lemma verify_safe p : is_buf p -> wp (decode p) ok.
Proof. intros [Hb Hl]. unfold decode. wps. post. Qed.

Lemma verify_total m : ok m -> wp (encode m) is_bytes.
Proof. intros (Hi & Hh). unfold encode. solve_total. Qed.

#[global] Instance verify_codec : WireCodec t := {|
  codec_roundtrip := verify_roundtrip; codec_safe := verify_safe; codec_total := verify_total |}.

End Verify.

Module VerifyResult.

(** The field [ok] of the source is [matches]: [ok] names the invariant here. *)
Record t := mk { transfer_id : TransferId; matches : bool; computed_hash : Hash }.

Definition encode (m : t) : presult bytes :=
  Ok (transfer_id m ++ push (Z.b2z (matches m)) ++ zeros 7 ++ computed_hash m).

Definition decode (buf : bytes) : presult t :=
  if zlen buf <? 16 + 1 + 7 + 32 then Err (Malformed "VERIFY_RESULT: truncated") else
  let? raw := slice buf 0 16 in
  let? transfer_id := ok_or (TransferId_from_bytes raw)
                        (Malformed "VERIFY_RESULT: bad transfer_id") in
  let? matches := read_bool "VERIFY_RESULT: bad ok" buf 16 in
  let i := 16 + 1 + 7 in
  let? h := slice buf i (i + 32) in
  let? computed_hash := ok_or (Hash_from_bytes h) (Malformed "VERIFY_RESULT: bad hash") in
  Ok (mk transfer_id matches computed_hash).

Definition ok (m : t) : Prop := wf_id (transfer_id m) /\ wf_hash (computed_hash m).

Lemma verify_result_roundtrip m p : ok m -> encode m = Ok p -> zlen p < 2 ^ 63 -> decode p = Ok m.
Proof.
  destruct m as [id f h]. intros ([Hib Hil] & [Hhb Hhl]) He _. unfold encode in He. cbn in *.
  simplify_eq. unfold decode. by run.
Qed.

Lemma verify_result_safe p : is_buf p -> wp (decode p) ok.
Proof. intros [Hb Hl]. unfold decode. wps. post. Qed.

Lemma verify_result_total m : ok m -> wp (encode m) is_bytes.
Proof. intros (Hi & Hh). unfold encode. solve_total. Qed.

#[global] Instance verify_result_codec : WireCodec t := {|
  codec_roundtrip := verify_result_roundtrip; codec_safe := verify_result_safe;
  codec_total := verify_result_total |}.

End VerifyResult.

(** ** COMMIT / COMMITTED *)
Module Commit.

Record t := mk { transfer_id : TransferId }.

Definition encode (m : t) : presult bytes := Ok (transfer_id m).

Definition decode (buf : bytes) : presult t :=
  if zlen buf <? 16 then Err (Malformed "COMMIT: truncated") else
  let? raw := slice buf 0 16 in
  let? transfer_id := ok_or (TransferId_from_bytes raw) (Malformed "COMMIT: bad transfer_id") in
  Ok (mk transfer_id).

Definition ok (m : t) : Prop := wf_id (transfer_id m).

Lemma commit_roundtrip m p : ok m -> encode m = Ok p -> zlen p < 2 ^ 63 -> decode p = Ok m.
Proof.
  destruct m as [id]. intros [Hib Hil] He _. unfold encode in He. cbn in *.
  simplify_eq. unfold decode. by run.
Qed.

Lemma commit_safe p : is_buf p -> wp (decode p) ok.
Proof. intros [Hb Hl]. unfold decode. wps. post. Qed.

Lemma commit_total m : ok m -> wp (encode m) is_bytes.
Proof. intros [Hi _]. exact Hi. Qed.

#[global] Instance commit_codec : WireCodec t := {|
  codec_roundtrip := commit_roundtrip; codec_safe := commit_safe; codec_total := commit_total |}.

End Commit.

Module Committed.

Record t := mk { transfer_id : TransferId; files : Z }.

Definition encode (m : t) : presult bytes := Ok (transfer_id m ++ to_le 4 (files m)).

Definition decode (buf : bytes) : presult t :=
  if zlen buf <? 16 + 4 then Err (Malformed "COMMITTED: truncated") else
  let? raw := slice buf 0 16 in
  let? transfer_id := ok_or (TransferId_from_bytes raw)
                        (Malformed "COMMITTED: bad transfer_id") in
  let? files := read_le buf 16 4 in
  Ok (mk transfer_id files).

Definition ok (m : t) : Prop := wf_id (transfer_id m) /\ fits 32 (files m).

Lemma committed_roundtrip m p : ok m -> encode m = Ok p -> zlen p < 2 ^ 63 -> decode p = Ok m.
Proof.
  destruct m as [id n]. intros ([Hib Hil] & Hn) He _. unfold encode in He. cbn in *.
  simplify_eq. unfold decode. by run.
Qed.

Lemma committed_safe p : is_buf p -> wp (decode p) ok.
Proof. intros [Hb Hl]. unfold decode. wps. post. Qed.

Lemma committed_total m : ok m -> wp (encode m) is_bytes.
Proof. intros (Hi & _). unfold encode. solve_total. Qed.

#[global] Instance committed_codec : WireCodec t := {|
  codec_roundtrip := committed_roundtrip; codec_safe := committed_safe;
  codec_total := committed_total |}.

End Committed.
