(* ===== verification/MsgResume.v ===== *)
(** Checkpoint, resume and query messages (crates/velcrux-core/src/protocol/message.rs,
    lines 1137-1640): CHECKPOINT, RESUME, RESUME_STATE, CANCEL, STAT, STAT_RESULT,
    LIST, LIST_RESULT. *)

From S2P Require Import Prelude Utf8 Protocol Varint Wire MsgSession.

(** [state::MAX_WIRE_CHUNKS]. *)
Definition MAX_WIRE_CHUNKS : Z := 1000000.

(** The completed-chunk lists CHECKPOINT and RESUME_STATE carry. *)
Definition wf_chunks (l : list Z) : Prop :=
  Forall (fits 64) l /\ increasing l /\ zlen l <= MAX_WIRE_CHUNKS.

Lemma wf_chunks_read l n : length l = Z.to_nat n -> (MAX_WIRE_CHUNKS <? n) = false ->
  Forall (fits 64) l -> increasing l -> wf_chunks l.
Proof. unfold wf_chunks, zlen, MAX_WIRE_CHUNKS. intros -> **. repeat split; try done; lia. Qed.

Lemma wf_chunks_fits l : wf_chunks l -> fits 64 (zlen l).
Proof.
  intros (_ & _ & H). pose proof (zlen_nonneg l). unfold MAX_WIRE_CHUNKS, fits in *. lia.
Qed.

Lemma wf_chunks_indices l : wf_chunks l -> Forall (fits 64) l.
Proof. by intros []. Qed.

#[export] Hint Resolve wf_chunks_read wf_chunks_fits wf_chunks_indices : is_bytes.

(** ** CHECKPOINT *)
Module Checkpoint.

Record t := mk {
  transfer_id : TransferId; bytes_transferred : Z; verified_up_to : Z; ts_ms : Z;
  completed_chunks : list Z }.

Definition encode (m : t) : presult bytes :=
  if MAX_WIRE_CHUNKS <? zlen (completed_chunks m)
  then Err (Malformed "too many completed chunks") else
  let? n := Varint.put_varint (zlen (completed_chunks m)) in
  let? l := put_indices (completed_chunks m) in
  Ok (transfer_id m ++ to_le 8 (bytes_transferred m) ++ to_le 8 (verified_up_to m)
      ++ to_le 8 (ts_ms m) ++ n ++ l).

Definition decode (buf : bytes) : presult t :=
  if zlen buf <? 16 + 8 * 3 then Err (Malformed "CHECKPOINT: truncated header") else
  let? raw := slice buf 0 16 in
  let? transfer_id := ok_or (TransferId_from_bytes raw)
                        (Malformed "CHECKPOINT: bad transfer_id") in
  let i := 16 in
  let? bytes_transferred := read_le buf i 8 in
  let i := i + 8 in
  let? verified_up_to := read_le buf i 8 in
  let i := i + 8 in
  let? ts_ms := read_le buf i 8 in
  let i := i + 8 in
  let? rest := slice_from buf i in
  let? '(count, consumed) := Varint.decode_varint rest in
  let i := i + consumed in
  if MAX_WIRE_CHUNKS <? count then Err (Malformed "too many completed chunks") else
  let? '(completed, _) := read_indices "CHECKPOINT: truncated chunks"
      "CHECKPOINT: non-monotonic chunks" (Z.to_nat count) buf i None in
  Ok (mk transfer_id bytes_transferred verified_up_to ts_ms completed).

Definition ok (m : t) : Prop :=
  wf_id (transfer_id m) /\ fits 64 (bytes_transferred m) /\ fits 64 (verified_up_to m) /\
  fits 64 (ts_ms m) /\ wf_chunks (completed_chunks m).

Lemma checkpoint_roundtrip m p : ok m -> encode m = Ok p -> zlen p < 2 ^ 63 -> decode p = Ok m.
Proof.
  destruct m as [id a b c l]. intros ([Hib Hil] & Ha & Hb & Hc & Hw) He Hp.
  unfold encode in He. cbn in *. destruct (MAX_WIRE_CHUNKS <? zlen l) eqn:Hl; [done|].
  pose proof (wf_chunks_fits l Hw). destruct Hw as (Hf & Hs & Hn).
  put_norm He. simplify_eq. unfold decode. by run.
Qed.

Lemma checkpoint_safe p : is_buf p -> wp (decode p) ok.
Proof. intros [Hb Hl]. unfold decode. wps. post. Qed.

Lemma checkpoint_total m : ok m -> wp (encode m) is_bytes.
Proof. intros (Hi & _ & _ & _ & Hw). unfold encode. solve_total. Qed.

#[global] Instance checkpoint_codec : WireCodec t := {|
  codec_roundtrip := checkpoint_roundtrip; codec_safe := checkpoint_safe;
  codec_total := checkpoint_total |}.

End Checkpoint.

(** ** RESUME *)
Module Resume.

Record t := mk { transfer_id : TransferId; idempotency_key : bytes }.

Definition encode (m : t) : presult bytes :=
  if U16_MAX <? zlen (idempotency_key m)
  then Err (Malformed "RESUME: idempotency_key too long") else
  let? n := Varint.put_varint (zlen (idempotency_key m)) in
  Ok (transfer_id m ++ n ++ idempotency_key m).

Definition decode (buf : bytes) : presult t :=
  if zlen buf <? 16 then Err (Malformed "RESUME: truncated") else
  let? raw := slice buf 0 16 in
  let? transfer_id := ok_or (TransferId_from_bytes raw) (Malformed "RESUME: bad transfer_id") in
  let? '(key, _) := read_str "RESUME: key too long" "RESUME: key length overflow"
                      "RESUME: truncated key" "RESUME: key not UTF-8" buf 16 in
  Ok (mk transfer_id key).

Definition ok (m : t) : Prop := wf_id (transfer_id m) /\ wf_str (idempotency_key m).

Lemma resume_roundtrip m p : ok m -> encode m = Ok p -> zlen p < 2 ^ 63 -> decode p = Ok m.
Proof.
  destruct m as [id k]. intros ([Hib Hil] & Hk) He Hp. unfold encode in He. cbn in *.
  destruct (U16_MAX <? zlen k) eqn:?; [done|]. put_norm He. simplify_eq. unfold decode. by run.
Qed.

Lemma resume_safe p : is_buf p -> wp (decode p) ok.
Proof. intros [Hb Hl]. unfold decode. wps. post. Qed.

Lemma resume_total m : ok m -> wp (encode m) is_bytes.
Proof. intros (Hi & Hk). unfold encode. solve_total. Qed.

#[global] Instance resume_codec : WireCodec t := {|
  codec_roundtrip := resume_roundtrip; codec_safe := resume_safe; codec_total := resume_total |}.

End Resume.

(** ** RESUME_STATE *)
Module ResumeState.

Record t := mk {
  transfer_id : TransferId; staging_relpath : bytes; file_size : Z; bytes_completed : Z;
  verified_up_to : Z; file_hash : Hash; completed_chunks : list Z }.

Definition encode (m : t) : presult bytes :=
  if MAX_WIRE_CHUNKS <? zlen (completed_chunks m)
  then Err (Malformed "too many completed chunks") else
  if U16_MAX <? zlen (staging_relpath m) then Err (Malformed "RESUME_STATE: path too long") else
  let? n := Varint.put_varint (zlen (staging_relpath m)) in
  let? c := Varint.put_varint (zlen (completed_chunks m)) in
  let? l := put_indices (completed_chunks m) in
  Ok (transfer_id m ++ n ++ staging_relpath m ++ to_le 8 (file_size m)
      ++ to_le 8 (bytes_completed m) ++ to_le 8 (verified_up_to m) ++ file_hash m ++ c ++ l).

Definition decode (buf : bytes) : presult t :=
  if zlen buf <? 16 then Err (Malformed "RESUME_STATE: truncated") else
  let? raw := slice buf 0 16 in
  let? transfer_id := ok_or (TransferId_from_bytes raw)
                        (Malformed "RESUME_STATE: bad transfer_id") in
  let i := 16 in
  let? rest := slice_from buf i in
  let? '(plen, consumed) := Varint.decode_varint rest in
  let i := i + consumed in
  let? plen_us := ok_or (usize_try_from plen) (Malformed "RESUME_STATE: path too long") in
  let? pend := ok_or (checked_add 64 i plen_us)
                 (Malformed "RESUME_STATE: path length overflow") in
  let? body_end := ok_or (checked_add 64 pend (8 * 3 + 32))
                     (Malformed "RESUME_STATE: body length overflow") in
  if zlen buf <? body_end then Err (Malformed "RESUME_STATE: truncated body") else
  let? raw := slice buf i pend in
  let? path := ok_or (Utf8.from_utf8 raw) (Malformed "RESUME_STATE: path not UTF-8") in
  let i := pend in
  let? file_size := read_le buf i 8 in
  let i := i + 8 in
  let? bytes_completed := read_le buf i 8 in
  let i := i + 8 in
  let? verified_up_to := read_le buf i 8 in
  let i := i + 8 in
  let? h := slice buf i (i + 32) in
  let? file_hash := ok_or (Hash_from_bytes h) (Malformed "RESUME_STATE: bad hash") in
  let i := i + 32 in
  let? rest := slice_from buf i in
  let? '(count, consumed) := Varint.decode_varint rest in
  let i := i + consumed in
  if MAX_WIRE_CHUNKS <? count then Err (Malformed "too many completed chunks") else
  let? '(completed, _) := read_indices "RESUME_STATE: truncated chunks"
      "RESUME_STATE: non-monotonic chunks" (Z.to_nat count) buf i None in
  Ok (mk transfer_id path file_size bytes_completed verified_up_to file_hash completed).

Definition ok (m : t) : Prop :=
  wf_id (transfer_id m) /\ wf_str (staging_relpath m) /\ fits 64 (file_size m) /\
  fits 64 (bytes_completed m) /\ fits 64 (verified_up_to m) /\ wf_hash (file_hash m) /\
  wf_chunks (completed_chunks m).

Lemma resume_state_roundtrip m p : ok m -> encode m = Ok p -> zlen p < 2 ^ 63 -> decode p = Ok m.
Proof.
  destruct m as [id pa a b c h l].
  intros ([Hib Hil] & Hpa & Ha & Hb & Hc & [Hhb Hhl] & Hw) He Hp.
  unfold encode in He. cbn in *. destruct (MAX_WIRE_CHUNKS <? zlen l) eqn:Hl; [done|].
  destruct (U16_MAX <? zlen pa) eqn:?; [done|].
  pose proof (wf_chunks_fits l Hw). destruct Hw as (Hf & Hs & Hn).
  assert (fits 64 (zlen pa)) by by apply wf_str_fits.
  assert (Utf8.utf8_valid pa = true) by apply Hpa.
  put_norm He. simplify_eq. revert Hp. autorewrite with len. intros Hp.
  pose proof (zlen_nonneg (indices_bytes l)). pose proof (Varint.varint_len_bounds (zlen l)).
  unfold decode. by run.
Qed.

Lemma resume_state_safe p : is_buf p -> wp (decode p) ok.
Proof. intros [Hb Hl]. unfold decode. wps. post. Qed.

Lemma resume_state_total m : ok m -> wp (encode m) is_bytes.
Proof. intros (Hi & Hp & _ & _ & _ & Hh & Hw). unfold encode. solve_total. Qed.

#[global] Instance resume_state_codec : WireCodec t := {|
  codec_roundtrip := resume_state_roundtrip; codec_safe := resume_state_safe;
  codec_total := resume_state_total |}.

End ResumeState.

(** ** CANCEL *)
Module Cancel.

Record t := mk { transfer_id : TransferId; reason_code : Z }.

Definition encode (m : t) : presult bytes := Ok (transfer_id m ++ to_le 4 (reason_code m)).

Definition decode (buf : bytes) : presult t :=
  if zlen buf <? 16 + 4 then Err (Malformed "CANCEL: truncated") else
  let? raw := slice buf 0 16 in
  let? transfer_id := ok_or (TransferId_from_bytes raw) (Malformed "CANCEL: bad transfer_id") in
  let? reason_code := read_le buf 16 4 in
  Ok (mk transfer_id reason_code).

Definition ok (m : t) : Prop := wf_id (transfer_id m) /\ fits 32 (reason_code m).

Lemma cancel_roundtrip m p : ok m -> encode m = Ok p -> zlen p < 2 ^ 63 -> decode p = Ok m.
Proof.
  destruct m as [id n]. intros ([Hib Hil] & Hn) He _. unfold encode in He. cbn in *.
  simplify_eq. unfold decode. by run.
Qed.

Lemma cancel_safe p : is_buf p -> wp (decode p) ok.
Proof. intros [Hb Hl]. unfold decode. wps. post. Qed.

Lemma cancel_total m : ok m -> wp (encode m) is_bytes.
Proof. intros (Hi & _). unfold encode. solve_total. Qed.

#[global] Instance cancel_codec : WireCodec t := {|
  codec_roundtrip := cancel_roundtrip; codec_safe := cancel_safe; codec_total := cancel_total |}.

End Cancel.

(** ** STAT / STAT_RESULT *)
Module StatQuery.

Record t := mk { transfer_id : TransferId }.

Definition encode (m : t) : bytes := transfer_id m.

Definition decode (buf : bytes) : presult t :=
  if zlen buf <? 16 then Err (Malformed "STAT: truncated") else
  let? raw := slice buf 0 16 in
  let? transfer_id := ok_or (TransferId_from_bytes raw) (Malformed "STAT: bad transfer_id") in
  Ok (mk transfer_id).

Definition ok (m : t) : Prop := wf_id (transfer_id m).

Lemma stat_query_roundtrip m p :
  ok m -> Ok (encode m) = @Ok ProtocolError _ p -> zlen p < 2 ^ 63 -> decode p = Ok m.
Proof.
  destruct m as [id]. intros [Hib Hil] He _. unfold encode in He. cbn in *.
  simplify_eq. unfold decode. by run.
Qed.

Lemma stat_query_safe p : is_buf p -> wp (decode p) ok.
Proof. intros [Hb Hl]. unfold decode. wps. post. Qed.

Lemma stat_query_total m : ok m -> wp (@Ok ProtocolError _ (encode m)) is_bytes.
Proof. intros [Hi _]. exact Hi. Qed.

#[global] Instance stat_query_codec : WireCodec t := {|
  codec_encode := fun m => Ok (encode m);
  codec_roundtrip := stat_query_roundtrip; codec_safe := stat_query_safe;
  codec_total := stat_query_total |}.

End StatQuery.

Module StatResult.

Record t := mk {
  transfer_id : TransferId; found : bool; status : bytes; direction : bytes; remote_path : bytes;
  file_size : Z; bytes_completed : Z; verified_up_to : Z; created_ms : Z; updated_ms : Z }.

(** The encoder's loop over the three strings. *)
Fixpoint put_fields (l : list bytes) : presult bytes :=
  match l with
  | [] => Ok []
  | b :: l' =>
      if U16_MAX <? zlen b then Err (Malformed "STAT_RESULT: field too long") else
      let? n := Varint.put_varint (zlen b) in
      let? r := put_fields l' in
      Ok (n ++ b ++ r)
  end.

Definition encode (m : t) : presult bytes :=
  let? s := put_fields [status m; direction m; remote_path m] in
  Ok (transfer_id m ++ push (Z.b2z (found m)) ++ push 0 ++ s
      ++ to_le 8 (file_size m) ++ to_le 8 (bytes_completed m) ++ to_le 8 (verified_up_to m)
      ++ to_le 8 (created_ms m) ++ to_le 8 (updated_ms m)).

(** The local closure [read_str] of [decode]. *)
Definition read_field : bytes -> Z -> presult (bytes * Z) :=
  read_str "STAT_RESULT: string too long" "STAT_RESULT: string length overflow"
    "STAT_RESULT: truncated string" "STAT_RESULT: not UTF-8".

Definition decode (buf : bytes) : presult t :=
  if zlen buf <? 16 + 2 then Err (Malformed "STAT_RESULT: truncated") else
  let? raw := slice buf 0 16 in
  let? transfer_id := ok_or (TransferId_from_bytes raw)
                        (Malformed "STAT_RESULT: bad transfer_id") in
  let? found := read_bool "STAT_RESULT: bad found flag" buf 16 in
  let i := 18 in
  let? '(status, i) := read_field buf i in
  let? '(direction, i) := read_field buf i in
  let? '(remote_path, i) := read_field buf i in
  if zlen buf <? i + 8 * 5 then Err (Malformed "STAT_RESULT: truncated numbers") else
  let? file_size := read_le buf i 8 in
  let i := i + 8 in
  let? bytes_completed := read_le buf i 8 in
  let i := i + 8 in
  let? verified_up_to := read_le buf i 8 in
  let i := i + 8 in
  let? created_ms := read_le buf i 8 in
  let i := i + 8 in
  let? updated_ms := read_le buf i 8 in
  Ok (mk transfer_id found status direction remote_path file_size bytes_completed
        verified_up_to created_ms updated_ms).

Definition ok (m : t) : Prop :=
  wf_id (transfer_id m) /\ wf_str (status m) /\ wf_str (direction m) /\ wf_str (remote_path m) /\
  fits 64 (file_size m) /\ fits 64 (bytes_completed m) /\ fits 64 (verified_up_to m) /\
  fits 64 (created_ms m) /\ fits 64 (updated_ms m).

Lemma put_fields_inv l p : Forall wf_str l -> put_fields l = Ok p ->
  p = mjoin ((fun b => Varint.varint_bytes (zlen b) ++ b) <$> l).
Proof.
  intros Hl. revert p. induction Hl as [|b l Hb Hl IH]; intros p H; cbn in *; [by simplify_eq|].
  destruct (U16_MAX <? zlen b); [done|].
  rewrite Varint.put_varint_spec in H by by apply wf_str_fits. cbn [obind] in H.
  apply obind_ok_inv in H as (r & Hr & [= <-]). by rewrite (IH r Hr), app_assoc.
Qed.

Lemma wp_put_fields l : Forall wf_str l ->
  wp (put_fields l) (fun r => is_bytes r /\ zlen r <= 65545 * zlen l).
Proof.
  induction 1 as [|b l Hb Hl IH]; cbn [put_fields]; [split; [apply is_bytes_nil|done]|]. wps.
  eapply wp_mono; [exact IH|]. intros r [Hr Hrl]. wps. split; [auto with is_bytes|].
  unfold U16_MAX in *. rewrite zlen_cons. len.
Qed.

Lemma stat_result_roundtrip m p : ok m -> encode m = Ok p -> zlen p < 2 ^ 63 -> decode p = Ok m.
Proof.
  destruct m as [id f s1 s2 s3 a b c d e].
  intros ([Hib Hil] & H1 & H2 & H3 & Ha & Hb & Hc & Hd & He') He Hp. cbn in Hib, Hil, H1, H2, H3, Ha, Hb, Hc, Hd, He'.
  apply obind_ok_inv in He as (r & Hr & [= <-]). cbn [status direction remote_path] in Hr.
  apply put_fields_inv in Hr as ->; [|by auto using Forall_cons_2, Forall_nil_2].
  cbn [fmap list_fmap mjoin list_join app transfer_id found file_size bytes_completed verified_up_to created_ms
    updated_ms] in Hp |- *. rewrite app_nil_r, <- !app_assoc in *. unfold decode, read_field. by run.
Qed.

Lemma stat_result_safe p : is_buf p -> wp (decode p) ok.
Proof. intros [Hb Hl]. unfold decode, read_field. wps. post. Qed.

(** An entry is small: its three strings are at most [u16::MAX] bytes each. *)
Lemma stat_result_size m : ok m -> wp (encode m) (fun p => is_bytes p /\ zlen p < 2 ^ 20).
Proof.
  intros ([Hi Hil] & H1 & H2 & H3 & _). unfold encode. wps.
  eapply wp_mono; [by apply wp_put_fields; auto using Forall_cons_2, Forall_nil_2|].
  intros s [Hs Hsl]. wps. split; [auto 20 with is_bytes|].
  change (zlen [status m; direction m; remote_path m]) with 3 in Hsl. len.
Qed.

Lemma stat_result_total m : ok m -> wp (encode m) is_bytes.
Proof. intros Hm. eapply wp_mono; [by apply stat_result_size|]. by intros p []. Qed.

#[global] Instance stat_result_codec : WireCodec t := {|
  codec_roundtrip := stat_result_roundtrip; codec_safe := stat_result_safe;
  codec_total := stat_result_total |}.

End StatResult.

(** ** LIST / LIST_RESULT *)
Module ListQuery.

Record t := mk { url_prefix : bytes }.

Definition encode (m : t) : presult bytes :=
  if U16_MAX <? zlen (url_prefix m) then Err (Malformed "LIST: prefix too long") else
  let? n := Varint.put_varint (zlen (url_prefix m)) in
  Ok (n ++ url_prefix m).

Definition decode (buf : bytes) : presult t :=
  let? '(url_prefix, _) := read_str "LIST: prefix too long" "LIST: prefix length overflow"
                             "LIST: truncated prefix" "LIST: not UTF-8" buf 0 in
  Ok (mk url_prefix).

Definition ok (m : t) : Prop := wf_str (url_prefix m).

Lemma list_query_roundtrip m p : ok m -> encode m = Ok p -> zlen p < 2 ^ 63 -> decode p = Ok m.
Proof.
  destruct m as [s]. intros Hs He Hp. unfold ok, encode in *. cbn in *.
  destruct (U16_MAX <? zlen s) eqn:?; [done|]. put_norm He. simplify_eq. unfold decode. by run.
Qed.

Lemma list_query_safe p : is_buf p -> wp (decode p) ok.
Proof. intros [Hb Hl]. pose proof (zlen_nonneg p). unfold decode. wps. exact Hs. Qed.

Lemma list_query_total m : ok m -> wp (encode m) is_bytes.
Proof. intros Hs. unfold ok, encode in *. solve_total. Qed.

#[global] Instance list_query_codec : WireCodec t := {|
  codec_roundtrip := list_query_roundtrip; codec_safe := list_query_safe;
  codec_total := list_query_total |}.

End ListQuery.

Module ListResult.

Record t := mk { entries : list StatResult.t }.

Fixpoint put_entries (l : list StatResult.t) : presult bytes :=
  match l with
  | [] => Ok []
  | e :: l' =>
      let? body := StatResult.encode e in
      let? n := Varint.put_varint (zlen body) in
      let? r := put_entries l' in
      Ok (n ++ body ++ r)
  end.

Definition encode (m : t) : presult bytes :=
  if MAX_WIRE_CHUNKS <? zlen (entries m) then Err (Malformed "LIST_RESULT: too many entries") else
  let? n := Varint.put_varint (zlen (entries m)) in
  let? r := put_entries (entries m) in
  Ok (n ++ r).

Fixpoint read_entries (count : nat) (buf : bytes) (i : Z) : presult (list StatResult.t) :=
  match count with
  | O => Ok []
  | S count' =>
      if zlen buf <=? i then Err (Malformed "LIST_RESULT: truncated entry length") else
      let? rest := slice_from buf i in
      let? '(n, c) := Varint.decode_varint rest in
      let i := i + c in
      let? n_us := ok_or (usize_try_from n) (Malformed "LIST_RESULT: entry too long") in
      let? e := ok_or (checked_add 64 i n_us) (Malformed "LIST_RESULT: entry length overflow") in
      if zlen buf <? e then Err (Malformed "LIST_RESULT: truncated entry") else
      let? body := slice buf i e in
      let? entry := StatResult.decode body in
      let? r := read_entries count' buf e in
      Ok (entry :: r)
  end.

Definition decode (buf : bytes) : presult t :=
  let? '(count, c) := Varint.decode_varint buf in
  if MAX_WIRE_CHUNKS <? count then Err (Malformed "LIST_RESULT: too many entries") else
  let? entries := read_entries (Z.to_nat count) buf c in
  Ok (mk entries).

Definition ok (m : t) : Prop :=
  Forall StatResult.ok (entries m) /\ zlen (entries m) <= MAX_WIRE_CHUNKS.

Lemma read_put_entries l r : put_entries l = Ok r -> Forall StatResult.ok l ->
  forall buf i, slice_from buf i = @Ok ProtocolError _ r -> zlen buf < 2 ^ 63 ->
  read_entries (length l) buf i = Ok l.
Proof.
  revert r. induction l as [|e l IH]; intros r Hr Hok buf i Hf Hbuf; [done|].
  apply Forall_cons in Hok as [He Hok]. cbn [put_entries] in Hr.
  apply obind_ok_inv in Hr as (body & Hbody & Hr). apply obind_ok_inv in Hr as (n & Hn & Hr).
  apply obind_ok_inv in Hr as (r' & Hr' & [= <-]).
  destruct (slice_from_length _ _ _ Hf) as [Hi Hlen]. rewrite !zlen_app in Hlen.
  pose proof (zlen_nonneg body). pose proof (zlen_nonneg n). pose proof (zlen_nonneg r').
  assert (Hfit : fits 64 (zlen body)) by (unfold fits; lia).
  rewrite Varint.put_varint_spec in Hn by done. injection Hn as <-.
  pose proof (Varint.varint_len_bounds (zlen body)).
  rewrite Varint.zlen_varint_bytes in Hlen by done.
  cbn [length read_entries]. rewrite Hf. rewrite (proj2 (Z.leb_gt _ _)) by lia.
  cbn [obind]. run.
  rewrite <- Z.add_assoc, (slice_of_slice_from _ _ _ _ _ Hf) by lia. run.
  rewrite (StatResult.stat_result_roundtrip e body) by (done || lia). cbn [obind].
  rewrite (IH r' Hr' Hok); [done| |done].
  rewrite (slice_from_from _ _ _ _ Hf) by lia. by repeat step_slice_from.
Qed.

Lemma wp_read_entries k buf i : is_buf buf -> 0 <= i ->
  wp (read_entries k buf i) (fun l => length l = k /\ Forall StatResult.ok l).
Proof.
  intros [Hb Hl]. revert i. induction k as [|k IH]; intros i Hi; cbn [read_entries].
  { by repeat constructor. }
  wps. eapply wp_mono; [apply StatResult.stat_result_safe|].
  { split; [eauto with is_bytes|lia]. }
  intros e He. wps. eapply wp_mono; [apply IH; lia|]. intros l [Hk Hok]. wps.
  split; [simpl; lia|by constructor].
Qed.

Lemma wp_put_entries l : Forall StatResult.ok l -> wp (put_entries l) is_bytes.
Proof.
  induction 1 as [|e l He Hl IH]; cbn [put_entries]; [apply is_bytes_nil|]. wps.
  eapply wp_mono; [by apply StatResult.stat_result_size|]. intros b [Hb Hbl].
  pose proof (zlen_nonneg b). wps. eapply wp_mono; [exact IH|]. intros r Hr. wps.
  auto with is_bytes.
Qed.

Lemma list_result_roundtrip m p : ok m -> encode m = Ok p -> zlen p < 2 ^ 63 -> decode p = Ok m.
Proof.
  destruct m as [l]. intros [Hok Hn] He Hp. unfold encode in He. cbn in *.
  destruct (MAX_WIRE_CHUNKS <? zlen l) eqn:Hl; [done|]. pose proof (zlen_nonneg l).
  assert (fits 64 (zlen l)) by (unfold MAX_WIRE_CHUNKS, fits in *; lia).
  rewrite Varint.put_varint_spec in He by done. cbn [obind] in He.
  apply obind_ok_inv in He as (r & Hr & [= <-]). unfold decode. run.
  unfold zlen at 1. rewrite Nat2Z.id. rewrite (read_put_entries l r Hr Hok); [done| |done].
  by repeat step_slice_from.
Qed.

Lemma list_result_safe p : is_buf p -> wp (decode p) ok.
Proof.
  intros Hp. destruct Hp as [Hb Hl]. unfold decode. wps.
  eapply wp_mono; [apply wp_read_entries; [done|lia]|]. intros l [Hk Hok]. wps.
  split; [done|]. cbn. unfold zlen, MAX_WIRE_CHUNKS in *. lia.
Qed.

Lemma list_result_total m : ok m -> wp (encode m) is_bytes.
Proof.
  intros [Hok Hn]. pose proof (zlen_nonneg (entries m)). unfold encode, MAX_WIRE_CHUNKS in *. wps.
  eapply wp_mono; [by apply wp_put_entries|]. intros r Hr. solve_total.
Qed.

#[global] Instance list_result_codec : WireCodec t := {|
  codec_roundtrip := list_result_roundtrip; codec_safe := list_result_safe;
  codec_total := list_result_total |}.

End ListResult.
