(* ===== verification/Chunking.v ===== *)
(** Chunking (crates/velcrux-core/src/chunking/{mod,fastcdc}.rs): chunker parameters,
    the fixed-size, rolling-hash and FastCDC chunkers behind the [Chunker] trait, the
    zero test and the streaming chunk engine. *)

From S2P Require Import Prelude Protocol Wire.

(** ** Parameters *)
Module ChunkParams.

Definition CHUNK_DEFAULT_MIN : Z := 256 * 1024.
Definition CHUNK_DEFAULT_TARGET : Z := 1024 * 1024.
Definition CHUNK_DEFAULT_MAX : Z := 4 * 1024 * 1024.

Record t := mk { min : Z; target : Z; max : Z }.

#[global] Instance t_eq_dec : EqDecision t.
Proof. solve_decision. Defined.

Definition default : t := mk CHUNK_DEFAULT_MIN CHUNK_DEFAULT_TARGET CHUNK_DEFAULT_MAX.

Definition new (min target max : Z) : option t :=
  if (min =? 0) || (max =? 0) then None else
  if (min =? target) && (target =? max) then Some (mk min target max) else
  if (max <=? min) || (target <=? min) || (max <=? target) then None else
  Some (mk min target max).

Definition fixed (chunk_size : Z) : t := mk chunk_size chunk_size chunk_size.

Definition cdc (min target max : Z) : option t :=
  if (min =? 0) || (max =? 0) || (max <=? min) || (target <=? min) || (max <=? target)
  then None else Some (mk min target max).

Definition fastcdc (min target max : Z) : option t := cdc min target max.

Definition is_fixed (p : t) : bool := (min p =? target p) && (target p =? max p).

(** What [new] accepts: fixed-size parameters, or strictly ordered ones. *)
Definition valid (p : t) : Prop :=
  0 < min p /\ (min p = target p /\ target p = max p \/ min p < target p < max p).

Lemma params_new_spec a b c p : 0 <= a -> 0 <= c ->
  new a b c = Some p <-> p = mk a b c /\ valid p.
Proof.
  intros Ha Hc. unfold new, valid. split.
  - repeat case_match; intros [= <-]; cbn; split; try done; lia.
  - intros [-> Hv]. cbn in Hv. repeat case_match; try done; lia.
Qed.

End ChunkParams.

(** ** Boundaries and the specification of a chunker *)

Record ChunkBoundary := mk_boundary { b_offset : Z; b_length : Z }.

(** [ChunkBoundary::end]. *)
Definition boundary_end (b : ChunkBoundary) : Z := b_offset b + b_length b.

(** What a content-defined chunker computes: bytes go one by one into the current chunk,
    and [cut] decides, from that chunk's content alone, whether it ends. *)
Fixpoint spec_run (cut : bytes -> bool) (cur data : bytes) : list bytes * bytes :=
  match data with
  | [] => ([], cur)
  | b :: data' =>
      let cur := cur ++ [b] in
      if cut cur then let '(l, c) := spec_run cut [] data' in (cur :: l, c)
      else spec_run cut cur data'
  end.

(** The chunks of a whole input: the cut ones, then what is left. *)
Definition spec_chunks (cut : bytes -> bool) (data : bytes) : list bytes :=
  let '(l, c) := spec_run cut [] data in l ++ if decide (c = []) then [] else [c].

(** Contiguous boundaries of the given chunks, from [base]. *)
Fixpoint boundaries (base : Z) (l : list bytes) : list ChunkBoundary :=
  match l with
  | [] => []
  | c :: l' => mk_boundary base (zlen c) :: boundaries (base + zlen c) l'
  end.

Lemma spec_run_app cut a : forall cur b, spec_run cut cur (a ++ b) =
  let '(l1, c1) := spec_run cut cur a in
  let '(l2, c2) := spec_run cut c1 b in (l1 ++ l2, c2).
Proof.
  induction a as [|x a IH]; intros cur b; cbn [app spec_run].
  { by destruct (spec_run cut cur b). }
  destruct (cut (cur ++ [x])); [|apply IH]. rewrite IH.
  destruct (spec_run cut [] a) as [l1 c1]. by destruct (spec_run cut c1 b).
Qed.

(** Nothing is lost or reordered. *)
Lemma spec_run_concat cut data : forall cur,
  let '(l, c) := spec_run cut cur data in mjoin l ++ c = cur ++ data.
Proof.
  induction data as [|b data IH]; intros cur; cbn [spec_run]; [by rewrite app_nil_r|].
  destruct (cut (cur ++ [b])).
  - specialize (IH []). destruct (spec_run cut [] data) as [l c].
    change (mjoin ((cur ++ [b]) :: l)) with ((cur ++ [b]) ++ mjoin l). rewrite <- app_assoc, IH. by rewrite <- app_assoc.
  - specialize (IH (cur ++ [b])). destruct (spec_run cut (cur ++ [b]) data) as [l c].
    rewrite IH. by rewrite <- app_assoc.
Qed.

(** Every chunk emitted satisfies [cut], no proper prefix grown here did, and what is left
    was never cut. *)
Lemma spec_run_cut cut data : forall cur,
  let '(l, c) := spec_run cut cur data in
  Forall (fun k => cut k = true /\ k <> []) l /\ (data <> [] -> c = [] \/ cut c = false).
Proof.
  induction data as [|b data IH]; intros cur; cbn [spec_run]; [by split|].
  destruct (cut (cur ++ [b])) eqn:Hc.
  - specialize (IH []). destruct (spec_run cut [] data) as [l c] eqn:Hr. destruct IH as [Hl Hcc]. split.
    + constructor; [|done]. split; [done|]. by destruct cur.
    + intros _. destruct data; [injection Hr as _ <-; by left|by apply Hcc].
  - specialize (IH (cur ++ [b])). destruct (spec_run cut (cur ++ [b]) data) as [l c] eqn:Hr.
    destruct IH as [Hl Hcc]. split; [done|]. intros _.
    destruct data; [injection Hr as _ <-; by right|by apply Hcc].
Qed.

(** Bytes that do not complete a chunk only extend it. *)
Lemma spec_run_skip cut a : forall cur b,
  (forall k, (0 < k <= length a)%nat -> cut (cur ++ take k a) = false) ->
  spec_run cut cur (a ++ b) = spec_run cut (cur ++ a) b.
Proof.
  induction a as [|x a IH]; intros cur b Hno; cbn [app spec_run]; [by rewrite app_nil_r|].
  assert (H1 : cut (cur ++ [x]) = false) by (apply (Hno 1%nat); simpl; lia). rewrite H1.
  rewrite IH; [by rewrite <- app_assoc|]. intros k Hk. rewrite <- app_assoc.
  apply (Hno (S k)). simpl. lia.
Qed.

(** Bytes that complete a chunk emit it and start over. *)
Lemma spec_run_hit cut cur a b : a <> [] ->
  (forall k, (0 < k < length a)%nat -> cut (cur ++ take k a) = false) -> cut (cur ++ a) = true ->
  spec_run cut cur (a ++ b) = ((cur ++ a) :: (spec_run cut [] b).1, (spec_run cut [] b).2).
Proof.
  intros Hne Hno Hcut. destruct (exists_last Hne) as (a' & x & ->).
  rewrite length_app in Hno. simpl in Hno. rewrite <- app_assoc.
  rewrite spec_run_skip.
  - cbn [app spec_run]. rewrite <- app_assoc, Hcut. by destruct (spec_run cut [] b).
  - intros k Hk. specialize (Hno k). rewrite take_app_le in Hno by lia. apply Hno. lia.
Qed.

Lemma boundaries_app l1 : forall base l2,
  boundaries base (l1 ++ l2) = boundaries base l1 ++ boundaries (base + zlen (mjoin l1)) l2.
Proof.
  induction l1 as [|c l1 IH]; intros base l2; cbn [app boundaries].
  { change (zlen (mjoin [])) with 0. by rewrite Z.add_0_r. }
  rewrite IH. change (mjoin (c :: l1)) with (c ++ mjoin l1). by rewrite zlen_app, Z.add_assoc.
Qed.

Lemma mjoin_app' (l1 l2 : list bytes) : mjoin (l1 ++ l2) = mjoin l1 ++ mjoin l2.
Proof. apply join_app. Qed.

(** A [u64] parameter. *)
Class TCNonNeg (x : Z) : Prop := tc_non_neg : 0 <= x.

(** Sizes: a condition that always cuts at [n] bounds every chunk by [n]; one that never
    cuts below [m] bounds every emitted chunk from below. *)
Lemma spec_run_bound cut n data : (forall c, n <= zlen c -> cut c = true) -> 0 < n ->
  forall cur, zlen cur < n ->
  Forall (fun c => zlen c <= n) (spec_run cut cur data).1 /\ zlen (spec_run cut cur data).2 < n.
Proof.
  intros Hcut Hn. induction data as [|b data IH]; intros cur Hcur; cbn [spec_run]; [by split|].
  assert (Hz : zlen (cur ++ [b]) = zlen cur + 1) by by rewrite zlen_app.
  destruct (cut (cur ++ [b])) eqn:Hc.
  - destruct (IH []) as [Hl Hr]; [done|]. destruct (spec_run cut [] data) as [l c].
    split; [constructor; [lia|done]|done].
  - apply IH. destruct (decide (n <= zlen (cur ++ [b]))) as [Hge|]; [|lia].
    by rewrite (Hcut _ Hge) in Hc.
Qed.

Lemma spec_run_min cut m data cur : (forall c, cut c = true -> m <= zlen c) ->
  Forall (fun c => m <= zlen c) (spec_run cut cur data).1.
Proof.
  intros Hm. pose proof (spec_run_cut cut data cur) as Hs.
  destruct (spec_run cut cur data) as [l c]. destruct Hs as [Hl _].
  eapply Forall_impl; [exact Hl|]. intros k [Hk _]. by apply Hm.
Qed.

(** ** The Chunker interface *)

(** The trait [Chunker]. *)
Class Chunker (S : Type) := {
  ck_push : S -> bytes -> presult (S * list ChunkBoundary);
  ck_finish : S -> presult (S * option ChunkBoundary);
  ck_is_finished : S -> bool;
  ck_offset : S -> Z
}.

(** What an implementation promises: it refines [spec_run] for its [cut]. [ck_repr s base cur]
    says that [s] is inside a chunk that starts at [base] and has read [cur] of it. *)
Class ChunkerSpec (S : Type) `{Chunker S} (cut : bytes -> bool) := {
  ck_repr : S -> Z -> bytes -> Prop;
  ck_push_spec s base cur buf : ck_repr s base cur -> is_bytes buf ->
    exists s', ck_push s buf = Ok (s', boundaries base (spec_run cut cur buf).1) /\
      ck_repr s' (base + zlen (mjoin (spec_run cut cur buf).1)) (spec_run cut cur buf).2;
  ck_finish_spec s base cur : ck_repr s base cur ->
    exists s', ck_finish s = Ok (s', if decide (cur = []) then None
                                     else Some (mk_boundary base (zlen cur))) /\
      ck_is_finished s' = true;
  ck_offset_spec s base cur : ck_repr s base cur -> ck_offset s = base + zlen cur /\ ck_is_finished s = false
}.

(** ** Fixed-size chunker *)
Module FixedChunker.

Record t := mk { params : ChunkParams.t; in_chunk : Z; next_offset : Z; finished : bool }.

Definition new (p : ChunkParams.t) : t := mk p 0 0 false.

(** The [while offset_in_buf < buf_len] loop on the rest of the buffer; each round but the
    last consumes [needed >= 1] bytes, so the buffer length plus one is enough fuel. *)
Fixpoint push_loop (fuel : nat) (s : t) (rest : bytes) (out : list ChunkBoundary)
    : presult (t * list ChunkBoundary) :=
  match fuel with
  | O => Panic
  | S fuel' =>
      if zlen rest =? 0 then Ok (s, out) else
      let needed := saturating_sub (ChunkParams.target (params s)) (in_chunk s) in
      let available := zlen rest in
      if available <? needed then
        Ok (mk (params s) (in_chunk s + available) (next_offset s) (finished s), out)
      else
        let l := in_chunk s + needed in
        push_loop fuel' (mk (params s) 0 (next_offset s + l) (finished s))
          (drop (Z.to_nat needed) rest) (out ++ [mk_boundary (next_offset s) l])
  end.

Definition push (s : t) (buf : bytes) : presult (t * list ChunkBoundary) :=
  if finished s then Err (Malformed "FixedChunker: pushed after finish") else
  if ChunkParams.target (params s) =? 0
  then Err (Malformed "FixedChunker: target chunk size is 0") else
  push_loop (S (length buf)) s buf [].

Definition finish (s : t) : presult (t * option ChunkBoundary) :=
  if finished s then Err (Malformed "FixedChunker: finish called twice") else
  if in_chunk s =? 0 then Ok (mk (params s) (in_chunk s) (next_offset s) true, None) else
  Ok (mk (params s) 0 (next_offset s + in_chunk s) true,
      Some (mk_boundary (next_offset s) (in_chunk s))).

Definition offset (s : t) : Z := next_offset s + in_chunk s.

#[global] Instance fixed_chunker : Chunker t :=
  {| ck_push := push; ck_finish := finish; ck_is_finished := finished; ck_offset := offset |}.

(** Cut exactly at the target size. *)
Definition cut (p : ChunkParams.t) (c : bytes) : bool := ChunkParams.target p <=? zlen c.

Definition repr (p : ChunkParams.t) (s : t) (base : Z) (cur : bytes) : Prop :=
  s = mk p (zlen cur) base false /\ zlen cur < ChunkParams.target p.

Lemma fixed_loop_spec p fuel : forall base cur rest out,
  (length rest < fuel)%nat -> zlen cur < ChunkParams.target p ->
  exists s', push_loop fuel (mk p (zlen cur) base false) rest out
             = Ok (s', out ++ boundaries base (spec_run (cut p) cur rest).1) /\
    repr p s' (base + zlen (mjoin (spec_run (cut p) cur rest).1)) (spec_run (cut p) cur rest).2.
Proof.
  induction fuel as [|fuel IH]; intros base cur rest out Hfuel Hcur; [lia|].
  pose proof (zlen_nonneg rest). pose proof (zlen_nonneg cur).
  cbn [push_loop params in_chunk next_offset finished]. unfold saturating_sub.
  rewrite Z.max_r by lia. destruct (Z.eqb_spec (zlen rest) 0) as [Hz|Hz].
  { destruct rest; [|rewrite zlen_cons in Hz; pose proof (zlen_nonneg rest); lia].
    eexists. cbn [spec_run fst snd boundaries]. rewrite app_nil_r. split; [done|].
    change (zlen (mjoin [])) with 0. by rewrite Z.add_0_r. }
  destruct (Z.ltb_spec (zlen rest) (ChunkParams.target p - zlen cur)) as [Hlt|Hge].
  - assert (Hs : spec_run (cut p) cur rest = ([], cur ++ rest)).
    { rewrite <- (app_nil_r rest) at 1. rewrite spec_run_skip; [done|]. intros k Hk.
      unfold cut. apply Z.leb_gt. rewrite zlen_app, zlen_take. lia. }
    rewrite Hs. eexists. cbn [fst snd boundaries]. rewrite app_nil_r. split; [done|].
    change (zlen (mjoin [])) with 0. rewrite Z.add_0_r. unfold repr. rewrite zlen_app. split; [done|lia].
  - remember (Z.to_nat (ChunkParams.target p - zlen cur)) as n eqn:Hn0.
    assert (Hnz : Z.of_nat n = ChunkParams.target p - zlen cur) by lia. clear Hn0.
    assert (Hn : (0 < n <= length rest)%nat) by (unfold zlen in *; lia).
    assert (Htk : zlen (take n rest) = ChunkParams.target p - zlen cur) by (rewrite zlen_take; lia).
    pose proof (spec_run_hit (cut p) cur (take n rest) (drop n rest)) as Hh.
    rewrite take_drop in Hh. rewrite Hh; clear Hh.
    + cbn [fst snd boundaries]. rewrite zlen_app, Htk.
      destruct (IH (base + (zlen cur + (ChunkParams.target p - zlen cur))) [] (drop n rest)
                  (out ++ [mk_boundary base (zlen cur + (ChunkParams.target p - zlen cur))]))
        as (s' & Hpush & Hrepr).
      { rewrite length_drop. lia. }
      { change (zlen []) with 0. lia. }
      exists s'. split; [etransitivity; [exact Hpush|]; by rewrite <- app_assoc|].
      change (mjoin ((cur ++ take n rest) :: ?l)) with ((cur ++ take n rest) ++ mjoin l).
      by rewrite !zlen_app, Htk, Z.add_assoc.
    + intros Ht. rewrite Ht in Htk. change (zlen []) with 0 in Htk. lia.
    + intros k Hk. unfold cut. apply Z.leb_gt. rewrite zlen_app, zlen_take. unfold zlen in *. lia.
    + unfold cut. apply Z.leb_le. rewrite zlen_app. lia.
Qed.

Lemma fixed_repr_new p : 0 < ChunkParams.target p -> repr p (new p) 0 [].
Proof. done. Qed.

#[global] Program Instance fixed_spec p : ChunkerSpec t (cut p) := {| ck_repr := repr p |}.
Next Obligation.
  intros p s base cur buf [-> Hlt] _. unfold ck_push, fixed_chunker, push. cbn [finished params].
  pose proof (zlen_nonneg cur). rewrite (proj2 (Z.eqb_neq _ _)) by lia.
  apply (fixed_loop_spec p (S (length buf)) base cur buf []); [lia|done].
Qed.
Next Obligation.
  intros p s base cur [-> Hlt]. cbn. unfold finish. cbn. destruct (decide (cur = [])) as [->|Hne].
  - eexists. by split.
  - rewrite (proj2 (Z.eqb_neq _ _)); [eexists; by split|].
    destruct cur; [done|]. rewrite zlen_cons. pose proof (zlen_nonneg cur). lia.
Qed.
Next Obligation. intros p s base cur [-> Hlt]. done. Qed.

End FixedChunker.

(** [let mut bits = 0; while t > 1 { t >>= 1; bits += 1 }]: the bit length of a [u64] minus
    one, within 64 rounds. *)
Fixpoint bits_loop (fuel : nat) (t bits : Z) : Z :=
  match fuel with
  | O => bits
  | S fuel' => if 1 <? t then bits_loop fuel' (Z.shiftr t 1) (bits + 1) else bits
  end.

Lemma bits_loop_spec fuel : forall t bits, 0 <= t < 2 ^ Z.of_nat fuel ->
  bits_loop fuel t bits = bits + Z.log2 t.
Proof.
  induction fuel as [|fuel IH]; intros t bits Ht.
  { simpl in Ht. replace t with 0 by lia. simpl. lia. }
  cbn [bits_loop]. destruct (Z.ltb_spec 1 t) as [H1|H1].
  - rewrite Z.shiftr_div_pow2 by lia. change (2 ^ 1) with 2. rewrite IH.
    + replace t with (2 * (t / 2) + t mod 2) at 2 by (pose proof (Z.div_mod t 2); lia).
      pose proof (Z.mod_pos_bound t 2). assert (0 < t / 2) by (apply Z.div_str_pos; lia).
      assert (t mod 2 = 0 \/ t mod 2 = 1) as [-> | ->] by lia.
      * rewrite Z.add_0_r, Z.log2_double by lia. lia.
      * rewrite Z.log2_succ_double by lia. lia.
    + split; [apply Z.div_pos; lia|]. apply Z.div_lt_upper_bound; [lia|].
      rewrite Nat2Z.inj_succ, Z.pow_succ_r in Ht by lia. lia.
  - rewrite (proj2 (Z.log2_null t)) by lia. lia.
Qed.

(** ** Rolling-hash chunker *)
Module RollingChunker.

(** The mixing table. *)
Definition GEAR : list Z := [
   196; 8; 174; 52; 116; 136; 198; 245; 184; 54; 113; 151; 73; 75; 255; 100;
   110; 96; 78; 106; 135; 41; 85; 23; 176; 28; 70; 222; 239; 42; 215; 147;
   92; 218; 55; 72; 131; 1; 101; 249; 221; 161; 227; 83; 201; 43; 211; 32;
   81; 159; 59; 197; 219; 210; 89; 216; 150; 104; 60; 0; 132; 141; 82; 220;
   88; 164; 200; 56; 103; 84; 48; 46; 167; 66; 6; 97; 129; 202; 118; 231;
   7; 146; 20; 158; 11; 15; 203; 183; 241; 27; 143; 124; 213; 237; 64; 160;
   93; 193; 169; 95; 145; 133; 144; 170; 47; 29; 165; 225; 182; 214; 12; 140;
   246; 62; 232; 236; 240; 109; 2; 120; 18; 157; 186; 171; 22; 14; 155; 63;
   250; 234; 19; 86; 156; 195; 248; 9; 223; 137; 205; 105; 224; 80; 192; 178;
   107; 33; 68; 194; 138; 49; 26; 190; 44; 53; 31; 99; 168; 35; 76; 91;
   230; 209; 21; 228; 130; 16; 189; 126; 65; 254; 181; 154; 119; 71; 175; 253;
   185; 152; 115; 79; 191; 36; 153; 251; 114; 179; 180; 121; 108; 34; 207; 51;
   112; 39; 188; 229; 142; 247; 24; 244; 238; 94; 226; 242; 208; 149; 233; 57;
   122; 235; 128; 187; 204; 37; 90; 206; 139; 67; 30; 50; 61; 125; 87; 58;
   134; 13; 172; 5; 102; 3; 217; 77; 127; 166; 162; 177; 98; 45; 4; 40;
   252; 111; 10; 17; 38; 199; 148; 163; 123; 117; 25; 212; 243; 74; 69; 173 ].

Definition gear (b : Z) : Z := default 0 (GEAR !! Z.to_nat b).

Record t := mk {
  params : ChunkParams.t; mask : Z; mask_bits : Z; sum : Z; in_chunk : Z; next_offset : Z;
  finished : bool }.

Definition new (p : ChunkParams.t) : t :=
  let bits := bits_loop 64 (ChunkParams.target p) 0 in
  let mask_bits := Z.max bits 1 in
  let mask := if 32 <=? mask_bits then 2 ^ 32 - 1 else Z.shiftl 1 mask_bits - 1 in
  mk p mask mask_bits 0 0 0 false.

(** [sum.wrapping_mul(16).wrapping_add(GEAR[b] as u32)]. *)
Definition roll (sum b : Z) : Z := wrap 32 (wrap 32 (sum * 16) + gear b).

(** The body of [for &b in buf]. *)
Definition push_byte (s : t) (b : Z) : t * list ChunkBoundary :=
  let sum := roll (sum s) b in
  let in_chunk := in_chunk s + 1 in
  let hit_natural := (Z.land sum (mask s) =? 0) && (ChunkParams.min (params s) <=? in_chunk) in
  let hit_max := ChunkParams.max (params s) <=? in_chunk in
  if hit_natural || hit_max then
    (mk (params s) (mask s) (mask_bits s) 0 0 (next_offset s + in_chunk) (finished s),
     [mk_boundary (next_offset s) in_chunk])
  else (mk (params s) (mask s) (mask_bits s) sum in_chunk (next_offset s) (finished s), []).

Fixpoint push_bytes (s : t) (buf : bytes) : t * list ChunkBoundary :=
  match buf with
  | [] => (s, [])
  | b :: buf' =>
      let '(s, o) := push_byte s b in
      let '(s, out) := push_bytes s buf' in (s, o ++ out)
  end.

Definition push (s : t) (buf : bytes) : presult (t * list ChunkBoundary) :=
  if finished s then Err (Malformed "RollingChunker: pushed after finish") else
  Ok (push_bytes s buf).

Definition finish (s : t) : presult (t * option ChunkBoundary) :=
  if finished s then Err (Malformed "RollingChunker: finish called twice") else
  if in_chunk s =? 0
  then Ok (mk (params s) (mask s) (mask_bits s) (sum s) (in_chunk s) (next_offset s) true, None) else
  Ok (mk (params s) (mask s) (mask_bits s) (sum s) 0 (next_offset s + in_chunk s) true,
      Some (mk_boundary (next_offset s) (in_chunk s))).

Definition offset (s : t) : Z := next_offset s + in_chunk s.

#[global] Instance rolling_chunker : Chunker t :=
  {| ck_push := push; ck_finish := finish; ck_is_finished := finished; ck_offset := offset |}.

(** The cut condition on a chunk's content. *)
Definition hash (c : bytes) : Z := foldl roll 0 c.
Definition cut (p : ChunkParams.t) (c : bytes) : bool :=
  (Z.land (hash c) (mask (new p)) =? 0) && (ChunkParams.min p <=? zlen c)
  || (ChunkParams.max p <=? zlen c).

Definition repr (p : ChunkParams.t) (s : t) (base : Z) (cur : bytes) : Prop :=
  s = mk p (mask (new p)) (mask_bits (new p)) (hash cur) (zlen cur) base false.

Lemma push_bytes_spec p buf : forall s base cur, repr p s base cur ->
  exists s', push_bytes s buf = (s', boundaries base (spec_run (cut p) cur buf).1) /\
    repr p s' (base + zlen (mjoin (spec_run (cut p) cur buf).1)) (spec_run (cut p) cur buf).2.
Proof.
  induction buf as [|b buf IH]; intros s base cur ->.
  { eexists. split; [done|]. change (zlen (mjoin _)) with 0. by rewrite Z.add_0_r. }
  cbn [push_bytes spec_run]. unfold push_byte. cbn [sum in_chunk next_offset params mask mask_bits finished].
  assert (Hh : roll (hash cur) b = hash (cur ++ [b])) by (unfold hash; by rewrite foldl_snoc).
  assert (Hz : zlen cur + 1 = zlen (cur ++ [b])) by by rewrite zlen_app. rewrite Hh, Hz.
  fold (cut p (cur ++ [b])). destruct (cut p (cur ++ [b])).
  - destruct (IH (mk p (mask (new p)) (mask_bits (new p)) 0 0 (base + zlen (cur ++ [b])) false)
                 (base + zlen (cur ++ [b])) [] eq_refl) as (s' & Hp & Hr).
    rewrite Hp. destruct (spec_run (cut p) [] buf) as [l c]. eexists. split; [done|].
    cbn [fst snd] in Hr |- *. change (mjoin ((cur ++ [b]) :: l)) with ((cur ++ [b]) ++ mjoin l).
    by rewrite (zlen_app (cur ++ [b])), Z.add_assoc.
  - destruct (IH _ base (cur ++ [b]) eq_refl) as (s' & Hp & Hr). rewrite Hp. by exists s'.
Qed.

Lemma rolling_repr_new p : repr p (new p) 0 [].
Proof. done. Qed.

#[global] Program Instance rolling_spec p : ChunkerSpec t (cut p) := {| ck_repr := repr p |}.
Next Obligation.
  intros p s base cur buf Hr _. destruct (push_bytes_spec p buf s base cur Hr) as (s' & Hp & Hr').
  exists s'. split; [|done]. unfold ck_push, rolling_chunker, push. rewrite Hr at 1. cbn [finished].
  by rewrite Hp.
Qed.
Next Obligation.
  intros p s base cur ->. cbn. unfold finish. cbn. destruct (decide (cur = [])) as [->|Hne].
  - eexists. by split.
  - rewrite (proj2 (Z.eqb_neq _ _)); [eexists; by split|].
    destruct cur; [done|]. rewrite zlen_cons. pose proof (zlen_nonneg cur). lia.
Qed.
Next Obligation. intros p s base cur ->. done. Qed.

End RollingChunker.

(** ** FastCDC *)
Module FastCdcChunker.

(** [generate_gear_64]: 256 rounds of xorshift64. *)
Fixpoint gear_loop (k : nat) (state : Z) : list Z :=
  match k with
  | O => []
  | S k' =>
      let state := Z.lxor state (wrap 64 (Z.shiftl state 13)) in
      let state := Z.lxor state (Z.shiftr state 7) in
      let state := Z.lxor state (wrap 64 (Z.shiftl state 17)) in
      state :: gear_loop k' state
  end.
Definition generate_gear_64 : list Z := gear_loop 256 0x9E3779B97F4A7C15.
Definition GEAR_64 : list Z := Eval vm_compute in generate_gear_64.
Definition gear (b : Z) : Z := default 0 (GEAR_64 !! Z.to_nat b).

Record t := mk {
  params : ChunkParams.t; mask_s : Z; mask_l : Z; mask_s_bits : Z; mask_l_bits : Z;
  fingerprint : Z; in_chunk : Z; next_offset : Z; finished : bool }.

Definition new (p : ChunkParams.t) : t :=
  let bits := bits_loop 64 (ChunkParams.target p) 0 in
  let mask_s_bits := Z.max (Z.min (bits + 1) 63) 1 in
  let mask_l_bits := Z.max (Z.min (saturating_sub bits 1) 63) 1 in
  let mask_s := Z.shiftl 1 mask_s_bits - 1 in
  let mask_l := Z.shiftl 1 mask_l_bits - 1 in
  mk p mask_s mask_l mask_s_bits mask_l_bits 0 0 0 false.

(** The fields [push] changes. *)
Definition upd (s : t) (fp n off : Z) : t :=
  mk (params s) (mask_s s) (mask_l s) (mask_s_bits s) (mask_l_bits s) fp n off (finished s).

(** [(fingerprint << 1).wrapping_add(GEAR_64[b])]. *)
Definition roll (fp b : Z) : Z := wrap 64 (wrap 64 (Z.shiftl fp 1) + gear b).

(** Phase 2: the inner loop, up to the first boundary or the end of the buffer. *)
Fixpoint scan (s : t) (rest : bytes) : t * bytes * list ChunkBoundary :=
  match rest with
  | [] => (s, [], [])
  | b :: rest' =>
      let fp := roll (fingerprint s) b in
      let n := in_chunk s + 1 in
      let mask := if n <? ChunkParams.target (params s) then mask_s s else mask_l s in
      let hit_natural := Z.land fp mask =? 0 in
      let hit_max := ChunkParams.max (params s) <=? n in
      if hit_natural || hit_max
      then (upd s 0 0 (next_offset s + n), rest', [mk_boundary (next_offset s) n])
      else scan (upd s fp n (next_offset s)) rest'
  end.

(** The outer loop; every round consumes at least one byte. *)
Fixpoint push_loop (fuel : nat) (s : t) (rest : bytes) (out : list ChunkBoundary)
    : presult (t * list ChunkBoundary) :=
  match fuel with
  | O => Panic
  | S fuel' =>
      if zlen rest =? 0 then Ok (s, out) else
      let min := ChunkParams.min (params s) in
      let to_skip := if in_chunk s <? min then Z.min (min - in_chunk s) (zlen rest) else 0 in
      let s := upd s (fingerprint s) (in_chunk s + to_skip) (next_offset s) in
      let rest := drop (Z.to_nat to_skip) rest in
      if in_chunk s <? min then Ok (s, out) else
      let '(s, rest, o) := scan s rest in
      push_loop fuel' s rest (out ++ o)
  end.

Definition push (s : t) (buf : bytes) : presult (t * list ChunkBoundary) :=
  if finished s then Err (Malformed "FastCdcChunker: pushed after finish") else
  push_loop (S (length buf)) s buf [].

Definition finish (s : t) : presult (t * option ChunkBoundary) :=
  if finished s then Err (Malformed "FastCdcChunker: finish called twice") else
  let fin n off := mk (params s) (mask_s s) (mask_l s) (mask_s_bits s) (mask_l_bits s)
                     (fingerprint s) n off true in
  if in_chunk s =? 0 then Ok (fin (in_chunk s) (next_offset s), None) else
  Ok (fin 0 (next_offset s + in_chunk s), Some (mk_boundary (next_offset s) (in_chunk s))).

Definition offset (s : t) : Z := next_offset s + in_chunk s.

#[global] Instance fastcdc_chunker : Chunker t :=
  {| ck_push := push; ck_finish := finish; ck_is_finished := finished; ck_offset := offset |}.

(** The cut condition on a chunk's content: no cut in the first [min] bytes, whose content
    is not hashed; then the mask that the length selects, or the maximum. *)
Definition hash (p : ChunkParams.t) (c : bytes) : Z :=
  foldl roll 0 (drop (Z.to_nat (ChunkParams.min p)) c).
Definition mask_at (p : ChunkParams.t) (n : Z) : Z :=
  if n <? ChunkParams.target p then mask_s (new p) else mask_l (new p).
Definition cut (p : ChunkParams.t) (c : bytes) : bool :=
  (ChunkParams.min p <? zlen c) &&
  ((Z.land (hash p c) (mask_at p (zlen c)) =? 0) || (ChunkParams.max p <=? zlen c)).

Definition repr (p : ChunkParams.t) (s : t) (base : Z) (cur : bytes) : Prop :=
  s = upd (new p) (hash p cur) (zlen cur) base.

Lemma hash_short p c : zlen c <= ChunkParams.min p -> hash p c = 0.
Proof. intros Hc. unfold hash. rewrite drop_ge; [done|]. unfold zlen in Hc. lia. Qed.

Lemma hash_snoc p c b : 0 <= ChunkParams.min p <= zlen c -> hash p (c ++ [b]) = roll (hash p c) b.
Proof.
  intros Hc. unfold hash. rewrite drop_app_le by (unfold zlen in Hc; lia). by rewrite foldl_snoc.
Qed.

(** The inner loop follows the specification up to the first boundary. *)
Lemma scan_spec p base rest : forall cur, 0 <= ChunkParams.min p <= zlen cur ->
  exists cur' base' rest' l, spec_run (cut p) cur rest =
      (l ++ (spec_run (cut p) cur' rest').1, (spec_run (cut p) cur' rest').2) /\
    scan (upd (new p) (hash p cur) (zlen cur) base) rest
      = (upd (new p) (hash p cur') (zlen cur') base', rest', boundaries base l) /\
    base' = base + zlen (mjoin l) /\ (rest' = [] \/ cur' = []) /\
    (length rest' <= length rest)%nat /\ (rest <> [] -> (length rest' < length rest)%nat).
Proof.
  induction rest as [|b rest IH]; intros cur Hmin.
  { exists cur, base, [], []. change (zlen (mjoin [])) with 0. rewrite Z.add_0_r.
    split_and!; try done; auto. }
  cbn [scan spec_run]. cbn [fingerprint in_chunk next_offset params mask_s mask_l upd].
  rewrite <- hash_snoc by done.
  assert (Hz : zlen cur + 1 = zlen (cur ++ [b])) by by rewrite zlen_app. rewrite Hz.
  assert (Hcut : cut p (cur ++ [b]) =
    ((Z.land (hash p (cur ++ [b])) (mask_at p (zlen (cur ++ [b]))) =? 0)
     || (ChunkParams.max p <=? zlen (cur ++ [b])))).
  { unfold cut. by rewrite (proj2 (Z.ltb_lt _ _)) by lia. }
  change (params (new p)) with p. fold (mask_at p (zlen (cur ++ [b]))). rewrite <- Hcut.
  destruct (cut p (cur ++ [b])).
  - exists [], (base + zlen (cur ++ [b])), rest, [cur ++ [b]].
    split; [by destruct (spec_run (cut p) [] rest)|].
    split; [rewrite (hash_short p []); [done|change (zlen []) with 0; lia]|].
    split; [change (mjoin [cur ++ [b]]) with ((cur ++ [b]) ++ []); by rewrite app_nil_r|].
    split; [by right|]. simpl. lia.
  - destruct (IH (cur ++ [b])) as (cur' & base' & rest' & l & Hs & Hscan & Hb & Hd & Hle & Hlt); [lia|].
    exists cur', base', rest', l. split; [done|]. split; [exact Hscan|]. split; [done|]. split; [done|].
    simpl. lia.
Qed.

(** Phase 1: skipped bytes neither cut nor change the fingerprint. *)
Lemma skip_spec p cur a rest : 0 <= ChunkParams.min p ->
  (a = [] \/ zlen (cur ++ a) <= ChunkParams.min p) ->
  spec_run (cut p) cur (a ++ rest) = spec_run (cut p) (cur ++ a) rest /\
  hash p (cur ++ a) = hash p cur.
Proof.
  intros Hmin [-> |Ha]; [by rewrite app_nil_r|]. pose proof (zlen_nonneg a) as Hn.
  rewrite zlen_app in Ha. split.
  - apply spec_run_skip. intros k Hk. unfold cut. rewrite (proj2 (Z.ltb_ge _ _)); [done|].
    rewrite zlen_app, zlen_take. lia.
  - by rewrite !hash_short by (rewrite ?zlen_app; lia).
Qed.

Lemma fastcdc_loop_spec p fuel : 0 <= ChunkParams.min p -> forall base cur rest out,
  (length rest < fuel)%nat ->
  exists s', push_loop fuel (upd (new p) (hash p cur) (zlen cur) base) rest out
             = Ok (s', out ++ boundaries base (spec_run (cut p) cur rest).1) /\
    repr p s' (base + zlen (mjoin (spec_run (cut p) cur rest).1)) (spec_run (cut p) cur rest).2.
Proof.
  intros Hmin. induction fuel as [|fuel IH]; intros base cur rest out Hfuel; [lia|].
  pose proof (zlen_nonneg rest). cbn [push_loop]. destruct (Z.eqb_spec (zlen rest) 0) as [Hz|Hz].
  { destruct rest; [|rewrite zlen_cons in Hz; pose proof (zlen_nonneg rest); lia].
    eexists. cbn [spec_run fst snd boundaries]. rewrite app_nil_r. split; [done|].
    change (zlen (mjoin [])) with 0. by rewrite Z.add_0_r. }
  cbn [params in_chunk fingerprint next_offset upd]. change (params (new p)) with p.
  remember (if zlen cur <? ChunkParams.min p then Z.min (ChunkParams.min p - zlen cur) (zlen rest) else 0)
    as k eqn:Hk.
  assert (Hkb : 0 <= k <= zlen rest) by (subst k; case_match; lia).
  remember (take (Z.to_nat k) rest) as a eqn:Ha. remember (drop (Z.to_nat k) rest) as rest1 eqn:Hr1.
  assert (Hrest : rest = a ++ rest1) by by subst a rest1; rewrite take_drop.
  assert (Hza : zlen a = k) by (subst a; rewrite zlen_take; lia).
  destruct (skip_spec p cur a rest1 Hmin) as [Hspec Hhash].
  { destruct (Z.ltb_spec (zlen cur) (ChunkParams.min p)).
    - right. rewrite zlen_app. lia.
    - left. subst a k. done. }
  rewrite Hrest, Hspec, <- Hhash, <- Hza, <- zlen_app.
  assert (Hlr : (length rest1 <= length rest)%nat) by (rewrite Hrest, length_app; lia).
  destruct (Z.ltb_spec (zlen (cur ++ a)) (ChunkParams.min p)) as [Hlt|Hge].
  - assert (rest1 = []) as ->.
    { rewrite zlen_app in Hlt. assert (Hz1 : zlen rest1 = 0) by (rewrite Hr1, zlen_drop; destruct (Z.ltb_spec (zlen cur) (ChunkParams.min p)); lia).
      destruct rest1; [done|]. rewrite zlen_cons in Hz1. pose proof (zlen_nonneg rest1). lia. }
    eexists. cbn [spec_run fst snd boundaries]. rewrite app_nil_r. split; [done|].
    change (zlen (mjoin [])) with 0. by rewrite Z.add_0_r.
  - destruct (scan_spec p base rest1 (cur ++ a)) as (cur' & base' & rest' & l & Hs & Hscan & Hb & Hd & Hle & Hlt); [lia|].
    change (upd (upd (new p) ?x ?y ?z) ?u ?v ?w) with (upd (new p) u v w). rewrite Hscan.
    destruct (IH base' cur' rest' (out ++ boundaries base l)) as (s' & Hpush & Hrepr).
    { destruct rest1; [|specialize (Hlt ltac:(done)); lia]. 
      rewrite app_nil_r in Hrest. subst a. assert (0 < length rest)%nat by (unfold zlen in *; lia). simpl in Hle. lia. }
    exists s'. rewrite Hs. cbn [fst snd]. rewrite Hpush, boundaries_app, Hb. split; [by rewrite app_assoc|].
    by rewrite mjoin_app', zlen_app, Z.add_assoc, <- Hb.
Qed.

#[global] Program Instance fastcdc_spec p `{!TCNonNeg (ChunkParams.min p)} : ChunkerSpec t (cut p) :=
  {| ck_repr := repr p |}.
Next Obligation.
  intros p Hmin s base cur buf -> _. unfold ck_push, fastcdc_chunker, push. cbn [finished upd new].
  apply (fastcdc_loop_spec p (S (length buf)) Hmin base cur buf []). lia.
Qed.
Next Obligation.
  intros p _ s base cur ->. cbn. unfold finish. cbn. destruct (decide (cur = [])) as [->|Hne].
  - eexists. by split.
  - rewrite (proj2 (Z.eqb_neq _ _)); [eexists; by split|].
    destruct cur; [done|]. rewrite zlen_cons. pose proof (zlen_nonneg cur). lia.
Qed.
Next Obligation. intros p _ s base cur ->. done. Qed.

Lemma fastcdc_repr_new p : 0 <= ChunkParams.min p -> repr p (new p) 0 [].
Proof. intros. unfold repr. rewrite hash_short; [done|]. done. Qed.

End FastCdcChunker.

(** ** Driving a chunker *)
Section drive.
Context {S : Type} `{ChunkerSpec S cut}.

(** Successive [push]es. *)
Fixpoint push_all (s : S) (bufs : list bytes) : presult (S * list ChunkBoundary) :=
  match bufs with
  | [] => Ok (s, [])
  | b :: bufs' =>
      let? '(s, o) := ck_push s b in
      let? '(s, out) := push_all s bufs' in
      Ok (s, o ++ out)
  end.

(** All boundaries of a stream read in the given buffers. *)
Definition chunk_stream (s : S) (bufs : list bytes) : presult (list ChunkBoundary) :=
  let? '(s, out) := push_all s bufs in
  let? '(_, last) := ck_finish s in
  Ok (out ++ option_list last).

Lemma push_all_spec bufs : Forall is_bytes bufs -> forall s base cur, ck_repr s base cur ->
  exists s', push_all s bufs = Ok (s', boundaries base (spec_run cut cur (mjoin bufs)).1) /\
    ck_repr s' (base + zlen (mjoin (spec_run cut cur (mjoin bufs)).1))
      (spec_run cut cur (mjoin bufs)).2.
Proof.
  induction 1 as [|b bufs Hb Hbufs IH]; intros s base cur Hr.
  { exists s. change (zlen (mjoin (spec_run cut cur (mjoin [])).1)) with 0. by rewrite Z.add_0_r. }
  cbn [push_all]. destruct (ck_push_spec s base cur b Hr Hb) as (s1 & -> & Hr1). cbn [obind].
  destruct (IH _ _ _ Hr1) as (s2 & -> & Hr2). cbn [obind]. exists s2.
  change (mjoin (b :: bufs)) with (b ++ mjoin bufs). rewrite spec_run_app.
  destruct (spec_run cut cur b) as [l1 c1]. cbn [fst snd] in *.
  destruct (spec_run cut c1 (mjoin bufs)) as [l2 c2]. cbn [fst snd] in *.
  rewrite boundaries_app, mjoin_app', zlen_app, Z.add_assoc. done.
Qed.

Lemma chunk_stream_boundaries s bufs : Forall is_bytes bufs -> ck_repr s 0 [] ->
  chunk_stream s bufs = Ok (boundaries 0 (spec_chunks cut (mjoin bufs))).
Proof.
  intros Hb Hr. unfold chunk_stream, spec_chunks.
  destruct (push_all_spec bufs Hb s 0 [] Hr) as (s' & -> & Hr'). cbn [obind].
  destruct (spec_run cut [] (mjoin bufs)) as [l c]. cbn [fst snd] in *.
  destruct (ck_finish_spec _ _ _ Hr') as (s'' & -> & _). cbn [obind].
  rewrite boundaries_app, Z.add_0_l. by destruct (decide (c = [])).
Qed.

End drive.
