(* ===== verification/MsgManifest.v ===== *)
(** Manifest and inventory messages (crates/velcrux-core/src/protocol/message.rs,
    lines 1644-1940): MANIFEST_BEGIN, MANIFEST_BATCH, MANIFEST_END, INVENTORY_HINT,
    CHUNK_QUERY, CHUNK_RESPONSE. *)

From stdpp Require Import strings pretty.
From S2P Require Import Prelude Utf8 Protocol Varint Wire Chunking.

(** ** MANIFEST_BEGIN *)
Module ManifestBegin.

Record t := mk {
  file_count : Z; total_bytes : Z; chunker_params : ChunkParams.t; manifest_hash : Hash }.

Definition encode (m : t) : presult bytes :=
  Ok (to_le 8 (file_count m) ++ to_le 8 (total_bytes m)
      ++ to_le 8 (ChunkParams.min (chunker_params m))
      ++ to_le 8 (ChunkParams.target (chunker_params m))
      ++ to_le 8 (ChunkParams.max (chunker_params m)) ++ manifest_hash m).

Definition decode (buf : bytes) : presult t :=
  if zlen buf <? 72 then Err (Malformed "MANIFEST_BEGIN: truncated") else
  let? file_count := read_le buf 0 8 in
  if Limits.MAX_MANIFEST_ENTRIES <? file_count
  then Err (InvalidManifest ("file count " +:+ pretty file_count
              +:+ " exceeds MAX_MANIFEST_ENTRIES " +:+ pretty Limits.MAX_MANIFEST_ENTRIES)) else
  let? total_bytes := read_le buf 8 8 in
  if Limits.MAX_MANIFEST_BYTES <? total_bytes
  then Err (InvalidManifest ("total bytes " +:+ pretty total_bytes
              +:+ " exceeds MAX_MANIFEST_BYTES " +:+ pretty Limits.MAX_MANIFEST_BYTES)) else
  let? min := read_le buf 16 8 in
  let? target := read_le buf 24 8 in
  let? max := read_le buf 32 8 in
  let? chunker_params := ok_or (ChunkParams.new min target max)
                           (Malformed "MANIFEST_BEGIN: invalid chunk params") in
  let? raw := slice buf 40 72 in
  let? manifest_hash := ok_or (Hash_from_bytes raw) (Malformed "MANIFEST_BEGIN: invalid hash") in
  Ok (mk file_count total_bytes chunker_params manifest_hash).

Definition ok (m : t) : Prop :=
  0 <= file_count m <= Limits.MAX_MANIFEST_ENTRIES /\
  0 <= total_bytes m <= Limits.MAX_MANIFEST_BYTES /\
  ChunkParams.valid (chunker_params m) /\ fits 64 (ChunkParams.max (chunker_params m)) /\
  wf_hash (manifest_hash m).

Lemma manifest_begin_roundtrip m p :
  ok m -> encode m = Ok p -> zlen p < 2 ^ 63 -> decode p = Ok m.
Proof.
  destruct m as [n b [mn tg mx] h]. intros (Hn & Hb & Hv & Hf & [Hh Hhl]) He _.
  unfold encode in He. cbn in *. simplify_eq.
  assert (fits 64 n) by (unfold Limits.MAX_MANIFEST_ENTRIES, fits in *; lia).
  assert (fits 64 b) by (unfold Limits.MAX_MANIFEST_BYTES, fits in *; lia).
  assert (fits 64 mn /\ fits 64 tg) as [? ?]
    by (unfold ChunkParams.valid, fits in *; cbn in *; lia).
  unfold decode. run.
  rewrite (proj2 (ChunkParams.params_new_spec mn tg mx _ ltac:(unfold fits in *; lia)
             ltac:(unfold fits in *; lia)) (conj eq_refl Hv)). by run.
Qed.

Lemma manifest_begin_safe p : is_buf p -> wp (decode p) ok.
Proof.
  intros [Hb Hl]. unfold decode. wps. apply wp_ok_or.
  intros cp [-> Hvp]%ChunkParams.params_new_spec; [|lia|lia]. wps. post; try apply Hvp; try lia.
Qed.

Lemma manifest_begin_total m : ok m -> wp (encode m) is_bytes.
Proof. intros (_ & _ & _ & _ & Hh). unfold encode. solve_total. Qed.

#[global] Instance manifest_begin_codec : WireCodec t := {|
  codec_roundtrip := manifest_begin_roundtrip; codec_safe := manifest_begin_safe;
  codec_total := manifest_begin_total |}.

End ManifestBegin.

(** ** MANIFEST_BATCH *)
Module ManifestBatch.

Record t := mk { batch_index : Z; entry_count : Z; compressed_payload : bytes }.

Definition encode (m : t) : presult bytes :=
  Ok (to_le 8 (batch_index m) ++ to_le 4 (entry_count m) ++ compressed_payload m).

Definition decode (buf : bytes) : presult t :=
  if zlen buf <? 12 then Err (Malformed "MANIFEST_BATCH: truncated") else
  let? batch_index := read_le buf 0 8 in
  let? entry_count := read_le buf 8 4 in
  if Limits.MANIFEST_BATCH_SIZE <? entry_count
  then Err (InvalidManifest ("batch entry count " +:+ pretty entry_count
              +:+ " exceeds MANIFEST_BATCH_SIZE " +:+ pretty Limits.MANIFEST_BATCH_SIZE)) else
  let? compressed_payload := slice_from buf 12 in
  Ok (mk batch_index entry_count compressed_payload).

Definition ok (m : t) : Prop :=
  fits 64 (batch_index m) /\ 0 <= entry_count m <= Limits.MANIFEST_BATCH_SIZE /\
  is_bytes (compressed_payload m).

Lemma manifest_batch_roundtrip m p :
  ok m -> encode m = Ok p -> zlen p < 2 ^ 63 -> decode p = Ok m.
Proof.
  destruct m as [i n b]. intros (Hi & Hn & Hb) He _. unfold encode in He. cbn in *. simplify_eq.
  assert (fits 32 n) by (unfold Limits.MANIFEST_BATCH_SIZE, fits in *; lia).
  unfold decode. by run.
Qed.

Lemma manifest_batch_safe p : is_buf p -> wp (decode p) ok.
Proof. intros [Hb Hl]. unfold decode. wps. post. Qed.

Lemma manifest_batch_total m : ok m -> wp (encode m) is_bytes.
Proof. intros (_ & _ & Hb). unfold encode. solve_total. Qed.

#[global] Instance manifest_batch_codec : WireCodec t := {|
  codec_roundtrip := manifest_batch_roundtrip; codec_safe := manifest_batch_safe;
  codec_total := manifest_batch_total |}.

End ManifestBatch.

(** ** MANIFEST_END *)
Module ManifestEnd.

Record t := mk { manifest_hash : Hash }.

Definition encode (m : t) : presult bytes := Ok (manifest_hash m).

Definition decode (buf : bytes) : presult t :=
  if negb (zlen buf =? 32) then Err (Malformed "MANIFEST_END: expected 32 bytes") else
  let? manifest_hash := ok_or (Hash_from_bytes buf) (Malformed "MANIFEST_END: invalid hash") in
  Ok (mk manifest_hash).

Definition ok (m : t) : Prop := wf_hash (manifest_hash m).

Lemma manifest_end_roundtrip m p :
  ok m -> encode m = Ok p -> zlen p < 2 ^ 63 -> decode p = Ok m.
Proof.
  destruct m as [h]. intros [Hh Hhl] He _. unfold encode in He. cbn in *. simplify_eq.
  unfold decode. by run.
Qed.

Lemma manifest_end_safe p : is_buf p -> wp (decode p) ok.
Proof. intros [Hb Hl]. unfold decode. wps. post. Qed.

Lemma manifest_end_total m : ok m -> wp (encode m) is_bytes.
Proof. intros [Hh _]. exact Hh. Qed.

#[global] Instance manifest_end_codec : WireCodec t := {|
  codec_roundtrip := manifest_end_roundtrip; codec_safe := manifest_end_safe;
  codec_total := manifest_end_total |}.

End ManifestEnd.

(** ** INVENTORY_HINT *)
Module InventoryHint.

Record t := mk { transfer_id : TransferId; filter_bits : Z; num_hashes : Z; bitset : bytes }.

Definition encode (m : t) : presult bytes :=
  Ok (transfer_id m ++ to_le 4 (filter_bits m) ++ push (num_hashes m) ++ bitset m).

Definition decode (buf : bytes) : presult t :=
  if zlen buf <? 16 + 4 + 1 then Err (Malformed "INVENTORY_HINT: truncated") else
  let? raw := slice buf 0 16 in
  let? transfer_id := ok_or (TransferId_from_bytes raw)
                        (Malformed "INVENTORY_HINT: bad transfer_id") in
  let? filter_bits := read_le buf 16 4 in
  let? num_hashes := index buf 20 in
  let? bitset := slice_from buf 21 in
  Ok (mk transfer_id filter_bits num_hashes bitset).

Definition ok (m : t) : Prop :=
  wf_id (transfer_id m) /\ fits 32 (filter_bits m) /\ fits 8 (num_hashes m) /\
  is_bytes (bitset m).

Lemma inventory_hint_roundtrip m p :
  ok m -> encode m = Ok p -> zlen p < 2 ^ 63 -> decode p = Ok m.
Proof.
  destruct m as [id n k b]. intros ([Hi Hil] & Hn & Hk & Hb) He _. unfold encode in He.
  cbn in *. simplify_eq. unfold decode. by run.
Qed.

Lemma inventory_hint_safe p : is_buf p -> wp (decode p) ok.
Proof. intros [Hb Hl]. unfold decode. wps. post. Qed.

Lemma inventory_hint_total m : ok m -> wp (encode m) is_bytes.
Proof. intros (Hi & _ & Hk & Hb). unfold encode. solve_total. Qed.

#[global] Instance inventory_hint_codec : WireCodec t := {|
  codec_roundtrip := inventory_hint_roundtrip; codec_safe := inventory_hint_safe;
  codec_total := inventory_hint_total |}.

End InventoryHint.

(** ** CHUNK_RESPONSE *)
Module ChunkResponse.

Record t := mk {
  transfer_id : TransferId; query_seq : Z; total_chunks : Z; have_count : Z; rle_bitmap : bytes }.

Definition encode (m : t) : presult bytes :=
  Ok (transfer_id m ++ to_le 8 (query_seq m) ++ to_le 4 (total_chunks m)
      ++ to_le 4 (have_count m) ++ rle_bitmap m).

Definition decode (buf : bytes) : presult t :=
  if zlen buf <? 16 + 8 + 4 + 4 then Err (Malformed "CHUNK_RESPONSE: truncated") else
  let? raw := slice buf 0 16 in
  let? transfer_id := ok_or (TransferId_from_bytes raw)
                        (Malformed "CHUNK_RESPONSE: bad transfer_id") in
  let? query_seq := read_le buf 16 8 in
  let? total_chunks := read_le buf 24 4 in
  let? have_count := read_le buf 28 4 in
  let? rle_bitmap := slice_from buf 32 in
  Ok (mk transfer_id query_seq total_chunks have_count rle_bitmap).

Definition ok (m : t) : Prop :=
  wf_id (transfer_id m) /\ fits 64 (query_seq m) /\ fits 32 (total_chunks m) /\
  fits 32 (have_count m) /\ is_bytes (rle_bitmap m).

Lemma chunk_response_roundtrip m p :
  ok m -> encode m = Ok p -> zlen p < 2 ^ 63 -> decode p = Ok m.
Proof.
  destruct m as [id q n h b]. intros ([Hi Hil] & Hq & Hn & Hh & Hb) He _. unfold encode in He.
  cbn in *. simplify_eq. unfold decode. by run.
Qed.

Lemma chunk_response_safe p : is_buf p -> wp (decode p) ok.
Proof. intros [Hb Hl]. unfold decode. wps. post. Qed.

Lemma chunk_response_total m : ok m -> wp (encode m) is_bytes.
Proof. intros (Hi & _ & _ & _ & Hb). unfold encode. solve_total. Qed.

#[global] Instance chunk_response_codec : WireCodec t := {|
  codec_roundtrip := chunk_response_roundtrip; codec_safe := chunk_response_safe;
  codec_total := chunk_response_total |}.

End ChunkResponse.

(** ** CHUNK_QUERY *)
Module ChunkQuery.

Record t := mk { transfer_id : TransferId; query_seq : Z; chunk_hashes : list Hash }.

Definition encode (m : t) : presult bytes :=
  let? n := Varint.put_varint (zlen (chunk_hashes m)) in
  Ok (transfer_id m ++ to_le 8 (query_seq m) ++ n ++ mjoin (chunk_hashes m)).

Fixpoint read_hashes (count : nat) (buf : bytes) (i : Z) : presult (list Hash) :=
  match count with
  | O => Ok []
  | S count' =>
      let? raw := slice buf i (i + 32) in
      let? h := ok_or (Hash_from_bytes raw) (Malformed "CHUNK_QUERY: invalid hash") in
      let? r := read_hashes count' buf (i + 32) in
      Ok (h :: r)
  end.

Definition decode (buf : bytes) : presult t :=
  if zlen buf <? 16 + 8 then Err (Malformed "CHUNK_QUERY: truncated") else
  let? raw := slice buf 0 16 in
  let? transfer_id := ok_or (TransferId_from_bytes raw)
                        (Malformed "CHUNK_QUERY: bad transfer_id") in
  let? query_seq := read_le buf 16 8 in
  let i := 24 in
  let? rest := slice_from buf i in
  let? '(count, consumed) := Varint.decode_varint rest in
  let i := i + consumed in
  if Limits.MAX_MANIFEST_ENTRIES <? count
  then Err (Malformed "CHUNK_QUERY: too many hashes") else
  let count_us := count in
  let? hashes_bytes := ok_or (checked_mul 64 count_us 32)
                         (Malformed "CHUNK_QUERY: count overflow") in
  let? e := ok_or (checked_add 64 i hashes_bytes) (Malformed "CHUNK_QUERY: length overflow") in
  if zlen buf <? e then Err (Malformed "CHUNK_QUERY: truncated hashes") else
  let? chunk_hashes := read_hashes (Z.to_nat count_us) buf i in
  Ok (mk transfer_id query_seq chunk_hashes).

Definition ok (m : t) : Prop :=
  wf_id (transfer_id m) /\ fits 64 (query_seq m) /\ Forall wf_hash (chunk_hashes m) /\
  zlen (chunk_hashes m) <= Limits.MAX_MANIFEST_ENTRIES.

Lemma hashes_cons (h : Hash) (l : list Hash) : mjoin (h :: l) = h ++ mjoin l.
Proof. done. Qed.

Lemma zlen_hashes l : Forall wf_hash l -> zlen (mjoin l) = 32 * zlen l.
Proof.
  induction 1 as [|h l [_ Hh] Hl IH]; [done|].
  rewrite hashes_cons, zlen_app, zlen_cons, IH. lia.
Qed.

Lemma read_hashes_at l buf i : Forall wf_hash l ->
  slice_from buf i = @Ok ProtocolError _ (mjoin l) -> read_hashes (length l) buf i = Ok l.
Proof.
  intros Hl. revert i. induction Hl as [|h l [Hb Hh] Hl IH]; intros i Hf; [done|].
  cbn [length read_hashes]. rewrite hashes_cons in Hf.
  replace i with (i + 0) at 1 by lia. rewrite (slice_of_slice_from _ _ _ _ _ Hf) by lia. run.
  rewrite IH; [done|]. rewrite (slice_from_from _ _ _ _ Hf) by lia. by repeat step_slice_from.
Qed.

Lemma wp_read_hashes k buf i : is_bytes buf -> 0 <= i -> i + 32 * Z.of_nat k <= zlen buf ->
  wp (read_hashes k buf i) (fun l => length l = k /\ Forall wf_hash l).
Proof.
  intros Hb. revert i. induction k as [|k IH]; intros i Hi Hk; cbn [read_hashes].
  { by repeat constructor. }
  wps. eapply wp_mono; [apply IH; lia|]. intros l [Hl Hok]. wps.
  split; [simpl; lia|constructor; [post|done]].
Qed.

Lemma chunk_query_roundtrip m p :
  ok m -> encode m = Ok p -> zlen p < 2 ^ 63 -> decode p = Ok m.
Proof.
  destruct m as [id q l]. intros ([Hi Hil] & Hq & Hh & Hn) He Hp. unfold encode in He.
  cbn in *. pose proof (zlen_nonneg l). pose proof (zlen_hashes l Hh).
  assert (Hf : fits 64 (zlen l)) by (unfold Limits.MAX_MANIFEST_ENTRIES, fits in *; lia).
  rewrite Varint.put_varint_spec in He by done. cbn [obind] in He. simplify_eq.
  unfold decode. run. rewrite checked_mul_ok by (unfold Limits.MAX_MANIFEST_ENTRIES in *; lia).
  cbn [ok_or obind]. unfold Limits.MAX_MANIFEST_ENTRIES in *. run.
  unfold zlen at 1. rewrite Nat2Z.id. rewrite read_hashes_at; [done|done|].
  by repeat step_slice_from.
Qed.

Lemma chunk_query_safe p : is_buf p -> wp (decode p) ok.
Proof.
  intros [Hb Hl]. unfold decode. wps. apply wp_ok_or. intros hb [-> Hm]%checked_mul_Some. wps.
  eapply wp_mono; [apply wp_read_hashes; [done|lia|lia]|]. intros l [Hk Hok]. wps. post.
  unfold zlen. lia.
Qed.

Lemma chunk_query_total m : ok m -> wp (encode m) is_bytes.
Proof.
  intros (Hi & _ & Hh & Hn). pose proof (zlen_nonneg (chunk_hashes m)).
  unfold encode, Limits.MAX_MANIFEST_ENTRIES in *. wps.
  assert (is_bytes (mjoin (chunk_hashes m))).
  { clear -Hh. induction Hh as [|h l [Hb _] Hl IH]; [apply is_bytes_nil|]. by apply is_bytes_app. }
  auto 20 with is_bytes.
Qed.

#[global] Instance chunk_query_codec : WireCodec t := {|
  codec_roundtrip := chunk_query_roundtrip; codec_safe := chunk_query_safe;
  codec_total := chunk_query_total |}.

End ChunkQuery.
