(* ===== verification/Message.v ===== *)
(** The message catalogue and the payload dispatcher
    (crates/velcrux-core/src/protocol/message.rs: the type constants, [enum Message] and
    [Message::{type_byte, encode, decode}]). The dispatcher's theorems are proved against
    the [WireCodec] interface of the payloads. *)

From S2P Require Import Prelude Utf8 Protocol Varint Wire.
From S2P Require Import MsgSession MsgTransfer MsgResume MsgManifest.

Module Message.

Definition HELLO : Z := 0x01.
Definition HELLO_ACK : Z := 0x02.
Definition AUTH : Z := 0x03.
Definition AUTH_OK : Z := 0x04.
Definition PING : Z := 0x06.
Definition SESSION_INIT : Z := 0x05.
Definition BYE : Z := 0x07.
Definition ERROR : Z := 0x7F.
Definition TRANSFER_CREATE : Z := 0x10.
Definition TRANSFER_CREATED : Z := 0x11.
Definition TRANSFER_PLAN : Z := 0x12.
Definition TRANSFER_BEGIN : Z := 0x13.
Definition VERIFY : Z := 0x15.
Definition VERIFY_RESULT : Z := 0x16.
Definition COMMIT : Z := 0x17.
Definition COMMITTED : Z := 0x18.
Definition CHECKPOINT : Z := 0x14.
Definition RESUME : Z := 0x19.
Definition RESUME_STATE : Z := 0x1A.
Definition CANCEL : Z := 0x1B.
Definition STAT : Z := 0x1C.
Definition STAT_RESULT : Z := 0x1D.
Definition LIST : Z := 0x1E.
Definition LIST_RESULT : Z := 0x1F.
Definition MANIFEST_BEGIN : Z := 0x30.
Definition MANIFEST_BATCH : Z := 0x31.
Definition MANIFEST_END : Z := 0x32.
Definition INVENTORY_HINT : Z := 0x33.
Definition CHUNK_QUERY : Z := 0x34.
Definition CHUNK_RESPONSE : Z := 0x35.

Inductive t : Type :=
  | MHello (m : Hello.t)
  | MHelloAck (m : HelloAck.t)
  | MAuth (m : Auth.t)
  | MAuthOk (m : AuthOk.t)
  | MPing (m : Ping.t)
  | MPong (m : Ping.t)
  | MSessionInit (m : SessionOptions.t)
  | MBye (m : Bye.t)
  | MError (m : ErrorMsg.t)
  | MTransferCreate (m : TransferCreate.t)
  | MTransferCreated (m : TransferCreated.t)
  | MTransferPlan (m : TransferPlan.t)
  | MTransferBegin (m : TransferBegin.t)
  | MVerify (m : Verify.t)
  | MVerifyResult (m : VerifyResult.t)
  | MCommit (m : Commit.t)
  | MCommitted (m : Committed.t)
  | MCheckpoint (m : Checkpoint.t)
  | MResume (m : Resume.t)
  | MResumeState (m : ResumeState.t)
  | MCancel (m : Cancel.t)
  | MStat (m : StatQuery.t)
  | MStatResult (m : StatResult.t)
  | MList (m : ListQuery.t)
  | MListResult (m : ListResult.t)
  | MManifestBegin (m : ManifestBegin.t)
  | MManifestBatch (m : ManifestBatch.t)
  | MManifestEnd (m : ManifestEnd.t)
  | MInventoryHint (m : InventoryHint.t)
  | MChunkQuery (m : ChunkQuery.t)
  | MChunkResponse (m : ChunkResponse.t).

Definition type_byte (m : t) : Z :=
  match m with
  | MHello _ => HELLO
  | MHelloAck _ => HELLO_ACK
  | MAuth _ => AUTH
  | MAuthOk _ => AUTH_OK
  | MPing _ | MPong _ => PING
  | MSessionInit _ => SESSION_INIT
  | MBye _ => BYE
  | MError _ => ERROR
  | MTransferCreate _ => TRANSFER_CREATE
  | MTransferCreated _ => TRANSFER_CREATED
  | MTransferPlan _ => TRANSFER_PLAN
  | MTransferBegin _ => TRANSFER_BEGIN
  | MVerify _ => VERIFY
  | MVerifyResult _ => VERIFY_RESULT
  | MCommit _ => COMMIT
  | MCommitted _ => COMMITTED
  | MCheckpoint _ => CHECKPOINT
  | MResume _ => RESUME
  | MResumeState _ => RESUME_STATE
  | MCancel _ => CANCEL
  | MStat _ => STAT
  | MStatResult _ => STAT_RESULT
  | MList _ => LIST
  | MListResult _ => LIST_RESULT
  | MManifestBegin _ => MANIFEST_BEGIN
  | MManifestBatch _ => MANIFEST_BATCH
  | MManifestEnd _ => MANIFEST_END
  | MInventoryHint _ => INVENTORY_HINT
  | MChunkQuery _ => CHUNK_QUERY
  | MChunkResponse _ => CHUNK_RESPONSE
  end.

(** [Ok((TYPE, m.encode()?))]. *)
Definition tagged (ty : Z) (payload : presult bytes) : presult (Z * bytes) :=
  let? p := payload in Ok (ty, p).

Definition encode (m : t) : presult (Z * bytes) :=
  match m with
  | MHello m => tagged HELLO (Hello.encode m)
  | MHelloAck m => tagged HELLO_ACK (HelloAck.encode m)
  | MAuth m => tagged AUTH (Auth.encode m)
  | MAuthOk m => tagged AUTH_OK (AuthOk.encode m)
  | MPing m => tagged PING (Ping.encode m)
  | MPong m => tagged PING (Ping.encode m)
  | MSessionInit m => tagged SESSION_INIT (SessionOptions.encode m)
  | MBye m => tagged BYE (Bye.encode m)
  | MError m => tagged ERROR (ErrorMsg.encode m)
  | MTransferCreate m => tagged TRANSFER_CREATE (TransferCreate.encode m)
  | MTransferCreated m => tagged TRANSFER_CREATED (TransferCreated.encode m)
  | MTransferPlan m => tagged TRANSFER_PLAN (TransferPlan.encode m)
  | MTransferBegin m => tagged TRANSFER_BEGIN (TransferBegin.encode m)
  | MVerify m => tagged VERIFY (Verify.encode m)
  | MVerifyResult m => tagged VERIFY_RESULT (VerifyResult.encode m)
  | MCommit m => tagged COMMIT (Commit.encode m)
  | MCommitted m => tagged COMMITTED (Committed.encode m)
  | MCheckpoint m => tagged CHECKPOINT (Checkpoint.encode m)
  | MResume m => tagged RESUME (Resume.encode m)
  | MResumeState m => tagged RESUME_STATE (ResumeState.encode m)
  | MCancel m => tagged CANCEL (Cancel.encode m)
  | MStat m => tagged STAT (Ok (StatQuery.encode m))
  | MStatResult m => tagged STAT_RESULT (StatResult.encode m)
  | MList m => tagged LIST (ListQuery.encode m)
  | MListResult m => tagged LIST_RESULT (ListResult.encode m)
  | MManifestBegin m => tagged MANIFEST_BEGIN (ManifestBegin.encode m)
  | MManifestBatch m => tagged MANIFEST_BATCH (ManifestBatch.encode m)
  | MManifestEnd m => tagged MANIFEST_END (ManifestEnd.encode m)
  | MInventoryHint m => tagged INVENTORY_HINT (InventoryHint.encode m)
  | MChunkQuery m => tagged CHUNK_QUERY (ChunkQuery.encode m)
  | MChunkResponse m => tagged CHUNK_RESPONSE (ChunkResponse.encode m)
  end.

(** [Ok(Message::X(X::decode(payload)?))]. *)
Definition untagged {A} (mk : A -> t) (r : presult A) : presult t := let? a := r in Ok (mk a).

Definition decode (ty : Z) (payload : bytes) : presult t :=
  if ty =? HELLO then untagged MHello (Hello.decode payload)
  else if ty =? HELLO_ACK then untagged MHelloAck (HelloAck.decode payload)
  else if ty =? AUTH then untagged MAuth (Auth.decode payload)
  else if ty =? AUTH_OK then untagged MAuthOk (AuthOk.decode payload)
  else if ty =? PING then untagged MPing (Ping.decode payload)
  else if ty =? SESSION_INIT then untagged MSessionInit (SessionOptions.decode payload)
  else if ty =? BYE then untagged MBye (Bye.decode payload)
  else if ty =? ERROR then untagged MError (ErrorMsg.decode payload)
  else if ty =? TRANSFER_CREATE then untagged MTransferCreate (TransferCreate.decode payload)
  else if ty =? TRANSFER_CREATED then untagged MTransferCreated (TransferCreated.decode payload)
  else if ty =? TRANSFER_PLAN then untagged MTransferPlan (TransferPlan.decode payload)
  else if ty =? TRANSFER_BEGIN then untagged MTransferBegin (TransferBegin.decode payload)
  else if ty =? VERIFY then untagged MVerify (Verify.decode payload)
  else if ty =? VERIFY_RESULT then untagged MVerifyResult (VerifyResult.decode payload)
  else if ty =? COMMIT then untagged MCommit (Commit.decode payload)
  else if ty =? COMMITTED then untagged MCommitted (Committed.decode payload)
  else if ty =? CHECKPOINT then untagged MCheckpoint (Checkpoint.decode payload)
  else if ty =? RESUME then untagged MResume (Resume.decode payload)
  else if ty =? RESUME_STATE then untagged MResumeState (ResumeState.decode payload)
  else if ty =? CANCEL then untagged MCancel (Cancel.decode payload)
  else if ty =? STAT then untagged MStat (StatQuery.decode payload)
  else if ty =? STAT_RESULT then untagged MStatResult (StatResult.decode payload)
  else if ty =? LIST then untagged MList (ListQuery.decode payload)
  else if ty =? LIST_RESULT then untagged MListResult (ListResult.decode payload)
  else if ty =? MANIFEST_BEGIN then untagged MManifestBegin (ManifestBegin.decode payload)
  else if ty =? MANIFEST_BATCH then untagged MManifestBatch (ManifestBatch.decode payload)
  else if ty =? MANIFEST_END then untagged MManifestEnd (ManifestEnd.decode payload)
  else if ty =? INVENTORY_HINT then untagged MInventoryHint (InventoryHint.decode payload)
  else if ty =? CHUNK_QUERY then untagged MChunkQuery (ChunkQuery.decode payload)
  else if ty =? CHUNK_RESPONSE then untagged MChunkResponse (ChunkResponse.decode payload)
  else Err (UnsupportedMessage ty).

(** The payload invariant of a message, and the message its bytes stand for: PONG is
    PING on the wire. *)
Definition ok (m : t) : Prop :=
  match m with
  | MHello m => Hello.ok m
  | MHelloAck m => HelloAck.ok m
  | MAuth m => Auth.ok m
  | MAuthOk m => AuthOk.ok m
  | MPing m | MPong m => Ping.ok m
  | MSessionInit m => SessionOptions.ok m
  | MBye m => Bye.ok m
  | MError m => ErrorMsg.ok m
  | MTransferCreate m => TransferCreate.ok m
  | MTransferCreated m => TransferCreated.ok m
  | MTransferPlan m => TransferPlan.ok m
  | MTransferBegin m => TransferBegin.ok m
  | MVerify m => Verify.ok m
  | MVerifyResult m => VerifyResult.ok m
  | MCommit m => Commit.ok m
  | MCommitted m => Committed.ok m
  | MCheckpoint m => Checkpoint.ok m
  | MResume m => Resume.ok m
  | MResumeState m => ResumeState.ok m
  | MCancel m => Cancel.ok m
  | MStat m => StatQuery.ok m
  | MStatResult m => StatResult.ok m
  | MList m => ListQuery.ok m
  | MListResult m => ListResult.ok m
  | MManifestBegin m => ManifestBegin.ok m
  | MManifestBatch m => ManifestBatch.ok m
  | MManifestEnd m => ManifestEnd.ok m
  | MInventoryHint m => InventoryHint.ok m
  | MChunkQuery m => ChunkQuery.ok m
  | MChunkResponse m => ChunkResponse.ok m
  end.
Definition on_wire (m : t) : t := match m with MPong p => MPing p | m => m end.

Definition known (ty : Z) : bool :=
  existsb (Z.eqb ty)
    [HELLO; HELLO_ACK; AUTH; AUTH_OK; PING; SESSION_INIT; BYE; ERROR;
     TRANSFER_CREATE; TRANSFER_CREATED; TRANSFER_PLAN; TRANSFER_BEGIN; VERIFY; VERIFY_RESULT;
     COMMIT; COMMITTED; CHECKPOINT; RESUME; RESUME_STATE; CANCEL;
     STAT; STAT_RESULT; LIST; LIST_RESULT; MANIFEST_BEGIN; MANIFEST_BATCH;
     MANIFEST_END; INVENTORY_HINT; CHUNK_QUERY; CHUNK_RESPONSE].

(** ** Dispatch lemmas, generic in the payload *)

Lemma untagged_roundtrip `{WireCodec A} (mk : A -> t) a p ty q :
  codec_ok a -> tagged ty (codec_encode a) = Ok (q, p) -> zlen p < 2 ^ 63 ->
  q = ty /\ untagged mk (codec_decode p) = Ok (mk a).
Proof.
  intros Ha He Hp. apply obind_ok_inv in He as (p' & He & [= <- <-]).
  unfold untagged. by rewrite (codec_roundtrip a p' Ha He Hp).
Qed.

Lemma untagged_safe `{WireCodec A} (mk : A -> t) p (Q : t -> Prop) :
  is_buf p -> (forall a, codec_ok a -> Q (mk a)) -> wp (untagged mk (codec_decode p)) Q.
Proof.
  intros Hp HQ. apply wp_bind. eapply wp_mono; [by apply codec_safe|]. intros a Ha. by apply HQ.
Qed.

Lemma tagged_total `{WireCodec A} (a : A) ty :
  codec_ok a -> wp (tagged ty (codec_encode a)) (fun r => r.1 = ty /\ is_bytes r.2).
Proof.
  intros Ha. apply wp_bind. eapply wp_mono; [by apply codec_total|]. intros p Hp. by split.
Qed.

Lemma encode_on_wire m : encode (on_wire m) = encode m.
Proof. by destruct m. Qed.

Lemma encode_decode m ty p : ok m -> encode m = Ok (ty, p) -> zlen p < 2 ^ 63 ->
  ty = type_byte m /\ decode ty p = Ok (on_wire m).
Proof.
  intros Hm He Hp. rewrite <- encode_on_wire in He.
  assert (Ht : type_byte m = type_byte (on_wire m)) by by destruct m.
  assert (Ho : ok (on_wire m)) by by destruct m. rewrite Ht.
  assert (Hn : forall q, on_wire m <> MPong q) by by destruct m.
  clear Hm Ht. revert He Ho Hn. generalize (on_wire m). clear m. intros m He Hm Hn.
  destruct m as [m|m|m|m|m|m|m|m|m|m|m|m|m|m|m|m|m|m|m|m|m|m|m|m|m|m|m|m|m|m|m];
    try by destruct (Hn m).
  all: match goal with |- _ /\ decode _ _ = Ok (?C _) =>
    pose proof (untagged_roundtrip C m p (type_byte (C m)) ty) as Hd;
    destruct (Hd Hm He Hp) as [-> Hd']; split; [done|exact Hd']
  end.
Qed.

Lemma decode_safe ty p : is_buf p ->
  wp (decode ty p) (fun m => ok m /\ type_byte m = ty /\ on_wire m = m).
Proof.
  intros Hp. unfold decode.
  repeat (apply wp_if; intros Hty;
    [apply Z.eqb_eq in Hty as ->;
     match goal with |- wp (@untagged ?A ?mk _) _ =>
       pose proof (untagged_safe (A:=A) mk p) as Hs; apply Hs; [done|];
       intros a Ha; exact (conj Ha (conj eq_refl eq_refl)) end|clear Hty]).
  done.
Qed.

Lemma encode_safe m : ok m -> wp (encode m) (fun r => r.1 = type_byte m /\ is_bytes r.2).
Proof.
  intros Hm.
  destruct m as [m|m|m|m|m|m|m|m|m|m|m|m|m|m|m|m|m|m|m|m|m|m|m|m|m|m|m|m|m|m|m];
    pose proof (tagged_total m) as Ht; exact (Ht _ Hm).
Qed.

Lemma decode_unknown ty p : known ty = false -> decode ty p = Err (UnsupportedMessage ty).
Proof.
  unfold known, decode. cbn [existsb]. intros H.
  repeat (apply orb_false_iff in H as [H1 H]; rewrite H1; clear H1). done.
Qed.

(** For every message kind: a well-formed message that encodes decodes back to itself from
    its type byte and payload (a PONG is a PING on the wire). *)
Theorem message_roundtrip m ty p : ok m -> encode m = Ok (ty, p) -> zlen p < 2 ^ 63 ->
  ty = type_byte m /\ decode ty p = Ok (on_wire m).
Proof. apply encode_decode. Qed.

(** No type byte and no payload make [decode] panic; a message it accepts satisfies its
    kind's invariant and carries that type byte; a type byte that no kind has is refused as
    unsupported, whatever the payload. *)
Theorem message_decode_safe ty p : is_buf p ->
  wp (decode ty p) (fun m => ok m /\ type_byte m = ty /\ on_wire m = m) /\
  (known ty = false -> decode ty p = Err (UnsupportedMessage ty)).
Proof. intros Hp. split; [by apply decode_safe|apply decode_unknown]. Qed.

End Message.

(** ** The theorems at concrete messages *)
Module MessageExamples.

Lemma message_roundtrip_witness :
  let p := [1; 0; 0; 0; 0; 0; 0; 0; 2; 0; 0; 0; 0; 0; 0; 0] in
  Message.encode (Message.MPong (Ping.mk 1 2)) = Ok (Message.PING, p) /\
  Message.decode Message.PING p = Ok (Message.MPing (Ping.mk 1 2)).
Proof.
  split; [vm_compute; reflexivity|].
  apply (Message.message_roundtrip (Message.MPong (Ping.mk 1 2)) Message.PING).
  - by vm_compute.
  - vm_compute. reflexivity.
  - vm_compute. reflexivity.
Defined.

Lemma message_decode_safe_witness :
  wp (Message.decode 9 [1; 2; 3])
    (fun m => Message.ok m /\ Message.type_byte m = 9 /\ Message.on_wire m = m) /\
  Message.decode 255 [1; 2; 3] = Err (UnsupportedMessage 255).
Proof.
  split.
  - apply (Message.message_decode_safe 9 [1; 2; 3]). split; [repeat constructor; lia|]. by vm_compute.
  - apply (Message.message_decode_safe 255 [1; 2; 3]); [|vm_compute; reflexivity].
    split; [repeat constructor; lia|]. by vm_compute.
Defined.

End MessageExamples.
