(* ===== verification/Frame.v ===== *)
(** Control frames and DATA frames (crates/velcrux-core/src/protocol/frame.rs). *)

From S2P Require Import Prelude Protocol Varint Wire.

(** ** Control frames *)
Module Frame.

Definition FRAME_HEADER_LEN : Z := 4.

(** [FrameFlags]: the raw [u16]. *)
Definition NONE : Z := 0.
Definition END_OF_SEQUENCE : Z := 1.
Definition COMPRESSED : Z := 2.
Definition from_bits_truncate (bits : Z) : Z := Z.land bits 0xFFFF.
Definition end_of_sequence (flags : Z) : bool := negb (Z.land flags 0x0001 =? 0).
Definition compressed (flags : Z) : bool := negb (Z.land flags 0x0002 =? 0).
Definition bitor (a b : Z) : Z := Z.lor a b.

Record t := mk {
  version : Z; type_byte : Z; flags : Z; length : Z; request_id : Z; payload : bytes }.

Definition header_size_for (length : Z) : Z := 4 + Varint.varint_len length + 8.

Definition max_message_size : Z := Limits.MAX_MESSAGE_SIZE.

Definition decode_frame (buf : bytes) : presult t :=
  if zlen buf <? 4 then Err Empty else
  let? version := index buf 0 in
  let? type_byte := index buf 1 in
  let? flags_raw := read_le buf 2 2 in
  let flags := from_bits_truncate flags_raw in
  let? rest := slice_from buf 4 in
  let? '(length, varint_consumed) := Varint.decode_varint rest in
  let header_len := 4 + varint_consumed + 8 in
  if zlen buf <? header_len then Err Empty else
  let max := max_message_size in
  if max <? length then Err (FrameTooLarge length max) else
  let payload_len := length in
  let? total_needed := ok_or (checked_add 64 header_len payload_len) (FrameTooLarge length max) in
  if zlen buf <? total_needed then Err Empty else
  let rid_off := 4 + varint_consumed in
  let? request_id := read_le buf rid_off 8 in
  let? payload := slice buf header_len total_needed in
  if negb (version =? Limits.PROTOCOL_VERSION)
  then Err (VersionMismatch version Limits.PROTOCOL_VERSION) else
  Ok (mk version type_byte flags length request_id payload).

(** [encode_frame] writes into [out]; the model returns the mutated buffer and the
    byte count. The [debug_assert] is the release build's no-op. *)
Definition encode_frame (out : bytes) (type_byte flags request_id : Z) (payload : bytes)
    : presult (bytes * Z) :=
  let length := zlen payload in
  let total := header_size_for length + zlen payload in
  let? out := write_at out 0 Limits.PROTOCOL_VERSION in
  let? out := write_at out 1 type_byte in
  let fb := to_le 2 flags in
  let? fb0 := index fb 0 in
  let? fb1 := index fb 1 in
  let? out := write_at out 2 fb0 in
  let? out := write_at out 3 fb1 in
  let varint_len_bytes := Varint.varint_len length in
  let? sub := slice out 4 (4 + varint_len_bytes) in
  let? '(sub, _) := Varint.encode_varint length sub in
  let? out := copy_into out 4 (4 + varint_len_bytes) sub in
  let rid_off := 4 + varint_len_bytes in
  let? out := copy_into out rid_off (rid_off + 8) (to_le 8 request_id) in
  let payload_off := rid_off + 8 in
  let? out := copy_into out payload_off (payload_off + zlen payload) payload in
  Ok (out, total).

(** The frame's wire image. *)
Definition frame_bytes (type_byte flags request_id : Z) (payload : bytes) : bytes :=
  push Limits.PROTOCOL_VERSION ++ push type_byte ++ to_le 2 flags
  ++ Varint.varint_bytes (zlen payload) ++ to_le 8 request_id ++ payload.

Lemma zlen_frame_bytes ty fl rid p : fits 64 (zlen p) ->
  zlen (frame_bytes ty fl rid p) = header_size_for (zlen p) + zlen p.
Proof. intros. unfold frame_bytes, header_size_for. autorewrite with len. lia. Qed.

Lemma to_le_two v : exists a b, to_le 2 v = [a; b].
Proof.
  pose proof (zlen_to_le 2 v) as H. destruct (to_le 2 v) as [|a [|b [|c l]]]; try done.
  - eauto.
  - rewrite !zlen_cons in H. pose proof (zlen_nonneg l). lia.
Qed.

Lemma encode_frame_spec out ty fl rid p :
  fits 64 (zlen p) -> header_size_for (zlen p) + zlen p <= zlen out ->
  encode_frame out ty fl rid p =
  Ok (frame_bytes ty fl rid p ++ drop (Z.to_nat (header_size_for (zlen p) + zlen p)) out,
      header_size_for (zlen p) + zlen p).
Proof.
  intros Hf Hout. unfold encode_frame, frame_bytes, header_size_for in *.
  pose proof (zlen_nonneg p). pose proof (Varint.varint_len_bounds (zlen p)) as Hv.
  pose proof (Varint.zlen_varint_bytes (zlen p) Hf) as Hvb. pose proof (zlen_to_le 8 rid) as Hr.
  destruct (to_le_two fl) as (f0 & f1 & ->). rewrite <- (app_nil_l out) at 1.
  cursor @write_cursor. cursor @write_cursor.
  change (index [f0; f1] 0) with (@Ok ProtocolError _ f0).
  change (index [f0; f1] 1) with (@Ok ProtocolError _ f1). cbn [obind].
  cursor @write_cursor. cursor @write_cursor. cursor @slice_cursor.
  rewrite Varint.encode_varint_spec by (try done; rewrite zlen_take, !zlen_drop; lia). cbn [obind].
  rewrite (drop_ge (take _ _)), app_nil_r by (rewrite length_take; lia).
  cursor @copy_cursor. cursor @copy_cursor. cursor @copy_cursor.
  rewrite !drop_drop. do 2 f_equal. rewrite !push_eq, <- !app_assoc. cbn [app].
  do 7 f_equal. f_equal. unfold zlen in *. lia.
Qed.

Lemma truncate_id fl : fits 16 fl -> from_bits_truncate fl = fl.
Proof.
  intros [H0 H1]. unfold from_bits_truncate. change 0xFFFF with (Z.ones 16).
  rewrite land_ones_mod by lia. by apply Z.mod_small.
Qed.

Lemma decode_frame_bytes ty fl rid p rest :
  fits 8 ty -> fits 16 fl -> fits 64 rid -> zlen p <= Limits.MAX_MESSAGE_SIZE ->
  decode_frame (frame_bytes ty fl rid p ++ rest)
  = Ok (mk Limits.PROTOCOL_VERSION ty fl (zlen p) rid p).
Proof.
  intros Ht Hfl Hr Hp. pose proof (zlen_nonneg p). pose proof (zlen_nonneg rest).
  assert (Hf : fits 64 (zlen p)) by (unfold Limits.MAX_MESSAGE_SIZE, fits in *; lia).
  unfold frame_bytes. rewrite <- !app_assoc. unfold decode_frame, max_message_size, Limits.MAX_MESSAGE_SIZE in *. run.
  by rewrite truncate_id.
Qed.

(** What a decoded frame satisfies; [n] is the length of the buffer it came from. *)
Definition wf_frame (n : Z) (f : t) : Prop :=
  version f = Limits.PROTOCOL_VERSION /\ fits 8 (type_byte f) /\ fits 16 (flags f) /\
  fits 64 (request_id f) /\ 0 <= length f <= Limits.MAX_MESSAGE_SIZE /\
  zlen (payload f) = length f /\ is_bytes (payload f) /\
  header_size_for (length f) + length f <= n.

Lemma decode_frame_safe buf : is_buf buf -> wp (decode_frame buf) (wf_frame (zlen buf)).
Proof.
  intros [Hb Hl]. unfold decode_frame, max_message_size. wps.
  unfold wf_frame, header_size_for. cbn. rewrite truncate_id by done.
  repeat split; eauto with is_bytes; lia.
Qed.

(** Bytes after a frame do not change what is decoded. *)
Lemma decode_frame_app l r f : decode_frame l = Ok f -> decode_frame (l ++ r) = Ok f.
Proof.
  unfold decode_frame. rewrite !zlen_app. pose proof (zlen_nonneg r).
  repeat match goal with
  | |- (if ?a <? ?b then _ else _) = _ -> _ =>
      destruct (Z.ltb_spec a b); [done|]; rewrite ?(proj2 (Z.ltb_ge (a + zlen r) b)) by lia
  | |- obind ?c _ = _ -> _ =>
      let H := fresh in
      destruct c as [?x| |] eqn:H; [|done|done];
      first [ rewrite (index_app _ r _ _ H) | rewrite (read_le_app _ r _ _ _ H)
            | rewrite (slice_from_app _ r _ _ H) | rewrite (Varint.decode_varint_app _ r _ H)
            | rewrite (slice_app _ r _ _ _ H) | idtac ]; cbn [obind]
  | |- (let (_, _) := ?x in _) = _ -> _ => destruct x as [?n ?c]
  end.
  done.
Qed.

(** A proper prefix of a frame is not a frame. *)
Lemma decode_frame_prefix ty fl rid p l r :
  fits 8 ty -> fits 16 fl -> fits 64 rid -> is_bytes p -> zlen p <= Limits.MAX_MESSAGE_SIZE ->
  frame_bytes ty fl rid p = l ++ r -> r <> [] -> exists e, decode_frame l = Err e.
Proof.
  intros Ht Hfl Hr Hb Hp Hlr Hne.
  assert (Hfit : fits 64 (zlen p)).
  { pose proof (zlen_nonneg p). unfold Limits.MAX_MESSAGE_SIZE, fits in *. lia. }
  pose proof (zlen_frame_bytes ty fl rid p Hfit) as Hz. rewrite Hlr, zlen_app in Hz.
  pose proof (zlen_nonneg l). assert (0 < zlen r) by (destruct r; [done|rewrite zlen_cons; pose proof (zlen_nonneg r); lia]).
  assert (Hbuf : is_buf l).
  { split.
    - assert (Hall : is_bytes (l ++ r)) by (rewrite <- Hlr; unfold frame_bytes, Limits.PROTOCOL_VERSION; auto 20 with is_bytes).
      by apply Forall_app in Hall as [? _].
    - pose proof (Varint.varint_len_bounds (zlen p)). unfold header_size_for, Limits.MAX_MESSAGE_SIZE in *. lia. }
  pose proof (decode_frame_safe l Hbuf) as Hs. destruct (decode_frame l) as [f|e|] eqn:Hd; [|by eauto|done].
  pose proof (decode_frame_bytes ty fl rid p [] Ht Hfl Hr Hp) as Hf.
  rewrite app_nil_r, Hlr, (decode_frame_app _ _ _ Hd) in Hf. injection Hf as ->.
  destruct Hs as (_ & _ & _ & _ & _ & _ & _ & Hn). cbn in Hn. lia.
Qed.

(** A frame written into any buffer that is large enough decodes back, whatever bytes the
    buffer and the stream hold after it: [encode_frame] reports the frame's length, leaves the
    rest of the buffer alone, and [decode_frame] returns the fields and the payload. *)
Theorem frame_roundtrip out ty fl rid p rest :
  fits 8 ty -> fits 16 fl -> fits 64 rid -> zlen p <= Limits.MAX_MESSAGE_SIZE ->
  header_size_for (zlen p) + zlen p <= zlen out ->
  exists wire, encode_frame out ty fl rid p = Ok (wire ++ drop (Z.to_nat (zlen wire)) out, zlen wire) /\
    decode_frame (wire ++ rest) = Ok (mk Limits.PROTOCOL_VERSION ty fl (zlen p) rid p).
Proof.
  intros Ht Hf Hr Hp Ho. pose proof (zlen_nonneg p).
  assert (Hfit : fits 64 (zlen p)) by (unfold Limits.MAX_MESSAGE_SIZE, fits in *; lia).
  exists (frame_bytes ty fl rid p). split; [|by apply decode_frame_bytes].
  rewrite encode_frame_spec by done. by rewrite <- (zlen_frame_bytes ty fl rid p) by done.
Qed.

(** Partial input is never mistaken for a frame: decoding a proper prefix of a frame is an
    error, and decoding any buffer at all neither panics nor returns a frame that is longer than
    the buffer, over the size limit, or of another protocol version. *)
Theorem frame_decode_safe buf : is_buf buf ->
  wp (decode_frame buf) (fun f =>
    version f = Limits.PROTOCOL_VERSION /\ zlen (payload f) = length f /\
    0 <= length f <= Limits.MAX_MESSAGE_SIZE /\
    header_size_for (length f) + length f <= zlen buf) /\
  (forall ty fl rid p r, fits 8 ty -> fits 16 fl -> fits 64 rid -> is_bytes p ->
     zlen p <= Limits.MAX_MESSAGE_SIZE -> frame_bytes ty fl rid p = buf ++ r -> r <> [] ->
     exists e, decode_frame buf = Err e).
Proof.
  intros Hb. split.
  - eapply wp_mono; [by apply decode_frame_safe|].
    intros f (Hv & _ & _ & _ & Hl & Hp & _ & Hn). by split_and!; try apply Hl.
  - intros ty fl rid p r. apply decode_frame_prefix.
Qed.

End Frame.

(** ** DATA streams *)
Module Data.

Definition DATA_PREAMBLE_LEN : Z := 56.
Definition DATA_FRAME_HEADER_LEN : Z := 48.
Definition DATA_MAX_CHUNK_LEN : Z := 4 * 1024 * 1024.

Record DataPreamble := mk_preamble { transfer_id : TransferId; file_id : Z; stream_seq : Z }.

Definition encode_data_preamble {E} (p : DataPreamble) : outcome E bytes :=
  let out := zeros (Z.to_nat DATA_PREAMBLE_LEN) in
  let? out := copy_into out 0 16 (transfer_id p) in
  let? out := copy_into out 16 24 (to_le 8 (file_id p)) in
  copy_into out 24 32 (to_le 8 (stream_seq p)).

Definition decode_data_preamble (buf : bytes) : presult DataPreamble :=
  if zlen buf <? DATA_PREAMBLE_LEN then Err (Malformed "data preamble: truncated") else
  let? raw := slice buf 0 16 in
  let? transfer_id := ok_or (TransferId_from_bytes raw)
                        (Malformed "data preamble: bad transfer_id") in
  let? file_id := read_le buf 16 8 in
  let? stream_seq := read_le buf 24 8 in
  Ok (mk_preamble transfer_id file_id stream_seq).

(** [DataFrameFlags]: the raw [u16]. *)
Definition NONE : Z := 0.
Definition HOLE : Z := 0x0001.
Definition COMPRESSED : Z := 0x0002.
Definition ENCRYPTED : Z := 0x0004.
Definition from_bits_truncate (bits : Z) : Z := Z.land bits 0xFFFF.
Definition compressed (flags : Z) : bool := negb (Z.land flags 0x0002 =? 0).
Definition encrypted (flags : Z) : bool := negb (Z.land flags 0x0004 =? 0).
Definition is_hole (flags : Z) : bool := negb (Z.land flags 0x0001 =? 0).

Record DataFrameHeader := mk_header {
  chunk_offset : Z; chunk_len : Z; flags : Z; chunk_hash : Hash }.

(** The [debug_assert_eq] on [out.len()] is the release build's no-op. *)
Definition encode_data_frame_header {E} (out : bytes) (chunk_offset chunk_len flags : Z)
    (chunk_hash : Hash) : outcome E bytes :=
  let? out := copy_into out 0 8 (to_le 8 chunk_offset) in
  let? out := copy_into out 8 12 (to_le 4 chunk_len) in
  let fb := to_le 2 flags in
  let? out := copy_into out 12 14 fb in
  let? out := copy_into out 14 16 (zeros 2) in
  copy_into out 16 48 chunk_hash.

Definition decode_data_frame_header (buf : bytes) : presult (DataFrameHeader * bytes) :=
  if zlen buf <? DATA_FRAME_HEADER_LEN then Err (Malformed "data frame: truncated header") else
  let? chunk_offset := read_le buf 0 8 in
  let? chunk_len := read_le buf 8 4 in
  if DATA_MAX_CHUNK_LEN <? chunk_len then Err (Malformed "data frame: chunk_len > max") else
  let? raw_flags := read_le buf 12 2 in
  let flags := from_bits_truncate raw_flags in
  let? reserved := read_le buf 14 2 in
  if negb (reserved =? 0) then Err (Malformed "data frame: reserved bits set") else
  let? raw := slice buf 16 48 in
  let? chunk_hash := ok_or (Hash_from_bytes raw) (Malformed "data frame: bad chunk hash") in
  let? payload := slice_from buf DATA_FRAME_HEADER_LEN in
  Ok (mk_header chunk_offset chunk_len flags chunk_hash, payload).

(** The [debug_assert_eq] on the payload length is the release build's no-op. *)
Definition encode_data_frame {E} (chunk_offset chunk_len flags : Z) (chunk_hash : Hash)
    (payload : bytes) : outcome E bytes :=
  let out := zeros (Z.to_nat DATA_FRAME_HEADER_LEN) in
  let? out := encode_data_frame_header out chunk_offset chunk_len flags chunk_hash in
  if is_hole flags then Ok out else Ok (out ++ payload).

Definition preamble_ok (p : DataPreamble) : Prop :=
  wf_id (transfer_id p) /\ fits 64 (file_id p) /\ fits 64 (stream_seq p).

Definition header_ok (h : DataFrameHeader) : Prop :=
  fits 64 (chunk_offset h) /\ 0 <= chunk_len h <= DATA_MAX_CHUNK_LEN /\ fits 16 (flags h) /\
  wf_hash (chunk_hash h).

Definition header_bytes (off len fl : Z) (h : Hash) : bytes :=
  to_le 8 off ++ to_le 4 len ++ to_le 2 fl ++ to_le 2 0 ++ h.

Lemma flags_truncate fl : fits 16 fl -> from_bits_truncate fl = fl.
Proof. exact (Frame.truncate_id fl). Qed.

Lemma preamble_bytes {E} p : preamble_ok p ->
  @encode_data_preamble E p
  = Ok (transfer_id p ++ to_le 8 (file_id p) ++ to_le 8 (stream_seq p) ++ zeros 24).
Proof.
  intros ([_ Hl] & _ & _). unfold encode_data_preamble.
  rewrite <- (app_nil_l (zeros _)). pose proof (zlen_zeros (Z.to_nat DATA_PREAMBLE_LEN)).
  pose proof (zlen_to_le 8 (file_id p)). pose proof (zlen_to_le 8 (stream_seq p)).
  change (Z.of_nat (Z.to_nat DATA_PREAMBLE_LEN)) with 56 in *.
  cursor @copy_cursor. cursor @copy_cursor. cursor @copy_cursor.
  rewrite !drop_drop, drop_zeros, <- !app_assoc. cbn [app]. do 5 f_equal.
  unfold zlen, DATA_PREAMBLE_LEN in *. lia.
Qed.

Lemma header_encode {E} off len fl h : zlen h = 32 ->
  @encode_data_frame_header E (zeros (Z.to_nat DATA_FRAME_HEADER_LEN)) off len fl h
  = Ok (header_bytes off len fl h).
Proof.
  intros Hl. unfold encode_data_frame_header, header_bytes.
  rewrite <- (app_nil_l (zeros (Z.to_nat _))). pose proof (zlen_zeros (Z.to_nat DATA_FRAME_HEADER_LEN)).
  pose proof (zlen_to_le 8 off). pose proof (zlen_to_le 4 len). pose proof (zlen_to_le 2 fl).
  pose proof (zlen_to_le 2 0). rewrite (zeros_le 2). change (Z.of_nat (Z.to_nat DATA_FRAME_HEADER_LEN)) with 48 in *.
  cursor @copy_cursor. cursor @copy_cursor. cursor @copy_cursor. cursor @copy_cursor.
  cursor @copy_cursor. rewrite !drop_drop, drop_zeros, <- !app_assoc. cbn [app].
  rewrite (zeros_nil (_ - _)); [by rewrite app_nil_r|].
  unfold zlen, DATA_FRAME_HEADER_LEN in *. lia.
Qed.

Lemma preamble_roundtrip {E} p b rest :
  preamble_ok p -> @encode_data_preamble E p = Ok b -> decode_data_preamble (b ++ rest) = Ok p.
Proof.
  intros Hp He. rewrite (preamble_bytes p Hp) in He. injection He as <-.
  destruct p as [id f s], Hp as ([Hb Hl] & Hf & Hs). cbn in *. pose proof (zlen_nonneg rest).
  rewrite <- !app_assoc. unfold decode_data_preamble, DATA_PREAMBLE_LEN. by run.
Qed.

Lemma preamble_safe b : is_buf b -> wp (decode_data_preamble b) preamble_ok.
Proof. intros [Hb Hl]. unfold decode_data_preamble, DATA_PREAMBLE_LEN. wps. post. Qed.

Lemma header_roundtrip h rest : header_ok h ->
  decode_data_frame_header
    (header_bytes (chunk_offset h) (chunk_len h) (flags h) (chunk_hash h) ++ rest) = Ok (h, rest).
Proof.
  destruct h as [off len fl h]. intros (Ho & Hl & Hf & [Hb Hh]). cbn in *. pose proof (zlen_nonneg rest).
  assert (fits 32 len) by (unfold DATA_MAX_CHUNK_LEN, fits in *; lia).
  unfold header_bytes. rewrite <- !app_assoc.
  unfold decode_data_frame_header, DATA_FRAME_HEADER_LEN. run.
  by rewrite flags_truncate.
Qed.

Lemma header_safe b : is_buf b ->
  wp (decode_data_frame_header b)
    (fun r => header_ok r.1 /\ is_bytes r.2 /\ zlen r.2 = zlen b - DATA_FRAME_HEADER_LEN).
Proof.
  intros [Hb Hl]. unfold decode_data_frame_header. change DATA_FRAME_HEADER_LEN with 48. wps.
  unfold header_ok. cbn. rewrite flags_truncate by done.
  repeat split; eauto with is_bytes; lia.
Qed.

Lemma data_frame_spec {E} off len fl h payload : zlen h = 32 ->
  @encode_data_frame E off len fl h payload
  = Ok (header_bytes off len fl h ++ if is_hole fl then [] else payload).
Proof.
  intros Hl. unfold encode_data_frame. rewrite header_encode by done. cbn [obind].
  case_match; [by rewrite app_nil_r|done].
Qed.

(** The DATA stream's fixed-size structures: a preamble and a frame header are encoded
    without error in exactly [DATA_PREAMBLE_LEN] and [DATA_FRAME_HEADER_LEN] bytes, and decode
    back with the payload that follows. *)
Theorem data_structures_roundtrip p h rest : preamble_ok p -> header_ok h ->
  (exists b, @encode_data_preamble ProtocolError p = Ok b /\ zlen b = DATA_PREAMBLE_LEN /\
     decode_data_preamble (b ++ rest) = Ok p) /\
  (exists b, @encode_data_frame ProtocolError (chunk_offset h) (chunk_len h) (flags h) (chunk_hash h) rest
             = Ok (b ++ if is_hole (flags h) then [] else rest) /\
     zlen b = DATA_FRAME_HEADER_LEN /\ decode_data_frame_header (b ++ rest) = Ok (h, rest)).
Proof.
  intros Hp Hh. split.
  - eexists. split; [by apply preamble_bytes|].
    split; [destruct Hp as ([_ Hl] & _); autorewrite with len; rewrite Hl; done|].
    apply (@preamble_roundtrip ProtocolError); [done|by apply preamble_bytes].
  - exists (header_bytes (chunk_offset h) (chunk_len h) (flags h) (chunk_hash h)).
    assert (Hl : zlen (chunk_hash h) = 32) by apply Hh. split; [by apply data_frame_spec|].
    split; [unfold header_bytes; autorewrite with len; rewrite Hl; done|by apply header_roundtrip].
Qed.

End Data.

(** ** The theorems at concrete frames *)
Module FrameExamples.

Lemma frame_roundtrip_witness :
  exists wire, Frame.encode_frame (replicate 20 7) 5 0 9 [1; 2; 3]
      = Ok (wire ++ drop (Z.to_nat (zlen wire)) (replicate 20 7), zlen wire) /\
    Frame.decode_frame (wire ++ [4]) = Ok (Frame.mk 1 5 0 3 9 [1; 2; 3]).
Proof.
  apply (Frame.frame_roundtrip (replicate 20 7) 5 0 9 [1; 2; 3] [4]); vm_compute; (done || discriminate).
Defined.

Lemma frame_decode_safe_witness :
  (exists e, Frame.decode_frame [1; 5; 0; 0; 3; 9; 0; 0; 0; 0; 0; 0; 0; 1; 2] = Err e).
Proof.
  eapply (proj2 (Frame.frame_decode_safe [1; 5; 0; 0; 3; 9; 0; 0; 0; 0; 0; 0; 0; 1; 2]
    ltac:(split; [repeat constructor; lia|by vm_compute])) 5 0 9 [1; 2; 3] [3]).
  - by vm_compute.
  - by vm_compute.
  - by vm_compute.
  - repeat constructor; lia.
  - vm_compute. discriminate.
  - vm_compute. reflexivity.
  - discriminate.
Defined.

Lemma data_structures_roundtrip_witness :
  let p := Data.mk_preamble (replicate 16 3) 1 2 in
  let h := Data.mk_header 4096 3 0 (replicate 32 5) in
  (exists b, @Data.encode_data_preamble ProtocolError p = Ok b /\ zlen b = 56 /\
     Data.decode_data_preamble (b ++ [1; 2; 3]) = Ok p) /\
  (exists b, @Data.encode_data_frame ProtocolError 4096 3 0 (replicate 32 5) [1; 2; 3]
             = Ok (b ++ [1; 2; 3]) /\ zlen b = 48 /\
     Data.decode_data_frame_header (b ++ [1; 2; 3]) = Ok (h, [1; 2; 3])).
Proof.
  apply (Data.data_structures_roundtrip (Data.mk_preamble (replicate 16 3) 1 2)
           (Data.mk_header 4096 3 0 (replicate 32 5)) [1; 2; 3]).
  - repeat split; try (by vm_compute); apply Forall_replicate; by vm_compute.
  - repeat split; try (by vm_compute); apply Forall_replicate; by vm_compute.
Defined.

End FrameExamples.
