(* ===== verification/Compression.v ===== *)
(** Wire compression (crates/velcrux-core/src/protocol/compression.rs): the bounded
    decompressor, the entropy sampler's byte histogram, and the adaptive selector.
    The zstd crate is the [Zstd] interface; the floating-point sum over the histogram
    is a parameter of the definitions that use it. *)

From Stdlib Require Import QArith.
From stdpp Require Import strings pretty.
From S2P Require Import Prelude Protocol.
Open Scope Z_scope.

(** The zstd crate: [encode_all(data, level)], [Decoder::new] and [Decoder::read] into a
    buffer of the given length. [None] is the crate's [Err]. *)
Class Zstd := {
  encode_all : bytes -> Z -> option bytes;
  decoder : Type;
  decoder_new : bytes -> option decoder;
  decoder_read : decoder -> Z -> option (bytes * decoder);
  (** [zstd::bulk::decompress(data, capacity)], or the text of its error. *)
  bulk_decompress : bytes -> Z -> string + bytes
}.

Module Compression.

Definition DEFAULT_ZSTD_LEVEL : Z := 3.
Definition FAST_ZSTD_LEVEL : Z := 1.
Definition HIGH_ZSTD_LEVEL : Z := 7.
Definition MIN_COMPRESSIBLE_SIZE : Z := 128.
Definition DEFAULT_MIN_SAVINGS : Z := 16.
Definition DEFAULT_ENTROPY_BYPASS_THRESHOLD : Q := 75 # 10.
Definition MAX_ENTROPY_SAMPLE_SIZE : Z := 32 * 1024.
(** [let mut buf = [0u8; 64 * 1024]]. *)
Definition READ_BUF : Z := 64 * 1024.

(** ** Entropy *)

(** [counts[b as usize] += 1] for each byte. *)
Fixpoint count_bytes {E} (counts : list Z) (data : bytes) : outcome E (list Z) :=
  match data with
  | [] => Ok counts
  | b :: data' =>
      let? c := index counts b in
      let? counts := write_at counts b (c + 1) in
      count_bytes counts data'
  end.

(** The histogram [estimate_entropy] sums over, and the divisor: the whole slice when it
    is small, else three samples from the start, the middle and the end. *)
Definition entropy_sample {E} (data : bytes) : outcome E (list Z * Z) :=
  if zlen data <=? MAX_ENTROPY_SAMPLE_SIZE then
    let? counts := count_bytes (replicate 256 0) data in
    Ok (counts, zlen data)
  else
    let segment_len := MAX_ENTROPY_SAMPLE_SIZE / 3 in
    let mid_start := saturating_sub (zlen data / 2) (segment_len / 2) in
    let end_start := saturating_sub (zlen data) segment_len in
    let? s1 := slice data 0 segment_len in
    let? counts := count_bytes (replicate 256 0) s1 in
    let? s2 := slice data mid_start (mid_start + segment_len) in
    let? counts := count_bytes counts s2 in
    let? s3 := slice_from data end_start in
    let? counts := count_bytes counts s3 in
    Ok (counts, segment_len * 2 + (zlen data - end_start)).

Inductive EntropyTier := UltraRepetitive | Standard | Marginal | Incompressible.

Definition classify (entropy : Q) : EntropyTier :=
  if Qle_bool DEFAULT_ENTROPY_BYPASS_THRESHOLD entropy then Incompressible
  else if Qle_bool 6 entropy then Marginal
  else if Qle_bool 3 entropy then Standard
  else UltraRepetitive.

Definition recommended_level (t : EntropyTier) : option Z :=
  match t with
  | UltraRepetitive => Some HIGH_ZSTD_LEVEL
  | Standard => Some DEFAULT_ZSTD_LEVEL
  | Marginal => Some FAST_ZSTD_LEVEL
  | Incompressible => None
  end.

(** The histogram of a sample counts exactly the sampled bytes. *)
Definition hist_ok (counts : list Z) (n : Z) : Prop :=
  zlen counts = 256 /\ Forall (fun c => 0 <= c) counts /\ foldr Z.add 0 counts = n.

Lemma hist_empty : hist_ok (replicate 256 0) 0.
Proof. repeat split. by repeat constructor. Qed.

Lemma foldr_insert (l : list Z) i c x : l !! i = Some c ->
  foldr Z.add 0 (<[i := x]> l) = foldr Z.add 0 l + (x - c).
Proof.
  revert i. induction l as [|y l IH]; intros [|i] H; simplify_eq/=; [lia|]. rewrite (IH i H). lia.
Qed.

Lemma count_bytes_hist {E} data counts n : is_bytes data -> hist_ok counts n ->
  wp (@count_bytes E counts data) (fun counts' => hist_ok counts' (n + zlen data)).
Proof.
  intros Hd. revert counts n. induction Hd as [|b data Hb Hd IH]; intros counts n (Hl & Hp & Hs).
  { cbn. rewrite Z.add_0_r. done. }
  cbn [count_bytes]. apply wp_bind. unfold index, write_at. unfold fits in Hb.
  replace (0 <=? b) with true by lia.
  destruct (lookup_lt_is_Some_2 counts (Z.to_nat b)) as [c Hc]; [unfold zlen in Hl; lia|].
  rewrite Hc. cbn [wp]. replace ((true && (b <? zlen counts))%bool) with true by lia. apply wp_bind. cbn [wp].
  rewrite zlen_cons. replace (n + (1 + zlen data)) with ((n + 1) + zlen data) by lia.
  apply IH. repeat split.
  - by rewrite zlen_insert.
  - apply Forall_insert; [done|]. eapply Forall_lookup_1 in Hp; [|done]. simpl in Hp. lia.
  - rewrite (foldr_insert _ _ c) by done. lia.
Qed.

(** Sampling is in bounds for every slice, and the divisor is the number of bytes counted. *)
Lemma entropy_sample_ok {E} data : is_bytes data ->
  wp (@entropy_sample E data) (fun r => hist_ok r.1 r.2).
Proof.
  intros Hd. unfold entropy_sample, saturating_sub, MAX_ENTROPY_SAMPLE_SIZE. pose proof (zlen_nonneg data).
  change (32 * 1024 / 3) with 10922. change (10922 / 2) with 5461.
  apply wp_if; intros Hs.
  { eapply wp_bind_mono; [apply count_bytes_hist; [done|apply hist_empty]|]. intros c Hc. exact Hc. }
  assert (Hdiv : zlen data / 2 * 2 <= zlen data < zlen data / 2 * 2 + 2).
  { pose proof (Z.div_mod (zlen data) 2). pose proof (Z.mod_pos_bound (zlen data) 2). lia. }
  apply wp_bind, wp_slice; [lia|lia|]. intros s1 _ Hl1 HP1.
  eapply wp_bind_mono; [apply count_bytes_hist; [by apply HP1|apply hist_empty]|]. intros c1 Hc1.
  apply wp_bind, wp_slice; [lia|lia|]. intros s2 _ Hl2 HP2.
  eapply wp_bind_mono; [apply count_bytes_hist; [by apply HP2|apply Hc1]|]. intros c2 Hc2.
  apply wp_bind, wp_slice_from; [lia|]. intros s3 _ Hl3 HP3.
  eapply wp_bind_mono; [apply count_bytes_hist; [by apply HP3|apply Hc2]|]. intros c3 Hc3.
  cbn. rewrite Hl1, Hl2, Hl3 in Hc3. match type of Hc3 with hist_ok _ ?n => match goal with |- hist_ok _ ?m => replace m with n by lia end end. done.
Qed.

Section zstd.
Context `{Zstd}.
(** The [f64] loop [for count in counts { if count > 0 { entropy -= p * p.log2() } }] over
    a histogram and its divisor. *)
Variable entropy_sum : list Z -> Z -> Q.

Definition estimate_entropy {E} (data : bytes) : outcome E Q :=
  if zlen data =? 0 then Ok 0%Q else
  let? '(counts, total) := entropy_sample data in
  Ok (entropy_sum counts total).

Definition compress_payload (data : bytes) (level : Z) : presult bytes :=
  ok_or (encode_all data level) (Malformed "zstd compression failed").

Definition compress_if_beneficial {E} (data : bytes) (min_savings : Z) : outcome E (option bytes) :=
  if zlen data <? MIN_COMPRESSIBLE_SIZE then Ok None else
  let? e := estimate_entropy data in
  if Qle_bool DEFAULT_ENTROPY_BYPASS_THRESHOLD e then Ok None else
  match compress_payload data DEFAULT_ZSTD_LEVEL with
  | Ok compressed => if zlen compressed + min_savings <=? zlen data then Ok (Some compressed) else Ok None
  | Err _ => Ok None
  | Panic => Panic
  end.

(** The read loop of [decompress_payload_bounded]. Every round that goes on adds at least
    one byte to [out], and [out] never exceeds [max_bytes]: fuel [max_bytes + 1] is enough
    and fuel zero is unreachable from it. *)
Fixpoint decompress_loop (fuel : nat) (clen max_bytes : Z) (max_ratio : option Z) (d : decoder)
    (out : bytes) : presult bytes :=
  match fuel with
  | O => Panic
  | S fuel' =>
      let? '(buf, d) := ok_or (decoder_read d READ_BUF) (Malformed "zstd decode error") in
      let n := zlen buf in
      if n =? 0 then Ok out else
      if max_bytes <? zlen out + n
      then Err (DecompressionBomb ("decompressed size exceeds limit of " +:+ pretty max_bytes
                  +:+ " bytes")) else
      match max_ratio with
      | Some ratio =>
          let total := zlen out + n in
          if (64 * 1024 <? total) && (Z.max clen 1 * ratio <? total)
          then Err (DecompressionBomb ("decompression expansion ratio exceeded " +:+ pretty ratio
                      +:+ "x limit"))
          else decompress_loop fuel' clen max_bytes max_ratio d (out ++ buf)
      | None => decompress_loop fuel' clen max_bytes max_ratio d (out ++ buf)
      end
  end.

Definition decompress_payload_bounded (compressed : bytes) (max_bytes : Z) (max_ratio : option Z)
    : presult bytes :=
  if zlen compressed =? 0 then Err (Malformed "empty compressed payload") else
  let? d := ok_or (decoder_new compressed) (Malformed "invalid zstd header") in
  decompress_loop (S (Z.to_nat max_bytes)) (zlen compressed) max_bytes max_ratio d [].

(** What decompression may return for an input of [clen] bytes. *)
Definition within (clen max_bytes : Z) (max_ratio : option Z) (n : Z) : Prop :=
  n <= max_bytes /\
  match max_ratio with Some ratio => n <= 64 * 1024 \/ n <= Z.max clen 1 * ratio | None => True end.

(** Whatever the decoder produces, the loop stops, and what it accumulates is bounded. *)
Lemma decompress_loop_bounded fuel clen max ratio d out :
  within clen max ratio (zlen out) -> max - zlen out < Z.of_nat fuel ->
  wp (decompress_loop fuel clen max ratio d out) (fun r => within clen max ratio (zlen r)).
Proof.
  revert d out. induction fuel as [|fuel IH]; intros d out Hw Hf.
  { destruct Hw. lia. }
  cbn [decompress_loop]. apply wp_bind, wp_ok_or. intros [buf d'] _.
  pose proof (zlen_nonneg buf). apply wp_if; intros Hn; [done|]. apply wp_if; intros Hmax; [done|].
  assert (Hgo : within clen max ratio (zlen (out ++ buf)) ->
    wp (decompress_loop fuel clen max ratio d' (out ++ buf))
       (fun r => within clen max ratio (zlen r))).
  { intros Hw'. apply IH; [done|]. rewrite zlen_app. lia. }
  destruct ratio as [r|]; [|apply Hgo; split; [rewrite zlen_app; lia|done]].
  apply wp_if; intros Hr; [done|]. apply Hgo. split; rewrite zlen_app; lia.
Qed.

(** Decompression runs to completion and its result is within both bounds. *)
Lemma decompress_bounded c max ratio : 0 <= max ->
  wp (decompress_payload_bounded c max ratio) (fun r => within (zlen c) max ratio (zlen r)).
Proof.
  intros Hm. unfold decompress_payload_bounded. apply wp_if; [done|intros _].
  apply wp_bind, wp_ok_or. intros d _. apply decompress_loop_bounded.
  - split; [done|]. destruct ratio; [|done]. left. done.
  - change (zlen []) with 0. lia.
Qed.

(** The bytes successive reads into the loop's buffer produce, up to the end of the stream. *)
Inductive reads : decoder -> bytes -> Prop :=
  | reads_end d d' : decoder_read d READ_BUF = Some ([], d') -> reads d []
  | reads_more d d' b rest : decoder_read d READ_BUF = Some (b, d') -> b <> [] ->
      reads d' rest -> reads d (b ++ rest).

(** The documented behaviour of zstd the code relies on: what was compressed reads back,
    from a stream that is never empty. *)
Class ZstdLaws := {
  zstd_stream data level c : encode_all data level = Some c ->
    c <> [] /\ is_bytes c /\ exists d, decoder_new c = Some d /\ reads d data;
  zstd_bulk data level c capacity : encode_all data level = Some c -> zlen data <= capacity ->
    bulk_decompress c capacity = inr data
}.

Lemma decompress_loop_reads fuel clen max ratio d out data :
  reads d data -> within clen max ratio (zlen out + zlen data) ->
  max - zlen out < Z.of_nat fuel -> 0 <= match ratio with Some r => r | None => 0 end ->
  decompress_loop fuel clen max ratio d out = Ok (out ++ data).
Proof.
  intros Hr. revert fuel out. induction Hr as [d d' Hd|d d' b rest Hd Hb Hr IH]; intros fuel out Hw Hf Hp.
  - destruct fuel as [|fuel]; [destruct Hw; change (zlen []) with 0 in *; lia|].
    cbn [decompress_loop]. rewrite Hd. cbn. by rewrite app_nil_r.
  - rewrite zlen_app in Hw. pose proof (zlen_nonneg rest).
    assert (0 < zlen b) by (destruct b; [done|rewrite zlen_cons; pose proof (zlen_nonneg b); lia]).
    destruct fuel as [|fuel]; [destruct Hw; lia|].
    cbn [decompress_loop]. rewrite Hd. cbn [ok_or obind].
    rewrite (proj2 (Z.eqb_neq _ _)) by lia. destruct Hw as [Hmax Hrat].
    rewrite (proj2 (Z.ltb_ge _ _)) by lia.
    assert (Hgo : decompress_loop fuel clen max ratio d' (out ++ b) = Ok ((out ++ b) ++ rest)).
    { apply IH; [|rewrite zlen_app; lia|done]. rewrite zlen_app. split; [lia|].
      destruct ratio; [|done]. lia. }
    rewrite <- app_assoc in Hgo. destruct ratio as [r|]; [|done].
    replace ((64 * 1024 <? zlen out + zlen b) && (Z.max clen 1 * r <? zlen out + zlen b)) with false; [done|].
    symmetry. apply andb_false_iff. destruct Hrat; [left|right]; apply Z.ltb_ge; lia.
Qed.

(** A stream that goes past a bound is refused, wherever the reads split it. *)
Lemma decompress_loop_bomb fuel clen max ratio d out data :
  reads d data -> within clen max ratio (zlen out) -> ~ within clen max ratio (zlen out + zlen data) ->
  max - zlen out < Z.of_nat fuel ->
  exists why, decompress_loop fuel clen max ratio d out = Err (DecompressionBomb why).
Proof.
  intros Hr. revert fuel out. induction Hr as [d d' Hd|d d' b rest Hd Hb Hr IH]; intros fuel out Hw Hn Hf.
  { change (zlen []) with 0 in Hn. by rewrite Z.add_0_r in Hn. }
  rewrite zlen_app in Hn. destruct fuel as [|fuel]; [destruct Hw; lia|].
  assert (0 < zlen b) by (destruct b; [done|rewrite zlen_cons; pose proof (zlen_nonneg b); lia]).
  cbn [decompress_loop]. rewrite Hd. cbn [ok_or obind]. rewrite (proj2 (Z.eqb_neq _ _)) by lia.
  destruct (Z.ltb_spec max (zlen out + zlen b)); [by eauto|].
  assert (Hgo : within clen max ratio (zlen (out ++ b)) ->
    exists why, decompress_loop fuel clen max ratio d' (out ++ b) = Err (DecompressionBomb why)).
  { intros Hw'. apply IH; [done| |rewrite zlen_app; lia]. by rewrite zlen_app, <- Z.add_assoc. }
  destruct ratio as [r|]; [|apply Hgo; split; [rewrite zlen_app; lia|done]].
  destruct ((64 * 1024 <? _) && _) eqn:Hc; [by eauto|]. apply Hgo.
  split; rewrite zlen_app; lia.
Qed.

Lemma compress_if_beneficial_inv {E} data savings c :
  @compress_if_beneficial E data savings = Ok (Some c) ->
  MIN_COMPRESSIBLE_SIZE <= zlen data /\ encode_all data DEFAULT_ZSTD_LEVEL = Some c /\
  zlen c + savings <= zlen data.
Proof.
  unfold compress_if_beneficial, compress_payload.
  destruct (Z.ltb_spec (zlen data) MIN_COMPRESSIBLE_SIZE); [done|]. intros Hc.
  apply obind_ok_inv in Hc as (e & _ & Hc). destruct (Qle_bool _ _); [done|].
  destruct (encode_all data DEFAULT_ZSTD_LEVEL) as [z|]; [|done]. cbn [ok_or] in Hc.
  destruct (Z.leb_spec (zlen z + savings) (zlen data)); [|done]. by injection Hc as ->.
Qed.

Lemma compress_if_beneficial_safe {E} data savings : is_bytes data ->
  wp (@compress_if_beneficial E data savings) (fun _ => True).
Proof.
  intros Hd. unfold compress_if_beneficial, estimate_entropy. apply wp_if; [done|intros _].
  apply wp_bind. apply (wp_mono _ (fun _ => True)).
  - apply wp_if; [done|intros _]. eapply wp_bind_mono; [by apply entropy_sample_ok|]. by intros [].
  - intros e _. apply wp_if; [done|intros _]. unfold compress_payload.
    destruct (encode_all _ _); [|done]. cbn [ok_or]. by apply wp_if.
Qed.

(** The entropy test has no error path: an in-range slice always gets an answer. *)
Lemma count_bytes_no_err {E} data : forall counts, no_err (@count_bytes E counts data).
Proof. induction data as [|b data IH]; intros counts; cbn [count_bytes]; auto with no_err. Qed.

Lemma entropy_sample_no_err {E} data : no_err (@entropy_sample E data).
Proof.
  unfold entropy_sample. cbv zeta. pose proof (@count_bytes_no_err E). auto 12 with no_err.
Qed.

Lemma compress_if_beneficial_total {E} data savings : is_bytes data ->
  exists r, @compress_if_beneficial E data savings = Ok r.
Proof.
  intros Hd. destruct (@wp_returns E _ (compress_if_beneficial data savings) (fun _ => True)) as (r & Hr & _);
    [|by apply compress_if_beneficial_safe|by exists r].
  unfold compress_if_beneficial, estimate_entropy, compress_payload. apply no_err_if; [done|].
  apply no_err_bind.
  - apply no_err_if; [done|]. apply no_err_bind; [apply entropy_sample_no_err|by intros []].
  - intros e. apply no_err_if; [done|]. destruct (encode_all _ _); cbn [ok_or]; auto with no_err.
Qed.

(** ** Adaptive selection *)

Record AdaptiveCompressionConfig := mk_config {
  min_compressible_size : Z; min_savings : Z; entropy_bypass_threshold : Q;
  backoff_failure_threshold : Z; backoff_cooldown_chunks : Z }.

Definition default_config : AdaptiveCompressionConfig :=
  mk_config MIN_COMPRESSIBLE_SIZE DEFAULT_MIN_SAVINGS DEFAULT_ENTROPY_BYPASS_THRESHOLD 3 6.

Record AdaptiveCompressionStats := mk_stats {
  total_chunks : Z; bypassed_small : Z; bypassed_entropy : Z; bypassed_backoff : Z;
  compressed_chunks : Z; raw_bytes : Z; wire_bytes : Z; cpu_time_saved_us_est : Z }.

Definition default_stats : AdaptiveCompressionStats := mk_stats 0 0 0 0 0 0 0 0.

Inductive CompressionDecision :=
  | BypassTooSmall
  | BypassHighEntropy (entropy_centibits : Z)
  | BypassBackoff (cooldown_remaining : Z)
  | Compressed (level raw_len compressed_len : Z)
  | FailedSavings (level raw_len attempted_len : Z).

Record AdaptiveCompressionSelector := mk_selector {
  config : AdaptiveCompressionConfig; consecutive_failures : Z; cooldown_remaining : Z;
  stats : AdaptiveCompressionStats }.

Definition selector_new (c : AdaptiveCompressionConfig) (s : AdaptiveCompressionStats)
  : AdaptiveCompressionSelector := mk_selector c 0 0 s.
Definition selector_with_defaults : AdaptiveCompressionSelector :=
  selector_new default_config default_stats.
Definition reset_stream_state (s : AdaptiveCompressionSelector) : AdaptiveCompressionSelector :=
  mk_selector (config s) 0 0 (stats s).

(** [AtomicU64::fetch_add], which wraps; one record of the eight increments. *)
Definition add_stats (s d : AdaptiveCompressionStats) : AdaptiveCompressionStats :=
  let add a b := wrap 64 (a + b) in
  mk_stats (add (total_chunks s) (total_chunks d)) (add (bypassed_small s) (bypassed_small d))
    (add (bypassed_entropy s) (bypassed_entropy d)) (add (bypassed_backoff s) (bypassed_backoff d))
    (add (compressed_chunks s) (compressed_chunks d)) (add (raw_bytes s) (raw_bytes d))
    (add (wire_bytes s) (wire_bytes d))
    (add (cpu_time_saved_us_est s) (cpu_time_saved_us_est d)).

(** [consecutive_failures += 1; if consecutive_failures >= threshold { cooldown = ... }]. *)
Definition record_failure (s : AdaptiveCompressionSelector) (st : AdaptiveCompressionStats)
    : AdaptiveCompressionSelector :=
  let f := consecutive_failures s + 1 in
  mk_selector (config s) f
    (if backoff_failure_threshold (config s) <=? f then backoff_cooldown_chunks (config s)
     else cooldown_remaining s) st.

(** [(entropy * 100.0).round() as u16], reported in the decision only. *)
Variable centibits : Q -> Z.

Definition process_payload {E} (s : AdaptiveCompressionSelector) (payload : bytes)
    : outcome E (option bytes * CompressionDecision * AdaptiveCompressionSelector) :=
  let n := zlen payload in
  let saved_us := n * 30 / 1000 in
  let st := stats s in
  let cfg := config s in
  if n <? min_compressible_size cfg then
    Ok (None, BypassTooSmall,
        mk_selector cfg (consecutive_failures s) (cooldown_remaining s)
          (add_stats st (mk_stats 1 1 0 0 0 n n 0)))
  else if 0 <? cooldown_remaining s then
    let cd := cooldown_remaining s - 1 in
    Ok (None, BypassBackoff cd,
        mk_selector cfg (consecutive_failures s) cd
          (add_stats st (mk_stats 1 0 0 1 0 n n saved_us)))
  else
    let? entropy := estimate_entropy payload in
    if Qle_bool (entropy_bypass_threshold cfg) entropy then
      Ok (None, BypassHighEntropy (centibits entropy),
          record_failure s (add_stats st (mk_stats 1 0 1 0 0 n n saved_us)))
    else
      let level := default DEFAULT_ZSTD_LEVEL (recommended_level (classify entropy)) in
      match compress_payload payload level with
      | Ok compressed =>
          let m := zlen compressed in
          if m + min_savings cfg <=? n then
            Ok (Some compressed, Compressed level n m,
                mk_selector cfg 0 0 (add_stats st (mk_stats 1 0 0 0 1 n m 0)))
          else
            Ok (None, FailedSavings level n m,
                record_failure s (add_stats st (mk_stats 1 0 0 0 0 n n 0)))
      | Err _ =>
          Ok (None, FailedSavings level n n,
              record_failure s (add_stats st (mk_stats 1 0 0 0 0 n n 0)))
      | Panic => Panic
      end.

(** The selector over a stream of payloads: the decisions and the final state. *)
Fixpoint process_stream {E} (s : AdaptiveCompressionSelector) (l : list bytes)
    : outcome E (list (option bytes * CompressionDecision) * AdaptiveCompressionSelector) :=
  match l with
  | [] => Ok ([], s)
  | p :: l' =>
      let? '(c, d, s) := process_payload s p in
      let? '(r, s) := process_stream s l' in
      Ok ((c, d) :: r, s)
  end.

(** The selector's invariant: counters in range, a cooldown only after enough failures. *)
Definition selector_ok (s : AdaptiveCompressionSelector) : Prop :=
  0 <= consecutive_failures s /\ 0 <= cooldown_remaining s /\
  0 <= backoff_cooldown_chunks (config s) /\
  cooldown_remaining s <= backoff_cooldown_chunks (config s) /\
  (0 < cooldown_remaining s -> backoff_failure_threshold (config s) <= consecutive_failures s).

(** One call: the invariant is kept, the configuration too, and bytes are replaced only when
    they shrink by the configured savings. *)
Lemma process_payload_ok {E} s p : is_bytes p -> selector_ok s ->
  wp (@process_payload E s p) (fun '(c, d, s') =>
    selector_ok s' /\ config s' = config s /\
    match c with
    | Some z => zlen z + min_savings (config s) <= zlen p /\ consecutive_failures s' = 0 /\
                cooldown_remaining s' = 0 /\
                exists l, d = Compressed l (zlen p) (zlen z) /\ encode_all p l = Some z
    | None => consecutive_failures s <= consecutive_failures s'
    end).
Proof.
  intros Hp (Hf & Hc & Hb & Hm & Hcf). unfold process_payload. cbv zeta.
  apply wp_if; intros H1. { cbn. repeat split; cbn; auto; lia. }
  apply wp_if; intros H2. { cbn. repeat split; cbn; auto; lia. }
  assert (Hrec : forall st, selector_ok (record_failure s st)).
  { intros st. unfold record_failure. repeat split; cbn; try case_match; lia. }
  apply wp_bind. apply (wp_mono _ (fun _ => True)).
  { unfold estimate_entropy. apply wp_if; [done|intros _].
    eapply wp_bind_mono; [by apply entropy_sample_ok|]. by intros []. }
  intros e _. apply wp_if; intros H3. { cbn. split; [apply Hrec|]. split; [done|cbn; lia]. }
  unfold compress_payload. destruct (encode_all p _) as [z|] eqn:Hz; cbn [ok_or].
  - apply wp_if; intros H4.
    + cbn. repeat split; cbn; try lia. eauto.
    + cbn. split; [apply Hrec|]. split; [done|cbn; lia].
  - cbn. split; [apply Hrec|]. split; [done|cbn; lia].
Qed.

(** A stream of payloads never stops the selector, and its invariant holds at every point. *)
Lemma process_payload_no_err {E} s p : no_err (@process_payload E s p).
Proof.
  unfold process_payload, estimate_entropy, compress_payload. cbv zeta.
  pose proof (@entropy_sample_no_err E) as He.
  do 2 (apply no_err_if; [done|]). apply no_err_bind.
  - apply no_err_if; [done|]. apply no_err_bind; [done|by intros []].
  - intros e. apply no_err_if; [done|]. destruct (encode_all _ _); cbn [ok_or]; auto with no_err.
Qed.

(** While the cooldown runs, payloads that are large enough are bypassed and count it down. *)
Lemma cooldown_stream {E} l : forall s,
  0 <= min_compressible_size (config s) ->
  Forall (fun p => min_compressible_size (config s) <= zlen p) l ->
  zlen l = cooldown_remaining s ->
  exists ds s', @process_stream E s l = Ok (ds, s') /\ length ds = length l /\
    Forall (fun x => x.1 = None /\ exists k, x.2 = BypassBackoff k) ds /\
    cooldown_remaining s' = 0.
Proof.
  induction l as [|p l IH]; intros s Hm Hl Hz; cbn [process_stream].
  { exists [], s. change (zlen []) with 0 in Hz. by split_and!. }
  apply Forall_cons in Hl as [Hp Hl]. rewrite zlen_cons in Hz. pose proof (zlen_nonneg l).
  unfold process_payload at 1. cbv zeta. rewrite (proj2 (Z.ltb_ge _ _)), (proj2 (Z.ltb_lt _ _)) by lia.
  cbn [obind]. match goal with |- context [process_stream ?s1 l] =>
    destruct (IH s1) as (ds & s' & -> & Hlen & Hds & Hc); [exact Hm|exact Hl|cbn; lia|] end.
  cbn [obind]. eexists _, s'. split; [done|]. split_and!; [cbn; lia| |done].
  constructor; [|done]. split; [done|]. by eexists.
Qed.

Lemma failure_cooldown {E} s p d s1 : @process_payload E s p = Ok (None, d, s1) ->
  (exists l n m, d = FailedSavings l n m) \/ (exists c, d = BypassHighEntropy c) ->
  backoff_failure_threshold (config s) <= consecutive_failures s + 1 ->
  cooldown_remaining s1 = backoff_cooldown_chunks (config s) /\ config s1 = config s.
Proof.
  unfold process_payload. cbv zeta. intros He Hd Ht.
  destruct (zlen p <? _); [injection He; naive_solver|].
  destruct (0 <? cooldown_remaining s); [injection He; naive_solver|].
  apply obind_ok_inv in He as (e & _ & He).
  assert (Hrec : forall st, cooldown_remaining (record_failure s st) = backoff_cooldown_chunks (config s)).
  { intros st. cbn. by rewrite (proj2 (Z.leb_le _ _)). }
  destruct (Qle_bool _ e); [injection He as _ <-; by rewrite Hrec|].
  unfold compress_payload in He. destruct (encode_all _ _); cbn [ok_or] in He.
  - destruct (_ <=? _); [done|]. injection He as _ <-. by rewrite Hrec.
  - injection He as _ <-. by rewrite Hrec.
Qed.

Lemma decompress_start `{!ZstdLaws} data level c max ratio : encode_all data level = Some c ->
  exists d, reads d data /\ decompress_payload_bounded c max ratio
    = decompress_loop (S (Z.to_nat max)) (zlen c) max ratio d [].
Proof.
  intros Hc. destruct (zstd_stream _ _ _ Hc) as (Hne & _ & d & Hd & Hreads). exists d. split; [done|].
  unfold decompress_payload_bounded. rewrite (proj2 (Z.eqb_neq _ _)).
  - by rewrite Hd.
  - destruct c; [done|]. rewrite zlen_cons. pose proof (zlen_nonneg c). lia.
Qed.

Lemma decompress_data `{!ZstdLaws} data level c max ratio :
  encode_all data level = Some c -> 0 <= max -> 0 <= ratio ->
  within (zlen c) max (Some ratio) (zlen data) ->
  decompress_payload_bounded c max (Some ratio) = Ok data.
Proof.
  intros Hc Hm Hr Hw. destruct (decompress_start data level c max (Some ratio) Hc) as (d & Hd & ->).
  apply (decompress_loop_reads _ _ _ _ _ [] data); try done. change (zlen []) with 0. lia.
Qed.

Lemma decompress_refused `{!ZstdLaws} data level c max ratio :
  encode_all data level = Some c -> 0 <= max -> ~ within (zlen c) max (Some ratio) (zlen data) ->
  exists why, decompress_payload_bounded c max (Some ratio) = Err (DecompressionBomb why).
Proof.
  intros Hc Hm Hw. destruct (decompress_start data level c max (Some ratio) Hc) as (d & Hd & ->).
  apply (decompress_loop_bomb _ _ _ _ _ [] data); [done| |done|change (zlen []) with 0; lia].
  split; [done|]. by left.
Qed.

(** Decompressing what was compressed gives back the data when it is within the size and
    ratio bounds, and is refused as a decompression bomb when it is not, however the decoder
    splits its output into reads. *)
Theorem decompress_exact `{!ZstdLaws} data level c max ratio :
  encode_all data level = Some c -> 0 <= max -> 0 <= ratio ->
  (within (zlen c) max (Some ratio) (zlen data) ->
     decompress_payload_bounded c max (Some ratio) = Ok data) /\
  (~ within (zlen c) max (Some ratio) (zlen data) ->
     exists why, decompress_payload_bounded c max (Some ratio) = Err (DecompressionBomb why)).
Proof.
  intros Hc Hm Hr. split; [by apply (decompress_data data level)|by apply (decompress_refused data level)].
Qed.

(** C38. On any input at all, decompression ends without a panic and what it returns is within
    the byte limit and, past 64 KiB, within the expansion ratio. *)
Theorem decompress_always_bounded compressed max_bytes max_ratio : 0 <= max_bytes ->
  wp (decompress_payload_bounded compressed max_bytes max_ratio)
    (fun r => zlen r <= max_bytes /\
       match max_ratio with
       | Some ratio => zlen r <= 64 * 1024 \/ zlen r <= Z.max (zlen compressed) 1 * ratio
       | None => True
       end).
Proof. apply decompress_bounded. Qed.

(** Any stream of payloads goes through the selector without an error or a panic; its
    invariant (a cooldown in range, and only after enough failures) holds at the end; and a
    payload is replaced only by a compression of itself that saves [min_savings] bytes. *)
Theorem selector_stream {E} l : Forall is_bytes l -> forall s, selector_ok s ->
  exists ds s', @process_stream E s l = Ok (ds, s') /\ selector_ok s' /\
    Forall2 (fun p x => match x.1 with
      | Some z => zlen z + min_savings (config s) <= zlen p /\ exists lv, encode_all p lv = Some z
      | None => True
      end) l ds.
Proof.
  induction 1 as [|p l Hp Hl IH]; intros s Hs; cbn [process_stream]; [by exists [], s|].
  destruct (@wp_returns E _ _ _ (process_payload_no_err s p) (process_payload_ok s p Hp Hs))
    as ([[c d] s1] & -> & Hs1 & Hcfg & Hc). cbn [obind].
  destruct (IH s1 Hs1) as (ds & s' & -> & Hs' & Hds). cbn [obind]. rewrite Hcfg in Hds.
  exists ((c, d) :: ds), s'. split; [done|]. split; [done|]. constructor; [|done].
  cbn. destruct c as [z|]; [|done]. destruct Hc as (Hz & _ & _ & lv & _ & He). by eauto.
Qed.

(** Backoff: once a payload fails to compress and completes the configured number of
    consecutive failures, the next [backoff_cooldown_chunks] payloads of compressible size are
    all sent as they are, without being sampled or compressed, and then the cooldown is over. *)
Theorem selector_backoff {E} s p d s1 l :
  @process_payload E s p = Ok (None, d, s1) ->
  (exists lv n m, d = FailedSavings lv n m) \/ (exists c, d = BypassHighEntropy c) ->
  backoff_failure_threshold (config s) <= consecutive_failures s + 1 ->
  0 <= min_compressible_size (config s) ->
  Forall (fun q => min_compressible_size (config s) <= zlen q) l ->
  zlen l = backoff_cooldown_chunks (config s) ->
  exists ds s2, @process_stream E s1 l = Ok (ds, s2) /\ length ds = length l /\
    Forall (fun x => x.1 = None /\ exists k, x.2 = BypassBackoff k) ds /\
    cooldown_remaining s2 = 0.
Proof.
  intros He Hd Ht Hm Hl Hz. destruct (failure_cooldown _ _ _ _ He Hd Ht) as [Hc Hcfg].
  apply cooldown_stream; rewrite ?Hcfg; congruence.
Qed.

End zstd.

End Compression.

(** ** An instance of the interface: trailing zeros are counted, the rest is stored *)
Module TrimCodec.

Fixpoint lead_zeros (l : bytes) : nat * bytes :=
  match l with
  | b :: l' => if b =? 0 then let '(n, r) := lead_zeros l' in (S n, r) else (O, l)
  | [] => (O, [])
  end.

Definition trim_encode (data : bytes) (level : Z) : option bytes :=
  let '(n, r) := lead_zeros (reverse data) in
  if forallb (fun b => (0 <=? b) && (b <? 256)) data && (Z.of_nat n <? 2 ^ 64)
  then Some (to_le 8 (Z.of_nat n) ++ reverse r) else None.

Definition trim_decode (c : bytes) : option bytes :=
  if zlen c <? 8 then None
  else Some (drop 8 c ++ replicate (Z.to_nat (from_le (take 8 c))) 0).

#[global] Instance trim_zstd : Zstd := {|
  encode_all := trim_encode;
  decoder := bytes;
  decoder_new := trim_decode;
  decoder_read d n := Some (take (Z.to_nat n) d, drop (Z.to_nat n) d);
  bulk_decompress c capacity :=
    match trim_decode c with
    | Some d => if zlen d <=? capacity then inr d else inl "Destination buffer is too small"%string
    | None => inl "Unknown frame descriptor"%string
    end |}.

Lemma lead_zeros_spec l : l = replicate (lead_zeros l).1 0 ++ (lead_zeros l).2.
Proof.
  induction l as [|b l IH]; [done|]. cbn [lead_zeros]. destruct (Z.eqb_spec b 0) as [->|]; [|done].
  destruct (lead_zeros l) as [n r]. cbn in *. by rewrite <- IH.
Qed.

Lemma trim_zeros n level : n < 2 ^ 64 -> 0 <= n ->
  trim_encode (replicate (Z.to_nat n) 0) level = Some (to_le 8 n).
Proof.
  intros Hn Hp. unfold trim_encode. rewrite reverse_replicate.
  assert (Hl : forall k, lead_zeros (replicate k 0) = (k, [])) by (induction k as [|k IH]; [done|]; cbn; by rewrite IH).
  rewrite Hl. replace (forallb _ _) with true.
  - rewrite Z2Nat.id by lia. rewrite (proj2 (Z.ltb_lt _ _)) by lia. cbn. by rewrite app_nil_r.
  - symmetry. apply forallb_forall. intros x Hx. apply list_elem_of_In, elem_of_replicate_inv in Hx as ->. done.
Qed.

Lemma trim_inv data level c : trim_encode data level = Some c ->
  c <> [] /\ is_bytes c /\ trim_decode c = Some data.
Proof.
  unfold trim_encode. pose proof (lead_zeros_spec (reverse data)) as Hl.
  destruct (lead_zeros (reverse data)) as [n r]. cbn in Hl.
  destruct (forallb _ data) eqn:Hb; [|done]. destruct (Z.ltb_spec (Z.of_nat n) (2 ^ 64)) as [Hn|]; [|done].
  cbn. intros [= <-]. pose proof (zlen_to_le 8 (Z.of_nat n)) as Hz.
  assert (Hd : data = reverse r ++ replicate n 0).
  { rewrite <- (reverse_involutive data), Hl, reverse_app, reverse_replicate. done. }
  assert (Hbytes : is_bytes data).
  { apply Forall_forall. intros x Hx. rewrite forallb_forall in Hb.
    specialize (Hb x (proj1 (list_elem_of_In _ _) Hx)). cbv beta in Hb. unfold fits. lia. }
  split; [intros Hnil; rewrite (app_nil _ _) in Hnil; destruct Hnil as [Hnil _]; by rewrite Hnil in Hz|].
  split.
  - apply Forall_app. split; [apply is_bytes_to_le|]. rewrite Hd in Hbytes. by apply Forall_app in Hbytes as [? _].
  - unfold trim_decode. rewrite zlen_app. pose proof (zlen_nonneg (reverse r)).
    rewrite (proj2 (Z.ltb_ge _ _)) by lia.
    assert (Hlen : length (to_le 8 (Z.of_nat n)) = 8%nat) by (unfold zlen in Hz; lia).
    rewrite <- Hlen at 1. rewrite drop_app_length. rewrite <- Hlen at 1. rewrite take_app_length.
    rewrite from_to_le by (unfold fits; lia). rewrite Nat2Z.id. by rewrite Hd.
Qed.

Lemma cut_pos {A} n (x : A) l : (0 < n)%nat ->
  take n (x :: l) <> [] /\ (length (drop n (x :: l)) <= length l)%nat.
Proof. intros Hn. destruct n; [lia|]. cbn. rewrite length_drop. split; [done|lia]. Qed.

Lemma trim_reads k : forall d, (length d <= k)%nat -> Compression.reads d d.
Proof.
  induction k as [|k IH]; intros d Hd.
  - destruct d; [|simpl in Hd; lia]. apply (Compression.reads_end (H:=trim_zstd) (nil : bytes) (nil : bytes) eq_refl).
  - destruct d as [|b d]; [apply (Compression.reads_end (H:=trim_zstd) (nil : bytes) (nil : bytes) eq_refl)|].
    destruct (cut_pos (Z.to_nat Compression.READ_BUF) b d) as [Hne Hle];
      [unfold Compression.READ_BUF; lia|].
    rewrite <- (take_drop (Z.to_nat Compression.READ_BUF) (b :: d)) at 2.
    refine (Compression.reads_more (H:=trim_zstd) (b :: d) (drop (Z.to_nat Compression.READ_BUF) (b :: d)) _ _ eq_refl Hne _).
    apply IH. simpl in Hd. lia.
Qed.

#[global] Instance trim_laws : Compression.ZstdLaws.
Proof.
  split.
  - intros data level c Hc. destruct (trim_inv _ _ _ Hc) as (Hne & Hb & Hd).
    split; [done|]. split; [done|]. exists data. split; [exact Hd|]. by apply (trim_reads (length data)).
  - intros data level c cap Hc Hl. destruct (trim_inv _ _ _ Hc) as (_ & _ & Hd). cbn. rewrite Hd.
    by rewrite (proj2 (Z.leb_le _ _)).
Qed.

End TrimCodec.

(** ** The theorems at concrete payloads *)
Module CompressionExamples.

Definition flat (_ : list Z) (_ : Z) : Q := 0%Q.
Definition noisy (_ : list Z) (_ : Z) : Q := 8%Q.
Definition zeros300 : bytes := replicate 300 0.

Lemma decompress_exact_witness :
  Compression.decompress_payload_bounded (to_le 8 300) 1000 (Some 500) = Ok zeros300 /\
  exists why, Compression.decompress_payload_bounded (to_le 8 300) 100 (Some 500)
              = Err (DecompressionBomb why).
Proof.
  split.
  - apply (Compression.decompress_exact zeros300 3 (to_le 8 300) 1000 500);
      [vm_compute; reflexivity|lia|lia|].
    split; [vm_compute; discriminate|]. left. vm_compute. discriminate.
  - apply (Compression.decompress_exact zeros300 3 (to_le 8 300) 100 500);
      [vm_compute; reflexivity|lia|lia|].
    intros [Hw _]. revert Hw. vm_compute. auto.
Defined.

Lemma decompress_always_bounded_witness :
  wp (Compression.decompress_payload_bounded (to_le 8 300) 1000 (Some 2))
    (fun r => zlen r <= 1000 /\ (zlen r <= 64 * 1024 \/ zlen r <= Z.max (zlen (to_le 8 300)) 1 * 2)).
Proof. apply (Compression.decompress_always_bounded (to_le 8 300) 1000 (Some 2)). lia. Defined.

Definition strict : Compression.AdaptiveCompressionSelector :=
  Compression.mk_selector (Compression.mk_config 4 1 (75 # 10) 1 2) 0 0 Compression.default_stats.
Definition strict1 : Compression.AdaptiveCompressionSelector :=
  Compression.record_failure strict
    (Compression.add_stats Compression.default_stats (Compression.mk_stats 1 0 1 0 0 5 5 0)).

Lemma selector_stream_witness :
  exists ds s', @Compression.process_stream _ flat (fun _ => 0) Empty_set
      Compression.selector_with_defaults [zeros300; [1; 2]] = Ok (ds, s') /\
    Compression.selector_ok s' /\
    Forall2 (fun p x => match x.1 with
      | Some z => zlen z + 16 <= zlen p /\ exists lv, encode_all p lv = Some z
      | None => True
      end) [zeros300; [1; 2]] ds.
Proof.
  apply (Compression.selector_stream flat (fun _ => 0) [zeros300; [1; 2]]).
  - constructor; [by apply Forall_replicate|]. repeat constructor; lia.
  - unfold Compression.selector_ok. cbn. lia.
Defined.

Lemma selector_backoff_witness :
  exists ds s2, @Compression.process_stream _ noisy (fun _ => 800) Empty_set strict1
      [[1; 2; 3; 4]; [5; 6; 7; 8; 9]] = Ok (ds, s2) /\ length ds = 2%nat /\
    Forall (fun x => x.1 = None /\ exists k, x.2 = Compression.BypassBackoff k) ds /\
    Compression.cooldown_remaining s2 = 0.
Proof.
  apply (Compression.selector_backoff noisy (fun _ => 800) strict [1; 2; 3; 4; 5]
           (Compression.BypassHighEntropy 800) strict1).
  - vm_compute. reflexivity.
  - right. by exists 800.
  - vm_compute. discriminate.
  - vm_compute. discriminate.
  - repeat constructor; vm_compute; discriminate.
  - reflexivity.
Defined.

End CompressionExamples.
