(* ===== verification/DataPath.v ===== *)
(** The DATA path of a chunk (crates/velcrux-core/src/crypto/chunk_aead.rs and the
    compressing and encrypting encoders of protocol/frame.rs): chunk, optional zstd, AEAD
    envelope, DATA frame, and back. The ring crate's AEAD is the [Aead] interface. *)

From Stdlib Require Import QArith.
From stdpp Require Import strings.
From S2P Require Import Prelude Protocol Wire Frame Compression.
Open Scope Z_scope.

Inductive CipherSuite := ChaCha20Poly1305 | Aes256Gcm.

(** ring: [LessSafeKey::new(UnboundKey::new(algo, key))], [Nonce::try_assume_unique_for_key],
    [seal_in_place_separate_tag] (the sealed bytes and the tag) and [open_in_place] on
    ciphertext followed by tag. [None] is the crate's [Err]. *)
Class Aead := {
  aead_key : Type;
  less_safe_key : CipherSuite -> bytes -> option aead_key;
  nonce_new : bytes -> option bytes;
  seal : aead_key -> bytes -> bytes -> bytes -> option (bytes * bytes);
  open_sealed : aead_key -> bytes -> bytes -> bytes -> option bytes
}.

Definition NONCE_LEN : Z := 12.
Definition TAG_LEN : Z := 16.
Definition ENVELOPE_OVERHEAD : Z := NONCE_LEN + TAG_LEN.

(** Documented behaviour of ring's AEAD: sealing keeps the length, appends a 16-byte tag,
    and opens to what was sealed under the same key, nonce and associated data. *)
Class AeadLaws `{Aead} := {
  nonce_len n : zlen n = NONCE_LEN -> nonce_new n = Some n;
  seal_len k n a p c t : seal k n a p = Some (c, t) ->
    zlen c = zlen p /\ zlen t = TAG_LEN /\ (is_bytes p -> is_bytes c) /\ is_bytes t;
  open_seal k n a p c t : seal k n a p = Some (c, t) -> open_sealed k n a (c ++ t) = Some p
}.

Module ChunkAead.

Inductive CryptoError :=
  | AuthenticationFailed
  | TruncatedCiphertext (expected actual : Z)
  | InvalidKeyLength (expected actual : Z)
  | Unspecified (why : string).

Abbreviation cresult := (outcome CryptoError).

Definition build_chunk_aad {E} (transfer_id : TransferId) (chunk_offset chunk_index : Z)
    : outcome E bytes :=
  let aad := zeros 28 in
  let? aad := copy_into aad 0 16 transfer_id in
  let? aad := copy_into aad 16 24 (to_le 8 chunk_offset) in
  copy_into aad 24 28 (to_le 4 chunk_index).

Section aead.
Context `{Aead}.

(** [ChunkEncryptor] and [ChunkDecryptor]: the suite and the key; the RNG is an argument of
    [encrypt_chunk]. *)
Record ChunkKey := mk_key { suite : CipherSuite; key : aead_key }.

Definition chunk_key_new (s : CipherSuite) (transfer_key : bytes) : cresult ChunkKey :=
  let? k := ok_or (less_safe_key s transfer_key)
              (Unspecified "failed to initialize unbound key") in
  Ok (mk_key s k).

(** [rng] is the outcome of [self.rng.fill(&mut nonce_bytes)]. *)
Definition encrypt_chunk (e : ChunkKey) (rng : option bytes) (transfer_id : TransferId)
    (chunk_offset chunk_index : Z) (plaintext : bytes) : cresult bytes :=
  let? nonce_bytes := ok_or rng (Unspecified "failed to generate random nonce") in
  let? nonce := ok_or (nonce_new nonce_bytes) (Unspecified "invalid nonce bytes for key") in
  let? aad := build_chunk_aad transfer_id chunk_offset chunk_index in
  let in_out := nonce_bytes ++ plaintext in
  let? sub := slice_from in_out NONCE_LEN in
  let? '(sealed, tag) := ok_or (seal (key e) nonce aad sub) (Unspecified "sealing failed") in
  let? in_out := copy_into in_out NONCE_LEN (zlen in_out) sealed in
  Ok (in_out ++ tag).

Definition decrypt_chunk (e : ChunkKey) (transfer_id : TransferId) (chunk_offset chunk_index : Z)
    (envelope : bytes) : cresult bytes :=
  if zlen envelope <? ENVELOPE_OVERHEAD
  then Err (TruncatedCiphertext ENVELOPE_OVERHEAD (zlen envelope)) else
  let? nonce_bytes := slice envelope 0 NONCE_LEN in
  let? nonce := ok_or (nonce_new nonce_bytes) (Unspecified "invalid nonce bytes for key") in
  let? aad := build_chunk_aad transfer_id chunk_offset chunk_index in
  let? in_out := slice_from envelope NONCE_LEN in
  ok_or (open_sealed (key e) nonce aad in_out) AuthenticationFailed.

(** The associated data binds transfer, offset and index. *)
Definition aad_bytes (tid : TransferId) (off idx : Z) : bytes := tid ++ to_le 8 off ++ to_le 4 idx.

Lemma build_aad_spec {E} tid off idx : zlen tid = 16 ->
  @build_chunk_aad E tid off idx = Ok (aad_bytes tid off idx).
Proof.
  intros Hl. unfold build_chunk_aad, aad_bytes. rewrite <- (app_nil_l (zeros 28)).
  pose proof (zlen_zeros 28). pose proof (zlen_to_le 8 off). pose proof (zlen_to_le 4 idx).
  cursor @copy_cursor. cursor @copy_cursor. cursor @copy_cursor.
  rewrite !drop_drop, drop_zeros, <- !app_assoc. cbn [app].
  rewrite (zeros_nil (_ - _)); [by rewrite app_nil_r|]. unfold zlen in *. lia.
Qed.

Lemma aad_inj tid off idx tid' off' idx' :
  zlen tid = 16 -> zlen tid' = 16 -> fits 64 off -> fits 64 off' -> fits 32 idx -> fits 32 idx' ->
  aad_bytes tid off idx = aad_bytes tid' off' idx' -> tid = tid' /\ off = off' /\ idx = idx'.
Proof.
  intros H1 H2 Ho Ho' Hi Hi' Heq. unfold aad_bytes in Heq.
  apply app_inj_1 in Heq as [-> Heq]; [|unfold zlen in *; lia].
  apply app_inj_1 in Heq as [Heo Hei].
  2:{ pose proof (zlen_to_le 8 off). pose proof (zlen_to_le 8 off'). unfold zlen in *. lia. }
  split; [done|]. split.
  - rewrite <- (from_to_le 8 off), <- (from_to_le 8 off') by done. by rewrite Heo.
  - rewrite <- (from_to_le 4 idx), <- (from_to_le 4 idx') by done. by rewrite Hei.
Qed.

Context `{!AeadLaws}.

Lemma encrypt_chunk_spec e nonce tid off idx p buf :
  zlen nonce = NONCE_LEN -> zlen tid = 16 ->
  encrypt_chunk e (Some nonce) tid off idx p = Ok buf ->
  exists c t, seal (key e) nonce (aad_bytes tid off idx) p = Some (c, t) /\ buf = nonce ++ c ++ t.
Proof.
  intros Hn Ht He. unfold encrypt_chunk in He. cbn [ok_or obind] in He.
  rewrite (nonce_len nonce Hn), build_aad_spec in He by done. cbn [ok_or obind] in He.
  unfold NONCE_LEN in *. rewrite slice_from_skip, slice_from_0 in He by lia. cbn [obind] in He.
  destruct (seal (key e) nonce _ p) as [[c t]|] eqn:Hs; [|done]. cbn [ok_or obind] in He.
  destruct (seal_len _ _ _ _ _ _ Hs) as (Hc & _). rewrite copy_cursor in He.
  - cbn [obind] in He. injection He as <-. exists c, t. split; [done|].
    rewrite <- !app_assoc, drop_ge; [done|]. unfold zlen in *. lia.
  - lia.
  - rewrite zlen_app. lia.
  - lia.
Qed.

Lemma decrypt_encrypt e nonce tid off idx p buf :
  zlen nonce = NONCE_LEN -> zlen tid = 16 ->
  encrypt_chunk e (Some nonce) tid off idx p = Ok buf ->
  zlen buf = zlen p + ENVELOPE_OVERHEAD /\ decrypt_chunk e tid off idx buf = Ok p.
Proof.
  intros Hn Ht He. destruct (encrypt_chunk_spec _ _ _ _ _ _ _ Hn Ht He) as (c & t & Hs & ->).
  destruct (seal_len _ _ _ _ _ _ Hs) as (Hc & Htag & _). pose proof (zlen_nonneg p).
  unfold decrypt_chunk, ENVELOPE_OVERHEAD, NONCE_LEN, TAG_LEN in *.
  rewrite !zlen_app. split; [lia|]. rewrite (proj2 (Z.ltb_ge _ _)) by lia.
  rewrite slice_here by lia. cbn [obind]. rewrite nonce_len by done. cbn [ok_or obind].
  rewrite build_aad_spec by done. cbn [obind]. rewrite slice_from_skip, slice_from_0 by lia.
  cbn [obind]. by rewrite (open_seal _ _ _ _ _ _ Hs).
Qed.

(** An envelope is bound to its place: opening it for another transfer, offset or chunk
    index asks the AEAD to open the sealed bytes under associated data that differs from what
    they were sealed with, and returns [AuthenticationFailed] when the AEAD refuses. *)
Theorem envelope_bound e nonce tid off idx p buf tid' off' idx' :
  zlen nonce = NONCE_LEN -> zlen tid = 16 -> zlen tid' = 16 ->
  fits 64 off -> fits 64 off' -> fits 32 idx -> fits 32 idx' ->
  (tid, off, idx) <> (tid', off', idx') ->
  encrypt_chunk e (Some nonce) tid off idx p = Ok buf ->
  exists aad aad' c t, buf = nonce ++ c ++ t /\ seal (key e) nonce aad p = Some (c, t) /\
    aad' <> aad /\
    decrypt_chunk e tid' off' idx' buf
    = ok_or (open_sealed (key e) nonce aad' (c ++ t)) AuthenticationFailed.
Proof.
  intros Hn Ht Ht' Ho Ho' Hi Hi' Hne He.
  destruct (encrypt_chunk_spec _ _ _ _ _ _ _ Hn Ht He) as (c & t & Hs & ->).
  destruct (seal_len _ _ _ _ _ _ Hs) as (Hc & Htag & _). pose proof (zlen_nonneg p).
  exists (aad_bytes tid off idx), (aad_bytes tid' off' idx'), c, t. split_and!; [done|done| |].
  - intros Heq. apply Hne. symmetry in Heq. apply aad_inj in Heq as (-> & -> & ->); done.
  - unfold decrypt_chunk, ENVELOPE_OVERHEAD, NONCE_LEN, TAG_LEN in *. rewrite !zlen_app.
    rewrite (proj2 (Z.ltb_ge _ _)) by lia. rewrite slice_here by lia. cbn [obind].
    rewrite nonce_len by done. cbn [ok_or obind]. rewrite build_aad_spec by done. cbn [obind].
    by rewrite slice_from_skip, slice_from_0 by lia.
Qed.

End aead.
End ChunkAead.

(** ** DATA frames with compression and encryption *)
Module DataPath.
Import ChunkAead.

Section datapath.
Context `{Zstd} `{Aead}.
Variable entropy_sum : list Z -> Z -> Q.

Definition encode_data_frame_maybe_compressed {E} (chunk_offset : Z) (chunk_hash : Hash)
    (payload : bytes) (enable_compression : bool) : outcome E (bytes * bool) :=
  let? c := if enable_compression
            then Compression.compress_if_beneficial entropy_sum payload
                   Compression.DEFAULT_MIN_SAVINGS
            else Ok None in
  match c with
  | Some compressed =>
      let? buf := Data.encode_data_frame chunk_offset (wrap 32 (zlen compressed)) Data.COMPRESSED
                    chunk_hash compressed in
      Ok (buf, true)
  | None =>
      let? buf := Data.encode_data_frame chunk_offset (wrap 32 (zlen payload)) Data.NONE
                    chunk_hash payload in
      Ok (buf, false)
  end.

(** [centibits] is the decision's rounding of an entropy. *)
Definition encode_data_frame_adaptive {E} (centibits : Q -> Z) (chunk_offset : Z) (chunk_hash : Hash)
    (payload : bytes) (selector : Compression.AdaptiveCompressionSelector)
    : outcome E (bytes * bool * Compression.CompressionDecision
                 * Compression.AdaptiveCompressionSelector) :=
  let? '(maybe_compressed, decision, selector) :=
    Compression.process_payload entropy_sum centibits selector payload in
  match maybe_compressed with
  | Some compressed =>
      let? buf := Data.encode_data_frame chunk_offset (wrap 32 (zlen compressed)) Data.COMPRESSED
                    chunk_hash compressed in
      Ok (buf, true, decision, selector)
  | None =>
      let? buf := Data.encode_data_frame chunk_offset (wrap 32 (zlen payload)) Data.NONE
                    chunk_hash payload in
      Ok (buf, false, decision, selector)
  end.

Definition encode_data_frame_encrypted (chunk_offset chunk_index : Z) (transfer_id : TransferId)
    (chunk_hash : Hash) (payload : bytes) (enable_compression : bool) (encryptor : ChunkKey)
    (rng : option bytes) : cresult bytes :=
  let flags := Data.NONE in
  let? '(maybe_compressed, flags) :=
    if enable_compression then
      let? c := Compression.compress_if_beneficial entropy_sum payload
                  Compression.DEFAULT_MIN_SAVINGS in
      match c with
      | Some comp => Ok (comp, Data.from_bits_truncate (Z.lor flags Data.COMPRESSED))
      | None => Ok (payload, flags)
      end
    else Ok (payload, flags) in
  let? ciphertext_envelope :=
    encrypt_chunk encryptor rng transfer_id chunk_offset chunk_index maybe_compressed in
  let flags := Data.from_bits_truncate (Z.lor flags Data.ENCRYPTED) in
  Data.encode_data_frame chunk_offset (wrap 32 (zlen ciphertext_envelope)) flags chunk_hash
    ciphertext_envelope.

Definition decode_data_frame_encrypted (header : Data.DataFrameHeader) (chunk_index : Z)
    (transfer_id : TransferId) (raw_payload : bytes) (decryptor : ChunkKey) : cresult bytes :=
  let? plain_or_compressed :=
    decrypt_chunk decryptor transfer_id (Data.chunk_offset header) chunk_index raw_payload in
  if Data.compressed (Data.flags header) then
    match bulk_decompress plain_or_compressed Data.DATA_MAX_CHUNK_LEN with
    | inr decompressed => Ok decompressed
    | inl e => Err (Unspecified ("zstd decompression failed: " +:+ e))
    end
  else Ok plain_or_compressed.

(** Any non-hole DATA frame the encoders build: within the size limit it decodes to its
    header and payload, above it the receiver refuses the header. *)
Lemma data_frame_decode {E} off fl h p buf :
  fits 64 off -> fits 16 fl -> Data.is_hole fl = false -> wf_hash h -> fits 32 (zlen p) ->
  @Data.encode_data_frame E off (wrap 32 (zlen p)) fl h p = Ok buf ->
  Data.decode_data_frame_header buf =
  if Data.DATA_MAX_CHUNK_LEN <? zlen p then Err (Malformed "data frame: chunk_len > max")
  else Ok (Data.mk_header off (zlen p) fl h, p).
Proof.
  intros Ho Hf Hh Hw Hp He. rewrite Data.data_frame_spec, Hh in He by apply Hw. injection He as <-.
  rewrite wrap_small by done. destruct (Z.ltb_spec Data.DATA_MAX_CHUNK_LEN (zlen p)) as [Hl|Hl].
  - unfold Data.header_bytes. rewrite <- !app_assoc. destruct Hw as [_ Hw]. pose proof (zlen_nonneg p).
    unfold Data.decode_data_frame_header. change Data.DATA_FRAME_HEADER_LEN with 48.
    run. done.
  - apply (Data.header_roundtrip (Data.mk_header off (zlen p) fl h)).
    unfold Data.header_ok. cbn. unfold fits in *. repeat split; try apply Hw; lia.
Qed.

(** The encrypting encoder in terms of what it compresses and seals. *)
Lemma encrypted_inv off idx tid h p en key rng buf :
  encode_data_frame_encrypted off idx tid h p en key rng = Ok buf ->
  exists body fl env,
    (body = p /\ fl = Data.NONE \/
     fl = Data.COMPRESSED /\ en = true /\ zlen body + Compression.DEFAULT_MIN_SAVINGS <= zlen p /\
     encode_all p Compression.DEFAULT_ZSTD_LEVEL = Some body) /\
    encrypt_chunk key rng tid off idx body = Ok env /\
    Data.encode_data_frame off (wrap 32 (zlen env)) (Z.lor fl Data.ENCRYPTED) h env
    = @Ok CryptoError _ buf.
Proof.
  unfold encode_data_frame_encrypted. intros He.
  apply obind_ok_inv in He as ([body fl] & Hb & He). apply obind_ok_inv in He as (env & Henv & He).
  exists body, fl, env. assert (Hcase : body = p /\ fl = Data.NONE \/
     fl = Data.COMPRESSED /\ en = true /\ zlen body + Compression.DEFAULT_MIN_SAVINGS <= zlen p /\
     encode_all p Compression.DEFAULT_ZSTD_LEVEL = Some body).
  { destruct en; [|left; by injection Hb as -> ->].
    apply obind_ok_inv in Hb as ([c|] & Hc & Hb); injection Hb as <- <-; [right|by left].
    apply Compression.compress_if_beneficial_inv in Hc as (_ & Hc & Hs). done. }
  split; [done|]. split; [done|]. by destruct Hcase as [[_ ->]|(-> & _)].
Qed.

Context `{!AeadLaws} `{!Compression.ZstdLaws}.

Lemma encrypted_roundtrip off idx tid h p en key nonce buf :
  fits 64 off -> wf_id tid -> wf_hash h -> zlen nonce = NONCE_LEN ->
  zlen p + ENVELOPE_OVERHEAD <= Data.DATA_MAX_CHUNK_LEN ->
  encode_data_frame_encrypted off idx tid h p en key (Some nonce) = Ok buf ->
  exists hd env, Data.decode_data_frame_header buf = Ok (hd, env) /\
    Data.encrypted (Data.flags hd) = true /\ Data.chunk_hash hd = h /\
    decode_data_frame_encrypted hd idx tid env key = Ok p.
Proof.
  intros Ho [_ Ht] Hh Hn Hp He. apply encrypted_inv in He as (body & fl & env & Hcase & Henv & Hbuf).
  destruct (decrypt_encrypt _ _ _ _ _ _ _ Hn Ht Henv) as [Hlen Hdec].
  pose proof (zlen_nonneg body). unfold ENVELOPE_OVERHEAD, NONCE_LEN, TAG_LEN in *.
  assert (Hb : zlen body <= zlen p).
  { destruct Hcase as [[-> _]|(_ & _ & Hs & _)]; [done|]. unfold Compression.DEFAULT_MIN_SAVINGS in Hs. lia. }
  assert (Hfl : fl = Data.NONE \/ fl = Data.COMPRESSED) by naive_solver.
  eapply data_frame_decode in Hbuf; [|done|by destruct Hfl as [-> | ->]|by destruct Hfl as [-> | ->]|done|
    unfold Data.DATA_MAX_CHUNK_LEN, fits in *; lia].
  rewrite (proj2 (Z.ltb_ge _ _)) in Hbuf by lia. eexists _, env. split; [exact Hbuf|].
  cbn. split; [by destruct Hfl as [-> | ->]|]. split; [done|].
  unfold decode_data_frame_encrypted. cbn. rewrite Hdec. cbn [obind].
  destruct Hcase as [[-> ->]|(-> & _ & _ & Hz)]; [done|]. cbn.
  rewrite (Compression.zstd_bulk _ _ _ _ Hz); [done|lia].
Qed.

(** A chunk within 28 bytes of the limit that is not compressed does not fit a DATA frame
    once sealed: the receiver refuses the header. *)
Lemma encrypted_refused off idx tid h p key nonce buf :
  fits 64 off -> wf_id tid -> wf_hash h -> zlen nonce = NONCE_LEN ->
  Data.DATA_MAX_CHUNK_LEN - ENVELOPE_OVERHEAD < zlen p <= Data.DATA_MAX_CHUNK_LEN ->
  encode_data_frame_encrypted off idx tid h p false key (Some nonce) = Ok buf ->
  Data.decode_data_frame_header buf = Err (Malformed "data frame: chunk_len > max").
Proof.
  intros Ho [_ Ht] Hh Hn Hp He. apply encrypted_inv in He as (body & fl & env & Hcase & Henv & Hbuf).
  destruct Hcase as [[-> ->]|(_ & ? & _)]; [|done].
  destruct (decrypt_encrypt _ _ _ _ _ _ _ Hn Ht Henv) as [Hlen _].
  unfold ENVELOPE_OVERHEAD, NONCE_LEN, TAG_LEN, Data.DATA_MAX_CHUNK_LEN in *.
  eapply data_frame_decode in Hbuf; [|done..|unfold fits; lia].
  unfold Data.DATA_MAX_CHUNK_LEN in Hbuf. by rewrite (proj2 (Z.ltb_lt _ _)) in Hbuf by lia.
Qed.

(** A chunk sealed for the DATA path comes back: the receiver accepts the frame, whose
    header has the ENCRYPTED flag, the offset and the chunk's hash, and opening the envelope for
    the same transfer, offset and index returns the chunk, whether or not it was compressed. *)
Theorem encrypted_chunk_roundtrip off idx tid h p en key nonce buf :
  fits 64 off -> wf_id tid -> wf_hash h -> zlen nonce = NONCE_LEN ->
  zlen p + ENVELOPE_OVERHEAD <= Data.DATA_MAX_CHUNK_LEN ->
  encode_data_frame_encrypted off idx tid h p en key (Some nonce) = Ok buf ->
  exists hd env, Data.decode_data_frame_header buf = Ok (hd, env) /\
    Data.encrypted (Data.flags hd) = true /\ Data.chunk_hash hd = h /\
    decode_data_frame_encrypted hd idx tid env key = Ok p.
Proof. apply encrypted_roundtrip. Qed.

(** A chunk of the maximum size is not transferable encrypted: for every chunk within 28
    bytes of [DATA_MAX_CHUNK_LEN] that is sent uncompressed, the sender produces a DATA frame
    whose header the receiver refuses. *)
Theorem encrypted_chunk_refused off idx tid h p key nonce buf :
  fits 64 off -> wf_id tid -> wf_hash h -> zlen nonce = NONCE_LEN ->
  Data.DATA_MAX_CHUNK_LEN - ENVELOPE_OVERHEAD < zlen p <= Data.DATA_MAX_CHUNK_LEN ->
  encode_data_frame_encrypted off idx tid h p false key (Some nonce) = Ok buf ->
  Data.decode_data_frame_header buf = Err (Malformed "data frame: chunk_len > max").
Proof. apply encrypted_refused. Qed.

End datapath.
End DataPath.

(** ** An instance of the interface: plaintext with the associated data's checksum as tag *)
Module SumAead.

(** Sixteen bytes from the two parts of the associated data. *)
Definition tag_of (aad : bytes) : bytes := to_le 16 (from_le (take 16 aad) + from_le (drop 16 aad)).

Definition sum_seal (k n a p : bytes) : option (bytes * bytes) :=
  Some (p, tag_of a).
Definition sum_open (k n a c : bytes) : option bytes :=
  let m := (length c - 16)%nat in
  if decide (drop m c = tag_of a) then Some (take m c) else None.

#[global] Instance sum_aead : Aead := {|
  aead_key := bytes;
  less_safe_key _ k := if zlen k =? 32 then Some k else None;
  nonce_new n := if zlen n =? NONCE_LEN then Some n else None;
  seal := sum_seal;
  open_sealed := sum_open |}.

#[global] Instance sum_laws : AeadLaws.
Proof.
  split.
  - intros n Hn. cbn. by rewrite Hn.
  - intros k n a p c t [= <- <-]. split_and!; [done|apply zlen_to_le|done|apply is_bytes_to_le].
  - intros k n a p c t [= <- <-]. cbn. unfold sum_open.
    assert (Hl : length (tag_of a) = 16%nat) by (pose proof (zlen_to_le 16 (from_le (take 16 a) + from_le (drop 16 a))); unfold zlen, tag_of in *; lia).
    rewrite length_app, Hl, Nat.add_sub, drop_app_length, take_app_length. by rewrite decide_True.
Qed.

End SumAead.

(** ** The theorems at concrete chunks *)
Module DataPathExamples.
Import ChunkAead.

Definition flat (_ : list Z) (_ : Z) : Q := 0%Q.
Definition k : ChunkKey := mk_key ChaCha20Poly1305 (replicate 32 1).
Definition tid : TransferId := replicate 16 2.
Definition h : Hash := replicate 32 3.
Definition nonce : bytes := replicate 12 4.
(** A chunk of zeros, which the codec of the example compresses. *)
Definition chunk : bytes := replicate 200 0.

Lemma tid_ok : wf_id tid.
Proof. split; [by apply Forall_replicate|done]. Qed.
Lemma h_ok : wf_hash h.
Proof. split; [by apply Forall_replicate|done]. Qed.

Lemma encrypted_chunk_roundtrip_witness :
  exists buf hd env, DataPath.encode_data_frame_encrypted flat 4096 1 tid h chunk true k (Some nonce) = Ok buf /\
    Data.decode_data_frame_header buf = Ok (hd, env) /\
    Data.encrypted (Data.flags hd) = true /\ Data.chunk_hash hd = h /\
    DataPath.decode_data_frame_encrypted hd 1 tid env k = Ok chunk.
Proof.
  assert (exists buf, DataPath.encode_data_frame_encrypted flat 4096 1 tid h chunk true k (Some nonce) = Ok buf)
    as [buf He] by (eexists; vm_compute; reflexivity).
  exists buf.
  destruct (DataPath.encrypted_chunk_roundtrip flat 4096 1 tid h chunk true k nonce buf)
    as (hd & env & Hr); [by vm_compute|apply tid_ok|apply h_ok|done|by vm_compute|done|].
  exists hd, env. by split.
Defined.

(** A chunk of the maximum size; the encoder is run symbolically on it. *)
Definition big : bytes := replicate (Z.to_nat (4 * 1024 * 1024)) 1.

Lemma zlen_big : zlen big = 4 * 1024 * 1024.
Proof. unfold big. rewrite zlen_replicate, Z2Nat.id by lia. done. Qed.

#[local] Opaque big.

Lemma encode_big : exists buf,
  DataPath.encode_data_frame_encrypted flat 0 0 tid h big false k (Some nonce) = Ok buf.
Proof.
  unfold DataPath.encode_data_frame_encrypted. cbn [obind]. generalize big. intros p.
  assert (He : exists env, encrypt_chunk k (Some nonce) tid 0 0 p = Ok env).
  { unfold encrypt_chunk. cbn [ok_or obind]. rewrite nonce_len by done.
    cbn [ok_or obind]. rewrite build_aad_spec by done. cbn [obind].
    rewrite slice_from_skip, slice_from_0 by done. cbn [obind].
    change (seal (key k) nonce (aad_bytes tid 0 0) p)
      with (Some (p, SumAead.tag_of (aad_bytes tid 0 0))). cbn [ok_or obind].
    rewrite copy_cursor; [cbn [obind]; by eexists|done|rewrite zlen_app; done|done]. }
  destruct He as [env ->]. cbn [obind]. eexists. by apply Data.data_frame_spec.
Qed.

Lemma encrypted_chunk_refused_witness : exists buf,
  DataPath.encode_data_frame_encrypted flat 0 0 tid h big false k (Some nonce) = Ok buf /\
  Data.decode_data_frame_header buf = Err (Malformed "data frame: chunk_len > max").
Proof.
  destruct encode_big as [buf He]. exists buf. split; [exact He|].
  apply (DataPath.encrypted_chunk_refused flat 0 0 tid h big k nonce buf).
  - vm_compute; split; [discriminate|reflexivity].
  - apply tid_ok.
  - apply h_ok.
  - reflexivity.
  - rewrite zlen_big. unfold Data.DATA_MAX_CHUNK_LEN, ENVELOPE_OVERHEAD, NONCE_LEN, TAG_LEN. lia.
  - exact He.
Defined.

Lemma envelope_bound_witness : exists buf,
  encrypt_chunk k (Some nonce) tid 0 1 [1; 2; 3] = Ok buf /\
  exists aad aad' c t, buf = nonce ++ c ++ t /\ seal (key k) nonce aad [1; 2; 3] = Some (c, t) /\
    aad' <> aad /\
    decrypt_chunk k tid 0 2 buf
    = ok_or (open_sealed (key k) nonce aad' (c ++ t)) AuthenticationFailed.
Proof.
  assert (exists buf, encrypt_chunk k (Some nonce) tid 0 1 [1; 2; 3] = Ok buf) as [buf He]
    by (eexists; vm_compute; reflexivity).
  exists buf. split; [exact He|].
  apply (envelope_bound k nonce tid 0 1 [1; 2; 3] buf tid 0 2); try done; by vm_compute.
Defined.

End DataPathExamples.
