(* ===== verification/Session.v ===== *)
(** Framed messages over a stream (crates/velcrux-core/src/session/mod.rs):
    [encode_message], [encode_message_compressed], [read_frame]. *)

From Stdlib Require Import QArith.
From stdpp Require Import strings.
From S2P Require Import Prelude Protocol Varint Wire MsgSession MsgTransfer MsgResume MsgManifest Message Frame Compression.
Open Scope Z_scope.

(** The receive half of a QUIC stream: the bytes still to come, and how the stream ends
    after them ([None]: FIN, [Some why]: a read error). *)
Record RecvStream := mk_stream { avail : bytes; reset : option string }.

Module Session.

(** [BiRecvStream::read_exact(n)]: [None] when the stream finishes before [n] bytes. *)
Definition read_exact (n : Z) (s : RecvStream) : outcome VelcruxError (option (bytes * RecvStream)) :=
  if n <=? zlen (avail s)
  then Ok (Some (take (Z.to_nat n) (avail s), mk_stream (drop (Z.to_nat n) (avail s)) (reset s)))
  else match reset s with None => Ok None | Some why => Err (ETransport why) end.

(** [BiRecvStream::read_chunk(1)], the one size the session layer asks for: the next byte. *)
Definition read_chunk1 (s : RecvStream) : outcome VelcruxError (option (bytes * RecvStream)) :=
  match avail s with
  | b :: rest => Ok (Some ([b], mk_stream rest (reset s)))
  | [] => match reset s with None => Ok None | Some why => Err (ETransport why) end
  end.

(** [while (buf[buf.len() - 1] & 0x80) != 0 { ... }]: every round adds one to [varint_len],
    which stops the loop above ten, so eleven rounds are enough from one. *)
Fixpoint read_varint_tail (fuel : nat) (buf : bytes) (varint_len : Z) (s : RecvStream)
    : outcome VelcruxError (option (bytes * Z * RecvStream)) :=
  match fuel with
  | O => Panic
  | S fuel' =>
      let? last := index buf (zlen buf - 1) in
      if Z.land last 0x80 =? 0 then Ok (Some (buf, varint_len, s)) else
      let? r := read_chunk1 s in
      match r with
      | None => Ok None
      | Some (next, s) =>
          let buf := buf ++ next in
          let varint_len := varint_len + 1 in
          if 10 <? varint_len then Err (EProtocol VarintOverflow)
          else read_varint_tail fuel' buf varint_len s
      end
  end.

Section session.
Context `{Zstd}.
Variable entropy_sum : list Z -> Z -> Q.

Definition frame_message (type_byte flags request_id : Z) (payload : bytes)
    : outcome VelcruxError bytes :=
  let length := zlen payload in
  let total := Frame.header_size_for length + zlen payload in
  let out := zeros (Z.to_nat total) in
  let? '(out, n) := map_err EProtocol (Frame.encode_frame out type_byte flags request_id payload) in
  Ok out.

Definition encode_message_compressed (msg : Message.t) (request_id : Z)
    (enable_compression : bool) : outcome VelcruxError bytes :=
  let? '(type_byte, payload) := map_err EProtocol (Message.encode msg) in
  let? c := if enable_compression
            then Compression.compress_if_beneficial entropy_sum payload
                   Compression.DEFAULT_MIN_SAVINGS
            else Ok None in
  match c with
  | Some compressed => frame_message type_byte Frame.COMPRESSED request_id compressed
  | None => frame_message type_byte Frame.NONE request_id payload
  end.

Definition encode_message (msg : Message.t) (request_id : Z) : outcome VelcruxError bytes :=
  encode_message_compressed msg request_id false.

(** The end of [read_frame]: decode the assembled frame, decompress its payload. *)
Definition finish_frame (buf : bytes) (recv : RecvStream)
    : outcome VelcruxError (option (Frame.t * RecvStream)) :=
  let? frame := map_err EProtocol (Frame.decode_frame buf) in
  let? payload_bytes :=
    if Frame.compressed (Frame.flags frame) then
      map_err EProtocol (Compression.decompress_payload_bounded (Frame.payload frame)
                           Limits.MAX_BATCH_DECOMPRESSED_BYTES (Some 500))
    else Ok (Frame.payload frame) in
  Ok (Some (Frame.mk (Frame.version frame) (Frame.type_byte frame) (Frame.flags frame)
              (zlen payload_bytes) (Frame.request_id frame) payload_bytes, recv)).

Definition read_frame (recv : RecvStream)
    : outcome VelcruxError (option (Frame.t * RecvStream)) :=
  let? r := read_exact 5 recv in
  match r with None => Ok None | Some (buf, recv) =>
  let? r := read_varint_tail 11 buf 1 recv in
  match r with None => Ok None | Some (buf, varint_len, recv) =>
  let? rest := slice_from buf 4 in
  let? '(declared_length, _) := map_err EProtocol (Varint.decode_varint rest) in
  let? r := read_exact 8 recv in
  match r with None => Ok None | Some (rid, recv) =>
  let buf := buf ++ rid in
  let max := Frame.max_message_size in
  if max <? declared_length then Err (EProtocol (FrameTooLarge declared_length max)) else
  let payload_len := declared_length in
  let? r := if payload_len =? 0 then Ok (Some ([], recv)) else read_exact payload_len recv in
  match r with None => Ok None | Some (payload, recv) =>
  let buf := buf ++ payload in
  finish_frame buf recv
  end end end end.

Lemma frame_message_bytes ty fl rid p : fits 64 (zlen p) ->
  frame_message ty fl rid p = Ok (Frame.frame_bytes ty fl rid p).
Proof.
  intros Hf. unfold frame_message. pose proof (zlen_nonneg p).
  pose proof (Varint.varint_len_bounds (zlen p)).
  assert (Hh : 0 <= Frame.header_size_for (zlen p)) by (unfold Frame.header_size_for; lia).
  rewrite Frame.encode_frame_spec by (done || (rewrite zlen_zeros; lia)). cbn.
  rewrite drop_ge, app_nil_r; [done|].
  pose proof (zlen_zeros (Z.to_nat (Frame.header_size_for (zlen p) + zlen p))). unfold zlen in *. lia.
Qed.

Lemma read_exact_app n a b r : n = zlen a ->
  read_exact n (mk_stream (a ++ b) r) = Ok (Some (a, mk_stream b r)).
Proof.
  intros ->. unfold read_exact. cbn. rewrite zlen_app. pose proof (zlen_nonneg b).
  rewrite (proj2 (Z.leb_le _ _)) by lia. unfold zlen. by rewrite Nat2Z.id, take_app_length, drop_app_length.
Qed.

Lemma read_exact_short n a : zlen a < n -> read_exact n (mk_stream a None) = Ok None.
Proof. intros Hn. unfold read_exact. cbn. by rewrite (proj2 (Z.leb_gt _ _)) by lia. Qed.

(** Reading the continuation of a varint of which [b] has been read. *)
Lemma read_tail_ok fuel hd b tl pre last n post r :
  b :: tl = pre ++ [last] -> Forall (fun x => 128 <= x < 256) pre -> 0 <= last < 128 ->
  n + zlen tl <= 10 -> (length tl < fuel)%nat ->
  read_varint_tail fuel (hd ++ [b]) n (mk_stream (tl ++ post) r)
  = Ok (Some (hd ++ b :: tl, n + zlen tl, mk_stream post r)).
Proof.
  revert hd b tl pre n. induction fuel as [|fuel IH]; intros hd b tl pre n Heq Hpre Hlast Hn Hfuel; [lia|].
  cbn [read_varint_tail]. rewrite (index_last hd b). cbn [obind].
  destruct pre as [|c pre]; cbn [app] in Heq; injection Heq as -> ->.
  - rewrite byte_land_128 by (unfold fits; lia). rewrite (proj2 (Z.ltb_lt _ _)) by lia.
    cbn [app]. by rewrite Z.add_0_r.
  - apply Forall_cons in Hpre as [Hc Hpre].
    rewrite byte_land_128 by (unfold fits; lia). rewrite (proj2 (Z.ltb_ge _ _)) by lia.
    unfold read_chunk1. destruct (pre ++ [last]) as [|d tl] eqn:Ht; [by destruct pre|].
    cbn [avail app obind]. rewrite zlen_cons in Hn. pose proof (zlen_nonneg tl).
    rewrite (proj2 (Z.ltb_ge _ _)) by lia.
    rewrite (IH _ d tl pre); [|by rewrite Ht|done|done|lia|simpl in Hfuel; lia].
    rewrite <- app_assoc, zlen_cons. cbn [app]. do 4 f_equal. lia.
Qed.

(** A frame's wire image cut where [read_frame] reads: five bytes, the rest of the varint,
    the request id, the payload. *)
Lemma frame_cut ty fl rid p : fits 64 (zlen p) -> exists hd b tl pre last,
  Frame.frame_bytes ty fl rid p = (hd ++ [b]) ++ tl ++ to_le 8 rid ++ p /\
  zlen hd = 4 /\ Varint.varint_bytes (zlen p) = b :: tl /\
  b :: tl = pre ++ [last] /\ Forall (fun x => 128 <= x < 256) pre /\ 0 <= last < 128 /\
  zlen tl <= 9.
Proof.
  intros Hf. destruct (Varint.varint_shape (zlen p) Hf) as (pre & last & Hv & Hpre & Hlast).
  pose proof (Varint.zlen_varint_bytes (zlen p) Hf) as Hl.
  pose proof (Varint.varint_len_bounds (zlen p)).
  destruct (Varint.varint_bytes (zlen p)) as [|b tl] eqn:Hvb; [by destruct pre|].
  rewrite zlen_cons in Hl.
  exists (push Limits.PROTOCOL_VERSION ++ push ty ++ to_le 2 fl), b, tl, pre, last.
  split; [unfold Frame.frame_bytes; by rewrite Hvb, <- !app_assoc|].
  split; [autorewrite with len; lia|]. do 4 (split; [done|]). lia.
Qed.

(** What the session layer makes of a decoded frame. *)
Definition deliver (ty fl rid : Z) (p : bytes) (recv : RecvStream)
    : outcome VelcruxError (option (Frame.t * RecvStream)) :=
  let? pb := if Frame.compressed fl then
               map_err EProtocol (Compression.decompress_payload_bounded p
                                    Limits.MAX_BATCH_DECOMPRESSED_BYTES (Some 500))
             else Ok p in
  Ok (Some (Frame.mk Limits.PROTOCOL_VERSION ty fl (zlen pb) rid pb, recv)).

Lemma read_frame_bytes ty fl rid p rest r :
  fits 8 ty -> fits 16 fl -> fits 64 rid -> zlen p <= Limits.MAX_MESSAGE_SIZE ->
  read_frame (mk_stream (Frame.frame_bytes ty fl rid p ++ rest) r)
  = deliver ty fl rid p (mk_stream rest r).
Proof.
  intros Hty Hfl Hrid Hp. pose proof (zlen_nonneg p).
  assert (Hf : fits 64 (zlen p)) by (unfold Limits.MAX_MESSAGE_SIZE, fits in *; lia).
  pose proof (Frame.decode_frame_bytes ty fl rid p [] Hty Hfl Hrid Hp) as Hdec.
  rewrite app_nil_r in Hdec.
  destruct (frame_cut ty fl rid p Hf) as (hd & b & tl & pre & last & Hcut & Hhd & Hvb & Hshape & Hpre & Hlast & Htl).
  rewrite Hcut in Hdec |- *. rewrite <- !app_assoc. rewrite (app_assoc hd). unfold read_frame.
  rewrite read_exact_app by (rewrite zlen_app, Hhd; done). cbn [obind].
  rewrite (read_tail_ok _ _ _ _ pre last) by (done || (unfold zlen in *; lia)). cbn [obind].
  rewrite slice_from_skip, slice_from_0 by lia. cbn [obind].
  rewrite <- Hvb, <- (app_nil_r (Varint.varint_bytes _)), Varint.decode_varint_bytes by done.
  cbn [map_err obind]. rewrite read_exact_app by (by rewrite zlen_to_le). cbn [obind].
  unfold Frame.max_message_size. rewrite (proj2 (Z.ltb_ge _ _)) by lia.
  assert (Hpay : (if zlen p =? 0 then Ok (Some ([], mk_stream (p ++ rest) r))
                  else read_exact (zlen p) (mk_stream (p ++ rest) r))
                 = Ok (Some (p, mk_stream rest r))).
  { destruct (Z.eqb_spec (zlen p) 0) as [Hz|_]; [|by apply read_exact_app].
    destruct p; [done|]. rewrite zlen_cons in Hz. pose proof (zlen_nonneg p). lia. }
  rewrite Hpay. cbn [obind]. rewrite Hvb, app_nil_r.
  replace (((hd ++ b :: tl) ++ to_le 8 rid) ++ p) with ((hd ++ [b]) ++ tl ++ to_le 8 rid ++ p)
    by by rewrite <- !app_assoc.
  unfold finish_frame. rewrite Hdec. done.
Qed.

(** A stream that finishes inside the varint. *)
Lemma read_tail_short fuel hd b t1 t2 pre last n :
  b :: t1 ++ t2 = pre ++ [last] -> t2 <> [] -> Forall (fun x => 128 <= x < 256) pre ->
  n + zlen t1 <= 10 -> (length t1 < fuel)%nat ->
  read_varint_tail fuel (hd ++ [b]) n (mk_stream t1 None) = Ok None.
Proof.
  revert hd b t1 pre n. induction fuel as [|fuel IH]; intros hd b t1 pre n Heq Hne Hpre Hn Hfuel; [lia|].
  cbn [read_varint_tail]. rewrite (index_last hd b). cbn [obind].
  destruct pre as [|c pre]; cbn [app] in Heq.
  { injection Heq as -> Heq. by apply app_eq_nil in Heq as [_ ->]. }
  injection Heq as -> Heq. apply Forall_cons in Hpre as [Hc Hpre].
  rewrite byte_land_128 by (unfold fits; lia). rewrite (proj2 (Z.ltb_ge _ _)) by lia.
  unfold read_chunk1. destruct t1 as [|d t1]; [done|]. cbn [avail app obind reset].
  rewrite zlen_cons in Hn. pose proof (zlen_nonneg t1). rewrite (proj2 (Z.ltb_ge _ _)) by lia.
  apply (IH _ d t1 pre); [done|done|done|lia|simpl in Hfuel; lia].
Qed.

(** [read_frame] past the header: what is left is request id and payload. *)
Lemma read_frame_short hd b tl pre last R P l r :
  zlen hd = 4 -> zlen tl <= 9 -> b :: tl = pre ++ [last] ->
  Forall (fun x => 128 <= x < 256) pre -> 0 <= last < 128 -> fits 64 (zlen P) ->
  zlen P <= Limits.MAX_MESSAGE_SIZE -> zlen R = 8 -> Varint.varint_bytes (zlen P) = b :: tl ->
  R ++ P = l ++ r -> r <> [] ->
  read_frame (mk_stream ((hd ++ [b]) ++ tl ++ l) None) = Ok None.
Proof.
  intros Hhd Htl Hshape Hpre Hlast Hf HP HR Hvb Hlr Hne. unfold read_frame.
  assert (0 < zlen r) by (destruct r; [done|rewrite zlen_cons; pose proof (zlen_nonneg r); lia]).
  rewrite read_exact_app by (rewrite zlen_app, Hhd; done). cbn [obind].
  rewrite (read_tail_ok _ _ _ _ pre last) by (done || (unfold zlen in *; lia)). cbn [obind].
  rewrite slice_from_skip, slice_from_0 by lia. cbn [obind].
  rewrite <- Hvb, <- (app_nil_r (Varint.varint_bytes _)), Varint.decode_varint_bytes by done.
  cbn [map_err obind].
  apply (app_eq_inv R P l r) in Hlr as [(k & -> & ->)|(k & -> & ->)].
  - destruct (decide (k = [])) as [->|Hk].
    + rewrite app_nil_r in HR.
      rewrite <- (app_nil_r l), read_exact_app by lia. cbn [obind].
      unfold Frame.max_message_size. rewrite (proj2 (Z.ltb_ge _ _)) by lia.
      cbn [app] in *. rewrite (proj2 (Z.eqb_neq _ _)) by lia. by rewrite read_exact_short.
    + rewrite zlen_app in HR. assert (0 < zlen k) by (destruct k; [done|rewrite zlen_cons; pose proof (zlen_nonneg k); lia]).
      by rewrite read_exact_short by lia.
  - rewrite read_exact_app by lia. cbn [obind]. pose proof (zlen_nonneg k). rewrite zlen_app in *.
    unfold Frame.max_message_size. rewrite (proj2 (Z.ltb_ge _ _)) by lia.
    rewrite (proj2 (Z.eqb_neq _ _)) by lia. by rewrite read_exact_short by lia.
Qed.

(** A stream that finishes inside a frame reads as end of stream. *)
Lemma read_frame_prefix ty fl rid p l r : zlen p <= Limits.MAX_MESSAGE_SIZE ->
  Frame.frame_bytes ty fl rid p = l ++ r -> r <> [] -> read_frame (mk_stream l None) = Ok None.
Proof.
  intros Hp Hlr Hne. pose proof (zlen_nonneg p).
  assert (Hf : fits 64 (zlen p)) by (unfold Limits.MAX_MESSAGE_SIZE, fits in *; lia).
  destruct (frame_cut ty fl rid p Hf) as (hd & b & tl & pre & last & Hcut & Hhd & Hvb & Hshape & Hpre & Hlast & Htl).
  rewrite Hcut in Hlr. apply app_eq_inv in Hlr as [(k & Hk & ->)|(k & -> & Hlr)].
  { destruct (decide (k = [])) as [->|Hnk].
    - rewrite app_nil_r in Hk. subst l. replace (hd ++ [b]) with ((hd ++ [b]) ++ []) by apply app_nil_r.
      unfold read_frame. rewrite read_exact_app by (rewrite zlen_app, Hhd; done). cbn [obind].
      destruct tl as [|t tl].
      + rewrite <- (app_nil_r []). rewrite (read_tail_ok _ _ _ _ pre last) by (done || (cbn; lia)).
        cbn [obind]. rewrite slice_from_skip, slice_from_0 by lia. cbn [obind].
        rewrite <- Hvb, <- (app_nil_r (Varint.varint_bytes _)), Varint.decode_varint_bytes by done.
        cbn [map_err obind]. by rewrite read_exact_short.
      + by rewrite (read_tail_short _ _ _ [] (t :: tl) pre last) by (done || (cbn; lia)).
    - unfold read_frame. rewrite read_exact_short; [done|].
      assert (Hz : zlen (hd ++ [b]) = zlen l + zlen k) by by rewrite Hk, zlen_app.
      rewrite zlen_app, Hhd in Hz. change (zlen [b]) with 1 in Hz.
      destruct k; [done|]. rewrite zlen_cons in Hz. pose proof (zlen_nonneg k). lia. }
  apply app_eq_inv in Hlr as [(t2 & -> & ->)|(l2 & -> & Hlr)].
  - destruct (decide (t2 = [])) as [->|Ht2].
    + rewrite app_nil_r in *. rewrite <- (app_nil_r k).
      apply (read_frame_short _ _ _ pre last (to_le 8 rid) p [] (to_le 8 rid ++ p)); try done.
    + rewrite zlen_app in Htl. pose proof (zlen_nonneg t2).
      unfold read_frame. rewrite read_exact_app by (rewrite zlen_app, Hhd; done). cbn [obind].
      by rewrite (read_tail_short _ _ _ k t2 pre last) by (done || (unfold zlen in *; lia)).
  - by apply (read_frame_short _ _ _ pre last (to_le 8 rid) p l2 r).
Qed.

(** ** Safety on an arbitrary stream *)

Definition stream_ok (s : RecvStream) : Prop := is_bytes (avail s).

Lemma wp_read_exact n s (Q : option (bytes * RecvStream) -> Prop) : stream_ok s -> 0 <= n ->
  Q None -> (forall b s', is_bytes b -> zlen b = n -> stream_ok s' -> Q (Some (b, s'))) ->
  wp (read_exact n s) Q.
Proof.
  intros Hs Hn HN HQ. unfold read_exact. apply wp_if; intros Hc; [|destruct (reset s); done].
  apply HQ.
  - by apply Forall_take.
  - rewrite zlen_take. lia.
  - by apply Forall_drop.
Qed.

Lemma wp_read_tail fuel buf n s (Q : option (bytes * Z * RecvStream) -> Prop) :
  stream_ok s -> is_bytes buf -> 1 <= zlen buf -> 10 < n + Z.of_nat fuel ->  n <= 10 ->
  Q None ->
  (forall buf' n' s', is_bytes buf' -> zlen buf <= zlen buf' <= zlen buf + (10 - n) -> stream_ok s' ->
     Q (Some (buf', n', s'))) ->
  wp (read_varint_tail fuel buf n s) Q.
Proof.
  revert buf n s Q. induction fuel as [|fuel IH]; intros buf n s Q Hs Hb Hl Hf Hn HN HQ; [lia|].
  cbn [read_varint_tail]. apply wp_bind, wp_index_byte; [done|lia|]. intros b _.
  apply wp_if; intros _. { apply wp_ok, HQ; [done|lia|done]. }
  apply wp_bind. unfold read_chunk1. destruct s as [[|c rest] r]; cbn [avail reset].
  { by destruct r. }
  apply Forall_cons in Hs as [Hc Hrest]. cbn [wp]. apply wp_if; [done|intros Hn1].
  assert (Hz : zlen (buf ++ [c]) = zlen buf + 1) by by rewrite zlen_app.
  apply IH; [done|by apply is_bytes_app; [|repeat constructor; apply Hc]|lia|lia|lia|done|].
  intros buf' n' s' Hb' Hl' Hs'. apply HQ; [done|lia|done].
Qed.

(** What a delivered frame satisfies. *)
Definition delivered (r : option (Frame.t * RecvStream)) : Prop :=
  match r with
  | None => True
  | Some (f, s') =>
      Frame.version f = Limits.PROTOCOL_VERSION /\ fits 8 (Frame.type_byte f) /\
      Frame.length f = zlen (Frame.payload f) /\
      Frame.length f <= Limits.MAX_BATCH_DECOMPRESSED_BYTES /\ stream_ok s'
  end.

Lemma finish_frame_safe buf s : is_buf buf -> stream_ok s -> wp (finish_frame buf s) delivered.
Proof.
  intros Hb Hs. unfold finish_frame. eapply wp_bind_mono.
  { by apply wp_map_err, Frame.decode_frame_safe. }
  intros f (Hv & Hty & _ & _ & Hlf & Hpl & _). apply wp_bind. apply wp_if; intros Hc.
  - apply wp_map_err. eapply wp_mono; [by apply Compression.decompress_bounded|].
    intros pb [Hpb _]. exact (conj Hv (conj Hty (conj eq_refl (conj Hpb Hs)))).
  - cbn. do 3 (split; [done|]). split; [|done].
    unfold Limits.MAX_BATCH_DECOMPRESSED_BYTES, Limits.MAX_MESSAGE_SIZE in *. lia.
Qed.

(** Whatever arrives, [read_frame] returns without panicking. *)
Lemma read_frame_wp s : stream_ok s -> wp (read_frame s) delivered.
Proof.
  intros Hs. unfold read_frame. apply wp_bind, wp_read_exact; [done|lia|done|]. intros b1 s1 Hb1 Hl1 Hs1.
  apply wp_bind, wp_read_tail; [done|done|lia|lia|lia|done|]. intros b2 n2 s2 Hb2 Hl2 Hs2.
  apply wp_bind, wp_slice_from; [lia|]. intros rest _ Hrest HP.
  apply wp_bind, wp_map_err, Varint.wp_decode_varint; [by apply HP|]. intros len n [Hlo Hhi] _ _ _.
  apply wp_bind, wp_read_exact; [done|lia|done|]. intros rid s3 Hrid Hl3 Hs3.
  apply wp_if; [done|intros Hmax]. apply wp_bind.
  unfold Frame.max_message_size, Limits.MAX_MESSAGE_SIZE in *.
  assert (Hfin : forall p s4, is_bytes p -> zlen p <= len -> stream_ok s4 ->
    wp (finish_frame ((b2 ++ rid) ++ p) s4) delivered).
  { intros p s4 Hp Hlp Hs4. apply finish_frame_safe; [|done].
    split; [auto with is_bytes|]. rewrite !zlen_app. lia. }
  apply wp_if; intros Hz.
  - apply wp_ok, Hfin; [apply is_bytes_nil|done|done].
  - apply wp_read_exact; [done|lia|done|]. intros p s4 Hp Hlp Hs4. apply Hfin; [done|lia|done].
Qed.

(** ** Messages over the stream *)

Lemma encode_message_inv msg rid en b : encode_message_compressed msg rid en = Ok b ->
  Message.ok msg -> exists ty p body fl,
    Message.encode msg = Ok (ty, p) /\ is_bytes p /\
    (body = p /\ fl = Frame.NONE \/
     en = true /\ fl = Frame.COMPRESSED /\ zlen body + Compression.DEFAULT_MIN_SAVINGS <= zlen p /\
     encode_all p Compression.DEFAULT_ZSTD_LEVEL = Some body) /\
    (fits 64 (zlen p) -> b = Frame.frame_bytes ty fl rid body).
Proof.
  intros He Hok. unfold encode_message_compressed in He.
  pose proof (Message.encode_safe msg Hok) as Hs.
  destruct (Message.encode msg) as [[ty p]| |] eqn:Hm; [|done|done]. destruct Hs as [_ Hp]. cbn in Hp.
  cbn [map_err obind] in He. apply obind_ok_inv in He as (c & Hc & He).
  exists ty, p. destruct c as [z|].
  - destruct en; [|done]. apply Compression.compress_if_beneficial_inv in Hc as (_ & Hz & Hsv).
    exists z, Frame.COMPRESSED. split; [done|]. split; [done|]. split; [by right|]. intros [Hf1 Hf2].
    pose proof (zlen_nonneg z). unfold Compression.DEFAULT_MIN_SAVINGS in Hsv.
    rewrite frame_message_bytes in He by (split; lia). by injection He.
  - exists p, Frame.NONE. split; [done|]. split; [done|]. split; [by left|]. intros Hf.
    rewrite frame_message_bytes in He by done. by injection He.
Qed.

(** Encoding a message that has an encoding: the frame it becomes. *)
Lemma encode_message_total msg rid en ty p : Message.ok msg -> Message.encode msg = Ok (ty, p) ->
  fits 64 (zlen p) -> exists body fl,
    encode_message_compressed msg rid en = Ok (Frame.frame_bytes ty fl rid body) /\
    zlen body <= zlen p /\
    (body = p /\ fl = Frame.NONE \/
     en = true /\ fl = Frame.COMPRESSED /\
     encode_all p Compression.DEFAULT_ZSTD_LEVEL = Some body).
Proof.
  intros Hok Hm Hf. pose proof (Message.encode_safe msg Hok) as Hs. rewrite Hm in Hs.
  destruct Hs as [_ Hb]. cbn in Hb.
  assert (He : exists b, encode_message_compressed msg rid en = Ok b).
  { unfold encode_message_compressed. rewrite Hm. cbn [map_err obind].
    assert (Hc : exists c, (if en then Compression.compress_if_beneficial entropy_sum p
                              Compression.DEFAULT_MIN_SAVINGS else Ok None) = @Ok VelcruxError _ c).
    { destruct en; [by apply Compression.compress_if_beneficial_total|by eexists]. }
    destruct Hc as [c Hc]. rewrite Hc. cbn [obind].
    destruct c as [z|]; [|rewrite frame_message_bytes by done; by eexists].
    destruct en; [|done]. apply Compression.compress_if_beneficial_inv in Hc as (_ & _ & Hz).
    pose proof (zlen_nonneg z). unfold Compression.DEFAULT_MIN_SAVINGS, fits in *.
    rewrite frame_message_bytes by (unfold fits; lia). by eexists. }
  destruct He as [b He]. destruct (encode_message_inv _ _ _ _ He Hok)
    as (ty' & p' & body & fl & Hm' & _ & Hcase & Hbytes).
  rewrite Hm in Hm'. injection Hm' as <- <-. exists body, fl. rewrite He, (Hbytes Hf).
  split; [done|]. unfold Compression.DEFAULT_MIN_SAVINGS in Hcase. split; naive_solver lia.
Qed.

(** C1. A message that goes out over a stream comes back. Take a well-formed message whose payload has at most
    1 MiB and, where it is sent compressed, is within the limits of the receiver's decompression: at most 64
    KiB, or 500 times the compressed size. Then [encode_message_compressed] succeeds, [read_frame] on its bytes
    (whatever follows them, however the stream ends) delivers exactly one frame with the request id, leaves the
    rest of the stream untouched, and the frame's payload decodes to the message; a PONG decodes to the PING
    with its payload, as the two share a type byte. Beyond the limits the writer still writes and the reader
    refuses ([read_frame_bomb]). *)
Theorem session_message_roundtrip `{!Compression.ZstdLaws} msg rid en ty p rest r :
  Message.ok msg -> fits 64 rid -> Message.encode msg = Ok (ty, p) ->
  zlen p <= Limits.MAX_MESSAGE_SIZE ->
  (forall z, en = true -> encode_all p Compression.DEFAULT_ZSTD_LEVEL = Some z ->
     Compression.within (zlen z) Limits.MAX_BATCH_DECOMPRESSED_BYTES (Some 500) (zlen p)) ->
  exists b f, encode_message_compressed msg rid en = Ok b /\
    read_frame (mk_stream (b ++ rest) r) = Ok (Some (f, mk_stream rest r)) /\
    Frame.request_id f = rid /\
    Message.decode (Frame.type_byte f) (Frame.payload f) = Ok (Message.on_wire msg).
Proof.
  intros Hok Hrid Hm Hp Hw. pose proof (zlen_nonneg p). unfold Limits.MAX_MESSAGE_SIZE in *.
  destruct (encode_message_total msg rid en ty p Hok Hm ltac:(unfold fits; lia))
    as (body & fl & He & Hlen & Hcase).
  destruct (Message.encode_decode msg ty p Hok Hm ltac:(lia)) as [Hty Hdec].
  assert (Hty8 : fits 8 ty) by (subst ty; by destruct msg).
  assert (Hfl : fits 16 fl) by (destruct Hcase as [[_ ->]|(_ & -> & _)]; done).
  exists (Frame.frame_bytes ty fl rid body). rewrite He.
  rewrite read_frame_bytes by (done || (unfold Limits.MAX_MESSAGE_SIZE; lia)). unfold deliver.
  destruct Hcase as [[-> ->]|(-> & -> & Hz)]; cbn [Frame.compressed Frame.NONE].
  - eexists. split; [done|]. split; [reflexivity|]. by split.
  - assert (Hdec' : Compression.decompress_payload_bounded body
                      Limits.MAX_BATCH_DECOMPRESSED_BYTES (Some 500) = Ok p)
      by (apply (Compression.decompress_data p Compression.DEFAULT_ZSTD_LEVEL); auto; done).
    change (Frame.compressed Frame.COMPRESSED) with true. cbv iota.
    rewrite Hdec'. eexists. split; [done|]. split; [reflexivity|]. by split.
Qed.

(** C25. Whatever bytes arrive and however the stream ends, [read_frame] returns without a panic,
    and a frame it delivers has the protocol's version, a payload of the announced length that
    is at most [MAX_BATCH_DECOMPRESSED_BYTES], and leaves a stream of bytes. *)
Theorem read_frame_safe s : is_bytes (avail s) ->
  wp (read_frame s) (fun r => match r with
    | None => True
    | Some (f, s') =>
        Frame.version f = Limits.PROTOCOL_VERSION /\ fits 8 (Frame.type_byte f) /\
        Frame.length f = zlen (Frame.payload f) /\
        Frame.length f <= Limits.MAX_BATCH_DECOMPRESSED_BYTES /\ is_bytes (avail s')
    end).
Proof. intros Hs. by apply read_frame_wp. Qed.

(** C39. A frame whose compressed payload expands beyond [MAX_BATCH_DECOMPRESSED_BYTES] or beyond
    five hundred times its size (past 64 KiB) is refused with [DecompressionBomb]. *)
Theorem read_frame_bomb `{!Compression.ZstdLaws} ty rid data level c rest r :
  fits 8 ty -> fits 64 rid -> encode_all data level = Some c -> zlen c <= Limits.MAX_MESSAGE_SIZE ->
  ~ Compression.within (zlen c) Limits.MAX_BATCH_DECOMPRESSED_BYTES (Some 500) (zlen data) ->
  exists why, read_frame (mk_stream (Frame.frame_bytes ty Frame.COMPRESSED rid c ++ rest) r)
              = Err (EProtocol (DecompressionBomb why)).
Proof.
  intros Hty Hrid Hc Hl Hw. rewrite read_frame_bytes by done. unfold deliver.
  destruct (Compression.decompress_refused data level c Limits.MAX_BATCH_DECOMPRESSED_BYTES 500)
    as [why Hb]; [done|done|done|]. exists why. change (Frame.compressed Frame.COMPRESSED) with true.
  cbv iota. by rewrite Hb.
Qed.

(** A stream that finishes anywhere inside a frame reads as a clean end of stream: the
    receiver cannot tell truncation from EOF. *)
Theorem read_frame_truncated ty fl rid p l r : zlen p <= Limits.MAX_MESSAGE_SIZE ->
  Frame.frame_bytes ty fl rid p = l ++ r -> r <> [] -> read_frame (mk_stream l None) = Ok None.
Proof. apply read_frame_prefix. Qed.

End session.
End Session.

(** ** The theorems at concrete messages *)
Module SessionExamples.

Definition flat (_ : list Z) (_ : Z) : Q := 0%Q.
Definition ping : Message.t := Message.MPing (Ping.mk 7 123456).
(** A query whose payload ends in zeros, which the codec of the example trims. *)
Definition query : Message.t :=
  Message.MChunkQuery (ChunkQuery.mk (replicate 16 0) 3 (replicate 8 (replicate 32 0))).

Lemma session_message_roundtrip_witness :
  (exists b f, Session.encode_message_compressed flat ping 9 false = Ok b /\
     Session.read_frame (mk_stream (b ++ [1; 2]) None) = Ok (Some (f, mk_stream [1; 2] None)) /\
     Frame.request_id f = 9 /\
     Message.decode (Frame.type_byte f) (Frame.payload f) = Ok ping) /\
  (exists b f, Session.encode_message_compressed flat query 9 true = Ok b /\
     Session.read_frame (mk_stream (b ++ []) None) = Ok (Some (f, mk_stream [] None)) /\
     Frame.request_id f = 9 /\
     Message.decode (Frame.type_byte f) (Frame.payload f) = Ok query).
Proof.
  split.
  - eapply (Session.session_message_roundtrip flat ping 9 false _ _ [1; 2] None).
    + by vm_compute.
    + by vm_compute.
    + vm_compute. reflexivity.
    + vm_compute. discriminate.
    + done.
  - eapply (Session.session_message_roundtrip flat query 9 true _ _ [] None).
    + vm_compute. repeat split; repeat constructor; try discriminate.
    + by vm_compute.
    + vm_compute. reflexivity.
    + vm_compute. discriminate.
    + intros z _ _. split; [vm_compute; discriminate|]. left. vm_compute. discriminate.
Defined.

Lemma read_frame_safe_witness :
  wp (Session.read_frame (mk_stream [1; 5; 0; 0; 255; 255] (Some "reset"%string)))
    (fun r => match r with
      | None => True
      | Some (f, s') =>
          Frame.version f = Limits.PROTOCOL_VERSION /\ fits 8 (Frame.type_byte f) /\
          Frame.length f = zlen (Frame.payload f) /\
          Frame.length f <= Limits.MAX_BATCH_DECOMPRESSED_BYTES /\ is_bytes (avail s')
      end).
Proof.
  apply (Session.read_frame_safe (mk_stream [1; 5; 0; 0; 255; 255] (Some "reset"%string))).
  repeat constructor; lia.
Defined.

(** Seventy thousand zeros in an eight-byte stream. *)
Lemma read_frame_bomb_witness :
  exists why, Session.read_frame
    (mk_stream (Frame.frame_bytes 5 Frame.COMPRESSED 1 (to_le 8 70000) ++ [9]) None)
  = Err (EProtocol (DecompressionBomb why)).
Proof.
  apply (Session.read_frame_bomb 5 1 (replicate (Z.to_nat 70000) 0) 3 (to_le 8 70000)).
  - by vm_compute.
  - by vm_compute.
  - apply TrimCodec.trim_zeros; lia.
  - vm_compute. discriminate.
  - unfold Compression.within. rewrite zlen_replicate, Z2Nat.id, zlen_to_le by lia. lia.
Defined.

Lemma read_frame_truncated_witness :
  Session.read_frame (mk_stream (take 10 (Frame.frame_bytes 5 0 9 [1; 2; 3])) None) = Ok None.
Proof.
  apply (Session.read_frame_truncated 5 0 9 [1; 2; 3] _ (drop 10 (Frame.frame_bytes 5 0 9 [1; 2; 3]))).
  - vm_compute. discriminate.
  - symmetry. apply take_drop.
  - vm_compute. discriminate.
Defined.

End SessionExamples.
