(* ===== verification/ChunkEngine.v ===== *)
(** The streaming chunk engine (crates/velcrux-core/src/chunking/mod.rs: [create_chunker],
    [is_all_zeros], [ChunkEngine::chunk_reader], [ReuseStats::compute]; chunk descriptors
    of manifest/entry.rs). *)

From S2P Require Import Prelude Protocol Wire Chunking.

(** ** Chunk descriptors *)
Definition CHUNK_FLAG_HOLE : Z := 0x01.
Definition chunk_is_hole (flags : Z) : bool := negb (Z.land flags CHUNK_FLAG_HOLE =? 0).

Module ChunkDesc.

Record t := mk { flags : Z; length : Z; hash : option Hash }.

Definition new (length : Z) (hash : Hash) : t := mk 0 length (Some hash).
Definition hole (length : Z) : t := mk CHUNK_FLAG_HOLE length None.

End ChunkDesc.

(** ** The boxed chunker *)
Inductive ChunkMode := Cdc | Fixed | FastCdc.

(** [Box<dyn Chunker + Send>]. *)
Inductive AnyChunker :=
  | AnyFixed (c : FixedChunker.t)
  | AnyRolling (c : RollingChunker.t)
  | AnyFast (c : FastCdcChunker.t).

Definition create_chunker (mode : ChunkMode) (params : ChunkParams.t) : AnyChunker :=
  match mode with
  | Fixed => AnyFixed (FixedChunker.new params)
  | Cdc => AnyRolling (RollingChunker.new params)
  | FastCdc => AnyFast (FastCdcChunker.new params)
  end.

Definition any_push (s : AnyChunker) (buf : bytes) : presult (AnyChunker * list ChunkBoundary) :=
  match s with
  | AnyFixed c => let? '(c, o) := ck_push c buf in Ok (AnyFixed c, o)
  | AnyRolling c => let? '(c, o) := ck_push c buf in Ok (AnyRolling c, o)
  | AnyFast c => let? '(c, o) := ck_push c buf in Ok (AnyFast c, o)
  end.

Definition any_finish (s : AnyChunker) : presult (AnyChunker * option ChunkBoundary) :=
  match s with
  | AnyFixed c => let? '(c, o) := ck_finish c in Ok (AnyFixed c, o)
  | AnyRolling c => let? '(c, o) := ck_finish c in Ok (AnyRolling c, o)
  | AnyFast c => let? '(c, o) := ck_finish c in Ok (AnyFast c, o)
  end.

#[global] Instance any_chunker : Chunker AnyChunker := {|
  ck_push := any_push; ck_finish := any_finish;
  ck_is_finished s := match s with
    | AnyFixed c => ck_is_finished c | AnyRolling c => ck_is_finished c
    | AnyFast c => ck_is_finished c end;
  ck_offset s := match s with
    | AnyFixed c => ck_offset c | AnyRolling c => ck_offset c | AnyFast c => ck_offset c end |}.

(** The cut condition of each mode. *)
Definition cut_of (mode : ChunkMode) (p : ChunkParams.t) : bytes -> bool :=
  match mode with
  | Fixed => FixedChunker.cut p
  | Cdc => RollingChunker.cut p
  | FastCdc => FastCdcChunker.cut p
  end.

Definition any_repr (mode : ChunkMode) (p : ChunkParams.t) (s : AnyChunker) (base : Z)
    (cur : bytes) : Prop :=
  0 < ChunkParams.target p /\ 0 <= ChunkParams.min p /\
  match mode, s with
  | Fixed, AnyFixed c => FixedChunker.repr p c base cur
  | Cdc, AnyRolling c => RollingChunker.repr p c base cur
  | FastCdc, AnyFast c => FastCdcChunker.repr p c base cur
  | _, _ => False
  end.

(** The three implementations behind the box, through their interface. *)
#[global] Program Instance any_spec mode p : ChunkerSpec AnyChunker (cut_of mode p) :=
  {| ck_repr := any_repr mode p |}.
Next Obligation.
  intros mode p s base cur buf (Ht & Hm & Hr) Hb.
  destruct mode, s as [c|c|c]; try done; cbn [cut_of ck_push any_chunker any_push].
  - pose proof (ck_push_spec (cut:=RollingChunker.cut p) c base cur buf) as Hs.
    destruct (Hs Hr Hb) as (c' & -> & Hr'). by exists (AnyRolling c').
  - pose proof (ck_push_spec (cut:=FixedChunker.cut p) c base cur buf) as Hs.
    destruct (Hs Hr Hb) as (c' & -> & Hr'). by exists (AnyFixed c').
  - assert (TCNonNeg (ChunkParams.min p)) by exact Hm.
    pose proof (ck_push_spec (cut:=FastCdcChunker.cut p) c base cur buf) as Hs.
    destruct (Hs Hr Hb) as (c' & -> & Hr'). by exists (AnyFast c').
Qed.
Next Obligation.
  intros mode p s base cur (Ht & Hm & Hr).
  destruct mode, s as [c|c|c]; try done; cbn [cut_of ck_finish any_chunker any_finish].
  - pose proof (ck_finish_spec (cut:=RollingChunker.cut p) c base cur) as Hs.
    destruct (Hs Hr) as (c' & -> & Hr'). by exists (AnyRolling c').
  - pose proof (ck_finish_spec (cut:=FixedChunker.cut p) c base cur) as Hs.
    destruct (Hs Hr) as (c' & -> & Hr'). by exists (AnyFixed c').
  - assert (TCNonNeg (ChunkParams.min p)) by exact Hm.
    pose proof (ck_finish_spec (cut:=FastCdcChunker.cut p) c base cur) as Hs.
    destruct (Hs Hr) as (c' & -> & Hr'). by exists (AnyFast c').
Qed.
Next Obligation.
  intros mode p s base cur (Ht & Hm & Hr).
  destruct mode, s as [c|c|c]; try done; cbn [ck_offset any_chunker].
  - by rewrite Hr.
  - by destruct Hr as [-> _].
  - by rewrite Hr.
Qed.

Lemma create_repr mode p : 0 < ChunkParams.target p -> 0 <= ChunkParams.min p ->
  any_repr mode p (create_chunker mode p) 0 [].
Proof.
  intros Ht Hm. split; [done|]. split; [done|]. destruct mode; cbn.
  - apply RollingChunker.rolling_repr_new.
  - by apply FixedChunker.fixed_repr_new.
  - by apply FastCdcChunker.fastcdc_repr_new.
Qed.

(** Chunk sizes: fixed chunks have the target size; the content-defined modes stay within
    [min] and [max], FastCDC when [min < max]. *)
Lemma cut_min mode p c : ChunkParams.valid p -> cut_of mode p c = true -> ChunkParams.min p <= zlen c.
Proof.
  unfold ChunkParams.valid. intros Hv.
  destruct mode; cbn [cut_of]; unfold RollingChunker.cut, FixedChunker.cut, FastCdcChunker.cut; lia.
Qed.

Lemma cut_max mode p c : ChunkParams.valid p -> mode <> FastCdc \/ ChunkParams.min p < ChunkParams.max p ->
  ChunkParams.max p <= zlen c -> cut_of mode p c = true.
Proof.
  unfold ChunkParams.valid. intros Hv Hm Hc.
  destruct mode; cbn [cut_of]; unfold RollingChunker.cut, FixedChunker.cut, FastCdcChunker.cut.
  - rewrite (proj2 (Z.leb_le (ChunkParams.max p) (zlen c))) by lia. apply orb_true_r.
  - lia.
  - destruct Hm as [?|Hm]; [done|].
    rewrite (proj2 (Z.leb_le (ChunkParams.max p) (zlen c))), orb_true_r by lia. lia.
Qed.

(** Chunks of a whole input: nothing lost, none empty. *)
Lemma spec_chunks_concat cut data : mjoin (spec_chunks cut data) = data.
Proof.
  unfold spec_chunks. pose proof (spec_run_concat cut data []) as Hc.
  destruct (spec_run cut [] data) as [l c]. rewrite mjoin_app'.
  transitivity (mjoin l ++ c); [|exact Hc]. f_equal.
  destruct (decide (c = [])) as [->|]; [done|]. apply app_nil_r.
Qed.

Lemma chunk_pos (c : bytes) : c <> [] -> 0 < zlen c.
Proof. destruct c; [done|]. rewrite zlen_cons. pose proof (zlen_nonneg c). lia. Qed.

Lemma spec_chunks_sizes mode p data : ChunkParams.valid p ->
  mode <> FastCdc \/ ChunkParams.min p < ChunkParams.max p ->
  Forall (fun c => 0 < zlen c <= ChunkParams.max p) (spec_chunks (cut_of mode p) data) /\
  forall l c, spec_chunks (cut_of mode p) data = l ++ [c] ->
    Forall (fun c => ChunkParams.min p <= zlen c) l.
Proof.
  intros Hv Hm. assert (Hmax : 0 < ChunkParams.max p) by (unfold ChunkParams.valid in Hv; lia).
  pose proof (spec_run_bound (cut_of mode p) (ChunkParams.max p) data
                (fun c => cut_max mode p c Hv Hm) Hmax []) as Hb.
  pose proof (spec_run_min (cut_of mode p) (ChunkParams.min p) data []
                (fun c => cut_min mode p c Hv)) as Hmin.
  pose proof (spec_run_cut (cut_of mode p) data []) as Hcut. unfold spec_chunks.
  destruct (spec_run (cut_of mode p) [] data) as [l c]. cbn in *. destruct Hb as [Hl Hc]; [done|].
  destruct Hcut as [Hne _]. split.
  - apply Forall_app. split.
    + rewrite Forall_forall in Hl, Hne |- *. intros x Hx. split; [|by apply Hl].
      apply chunk_pos. by apply Hne.
    + destruct (decide (c = [])); [done|]. constructor; [|done]. split; [by apply chunk_pos|lia].
  - intros l' c' Heq. destruct (decide (c = [])) as [->|Hc0].
    + rewrite app_nil_r in Heq. subst l. by apply Forall_app in Hmin as [? _].
    + apply app_inj_tail in Heq as [<- _]. done.
Qed.

(** Chunk boundaries depend on the content alone: every chunker, however the input is split
    into pushes, emits the contiguous boundaries of the same list of chunks, whose concatenation
    is the input; no chunk is empty or longer than [max], and all but the last have at least
    [min] bytes. *)
Theorem chunk_stream_correct mode p bufs :
  ChunkParams.valid p -> mode <> FastCdc \/ ChunkParams.min p < ChunkParams.max p ->
  Forall is_bytes bufs ->
  exists l, l = spec_chunks (cut_of mode p) (mjoin bufs) /\
    chunk_stream (create_chunker mode p) bufs = Ok (boundaries 0 l) /\
    mjoin l = mjoin bufs /\
    Forall (fun c => 0 < zlen c <= ChunkParams.max p) l /\
    (forall l' c, l = l' ++ [c] -> Forall (fun c => ChunkParams.min p <= zlen c) l').
Proof.
  intros Hv Hm Hb. destruct (spec_chunks_sizes mode p (mjoin bufs) Hv Hm) as [Hs Hmin].
  eexists. split; [done|]. split_and!; [|apply spec_chunks_concat|done|done].
  pose proof (chunk_stream_boundaries (cut:=cut_of mode p) (create_chunker mode p) bufs Hb) as Hc.
  apply Hc. apply create_repr; unfold ChunkParams.valid in Hv; lia.
Qed.

(** Resynchronisation, what deduplication relies on: when a chunk ends where a common suffix
    begins in two inputs, the suffix is cut into the same chunks in both, at offsets shifted by
    the difference of the prefixes. *)
Theorem chunk_resync mode p a b s :
  ChunkParams.valid p -> is_bytes a -> is_bytes b -> is_bytes s ->
  (spec_run (cut_of mode p) [] a).2 = [] -> (spec_run (cut_of mode p) [] b).2 = [] ->
  exists la lb l, mjoin l = s /\
    chunk_stream (create_chunker mode p) [a ++ s] = Ok (la ++ boundaries (zlen a) l) /\
    chunk_stream (create_chunker mode p) [b ++ s] = Ok (lb ++ boundaries (zlen b) l).
Proof.
  intros Hv Ha Hb Hs Hca Hcb.
  assert (Hone : forall x, is_bytes x -> (spec_run (cut_of mode p) [] x).2 = [] -> exists lx,
    chunk_stream (create_chunker mode p) [x ++ s]
    = Ok (lx ++ boundaries (zlen x) (spec_chunks (cut_of mode p) s))).
  { intros x Hx Hcx. exists (boundaries 0 (spec_run (cut_of mode p) [] x).1).
    pose proof (chunk_stream_boundaries (cut:=cut_of mode p) (create_chunker mode p) [x ++ s]) as Hc.
    rewrite Hc; [| |apply create_repr; unfold ChunkParams.valid in Hv; lia].
    2:{ constructor; [|done]. by apply Forall_app. }
    change (mjoin [x ++ s]) with ((x ++ s) ++ []). rewrite app_nil_r. f_equal.
    pose proof (spec_run_concat (cut_of mode p) x []) as Hcat. unfold spec_chunks. rewrite spec_run_app.
    destruct (spec_run (cut_of mode p) [] x) as [lx cx]. cbn in *. subst cx. rewrite app_nil_r in Hcat.
    destruct (spec_run (cut_of mode p) [] s) as [ls cs]. rewrite <- app_assoc, boundaries_app.
    by rewrite Hcat. }
  destruct (Hone a Ha Hca) as [la Hla]. destruct (Hone b Hb Hcb) as [lb Hlb].
  exists la, lb, (spec_chunks (cut_of mode p) s). split; [apply spec_chunks_concat|by split].
Qed.

(** With [min = target = max], parameters that [ChunkParams::new] accepts, FastCDC does not
    respect its maximum: its chunks have [max + 1] bytes. *)
Theorem fastcdc_exceeds_max :
  ChunkParams.new 4 4 4 = Some (ChunkParams.fixed 4) /\
  chunk_stream (create_chunker FastCdc (ChunkParams.fixed 4)) [replicate 12 1]
  = Ok [mk_boundary 0 5; mk_boundary 5 5; mk_boundary 10 2].
Proof. by vm_compute. Qed.

(** ** The zero test *)

(** [chunks_exact(8)] as words, then the remainder byte by byte. *)
Fixpoint zero_words (fuel : nat) (s : bytes) : bool :=
  match fuel with
  | O => forallb (Z.eqb 0) s
  | S fuel' =>
      if zlen s <? 8 then forallb (Z.eqb 0) s
      else if negb (from_le (take 8 s) =? 0) then false
      else zero_words fuel' (drop 8 s)
  end.
(** The words fit in [length s] rounds; native-endian reading does not change the zero test. *)
Definition is_all_zeros (s : bytes) : bool := zero_words (length s) s.

Lemma zero_words_spec fuel : forall s, is_bytes s -> zero_words fuel s = forallb (Z.eqb 0) s.
Proof.
  induction fuel as [|fuel IH]; intros s Hs; [done|]. cbn [zero_words].
  destruct (zlen s <? 8); [done|].
  rewrite <- (take_drop 8 s) at 3. rewrite forallb_app, from_le_zero by by apply Forall_take.
  destruct (forallb (Z.eqb 0) (take 8 s)); [|done]. cbn. apply IH. by apply Forall_drop.
Qed.

(** The word-at-a-time zero test is the byte-at-a-time one. *)
Theorem is_all_zeros_correct s : is_bytes s ->
  is_all_zeros s = forallb (Z.eqb 0) s.
Proof. apply zero_words_spec. Qed.

(** ** The engine *)
Section engine.

(** blake3: the one-shot hash and the incremental hasher. *)
Variable hash_of : bytes -> Hash.
Context {hasher : Type} (hasher_new : hasher) (hasher_update : hasher -> bytes -> hasher)
  (hasher_finalize : hasher -> Hash).
(** The caller's callback and the state it keeps. *)
Context {A : Type} (on_chunk : A -> ChunkDesc.t -> bytes -> outcome VelcruxError A).

(** The descriptor of a chunk: a hole when it is all zeros. *)
Definition describe (chunk_bytes : bytes) (need : Z) : ChunkDesc.t :=
  if is_all_zeros chunk_bytes then ChunkDesc.hole need
  else ChunkDesc.new need (hash_of chunk_bytes).

(** The body of [for b in boundaries] (and of the final boundary): the callback on the next
    [need] pending bytes, which are then drained. *)
Definition emit (acc : A) (pending : bytes) (pending_offset : Z) (b : ChunkBoundary)
    : outcome VelcruxError (A * bytes * Z) :=
  let target := boundary_end b in
  let need := target - pending_offset in
  let? chunk_bytes := slice pending 0 need in
  let? acc := on_chunk acc (describe chunk_bytes need) chunk_bytes in
  let? pending := slice_from pending need in
  Ok (acc, pending, target).

Fixpoint emit_all (acc : A) (pending : bytes) (pending_offset : Z) (l : list ChunkBoundary)
    : outcome VelcruxError (A * bytes * Z) :=
  match l with
  | [] => Ok (acc, pending, pending_offset)
  | b :: l' =>
      let? '(acc, pending, pending_offset) := emit acc pending pending_offset b in
      emit_all acc pending pending_offset l'
  end.

(** The read loop; [reads] is what successive [reader.read] calls return: an I/O error, or
    the bytes read, none at the end of input. *)
Fixpoint read_loop (reads : list (string + bytes)) (c : AnyChunker) (h : hasher) (acc : A)
    (pending : bytes) (pending_offset total_bytes : Z)
    : outcome VelcruxError (AnyChunker * hasher * A * bytes * Z * Z) :=
  match reads with
  | [] => Ok (c, h, acc, pending, pending_offset, total_bytes)
  | inl e :: _ => Err (EIo e)
  | inr buf :: reads' =>
      if zlen buf =? 0 then Ok (c, h, acc, pending, pending_offset, total_bytes) else
      let h := hasher_update h buf in
      let pending := pending ++ buf in
      let total_bytes := total_bytes + zlen buf in
      let? '(c, bs) := map_err EProtocol (ck_push c buf) in
      let? '(acc, pending, pending_offset) := emit_all acc pending pending_offset bs in
      read_loop reads' c h acc pending pending_offset total_bytes
  end.

Definition chunk_reader (reads : list (string + bytes)) (mode : ChunkMode)
    (params : ChunkParams.t) (acc : A) : outcome VelcruxError (A * Hash * Z) :=
  let? '(c, h, acc, pending, pending_offset, total_bytes) :=
    read_loop reads (create_chunker mode params) hasher_new acc [] 0 0 in
  let? '(_, last) := map_err EProtocol (ck_finish c) in
  let? acc := match last with
              | Some b => let? '(acc, _, _) := emit acc pending pending_offset b in Ok acc
              | None => Ok acc
              end in
  Ok (acc, hasher_finalize h, total_bytes).

(** Reference: the callback on each chunk in turn. *)
Fixpoint feed (acc : A) (l : list bytes) : outcome VelcruxError A :=
  match l with
  | [] => Ok acc
  | c :: l' => let? acc := on_chunk acc (describe c (zlen c)) c in feed acc l'
  end.

Lemma emit_chunk acc c rest base :
  emit acc (c ++ rest) base (mk_boundary base (zlen c))
  = let? acc := on_chunk acc (describe c (zlen c)) c in Ok (acc, rest, base + zlen c).
Proof.
  unfold emit, boundary_end. cbn [b_offset b_length]. rewrite Z.add_simpl_l.
  rewrite slice_here by done. cbn [obind]. destruct (on_chunk _ _ _); [|done|done]. cbn [obind].
  by rewrite slice_from_skip, slice_from_0 by lia.
Qed.

Lemma emit_all_chunks l : forall acc rest base,
  emit_all acc (mjoin l ++ rest) base (boundaries base l)
  = let? acc := feed acc l in Ok (acc, rest, base + zlen (mjoin l)).
Proof.
  induction l as [|c l IH]; intros acc rest base; cbn [emit_all boundaries feed].
  { change (zlen (mjoin [])) with 0. by rewrite Z.add_0_r. }
  change (mjoin (c :: l)) with (c ++ mjoin l). rewrite <- app_assoc, emit_chunk.
  destruct (on_chunk _ _ _) as [acc'| |]; [|done|done]. cbn [obind].
  by rewrite IH, zlen_app, Z.add_assoc.
Qed.

Lemma feed_app acc l1 l2 : feed acc (l1 ++ l2) = let? acc := feed acc l1 in feed acc l2.
Proof.
  revert acc. induction l1 as [|c l1 IH]; intros acc; cbn [feed app]; [done|].
  destruct (on_chunk _ _ _) as [acc'| |]; [|done|done]. cbn [obind]. apply IH.
Qed.

(** The loop on a stream of buffers: it calls back on the specification's chunks, and what
    is pending is the current chunk. *)
Lemma read_loop_spec mode p bufs : Forall (fun b => is_bytes b /\ b <> []) bufs ->
  forall c cur base, any_repr mode p c base cur ->
  exists c', any_repr mode p c' (base + zlen (mjoin (spec_run (cut_of mode p) cur (mjoin bufs)).1))
               (spec_run (cut_of mode p) cur (mjoin bufs)).2 /\
  forall h acc total, read_loop (inr <$> bufs) c h acc cur base total
  = let? acc := feed acc (spec_run (cut_of mode p) cur (mjoin bufs)).1 in
    Ok (c', foldl hasher_update h bufs, acc, (spec_run (cut_of mode p) cur (mjoin bufs)).2,
        base + zlen (mjoin (spec_run (cut_of mode p) cur (mjoin bufs)).1),
        total + zlen (mjoin bufs)).
Proof.
  induction 1 as [|b bufs [Hb Hne] Hbufs IH]; intros c cur base Hr.
  { exists c. cbn. change (zlen (@mjoin list list_join Z [])) with 0. rewrite Z.add_0_r.
    split; [done|]. intros h acc total. by rewrite Z.add_0_r. }
  cbn [fmap list_fmap read_loop foldl].
  rewrite (proj2 (Z.eqb_neq (zlen b) 0))
    by (destruct b; [done|rewrite zlen_cons; pose proof (zlen_nonneg b); lia]).
  pose proof (ck_push_spec (cut:=cut_of mode p) c base cur b) as Hp.
  destruct (Hp Hr Hb) as (c1 & -> & Hr1). clear Hp. cbn [map_err obind].
  change (mjoin (b :: bufs)) with (b ++ mjoin bufs).
  pose proof (spec_run_concat (cut_of mode p) b cur) as Hcat. rewrite spec_run_app.
  destruct (spec_run (cut_of mode p) cur b) as [l1 c1'] eqn:Hl1. cbn [fst snd] in *.
  destruct (IH c1 c1' (base + zlen (mjoin l1)) Hr1) as (c2 & Hr2 & Hloop). exists c2.
  destruct (spec_run (cut_of mode p) c1' (mjoin bufs)) as [l2 c2'] eqn:Hl2. cbn [fst snd] in *.
  rewrite mjoin_app', zlen_app, Z.add_assoc. split; [done|]. intros h acc total.
  rewrite <- Hcat, emit_all_chunks, feed_app.
  destruct (feed acc l1) as [acc1| |]; [|done|done]. cbn [obind]. rewrite Hloop.
  by rewrite zlen_app, Z.add_assoc.
Qed.

(** blake3's incremental interface hashes the concatenation of the updates. *)
Hypothesis hasher_spec : forall l, hasher_finalize (foldl hasher_update hasher_new l) = hash_of (mjoin l).

Lemma chunk_reader_spec mode p bufs acc :
  Forall (fun b => is_bytes b /\ b <> []) bufs ->
  0 < ChunkParams.target p -> 0 <= ChunkParams.min p ->
  chunk_reader (inr <$> bufs) mode p acc
  = let? acc := feed acc (spec_chunks (cut_of mode p) (mjoin bufs)) in
    Ok (acc, hash_of (mjoin bufs), zlen (mjoin bufs)).
Proof.
  intros Hb Ht Hm. unfold chunk_reader, spec_chunks.
  destruct (read_loop_spec mode p bufs Hb _ [] 0 (create_repr mode p Ht Hm)) as (c & Hr & Hloop).
  rewrite Hloop. clear Hloop. destruct (spec_run (cut_of mode p) [] (mjoin bufs)) as [l cur].
  cbn [fst snd] in *. rewrite feed_app. destruct (feed acc l) as [acc1| |]; [|done|done].
  cbn [obind]. pose proof (ck_finish_spec (cut:=cut_of mode p) c _ _ Hr) as (c' & -> & _).
  cbn [map_err obind]. rewrite hasher_spec, !Z.add_0_l. destruct (decide (cur = [])); cbn [feed]; [done|].
  rewrite <- (app_nil_r cur) at 1. rewrite emit_chunk.
  by destruct (on_chunk acc1 _ cur) as [acc2| |].
Qed.

(** C6. The streaming engine is the specification: fed by any sequence of non-empty reads, it
    calls back once per chunk of the whole input, in order, with the chunk's bytes and its
    descriptor (a hole when it is all zeros, otherwise its length and hash), stops at the first
    callback error, and returns the hash and the length of the whole input. *)
Theorem chunk_reader_correct mode p bufs acc :
  Forall (fun b => is_bytes b /\ b <> []) bufs ->
  0 < ChunkParams.target p -> 0 <= ChunkParams.min p ->
  chunk_reader (inr <$> bufs) mode p acc
  = let? acc := feed acc (spec_chunks (cut_of mode p) (mjoin bufs)) in
    Ok (acc, hash_of (mjoin bufs), zlen (mjoin bufs)).
Proof. apply chunk_reader_spec. Qed.

End engine.

(** ** The theorems at concrete inputs *)
Module ChunkExamples.

Definition small : ChunkParams.t := ChunkParams.mk 2 4 8.
Definition data : bytes := [5; 6; 7; 8; 9; 10; 11; 12; 13; 14; 15; 16; 17].

Lemma small_valid : ChunkParams.valid small.
Proof. unfold ChunkParams.valid. cbn. lia. Qed.
Lemma data_bytes : is_bytes data.
Proof. repeat constructor; lia. Qed.

Lemma chunk_stream_correct_witness :
  exists l, l = spec_chunks (cut_of FastCdc small) data /\
    chunk_stream (create_chunker FastCdc small) [take 3 data; []; drop 3 data] = Ok (boundaries 0 l) /\
    mjoin l = data /\ Forall (fun c => 0 < zlen c <= 8) l /\
    (forall l' c, l = l' ++ [c] -> Forall (fun c => 2 <= zlen c) l').
Proof.
  apply (chunk_stream_correct FastCdc small [take 3 data; []; drop 3 data]).
  - apply small_valid.
  - right. by vm_compute.
  - repeat constructor; lia.
Defined.

Lemma chunk_resync_witness :
  exists la lb l, mjoin l = data /\
    chunk_stream (create_chunker Fixed (ChunkParams.fixed 3)) [[1; 2; 3] ++ data]
      = Ok (la ++ boundaries 3 l) /\
    chunk_stream (create_chunker Fixed (ChunkParams.fixed 3)) [[] ++ data]
      = Ok (lb ++ boundaries 0 l).
Proof.
  apply (chunk_resync Fixed (ChunkParams.fixed 3) [1; 2; 3] [] data).
  - unfold ChunkParams.valid. cbn. lia.
  - repeat constructor; lia.
  - constructor.
  - apply data_bytes.
  - vm_compute. reflexivity.
  - reflexivity.
Defined.

Lemma is_all_zeros_correct_witness :
  is_all_zeros (replicate 9 0 ++ [1]) = forallb (Z.eqb 0) (replicate 9 0 ++ [1]).
Proof. apply (is_all_zeros_correct (replicate 9 0 ++ [1])). repeat constructor; lia. Defined.

(** A hash that keeps its updates and reads them as one number. *)
Definition num_hash (b : bytes) : Hash := to_le 32 (from_le b).
Definition collect (acc : list (ChunkDesc.t * bytes)) (d : ChunkDesc.t) (b : bytes)
    : outcome VelcruxError (list (ChunkDesc.t * bytes)) :=
  if (4 <? zlen acc) then Err (EIo "full") else Ok (acc ++ [(d, b)]).

Lemma chunk_reader_correct_witness :
  chunk_reader num_hash (@nil bytes) (fun h b => h ++ [b]) (fun h => num_hash (mjoin h)) collect
    (inr <$> [[1; 2]; [3; 0; 0]; [0; 0; 9]]) Fixed (ChunkParams.fixed 3) []
  = let? acc := feed num_hash collect [] [[1; 2; 3]; [0; 0; 0]; [0; 9]] in
    Ok (acc, num_hash [1; 2; 3; 0; 0; 0; 0; 9], 8).
Proof.
  apply (chunk_reader_correct num_hash (@nil bytes) (fun h b => h ++ [b])
           (fun h => num_hash (mjoin h)) collect).
  - intros l. assert (Hf : forall acc, foldl (fun h b => h ++ [b]) acc l = acc ++ l).
    { induction l as [|b l IH]; intros acc; cbn; [by rewrite app_nil_r|]. by rewrite IH, <- app_assoc. }
    by rewrite Hf.
  - repeat constructor; (lia || done).
  - by vm_compute.
  - by vm_compute.
Defined.

End ChunkExamples.
