(* ===== verification/Bitmap.v ===== *)
(** Chunk completion bitmap (crates/velcrux-core/src/state/bitmap.rs). The [BTreeSet<u64>]
    is its ascending list of elements; the specification is the finite set. *)

From stdpp Require Import gmap.
From S2P Require Import Prelude Protocol Varint Wire MsgResume.

(** ** BTreeSet<u64> *)
Module BTreeSet.

Fixpoint insert (x : Z) (l : list Z) : bool * list Z :=
  match l with
  | [] => (true, [x])
  | y :: l' =>
      if x <? y then (true, x :: y :: l')
      else if x =? y then (false, y :: l')
      else let '(b, r) := insert x l' in (b, y :: r)
  end.

Definition contains (x : Z) (l : list Z) : bool := existsb (Z.eqb x) l.

Definition to_set (l : list Z) : gset Z := list_to_set l.

Lemma contains_set x l : contains x l = bool_decide (x ∈ to_set l).
Proof.
  unfold contains, to_set. apply eq_bool_prop_intro. rewrite bool_decide_spec, elem_of_list_to_set.
  induction l as [|y l IH]; [set_solver|]. cbn [existsb]. rewrite orb_True, IH, elem_of_cons, Is_true_true, Z.eqb_eq.
  done.
Qed.

Lemma insert_spec x l : increasing l ->
  increasing (insert x l).2 /\ to_set (insert x l).2 = {[x]} ∪ to_set l /\
  (insert x l).1 = negb (contains x l) /\
  (insert x l).2 ≡ₚ (if contains x l then l else x :: l).
Proof.
  unfold increasing, to_set. induction 1 as [|y l Hs IH Hy]; cbn [insert contains existsb].
  { split_and!; [by repeat constructor|set_solver|done|done]. }
  destruct IH as (IH1 & IH2 & IH3 & IH4). destruct (Z.ltb_spec x y) as [Hlt|Hge].
  - assert (Hn : existsb (Z.eqb x) l = false).
    { apply not_true_is_false. intros (z & Hz & Hxz)%existsb_exists. apply Z.eqb_eq in Hxz as ->.
      apply list_elem_of_In in Hz. rewrite Forall_forall in Hy. specialize (Hy z Hz). lia. }
    rewrite (proj2 (Z.eqb_neq x y)) by lia. cbn. unfold contains in *. rewrite Hn. split_and!; [|done..].
    constructor; [by constructor|]. constructor; [done|]. eapply Forall_impl; [done|]. simpl. lia.
  - destruct (Z.eqb_spec x y) as [-> |Hne]; cbn.
    + split_and!; [by constructor|clear; set_solver|done|done].
    + unfold contains in *. destruct (insert x l) as [b r]. cbn in *. split_and!.
      * constructor; [done|]. rewrite IH4. destruct (existsb (Z.eqb x) l); [done|]. constructor; [lia|done].
      * rewrite IH2. clear. set_solver.
      * done.
      * rewrite IH4. destruct (existsb (Z.eqb x) l); [done|]. apply Permutation_swap.
Qed.

End BTreeSet.

(** ** ChunkBitmap *)
Module ChunkBitmap.

Definition U64_MAX : Z := 2 ^ 64 - 1.

Record t := mk { set : list Z; bytes_completed : Z }.

Definition new : t := mk [] 0.

Definition from_sorted_indices (indices : list Z) (bytes_completed : Z) : t :=
  mk (foldl (fun s i => (BTreeSet.insert i s).2) [] indices) bytes_completed.

Definition mark_complete (b : t) (index chunk_len : Z) : t * bool :=
  let '(fresh, s) := BTreeSet.insert index (set b) in
  if fresh then (mk s (saturating_add 64 (bytes_completed b) chunk_len), true)
  else (mk s (bytes_completed b), false).

Definition contains (b : t) (index : Z) : bool := BTreeSet.contains index (set b).
Definition len (b : t) : Z := zlen (set b).
Definition is_empty (b : t) : bool := zlen (set b) =? 0.
Definition indices (b : t) : list Z := set b.

Definition missing_count (b : t) (total_chunks : Z) : Z :=
  let completed := Z.min (len b) total_chunks in
  saturating_sub total_chunks completed.

(** [while self.set.contains(&i) { ... }]: every round is a distinct element of the set, so
    its size plus one is enough fuel; fuel zero is unreachable from there. *)
Fixpoint missing_loop (fuel : nat) (b : t) (i : Z) : outcome Empty_set (option Z) :=
  match fuel with
  | O => Panic
  | S fuel' =>
      if contains b i then
        let i := saturating_add 64 i 1 in
        if i =? U64_MAX then Ok None else missing_loop fuel' b i
      else Ok (Some i)
  end.
Definition first_missing_from (b : t) (from : Z) : outcome Empty_set (option Z) :=
  missing_loop (S (length (set b))) b from.

(** [encode] appends to [out]. *)
Definition encode (b : t) (out : bytes) (max_entries : Z) : presult bytes :=
  let n := len b in
  if (max_entries <? n) || (MAX_WIRE_CHUNKS <? n)
  then Err (Malformed "too many completed chunks") else
  let? c := Varint.put_varint n in
  let? l := put_indices (set b) in
  Ok (out ++ c ++ l).

Definition decode (buf : bytes) (bytes_completed : Z) : presult t :=
  let? '(n, pos) := Varint.decode_varint buf in
  if MAX_WIRE_CHUNKS <? n then Err (Malformed "too many completed chunks") else
  let? '(l, _) := read_indices "truncated chunk index" "non-monotonic chunk index list"
                    (Z.to_nat n) buf pos None in
  Ok (mk (foldl (fun s i => (BTreeSet.insert i s).2) [] l) bytes_completed).

(** The type's invariant. *)
Definition wf (b : t) : Prop :=
  increasing (set b) /\ Forall (fits 64) (set b) /\ fits 64 (bytes_completed b).

(** Inserting a sorted list element by element rebuilds it. *)
Lemma insert_last x l : Forall (fun y => y < x) l -> BTreeSet.insert x l = (true, l ++ [x]).
Proof.
  induction 1 as [|y l Hy Hl IH]; [done|]. cbn [BTreeSet.insert app].
  rewrite (proj2 (Z.ltb_ge x y)), (proj2 (Z.eqb_neq x y)) by lia. by rewrite IH.
Qed.

Lemma collect_sorted l acc : increasing l -> Forall (fun x => Forall (fun y => y < x) acc) l ->
  foldl (fun s i => (BTreeSet.insert i s).2) acc l = acc ++ l.
Proof.
  intros Hs. revert acc. induction Hs as [|x l Hs IH Hx]; intros acc Ha; [by rewrite app_nil_r|].
  apply Forall_cons in Ha as [Hxa Ha]. cbn [foldl]. rewrite insert_last by done. cbn [snd].
  rewrite IH; [by rewrite <- app_assoc|]. rewrite Forall_forall in *. intros z Hz.
  apply Forall_app. split; [by apply Ha|]. repeat constructor. by apply Hx.
Qed.

Lemma collect_increasing l : increasing l -> foldl (fun s i => (BTreeSet.insert i s).2) [] l = l.
Proof. intros Hs. rewrite collect_sorted; [done|done|]. apply Forall_true. constructor. Qed.

Lemma saturating_fits a c : fits 64 a -> 0 <= c -> fits 64 (saturating_add 64 a c).
Proof. unfold fits, saturating_add. lia. Qed.

Lemma mark_complete_wf b i n : wf b -> fits 64 i -> 0 <= n -> wf (mark_complete b i n).1.
Proof.
  intros (Hs & Hf & Hb) Hi Hn. unfold mark_complete.
  destruct (BTreeSet.insert_spec i (set b) Hs) as (Hs' & _ & _ & Hp).
  destruct (BTreeSet.insert i (set b)) as [f s]. cbn in *.
  assert (Hf' : Forall (fits 64) s) by (rewrite Hp; case_match; [done|by constructor]).
  destruct f; cbn; repeat split; cbn; try done; try apply Hb; by apply saturating_fits.
Qed.

(** The indices of the set at or above [i] shrink as the loop advances. *)
Definition above_count (b : t) (i : Z) : nat := length (filter (fun x => i <= x) (set b)).

Lemma above_count_step b i : contains b i = true -> (above_count b (i + 1) < above_count b i)%nat.
Proof.
  unfold contains, BTreeSet.contains, above_count. induction (set b) as [|y l IH]; [done|].
  cbn [existsb]. rewrite !filter_cons.
  assert (Hle : (length (filter (fun x => i + 1 <= x)%Z l) <= length (filter (fun x => i <= x)%Z l))%nat).
  { clear. induction l as [|z l IH]; [done|]. rewrite !filter_cons.
    repeat case_decide; simpl; lia. }
  destruct (Z.eqb_spec i y) as [-> |Hne]; cbn [orb].
  - intros _. rewrite decide_False by lia. rewrite decide_True by lia. simpl. lia.
  - intros H. specialize (IH H). repeat case_decide; simpl; lia.
Qed.

Lemma missing_loop_spec fuel b : forall i, fits 64 i -> (above_count b i < fuel)%nat ->
  match missing_loop fuel b i with
  | Ok (Some j) => i <= j /\ contains b j = false /\ forall k, i <= k < j -> contains b k = true
  | Ok None => forall k, i <= k < U64_MAX -> contains b k = true
  | _ => False
  end.
Proof.
  unfold U64_MAX. induction fuel as [|fuel IH]; intros i Hi Hf; [lia|]. cbn [missing_loop].
  destruct (contains b i) eqn:Hc; [|split; [lia|split; [done|lia]]].
  unfold saturating_add, U64_MAX. unfold fits in Hi.
  destruct (Z.eqb_spec (Z.min (i + 1) (2 ^ 64 - 1)) (2 ^ 64 - 1)) as [Hm|Hm].
  - intros k Hk. by replace k with i by lia.
  - rewrite Z.min_l by lia. pose proof (above_count_step b i Hc).
    specialize (IH (i + 1) ltac:(unfold fits; lia) ltac:(lia)).
    destruct (missing_loop fuel b (i + 1)) as [[j|]|e|]; [|..|done].
    + destruct IH as (Hj & Hnj & Hall). split; [lia|]. split; [done|]. intros k Hk.
      destruct (decide (k = i)) as [-> |]; [done|]. apply Hall. lia.
    + intros k Hk. destruct (decide (k = i)) as [-> |]; [done|]. apply IH. lia.
    + done.
Qed.

Lemma decode_encode b out max p : wf b -> encode b out max = Ok p ->
  exists body, p = out ++ body /\ (zlen body < 2 ^ 63 -> decode body (bytes_completed b) = Ok b).
Proof.
  destruct b as [l n]. intros (Hs & Hf & _) He. unfold encode, len in He. cbn in *.
  destruct (_ || _) eqn:Hc; [done|]. apply orb_false_iff in Hc as [_ Hc]. pose proof (zlen_nonneg l).
  assert (Hfit : fits 64 (zlen l)) by (unfold MAX_WIRE_CHUNKS, fits in *; lia).
  put_norm He. injection He as <-. eexists. split; [done|]. intros _.
  unfold decode. run. by rewrite collect_increasing.
Qed.

Lemma bitmap_decode_wf buf n : is_buf buf -> fits 64 n ->
  wp (decode buf n) (fun b => wf b /\ len b <= MAX_WIRE_CHUNKS /\ bytes_completed b = n).
Proof.
  intros [Hb Hl] Hn. unfold decode. wps. rewrite collect_increasing by done.
  unfold wf, len. cbn. split_and!; try done; try apply Hn.
  unfold zlen, MAX_WIRE_CHUNKS in *. lia.
Qed.

Lemma increasing_nodup l : increasing l -> NoDup l.
Proof.
  unfold increasing. induction 1 as [|x l Hs IH Hx]; constructor; [|done].
  intros Hin. rewrite Forall_forall in Hx. specialize (Hx x Hin). lia.
Qed.

Lemma len_size b : wf b -> len b = Z.of_nat (size (BTreeSet.to_set (set b))).
Proof.
  intros (Hs & _). unfold len, zlen, BTreeSet.to_set.
  by rewrite size_list_to_set by by apply increasing_nodup.
Qed.

(** The chunk indices of a file. *)
Definition all_chunks (total : Z) : gset Z := list_to_set (seqZ 0 total).

Lemma missing_count_spec b total : wf b -> 0 <= total -> Forall (fun j => 0 <= j < total) (set b) ->
  missing_count b total = Z.of_nat (size (all_chunks total ∖ BTreeSet.to_set (set b))).
Proof.
  intros Hw Ht Hb. pose proof (len_size b Hw) as Hl.
  assert (Hsub : BTreeSet.to_set (set b) ⊆ all_chunks total).
  { intros j. unfold BTreeSet.to_set, all_chunks. rewrite !elem_of_list_to_set, elem_of_seqZ.
    rewrite Forall_forall in Hb. intros Hj. specialize (Hb j Hj). lia. }
  assert (Hall : size (all_chunks total) = Z.to_nat total).
  { unfold all_chunks. rewrite size_list_to_set by apply NoDup_seqZ. apply length_seqZ. }
  pose proof (subseteq_size _ _ Hsub). rewrite size_difference by done.
  unfold missing_count, saturating_sub. lia.
Qed.

(** The bitmap refines a finite set of completed indices: marking an index adds it and
    reports whether it was new, its bytes count once and saturate, the invariant (ascending
    [u64] indices) is kept, membership is set membership, and for indices inside the file
    [missing_count] is the number of indices that are not in the set. *)
Theorem bitmap_refines_set b i n total : wf b -> fits 64 i -> 0 <= n -> 0 <= total ->
  let '(b', fresh) := mark_complete b i n in
  wf b' /\ BTreeSet.to_set (set b') = {[i]} ∪ BTreeSet.to_set (set b) /\
  fresh = bool_decide (i ∉ BTreeSet.to_set (set b)) /\
  bytes_completed b' = (if fresh then saturating_add 64 (bytes_completed b) n else bytes_completed b) /\
  (forall j, contains b' j = bool_decide (j = i) || contains b j) /\
  (Forall (fun j => 0 <= j < total) (set b) ->
     missing_count b total = Z.of_nat (size (all_chunks total ∖ BTreeSet.to_set (set b)))).
Proof.
  intros Hw Hi Hn Ht. pose proof (mark_complete_wf b i n Hw Hi Hn) as Hw'. pose proof Hw as (Hs & _).
  destruct (BTreeSet.insert_spec i (set b) Hs) as (_ & Hset & Hfresh & _).
  unfold mark_complete in *. destruct (BTreeSet.insert i (set b)) as [f s']. cbn [fst snd] in *.
  rewrite BTreeSet.contains_set in Hfresh.
  assert (Hf : f = bool_decide (i ∉ BTreeSet.to_set (set b))).
  { rewrite Hfresh. by repeat case_bool_decide. }
  assert (Hc : forall j, BTreeSet.contains j s' = bool_decide (j = i) || BTreeSet.contains j (set b)).
  { intros j. rewrite !BTreeSet.contains_set, Hset. repeat case_bool_decide; cbn; set_solver. }
  destruct f; split_and!; try done; intros; by apply missing_count_spec.
Qed.

(** [first_missing_from] terminates and finds the smallest index at or above [from] that is
    not marked; it reports none only when every index from [from] to [u64::MAX - 1] is marked. *)
Theorem first_missing_correct b from : fits 64 from ->
  (exists j, first_missing_from b from = Ok (Some j) /\ from <= j /\ contains b j = false /\
     forall k, from <= k < j -> contains b k = true) \/
  (first_missing_from b from = Ok None /\ forall k, from <= k < U64_MAX -> contains b k = true).
Proof.
  intros Hf. pose proof (missing_loop_spec (S (length (set b))) b from Hf) as Hs.
  unfold first_missing_from. destruct (missing_loop _ b from) as [[j|]|e|].
  - left. exists j. split; [done|]. apply Hs. unfold above_count.
    pose proof (length_filter (fun x => from <= x) (set b)). lia.
  - right. split; [done|]. apply Hs. pose proof (length_filter (fun x => from <= x) (set b)).
    unfold above_count. lia.
  - destruct e.
  - exfalso. apply Hs. pose proof (length_filter (fun x => from <= x) (set b)).
    unfold above_count. lia.
Qed.

(** A bitmap that encodes is read back unchanged from the bytes it appended; whatever bytes
    a decoder is given, it does not panic and returns a well-formed bitmap of at most
    [MAX_WIRE_CHUNKS] indices. *)
Theorem bitmap_codec b out max p buf n : wf b -> encode b out max = Ok p -> is_buf buf -> fits 64 n ->
  (exists body, p = out ++ body /\ (zlen body < 2 ^ 63 -> decode body (bytes_completed b) = Ok b)) /\
  wp (decode buf n) (fun b' => wf b' /\ len b' <= MAX_WIRE_CHUNKS /\ bytes_completed b' = n).
Proof. intros Hw He Hb Hn. split; [by apply (decode_encode b out max)|by apply bitmap_decode_wf]. Qed.

End ChunkBitmap.

(** ** The theorems at concrete bitmaps *)
Module BitmapExamples.

Definition bm : ChunkBitmap.t := ChunkBitmap.mk [0; 1; 5] 300.

Lemma bm_wf : ChunkBitmap.wf bm.
Proof. split_and!; [repeat constructor; lia|repeat constructor; lia|by vm_compute]. Qed.

Lemma bitmap_refines_set_witness :
  BTreeSet.to_set (ChunkBitmap.set (ChunkBitmap.mark_complete bm 3 100).1)
    = {[3]} ∪ BTreeSet.to_set (ChunkBitmap.set bm) /\
  ChunkBitmap.missing_count bm 8
    = Z.of_nat (size (ChunkBitmap.all_chunks 8 ∖ BTreeSet.to_set (ChunkBitmap.set bm))).
Proof.
  pose proof (ChunkBitmap.bitmap_refines_set bm 3 100 8 bm_wf ltac:(by vm_compute) ltac:(lia) ltac:(lia)) as H.
  cbn in H. split; [apply H|]. apply H. repeat constructor; lia.
Defined.

Lemma first_missing_correct_witness :
  (exists j, ChunkBitmap.first_missing_from bm 0 = Ok (Some j) /\ 0 <= j /\
     ChunkBitmap.contains bm j = false /\ forall k, 0 <= k < j -> ChunkBitmap.contains bm k = true) \/
  (ChunkBitmap.first_missing_from bm 0 = Ok None /\
     forall k, 0 <= k < ChunkBitmap.U64_MAX -> ChunkBitmap.contains bm k = true).
Proof. apply (ChunkBitmap.first_missing_correct bm 0). by vm_compute. Defined.

Lemma bitmap_codec_witness :
  (exists body, [9; 3; 0; 1; 5] = [9] ++ body /\
     (zlen body < 2 ^ 63 -> ChunkBitmap.decode body 300 = Ok bm)) /\
  wp (ChunkBitmap.decode [2; 7] 1)
    (fun b' => ChunkBitmap.wf b' /\ ChunkBitmap.len b' <= MAX_WIRE_CHUNKS /\
       ChunkBitmap.bytes_completed b' = 1).
Proof.
  apply (ChunkBitmap.bitmap_codec bm [9] 100).
  - apply bm_wf.
  - vm_compute. reflexivity.
  - split; [repeat constructor; lia|by vm_compute].
  - by vm_compute.
Defined.

End BitmapExamples.
