(* ===== verification/Rle.v ===== *)
(** Run-length encoded have/need bitmap (crates/velcrux-core/src/sync/rle.rs). *)

From stdpp Require Import strings pretty.
From S2P Require Import Prelude Protocol Varint Wire.

(** [SyncError], the variants of the filters; the text of a varint error is kept as the
    error itself. *)
Inductive SyncError : Type :=
  | SRle (why : string)
  | SRleVarint (e : ProtocolError)
  | SBloom (why : string).

Module Rle.

Definition U32_MAX : Z := 2 ^ 32 - 1.

Record RleRun := mk_run { bit : bool; count : Z }.
Record t := mk { runs : list RleRun; total_chunks : Z; have_count : Z }.

Definition default_bitmap : t := mk [] 0 0.

(** The loop of [from_bits]: finished runs, current bit and count, have count. *)
Fixpoint from_bits_loop (bits : list bool) (runs : list RleRun) (cur : bool) (n have : Z)
    : list RleRun * Z :=
  match bits with
  | [] => (if 0 <? n then runs ++ [mk_run cur n] else runs, have)
  | b :: bits' =>
      let have := if b then saturating_add 32 have 1 else have in
      if Bool.eqb b cur then from_bits_loop bits' runs cur (saturating_add 32 n 1) have
      else from_bits_loop bits' (runs ++ [mk_run cur n]) b 1 have
  end.

Definition from_bits (bits : list bool) : t :=
  match bits with
  | [] => default_bitmap
  | b0 :: _ =>
      let '(runs, have) := from_bits_loop bits [] b0 0 0 in
      mk runs (wrap 32 (zlen bits)) have
  end.

(** The validating loop of [from_runs]. *)
Fixpoint check_runs (l : list RleRun) (total have : Z) : outcome SyncError (Z * Z) :=
  match l with
  | [] => Ok (total, have)
  | r :: l' =>
      if count r =? 0 then Err (SRle "run count cannot be zero") else
      let? total := ok_or (checked_add 32 total (count r))
                      (SRle "total chunk count overflowed u32") in
      let? have := if bit r then ok_or (checked_add 32 have (count r))
                                   (SRle "have count overflowed u32") else Ok have in
      check_runs l' total have
  end.
Definition from_runs (l : list RleRun) : outcome SyncError t :=
  let? '(total, have) := check_runs l 0 0 in Ok (mk l total have).

Definition need_count (r : t) : Z := saturating_sub (total_chunks r) (have_count r).

Fixpoint get_loop (l : list RleRun) (index cursor : Z) : option bool :=
  match l with
  | [] => None
  | r :: l' =>
      let next := cursor + count r in
      if index <? next then Some (bit r) else get_loop l' index next
  end.
Definition get (r : t) (index : Z) : option bool :=
  if total_chunks r <=? index then None else get_loop (runs r) index 0.

(** [out.resize(out.len() + run.count, run.bit)] for each run. *)
Fixpoint expand (l : list RleRun) : list bool :=
  match l with
  | [] => []
  | r :: l' => replicate (Z.to_nat (count r)) (bit r) ++ expand l'
  end.
Definition to_bits (r : t) : list bool := expand (runs r).

Definition run_value (r : RleRun) : Z := Z.lor (Z.shiftl (count r) 1) (Z.b2z (bit r)).

Fixpoint put_runs (l : list RleRun) : presult bytes :=
  match l with
  | [] => Ok []
  | r :: l' =>
      let? v := Varint.put_varint (run_value r) in
      let? rest := put_runs l' in
      Ok (v ++ rest)
  end.
Definition encode (r : t) : presult bytes := put_runs (runs r).

(** [while offset < buf.len()]: every round consumes a byte, so the buffer length plus one
    is enough fuel; fuel zero is unreachable from there. *)
Fixpoint decode_loop (fuel : nat) (buf : bytes) (offset total have : Z) (acc : list RleRun)
    : outcome SyncError (list RleRun * Z * Z) :=
  match fuel with
  | O => Panic
  | S fuel' =>
      if zlen buf <=? offset then Ok (acc, total, have) else
      let? rest := slice_from buf offset in
      let? '(val, consumed) := map_err SRleVarint (Varint.decode_varint rest) in
      let offset := offset + consumed in
      let bit := Z.land val 1 =? 1 in
      let count_u64 := Z.shiftr val 1 in
      if count_u64 =? 0 then Err (SRle "decoded zero run count") else
      if U32_MAX <? count_u64 then Err (SRle "run count exceeds u32::MAX") else
      let count := count_u64 in
      let? total := ok_or (checked_add 32 total count) (SRle "total chunk count overflowed") in
      let? have := if bit then ok_or (checked_add 32 have count) (SRle "have count overflowed")
                   else Ok have in
      decode_loop fuel' buf offset total have (acc ++ [mk_run bit count])
  end.

Definition decode (buf : bytes) (expected_total_chunks : Z) : outcome SyncError t :=
  if expected_total_chunks =? 0 then
    if negb (zlen buf =? 0) then Err (SRle "expected 0 chunks but buffer not empty")
    else Ok default_bitmap
  else
    let? '(runs, total, have) := decode_loop (S (length buf)) buf 0 0 0 [] in
    if negb (total =? expected_total_chunks)
    then Err (SRle ("chunk count mismatch: expected " +:+ pretty expected_total_chunks
                +:+ ", decoded " +:+ pretty total))
    else Ok (mk runs total have).

(** ** Specification *)

Definition run_ok (r : RleRun) : Prop := 1 <= count r <= U32_MAX.
Fixpoint total_of (l : list RleRun) : Z :=
  match l with [] => 0 | r :: l' => count r + total_of l' end.
Fixpoint have_of (l : list RleRun) : Z :=
  match l with [] => 0 | r :: l' => (if bit r then count r else 0) + have_of l' end.

Definition wf (r : t) : Prop :=
  Forall run_ok (runs r) /\ total_chunks r = total_of (runs r) /\ have_count r = have_of (runs r) /\
  total_chunks r <= U32_MAX.

Definition trues (l : list bool) : Z := zlen (filter (fun b : bool => b = true) l).

Lemma run_bounds l : Forall run_ok l -> 0 <= have_of l <= total_of l.
Proof. unfold run_ok. induction 1 as [|r l Hr Hl IH]; cbn; [lia|]. case_match; lia. Qed.

Lemma total_app l1 l2 : total_of (l1 ++ l2) = total_of l1 + total_of l2.
Proof. induction l1; cbn; lia. Qed.
Lemma have_app l1 l2 : have_of (l1 ++ l2) = have_of l1 + have_of l2.
Proof. induction l1; cbn; lia. Qed.

Lemma expand_app l1 l2 : expand (l1 ++ l2) = expand l1 ++ expand l2.
Proof. induction l1 as [|r l1 IH]; cbn; [done|]. by rewrite IH, app_assoc. Qed.

Lemma trues_app l1 l2 : trues (l1 ++ l2) = trues l1 + trues l2.
Proof. unfold trues. by rewrite filter_app, zlen_app. Qed.

Lemma trues_replicate n b : trues (replicate n b) = if b then Z.of_nat n else 0.
Proof.
  unfold trues. induction n as [|n IH]; [by destruct b|]. cbn [replicate]. rewrite filter_cons.
  destruct b; [rewrite decide_True, zlen_cons, IH by done; lia|by rewrite decide_False].
Qed.

(** Expansion has the declared length and the declared number of set bits. *)
Lemma expand_counts l : Forall run_ok l ->
  zlen (expand l) = total_of l /\ trues (expand l) = have_of l.
Proof.
  unfold run_ok. induction 1 as [|r l Hr Hl [IH1 IH2]]; [done|]. cbn [expand total_of have_of].
  rewrite zlen_app, trues_app, zlen_replicate, trues_replicate, IH1, IH2.
  split; [lia|]. destruct (bit r); lia.
Qed.

Lemma get_loop_spec l : Forall run_ok l -> forall i c, c <= i ->
  get_loop l i c = expand l !! Z.to_nat (i - c).
Proof.
  unfold run_ok. induction 1 as [|r l Hr Hl IH]; intros i c Hc; cbn [get_loop expand]; [done|].
  destruct (Z.ltb_spec i (c + count r)) as [Hlt|Hge].
  - rewrite lookup_app_l by (rewrite length_replicate; lia).
    symmetry. apply lookup_replicate_2. lia.
  - rewrite lookup_app_r by (rewrite length_replicate; lia). rewrite length_replicate, IH by lia.
    f_equal. lia.
Qed.

(** The encoder's loop: what it has emitted plus the current run is what it has read. *)
Lemma from_bits_loop_spec bits : forall acc cur n have,
  Forall run_ok acc -> 0 <= n -> (bits = [] -> 0 < n) -> (n = 0 -> head bits = Some cur) ->
  0 <= have -> n + zlen bits <= U32_MAX -> have + zlen bits <= U32_MAX ->
  let '(l, h) := from_bits_loop bits acc cur n have in
  Forall run_ok l /\ expand l = expand acc ++ replicate (Z.to_nat n) cur ++ bits /\
  h = have + trues bits.
Proof.
  unfold run_ok, U32_MAX. induction bits as [|b bits IH]; intros acc cur n have Hacc Hn Hne Hhd Hh Hnb Hhb;
    cbn [from_bits_loop].
  - rewrite (proj2 (Z.ltb_lt 0 n)) by auto. split_and!.
    + apply Forall_app. split; [done|]. constructor; [|constructor]. cbn.
      specialize (Hne eq_refl). change (zlen (@nil bool)) with 0 in *. lia.
    + rewrite expand_app. cbn. by rewrite !app_nil_r.
    + change (trues []) with 0. lia.
  - rewrite zlen_cons in *. pose proof (zlen_nonneg bits). unfold saturating_add.
    rewrite !Z.min_l by lia.
    assert (Ht : trues (b :: bits) = (if b then 1 else 0) + trues bits).
    { change (b :: bits) with ([b] ++ bits). rewrite trues_app. by destruct b. }
    destruct (Bool.eqb_spec b cur) as [-> |Hneq].
    + specialize (IH acc cur (n + 1) (if cur then have + 1 else have) Hacc ltac:(lia) ltac:(lia) ltac:(lia)
        ltac:(destruct cur; lia) ltac:(lia) ltac:(destruct cur; lia)).
      destruct (from_bits_loop bits acc cur (n + 1) _) as [l h]. destruct IH as (H1 & H2 & H3). split_and!.
      * done.
      * rewrite H2. f_equal. replace (Z.to_nat (n + 1)) with (Z.to_nat n + 1)%nat by lia.
        rewrite replicate_add, <- app_assoc. done.
      * rewrite H3, Ht. destruct cur; lia.
    + assert (0 < n). { destruct (decide (n = 0)) as [Hz|]; [|lia]. specialize (Hhd Hz). cbn in Hhd. congruence. }
      specialize (IH (acc ++ [mk_run cur n]) b 1 (if b then have + 1 else have)).
      destruct (from_bits_loop bits (acc ++ [mk_run cur n]) b 1 _) as [l h].
      destruct IH as (H1 & H2 & H3); try lia; try (destruct b; lia).
      { apply Forall_app. split; [done|]. constructor; [|constructor]. cbn. lia. }
      split_and!; [done| |rewrite H3, Ht; destruct b; lia].
      rewrite H2, expand_app. cbn. rewrite app_nil_r, <- app_assoc. done.
Qed.

Lemma from_bits_ok bits : zlen bits <= U32_MAX ->
  wf (from_bits bits) /\ to_bits (from_bits bits) = bits /\ total_chunks (from_bits bits) = zlen bits /\
  have_count (from_bits bits) = trues bits.
Proof.
  intros Hl. destruct bits as [|b bits]; [by repeat split; cbn|].
  pose proof (from_bits_loop_spec (b :: bits) [] b 0 0) as Hs. unfold from_bits, to_bits.
  destruct (from_bits_loop (b :: bits) [] b 0 0) as [l h].
  destruct Hs as (H1 & H2 & H3); try done; try lia.
  change (expand l = b :: bits) in H2. pose proof (expand_counts l H1) as [Hc1 Hc2]. rewrite H2 in Hc1, Hc2.
  pose proof (zlen_nonneg (b :: bits)). unfold U32_MAX in *.
  cbn [runs total_chunks have_count]. rewrite wrap_small by (unfold fits; lia).
  split; [split_and!; cbn; [done|done|lia|unfold U32_MAX; lia]|]. split_and!; [done|done|lia].
Qed.

(** ** Wire form *)

Lemma run_value_spec r : run_ok r -> run_value r = 2 * count r + Z.b2z (bit r).
Proof.
  intros Hr. unfold run_value. rewrite Z.lor_comm. change (Z.shiftl (count r) 1) with (Z.shiftl (count r) 1).
  rewrite lor_disjoint by (lia || (destruct (bit r); unfold fits; cbn; lia)). change (2 ^ 1) with 2. lia.
Qed.

Lemma run_value_fits r : run_ok r -> fits 64 (run_value r).
Proof. intros Hr. rewrite run_value_spec by done. unfold run_ok, U32_MAX, fits in *. destruct (bit r); cbn; lia. Qed.

Lemma run_value_decode r : run_ok r ->
  (Z.land (run_value r) 1 =? 1) = bit r /\ Z.shiftr (run_value r) 1 = count r.
Proof.
  intros Hr. rewrite run_value_spec by done. unfold run_ok in Hr.
  change 1 with (Z.ones 1) at 1. rewrite Z.land_ones, Z.shiftr_div_pow2 by lia. change (2 ^ 1) with 2.
  rewrite Z.add_comm, (Z.mul_comm 2), Z_mod_plus_full, Z_div_plus_full by lia.
  by destruct (bit r).
Qed.

Definition runs_bytes (l : list RleRun) : bytes := mjoin ((fun r => Varint.varint_bytes (run_value r)) <$> l).

Lemma runs_bytes_cons r l : runs_bytes (r :: l) = Varint.varint_bytes (run_value r) ++ runs_bytes l.
Proof. done. Qed.

Lemma put_runs_spec l : Forall run_ok l -> put_runs l = Ok (runs_bytes l).
Proof.
  induction 1 as [|r l Hr Hl IH]; [done|]. cbn [put_runs].
  rewrite Varint.put_varint_spec by by apply run_value_fits. cbn [obind]. by rewrite IH.
Qed.

Lemma runs_bytes_length l : Forall run_ok l -> (length l <= length (runs_bytes l))%nat.
Proof.
  induction 1 as [|r l Hr Hl IH]; [done|]. rewrite runs_bytes_cons, length_app. simpl.
  pose proof (Varint.zlen_varint_bytes (run_value r) (run_value_fits r Hr)).
  pose proof (Varint.varint_len_bounds (run_value r)). unfold zlen in *. lia.
Qed.

Lemma decode_loop_runs fuel buf l : forall off total have acc,
  Forall run_ok l -> slice_from buf off = @Ok SyncError _ (runs_bytes l) -> (length l < fuel)%nat ->
  0 <= total -> 0 <= have <= total -> total + total_of l <= U32_MAX ->
  decode_loop fuel buf off total have acc = Ok (acc ++ l, total + total_of l, have + have_of l).
Proof.
  revert l. induction fuel as [|fuel IH]; intros l off total have acc Hl Hf Hfuel Ht Hh Hmax; [lia|].
  destruct (slice_from_length _ _ _ Hf) as [Hoff Hlen]. cbn [decode_loop].
  destruct Hl as [|r l Hr Hl].
  { change (zlen (runs_bytes [])) with 0 in Hlen. rewrite (proj2 (Z.leb_le _ _)) by lia.
    rewrite app_nil_r. cbn. by rewrite !Z.add_0_r. }
  pose proof (run_value_fits r Hr) as Hvf. pose proof (Varint.varint_len_bounds (run_value r)).
  rewrite runs_bytes_cons, zlen_app, Varint.zlen_varint_bytes in Hlen by done.
  pose proof (zlen_nonneg (runs_bytes l)). rewrite (proj2 (Z.leb_gt _ _)) by lia.
  rewrite Hf, runs_bytes_cons. cbn [obind]. rewrite Varint.decode_varint_bytes by done. cbn [map_err obind].
  destruct (run_value_decode r Hr) as [-> ->]. pose proof (run_bounds l Hl). unfold run_ok, U32_MAX in *.
  cbn [total_of have_of] in *. rewrite (proj2 (Z.eqb_neq _ _)), (proj2 (Z.ltb_ge _ _)) by lia.
  rewrite checked_add_ok by lia. cbn [ok_or obind].
  assert (Hhave : (if bit r then ok_or (checked_add 32 have (count r)) (SRle "have count overflowed") else Ok have)
    = Ok (have + if bit r then count r else 0)).
  { destruct (bit r); [rewrite checked_add_ok by lia; done|by rewrite Z.add_0_r]. }
  rewrite Hhave. cbn [obind].
  rewrite (IH l) by (try done; try lia; try (destruct (bit r); lia); try (simpl in Hfuel; lia);
    rewrite (slice_from_from _ _ _ _ Hf), runs_bytes_cons by lia;
    rewrite slice_from_skip, slice_from_0 by (rewrite Varint.zlen_varint_bytes by done; lia); done).
  rewrite <- app_assoc. destruct r as [rb rc]. cbn. rewrite !Z.add_assoc. done.
Qed.

Lemma wf_zero r : wf r -> total_chunks r = 0 -> r = default_bitmap.
Proof.
  destruct r as [l t h]. intros (Hl & Ht & Hh & _) Hz. cbn in *. subst t h.
  destruct Hl as [|r l Hr Hl]; [done|]. cbn in Hz. pose proof (run_bounds l Hl). unfold run_ok in Hr. lia.
Qed.

Lemma rle_decode_encode r p : wf r -> encode r = Ok p -> decode p (total_chunks r) = Ok r.
Proof.
  intros Hw He. pose proof Hw as (Hl & Ht & Hh & Hm). unfold encode in He.
  rewrite put_runs_spec in He by done. injection He as <-. unfold decode.
  destruct (Z.eqb_spec (total_chunks r) 0) as [Hz|Hz].
  { by rewrite (wf_zero r Hw Hz). }
  rewrite (decode_loop_runs _ _ (runs r)); try done.
  - cbn [obind]. rewrite Z.add_0_l, <- Ht, Z.eqb_refl, Z.add_0_l, <- Hh. by destruct r.
  - by apply slice_from_0.
  - pose proof (runs_bytes_length (runs r) Hl). lia.
  - rewrite Z.add_0_l, <- Ht. done.
Qed.

Lemma decode_loop_wf fuel buf : is_bytes buf -> forall off total have acc,
  0 <= off -> (Z.to_nat (zlen buf - off) < fuel)%nat -> Forall run_ok acc ->
  total = total_of acc -> have = have_of acc -> total <= U32_MAX ->
  wp (decode_loop fuel buf off total have acc)
    (fun '(l, t, h) => Forall run_ok l /\ t = total_of l /\ h = have_of l /\ t <= U32_MAX).
Proof.
  intros Hb. induction fuel as [|fuel IH]; intros off total have acc Hoff Hf Ha Ht Hh Hm; [lia|].
  cbn [decode_loop]. apply wp_if; intros Hend; [done|]. apply wp_bind, wp_slice_from; [lia|].
  intros rest _ Hr HP. apply wp_bind, wp_map_err, Varint.wp_decode_varint; [by apply HP|].
  intros v n Hv Hn Hn' _. apply wp_if; [done|intros H0]. apply wp_if; [done|intros H1].
  assert (Hpos : 0 <= Z.shiftr v 1) by (apply Z.shiftr_nonneg; apply Hv).
  apply wp_bind, wp_ok_or. intros t' [-> Ht']%checked_add_Some.
  assert (Hgo : wp (decode_loop fuel buf (off + n) (total + Z.shiftr v 1)
      (have + if Z.land v 1 =? 1 then Z.shiftr v 1 else 0) (acc ++ [mk_run (Z.land v 1 =? 1) (Z.shiftr v 1)]))
    (fun '(l, t, h) => Forall run_ok l /\ t = total_of l /\ h = have_of l /\ t <= U32_MAX)).
  { unfold U32_MAX in *. apply IH; [lia|lia| |rewrite total_app; cbn; lia|rewrite have_app; cbn; lia|lia].
    apply Forall_app. split; [done|]. constructor; [|constructor]. unfold run_ok, U32_MAX. cbn. lia. }
  apply wp_bind. destruct (Z.land v 1 =? 1).
  - apply wp_ok_or. intros h' [-> _]%checked_add_Some. exact Hgo.
  - rewrite Z.add_0_r in Hgo. exact Hgo.
Qed.

Lemma rle_decode_wf buf n : is_bytes buf -> wp (decode buf n) (fun r => wf r /\ total_chunks r = n).
Proof.
  intros Hb. unfold decode. apply wp_if; intros Hz.
  { apply wp_if; [done|intros _]. cbn. split; [|lia]. by repeat split. }
  eapply wp_bind_mono; [apply decode_loop_wf; try done; unfold zlen; lia|].
  intros [[l t] h] (Hl & Ht & Hh & Hm). apply wp_if; [done|intros Hn]. cbn. split; [done|lia].
Qed.

(** Run-length bitmaps are lossless: for any bits, [from_bits] builds a bitmap whose counts
    are the number of bits and of set bits, whose [get] is the lookup in the bits (none past the
    end), and whose encoding decodes to the same bitmap. *)
Theorem rle_roundtrip bits : zlen bits <= U32_MAX ->
  let r := from_bits bits in
  to_bits r = bits /\ total_chunks r = zlen bits /\ have_count r = trues bits /\
  need_count r = zlen bits - trues bits /\
  (forall i, 0 <= i -> get r i = bits !! Z.to_nat i) /\
  exists p, encode r = Ok p /\ decode p (zlen bits) = Ok r.
Proof.
  intros Hl r. destruct (from_bits_ok bits Hl) as (Hw & Hb & Ht & Hh). fold r in Hw, Hb, Ht, Hh.
  pose proof Hw as (Hr & Htot & Hhave & _). pose proof (run_bounds (runs r) Hr).
  split_and!; [done|done|done| | |].
  - unfold need_count, saturating_sub. rewrite Ht, Hh in *. lia.
  - intros i Hi. unfold get. rewrite Ht. destruct (Z.leb_spec (zlen bits) i).
    + symmetry. apply lookup_ge_None. unfold zlen in *. lia.
    + rewrite get_loop_spec by done. rewrite Z.sub_0_r. by rewrite <- Hb.
  - exists (runs_bytes (runs r)). split; [by apply put_runs_spec|]. rewrite <- Ht.
    apply rle_decode_encode; [done|by apply put_runs_spec].
Qed.

(** Decoding any bytes for any expected count does not panic, and what it returns is a
    well-formed bitmap (positive runs whose counts add up to its totals) of exactly the
    expected number of chunks. *)
Theorem rle_decode_safe buf n : is_bytes buf ->
  wp (decode buf n) (fun r => wf r /\ total_chunks r = n /\ zlen (to_bits r) = n /\
                              trues (to_bits r) = have_count r).
Proof.
  intros Hb. eapply wp_mono; [by apply rle_decode_wf|]. intros r [Hw Ht]. pose proof Hw as (Hr & Htot & Hh & _).
  destruct (expand_counts (runs r) Hr) as [H1 H2]. split_and!; [done|done| |]; unfold to_bits; congruence.
Qed.

End Rle.

(** ** The theorems at concrete bitmaps *)
Module RleExamples.

Lemma rle_roundtrip_witness :
  let r := Rle.from_bits [true; true; false; true] in
  Rle.to_bits r = [true; true; false; true] /\ Rle.total_chunks r = 4 /\ Rle.have_count r = 3 /\
  Rle.need_count r = 1 /\
  (forall i, 0 <= i -> Rle.get r i = [true; true; false; true] !! Z.to_nat i) /\
  exists p, Rle.encode r = Ok p /\ Rle.decode p 4 = Ok r.
Proof. apply (Rle.rle_roundtrip [true; true; false; true]). vm_compute. discriminate. Defined.

Lemma rle_decode_safe_witness :
  wp (Rle.decode [5; 2; 3] 4) (fun r => Rle.wf r /\ Rle.total_chunks r = 4 /\
    zlen (Rle.to_bits r) = 4 /\ Rle.trues (Rle.to_bits r) = Rle.have_count r).
Proof. apply (Rle.rle_decode_safe [5; 2; 3] 4). repeat constructor; lia. Defined.

End RleExamples.
