(* ===== verification/Bloom.v ===== *)
(** Bloom filter of inventory hints (crates/velcrux-core/src/sync/bloom.rs). *)

From stdpp Require Import strings pretty.
From S2P Require Import Prelude Protocol Wire Rle.

Module Bloom.

Definition MAX_BLOOM_BITS : Z := 16 * 1024 * 1024 * 8.
Definition MIN_BLOOM_BITS : Z := 64.

Record t := mk { num_bits : Z; num_hashes : Z; bitset : bytes }.

Definition clamp (v lo hi : Z) : Z := Z.min (Z.max v lo) hi.

Definition with_dimensions (num_bits num_hashes : Z) : t :=
  let num_bits := clamp num_bits MIN_BLOOM_BITS MAX_BLOOM_BITS in
  let num_hashes := clamp num_hashes 1 16 in
  let byte_len := (num_bits + 7) / 8 in
  mk num_bits num_hashes (zeros (Z.to_nat byte_len)).

(** [BloomFilter::new] after its [f64] arithmetic: [m_bits] is the ceiling of the optimal
    size as a [u64], [k] the rounded hash count for the clamped size, both then cast down. *)
Definition new (m_bits : Z) (k : Z -> Z) : t :=
  let num_bits := clamp (wrap 32 m_bits) MIN_BLOOM_BITS MAX_BLOOM_BITS in
  let num_hashes := clamp (wrap 8 (k num_bits)) 1 16 in
  with_dimensions num_bits num_hashes.

Definition from_bytes (b : bytes) (num_bits num_hashes : Z) : outcome SyncError t :=
  if (num_bits <? MIN_BLOOM_BITS) || (MAX_BLOOM_BITS <? num_bits)
  then Err (SBloom ("invalid bit count " +:+ pretty num_bits)) else
  if (num_hashes =? 0) || (16 <? num_hashes)
  then Err (SBloom ("invalid hash count " +:+ pretty num_hashes)) else
  let expected_bytes := (num_bits + 7) / 8 in
  if negb (zlen b =? expected_bytes)
  then Err (SBloom ("bitset length mismatch: expected " +:+ pretty expected_bytes
              +:+ " bytes, got " +:+ pretty (zlen b)))
  else Ok (mk num_bits num_hashes b).

(** The two halves double hashing is seeded with; the second is forced odd. *)
Definition hash_pair {E} (hash : Hash) : outcome E (Z * Z) :=
  let? h1 := read_le hash 0 8 in
  let? r := read_le hash 8 8 in
  Ok (h1, Z.lor r 1).

(** [h1.wrapping_add(i.wrapping_mul(h2)) % num_bits]. *)
Definition bit_index (f : t) (h1 h2 i : Z) : Z := wrap 64 (h1 + wrap 64 (i * h2)) mod num_bits f.

(** [for i in 0..num_hashes { bitset[byte] |= 1 << pos }]. *)
Fixpoint set_bits {E} (n : nat) (f : t) (h1 h2 i : Z) (b : bytes) : outcome E bytes :=
  match n with
  | O => Ok b
  | S n' =>
      let bit_idx := bit_index f h1 h2 i in
      let byte_idx := bit_idx / 8 in
      let bit_pos := bit_idx mod 8 in
      let? old := index b byte_idx in
      let? b := write_at b byte_idx (Z.lor old (wrap 8 (Z.shiftl 1 bit_pos))) in
      set_bits n' f h1 h2 (i + 1) b
  end.

Definition insert {E} (f : t) (hash : Hash) : outcome E t :=
  let? '(h1, h2) := hash_pair hash in
  let? b := set_bits (Z.to_nat (num_hashes f)) f h1 h2 0 (bitset f) in
  Ok (mk (num_bits f) (num_hashes f) b).

Fixpoint test_bits {E} (n : nat) (f : t) (h1 h2 i : Z) (b : bytes) : outcome E bool :=
  match n with
  | O => Ok true
  | S n' =>
      let bit_idx := bit_index f h1 h2 i in
      let byte_idx := bit_idx / 8 in
      let bit_pos := bit_idx mod 8 in
      let? old := index b byte_idx in
      if Z.land old (wrap 8 (Z.shiftl 1 bit_pos)) =? 0 then Ok false
      else test_bits n' f h1 h2 (i + 1) b
  end.

Definition contains {E} (f : t) (hash : Hash) : outcome E bool :=
  let? '(h1, h2) := hash_pair hash in
  test_bits (Z.to_nat (num_hashes f)) f h1 h2 0 (bitset f).

(** Inserting a whole inventory. *)
Fixpoint insert_all {E} (f : t) (l : list Hash) : outcome E t :=
  match l with
  | [] => Ok f
  | h :: l' => let? f := insert f h in insert_all f l'
  end.

(** ** Specification: the filter as a set of bit positions *)

Definition wf (f : t) : Prop :=
  MIN_BLOOM_BITS <= num_bits f <= MAX_BLOOM_BITS /\ 1 <= num_hashes f <= 16 /\
  zlen (bitset f) = (num_bits f + 7) / 8 /\ is_bytes (bitset f).

Definition bit_set (b : bytes) (k : Z) : bool :=
  Z.testbit (default 0 (b !! Z.to_nat (k / 8))) (k mod 8).

(** The positions a hash probes. *)
Fixpoint probes (n : nat) (f : t) (h1 h2 i : Z) : list Z :=
  match n with O => [] | S n' => bit_index f h1 h2 i :: probes n' f h1 h2 (i + 1) end.

Lemma bit_index_bounds f h1 h2 i : wf f -> 0 <= bit_index f h1 h2 i < num_bits f.
Proof. intros (Hb & _). unfold bit_index, MIN_BLOOM_BITS in *. apply Z.mod_pos_bound. lia. Qed.

Lemma byte_index_bounds n k : 64 <= n -> 0 <= k < n -> 0 <= k / 8 < (n + 7) / 8.
Proof.
  intros Hn Hk. split; [apply Z.div_pos; lia|].
  assert (Hd : 8 * ((n + 7) / 8) <= n + 7 < 8 * ((n + 7) / 8) + 8).
  { pose proof (Z.div_mod (n + 7) 8). pose proof (Z.mod_pos_bound (n + 7) 8). lia. }
  apply Z.div_lt_upper_bound; lia.
Qed.

Lemma bit_mask k : 0 <= k -> wrap 8 (Z.shiftl 1 (k mod 8)) = 2 ^ (k mod 8).
Proof.
  intros Hk. pose proof (Z.mod_pos_bound k 8). rewrite Z.shiftl_1_l. apply wrap_small. split; [lia|].
  apply Z.pow_lt_mono_r; lia.
Qed.

Lemma test_mask old k : 0 <= k ->
  (Z.land old (wrap 8 (Z.shiftl 1 (k mod 8))) =? 0) = negb (Z.testbit old (k mod 8)).
Proof.
  intros Hk. pose proof (Z.mod_pos_bound k 8). rewrite bit_mask by done.
  pose proof (has_bit_testbit old (k mod 8) ltac:(lia)) as Hb. unfold has_bit in Hb.
  rewrite Z.shiftl_1_l in Hb. rewrite <- Hb. by rewrite negb_involutive.
Qed.

(** Writing one probe sets that bit and no other. *)
Lemma set_one {E} b k : 0 <= k -> k / 8 < zlen b -> is_bytes b ->
  exists b', (let? old := index b (k / 8) in
              write_at b (k / 8) (Z.lor old (wrap 8 (Z.shiftl 1 (k mod 8))))) = @Ok E _ b' /\
    is_bytes b' /\ zlen b' = zlen b /\
    forall j, 0 <= j -> bit_set b' j = bit_set b j || (j =? k).
Proof.
  intros Hk Hl Hb. assert (Hkb : 0 <= k / 8) by (apply Z.div_pos; lia). pose proof (Z.mod_pos_bound k 8).
  destruct (lookup_lt_is_Some_2 b (Z.to_nat (k / 8))) as [old Hold]; [unfold zlen in Hl; lia|].
  unfold index, write_at. rewrite (proj2 (Z.leb_le _ _)) by lia. rewrite Hold. cbn [obind].
  rewrite (proj2 (Z.ltb_lt _ _)) by lia. cbn [andb]. eexists. split; [done|].
  assert (Hold8 : fits 8 old) by by eapply (Forall_lookup_1 _ _ _ _ Hb Hold).
  split; [apply Forall_insert; [done|]; apply lor_fits; [lia|done|apply wrap_fits; lia]|].
  split; [apply zlen_insert|]. intros j Hj. unfold bit_set. rewrite bit_mask by done.
  destruct (decide (j / 8 = k / 8)) as [Heq|Hne].
  - rewrite Heq, list_lookup_insert_eq by (unfold zlen in Hl; lia). rewrite Hold. cbn [from_option id].
    rewrite Z.lor_spec, Z.pow2_bits_eqb by lia. f_equal. pose proof (Z.div_mod j 8). pose proof (Z.div_mod k 8).
    apply eq_bool_prop_intro. rewrite !Is_true_true, !Z.eqb_eq. lia.
  - rewrite list_lookup_insert_ne by (pose proof (Z.div_pos j 8); lia).
    rewrite (proj2 (Z.eqb_neq j k)), orb_false_r by congruence. done.
Qed.

Lemma set_bits_spec {E} n f h1 h2 : wf f -> forall i b, is_bytes b -> zlen b = zlen (bitset f) ->
  exists b', @set_bits E n f h1 h2 i b = Ok b' /\ is_bytes b' /\ zlen b' = zlen b /\
    forall j, 0 <= j -> bit_set b' j = bit_set b j || existsb (Z.eqb j) (probes n f h1 h2 i).
Proof.
  intros Hw. pose proof Hw as (Hnb & _ & Hlen & _). unfold MIN_BLOOM_BITS in Hnb.
  induction n as [|n IH]; intros i b Hb Hl; cbn [set_bits probes existsb].
  { exists b. split_and!; try done. intros. by rewrite orb_false_r. }
  pose proof (bit_index_bounds f h1 h2 i Hw) as Hk.
  destruct (byte_index_bounds (num_bits f) (bit_index f h1 h2 i)) as [_ Hbi]; [lia|done|].
  destruct (@set_one E b (bit_index f h1 h2 i)) as (b1 & Hset & Hb1 & Hl1 & Hbits); [lia|lia|done|].
  destruct (@index E Z b (bit_index f h1 h2 i / 8)) as [old| |]; [|done|done]. cbn [obind] in Hset |- *.
  rewrite Hset. cbn [obind]. destruct (IH (i + 1) b1) as (b2 & -> & Hb2 & Hl2 & Hbits2); [done|lia|].
  exists b2. split_and!; try done; [lia|]. intros j Hj. rewrite Hbits2, Hbits by done. by rewrite orb_assoc.
Qed.

Lemma test_bits_spec {E} n f h1 h2 : wf f -> forall i b, is_bytes b -> zlen b = zlen (bitset f) ->
  @test_bits E n f h1 h2 i b = Ok (forallb (bit_set b) (probes n f h1 h2 i)).
Proof.
  intros Hw. pose proof Hw as (Hnb & _ & Hlen & _). unfold MIN_BLOOM_BITS in Hnb.
  induction n as [|n IH]; intros i b Hb Hl; cbn [test_bits probes forallb]; [done|].
  pose proof (bit_index_bounds f h1 h2 i Hw) as Hk.
  destruct (byte_index_bounds (num_bits f) (bit_index f h1 h2 i)) as [Hb0 Hbi]; [lia|done|].
  destruct (lookup_lt_is_Some_2 b (Z.to_nat (bit_index f h1 h2 i / 8))) as [old Hold]; [unfold zlen in *; lia|].
  unfold index. rewrite (proj2 (Z.leb_le _ _)) by lia. rewrite Hold. cbn [obind].
  rewrite test_mask by lia. unfold bit_set at 1. rewrite Hold. cbn [from_option id].
  destruct (Z.testbit old (bit_index f h1 h2 i mod 8)); cbn; [|done]. by apply IH.
Qed.

Definition probes_of (f : t) (h : Hash) : list Z :=
  probes (Z.to_nat (num_hashes f)) f (from_le (take 8 h)) (Z.lor (from_le (take 8 (drop 8 h))) 1) 0.

Lemma hash_pair_ok {E} h : zlen h = 32 ->
  @hash_pair E h = Ok (from_le (take 8 h), Z.lor (from_le (take 8 (drop 8 h))) 1).
Proof.
  intros Hl. unfold hash_pair, read_le, slice. rewrite Hl. cbn. done.
Qed.

Lemma insert_ok {E} f h : wf f -> wf_hash h ->
  exists f', @insert E f h = Ok f' /\ wf f' /\ num_bits f' = num_bits f /\ num_hashes f' = num_hashes f /\
    forall j, 0 <= j -> bit_set (bitset f') j = bit_set (bitset f) j || existsb (Z.eqb j) (probes_of f h).
Proof.
  intros Hw [_ Hl]. unfold insert. rewrite hash_pair_ok by done. cbn [obind].
  pose proof Hw as (Hnb & Hnh & Hlen & Hb).
  destruct (@set_bits_spec E (Z.to_nat (num_hashes f)) f (from_le (take 8 h))
              (Z.lor (from_le (take 8 (drop 8 h))) 1) Hw 0 (bitset f)) as (b & -> & Hb' & Hl' & Hbits); [done|done|].
  cbn [obind]. eexists. split; [done|]. split; [|done]. unfold wf. cbn. split_and!; try done; lia.
Qed.

Lemma probes_same n f f' h1 h2 i : num_bits f' = num_bits f -> probes n f' h1 h2 i = probes n f h1 h2 i.
Proof.
  intros Hn. revert i. induction n as [|n IH]; intros i; cbn; [done|]. unfold bit_index at 1 2.
  by rewrite Hn, IH.
Qed.

Lemma probes_nonneg n f h1 h2 i : wf f -> Forall (fun j => 0 <= j) (probes n f h1 h2 i).
Proof.
  intros Hw. revert i. induction n as [|n IH]; intros i; constructor; [|apply IH].
  pose proof (bit_index_bounds f h1 h2 i Hw). lia.
Qed.

(** A filter that has a hash's probes keeps them, whatever is inserted later. *)
Definition holds (f : t) (h : Hash) : Prop := forallb (bit_set (bitset f)) (probes_of f h) = true.

Lemma contains_spec {E} f h : wf f -> wf_hash h ->
  @contains E f h = Ok (forallb (bit_set (bitset f)) (probes_of f h)).
Proof.
  intros Hw [_ Hl]. unfold contains. rewrite hash_pair_ok by done. cbn [obind].
  pose proof Hw as (_ & _ & _ & Hb). by apply test_bits_spec.
Qed.

Lemma insert_holds {E} f h f' g : wf f -> wf_hash h -> @insert E f h = Ok f' ->
  holds f' h /\ (holds f g -> holds f' g).
Proof.
  intros Hw Hh Hi. destruct (@insert_ok E f h Hw Hh) as (f2 & Hi2 & _ & Hnb & Hnh & Hbits).
  rewrite Hi in Hi2. injection Hi2 as <-. unfold holds, probes_of.
  rewrite !Hnh, !(probes_same _ f f') by done. split.
  - apply forallb_forall. intros j Hj. pose proof (probes_nonneg (Z.to_nat (num_hashes f)) f
      (from_le (take 8 h)) (Z.lor (from_le (take 8 (drop 8 h))) 1) 0 Hw) as Hn.
    rewrite List.Forall_forall in Hn. rewrite Hbits by by apply Hn. apply orb_true_iff. right.
    apply existsb_exists. exists j. split; [done|apply Z.eqb_refl].
  - rewrite !forallb_forall. intros Hg j Hj. pose proof (probes_nonneg (Z.to_nat (num_hashes f)) f
      (from_le (take 8 g)) (Z.lor (from_le (take 8 (drop 8 g))) 1) 0 Hw) as Hn.
    rewrite List.Forall_forall in Hn. rewrite Hbits by by apply Hn. by rewrite Hg.
Qed.

Lemma insert_all_ok {E} l : Forall wf_hash l -> forall f, wf f ->
  exists f', @insert_all E f l = Ok f' /\ wf f' /\ Forall (holds f') l /\ (forall g, holds f g -> holds f' g).
Proof.
  induction 1 as [|h l Hh Hl IH]; intros f Hw; cbn [insert_all].
  { exists f. split_and!; [done|done|constructor|done]. }
  destruct (@insert_ok E f h Hw Hh) as (f1 & Hi & Hw1 & _). rewrite Hi. cbn [obind].
  destruct (IH f1 Hw1) as (f2 & -> & Hw2 & Hall & Hkeep). exists f2. split_and!; [done|done| |].
  - constructor; [|done]. apply Hkeep. exact (proj1 (@insert_holds E f h f1 h Hw Hh Hi)).
  - intros g Hg. apply Hkeep. exact (proj2 (@insert_holds E f h f1 g Hw Hh Hi) Hg).
Qed.

Lemma with_dimensions_wf n k : wf (with_dimensions n k).
Proof.
  unfold with_dimensions, wf, clamp, MIN_BLOOM_BITS, MAX_BLOOM_BITS. cbn [num_bits num_hashes bitset].
  rewrite zlen_zeros. split_and!; try lia.
  - rewrite Z2Nat.id; [done|]. apply Z.div_pos; lia.
  - apply is_bytes_zeros.
Qed.

(** No false negatives: starting from any filter [with_dimensions] builds, inserting any
    inventory of hashes succeeds within bounds, and afterwards the filter (and the one rebuilt
    from its bytes) contains every hash of the inventory. *)
Theorem bloom_no_false_negatives {E} n k l : Forall wf_hash l ->
  exists f, @insert_all E (with_dimensions n k) l = Ok f /\ wf f /\
    from_bytes (bitset f) (num_bits f) (num_hashes f) = Ok f /\
    Forall (fun h => @contains E f h = Ok true) l.
Proof.
  intros Hl. destruct (@insert_all_ok E l Hl _ (with_dimensions_wf n k)) as (f & Hf & Hw & Hall & _).
  exists f. split; [done|]. split; [done|]. split.
  - destruct f as [nb nh b], Hw as (Hb & Hh & Hlen & _). unfold from_bytes, MIN_BLOOM_BITS, MAX_BLOOM_BITS in *.
    cbn in *. rewrite !(proj2 (Z.ltb_ge _ _)), (proj2 (Z.eqb_neq nh 0)) by lia. cbn.
    by rewrite Hlen, Z.eqb_refl.
  - rewrite Forall_forall in Hl, Hall |- *. intros h Hh. rewrite contains_spec by auto.
    f_equal. by apply Hall.
Qed.

End Bloom.

(** ** The theorem at a concrete inventory *)
Module BloomExamples.

Lemma bloom_no_false_negatives_witness :
  exists f, @Bloom.insert_all Empty_set (Bloom.with_dimensions 100 3) [replicate 32 7; replicate 32 8] = Ok f /\
    Bloom.wf f /\ Bloom.from_bytes (Bloom.bitset f) (Bloom.num_bits f) (Bloom.num_hashes f) = Ok f /\
    Forall (fun h => @Bloom.contains Empty_set f h = Ok true) [replicate 32 7; replicate 32 8].
Proof.
  apply (Bloom.bloom_no_false_negatives 100 3 [replicate 32 7; replicate 32 8]).
  repeat (constructor; [split; [by apply Forall_replicate|done]|]). constructor.
Defined.

End BloomExamples.
