(* ===== verification/StateStore.v ===== *)
(** Transfer state (crates/velcrux-core/src/state/mod.rs) and the in-memory store
    (state/mock.rs): transfers by id, the idempotency index, chunk bitmaps and the commit
    journal. Strings are their UTF-8 bytes. *)

From stdpp Require Import strings gmap sorting.
From Stdlib Require Import Ascii String.
From S2P Require Import Prelude Protocol Wire Bitmap.

Inductive Role := Client | Server.
Inductive TransferStatus := Active | Cancelled | Committed | Resumable.
Inductive Direction := Upload | Download.
Inductive CommitStatus := CPending | CRenamed | CCommitted.

Inductive WalCheckpointMode := Passive | Full | Restart | Truncate.

#[global] Instance role_eq_dec : EqDecision Role.
Proof. solve_decision. Defined.
#[global] Program Instance role_countable : Countable Role :=
  inj_countable' (fun r => match r with Client => true | Server => false end)
    (fun b : bool => if b then Client else Server) _.
Next Obligation. by intros []. Qed.
#[global] Instance status_eq_dec : EqDecision TransferStatus.
Proof. solve_decision. Defined.
#[global] Instance direction_eq_dec : EqDecision Direction.
Proof. solve_decision. Defined.
#[global] Instance commit_status_eq_dec : EqDecision CommitStatus.
Proof. solve_decision. Defined.

Record TransferRecord := mk_record {
  transfer_id : TransferId; idempotency_key : bytes; role : Role; direction : Direction;
  status : TransferStatus; remote_path : bytes; local_path : bytes; file_size : Z;
  file_hash : Hash; verified_up_to : Z; last_checkpoint_ms : Z; bytes_completed : Z;
  staging_relpath : bytes; created_ms : Z; updated_ms : Z }.

#[global] Instance record_eq_dec : EqDecision TransferRecord.
Proof. solve_decision. Defined.

Record CommitJournalEntry := mk_entry {
  j_transfer_id : TransferId; j_file_id : Z; j_remote_path : bytes; j_status : CommitStatus;
  j_updated_ms : Z }.

Record WalCheckpointReport := mk_report {
  w_mode : WalCheckpointMode; w_busy : bool; w_log_pages : Z; w_checkpointed_pages : Z;
  w_duration_micros : Z }.

(** ** Stored names. [s.to_ascii_lowercase()] is applied before a case-insensitive parse. *)

Definition to_ascii_lowercase (s : string) : string :=
  String.string_of_list_ascii ((fun a => let n := Ascii.nat_of_ascii a in
    if (65 <=? n)%nat && (n <=? 90)%nat then Ascii.ascii_of_nat (n + 32) else a)
      <$> String.list_ascii_of_string s).

Definition role_as_str (r : Role) : string :=
  match r with Client => "client" | Server => "server" end.
Definition role_parse (s : string) : option Role :=
  let s := to_ascii_lowercase s in
  if bool_decide (s = "client") then Some Client
  else if bool_decide (s = "server") then Some Server else None.

Definition status_name (s : TransferStatus) : string :=
  match s with
  | Active => "active" | Cancelled => "cancelled" | Committed => "committed"
  | Resumable => "resumable"
  end.
Definition status_parse (s : string) : option TransferStatus :=
  if bool_decide (s = "active") then Some Active
  else if bool_decide (s = "cancelled") then Some Cancelled
  else if bool_decide (s = "committed") then Some Committed
  else if bool_decide (s = "resumable") then Some Resumable else None.

Definition as_pragma_str (m : WalCheckpointMode) : string :=
  match m with
  | Passive => "PASSIVE" | Full => "FULL" | Restart => "RESTART" | Truncate => "TRUNCATE"
  end.
Definition wal_parse (s : string) : option WalCheckpointMode :=
  let s := to_ascii_lowercase s in
  if bool_decide (s = "passive") then Some Passive
  else if bool_decide (s = "full") then Some Full
  else if bool_decide (s = "restart") then Some Restart
  else if bool_decide (s = "truncate") then Some Truncate else None.

Definition direction_name (d : Direction) : string :=
  match d with Upload => "upload" | Download => "download" end.

Definition commit_status_name (s : CommitStatus) : string :=
  match s with CPending => "pending" | CRenamed => "renamed" | CCommitted => "committed" end.
Definition commit_status_parse (s : string) : option CommitStatus :=
  if bool_decide (s = "pending") then Some CPending
  else if bool_decide (s = "renamed") then Some CRenamed
  else if bool_decide (s = "committed") then Some CCommitted else None.

(** [StateStoreError]; message texts are left out. *)
Inductive StateStoreError := NotFound | IdempotencyConflict | Database | Corrupt.

Inductive JournalRecovery :=
  | Finalize (transfer_id : TransferId) (file_id : Z)
  | LeavePending (transfer_id : TransferId) (file_id : Z).

Inductive UpsertOutcome := Inserted | Reused (r : TransferRecord).

Module MockStateStore.

Definition idem_key : Type := Role * bytes.

Record t := mk {
  transfers_by_id : gmap TransferId TransferRecord;
  idem_index : gmap idem_key TransferId;
  bitmaps : gmap TransferId ChunkBitmap.t;
  journal : gmap (TransferId * Z) CommitJournalEntry }.

Definition new : t := mk ∅ ∅ ∅ ∅.

Definition key_of (r : TransferRecord) : idem_key := (role r, idempotency_key r).

Definition verify_idempotency_compat (existing request : TransferRecord) : bool :=
  bool_decide (role existing = role request) && bool_decide (direction existing = direction request)
  && bool_decide (remote_path existing = remote_path request)
  && bool_decide (local_path existing = local_path request)
  && (file_size existing =? file_size request)
  && bool_decide (file_hash existing = file_hash request).

(** Insertion into both maps. *)
Definition put_transfer (g : t) (r : TransferRecord) : t :=
  mk (<[transfer_id r := r]> (transfers_by_id g)) (<[key_of r := transfer_id r]> (idem_index g))
    (bitmaps g) (journal g).

Definition upsert_transfer (g : t) (r : TransferRecord)
    : outcome StateStoreError (UpsertOutcome * t) :=
  match idem_index g !! key_of r with
  | Some existing_id =>
      let? existing := ok_or (transfers_by_id g !! existing_id) Corrupt in
      if verify_idempotency_compat existing r then Ok (Reused existing, g)
      else Err IdempotencyConflict
  | None => Ok (Inserted, put_transfer g r)
  end.

Definition update_transfer (g : t) (r : TransferRecord) : outcome StateStoreError t :=
  match transfers_by_id g !! transfer_id r with
  | None => Err NotFound
  | Some _ => Ok (put_transfer g r)
  end.

Definition get_transfer (g : t) (id : TransferId) : outcome StateStoreError TransferRecord :=
  ok_or (transfers_by_id g !! id) NotFound.

Definition get_transfer_by_idempotency (g : t) (r : Role) (key : bytes)
    : outcome StateStoreError TransferRecord :=
  let? id := ok_or (idem_index g !! (r, key)) NotFound in
  ok_or (transfers_by_id g !! id) NotFound.

Definition by_created (a b : TransferRecord) : Prop := created_ms a <= created_ms b.
#[global] Instance by_created_dec : RelDecision by_created.
Proof. intros a b. unfold by_created. apply _. Defined.
Definition by_updated_desc (a b : TransferRecord) : Prop := updated_ms b <= updated_ms a.
#[global] Instance by_updated_desc_dec : RelDecision by_updated_desc.
Proof. intros a b. unfold by_updated_desc. apply _. Defined.

(** [values().filter(..).collect()] then the stable sort; the map's own order is unspecified. *)
Definition records (g : t) : list TransferRecord := (map_to_list (transfers_by_id g)).*2.
Fixpoint starts_with (p s : bytes) : bool :=
  match p, s with
  | [], _ => true
  | x :: p', y :: s' => (x =? y) && starts_with p' s'
  | _ :: _, [] => false
  end.
Definition list_transfers_by_path (g : t) (r : Role) (prefix : bytes) : list TransferRecord :=
  merge_sort by_created
    (filter (fun x => role x = r /\ starts_with prefix (remote_path x) = true) (records g)).

Definition write_bitmap (g : t) (id : TransferId) (b : ChunkBitmap.t) : outcome StateStoreError t :=
  match transfers_by_id g !! id with
  | None => Err NotFound
  | Some _ => Ok (mk (transfers_by_id g) (idem_index g) (<[id := b]> (bitmaps g)) (journal g))
  end.
Definition read_bitmap (g : t) (id : TransferId) : outcome StateStoreError ChunkBitmap.t :=
  match transfers_by_id g !! id with
  | None => Err NotFound
  | Some _ => ok_or (bitmaps g !! id) NotFound
  end.
Definition delete_bitmap (g : t) (id : TransferId) : t :=
  mk (transfers_by_id g) (idem_index g) (delete id (bitmaps g)) (journal g).

Definition write_journal (g : t) (e : CommitJournalEntry) : t :=
  mk (transfers_by_id g) (idem_index g) (bitmaps g)
    (<[(j_transfer_id e, j_file_id e) := e]> (journal g)).
Definition journal_entries (g : t) : list CommitJournalEntry := (map_to_list (journal g)).*2.
Definition pending_journal (g : t) : list CommitJournalEntry :=
  filter (fun e => j_status e <> CCommitted) (journal_entries g).
Definition mark_journal_committed (g : t) (id : TransferId) (file : Z) : outcome StateStoreError t :=
  match journal g !! (id, file) with
  | None => Err NotFound
  | Some e =>
      Ok (mk (transfers_by_id g) (idem_index g) (bitmaps g)
            (<[(id, file) := mk_entry (j_transfer_id e) (j_file_id e) (j_remote_path e) CCommitted
                               (j_updated_ms e)]> (journal g)))
  end.

(** Removing a transfer with its index entry, bitmap and journal. *)
Definition delete_transfer (g : t) (id : TransferId) : t :=
  let idx := match transfers_by_id g !! id with
             | Some r => delete (key_of r) (idem_index g)
             | None => idem_index g
             end in
  mk (delete id (transfers_by_id g)) idx (delete id (bitmaps g))
    (filter (fun '((t, _), _) => t <> id) (journal g)).

(** [unreachable!] on a committed entry is a panic. *)
Definition recovery_of (e : CommitJournalEntry) : outcome StateStoreError JournalRecovery :=
  match j_status e with
  | CRenamed => Ok (Finalize (j_transfer_id e) (j_file_id e))
  | CPending => Ok (LeavePending (j_transfer_id e) (j_file_id e))
  | CCommitted => Panic
  end.
Fixpoint map_outcome {E A B} (f : A -> outcome E B) (l : list A) : outcome E (list B) :=
  match l with
  | [] => Ok []
  | x :: l' => let? y := f x in let? r := map_outcome f l' in Ok (y :: r)
  end.
Definition recover_commit_journal (g : t) : outcome StateStoreError (list JournalRecovery) :=
  map_outcome recovery_of (pending_journal g).

Definition set_status (s : TransferStatus) (now : Z) (r : TransferRecord) : TransferRecord :=
  mk_record (transfer_id r) (idempotency_key r) (role r) (direction r) s (remote_path r)
    (local_path r) (file_size r) (file_hash r) (verified_up_to r) (last_checkpoint_ms r)
    (bytes_completed r) (staging_relpath r) (created_ms r) now.
Definition mark_active_transfers_resumable (g : t) (now : Z) : Z * t :=
  let is_active r := bool_decide (status r = Active) in
  (zlen (filter (fun r => is_active r = true) (records g)),
   mk ((fun r => if is_active r then set_status Resumable now r else r) <$> transfers_by_id g)
     (idem_index g) (bitmaps g) (journal g)).

Definition wal_checkpoint (mode : WalCheckpointMode) : WalCheckpointReport :=
  mk_report mode false 0 0 10.

Definition list_resumable_transfers (g : t) (r : option Role) : list TransferRecord :=
  merge_sort by_updated_desc
    (filter (fun x => default true ((fun target => bool_decide (role x = target)) <$> r) = true)
       (filter (fun x => status x = Resumable) (records g))).

(** [max_age_secs * 1000] wraps in a release build. *)
Definition cutoff_ms (now max_age_secs : Z) : Z := saturating_sub now (wrap 64 (max_age_secs * 1000)).
Definition stale (cutoff : Z) (r : TransferRecord) : bool :=
  (bool_decide (status r = Committed) || bool_decide (status r = Cancelled))
  && (updated_ms r <? cutoff).
Definition prune_stale_transfers (g : t) (now max_age_secs : Z) : Z * t :=
  let stale_tids := transfer_id <$> filter (fun r => stale (cutoff_ms now max_age_secs) r = true)
                                     (records g) in
  (zlen stale_tids, foldl delete_transfer g stale_tids).

(** ** Invariant: the idempotency index is a bijection with the transfers, bitmaps belong to
    transfers and journal rows are filed under their own ids *)

Record wf (g : t) : Prop := {
  wf_id id r : transfers_by_id g !! id = Some r -> transfer_id r = id;
  wf_fwd id r : transfers_by_id g !! id = Some r -> idem_index g !! key_of r = Some id;
  wf_bwd k id : idem_index g !! k = Some id ->
    exists r, transfers_by_id g !! id = Some r /\ key_of r = k;
  wf_bitmap id b : bitmaps g !! id = Some b -> is_Some (transfers_by_id g !! id);
  wf_journal id f e : journal g !! (id, f) = Some e -> j_transfer_id e = id /\ j_file_id e = f
}.

(** The part of it that every operation keeps, whatever its arguments. *)
Record filed (g : t) : Prop := {
  filed_id id r : transfers_by_id g !! id = Some r -> transfer_id r = id;
  filed_bitmap id b : bitmaps g !! id = Some b -> is_Some (transfers_by_id g !! id);
  filed_journal id f e : journal g !! (id, f) = Some e -> j_transfer_id e = id /\ j_file_id e = f
}.
(** A record that does not give another key to a transfer that is there. *)
Definition keeps_key (g : t) (r : TransferRecord) : Prop :=
  forall r', transfers_by_id g !! transfer_id r = Some r' -> key_of r' = key_of r.

Lemma new_filed : filed new.
Proof. split; intros *; by rewrite ?lookup_empty. Qed.
Lemma put_transfer_filed g r : filed g -> filed (put_transfer g r).
Proof.
  intros [H1 H2 H3]. split; cbn [transfers_by_id bitmaps journal put_transfer].
  - intros id x. rewrite lookup_insert_Some. intros [[<- <-]|[_ Hx]]; [done|by apply H1].
  - intros id b Hb. apply lookup_insert_is_Some'. right. by apply H2 in Hb.
  - exact H3.
Qed.
Lemma delete_transfer_filed g id : filed g -> filed (delete_transfer g id).
Proof.
  intros [H1 H2 H3]. unfold delete_transfer. split; cbn [transfers_by_id bitmaps journal].
  - intros i x. rewrite lookup_delete_Some. intros [_ Hx]. by apply H1.
  - intros i b. rewrite lookup_delete_Some. intros [Hne Hb]. rewrite lookup_delete_ne by done. by apply H2 in Hb.
  - intros i f e He. apply map_lookup_filter_Some in He as [He _]. by apply H3.
Qed.

Lemma new_wf : wf new.
Proof. split; intros *; by rewrite ?lookup_empty. Qed.

(** A record whose id is fresh or keeps its key can be put without breaking the index. *)
Lemma put_transfer_wf g r : wf g -> keeps_key g r ->
  (forall id, idem_index g !! key_of r = Some id -> id = transfer_id r) ->
  wf (put_transfer g r).
Proof.
  intros Hw Hsame Hfree. split; cbn [transfers_by_id idem_index put_transfer].
  - intros id x. rewrite lookup_insert_Some. intros [[<- <-]|[_ Hx]]; [done|by apply (wf_id _ Hw)].
  - intros id x. rewrite lookup_insert_Some. intros [[<- <-]|[Hne Hx]]; [by rewrite lookup_insert_eq|].
    rewrite lookup_insert_ne; [by apply (wf_fwd _ Hw)|]. intros Hk.
    apply (wf_fwd _ Hw) in Hx. rewrite <- Hk in Hx. apply Hfree in Hx. congruence.
  - intros k id. rewrite lookup_insert_Some. intros [[<- <-]|[Hne Hk]].
    + exists r. by rewrite lookup_insert_eq.
    + destruct (wf_bwd _ Hw k id Hk) as (x & Hx & Hkx). exists x. split; [|done].
      rewrite lookup_insert_ne; [done|]. intros Hi. subst id. apply Hsame in Hx. congruence.
  - intros id b Hb. apply lookup_insert_is_Some'. right. by apply (wf_bitmap _ Hw) in Hb.
  - exact (wf_journal _ Hw).
Qed.

Lemma upsert_ok g r : wf g -> keeps_key g r ->
  match upsert_transfer g r with
  | Ok (Inserted, g') => idem_index g !! key_of r = None /\ wf g' /\
      get_transfer_by_idempotency g' (role r) (idempotency_key r) = Ok r
  | Ok (Reused x, g') => g' = g /\ key_of x = key_of r /\ verify_idempotency_compat x r = true /\
      transfers_by_id g !! transfer_id x = Some x
  | Err e => e = IdempotencyConflict
  | Panic => False
  end.
Proof.
  intros Hw Hfresh. unfold upsert_transfer. destruct (idem_index g !! key_of r) as [id|] eqn:Hi.
  - destruct (wf_bwd _ Hw _ _ Hi) as (x & Hx & Hk). rewrite Hx. cbn [ok_or obind].
    destruct (verify_idempotency_compat x r) eqn:Hv; [|done].
    pose proof (wf_id _ Hw _ _ Hx) as <-. done.
  - split; [done|]. split.
    + apply put_transfer_wf; [done..|]. intros *; congruence.
    + unfold get_transfer_by_idempotency. cbn. change (role r, idempotency_key r) with (key_of r).
      by rewrite lookup_insert_eq; cbn; rewrite lookup_insert_eq.
Qed.

Lemma delete_transfer_wf g id : wf g -> wf (delete_transfer g id).
Proof.
  intros Hw. unfold delete_transfer. split; cbn [transfers_by_id idem_index bitmaps journal].
  - intros i x. rewrite lookup_delete_Some. intros [_ Hx]. by apply (wf_id _ Hw).
  - intros i x. rewrite lookup_delete_Some. intros [Hne Hx]. pose proof (wf_fwd _ Hw _ _ Hx) as Hi.
    destruct (transfers_by_id g !! id) as [r|] eqn:Hr; [|done]. rewrite lookup_delete_ne; [done|].
    intros Hk. pose proof (wf_fwd _ Hw _ _ Hr) as Hi'. rewrite Hk in Hi'. congruence.
  - intros k i Hk. destruct (transfers_by_id g !! id) as [r|] eqn:Hr.
    + rewrite lookup_delete_Some in Hk. destruct Hk as [Hne Hk].
      destruct (wf_bwd _ Hw _ _ Hk) as (x & Hx & Hkx). exists x. split; [|done].
      rewrite lookup_delete_ne; [done|]. intros ->. congruence.
    + destruct (wf_bwd _ Hw _ _ Hk) as (x & Hx & Hkx). exists x. split; [|done].
      rewrite lookup_delete_ne; [done|]. intros ->. congruence.
  - intros i b. rewrite lookup_delete_Some. intros [Hne Hb]. rewrite lookup_delete_ne by done.
    by apply (wf_bitmap _ Hw) in Hb.
  - intros i f e He. apply map_lookup_filter_Some in He as [He _]. by apply (wf_journal _ Hw).
Qed.

Lemma mark_resumable_wf g now : wf g -> wf (mark_active_transfers_resumable g now).2.
Proof.
  intros Hw. set (f := fun r => if bool_decide (status r = Active) then set_status Resumable now r else r).
  assert (Hk : forall r, transfer_id (f r) = transfer_id r /\ key_of (f r) = key_of r)
    by (intros r; unfold f; by case_bool_decide).
  split; cbn [mark_active_transfers_resumable snd transfers_by_id idem_index]; fold f.
  - intros id r. rewrite lookup_fmap_Some. intros (x & <- & Hx).
    rewrite (proj1 (Hk x)). by apply (wf_id _ Hw).
  - intros id r. rewrite lookup_fmap_Some. intros (x & <- & Hx).
    rewrite (proj2 (Hk x)). by apply (wf_fwd _ Hw).
  - intros k id Hi. destruct (wf_bwd _ Hw _ _ Hi) as (x & Hx & <-). exists (f x).
    by rewrite lookup_fmap, Hx, (proj2 (Hk x)).
  - intros id b Hb. rewrite lookup_fmap, fmap_is_Some. by apply (wf_bitmap _ Hw) in Hb.
  - exact (wf_journal _ Hw).
Qed.

(** Deleting a batch of ids removes those transfers and no other. *)
Lemma delete_all_wf l : forall g, wf g -> wf (foldl delete_transfer g l).
Proof. induction l as [|id l IH]; intros g Hw; [done|]. cbn. apply IH. by apply delete_transfer_wf. Qed.
Lemma delete_all_lookup l : forall g id,
  transfers_by_id (foldl delete_transfer g l) !! id =
  (if bool_decide (id ∈ l) then None else transfers_by_id g !! id).
Proof.
  induction l as [|x l IH]; intros g id; cbn [foldl]; [by rewrite bool_decide_false by set_solver|].
  rewrite IH. cbn [delete_transfer transfers_by_id]. destruct (decide (id = x)) as [->|Hne].
  - rewrite lookup_delete_eq, (bool_decide_true (x ∈ x :: l)) by set_solver. by case_bool_decide.
  - rewrite lookup_delete_ne by done. repeat case_bool_decide; set_solver.
Qed.
Lemma stale_ids g now age id : wf g ->
  id ∈ (transfer_id <$> filter (fun r => stale (cutoff_ms now age) r = true) (records g)) <->
  exists r, transfers_by_id g !! id = Some r /\ stale (cutoff_ms now age) r = true.
Proof.
  intros Hw. unfold records. rewrite list_elem_of_fmap. split.
  - intros (r & -> & Hr). apply list_elem_of_filter in Hr as [Hs Hr].
    apply list_elem_of_fmap in Hr as ([i x] & -> & Hx). apply elem_of_map_to_list in Hx.
    exists x. cbn in *. by rewrite (wf_id _ Hw _ _ Hx).
  - intros (r & Hr & Hs). exists r. split; [by rewrite (wf_id _ Hw _ _ Hr)|].
    apply list_elem_of_filter. split; [done|]. apply list_elem_of_fmap. exists (id, r).
    split; [done|]. by apply elem_of_map_to_list.
Qed.

(** ** Runs: every operation a caller can issue, with the records for which [ok] holds *)

Inductive step (ok : t -> TransferRecord -> Prop) (g : t) : t -> Prop :=
  | step_upsert r o g' : ok g r -> upsert_transfer g r = Ok (o, g') -> step ok g g'
  | step_update r g' : ok g r -> update_transfer g r = Ok g' -> step ok g g'
  | step_write_bitmap id b g' : write_bitmap g id b = Ok g' -> step ok g g'
  | step_delete_bitmap id : step ok g (delete_bitmap g id)
  | step_write_journal e : step ok g (write_journal g e)
  | step_commit id f g' : mark_journal_committed g id f = Ok g' -> step ok g g'
  | step_delete id : step ok g (delete_transfer g id)
  | step_resumable now : step ok g (mark_active_transfers_resumable g now).2
  | step_prune now age : step ok g (prune_stale_transfers g now age).2.

Lemma step_filed ok g g' : step ok g g' -> filed g -> filed g'.
Proof.
  intros H Hw. pose proof Hw as [H1 H2 H3]. destruct H as [r o g' _ H|r g' _ H|id b g' H|id|e|id f g' H|id|now|now age].
  - unfold upsert_transfer in H. destruct (idem_index g !! key_of r) as [i|].
    + destruct (transfers_by_id g !! i); cbn in H; [|done]. case_match; [by injection H as <- <-|done].
    + injection H as <- <-. by apply put_transfer_filed.
  - unfold update_transfer in H. case_match; [|done]. injection H as <-. by apply put_transfer_filed.
  - unfold write_bitmap in H. destruct (transfers_by_id g !! id) eqn:Hid; [|done]. injection H as <-. split; cbn; try done.
    intros i b'. rewrite lookup_insert_Some. intros [[<- _]|[_ Hb]]; [by eexists|by apply (H2 i b')].
  - split; cbn; try done. intros i b. rewrite lookup_delete_Some. intros [_ Hb]. by apply (H2 i b).
  - split; cbn; try done. intros i f e'. rewrite lookup_insert_Some. intros [[[= <- <-] <-]|[_ He]]; [done|by apply H3].
  - unfold mark_journal_committed in H. destruct (journal g !! (id, f)) as [e|] eqn:He; [|done]. injection H as <-. split; cbn; try done.
    intros i k e'. rewrite lookup_insert_Some. intros [[[= <- <-] <-]|[_ He']]; [|by apply H3]. cbn. by apply H3.
  - by apply delete_transfer_filed.
  - split; cbn; [|intros i b Hb; rewrite lookup_fmap, fmap_is_Some; by apply H2 in Hb|done].
    intros i x. rewrite lookup_fmap_Some. intros (y & <- & Hy). apply H1 in Hy. by case_bool_decide.
  - unfold prune_stale_transfers. cbn. generalize (transfer_id <$> filter (fun r => stale (cutoff_ms now age) r = true) (records g)). intros l.
    clear H1 H2 H3. revert g Hw. induction l as [|id l IH]; intros g Hw; [done|]. cbn. by apply IH, delete_transfer_filed.
Qed.

Lemma step_wf ok g g' : (forall g r, ok g r -> keeps_key g r) -> step ok g g' -> wf g -> wf g'.
Proof.
  intros Hok H Hw. destruct H as [r o g' Hf%Hok H|r g' Hf%Hok H|id b g' H|id|e|id f g' H|id|now|now age].
  - pose proof (upsert_ok g r Hw Hf) as Hu. rewrite H in Hu. destruct o; [tauto|by destruct Hu as [-> _]].
  - unfold update_transfer in H. destruct (transfers_by_id g !! transfer_id r) as [r'|] eqn:Hr; [|done]. injection H as <-.
    apply put_transfer_wf; [done..|]. intros i Hi. rewrite <- (Hf _ Hr), (wf_fwd _ Hw _ _ Hr) in Hi. congruence.
  - unfold write_bitmap in H. destruct (transfers_by_id g !! id) eqn:Hid; [|done]. injection H as <-.
    destruct Hw as [H1 H2 H3 H4 H5]. split; cbn; try done.
    intros i b'. rewrite lookup_insert_Some. intros [[<- _]|[_ Hb]]; [by eexists|by apply (H4 i b')].
  - destruct Hw as [H1 H2 H3 H4 H5]. split; cbn; try done.
    intros i b. rewrite lookup_delete_Some. intros [_ Hb]. by apply (H4 i b).
  - destruct Hw as [H1 H2 H3 H4 H5]. split; cbn; try done.
    intros i f e'. rewrite lookup_insert_Some. intros [[[= <- <-] <-]|[_ He]]; [done|by apply H5].
  - unfold mark_journal_committed in H. destruct (journal g !! (id, f)) as [e|] eqn:He; [|done].
    injection H as <-. destruct Hw as [H1 H2 H3 H4 H5]. split; cbn; try done.
    intros i k e'. rewrite lookup_insert_Some. intros [[[= <- <-] <-]|[_ He']]; [|by apply H5].
    cbn. by apply H5.
  - by apply delete_transfer_wf.
  - by apply mark_resumable_wf.
  - by apply delete_all_wf.
Qed.

(** What [recover_commit_journal] decides. *)
Lemma map_outcome_ok {E A B} (f : A -> outcome E B) (g : A -> B) l :
  (forall x, x ∈ l -> f x = Ok (g x)) -> map_outcome f l = Ok (g <$> l).
Proof.
  induction l as [|x l IH]; intros Hf; [done|]. cbn. rewrite Hf by set_solver. cbn.
  rewrite IH by set_solver. done.
Qed.
Definition action_of (e : CommitJournalEntry) : JournalRecovery :=
  match j_status e with
  | CRenamed => Finalize (j_transfer_id e) (j_file_id e)
  | _ => LeavePending (j_transfer_id e) (j_file_id e)
  end.
Lemma recover_ok g : recover_commit_journal g = Ok (action_of <$> pending_journal g).
Proof.
  apply map_outcome_ok. intros e He. apply list_elem_of_filter in He as [Hs _].
  unfold recovery_of, action_of. by destruct (j_status e).
Qed.

(** What an insert gives later callers with the same key. *)
Lemma reinsert g r r2 : key_of r2 = key_of r ->
  upsert_transfer (put_transfer g r) r2 =
  if verify_idempotency_compat r r2 then Ok (Reused r, put_transfer g r) else Err IdempotencyConflict.
Proof.
  intros Hk. unfold upsert_transfer, put_transfer at 1. cbn [idem_index]. rewrite Hk, lookup_insert_eq.
  cbn [transfers_by_id put_transfer]. by rewrite lookup_insert_eq.
Qed.

(** C29. Along any run of the store, whatever the records that callers give to it, a transfer is filed under its own id, every
    bitmap belongs to a transfer, and every journal row is filed under its own transfer and file. When moreover no record that is given to
    [upsert_transfer] or [update_transfer] has the id of a transfer that is there under another key, as the store itself does not check, the
    idempotency index and the transfers are in bijection. *)
Theorem store_invariant ok g : rtc (step ok) new g ->
  (forall id r, transfers_by_id g !! id = Some r -> transfer_id r = id) /\
  (forall id b, bitmaps g !! id = Some b -> is_Some (transfers_by_id g !! id)) /\
  (forall id f e, journal g !! (id, f) = Some e -> j_transfer_id e = id /\ j_file_id e = f) /\
  ((forall g r, ok g r -> keeps_key g r) ->
     (forall id r, transfers_by_id g !! id = Some r -> idem_index g !! key_of r = Some id) /\
     forall k id, idem_index g !! k = Some id -> exists r, transfers_by_id g !! id = Some r /\ key_of r = k).
Proof.
  intros H. assert (filed g) as [H1 H2 H3].
  { revert H. generalize new_filed. generalize new. intros g0 Hw H.
    induction H as [g|g1 g2 g3 H12 _ IH]; [done|]. apply IH. by apply (step_filed ok g1). }
  split_and!; [done..|]. intros Hok. assert (wf g) as [_ H4 H5 _ _]; [|by split].
  revert H. generalize new_wf. generalize new. intros g0 Hw H.
  induction H as [g|g1 g2 g3 H12 _ IH]; [done|]. apply IH; [done..|]. by apply (step_wf ok g1).
Qed.

(** Creating a transfer is idempotent: with a fresh id, [upsert_transfer] either reports a
    conflict, or returns the existing compatible transfer and changes nothing, or inserts; after
    an insert every later request with the same role and key gets that transfer back if its
    parameters agree and a conflict if they do not, and changes nothing. *)
Theorem upsert_idempotent g r : wf g -> transfers_by_id g !! transfer_id r = None ->
  match upsert_transfer g r with
  | Ok (Inserted, g') => wf g' /\ get_transfer_by_idempotency g' (role r) (idempotency_key r) = Ok r /\
      forall r2, key_of r2 = key_of r ->
        upsert_transfer g' r2 = if verify_idempotency_compat r r2 then Ok (Reused r, g')
                                else Err IdempotencyConflict
  | Ok (Reused x, g') => g' = g /\ key_of x = key_of r /\ verify_idempotency_compat x r = true /\
      transfers_by_id g !! transfer_id x = Some x
  | Err e => e = IdempotencyConflict
  | Panic => False
  end.
Proof.
  intros Hw Hf. pose proof (upsert_ok g r Hw ltac:(intros r'; congruence)) as Hu.
  destruct (upsert_transfer g r) as [[[|x] g']|e|] eqn:He; try done.
  destruct Hu as (Hn & Hw' & Hg). split; [done|]. split; [done|]. intros r2 Hk.
  unfold upsert_transfer in He. rewrite Hn in He. injection He as <-. by apply reinsert.
Qed.

(** Pruning removes exactly the stale transfers, with their bitmaps, and keeps every other
    transfer as it is: those that are neither committed nor cancelled, and those updated since
    the cutoff. *)
Theorem prune_exact g now age : wf g ->
  let '(n, g') := prune_stale_transfers g now age in
  wf g' /\
  forall id, transfers_by_id g' !! id =
    match transfers_by_id g !! id with
    | Some r => if stale (cutoff_ms now age) r then None else Some r
    | None => None
    end.
Proof.
  intros Hw. unfold prune_stale_transfers. split; [by apply delete_all_wf|]. intros id.
  rewrite delete_all_lookup. pose proof (stale_ids g now age id Hw) as Hs.
  case_bool_decide as Hin.
  - apply Hs in Hin as (r & -> & ->). done.
  - destruct (transfers_by_id g !! id) as [r|] eqn:Hr; [|done].
    destruct (stale (cutoff_ms now age) r) eqn:Hst; [|done]. exfalso. apply Hin, Hs. by exists r.
Qed.

(** Crash recovery reads the whole journal without a panic: every renamed row is to be
    finalised, every pending row left pending, and committed rows are not touched. *)
Theorem recovery_complete g : wf g -> exists l, recover_commit_journal g = Ok l /\
  (forall id f, Finalize id f ∈ l <->
     exists e, journal g !! (id, f) = Some e /\ j_status e = CRenamed) /\
  (forall id f, LeavePending id f ∈ l <->
     exists e, journal g !! (id, f) = Some e /\ j_status e = CPending).
Proof.
  intros Hw. exists (action_of <$> pending_journal g). split; [apply recover_ok|].
  assert (Hin : forall a, a ∈ (action_of <$> pending_journal g) <->
    exists id f e, journal g !! (id, f) = Some e /\ j_status e <> CCommitted /\ a = action_of e).
  { intros a. unfold pending_journal, journal_entries. rewrite list_elem_of_fmap. split.
    - intros (e & -> & He). apply list_elem_of_filter in He as [Hs He].
      apply list_elem_of_fmap in He as ([[id f] e'] & -> & He). apply elem_of_map_to_list in He. by eauto 10.
    - intros (id & f & e & He & Hs & ->). exists e. split; [done|]. apply list_elem_of_filter. split; [done|].
      apply list_elem_of_fmap. exists ((id, f), e). split; [done|]. by apply elem_of_map_to_list. }
  split; intros id f; rewrite Hin; split.
  all: try (intros (i & k & e & He & Hs & Ha); destruct (wf_journal _ Hw _ _ _ He) as [<- <-];
            unfold action_of in Ha; destruct (j_status e) eqn:Hst; simplify_eq; by eauto).
  all: intros (e & He & Hs); exists id, f, e; destruct (wf_journal _ Hw _ _ _ He) as [<- <-];
       unfold action_of; rewrite Hs; done.
Qed.

End MockStateStore.

(** ** The theorems at concrete stores *)
Module StoreExamples.
Import MockStateStore.

Definition rec (id key : Z) (s : TransferStatus) : TransferRecord :=
  mk_record (replicate 16 id) [key] Server Upload s [100] [] 10 (replicate 32 0) 0 0 0 [] 5 5.
Definition g1 : t := put_transfer new (rec 1 7 Committed).
Definition g2 : t := write_journal g1 (mk_entry (replicate 16 1) 0 [100] CRenamed 5).

(** A second transfer, then the first under another key. *)
Definition g3 : t := put_transfer (put_transfer g1 (rec 2 8 Active)) (rec 1 9 Committed).

Lemma g1_wf : wf g1.
Proof. apply (step_wf keeps_key new); [done| |apply new_wf]. by apply (step_upsert _ new (rec 1 7 Committed) Inserted). Qed.
Lemma g2_wf : wf g2.
Proof. apply (step_wf keeps_key g1); [done|apply step_write_journal|apply g1_wf]. Qed.

Lemma store_invariant_witness :
  (forall id r, transfers_by_id g3 !! id = Some r -> transfer_id r = id) /\
  forall k id, idem_index g1 !! k = Some id -> exists r, transfers_by_id g1 !! id = Some r /\ key_of r = k.
Proof.
  split.
  - apply (store_invariant (fun _ _ => True) g3). apply rtc_l with g1; [by apply (step_upsert _ new (rec 1 7 Committed) Inserted)|].
    apply rtc_l with (put_transfer g1 (rec 2 8 Active)); [by apply (step_upsert _ g1 (rec 2 8 Active) Inserted)|].
    apply rtc_once. by apply (step_update _ _ (rec 1 9 Committed)).
  - apply (store_invariant keeps_key g1); [|done]. apply rtc_once. by apply (step_upsert _ new (rec 1 7 Committed) Inserted).
Defined.

(** After that the index has two keys for one transfer, and after its deletion one that the next create under it takes for a corrupt store. *)
Example stale_key : get_transfer_by_idempotency g3 Server [7] = Ok (rec 1 9 Committed) /\
  upsert_transfer (delete_transfer g3 (replicate 16 1)) (rec 3 7 Active) = Err Corrupt.
Proof. by vm_compute. Qed.

Lemma upsert_idempotent_witness :
  match upsert_transfer g1 (rec 2 8 Active) with
  | Ok (Inserted, g') => wf g' /\ get_transfer_by_idempotency g' Server [8] = Ok (rec 2 8 Active) /\
      forall r2, key_of r2 = key_of (rec 2 8 Active) ->
        upsert_transfer g' r2 = if verify_idempotency_compat (rec 2 8 Active) r2
                                then Ok (Reused (rec 2 8 Active), g') else Err IdempotencyConflict
  | Ok (Reused x, g') => g' = g1 /\ key_of x = key_of (rec 2 8 Active) /\
      verify_idempotency_compat x (rec 2 8 Active) = true /\
      transfers_by_id g1 !! transfer_id x = Some x
  | Err e => e = IdempotencyConflict
  | Panic => False
  end.
Proof. apply (upsert_idempotent g1 (rec 2 8 Active)); [apply g1_wf|vm_compute; reflexivity]. Defined.

Lemma prune_exact_witness :
  let '(n, g') := prune_stale_transfers g1 10000 1 in
  wf g' /\
  forall id, transfers_by_id g' !! id =
    match transfers_by_id g1 !! id with
    | Some r => if stale (cutoff_ms 10000 1) r then None else Some r
    | None => None
    end.
Proof. apply (prune_exact g1 10000 1). apply g1_wf. Defined.

Lemma recovery_complete_witness : exists l, recover_commit_journal g2 = Ok l /\
  (forall id f, Finalize id f ∈ l <->
     exists e, journal g2 !! (id, f) = Some e /\ j_status e = CRenamed) /\
  (forall id f, LeavePending id f ∈ l <->
     exists e, journal g2 !! (id, f) = Some e /\ j_status e = CPending).
Proof. apply (recovery_complete g2). apply g2_wf. Defined.

End StoreExamples.
