(* ===== verification/Ledger.v ===== *)
(** The idempotency ledger (crates/velcrux-core/src/state/ledger.rs): the in-memory registry
    of [TRANSFER_CREATE] requests with its fallback to the state store.

    The [RwLock] is the [poisoned] flag: [read()] and [write()] fail once a holder panicked and
    the code then skips the guarded block. [Instant]s are nanoseconds; the clock reading, the
    generated id and the store's answer are arguments. *)

From stdpp Require Import gmap.
From S2P Require Import Prelude Protocol Wire Bitmap StateStore.

Module Ledger.

(** The [format!] texts of a conflict, by what they report. *)
Inductive ConflictReason :=
  | UsedForPath (key used received : bytes)
  | UsedForSize (key : bytes) (used received : Z)
  | PreviouslyCancelled (key : bytes)
  | RegisteredForPath (key registered received : bytes)
  | RegisteredForSize (key : bytes) (registered received : Z)
  | CancelledInDb (key : bytes).

Inductive IdempotencyAction :=
  | ProceedNew (id : TransferId)
  | ReplayActive (id : TransferId)
  | ReplayCommitted (id : TransferId) (files : Z)
  | ResumeExisting (id : TransferId) (bytes_completed : Z)
  | Conflict (why : ConflictReason).

Record LedgerEntry := mk_ledger_entry {
  e_transfer_id : TransferId; e_role : Role; e_idempotency_key : bytes; e_remote_path : bytes;
  e_expected_size : Z; e_status : TransferStatus; e_created_at : Z; e_updated_at : Z;
  e_committed_files : option Z }.

Record t := mk { entries : gmap (Role * bytes) LedgerEntry; poisoned : bool }.

Definition new : t := mk ∅ false.

(** The arguments of one [evaluate_transfer_create]. *)
Record request := mk_request {
  q_role : Role; q_key : bytes; q_path : bytes; q_size : Z }.
Definition key_of (q : request) : Role * bytes := (q_role q, q_key q).

(** 1. The in-memory check under the read lock; [None] falls through. *)
Definition check_entries (l : t) (q : request) : option IdempotencyAction :=
  if poisoned l then None else
  match entries l !! key_of q with
  | None => None
  | Some e =>
      if bool_decide (e_remote_path e <> q_path q)
      then Some (Conflict (UsedForPath (q_key q) (e_remote_path e) (q_path q)))
      else if negb (e_expected_size e =? q_size q)
      then Some (Conflict (UsedForSize (q_key q) (e_expected_size e) (q_size q)))
      else Some match e_status e with
                | Active => ReplayActive (e_transfer_id e)
                | Committed => ReplayCommitted (e_transfer_id e) (default 1 (e_committed_files e))
                | Resumable => ResumeExisting (e_transfer_id e) 0
                | Cancelled => Conflict (PreviouslyCancelled (q_key q))
                end
  end.

(** A guarded insert: nothing when the lock is poisoned. *)
Definition insert_entry (l : t) (q : request) (e : LedgerEntry) : t :=
  if poisoned l then l else mk (<[key_of q := e]> (entries l)) false.

Definition entry_for (q : request) (id : TransferId) (s : TransferStatus) (now : Z)
    (files : option Z) : LedgerEntry :=
  mk_ledger_entry id (q_role q) (q_key q) (q_path q) (q_size q) s now now files.

(** 2. The durable record, cached when its parameters agree. *)
Definition from_record (l : t) (q : request) (r : TransferRecord) (now : Z)
    : IdempotencyAction * t :=
  if bool_decide (remote_path r <> q_path q)
  then (Conflict (RegisteredForPath (q_key q) (remote_path r) (q_path q)), l)
  else if negb (file_size r =? q_size q)
  then (Conflict (RegisteredForSize (q_key q) (file_size r) (q_size q)), l)
  else
    let files := if bool_decide (status r = Committed) then Some 1 else None in
    let l' := insert_entry l q (entry_for q (transfer_id r) (status r) now files) in
    (match status r with
     | Active => ReplayActive (transfer_id r)
     | Committed => ReplayCommitted (transfer_id r) 1
     | Resumable => ResumeExisting (transfer_id r) (bytes_completed r)
     | Cancelled => Conflict (CancelledInDb (q_key q))
     end, l').

(** The store's answer: [None] when there is no store or the lookup fails. *)
Definition store_record (store : option MockStateStore.t) (q : request) : option TransferRecord :=
  match store with
  | None => None
  | Some s =>
      match MockStateStore.get_transfer_by_idempotency s (q_role q) (q_key q) with
      | Ok r => Some r
      | _ => None
      end
  end.

(** 2 and 3, after the read lock was released. *)
Definition resolve_miss (l : t) (q : request) (record : option TransferRecord) (now : Z)
    (new_id : TransferId) : IdempotencyAction * t :=
  match record with
  | Some r => from_record l q r now
  | None => (ProceedNew new_id, insert_entry l q (entry_for q new_id Active now None))
  end.

Definition evaluate_transfer_create (l : t) (q : request) (store : option MockStateStore.t)
    (now : Z) (new_id : TransferId) : IdempotencyAction * t :=
  match check_entries l q with
  | Some a => (a, l)
  | None => resolve_miss l q (store_record store q) now new_id
  end.

(** [get_mut] on an entry under the write lock. *)
Definition modify (l : t) (r : Role) (key : bytes) (f : LedgerEntry -> LedgerEntry) : t :=
  if poisoned l then l else
  match entries l !! (r, key) with
  | None => l
  | Some e => mk (<[(r, key) := f e]> (entries l)) false
  end.
Definition set_status (s : TransferStatus) (files : option Z) (now : Z) (e : LedgerEntry)
    : LedgerEntry :=
  mk_ledger_entry (e_transfer_id e) (e_role e) (e_idempotency_key e) (e_remote_path e)
    (e_expected_size e) s (e_created_at e) now files.

Definition mark_committed (l : t) (r : Role) (key : bytes) (files now : Z) : t :=
  modify l r key (set_status Committed (Some files) now).
Definition mark_resumable (l : t) (r : Role) (key : bytes) (now : Z) : t :=
  modify l r key (fun e => set_status Resumable (e_committed_files e) now e).
Definition mark_cancelled (l : t) (r : Role) (key : bytes) (now : Z) : t :=
  modify l r key (fun e => set_status Cancelled (e_committed_files e) now e).

Definition count_active (m : gmap (Role * bytes) LedgerEntry) : Z :=
  Z.of_nat (size (filter (fun kv => e_status kv.2 = Active) m)).
Definition active_count (l : t) : Z := if poisoned l then 0 else count_active (entries l).
Definition total_count (l : t) : Z := if poisoned l then 0 else Z.of_nat (size (entries l)).

(** [Instant::duration_since] saturates at zero. *)
Definition retained (now ttl : Z) (e : LedgerEntry) : bool :=
  bool_decide (e_status e = Active) || (saturating_sub now (e_updated_at e) <? ttl).
Definition prune_older_than (l : t) (now ttl : Z) : Z * t :=
  if poisoned l then (0, l) else
  let kept := filter (fun kv => retained now ttl kv.2 = true) (entries l) in
  (Z.of_nat (size (entries l)) - Z.of_nat (size kept), mk kept false).

(** ** One caller at a time *)

(** Everything a caller does to the ledger. *)
Inductive op :=
  | OpCreate (q : request) (store : option MockStateStore.t) (now : Z) (new_id : TransferId)
  | OpCommitted (r : Role) (key : bytes) (files now : Z)
  | OpResumable (r : Role) (key : bytes) (now : Z)
  | OpCancelled (r : Role) (key : bytes) (now : Z)
  | OpPrune (now ttl : Z).
Definition apply_op (l : t) (o : op) : t :=
  match o with
  | OpCreate q store now new_id => (evaluate_transfer_create l q store now new_id).2
  | OpCommitted r key files now => mark_committed l r key files now
  | OpResumable r key now => mark_resumable l r key now
  | OpCancelled r key now => mark_cancelled l r key now
  | OpPrune now ttl => (prune_older_than l now ttl).2
  end.
Definition is_prune (o : op) : bool := match o with OpPrune _ _ => true | _ => false end.

(** What an entry is bound to for its whole life, and what changes: its status, its count of files and the time of the last change. *)
Definition bound (e : LedgerEntry) : TransferId * bytes * Z :=
  (e_transfer_id e, e_remote_path e, e_expected_size e).
Definition progress : Type := TransferStatus * option Z * Z.
Definition progress_of (e : LedgerEntry) : progress := (e_status e, e_committed_files e, e_updated_at e).

(** *** What a caller is promised *)

(** The answer to a retry. *)
Definition answer (q : request) (id : TransferId) (s : progress) : IdempotencyAction :=
  match s.1.1 with
  | Active => ReplayActive id
  | Committed => ReplayCommitted id (default 1 s.1.2)
  | Resumable => ResumeExisting id 0
  | Cancelled => Conflict (PreviouslyCancelled (q_key q))
  end.
(** The transfer under a key through an operation: marks set its status, and pruning forgets it when it is old and has any other status than
    [Active]. *)
Definition track (k : Role * bytes) (s : option progress) (o : op) : option progress :=
  match s with
  | None => None
  | Some (st, files, at_) =>
      match o with
      | OpCreate _ _ _ _ => s
      | OpCommitted r key n now => if bool_decide ((r, key) = k) then Some (Committed, Some n, now) else s
      | OpResumable r key now => if bool_decide ((r, key) = k) then Some (Resumable, files, now) else s
      | OpCancelled r key now => if bool_decide ((r, key) = k) then Some (Cancelled, files, now) else s
      | OpPrune now ttl => if bool_decide (st = Active) || (saturating_sub now at_ <? ttl) then s else None
      end
  end.
(** Operations that mark the transfer under a key as committed, resumable or cancelled. *)
Definition leaves_active (k : Role * bytes) (o : op) : bool :=
  match o with
  | OpCommitted r key _ _ | OpResumable r key _ | OpCancelled r key _ => bool_decide ((r, key) = k)
  | _ => false
  end.

Lemma track_none k os : foldl (track k) None os = None.
Proof. by induction os. Qed.
Lemma track_unpruned k os : forall s, forallb (fun o => negb (is_prune o)) os = true -> is_Some (foldl (track k) (Some s) os).
Proof.
  induction os as [|o os IH]; intros [[st files] at_] Ho; [by eexists|]. cbn in Ho. apply andb_prop in Ho as [H1 H2]. cbn [foldl].
  destruct o; cbn [track]; try done; repeat case_bool_decide; by apply IH.
Qed.
Lemma track_active k now os : forallb (fun o => negb (leaves_active k o)) os = true ->
  foldl (track k) (Some (Active, None, now)) os = Some (Active, None, now).
Proof.
  induction os as [|o os IH]; intros Ho; [done|]. cbn in Ho. apply andb_prop in Ho as [H1 H2]. cbn [foldl].
  destruct o; cbn [track leaves_active] in *; rewrite ?(proj1 (negb_true_iff _) H1), ?bool_decide_true by done; by apply IH.
Qed.

(** *** The ledger keeps the promise *)

Definition tracked (l : t) (k : Role * bytes) (b : TransferId * bytes * Z) (s : progress) : Prop :=
  poisoned l = false /\ exists e, entries l !! k = Some e /\ bound e = b /\ progress_of e = s.

Lemma modify_other l r key f k b s : (r, key) <> k -> tracked l k b s -> tracked (modify l r key f) k b s.
Proof.
  intros Hne (Hp & e & He & Hes). unfold modify. rewrite Hp. destruct (entries l !! (r, key)); [|by split; [|exists e]].
  split; [done|]. exists e. cbn. by rewrite lookup_insert_ne.
Qed.
Lemma modify_tracked l r key f b s e : entries l !! (r, key) = Some e -> poisoned l = false -> bound (f e) = b -> progress_of (f e) = s ->
  tracked (modify l r key f) (r, key) b s.
Proof. intros He Hp Hb Hs. unfold modify. rewrite Hp, He. split; [done|]. exists (f e). cbn. by rewrite lookup_insert_eq. Qed.

Lemma check_hit l q b s : tracked l (key_of q) b s -> is_Some (check_entries l q).
Proof. intros (Hp & e & He & _). unfold check_entries. rewrite Hp, He. repeat case_match; by eexists. Qed.

Lemma op_tracked l o k b s s' : tracked l k b s -> track k (Some s) o = Some s' -> tracked (apply_op l o) k b s'.
Proof.
  intros Hl. pose proof Hl as (Hp & e & He & Hb & Hs).
  destruct s as [[st files] at_], o as [q store now id|r key n now|r key now|r key now|now ttl]; cbn [track apply_op].
  2-4: case_bool_decide as Hk; intros [= <-];
       [subst k; eapply modify_tracked; try done; injection Hs as <- <- <-; done|by apply modify_other].
  - intros [= <-]. unfold evaluate_transfer_create. destruct (check_entries l q) eqn:Hc; [done|].
    assert (Hne : key_of q <> k).
    { intros <-. destruct (check_hit _ _ _ _ Hl). congruence. }
    unfold resolve_miss, from_record, insert_entry. rewrite Hp.
    repeat case_match; cbn [snd]; try done; (split; [done|]; exists e; cbn; by rewrite lookup_insert_ne).
  - destruct (_ || _) eqn:Hr; [|done]. intros [= <-]. unfold prune_older_than. rewrite Hp. split; [done|]. exists e. split; [|done]. cbn.
    apply map_lookup_filter_Some. split; [done|]. cbn. unfold retained. by injection Hs as <- <- <-.
Qed.
Lemma ops_tracked os : forall l k b s s', tracked l k b s -> foldl (track k) (Some s) os = Some s' -> tracked (foldl apply_op l os) k b s'.
Proof.
  induction os as [|o os IH]; intros l k b s s' Hl Hs; [by injection Hs as <-|]. cbn [foldl] in *.
  destruct (track k (Some s) o) as [s1|] eqn:Ho; [|by rewrite track_none in Hs]. eapply IH; [by eapply op_tracked|done].
Qed.

Lemma check_answer l q id s : tracked l (key_of q) (id, q_path q, q_size q) s -> check_entries l q = Some (answer q id s).
Proof.
  intros (Hp & e & He & [= <- Hpa Hsz] & <-). unfold check_entries. rewrite Hp, He, Hpa, Hsz.
  rewrite bool_decide_false by tauto. by rewrite Z.eqb_refl.
Qed.
Lemma check_conflict l q id p s st : tracked l (key_of q) (id, p, s) st ->
  (p, s) <> (q_path q, q_size q) -> exists why, check_entries l q = Some (Conflict why).
Proof.
  intros (Hp & e & He & [= <- <- <-] & _) Hne. unfold check_entries. rewrite Hp, He.
  case_bool_decide; [by eexists|]. destruct (e_expected_size e =? q_size q) eqn:Hs; [|by eexists].
  exfalso. apply Hne. f_equal; [tauto|lia].
Qed.
Lemma prune_forgets l k b s now ttl : tracked l k b s -> track k (Some s) (OpPrune now ttl) = None ->
  entries (prune_older_than l now ttl).2 !! k = None.
Proof.
  intros (Hp & e & He & _ & <-). cbn [track progress_of]. destruct (_ || _) eqn:Hr; [done|]. intros _. unfold prune_older_than. rewrite Hp. cbn.
  apply map_lookup_filter_None. right. intros e' He'. rewrite He in He'. injection He' as <-. cbn. unfold retained. by rewrite Hr.
Qed.

Lemma proceed_tracked l q store now new_id : poisoned l = false ->
  forall id l', evaluate_transfer_create l q store now new_id = (ProceedNew id, l') ->
  id = new_id /\ tracked l' (key_of q) (new_id, q_path q, q_size q) (Active, None, now).
Proof.
  intros Hp id l'. unfold evaluate_transfer_create, check_entries. rewrite Hp.
  destruct (entries l !! key_of q) as [e|] eqn:He; [repeat case_match; intros; congruence|].
  unfold resolve_miss. destruct (store_record store q) as [r|].
  - unfold from_record. repeat case_match; intros; congruence.
  - intros [= -> <-]. split; [done|]. unfold insert_entry. rewrite Hp. split; [done|]. eexists. cbn.
    rewrite lookup_insert_eq. by split_and!.
Qed.

(** C28. Retries do not create duplicates. Calls come one after another, the lock is not poisoned, and [evaluate_transfer_create] let a
    transfer proceed under a key. As long as the transfer is remembered ([track]), a retry of the request gets exactly the answer of its last mark
    ([answer]): it attaches to the active transfer, replays the committed one, resumes the resumable one, and is refused with a conflict when the
    transfer was cancelled; a request that reuses the key for another path or size gets a conflict; and neither changes the ledger. Without pruning
    the transfer is remembered; while nothing marks it as committed, resumable or cancelled it stays active through anything, pruning included. A
    pruning forgets it exactly when it is marked, as resumable too, and the mark is as old as the limit; the key is then free again. Two
    calls at a time are not covered ([ledger_race]). *)
Theorem ledger_idempotent l q store now new_id id l1 os store2 now2 id2 :
  poisoned l = false ->
  evaluate_transfer_create l q store now new_id = (ProceedNew id, l1) ->
  let l2 := foldl apply_op l1 os in
  let s2 := foldl (track (key_of q)) (Some (Active, None, now)) os in
  (forall s, s2 = Some s ->
     evaluate_transfer_create l2 q store2 now2 id2 = (answer q id s, l2) /\
     (forall q', key_of q' = key_of q -> (q_path q', q_size q') <> (q_path q, q_size q) ->
       exists why, evaluate_transfer_create l2 q' store2 now2 id2 = (Conflict why, l2)) /\
     forall now' ttl, track (key_of q) (Some s) (OpPrune now' ttl) = None -> entries (prune_older_than l2 now' ttl).2 !! key_of q = None) /\
  (forallb (fun o => negb (is_prune o)) os = true -> is_Some s2) /\
  (forallb (fun o => negb (leaves_active (key_of q) o)) os = true -> s2 = Some (Active, None, now)).
Proof.
  intros Hp He l2 s2. destruct (proceed_tracked _ _ _ _ _ Hp _ _ He) as [-> Ht].
  split_and!; [|apply track_unpruned|apply track_active]. intros s Hs. pose proof (ops_tracked os _ _ _ _ _ Ht Hs) as Ht2. fold l2 in Ht2. split_and!.
  - unfold evaluate_transfer_create. by rewrite (check_answer _ _ _ _ Ht2).
  - intros q' Hk Hne. rewrite <- Hk in Ht2. destruct (check_conflict _ q' _ _ _ _ Ht2) as [why Hc]; [congruence|].
    exists why. unfold evaluate_transfer_create. by rewrite Hc.
  - intros now' ttl. by apply (prune_forgets l2 _ (new_id, q_path q, q_size q)).
Qed.

(** ** Concurrent callers

    [evaluate_transfer_create] releases the read lock before it takes the write lock, so a call
    is two atomic steps. *)

Inductive call :=
  | Start (q : request)
  | Missed (q : request)
  | Done (q : request) (a : IdempotencyAction).

Definition read_step (l : t) (q : request) : call :=
  match check_entries l q with Some a => Done q a | None => Missed q end.

Inductive cstep (store : option MockStateStore.t) : t * list call -> t * list call -> Prop :=
  | cs_read l i q cs : cs !! i = Some (Start q) ->
      cstep store (l, cs) (l, <[i := read_step l q]> cs)
  | cs_write l i q cs now new_id : cs !! i = Some (Missed q) ->
      cstep store (l, cs)
        ((resolve_miss l q (store_record store q) now new_id).2,
         <[i := Done q (resolve_miss l q (store_record store q) now new_id).1]> cs).

(** A call run without interference is [evaluate_transfer_create]. *)
Lemma uninterrupted store l cs i q now new_id : cs !! i = Some (Start q) ->
  exists cs', rtc (cstep store) (l, cs)
    ((evaluate_transfer_create l q store now new_id).2, cs') /\
    cs' !! i = Some (Done q (evaluate_transfer_create l q store now new_id).1).
Proof.
  intros Hi. assert (Hl : (i < length cs)%nat) by (apply lookup_lt_Some in Hi; lia).
  unfold evaluate_transfer_create. destruct (check_entries l q) as [a|] eqn:Hc.
  - exists (<[i := Done q a]> cs). rewrite list_lookup_insert_eq by lia. split; [|done].
    apply rtc_once. pose proof (cs_read store l i q cs Hi) as H. unfold read_step in H.
    by rewrite Hc in H.
  - eexists. split.
    + eapply rtc_l; [by apply (cs_read store l i q cs)|]. unfold read_step. rewrite Hc.
      apply rtc_once. apply (cs_write store l i q _ now new_id). by rewrite list_lookup_insert_eq.
    + rewrite list_lookup_insert_eq; [done|]. rewrite length_insert. lia.
Qed.

(** Two concurrent requests with the same key can both be told to proceed, with different
    transfer ids, because the ledger is checked under the read lock and written under the write
    lock; the second write replaces the first entry. *)
Theorem ledger_race q id1 id2 :
  exists l, rtc (cstep None) (new, [Start q; Start q])
              (l, [Done q (ProceedNew id1); Done q (ProceedNew id2)]) /\
    e_transfer_id <$> entries l !! key_of q = Some id2.
Proof.
  eexists. split.
  - eapply rtc_l; [by apply (cs_read None new 0 q)|]. eapply rtc_l; [by apply (cs_read None new 1 q)|].
    assert (Hm : read_step new q = Missed q) by (unfold read_step, check_entries; cbn; by rewrite lookup_empty).
    rewrite Hm. cbn [list_insert insert].
    eapply rtc_l; [by apply (cs_write None _ 0 q _ 0 id1)|]. eapply rtc_l; [by apply (cs_write None _ 1 q _ 0 id2)|].
    apply rtc_refl.
  - cbn. by rewrite lookup_insert_eq.
Qed.

End Ledger.

(** ** The theorem at a concrete request *)
Module LedgerExamples.
Import Ledger.

Definition req : request := mk_request Server [1; 2] [3] 10.
Definition l1 : t := (evaluate_transfer_create new req None 0 [9]).2.
Definition later : list op :=
  [OpCreate (mk_request Client [1; 2] [3] 10) None 1 [8]; OpPrune 99 1; OpCommitted Server [1; 2] 4 100].

Lemma ledger_idempotent_witness :
  let l2 := foldl apply_op l1 later in
  evaluate_transfer_create l2 req None 2 [7] = (ReplayCommitted [9] 4, l2) /\
  (exists why, evaluate_transfer_create l2 (mk_request Server [1; 2] [3] 11) None 2 [7] = (Conflict why, l2)) /\
  entries (prune_older_than l2 200 50).2 !! key_of req = None.
Proof.
  destruct (ledger_idempotent new req None 0 [9] [9] l1 later None 2 [7] ltac:(vm_compute; reflexivity) ltac:(vm_compute; reflexivity)) as [Hs _].
  destruct (Hs (Committed, Some 4, 100) ltac:(vm_compute; reflexivity)) as (H1 & H2 & H3). split_and!.
  - exact H1.
  - apply H2; [reflexivity|discriminate].
  - apply H3. vm_compute. reflexivity.
Defined.

(** A transfer that is only interrupted is forgotten as well: the retry starts another one. *)
Example resumable_pruned : (evaluate_transfer_create (foldl apply_op l1 [OpResumable Server [1; 2] 1; OpPrune 99 1]) req None 100 [7]).1 = ProceedNew [7].
Proof. vm_compute. reflexivity. Qed.

End LedgerExamples.
