(* ===== verification/Paths.v ===== *)
(** Virtual paths (crates/velcrux-core/src/storage/mod.rs, lines 105-385): [VPath::validate],
    the lexical check of symlink targets, and the string functions of the standard library that
    they use, on UTF-8 bytes. The reference for both is [resolve], the way a POSIX kernel walks
    the components of a path from a directory below the root. *)

From S2P Require Import Prelude Utf8 Protocol.

(** ** [str] functions *)
Module Str.

Definition SLASH : Z := 47.
Definition BACKSLASH : Z := 92.
Definition COLON : Z := 58.

(** [str::starts_with], [ends_with] and [contains] of a string pattern. *)
Fixpoint starts_with (p s : bytes) : bool :=
  match p, s with
  | [], _ => true
  | x :: p', y :: s' => (x =? y) && starts_with p' s'
  | _ :: _, [] => false
  end.
Definition ends_with (p s : bytes) : bool := starts_with (reverse p) (reverse s).
Fixpoint contains (p s : bytes) : bool :=
  starts_with p s || match s with [] => false | _ :: s' => contains p s' end.

(** [str::split] with a predicate on (ASCII) separators: always at least one piece. *)
Fixpoint split (sep : Z -> bool) (s : bytes) : list bytes :=
  match s with
  | [] => [[]]
  | b :: s' =>
      if sep b then [] :: split sep s'
      else match split sep s' with [] => [[b]] | c :: cs => (b :: c) :: cs end
  end.
Definition split_on (c : Z) : bytes -> list bytes := split (Z.eqb c).

(** [[&str]::join("/")]. *)
Fixpoint join (cs : list bytes) : bytes :=
  match cs with
  | [] => []
  | [c] => c
  | c :: cs' => c ++ SLASH :: join cs'
  end.

(** [str::replace(pat, rep)] for a non-empty pattern: left to right, without overlaps; [skip]
    counts the bytes of a match still to be dropped. *)
Fixpoint replace_skip (pat rep : bytes) (skip : nat) (s : bytes) : bytes :=
  match s with
  | [] => []
  | b :: s' =>
      match skip with
      | S k => replace_skip pat rep k s'
      | O => if starts_with pat s then rep ++ replace_skip pat rep (length pat - 1) s'
             else b :: replace_skip pat rep 0 s'
      end
  end.
Definition replace (pat rep s : bytes) : bytes := replace_skip pat rep 0 s.

(** [to_ascii_lowercase] and [to_ascii_uppercase]. *)
Definition to_ascii_lowercase (s : bytes) : bytes :=
  (fun b => if Utf8.in_range 65 90 b then b + 32 else b) <$> s.
Definition to_ascii_uppercase (s : bytes) : bytes :=
  (fun b => if Utf8.in_range 97 122 b then b - 32 else b) <$> s.

(** [s.chars().any(char::is_control)]: the characters U+0000 to U+001F and U+007F to U+009F. *)
Fixpoint has_control (s : bytes) : bool :=
  match s with
  | [] => false
  | b :: s' =>
      (b <? 0x20) || (b =? 0x7F)
      || ((b =? 0xC2) && match s' with c :: _ => Utf8.in_range 0x80 0x9F c | [] => false end)
      || has_control s'
  end.

(** The three-byte characters of [White_Space]: U+1680, U+2000 to U+200A, U+2028, U+2029,
    U+202F, U+205F and U+3000. *)
Definition is_ws3 (a b c : Z) : bool :=
  ((a =? 0xE1) && (b =? 0x9A) && (c =? 0x80))
  || ((a =? 0xE2) && (b =? 0x80)
      && (Utf8.in_range 0x80 0x8A c || (c =? 0xA8) || (c =? 0xA9) || (c =? 0xAF)))
  || ((a =? 0xE2) && (b =? 0x81) && (c =? 0x9F))
  || ((a =? 0xE3) && (b =? 0x80) && (c =? 0x80)).
Definition is_ws2 (a b : Z) : bool := (a =? 0xC2) && ((b =? 0x85) || (b =? 0xA0)).
Definition is_ws1 (a : Z) : bool := Utf8.in_range 9 13 a || (a =? 32).

(** [str::trim_start], and [trim_end] on the reversed bytes. *)
Fixpoint trim_start (s : bytes) : bytes :=
  match s with
  | [] => []
  | a :: s1 =>
      if is_ws1 a then trim_start s1 else
      match s1 with
      | [] => s
      | b :: s2 =>
          if is_ws2 a b then trim_start s2 else
          match s2 with
          | [] => s
          | c :: s3 => if is_ws3 a b c then trim_start s3 else s
          end
      end
  end.
Fixpoint trim_rev (s : bytes) : bytes :=
  match s with
  | [] => []
  | a :: s1 =>
      if is_ws1 a then trim_rev s1 else
      match s1 with
      | [] => s
      | b :: s2 =>
          if is_ws2 b a then trim_rev s2 else
          match s2 with
          | [] => s
          | c :: s3 => if is_ws3 c b a then trim_rev s3 else s
          end
      end
  end.
Definition trim (s : bytes) : bytes := reverse (trim_rev (reverse (trim_start s))).

(** ** Lemmas on strings *)

Lemma starts_with_prefix p s : starts_with p s = true <-> p `prefix_of` s.
Proof.
  revert s. induction p as [|x p IH]; intros [|y s]; cbn.
  - split; [by exists []|done].
  - split; [by eexists|done].
  - split; [done|]. intros [k Hk]. done.
  - rewrite andb_true_iff, Z.eqb_eq, IH. split.
    + intros [-> [k ->]]. by exists k.
    + intros [k Hk]. simplify_eq/=. split; [done|by exists k].
Qed.

Lemma ends_with_suffix p s : ends_with p s = true <-> p `suffix_of` s.
Proof.
  unfold ends_with. rewrite starts_with_prefix. by rewrite suffix_prefix_reverse.
Qed.

Lemma contains_cons p b s : contains p (b :: s) = starts_with p (b :: s) || contains p s.
Proof. done. Qed.

Lemma existsb_elem c s : existsb (Z.eqb c) s = false <-> c ∉ s.
Proof.
  rewrite <- not_true_iff_false, existsb_exists. split; intros H Hc; apply H.
  - exists c. rewrite Z.eqb_refl. split; [by apply list_elem_of_In|done].
  - destruct Hc as (x & Hx & ->%Z.eqb_eq). by apply list_elem_of_In.
Qed.

Lemma split_nonnil sep s : split sep s <> [].
Proof. destruct s as [|b s]; cbn; repeat case_match; done. Qed.

Lemma split_app sep c b s : Forall (fun x => sep x = false) c -> sep b = true ->
  split sep (c ++ b :: s) = c :: split sep s.
Proof.
  intros Hc Hb. induction Hc as [|x c Hx _ IH]; cbn; [by rewrite Hb|]. by rewrite Hx, IH.
Qed.

Lemma split_none sep c : Forall (fun x => sep x = false) c -> split sep c = [c].
Proof. induction 1 as [|x c Hx _ IH]; cbn; [done|]. by rewrite Hx, IH. Qed.

Lemma split_pieces sep s : Forall (Forall (fun x => sep x = false)) (split sep s).
Proof.
  induction s as [|b s IH]; cbn; [by repeat constructor|]. destruct (sep b) eqn:Hb.
  - by constructor.
  - destruct (split sep s); [by repeat constructor|]. inversion IH; subst. by repeat constructor.
Qed.

Lemma split_ext sep sep' s : Forall (fun x => sep x = sep' x) s -> split sep s = split sep' s.
Proof. induction 1 as [|b s Hb _ IH]; cbn; [done|]. by rewrite Hb, IH. Qed.

Lemma noslash c : Forall (fun x => (SLASH =? x) = false) c <-> SLASH ∉ c.
Proof. rewrite <- existsb_elem, Forall_forall. rewrite <- not_true_iff_false, existsb_exists.
  setoid_rewrite <- list_elem_of_In. split.
  - intros H (x & Hx & Hs). by rewrite H in Hs.
  - intros H x Hx. apply not_true_iff_false. naive_solver.
Qed.

Lemma join_cons c cs : join (c :: cs) = c ++ mjoin (cons SLASH <$> cs).
Proof.
  revert c. induction cs as [|d cs IH]; intros c; [cbn; by rewrite app_nil_r|].
  change (join (c :: d :: cs)) with (c ++ SLASH :: join (d :: cs)). by rewrite IH.
Qed.

Lemma join_split s : join (split_on SLASH s) = s.
Proof.
  unfold split_on. induction s as [|b s IH]; [done|]. cbn [split].
  pose proof (split_nonnil (Z.eqb SLASH) s). destruct (split (Z.eqb SLASH) s) as [|c cs]; [done|].
  destruct (Z.eqb_spec SLASH b) as [<-|].
  - change (join ([] :: c :: cs)) with (SLASH :: join (c :: cs)). by rewrite IH.
  - rewrite join_cons in *. cbn. by rewrite IH.
Qed.

Lemma split_join cs : cs <> [] -> Forall (fun c => SLASH ∉ c) cs -> split_on SLASH (join cs) = cs.
Proof.
  intros Hne H. induction H as [|c cs Hc%noslash Hcs IH]; [done|].
  destruct cs as [|d cs]; [by apply split_none|].
  change (join (c :: d :: cs)) with (c ++ SLASH :: join (d :: cs)). unfold split_on in *.
  rewrite split_app by done. by rewrite IH.
Qed.

Lemma split_noslash s : Forall (fun c => SLASH ∉ c) (split_on SLASH s).
Proof. eapply Forall_impl; [apply split_pieces|]. intros c. apply noslash. Qed.

End Str.

Abbreviation lit := Utf8.str_bytes.
Abbreviation SLASH := Str.SLASH.

(** ** Resolution of a path below the root *)

(** The directory stack, innermost first; [None] when [..] is applied at the root. *)
Fixpoint resolve (dir : list bytes) (cs : list bytes) : option (list bytes) :=
  match cs with
  | [] => Some dir
  | c :: cs' =>
      if bool_decide (c = []) || bool_decide (c = lit ".") then resolve dir cs'
      else if bool_decide (c = lit "..")
      then match dir with [] => None | _ :: dir' => resolve dir' cs' end
      else resolve (c :: dir) cs'
  end.

(** One pass of percent-decoding of dots and slashes, in either case. *)
Fixpoint pct_decode (s : bytes) : bytes :=
  match s with
  | [] => []
  | a :: s1 =>
      match s1 with
      | b :: c :: s3 =>
          if (a =? 37) && (b =? 50) && ((c =? 101) || (c =? 69)) then 46 :: pct_decode s3
          else if (a =? 37) && (b =? 50) && ((c =? 102) || (c =? 70)) then 47 :: pct_decode s3
          else a :: pct_decode s1
      | _ => a :: pct_decode s1
      end
  end.

(** [str::replace] of a three-byte pattern by one byte. *)
Section replace3.
Context (p q r x : Z).
Abbreviation rep := (Str.replace [p; q; r] [x]).

Lemma replace_skip_drop k s :
  Str.replace_skip [p; q; r] [x] k s = rep (drop k s).
Proof.
  revert k. induction s as [|b s IH]; intros [|k]; try done. cbn [drop]. rewrite <- IH. done.
Qed.

Lemma replace_cons b s : rep (b :: s) =
  if Str.starts_with [p; q; r] (b :: s) then x :: rep (drop 2 s) else b :: rep s.
Proof.
  unfold Str.replace at 1. cbn [Str.replace_skip]. case_match; [|done].
  cbn [app]. f_equal. change (length [p; q; r] - 1)%nat with 2%nat. by rewrite replace_skip_drop.
Qed.

Lemma replace_nil : rep [] = [].
Proof. done. Qed.
End replace3.

Lemma pct_decode_3 a b c s : pct_decode (a :: b :: c :: s) =
  if (a =? 37) && (b =? 50) && ((c =? 101) || (c =? 69)) then 46 :: pct_decode s
  else if (a =? 37) && (b =? 50) && ((c =? 102) || (c =? 70)) then 47 :: pct_decode s
  else a :: pct_decode (b :: c :: s).
Proof. done. Qed.

(** Induction that follows [pct_decode]: one byte or an escape of three. *)
Lemma bytes_ind3 (P : bytes -> Prop) : P [] -> (forall a, P [a]) -> (forall a b, P [a; b]) ->
  (forall a b c s, P s -> P (b :: c :: s) -> P (a :: b :: c :: s)) -> forall s, P s.
Proof.
  intros H0 H1 H2 H3 s. remember (length s) as k eqn:Hk. revert s Hk.
  induction k as [k IH] using lt_wf_ind. intros [|a [|b [|c s]]] ->; auto.
  apply H3; eapply IH; [|done| |done]; cbn; lia.
Qed.

Abbreviation rep_e := (Str.replace [37; 50; 101] [46]).
Abbreviation rep_E := (Str.replace [37; 50; 69] [46]).

(** Lower-casing an escape. *)
Lemma lower_is k (b : Z) : Utf8.in_range 97 122 k = true ->
  ((if Utf8.in_range 65 90 b then b + 32 else b) =? k) = ((b =? k) || (b =? k - 32)).
Proof. unfold Utf8.in_range. intros Hk. destruct ((65 <=? b) && (b <=? 90)) eqn:Hb; lia. Qed.

Lemma lower_not k (b : Z) : Utf8.in_range 97 122 k = false -> Utf8.in_range 65 90 k = false ->
  ((if Utf8.in_range 65 90 b then b + 32 else b) =? k) = (b =? k).
Proof. unfold Utf8.in_range. intros Hk Hk'. destruct ((65 <=? b) && (b <=? 90)) eqn:Hb; lia. Qed.

Definition esc_slash (s : bytes) : bool := Str.contains (lit "%2f") (Str.to_ascii_lowercase s).

Lemma esc_slash_3 a b c s : esc_slash (a :: b :: c :: s) =
  ((a =? 37) && (b =? 50) && ((c =? 102) || (c =? 70))) || esc_slash (b :: c :: s).
Proof.
  unfold esc_slash. cbn [Str.to_ascii_lowercase fmap list_fmap].
  rewrite Str.contains_cons. f_equal. change (lit "%2f") with [37; 50; 102].
  cbn [Str.starts_with]. rewrite (Z.eqb_sym 37), (Z.eqb_sym 50), (Z.eqb_sym 102).
  rewrite !lower_not, lower_is by done. rewrite andb_true_r. change (102 - 32) with 70.
  by rewrite andb_assoc.
Qed.

Lemma esc_slash_short s : (length s < 3)%nat -> esc_slash s = false.
Proof.
  unfold esc_slash. intros Hs. destruct s as [|a [|b [|c s]]]; cbn in Hs |- *; try done; try lia.
  all: rewrite ?andb_false_r; done.
Qed.

(** Decoding the slashes: a slash appears exactly when there was one or an escaped one. *)
Lemma slash_pct_decode s : SLASH ∈ pct_decode s <-> SLASH ∈ s \/ esc_slash s = true.
Proof.
  induction s as [|a|a b|a b c s IHs IH] using bytes_ind3.
  1-3: rewrite esc_slash_short by (cbn; lia); cbn [pct_decode]; intuition discriminate.
  rewrite pct_decode_3, esc_slash_3. unfold SLASH in *.
  destruct ((a =? 37) && (b =? 50) && ((c =? 101) || (c =? 69))) eqn:He.
  { rewrite !elem_of_cons, IHs.
    assert (a = 37 /\ b = 50 /\ (c = 101 \/ c = 69)) as (-> & -> & Hc) by lia.
    assert (Hr : esc_slash (50 :: c :: s) = esc_slash s).
    { destruct s as [|d s]; [by rewrite !esc_slash_short by (cbn; lia)|].
      rewrite esc_slash_3. change (50 =? 37) with false. cbn [andb orb].
      destruct s as [|e s]; [by rewrite !esc_slash_short by (cbn; lia)|].
      rewrite esc_slash_3. by replace (c =? 37) with false by lia. }
    rewrite Hr. replace ((c =? 102) || (c =? 70)) with false by lia. cbn [andb orb Z.eqb].
    destruct Hc as [->| ->]; naive_solver lia. }
  destruct ((a =? 37) && (b =? 50) && ((c =? 102) || (c =? 70))) eqn:Hf.
  { rewrite !elem_of_cons. naive_solver. }
  cbn [orb]. rewrite elem_of_cons, IH. rewrite (elem_of_cons (b :: c :: s)). tauto.
Qed.

(** The first replacement neither makes nor breaks the pattern of the second. *)
Lemma rep_e_starts s : Str.starts_with [50; 69] (rep_e s) = Str.starts_with [50; 69] s.
Proof.
  destruct s as [|a s]; [done|]. rewrite replace_cons.
  destruct (Str.starts_with [37; 50; 101] (a :: s)) eqn:Ha.
  { apply Str.starts_with_prefix in Ha as [k Hk]. simplify_eq/=. done. }
  cbn [Str.starts_with]. f_equal. destruct s as [|b s]; [done|]. rewrite replace_cons.
  destruct (Str.starts_with [37; 50; 101] (b :: s)) eqn:Hb; [|done].
  apply Str.starts_with_prefix in Hb as [k Hk]. simplify_eq/=. done.
Qed.

Lemma starts_pct3 x a b c s :
  Str.starts_with [37; 50; x] (a :: b :: c :: s) = (a =? 37) && (b =? 50) && (c =? x).
Proof.
  cbn [Str.starts_with]. rewrite andb_true_r, andb_assoc.
  by rewrite (Z.eqb_sym 37), (Z.eqb_sym 50), (Z.eqb_sym x).
Qed.

(** Decoding the dots in two passes, as [validate] does, is decoding them in one. *)
Lemma two_passes s : esc_slash s = false -> rep_E (rep_e s) = pct_decode s.
Proof.
  induction s as [|a|a b|a b c s IHs IH] using bytes_ind3; intros Hs.
  1: done.
  1-2: cbn [pct_decode]; rewrite !replace_cons; cbn; rewrite ?andb_false_r; cbn;
    rewrite ?andb_false_r; done.
  rewrite esc_slash_3, orb_false_iff in Hs. destruct Hs as [Hf Hs].
  assert (Hs' : esc_slash s = false).
  { destruct s as [|d s]; [done|]. rewrite esc_slash_3, orb_false_iff in Hs. destruct Hs as [_ Hs].
    destruct s as [|e s]; [by rewrite esc_slash_short by (cbn; lia)|].
    rewrite esc_slash_3, orb_false_iff in Hs. apply Hs. }
  specialize (IHs Hs'). specialize (IH Hs). rewrite pct_decode_3, Hf, replace_cons, starts_pct3.
  destruct ((a =? 37) && (b =? 50) && (c =? 101)) eqn:He.
  { replace (_ && (_ || _)) with true by lia. change (drop 2 (b :: c :: s)) with s.
    rewrite (replace_cons 37 50 69 46 46).
    change (Str.starts_with [37; 50; 69] (46 :: rep_e s)) with false. cbn iota. by rewrite IHs. }
  rewrite replace_cons. cbn [Str.starts_with].
  change (_ && match rep_e (b :: c :: s) with [] => _ | _ => _ end) with
    ((37 =? a) && Str.starts_with [50; 69] (rep_e (b :: c :: s))).
  rewrite rep_e_starts. cbn [Str.starts_with].
  rewrite (Z.eqb_sym 37), (Z.eqb_sym 50), (Z.eqb_sym 69), andb_true_r, andb_assoc.
  destruct ((a =? 37) && (b =? 50) && (c =? 69)) eqn:HE.
  - replace (_ && (_ || _)) with true by lia. f_equal.
    assert (a = 37 /\ b = 50 /\ c = 69) as (-> & -> & ->) by lia.
    change (drop 2 _) with (rep_e s). apply IHs.
  - replace (_ && (_ || _)) with false by lia. by rewrite IH.
Qed.

(** An escape does not span a slash. *)
Lemma pct_decode_app c s : pct_decode (c ++ SLASH :: s) = pct_decode c ++ SLASH :: pct_decode s.
Proof.
  induction c as [|a|a b|a b c r IHr IH] using bytes_ind3.
  - destruct s as [|x [|y s]]; done.
  - cbn [app]. destruct s as [|x s]; [cbn; done|]. rewrite pct_decode_3.
    change (SLASH =? 50) with false. rewrite andb_false_r. cbn [andb].
    cbn [pct_decode app]. f_equal. destruct s as [|y s]; done.
  - cbn [app]. rewrite pct_decode_3. change (SLASH =? 101) with false.
    change (SLASH =? 69) with false. change (SLASH =? 102) with false.
    change (SLASH =? 70) with false. cbn [orb]. rewrite !andb_false_r.
    change (pct_decode [a; b]) with [a; b]. cbn [app]. f_equal.
    destruct s as [|x s]; [done|]. rewrite pct_decode_3. change (SLASH =? 50) with false.
    rewrite andb_false_r. cbn [andb]. f_equal. destruct s as [|y s]; done.
  - cbn [app]. rewrite !pct_decode_3. repeat case_match; cbn [app]; f_equal; auto.
Qed.

Module VPath.
Import Str.

Inductive VPathError : Type :=
  | Empty
  | ForbiddenChar
  | ComponentTooLong (len limit : Z)
  | TooLong (len limit : Z)
  | Absolute
  | Traversal
  | EscapesRoot
  | SymlinkEscape.

(** [Display] of the error. *)
Definition fmt (e : VPathError) : string :=
  match e with
  | Empty => "empty path"
  | ForbiddenChar => "forbidden character"
  | ComponentTooLong len limit => "component too long (" +:+ pretty len +:+ " > " +:+ pretty limit +:+ ")"
  | TooLong len limit => "path too long (" +:+ pretty len +:+ " > " +:+ pretty limit +:+ ")"
  | Absolute => "absolute path"
  | Traversal => "traversal"
  | EscapesRoot => "escapes root"
  | SymlinkEscape => "symlink escapes root"
  end%string.

(** [From<VPathError> for VelcruxError]: every variant collapses to [InvalidPath]. *)
Definition into_velcrux (_ : VPathError) : VelcruxError := EProtocol InvalidPath.

(** [VPath(String)], by its bytes. *)
Definition t : Type := bytes.

Definition reserved : list bytes := lit <$>
  ["CON"; "PRN"; "AUX"; "NUL"; "COM1"; "COM2"; "COM3"; "COM4"; "COM5"; "COM6"; "COM7"; "COM8";
   "COM9"; "LPT1"; "LPT2"; "LPT3"; "LPT4"; "LPT5"; "LPT6"; "LPT7"; "LPT8"; "LPT9"]%string.

(** [upper.split('.').next().unwrap_or(&upper)]. *)
Definition stem (component : bytes) : bytes :=
  let upper := to_ascii_uppercase component in
  default upper (head (split_on 46 upper)).

Definition decoded_dots (component : bytes) : bytes :=
  replace (lit "%2E") (lit ".") (replace (lit "%2e") (lit ".") component).

(** The tests of one component, in the order of the loop body of [validate]. *)
Definition check_component (component : bytes) : outcome VPathError unit :=
  if bool_decide (component = []) then Err Traversal else
  if bool_decide (component = lit ".") || bool_decide (component = lit "..") then Err Traversal else
  let dots := decoded_dots component in
  if bool_decide (dots = lit ".") || bool_decide (dots = lit "..")
     || starts_with (lit "..") dots || ends_with (lit "..") dots
     || contains (lit "/..") dots || contains (lit "../") dots then Err Traversal else
  if contains (lit "%2f") (to_ascii_lowercase component) then Err Traversal else
  if ends_with (lit ".") component || ends_with (lit " ") component then Err Traversal else
  if bool_decide (stem component ∈ reserved) then Err ForbiddenChar else
  if Limits.MAX_PATH_COMPONENT <? zlen component
  then Err (ComponentTooLong (zlen component) Limits.MAX_PATH_COMPONENT) else
  Ok tt.

Fixpoint validate_loop (components : list bytes) (normalised : bytes) (first : bool) (depth : Z)
    : outcome VPathError bytes :=
  match components with
  | [] => Ok normalised
  | component :: rest =>
      let depth := depth + 1 in
      if Limits.MAX_PATH_DEPTH <? depth then Err (TooLong depth Limits.MAX_PATH_DEPTH) else
      let? _ := check_component component in
      let normalised := if first then normalised else normalised ++ [SLASH] in
      validate_loop rest (normalised ++ component) false depth
  end.

Definition validate (raw : bytes) : outcome VPathError t :=
  if bool_decide (raw = []) then Err Empty else
  if Limits.MAX_PATH_TOTAL <? zlen raw then Err (TooLong (zlen raw) Limits.MAX_PATH_TOTAL) else
  if starts_with [SLASH] raw then Err Absolute else
  if existsb (Z.eqb BACKSLASH) raw || existsb (Z.eqb COLON) raw then Err Traversal else
  if has_control raw then Err ForbiddenChar else
  let trailing_slash := ends_with [SLASH] raw in
  let? normalised := validate_loop (split_on SLASH raw) [] true 0 in
  if bool_decide (normalised = []) || trailing_slash then Err Traversal else
  Ok normalised.

Definition root : t := [].
Definition is_root (p : t) : bool := bool_decide (p = []).

(** [Path::parent] on the string of a [VPath], which has no empty or [.] components and no
    leading slash ([vpath_ok] below): all but the last component, [None] for the empty path. *)
Definition path_parent (p : t) : option bytes :=
  if bool_decide (p = []) then None else Some (join (removelast (split_on SLASH p))).

Definition parent (p : t) : option t :=
  s ← path_parent p; if bool_decide (s = []) then None else Some s.

(** The two loops of [validate_symlink_target]; the [Vec] used as a stack is a list, innermost
    component first. *)
Fixpoint push_parent (comps : list bytes) (stack : list bytes) : list bytes :=
  match comps with
  | [] => stack
  | comp :: rest =>
      let comp := trim comp in
      push_parent rest
        (if negb (bool_decide (comp = [])) && negb (bool_decide (comp = lit "."))
         then comp :: stack else stack)
  end.

Fixpoint target_loop (comps : list bytes) (stack : list bytes)
    : outcome VPathError (list bytes) :=
  match comps with
  | [] => Ok stack
  | comp :: rest =>
      let comp := trim comp in
      if bool_decide (comp = []) || bool_decide (comp = lit ".") then target_loop rest stack else
      if bool_decide (comp = lit "..") then
        match stack with [] => Err SymlinkEscape | _ :: stack => target_loop rest stack end
      else if Limits.MAX_PATH_COMPONENT <? zlen comp
      then Err (ComponentTooLong (zlen comp) Limits.MAX_PATH_COMPONENT)
      else target_loop rest (comp :: stack)
  end.

Definition validate_symlink_target (link_path : t) (raw_target : bytes) : outcome VPathError t :=
  if bool_decide (raw_target = []) then Err Empty else
  if existsb (Z.eqb 0) raw_target then Err ForbiddenChar else
  if existsb (fun b => (b <? 0x20) || (b =? 0x7F)) raw_target then Err ForbiddenChar else
  if starts_with [SLASH] raw_target || starts_with [BACKSLASH] raw_target
  then Err SymlinkEscape else
  let? drive := (if 2 <=? zlen raw_target
                 then let? b := index raw_target 1 in Ok (b =? COLON) else Ok false) in
  if drive : bool then Err SymlinkEscape else
  let parent_str := default [] (path_parent link_path) in
  let stack := push_parent (split_on SLASH parent_str) [] in
  let? stack := target_loop (split (fun c => (c =? SLASH) || (c =? BACKSLASH)) raw_target) stack in
  if bool_decide (stack = []) then Ok root else
  let resolved := join (reverse stack) in
  if Limits.MAX_PATH_TOTAL <? zlen resolved
  then Err (TooLong (zlen resolved) Limits.MAX_PATH_TOTAL) else
  Ok resolved.

(** ** What is accepted *)

(** A component of an accepted path: after decoding it neither is a dot name nor contains a
    slash nor begins or ends with two dots; it is not a device name and not too long. *)
Definition valid_component (c : bytes) : Prop :=
  c <> [] /\ zlen c <= Limits.MAX_PATH_COMPONENT /\ stem c ∉ reserved /\
  ~ lit "." `suffix_of` c /\ ~ lit " " `suffix_of` c /\
  SLASH ∉ pct_decode c /\ pct_decode c <> lit "." /\
  ~ lit ".." `prefix_of` pct_decode c /\ ~ lit ".." `suffix_of` pct_decode c.

Definition valid_path (raw : bytes) : Prop :=
  raw <> [] /\ zlen raw <= Limits.MAX_PATH_TOTAL /\ BACKSLASH ∉ raw /\ COLON ∉ raw /\
  has_control raw = false /\ zlen (split_on SLASH raw) <= Limits.MAX_PATH_DEPTH /\
  Forall valid_component (split_on SLASH raw).

Lemma decoded_dots_eq c : esc_slash c = false -> decoded_dots c = pct_decode c.
Proof. apply two_passes. Qed.

Lemma contains_noslash p s : SLASH ∈ p -> SLASH ∉ s -> contains p s = false.
Proof.
  intros Hp. induction s as [|b s IH]; intros Hs.
  - destruct p; [by apply elem_of_nil in Hp|done].
  - rewrite contains_cons, IH by set_solver. rewrite orb_false_r. apply not_true_iff_false.
    intros [k Hk]%starts_with_prefix. apply Hs. rewrite Hk. set_solver.
Qed.

(** Turn a boolean test that failed into the proposition it tests. *)
Ltac tests := rewrite ?orb_false_iff, ?bool_decide_eq_false, <- ?not_true_iff_false,
  ?starts_with_prefix, ?ends_with_suffix in *.

Lemma check_component_spec c : SLASH ∉ c ->
  check_component c = Ok tt <-> valid_component c.
Proof.
  intros Hc. pose proof (slash_pct_decode c) as Hsl. unfold check_component, valid_component.
  fold (esc_slash c). destruct (esc_slash c) eqn:He.
  { split; [repeat case_match; done|]. intros (_ & _ & _ & _ & _ & H & _). exfalso. tauto. }
  assert (Hd : SLASH ∉ pct_decode c) by (rewrite Hsl; intuition done).
  rewrite decoded_dots_eq by done. cbv zeta.
  rewrite (contains_noslash (lit "/..")), (contains_noslash (lit "../")) by (done || vm_compute; set_solver).
  rewrite !orb_false_r. split.
  - repeat case_match; try done. intros _. tests. destruct_and!. split_and!; try done. lia.
  - intros (Hne & Hl & Hr & Hdot & Hsp & _ & H1 & Hp & Hs).
    rewrite bool_decide_eq_false_2 by done.
    rewrite (bool_decide_eq_false_2 (c = lit ".")) by (intros ->; apply Hdot; by exists []).
    rewrite (bool_decide_eq_false_2 (c = lit "..")) by (intros ->; apply Hdot; by exists [46]).
    rewrite (bool_decide_eq_false_2 (pct_decode c = lit ".")) by done.
    rewrite (bool_decide_eq_false_2 (pct_decode c = lit "..")) by (intros E; apply Hp; by rewrite E).
    rewrite <- starts_with_prefix, <- ?ends_with_suffix, not_true_iff_false in *.
    rewrite Hp, Hs, Hdot, Hsp. cbn [orb]. rewrite bool_decide_eq_false_2 by done.
    by rewrite (proj2 (Z.ltb_ge _ _)).
Qed.

Lemma check_component_no_panic c : check_component c <> Panic.
Proof. unfold check_component. repeat case_match; done. Qed.

Lemma validate_loop_rest cs norm d r : Forall (fun c => SLASH ∉ c) cs ->
  validate_loop cs norm false d = Ok r <->
  r = norm ++ mjoin (cons SLASH <$> cs) /\ Forall valid_component cs /\
  (cs = [] \/ d + zlen cs <= Limits.MAX_PATH_DEPTH).
Proof.
  intros Hcs. revert norm d. induction Hcs as [|c cs Hc Hcs IH]; intros norm d; cbn [validate_loop].
  { cbn. rewrite app_nil_r. naive_solver. }
  rewrite zlen_cons. pose proof (zlen_nonneg cs). destruct (Z.ltb_spec Limits.MAX_PATH_DEPTH (d + 1)).
  { split; [done|]. intros (_ & _ & [?|?]); [done|lia]. }
  rewrite Forall_cons, <- (check_component_spec c) by done.
  destruct (check_component c) as [[]|e|] eqn:E; cbn [obind];
    [|split; [done|naive_solver]|split; [done|naive_solver]].
  rewrite IH. cbn [fmap list_fmap mjoin list_join]. rewrite <- !app_assoc. cbn [app].
  assert (cs = [] -> zlen cs = 0) by (intros ->; done). naive_solver lia.
Qed.

(** The whole loop: the first component is not preceded by a slash. *)
Lemma validate_loop_all raw r :
  validate_loop (split_on SLASH raw) [] true 0 = Ok r <->
  r = raw /\ Forall valid_component (split_on SLASH raw) /\
  zlen (split_on SLASH raw) <= Limits.MAX_PATH_DEPTH.
Proof.
  pose proof (split_noslash raw) as Hs. pose proof (join_split raw) as Hj.
  pose proof (split_nonnil (Z.eqb SLASH) raw). fold (split_on SLASH raw) in *.
  destruct (split_on SLASH raw) as [|c cs]; [done|]. apply Forall_cons in Hs as [Hc Hs].
  rewrite join_cons in Hj. cbn [validate_loop]. change (Limits.MAX_PATH_DEPTH <? 0 + 1) with false.
  cbn iota. rewrite Forall_cons, <- (check_component_spec c), zlen_cons by done.
  destruct (check_component c) as [[]|e|] eqn:E; cbn [obind];
    [|split; [done|naive_solver]|split; [done|naive_solver]].
  rewrite validate_loop_rest by done. cbn [app]. rewrite Hj.
  assert (cs = [] -> zlen cs = 0) by (intros ->; done).
  unfold Limits.MAX_PATH_DEPTH. naive_solver lia.
Qed.

Lemma validate_loop_no_panic cs norm first d : validate_loop cs norm first d <> Panic.
Proof.
  revert norm first d. induction cs as [|c cs IH]; intros norm first d; cbn [validate_loop]; [done|].
  case_match; [done|]. pose proof (check_component_no_panic c).
  destruct (check_component c); cbn [obind]; by try apply IH.
Qed.

(** An empty first or last component is what a leading or trailing slash leaves. *)
Lemma split_leading raw : starts_with [SLASH] raw = true -> [] ∈ split_on SLASH raw.
Proof.
  intros [k ->]%starts_with_prefix. cbn. unfold split_on. cbn. by constructor.
Qed.

Lemma split_snoc sep k b : sep b = true -> split sep (k ++ [b]) = split sep k ++ [[]].
Proof.
  intros Hb. induction k as [|x k IH]; cbn; [by rewrite Hb|]. rewrite IH.
  pose proof (split_nonnil sep k). destruct (sep x); [done|]. by destruct (split sep k).
Qed.

Lemma split_trailing raw : ends_with [SLASH] raw = true -> [] ∈ split_on SLASH raw.
Proof.
  intros [k ->]%ends_with_suffix. unfold split_on. rewrite split_snoc by done. set_solver.
Qed.

Lemma valid_not_empty cs : Forall valid_component cs -> [] ∉ cs.
Proof. intros H He. rewrite Forall_forall in H. by apply H in He as [? _]. Qed.

(** [validate] decides [valid_path] and never rewrites the path. *)
Lemma validate_ok_iff raw v : validate raw = Ok v <-> v = raw /\ valid_path raw.
Proof.
  unfold validate, valid_path.
  destruct (bool_decide_reflect (raw = [])) as [|Hne]; [split; [done|naive_solver]|].
  destruct (Z.ltb_spec Limits.MAX_PATH_TOTAL (zlen raw)); [split; [done|naive_solver lia]|].
  destruct (starts_with [SLASH] raw) eqn:Hl.
  { split; [done|]. intros (_ & _ & _ & _ & _ & _ & _ & Hve%valid_not_empty).
    by destruct Hve; apply split_leading. }
  rewrite <- (existsb_elem BACKSLASH), <- (existsb_elem COLON).
  destruct (existsb (Z.eqb BACKSLASH) raw), (existsb (Z.eqb COLON) raw); cbn [orb];
    try (split; [done|naive_solver]).
  destruct (has_control raw); [split; [done|naive_solver]|].
  destruct (ends_with [SLASH] raw) eqn:Ht.
  - split.
    + destruct (validate_loop _ _ _ _) eqn:E; cbn [obind]; [|done|done]. by rewrite orb_true_r.
    + intros (_ & _ & _ & _ & _ & _ & _ & Hve%valid_not_empty). by destruct Hve; apply split_trailing.
  - pose proof (validate_loop_all raw) as Hall.
    destruct (validate_loop _ _ _ _) as [r|e|] eqn:E; cbn [obind].
    + destruct (proj1 (Hall r) eq_refl) as (-> & Hv & Hd). rewrite bool_decide_eq_false_2 by done.
      cbn [orb]. naive_solver.
    + split; [done|]. intros (-> & _ & _ & _ & _ & _ & Hd & Hv).
      by pose proof (proj2 (Hall raw) (conj eq_refl (conj Hv Hd))).
    + by destruct (validate_loop_no_panic _ _ _ _ E).
Qed.

Lemma validate_no_panic raw : validate raw <> Panic.
Proof.
  unfold validate. repeat case_match; try done.
  pose proof (validate_loop_no_panic (split_on SLASH raw) [] true 0).
  destruct (validate_loop _ _ _ _); cbn [obind]; repeat case_match; done.
Qed.

(** Components that are not dot names are entered one by one. *)
Lemma resolve_plain dir cs :
  Forall (fun c => c <> [] /\ c <> lit "." /\ c <> lit "..") cs ->
  resolve dir cs = Some (reverse cs ++ dir).
Proof.
  intros H. revert dir. induction H as [|c cs (H1 & H2 & H3) _ IH]; intros dir; [done|].
  cbn [resolve]. rewrite !bool_decide_eq_false_2 by done. cbn [orb].
  rewrite IH, reverse_cons, <- app_assoc. done.
Qed.

Lemma pct_decode_nil c : pct_decode c = [] -> c = [].
Proof.
  destruct c as [|a [|b [|d c]]]; try done. rewrite pct_decode_3. repeat case_match; done.
Qed.

Lemma valid_plain c : valid_component c -> c <> [] /\ c <> lit "." /\ c <> lit "..".
Proof.
  intros (Hne & _ & _ & Hdot & _). split_and!; [done| |]; intros ->; apply Hdot.
  - by exists [].
  - by exists [46].
Qed.

Lemma valid_decoded c : valid_component c ->
  pct_decode c <> [] /\ pct_decode c <> lit "." /\ pct_decode c <> lit "..".
Proof.
  intros (Hne & _ & _ & _ & _ & _ & H1 & Hp & _). split_and!; [by intros ?%pct_decode_nil|done|].
  intros E. apply Hp. by rewrite E.
Qed.

Lemma split_pct_decode raw : Forall (fun c => SLASH ∉ pct_decode c) (split_on SLASH raw) ->
  split_on SLASH (pct_decode raw) = pct_decode <$> split_on SLASH raw.
Proof.
  rewrite <- (join_split raw) at 2. pose proof (split_nonnil (Z.eqb SLASH) raw) as Hn.
  fold (split_on SLASH raw) in Hn. generalize dependent (split_on SLASH raw). intros cs Hn H.
  induction H as [|c cs Hc%noslash Hcs IH]; [done|]. destruct cs as [|d cs]; [by apply split_none|].
  change (join (c :: d :: cs)) with (c ++ SLASH :: join (d :: cs)). rewrite pct_decode_app.
  unfold split_on in *. rewrite split_app by done. rewrite IH by done. done.
Qed.

(** ** Symlink targets *)

(** Components entered by [resolve] from a deeper directory are not left earlier: the lexical
    stack, which trims names, is never deeper than the real one. *)
Lemma target_loop_depth cs stack stack' dir : target_loop cs stack = Ok stack' ->
  (length stack <= length dir)%nat ->
  exists dir', resolve dir cs = Some dir' /\ (length stack' <= length dir')%nat.
Proof.
  revert stack dir. induction cs as [|c cs IH]; intros stack dir; cbn [target_loop resolve].
  { intros [= <-] H. by exists dir. }
  destruct (bool_decide_reflect (c = [])) as [->|H0]; [apply IH|].
  destruct (bool_decide_reflect (c = lit ".")) as [->|H1]; [apply IH|]. cbn [orb].
  destruct (bool_decide_reflect (c = lit "..")) as [->|H2].
  { change (bool_decide (trim (lit "..") = [])) with false.
    change (bool_decide (trim (lit "..") = lit ".")) with false.
    change (bool_decide (trim (lit "..") = lit "..")) with true. cbn [orb].
    destruct stack as [|x stack]; [done|]. intros H Hl. destruct dir as [|d dir]; cbn in Hl; [lia|].
    eapply IH; [done|lia]. }
  intros H Hl. repeat case_match; try done; (eapply IH; [done|cbn in *; lia]).
Qed.

Lemma push_parent_length cs stack :
  (length (push_parent cs stack) <= length cs + length stack)%nat.
Proof.
  revert stack. induction cs as [|c cs IH]; intros stack; cbn [push_parent]; [cbn; lia|].
  etrans; [apply IH|]. case_match; cbn; lia.
Qed.

(** The directory of a link, innermost component first. *)
Definition link_dir (link : t) : list bytes := reverse (removelast (split_on SLASH link)).

Lemma Forall_removelast {A} (P : A -> Prop) l : Forall P l -> Forall P (removelast l).
Proof.
  induction 1 as [|x l Hx Hl IH]; [constructor|]. cbn. destruct l; [constructor|by constructor].
Qed.

Lemma split_parent link : removelast (split_on SLASH link) <> [] ->
  split_on SLASH (default [] (path_parent link)) = removelast (split_on SLASH link).
Proof.
  intros Hne. unfold path_parent. case_bool_decide as He; [by rewrite He in Hne|].
  cbn [default]. apply split_join; [done|]. apply Forall_removelast, split_noslash.
Qed.

Lemma parent_nil link : removelast (split_on SLASH link) = [] ->
  split_on SLASH (default [] (path_parent link)) = [[]].
Proof. intros H. unfold path_parent. case_bool_decide; [done|]. cbn. by rewrite H. Qed.

Lemma parent_stack_depth link :
  (length (push_parent (split_on SLASH (default [] (path_parent link))) []) <= length (link_dir link))%nat.
Proof.
  unfold link_dir. rewrite length_reverse.
  destruct (decide (removelast (split_on SLASH link) = [])) as [E|Hne].
  - by rewrite parent_nil, E.
  - rewrite split_parent by done. etrans; [apply push_parent_length|]. cbn. lia.
Qed.

(** Without surrounding whitespace the lexical walk is the real one. *)
Definition trimmed (c : bytes) : Prop := trim c = c.

Lemma push_parent_plain cs stack :
  Forall (fun c => trimmed c /\ c <> [] /\ c <> lit ".") cs ->
  push_parent cs stack = reverse cs ++ stack.
Proof.
  intros H. revert stack. induction H as [|c cs (Ht & H0 & H1) _ IH]; intros stack; [done|].
  cbn [push_parent]. unfold trimmed in Ht. rewrite Ht, !bool_decide_eq_false_2 by done. cbn [negb andb].
  rewrite IH, reverse_cons, <- app_assoc. done.
Qed.

Lemma target_loop_resolve cs dir stack : Forall trimmed cs ->
  target_loop cs dir = Ok stack -> resolve dir cs = Some stack.
Proof.
  intros H. revert dir. induction H as [|c cs Ht _ IH]; intros dir; cbn [target_loop resolve];
    [by intros [= ->]|]. unfold trimmed in Ht. rewrite Ht. repeat case_match; auto; done.
Qed.

(** What an accepted target implies. *)
Lemma symlink_ok_inv link target v : validate_symlink_target link target = Ok v ->
  starts_with [SLASH] target = false /\
  exists stack,
    target_loop (split (fun c => (c =? SLASH) || (c =? BACKSLASH)) target)
      (push_parent (split_on SLASH (default [] (path_parent link))) []) = Ok stack /\
    v = join (reverse stack) /\ zlen v <= Limits.MAX_PATH_TOTAL.
Proof.
  unfold validate_symlink_target. repeat (case_match; try done); intros H'.
  all: apply obind_ok_inv in H' as ([] & _ & H'); [done|].
  all: apply obind_ok_inv in H' as (stack & Hs & H').
  all: rewrite orb_false_iff in *; destruct_and!; split; [done|]; exists stack; split; [done|].
  all: destruct (bool_decide_reflect (stack = [])) as [->|]; simplify_eq; [done|].
  all: case_match; simplify_eq; split; [done|lia].
Qed.

Lemma split_both target : BACKSLASH ∉ target ->
  split (fun c => (c =? SLASH) || (c =? BACKSLASH)) target = split_on SLASH target.
Proof.
  intros Hb. apply split_ext, Forall_forall. intros x Hx.
  assert (x <> BACKSLASH) by (intros ->; done).
  rewrite (proj2 (Z.eqb_neq x BACKSLASH)), orb_false_r by done. apply Z.eqb_sym.
Qed.

(** ** The invariant of [VPath] *)

(** The root, or components that are neither empty nor a dot. *)
Definition vpath_ok (p : t) : Prop :=
  p = [] \/ Forall (fun c => c <> [] /\ c <> lit ".") (split_on SLASH p).

Lemma trim_start_suffix s : trim_start s `suffix_of` s.
Proof.
  remember (length s) as k eqn:Hk. revert s Hk. induction k as [k IH] using lt_wf_ind.
  intros [|a s1] ->; [done|]. cbn [trim_start].
  destruct (is_ws1 a); [apply suffix_cons_r; eapply IH; [|done]; cbn; lia|].
  destruct s1 as [|b s2]; [done|].
  destruct (is_ws2 a b); [do 2 apply suffix_cons_r; eapply IH; [|done]; cbn; lia|].
  destruct s2 as [|c s3]; [done|].
  destruct (is_ws3 a b c); [do 3 apply suffix_cons_r; eapply IH; [|done]; cbn; lia|done].
Qed.

Lemma trim_rev_suffix s : trim_rev s `suffix_of` s.
Proof.
  remember (length s) as k eqn:Hk. revert s Hk. induction k as [k IH] using lt_wf_ind.
  intros [|a s1] ->; [done|]. cbn [trim_rev].
  destruct (is_ws1 a); [apply suffix_cons_r; eapply IH; [|done]; cbn; lia|].
  destruct s1 as [|b s2]; [done|].
  destruct (is_ws2 b a); [do 2 apply suffix_cons_r; eapply IH; [|done]; cbn; lia|].
  destruct s2 as [|c s3]; [done|].
  destruct (is_ws3 c b a); [do 3 apply suffix_cons_r; eapply IH; [|done]; cbn; lia|done].
Qed.

Lemma trim_noslash s : SLASH ∉ s -> SLASH ∉ trim s.
Proof.
  intros Hs Hin. apply Hs. unfold trim in Hin. rewrite elem_of_reverse in Hin.
  destruct (trim_rev_suffix (reverse (trim_start s))) as [k Hk].
  destruct (trim_start_suffix s) as [m Hm].
  rewrite Hm, elem_of_app. right. rewrite <- elem_of_reverse, Hk, elem_of_app. by right.
Qed.

(** A component of a stack of [validate_symlink_target]. *)
Definition name_ok (c : bytes) : Prop := SLASH ∉ c /\ c <> [] /\ c <> lit ".".

Lemma push_parent_names cs stack : Forall (fun c => SLASH ∉ c) cs -> Forall name_ok stack ->
  Forall name_ok (push_parent cs stack).
Proof.
  intros H. revert stack. induction H as [|c cs Hc _ IH]; intros stack Hst; [done|].
  cbn [push_parent]. apply IH. repeat case_bool_decide; cbn [negb andb]; try done.
  constructor; [|done]. split; [by apply trim_noslash|done].
Qed.

Lemma target_loop_names cs stack stack' : Forall (fun c => SLASH ∉ c) cs -> Forall name_ok stack ->
  target_loop cs stack = Ok stack' -> Forall name_ok stack'.
Proof.
  intros H. revert stack. induction H as [|c cs Hc _ IH]; intros stack Hst; cbn [target_loop];
    [by intros [= <-]|].
  repeat case_bool_decide; cbn [orb]; try by apply IH.
  - destruct Hst; [done|]. by apply IH.
  - case_match; [done|]. apply IH. constructor; [|done]. split; [by apply trim_noslash|done].
Qed.

Lemma join_names_ok stack : Forall name_ok stack -> vpath_ok (join stack).
Proof.
  intros H. destruct (decide (stack = [])) as [->|Hne]; [by left|]. right.
  rewrite split_join; [|done|]; (eapply Forall_impl; [done|]); by intros c (? & ? & ?).
Qed.

Lemma symlink_vpath_ok link target v : validate_symlink_target link target = Ok v -> vpath_ok v.
Proof.
  intros (_ & stack & Hs & -> & _)%symlink_ok_inv. apply join_names_ok, Forall_reverse.
  eapply target_loop_names; [| |done].
  - eapply Forall_impl; [apply split_pieces|]. intros c Hc. apply noslash.
    eapply Forall_impl; [done|]. cbn. intros x. rewrite Z.eqb_sym. by intros [? _]%orb_false_iff.
  - apply push_parent_names; [apply split_noslash|constructor].
Qed.

Lemma validate_vpath_ok raw v : validate raw = Ok v -> vpath_ok v.
Proof.
  intros (-> & _ & _ & _ & _ & _ & _ & H)%validate_ok_iff. right.
  eapply Forall_impl; [done|]. intros c (? & ? & _)%valid_plain. done.
Qed.

Lemma parent_vpath_ok p q : vpath_ok p -> parent p = Some q -> vpath_ok q.
Proof.
  intros Hp. unfold parent, path_parent. case_bool_decide as Hn; [done|]. cbn.
  case_bool_decide; [done|]. intros [= <-]. destruct Hp as [->|Hp]; [done|].
  apply join_names_ok, Forall_removelast, Forall_forall. intros c Hc.
  pose proof (split_noslash p) as Hs. rewrite Forall_forall in Hs, Hp.
  split; [by apply Hs|by apply Hp].
Qed.

Lemma parent_stack_plain link : vpath_ok link -> Forall trimmed (split_on SLASH link) ->
  push_parent (split_on SLASH (default [] (path_parent link))) [] = link_dir link.
Proof.
  intros Hok Ht. unfold link_dir.
  destruct (decide (removelast (split_on SLASH link) = [])) as [E|Hne]; [by rewrite parent_nil, E|].
  rewrite split_parent by done. destruct Hok as [->|Hok]; [done|].
  rewrite push_parent_plain, app_nil_r; [done|]. apply Forall_removelast, Forall_forall.
  rewrite Forall_forall in Hok, Ht. intros c Hc. split; [by apply Ht|by apply Hok].
Qed.

(** ** Properties *)

(** C37. [VPath::validate] accepts exactly the paths of [valid_path], returns them unchanged and
    does not panic; an accepted path is resolved by entering its components one by one, so it
    stays below the root, also when dots and slashes are percent-decoded first; its parent is
    again a path of the invariant. *)
Theorem validate_confined raw :
  validate raw <> Panic /\
  (forall v, validate raw = Ok v <-> v = raw /\ valid_path raw) /\
  (forall v, validate raw = Ok v ->
     resolve [] (split_on SLASH v) = Some (reverse (split_on SLASH v)) /\
     resolve [] (split_on SLASH (pct_decode v)) = Some (reverse (pct_decode <$> split_on SLASH v)) /\
     vpath_ok v /\ forall q, parent v = Some q -> vpath_ok q).
Proof.
  split; [apply validate_no_panic|]. split; [apply validate_ok_iff|]. intros v Hv.
  pose proof (validate_vpath_ok _ _ Hv) as Hok.
  apply validate_ok_iff in Hv as (-> & _ & _ & _ & _ & _ & _ & H). split_and!; [| |done|].
  - rewrite resolve_plain, app_nil_r; [done|]. eapply Forall_impl; [done|]. apply valid_plain.
  - rewrite split_pct_decode; [|eapply Forall_impl; [done|]; by intros c (_ & _ & _ & _ & _ & ? & _)].
    rewrite resolve_plain, app_nil_r; [done|]. apply Forall_fmap.
    eapply Forall_impl; [done|]. apply valid_decoded.
  - intros q. by apply parent_vpath_ok.
Qed.

(** A symlink target that [validate_symlink_target] accepts is relative; if it has no
    backslash, resolving it from the directory of the link stays below the root, and when no
    name is surrounded by whitespace the path returned is the one it resolves to. *)
Theorem symlink_confined link target v : validate_symlink_target link target = Ok v ->
  starts_with [SLASH] target = false /\ vpath_ok v /\ zlen v <= Limits.MAX_PATH_TOTAL /\
  (BACKSLASH ∉ target -> exists dir,
     resolve (link_dir link) (split_on SLASH target) = Some dir /\
     (vpath_ok link -> Forall trimmed (split_on SLASH link) -> Forall trimmed (split_on SLASH target) ->
      v = join (reverse dir))).
Proof.
  intros Hv. pose proof (symlink_vpath_ok _ _ _ Hv) as Hok.
  apply symlink_ok_inv in Hv as (Hrel & stack & Hs & -> & Hl). split_and!; [done..|].
  intros Hb. rewrite split_both in Hs by done.
  destruct (target_loop_depth _ _ _ (link_dir link) Hs (parent_stack_depth link)) as (dir & Hd & _).
  exists dir. split; [done|]. intros Hlink Htl Htt. apply target_loop_resolve in Hs; [|done].
  rewrite (parent_stack_plain link) in Hs by done. congruence.
Qed.

End VPath.

(** ** The theorems at concrete paths *)
Module VPathExamples.
Import VPath.

(** With a backslash, which the check takes for a separator and POSIX for a character, an
    accepted target leaves the root. *)
Theorem symlink_backslash_escapes :
  validate_symlink_target (lit "link") (lit "a\b/../../etc") = Ok (lit "etc") /\
  resolve (link_dir (lit "link")) (Str.split_on SLASH (lit "a\b/../../etc")) = None.
Proof. by vm_compute. Qed.

(** A directory whose name is two dots between no-break spaces is accepted and trimmed to the
    parent directory: the path returned begins with it. *)
Theorem symlink_returns_parent (nbsp := [0xC2; 0xA0]) (link := nbsp ++ lit ".." ++ nbsp ++ lit "/l") :
  validate link = Ok link /\ validate_symlink_target link (lit "x") = Ok (lit "../x").
Proof. by vm_compute. Qed.

Lemma validate_confined_witness :
  resolve [] (Str.split_on SLASH (lit "docs/a.txt")) = Some [lit "a.txt"; lit "docs"] /\
  validate (lit "docs/%2e%2E/x") = Err Traversal /\ validate (lit "docs/nul.txt") = Err ForbiddenChar.
Proof.
  destruct (validate_confined (lit "docs/a.txt")) as (_ & _ & H).
  destruct (H (lit "docs/a.txt")) as [H1 _]; [vm_compute; reflexivity|].
  split; [exact H1|]. split; vm_compute; reflexivity.
Defined.

Lemma symlink_confined_witness : exists dir,
  resolve [lit "b"; lit "a"] (Str.split_on SLASH (lit "../c")) = Some dir /\
  lit "a/c" = Str.join (reverse dir).
Proof.
  destruct (symlink_confined (lit "a/b/link") (lit "../c") (lit "a/c")) as (_ & _ & _ & H);
    [vm_compute; reflexivity|].
  destruct H as (dir & Hd & Hv).
  - vm_compute. set_solver.
  - exists dir. split; [exact Hd|]. apply Hv.
    + right. repeat constructor; discriminate.
    + repeat constructor.
    + repeat constructor.
Defined.

End VPathExamples.
