(* ===== verification/ManifestEntry.v ===== *)
(** Manifest entries (crates/velcrux-core/src/manifest/entry.rs) and their canonical binary
    codec (manifest/codec.rs): flags, chunk descriptors, link targets and extended attributes. *)

From S2P Require Import Prelude Utf8 Protocol Varint Wire MsgResume ChunkEngine Paths.

(** [i64::from_le_bytes] of the unsigned value, and the range of [i64]. *)
Definition i64_of (v : Z) : Z := if v <? 2 ^ 63 then v else v - 2 ^ 64.
Definition fits_i64 (v : Z) : Prop := - 2 ^ 63 <= v < 2 ^ 63.

Lemma i64_of_wrap v : fits_i64 v -> i64_of (wrap 64 v) = v.
Proof.
  intros Hv. unfold i64_of, wrap, fits_i64 in *. destruct (Z.ltb_spec v 0).
  - replace (v mod 2 ^ 64) with (v + 2 ^ 64).
    + rewrite (proj2 (Z.ltb_ge _ _)) by lia. lia.
    + apply Z.mod_unique with (-1); lia.
  - rewrite Z.mod_small by lia. by rewrite (proj2 (Z.ltb_lt _ _)) by lia.
Qed.

Lemma i64_of_fits v : fits 64 v -> fits_i64 (i64_of v).
Proof. unfold fits, fits_i64, i64_of. intros. case_match; lia. Qed.

(** A [&str] in a formatted error text. *)
Definition text (s : bytes) : string :=
  String.string_of_list_ascii ((fun b => Ascii.ascii_of_N (Z.to_N b)) <$> s).

(** ** Flags (entry.rs) *)
Module FileFlags.

Definition FILE_TYPE_MASK : Z := 0x03.
Definition FILE_TYPE_REGULAR : Z := 0x00.
Definition FILE_TYPE_DIR : Z := 0x01.
Definition FILE_TYPE_SYMLINK : Z := 0x02.
Definition FILE_FLAG_SPARSE : Z := 0x04.
Definition FILE_FLAG_HAS_XATTRS : Z := 0x08.
Definition FILE_FLAG_HARDLINK : Z := 0x10.

Inductive FileType := Regular | Directory | Symlink.

#[global] Instance file_type_eq_dec : EqDecision FileType.
Proof. solve_decision. Defined.

Definition regular : Z := FILE_TYPE_REGULAR.
Definition directory : Z := FILE_TYPE_DIR.
Definition symlink : Z := FILE_TYPE_SYMLINK.

Definition file_type (flags : Z) : FileType :=
  let t := Z.land flags FILE_TYPE_MASK in
  if t =? FILE_TYPE_DIR then Directory
  else if t =? FILE_TYPE_SYMLINK then Symlink
  else Regular.

Definition has_flag (flags m : Z) : bool := negb (Z.land flags m =? 0).
Definition is_sparse (flags : Z) : bool := has_flag flags FILE_FLAG_SPARSE.
Definition has_xattrs (flags : Z) : bool := has_flag flags FILE_FLAG_HAS_XATTRS.
Definition is_hardlink (flags : Z) : bool := has_flag flags FILE_FLAG_HARDLINK.

(** [if b { self.0 |= m } else { self.0 &= !m }]. *)
Definition with_flag (m : Z) (flags : Z) (b : bool) : Z :=
  if b then Z.lor flags m else Z.ldiff flags m.
Definition with_sparse : Z -> bool -> Z := with_flag FILE_FLAG_SPARSE.
Definition with_xattrs : Z -> bool -> Z := with_flag FILE_FLAG_HAS_XATTRS.
Definition with_hardlink : Z -> bool -> Z := with_flag FILE_FLAG_HARDLINK.

(** A flag bit outside the type mask. *)
Lemma has_flag_bit flags n : 0 <= n -> has_flag flags (2 ^ n) = Z.testbit flags n.
Proof.
  intros. unfold has_flag. rewrite <- (has_bit_testbit flags n) by done. unfold has_bit.
  by rewrite Z.shiftl_1_l.
Qed.

Lemma with_flag_bit n flags b m : 0 <= n -> 0 <= m ->
  Z.testbit (with_flag (2 ^ n) flags b) m = if m =? n then b else Z.testbit flags m.
Proof.
  intros Hn Hm. unfold with_flag. destruct b.
  - rewrite Z.lor_spec, Z.pow2_bits_eqb, Z.eqb_sym by done.
    destruct (m =? n); [apply orb_true_r|apply orb_false_r].
  - rewrite Z.ldiff_spec, Z.pow2_bits_eqb, Z.eqb_sym by done.
    destruct (m =? n); [apply andb_false_r|apply andb_true_r].
Qed.

(** The type depends on the two lowest bits only. *)
Lemma file_type_low flags flags' : Z.testbit flags 0 = Z.testbit flags' 0 ->
  Z.testbit flags 1 = Z.testbit flags' 1 -> file_type flags = file_type flags'.
Proof.
  intros H0 H1. unfold file_type. replace (Z.land flags FILE_TYPE_MASK)
    with (Z.land flags' FILE_TYPE_MASK); [done|]. unfold FILE_TYPE_MASK.
  apply Z.bits_inj'. intros n Hn. rewrite !Z.land_spec.
  destruct (decide (n = 0)) as [->|]; [by rewrite H0|].
  destruct (decide (n = 1)) as [->|]; [by rewrite H1|].
  change 3 with (Z.ones 2). by rewrite Z.ones_spec_high, !andb_false_r by lia.
Qed.

End FileFlags.
Import FileFlags.

(** ** Entries *)
Module FileEntry.

Record t := mk {
  flags : Z; path : VPath.t; size : Z; mode : Z; mtime_sec : Z; mtime_nsec : Z;
  file_hash : Hash; chunks : list ChunkDesc.t;
  symlink_target : option bytes; hardlink_target : option bytes; xattrs : list (bytes * bytes) }.

Definition regular (path : VPath.t) (size mode mtime_sec mtime_nsec : Z) (file_hash : Hash)
    (chunks : list ChunkDesc.t) : t :=
  let is_sparse := existsb (fun c => chunk_is_hole (ChunkDesc.flags c)) chunks in
  let flags := if is_sparse then with_sparse FileFlags.regular true else FileFlags.regular in
  mk flags path size mode mtime_sec mtime_nsec file_hash chunks None None [].

Definition directory (path : VPath.t) (mode mtime_sec mtime_nsec : Z) : t :=
  mk FileFlags.directory path 0 mode mtime_sec mtime_nsec Hash_ZERO [] None None [].

Definition symlink (path : VPath.t) (mode mtime_sec mtime_nsec : Z) (target_hash : Hash) : t :=
  mk FileFlags.symlink path 0 mode mtime_sec mtime_nsec target_hash [] None None [].

(** [blake3::hash] is a parameter; [target.len() as u64] is the length. *)
Definition symlink_with_target (blake3 : bytes -> Hash) (path : VPath.t)
    (mode mtime_sec mtime_nsec : Z) (target : bytes) : t :=
  mk FileFlags.symlink path (zlen target) mode mtime_sec mtime_nsec (blake3 target) []
     (Some target) None [].

Definition hardlink (path : VPath.t) (target : bytes) (size : Z) (file_hash : Hash) : t :=
  mk (with_hardlink FileFlags.regular true) path size 420 0 0 file_hash [] None (Some target) [].

Definition with_xattrs (self : t) (xattrs : list (bytes * bytes)) : t :=
  let '(f, x) := match xattrs with
    | _ :: _ => (FileFlags.with_xattrs (flags self) true, xattrs)
    | [] => (FileFlags.with_xattrs (flags self) false, [])
    end in
  mk f (path self) (size self) (mode self) (mtime_sec self) (mtime_nsec self) (file_hash self)
     (chunks self) (symlink_target self) (hardlink_target self) x.

(** [chunks.iter().map(|c| c.length).sum()]; a [u64] sum that wraps in a release build. *)
Definition lengths (l : list ChunkDesc.t) : Z := foldr Z.add 0 (ChunkDesc.length <$> l).
Definition chunk_length_sum (self : t) : Z := wrap 64 (lengths (chunks self)).

End FileEntry.

(** ** Encoding (codec.rs) *)
Module ManifestCodec.

Definition encode_chunk_desc (chunk : ChunkDesc.t) (out : bytes) : presult bytes :=
  let? v := Varint.put_varint (ChunkDesc.flags chunk) in
  let out := out ++ v in
  let? v := Varint.put_varint (ChunkDesc.length chunk) in
  let out := out ++ v in
  Ok (if negb (chunk_is_hole (ChunkDesc.flags chunk))
      then match ChunkDesc.hash chunk with
           | Some h => out ++ h
           | None => out ++ Hash_ZERO
           end
      else out).

Fixpoint encode_chunks (l : list ChunkDesc.t) (out : bytes) : presult bytes :=
  match l with
  | [] => Ok out
  | chunk :: l' => let? out := encode_chunk_desc chunk out in encode_chunks l' out
  end.

Fixpoint encode_xattrs (l : list (bytes * bytes)) (out : bytes) : presult bytes :=
  match l with
  | [] => Ok out
  | (name, val) :: l' =>
      let? v := Varint.put_varint (zlen name) in
      let out := out ++ v ++ name in
      let? v := Varint.put_varint (zlen val) in
      let out := out ++ v ++ val in
      encode_xattrs l' out
  end.

Definition encode_target (target : option bytes) (out : bytes) : presult bytes :=
  let target_bytes := default [] target in
  let? v := Varint.put_varint (zlen target_bytes) in
  Ok (out ++ v ++ target_bytes).

Definition encode_file_entry (e : FileEntry.t) (out : bytes) : presult bytes :=
  let? v := Varint.put_varint (FileEntry.flags e) in
  let out := out ++ v in
  let path_bytes := FileEntry.path e in
  let? v := Varint.put_varint (zlen path_bytes) in
  let out := out ++ v ++ path_bytes in
  let out := out ++ to_le 8 (FileEntry.size e) in
  let out := out ++ to_le 4 (FileEntry.mode e) in
  let out := out ++ to_le 8 (wrap 64 (FileEntry.mtime_sec e)) in
  let out := out ++ to_le 4 (FileEntry.mtime_nsec e) in
  let out := out ++ FileEntry.file_hash e in
  let? v := Varint.put_varint (zlen (FileEntry.chunks e)) in
  let out := out ++ v in
  let? out := encode_chunks (FileEntry.chunks e) out in
  let? out := (if bool_decide (file_type (FileEntry.flags e) = Symlink)
               then encode_target (FileEntry.symlink_target e) out else Ok out) in
  let? out := (if is_hardlink (FileEntry.flags e)
               then encode_target (FileEntry.hardlink_target e) out else Ok out) in
  if has_xattrs (FileEntry.flags e) then
    let? v := Varint.put_varint (zlen (FileEntry.xattrs e)) in
    encode_xattrs (FileEntry.xattrs e) (out ++ v)
  else Ok out.

(** ** Decoding *)

Definition decode_chunk_desc (buf : bytes) : presult (ChunkDesc.t * Z) :=
  let offset := 0 in
  let? rest := slice_from buf offset in
  let? '(flags, c) := Varint.decode_varint rest in
  let offset := offset + c in
  if zlen buf <=? offset then Err (Malformed "CHUNK_DESC: truncated length") else
  let? rest := slice_from buf offset in
  let? '(length, c) := Varint.decode_varint rest in
  let offset := offset + c in
  let? '(hash, offset) :=
    (if chunk_is_hole flags then Ok (None, offset) else
     let? hash_end := ok_or (checked_add 64 offset 32)
                        (Malformed "CHUNK_DESC: hash offset overflow") in
     if zlen buf <? hash_end then Err (Malformed "CHUNK_DESC: truncated hash") else
     let? raw := slice buf offset hash_end in
     let? h := ok_or (Hash_from_bytes raw) (Malformed "CHUNK_DESC: invalid hash") in
     Ok (Some h, hash_end)) in
  Ok (ChunkDesc.mk flags length hash, offset).

(** The chunk loop: the descriptors, the new offset and the sum of their lengths. *)
Fixpoint decode_chunks (count : nat) (buf : bytes) (offset running_sum : Z)
    : presult (list ChunkDesc.t * Z * Z) :=
  match count with
  | O => Ok ([], offset, running_sum)
  | S count' =>
      let? rest := slice_from buf offset in
      let? '(chunk, consumed) := decode_chunk_desc rest in
      let offset := offset + consumed in
      if Limits.MAX_CHUNK_SIZE <? ChunkDesc.length chunk
      then Err (InvalidManifest ("chunk length " +:+ pretty (ChunkDesc.length chunk)
                  +:+ " exceeds MAX_CHUNK_SIZE " +:+ pretty Limits.MAX_CHUNK_SIZE)) else
      let? running_sum := ok_or (checked_add 64 running_sum (ChunkDesc.length chunk))
                            (InvalidManifest "chunk length overflow") in
      let? '(l, offset, running_sum) := decode_chunks count' buf offset running_sum in
      Ok (chunk :: l, offset, running_sum)
  end.

(** A link target, absent when the buffer ends here. *)
Definition decode_target (e_over e_trunc e_utf8 : string) (buf : bytes) (offset : Z)
    : presult (option bytes * Z) :=
  if offset <? zlen buf then
    let? rest := slice_from buf offset in
    let? '(target_len, c) := Varint.decode_varint rest in
    let offset := offset + c in
    let? target_end := ok_or (checked_add 64 offset target_len) (Malformed e_over) in
    if zlen buf <? target_end then Err (Malformed e_trunc) else
    let? raw := slice buf offset target_end in
    let? target_str := ok_or (Utf8.from_utf8 raw) (Malformed e_utf8) in
    Ok (Some target_str, target_end)
  else Ok (None, offset).

(** One extended attribute: name, value, new offset, and the bytes counted so far. *)
Definition decode_xattr (buf : bytes) (offset total_xattr_bytes : Z)
    : presult (bytes * bytes * Z * Z) :=
  if zlen buf <=? offset then Err (Malformed "FILE_ENTRY: truncated xattr name length") else
  let? rest := slice_from buf offset in
  let? '(name_len, c) := Varint.decode_varint rest in
  let offset := offset + c in
  if Limits.MAX_XATTR_NAME_LEN <? name_len
  then Err (InvalidManifest ("xattr name length " +:+ pretty name_len
              +:+ " exceeds MAX_XATTR_NAME_LEN " +:+ pretty Limits.MAX_XATTR_NAME_LEN)) else
  let? name_end := ok_or (checked_add 64 offset name_len)
                     (Malformed "FILE_ENTRY: xattr name offset overflow") in
  if zlen buf <? name_end then Err (Malformed "FILE_ENTRY: truncated xattr name") else
  let? raw := slice buf offset name_end in
  let? name_str := ok_or (Utf8.from_utf8 raw)
                     (Malformed "FILE_ENTRY: xattr name not valid UTF-8") in
  if bool_decide (name_str = []) || Str.has_control name_str
  then Err (InvalidManifest ("invalid xattr name: " +:+ text name_str)) else
  let offset := name_end in
  if zlen buf <=? offset then Err (Malformed "FILE_ENTRY: truncated xattr value length") else
  let? rest := slice_from buf offset in
  let? '(val_len, c) := Varint.decode_varint rest in
  let offset := offset + c in
  if Limits.MAX_XATTR_VALUE_LEN <? val_len
  then Err (InvalidManifest ("xattr value length " +:+ pretty val_len
              +:+ " exceeds MAX_XATTR_VALUE_LEN " +:+ pretty Limits.MAX_XATTR_VALUE_LEN)) else
  let? val_end := ok_or (checked_add 64 offset val_len)
                    (Malformed "FILE_ENTRY: xattr value offset overflow") in
  if zlen buf <? val_end then Err (Malformed "FILE_ENTRY: truncated xattr value") else
  let? val_bytes := slice buf offset val_end in
  let offset := val_end in
  let? total_xattr_bytes := ok_or (checked_add 64 total_xattr_bytes (name_len + val_len))
                              (InvalidManifest "xattr byte count overflow") in
  if Limits.MAX_TOTAL_XATTR_BYTES <? total_xattr_bytes
  then Err (InvalidManifest ("total xattr bytes " +:+ pretty total_xattr_bytes
              +:+ " exceeds MAX_TOTAL_XATTR_BYTES " +:+ pretty Limits.MAX_TOTAL_XATTR_BYTES)) else
  Ok (name_str, val_bytes, offset, total_xattr_bytes).

Fixpoint decode_xattrs (count : nat) (buf : bytes) (offset total_xattr_bytes : Z)
    : presult (list (bytes * bytes) * Z) :=
  match count with
  | O => Ok ([], offset)
  | S count' =>
      let? '(name, val, offset, total) := decode_xattr buf offset total_xattr_bytes in
      let? '(l, offset) := decode_xattrs count' buf offset total in
      Ok ((name, val) :: l, offset)
  end.

Definition decode_xattr_section (buf : bytes) (offset : Z) : presult (list (bytes * bytes) * Z) :=
  if zlen buf <=? offset then Err (Malformed "FILE_ENTRY: truncated xattr count") else
  let? rest := slice_from buf offset in
  let? '(xattr_count, c) := Varint.decode_varint rest in
  let offset := offset + c in
  if Limits.MAX_XATTR_COUNT <? xattr_count
  then Err (InvalidManifest ("xattr count " +:+ pretty xattr_count
              +:+ " exceeds MAX_XATTR_COUNT " +:+ pretty Limits.MAX_XATTR_COUNT)) else
  decode_xattrs (Z.to_nat xattr_count) buf offset 0.

Definition FIXED_HDR_LEN : Z := 8 + 4 + 8 + 4 + 32.

(** The path: length, bytes, UTF-8 and [VPath] validation. *)
Definition decode_path (buf : bytes) (offset : Z) : presult (VPath.t * Z) :=
  if zlen buf <=? offset then Err (Malformed "FILE_ENTRY: truncated path length") else
  let? rest := slice_from buf offset in
  let? '(path_len, c) := Varint.decode_varint rest in
  let offset := offset + c in
  if Limits.MAX_PATH_TOTAL <? path_len
  then Err (InvalidManifest ("path length " +:+ pretty path_len
              +:+ " exceeds MAX_PATH_TOTAL " +:+ pretty Limits.MAX_PATH_TOTAL)) else
  let? path_end := ok_or (checked_add 64 offset path_len)
                     (Malformed "FILE_ENTRY: path offset overflow") in
  if zlen buf <? path_end then Err (Malformed "FILE_ENTRY: truncated path bytes") else
  let? raw := slice buf offset path_end in
  let? path_str := ok_or (Utf8.from_utf8 raw)
                     (Malformed "FILE_ENTRY: path is not valid UTF-8") in
  let? path := map_err (fun e => InvalidManifest ("path validation failed for '" +:+ text path_str
                          +:+ "': " +:+ VPath.fmt e)) (VPath.validate path_str) in
  Ok (path, path_end).

(** The fixed-size fields: size, mode, modification time and hash. *)
Definition decode_meta (buf : bytes) (offset : Z) : presult (Z * Z * Z * Z * Hash * Z) :=
  let? meta_end := ok_or (checked_add 64 offset FIXED_HDR_LEN)
                     (Malformed "FILE_ENTRY: metadata offset overflow") in
  if zlen buf <? meta_end then Err (Malformed "FILE_ENTRY: truncated metadata fields") else
  let? size := read_le buf offset 8 in
  let offset := offset + 8 in
  let? mode := read_le buf offset 4 in
  let offset := offset + 4 in
  let? mtime := read_le buf offset 8 in
  let mtime_sec := i64_of mtime in
  let offset := offset + 8 in
  let? mtime_nsec := read_le buf offset 4 in
  let offset := offset + 4 in
  let? raw := slice buf offset (offset + 32) in
  let? file_hash := ok_or (Hash_from_bytes raw) (Malformed "FILE_ENTRY: invalid hash") in
  let offset := offset + 32 in
  Ok (size, mode, mtime_sec, mtime_nsec, file_hash, offset).

Definition decode_file_entry (buf : bytes) : presult (FileEntry.t * Z) :=
  let offset := 0 in
  let? rest := slice_from buf offset in
  let? '(flags, c) := Varint.decode_varint rest in
  let offset := offset + c in
  let? '(path, offset) := decode_path buf offset in
  let? '(size, mode, mtime_sec, mtime_nsec, file_hash, offset) := decode_meta buf offset in
  if zlen buf <=? offset then Err (Malformed "FILE_ENTRY: truncated chunk count") else
  let? rest := slice_from buf offset in
  let? '(chunk_count, c) := Varint.decode_varint rest in
  let offset := offset + c in
  if MAX_WIRE_CHUNKS <? chunk_count
  then Err (InvalidManifest ("chunk count " +:+ pretty chunk_count
              +:+ " exceeds MAX_WIRE_CHUNKS")) else
  let? '(chunks, offset, running_sum) := decode_chunks (Z.to_nat chunk_count) buf offset 0 in
  if bool_decide (file_type flags = Regular) && negb (is_hardlink flags)
     && negb (running_sum =? size)
  then Err (InvalidManifest ("declared size (" +:+ pretty size
              +:+ ") does not match sum of chunk lengths (" +:+ pretty running_sum
              +:+ ") for " +:+ text path)) else
  let? '(symlink_target, offset) :=
    (if bool_decide (file_type flags = Symlink)
     then decode_target "FILE_ENTRY: symlink target offset overflow"
            "FILE_ENTRY: truncated symlink target" "FILE_ENTRY: symlink target is not UTF-8" buf offset
     else Ok (None, offset)) in
  let? '(hardlink_target, offset) :=
    (if is_hardlink flags
     then decode_target "FILE_ENTRY: hardlink target offset overflow"
            "FILE_ENTRY: truncated hardlink target" "FILE_ENTRY: hardlink target is not UTF-8" buf offset
     else Ok (None, offset)) in
  let? '(xattrs, offset) :=
    (if has_xattrs flags then decode_xattr_section buf offset else Ok ([], offset)) in
  Ok (FileEntry.mk flags path size mode mtime_sec mtime_nsec file_hash chunks symlink_target
        hardlink_target xattrs, offset).

Definition is_privileged_xattr (name : bytes) : bool :=
  Str.starts_with (lit "security.") name || Str.starts_with (lit "trusted.") name
  || Str.starts_with (lit "system.") name.

Fixpoint validate_xattrs_security (xattrs : list (bytes * bytes)) (is_admin : bool) : presult unit :=
  match xattrs with
  | [] => Ok tt
  | (name, _) :: rest =>
      if negb is_admin && is_privileged_xattr name
      then Err (InvalidManifest ("permission denied: privileged xattr namespace '" +:+ text name
                  +:+ "' requires admin grant"))
      else validate_xattrs_security rest is_admin
  end.

(** ** The canonical bytes *)

Definition chunk_bytes (c : ChunkDesc.t) : bytes :=
  Varint.varint_bytes (ChunkDesc.flags c) ++ Varint.varint_bytes (ChunkDesc.length c)
  ++ (if chunk_is_hole (ChunkDesc.flags c) then [] else default Hash_ZERO (ChunkDesc.hash c)).

Definition str_bytes (s : bytes) : bytes := Varint.varint_bytes (zlen s) ++ s.
Definition target_bytes (b : bool) (t : option bytes) : bytes :=
  if b then str_bytes (default [] t) else [].
Definition xattr_bytes (x : bytes * bytes) : bytes := str_bytes x.1 ++ str_bytes x.2.
Definition xattrs_bytes (b : bool) (l : list (bytes * bytes)) : bytes :=
  if b then Varint.varint_bytes (zlen l) ++ mjoin (xattr_bytes <$> l) else [].

Definition is_symlink (flags : Z) : bool := bool_decide (file_type flags = Symlink).

Definition meta_bytes (e : FileEntry.t) : bytes :=
  to_le 8 (FileEntry.size e) ++ to_le 4 (FileEntry.mode e)
  ++ to_le 8 (wrap 64 (FileEntry.mtime_sec e)) ++ to_le 4 (FileEntry.mtime_nsec e)
  ++ FileEntry.file_hash e.

Definition entry_bytes (e : FileEntry.t) : bytes :=
  Varint.varint_bytes (FileEntry.flags e) ++ str_bytes (FileEntry.path e) ++ meta_bytes e
  ++ Varint.varint_bytes (zlen (FileEntry.chunks e)) ++ mjoin (chunk_bytes <$> FileEntry.chunks e)
  ++ target_bytes (is_symlink (FileEntry.flags e)) (FileEntry.symlink_target e)
  ++ target_bytes (is_hardlink (FileEntry.flags e)) (FileEntry.hardlink_target e)
  ++ xattrs_bytes (has_xattrs (FileEntry.flags e)) (FileEntry.xattrs e).

(** ** Well-formed entries *)

Definition chunk_ok (c : ChunkDesc.t) : Prop :=
  fits 64 (ChunkDesc.flags c) /\ 0 <= ChunkDesc.length c <= Limits.MAX_CHUNK_SIZE /\
  match ChunkDesc.hash c with
  | Some h => chunk_is_hole (ChunkDesc.flags c) = false /\ wf_hash h
  | None => chunk_is_hole (ChunkDesc.flags c) = true
  end.

(** A link target is present exactly when the flags say so. *)
Definition target_ok (b : bool) (t : option bytes) : Prop :=
  match t with Some s => b = true /\ wf_str s | None => b = false end.

Definition xattr_ok (x : bytes * bytes) : Prop :=
  wf_str x.1 /\ x.1 <> [] /\ Str.has_control x.1 = false /\
  zlen x.1 <= Limits.MAX_XATTR_NAME_LEN /\ is_bytes x.2 /\ zlen x.2 <= Limits.MAX_XATTR_VALUE_LEN.
Definition xattr_total (l : list (bytes * bytes)) : Z :=
  foldr Z.add 0 ((fun x : bytes * bytes => zlen x.1 + zlen x.2) <$> l).
Definition xattrs_ok (b : bool) (l : list (bytes * bytes)) : Prop :=
  Forall xattr_ok l /\ zlen l <= Limits.MAX_XATTR_COUNT /\
  xattr_total l <= Limits.MAX_TOTAL_XATTR_BYTES /\ (b = false -> l = []).

(** The fields every entry the decoder returns satisfies. *)
Definition fields_ok (e : FileEntry.t) : Prop :=
  fits 64 (FileEntry.flags e) /\
  VPath.valid_path (FileEntry.path e) /\ wf_str (FileEntry.path e) /\
  fits 64 (FileEntry.size e) /\ fits 32 (FileEntry.mode e) /\ fits_i64 (FileEntry.mtime_sec e) /\
  fits 32 (FileEntry.mtime_nsec e) /\ wf_hash (FileEntry.file_hash e) /\
  Forall chunk_ok (FileEntry.chunks e) /\ zlen (FileEntry.chunks e) <= MAX_WIRE_CHUNKS /\
  (file_type (FileEntry.flags e) = Regular -> is_hardlink (FileEntry.flags e) = false ->
   FileEntry.lengths (FileEntry.chunks e) = FileEntry.size e) /\
  xattrs_ok (has_xattrs (FileEntry.flags e)) (FileEntry.xattrs e).

(** Entries that also carry the link targets their flags announce: these round-trip. *)
Definition entry_ok (e : FileEntry.t) : Prop :=
  fields_ok e /\
  target_ok (is_symlink (FileEntry.flags e)) (FileEntry.symlink_target e) /\
  target_ok (is_hardlink (FileEntry.flags e)) (FileEntry.hardlink_target e).

(** ** Encoding writes the canonical bytes *)

Lemma encode_chunk_desc_spec c out : chunk_ok c ->
  encode_chunk_desc c out = Ok (out ++ chunk_bytes c).
Proof.
  intros (Hf & Hl & Hh). unfold encode_chunk_desc, chunk_bytes.
  assert (fits 64 (ChunkDesc.length c)) by (unfold fits, Limits.MAX_CHUNK_SIZE in *; lia).
  rewrite !Varint.put_varint_spec by done. cbn [obind].
  destruct (ChunkDesc.hash c); destruct (chunk_is_hole _); cbn [negb default];
    by rewrite ?app_nil_r, <- ?app_assoc.
Qed.

Lemma encode_chunks_spec l out : Forall chunk_ok l ->
  encode_chunks l out = Ok (out ++ mjoin (chunk_bytes <$> l)).
Proof.
  intros H. revert out. induction H as [|c l Hc Hl IH]; intros out; cbn [encode_chunks].
  - cbn. by rewrite app_nil_r.
  - rewrite encode_chunk_desc_spec by done. cbn [obind]. rewrite IH.
    cbn [fmap list_fmap mjoin list_join]. by rewrite <- app_assoc.
Qed.

Lemma small_len_fits {A} (l : list A) k : zlen l <= k -> k < 2 ^ 64 -> fits 64 (zlen l).
Proof. pose proof (zlen_nonneg l). unfold fits. lia. Qed.

Lemma xattr_ok_fits x : xattr_ok x -> fits 64 (zlen x.1) /\ fits 64 (zlen x.2).
Proof. intros (_ & _ & _ & H1 & _ & H2). split; by eapply small_len_fits. Qed.

Lemma encode_xattrs_spec l out : Forall xattr_ok l ->
  encode_xattrs l out = Ok (out ++ mjoin (xattr_bytes <$> l)).
Proof.
  intros H. revert out. induction H as [|[n v] l Hx Hl IH]; intros out; cbn [encode_xattrs].
  - cbn. by rewrite app_nil_r.
  - destruct (xattr_ok_fits _ Hx). cbn in *. rewrite !Varint.put_varint_spec by done. cbn [obind].
    rewrite IH. cbn. unfold xattr_bytes, str_bytes. by rewrite <- !app_assoc.
Qed.

Lemma encode_target_spec b t out : target_ok b t ->
  (if b then encode_target t out else Ok out) = Ok (out ++ target_bytes b t).
Proof.
  unfold target_bytes. destruct b; cbn; [|by rewrite app_nil_r].
  destruct t as [s|]; [|done]. intros [_ Hs]. unfold encode_target. cbn [default].
  by rewrite Varint.put_varint_spec by by apply wf_str_fits.
Qed.

Lemma encode_file_entry_spec e out : entry_ok e ->
  encode_file_entry e out = Ok (out ++ entry_bytes e).
Proof.
  intros ((Hf & Hp & Hps & Hsz & Hm & Hmt & Hns & Hh & Hc & Hn & Hsum & Hx & Hxn & Hxt & Hx0) & Hs & Hhl).
  unfold encode_file_entry. pose proof (wf_str_fits _ Hps). pose proof (small_len_fits _ _ Hn eq_refl).
  rewrite !Varint.put_varint_spec by done. cbn [obind]. rewrite encode_chunks_spec by done. cbn [obind]. fold (is_symlink (FileEntry.flags e)).
  rewrite encode_target_spec by done. cbn [obind]. rewrite encode_target_spec by done. cbn [obind].
  unfold entry_bytes, meta_bytes, xattrs_bytes, str_bytes. destruct (has_xattrs _).
  - rewrite Varint.put_varint_spec by by eapply small_len_fits. cbn [obind].
    rewrite encode_xattrs_spec by done. by rewrite <- !app_assoc.
  - by rewrite !app_nil_r, <- !app_assoc.
Qed.

(** ** Decoding the canonical bytes *)

(** [at_ buf i l]: from offset [i] on, [buf] holds [l]. *)
Definition at_ (buf : bytes) (i : Z) (l : bytes) : Prop :=
  @slice_from ProtocolError Z buf i = Ok l.

Lemma at_advance buf i a r j : at_ buf i (a ++ r) -> j = i + zlen a -> at_ buf j r.
Proof.
  intros H ->. unfold at_. rewrite (slice_from_from _ _ _ _ H) by apply zlen_nonneg.
  rewrite slice_from_skip, Z.sub_diag by lia. by rewrite slice_from_0.
Qed.

Lemma at_len buf i l : at_ buf i l -> 0 <= i /\ zlen buf = i + zlen l.
Proof. apply slice_from_length. Qed.

Lemma at_slice buf i a r j : at_ buf i (a ++ r) -> j = i + zlen a ->
  @slice ProtocolError Z buf i j = Ok a.
Proof.
  intros H ->. rewrite <- (Z.add_0_r i) at 1. rewrite (slice_of_slice_from _ _ _ _ _ H) by lia.
  by apply slice_here.
Qed.

Lemma at_read_le buf i k v r n : at_ buf i (to_le k v ++ r) -> n = Z.of_nat k -> fits (8 * n) v ->
  @read_le ProtocolError buf i n = Ok v.
Proof.
  intros H -> Hv. unfold read_le. rewrite (at_slice _ _ _ _ _ H) by by rewrite zlen_to_le.
  cbn [obind]. by rewrite from_to_le.
Qed.

Lemma decode_chunk_desc_bytes c post : chunk_ok c -> zlen (chunk_bytes c ++ post) < 2 ^ 63 ->
  decode_chunk_desc (chunk_bytes c ++ post) = Ok (c, zlen (chunk_bytes c)).
Proof.
  destruct c as [f l h]. intros (Hf & Hl & Hh). unfold chunk_bytes, decode_chunk_desc. cbn in *.
  assert (fits 64 l) by (unfold fits, Limits.MAX_CHUNK_SIZE in *; lia). rewrite <- !app_assoc.
  destruct h as [h|]; [destruct Hh as [Hh [Hb Hhl]]|]; rewrite Hh; unfold default, id; cbn [app];
    intros Hlen; autorewrite with len in Hlen; run; rewrite Hh; run; do 2 f_equal; len.
Qed.

Lemma chunk_bytes_pos c : chunk_ok c -> 2 <= zlen (chunk_bytes c).
Proof.
  intros (Hf & Hl & _). unfold chunk_bytes.
  assert (fits 64 (ChunkDesc.length c)) by (unfold fits, Limits.MAX_CHUNK_SIZE in *; lia).
  pose proof (zlen_nonneg (if chunk_is_hole (ChunkDesc.flags c) then []
    else default Hash_ZERO (ChunkDesc.hash c))). rewrite !zlen_app, !Varint.zlen_varint_bytes by done.
  pose proof (Varint.varint_len_bounds (ChunkDesc.flags c)).
  pose proof (Varint.varint_len_bounds (ChunkDesc.length c)). lia.
Qed.

Lemma lengths_nonneg l : Forall chunk_ok l -> 0 <= FileEntry.lengths l.
Proof. induction 1 as [|c l (_ & Hc & _) _ IH]; cbn; [done|]. unfold FileEntry.lengths in IH. lia. Qed.

Lemma lengths_bound l : Forall chunk_ok l -> FileEntry.lengths l <= zlen l * Limits.MAX_CHUNK_SIZE.
Proof.
  induction 1 as [|c l (_ & Hc & _) _ IH]; [done|]. rewrite zlen_cons.
  change (FileEntry.lengths (c :: l)) with (ChunkDesc.length c + FileEntry.lengths l). lia.
Qed.

Lemma decode_chunks_at l buf i sum post : at_ buf i (mjoin (chunk_bytes <$> l) ++ post) ->
  Forall chunk_ok l -> zlen buf < 2 ^ 63 -> 0 <= sum -> sum + FileEntry.lengths l < 2 ^ 64 ->
  decode_chunks (length l) buf i sum =
  Ok (l, i + zlen (mjoin (chunk_bytes <$> l)), sum + FileEntry.lengths l).
Proof.
  intros Hat Hl Hbuf. revert i sum Hat. induction Hl as [|c l Hc Hl IH]; intros i sum Hat Hs Hsum.
  { cbn. do 2 f_equal; [|lia]. f_equal. unfold zlen; cbn; lia. }
  cbn [fmap list_fmap mjoin list_join] in Hat. rewrite <- app_assoc in Hat.
  change (FileEntry.lengths (c :: l)) with (ChunkDesc.length c + FileEntry.lengths l) in *.
  cbn [length decode_chunks]. pose proof (lengths_nonneg l Hl). destruct (at_len _ _ _ Hat) as [Hi Hlen].
  unfold at_ in Hat. rewrite Hat. cbn [obind]. rewrite decode_chunk_desc_bytes by (done || lia). cbn [obind].
  destruct Hc as (_ & Hcl & _). rewrite (proj2 (Z.ltb_ge _ _)) by lia.
  rewrite checked_add_ok by lia. cbn [ok_or obind].
  rewrite IH; [|by eapply at_advance|lia|lia]. cbn [obind]. cbn [fmap list_fmap mjoin list_join].
  by rewrite zlen_app, !Z.add_assoc.
Qed.

Lemma decode_target_at eo et eu b t buf i post : at_ buf i (target_bytes b t ++ post) ->
  target_ok b t -> zlen buf < 2 ^ 63 ->
  (if b then decode_target eo et eu buf i else Ok (None, i)) = Ok (t, i + zlen (target_bytes b t)).
Proof.
  intros Hat Ht Hbuf. unfold target_bytes in *. destruct b; destruct t as [s|]; cbn in Ht; try done.
  2:{ destruct Ht as [? _]. done. }
  2:{ do 2 f_equal. unfold zlen; cbn; lia. }
  destruct Ht as [_ Hs]. unfold default, id in *. pose proof (wf_str_fits _ Hs) as Hfit.
  unfold str_bytes in *. rewrite <- app_assoc in Hat. destruct (at_len _ _ _ Hat) as [Hi Hlen].
  pose proof (Varint.varint_len_bounds (zlen s)). pose proof (zlen_nonneg post). pose proof (zlen_nonneg s).
  rewrite !zlen_app, Varint.zlen_varint_bytes in Hlen by done.
  unfold decode_target. rewrite (proj2 (Z.ltb_lt _ _)) by lia.
  pose proof (at_advance _ _ _ _ (i + Varint.varint_len (zlen s)) Hat) as Hat2.
  unfold at_ in Hat. rewrite Hat. cbn [obind]. rewrite Varint.decode_varint_bytes by done. cbn [obind].
  rewrite checked_add_ok by lia. cbn [ok_or obind]. rewrite (proj2 (Z.ltb_ge _ _)) by lia.
  rewrite (at_slice _ _ _ _ _ (Hat2 ltac:(by rewrite Varint.zlen_varint_bytes)) eq_refl). cbn [obind].
  destruct Hs as [Hs _]. rewrite Utf8.from_utf8_ok by done. cbn [ok_or obind].
  rewrite zlen_app, Varint.zlen_varint_bytes by done. do 2 f_equal. lia.
Qed.

(** Reading a length-prefixed string, piece by piece. *)
Lemma str_at buf i s post : at_ buf i (str_bytes s ++ post) -> fits 64 (zlen s) ->
  at_ buf i (Varint.varint_bytes (zlen s) ++ s ++ post) /\
  at_ buf (i + Varint.varint_len (zlen s)) (s ++ post) /\
  at_ buf (i + Varint.varint_len (zlen s) + zlen s) post /\
  0 <= i /\ zlen buf = i + Varint.varint_len (zlen s) + zlen s + zlen post.
Proof.
  unfold str_bytes. rewrite <- app_assoc. intros H Hf. split; [done|].
  assert (H2 : at_ buf (i + Varint.varint_len (zlen s)) (s ++ post))
    by (eapply at_advance; [done|by rewrite Varint.zlen_varint_bytes]).
  split; [done|]. split; [by eapply at_advance|].
  destruct (at_len _ _ _ H) as [Hi Hl]. split; [done|].
  rewrite !zlen_app, Varint.zlen_varint_bytes in Hl by done. lia.
Qed.

Lemma zlen_str_bytes s : fits 64 (zlen s) -> zlen (str_bytes s) = Varint.varint_len (zlen s) + zlen s.
Proof. intros. unfold str_bytes. by rewrite zlen_app, Varint.zlen_varint_bytes. Qed.

Lemma xattr_total_nonneg l : 0 <= xattr_total l.
Proof.
  induction l as [|x l IH]; [done|]. cbn. fold (xattr_total l).
  pose proof (zlen_nonneg x.1). pose proof (zlen_nonneg x.2). lia.
Qed.

Lemma decode_xattr_at x buf i total post : at_ buf i (xattr_bytes x ++ post) -> xattr_ok x ->
  zlen buf < 2 ^ 63 -> 0 <= total -> total + (zlen x.1 + zlen x.2) <= Limits.MAX_TOTAL_XATTR_BYTES ->
  decode_xattr buf i total =
  Ok (x.1, x.2, i + zlen (xattr_bytes x), total + (zlen x.1 + zlen x.2)).
Proof.
  destruct x as [n v]. intros Hat Hx Hbuf Ht Hmax. destruct (xattr_ok_fits _ Hx) as [Hfn Hfv].
  destruct Hx as ([Hn _] & Hne & Hc & Hnl & Hb & Hvl). cbn [fst snd] in *. unfold xattr_bytes in *.
  cbn [fst snd] in *. rewrite <- app_assoc in Hat.
  destruct (str_at _ _ _ _ Hat Hfn) as (H1 & H2 & H3 & Hi & Hl1).
  destruct (str_at _ _ _ _ H3 Hfv) as (H4 & H5 & _ & _ & Hl2).
  pose proof (Varint.varint_len_bounds (zlen n)). pose proof (Varint.varint_len_bounds (zlen v)).
  pose proof (zlen_nonneg n). pose proof (zlen_nonneg v). pose proof (zlen_nonneg post).
  assert (Hlt : forall a b, a <= b -> (b <? a) = false) by (intros; by apply Z.ltb_ge).
  assert (Hle : forall a b, b < a -> (a <=? b) = false) by (intros; by apply Z.leb_gt).
  unfold decode_xattr. unfold Limits.MAX_TOTAL_XATTR_BYTES in *. unfold at_ in H1, H4.
  rewrite Hle by lia. rewrite H1. cbn [obind]. rewrite Varint.decode_varint_bytes by done. cbn [obind].
  rewrite Hlt by done. rewrite checked_add_ok by lia. cbn [ok_or obind]. rewrite Hlt by lia.
  rewrite (at_slice _ _ _ _ _ H2 eq_refl). cbn [obind]. rewrite Utf8.from_utf8_ok by done. cbn [ok_or obind].
  rewrite bool_decide_eq_false_2, Hc by done. cbn [orb]. rewrite Hle by lia. rewrite H4. cbn [obind].
  rewrite Varint.decode_varint_bytes by done. cbn [obind]. rewrite Hlt by done.
  rewrite checked_add_ok by lia. cbn [ok_or obind]. rewrite Hlt by lia.
  rewrite (at_slice _ _ _ _ _ H5 eq_refl). cbn [obind]. rewrite checked_add_ok by lia. cbn [ok_or obind].
  rewrite Hlt by lia. rewrite zlen_app, !zlen_str_bytes by done. do 3 f_equal. lia.
Qed.

Lemma decode_xattrs_at l buf i total post : at_ buf i (mjoin (xattr_bytes <$> l) ++ post) ->
  Forall xattr_ok l -> zlen buf < 2 ^ 63 -> 0 <= total ->
  total + xattr_total l <= Limits.MAX_TOTAL_XATTR_BYTES ->
  decode_xattrs (length l) buf i total = Ok (l, i + zlen (mjoin (xattr_bytes <$> l))).
Proof.
  intros Hat Hl Hbuf. revert i total Hat. induction Hl as [|x l Hx Hl IH]; intros i total Hat Ht Hmax.
  { cbn. do 2 f_equal. unfold zlen; cbn; lia. }
  cbn [fmap list_fmap mjoin list_join] in Hat. rewrite <- app_assoc in Hat.
  change (xattr_total (x :: l)) with (zlen x.1 + zlen x.2 + xattr_total l) in Hmax.
  pose proof (xattr_total_nonneg l). pose proof (zlen_nonneg x.1). pose proof (zlen_nonneg x.2).
  cbn [length decode_xattrs]. rewrite (decode_xattr_at x _ _ _ _ Hat) by (done || lia). cbn [obind].
  rewrite (IH (i + zlen (xattr_bytes x))); [|by eapply at_advance|lia|lia]. cbn [obind].
  destruct x as [n v]. cbn [fmap list_fmap mjoin list_join fst snd]. by rewrite zlen_app, Z.add_assoc.
Qed.

Lemma decode_path_at p buf i post : at_ buf i (str_bytes p ++ post) -> VPath.valid_path p ->
  wf_str p -> zlen buf < 2 ^ 63 ->
  decode_path buf i = Ok (p, i + zlen (str_bytes p)).
Proof.
  intros Hat Hp Hs Hbuf. pose proof (wf_str_fits _ Hs) as Hf.
  destruct (str_at _ _ _ _ Hat Hf) as (H1 & H2 & H3 & Hi & Hl).
  pose proof (Varint.varint_len_bounds (zlen p)). pose proof (zlen_nonneg p). pose proof (zlen_nonneg post).
  assert (Hmax : zlen p <= Limits.MAX_PATH_TOTAL) by apply Hp.
  unfold decode_path. unfold at_ in H1. rewrite (proj2 (Z.leb_gt _ _)) by lia. rewrite H1. cbn [obind].
  rewrite Varint.decode_varint_bytes by done. cbn [obind]. rewrite (proj2 (Z.ltb_ge _ _)) by done.
  rewrite checked_add_ok by lia. cbn [ok_or obind]. rewrite (proj2 (Z.ltb_ge _ _)) by lia.
  rewrite (at_slice _ _ _ _ _ H2 eq_refl). cbn [obind]. destruct Hs as [Hs _].
  rewrite Utf8.from_utf8_ok by done. cbn [ok_or obind].
  rewrite (proj2 (VPath.validate_ok_iff p p) (conj eq_refl Hp)). cbn [map_err obind].
  rewrite zlen_str_bytes by done. do 2 f_equal. lia.
Qed.

(** The optional attribute section. *)
Lemma decode_xattrs_section b l buf i post : at_ buf i (xattrs_bytes b l ++ post) ->
  xattrs_ok b l -> zlen buf < 2 ^ 63 ->
  (if b then decode_xattr_section buf i else Ok ([], i)) = Ok (l, i + zlen (xattrs_bytes b l)).
Proof.
  intros Hat (Hok & Hn & Ht & H0) Hbuf. unfold decode_xattr_section. destruct b; cbn [xattrs_bytes] in *.
  2:{ rewrite H0 by done. do 2 f_equal. unfold zlen; cbn; lia. }
  assert (Hf : fits 64 (zlen l)) by by eapply small_len_fits.
  rewrite <- app_assoc in Hat. destruct (at_len _ _ _ Hat) as [Hi Hl].
  rewrite !zlen_app, Varint.zlen_varint_bytes in Hl by done.
  pose proof (Varint.varint_len_bounds (zlen l)). pose proof (zlen_nonneg post).
  pose proof (zlen_nonneg (mjoin (xattr_bytes <$> l))). rewrite (proj2 (Z.leb_gt _ _)) by lia.
  pose proof Hat as Hat1. unfold at_ in Hat1. rewrite Hat1. cbn [obind].
  rewrite Varint.decode_varint_bytes by done. cbn [obind]. rewrite (proj2 (Z.ltb_ge _ _)) by done.
  unfold zlen at 1. rewrite Nat2Z.id. erewrite decode_xattrs_at; [|eapply at_advance; [done|]|done..|lia].
  - rewrite zlen_app, Varint.zlen_varint_bytes, Z.add_assoc by done. done.
  - by rewrite Varint.zlen_varint_bytes.
Qed.

Lemma decode_meta_at e buf i post : at_ buf i (meta_bytes e ++ post) -> fields_ok e ->
  zlen buf < 2 ^ 63 ->
  decode_meta buf i = Ok (FileEntry.size e, FileEntry.mode e, FileEntry.mtime_sec e,
    FileEntry.mtime_nsec e, FileEntry.file_hash e, i + zlen (meta_bytes e)).
Proof.
  intros H0 (_ & _ & _ & Hsz & Hm & Hmt & Hns & [Hh Hhl] & _) Hbuf. unfold meta_bytes in *.
  destruct (at_len _ _ _ H0) as [Hi Hl]. pose proof (zlen_nonneg post).
  rewrite !zlen_app, !zlen_to_le, Hhl in Hl. unfold decode_meta, FIXED_HDR_LEN.
  rewrite checked_add_ok by lia. cbn [ok_or obind]. rewrite (proj2 (Z.ltb_ge _ _)) by lia.
  rewrite <- !app_assoc in H0.
  rewrite (at_read_le _ _ _ _ _ _ H0) by done. cbn [obind]. eapply at_advance in H0; [|done].
  rewrite zlen_to_le in H0. rewrite (at_read_le _ _ _ _ _ _ H0) by done. cbn [obind].
  eapply at_advance in H0; [|done]. rewrite zlen_to_le in H0.
  rewrite (at_read_le _ _ _ _ _ _ H0) by (done || by apply wrap_fits). cbn [obind].
  eapply at_advance in H0; [|done]. rewrite zlen_to_le in H0.
  rewrite (at_read_le _ _ _ _ _ _ H0) by done. cbn [obind]. eapply at_advance in H0; [|done].
  rewrite zlen_to_le in H0. rewrite (at_slice _ _ _ _ _ H0) by by rewrite Hhl. cbn [obind].
  rewrite Hash_from_bytes_ok by done. cbn [ok_or obind]. rewrite i64_of_wrap by done.
  rewrite !zlen_app, !zlen_to_le, Hhl. do 2 f_equal. lia.
Qed.

(** Reading a varint that is there: not at the end, and the offset after it. *)
Lemma at_varint buf i v r : at_ buf i (Varint.varint_bytes v ++ r) -> fits 64 v ->
  (zlen buf <=? i) = false /\ slice_from buf i = Ok (E:=ProtocolError) (Varint.varint_bytes v ++ r) /\
  at_ buf (i + Varint.varint_len v) r.
Proof.
  intros H Hv. destruct (at_len _ _ _ H) as [Hi Hl]. pose proof (zlen_nonneg r).
  pose proof (Varint.varint_len_bounds v). rewrite zlen_app, Varint.zlen_varint_bytes in Hl by done.
  split; [lia|]. split; [done|]. eapply at_advance; [done|]. by rewrite Varint.zlen_varint_bytes.
Qed.

(** Decoding the encoding of a well-formed entry, whatever follows it. *)
Lemma decode_file_entry_bytes e post : entry_ok e -> zlen (entry_bytes e ++ post) < 2 ^ 63 ->
  decode_file_entry (entry_bytes e ++ post) = Ok (e, zlen (entry_bytes e)).
Proof.
  intros (Hfields & Hs & Hhd) Hbuf.
  assert (H0 : at_ (entry_bytes e ++ post) 0 (entry_bytes e ++ post)) by by apply slice_from_0.
  set (buf := entry_bytes e ++ post) in *. change (at_ buf 0 (entry_bytes e ++ post)) in H0. clearbody buf.
  pose proof Hfields as (Hf & Hp & Hps & _ & _ & _ & _ & _ & Hc & Hn & Hsum & Hx).
  assert (Hnf : fits 64 (zlen (FileEntry.chunks e))) by by eapply small_len_fits.
  pose proof (lengths_nonneg _ Hc). pose proof (lengths_bound _ Hc).
  unfold entry_bytes in *. rewrite <- !app_assoc in H0. unfold decode_file_entry.
  destruct (at_varint _ _ _ _ H0 Hf) as (_ & -> & Ha). clear H0. cbn [obind].
  rewrite Varint.decode_varint_bytes by done. cbn [obind].
  rewrite (decode_path_at _ _ _ _ Ha) by done. cbn [obind]. eapply at_advance in Ha; [|done].
  rewrite (decode_meta_at e _ _ _ Ha) by done. cbn [obind]. eapply at_advance in Ha; [|done].
  destruct (at_varint _ _ _ _ Ha Hnf) as (-> & -> & Hb). clear Ha. cbn [obind].
  rewrite Varint.decode_varint_bytes by done. cbn [obind]. rewrite (proj2 (Z.ltb_ge _ _)) by done.
  unfold zlen at 1. rewrite Nat2Z.id.
  rewrite (decode_chunks_at _ _ _ _ _ Hb) by (done || unfold MAX_WIRE_CHUNKS, Limits.MAX_CHUNK_SIZE in *; lia).
  cbn [obind]. eapply at_advance in Hb; [|done]. rewrite Z.add_0_l.
  replace (bool_decide _ && negb (is_hardlink _) && negb _) with false.
  2:{ case_bool_decide; [|done]. destruct (is_hardlink (FileEntry.flags e)); [done|]. cbn [negb andb].
      rewrite Hsum by done. by rewrite Z.eqb_refl. }
  fold (is_symlink (FileEntry.flags e)). rewrite (decode_target_at _ _ _ _ _ _ _ _ Hb) by done.
  cbn [obind]. eapply at_advance in Hb; [|done].
  rewrite (decode_target_at _ _ _ _ _ _ _ _ Hb) by done. cbn [obind]. eapply at_advance in Hb; [|done].
  rewrite (decode_xattrs_section _ _ _ _ _ Hb) by done. cbn [obind].
  destruct e; cbn. do 2 f_equal. rewrite !zlen_app, !Varint.zlen_varint_bytes by done. cbn. lia.
Qed.

(** ** Decoding arbitrary bytes *)

(** A decoded link target: only where the flags announce one. *)
Definition target_decoded (b : bool) (t : option bytes) : Prop :=
  match t with Some s => b = true /\ wf_str s | None => True end.

Lemma wp_decode_chunk_desc buf : is_buf buf -> wp (decode_chunk_desc buf) (fun '(c, n) =>
  (ChunkDesc.length c <= Limits.MAX_CHUNK_SIZE -> chunk_ok c) /\ 0 <= ChunkDesc.length c /\
  2 <= n <= zlen buf).
Proof.
  intros [Hb Hl]. pose proof (zlen_nonneg buf). unfold decode_chunk_desc. wps.
  - split; [intros Hle; split_and!; cbn; done|cbn; lia].
  - split; [intros Hle; split_and!; cbn; try done|cbn; lia]. split; [done|].
    split; [eauto with is_bytes|lia].
Qed.

Lemma wp_decode_chunks k buf i sum : is_buf buf -> 0 <= i <= zlen buf -> 0 <= sum ->
  wp (decode_chunks k buf i sum) (fun '(l, j, s) => length l = k /\ Forall chunk_ok l /\
    i + 2 * Z.of_nat k <= j <= zlen buf /\ s = sum + FileEntry.lengths l).
Proof.
  intros [Hb Hl]. revert i sum. induction k as [|k IH]; intros i sum Hi Hs; cbn [decode_chunks].
  { cbn. split_and!; [done|constructor|lia|lia|lia]. }
  apply wp_bind, wp_slice_from; [lia|]. intros rest _ Hrest HP.
  eapply wp_bind_mono; [apply wp_decode_chunk_desc; split; [by apply HP|lia]|].
  intros [c n] (Hc & Hc0 & Hn). apply wp_if; intros Hmax; [done|]. specialize (Hc ltac:(lia)).
  apply wp_bind, wp_ok_or. intros s' [-> Hs']%checked_add_Some.
  eapply wp_bind_mono; [apply IH; lia|]. intros [[l j] s] (Hk & Hok & Hj & Hsum). cbn [wp].
  split_and!; [cbn; lia|by constructor|lia|lia|].
  change (FileEntry.lengths (c :: l)) with (ChunkDesc.length c + FileEntry.lengths l). lia.
Qed.

Lemma wp_decode_target eo et eu (b : bool) buf i : is_buf buf -> 0 <= i <= zlen buf ->
  wp (if b then decode_target eo et eu buf i else Ok (None, i)) (fun '(t, j) =>
    target_decoded b t /\ i <= j <= zlen buf).
Proof.
  intros [Hb Hl] Hi. destruct b; [|split; [done|lia]]. unfold decode_target. wps; cbn.
  - split; [|lia]. split; [done|]. split; [done|lia].
  - lia.
Qed.

Lemma wp_decode_xattr buf i total : is_buf buf -> 0 <= i <= zlen buf -> 0 <= total ->
  wp (decode_xattr buf i total) (fun '(n, v, j, t) => xattr_ok (n, v) /\
    i < j <= zlen buf /\ t = total + (zlen n + zlen v) /\ t <= Limits.MAX_TOTAL_XATTR_BYTES).
Proof.
  intros [Hb Hl] Hi Ht. unfold decode_xattr. wps; cbn.
  rewrite orb_false_iff, bool_decide_eq_false in *. destruct_and!.
  split_and!; try done; try lia. split_and!; cbn; try done; try lia; [|eauto with is_bytes].
  split; [done|lia].
Qed.

Lemma wp_decode_xattrs k buf i total : is_buf buf -> 0 <= i <= zlen buf ->
  0 <= total <= Limits.MAX_TOTAL_XATTR_BYTES ->
  wp (decode_xattrs k buf i total) (fun '(l, j) => length l = k /\ Forall xattr_ok l /\
    i <= j <= zlen buf /\ total + xattr_total l <= Limits.MAX_TOTAL_XATTR_BYTES).
Proof.
  intros Hb. revert i total. induction k as [|k IH]; intros i total Hi Ht; cbn [decode_xattrs].
  { cbn. split_and!; [done|constructor|lia|lia|lia]. }
  eapply wp_bind_mono; [apply wp_decode_xattr; [done|lia|lia]|].
  intros [[[n v] j] t] (Hx & Hj & -> & Hmax). pose proof (zlen_nonneg n). pose proof (zlen_nonneg v).
  eapply wp_bind_mono; [apply IH; lia|]. intros [l j'] (Hk & Hok & Hj' & Htot). cbn [wp].
  split_and!; [cbn; lia|by constructor|lia|lia|].
  change (xattr_total ((n, v) :: l)) with (zlen n + zlen v + xattr_total l). lia.
Qed.

Lemma wp_decode_xattr_section (b : bool) buf i : is_buf buf -> 0 <= i <= zlen buf ->
  wp (if b then decode_xattr_section buf i else Ok ([], i)) (fun '(l, j) =>
    xattrs_ok b l /\ i <= j <= zlen buf).
Proof.
  intros Hbuf Hi. pose proof Hbuf as [Hb Hl]. destruct b; [|split; [by repeat constructor|lia]].
  unfold decode_xattr_section. wps. eapply wp_mono; [apply wp_decode_xattrs; [done|lia|done]|].
  intros [l j] (Hk & Hok & Hj & Htot). split; [|lia]. split_and!; [done| |lia|done].
  unfold zlen. lia.
Qed.

Lemma wp_decode_path buf i : is_buf buf -> 0 <= i <= zlen buf ->
  wp (decode_path buf i) (fun '(p, j) => VPath.valid_path p /\ wf_str p /\ i < j <= zlen buf).
Proof.
  intros [Hb Hl] Hi. unfold decode_path. wps. apply wp_map_err.
  match goal with |- wp (VPath.validate ?s) _ =>
    pose proof (VPath.validate_no_panic s); destruct (VPath.validate s) as [p|e|] eqn:Ep end; [|done|done].
  apply VPath.validate_ok_iff in Ep as [-> Hp]. wps. split; [done|]. split; [|lia]. split; [done|lia].
Qed.

Lemma wp_decode_meta buf i : is_buf buf -> 0 <= i <= zlen buf ->
  wp (decode_meta buf i) (fun '(sz, m, mt, ns, h, j) => fits 64 sz /\ fits 32 m /\ fits_i64 mt /\
    fits 32 ns /\ wf_hash h /\ j = i + 56 /\ j <= zlen buf).
Proof.
  intros [Hb Hl] Hi. unfold decode_meta, FIXED_HDR_LEN. wps. cbn.
  split_and!; try done; try lia; [by apply i64_of_fits|]. split; [eauto with is_bytes|lia].
Qed.

(** No input makes the decoder panic, and what it returns is well formed. *)
Lemma wp_decode_file_entry buf : is_buf buf -> wp (decode_file_entry buf) (fun '(e, n) =>
  fields_ok e /\ target_decoded (is_symlink (FileEntry.flags e)) (FileEntry.symlink_target e) /\
  target_decoded (is_hardlink (FileEntry.flags e)) (FileEntry.hardlink_target e) /\
  0 < n <= zlen buf).
Proof.
  intros Hbuf. pose proof Hbuf as [Hb Hl]. pose proof (zlen_nonneg buf). unfold decode_file_entry.
  apply wp_bind, wp_slice_from; [lia|]. intros rest _ Hr HP.
  apply wp_bind, Varint.wp_decode_varint; [by apply HP|]. intros f c Hf Hc Hc' _.
  eapply wp_bind_mono; [apply wp_decode_path; [done|lia]|]. intros [p i1] (Hp & Hps & Hi1).
  eapply wp_bind_mono; [apply wp_decode_meta; [done|lia]|].
  intros [[[[[sz m] mt] ns] h] i2] (Hsz & Hm & Hmt & Hns & Hh & -> & Hi2).
  apply wp_if; intros Hlt; [done|]. apply wp_bind, wp_slice_from; [lia|]. intros rest2 _ Hr2 HP2.
  apply wp_bind, Varint.wp_decode_varint; [by apply HP2|]. intros cc c2 Hcc Hc2 Hc2' _.
  apply wp_if; intros Hmax; [done|].
  eapply wp_bind_mono; [apply wp_decode_chunks; [done|lia|lia]|].
  intros [[l i3] s] (Hk & Hok & Hi3 & Hs). apply wp_if; intros Hsum; [done|].
  eapply wp_bind_mono; [apply wp_decode_target; [done|lia]|]. intros [t1 i4] (Ht1 & Hi4).
  eapply wp_bind_mono; [apply wp_decode_target; [done|lia]|]. intros [t2 i5] (Ht2 & Hi5).
  eapply wp_bind_mono; [apply wp_decode_xattr_section; [done|lia]|]. intros [x i6] (Hx & Hi6).
  cbn [wp]. split_and!; try done; try lia. split_and!; cbn; try done; [unfold zlen, fits in *; lia|].
  intros Hreg Hnl. unfold FileEntry.lengths in Hs. rewrite Hreg, Hnl, bool_decide_eq_true_2 in Hsum by done. cbn in Hsum. lia.
Qed.

(** ** The constructors build well-formed entries *)

Lemma with_xattrs_flag f b : let f' := FileFlags.with_xattrs f b in
  file_type f' = file_type f /\ is_hardlink f' = is_hardlink f /\ has_xattrs f' = b.
Proof.
  unfold FileFlags.with_xattrs, is_hardlink, has_xattrs.
  change FILE_FLAG_HAS_XATTRS with (2 ^ 3). change FILE_FLAG_HARDLINK with (2 ^ 4). cbv zeta.
  split_and!; [apply file_type_low| |]; rewrite ?has_flag_bit, ?with_flag_bit by done; done.
Qed.

Lemma with_flag_fits m f b : fits 64 m -> fits 64 f -> fits 64 (with_flag m f b).
Proof.
  intros Hm Hf. unfold with_flag. destruct b; [by apply lor_fits|].
  unfold fits in *. split; [apply Z.ldiff_nonneg; lia|].
  apply Z.le_lt_trans with f; [|lia]. apply Z.ldiff_le; [lia|].
  apply Z.bits_inj'. intros n Hn. rewrite !Z.ldiff_spec, Z.bits_0.
  by destruct (Z.testbit f n), (Z.testbit m n).
Qed.

Lemma with_xattrs_ok e l : entry_ok e -> Forall xattr_ok l -> zlen l <= Limits.MAX_XATTR_COUNT ->
  xattr_total l <= Limits.MAX_TOTAL_XATTR_BYTES -> entry_ok (FileEntry.with_xattrs e l).
Proof.
  intros ((Hf & Hp & Hps & Hsz & Hm & Hmt & Hns & Hh & Hc & Hn & Hsum & _) & Hs & Hhd) Hl Hln Hlt.
  set (b := match l with [] => false | _ => true end).
  destruct (with_xattrs_flag (FileEntry.flags e) b) as (Ht & Hhl & Hx). cbv zeta in *.
  assert (Hflags : fits 64 (FileFlags.with_xattrs (FileEntry.flags e) b)) by by apply with_flag_fits.
  replace (FileEntry.with_xattrs e l) with (FileEntry.mk (FileFlags.with_xattrs (FileEntry.flags e) b)
    (FileEntry.path e) (FileEntry.size e) (FileEntry.mode e) (FileEntry.mtime_sec e)
    (FileEntry.mtime_nsec e) (FileEntry.file_hash e) (FileEntry.chunks e)
    (FileEntry.symlink_target e) (FileEntry.hardlink_target e) l)
    by (subst b; unfold FileEntry.with_xattrs; by destruct l).
  unfold entry_ok, fields_ok, is_symlink in *. cbn. rewrite Ht, Hhl, Hx.
  split_and!; try done. split_and!; try done. subst b. by destruct l.
Qed.

Lemma regular_ok path size mode mt ns h chunks : VPath.valid_path path -> wf_str path ->
  fits 64 size -> fits 32 mode -> fits_i64 mt -> fits 32 ns -> wf_hash h -> Forall chunk_ok chunks ->
  zlen chunks <= MAX_WIRE_CHUNKS -> FileEntry.lengths chunks = size ->
  entry_ok (FileEntry.regular path size mode mt ns h chunks).
Proof.
  intros. unfold entry_ok, fields_ok, xattrs_ok, FileEntry.regular.
  destruct (existsb _ chunks); cbn; split_and!; try done; by repeat constructor.
Qed.

Lemma directory_ok path mode mt ns : VPath.valid_path path -> wf_str path ->
  fits 32 mode -> fits_i64 mt -> fits 32 ns -> entry_ok (FileEntry.directory path mode mt ns).
Proof.
  intros. unfold entry_ok, fields_ok, xattrs_ok, FileEntry.directory. cbn.
  split_and!; try done; try by repeat constructor.
Qed.

Lemma symlink_ok blake3 path mode mt ns target : VPath.valid_path path -> wf_str path ->
  fits 32 mode -> fits_i64 mt -> fits 32 ns -> wf_hash (blake3 target) -> wf_str target ->
  entry_ok (FileEntry.symlink_with_target blake3 path mode mt ns target).
Proof.
  intros. pose proof (wf_str_fits target). unfold entry_ok, fields_ok, xattrs_ok, FileEntry.symlink_with_target. cbn.
  split_and!; try done; try by repeat constructor. auto.
Qed.

Lemma hardlink_ok path target size h : VPath.valid_path path -> wf_str path -> fits 64 size ->
  wf_hash h -> wf_str target -> entry_ok (FileEntry.hardlink path target size h).
Proof.
  intros. unfold entry_ok, fields_ok, xattrs_ok, FileEntry.hardlink. cbn.
  split_and!; try done; try by repeat constructor.
Qed.

(** The encoding consists of bytes. *)
Lemma is_bytes_str s : is_bytes s -> fits 64 (zlen s) -> is_bytes (str_bytes s).
Proof. intros. unfold str_bytes. apply is_bytes_app; [by apply Varint.is_bytes_varint|done]. Qed.

#[local] Opaque str_bytes.

Lemma is_bytes_mjoin {A} (f : A -> bytes) l : Forall (fun x => is_bytes (f x)) l -> is_bytes (mjoin (f <$> l)).
Proof. induction 1; [constructor|]. by apply is_bytes_app. Qed.

Lemma is_bytes_target b t : target_ok b t -> is_bytes (target_bytes b t).
Proof.
  destruct b, t as [s|]; cbn; try done; [|constructor..]. intros [_ Hs].
  apply is_bytes_str; [by apply wf_str_bytes|by apply wf_str_fits].
Qed.

Lemma is_bytes_chunk c : chunk_ok c -> is_bytes (chunk_bytes c).
Proof.
  intros (Hf & Hl & Hh). unfold chunk_bytes.
  apply is_bytes_app; [by apply Varint.is_bytes_varint|].
  apply is_bytes_app; [apply Varint.is_bytes_varint; unfold fits, Limits.MAX_CHUNK_SIZE in *; lia|].
  destruct (ChunkDesc.hash c); [|rewrite Hh; constructor]. destruct Hh as [-> [Hb _]]. exact Hb.
Qed.

Lemma is_bytes_entry e : entry_ok e -> is_bytes (entry_bytes e).
Proof.
  intros ((Hf & Hp & Hps & _ & _ & _ & _ & [Hh _] & Hc & Hn & _ & Hx & Hxn & _) & Hs & Hhd).
  unfold entry_bytes, meta_bytes. repeat apply is_bytes_app; try apply is_bytes_to_le; try done.
  - by apply Varint.is_bytes_varint.
  - by apply is_bytes_str; [apply wf_str_bytes|apply wf_str_fits].
  - by eapply Varint.is_bytes_varint, small_len_fits.
  - apply is_bytes_mjoin. eapply Forall_impl; [done|]. apply is_bytes_chunk.
  - by apply is_bytes_target.
  - by apply is_bytes_target.
  - unfold xattrs_bytes. destruct (has_xattrs _); [|constructor].
    apply is_bytes_app; [by eapply Varint.is_bytes_varint, small_len_fits|].
    apply is_bytes_mjoin. eapply Forall_impl; [done|]. intros x Hxo.
    destruct (xattr_ok_fits _ Hxo). destruct Hxo as (Hn1 & _ & _ & _ & Hb & _).
    apply is_bytes_app; apply is_bytes_str; try done. by apply wf_str_bytes.
Qed.

(** ** Properties *)

(** The privilege check accepts exactly attribute lists without privileged names, or admins. *)
Lemma xattrs_security_spec l adm : validate_xattrs_security l adm = Ok tt <->
  adm = true \/ Forall (fun x => is_privileged_xattr x.1 = false) l.
Proof.
  destruct adm; [split; [by left|]; intros _; induction l as [|[n v] l IH]; done|].
  induction l as [|[n v] l IH]; cbn; [split; [right; constructor|done]|].
  rewrite Forall_cons. cbn. destruct (is_privileged_xattr n); [naive_solver|].
  rewrite IH. naive_solver.
Qed.

(** A well-formed manifest entry is encoded by appending to the buffer, and decoding what
    was appended gives the entry and its length, whatever follows: regular files with holes,
    directories, links and extended attributes. *)
Theorem manifest_entry_roundtrip e out post : entry_ok e ->
  exists p, encode_file_entry e out = Ok (out ++ p) /\ is_bytes p /\
    (zlen (p ++ post) < 2 ^ 63 -> decode_file_entry (p ++ post) = Ok (e, zlen p)).
Proof.
  intros He. exists (entry_bytes e). split_and!.
  - by apply encode_file_entry_spec.
  - by apply is_bytes_entry.
  - by apply decode_file_entry_bytes.
Qed.

(** Decoding a manifest entry from arbitrary bytes does not panic; an accepted entry has a
    path that stays below the root, sizes that add up, attributes and chunks within the limits,
    and consumes at least one byte of the buffer and no more than there are. *)
Theorem manifest_entry_safe buf : is_buf buf -> wp (decode_file_entry buf) (fun '(e, n) =>
  VPath.validate (FileEntry.path e) = Ok (FileEntry.path e) /\ fields_ok e /\
  target_decoded (is_symlink (FileEntry.flags e)) (FileEntry.symlink_target e) /\
  target_decoded (is_hardlink (FileEntry.flags e)) (FileEntry.hardlink_target e) /\
  0 < n <= zlen buf).
Proof.
  intros Hb. eapply wp_mono; [by apply wp_decode_file_entry|]. intros [e n] (He & H1 & H2 & Hn).
  split_and!; try done; try lia. apply VPath.validate_ok_iff. split; [done|]. apply He.
Qed.

End ManifestCodec.

(** ** The theorems at concrete entries *)
Module ManifestEntryExamples.
Import ManifestCodec.

Definition h1 : Hash := replicate 32 1.
Definition sparse : FileEntry.t :=
  FileEntry.with_xattrs
    (FileEntry.regular (lit "docs/a.txt") 8 420 (-5) 7 h1 [ChunkDesc.new 3 h1; ChunkDesc.hole 5])
    [(lit "user.k", [1; 2])].
Definition link : FileEntry.t := FileEntry.symlink_with_target (fun _ => h1) (lit "l") 511 0 0 (lit "docs").

Lemma path_ok p : VPath.validate p = Ok p -> VPath.valid_path p.
Proof. intros H. by apply VPath.validate_ok_iff in H as [_ ?]. Qed.

Lemma h1_ok : wf_hash h1.
Proof. split; [by apply Forall_replicate|done]. Qed.

Lemma sparse_ok : entry_ok sparse.
Proof.
  apply with_xattrs_ok; [apply regular_ok|..]; try done.
  - apply path_ok. by vm_compute.
  - apply h1_ok.
  - repeat constructor; try done; apply h1_ok.
  - repeat constructor; done.
Qed.

Lemma manifest_entry_roundtrip_witness :
  exists p, encode_file_entry sparse [9] = Ok ([9] ++ p) /\ is_bytes p /\
    (zlen (p ++ [7; 7]) < 2 ^ 63 -> decode_file_entry (p ++ [7; 7]) = Ok (sparse, zlen p)).
Proof. apply (manifest_entry_roundtrip sparse [9] [7; 7]). exact sparse_ok. Defined.

Lemma manifest_entry_safe_witness : wp (decode_file_entry [0; 1; 97; 255]) (fun '(e, n) =>
  VPath.validate (FileEntry.path e) = Ok (FileEntry.path e) /\ fields_ok e /\
  target_decoded (is_symlink (FileEntry.flags e)) (FileEntry.symlink_target e) /\
  target_decoded (is_hardlink (FileEntry.flags e)) (FileEntry.hardlink_target e) /\
  0 < n <= zlen [0; 1; 97; 255]).
Proof. apply (manifest_entry_safe [0; 1; 97; 255]). split; [repeat constructor; lia|done]. Defined.

(** A symlink entry cut before its target is accepted as one without a target, and encoding it
    again gives one with an empty target. *)
Theorem truncated_link_accepted (cut := take 60 (entry_bytes link)) : exists e,
  decode_file_entry cut = Ok (e, 60) /\ FileEntry.symlink_target e = None /\
  encode_file_entry e [] = Ok (cut ++ [0]) /\
  decode_file_entry (cut ++ [0]) <> Ok (e, 61).
Proof. eexists. split; [by vm_compute|]. split; [done|]. split; [by vm_compute|]. vm_compute. done. Qed.

End ManifestEntryExamples.
