(* ===== verification/ManifestFile.v ===== *)
(** Streaming manifests: the writer that batches, compresses and spills entries
    (crates/velcrux-core/src/manifest/writer.rs), and the readers that decode a spill file or the
    batches of a transfer and verify the whole-manifest hash (manifest/reader.rs). The spill file
    is the bytes written to it; an I/O error other than the end of the file is not modelled. *)

From S2P Require Import Prelude Utf8 Protocol Varint Wire Chunking MsgManifest Compression.
From S2P Require Import ChunkEngine Paths ManifestEntry.

Import ManifestCodec.

Definition SPILL_MAGIC : bytes := lit "VXMB".
Definition SPILL_VERSION : Z := 1.

Abbreviation vresult := (outcome VelcruxError).
Definition invalid_manifest (why : string) : VelcruxError := EProtocol (InvalidManifest why).

(** blake3: the incremental hasher. *)
Section manifest.
Context `{Zstd}.
Context {hasher : Type} (hasher_new : hasher) (hasher_update : hasher -> bytes -> hasher)
  (hasher_finalize : hasher -> Hash).

(** ** The writer *)

Record ManifestWriter := mk_writer {
  w_file : bytes; w_chunker_params : ChunkParams.t; w_batch_entries : list FileEntry.t;
  w_hasher : hasher; w_file_count : Z; w_total_bytes : Z; w_manifest_bytes : Z;
  w_batch_index : Z }.

Definition writer_new (chunker_params : ChunkParams.t) : ManifestWriter :=
  mk_writer (SPILL_MAGIC ++ [SPILL_VERSION]) chunker_params [] hasher_new 0 0 0 0.

(** The encoding loop of [flush_batch] over the cleared buffer. *)
Fixpoint encode_batch (entries : list FileEntry.t) (buf : bytes) (h : hasher) (n : Z)
    : vresult (bytes * hasher * Z) :=
  match entries with
  | [] => Ok (buf, h, n)
  | entry :: rest =>
      let start := zlen buf in
      let? buf := map_err EProtocol (encode_file_entry entry buf) in
      let? canonical_slice := slice_from buf start in
      encode_batch rest buf (hasher_update h canonical_slice) (wrap 64 (n + zlen canonical_slice))
  end.

Definition flush_batch (w : ManifestWriter) : vresult (ManifestWriter * option ManifestBatch.t) :=
  if bool_decide (w_batch_entries w = []) then Ok (w, None) else
  let? '(buf, h, manifest_bytes) :=
    encode_batch (w_batch_entries w) [] (w_hasher w) (w_manifest_bytes w) in
  if Limits.MAX_MANIFEST_BYTES <? manifest_bytes
  then Err (invalid_manifest ("manifest size " +:+ pretty manifest_bytes
              +:+ " exceeds MAX_MANIFEST_BYTES " +:+ pretty Limits.MAX_MANIFEST_BYTES)) else
  let? compressed := ok_or (encode_all buf 3) (EProtocol (Malformed "zstd compression failed")) in
  let entry_count := wrap 32 (zlen (w_batch_entries w)) in
  let batch := ManifestBatch.mk (w_batch_index w) entry_count compressed in
  let comp_len := wrap 32 (zlen compressed) in
  let file := w_file w ++ to_le 8 (w_batch_index w) ++ to_le 4 entry_count ++ to_le 4 comp_len
              ++ compressed in
  Ok (mk_writer file (w_chunker_params w) [] h (w_file_count w) (w_total_bytes w) manifest_bytes
        (wrap 64 (w_batch_index w + 1)), Some batch).

Definition add_entry (w : ManifestWriter) (entry : FileEntry.t) : vresult ManifestWriter :=
  if Limits.MAX_MANIFEST_ENTRIES <=? w_file_count w
  then Err (invalid_manifest ("manifest entry count reached limit "
              +:+ pretty Limits.MAX_MANIFEST_ENTRIES)) else
  let w := mk_writer (w_file w) (w_chunker_params w) (w_batch_entries w ++ [entry]) (w_hasher w)
             (wrap 64 (w_file_count w + 1)) (wrap 64 (w_total_bytes w + FileEntry.size entry))
             (w_manifest_bytes w) (w_batch_index w) in
  if Limits.MANIFEST_BATCH_SIZE <=? zlen (w_batch_entries w)
  then let? '(w, _) := flush_batch w in Ok w
  else Ok w.

Fixpoint add_entries (w : ManifestWriter) (entries : list FileEntry.t) : vresult ManifestWriter :=
  match entries with
  | [] => Ok w
  | entry :: rest => let? w := add_entry w entry in add_entries w rest
  end.

(** [finish]: the announcements and the spill file. *)
Definition writer_finish (w : ManifestWriter)
    : vresult (ManifestBegin.t * ManifestEnd.t * bytes) :=
  let? '(w, _) := flush_batch w in
  let manifest_hash := hasher_finalize (w_hasher w) in
  Ok (ManifestBegin.mk (w_file_count w) (w_total_bytes w) (w_chunker_params w) manifest_hash,
      ManifestEnd.mk manifest_hash, w_file w).

(** ** Decompression of a batch *)

(** Every round that goes on adds a byte below the limit: fuel of one more is enough. *)
Fixpoint decompress_batch_loop (fuel : nat) (d : decoder) (out : bytes) : vresult bytes :=
  match fuel with
  | O => Panic
  | S fuel' =>
      let? '(buffer, d) := ok_or (decoder_read d Compression.READ_BUF) (EIo "zstd") in
      let n := zlen buffer in
      if n =? 0 then Ok out else
      if Limits.MAX_BATCH_DECOMPRESSED_BYTES <? zlen out + n
      then Err (invalid_manifest ("decompressed batch exceeded limit "
                  +:+ pretty Limits.MAX_BATCH_DECOMPRESSED_BYTES +:+ " B")) else
      decompress_batch_loop fuel' d (out ++ buffer)
  end.

Definition decompress_batch (compressed : bytes) : vresult bytes :=
  let? d := ok_or (decoder_new compressed) (EProtocol (Malformed "invalid zstd header")) in
  decompress_batch_loop (S (Z.to_nat Limits.MAX_BATCH_DECOMPRESSED_BYTES)) d [].

(** ** The reader of spill files *)

Record ManifestReader := mk_reader {
  r_unread : bytes; r_expected_hash : Hash; r_hasher : hasher;
  r_current_decompressed : bytes; r_current_cursor : Z; r_entries_remaining_in_batch : Z;
  r_total_entries_read : Z; r_total_manifest_bytes : Z; r_finished : bool }.

(** [read_exact] of [n] bytes: [None] is [UnexpectedEof], which leaves nothing unread. *)
Definition read_exact (unread : bytes) (n : Z) : option bytes * bytes :=
  if zlen unread <? n then (None, [])
  else (Some (take (Z.to_nat n) unread), drop (Z.to_nat n) unread).

Definition eof_error : VelcruxError := EIo "failed to fill whole buffer".

Definition reader_open (file : bytes) (expected_hash : Hash) : vresult ManifestReader :=
  let '(magic, unread) := read_exact file 4 in
  let? magic := ok_or magic eof_error in
  if negb (bool_decide (magic = SPILL_MAGIC))
  then Err (invalid_manifest "invalid spill file magic") else
  let '(version, unread) := read_exact unread 1 in
  let? version := ok_or version eof_error in
  let? v := index version 0 in
  if negb (v =? SPILL_VERSION)
  then Err (invalid_manifest ("unsupported spill file version " +:+ pretty v)) else
  Ok (mk_reader unread expected_hash hasher_new [] 0 0 0 0 false).

Definition set_unread (r : ManifestReader) (unread : bytes) (finished : bool) : ManifestReader :=
  mk_reader unread (r_expected_hash r) (r_hasher r) (r_current_decompressed r)
    (r_current_cursor r) (r_entries_remaining_in_batch r) (r_total_entries_read r)
    (r_total_manifest_bytes r) finished.

Definition hash_mismatch (computed expected : Hash) : VelcruxError :=
  invalid_manifest ("manifest hash mismatch: computed " +:+ text (Hash_to_hex computed)
    +:+ ", expected " +:+ text (Hash_to_hex expected)).

(** One round of the [while] loop of [next_entry]: a batch is loaded ([Ok true]), or the file
    ends ([Ok false]) with the hash verified. The reader is returned on errors too. *)
Definition load_batch (r : ManifestReader) : ManifestReader * vresult bool :=
  let '(header, unread) := read_exact (r_unread r) 16 in
  match header with
  | None =>
      let r := set_unread r unread true in
      let computed := hasher_finalize (r_hasher r) in
      if negb (bool_decide (computed = r_expected_hash r))
      then (r, Err (hash_mismatch computed (r_expected_hash r)))
      else (r, Ok false)
  | Some header =>
      let r := set_unread r unread (r_finished r) in
      match (let? n := read_le header 8 4 in let? c := read_le header 12 4 in Ok (n, c)) with
      | Err e => (r, Err e)
      | Panic => (r, Panic)
      | Ok (entry_count, comp_len) =>
          if Limits.MANIFEST_BATCH_SIZE <? entry_count
          then (r, Err (invalid_manifest ("entry count " +:+ pretty entry_count
                          +:+ " exceeds MANIFEST_BATCH_SIZE"))) else
          let '(compressed, unread) := read_exact (r_unread r) comp_len in
          let r := set_unread r unread (r_finished r) in
          match (let? c := ok_or compressed eof_error in decompress_batch c) with
          | Err e => (r, Err e)
          | Panic => (r, Panic)
          | Ok decompressed =>
              let total := wrap 64 (r_total_manifest_bytes r + zlen decompressed) in
              if Limits.MAX_MANIFEST_BYTES <? total
              then (mk_reader (r_unread r) (r_expected_hash r) (r_hasher r)
                      (r_current_decompressed r) (r_current_cursor r)
                      (r_entries_remaining_in_batch r) (r_total_entries_read r) total (r_finished r),
                    Err (invalid_manifest ("manifest raw bytes exceeded limit "
                           +:+ pretty Limits.MAX_MANIFEST_BYTES)))
              else (mk_reader (r_unread r) (r_expected_hash r) (r_hasher r) decompressed 0
                      entry_count (r_total_entries_read r) total (r_finished r), Ok true)
          end
      end
  end.

(** The loop itself; a round that goes on has read sixteen bytes. *)
Fixpoint refill (fuel : nat) (r : ManifestReader) : ManifestReader * vresult bool :=
  if negb (r_entries_remaining_in_batch r =? 0) then (r, Ok true) else
  match fuel with
  | O => (r, Panic)
  | S fuel' =>
      match load_batch r with
      | (r, Ok true) => refill fuel' r
      | other => other
      end
  end.

(** The entry at the cursor, the bytes it takes, and those bytes. *)
Definition decode_at (decompressed : bytes) (cursor : Z) : vresult (FileEntry.t * Z * bytes) :=
  let? slice := slice_from decompressed cursor in
  let? '(entry, consumed) := map_err EProtocol (decode_file_entry slice) in
  let? canonical := Prelude.slice slice 0 consumed in
  Ok (entry, consumed, canonical).

Definition next_entry (r : ManifestReader) : ManifestReader * vresult (option FileEntry.t) :=
  if r_finished r then (r, Ok None) else
  match refill (S (length (r_unread r))) r with
  | (r, Err e) => (r, Err e)
  | (r, Panic) => (r, Panic)
  | (r, Ok false) => (r, Ok None)
  | (r, Ok true) =>
      if Limits.MAX_MANIFEST_ENTRIES <=? r_total_entries_read r
      then (r, Err (invalid_manifest ("manifest entry count exceeded "
                      +:+ pretty Limits.MAX_MANIFEST_ENTRIES))) else
      match decode_at (r_current_decompressed r) (r_current_cursor r) with
      | Err e => (r, Err e)
      | Panic => (r, Panic)
      | Ok (entry, consumed, canonical) =>
          (mk_reader (r_unread r) (r_expected_hash r) (hasher_update (r_hasher r) canonical)
             (r_current_decompressed r) (r_current_cursor r + consumed)
             (r_entries_remaining_in_batch r - 1) (wrap 64 (r_total_entries_read r + 1))
             (r_total_manifest_bytes r) (r_finished r), Ok (Some entry))
      end
  end.

(** The loop of a caller: entries until [None]. *)
Fixpoint read_all (fuel : nat) (r : ManifestReader) : vresult (list FileEntry.t) :=
  match fuel with
  | O => Panic
  | S fuel' =>
      match next_entry r with
      | (_, Err e) => Err e
      | (_, Panic) => Panic
      | (_, Ok None) => Ok []
      | (r, Ok (Some e)) => let? l := read_all fuel' r in Ok (e :: l)
      end
  end.

(** ** The decoder of batches *)

Record ManifestBatchDecoder := mk_batch_decoder {
  d_expected_hash : Hash; d_hasher : hasher; d_total_entries_read : Z; d_total_manifest_bytes : Z }.

Definition batch_decoder_new (expected_hash : Hash) : ManifestBatchDecoder :=
  mk_batch_decoder expected_hash hasher_new 0 0.

Fixpoint decode_batch_loop (count : nat) (decompressed : bytes) (cursor : Z) (h : hasher) (n : Z)
    : vresult (list FileEntry.t * hasher * Z) :=
  match count with
  | O => Ok ([], h, n)
  | S count' =>
      if zlen decompressed <=? cursor
      then Err (EProtocol (Malformed "MANIFEST_BATCH: truncated decompressed entries")) else
      let? '(entry, consumed, canonical) := decode_at decompressed cursor in
      let? '(l, h, n) := decode_batch_loop count' decompressed (cursor + consumed)
                           (hasher_update h canonical) (wrap 64 (n + 1)) in
      Ok (entry :: l, h, n)
  end.

Definition decode_batch (d : ManifestBatchDecoder) (batch : ManifestBatch.t)
    : vresult (ManifestBatchDecoder * list FileEntry.t) :=
  let? decompressed := decompress_batch (ManifestBatch.compressed_payload batch) in
  let total := wrap 64 (d_total_manifest_bytes d + zlen decompressed) in
  if Limits.MAX_MANIFEST_BYTES <? total
  then Err (invalid_manifest ("manifest raw bytes exceeded limit "
              +:+ pretty Limits.MAX_MANIFEST_BYTES)) else
  let? '(l, h, n) := decode_batch_loop (Z.to_nat (ManifestBatch.entry_count batch)) decompressed 0
                       (d_hasher d) (d_total_entries_read d) in
  Ok (mk_batch_decoder (d_expected_hash d) h n total, l).

Definition batch_decoder_finish (d : ManifestBatchDecoder) : vresult unit :=
  let computed := hasher_finalize (d_hasher d) in
  if negb (bool_decide (computed = d_expected_hash d))
  then Err (hash_mismatch computed (d_expected_hash d)) else Ok tt.

(** ** What the writer produces *)

Context `{!Compression.ZstdLaws}.
(** Compressing a batch within the size limit does not make it longer than a [u32] can say. *)
Hypothesis zstd_expansion : forall data level c, encode_all data level = Some c ->
  zlen data <= Limits.MAX_BATCH_DECOMPRESSED_BYTES -> zlen c < 2 ^ 32.

Definition entries_bytes (es : list FileEntry.t) : bytes := mjoin (entry_bytes <$> es).

Lemma entries_bytes_cons e es : entries_bytes (e :: es) = entry_bytes e ++ entries_bytes es.
Proof. done. Qed.
Lemma entries_bytes_app es es' : entries_bytes (es ++ es') = entries_bytes es ++ entries_bytes es'.
Proof. unfold entries_bytes. by rewrite fmap_app, join_app. Qed.

(** The hasher after the canonical bytes of some entries. *)
Definition hashed (es : list FileEntry.t) : hasher := foldl hasher_update hasher_new (entry_bytes <$> es).

Lemma encode_batch_spec es buf h n : Forall entry_ok es -> 0 <= n ->
  n + zlen (entries_bytes es) < 2 ^ 64 ->
  encode_batch es buf h n =
  Ok (buf ++ entries_bytes es, foldl hasher_update h (entry_bytes <$> es), n + zlen (entries_bytes es)).
Proof.
  intros Hes. revert buf h n. induction Hes as [|e es He Hes IH]; intros buf h n Hn Hlt.
  { cbn. rewrite app_nil_r. do 2 f_equal. unfold zlen; cbn; lia. }
  rewrite entries_bytes_cons, zlen_app in Hlt. pose proof (zlen_nonneg (entry_bytes e)).
  pose proof (zlen_nonneg (entries_bytes es)).
  cbn [encode_batch]. rewrite encode_file_entry_spec by done. cbn [map_err obind].
  rewrite slice_from_skip, slice_from_0 by lia. cbn [obind].
  rewrite wrap_small by (unfold fits; lia). rewrite IH by lia.
  rewrite entries_bytes_cons, zlen_app, app_assoc, Z.add_assoc. done.
Qed.

(** A batch of the spill file. *)
Definition batch_rec (b : list FileEntry.t) (r : bytes) : Prop :=
  exists i c, encode_all (entries_bytes b) 3 = Some c /\ zlen c < 2 ^ 32 /\
    r = to_le 8 i ++ to_le 4 (zlen b) ++ to_le 4 (zlen c) ++ c.

Definition batch_ok (b : list FileEntry.t) : Prop :=
  0 < zlen b <= Limits.MANIFEST_BATCH_SIZE /\ Forall entry_ok b /\
  zlen (entries_bytes b) <= Limits.MAX_BATCH_DECOMPRESSED_BYTES.

Definition sizes (es : list FileEntry.t) : Z := foldr Z.add 0 (FileEntry.size <$> es).

(** The state of the writer after the batches [bs], apart from the pending entries. *)
Record written (w : ManifestWriter) (bs : list (list FileEntry.t)) : Prop := mk_written {
  wr_file : exists rs, Forall2 batch_rec bs rs /\
    w_file w = SPILL_MAGIC ++ [SPILL_VERSION] ++ mjoin rs;
  wr_batches : Forall batch_ok bs;
  wr_hasher : w_hasher w = hashed (mjoin bs);
  wr_bytes : w_manifest_bytes w = zlen (entries_bytes (mjoin bs)) /\
    w_manifest_bytes w <= Limits.MAX_MANIFEST_BYTES;
  wr_count : w_file_count w = zlen (mjoin bs ++ w_batch_entries w) /\
    w_file_count w <= Limits.MAX_MANIFEST_ENTRIES;
  wr_total : w_total_bytes w = wrap 64 (sizes (mjoin bs ++ w_batch_entries w)) }.

Lemma written_new p : written (writer_new p) [].
Proof. constructor; try done. exists []. done. Qed.

(** Flushing completes the batch. *)
Lemma flush_written w bs w' o : written w bs -> batch_ok (w_batch_entries w) ->
  flush_batch w = Ok (w', o) ->
  written w' (bs ++ [w_batch_entries w]) /\ w_batch_entries w' = [] /\
  w_chunker_params w' = w_chunker_params w.
Proof.
  intros [(rs & Hrs & Hfile) Hbs Hh [Hb Hbm] [Hc Hcm] Ht] Hok. pose proof Hok as (Hn & He & Hs).
  unfold flush_batch. rewrite bool_decide_eq_false_2 by (intros E; rewrite E in Hn; by destruct Hn).
  pose proof (zlen_nonneg (entries_bytes (mjoin bs))).
  unfold Limits.MAX_MANIFEST_BYTES, Limits.MAX_BATCH_DECOMPRESSED_BYTES in *.
  rewrite encode_batch_spec by (done || lia). cbn [obind app].
  destruct (Z.ltb_spec (8 * 1024 * 1024 * 1024) (w_manifest_bytes w + zlen (entries_bytes (w_batch_entries w)))); [done|].
  destruct (encode_all (entries_bytes (w_batch_entries w)) 3) as [c|] eqn:Ec; cbn [ok_or obind]; [|done].
  intros [= <- <-]. pose proof (zstd_expansion _ _ _ Ec Hs) as Hcl. pose proof (zlen_nonneg c).
  unfold Limits.MANIFEST_BATCH_SIZE in *. split; [|done].
  assert (Hj : mjoin (bs ++ [w_batch_entries w]) = mjoin bs ++ w_batch_entries w)
    by (rewrite join_app; cbn; by rewrite app_nil_r).
  rewrite !wrap_small by (unfold fits; lia).
  constructor; cbn [w_file w_hasher w_manifest_bytes w_file_count w_total_bytes w_batch_entries];
    rewrite ?Hj, ?app_nil_r; try done.
  - eexists. split; [apply Forall2_app; [done|constructor; [|constructor]]|].
    + exists (w_batch_index w), c. done.
    + rewrite Hfile, join_app. cbn [mjoin list_join]. by rewrite app_nil_r, <- !app_assoc.
  - apply Forall_app. split; [done|by constructor].
  - rewrite Hh. unfold hashed. by rewrite fmap_app, foldl_app.
  - rewrite entries_bytes_app, zlen_app. unfold Limits.MAX_MANIFEST_BYTES. lia.
Qed.

(** How the writer groups entries, given those pending. *)
Fixpoint batches_from (pending es : list FileEntry.t) : list (list FileEntry.t) :=
  match es with
  | [] => match pending with [] => [] | _ => [pending] end
  | e :: es' =>
      let pending := pending ++ [e] in
      if Limits.MANIFEST_BATCH_SIZE <=? zlen pending then pending :: batches_from [] es'
      else batches_from pending es'
  end.
Definition batches : list FileEntry.t -> list (list FileEntry.t) := batches_from [].

Lemma batches_concat pending es : mjoin (batches_from pending es) = pending ++ es.
Proof.
  revert pending. induction es as [|e es IH]; intros pending; cbn [batches_from].
  - destruct pending; [done|]. cbn. by rewrite !app_nil_r.
  - case_match; cbn [mjoin list_join]; rewrite IH; by rewrite <- app_assoc.
Qed.

Definition small (b : list FileEntry.t) : Prop :=
  zlen (entries_bytes b) <= Limits.MAX_BATCH_DECOMPRESSED_BYTES.

Lemma add_entry_pending w bs e : written w bs -> w_file_count w < Limits.MAX_MANIFEST_ENTRIES ->
  written (mk_writer (w_file w) (w_chunker_params w) (w_batch_entries w ++ [e]) (w_hasher w)
    (wrap 64 (w_file_count w + 1)) (wrap 64 (w_total_bytes w + FileEntry.size e))
    (w_manifest_bytes w) (w_batch_index w)) bs.
Proof.
  intros [Hf Hb Hh Hm [Hc Hcm] Ht] Hlt.
  constructor; cbn [w_file w_hasher w_manifest_bytes w_file_count w_total_bytes w_batch_entries]; try done.
  - pose proof (zlen_nonneg (mjoin bs ++ w_batch_entries w)).
    unfold Limits.MAX_MANIFEST_ENTRIES in *. rewrite wrap_small by (unfold fits; lia).
    rewrite app_assoc, zlen_app. change (zlen [e]) with 1. lia.
  - rewrite Ht, app_assoc. unfold wrap. rewrite Zplus_mod_idemp_l. f_equal.
    generalize (mjoin bs ++ w_batch_entries w). intros l. unfold sizes.
    induction l as [|x l IH]; cbn; [lia|]. cbn in IH. lia.
Qed.

(** A whole run of the writer: the batches are in the file and the announcements count them. *)
Lemma writer_run w bs es b e file : written w bs -> zlen (w_batch_entries w) < Limits.MANIFEST_BATCH_SIZE ->
  Forall entry_ok (w_batch_entries w ++ es) -> Forall small (batches_from (w_batch_entries w) es) ->
  (let? w := add_entries w es in writer_finish w) = Ok (b, e, file) ->
  exists w', written w' (bs ++ batches_from (w_batch_entries w) es) /\ w_batch_entries w' = [] /\
    w_chunker_params w' = w_chunker_params w /\ file = w_file w' /\
    b = ManifestBegin.mk (w_file_count w') (w_total_bytes w') (w_chunker_params w')
          (hasher_finalize (w_hasher w')) /\ e = ManifestEnd.mk (hasher_finalize (w_hasher w')).
Proof.
  revert w bs. induction es as [|x es IH]; intros w bs Hw Hlen Hes Hsm; cbn [add_entries batches_from] in *.
  - cbn [obind]. unfold writer_finish. rewrite app_nil_r in Hes.
    destruct (w_batch_entries w) as [|y l] eqn:El.
    { unfold flush_batch. rewrite El, bool_decide_eq_true_2 by done. cbn [obind]. intros [= <- <- <-].
      exists w. rewrite app_nil_r. done. }
    destruct (flush_batch w) as [[w' o]| |] eqn:Ef; cbn [obind]; [|done|done]. intros [= <- <- <-].
    rewrite <- El in *. eapply flush_written in Ef as (Hw' & Hnil & Hp); [|done|].
    + exists w'. done.
    + apply Forall_cons in Hsm as [Hsm _]. split; [|done]. rewrite El, zlen_cons in *.
      pose proof (zlen_nonneg l). lia.
  - destruct (add_entry w x) as [w1| |] eqn:Ea; cbn [obind]; [|done|done].
    unfold add_entry in Ea. destruct (Z.leb_spec Limits.MAX_MANIFEST_ENTRIES (w_file_count w)); [done|].
    pose proof (add_entry_pending w bs x Hw ltac:(lia)) as Hw1.
    set (w0 := mk_writer _ _ _ _ _ _ _ _) in Ea, Hw1.
    assert (E0 : w_batch_entries w ++ [x] = w_batch_entries w0) by done.
    assert (Ep : w_chunker_params w = w_chunker_params w0) by done.
    rewrite cons_middle, app_assoc in Hes. clearbody w0. rewrite E0, Ep in *.
    assert (Hroom0 : zlen (w_batch_entries w0) <= Limits.MANIFEST_BATCH_SIZE).
    { rewrite <- E0, zlen_app. change (zlen [x]) with 1. lia. }
    assert (Hpos : 0 < zlen (w_batch_entries w0)).
    { rewrite <- E0, zlen_app. change (zlen [x]) with 1. pose proof (zlen_nonneg (w_batch_entries w)). lia. }
    destruct (Z.leb_spec Limits.MANIFEST_BATCH_SIZE (zlen (w_batch_entries w0))) as [Hfull|Hroom].
    + destruct (flush_batch w0) as [[w2 o]| |] eqn:Ef; cbn [obind] in Ea; [|done|done]. simplify_eq.
      apply Forall_cons in Hsm as [Hs1 Hsm]. apply Forall_app in Hes as [Hp Hes].
      eapply flush_written in Ef as (Hw2 & Hnil & Hpar); [|done|].
      * intros Hrun. eapply IH in Hrun as (w' & Hw' & Hn' & Hp' & Hrest);
          [|exact Hw2|by rewrite Hnil|by rewrite Hnil|by rewrite Hnil].
        rewrite Hnil, <- app_assoc in Hw'. exists w'. split; [done|]. split; [done|].
        split; [by rewrite Hp', Hpar|done].
      * split; [lia|done].
    + simplify_eq. intros Hrun. eapply IH in Hrun; [|done|done|done|done]. exact Hrun.
Qed.

(** ** What the reader reads back *)

Lemma decompress_batch_reads fuel d out data : Compression.reads d data ->
  zlen out + zlen data <= Limits.MAX_BATCH_DECOMPRESSED_BYTES ->
  Limits.MAX_BATCH_DECOMPRESSED_BYTES - zlen out < Z.of_nat fuel ->
  decompress_batch_loop fuel d out = Ok (out ++ data).
Proof.
  intros Hr. revert fuel out. induction Hr as [d d' Hd|d d' b rest Hd Hb Hr IH]; intros fuel out Hw Hf.
  - destruct fuel as [|fuel]; [pose proof (zlen_nonneg out); change (zlen []) with 0 in *; lia|].
    cbn [decompress_batch_loop]. rewrite Hd. cbn. by rewrite app_nil_r.
  - rewrite zlen_app in Hw. pose proof (zlen_nonneg rest).
    assert (0 < zlen b) by (destruct b; [done|rewrite zlen_cons; pose proof (zlen_nonneg b); lia]).
    destruct fuel as [|fuel]; [lia|]. cbn [decompress_batch_loop]. rewrite Hd. cbn [ok_or obind].
    rewrite (proj2 (Z.eqb_neq _ _)), (proj2 (Z.ltb_ge _ _)) by lia.
    rewrite IH, app_assoc; [done|rewrite zlen_app; lia|rewrite zlen_app; lia].
Qed.

Lemma decompress_batch_ok data level c : encode_all data level = Some c ->
  zlen data <= Limits.MAX_BATCH_DECOMPRESSED_BYTES -> decompress_batch c = Ok data.
Proof.
  intros Hc Hl. destruct (Compression.zstd_stream _ _ _ Hc) as (_ & _ & d & Hd & Hr).
  unfold decompress_batch. rewrite Hd. cbn [ok_or obind]. apply (decompress_batch_reads _ _ []); [done|done|].
  change (zlen []) with 0. unfold Limits.MAX_BATCH_DECOMPRESSED_BYTES. lia.
Qed.

Lemma spill_read_app a b n : n = zlen a -> read_exact (a ++ b) n = (Some a, b).
Proof.
  intros ->. unfold read_exact. rewrite zlen_app, (proj2 (Z.ltb_ge _ _)) by (pose proof (zlen_nonneg b); lia).
  unfold zlen. by rewrite Nat2Z.id, take_app_length, drop_app_length.
Qed.

(** The state of the reader between two entries: [seen] were returned, [cur] are left of the
    batch, [bs] are the batches not yet read. *)
Record reading (r : ManifestReader) (seen cur : list FileEntry.t) (bs : list (list FileEntry.t)) : Prop :=
  mk_reading {
  rd_unread : exists rs, Forall2 batch_rec bs rs /\ r_unread r = mjoin rs;
  rd_batches : Forall batch_ok bs;
  rd_cur : Forall entry_ok cur /\ zlen (entries_bytes cur) < 2 ^ 63 /\
    exists pre, r_current_decompressed r = pre ++ entries_bytes cur /\ r_current_cursor r = zlen pre;
  rd_remaining : r_entries_remaining_in_batch r = zlen cur;
  rd_hasher : r_hasher r = hashed seen;
  rd_hash : r_expected_hash r = hasher_finalize (hashed (seen ++ cur ++ mjoin bs));
  rd_count : r_total_entries_read r = zlen seen /\
    zlen (seen ++ cur ++ mjoin bs) <= Limits.MAX_MANIFEST_ENTRIES;
  rd_bytes : 0 <= r_total_manifest_bytes r /\
    r_total_manifest_bytes r + zlen (entries_bytes (mjoin bs)) <= Limits.MAX_MANIFEST_BYTES;
  rd_finished : r_finished r = false }.

Lemma batch_header i n m c rest :
  read_exact ((to_le 8 i ++ to_le 4 n ++ to_le 4 m ++ c) ++ rest) 16 =
  (Some (to_le 8 i ++ to_le 4 n ++ to_le 4 m), c ++ rest).
Proof.
  replace ((to_le 8 i ++ to_le 4 n ++ to_le 4 m ++ c) ++ rest)
    with ((to_le 8 i ++ to_le 4 n ++ to_le 4 m) ++ c ++ rest) by by rewrite <- !app_assoc.
  apply spill_read_app. len.
Qed.

(** Loading the next batch. *)
Lemma load_batch_reading r seen b bs : reading r seen [] (b :: bs) ->
  exists r', load_batch r = (r', Ok true) /\ reading r' seen b bs.
Proof.
  intros [(rs & Hrs & Hu) Hbs Hcur Hrem Hh Heh Hc [Hb0 Hb] Hfin].
  apply Forall2_cons_inv_l in Hrs as (rec & rs' & Hrec & Hrs & ->).
  apply Forall_cons in Hbs as [(Hn & Hes & Hsm) Hbs]. destruct Hrec as (i & c & Hc3 & Hcl & ->).
  pose proof (zlen_nonneg c). pose proof (zlen_nonneg (entries_bytes (mjoin bs))).
  pose proof (zlen_nonneg (entries_bytes b)).
  change (mjoin (b :: bs)) with (b ++ mjoin bs) in *.
  change (mjoin (?x :: rs')) with (x ++ mjoin rs') in Hu. rewrite entries_bytes_app, zlen_app in Hb.
  unfold Limits.MANIFEST_BATCH_SIZE, Limits.MAX_MANIFEST_BYTES in *.
  unfold load_batch. rewrite Hu, batch_header. cbn [set_unread r_unread].
  assert (fits 32 (zlen b)) by (unfold fits; lia). assert (fits 32 (zlen c)) by (unfold fits; lia).
  run. cbn [obind]. unfold Limits.MANIFEST_BATCH_SIZE. rewrite (proj2 (Z.ltb_ge _ _)) by lia.
  rewrite spill_read_app by done. cbn [ok_or obind]. rewrite (decompress_batch_ok _ _ _ Hc3) by done.
  cbn [r_total_manifest_bytes set_unread]. unfold Limits.MAX_MANIFEST_BYTES.
  rewrite wrap_small by (unfold fits; lia). rewrite (proj2 (Z.ltb_ge _ _)) by lia.
  eexists. split; [done|].
  constructor; cbn; try done.
  - by exists rs'.
  - split; [done|]. split; [unfold Limits.MAX_BATCH_DECOMPRESSED_BYTES in *; lia|]. by exists [].
  - unfold Limits.MAX_MANIFEST_BYTES. lia.
Qed.

(** Within a batch the loop does nothing. *)
Lemma refill_ready fuel r e seen cur bs : reading r seen (e :: cur) bs -> refill fuel r = (r, Ok true).
Proof.
  intros Hr. pose proof (rd_remaining _ _ _ _ Hr) as Hrem. rewrite zlen_cons in Hrem.
  pose proof (zlen_nonneg cur). destruct fuel; cbn [refill]; by rewrite Hrem, (proj2 (Z.eqb_neq _ _)) by lia.
Qed.

Lemma refill_next r seen b bs : reading r seen [] (b :: bs) ->
  exists r', refill (S (length (r_unread r))) r = (r', Ok true) /\ reading r' seen b bs.
Proof.
  intros Hr. destruct (load_batch_reading _ _ _ _ Hr) as (r' & Hl & Hr'). exists r'. split; [|done].
  cbn [refill]. rewrite (rd_remaining _ _ _ _ Hr). change (negb (zlen [] =? 0)) with false. cbn iota.
  rewrite Hl. destruct b as [|e b]; [|by eapply refill_ready].
  pose proof (rd_batches _ _ _ _ Hr) as Hb. apply Forall_cons in Hb as [[[Hb _] _] _]. done.
Qed.

(** At the end of the file the hash agrees. *)
Lemma next_entry_end r seen : reading r seen [] [] -> exists r', next_entry r = (r', Ok None).
Proof.
  intros Hr. pose proof Hr as [(rs & Hrs & Hu) _ _ Hrem Hh Heh _ _ Hfin].
  apply Forall2_nil_inv_l in Hrs as ->. unfold next_entry. rewrite Hfin, Hu. cbn [refill length mjoin list_join].
  rewrite Hrem. change (negb (zlen [] =? 0)) with false. cbn iota. unfold load_batch. rewrite Hu.
  change (read_exact (mjoin []) 16) with (@None bytes, @nil Z). cbn iota. cbn [r_hasher set_unread r_expected_hash].
  change (mjoin []) with (@nil FileEntry.t) in Heh. rewrite !app_nil_r in Heh.
  rewrite Hh, Heh, bool_decide_eq_true_2 by done. cbn [negb]. by eexists.
Qed.

Lemma decode_at_bytes pre e post : entry_ok e -> zlen (entry_bytes e ++ post) < 2 ^ 63 ->
  decode_at (pre ++ entry_bytes e ++ post) (zlen pre) = Ok (e, zlen (entry_bytes e), entry_bytes e).
Proof.
  intros He Hl. unfold decode_at. rewrite slice_from_skip, slice_from_0 by lia. cbn [obind].
  rewrite decode_file_entry_bytes by done. cbn [map_err obind]. by rewrite slice_here.
Qed.

(** One entry of the current batch. *)
Lemma next_entry_cur r seen e cur bs : reading r seen (e :: cur) bs -> forall r0,
  r_finished r0 = false -> refill (S (length (r_unread r0))) r0 = (r, Ok true) ->
  exists r', next_entry r0 = (r', Ok (Some e)) /\ reading r' (seen ++ [e]) cur bs.
Proof.
  intros [Hu Hbs (Hcur & Hlen & pre & Hd & Hc) Hrem Hh Heh [Hn Hmax] Hb Hfin] r0 Hf0 Hrf.
  apply Forall_cons in Hcur as [He Hcur].
  rewrite entries_bytes_cons in *. rewrite zlen_app in Hlen. pose proof (zlen_nonneg seen).
  pose proof (zlen_nonneg (entry_bytes e)). pose proof (zlen_nonneg (entries_bytes cur)).
  assert (Hle : zlen seen < Limits.MAX_MANIFEST_ENTRIES).
  { rewrite !zlen_app, zlen_cons in Hmax. pose proof (zlen_nonneg cur).
    pose proof (zlen_nonneg (mjoin bs)). lia. }
  unfold next_entry. rewrite Hf0, Hrf. rewrite Hn, (proj2 (Z.leb_gt _ _)) by done.
  rewrite Hd, Hc, decode_at_bytes by (done || rewrite zlen_app; lia). eexists. split; [done|].
  unfold Limits.MAX_MANIFEST_ENTRIES in *. rewrite wrap_small by (unfold fits; lia).
  constructor; cbn [r_unread r_expected_hash r_hasher r_current_decompressed r_current_cursor
    r_entries_remaining_in_batch r_total_entries_read r_total_manifest_bytes r_finished]; try done.
  - split; [done|]. split; [lia|]. exists (pre ++ entry_bytes e).
    by rewrite <- app_assoc, zlen_app.
  - rewrite Hrem, zlen_cons. lia.
  - rewrite Hh. unfold hashed. by rewrite fmap_app, foldl_app.
  - by rewrite <- app_assoc.
  - split; [by rewrite zlen_app|]. by rewrite <- app_assoc.
Qed.

(** [yields r es]: the reader will return exactly [es], and then end. *)
Definition yields (r : ManifestReader) (es : list FileEntry.t) : Prop :=
  exists seen cur bs, reading r seen cur bs /\ es = cur ++ mjoin bs.

Lemma yields_nil r : yields r [] -> exists r', next_entry r = (r', Ok None).
Proof.
  intros (seen & cur & bs & Hr & He). symmetry in He. apply app_nil in He as [-> Hbs].
  destruct bs as [|b bs]; [by eapply next_entry_end|]. exfalso.
  pose proof (rd_batches _ _ _ _ Hr) as Hb. apply Forall_cons in Hb as [[[Hb _] _] _].
  change (mjoin (b :: bs)) with (b ++ mjoin bs) in Hbs. by apply app_nil in Hbs as [-> _].
Qed.

Lemma yields_cons r e es : yields r (e :: es) -> exists r', next_entry r = (r', Ok (Some e)) /\ yields r' es.
Proof.
  intros (seen & cur & bs & Hr & He).
  assert (Hstep : forall e' cur' bs' r1, reading r1 seen (e' :: cur') bs' ->
    refill (S (length (r_unread r))) r = (r1, Ok true) -> e :: es = e' :: cur' ++ mjoin bs' ->
    exists r', next_entry r = (r', Ok (Some e)) /\ yields r' es).
  { intros e' cur' bs' r1 Hr1 Hf1 [= -> ->].
    destruct (next_entry_cur _ _ _ _ _ Hr1 r (rd_finished _ _ _ _ Hr) Hf1) as (r' & -> & Hr').
    exists r'. split; [done|]. by exists (seen ++ [e']), cur', bs'. }
  destruct cur as [|e' cur]; [|by apply (Hstep e' cur bs r Hr); [eapply refill_ready|]].
  destruct bs as [|b bs]; [done|]. destruct (refill_next _ _ _ _ Hr) as (r1 & Hf1 & Hr1). destruct b as [|e' b].
  { pose proof (rd_batches _ _ _ _ Hr) as Hb. apply Forall_cons in Hb as [[[Hb _] _] _]. done. }
  by apply (Hstep e' b bs r1).
Qed.

(** Reading to the end returns what was written. *)
Lemma read_all_yields k r es : yields r es -> (length es < k)%nat -> read_all k r = Ok es.
Proof.
  revert r k. induction es as [|e es IH]; intros r [|k] Hr Hk; cbn in Hk; try lia; cbn [read_all].
  - by destruct (yields_nil _ Hr) as (r' & ->).
  - destruct (yields_cons _ _ _ Hr) as (r' & -> & Hr'). by rewrite (IH _ k Hr') by lia.
Qed.

(** A written file is opened with its hash and yields what was written. *)
Lemma written_yields params es b e file :
  Forall entry_ok es -> Forall small (batches es) ->
  (let? w := add_entries (writer_new params) es in writer_finish w) = Ok (b, e, file) ->
  b = ManifestBegin.mk (zlen es) (wrap 64 (sizes es)) params (hasher_finalize (hashed es)) /\
  e = ManifestEnd.mk (hasher_finalize (hashed es)) /\
  exists r, reader_open file (ManifestBegin.manifest_hash b) = Ok r /\ yields r es.
Proof.
  intros Hes Hsm Hrun.
  destruct (writer_run (writer_new params) [] es b e file (written_new params) eq_refl Hes Hsm Hrun)
    as (w & [(rs & Hrs & Hfile) Hbs Hh [Hb Hbm] [Hc Hcm] Ht] & Hnil & Hp & -> & -> & ->).
  cbn [app w_batch_entries writer_new] in *. fold (batches es) in *. rewrite Hnil, app_nil_r in *.
  assert (Hj : mjoin (batches es) = es) by apply batches_concat. rewrite Hj in *.
  rewrite Hp, Hc, Ht, Hh. split; [done|]. split; [done|]. cbn [ManifestBegin.manifest_hash].
  rewrite Hfile. unfold reader_open. rewrite (spill_read_app SPILL_MAGIC) by done. cbn [ok_or obind].
  rewrite bool_decide_eq_true_2 by done. cbn [negb].
  change (SPILL_VERSION :: mjoin rs) with ([SPILL_VERSION] ++ mjoin rs).
  rewrite (spill_read_app [SPILL_VERSION]) by done.
  cbn [ok_or obind index]. change (SPILL_VERSION =? SPILL_VERSION) with true. cbn [negb].
  eexists. split; [reflexivity|]. exists [], [], (batches es). split; [|by rewrite Hj].
  constructor; cbn [r_unread r_expected_hash r_hasher r_current_decompressed r_current_cursor
    r_entries_remaining_in_batch r_total_entries_read r_total_manifest_bytes r_finished app]; try done.
  - by exists rs.
  - split; [constructor|]. split; [done|]. by exists [].
  - by rewrite Hj.
  - rewrite Hj. split; [done|lia].
  - rewrite Hj. lia.
Qed.

(** ** Arbitrary spill files *)

(** The decoder of zstd, over bytes, fills buffers of bytes. *)
Variable decoder_ok : decoder -> Prop.
Hypothesis decoder_new_ok : forall c d, is_bytes c -> decoder_new c = Some d -> decoder_ok d.
Hypothesis decoder_read_ok : forall d n b d', decoder_ok d -> decoder_read d n = Some (b, d') ->
  is_bytes b /\ decoder_ok d'.

Lemma wp_decompress_loop fuel d out : decoder_ok d -> is_bytes out ->
  zlen out <= Limits.MAX_BATCH_DECOMPRESSED_BYTES ->
  Limits.MAX_BATCH_DECOMPRESSED_BYTES - zlen out < Z.of_nat fuel ->
  wp (decompress_batch_loop fuel d out)
    (fun r => is_bytes r /\ zlen r <= Limits.MAX_BATCH_DECOMPRESSED_BYTES).
Proof.
  revert d out. induction fuel as [|fuel IH]; intros d out Hok Hb Hl Hf; [lia|]. cbn [decompress_batch_loop].
  apply wp_bind, wp_ok_or. intros [b d'] Hd. destruct (decoder_read_ok _ _ _ _ Hok Hd) as [Hbb Hok'].
  pose proof (zlen_nonneg b). apply wp_if; intros Hn; [done|]. apply wp_if; intros Hmax; [done|].
  apply IH; [done|by apply is_bytes_app|rewrite zlen_app; lia|rewrite zlen_app; lia].
Qed.

Lemma wp_decompress_batch c : is_bytes c -> wp (decompress_batch c)
  (fun r => is_bytes r /\ zlen r <= Limits.MAX_BATCH_DECOMPRESSED_BYTES).
Proof.
  intros Hc. unfold decompress_batch. apply wp_bind, wp_ok_or. intros d Hd.
  apply wp_decompress_loop; [by eapply decoder_new_ok|constructor|done|].
  change (zlen []) with 0. unfold Limits.MAX_BATCH_DECOMPRESSED_BYTES. lia.
Qed.

Definition reader_ok (r : ManifestReader) : Prop :=
  is_bytes (r_unread r) /\ is_buf (r_current_decompressed r) /\
  0 <= r_current_cursor r <= zlen (r_current_decompressed r) /\
  0 <= r_entries_remaining_in_batch r /\
  0 <= r_total_entries_read r <= Limits.MAX_MANIFEST_ENTRIES.

(** Loading a batch changes neither the hash state nor the count of entries. *)
Definition same_hash (r r' : ManifestReader) : Prop :=
  r_hasher r' = r_hasher r /\ r_expected_hash r' = r_expected_hash r /\
  r_total_entries_read r' = r_total_entries_read r /\ r_finished r' = r_finished r.

Lemma read_exact_spec l n o l' : 0 <= n -> read_exact l n = (o, l') -> is_bytes l ->
  is_bytes l' /\ (length l' <= length l)%nat /\
  match o with
  | Some b => is_bytes b /\ zlen b = n /\ zlen l = n + zlen l'
  | None => True
  end.
Proof.
  unfold read_exact. intros Hn Hr Hl. destruct (Z.ltb_spec (zlen l) n); simplify_eq.
  - split; [constructor|]. split; [cbn; lia|done].
  - split_and!; [by apply Forall_drop|rewrite length_drop; lia|by apply Forall_take|len|len].
Qed.

Lemma load_batch_safe r : reader_ok r -> exists r' o, load_batch r = (r', o) /\ o <> Panic /\
  (o = Ok false -> hasher_finalize (r_hasher r) = r_expected_hash r) /\
  (o = Ok true -> reader_ok r' /\ same_hash r r' /\ (length (r_unread r') < length (r_unread r))%nat).
Proof.
  intros (Hu & Hd & Hc & Hrem & Htot). unfold load_batch.
  destruct (read_exact (r_unread r) 16) as [h unread] eqn:E1.
  apply read_exact_spec in E1 as (Hu1 & Hl1 & Hh); [|lia|done].
  destruct h as [h|]; [destruct Hh as (Hhb & Hhl & Hul)|].
  2:{ cbn. case_bool_decide as Heq; cbn [negb]; do 2 eexists; split; try done; split_and!; try done.
      all: try by intros [=]. }
  destruct (let? n := read_le h 8 4 in let? c := read_le h 12 4 in Ok (n, c)) as [[n c]|e|] eqn:E2;
    [| |exfalso].
  3:{ assert (wp (let? n := read_le h 8 4 in let? c := read_le h 12 4 in @Ok VelcruxError _ (n, c))
        (fun _ => True)) as Hw by by wps. by rewrite E2 in Hw. }
  2:{ do 2 eexists; split; [done|]. split_and!; by intros [=]. }
  assert (Hnc : 0 <= n /\ 0 <= c).
  { assert (wp (let? n := read_le h 8 4 in let? c := read_le h 12 4 in @Ok VelcruxError _ (n, c))
      (fun '(n, c) => 0 <= n /\ 0 <= c)) as Hw by by wps. by rewrite E2 in Hw. }
  destruct (Limits.MANIFEST_BATCH_SIZE <? n);
    [do 2 eexists; split; [done|]; split_and!; by intros [=]|].
  cbn [r_unread set_unread]. destruct (read_exact unread c) as [z unread2] eqn:E3.
  apply read_exact_spec in E3 as (Hu2 & Hl2 & Hz); [|lia|done].
  destruct z as [z|]; cbn [ok_or obind];
    [|do 2 eexists; split; [done|]; split_and!; by intros [=]].
  pose proof (wp_decompress_batch z (proj1 Hz)) as Hw. destruct (decompress_batch z) as [dec|e|]; [| |done];
    [|do 2 eexists; split; [done|]; split_and!; by intros [=]].
  destruct Hw as [Hdb Hdl]. case_match; do 2 eexists; (split; [done|]); split_and!; try by intros [=].
  intros _. pose proof (zlen_nonneg dec). unfold Limits.MAX_BATCH_DECOMPRESSED_BYTES in *.
  split; [|split; [done|cbn; unfold zlen in *; lia]]. unfold reader_ok, is_buf. cbn.
  split_and!; try done; try lia.
Qed.

Lemma refill_safe fuel r : reader_ok r -> (length (r_unread r) < fuel)%nat ->
  exists r' o, refill fuel r = (r', o) /\ o <> Panic /\
  (o = Ok false -> hasher_finalize (r_hasher r) = r_expected_hash r) /\
  (o = Ok true -> reader_ok r' /\ same_hash r r' /\ 0 < r_entries_remaining_in_batch r').
Proof.
  revert r. induction fuel as [|fuel IH]; intros r Hr Hf; [lia|]. cbn [refill].
  pose proof Hr as (_ & _ & _ & Hrem & _).
  destruct (Z.eqb_spec (r_entries_remaining_in_batch r) 0) as [Hz|Hz]; cbn [negb].
  2:{ do 2 eexists. split; [done|]. split_and!; try done. intros _. split_and!; try done. lia. }
  destruct (load_batch_safe r Hr) as (r1 & o & -> & Hnp & Hend & Hgo). destruct o as [[]|e|]; try done.
  - destruct (Hgo eq_refl) as (Hr1 & (Hh & He & Ht & Hfin) & Hl).
    destruct (IH r1 Hr1 ltac:(lia)) as (r' & o & -> & Hnp' & Hend' & Hgo'). do 2 eexists.
    split; [done|]. unfold same_hash in *. rewrite Hh, He in Hend'. split_and!; try done.
    intros Ho. destruct (Hgo' Ho) as (Hr' & (? & ? & ? & ?) & ?). split_and!; try done; congruence.
  - do 2 eexists. split; [done|]. split_and!; try done.
  - do 2 eexists. split; [done|]. split_and!; by intros [=].
Qed.

(** [p] is the canonical slice from which [e] was decoded. *)
Definition decoded_from (e : FileEntry.t) (p : bytes) : Prop :=
  exists post, decode_file_entry (p ++ post) = Ok (e, zlen p).

Lemma decode_at_safe dec cursor : is_buf dec -> 0 <= cursor <= zlen dec ->
  wp (decode_at dec cursor) (fun '(e, n, p) =>
    fields_ok e /\ 0 < n /\ decoded_from e p /\ cursor + n <= zlen dec).
Proof.
  intros [Hb Hbl] Hc. apply wp_bind, wp_slice_from; [done|]. intros sl _ Hsl HP.
  assert (Hsb : is_buf sl) by (split; [by apply HP|lia]). pose proof (wp_decode_file_entry sl Hsb) as Hd.
  destruct (decode_file_entry sl) as [[e n]|er|] eqn:Ed; [|done|done]. cbn [map_err obind].
  destruct Hd as (Hfe & _ & _ & Hn). apply wp_bind, wp_slice; [lia|lia|]. intros p Hp Hpl _.
  cbn [wp]. split_and!; try done; try lia. exists (drop (Z.to_nat n) sl).
  rewrite Z.sub_0_r, drop_0 in Hp. subst p. rewrite take_drop, Ed. do 2 f_equal. lia.
Qed.

Lemma next_entry_safe r : reader_ok r -> r_finished r = false ->
  exists r' o, next_entry r = (r', o) /\ o <> Panic /\
  (o = Ok None -> hasher_finalize (r_hasher r) = r_expected_hash r) /\
  (forall e, o = Ok (Some e) -> fields_ok e /\ reader_ok r' /\ r_finished r' = false /\
     r_expected_hash r' = r_expected_hash r /\
     r_total_entries_read r' = r_total_entries_read r + 1 /\
     exists p, decoded_from e p /\ r_hasher r' = hasher_update (r_hasher r) p).
Proof.
  intros Hr Hfin. unfold next_entry. rewrite Hfin.
  destruct (refill_safe (S (length (r_unread r))) r Hr ltac:(lia)) as (r1 & o & -> & Hnp & Hend & Hgo).
  destruct o as [[]|e|]; [| | |done].
  2:{ do 2 eexists. split; [done|]. split; [done|]. split; [intros _; by apply Hend|by intros e [=]]. }
  2:{ do 2 eexists. split; [done|]. split_and!; [done|by intros [=]|by intros ? [=]]. }
  destruct (Hgo eq_refl) as ((Hu & [Hb Hbl] & Hc & Hrem & Htot) & (Hh & He & Ht & Hf) & Hpos).
  destruct (Z.leb_spec Limits.MAX_MANIFEST_ENTRIES (r_total_entries_read r1)).
  { do 2 eexists. split; [done|]. split_and!; [done|by intros [=]|by intros ? [=]]. }
  pose proof (decode_at_safe (r_current_decompressed r1) (r_current_cursor r1) (conj Hb Hbl) Hc) as Hw.
  destruct (decode_at _ _) as [[[e n] p]|er|]; [| |done].
  - destruct Hw as (Hfe & Hn & Hp & Hcur). do 2 eexists. split; [done|]. split; [done|].
    split; [by intros [=]|]. intros e' [= <-]. unfold Limits.MAX_MANIFEST_ENTRIES in *.
    unfold reader_ok, is_buf, Limits.MAX_MANIFEST_ENTRIES. cbn. rewrite wrap_small by (unfold fits; lia).
    split_and!; try done; try lia; try congruence. exists p. by rewrite Hh.
  - do 2 eexists. split; [done|]. split_and!; [done|by intros [=]|by intros ? [=]].
Qed.

Lemma read_all_safe k r : reader_ok r -> r_finished r = false ->
  Limits.MAX_MANIFEST_ENTRIES - r_total_entries_read r < Z.of_nat k ->
  wp (read_all k r) (fun es => Forall fields_ok es /\
    zlen es <= Limits.MAX_MANIFEST_ENTRIES - r_total_entries_read r /\
    exists ps, Forall2 decoded_from es ps /\
      r_expected_hash r = hasher_finalize (foldl hasher_update (r_hasher r) ps)).
Proof.
  revert r. induction k as [|k IH]; intros r Hr Hfin Hk; [destruct Hr as (_ & _ & _ & _ & ?); lia|].
  cbn [read_all]. destruct (next_entry_safe r Hr Hfin) as (r' & o & -> & Hnp & Hend & Hgo).
  destruct o as [[e|]|er|]; try done.
  - destruct (Hgo e eq_refl) as (Hfe & Hr' & Hfin' & Heh & Htot & p & Hp & Hh).
    eapply wp_bind_mono; [apply IH; [done|done|lia]|]. intros es (Hes & Hn & ps & Hps & Hhash).
    cbn [wp]. rewrite zlen_cons. split_and!; [by constructor|lia|]. exists (p :: ps).
    split; [by constructor|]. cbn [foldl]. by rewrite <- Hh, <- Heh.
  - cbn [wp]. destruct Hr as (_ & _ & _ & _ & Htot). split_and!; [constructor|change (zlen []) with 0; lia|].
    exists []. split; [constructor|]. symmetry. by apply Hend.
Qed.

Lemma reader_open_ok file h r : is_bytes file -> reader_open file h = Ok r ->
  reader_ok r /\ r_finished r = false /\ r_total_entries_read r = 0 /\ r_hasher r = hasher_new /\
  r_expected_hash r = h.
Proof.
  intros Hf. unfold reader_open. destruct (read_exact file 4) as [m u1] eqn:E1.
  apply read_exact_spec in E1 as (Hu1 & _ & _); [|lia|done].
  destruct m as [m|]; cbn [ok_or obind]; [|done]. case_match; [done|].
  destruct (read_exact u1 1) as [v u2] eqn:E2. apply read_exact_spec in E2 as (Hu2 & _ & _); [|lia|done].
  destruct v as [v|]; cbn [ok_or obind]; [|done]. intros Hi. apply obind_ok_inv in Hi as (x & _ & Hi).
  revert Hi. case_match; [done|]. intros [= <-]. unfold reader_ok, is_buf. cbn.
  split_and!; try done. constructor.
Qed.

Lemma reader_open_no_panic file h : is_bytes file -> reader_open file h <> Panic.
Proof.
  intros Hf. unfold reader_open. destruct (read_exact file 4) as [m u1] eqn:E1.
  apply read_exact_spec in E1 as (Hu1 & _ & _); [|lia|done].
  destruct m as [m|]; cbn [ok_or obind]; [|done]. case_match; [done|].
  destruct (read_exact u1 1) as [v u2] eqn:E2. apply read_exact_spec in E2 as (_ & _ & Hv); [|lia|done].
  destruct v as [v|]; cbn [ok_or obind]; [|done]. destruct Hv as (_ & Hl & _).
  destruct v as [|x v]; [done|]. change (index (x :: v) 0) with (@Ok VelcruxError _ x). cbn [obind].
  by case_match.
Qed.

(** ** Properties *)

(** C36. Reading any file as a manifest ends within [MAX_MANIFEST_ENTRIES] entries and does not
    panic; if it succeeds, every entry is well formed, with a path below the root, and the hash
    of the bytes the entries were decoded from, in order, is the expected one. *)
Theorem manifest_reader_safe file h : is_bytes file ->
  wp (let? r := reader_open file h in read_all (S (Z.to_nat Limits.MAX_MANIFEST_ENTRIES)) r)
    (fun es => Forall fields_ok es /\ zlen es <= Limits.MAX_MANIFEST_ENTRIES /\
      exists ps, Forall2 decoded_from es ps /\
        h = hasher_finalize (foldl hasher_update hasher_new ps)).
Proof.
  intros Hf. destruct (reader_open file h) as [r|e|] eqn:Ho; cbn [obind]; [|done|].
  - apply reader_open_ok in Ho as (Hr & Hfin & Ht & Hh & He); [|done].
    eapply wp_mono; [apply read_all_safe; [done|done|]|].
    + rewrite Ht. unfold Limits.MAX_MANIFEST_ENTRIES. lia.
    + intros es (Hes & Hn & ps & Hps & Hhash). rewrite Ht in Hn. rewrite He, Hh in Hhash.
      split_and!; [done|lia|by exists ps].
  - by apply reader_open_no_panic in Ho.
Qed.

(** blake3: the incremental hasher computes the hash of what it was given. *)
Variable hash_of : bytes -> Hash.
Hypothesis hasher_spec : forall l, hasher_finalize (foldl hasher_update hasher_new l) = hash_of (mjoin l).

(** C35. A manifest written entry by entry, batched, compressed and spilled, is read back as the
    same entries in the same order and then ends with its hash verified; the announcement counts
    the entries and their bytes and carries the hash of their canonical encoding. The batches
    must be within the reader's decompression limit, which the writer does not check. *)
Theorem manifest_file_roundtrip params es b e file :
  Forall entry_ok es -> Forall small (batches es) ->
  (let? w := add_entries (writer_new params) es in writer_finish w) = Ok (b, e, file) ->
  b = ManifestBegin.mk (zlen es) (wrap 64 (sizes es)) params (hash_of (entries_bytes es)) /\
  e = ManifestEnd.mk (hash_of (entries_bytes es)) /\
  exists r, reader_open file (ManifestBegin.manifest_hash b) = Ok r /\
    forall k, (length es < k)%nat -> read_all k r = Ok es.
Proof.
  intros Hes Hsm Hrun. destruct (written_yields params es b e file Hes Hsm Hrun) as (Hb & He & r & Hr & Hy).
  assert (Hhash : hasher_finalize (hashed es) = hash_of (entries_bytes es)) by apply hasher_spec.
  rewrite <- Hhash. split; [done|]. split; [done|]. exists r. split; [done|]. intros k Hk. by apply read_all_yields.
Qed.

End manifest.

(** ** The theorems at a concrete manifest *)
Module ManifestFileExamples.

(** A hasher that collects its input; its digest is the first 32 bytes. *)
Definition digest (l : bytes) : Hash := take 32 (l ++ replicate 32 0).
Definition update (h p : bytes) : bytes := h ++ p.

Lemma digest_spec l : digest (foldl update [] l) = digest (mjoin l).
Proof.
  f_equal. assert (Hl : forall acc, foldl update acc l = acc ++ mjoin l); [|by apply (Hl [])].
  induction l as [|p l IH]; intros acc; cbn; [by rewrite app_nil_r|]. rewrite IH. unfold update.
  by rewrite <- app_assoc.
Qed.

Lemma lead_zeros_length l : (length (TrimCodec.lead_zeros l).2 <= length l)%nat.
Proof.
  induction l as [|b l IH]; [done|]. cbn. destruct (b =? 0); [|done].
  destruct (TrimCodec.lead_zeros l). cbn in *. lia.
Qed.

Lemma trim_expansion data level c : encode_all data level = Some c ->
  zlen data <= Limits.MAX_BATCH_DECOMPRESSED_BYTES -> zlen c < 2 ^ 32.
Proof.
  cbn. unfold TrimCodec.trim_encode. pose proof (lead_zeros_length (reverse data)) as Hl.
  destruct (TrimCodec.lead_zeros (reverse data)) as [n r]. cbn in Hl. rewrite length_reverse in Hl.
  case_match; [|done]. intros [= <-] Hd. rewrite zlen_app, zlen_to_le.
  unfold zlen, Limits.MAX_BATCH_DECOMPRESSED_BYTES in *. rewrite length_reverse. lia.
Qed.

Lemma trim_new_bytes c d : is_bytes c -> decoder_new c = Some d -> is_bytes d.
Proof.
  cbn. unfold TrimCodec.trim_decode. intros Hc. case_match; [done|]. intros [= <-].
  apply is_bytes_app; [by apply Forall_drop|by apply Forall_replicate].
Qed.

Lemma trim_read_bytes (d : bytes) n b d' : is_bytes d -> @decoder_read TrimCodec.trim_zstd d n = Some (b, d') ->
  is_bytes b /\ is_bytes d'.
Proof. cbn. intros Hd [= <- <-]. split; [by apply Forall_take|by apply Forall_drop]. Qed.

Lemma manifest_reader_safe_witness :
  wp (let? r := reader_open [] (SPILL_MAGIC ++ [1; 7; 7]) (digest []) in
      read_all update digest (S (Z.to_nat Limits.MAX_MANIFEST_ENTRIES)) r)
    (fun es => Forall fields_ok es /\ zlen es <= Limits.MAX_MANIFEST_ENTRIES /\
      exists ps, Forall2 decoded_from es ps /\ digest [] = digest (foldl update [] ps)).
Proof.
  apply (manifest_reader_safe (H := TrimCodec.trim_zstd) [] update digest is_bytes trim_new_bytes trim_read_bytes).
  repeat constructor; lia.
Defined.

Definition es : list FileEntry.t := [ManifestEntryExamples.sparse; ManifestEntryExamples.sparse].

Lemma es_ok : Forall entry_ok es.
Proof. pose proof ManifestEntryExamples.sparse_ok. by repeat apply Forall_cons_2. Qed.

Lemma es_small : Forall small (batches es).
Proof. constructor; [|constructor]. unfold small. vm_compute. discriminate. Qed.

Lemma manifest_file_roundtrip_witness : exists b e file,
  (let? w := add_entries update (writer_new [] ChunkParams.default) es in writer_finish update digest w)
    = Ok (b, e, file) /\ ManifestBegin.file_count b = 2 /\ ManifestBegin.total_bytes b = 16 /\
  exists r, reader_open [] file (ManifestBegin.manifest_hash b) = Ok r /\
    forall k, (2 < k)%nat -> read_all update digest k r = Ok es.
Proof.
  eexists _, _, _. split; [vm_compute; reflexivity|].
  match goal with |- context [reader_open [] ?f (ManifestBegin.manifest_hash ?b)] =>
    destruct (manifest_file_roundtrip [] update digest trim_expansion digest digest_spec
      ChunkParams.default es b (ManifestEnd.mk (ManifestBegin.manifest_hash b)) f) as (Hb & _ & Hr) end.
  - exact es_ok.
  - exact es_small.
  - vm_compute. reflexivity.
  - split; [reflexivity|]. split; [reflexivity|]. exact Hr.
Defined.

End ManifestFileExamples.
