(* ===== verification/LinAlg.v ===== *)
(** * Linear algebra over a field

    Finite sums over index lists, the two invariants of Gauss-Jordan elimination (the right half
    of the augmented matrix expresses the left half in the rows of the input; no step adds to
    the kernel), and the kernel of a Cauchy matrix. Everything is stated over an arbitrary
    field; the codec of transport/fec.rs uses it at the bytes. *)

From Stdlib Require Import Field.
From S2P Require Import Prelude.

(** ** Sums over a list of indices *)

Section ssum.
Context {F : Type} (z0 : F) (add : F -> F -> F) {I : Type}.

Definition ssum (l : list I) (f : I -> F) : F := foldr (fun i acc => add (f i) acc) z0 l.

Lemma ssum_ext l f g : (forall i, i ∈ l -> f i = g i) -> ssum l f = ssum l g.
Proof.
  induction l as [|i l IH]; intros H; [done|]. cbn. rewrite (H i); [|set_solver].
  f_equal. apply IH. set_solver.
Qed.
End ssum.

Section field.
Context {F : Type} (z0 o1 : F) (add mul sub : F -> F -> F) (opp : F -> F)
  (div : F -> F -> F) (inv : F -> F).
Context (fth : field_theory z0 o1 add mul sub opp div inv (@eq F)).
Add Field carrier : fth.

Declare Scope fld_scope.
Open Scope fld_scope.
Notation "0" := z0 : fld_scope.
Notation "1" := o1 : fld_scope.
Infix "+" := add : fld_scope.
Infix "*" := mul : fld_scope.
Infix "-" := sub : fld_scope.
Notation "- x" := (opp x) : fld_scope.
Infix "/" := div : fld_scope.

Lemma mul_nonzero x y : x <> 0 -> y <> 0 -> x * y <> 0.
Proof.
  intros Hx Hy Hz. apply Hx. replace x with (x * y / y) by (field; done).
  rewrite Hz. field. done.
Qed.

Lemma mul_eq_0 x y : x <> 0 -> x * y = 0 -> y = 0.
Proof. intros Hx Hz. replace y with (x * y / x) by (field; done). rewrite Hz. field. done. Qed.

Lemma sub_eq_0 x y : x - y = 0 -> x = y.
Proof. intros H. replace x with (x - y + y) by ring. rewrite H. ring. Qed.

Abbreviation ssum := (ssum z0 add).

Section sums.
Context {I : Type}.
Implicit Types (l : list I) (f g : I -> F).

Lemma ssum_cons i l f : ssum (i :: l) f = f i + ssum l f.
Proof. done. Qed.
Lemma ssum_app l k f : ssum (l ++ k) f = ssum l f + ssum k f.
Proof. induction l; cbn [app]; rewrite ?ssum_cons, ?IHl; cbn; ring. Qed.
Lemma ssum_0 l f : (forall i, i ∈ l -> f i = 0) -> ssum l f = 0.
Proof.
  induction l as [|i l IH]; intros H; [done|].
  rewrite ssum_cons, (H i), IH by set_solver. ring.
Qed.
Lemma ssum_add l f g : ssum l (fun i => f i + g i) = ssum l f + ssum l g.
Proof. induction l; rewrite ?ssum_cons, ?IHl; cbn; ring. Qed.
Lemma ssum_scal l a f : ssum l (fun i => a * f i) = a * ssum l f.
Proof. induction l; rewrite ?ssum_cons, ?IHl; cbn; ring. Qed.
Lemma ssum_scal_r l a f : ssum l (fun i => f i * a) = ssum l f * a.
Proof. induction l; rewrite ?ssum_cons, ?IHl; cbn; ring. Qed.
Lemma ssum_sub l f g : ssum l (fun i => f i - g i) = ssum l f - ssum l g.
Proof. induction l; rewrite ?ssum_cons, ?IHl; cbn; ring. Qed.

Lemma ssum_perm l k f : l ≡ₚ k -> ssum l f = ssum k f.
Proof. induction 1; rewrite ?ssum_cons; try congruence; ring. Qed.

Lemma ssum_delta `{EqDecision I} l j f : NoDup l -> j ∈ l ->
  ssum l (fun i => if decide (i = j) then f i else 0) = f j.
Proof.
  induction l as [|i l IH]; intros Hnd Hj; [set_solver|].
  apply NoDup_cons in Hnd as [Hi Hnd]. rewrite ssum_cons. case_decide as Hd.
  - subst i. rewrite ssum_0; [ring|]. intros i Hin. rewrite decide_False; [done|]. by intros ->.
  - rewrite IH by set_solver. ring.
Qed.

(** A sum restricted to the indices where it is not zero. *)
Lemma ssum_filter l (P : I -> Prop) `{forall i, Decision (P i)} f :
  (forall i, i ∈ l -> ~ P i -> f i = 0) -> ssum l f = ssum (filter P l) f.
Proof.
  induction l as [|i l IH]; intros H'; [done|]. rewrite filter_cons.
  case_decide; rewrite ?ssum_cons, IH by set_solver; [done|]. rewrite (H' i) by set_solver. ring.
Qed.
End sums.

Lemma ssum_comm {I J} (l : list I) (k : list J) (f : I -> J -> F) :
  ssum l (fun i => ssum k (f i)) = ssum k (fun j => ssum l (fun i => f i j)).
Proof.
  induction l as [|i l IH].
  - symmetry. by apply ssum_0.
  - rewrite ssum_cons, IH, <- ssum_add. by apply ssum_ext.
Qed.

(** ** Gauss-Jordan elimination *)

(** Matrices are functions of row and column; [idx] are the indices of the square input. *)
Section gauss.
Context {I : Type} `{!EqDecision I} (idx : list I) (Hidx : NoDup idx).
Implicit Types (A L R : I -> I -> F) (v : I -> F).

Definition kernel A v : Prop := forall r, r ∈ idx -> ssum idx (fun c => A r c * v c) = 0.
Definition no_kernel A : Prop := forall v, kernel A v -> forall c, c ∈ idx -> v c = 0.
Definition left_inverse R A : Prop := forall r c, r ∈ idx -> c ∈ idx ->
  ssum idx (fun t => R r t * A t c) = if decide (r = c) then 1 else 0.

(** The augmented matrix [L | R]: [L = R A], and what [L] sends to zero [A] does. *)
Definition gauss_inv A L R : Prop :=
  (forall r c, r ∈ idx -> c ∈ idx -> L r c = ssum idx (fun t => R r t * A t c)) /\
  (forall v, kernel L v -> kernel A v).

Lemma gauss_start A :
  gauss_inv A A (fun r c => if decide (r = c) then 1 else 0).
Proof.
  split; [|done]. intros r c Hr Hc. symmetry.
  erewrite (ssum_ext _ _ _ _ (fun t => if decide (t = r) then A t c else 0)).
  - by rewrite ssum_delta.
  - intros t _. do 2 case_decide; subst; try congruence; ring.
Qed.

(** A row operation replaces every row by a combination of two old rows. *)
Lemma gauss_rows A L R L' R' (a b : I -> F) (p q : I -> I) :
  (forall r, r ∈ idx -> p r ∈ idx /\ q r ∈ idx) ->
  (forall r c, r ∈ idx -> c ∈ idx -> L' r c = a r * L (p r) c + b r * L (q r) c) ->
  (forall r c, r ∈ idx -> c ∈ idx -> R' r c = a r * R (p r) c + b r * R (q r) c) ->
  (forall v, kernel L' v -> kernel L v) ->
  gauss_inv A L R -> gauss_inv A L' R'.
Proof.
  intros Hpq HL HR Hk [Hl Hv]. split; [|auto]. intros r c Hr Hc. destruct (Hpq r Hr).
  rewrite HL, !Hl by done. rewrite <- !ssum_scal, <- ssum_add. apply ssum_ext.
  intros t Ht. rewrite HR by done. ring.
Qed.

Lemma gauss_swap A L R i j : i ∈ idx -> j ∈ idx ->
  let s := fun r => if decide (r = i) then j else if decide (r = j) then i else r in
  gauss_inv A L R -> gauss_inv A (fun r => L (s r)) (fun r => R (s r)).
Proof.
  intros Hi Hj s. apply (gauss_rows _ _ _ _ _ (fun _ => 1) (fun _ => 0) s s).
  - intros r Hr. unfold s. repeat case_decide; done.
  - intros. ring.
  - intros. ring.
  - intros v Hk r Hr. unfold kernel in Hk. specialize (Hk (s r)). cbv beta in Hk.
    assert (s (s r) = r) as Hs by (unfold s; repeat case_decide; congruence).
    rewrite Hs in Hk. apply Hk. unfold s. repeat case_decide; done.
Qed.

Lemma gauss_scale A L R i k : i ∈ idx -> k <> 0 ->
  gauss_inv A L R ->
  gauss_inv A (fun r c => if decide (r = i) then L r c * k else L r c)
    (fun r c => if decide (r = i) then R r c * k else R r c).
Proof.
  intros Hi Hk.
  apply (gauss_rows _ _ _ _ _ (fun r => if decide (r = i) then k else 1) (fun _ => 0)
           (fun r => r) (fun r => r)); [done| | |].
  1,2: intros; case_decide; ring.
  intros v Hv r Hr. specialize (Hv r Hr). cbv beta in Hv. case_decide; [|done].
  apply (mul_eq_0 k); [done|]. etrans; [|exact Hv]. rewrite <- ssum_scal. apply ssum_ext. intros. ring.
Qed.

Lemma gauss_elim A L R i r0 k : i ∈ idx -> r0 ∈ idx -> r0 <> i ->
  gauss_inv A L R ->
  gauss_inv A (fun r c => if decide (r = r0) then L r c - k * L i c else L r c)
    (fun r c => if decide (r = r0) then R r c - k * R i c else R r c).
Proof.
  intros Hi Hr0 Hne.
  apply (gauss_rows _ _ _ _ _ (fun _ => 1) (fun r => if decide (r = r0) then - k else 0)
           (fun r => r) (fun _ => i)); [done| | |].
  1,2: intros; case_decide; ring.
  intros v Hv. assert (ssum idx (fun c => L i c * v c) = 0) as HLi.
  { etrans; [|exact (Hv i Hi)]. apply ssum_ext. intros c _. by rewrite decide_False by congruence. }
  intros r Hr. specialize (Hv r Hr). cbv beta in Hv. case_decide; [|done].
  etrans; [|exact Hv]. transitivity (ssum idx (fun c => L r c * v c) - k * ssum idx (fun c => L i c * v c)).
  { rewrite HLi. ring. }
  rewrite <- ssum_scal, <- ssum_sub. apply ssum_ext. intros. ring.
Qed.

(** When the left half is the identity the right half is the inverse. *)
Lemma gauss_done A L R : gauss_inv A L R ->
  (forall r c, r ∈ idx -> c ∈ idx -> L r c = if decide (r = c) then 1 else 0) ->
  left_inverse R A.
Proof. intros [Hl _] Hid r c Hr Hc. rewrite <- Hl, Hid by done. done. Qed.

(** A column with no pivot: the columns in [pre] are unit columns and [col] is zero outside
    the rows [pre]; then the matrix has a kernel vector with a one at [col]. *)
Lemma gauss_stuck A L R (pre : list I) col : gauss_inv A L R -> no_kernel A ->
  (forall c, c ∈ pre -> c ∈ idx) -> col ∈ idx -> col ∉ pre -> NoDup pre ->
  (forall r c, r ∈ idx -> c ∈ pre -> L r c = if decide (r = c) then 1 else 0) ->
  (forall r, r ∈ idx -> r ∉ pre -> L r col = 0) -> False.
Proof.
  intros [_ Hv] Hnk Hpre Hcol Hnin Hnd Hunit Hzero.
  set (v := fun c => if decide (c = col) then 1 else if decide (c ∈ pre) then - L c col else 0).
  assert (v col = 0) as Hc; [|unfold v in Hc; rewrite decide_True in Hc by done;
    by apply (F_1_neq_0 fth)].
  apply Hnk; [|done]. apply Hv. intros r Hr.
  transitivity (ssum idx (fun c => if decide (c = col) then L r c else 0) +
    ssum idx (fun c => if decide (c = r) then (if decide (r ∈ pre) then - L r col else 0) else 0)).
  - rewrite <- ssum_add. apply ssum_ext. intros c Hcin. unfold v.
    destruct (decide (c = col)) as [->|Hne].
    { destruct (decide (col = r)) as [->|]; [rewrite decide_False by done|]; ring. }
    destruct (decide (c ∈ pre)) as [Hp|Hp].
    + rewrite Hunit by done. destruct (decide (r = c)) as [->|].
      * rewrite !decide_True by done. ring.
      * rewrite decide_False by congruence. ring.
    + destruct (decide (c = r)) as [->|]; [rewrite decide_False by done|]; ring.
  - rewrite (ssum_delta idx col (fun c => L r c)) by done.
    rewrite (ssum_delta idx r (fun _ => if decide (r ∈ pre) then - L r col else 0)) by done.
    case_decide; [ring|]. rewrite Hzero by done. ring.
Qed.

(** What the inverse is for: it takes [A s] back to [s]. *)
Lemma left_inverse_apply R A (s : I -> F) r : left_inverse R A -> r ∈ idx ->
  ssum idx (fun t => R r t * ssum idx (fun c => A t c * s c)) = s r.
Proof.
  intros Hinv Hr.
  transitivity (ssum idx (fun t => ssum idx (fun c => R r t * A t c * s c))).
  { apply ssum_ext. intros t _. rewrite <- ssum_scal. apply ssum_ext. intros. ring. }
  rewrite ssum_comm.
  erewrite (ssum_ext _ _ _ _ (fun c => if decide (c = r) then s c else 0)).
  - by rewrite ssum_delta.
  - intros c Hc. cbv beta. rewrite ssum_scal_r, Hinv by done.
    destruct (decide (r = c)), (decide (c = r)); try congruence; ring.
Qed.
End gauss.

(** ** Cauchy matrices *)

(** With distinct [x] and distinct [y], and at least as many equations as unknowns,
    [sum_j v_j / (x - y_j) = 0] for all [x] only when all [v_j] are zero. *)
Lemma cauchy_kernel {I} (ys : list I) (yv : I -> F) (v : I -> F) (xs : list F) :
  NoDup (yv <$> ys) -> NoDup xs -> (length ys <= length xs)%nat ->
  (forall x j, x ∈ xs -> j ∈ ys -> x <> yv j) ->
  (forall x, x ∈ xs -> ssum ys (fun j => v j / (x - yv j)) = 0) ->
  forall j, j ∈ ys -> v j = 0.
Proof.
  revert v xs. induction ys as [|y1 ys IH]; intros v xs Hy Hx Hlen Hne Heq; [set_solver|].
  destruct xs as [|x1 xs]; [cbn in Hlen; lia|].
  apply NoDup_cons in Hx as [Hx1 Hx]. apply NoDup_cons in Hy as [Hy1 Hy].
  assert (Hsub : forall x j, x ∈ x1 :: xs -> j ∈ y1 :: ys -> x - yv j <> 0).
  { intros x j Hxi Hji H0. by apply (Hne x j), sub_eq_0. }
  set (w := fun j => v j * (yv j - yv y1) / (x1 - yv j)).
  assert (Hw : forall j, j ∈ ys -> w j = 0).
  { apply (IH w xs); [done..|cbn in Hlen; lia|intros; apply Hne; set_solver|].
    intros x Hxin. apply (mul_eq_0 (x1 - x)).
    { intros H0. apply sub_eq_0 in H0. by subst. }
    pose proof (Heq x ltac:(set_solver)) as Ex. pose proof (Heq x1 ltac:(set_solver)) as E1.
    rewrite ssum_cons in Ex, E1.
    transitivity ((x - yv y1) * (v y1 / (x - yv y1) + ssum ys (fun j => v j / (x - yv j))) -
      (x1 - yv y1) * (v y1 / (x1 - yv y1) + ssum ys (fun j => v j / (x1 - yv j)))).
    2: { rewrite Ex, E1. ring. }
    transitivity ((x - yv y1) * ssum ys (fun j => v j / (x - yv j)) -
      (x1 - yv y1) * ssum ys (fun j => v j / (x1 - yv j))).
    2: { field. split; apply Hsub; set_solver. }
    rewrite <- !ssum_scal, <- ssum_sub. apply ssum_ext. intros j Hj. unfold w. field.
    split; apply Hsub; set_solver. }
  assert (Hv : forall j, j ∈ ys -> v j = 0).
  { intros j Hj. specialize (Hw j Hj). unfold w in Hw.
    apply (mul_eq_0 ((yv j - yv y1) / (x1 - yv j))).
    - intros H0. assert (yv j - yv y1 = 0) as H1.
      { replace (yv j - yv y1) with ((yv j - yv y1) / (x1 - yv j) * (x1 - yv j))
          by (field; apply Hsub; set_solver). rewrite H0. ring. }
      apply sub_eq_0 in H1. apply Hy1. rewrite <- H1. by apply list_elem_of_fmap_2.
    - rewrite <- Hw. field. apply Hsub; set_solver. }
  intros j [->|Hj]%elem_of_cons; [|by apply Hv].
  pose proof (Heq x1 ltac:(set_solver)) as E1. rewrite ssum_cons, ssum_0 in E1.
  - replace (v y1) with (v y1 / (x1 - yv y1) * (x1 - yv y1)) by (field; apply Hsub; set_solver).
    replace (v y1 / (x1 - yv y1)) with (v y1 / (x1 - yv y1) + 0) by ring. rewrite E1. ring.
  - intros j Hj. rewrite Hv by done. field. apply Hsub; set_solver.
Qed.
End field.
