(* ===== verification/Gf256.v ===== *)
(** * GF(2^8), transport/fec.rs

    The tables the code builds, the arithmetic it reads from them, and the proof that the bytes
    with these operations are a field. Multiplication by a non-zero byte [b] is iterated
    doubling, [log b] times, and doubling is linear over xor: distributivity follows without
    looking at pairs of bytes. *)

From Stdlib Require Import Field.
From S2P Require Import Prelude.

(** ** The code *)

Definition GF_POLYNOMIAL : Z := 0x11d.

(** [val <<= 1; if (val & 0x100) != 0 { val ^= GF_POLYNOMIAL; }] on a [u16]. *)
Definition gf_double (val : Z) : Z :=
  let val := wrap 16 (Z.shiftl val 1) in
  if negb (Z.land val 0x100 =? 0) then Z.lxor val GF_POLYNOMIAL else val.

(** The body of the loop over [0..255]: [(exp, log, val)]. *)
Definition init_step {E} (i : Z) (st : bytes * bytes * Z) : outcome E (bytes * bytes * Z) :=
  let '(exp, log, val) := st in
  let? exp := write_at exp i (wrap 8 val) in
  let? exp := write_at exp (i + 255) (wrap 8 val) in
  let? log := write_at log val (wrap 8 i) in
  Ok (exp, log, gf_double val).

Definition init_gf_tables {E} : outcome E (bytes * bytes) :=
  let? ' (exp, log, _) :=
    for_range 0 255 init_step (replicate 512 0, replicate 256 0, 1) in
  let? e0 := index exp 0 in
  let? exp := write_at exp 510 e0 in
  let? e1 := index exp 1 in
  let? exp := write_at exp 511 e1 in
  Ok (exp, log).

(** The tables are built once ([OnceLock::get_or_init]) and then read. *)
Definition get_gf_tables : outcome unit (bytes * bytes) :=
  Eval vm_compute in @init_gf_tables unit.

Definition gf_exp : bytes := match get_gf_tables with Ok (e, _) => e | _ => [] end.
Definition gf_log : bytes := match get_gf_tables with Ok (_, l) => l | _ => [] end.

Definition gf_add (a b : Z) : Z := Z.lxor a b.
Definition gf_sub (a b : Z) : Z := Z.lxor a b.

Definition gf_mul {E} (a b : Z) : outcome E Z :=
  if (a =? 0) || (b =? 0) then Ok 0
  else
    let? la := index gf_log a in
    let? lb := index gf_log b in
    index gf_exp (la + lb).

Definition gf_div {E} (a b : Z) : outcome E Z :=
  if b =? 0 then Panic
  else if a =? 0 then Ok 0
  else
    let? la := index gf_log a in
    let? lb := index gf_log b in
    index gf_exp (la + 255 - lb).

Definition gf_inv {E} (a : Z) : outcome E Z := gf_div 1 a.

(** ** Reading the tables *)

(** The same reads as total functions. *)
Definition expt (i : Z) : Z := default 0 (gf_exp !! Z.to_nat i).
Definition logt (a : Z) : Z := default 0 (gf_log !! Z.to_nat a).
Definition mul (a b : Z) : Z :=
  if (a =? 0) || (b =? 0) then 0 else expt (logt a + logt b).
Definition inv (a : Z) : Z := expt (255 - logt a).

(** A property of all bytes, or of all table positions, is a finite check. *)
Definition all_below (n : Z) (P : Z -> bool) : bool := forallb P (seqZ 0 n).

Lemma all_below_spec n P : all_below n P = true -> forall i, 0 <= i < n -> P i = true.
Proof.
  unfold all_below. rewrite forallb_forall. intros H i Hi. apply H.
  rewrite <- list_elem_of_In, elem_of_seqZ. lia.
Qed.

Ltac by_tables n P i :=
  let H := fresh in
  pose proof (all_below_spec n P ltac:(vm_compute; reflexivity) i ltac:(lia)) as H;
  cbv beta in H; lia.

Lemma tables_built : @init_gf_tables unit = Ok (gf_exp, gf_log).
Proof. vm_compute. reflexivity. Qed.

Lemma exp_range i : 0 <= i < 512 -> 0 < expt i < 256.
Proof. intros. by_tables 512 (fun i => (0 <? expt i) && (expt i <? 256)) i. Qed.
Lemma log_range a : 0 <= a < 256 -> 0 <= logt a < 255.
Proof. intros. by_tables 256 (fun i => (0 <=? logt i) && (logt i <? 255)) a. Qed.
Lemma exp_log a : 0 < a < 256 -> expt (logt a) = a.
Proof. intros. by_tables 256 (fun i => (i =? 0) || (expt (logt i) =? i)) a. Qed.
Lemma log_exp i : 0 <= i < 255 -> logt (expt i) = i.
Proof. intros. by_tables 255 (fun i => logt (expt i) =? i) i. Qed.
Lemma exp_period i : 0 <= i < 255 -> expt (i + 255) = expt i.
Proof. intros. by_tables 255 (fun i => expt (i + 255) =? expt i) i. Qed.
(** The powers of the generator: each is the double of the one before, around the table. *)
Lemma exp_succ i : 0 <= i < 510 -> expt (i + 1) = gf_double (expt i).
Proof. intros. by_tables 510 (fun i => expt (i + 1) =? gf_double (expt i)) i. Qed.
Lemma log_1 : logt 1 = 0.
Proof. reflexivity. Qed.
Lemma exp_0 : expt 0 = 1.
Proof. reflexivity. Qed.

Lemma gf_tables_lookup : (forall i, 0 <= i < 512 -> gf_exp !! Z.to_nat i = Some (expt i)) /\
  (forall i, 0 <= i < 256 -> gf_log !! Z.to_nat i = Some (logt i)).
Proof.
  split; intros i Hi; unfold expt, logt.
  - destruct (lookup_lt_is_Some_2 gf_exp (Z.to_nat i)) as [x ->]; [|done].
    change (length gf_exp) with 512%nat. lia.
  - destruct (lookup_lt_is_Some_2 gf_log (Z.to_nat i)) as [x ->]; [|done].
    change (length gf_log) with 256%nat. lia.
Qed.

Section reads.
Context {E : Type}.

Lemma index_exp i : 0 <= i < 512 -> @index E Z gf_exp i = Ok (expt i).
Proof.
  intros Hi. unfold index. rewrite (proj2 (Z.leb_le 0 i)) by lia.
  by rewrite (proj1 gf_tables_lookup).
Qed.
Lemma index_log i : 0 <= i < 256 -> @index E Z gf_log i = Ok (logt i).
Proof.
  intros Hi. unfold index. rewrite (proj2 (Z.leb_le 0 i)) by lia.
  by rewrite (proj2 gf_tables_lookup).
Qed.

Lemma gf_mul_ok a b : fits 8 a -> fits 8 b -> @gf_mul E a b = Ok (mul a b).
Proof.
  intros Ha Hb. unfold gf_mul, mul. destruct ((a =? 0) || (b =? 0)) eqn:Hz; [done|].
  unfold fits in *. rewrite !index_log by lia. cbn [obind].
  pose proof (log_range a ltac:(lia)). pose proof (log_range b ltac:(lia)).
  by rewrite index_exp by lia.
Qed.

Lemma gf_inv_ok a : fits 8 a -> a <> 0 -> @gf_inv E a = Ok (inv a).
Proof.
  intros Ha Hz. unfold gf_inv, gf_div, inv. rewrite (proj2 (Z.eqb_neq a 0)) by done.
  unfold fits in *. change (1 =? 0) with false. cbn iota.
  rewrite !index_log by lia. cbn [obind]. rewrite log_1.
  pose proof (log_range a ltac:(lia)). by rewrite index_exp by lia.
Qed.

Lemma gf_div_ok a b : fits 8 a -> fits 8 b -> b <> 0 -> @gf_div E a b = Ok (mul a (inv b)).
Proof.
  intros Ha Hb Hz. unfold gf_div, mul, inv, fits in *. rewrite (proj2 (Z.eqb_neq b 0)) by done.
  destruct (Z.eqb_spec a 0) as [->|Ha0]; [done|]. cbn [orb].
  pose proof (log_range a ltac:(lia)). pose proof (log_range b ltac:(lia)).
  pose proof (exp_range (255 - logt b) ltac:(lia)).
  rewrite (proj2 (Z.eqb_neq (expt _) 0)) by lia. rewrite !index_log by lia. cbn [obind].
  rewrite index_exp by lia. f_equal. destruct (Z.eq_dec (logt b) 0) as [->|Hb0].
  - replace (255 - 0) with (0 + 255) by lia. rewrite exp_period, log_exp by lia.
    replace (logt a + 255 - 0) with (logt a + 255) by lia. rewrite exp_period by lia. f_equal. lia.
  - rewrite log_exp by lia. f_equal. lia.
Qed.
End reads.

(** ** The field *)

(** Doubling is linear over xor. *)
Lemma lxor_fits a b : fits 8 a -> fits 8 b -> fits 8 (Z.lxor a b).
Proof.
  intros Ha Hb. replace (Z.lxor a b) with (wrap 8 (Z.lxor a b)); [by apply wrap_fits|].
  rewrite <- (wrap_small 8 a), <- (wrap_small 8 b) by done. unfold wrap.
  apply Z.bits_inj'. intros n Hn. destruct (Z.lt_ge_cases n 8).
  - by rewrite Z.mod_pow2_bits_low by lia.
  - by rewrite Z.lxor_spec, !Z.mod_pow2_bits_high by lia.
Qed.

Lemma double_fits a : fits 8 a -> fits 8 (gf_double a).
Proof. intros [H0 H1]. change (2 ^ 8) with 256 in H1. unfold fits. change (2 ^ 8) with 256.
  by_tables 256 (fun i => (0 <=? gf_double i) && (gf_double i <? 256)) a. Qed.

Lemma double_byte a : fits 8 a ->
  gf_double a = Z.lxor (Z.shiftl a 1) (if Z.testbit a 7 then 0x11d else 0).
Proof.
  intros [H0 H1]. change (2 ^ 8) with 256 in H1.
  by_tables 256 (fun a => gf_double a =? Z.lxor (Z.shiftl a 1) (if Z.testbit a 7 then 0x11d else 0)) a.
Qed.

Lemma double_lxor a b : fits 8 a -> fits 8 b ->
  gf_double (Z.lxor a b) = Z.lxor (gf_double a) (gf_double b).
Proof.
  intros Ha Hb. rewrite !double_byte by auto using lxor_fits.
  rewrite Z.shiftl_lxor, Z.lxor_spec. apply Z.bits_inj'. intros n Hn.
  rewrite !Z.lxor_spec. destruct (Z.testbit a 7), (Z.testbit b 7); cbn [xorb];
    rewrite ?Z.bits_0; repeat destruct (Z.testbit _ _); done.
Qed.

(** [a * g^n] by doubling. *)
Lemma double_exp n i : 0 <= i < 255 -> (n <= 255)%nat ->
  Nat.iter n gf_double (expt i) = expt (i + Z.of_nat n).
Proof.
  intros Hi Hn. induction n as [|n IH]; [cbn; f_equal; lia|].
  cbn [Nat.iter nat_rect]. change (nat_rect _ _ _ n) with (Nat.iter n gf_double (expt i)).
  rewrite IH, <- exp_succ by lia. f_equal. lia.
Qed.

Lemma iter_double_lxor n a b : fits 8 a -> fits 8 b ->
  fits 8 (Nat.iter n gf_double a) /\
  Nat.iter n gf_double (Z.lxor a b) = Z.lxor (Nat.iter n gf_double a) (Nat.iter n gf_double b).
Proof.
  intros Ha Hb.
  assert (forall x, fits 8 x -> fits 8 (Nat.iter n gf_double x)) as Hf.
  { intros x Hx. induction n; [done|]. by apply double_fits. }
  split; [auto|]. clear Hf. induction n as [|n IH]; [done|].
  cbn [Nat.iter nat_rect]. fold (Nat.iter n gf_double (Z.lxor a b)). rewrite IH.
  apply double_lxor; clear IH; induction n; [done|by apply double_fits|done|by apply double_fits].
Qed.

(** Multiplication by a non-zero byte is doubling, [log] times. *)
Lemma mul_double a b : fits 8 a -> 0 < b < 256 ->
  mul a b = Nat.iter (Z.to_nat (logt b)) gf_double a.
Proof.
  intros [Ha0 Ha1] Hb. change (2 ^ 8) with 256 in Ha1. unfold mul.
  rewrite (proj2 (Z.eqb_neq b 0)), orb_false_r by lia. pose proof (log_range b ltac:(lia)).
  destruct (Z.eqb_spec a 0) as [->|Hz].
  - induction (Z.to_nat (logt b)) as [|n IH]; [done|]. cbn [Nat.iter nat_rect].
    fold (Nat.iter n gf_double 0). by rewrite <- IH.
  - pose proof (log_range a ltac:(lia)).
    rewrite <- (exp_log a) at 2 by lia. rewrite double_exp by lia. f_equal. lia.
Qed.

Lemma mul_fits a b : fits 8 a -> fits 8 b -> fits 8 (mul a b).
Proof.
  intros Ha Hb. unfold mul. destruct ((a =? 0) || (b =? 0)); [done|].
  unfold fits in *. pose proof (log_range a ltac:(lia)). pose proof (log_range b ltac:(lia)).
  pose proof (exp_range (logt a + logt b) ltac:(lia)). lia.
Qed.

Lemma inv_fits a : fits 8 a -> fits 8 (inv a).
Proof.
  intros Ha. unfold inv, fits in *. pose proof (log_range a ltac:(lia)).
  pose proof (exp_range (255 - logt a) ltac:(lia)). lia.
Qed.

Lemma mul_comm a b : mul a b = mul b a.
Proof. unfold mul. by rewrite orb_comm, Z.add_comm. Qed.

Lemma mul_1_l a : fits 8 a -> mul 1 a = a.
Proof.
  intros Ha. unfold mul, fits in *. change (1 =? 0) with false. cbn [orb].
  destruct (Z.eqb_spec a 0) as [->|]; [done|]. rewrite log_1. apply exp_log. lia.
Qed.

Lemma mul_lxor_l a b c : fits 8 a -> fits 8 b -> fits 8 c ->
  mul (Z.lxor a b) c = Z.lxor (mul a c) (mul b c).
Proof.
  intros Ha Hb Hc. destruct (Z.eq_dec c 0) as [->|Hz].
  { unfold mul. by rewrite !orb_true_r. }
  unfold fits in Hc. rewrite !mul_double by (auto using lxor_fits; lia).
  by apply iter_double_lxor.
Qed.

(** The logarithm of a product, up to the period. *)
Lemma log_mul a b : 0 < a < 256 -> 0 < b < 256 ->
  0 < mul a b < 256 /\ logt (mul a b) = (logt a + logt b) mod 255.
Proof.
  intros Ha Hb. unfold mul. rewrite (proj2 (Z.eqb_neq a 0)), (proj2 (Z.eqb_neq b 0)) by lia.
  cbn [orb]. pose proof (log_range a ltac:(lia)). pose proof (log_range b ltac:(lia)).
  split; [apply exp_range; lia|]. destruct (Z.lt_ge_cases (logt a + logt b) 255).
  - rewrite log_exp, Z.mod_small by lia. done.
  - replace (logt a + logt b) with ((logt a + logt b - 255) + 1 * 255) by lia.
    rewrite Z_mod_plus_full, Z.mod_small by lia.
    replace (_ + 1 * 255) with (logt a + logt b - 255 + 255) by lia.
    rewrite exp_period, log_exp by lia. lia.
Qed.

Lemma log_inj a b : 0 < a < 256 -> 0 < b < 256 -> logt a = logt b -> a = b.
Proof. intros Ha Hb Hl. rewrite <- (exp_log a), <- (exp_log b) by lia. by rewrite Hl. Qed.

Lemma mul_assoc a b c : fits 8 a -> fits 8 b -> fits 8 c -> mul a (mul b c) = mul (mul a b) c.
Proof.
  intros Ha Hb Hc. unfold fits in *.
  destruct (Z.eq_dec a 0) as [->|]; [done|].
  destruct (Z.eq_dec b 0) as [->|]; [unfold mul; by rewrite ?orb_true_r|].
  destruct (Z.eq_dec c 0) as [->|]; [unfold mul; by rewrite ?orb_true_r|].
  destruct (log_mul b c ltac:(lia) ltac:(lia)) as [Hbc Lbc].
  destruct (log_mul a b ltac:(lia) ltac:(lia)) as [Hab Lab].
  destruct (log_mul a (mul b c) ltac:(lia) ltac:(lia)) as [H1 L1].
  destruct (log_mul (mul a b) c ltac:(lia) ltac:(lia)) as [H2 L2].
  apply log_inj; [done..|]. rewrite L1, L2, Lbc, Lab.
  rewrite Zplus_mod_idemp_r, Zplus_mod_idemp_l. f_equal. lia.
Qed.

Lemma mul_inv_l a : fits 8 a -> a <> 0 -> mul (inv a) a = 1.
Proof.
  intros Ha Hz. unfold fits in *. change (2 ^ 8) with 256 in Ha.
  by_tables 256 (fun a => (a =? 0) || (mul (inv a) a =? 1)) a.
Qed.

(** The bytes as a type. *)
Definition gf : Type := dsig (fits 8).
Definition gf_of (z : Z) : gf := dexist (wrap 8 z) (wrap_fits 8 z ltac:(lia)).
Coercion byte_of (x : gf) : Z := proj1_sig x.

Lemma gf_eq (x y : gf) : byte_of x = byte_of y -> x = y.
Proof. apply dsig_eq. Qed.
Lemma byte_fits (x : gf) : fits 8 x.
Proof. apply (proj2_dsig x). Qed.
#[export] Hint Resolve byte_fits : core.

Definition gadd (x y : gf) : gf := dexist (Z.lxor x y) (lxor_fits _ _ (byte_fits x) (byte_fits y)).
Definition gmul (x y : gf) : gf := dexist (mul x y) (mul_fits _ _ (byte_fits x) (byte_fits y)).
Definition ginv (x : gf) : gf := dexist (inv x) (inv_fits _ (byte_fits x)).
Definition g0 : gf := gf_of 0.
Definition g1 : gf := gf_of 1.
Definition gopp (x : gf) : gf := x.
Definition gdiv (x y : gf) : gf := gmul x (ginv y).

Lemma gf_of_byte z : fits 8 z -> byte_of (gf_of z) = z.
Proof. apply wrap_small. Qed.
Lemma gf_of_eta (x : gf) : gf_of x = x.
Proof. apply gf_eq, gf_of_byte, byte_fits. Qed.

Lemma gf_field : field_theory g0 g1 gadd gmul gadd gopp gdiv ginv (@eq gf).
Proof.
  constructor; [constructor| | |].
  - intros x. apply gf_eq. apply Z.lxor_0_l.
  - intros x y. apply gf_eq. apply Z.lxor_comm.
  - intros x y z. apply gf_eq. symmetry. apply Z.lxor_assoc.
  - intros x. apply gf_eq. by apply mul_1_l.
  - intros x y. apply gf_eq. apply mul_comm.
  - intros x y z. apply gf_eq. by apply mul_assoc.
  - intros x y z. apply gf_eq. by apply mul_lxor_l.
  - done.
  - intros x. apply gf_eq. apply Z.lxor_nilpotent.
  - intros H. apply (f_equal byte_of) in H. discriminate H.
  - done.
  - intros x Hx. apply gf_eq. apply mul_inv_l; [done|]. intros H0. apply Hx. by apply gf_eq.
Qed.

(** ** Polynomials over GF(2), the reference *)

(** The carry-less product of two bytes, and the remainder modulo [x^8 + x^4 + x^3 + x^2 + 1]. *)
Definition clmul (a b : Z) : Z :=
  foldr (fun i acc => Z.lxor (if Z.testbit b i then Z.shiftl a i else 0) acc) 0 (seqZ 0 8).
Definition reduce_bit (i r : Z) : Z :=
  Z.lxor r (if Z.testbit r i then Z.shiftl 0x11d (i - 8) else 0).
Definition poly_mod (r : Z) : Z := foldr reduce_bit r (seqZ 8 7).

Lemma reduce_bit_lxor i a b : reduce_bit i (Z.lxor a b) = Z.lxor (reduce_bit i a) (reduce_bit i b).
Proof.
  unfold reduce_bit. rewrite Z.lxor_spec. apply Z.bits_inj'. intros n Hn. rewrite !Z.lxor_spec.
  destruct (Z.testbit a i), (Z.testbit b i); cbn [xorb]; rewrite ?Z.bits_0;
    repeat destruct (Z.testbit _ _); done.
Qed.

Lemma poly_mod_lxor a b : poly_mod (Z.lxor a b) = Z.lxor (poly_mod a) (poly_mod b).
Proof.
  unfold poly_mod. induction (seqZ 8 7) as [|i l IH]; [done|]. cbn [foldr].
  by rewrite IH, reduce_bit_lxor.
Qed.

(** A byte is the xor of its bits, so a product is a xor of products by powers of two. *)
Definition bit_xor (b : Z) (f : Z -> Z) (l : list Z) : Z :=
  foldr (fun i acc => Z.lxor (if Z.testbit b i then f i else 0) acc) 0 l.

Lemma byte_bits b : fits 8 b -> bit_xor b (fun i => 2 ^ i) (seqZ 0 8) = b.
Proof.
  intros [H0 H1]. change (2 ^ 8) with 256 in H1.
  by_tables 256 (fun b => bit_xor b (fun i => 2 ^ i) (seqZ 0 8) =? b) b.
Qed.

Lemma mul_bits a b l : fits 8 a -> Forall (fun i => 0 <= i < 8) l ->
  fits 8 (bit_xor b (fun i => 2 ^ i) l) /\
  mul a (bit_xor b (fun i => 2 ^ i) l) = bit_xor b (fun i => mul a (2 ^ i)) l.
Proof.
  intros Ha. induction 1 as [|i l Hi Hl [IHf IH]].
  { split; [done|]. cbn. rewrite mul_comm. done. }
  cbn [bit_xor foldr]. fold (bit_xor b (fun i => 2 ^ i) l) (bit_xor b (fun i => mul a (2 ^ i)) l).
  assert (fits 8 (if Z.testbit b i then 2 ^ i else 0)) as Hb.
  { destruct (Z.testbit b i); [|done]. split; [lia|]. apply Z.pow_lt_mono_r; lia. }
  split; [by apply lxor_fits|]. rewrite (mul_comm a), mul_lxor_l by done.
  rewrite (mul_comm _ a), (mul_comm _ a), IH. f_equal.
  destruct (Z.testbit b i); [done|]. by rewrite mul_comm.
Qed.

Lemma mul_pow2 a i : fits 8 a -> 0 <= i < 8 -> mul a (2 ^ i) = poly_mod (Z.shiftl a i).
Proof.
  intros [H0 H1] Hi. change (2 ^ 8) with 256 in H1.
  pose proof (all_below_spec 256 (fun a => all_below 8 (fun i =>
    mul a (2 ^ i) =? poly_mod (Z.shiftl a i))) ltac:(vm_compute; reflexivity) a ltac:(lia)) as H.
  pose proof (all_below_spec _ _ H i Hi). cbv beta in *. lia.
Qed.

Lemma mul_poly a b : fits 8 a -> fits 8 b -> mul a b = poly_mod (clmul a b).
Proof.
  intros Ha Hb. rewrite <- (byte_bits b) at 1 by done.
  assert (Forall (fun i => 0 <= i < 8) (seqZ 0 8)) as Hl.
  { apply Forall_forall. intros i. rewrite elem_of_seqZ. lia. }
  rewrite (proj2 (mul_bits a b (seqZ 0 8) Ha Hl)). unfold clmul.
  induction Hl as [|i l Hi Hl IH]; [done|]. cbn [bit_xor foldr].
  rewrite poly_mod_lxor, <- IH. f_equal. destruct (Z.testbit b i); [by apply mul_pow2|done].
Qed.

(** The table-driven arithmetic is the arithmetic of polynomials over GF(2) modulo
    x^8 + x^4 + x^3 + x^2 + 1: on bytes, [gf_mul] returns the remainder of the carry-less
    product, [gf_div] returns the quotient and panics exactly on a zero divisor, and a non-zero
    byte times its [gf_inv] is one. *)
Theorem gf_arithmetic a b : fits 8 a -> fits 8 b ->
  @gf_mul unit a b = Ok (poly_mod (clmul a b)) /\
  (b = 0 -> @gf_div unit a b = Panic) /\
  (b <> 0 -> exists q, @gf_div unit a b = Ok q /\ fits 8 q /\ @gf_mul unit q b = Ok a /\
     exists i, @gf_inv unit b = Ok i /\ @gf_mul unit b i = Ok 1).
Proof.
  intros Ha Hb. split_and!.
  - by rewrite gf_mul_ok, mul_poly.
  - by intros ->.
  - intros Hz. exists (mul a (inv b)). assert (fits 8 (inv b)) by by apply inv_fits.
    assert (fits 8 (mul a (inv b))) by by apply mul_fits.
    rewrite gf_div_ok by done. split_and!; [done..| |].
    + rewrite gf_mul_ok by done. f_equal. rewrite <- mul_assoc, mul_inv_l by done.
      rewrite mul_comm. by apply mul_1_l.
    + exists (inv b). split; [by apply gf_inv_ok|]. rewrite gf_mul_ok, mul_comm by done.
      f_equal. by apply mul_inv_l.
Qed.

Module GfExamples.
Lemma gf_arithmetic_witness : @gf_mul unit 0x53 0xCA = Ok (poly_mod (clmul 0x53 0xCA)) /\
  @gf_mul unit 0x53 0xCA = Ok 143.
Proof. split; [apply gf_arithmetic; unfold fits; lia|vm_compute; reflexivity]. Defined.
End GfExamples.
