(* ===== verification/GfMatrix.v ===== *)
(** * Matrices over GF(2^8), transport/fec.rs

    [GfMatrix] as the code has it, a row-major buffer, and Gauss-Jordan inversion. The loops are
    shown to compute the row operations of [LinAlg], so [invert] returns a left inverse, and
    it returns one whenever the matrix has no kernel. *)

From Stdlib Require Import Field.
From S2P Require Import Prelude LinAlg Gf256.

Module GfMatrix.

Record t := mk { rows : Z; cols : Z; data : bytes }.

Definition zeros (rows cols : Z) : t := mk rows cols (replicate (Z.to_nat (rows * cols)) 0).

Definition get (m : t) (r c : Z) : pure Z := index (data m) (r * cols m + c).

Definition set (m : t) (r c val : Z) : pure t :=
  let? d := write_at (data m) (r * cols m + c) val in Ok (mk (rows m) (cols m) d).

(** Parity row [i], column [j]: [1 / (i ^ (rows + j))]. *)
Definition cauchy (rows cols : Z) : pure t :=
  for_range 0 rows (fun i m =>
    let x := wrap 8 i in
    for_range 0 cols (fun j m =>
      let y := wrap 8 (rows + j) in
      let denom := Z.lxor x y in
      if denom =? 0 then Panic
      else let? v := gf_inv denom in set m i j v) m) (zeros rows cols).

(** The augmented matrix [A | I]. *)
Definition augment (m : t) (n : Z) : pure t :=
  for_range 0 n (fun r aug =>
    let? aug := for_range 0 n (fun c aug => let? v := get m r c in set aug r c v) aug in
    set aug r (n + r) 1) (zeros n (2 * n)).

(** [while pivot_row < n && aug.get(pivot_row, col) == 0 { pivot_row += 1; }] *)
Fixpoint find_pivot (fuel : nat) (aug : t) (n col pivot_row : Z) : pure Z :=
  match fuel with
  | O => Panic
  | S fuel =>
      if pivot_row <? n then
        let? v := get aug pivot_row col in
        if v =? 0 then find_pivot fuel aug n col (pivot_row + 1) else Ok pivot_row
      else Ok pivot_row
  end.

Definition swap_rows (aug : t) (n col pivot_row : Z) : pure t :=
  for_range 0 (2 * n) (fun c aug =>
    let? tmp := get aug col c in
    let? p := get aug pivot_row c in
    let? aug := set aug col c p in
    set aug pivot_row c tmp) aug.

Definition normalize_row (aug : t) (n col : Z) : pure t :=
  let? pivot_val := get aug col col in
  let? inv_pivot := gf_inv pivot_val in
  for_range 0 (2 * n) (fun c aug =>
    let? v := get aug col c in
    let? w := gf_mul v inv_pivot in
    set aug col c w) aug.

Definition eliminate_row (aug : t) (n col r factor : Z) : pure t :=
  for_range 0 (2 * n) (fun c aug =>
    let? v := get aug col c in
    let? sub := gf_mul factor v in
    let? w := get aug r c in
    set aug r c (gf_sub w sub)) aug.

Definition eliminate (aug : t) (n col : Z) : pure t :=
  for_range 0 n (fun r aug =>
    if r =? col then Ok aug
    else
      let? factor := get aug r col in
      if factor =? 0 then Ok aug else eliminate_row aug n col r factor) aug.

(** The loop over the columns; [None] is the early return for a singular matrix. *)
Fixpoint reduce (columns : list Z) (n : Z) (aug : t) : pure (option t) :=
  match columns with
  | [] => Ok (Some aug)
  | col :: columns =>
      let? pivot_row := find_pivot (Z.to_nat (n - col) + 1) aug n col col in
      if pivot_row =? n then Ok None
      else
        let? aug := (if pivot_row =? col then Ok aug else swap_rows aug n col pivot_row) in
        let? aug := normalize_row aug n col in
        let? aug := eliminate aug n col in
        reduce columns n aug
  end.

Definition right_half (aug : t) (n : Z) : pure t :=
  for_range 0 n (fun r inv =>
    for_range 0 n (fun c inv => let? v := get aug r (n + c) in set inv r c v) inv) (zeros n n).

Definition invert (m : t) : pure (option t) :=
  if negb (rows m =? cols m) then Panic
  else
    let n := rows m in
    let? aug := augment m n in
    let? res := reduce (seqZ 0 n) n aug in
    match res with
    | None => Ok None
    | Some aug => let? inv := right_half aug n in Ok (Some inv)
    end.

(** ** Matrices as functions *)

(** [mat m R C f]: [m] is an [R] by [C] matrix with entry [f r c] at row [r], column [c]. *)
Record mat (m : t) (R C : Z) (f : Z -> Z -> gf) : Prop := {
  mat_rows : rows m = R;
  mat_cols : cols m = C;
  mat_len : zlen (data m) = R * C;
  mat_at : forall r c, 0 <= r < R -> 0 <= c < C ->
    data m !! Z.to_nat (r * C + c) = Some (byte_of (f r c))
}.

Definition upd (f : Z -> Z -> gf) (r c : Z) (x : gf) : Z -> Z -> gf :=
  fun r' c' => if decide (r' = r /\ c' = c) then x else f r' c'.

Lemma pos_bound R C r c : 0 <= r < R -> 0 <= c < C -> 0 <= r * C + c < R * C.
Proof. nia. Qed.

Lemma pos_inj C r c r' c' : 0 <= r -> 0 <= r' -> 0 <= c < C -> 0 <= c' < C ->
  r * C + c = r' * C + c' -> r = r' /\ c = c'.
Proof. intros. assert (r = r') by nia. split; [done|]. nia. Qed.

Lemma mat_ext m R C f g : mat m R C f ->
  (forall r c, 0 <= r < R -> 0 <= c < C -> f r c = g r c) -> mat m R C g.
Proof.
  intros [Hr Hc Hl Ha] Hfg. split; [done..|]. intros r c Hr' Hc'. by rewrite Ha, Hfg by done.
Qed.

Lemma get_ok m R C f r c : mat m R C f -> 0 <= r < R -> 0 <= c < C ->
  get m r c = Ok (byte_of (f r c)).
Proof.
  intros Hm Hr Hc. unfold get, index. rewrite (mat_cols _ _ _ _ Hm).
  pose proof (pos_bound R C r c Hr Hc). rewrite (proj2 (Z.leb_le 0 _)) by lia.
  by rewrite (mat_at _ _ _ _ Hm).
Qed.

Lemma set_ok m R C f r c (x : gf) : mat m R C f -> 0 <= r < R -> 0 <= c < C ->
  returns (set m r c x) (fun m' => mat m' R C (upd f r c x)).
Proof.
  intros Hm Hr Hc. unfold set, write_at. destruct Hm as [Hmr Hmc Hl Ha]. rewrite Hmc, Hl.
  pose proof (pos_bound R C r c Hr Hc).
  rewrite (proj2 (Z.leb_le 0 _)), (proj2 (Z.ltb_lt _ _)) by lia. cbn [andb obind returns].
  split; cbn; [done..| |].
  - by rewrite zlen_insert.
  - intros r' c' Hr' Hc'. unfold upd. case_decide as Hd.
    + destruct Hd as [-> ->]. apply list_lookup_insert_eq. unfold zlen in Hl. lia.
    + rewrite list_lookup_insert_ne, Ha by
        (try done; pose proof (pos_bound R C r' c' Hr' Hc'); intros Heq; apply Hd;
         apply (pos_inj C); lia). done.
Qed.

Lemma zeros_ok R C : 0 <= R -> 0 <= C -> mat (zeros R C) R C (fun _ _ => g0).
Proof.
  intros HR HC. split; cbn; [done..| |].
  - rewrite zlen_replicate. nia.
  - intros r c Hr Hc. pose proof (pos_bound R C r c Hr Hc).
    apply lookup_replicate. split; [done|]. lia.
Qed.

(** A loop over the columns whose round [c] rewrites column [c] from the old column [c]. *)
Lemma columns_loop (body : Z -> t -> pure t) R C f h m N :
  0 <= N <= C -> mat m R C f ->
  (forall c m g, 0 <= c < N -> mat m R C g -> (forall r, 0 <= r < R -> g r c = f r c) ->
     returns (body c m) (fun m' =>
       mat m' R C (fun r' c' => if decide (c' = c) then h r' c' else g r' c'))) ->
  returns (for_range 0 N body m) (fun m' =>
    mat m' R C (fun r' c' => if decide (c' < N) then h r' c' else f r' c')).
Proof.
  intros HN Hm Hb. refine (for_range_inv body
    (fun c m => mat m R C (fun r' c' => if decide (c' < c) then h r' c' else f r' c')) 0 N m _ _ _).
  - lia.
  - apply (mat_ext _ _ _ _ _ Hm). intros. by rewrite decide_False by lia.
  - intros c m' Hc Hm'. eapply returns_mono; [apply (Hb c m' _ Hc Hm')|].
    + intros r Hr. by rewrite decide_False by lia.
    + intros m'' Hm''. apply (mat_ext _ _ _ _ _ Hm''). intros r' c' _ _.
      cbv beta. destruct (decide (c' = c)) as [->|]; [by rewrite decide_True by lia|].
      destruct (decide (c' < c)); [by rewrite decide_True by lia|by rewrite decide_False by lia].
Qed.

(** A loop over the rows whose round [r] rewrites row [r]. *)
Lemma rows_loop (body : Z -> t -> pure t) R C f h m N :
  0 <= N <= R -> mat m R C f ->
  (forall r m g, 0 <= r < N -> mat m R C g ->
     (forall r' c, 0 <= c < C -> r <= r' < R -> g r' c = f r' c) ->
     (forall r' c, 0 <= c < C -> 0 <= r' < r -> g r' c = h r' c) ->
     returns (body r m) (fun m' =>
       mat m' R C (fun r' c' => if decide (r' = r) then h r' c' else g r' c'))) ->
  returns (for_range 0 N body m) (fun m' =>
    mat m' R C (fun r' c' => if decide (r' < N) then h r' c' else f r' c')).
Proof.
  intros HN Hm Hb. refine (for_range_inv body
    (fun r m => mat m R C (fun r' c' => if decide (r' < r) then h r' c' else f r' c')) 0 N m _ _ _).
  - lia.
  - apply (mat_ext _ _ _ _ _ Hm). intros. by rewrite decide_False by lia.
  - intros r m' Hr Hm'. eapply returns_mono; [apply (Hb r m' _ Hr Hm')|].
    + intros. by rewrite decide_False by lia.
    + intros. by rewrite decide_True by lia.
    + intros m'' Hm''. apply (mat_ext _ _ _ _ _ Hm''). intros r' c' _ _.
      cbv beta. destruct (decide (r' = r)) as [->|]; [by rewrite decide_True by lia|].
      destruct (decide (r' < r)); [by rewrite decide_True by lia|by rewrite decide_False by lia].
Qed.

(** A loop over a row: round [c] writes [x c], which it computes from the old column [c]. *)
Lemma row_loop (body : Z -> t -> pure t) R C f (i : Z) (x : Z -> gf) m N :
  0 <= N <= C -> 0 <= i < R -> mat m R C f ->
  (forall c m g, 0 <= c < N -> mat m R C g -> (forall r, 0 <= r < R -> g r c = f r c) ->
     returns (body c m) (fun m' => mat m' R C (upd g i c (x c)))) ->
  returns (for_range 0 N body m) (fun m' =>
    mat m' R C (fun r' c' => if decide (r' = i /\ c' < N) then x c' else f r' c')).
Proof.
  intros HN Hi Hm Hb. eapply returns_mono; [apply (columns_loop body R C f
    (fun r' c' => if decide (r' = i) then x c' else f r' c') m N HN Hm)|].
  - intros c m' g Hc Hm' Hg. apply (returns_mono _ _ _ (Hb c m' g Hc Hm' Hg)).
    intros m'' Hm''. apply (mat_ext _ _ _ _ _ Hm''). intros r' c' Hr' Hc'. unfold upd.
    repeat case_decide; naive_solver.
  - intros m' Hm'. apply (mat_ext _ _ _ _ _ Hm'). intros r' c' Hr' Hc'. cbv beta.
    repeat case_decide; naive_solver.
Qed.

Lemma gf_mul_gf (x y : gf) : @gf_mul Empty_set x y = Ok (byte_of (gmul x y)).
Proof. by apply gf_mul_ok. Qed.

Lemma gf_inv_gf (x : gf) : x <> g0 -> @gf_inv Empty_set x = Ok (byte_of (ginv x)).
Proof. intros Hx. apply gf_inv_ok; [done|]. intros H0. by apply Hx, gf_eq. Qed.

Lemma byte_eqb_0 (x : gf) : (byte_of x =? 0) = bool_decide (x = g0).
Proof.
  destruct (Z.eqb_spec x 0) as [H|H].
  - rewrite bool_decide_true; [done|]. by apply gf_eq.
  - rewrite bool_decide_false; [done|]. intros ->. by apply H.
Qed.

(** Reads and arithmetic on entries of a matrix in hand. *)
Ltac entry :=
  repeat match goal with
  | Hm : mat ?m _ _ _ |- context [get ?m ?r ?c] =>
      rewrite (get_ok m _ _ _ r c Hm) by lia; cbn [obind]
  | |- context [gf_mul (byte_of _) (byte_of _)] => rewrite gf_mul_gf; cbn [obind]
  end.
Ltac entry_set :=
  lazymatch goal with
  | Hm : mat ?m _ _ _ |- returns (set ?m ?r ?c _) _ =>
      eapply returns_mono; [apply (set_ok m _ _ _ r c _ Hm); lia|]
  end.

(** The Cauchy matrix: the points [0..R] for the rows, [R..R+C] for the columns. *)
Definition cauchy_entry (R i j : Z) : gf := ginv (gadd (gf_of i) (gf_of (R + j))).

Lemma gf_of_inj a b : fits 8 a -> fits 8 b -> gf_of a = gf_of b -> a = b.
Proof. intros Ha Hb H. by rewrite <- (gf_of_byte a), <- (gf_of_byte b), H by done. Qed.

Lemma gadd_eq_0 x y : gadd x y = g0 -> x = y.
Proof.
  intros H. apply gf_eq. apply (f_equal byte_of) in H. apply Z.lxor_eq. exact H.
Qed.

Lemma gadd_self x : gadd x x = g0.
Proof. apply gf_eq, Z.lxor_nilpotent. Qed.

Lemma cauchy_ok R C : 0 <= R -> 0 <= C -> R + C <= 256 ->
  returns (cauchy R C) (fun m => mat m R C (cauchy_entry R)).
Proof.
  intros HR HC Hsum. unfold cauchy. eapply returns_mono.
  - refine (rows_loop _ R C _ (cauchy_entry R) _ R ltac:(lia) (zeros_ok R C HR HC) _).
    intros i m g Hi Hm _ _. eapply returns_mono.
    + refine (row_loop _ R C g i (cauchy_entry R i) m C ltac:(lia) Hi Hm _).
      intros j m' g' Hj Hm' _. cbv zeta beta.
      set (x := gadd (gf_of i) (gf_of (R + j))). change (Z.lxor _ _) with (byte_of x).
      assert (x <> g0) as Hx.
      { intros H0. apply gadd_eq_0, gf_of_inj in H0; unfold fits; lia. }
      rewrite byte_eqb_0, bool_decide_false by done. rewrite gf_inv_gf by done. cbn [obind].
      by entry_set.
    + intros m' Hm'. apply (mat_ext _ _ _ _ _ Hm'). intros r' c' Hr' Hc'. cbv beta.
      repeat case_decide; naive_solver.
  - intros m Hm. apply (mat_ext _ _ _ _ _ Hm). intros r' c' Hr' Hc'. cbv beta.
    by rewrite decide_True by lia.
Qed.

Definition delta (r c : Z) : gf := if decide (r = c) then g1 else g0.

Lemma augment_ok m n A : 0 <= n -> mat m n n A ->
  returns (augment m n) (fun aug => mat aug n (2 * n)
    (fun r c => if decide (c < n) then A r c else delta r (c - n))).
Proof.
  intros Hn Hm. unfold augment. eapply returns_mono.
  - refine (rows_loop _ n (2 * n) _
      (fun r c => if decide (c < n) then A r c else delta r (c - n)) _ n ltac:(lia)
      (zeros_ok n (2 * n) ltac:(lia) ltac:(lia)) _).
    intros r aug g Hr Hg Hold _. apply returns_bind. eapply returns_mono.
    + refine (row_loop _ n (2 * n) g r (A r) aug n ltac:(lia) Hr Hg _).
      intros c aug' g' Hc Hg' _. entry. by entry_set.
    + intros aug' Hg'. cbv beta in Hg'. change 1 with (byte_of g1). entry_set.
      intros aug'' Hg''. apply (mat_ext _ _ _ _ _ Hg''). intros r' c' Hr' Hc'.
      unfold upd, delta. destruct (decide (r' = r)) as [->|].
      * destruct (decide (c' < n)).
        { rewrite decide_False, decide_True by lia. done. }
        destruct (decide (r = c' - n)).
        { rewrite decide_True by lia. done. }
        rewrite decide_False, decide_False, Hold by lia. done.
      * rewrite !decide_False by lia. done.
  - intros aug Haug. apply (mat_ext _ _ _ _ _ Haug). intros r c Hr Hc. cbv beta.
    by rewrite decide_True by lia.
Qed.

Lemma right_half_ok aug n f : 0 <= n -> mat aug n (2 * n) f ->
  returns (right_half aug n) (fun m => mat m n n (fun r c => f r (n + c))).
Proof.
  intros Hn Hf. unfold right_half. eapply returns_mono.
  - refine (rows_loop _ n n _ (fun r c => f r (n + c)) _ n ltac:(lia)
      (zeros_ok n n ltac:(lia) ltac:(lia)) _).
    intros r m g Hr Hm _ _. eapply returns_mono.
    + refine (row_loop _ n n g r (fun c => f r (n + c)) m n ltac:(lia) Hr Hm _).
      intros c m' g' Hc Hm' _. entry. by entry_set.
    + intros m' Hm'. apply (mat_ext _ _ _ _ _ Hm'). intros r' c' Hr' Hc'. cbv beta.
      repeat case_decide; naive_solver.
  - intros m Hm. apply (mat_ext _ _ _ _ _ Hm). intros r c Hr Hc. cbv beta.
    by rewrite decide_True by lia.
Qed.

Definition swapped (i j r : Z) : Z := if decide (r = i) then j else if decide (r = j) then i else r.

Lemma swap_rows_ok aug n f i j : 0 <= i < n -> 0 <= j < n -> i <> j -> mat aug n (2 * n) f ->
  returns (swap_rows aug n i j) (fun m => mat m n (2 * n) (fun r c => f (swapped i j r) c)).
Proof.
  intros Hi Hj Hij Hf. unfold swap_rows. eapply returns_mono.
  - refine (columns_loop _ n (2 * n) f (fun r c => f (swapped i j r) c) aug (2 * n) ltac:(lia) Hf _).
    intros c m g Hc Hm Hg. entry. apply returns_bind. entry_set.
    intros m' Hm'. cbv beta in Hm'. entry_set. intros m'' Hm''. apply (mat_ext _ _ _ _ _ Hm'').
    intros r' c' Hr' Hc'. unfold upd, swapped. rewrite !Hg by lia.
    repeat case_decide; naive_solver lia.
  - intros m Hm. apply (mat_ext _ _ _ _ _ Hm). intros r c Hr Hc. cbv beta.
    by rewrite decide_True by lia.
Qed.

Lemma normalize_row_ok aug n f i : 0 <= i < n -> f i i <> g0 -> mat aug n (2 * n) f ->
  returns (normalize_row aug n i) (fun m => mat m n (2 * n)
    (fun r c => if decide (r = i) then gmul (f r c) (ginv (f i i)) else f r c)).
Proof.
  intros Hi Hp Hf. unfold normalize_row. entry. rewrite gf_inv_gf by done. cbn [obind].
  eapply returns_mono.
  - refine (row_loop _ n (2 * n) f i (fun c => gmul (f i c) (ginv (f i i))) aug (2 * n) ltac:(lia) Hi Hf _).
    intros c m g Hc Hm Hg. entry. rewrite Hg by lia. by entry_set.
  - intros m Hm. apply (mat_ext _ _ _ _ _ Hm). intros r c Hr Hc. cbv beta.
    repeat case_decide; naive_solver lia.
Qed.

Lemma eliminate_row_ok aug n f i r k : 0 <= i < n -> 0 <= r < n -> r <> i -> mat aug n (2 * n) f ->
  returns (eliminate_row aug n i r (byte_of k)) (fun m => mat m n (2 * n)
    (fun r' c => if decide (r' = r) then gadd (f r c) (gmul k (f i c)) else f r' c)).
Proof.
  intros Hi Hr Hri Hf. unfold eliminate_row. eapply returns_mono.
  - refine (row_loop _ n (2 * n) f r (fun c => gadd (f r c) (gmul k (f i c))) aug (2 * n) ltac:(lia) Hr Hf _).
    intros c m g Hc Hm Hg. entry. rewrite !Hg by lia.
    change (gf_sub (byte_of ?a) (byte_of ?b)) with (byte_of (gadd a b)). by entry_set.
  - intros m Hm. apply (mat_ext _ _ _ _ _ Hm). intros r' c Hr' Hc. cbv beta.
    repeat case_decide; naive_solver lia.
Qed.

Lemma find_pivot_ok aug n f col : 0 <= col < n -> mat aug n (2 * n) f ->
  forall fuel p, col <= p <= n -> (Z.to_nat (n - p) + 1)%nat = fuel ->
  (forall r, col <= r < p -> f r col = g0) ->
  returns (find_pivot fuel aug n col p) (fun q => col <= q <= n /\
    (forall r, col <= r < q -> f r col = g0) /\ (q < n -> f q col <> g0)).
Proof.
  intros Hcol Hm fuel. induction fuel as [|fuel IH]; intros p Hp Hfuel Hz; [lia|].
  cbn [find_pivot]. destruct (Z.ltb_spec p n); [|cbn; repeat split; [lia..|done|lia]].
  entry. rewrite byte_eqb_0. case_bool_decide as Hd.
  - apply IH; [lia|lia|]. intros r Hr. destruct (Z.eq_dec r p) as [->|]; [done|]. apply Hz. lia.
  - cbn. repeat split; [lia..|done|done].
Qed.

(** ** Inversion *)

Section invert.
Context (n : Z) (Hn : 0 <= n) (A : Z -> Z -> gf).
Abbreviation idx := (seqZ 0 n).
Abbreviation has_kernel_only_0 := (no_kernel g0 gadd gmul idx A).
Add Field gf_carrier : gf_field.

(** The augmented matrix is a combination of the rows of [A | I], and its first [k] columns are
    unit columns. *)
Definition reduced (k : Z) (f : Z -> Z -> gf) : Prop :=
  gauss_inv g0 gadd gmul idx A f (fun r c => f r (n + c)) /\
  (forall r c, 0 <= r < n -> 0 <= c < k -> f r c = delta r c).

Lemma idx_spec r : r ∈ idx <-> 0 <= r < n.
Proof. rewrite elem_of_seqZ. lia. Qed.
Lemma idx_nodup : NoDup idx.
Proof. apply NoDup_seqZ. Qed.

Lemma gauss_inv_ext L R L' R' :
  (forall r c, 0 <= r < n -> 0 <= c < n -> L r c = L' r c) ->
  (forall r c, 0 <= r < n -> 0 <= c < n -> R r c = R' r c) ->
  gauss_inv g0 gadd gmul idx A L R -> gauss_inv g0 gadd gmul idx A L' R'.
Proof.
  intros HL HR [Hl Hk]. split.
  - intros r c Hr Hc. rewrite <- HL, Hl by (first [done | by apply idx_spec]).
    apply ssum_ext. intros t Ht. rewrite HR by (by apply idx_spec). done.
  - intros v Hv. apply Hk. intros r Hr. etrans; [|exact (Hv r Hr)]. apply ssum_ext.
    intros c Hc. rewrite HL by (by apply idx_spec). done.
Qed.

Lemma swap_reduced f col p : 0 <= col <= p -> p < n -> reduced col f ->
  reduced col (fun r c => f (swapped col p r) c).
Proof.
  intros Hcol Hp [Hg Hu]. split.
  - apply (gauss_swap _ _ _ _ _ _ _ _ gf_field _ _ _ _ col p) in Hg;
      [|by apply idx_spec; lia..]. exact Hg.
  - intros r c Hr Hc. unfold swapped. repeat case_decide; subst; rewrite Hu by lia;
      unfold delta; repeat case_decide; try done; lia.
Qed.

Lemma scale_reduced f col k : 0 <= col < n -> k <> g0 -> reduced col f ->
  reduced col (fun r c => if decide (r = col) then gmul (f r c) k else f r c).
Proof.
  intros Hcol Hk [Hg Hu]. split.
  - apply (gauss_scale _ _ _ _ _ _ _ _ gf_field _ _ _ _ col k) in Hg;
      [|by apply idx_spec|done]. exact Hg.
  - intros r c Hr Hc. case_decide; subst; rewrite Hu by lia; [|done].
    unfold delta. rewrite decide_False by lia. ring.
Qed.

Lemma elim_reduced f col r0 k : 0 <= col < n -> 0 <= r0 < n -> r0 <> col -> reduced col f ->
  reduced col (fun r c => if decide (r = r0) then gadd (f r0 c) (gmul k (f col c)) else f r c).
Proof.
  intros Hcol Hr0 Hne [Hg Hu]. split.
  - apply (gauss_elim _ _ _ _ _ _ _ _ gf_field _ _ _ _ col r0 k) in Hg;
      [|by apply idx_spec; lia..|done].
    revert Hg. apply gauss_inv_ext; intros; by case_decide; subst.
  - intros r c Hr Hc. case_decide; subst; rewrite !Hu by lia; [|done].
    unfold delta. rewrite (decide_False (P := col = c)) by lia. ring.
Qed.

Lemma eliminate_ok aug f col : 0 <= col < n -> mat aug n (2 * n) f -> reduced col f ->
  f col col = g1 ->
  returns (eliminate aug n col) (fun m => exists f', mat m n (2 * n) f' /\ reduced (col + 1) f').
Proof.
  intros Hcol Hm Hf H1. unfold eliminate. eapply returns_mono.
  - refine (for_range_inv _ (fun r m => exists g, mat m n (2 * n) g /\ reduced col g /\
      g col col = g1 /\ (forall r', 0 <= r' < r -> g r' col = delta r' col)) 0 n aug Hn _ _).
    + exists f. split_and!; [done..|]. lia.
    + intros r m Hr (g & Hg & Hgr & Hg1 & Hdone). cbv beta.
      assert (Hkeep : g r col = delta r col -> forall r', 0 <= r' < r + 1 -> g r' col = delta r' col).
      { intros Hd r' Hr'. destruct (Z.eq_dec r' r) as [->|]; [done|]. apply Hdone. lia. }
      destruct (Z.eqb_spec r col) as [->|Hrc].
      { apply returns_ok. exists g. split_and!; [done..|]. apply Hkeep.
        rewrite Hg1. unfold delta. by rewrite decide_True. }
      entry. rewrite byte_eqb_0. case_bool_decide as Hz.
      { apply returns_ok. exists g. split_and!; [done..|]. apply Hkeep.
        rewrite Hz. unfold delta. by rewrite decide_False. }
      eapply returns_mono; [by apply (eliminate_row_ok m n g col r (g r col))|].
      intros m' Hm'. cbv beta in Hm'. eexists. split; [exact Hm'|]. split; [by apply elim_reduced|].
      split; [by rewrite decide_False by lia|]. intros r' Hr'. case_decide; subst; [|apply Hdone; lia].
      rewrite Hg1. unfold delta. rewrite decide_False by done.
      replace (gmul (g r col) g1) with (g r col) by ring. apply gadd_self.
  - intros m (g & Hg & [Hgr Hgu] & _ & Hdone). exists g. split; [done|]. split; [done|].
    intros r c Hr Hc. destruct (Z.eq_dec c col) as [->|]; [by apply Hdone|]. apply Hgu; lia.
Qed.

Lemma reduce_ok (k : Z) aug f : 0 <= k <= n -> mat aug n (2 * n) f -> reduced k f ->
  returns (reduce (seqZ k (n - k)) n aug) (fun o =>
    match o with
    | Some m => exists f', mat m n (2 * n) f' /\ reduced n f'
    | None => ~ has_kernel_only_0
    end).
Proof.
  remember (Z.to_nat (n - k)) as d eqn:Hd. revert k aug f Hd.
  induction d as [|d IH]; intros k aug f Hd Hk Hm Hf.
  { rewrite seqZ_nil by lia. cbn. exists f. replace n with k at 3 by lia. done. }
  rewrite seqZ_cons by lia. cbn [reduce]. apply returns_bind.
  eapply returns_mono; [apply (find_pivot_ok aug n f k ltac:(lia) Hm _ k); [lia|done|lia]|].
  intros p (Hp & Hz & Hnz). destruct (Z.eqb_spec p n) as [->|Hpn].
  - cbn. intros Hker. destruct Hf as [Hg Hu].
    refine (gauss_stuck _ _ _ _ _ _ _ _ gf_field _ idx_nodup A f _ (seqZ 0 k) k Hg Hker _ _ _ _ _ _).
    + intros c. rewrite !elem_of_seqZ. lia.
    + apply idx_spec. lia.
    + rewrite elem_of_seqZ. lia.
    + apply NoDup_seqZ.
    + intros r c Hr%idx_spec. rewrite elem_of_seqZ. intros Hc. apply Hu; lia.
    + intros r Hr%idx_spec. rewrite elem_of_seqZ. intros Hc. apply Hz. lia.
  - apply returns_bind. apply (returns_mono _ (fun m => exists g, mat m n (2 * n) g /\
      reduced k g /\ g k k <> g0)).
    { destruct (Z.eqb_spec p k) as [->|Hpk].
      - apply returns_ok. exists f. auto with lia.
      - eapply returns_mono; [apply (swap_rows_ok aug n f k p); done || lia|].
        intros m Hm'. eexists. split; [exact Hm'|]. split; [apply swap_reduced; done || lia|].
        unfold swapped. rewrite decide_True by done. apply Hnz. lia. }
    intros aug' (g & Hg & Hgr & Hgk). apply returns_bind.
    eapply returns_mono; [apply (normalize_row_ok aug' n g k); done || lia|].
    intros aug2 Hm2. cbv beta in Hm2. apply returns_bind.
    eapply returns_mono; [apply (eliminate_ok aug2 _ k ltac:(lia) Hm2)|].
    + apply scale_reduced; [lia| |done]. intros H0. apply (F_1_neq_0 gf_field).
      transitivity (gmul (g k k) (ginv (g k k))); [|rewrite H0; ring]. field. done.
    + rewrite decide_True by done. field. done.
    + intros aug3 (f' & Hf' & Hr'). replace (Z.pred (n - k)) with (n - (k + 1)) by lia.
      apply (IH (k + 1) aug3 f'); done || lia.
Qed.

Lemma reduced_start : reduced 0 (fun r c => if decide (c < n) then A r c else delta r (c - n)).
Proof.
  split; [|lia].
  eapply gauss_inv_ext; [| |apply (gauss_start _ _ _ _ _ _ _ _ gf_field idx idx_nodup A)].
  - intros r c Hr Hc. cbv beta. by rewrite decide_True by lia.
  - intros r c Hr Hc. cbv beta. rewrite (decide_False (P := n + c < n)) by lia. unfold delta.
    by replace (n + c - n) with c by lia.
Qed.

(** [invert] returns a left inverse, or reports a singular matrix; it does the former for
    every matrix whose kernel is zero. *)
Lemma invert_ok m : mat m n n A ->
  returns (invert m) (fun o =>
    match o with
    | Some m' => exists R, mat m' n n R /\ left_inverse g0 g1 gadd gmul idx R A
    | None => ~ has_kernel_only_0
    end).
Proof.
  intros Hm. unfold invert. rewrite (mat_rows _ _ _ _ Hm), (mat_cols _ _ _ _ Hm), Z.eqb_refl.
  cbn [negb]. apply returns_bind, (returns_mono _ _ _ (augment_ok m n A Hn Hm)).
  intros aug Haug. apply returns_bind.
  pose proof (reduce_ok 0 aug _ (conj (Z.le_refl 0) Hn) Haug reduced_start) as Hred.
  rewrite Z.sub_0_r in Hred. apply (returns_mono _ _ _ Hred).
  intros [aug'|]; [|done]. intros (f & Hf & Hg & Hu).
  apply returns_bind, (returns_mono _ _ _ (right_half_ok aug' n f Hn Hf)).
  intros m' Hm'. cbn. eexists. split; [exact Hm'|].
  apply (gauss_done _ _ _ _ _ _ _ _ Hg). intros r c Hr%idx_spec Hc%idx_spec. by apply Hu.
Qed.

Lemma left_inverse_kernel R : left_inverse g0 g1 gadd gmul idx R A -> has_kernel_only_0.
Proof.
  intros Hinv v Hker c Hc.
  rewrite <- (left_inverse_apply _ _ _ _ _ _ _ _ gf_field idx idx_nodup R A v c Hinv Hc).
  apply (ssum_0 _ _ _ _ _ _ _ _ gf_field). intros t Ht. rewrite Hker by done. ring.
Qed.

(** Gauss-Jordan inversion: on a square matrix of bytes [invert] returns without a panic; it
    returns a matrix exactly when only the zero vector is in the kernel, and the matrix it
    returns is a left inverse. *)
Theorem invert_correct m : mat m n n A -> exists o, invert m = Ok o /\
  (is_Some o <-> no_kernel g0 gadd gmul idx A) /\
  (forall m', o = Some m' -> exists R, mat m' n n R /\ left_inverse g0 g1 gadd gmul idx R A).
Proof.
  intros Hm. destruct (returns_inv _ _ (invert_ok m Hm)) as (o & Ho & Hspec). exists o.
  split; [done|]. destruct o as [m'|].
  - split; [|intros m'' [= <-]; done]. split; [|done]. intros _.
    destruct Hspec as (R & _ & HR). by apply (left_inverse_kernel R).
  - split; [|done]. split; [by intros []|]. intros Hk. by destruct Hspec.
Qed.
End invert.
End GfMatrix.

Module GfMatrixExamples.
Definition ex : GfMatrix.t := GfMatrix.mk 2 2 [1; 2; 3; 4].
Definition ex_entry (r c : Z) : gf := gf_of (default 0 (GfMatrix.data ex !! Z.to_nat (r * 2 + c))).

Lemma ex_mat : GfMatrix.mat ex 2 2 ex_entry.
Proof.
  split; [done..|]. intros r c Hr Hc. unfold ex_entry.
  assert (r = 0 \/ r = 1) as [-> | ->] by lia; assert (c = 0 \/ c = 1) as [-> | ->] by lia;
    vm_compute; reflexivity.
Qed.

Lemma invert_correct_witness : exists m', GfMatrix.invert ex = Ok (Some m') /\
  exists R, GfMatrix.mat m' 2 2 R /\ left_inverse g0 g1 gadd gmul (seqZ 0 2) R ex_entry.
Proof.
  destruct (GfMatrix.invert_correct 2 ltac:(lia) ex_entry ex ex_mat) as (o & Ho & _ & Hinv).
  vm_compute in Ho. injection Ho as <-. eexists. split; [vm_compute; reflexivity|]. by apply Hinv.
Defined.
End GfMatrixExamples.
