(* ===== verification/Fec.v ===== *)
(** * Forward error correction, transport/fec.rs

    The systematic codec ([FecCodec]) and the block layer on top of it. A code symbol is a
    linear combination of the source symbols; [gen] is the row of coefficients of the symbol
    with a given index. Any [k] distinct rows have no kernel, so [decode] gets the sources back
    from any [k] distinct symbols. *)

From Stdlib Require Import Field.
From S2P Require Import Prelude LinAlg Gf256 GfMatrix.

Record FecSymbol := mkSymbol { sym_index : Z; sym_data : bytes }.

(** ** The codec *)

Module FecCodec.

Record t := mk { k : Z; m : Z; cauchy_matrix : GfMatrix.t }.

Definition new (k m : Z) : pure t :=
  if negb (0 <? k) then Panic
  else if negb (k + m <=? 256) then Panic
  else
    let? mat := (if 0 <? m then GfMatrix.cauchy m k else Ok (GfMatrix.zeros 0 k)) in
    Ok (mk k m mat).

(** [for (d, s) in dst.iter_mut().zip(src.iter()) { *d ^= *s; }] *)
Fixpoint xor_zip (dst src : bytes) : bytes :=
  match dst, src with
  | d :: dst', s :: src' => Z.lxor d s :: xor_zip dst' src'
  | _, _ => dst
  end.
(** [for (d, s) in dst.iter_mut().zip(src.iter()) { *d = *s; }] *)
Fixpoint copy_zip (dst src : bytes) : bytes :=
  match dst, src with
  | _ :: dst', s :: src' => s :: copy_zip dst' src'
  | _, _ => dst
  end.

(** [for b in 0..symbol_len { acc[b] = gf_add(acc[b], gf_mul(coeff, src[b])); }] *)
Definition mul_acc (coeff : Z) (src : bytes) (symbol_len : Z) (acc : bytes) : pure bytes :=
  for_range 0 symbol_len (fun b acc =>
    let? a := index acc b in
    let? s := index src b in
    let? v := gf_mul coeff s in
    write_at acc b (gf_add a v)) acc.

(** Round [i] of the loop over the repair symbols. *)
Definition parity_row (c : t) (source_symbols : list bytes) (symbol_len i : Z) : pure bytes :=
  for_range 0 (k c) (fun j parity =>
    let? coeff := GfMatrix.get (cauchy_matrix c) i j in
    if coeff =? 0 then Ok parity
    else
      let? src := index source_symbols j in
      mul_acc coeff src symbol_len parity) (replicate (Z.to_nat symbol_len) 0).

Definition encode (c : t) (source_symbols : list bytes) : pure (list FecSymbol) :=
  if negb (zlen source_symbols =? k c) then Panic
  else if m c =? 0 then Ok []
  else
    let? first := index source_symbols 0 in
    let symbol_len := zlen first in
    if negb (forallb (fun s => zlen s =? symbol_len) source_symbols) then Panic
    else if m c =? 1 then
      let parity := foldl xor_zip (replicate (Z.to_nat symbol_len) 0) source_symbols in
      Ok [mkSymbol (k c) parity]
    else
      for_range 0 (m c) (fun i repair =>
        let? parity := parity_row c source_symbols symbol_len i in
        Ok (repair ++ [mkSymbol (k c + i) parity])) [].

(** Deduplication by index: the distinct symbols in order of arrival, and the flags. *)
Definition dedup (total : Z) (received : list FecSymbol) : pure (list FecSymbol * list bool) :=
  for_each received (fun s (st : list FecSymbol * list bool) =>
    let '(distinct, seen) := st in
    if sym_index s <? total then
      let? was := index seen (sym_index s) in
      if negb was then
        let? seen := write_at seen (sym_index s) true in
        Ok (distinct ++ [s], seen)
      else Ok (distinct, seen)
    else Ok (distinct, seen)) ([], replicate (Z.to_nat total) false).

(** The loop with [break] that tests [seen[0..k]]. *)
Definition all_source_present (k : Z) (seen : list bool) : pure bool :=
  for_range 0 k (fun i (ok : bool) => if ok then index seen i else Ok false) true.

(** [(0..k).find(|&i| !seen[i])] *)
Definition find_missing (k : Z) (seen : list bool) : pure (option Z) :=
  for_range 0 k (fun i (o : option Z) =>
    match o with
    | Some x => Ok (Some x)
    | None => let? b := index seen i in Ok (if negb b then Some i else None)
    end) None.

(** [for s in distinct { if s.index < k { result[s.index] = s.data; } }] *)
Definition place_sources (k : Z) (distinct : list FecSymbol) (result : list bytes) : pure (list bytes) :=
  for_each distinct (fun s result =>
    if sym_index s <? k then write_at result (sym_index s) (sym_data s) else Ok result) result.

(** The equations of the selected symbols. *)
Definition submatrix (c : t) (selected : list FecSymbol) : pure GfMatrix.t :=
  let? ' (_, sub) :=
    for_each selected (fun sym (st : Z * GfMatrix.t) =>
      let '(row_idx, sub) := st in
      let? sub :=
        (if sym_index sym <? k c then GfMatrix.set sub row_idx (sym_index sym) 1
         else
           let parity_row := sym_index sym - k c in
           for_range 0 (k c) (fun col sub =>
             let? v := GfMatrix.get (cauchy_matrix c) parity_row col in
             GfMatrix.set sub row_idx col v) sub) in
      Ok (row_idx + 1, sub)) (0, GfMatrix.zeros (k c) (k c)) in
  Ok sub.

(** The inverted matrix times the received vectors. *)
Definition solve (c : t) (inv : GfMatrix.t) (selected : list FecSymbol) (symbol_len : Z)
  : pure (list bytes) :=
  for_range 0 (k c) (fun src_idx result =>
    for_range 0 (k c) (fun col_idx result =>
      let? coeff := GfMatrix.get inv src_idx col_idx in
      if coeff =? 0 then Ok result
      else
        let? sym := index selected col_idx in
        let? row := index result src_idx in
        let? row := mul_acc coeff (sym_data sym) symbol_len row in
        write_at result src_idx row) result)
    (replicate (Z.to_nat (k c)) (replicate (Z.to_nat symbol_len) 0)).

(** One lost source symbol and the xor parity. *)
Definition recover_one (c : t) (distinct : list FecSymbol) (symbol_len missing : Z)
  : pure (option (list bytes)) :=
  match List.find (fun s => sym_index s =? k c) distinct with
  | None => Panic
  | Some parity_sym =>
      let reconstructed := copy_zip (replicate (Z.to_nat symbol_len) 0) (sym_data parity_sym) in
      let reconstructed := foldl (fun r s =>
        if (sym_index s <? k c) && negb (sym_index s =? missing) then xor_zip r (sym_data s) else r)
        reconstructed distinct in
      let? result := place_sources (k c) distinct (replicate (Z.to_nat (k c)) []) in
      let? result := write_at result missing reconstructed in
      Ok (Some result)
  end.

(** The general path: invert the equations of the first [k] distinct symbols. *)
Definition decode_general (c : t) (distinct : list FecSymbol) (symbol_len : Z)
  : pure (option (list bytes)) :=
  let? selected := slice distinct 0 (k c) in
  let? sub := submatrix c selected in
  let? inv := GfMatrix.invert sub in
  match inv with
  | None => Ok None
  | Some inv => let? result := solve c inv selected symbol_len in Ok (Some result)
  end.

Definition decode (c : t) (received : list FecSymbol) : pure (option (list bytes)) :=
  if zlen received <? k c then Ok None
  else
    let? ' (distinct, seen) := dedup (k c + m c) received in
    if zlen distinct <? k c then Ok None
    else
      let? d0 := index distinct 0 in
      let symbol_len := zlen (sym_data d0) in
      let? all := all_source_present (k c) seen in
      if all then
        let? result := place_sources (k c) distinct (replicate (Z.to_nat (k c)) []) in
        Ok (Some result)
      else if m c =? 1 then
        let? missing_idx := find_missing (k c) seen in
        let? has_parity := index seen (k c) in
        match missing_idx, has_parity with
        | Some missing, true => recover_one c distinct symbol_len missing
        | _, _ => decode_general c distinct symbol_len
        end
      else decode_general c distinct symbol_len.
End FecCodec.

(** ** Blocks *)

Record FecBlockHeader := mkHeader {
  h_block_id : Z; h_original_len : Z; h_k : Z; h_m : Z; h_symbol_size : Z }.

Record FecRecoveryReport := mkReport {
  r_block_id : Z; r_k : Z; r_m : Z; received_source_count : Z; received_repair_count : Z;
  lost_source_count : Z; recovered_source_count : Z; is_successful : bool; bytes_recovered : Z }.

(** [a.div_ceil(b)] *)
Definition div_ceil (a b : Z) : Z := if a mod b =? 0 then a / b else a / b + 1.

Module FecBlock.

(** Source symbol [i]: the slice of the data, padded with zeros. *)
Definition source_symbol (data : bytes) (symbol_size i : Z) : pure bytes :=
  let original_len := zlen data in
  let start := i * symbol_size in
  let end_ := Z.min (start + symbol_size) original_len in
  let sym := replicate (Z.to_nat symbol_size) 0 in
  if start <? original_len then
    let? sl := slice data start end_ in
    copy_into sym 0 (zlen sl) sl
  else Ok sym.

Definition encode_block (block_id : Z) (data : bytes) (k m : Z)
  : pure (FecBlockHeader * list FecSymbol) :=
  if negb (0 <? k) then Panic
  else
    let original_len := zlen data in
    let symbol_size := Z.max (div_ceil original_len k) 1 in
    let? sources := for_range 0 k (fun i sources =>
      let? sym := source_symbol data symbol_size i in Ok (sources ++ [sym])) [] in
    let? codec := FecCodec.new k m in
    let? repair_symbols := FecCodec.encode codec sources in
    let all_symbols := imap (fun i s => mkSymbol (Z.of_nat i) s) sources ++ repair_symbols in
    Ok (mkHeader block_id original_len k m symbol_size, all_symbols).

Definition count (p : FecSymbol -> bool) (l : list FecSymbol) : Z := zlen (List.filter p l).

Definition decode_block (header : FecBlockHeader) (received : list FecSymbol)
  : pure (option bytes * FecRecoveryReport) :=
  let k := h_k header in
  let m := h_m header in
  let source_count := count (fun s => sym_index s <? k) received in
  let repair_count := count (fun s => negb (sym_index s <? k) && (sym_index s <? k + m)) received in
  let lost_source := saturating_sub k source_count in
  let? codec := FecCodec.new k m in
  let? decoded_symbols := FecCodec.decode codec received in
  let is_successful := match decoded_symbols with Some _ => true | None => false end in
  let recovered_count := if is_successful && (0 <? lost_source) then lost_source else 0 in
  let bytes_recovered := recovered_count * h_symbol_size header in
  let report := mkReport (h_block_id header) k m source_count repair_count lost_source
    recovered_count is_successful bytes_recovered in
  let data := (fun symbols : list bytes =>
    take (Z.to_nat (h_original_len header)) (mjoin symbols)) <$> decoded_symbols in
  Ok (data, report).
End FecBlock.

(** ** Vectors of bytes as functions *)

Section codec.
Add Field gf_carrier : gf_field.
Abbreviation Σ := (ssum g0 gadd).

Definition vec (v : bytes) (L : Z) (f : Z -> gf) : Prop :=
  zlen v = L /\ forall b, 0 <= b < L -> v !! Z.to_nat b = Some (byte_of (f b)).

Lemma vec_ext v L f g : vec v L f -> (forall b, 0 <= b < L -> f b = g b) -> vec v L g.
Proof. intros [Hl Hv] Hfg. split; [done|]. intros b Hb. by rewrite Hv, Hfg. Qed.

Lemma vec_inj v w L f : vec v L f -> vec w L f -> v = w.
Proof.
  intros [Hl Hv] [Hl' Hw]. apply list_eq_same_length with (length v); [unfold zlen in *; lia|done|].
  intros i x y Hi Hx Hy. specialize (Hv (Z.of_nat i)). specialize (Hw (Z.of_nat i)).
  rewrite Nat2Z.id in Hv, Hw. unfold zlen in *. rewrite Hv in Hx by lia. rewrite Hw in Hy by lia.
  congruence.
Qed.

Lemma vec_zero L : 0 <= L -> vec (replicate (Z.to_nat L) 0) L (fun _ => g0).
Proof.
  intros HL. split; [rewrite zlen_replicate; lia|]. intros b Hb.
  apply lookup_replicate. split; [done|lia].
Qed.

Lemma vec_of_bytes v : is_bytes v -> vec v (zlen v) (fun b => gf_of (default 0 (v !! Z.to_nat b))).
Proof.
  intros Hv. split; [done|]. intros b Hb.
  destruct (lookup_lt_is_Some_2 v (Z.to_nat b)) as [x Hx]; [unfold zlen in *; lia|].
  rewrite Hx. f_equal. symmetry. apply gf_of_byte. by eapply (Forall_lookup_1 _ _ _ _ Hv).
Qed.

Lemma mul_acc_ok (coeff : gf) src acc L f g : 0 <= L -> vec src L g -> vec acc L f ->
  returns (FecCodec.mul_acc coeff src L acc) (fun v => vec v L (fun b => gadd (f b) (gmul coeff (g b)))).
Proof.
  intros HL [Hsl Hs] Ha. unfold FecCodec.mul_acc. eapply returns_mono.
  - refine (for_range_inv _ (fun c acc => vec acc L (fun b =>
      if decide (b < c) then gadd (f b) (gmul coeff (g b)) else f b)) 0 L acc HL _ _).
    + apply (vec_ext _ _ _ _ Ha). intros b Hb. by rewrite decide_False by lia.
    + intros c v Hc [Hvl Hv]. cbv beta. rewrite (index_ok v c _ (proj1 Hc) (Hv c Hc)). cbn [obind].
      rewrite (index_ok src c _ (proj1 Hc) (Hs c Hc)). cbn [obind]. rewrite GfMatrix.gf_mul_gf.
      cbn [obind]. rewrite (decide_False (P := c < c)) by lia. rewrite write_at_ok by lia. cbn [returns].
      split; [by rewrite zlen_insert|]. intros b Hb. unfold zlen in Hvl. destruct (decide (b = c)) as [->|].
      * rewrite list_lookup_insert_eq by lia. by rewrite decide_True by lia.
      * rewrite list_lookup_insert_ne, Hv by lia. f_equal. f_equal. repeat case_decide; try done; lia.
  - intros v Hv. apply (vec_ext _ _ _ _ Hv). intros b Hb. by rewrite decide_True by lia.
Qed.

Lemma zip_loop_vec (op : Z -> Z -> Z) (opg : gf -> gf -> gf) (zip : bytes -> bytes -> bytes) v w L f g :
  (forall d dst s src, zip (d :: dst) (s :: src) = op d s :: zip dst src) -> (zip [] [] = []) ->
  (forall x y : gf, op (byte_of x) (byte_of y) = byte_of (opg x y)) ->
  vec v L f -> vec w L g -> vec (zip v w) L (fun b => opg (f b) (g b)).
Proof.
  intros Hzip Hnil Hop. revert w L f g. induction v as [|x v IH]; intros [|y w] L f g [Hl Hv] [Hl' Hw].
  - rewrite Hnil. split; [done|]. unfold zlen in Hl. cbn in Hl. lia.
  - unfold zlen in *. cbn in *. lia.
  - unfold zlen in *. cbn in *. lia.
  - assert (vec v (L - 1) (fun b => f (b + 1)) /\ vec w (L - 1) (fun b => g (b + 1))) as [Hv' Hw'].
    { split; (split; [unfold zlen in *; cbn in *; lia|]); intros b Hb;
        [specialize (Hv (b + 1) ltac:(lia))|specialize (Hw (b + 1) ltac:(lia))];
        by replace (Z.to_nat (b + 1)) with (S (Z.to_nat b)) in * by lia. }
    rewrite Hzip. destruct (IH w (L - 1) _ _ Hv' Hw') as [Hzl Hz]. split; [rewrite zlen_cons; lia|].
    intros b Hb. destruct (decide (b = 0)) as [->|Hne].
    + cbn. specialize (Hv 0 ltac:(lia)). specialize (Hw 0 ltac:(lia)). cbn in Hv, Hw.
      injection Hv as ->. injection Hw as ->. by rewrite Hop.
    + replace (Z.to_nat b) with (S (Z.to_nat (b - 1))) by lia. cbn [lookup list_lookup].
      rewrite Hz by lia. by replace (b - 1 + 1) with b by lia.
Qed.

Lemma xor_zip_vec v w L f g : vec v L f -> vec w L g ->
  vec (FecCodec.xor_zip v w) L (fun b => gadd (f b) (g b)).
Proof. by apply (zip_loop_vec Z.lxor). Qed.

Lemma copy_zip_vec v w L f g : vec v L f -> vec w L g -> vec (FecCodec.copy_zip v w) L g.
Proof. by apply (zip_loop_vec (fun _ y => y) (fun _ y => y)). Qed.

(** ** Coded symbols *)

Section code.
Context (k m L : Z) (Hk : 0 < k) (Hm : 0 <= m) (Hkm : k + m <= 256) (HL : 0 <= L).
Context (src : Z -> Z -> gf) (par : Z -> Z -> gf).

(** The coefficients of the symbol with index [i]: a source, or row [i - k] of the parity [par]. *)
Definition gen (i j : Z) : gf := if decide (i < k) then GfMatrix.delta i j else par (i - k) j.
(** The parity rows are those of the Cauchy matrix. *)
Definition cauchy_code : Prop := forall i j, par i j = GfMatrix.cauchy_entry m i j.
(** The parity of [FecCodec]: an xor for one repair symbol, the Cauchy rows for more. *)
Definition fec_code : Prop := (m = 1 -> forall i j, par i j = g1) /\ (m <> 1 -> cauchy_code).

Definition coded (i b : Z) : gf := Σ (seqZ 0 k) (fun j => gmul (gen i j) (src j b)).

(** A symbol of the code word of [src]. *)
Definition genuine (s : FecSymbol) : Prop :=
  0 <= sym_index s < k + m /\ vec (sym_data s) L (coded (sym_index s)).

(** [srcs] are the source symbols. *)
Definition sources (srcs : list bytes) : Prop :=
  zlen srcs = k /\ forall j, 0 <= j < k -> exists v, srcs !! Z.to_nat j = Some v /\ vec v L (src j).

Lemma coded_source i b : 0 <= i < k -> coded i b = src i b.
Proof.
  intros Hi. unfold coded.
  erewrite (ssum_ext _ _ _ _ (fun j => if decide (j = i) then src j b else g0)).
  - apply (ssum_delta _ _ _ _ _ _ _ _ gf_field (seqZ 0 k) i (fun j => src j b));
      [apply NoDup_seqZ|rewrite elem_of_seqZ; lia].
  - intros j _. unfold gen, GfMatrix.delta. rewrite (decide_True (P := i < k)) by lia.
    repeat case_decide; subst; try congruence; ring.
Qed.

(** Any [k] distinct rows of the code have no kernel. *)
Lemma code_no_kernel (sel : list Z) (A : Z -> Z -> gf) :
  zlen sel = k -> NoDup sel -> Forall (fun i => 0 <= i < k + m) sel -> cauchy_code ->
  (forall r i, sel !! r = Some i -> forall c, 0 <= c < k -> A (Z.of_nat r) c = gen i c) ->
  no_kernel g0 gadd gmul (seqZ 0 k) A.
Proof.
  intros Hlen Hnd Hin Hm1 HA v Hker.
  assert (Hrow : forall i, i ∈ sel -> Σ (seqZ 0 k) (fun c => gmul (gen i c) (v c)) = g0).
  { intros i Hi. apply list_elem_of_lookup in Hi as [r Hr].
    assert (Hr' := lookup_lt_Some _ _ _ Hr). unfold zlen in Hlen.
    etrans; [|apply (Hker (Z.of_nat r)); rewrite elem_of_seqZ; lia].
    apply ssum_ext. intros c Hc%elem_of_seqZ. by rewrite (HA r i Hr) by lia. }
  assert (Hsrc : forall i, i ∈ sel -> i < k -> v i = g0).
  { intros i Hi Hik. rewrite <- (Hrow i Hi). symmetry.
    rewrite Forall_forall in Hin. specialize (Hin i Hi).
    erewrite (ssum_ext _ _ _ _ (fun j => if decide (j = i) then v j else g0)).
    - apply (ssum_delta _ _ _ _ _ _ _ _ gf_field (seqZ 0 k) i v); [apply NoDup_seqZ|rewrite elem_of_seqZ; lia].
    - intros j _. unfold gen, GfMatrix.delta. rewrite (decide_True (P := i < k)) by lia.
      repeat case_decide; subst; try congruence; ring. }
  set (lost := filter (fun j => j ∉ sel) (seqZ 0 k)).
  set (rep := filter (fun i => ~ i < k) sel).
  set (near := filter (fun i => i < k) sel).
  assert (Hlost : forall j, j ∈ lost -> v j = g0).
  { apply (cauchy_kernel _ _ _ _ _ _ _ _ gf_field lost (fun j => gf_of (m + j)) v
      ((fun i => gf_of (i - k)) <$> rep)).
    - apply NoDup_fmap_2_strong; [|apply NoDup_filter, NoDup_seqZ].
      intros x y [_ Hx%elem_of_seqZ]%list_elem_of_filter [_ Hy%elem_of_seqZ]%list_elem_of_filter Hxy.
      apply GfMatrix.gf_of_inj in Hxy; unfold fits; lia.
    - apply NoDup_fmap_2_strong; [|by apply NoDup_filter].
      rewrite Forall_forall in Hin.
      intros x y [Hx Hx'%Hin]%list_elem_of_filter [Hy Hy'%Hin]%list_elem_of_filter Hxy.
      apply GfMatrix.gf_of_inj in Hxy; unfold fits; lia.
    - rewrite length_fmap.
      assert (length rep + length near = length sel)%nat as H1.
      { rewrite <- (Permutation_length (filter_app_complement (fun i => i < k) sel)).
        rewrite length_app. unfold rep, near. lia. }
      assert (length lost + length near <= Z.to_nat k)%nat as H2.
      { rewrite <- (length_seqZ 0 k), <- length_app. apply submseteq_length, NoDup_submseteq.
        - apply NoDup_app. split_and!; [apply NoDup_filter, NoDup_seqZ| |by apply NoDup_filter].
          intros x [Hx _]%list_elem_of_filter [_ Hx']%list_elem_of_filter. done.
        - rewrite Forall_forall in Hin. intros x [[_ Hx]%list_elem_of_filter|[Hx Hx']%list_elem_of_filter]%elem_of_app;
            [done|]. specialize (Hin x Hx'). rewrite elem_of_seqZ. lia. }
      unfold zlen in Hlen. lia.
    - intros x j (i & -> & Hi)%list_elem_of_fmap [_ Hj%elem_of_seqZ]%list_elem_of_filter Heq.
      apply list_elem_of_filter in Hi as [Hik Hi]. rewrite Forall_forall in Hin. specialize (Hin i Hi).
      apply GfMatrix.gf_of_inj in Heq; unfold fits; lia.
    - intros x (i & -> & [Hik Hi]%list_elem_of_filter)%list_elem_of_fmap.
      etrans; [|apply (Hrow i Hi)].
      rewrite (ssum_filter _ _ _ _ _ _ _ _ gf_field (seqZ 0 k) (fun j => j ∉ sel)).
      + apply ssum_ext. intros j Hj. unfold gen. rewrite (decide_False (P := i < k)) by done.
        rewrite Hm1. unfold GfMatrix.cauchy_entry, gdiv. ring.
      + intros j Hj%elem_of_seqZ Hs. apply dec_stable in Hs. rewrite Hsrc by (done || lia). ring. }
  intros c Hc. destruct (decide (c ∈ sel)) as [Hs|Hs].
  - apply Hsrc; [done|]. apply elem_of_seqZ in Hc. lia.
  - apply Hlost, list_elem_of_filter. done.
Qed.

Lemma sources_unique a b : sources a -> sources b -> a = b.
Proof.
  intros [Hla Ha] [Hlb Hb]. apply list_eq_same_length with (length a); [unfold zlen in *; lia|done|].
  intros i x y Hi Hx Hy. destruct (Ha (Z.of_nat i)) as (v & Hv & Hvv); [unfold zlen in *; lia|].
  destruct (Hb (Z.of_nat i)) as (w & Hw & Hww); [unfold zlen in *; lia|].
  rewrite Nat2Z.id in *. assert (v = x) as <- by congruence. assert (w = y) as <- by congruence.
  by apply (vec_inj _ _ L (src (Z.of_nat i))).
Qed.

Lemma sum_snoc j (f : Z -> gf) : 0 <= j -> Σ (seqZ 0 (j + 1)) f = gadd (Σ (seqZ 0 j) f) (f j).
Proof.
  intros Hj. rewrite seqZ_app by lia. rewrite (ssum_app _ _ _ _ _ _ _ _ gf_field).
  rewrite (seqZ_cons _ 1), (seqZ_nil _ (Z.pred 1)) by lia. cbn. replace (0 + j) with j by lia. ring.
Qed.

(** ** Encoding *)

Definition codec_ok (c : FecCodec.t) : Prop :=
  FecCodec.k c = k /\ FecCodec.m c = m /\
  (0 < m -> GfMatrix.mat (FecCodec.cauchy_matrix c) m k (GfMatrix.cauchy_entry m)).

Lemma codec_new_ok : returns (FecCodec.new k m) codec_ok.
Proof.
  unfold FecCodec.new. rewrite (proj2 (Z.ltb_lt 0 k)), (proj2 (Z.leb_le (k + m) 256)) by done.
  cbn [negb]. apply returns_bind. destruct (Z.ltb_spec 0 m).
  - eapply returns_mono; [apply GfMatrix.cauchy_ok; lia|]. by intros mx Hmx.
  - cbn. split_and!; [done..|lia].
Qed.

Lemma foldl_xor_vec (vs : list bytes) (base : Z) acc f :
  vec acc L f ->
  (forall i v, vs !! i = Some v -> vec v L (src (base + Z.of_nat i))) ->
  vec (foldl FecCodec.xor_zip acc vs) L
    (fun b => gadd (f b) (Σ (seqZ base (zlen vs)) (fun j => src j b))).
Proof.
  revert base acc f. induction vs as [|v vs IH]; intros base acc f Hacc Hvs; cbn [foldl].
  - apply (vec_ext _ _ _ _ Hacc). intros b _. rewrite seqZ_nil by done. cbn. ring.
  - eapply vec_ext; [apply (IH (base + 1)); [apply xor_zip_vec; [exact Hacc|]|]|].
    + replace base with (base + Z.of_nat 0) at 1 by lia. by apply (Hvs 0%nat v).
    + intros i w Hw. replace (base + 1 + Z.of_nat i) with (base + Z.of_nat (S i)) by lia.
      by apply (Hvs (S i)).
    + intros b _. cbv beta. rewrite zlen_cons, (seqZ_cons base) by (pose proof (zlen_nonneg vs); lia).
      replace (Z.pred (1 + zlen vs)) with (zlen vs) by lia. replace (Z.succ base) with (base + 1) by lia.
      rewrite ssum_cons, Z.add_0_r. ring.
Qed.

Lemma parity_row_ok c srcs i : codec_ok c -> sources srcs -> 0 <= i < m ->
  returns (FecCodec.parity_row c srcs L i) (fun v => vec v L
    (fun b => Σ (seqZ 0 k) (fun j => gmul (GfMatrix.cauchy_entry m i j) (src j b)))).
Proof.
  intros (Hck & Hcm & Hmat) [Hsl Hs] Hi. unfold FecCodec.parity_row. rewrite Hck.
  specialize (Hmat ltac:(lia)).
  refine (for_range_inv _ (fun c v => vec v L (fun b =>
    Σ (seqZ 0 c) (fun j => gmul (GfMatrix.cauchy_entry m i j) (src j b)))) 0 k _ ltac:(lia) _ _).
  - apply (vec_ext _ _ _ _ (vec_zero L HL)). intros b _. by rewrite seqZ_nil.
  - intros j v Hj Hv. cbv beta. rewrite (GfMatrix.get_ok _ _ _ _ i j Hmat) by lia. cbn [obind].
    rewrite GfMatrix.byte_eqb_0. case_bool_decide as Hz.
    + cbn. apply (vec_ext _ _ _ _ Hv). intros b _. rewrite sum_snoc, Hz by lia. ring.
    + destruct (Hs j Hj) as (w & Hw & Hwv). rewrite (index_ok _ j _ (proj1 Hj) Hw). cbn [obind].
      eapply returns_mono; [by apply (mul_acc_ok _ _ _ _ _ _ HL Hwv Hv)|].
      intros v' Hv'. apply (vec_ext _ _ _ _ Hv'). intros b _. by rewrite sum_snoc by lia.
Qed.

(** [rep] are the repair symbols, with their indices. *)
Definition repairs (rep : list FecSymbol) : Prop :=
  zlen rep = m /\ forall i, 0 <= i < m -> exists s, rep !! Z.to_nat i = Some s /\
    sym_index s = k + i /\ genuine s.

Lemma encode_ok c srcs : fec_code -> codec_ok c -> sources srcs -> returns (FecCodec.encode c srcs) repairs.
Proof.
  intros [Hx Hca] Hc Hsrcs. pose proof Hc as (Hck & Hcm & _). pose proof Hsrcs as [Hsl Hs].
  unfold FecCodec.encode. rewrite Hck, Hcm, Hsl, Z.eqb_refl. cbn [negb].
  destruct (Z.eqb_spec m 0) as [Hm0|Hm0].
  { cbn. split; [done|]. lia. }
  destruct (Hs 0 ltac:(lia)) as (v0 & Hv0 & Hvv0).
  rewrite (index_ok srcs 0 v0) by done. cbn [obind]. rewrite (proj1 Hvv0).
  assert (forallb (fun s => zlen s =? L) srcs = true) as ->.
  { apply forallb_forall. intros s Hin%list_elem_of_In. apply list_elem_of_lookup in Hin as [i Hi].
    pose proof (lookup_lt_Some _ _ _ Hi). destruct (Hs (Z.of_nat i)) as (w & Hw & [Hwl _]).
    { unfold zlen in *; lia. }
    rewrite Nat2Z.id in Hw. assert (w = s) as -> by congruence. lia. }
  cbn [negb]. destruct (Z.eqb_spec m 1) as [Hm1|Hm1].
  - cbn. split; [done|]. intros i Hi. replace i with 0 by lia. cbn. eexists. split; [done|].
    split; [cbn; lia|]. split; [cbn; lia|]. cbn [sym_index sym_data].
    eapply vec_ext; [apply (foldl_xor_vec srcs 0 _ _ (vec_zero L HL))|].
    + intros i' v Hv. pose proof (lookup_lt_Some _ _ _ Hv).
      destruct (Hs (Z.of_nat i')) as (w & Hw & Hwv); [unfold zlen in *; lia|].
      rewrite Nat2Z.id in Hw. assert (w = v) as -> by congruence. exact Hwv.
    + intros b _. cbv beta. rewrite Hsl. unfold coded.
      rewrite (ssum_ext _ _ _ (fun j => gmul (gen k j) (src j b)) (fun j => src j b)); [ring|].
      intros j _. unfold gen. rewrite decide_False, Hx by lia. ring.
  - refine (for_range_inv _ (fun c rep => zlen rep = c /\ forall i, 0 <= i < c -> exists s,
      rep !! Z.to_nat i = Some s /\ sym_index s = k + i /\ genuine s) 0 m _ Hm _ _).
    + split; [done|lia].
    + intros i rep Hi [Hrl Hr]. apply returns_bind.
      apply (returns_mono _ _ _ (parity_row_ok c srcs i Hc Hsrcs Hi)). intros v Hv. cbn [returns].
      split; [rewrite zlen_app, Hrl; done|]. intros i' Hi'. unfold zlen in Hrl.
      destruct (decide (i' = i)) as [->|].
      * exists (mkSymbol (k + i) v). rewrite lookup_app_r by lia.
        replace (Z.to_nat i - length rep)%nat with 0%nat by lia. cbn. split_and!; [done..|].
        split; [cbn; lia|]. cbn. apply (vec_ext _ _ _ _ Hv). intros b _. unfold coded.
        apply ssum_ext. intros j _. unfold gen. rewrite (decide_False (P := k + i < k)) by lia.
        rewrite Hca by done. by replace (k + i - k) with i by lia.
      * rewrite lookup_app_l by lia. apply Hr. lia.
Qed.

(** ** Decoding *)

Definition ids (l : list FecSymbol) : list Z := sym_index <$> l.

(** The distinct symbols and the flags that [dedup] returns for genuine symbols. *)
Definition dedup_spec (received distinct : list FecSymbol) (seen : list bool) : Prop :=
  NoDup (ids distinct) /\ (forall i, i ∈ ids distinct <-> i ∈ ids received) /\
  Forall genuine distinct /\ zlen seen = k + m /\
  (forall i, 0 <= i < k + m -> seen !! Z.to_nat i = Some (bool_decide (i ∈ ids distinct))).

Lemma dedup_ok received : Forall genuine received ->
  returns (FecCodec.dedup (k + m) received) (fun st => dedup_spec received st.1 st.2).
Proof.
  intros Hgen. unfold FecCodec.dedup.
  refine (for_each_inv _ (fun d st => dedup_spec d st.1 st.2) received [] _ _ _).
  - split_and!; cbn; [constructor|done|constructor| |].
    + rewrite zlen_replicate. lia.
    + intros i Hi. rewrite bool_decide_false by set_solver. apply lookup_replicate. split; [done|lia].
  - intros d s r [distinct seen] Heq (Hnd & Hids & Hg & Hsl & Hseen). cbn [fst snd] in *.
    assert (genuine s) as Hs.
    { rewrite Forall_forall in Hgen. apply Hgen. cbn in Heq. rewrite Heq. set_solver. }
    pose proof Hs as [Hi _]. rewrite (proj2 (Z.ltb_lt _ _)) by lia.
    rewrite (index_ok _ _ _ (proj1 Hi) (Hseen _ Hi)). cbn [obind].
    assert (forall i, i ∈ ids (d ++ [s]) <-> i = sym_index s \/ i ∈ ids distinct) as Hd.
    { intros i. unfold ids in *. rewrite fmap_app, elem_of_app, <- Hids. cbn. set_solver. }
    case_bool_decide as Hin; cbn [negb returns fst snd].
    + split_and!; [done| |done..]. intros i. rewrite Hd. naive_solver.
    + rewrite write_at_ok by lia. cbn [obind returns fst snd]. unfold dedup_spec, ids.
      rewrite (fmap_app _ distinct). split_and!.
      * apply NoDup_app. split_and!; [done| |apply NoDup_singleton]. unfold ids in *. cbn. set_solver.
      * intros i. fold (ids (d ++ [s])). rewrite Hd, elem_of_app. unfold ids. cbn. set_solver.
      * apply Forall_app. split; [done|]. by apply Forall_singleton.
      * by rewrite zlen_insert.
      * intros i Hi'. unfold zlen in Hsl. destruct (decide (i = sym_index s)) as [->|Hne].
        { rewrite list_lookup_insert_eq by lia. rewrite bool_decide_true; [done|]. cbn. set_solver. }
        rewrite list_lookup_insert_ne, Hseen by lia. f_equal. apply bool_decide_ext.
        unfold ids. rewrite elem_of_app. cbn. set_solver.
Qed.

Lemma all_present_ok received distinct seen : dedup_spec received distinct seen ->
  returns (FecCodec.all_source_present k seen)
    (fun ok => ok = true <-> forall i, 0 <= i < k -> i ∈ ids distinct).
Proof.
  intros (_ & _ & _ & _ & Hseen). unfold FecCodec.all_source_present.
  refine (for_range_inv _ (fun c ok => ok = true <-> forall i, 0 <= i < c -> i ∈ ids distinct)
    0 k true ltac:(lia) _ _).
  - split; [lia|done].
  - intros i ok Hi Hok. destruct ok.
    + rewrite (index_ok _ _ _ (proj1 Hi) (Hseen i ltac:(lia))). cbn. rewrite bool_decide_eq_true. split.
      * intros Hin i' Hi'. destruct (decide (i' = i)) as [->|]; [done|]. apply Hok; [done|lia].
      * intros Hall. apply Hall. lia.
    + cbn. split; [done|]. intros Hall. apply Hok. intros i' Hi'. apply Hall. lia.
Qed.

Lemma find_missing_ok received distinct seen : dedup_spec received distinct seen ->
  returns (FecCodec.find_missing k seen) (fun o =>
    match o with
    | Some i => 0 <= i < k /\ i ∉ ids distinct
    | None => forall i, 0 <= i < k -> i ∈ ids distinct
    end).
Proof.
  intros (_ & _ & _ & _ & Hseen). unfold FecCodec.find_missing.
  refine (for_range_inv _ (fun c o => match o with
    | Some i => 0 <= i < k /\ i ∉ ids distinct
    | None => forall i, 0 <= i < c -> i ∈ ids distinct end) 0 k None ltac:(lia) _ _).
  - lia.
  - intros i [x|] Hi Ho; [done|]. rewrite (index_ok _ _ _ (proj1 Hi) (Hseen i ltac:(lia))). cbn.
    case_bool_decide as Hin; cbn; [|split; [lia|done]].
    intros i' Hi'. destruct (decide (i' = i)) as [->|]; [done|]. apply Ho. lia.
Qed.

Lemma place_sources_ok distinct : Forall genuine distinct ->
  returns (FecCodec.place_sources k distinct (replicate (Z.to_nat k) [])) (fun res =>
    zlen res = k /\ forall i, i ∈ ids distinct -> 0 <= i < k ->
      exists v, res !! Z.to_nat i = Some v /\ vec v L (src i)).
Proof.
  intros Hg. unfold FecCodec.place_sources.
  refine (for_each_inv _ (fun d res => zlen res = k /\ forall i, i ∈ ids d -> 0 <= i < k ->
      exists v, res !! Z.to_nat i = Some v /\ vec v L (src i)) distinct [] _ _ _).
  - split; [rewrite zlen_replicate; lia|]. cbn. set_solver.
  - intros d s r res Heq [Hl Hres].
    assert (genuine s) as [Hi Hv].
    { rewrite Forall_forall in Hg. apply Hg. cbn in Heq. rewrite Heq. set_solver. }
    unfold ids. rewrite fmap_app. destruct (Z.ltb_spec (sym_index s) k) as [Hlt|Hge].
    + rewrite write_at_ok by lia. cbn [returns]. split; [by rewrite zlen_insert|].
      intros i Hin Hik. unfold zlen in Hl. destruct (decide (i = sym_index s)) as [->|Hne].
      * exists (sym_data s). rewrite list_lookup_insert_eq by lia. split; [done|].
        apply (vec_ext _ _ _ _ Hv). intros b _. by apply coded_source.
      * rewrite list_lookup_insert_ne by lia. apply Hres; [|done]. unfold ids. cbn in Hin. set_solver.
    + cbn. split; [done|]. intros i Hin Hik. apply Hres; [|done]. unfold ids.
      cbn in Hin. apply elem_of_app in Hin as [Hin|Hin]; [done|]. set_solver by lia.
Qed.

(** The recovered sources, as the list [decode] returns. *)
Definition recovered (o : option (list bytes)) : Prop := exists res, o = Some res /\ sources res.

(** With as many distinct symbols as sources and one source missing, nothing else is missing. *)
Lemma one_missing (l : list Z) mu : m = 1 -> NoDup l -> Forall (fun i => 0 <= i < k + m) l ->
  k <= zlen l -> 0 <= mu < k -> mu ∉ l -> forall i, 0 <= i <= k -> i <> mu -> i ∈ l.
Proof.
  intros Hm1 Hnd Hin Hlen Hmu Hni i Hi Hne. destruct (decide (i ∈ l)) as [|Hnot]; [done|]. exfalso.
  assert (length (mu :: i :: l) <= length (seqZ 0 (k + 1)))%nat as Hle.
  { apply submseteq_length, NoDup_submseteq.
    - apply NoDup_cons. split; [set_solver|]. by apply NoDup_cons.
    - rewrite Forall_forall in Hin. intros x. rewrite elem_of_seqZ, !elem_of_cons.
      intros [->|[->|Hx%Hin]]; lia. }
  rewrite length_seqZ in Hle. cbn in Hle. unfold zlen in Hlen. lia.
Qed.

Lemma foldl_xor_if (keep : Z -> bool) (l : list FecSymbol) acc f :
  vec acc L f -> Forall genuine l -> (forall i, keep i = true -> i < k) ->
  vec (foldl (fun r s => if keep (sym_index s) then FecCodec.xor_zip r (sym_data s) else r) acc l) L
    (fun b => gadd (f b) (Σ (filter (fun i => keep i = true) (ids l)) (fun i => src i b))).
Proof.
  intros Hacc Hg Hkeep. revert acc f Hacc. induction Hg as [|s l [Hi Hs] Hg IH]; intros acc f Hacc; cbn [foldl].
  - apply (vec_ext _ _ _ _ Hacc). intros b _. cbn. ring.
  - change (ids (s :: l)) with (sym_index s :: ids l). rewrite filter_cons.
    destruct (keep (sym_index s)) eqn:Hk'; cbn [decide_rel].
    + rewrite decide_True by done. eapply vec_ext; [apply IH, xor_zip_vec; [exact Hacc|exact Hs]|].
      intros b _. cbv beta. rewrite ssum_cons, coded_source; [ring|]. specialize (Hkeep _ Hk'). lia.
    + rewrite decide_False by done. by apply IH.
Qed.

Lemma recover_one_ok c received distinct seen mu : codec_ok c ->
  dedup_spec received distinct seen -> m = 1 -> (forall i j, par i j = g1) -> k <= zlen distinct ->
  0 <= mu < k -> mu ∉ ids distinct ->
  returns (FecCodec.recover_one c distinct L mu) recovered.
Proof.
  intros (Hck & _) (Hnd & _ & Hg & _ & _) Hm1 Hx Hlen Hmu Hni. unfold FecCodec.recover_one. rewrite Hck.
  assert (forall i, 0 <= i <= k -> i <> mu -> i ∈ ids distinct) as Hall.
  { apply one_missing; try done.
    - apply Forall_fmap. apply (Forall_impl _ _ _ Hg). by intros s [Hi _].
    - unfold ids, zlen in *. by rewrite length_fmap. }
  destruct (List.find _ distinct) as [ps|] eqn:Hfind.
  2: { pose proof (Hall k ltac:(lia) ltac:(lia)) as (s & Hs & Hin)%list_elem_of_fmap.
       apply list_elem_of_In in Hin. apply (List.find_none _ _ Hfind) in Hin. lia. }
  apply List.find_some in Hfind as [Hps Hpk]. apply Z.eqb_eq in Hpk.
  assert (genuine ps) as [_ Hpv].
  { rewrite Forall_forall in Hg. apply Hg. by apply list_elem_of_In. }
  rewrite Hpk in Hpv.
  apply returns_bind, (returns_mono _ _ _ (place_sources_ok distinct Hg)).
  intros res [Hrl Hres]. rewrite write_at_ok by lia. cbn [obind returns].
  eexists. split; [done|]. split; [by rewrite zlen_insert|]. intros i Hi. unfold zlen in Hrl.
  destruct (decide (i = mu)) as [->|Hne].
  2: { rewrite list_lookup_insert_ne by lia. apply Hres; [|done]. apply Hall; lia. }
  rewrite list_lookup_insert_eq by lia. eexists. split; [done|].
  eapply vec_ext; [apply (foldl_xor_if (fun i => (i <? k) && negb (i =? mu)) distinct _ (coded k));
    [by apply (copy_zip_vec _ _ _ _ _ (vec_zero L HL))|done|lia]|].
  intros b _. cbv beta. unfold coded.
  rewrite (ssum_ext _ _ (seqZ 0 k) _ (fun j => src j b)).
  2: { intros j _. unfold gen. rewrite decide_False, Hx by lia. ring. }
  rewrite (ssum_perm _ _ _ _ _ _ _ _ gf_field (seqZ 0 k)
    (mu :: filter (fun i => (i <? k) && negb (i =? mu) = true) (ids distinct))).
  - rewrite ssum_cons. set (rest := Σ _ _).
    transitivity (gadd (src mu b) (gadd rest rest)); [ring|]. rewrite GfMatrix.gadd_self. ring.
  - apply NoDup_Permutation; [apply NoDup_seqZ| |].
    + apply NoDup_cons. split; [|by apply NoDup_filter].
      rewrite list_elem_of_filter. intros [Hf _]. lia.
    + intros j. rewrite elem_of_seqZ, elem_of_cons, list_elem_of_filter. split.
      * intros Hj. destruct (decide (j = mu)) as [->|]; [by left|]. right. split; [lia|]. apply Hall; lia.
      * intros [->|[Hf Hj]]; [lia|]. apply list_elem_of_fmap in Hj as (s & -> & Hs).
        rewrite Forall_forall in Hg. destruct (Hg s Hs) as [Hi' _]. lia.
Qed.

(** ** The general path *)

Lemma submatrix_ok c sel : codec_ok c -> cauchy_code -> Forall genuine sel -> zlen sel = k ->
  returns (FecCodec.submatrix c sel) (fun sub => GfMatrix.mat sub k k (fun r j =>
    match sel !! Z.to_nat r with Some s => gen (sym_index s) j | None => g0 end)).
Proof.
  intros (Hck & _ & Hmat) Hm1 Hg Hlen. unfold FecCodec.submatrix. rewrite Hck. apply returns_bind.
  eapply returns_mono.
  - refine (for_each_inv _ (fun d st => st.1 = zlen d /\ GfMatrix.mat st.2 k k (fun r j =>
      match d !! Z.to_nat r with Some s => gen (sym_index s) j | None => g0 end)) sel [] _ _ _).
    + split; [done|]. cbn. apply GfMatrix.zeros_ok; lia.
    + intros d s r [row sub] Heq [Hrow Hsub]. cbn [fst snd] in *. cbn in Heq. subst row.
      pose proof (zlen_nonneg d). pose proof (zlen_nonneg r).
      assert (zlen d < k) by (rewrite <- Hlen, Heq, zlen_app, zlen_cons; lia).
      assert (genuine s) as [Hi _].
      { rewrite Forall_forall in Hg. apply Hg. rewrite Heq. set_solver. }
      assert (Hold : forall r' j, 0 <= r' < k -> r' <> zlen d ->
        match (d ++ [s]) !! Z.to_nat r' with Some s => gen (sym_index s) j | None => g0 end =
        match d !! Z.to_nat r' with Some s => gen (sym_index s) j | None => g0 end).
      { intros r' j Hr' Hne. unfold zlen in *. destruct (decide (r' < Z.of_nat (length d))).
        - by rewrite lookup_app_l by lia.
        - rewrite !lookup_ge_None_2; [done|lia|]. rewrite length_app. cbn. lia. }
      assert (Hnew : forall j,
        match (d ++ [s]) !! Z.to_nat (zlen d) with Some s => gen (sym_index s) j | None => g0 end =
        gen (sym_index s) j).
      { intros j. unfold zlen. by rewrite Nat2Z.id, list_lookup_middle. }
      assert (Hnone : d !! Z.to_nat (zlen d) = None).
      { apply lookup_ge_None_2. unfold zlen. lia. }
      apply returns_bind. eapply returns_mono; [|intros sub' Hsub'; cbn [returns fst snd];
        split; [rewrite zlen_app; change (zlen [s]) with 1; reflexivity|exact Hsub']].
      destruct (Z.ltb_spec (sym_index s) k) as [Hlt|Hge].
      * change 1 with (byte_of g1). eapply returns_mono; [apply (GfMatrix.set_ok _ _ _ _ _ _ _ Hsub); lia|].
        intros sub' Hsub'. apply (GfMatrix.mat_ext _ _ _ _ _ Hsub'). intros r' j Hr' Hj.
        unfold GfMatrix.upd. destruct (decide (r' = zlen d)) as [->|Hne].
        { rewrite Hnew, Hnone. unfold gen, GfMatrix.delta. rewrite (decide_True (P := sym_index s < k)) by done.
          repeat case_decide; naive_solver. }
        rewrite Hold by done. rewrite decide_False; [done|]. naive_solver.
      * eapply returns_mono; [refine (GfMatrix.row_loop _ k k _ (zlen d) (gen (sym_index s)) sub k ltac:(lia) ltac:(lia) Hsub _)|].
        { intros j sub' g Hj Hsub' _. rewrite (GfMatrix.get_ok _ _ _ _ _ _ (Hmat ltac:(lia))) by lia. cbn [obind].
          replace (GfMatrix.cauchy_entry m (sym_index s - k) j) with (gen (sym_index s) j).
          - apply (GfMatrix.set_ok _ _ _ _ _ _ _ Hsub'); lia.
          - unfold gen. rewrite decide_False by lia. done. }
        intros sub' Hsub'. apply (GfMatrix.mat_ext _ _ _ _ _ Hsub'). intros r' j Hr' Hj. cbv beta.
        destruct (decide (r' = zlen d)) as [->|Hne].
        { rewrite Hnew, decide_True by lia. done. }
        rewrite Hold by done. rewrite decide_False by naive_solver. done.
  - intros [row sub] [_ Hsub]. exact Hsub.
Qed.

(** Row [r] of the product with the inverse, accumulated over the columns. *)
Definition sol_rows (R : Z -> Z -> gf) (val : Z -> Z -> gf) (r n : Z) (res : list bytes) : Prop :=
  zlen res = k /\ forall j, 0 <= j < k -> exists v, res !! Z.to_nat j = Some v /\
    vec v L (fun b => if decide (j < r) then src j b
      else if decide (j = r) then Σ (seqZ 0 n) (fun t => gmul (R r t) (val t b)) else g0).

Lemma sol_rows_ext R val r n r' n' res : sol_rows R val r n res ->
  (forall j b, 0 <= j < k -> 0 <= b < L ->
     (if decide (j < r) then src j b
      else if decide (j = r) then Σ (seqZ 0 n) (fun t => gmul (R r t) (val t b)) else g0) =
     (if decide (j < r') then src j b
      else if decide (j = r') then Σ (seqZ 0 n') (fun t => gmul (R r' t) (val t b)) else g0)) ->
  sol_rows R val r' n' res.
Proof.
  intros [Hl Hres] Heq. split; [done|]. intros j Hj. destruct (Hres j Hj) as (v & Hv & Hvv).
  exists v. split; [done|]. apply (vec_ext _ _ _ _ Hvv). intros b Hb. by apply Heq.
Qed.

Section solve.
Context (inv : GfMatrix.t) (R : Z -> Z -> gf) (sel : list FecSymbol).
Context (Hg : Forall genuine sel) (Hlen : zlen sel = k) (Hinv : GfMatrix.mat inv k k R).
Definition sel_val (t b : Z) : gf :=
  match sel !! Z.to_nat t with Some s => coded (sym_index s) b | None => g0 end.

Lemma solve_column_ok r t res : 0 <= r < k -> 0 <= t < k -> R r t <> g0 ->
  sol_rows R sel_val r t res ->
  returns (let? sym := index sel t in
           let? row := index res r in
           let? row := FecCodec.mul_acc (R r t) (sym_data sym) L row in
           write_at res r row) (sol_rows R sel_val r (t + 1)).
Proof.
  intros Hr Ht Hz [Hrl Hres].
  destruct (lookup_lt_is_Some_2 sel (Z.to_nat t)) as [s Hs]; [unfold zlen in *; lia|].
  rewrite (index_ok _ _ _ (proj1 Ht) Hs). cbn [obind].
  destruct (Hres r Hr) as (v & Hv & Hvv). rewrite (index_ok _ _ _ (proj1 Hr) Hv). cbn [obind].
  assert (genuine s) as [_ Hsv] by (by eapply (Forall_lookup_1 _ _ _ _ Hg)).
  apply returns_bind, (returns_mono _ _ _ (mul_acc_ok (R r t) _ _ _ _ _ HL Hsv Hvv)).
  intros w Hw. rewrite write_at_ok by lia. cbn [returns]. split; [by rewrite zlen_insert|].
  intros j Hj. unfold zlen in Hrl. destruct (decide (j = r)) as [->|Hne].
  - rewrite list_lookup_insert_eq by lia. eexists. split; [done|]. apply (vec_ext _ _ _ _ Hw).
    intros b _. rewrite sum_snoc by lia. rewrite !(decide_False (P := r < r)), !(decide_True (P := r = r)) by lia.
    assert (sel_val t b = coded (sym_index s) b) as -> by (unfold sel_val; by rewrite Hs). done.
  - rewrite list_lookup_insert_ne by lia. destruct (Hres j Hj) as (v' & Hv' & Hvv'). exists v'.
    split; [done|]. apply (vec_ext _ _ _ _ Hvv'). intros b _. by rewrite !(decide_False (P := j = r)) by done.
Qed.

Lemma solve_ok c : codec_ok c ->
  (forall b, 0 <= b < L -> forall r, 0 <= r < k ->
     Σ (seqZ 0 k) (fun t => gmul (R r t) (sel_val t b)) = src r b) ->
  returns (FecCodec.solve c inv sel L) sources.
Proof.
  intros (Hck & _) Hsol. unfold FecCodec.solve. rewrite Hck. eapply returns_mono.
  - refine (for_range_inv _ (fun r => sol_rows R sel_val r 0) 0 k _ ltac:(lia) _ _).
    + split; [rewrite zlen_replicate; lia|]. intros j Hj. eexists.
      split; [apply lookup_replicate; split; [done|lia]|]. apply (vec_ext _ _ _ _ (vec_zero L HL)).
      intros b _. rewrite decide_False by lia. rewrite seqZ_nil by done. by case_decide.
    + intros r res Hr Hres. eapply returns_mono.
      * refine (for_range_inv _ (sol_rows R sel_val r) 0 k _ ltac:(lia) Hres _).
        intros t res' Ht Hres'. rewrite (GfMatrix.get_ok _ _ _ _ _ _ Hinv) by lia. cbn [obind].
        rewrite GfMatrix.byte_eqb_0. case_bool_decide as Hz; [|by apply solve_column_ok].
        cbn. apply (sol_rows_ext _ _ _ _ _ _ _ Hres'). intros j b _ _. rewrite sum_snoc, Hz by lia.
        repeat case_decide; try done. ring.
      * intros res' Hres'. apply (sol_rows_ext _ _ _ _ _ _ _ Hres'). intros j b Hj Hb.
        rewrite (seqZ_nil 0 0) by done. cbn [ssum foldr]. destruct (decide (j = r)) as [->|].
        { rewrite (decide_False (P := r < r)), (decide_True (P := r < r + 1)) by lia. by apply Hsol. }
        repeat case_decide; try done; lia.
  - intros res [Hrl Hres]. split; [done|]. intros j Hj. destruct (Hres j Hj) as (v & Hv & Hvv).
    exists v. split; [done|]. apply (vec_ext _ _ _ _ Hvv). intros b _. by rewrite decide_True by lia.
Qed.
End solve.

Lemma decode_general_ok c distinct : codec_ok c -> NoDup (ids distinct) -> Forall genuine distinct ->
  cauchy_code -> k <= zlen distinct -> returns (FecCodec.decode_general c distinct L) recovered.
Proof.
  intros Hc Hnd Hg Hm1 Hlen. unfold FecCodec.decode_general.
  pose proof Hc as (Hck & _). rewrite Hck. unfold slice.
  rewrite (proj2 (Z.leb_le 0 k)), (proj2 (Z.leb_le k _)) by lia. cbn [andb obind Z.leb Z.compare].
  rewrite drop_0, Z.sub_0_r. set (sel := take (Z.to_nat k) distinct).
  assert (zlen sel = k) as Hsl by (unfold sel; rewrite zlen_take; lia).
  assert (Forall genuine sel) as Hsg by by apply Forall_take.
  apply returns_bind, (returns_mono _ _ _ (submatrix_ok c sel Hc Hm1 Hsg Hsl)). intros sub Hsub.
  apply returns_bind, (returns_mono _ _ _ (GfMatrix.invert_ok k ltac:(lia) _ sub Hsub)).
  intros [inv|] Hinv.
  - destruct Hinv as (R & HR & Hleft). apply returns_bind.
    eapply returns_mono; [apply (solve_ok inv R sel Hsg Hsl HR c Hc)|].
    + intros b Hb r Hr. etrans; [|apply (left_inverse_apply _ _ _ _ _ _ _ _ gf_field _
        ltac:(apply NoDup_seqZ) R _ (fun j => src j b) r Hleft); rewrite elem_of_seqZ; lia].
      apply ssum_ext. intros t Ht%elem_of_seqZ. f_equal. unfold sel_val, coded.
      destruct (lookup_lt_is_Some_2 sel (Z.to_nat t)) as [s ->]; [unfold zlen in *; lia|]. done.
    + intros res Hres. cbn. by exists res.
  - exfalso. apply Hinv. apply (code_no_kernel (ids sel)); [| | |done|].
    + unfold ids, zlen in *. by rewrite length_fmap.
    + unfold ids, sel. rewrite fmap_take. by apply (NoDup_app _ (drop (Z.to_nat k) (ids distinct))); rewrite take_drop.
    + apply Forall_fmap. apply (Forall_impl _ _ _ Hsg). by intros s [Hi _].
    + intros r i Hr j Hj. rewrite Nat2Z.id. unfold ids in Hr. rewrite list_lookup_fmap in Hr.
      destruct (sel !! r) as [s|]; [|done]. by injection Hr as <-.
Qed.

Lemma dedup_size received distinct seen : dedup_spec received distinct seen ->
  size (list_to_set (ids received) : gset Z) = length distinct.
Proof.
  intros (Hnd & Hids & _). transitivity (size (list_to_set (ids distinct) : gset Z)).
  - f_equal. apply set_eq. intros i. rewrite !elem_of_list_to_set. by rewrite Hids.
  - rewrite size_list_to_set by done. unfold ids. by rewrite length_fmap.
Qed.

(** [decode] on symbols of one code word: the sources with [k] distinct symbols or more, [None]
    with fewer. *)
Lemma decode_ok c received : fec_code -> codec_ok c -> Forall genuine received ->
  returns (FecCodec.decode c received) (fun o =>
    if decide (k <= Z.of_nat (size (list_to_set (ids received) : gset Z)))
    then recovered o else o = None).
Proof.
  intros [Hx Hca] Hc Hg. unfold FecCodec.decode. pose proof Hc as (-> & -> & _).
  pose proof (dedup_ok received Hg) as Hd.
  destruct (returns_inv _ _ Hd) as ([distinct seen] & Heq & Hspec). cbn [fst snd] in Hspec.
  rewrite (dedup_size _ _ _ Hspec). change (Z.of_nat (length distinct)) with (zlen distinct).
  destruct (Z.ltb_spec (zlen received) k) as [Hlt|_].
  { cbn [returns]. rewrite decide_False; [done|]. pose proof Hspec as (Hnd & Hids & _).
    assert (length (ids distinct) <= length (ids received))%nat as Hle.
    { apply submseteq_length, NoDup_submseteq; [done|]. intros i. apply Hids. }
    unfold ids, zlen in *. rewrite !length_fmap in Hle. lia. }
  rewrite Heq. cbn [obind]. destruct (Z.ltb_spec (zlen distinct) k) as [Hlt|Hge].
  { cbn [returns]. rewrite decide_False by lia. done. }
  apply (returns_mono _ recovered); [|intros o Ho; by rewrite decide_True by lia].
  pose proof Hspec as (Hnd & Hids & Hdg & Hsl & Hseen).
  destruct (lookup_lt_is_Some_2 distinct 0) as [d0 Hd0]; [unfold zlen in *; lia|].
  rewrite (index_ok distinct 0 d0) by done. cbn [obind].
  assert (zlen (sym_data d0) = L) as ->.
  { pose proof (Forall_lookup_1 _ _ _ _ Hdg Hd0) as [_ [Hv _]]. done. }
  apply returns_bind, (returns_mono _ _ _ (all_present_ok _ _ _ Hspec)). intros [|] Hall.
  - apply returns_bind, (returns_mono _ _ _ (place_sources_ok distinct Hdg)). intros res [Hrl Hres].
    cbn. exists res. split; [done|]. split; [done|]. intros j Hj. apply Hres; [|done]. by apply Hall.
  - destruct (Z.eqb_spec m 1) as [Hm1|Hm1]; [|apply decode_general_ok; auto].
    apply returns_bind, (returns_mono _ _ _ (find_missing_ok _ _ _ Hspec)). intros [mu|] Hmu.
    + rewrite (index_ok seen k _ ltac:(lia) (Hseen k ltac:(lia))). cbn [obind].
      rewrite bool_decide_true; [by apply (recover_one_ok _ received _ seen); auto; tauto|].
      apply (one_missing (ids distinct) mu); try done; [|unfold ids, zlen in *; by rewrite length_fmap|tauto..|lia|lia].
      apply Forall_fmap. apply (Forall_impl _ _ _ Hdg). by intros s [Hi _].
    + exfalso. assert (false = true) by by apply Hall. done.
Qed.
End code.
End codec.

(** ** Blocks *)

Section block.
Context (data : bytes) (k m : Z) (Hdata : is_bytes data) (Hk : 0 < k) (Hm : 0 <= m)
  (Hkm : k + m <= 256).

Definition ss : Z := Z.max (div_ceil (zlen data) k) 1.
(** The data padded to [k] symbols. *)
Definition padded : bytes := data ++ replicate (Z.to_nat (k * ss - zlen data)) 0.
Definition piece (i : Z) : bytes := take (Z.to_nat ss) (drop (Z.to_nat (i * ss)) padded).

Lemma ss_bounds : 1 <= ss /\ zlen data <= k * ss.
Proof.
  unfold ss, div_ceil. pose proof (Z.div_mod (zlen data) k ltac:(lia)).
  pose proof (Z.mod_pos_bound (zlen data) k Hk). split; [lia|].
  destruct (Z.eqb_spec (zlen data mod k) 0); nia.
Qed.

Lemma padded_len : zlen padded = k * ss.
Proof. unfold padded. rewrite zlen_app, zlen_replicate. pose proof ss_bounds. lia. Qed.

Lemma source_symbol_ok i : 0 <= i < k -> FecBlock.source_symbol data ss i = Ok (piece i).
Proof.
  intros Hi. unfold FecBlock.source_symbol, piece, padded. pose proof ss_bounds as [Hs1 Hs2].
  assert (0 <= i * ss /\ i * ss + ss <= k * ss) as [Hi1 Hi2] by nia.
  destruct (Z.ltb_spec (i * ss) (zlen data)) as [Hlt|Hge].
  - unfold slice. rewrite (proj2 (Z.leb_le 0 _)), (proj2 (Z.leb_le (i * ss) _)), (proj2 (Z.leb_le _ (zlen data))) by lia.
    cbn [andb obind]. set (sl := take _ _).
    assert (zlen sl = Z.min ss (zlen data - i * ss)) as Hsl by (unfold sl; rewrite zlen_take, zlen_drop; lia).
    rewrite copy_into_ok by (rewrite ?zlen_replicate; lia). f_equal. change (Z.to_nat 0) with 0%nat.
    rewrite take_0, app_nil_l, drop_replicate, drop_app_le by (unfold zlen in *; lia).
    assert (sl = take (Z.to_nat ss) (drop (Z.to_nat (i * ss)) data)) as Hsl'.
    { unfold sl. destruct (Z.le_gt_cases (i * ss + ss) (zlen data)).
      - f_equal. lia.
      - rewrite !take_ge; [done|..]; rewrite length_drop; unfold zlen in *; lia. }
    rewrite Hsl', take_app, <- Hsl'. f_equal. rewrite take_replicate. f_equal.
    rewrite length_drop. unfold zlen in *. lia.
  - f_equal. rewrite drop_app_ge by (unfold zlen in *; lia). rewrite drop_replicate, take_replicate.
    f_equal. unfold zlen in *. lia.
Qed.

Definition data_src (j b : Z) : gf := gf_of (default 0 (padded !! Z.to_nat (j * ss + b))).

Lemma piece_vec i : 0 <= i < k -> vec (piece i) ss (data_src i).
Proof.
  intros Hi. pose proof ss_bounds as [Hs1 Hs2]. pose proof padded_len as Hp.
  assert (0 <= i * ss /\ i * ss + ss <= k * ss) as [Hi1 Hi2] by nia. split.
  - unfold piece. rewrite zlen_take, zlen_drop. lia.
  - intros b Hb. unfold piece. rewrite lookup_take_lt, lookup_drop by lia.
    replace (Z.to_nat (i * ss) + Z.to_nat b)%nat with (Z.to_nat (i * ss + b)) by lia.
    unfold data_src. destruct (lookup_lt_is_Some_2 padded (Z.to_nat (i * ss + b))) as [x Hx];
      [unfold zlen in *; lia|]. rewrite Hx. cbn. f_equal. symmetry. apply gf_of_byte.
    assert (is_bytes padded) as Hpb by (apply Forall_app; split; [done|by apply Forall_replicate]).
    by eapply (Forall_lookup_1 _ _ _ _ Hpb).
Qed.

(** The parity of the codec. *)
Definition fec_par (i j : Z) : gf := if decide (m = 1) then g1 else GfMatrix.cauchy_entry m i j.
Lemma fec_par_code : fec_code m fec_par.
Proof. unfold fec_par. split; [intros -> i j; by rewrite decide_True|intros Hm1 i j; by rewrite decide_False]. Qed.

Definition pieces : list bytes := piece <$> seqZ 0 k.

Lemma pieces_sources : sources k ss data_src pieces.
Proof.
  unfold pieces. split; [unfold zlen; rewrite length_fmap, length_seqZ; lia|].
  intros j Hj. exists (piece j). split; [|by apply piece_vec].
  rewrite list_lookup_fmap, (lookup_seqZ_lt 0 k) by lia. cbn. do 2 f_equal. lia.
Qed.

Lemma join_pieces n : (0 <= n <= k) -> mjoin (piece <$> seqZ 0 n) = take (Z.to_nat (n * ss)) padded.
Proof.
  intros Hn. pose proof ss_bounds. remember (Z.to_nat n) as d eqn:Hd. revert n Hn Hd.
  induction d as [|d IH]; intros n Hn Hd.
  - replace n with 0 by lia. done.
  - replace n with ((n - 1) + 1) at 1 by lia. rewrite seqZ_app, fmap_app, join_app by lia.
    rewrite IH by lia. rewrite (seqZ_cons _ 1), (seqZ_nil _ (Z.pred 1)) by lia. cbn.
    rewrite app_nil_r. unfold piece. replace (0 + (n - 1)) with (n - 1) by lia.
    replace (Z.to_nat (n * ss)) with (Z.to_nat ((n - 1) * ss) + Z.to_nat ss)%nat by nia.
    by rewrite take_take_drop.
Qed.

Lemma take_pieces : take (Z.to_nat (zlen data)) (mjoin pieces) = data.
Proof.
  unfold pieces. rewrite join_pieces by lia. rewrite (take_ge padded).
  - unfold padded, zlen. by rewrite Nat2Z.id, take_app_length.
  - pose proof padded_len. unfold zlen in *. lia.
Qed.

Lemma slice_sources_ok : for_range 0 k (fun i sources =>
    let? sym := FecBlock.source_symbol data ss i in Ok (sources ++ [sym])) [] = Ok pieces.
Proof.
  destruct (returns_inv _ _ (for_range_inv (E := Empty_set) (fun i sources =>
      let? sym := FecBlock.source_symbol data ss i in Ok (sources ++ [sym]))
    (fun n l => l = piece <$> seqZ 0 n) 0 k [] ltac:(lia) eq_refl
    ltac:(intros i l Hi ->; cbv beta; rewrite source_symbol_ok by done; cbn [obind returns];
          rewrite seqZ_app, fmap_app by lia; done))) as (l & -> & ->). done.
Qed.

(** Symbol [i] of the block has index [i] and is genuine. *)
Definition block_symbols (syms : list FecSymbol) : Prop :=
  zlen syms = k + m /\ forall i s, syms !! i = Some s ->
    sym_index s = Z.of_nat i /\ genuine k m ss data_src fec_par s.

Lemma encode_block_ok id : returns (FecBlock.encode_block id data k m) (fun r =>
  r.1 = mkHeader id (zlen data) k m ss /\ block_symbols r.2).
Proof.
  unfold FecBlock.encode_block. rewrite (proj2 (Z.ltb_lt 0 k)) by done. cbn [negb]. cbv zeta.
  fold ss. rewrite slice_sources_ok. cbn [obind]. pose proof ss_bounds.
  apply returns_bind, (returns_mono _ _ _ (codec_new_ok k m Hk Hm Hkm)). intros c Hc.
  apply returns_bind. eapply returns_mono;
    [apply (encode_ok k m ss Hk Hm ltac:(lia) data_src fec_par c pieces fec_par_code Hc pieces_sources)|].
  intros rep [Hrl Hrep]. cbn [returns fst snd]. split; [done|]. pose proof pieces_sources as [Hpl Hps].
  split; [rewrite zlen_app, Hrl; unfold zlen in *; rewrite length_imap; lia|].
  intros i s Hs. unfold zlen in *. apply lookup_app_Some in Hs as [Hs|[Hge Hs]].
  - rewrite list_lookup_imap in Hs. destruct (pieces !! i) as [v|] eqn:Hv; [|done].
    injection Hs as <-. cbn. split; [done|]. pose proof (lookup_lt_Some _ _ _ Hv).
    split; [cbn; lia|]. cbn. destruct (Hps (Z.of_nat i)) as (w & Hw & Hwv); [lia|].
    rewrite Nat2Z.id in Hw. assert (w = v) as -> by congruence.
    apply (vec_ext _ _ _ _ Hwv). intros b _. symmetry. apply coded_source. lia.
  - rewrite length_imap in *. pose proof (lookup_lt_Some _ _ _ Hs).
    destruct (Hrep (Z.of_nat (i - length pieces))) as (s' & Hs' & Hidx & Hgen); [lia|].
    rewrite Nat2Z.id in Hs'. assert (s' = s) as -> by congruence. split; [lia|done].
Qed.

(** C5. A block encoded with [k] source and [m] repair symbols, [k + m <= 256], comes back from
    any received symbols of the block, in any order, with duplicates and losses, that have [k]
    different indices; with fewer the decoder reports failure. Neither side panics. *)
Theorem fec_block_recovers id : exists h syms,
  FecBlock.encode_block id data k m = Ok (h, syms) /\
  zlen syms = k + m /\ (forall i s, syms !! i = Some s -> sym_index s = Z.of_nat i) /\
  forall received, (forall s, s ∈ received -> s ∈ syms) ->
    let enough := k <= Z.of_nat (size (list_to_set (ids received) : gset Z)) in
    exists rep, FecBlock.decode_block h received =
      Ok (if decide enough then Some data else None, rep) /\
      is_successful rep = bool_decide enough /\ r_block_id rep = id.
Proof.
  pose proof ss_bounds.
  destruct (returns_inv _ _ (encode_block_ok id)) as ([h syms] & Henc & Hh & Hsl & Hsyms). cbn [fst snd] in *.
  exists h, syms. split; [done|]. split; [done|]. split; [by intros i s Hs; apply Hsyms|].
  intros received Hsub. set (enough := k <= _).
  assert (Forall (genuine k m ss data_src fec_par) received) as Hg.
  { apply Forall_forall. intros s Hs%Hsub. apply list_elem_of_lookup in Hs as [i Hi]. by apply (Hsyms i). }
  subst h. unfold FecBlock.decode_block. cbn [h_k h_m h_symbol_size h_original_len h_block_id].
  destruct (returns_inv _ _ (codec_new_ok k m Hk Hm Hkm)) as (c & -> & Hc). cbn [obind].
  destruct (returns_inv _ _ (decode_ok k m ss Hk Hm Hkm ltac:(lia) data_src fec_par c received fec_par_code Hc Hg))
    as (o & -> & Ho). cbn [obind]. change (k <= _) with enough in Ho.
  destruct (decide enough) as [He|He].
  - destruct Ho as (res & -> & Hres). rewrite (sources_unique k ss data_src _ _ Hres pieces_sources).
    cbn [fmap option_fmap option_map]. rewrite take_pieces. eexists. split; [reflexivity|]. split; [|done]. cbn.
    by rewrite bool_decide_true.
  - subst o. eexists. split; [reflexivity|]. split; [|done]. cbn. by rewrite bool_decide_false.
Qed.
End block.

Module FecExamples.
(** Two of four symbols, the repair symbols only, in reverse order. *)
Lemma fec_block_recovers_witness : exists h syms,
  FecBlock.encode_block 9 [10; 20; 30] 2 2 = Ok (h, syms) /\
  exists rep, FecBlock.decode_block h (rev (drop 2 syms)) = Ok (Some [10; 20; 30], rep) /\
    is_successful rep = true.
Proof.
  destruct (fec_block_recovers [10; 20; 30] 2 2 ltac:(repeat (constructor; try (unfold fits; lia)))
    ltac:(lia) ltac:(lia) ltac:(lia) 9) as (h & syms & Henc & _ & _ & Hdec).
  exists h, syms. split; [done|]. vm_compute in Henc. injection Henc as <- <-.
  destruct (Hdec [mkSymbol 3 [9; 12]; mkSymbol 2 [15; 10]]) as (rep & Hd & Hs & _); [set_solver|].
  exists rep. split; [etrans; [exact Hd|]|etrans; [exact Hs|]]; vm_compute; reflexivity.
Defined.

(** The symbols of a block are not checked against each other: one that is shorter than the
    first makes the general path index past its end. *)
Theorem decode_short_symbol_panics : exists h,
  h_k h = 2 /\ h_m h = 2 /\
  FecBlock.decode_block h [mkSymbol 2 [1; 2]; mkSymbol 3 [1]] = Panic.
Proof. exists (mkHeader 0 4 2 2 2). vm_compute. done. Qed.

(** A header with no source symbols, or with more symbols than the field has points, makes the
    decoder panic instead of returning [None]. *)
Theorem decode_bad_header_panics received : forall h, h_k h = 0 \/ 256 < h_k h + h_m h ->
  FecBlock.decode_block h received = Panic.
Proof.
  intros h Hh. unfold FecBlock.decode_block, FecCodec.new. destruct (Z.ltb_spec 0 (h_k h)); [|done].
  destruct (Z.leb_spec (h_k h + h_m h) 256); [lia|done].
Qed.
End FecExamples.
