(* ===== verification/ErasureCoding.v ===== *)
(** * Erasure-coded objects, ec/engine.rs

    The schema, the binary envelope of a shard and [ErasureEngine]: encoding an object into data
    and parity shards, decoding it from the surviving ones and rebuilding the full set. The field
    and the matrices are those of forward error correction (Gf256, GfMatrix); BLAKE3 is a
    parameter. Reading and writing files is left out. *)

From S2P Require Import Prelude Utf8 Protocol LinAlg Gf256 GfMatrix Fec.

Definition SHARD_MAGIC : bytes := Utf8.str_bytes "VEC1".
Definition SHARD_VERSION : Z := 1.

(** [VelcruxError] as this module uses it; the numbers are those of the messages. *)
Inductive EcError :=
  | EcConfig (why : string)
  | EcMalformed (why : string)
  | EcChecksum (shard_index : Z)
  | EcUnrecoverable (available required : Z)
  | EcInversion.

Record ErasureSchema := mkSchema { data_shards : Z; parity_shards : Z }.

Definition schema_new (data_shards parity_shards : Z) : outcome EcError ErasureSchema :=
  if (data_shards =? 0) || (parity_shards =? 0)
  then Err (EcConfig "Data shards (K) and parity shards (M) must both be >= 1")
  else if 256 <? wrap 64 (data_shards + parity_shards)
  then Err (EcConfig "Total shards (K + M) cannot exceed 256 in Galois Field GF(2^8)")
  else Ok (mkSchema data_shards parity_shards).

Definition total_shards (s : ErasureSchema) : Z := data_shards s + parity_shards s.
Definition schema_default : ErasureSchema := mkSchema 4 2.

Record ShardEnvelope := mkEnvelope {
  object_id : bytes; schema : ErasureSchema; shard_index : Z; original_size : Z;
  checksum : bytes; payload : bytes }.

Definition is_data_shard (e : ShardEnvelope) : bool := shard_index e <? data_shards (schema e).
Definition is_parity_shard (e : ShardEnvelope) : bool := data_shards (schema e) <=? shard_index e.

Section engine.
Context (blake3 : bytes -> bytes).

Definition envelope_new (object_id : bytes) (schema : ErasureSchema) (shard_index original_size : Z)
  (payload : bytes) : ShardEnvelope :=
  mkEnvelope object_id schema shard_index original_size (blake3 payload) payload.

Definition verify_checksum (e : ShardEnvelope) : bool := bool_decide (blake3 (payload e) = checksum e).

(** ** Envelopes *)

Definition to_bytes (e : ShardEnvelope) : bytes :=
  SHARD_MAGIC ++ push SHARD_VERSION ++ push (wrap 8 (data_shards (schema e))) ++
  push (wrap 8 (parity_shards (schema e))) ++ push (wrap 8 (shard_index e)) ++
  to_be 8 (original_size e) ++ to_be 4 (wrap 32 (zlen (payload e))) ++ checksum e ++
  to_be 2 (wrap 16 (zlen (object_id e))) ++ object_id e ++ payload e.

Definition MIN_HEADER : Z := 4 + 1 + 1 + 1 + 1 + 8 + 4 + 32 + 2.

Definition from_bytes (b : bytes) : outcome EcError ShardEnvelope :=
  if zlen b <? MIN_HEADER
  then Err (EcMalformed "Shard envelope buffer is shorter than minimum header size")
  else
    let? magic := slice b 0 4 in
    if negb (bool_decide (magic = SHARD_MAGIC))
    then Err (EcMalformed "Invalid shard envelope magic bytes (expected 'VEC1')")
    else
      let? version := index b 4 in
      if negb (version =? SHARD_VERSION)
      then Err (EcMalformed "Unsupported shard envelope format version")
      else
        let? data_shards := index b 5 in
        let? parity_shards := index b 6 in
        let? shard_index := index b 7 in
        let? original_size := read_be b 8 8 in
        let? payload_len := read_be b 16 4 in
        let? checksum := slice b 20 52 in
        let? obj_len := read_be b 52 2 in
        let total_header_len := MIN_HEADER + obj_len in
        if zlen b <? total_header_len + payload_len
        then Err (EcMalformed "Truncated shard envelope payload buffer")
        else
          let? obj := slice b 54 (54 + obj_len) in
          let? object_id := ok_or (Utf8.from_utf8 obj)
            (EcMalformed "Invalid UTF-8 in shard envelope object_id") in
          let? payload := slice b total_header_len (total_header_len + payload_len) in
          let? schema := schema_new data_shards parity_shards in
          let env := mkEnvelope object_id schema shard_index original_size checksum payload in
          if negb (verify_checksum env) then Err (EcChecksum shard_index) else Ok env.

(** ** Encoding *)

(** Data shard [i], padded with zeros. *)
Definition data_shard (data : bytes) (shard_size i : Z) : pure bytes :=
  let start := i * shard_size in
  let end_ := Z.min ((i + 1) * shard_size) (zlen data) in
  let shard := replicate (Z.to_nat shard_size) 0 in
  if start <? zlen data then
    let? sl := slice data start end_ in
    copy_into shard 0 (zlen sl) sl
  else Ok shard.

(** Parity shard [i]: the sum of the data shards times row [i]. *)
Definition parity_shard (cauchy : GfMatrix.t) (k : Z) (shards : list bytes) (shard_size i : Z) : pure bytes :=
  for_range 0 k (fun j p_shard =>
    let? factor := GfMatrix.get cauchy i j in
    if factor =? 0 then Ok p_shard
    else
      let? d_shard := index shards j in
      for_range 0 shard_size (fun b p_shard =>
        let? p := index p_shard b in
        let? d := index d_shard b in
        let? term := gf_mul factor d in
        write_at p_shard b (gf_add p term)) p_shard) (replicate (Z.to_nat shard_size) 0).

Definition encode_shards (data : bytes) (schema : ErasureSchema) (object_id : bytes) : pure (list ShardEnvelope) :=
  let k := data_shards schema in
  let m := parity_shards schema in
  let original_size := zlen data in
  let shard_size := if bool_decide (data = []) then 1 else div_ceil (zlen data) k in
  let? shards := for_range 0 k (fun i l => let? s := data_shard data shard_size i in Ok (l ++ [s])) [] in
  let? cauchy := GfMatrix.cauchy m k in
  let? parity := for_range 0 m (fun i l => let? s := parity_shard cauchy k shards shard_size i in Ok (l ++ [s])) [] in
  Ok (imap (fun i p => envelope_new object_id schema (Z.of_nat i) original_size p) shards ++
      imap (fun i p => envelope_new object_id schema (k + Z.of_nat i) original_size p) parity).

(** [div_ceil] panics on a schema with no data shards. *)
Definition encode (data : bytes) (schema : ErasureSchema) (object_id : bytes)
  : outcome EcError (list ShardEnvelope) :=
  if negb (bool_decide (data = [])) && (data_shards schema =? 0) then Panic
  else lift (encode_shards data schema object_id).

(** ** Decoding *)

(** The shards with a good checksum, each with the smaller of its index and its position. *)
Fixpoint valid_shards (idx : Z) (shards : list (option ShardEnvelope)) : list (Z * ShardEnvelope) :=
  match shards with
  | [] => []
  | Some shard :: shards =>
      if verify_checksum shard then (Z.min (shard_index shard) idx, shard) :: valid_shards (idx + 1) shards
      else valid_shards (idx + 1) shards
  | None :: shards => valid_shards (idx + 1) shards
  end.

Definition has_all_data (k : Z) (valid : list (Z * ShardEnvelope)) : bool :=
  forallb (fun i => existsb (fun e => e.1 =? i) valid) (seqZ 0 k).

(** The fast path: the data shards in order; a missing one is an [unwrap] of [None]. *)
Definition concat_data (k : Z) (valid : list (Z * ShardEnvelope)) : pure bytes :=
  for_range 0 k (fun i out =>
    match List.find (fun e => e.1 =? i) valid with
    | Some e => Ok (out ++ payload e.2)
    | None => Panic
    end) [].

Definition decode_matrix (cauchy : GfMatrix.t) (k : Z) (selected : list (Z * ShardEnvelope)) : pure GfMatrix.t :=
  let? ' (_, a) :=
    for_each selected (fun e (st : Z * GfMatrix.t) =>
      let '(row, a) := st in
      let? a :=
        (if e.1 <? k then GfMatrix.set a row e.1 1
         else
           let c_row := e.1 - k in
           for_range 0 k (fun col a =>
             let? v := GfMatrix.get cauchy c_row col in
             GfMatrix.set a row col v) a) in
      Ok (row + 1, a)) (0, GfMatrix.zeros k k) in
  Ok a.

Definition recover (inv_a : GfMatrix.t) (k shard_size : Z) (selected : list (Z * ShardEnvelope)) : pure (list bytes) :=
  for_range 0 k (fun j recovered =>
    for_range 0 (zlen selected) (fun r recovered =>
      let? factor := GfMatrix.get inv_a j r in
      if factor =? 0 then Ok recovered
      else
        let? e := index selected r in
        let? row := index recovered j in
        let? row := FecCodec.mul_acc factor (payload e.2) shard_size row in
        write_at recovered j row) recovered)
    (replicate (Z.to_nat k) (replicate (Z.to_nat shard_size) 0)).

Definition decode (shards : list (option ShardEnvelope)) (schema : ErasureSchema) : outcome EcError bytes :=
  let k := data_shards schema in
  let m := parity_shards schema in
  let valid := valid_shards 0 shards in
  if zlen valid <? k then Err (EcUnrecoverable (zlen valid) k)
  else
    let? v0 := index valid 0 in
    let original_size := original_size v0.2 in
    let shard_size := zlen (payload v0.2) in
    if has_all_data k valid then
      let? out := lift (concat_data k valid) in
      Ok (take (Z.to_nat original_size) out)
    else
      let selected := take (Z.to_nat k) valid in
      let? cauchy := lift (GfMatrix.cauchy m k) in
      let? a := lift (decode_matrix cauchy k selected) in
      let? inv := lift (GfMatrix.invert a) in
      match inv with
      | None => Err EcInversion
      | Some inv_a =>
          let? recovered := lift (recover inv_a k shard_size selected) in
          Ok (take (Z.to_nat original_size) (mjoin recovered))
      end.

(** The slot of each shard whose index and checksum are good; a later one replaces an earlier. *)
Definition fill_slots (total : Z) (available : list ShardEnvelope) : list (option ShardEnvelope) :=
  foldl (fun slots env =>
    if (shard_index env <? total) && verify_checksum env
    then <[Z.to_nat (shard_index env) := Some env]> slots else slots)
    (replicate (Z.to_nat total) None) available.

Definition reconstruct_all (available : list ShardEnvelope) (schema : ErasureSchema)
  : outcome EcError (list ShardEnvelope) :=
  let slots := fill_slots (total_shards schema) available in
  let? decoded_payload := decode slots schema in
  let id := match head available with
            | Some first => object_id first
            | None => Utf8.str_bytes "reconstructed_object"
            end in
  encode decoded_payload schema id.
End engine.

Lemma read_be_skip {E} a b i n : zlen a <= i -> @read_be E (a ++ b) i n = read_be b (i - zlen a) n.
Proof. intros. unfold read_be. rewrite slice_skip by done. do 2 f_equal. lia. Qed.
Lemma read_be_here {E} k v b i n : i = 0 -> n = Z.of_nat k -> fits (8 * n) v ->
  @read_be E (to_be k v ++ b) i n = Ok v.
Proof. intros -> -> Hv. unfold read_be. rewrite slice_here by len. cbn. by rewrite from_to_be. Qed.

Ltac run_be :=
  match goal with
  | |- context [@read_be ?E (?a ++ ?b) ?i ?n] =>
      first [ rewrite (@read_be_here E) by (first [done | assumption | len])
            | rewrite (@read_be_skip E a b i n) by len ]
  | _ => run_step
  end.

(** Reads inside a buffer, with what they say of it. *)
Lemma index_read {E} (b : bytes) i : is_bytes b -> 0 <= i < zlen b -> exists x,
  @index E _ b i = Ok x /\ fits 8 x /\ drop (Z.to_nat i) b = push x ++ drop (Z.to_nat (i + 1)) b.
Proof.
  intros Hb Hi. destruct (lookup_lt_is_Some_2 b (Z.to_nat i)) as [x Hx]; [unfold zlen in *; lia|].
  exists x. split; [apply index_ok; [lia|done]|]. split; [by eapply (Forall_lookup_1 _ _ _ _ Hb)|].
  rewrite push_eq, (drop_S _ _ _ Hx). cbn. do 2 f_equal. lia.
Qed.
Lemma be_read {E} (b : bytes) i k n : n = Z.of_nat k -> is_bytes b -> 0 <= i -> i + n <= zlen b -> exists v,
  @read_be E b i n = Ok v /\ fits (8 * n) v /\ drop (Z.to_nat i) b = to_be k v ++ drop (Z.to_nat (i + n)) b.
Proof.
  intros -> Hb Hi Hk. unfold read_be. destruct (@slice_read E Z b i (i + Z.of_nat k)) as (s & -> & Hl & Hd & HP); [lia..|].
  exists (from_be s). split; [done|]. apply HP in Hb. pose proof (from_be_fits s Hb) as Hf.
  split; [by replace (Z.of_nat k) with (zlen s) by lia|]. rewrite Hd. f_equal.
  rewrite <- (to_from_be s Hb) at 1. f_equal. unfold zlen in Hl. lia.
Qed.

(** ** Envelopes *)

Section envelopes.
Context (blake3 : bytes -> bytes).

Definition schema_ok (s : ErasureSchema) : Prop :=
  1 <= data_shards s /\ 1 <= parity_shards s /\ total_shards s <= 256.

Record envelope_ok (e : ShardEnvelope) : Prop := {
  eo_schema : schema_ok (schema e);
  eo_index : fits 8 (shard_index e);
  eo_size : fits 64 (original_size e);
  eo_checksum : zlen (checksum e) = 32;
  eo_payload : fits 32 (zlen (payload e));
  eo_id : fits 16 (zlen (object_id e));
  eo_utf8 : Utf8.utf8_valid (object_id e) = true;
  eo_verified : verify_checksum blake3 e = true }.

Lemma schema_new_ok s : schema_ok s -> schema_new (data_shards s) (parity_shards s) = Ok s.
Proof.
  intros (H1 & H2 & H3). unfold schema_new, total_shards in *. destruct s as [d p]. cbn in *.
  rewrite (proj2 (Z.eqb_neq d 0)), (proj2 (Z.eqb_neq p 0)) by lia. cbn.
  rewrite wrap_small by (unfold fits; lia). by rewrite (proj2 (Z.ltb_ge _ _)) by lia.
Qed.

Lemma from_to_bytes e rest : envelope_ok e -> from_bytes blake3 (to_bytes e ++ rest) = Ok e.
Proof.
  intros [Hs Hi Hz Hc Hp Hn Hu Hv]. pose proof (schema_new_ok _ Hs) as Hsn. destruct Hs as (Hd & Hpa & Ht).
  unfold total_shards in Ht. pose proof (zlen_nonneg rest). pose proof (zlen_nonneg (object_id e)).
  pose proof (zlen_nonneg (payload e)).
  unfold to_bytes. rewrite !wrap_small by (done || (unfold fits; lia)). rewrite <- !app_assoc.
  unfold from_bytes, MIN_HEADER. assert (zlen SHARD_MAGIC = 4) as Hmag by done. generalize dependent SHARD_MAGIC. intros magic Hmag.
  repeat run_be. rewrite bool_decide_true by done. cbn [negb]. change (SHARD_VERSION =? SHARD_VERSION) with true.
  repeat run_be. rewrite Utf8.from_utf8_ok by done. cbn [ok_or obind]. repeat run_be. rewrite Hsn. cbn [obind].
  destruct e; cbn in *. by rewrite Hv.
Qed.

Lemma schema_new_inv d p s : fits 8 d -> fits 8 p -> schema_new d p = Ok s ->
  schema_ok s /\ data_shards s = d /\ parity_shards s = p.
Proof.
  intros Hd Hp. unfold schema_new, fits in *. destruct (Z.eqb_spec d 0), (Z.eqb_spec p 0); cbn; try done.
  rewrite wrap_small by (unfold fits; lia). destruct (Z.ltb_spec 256 (d + p)); [done|]. intros [= <-].
  unfold schema_ok, total_shards. cbn. lia.
Qed.

Definition parsed (b : bytes) (r : outcome EcError ShardEnvelope) : Prop :=
  match r with
  | Ok e => envelope_ok e /\ exists rest, b = to_bytes e ++ rest
  | Err _ => True
  | Panic => False
  end.

Lemma from_bytes_parsed b : is_bytes b -> parsed b (from_bytes blake3 b).
Proof.
  intros Hb. unfold from_bytes, MIN_HEADER. change (4 + 1 + 1 + 1 + 1 + 8 + 4 + 32 + 2) with 54.
  destruct (Z.ltb_spec (zlen b) 54) as [|Hl]; [done|].
  destruct (@slice_read EcError Z b 0 4) as (magic & -> & _ & D0 & _); [lia..|]. cbn [obind].
  case_bool_decide as Hm; [subst magic; cbn [negb]|done].
  destruct (@index_read EcError b 4) as (v & -> & _ & D4); [done|lia|]. cbn [obind].
  destruct (Z.eqb_spec v SHARD_VERSION) as [->|]; [cbn [negb]|done].
  destruct (@index_read EcError b 5) as (d & -> & Fd & D5); [done|lia|]. cbn [obind].
  destruct (@index_read EcError b 6) as (p & -> & Fp & D6); [done|lia|]. cbn [obind].
  destruct (@index_read EcError b 7) as (ix & -> & Fi & D7); [done|lia|]. cbn [obind].
  destruct (@be_read EcError b 8 8 8 eq_refl) as (size & -> & Fs & D8); [done|lia..|]. cbn [obind].
  destruct (@be_read EcError b 16 4 4 eq_refl) as (np & -> & Fnp & D16); [done|lia..|]. cbn [obind].
  destruct (@slice_read EcError Z b 20 52) as (ck & -> & Hck & D20 & _); [lia..|]. cbn [obind].
  destruct (@be_read EcError b 52 2 2 eq_refl) as (nobj & -> & Fno & D52); [done|lia..|]. cbn [obind].
  destruct (Z.ltb_spec (zlen b) (54 + nobj + np)) as [|Hl2]; [done|].
  destruct (@slice_read EcError Z b 54 (54 + nobj)) as (obj & -> & Ho & D54 & _); [unfold fits in *; lia..|]. cbn [obind].
  destruct (Utf8.from_utf8 obj) as [oid|] eqn:Hu; [|done]. cbn [ok_or obind]. apply Utf8.from_utf8_Some in Hu as [-> Hu].
  destruct (@slice_read EcError Z b (54 + nobj) (54 + nobj + np)) as (pl & -> & Hpl & Dpl & _); [unfold fits in *; lia..|].
  cbn [obind]. destruct (schema_new d p) as [sc| |] eqn:Hsc; cbn [obind]; [|done|].
  2: { unfold schema_new in Hsc. by repeat case_match. }
  apply schema_new_inv in Hsc as (Hso & Hsd & Hsp); [|done..].
  set (env := mkEnvelope _ _ _ _ _ _). destruct (verify_checksum blake3 env) eqn:Hv; [cbn [negb]|done].
  split; [split; cbn; try done; unfold fits in *; lia|].
  exists (drop (Z.to_nat (54 + nobj + np)) b). unfold to_bytes. cbn [schema object_id payload checksum shard_index original_size env].
  rewrite Hsd, Hsp, !wrap_small by (try done; unfold fits in *; lia).
  replace (zlen pl) with np by lia. replace (zlen obj) with nobj by lia. rewrite <- !app_assoc, <- Dpl, <- D54.
  change (Z.to_nat 54) with (Z.to_nat (52 + 2)). rewrite <- D52, <- D20.
  change (Z.to_nat 20) with (Z.to_nat (16 + 4)). rewrite <- D16.
  change (Z.to_nat 16) with (Z.to_nat (8 + 8)). rewrite <- D8.
  change (Z.to_nat 8) with (Z.to_nat (7 + 1)). rewrite <- D7. change (Z.to_nat 7) with (Z.to_nat (6 + 1)). rewrite <- D6.
  change (Z.to_nat 6) with (Z.to_nat (5 + 1)). rewrite <- D5. change (Z.to_nat 5) with (Z.to_nat (4 + 1)). by rewrite <- D4, <- D0.
Qed.

End envelopes.

(** ** Encoding *)

Section objects.
Context (blake3 : bytes -> bytes) (data id : bytes) (sc : ErasureSchema).
Context (Hdata : is_bytes data) (Hsc : schema_ok sc).
Abbreviation k := (data_shards sc).
Abbreviation m := (parity_shards sc).
Abbreviation ssz := (ss data k).
Abbreviation par := (GfMatrix.cauchy_entry m).
Abbreviation word := (genuine k m ssz (data_src data k) par).

Lemma k_pos : 0 < k.
Proof. destruct Hsc. lia. Qed.
Lemma m_pos : 0 <= m.
Proof. destruct Hsc. lia. Qed.
Lemma km_le : k + m <= 256.
Proof. destruct Hsc as (_ & _ & H). exact H. Qed.

Lemma shard_size_eq : (if bool_decide (data = []) then 1 else div_ceil (zlen data) k) = ssz.
Proof.
  pose proof k_pos. unfold ss, div_ceil. case_bool_decide as He.
  - rewrite He. change (zlen []) with 0. by rewrite Z.mod_0_l, Z.div_0_l by lia.
  - assert (0 < zlen data) by (destruct data; [done|unfold zlen; cbn; lia]).
    pose proof (Z.div_mod (zlen data) k ltac:(lia)). pose proof (Z.mod_pos_bound (zlen data) k ltac:(lia)).
    assert (0 <= zlen data / k) by (apply Z.div_pos; lia).
    destruct (Z.eqb_spec (zlen data mod k) 0); [|lia]. assert (zlen data / k <> 0) by nia. lia.
Qed.

Lemma data_shard_eq i : data_shard data ssz i = FecBlock.source_symbol data ssz i.
Proof. unfold data_shard, FecBlock.source_symbol. by replace ((i + 1) * ssz) with (i * ssz + ssz) by lia. Qed.

(** Shard [i] of the object: the envelope of symbol [i] of the code word. *)
Definition shard_of (i : Z) (e : ShardEnvelope) : Prop :=
  exists p, e = envelope_new blake3 id sc i (zlen data) p /\ word (mkSymbol i p).
Definition object_shards (l : list ShardEnvelope) : Prop :=
  zlen l = k + m /\ forall i e, l !! i = Some e -> shard_of (Z.of_nat i) e.

Lemma parity_ok cauchy : GfMatrix.mat cauchy m k par ->
  returns (for_range 0 m (fun i l => let? s := parity_shard cauchy k (pieces data k) ssz i in Ok (l ++ [s])) [])
    (fun l => zlen l = m /\ forall i p, l !! i = Some p -> word (mkSymbol (k + Z.of_nat i) p)).
Proof.
  intros Hmat. pose proof k_pos as Hk. pose proof m_pos as Hm. pose proof km_le as Hkm.
  pose proof (ss_bounds data k m Hk Hm Hkm) as [Hs1 _].
  refine (for_range_inv _ (fun c l => zlen l = c /\ forall i p, l !! i = Some p -> word (mkSymbol (k + Z.of_nat i) p)) 0 m [] ltac:(lia) _ _).
  { split; [done|]. intros i p Hp. done. }
  intros i l Hi [Hl Hw]. apply returns_bind.
  change (parity_shard cauchy k (pieces data k) ssz i) with (FecCodec.parity_row (FecCodec.mk k m cauchy) (pieces data k) ssz i).
  eapply returns_mono; [apply (parity_row_ok k m ssz ltac:(lia) ltac:(lia) (data_src data k))|]; [by split_and!|by apply (pieces_sources data k m)|done|].
  intros v Hv. cbn [returns]. split; [rewrite zlen_app, Hl; done|]. intros j p Hp.
  apply lookup_app_Some in Hp as [Hp|[Hge Hp]]; [by apply Hw|]. unfold zlen in Hl.
  apply list_lookup_singleton_Some in Hp as [Hj <-]. replace (Z.of_nat j) with i by lia.
  split; cbn; [lia|]. apply (vec_ext _ _ _ _ Hv). intros b _. unfold coded. apply ssum_ext. intros c _.
  unfold gen. rewrite decide_False by lia. by replace (k + i - k) with i by lia.
Qed.

Lemma encode_shards_ok : returns (encode_shards blake3 data sc id) object_shards.
Proof.
  pose proof k_pos as Hk. pose proof m_pos as Hm. pose proof km_le as Hkm. unfold encode_shards. cbv zeta. rewrite shard_size_eq.
  assert (for_range (E := Empty_set) 0 k (fun i l => let? s := data_shard data ssz i in Ok (l ++ [s])) [] = Ok (pieces data k)) as ->.
  { rewrite <- (slice_sources_ok data k m) by done. apply for_each_ext. intros i l. by rewrite data_shard_eq. }
  cbn [obind]. apply returns_bind, (returns_mono _ _ _ (GfMatrix.cauchy_ok m k ltac:(lia) ltac:(lia) ltac:(lia))).
  intros cauchy Hc. apply returns_bind, (returns_mono _ _ _ (parity_ok cauchy Hc)). intros parity [Hpl Hp].
  cbn [returns]. pose proof (pieces_sources data k m Hdata Hk Hm Hkm) as [Hsl Hs]. unfold zlen in *.
  split; [unfold zlen; rewrite length_app, !length_imap; lia|]. intros i e He.
  apply lookup_app_Some in He as [He|[Hge He]]; rewrite ?length_imap in *; rewrite list_lookup_imap in He.
  - destruct (pieces data k !! i) as [v|] eqn:Hv; [|done]. injection He as <-. exists v. split; [done|].
    pose proof (lookup_lt_Some _ _ _ Hv). split; [cbn; lia|]. cbn. destruct (Hs (Z.of_nat i)) as (w & Hw & Hwv); [lia|].
    rewrite Nat2Z.id in Hw. assert (w = v) as -> by congruence.
    apply (vec_ext _ _ _ _ Hwv). intros b _. symmetry. apply coded_source. lia.
  - destruct (parity !! _) as [p|] eqn:Hv; [|done]. injection He as <-. cbn. exists p.
    replace (k + Z.of_nat (i - length (pieces data k))) with (Z.of_nat i) by lia. split; [done|].
    apply Hp in Hv. by replace (k + Z.of_nat (i - length (pieces data k))) with (Z.of_nat i) in Hv by lia.
Qed.

(** ** Decoding *)

Lemma shard_of_fields j e : shard_of j e -> verify_checksum blake3 e = true /\ shard_index e = j /\
  original_size e = zlen data /\ zlen (payload e) = ssz /\ object_id e = id /\ 0 <= j < k + m.
Proof.
  intros (p & -> & Hj & [Hl _]). cbn in *. split_and!; try done; [|lia..].
  unfold verify_checksum. cbn. by rewrite bool_decide_true.
Qed.

Section slots.
(** The shard in each slot, if there is one. *)
Context (f : Z -> option ShardEnvelope) (Hf : forall j e, f j = Some e -> shard_of j e).

Definition kept (n len : Z) : list (Z * ShardEnvelope) :=
  omap (fun j => (fun e => (j, e)) <$> f j) (seqZ n len).
Abbreviation V := (kept 0 (k + m)).

Lemma valid_shards_kept n slots : (forall i, (i < length slots)%nat -> slots !! i = Some (f (n + Z.of_nat i))) ->
  0 <= n -> valid_shards blake3 n slots = kept n (zlen slots).
Proof.
  revert n. induction slots as [|o slots IH]; intros n H Hn.
  { unfold kept. by rewrite seqZ_nil. }
  unfold kept. rewrite zlen_cons, seqZ_cons by (pose proof (zlen_nonneg slots); lia).
  replace (Z.pred (1 + zlen slots)) with (zlen slots) by lia. replace (Z.succ n) with (n + 1) by lia.
  assert (valid_shards blake3 (n + 1) slots = kept (n + 1) (zlen slots)) as IH'.
  { apply IH; [|lia]. intros i Hi. specialize (H (S i) ltac:(cbn; lia)). change ((o :: slots) !! S i) with (slots !! i) in H.
    rewrite H. do 2 f_equal. lia. }
  specialize (H 0%nat ltac:(cbn; lia)). cbn in H. injection H as ->. rewrite Z.add_0_r in *. cbn [omap list_omap].
  fold (kept (n + 1) (zlen slots)). cbn [valid_shards]. rewrite IH'. destruct (f n) as [e|] eqn:He; cbn; [|done].
  destruct (shard_of_fields _ _ (Hf _ _ He)) as (-> & -> & _). by rewrite Z.min_id.
Qed.

Lemma kept_elem j e : (j, e) ∈ V <-> f j = Some e.
Proof.
  unfold kept. rewrite list_elem_of_omap. split.
  - intros (x & _ & Hx). destruct (f x) eqn:E; [|done]. by injection Hx as <- <-.
  - intros He. exists j. rewrite He. split; [|done]. rewrite elem_of_seqZ.
    destruct (shard_of_fields _ _ (Hf _ _ He)) as (_ & _ & _ & _ & _ & ?). lia.
Qed.

Lemma kept_fst : V.*1 = filter (fun j => is_Some (f j)) (seqZ 0 (k + m)).
Proof.
  unfold kept. generalize (seqZ 0 (k + m)). intros l. induction l as [|j l IH]; [done|]. cbn [omap list_omap].
  rewrite filter_cons. destruct (f j) as [e|] eqn:He; cbn [fmap option_fmap option_map].
  - rewrite decide_True by eauto. cbn. by f_equal.
  - rewrite decide_False; [done|]. by intros [? ?].
Qed.

Definition sym (e : Z * ShardEnvelope) : FecSymbol := mkSymbol e.1 (payload e.2).

Lemma kept_word : Forall word (sym <$> V) /\ NoDup (ids (sym <$> V)).
Proof.
  split.
  - apply Forall_fmap, Forall_forall. intros [j e] Hje%kept_elem%Hf. destruct Hje as (p & -> & Hw). exact Hw.
  - unfold ids. rewrite <- list_fmap_compose. change (NoDup (V.*1)). rewrite kept_fst. apply NoDup_filter, NoDup_seqZ.
Qed.

Lemma kept_piece j e : (j, e) ∈ V -> j < k -> payload e = piece data k j.
Proof.
  intros Hje%kept_elem%Hf Hj. destruct Hje as (p & -> & Hi & Hv). cbn in *.
  apply (vec_inj _ _ ssz (data_src data k j)); [|apply (piece_vec data k m Hdata k_pos m_pos km_le); lia].
  apply (vec_ext _ _ _ _ Hv). intros b _. apply coded_source. lia.
Qed.

Lemma concat_data_ok : has_all_data k V = true -> concat_data k V = Ok (mjoin (pieces data k)).
Proof.
  intros Hall. pose proof k_pos. unfold has_all_data in Hall. rewrite forallb_forall in Hall.
  enough (returns (concat_data k V) (fun out => out = mjoin (piece data k <$> seqZ 0 k))) as Hr.
  { apply returns_inv in Hr as (out & -> & ->). done. }
  refine (for_range_inv _ (fun n out => out = mjoin (piece data k <$> seqZ 0 n)) 0 k [] ltac:(lia) eq_refl _).
  intros i out Hi ->.
  specialize (Hall i). rewrite <- list_elem_of_In, elem_of_seqZ, existsb_exists in Hall.
  destruct Hall as (e & He & Hei); [lia|]. destruct (List.find _ V) as [[j e']|] eqn:Hfind.
  2: { pose proof (List.find_none _ _ Hfind _ He) as Hn. cbn in Hn. congruence. }
  apply List.find_some in Hfind as [Hin Hj]. cbn in Hj. apply Z.eqb_eq in Hj as ->. cbn [returns snd].
  rewrite (kept_piece i e') by (by apply list_elem_of_In || lia). 
  rewrite seqZ_app, fmap_app, join_app, (seqZ_cons _ 1), (seqZ_nil _ (Z.pred 1)) by lia. cbn. by rewrite app_nil_r.
Qed.

(** The matrix and the solution are those of the codec on the selected symbols. *)
Lemma decode_matrix_eq cauchy sel :
  decode_matrix cauchy k sel = FecCodec.submatrix (FecCodec.mk k m cauchy) (sym <$> sel).
Proof. unfold decode_matrix, FecCodec.submatrix. by rewrite for_each_fmap. Qed.

Lemma recover_eq cauchy inv sel : zlen sel = k ->
  recover inv k ssz sel = FecCodec.solve (FecCodec.mk k m cauchy) inv (sym <$> sel) ssz.
Proof.
  intros Hl. unfold recover, FecCodec.solve. rewrite Hl. cbn [FecCodec.k].
  apply for_each_ext. intros j res. apply for_each_ext. intros r res'.
  destruct (GfMatrix.get inv j r) as [factor| |]; cbn [obind]; [|done|done]. destruct (factor =? 0); [done|].
  rewrite index_fmap. by destruct (index sel r).
Qed.

Lemma decode_kept slots : zlen slots = k + m ->
  (forall i, (i < length slots)%nat -> slots !! i = Some (f (Z.of_nat i))) ->
  decode blake3 slots sc = if decide (k <= zlen V) then Ok data else Err (EcUnrecoverable (zlen V) k).
Proof.
  intros Hlen Hslots. pose proof k_pos as Hk. pose proof m_pos as Hm. pose proof km_le as Hkm.
  unfold decode. rewrite (valid_shards_kept 0 slots), Hlen by (done || lia).
  destruct (Z.ltb_spec (zlen V) k) as [Hlt|Hge]; [by rewrite decide_False by lia|]. rewrite decide_True by lia.
  destruct (lookup_lt_is_Some_2 V 0) as [[j0 e0] He0]; [unfold zlen in *; lia|].
  rewrite (index_ok V 0 _ ltac:(lia) He0). cbn [obind snd].
  apply list_elem_of_lookup_2, kept_elem, Hf, shard_of_fields in He0 as (_ & _ & -> & -> & _).
  destruct (has_all_data k V) eqn:Hall.
  { rewrite (concat_data_ok Hall). cbn. by rewrite (take_pieces data k m Hk Hm Hkm). }
  destruct (returns_inv _ _ (GfMatrix.cauchy_ok m k Hm ltac:(lia) ltac:(lia))) as (cauchy & -> & Hc). cbn [lift obind].
  destruct kept_word as [Hw Hnd]. pose proof (ss_bounds data k m Hk Hm Hkm) as [Hs1 _].
  pose proof (decode_general_ok k m ssz Hk Hm Hkm ltac:(lia) (data_src data k) par (FecCodec.mk k m cauchy) (sym <$> V)
    ltac:(by split_and!) Hnd Hw ltac:(done) ltac:(unfold zlen in *; rewrite length_fmap; lia)) as Hd.
  unfold FecCodec.decode_general in Hd. cbn [FecCodec.k] in Hd.
  rewrite slice_prefix, <- fmap_take in Hd by (unfold zlen in *; rewrite ?length_fmap; lia). cbn [obind] in Hd.
  rewrite <- decode_matrix_eq in Hd.
  destruct (decode_matrix cauchy k (take (Z.to_nat k) V)) as [a| |]; [|done|done]. cbn [lift obind] in *.
  destruct (GfMatrix.invert a) as [[inv|]| |]; [|by destruct Hd as (? & ? & _)|done|done]. cbn [lift obind] in *.
  rewrite (recover_eq cauchy) by (rewrite zlen_take; lia). destruct (FecCodec.solve _ _ _ _) as [res| |]; [|done|done].
  cbn in *. destruct Hd as (res' & [= <-] & Hres).
  rewrite (sources_unique k ssz (data_src data k) _ _ Hres (pieces_sources data k m Hdata Hk Hm Hkm)).
  by rewrite (take_pieces data k m Hk Hm Hkm).
Qed.
End slots.

Lemma encode_eq : exists envs, encode blake3 data sc id = Ok envs /\ object_shards envs.
Proof.
  destruct (returns_inv _ _ encode_shards_ok) as (envs & He & Ho). exists envs. split; [|done].
  unfold encode. rewrite He, (proj2 (Z.eqb_neq k 0)), andb_false_r by (pose proof k_pos; lia). done.
Qed.

(** The id of an object is in its envelopes and nowhere else. *)
Definition with_id (id : bytes) (e : ShardEnvelope) : ShardEnvelope :=
  mkEnvelope id (schema e) (shard_index e) (original_size e) (checksum e) (payload e).

Lemma encode_shards_with_id id' envs : encode_shards blake3 data sc id = Ok envs ->
  encode_shards blake3 data sc id' = Ok (with_id id' <$> envs).
Proof.
  unfold encode_shards. set (l := for_range 0 (data_shards sc) _ _). destruct l as [shards| |]; [|done|done]. cbn [obind].
  destruct (GfMatrix.cauchy _ _) as [cauchy| |]; [|done|done]. cbn [obind]. set (q := for_range 0 (parity_shards sc) _ _).
  destruct q as [parity| |]; [|done|done]. cbn [obind]. intros [= <-]. by rewrite fmap_app, !fmap_imap.
Qed.

Lemma encode_with_id id' envs : encode blake3 data sc id = Ok envs -> encode blake3 data sc id' = Ok (with_id id' <$> envs).
Proof.
  unfold encode. case_match; [done|]. intros Hl. destruct (encode_shards blake3 data sc id) as [l| |] eqn:E; [|done|done].
  injection Hl as <-. by rewrite (encode_shards_with_id id' _ E).
Qed.

(** ** Rebuilding *)

Section rebuild.
Context (envs : list ShardEnvelope) (Henvs : object_shards envs).

(** The indices of the shards with a good checksum. *)
Definition good_ids (available : list ShardEnvelope) : list Z :=
  shard_index <$> filter (fun e => verify_checksum blake3 e = true) available.
Definition from_object (available : list ShardEnvelope) : Prop :=
  forall e, e ∈ available -> e ∈ envs \/ verify_checksum blake3 e = false.
Definition slot (available : list ShardEnvelope) (j : Z) : option ShardEnvelope :=
  if decide (j ∈ good_ids available) then envs !! Z.to_nat j else None.

Lemma envs_lookup e : e ∈ envs -> 0 <= shard_index e < k + m /\ envs !! Z.to_nat (shard_index e) = Some e.
Proof.
  intros [i Hi]%list_elem_of_lookup. destruct Henvs as [_ H].
  destruct (shard_of_fields _ _ (H _ _ Hi)) as (_ & Hix & _ & _ & _ & ?). rewrite Hix, Nat2Z.id. done.
Qed.

Lemma slot_shard available j e : from_object available -> slot available j = Some e -> shard_of j e.
Proof.
  intros Hfrom. unfold slot. case_decide as Hj; [|done]. intros He.
  apply list_elem_of_fmap in Hj as (e' & -> & [Hv Hin]%list_elem_of_filter).
  destruct (Hfrom e' Hin) as [Henv|]; [|congruence]. apply envs_lookup in Henv as [Hr He'].
  destruct Henvs as [_ H]. pose proof (H _ _ He) as Hs. by rewrite Z2Nat.id in Hs by lia.
Qed.

Lemma fill_slots_slot available : from_object available ->
  zlen (fill_slots blake3 (k + m) available) = k + m /\
  forall i, (i < Z.to_nat (k + m))%nat -> fill_slots blake3 (k + m) available !! i = Some (slot available (Z.of_nat i)).
Proof.
  pose proof k_pos. pose proof m_pos. induction available as [|e l IH] using rev_ind; intros Hfrom.
  { cbn. split; [rewrite zlen_replicate; lia|]. intros i Hi. by apply lookup_replicate. }
  destruct IH as [IHl IHs]; [intros x Hx; apply Hfrom; set_solver|].
  unfold fill_slots. rewrite foldl_app. cbn [foldl]. fold (fill_slots blake3 (k + m) l).
  destruct (Hfrom e ltac:(set_solver)) as [Henv|Hbad].
  - destruct (envs_lookup e Henv) as [Hr Hlook]. pose proof (proj2 Henvs _ _ Hlook) as Hs.
    apply shard_of_fields in Hs as (Hv & _). rewrite Hv, (proj2 (Z.ltb_lt _ _)) by lia. cbn [andb].
    split; [by rewrite zlen_insert|]. intros i Hi. unfold slot, good_ids. rewrite filter_app, fmap_app.
    rewrite filter_cons_True by done. cbn. destruct (decide (i = Z.to_nat (shard_index e))) as [->|Hne].
    + rewrite list_lookup_insert_eq by (unfold zlen in *; lia). rewrite Z2Nat.id, decide_True by (lia || set_solver). congruence.
    + rewrite list_lookup_insert_ne, IHs by done. unfold slot, good_ids. f_equal. apply decide_ext.
      rewrite elem_of_app, list_elem_of_singleton. naive_solver lia.
  - rewrite Hbad, andb_false_r. split; [done|]. intros i Hi. rewrite IHs by done. unfold slot, good_ids.
    rewrite filter_app, filter_cons_False, filter_nil, app_nil_r by congruence. done.
Qed.

Lemma kept_count available : from_object available ->
  zlen (kept (slot available) 0 (k + m)) = Z.of_nat (size (list_to_set (good_ids available) : gset Z)).
Proof.
  intros Hfrom. unfold zlen. f_equal. rewrite <- (length_fmap fst). fold (kept (slot available) 0 (k + m)).
  rewrite kept_fst. rewrite <- (size_list_to_set (C := gset Z)) by apply NoDup_filter, NoDup_seqZ.
  f_equal. apply set_eq. intros j. rewrite !elem_of_list_to_set, list_elem_of_filter, elem_of_seqZ.
  unfold slot. split; [intros [Hs _]; case_decide; [done|by destruct Hs]|]. intros Hj.
  rewrite decide_True by done. apply list_elem_of_fmap in Hj as (e & -> & [Hv Hin]%list_elem_of_filter).
  destruct (Hfrom e Hin) as [Henv|]; [|congruence]. apply envs_lookup in Henv as [Hr ->]. split; [eauto|lia].
Qed.
End rebuild.
End objects.

(** Envelopes. A well-formed shard envelope is read back from its bytes, whatever follows; and
    reading any bytes does not panic, and accepts only a well-formed envelope with a good checksum
    whose bytes the input starts with. *)
Theorem ec_envelope_codec blake3 :
  (forall e rest, envelope_ok blake3 e -> from_bytes blake3 (to_bytes e ++ rest) = Ok e) /\
  (forall b, is_bytes b ->
    match from_bytes blake3 b with
    | Ok e => envelope_ok blake3 e /\ exists rest, b = to_bytes e ++ rest
    | Err _ => True
    | Panic => False
    end).
Proof. split; [apply from_to_bytes|apply from_bytes_parsed]. Qed.

(** C22. Any [k] shards of an object bring back all of them. The available shards are shards of an encoded object, in any order and
    with duplicates, mixed with any shards whose payload does not have their checksum: a shard that is none of the object's but has a good
    checksum is excluded. When [k] different ones of the object are there, [reconstruct_all] returns exactly the encoded shards, under the
    id in the first available shard, be it a corrupt one; that is the encoding itself when that shard has the id of the object. Otherwise it
    reports how many there are. It does not panic. *)
Theorem ec_reconstructs blake3 data id sc : is_bytes data -> schema_ok sc -> exists envs,
  encode blake3 data sc id = Ok envs /\ zlen envs = total_shards sc /\ with_id id <$> envs = envs /\
  forall available,
    (forall e, e ∈ available -> e ∈ envs \/ verify_checksum blake3 e = false) ->
    let n := Z.of_nat (size (list_to_set (good_ids blake3 available) : gset Z)) in
    reconstruct_all blake3 available sc =
      if decide (data_shards sc <= n) then Ok (with_id (default id (object_id <$> head available)) <$> envs)
      else Err (EcUnrecoverable n (data_shards sc)).
Proof.
  intros Hdata Hsc. destruct (encode_eq blake3 data id sc Hdata Hsc) as (envs & He & Henvs).
  exists envs. split; [done|]. split; [apply Henvs|].
  split; [pose proof (encode_with_id blake3 data id sc id envs He); congruence|]. intros available Hfrom n. unfold reconstruct_all.
  destruct (fill_slots_slot blake3 data id sc Hdata Hsc envs Henvs available Hfrom) as [Hl Hs].
  rewrite (decode_kept blake3 data id sc Hdata Hsc (slot blake3 envs available)).
  - rewrite (kept_count blake3 data id sc envs Henvs available Hfrom). fold n. case_decide as Hn; [cbn [obind]|done].
    destruct available as [|e l]; [|cbn; by apply (encode_with_id blake3 data id)].
    exfalso. unfold n in Hn. cbn in Hn. rewrite size_empty in Hn. destruct Hsc. lia.
  - intros j e Hj. by apply (slot_shard blake3 data id sc envs Henvs available).
  - exact Hl.
  - intros i Hi. apply Hs. unfold zlen, total_shards in *. lia.
Qed.

(** ** Examples *)

Module EcExamples.
Definition toy (b : bytes) : bytes := foldl (fun a x => (a * 31 + x) mod 251) 7 b :: replicate 31 0.
Definition sc22 : ErasureSchema := mkSchema 2 2.
Definition oid : bytes := Utf8.str_bytes "obj".
Definition shards : list ShardEnvelope :=
  match encode toy [10; 20; 30] sc22 oid with Ok l => l | _ => [] end.
(** The first data shard with a changed byte. *)
Definition corrupt : ShardEnvelope := mkEnvelope (Utf8.str_bytes "other") sc22 0 3 (toy [10; 20]) [11; 20].

(** A corrupted shard of another object, then the two parity shards: the rebuilt shards have its id. *)
Lemma ec_reconstructs_witness : exists envs, encode toy [10; 20; 30] sc22 oid = Ok envs /\
  reconstruct_all toy (corrupt :: rev (drop 2 envs)) sc22 = Ok (with_id (Utf8.str_bytes "other") <$> envs) /\
  reconstruct_all toy (rev (drop 2 envs)) sc22 = Ok envs.
Proof.
  destruct (ec_reconstructs toy [10; 20; 30] oid sc22 ltac:(repeat (constructor; try (unfold fits; lia)))
    ltac:(unfold schema_ok, total_shards, sc22; cbn; lia)) as (envs & Henc & _ & _ & Hdec).
  exists envs. split; [done|]. vm_compute in Henc. injection Henc as <-. split; (etrans; [apply Hdec|vm_compute; reflexivity]).
  - intros e [->|He]%elem_of_cons; [right; vm_compute; reflexivity|]. left. cbn [rev app drop] in He. set_solver.
  - intros e He. left. cbn [rev app drop] in He. set_solver.
Defined.

Lemma ec_envelope_codec_witness : from_bytes toy (to_bytes (envelope_new toy oid sc22 3 3 [1; 2]) ++ [9]) =
  Ok (envelope_new toy oid sc22 3 3 [1; 2]).
Proof.
  apply (ec_envelope_codec toy). split; [unfold schema_ok, total_shards, sc22; cbn; lia|unfold fits; cbn; lia|unfold fits; cbn; lia|reflexivity|
    vm_compute; split; congruence|vm_compute; split; congruence|vm_compute; reflexivity|vm_compute; reflexivity].
Defined.

(** [decode] takes a shard for the one of its position when that is smaller than its index: two
    good parity shards in the first slots are returned as if they were the data. *)
Theorem decode_misplaced : exists out,
  decode toy [shards !! 2%nat; shards !! 3%nat] sc22 = Ok out /\ out <> [10; 20; 30].
Proof. eexists. split; [vm_compute; reflexivity|discriminate]. Qed.

(** Good shards of different lengths make [decode] panic. *)
Theorem decode_lengths_panic :
  decode toy [None; None; Some (envelope_new toy oid sc22 2 3 [1; 2]); Some (envelope_new toy oid sc22 3 3 [1])] sc22 = Panic.
Proof. vm_compute. reflexivity. Qed.
End EcExamples.
