(* ===== verification/Consensus.v ===== *)
(** * Raft coordinator, consensus/mod.rs

    [RaftCoordinator] as a record and its handlers as functions from a node to a node and a
    reply; [now] is the clock the code reads with [now_secs]. The statistics counters and the
    heartbeat instants, which nothing reads back, are left out. The cluster at the end is a set
    of nodes and the messages that were ever sent: a step runs one handler of one node on any
    of them, so messages are reordered, duplicated and lost at will. *)

From S2P Require Import Prelude.

Inductive RaftRole := Follower | Candidate | Leader.
#[global] Instance RaftRole_eq_dec : EqDecision RaftRole.
Proof. solve_decision. Defined.

Inductive RaftCommand :=
  | RegisterNode (node_id address role : string)
  | DecommissionNode (node_id : string)
  | AcquireLease (resource holder : string) (ttl_ms epoch : Z)
  | ReleaseLease (resource holder : string)
  | UpdateMetadata (key value : string) (version : Z)
  | FenceEpoch (node_id : string) (min_valid_epoch : Z)
  | Noop.

#[global] Instance RaftCommand_eq_dec : EqDecision RaftCommand.
Proof. solve_decision. Defined.

Record RaftLogEntry := mkEntry {
  e_index : Z; e_term : Z; e_command : RaftCommand; e_timestamp_secs : Z }.

#[global] Instance RaftLogEntry_eq_dec : EqDecision RaftLogEntry.
Proof. solve_decision. Defined.

Record ClusterLease := mkLease {
  l_resource : string; l_holder : string; l_granted_at_secs : Z; l_expires_at_secs : Z; l_epoch : Z }.

Definition is_active (l : ClusterLease) (now_secs : Z) : bool := now_secs <? l_expires_at_secs l.

Record RequestVoteRequest := mkVoteReq {
  vq_term : Z; vq_candidate_id : string; vq_last_log_index : Z; vq_last_log_term : Z }.
Record RequestVoteResponse := mkVoteResp {
  vr_term : Z; vr_vote_granted : bool; vr_voter_id : string }.
Record AppendEntriesRequest := mkAppendReq {
  aq_term : Z; aq_leader_id : string; aq_prev_log_index : Z; aq_prev_log_term : Z;
  aq_entries : list RaftLogEntry; aq_leader_commit : Z }.
Record AppendEntriesResponse := mkAppendResp {
  ar_term : Z; ar_success : bool; ar_match_index : Z; ar_responder_id : string }.

(** ** The replicated state machine *)

Module ClusterMetadata.
Record t := mk {
  nodes : gmap string (string * string);
  leases : gmap string ClusterLease;
  metadata : gmap string (string * Z);
  fenced_epochs : gmap string Z }.

Definition empty : t := mk ∅ ∅ ∅ ∅.

(** [now_secs + ttl_secs] on [u64]. *)
Definition lease_of (resource holder : string) (ttl_ms epoch now_secs : Z) : ClusterLease :=
  let ttl_secs := Z.max (ttl_ms / 1000) 1 in
  mkLease resource holder now_secs (wrap 64 (now_secs + ttl_secs)) epoch.

Definition apply (s : t) (command : RaftCommand) (now_secs : Z) : t :=
  match command with
  | RegisterNode node_id address role =>
      mk (<[node_id := (address, role)]> (nodes s)) (leases s) (metadata s) (fenced_epochs s)
  | DecommissionNode node_id =>
      mk (delete node_id (nodes s)) (leases s) (metadata s) (fenced_epochs s)
  | AcquireLease resource holder ttl_ms epoch =>
      let rejected :=
        match fenced_epochs s !! holder with
        | Some min_epoch => epoch <? min_epoch
        | None => false
        end in
      if rejected then s
      else mk (nodes s) (<[resource := lease_of resource holder ttl_ms epoch now_secs]> (leases s))
             (metadata s) (fenced_epochs s)
  | ReleaseLease resource holder =>
      match leases s !! resource with
      | Some existing =>
          if decide (l_holder existing = holder)
          then mk (nodes s) (delete resource (leases s)) (metadata s) (fenced_epochs s)
          else s
      | None => s
      end
  | UpdateMetadata key value version =>
      mk (nodes s) (leases s) (<[key := (value, version)]> (metadata s)) (fenced_epochs s)
  | FenceEpoch node_id min_valid_epoch =>
      mk (nodes s) (leases s) (metadata s) (<[node_id := min_valid_epoch]> (fenced_epochs s))
  | Noop => s
  end.
End ClusterMetadata.

Record PeerProgress := mkProgress { next_index : Z; match_index : Z }.

(** [VelcruxError::Config]. *)
Inductive RaftError := Config (why : string).

(** ** The coordinator *)

Module Raft.

Record t := mk {
  node_id : string;
  current_term : Z;
  voted_for : option string;
  role : RaftRole;
  leader_id : option string;
  log : list RaftLogEntry;
  commit_index : Z;
  last_applied : Z;
  peers : gmap string PeerProgress;
  votes_received : gset string;
  state_machine : ClusterMetadata.t;
  lease_epoch_counter : Z }.

Definition new (node_id : string) (peer_ids : list string) : t :=
  let peers := foldl (fun peers peer =>
    if decide (peer = node_id) then peers else <[peer := mkProgress 1 0]> peers) ∅ peer_ids in
  mk node_id 0 None Follower None [] 0 0 peers ∅ ClusterMetadata.empty 1.

(** Field updates. *)
Definition set_election (n : t) (term : Z) (r : RaftRole) (v leader : option string) : t :=
  mk (node_id n) term v r leader (log n) (commit_index n) (last_applied n) (peers n)
    (votes_received n) (state_machine n) (lease_epoch_counter n).
Definition set_votes (n : t) (votes : gset string) : t :=
  mk (node_id n) (current_term n) (voted_for n) (role n) (leader_id n) (log n) (commit_index n)
    (last_applied n) (peers n) votes (state_machine n) (lease_epoch_counter n).
Definition set_log (n : t) (l : list RaftLogEntry) : t :=
  mk (node_id n) (current_term n) (voted_for n) (role n) (leader_id n) l (commit_index n)
    (last_applied n) (peers n) (votes_received n) (state_machine n) (lease_epoch_counter n).
Definition set_peers (n : t) (p : gmap string PeerProgress) : t :=
  mk (node_id n) (current_term n) (voted_for n) (role n) (leader_id n) (log n) (commit_index n)
    (last_applied n) p (votes_received n) (state_machine n) (lease_epoch_counter n).
Definition set_commit (n : t) (c : Z) : t :=
  mk (node_id n) (current_term n) (voted_for n) (role n) (leader_id n) (log n) c
    (last_applied n) (peers n) (votes_received n) (state_machine n) (lease_epoch_counter n).
Definition set_applied (n : t) (a : Z) (s : ClusterMetadata.t) : t :=
  mk (node_id n) (current_term n) (voted_for n) (role n) (leader_id n) (log n) (commit_index n)
    a (peers n) (votes_received n) s (lease_epoch_counter n).
Definition set_epoch (n : t) (e : Z) : t :=
  mk (node_id n) (current_term n) (voted_for n) (role n) (leader_id n) (log n) (commit_index n)
    (last_applied n) (peers n) (votes_received n) (state_machine n) e.

(** [log.last().map(|e| e.term).unwrap_or(0)] *)
Definition last_term (l : list RaftLogEntry) : Z :=
  match last l with Some e => e_term e | None => 0 end.

(** ** Elections *)

Definition handle_request_vote (n : t) (req : RequestVoteRequest) : t * RequestVoteResponse :=
  let n :=
    if current_term n <? vq_term req then set_election n (vq_term req) Follower None None else n in
  if vq_term req <? current_term n then (n, mkVoteResp (current_term n) false (node_id n))
  else
    let my_last_index := zlen (log n) in
    let my_last_term := last_term (log n) in
    let candidate_log_ok :=
      (my_last_term <? vq_last_log_term req) ||
      ((vq_last_log_term req =? my_last_term) && (my_last_index <=? vq_last_log_index req)) in
    let can_vote :=
      match voted_for n with
      | None => true
      | Some voted => bool_decide (voted = vq_candidate_id req)
      end in
    if can_vote && candidate_log_ok then
      (set_election n (current_term n) (role n) (Some (vq_candidate_id req)) (leader_id n),
       mkVoteResp (current_term n) true (node_id n))
    else (n, mkVoteResp (current_term n) false (node_id n)).

Definition start_election (n : t) : t * RequestVoteRequest :=
  let new_term := wrap 64 (current_term n + 1) in
  let n := set_election n new_term Candidate (Some (node_id n)) None in
  let n := set_votes n {[node_id n]} in
  (n, mkVoteReq new_term (node_id n) (zlen (log n)) (last_term (log n))).

(** ** Applying and proposing *)

(** [while last_applied < commit_target && last_applied < log.len()], over the rest of the log. *)
Fixpoint apply_loop (rest : list RaftLogEntry) (last_applied commit_target now : Z)
  (sm : ClusterMetadata.t) : Z * ClusterMetadata.t :=
  match rest with
  | [] => (last_applied, sm)
  | entry :: rest =>
      if last_applied <? commit_target
      then apply_loop rest (last_applied + 1) commit_target now
             (ClusterMetadata.apply sm (e_command entry) now)
      else (last_applied, sm)
  end.

Definition apply_committed_entries (n : t) (commit_target now : Z) : t :=
  if last_applied n <? commit_target then
    let '(la, sm) := apply_loop (drop (Z.to_nat (last_applied n)) (log n)) (last_applied n)
                       commit_target now (state_machine n) in
    set_applied n la sm
  else n.

Definition propose (n : t) (command : RaftCommand) (now : Z) : outcome RaftError (t * Z) :=
  if decide (role n = Leader) then
    let index := zlen (log n) + 1 in
    let n := set_log n (log n ++ [mkEntry index (current_term n) command now]) in
    let n :=
      if decide (peers n = ∅) then apply_committed_entries (set_commit n index) index now else n in
    Ok (n, index)
  else
    let leader := default "unknown" (leader_id n) in
    Err (Config ("cannot propose command on follower: redirect to leader '" +:+ leader +:+ "'")).

Definition commit_index_to (n : t) (target_index now : Z) : t :=
  let target := Z.min target_index (zlen (log n)) in
  apply_committed_entries (set_commit n target) target now.

Definition record_vote (n : t) (voter_id : string) (granted : bool) (term now : Z) : t * bool :=
  if current_term n <? term then (set_election n term Follower None (leader_id n), false)
  else if negb (bool_decide (role n = Candidate)) || negb (term =? current_term n) || negb granted
  then (n, false)
  else
    let total_nodes := Z.of_nat (size (peers n)) + 1 in
    let quorum_needed := total_nodes / 2 + 1 in
    let n := set_votes n (votes_received n ∪ {[voter_id]}) in
    let votes_count := Z.of_nat (size (votes_received n)) in
    if quorum_needed <=? votes_count then
      let n := set_election n (current_term n) Leader (voted_for n) (Some (node_id n)) in
      let log_len := zlen (log n) in
      let n := set_peers n ((fun _ => mkProgress (log_len + 1) 0) <$> peers n) in
      match propose n Noop now with
      | Ok (n, _) => (n, true)
      | _ => (n, true)
      end
    else (n, false).

(** ** Replication *)

(** The loop that appends the entries not already in the log. With index 0 the subtraction wraps
    to [u64::MAX] and the access panics, as an access at -1 does here. *)
Fixpoint append_loop (entries : list RaftLogEntry) (l : list RaftLogEntry)
  : pure (list RaftLogEntry) :=
  match entries with
  | [] => Ok l
  | entry :: entries =>
      if e_index entry <=? zlen l then
        let? existing := index l (e_index entry - 1) in
        if e_term existing =? e_term entry then append_loop entries l
        else append_loop entries (take (Z.to_nat (e_index entry - 1)) l ++ [entry])
      else append_loop entries (l ++ [entry])
  end.

Definition handle_append_entries (n : t) (req : AppendEntriesRequest) (now : Z)
  : pure (t * AppendEntriesResponse) :=
  let n :=
    if current_term n <? aq_term req
    then set_election n (aq_term req) Follower None (leader_id n) else n in
  if aq_term req <? current_term n then
    Ok (n, mkAppendResp (current_term n) false (zlen (log n)) (node_id n))
  else
    let n := set_election n (current_term n) Follower (voted_for n) (Some (aq_leader_id req)) in
    if (0 <? aq_prev_log_index req) && (zlen (log n) <? aq_prev_log_index req) then
      Ok (n, mkAppendResp (current_term n) false (zlen (log n)) (node_id n))
    else
      let? prev_ok :=
        (if 0 <? aq_prev_log_index req then
           let? prev_entry := index (log n) (aq_prev_log_index req - 1) in
           Ok (e_term prev_entry =? aq_prev_log_term req)
         else Ok true) in
      if negb prev_ok then
        let n := set_log n (take (Z.to_nat (aq_prev_log_index req - 1)) (log n)) in
        Ok (n, mkAppendResp (current_term n) false (zlen (log n)) (node_id n))
      else
        let? l := append_loop (aq_entries req) (log n) in
        let n := set_log n l in
        let last_log_index := zlen l in
        let n :=
          if commit_index n <? aq_leader_commit req then
            let new_commit := Z.min (aq_leader_commit req) last_log_index in
            apply_committed_entries (set_commit n new_commit) new_commit now
          else n in
        Ok (n, mkAppendResp (current_term n) true last_log_index (node_id n)).

Definition create_append_entries_for_peer (n : t) (peer_id : string)
  : pure (option AppendEntriesRequest) :=
  if decide (role n = Leader) then
    match peers n !! peer_id with
    | None => Ok None
    | Some progress =>
        let prev_log_index := saturating_sub (next_index progress) 1 in
        let? prev_log_term :=
          (if (0 <? prev_log_index) && (prev_log_index <=? zlen (log n)) then
             let? e := index (log n) (prev_log_index - 1) in Ok (e_term e)
           else Ok 0) in
        let? entries :=
          (if next_index progress <=? zlen (log n)
           then slice_from (log n) (next_index progress - 1) else Ok []) in
        Ok (Some (mkAppendReq (current_term n) (node_id n) prev_log_index prev_log_term entries
                    (commit_index n)))
    end
  else Ok None.

(** The number of nodes, the leader included, that have index [i]. *)
Definition matches (p : gmap string PeerProgress) (i : Z) : Z :=
  1 + Z.of_nat (size (filter (fun kv => i <= match_index kv.2) p)).

(** [for n in ((current_commit + 1)..=log.len()).rev()]: the positions from the last down;
    [break] at the first that is of this term and on a quorum. *)
Fixpoint commit_loop (positions : list Z) (n : t) (quorum now : Z) : pure t :=
  match positions with
  | [] => Ok n
  | i :: positions =>
      let? e := index (log n) (i - 1) in
      if e_term e =? current_term n then
        if quorum <=? matches (peers n) i
        then Ok (apply_committed_entries (set_commit n i) i now)
        else commit_loop positions n quorum now
      else commit_loop positions n quorum now
  end.

Definition handle_append_response (n : t) (peer_id : string) (resp : AppendEntriesResponse)
  (now : Z) : pure t :=
  if current_term n <? ar_term resp
  then Ok (set_election n (ar_term resp) Follower None (leader_id n))
  else if negb (bool_decide (role n = Leader)) || negb (ar_term resp =? current_term n) then Ok n
  else
    let n :=
      match peers n !! peer_id with
      | None => n
      | Some progress =>
          let progress :=
            if ar_success resp
            then mkProgress (wrap 64 (ar_match_index resp + 1)) (ar_match_index resp)
            else mkProgress (Z.max (saturating_sub (next_index progress) 1) 1) (match_index progress) in
          set_peers n (<[peer_id := progress]> (peers n))
      end in
    let total_nodes := Z.of_nat (size (peers n)) + 1 in
    let quorum := total_nodes / 2 + 1 in
    commit_loop (rev (seqZ (commit_index n + 1) (zlen (log n) - commit_index n))) n quorum now.

(** ** Leases *)

Definition acquire_lease (n : t) (resource holder : string) (ttl_ms now : Z)
  : t * outcome RaftError ClusterLease :=
  let epoch := lease_epoch_counter n in
  let n := set_epoch n (wrap 64 (epoch + 1)) in
  match propose n (AcquireLease resource holder ttl_ms epoch) now with
  | Ok (n, _) => (n, Ok (ClusterMetadata.lease_of resource holder ttl_ms epoch now))
  | Err e => (n, Err e)
  | Panic => (n, Panic)
  end.

Definition release_lease (n : t) (resource holder : string) (now : Z) : outcome RaftError (t * bool) :=
  let? ' (n, _) := propose n (ReleaseLease resource holder) now in Ok (n, true).

Definition get_lease (n : t) (resource : string) (now : Z) : option ClusterLease :=
  match ClusterMetadata.leases (state_machine n) !! resource with
  | Some l => if is_active l now then Some l else None
  | None => None
  end.

Definition list_active_leases (n : t) (now : Z) : list ClusterLease :=
  List.filter (fun l => is_active l now)
    (snd <$> map_to_list (ClusterMetadata.leases (state_machine n))).

Definition register_node (n : t) (id address role : string) (now : Z) : outcome RaftError t :=
  let? ' (n, _) := propose n (RegisterNode id address role) now in Ok n.
Definition decommission_node (n : t) (id : string) (now : Z) : outcome RaftError t :=
  let? ' (n, _) := propose n (DecommissionNode id) now in Ok n.
Definition fence_epoch (n : t) (id : string) (min_valid_epoch now : Z) : outcome RaftError t :=
  let? ' (n, _) := propose n (FenceEpoch id min_valid_epoch) now in Ok n.
Definition get_metadata (n : t) (key : string) : option (string * Z) :=
  ClusterMetadata.metadata (state_machine n) !! key.
End Raft.

(** ** The cluster *)

Inductive message :=
  | VoteReq (req : RequestVoteRequest)
  | VoteResp (candidate : string) (resp : RequestVoteResponse)
  | AppendReq (peer : string) (req : AppendEntriesRequest)
  | AppendResp (leader : string) (resp : AppendEntriesResponse).

(** The nodes, every message sent so far, and every election won: term and winner. *)
Record cluster := mkCluster {
  members : gmap string Raft.t;
  sent : list message;
  elected : list (Z * string) }.

Definition initial (ids : list string) : cluster :=
  mkCluster (list_to_map ((fun id => (id, Raft.new id ids)) <$> ids)) [] [].

Definition update (c : cluster) (id : string) (n : Raft.t) (msgs : list message) : cluster :=
  mkCluster (<[id := n]> (members c)) (msgs ++ sent c) (elected c).

(** A call of one coordinator, as the driver of the protocol makes them: with a message that was
    sent to it, or of its own accord. Terms do not reach [u64::MAX]. *)
Inductive step (c : cluster) : cluster -> Prop :=
  | step_start_election id n : members c !! id = Some n ->
      Raft.current_term n + 1 < 2 ^ 64 ->
      let r := Raft.start_election n in
      step c (update c id r.1 [VoteReq r.2])
  | step_request_vote id n req : members c !! id = Some n -> VoteReq req ∈ sent c ->
      let r := Raft.handle_request_vote n req in
      step c (update c id r.1 [VoteResp (vq_candidate_id req) r.2])
  | step_record_vote id n resp now : members c !! id = Some n -> VoteResp id resp ∈ sent c ->
      let r := Raft.record_vote n (vr_voter_id resp) (vr_vote_granted resp) (vr_term resp) now in
      step c (mkCluster (<[id := r.1]> (members c)) (sent c)
                ((if r.2 then [(Raft.current_term r.1, id)] else []) ++ elected c))
  | step_propose id n cmd now n' i : members c !! id = Some n ->
      Raft.propose n cmd now = Ok (n', i) -> step c (update c id n' [])
  | step_acquire_lease id n resource holder ttl_ms now : members c !! id = Some n ->
      step c (update c id (Raft.acquire_lease n resource holder ttl_ms now).1 [])
  | step_send_append id n peer req : members c !! id = Some n ->
      Raft.create_append_entries_for_peer n peer = Ok (Some req) ->
      step c (update c id n [AppendReq peer req])
  | step_append_entries id n req now n' resp : members c !! id = Some n ->
      AppendReq id req ∈ sent c -> Raft.handle_append_entries n req now = Ok (n', resp) ->
      step c (update c id n' [AppendResp (aq_leader_id req) resp])
  | step_append_response id n resp now n' : members c !! id = Some n ->
      AppendResp id resp ∈ sent c ->
      Raft.handle_append_response n (ar_responder_id resp) resp now = Ok n' ->
      step c (update c id n' [])
  | step_commit_index_to id n target now : members c !! id = Some n ->
      step c (update c id (Raft.commit_index_to n target now) []).

Definition reachable (ids : list string) : cluster -> Prop := rtc step (initial ids).
