(* ===== verification/ConsensusSafety.v ===== *)
(** * Safety of the Raft coordinator

    Over all runs of a cluster of [RaftCoordinator]s: at most one node is ever elected in a term,
    and logs that agree on an entry agree on everything before it. A vote is a fact about the
    messages sent; the log argument goes through [hist], the log of the leader of each term. *)

From S2P Require Import Prelude Consensus.

(** ** What the handlers do to a node's election state *)

(** A handler that casts no vote: the term does not go back; in the same term the vote and the
    votes received stay and the role stays or becomes follower; in a new term the node is a
    follower. *)
Record quiet (n n' : Raft.t) : Prop := {
  q_id : Raft.node_id n' = Raft.node_id n;
  q_peers : dom (Raft.peers n') = dom (Raft.peers n);
  q_term : Raft.current_term n <= Raft.current_term n';
  q_same : Raft.current_term n' = Raft.current_term n ->
    Raft.voted_for n' = Raft.voted_for n /\ Raft.votes_received n' = Raft.votes_received n /\
    (Raft.role n' = Raft.role n \/ Raft.role n' = Follower);
  q_later : Raft.current_term n < Raft.current_term n' -> Raft.role n' = Follower }.

Lemma quiet_refl n : quiet n n.
Proof. split; auto; lia. Qed.

Lemma quiet_trans n1 n2 n3 : quiet n1 n2 -> quiet n2 n3 -> quiet n1 n3.
Proof.
  intros [A1 A2 A3 A4 A5] [B1 B2 B3 B4 B5]. split; [congruence|congruence|lia| |].
  - intros Heq. destruct A4 as (? & ? & ?); [lia|]. destruct B4 as (? & ? & ?); [lia|].
    split_and!; [congruence..|]. naive_solver congruence.
  - intros Hlt. destruct (decide (Raft.current_term n2 = Raft.current_term n3)) as [He|He].
    + destruct B4 as (_ & _ & Hr); [lia|]. rewrite A5 in Hr by lia. naive_solver.
    + apply B5. lia.
Qed.

(** Updates of fields that elections do not use. *)
Lemma quiet_frame n n' : Raft.node_id n' = Raft.node_id n -> dom (Raft.peers n') = dom (Raft.peers n) ->
  Raft.current_term n' = Raft.current_term n -> Raft.voted_for n' = Raft.voted_for n ->
  Raft.votes_received n' = Raft.votes_received n -> Raft.role n' = Raft.role n -> quiet n n'.
Proof. intros. split; auto; lia. Qed.

(** [apply_committed_entries] writes [last_applied] and the state machine only. *)
Lemma applied_fields n target now : exists la sm,
  Raft.apply_committed_entries n target now = Raft.set_applied n la sm.
Proof.
  unfold Raft.apply_committed_entries. destruct (_ <? _).
  - destruct (Raft.apply_loop _ _ _ _ _) as [la sm]. by exists la, sm.
  - exists (Raft.last_applied n), (Raft.state_machine n). by destruct n.
Qed.

Ltac applied := match goal with |- context [Raft.apply_committed_entries ?n ?t ?now] =>
  let la := fresh "la" in let sm := fresh "sm" in
  destruct (applied_fields n t now) as (la & sm & ->) end.

Lemma quiet_propose n cmd now n' i : Raft.propose n cmd now = Ok (n', i) ->
  quiet n n' /\ Raft.role n = Leader /\
  Raft.log n' = Raft.log n ++ [mkEntry (zlen (Raft.log n) + 1) (Raft.current_term n) cmd now].
Proof.
  unfold Raft.propose. case_decide as Hr; [|done]. intros [= <- _]. case_decide.
  - applied. split_and!; [by apply quiet_frame|done..].
  - split_and!; [by apply quiet_frame|done..].
Qed.

Lemma quiet_append_entries n req now n' resp :
  Raft.handle_append_entries n req now = Ok (n', resp) ->
  quiet n n' /\ (Raft.role n' = Leader -> Raft.log n' = Raft.log n).
Proof.
  unfold Raft.handle_append_entries.
  set (n1 := if Raft.current_term n <? aq_term req then _ else n).
  assert (quiet n n1 /\ Raft.log n1 = Raft.log n /\ aq_term req <= Raft.current_term n1) as (H1 & Hl1 & Ht1).
  { unfold n1. destruct (Z.ltb_spec (Raft.current_term n) (aq_term req)).
    - split_and!; [split; cbn; auto; lia|done|cbn; lia].
    - split_and!; [apply quiet_refl|done|lia]. }
  clearbody n1. destruct (_ <? Raft.current_term n1).
  { intros [= <- _]. done. }
  set (n2 := Raft.set_election n1 _ _ _ _).
  assert (forall n3, quiet n2 n3 -> Raft.role n3 = Follower ->
    quiet n n3 /\ (Raft.role n3 = Leader -> Raft.log n3 = Raft.log n)) as Hdone.
  { intros n3 H3 Hr. split; [|by rewrite Hr]. apply (quiet_trans _ n1), (quiet_trans _ n2); [done| |done].
    split; cbn; auto; lia. }
  destruct (_ && _). { intros [= <- _]. apply Hdone; [apply quiet_refl|done]. }
  intros (prev_ok & _ & Hk)%obind_ok_inv. destruct (negb prev_ok).
  { injection Hk as <- _. apply Hdone; [by apply quiet_frame|done]. }
  apply obind_ok_inv in Hk as (l & _ & [= <- _]). destruct (_ <? _).
  - applied. apply Hdone; [by apply quiet_frame|done].
  - apply Hdone; [by apply quiet_frame|done].
Qed.

Lemma quiet_commit_loop positions n quorum now n' :
  Raft.commit_loop positions n quorum now = Ok n' -> quiet n n' /\ Raft.log n' = Raft.log n.
Proof.
  induction positions as [|i positions IH]; cbn [Raft.commit_loop].
  { intros [= <-]. split; [apply quiet_refl|done]. }
  intros (e & _ & Hk)%obind_ok_inv. destruct (_ =? _); [|by apply IH]. destruct (_ <=? _); [|by apply IH].
  injection Hk as <-. applied. split; [by apply quiet_frame|done].
Qed.

Lemma quiet_append_response n peer resp now n' :
  Raft.handle_append_response n peer resp now = Ok n' -> quiet n n' /\ Raft.log n' = Raft.log n.
Proof.
  unfold Raft.handle_append_response. destruct (Z.ltb_spec (Raft.current_term n) (ar_term resp)).
  { intros [= <-]. split; [split; cbn; auto; lia|done]. }
  destruct (_ || _). { intros [= <-]. split; [apply quiet_refl|done]. }
  intros [Hq Hl]%quiet_commit_loop. destruct (Raft.peers n !! peer) as [pr|] eqn:Hp; [|done].
  split; [|done]. eapply quiet_trans; [|exact Hq]. apply quiet_frame; try done. cbn.
  apply dom_insert_lookup_L. by eexists.
Qed.

Lemma quiet_lease n r h ttl now : let n' := (Raft.acquire_lease n r h ttl now).1 in
  quiet n n' /\ (Raft.log n' = Raft.log n \/ Raft.role n = Leader /\
    exists cmd, Raft.log n' = Raft.log n ++ [mkEntry (zlen (Raft.log n) + 1) (Raft.current_term n) cmd now]).
Proof.
  unfold Raft.acquire_lease. destruct (Raft.propose _ _ _) as [[n' i]|e|] eqn:Hp; cbn [fst].
  - apply quiet_propose in Hp as (Hq & Hr & Hl). split; [|right; split; [exact Hr|eexists; exact Hl]].
    eapply quiet_trans; [|exact Hq]. by apply quiet_frame.
  - split; [by apply quiet_frame|by left].
  - split; [by apply quiet_frame|by left].
Qed.

Lemma quiet_commit_to n target now : let n' := Raft.commit_index_to n target now in
  quiet n n' /\ Raft.log n' = Raft.log n.
Proof. unfold Raft.commit_index_to. applied. split; [by apply quiet_frame|done]. Qed.

(** Counting a vote: nothing, or the voter is added, or with that the election is won. *)
Lemma record_vote_cases n v granted term now :
  let r := Raft.record_vote n v granted term now in
  (r.2 = false /\ quiet n r.1 /\ Raft.log r.1 = Raft.log n) \/
  (granted = true /\ term = Raft.current_term n /\ Raft.role n = Candidate /\
   Raft.node_id r.1 = Raft.node_id n /\ dom (Raft.peers r.1) = dom (Raft.peers n) /\
   Raft.current_term r.1 = Raft.current_term n /\ Raft.voted_for r.1 = Raft.voted_for n /\
   Raft.votes_received r.1 = Raft.votes_received n ∪ {[v]} /\
   (r.2 = false /\ Raft.role r.1 = Candidate /\ Raft.log r.1 = Raft.log n \/
    r.2 = true /\ Raft.role r.1 = Leader /\
    Raft.log r.1 = Raft.log n ++ [mkEntry (zlen (Raft.log n) + 1) (Raft.current_term n) Noop now] /\
    (size (Raft.peers n) + 1 < 2 * size (Raft.votes_received n ∪ {[v]}))%nat)).
Proof.
  unfold Raft.record_vote. destruct (Z.ltb_spec (Raft.current_term n) term).
  { left. split_and!; [done|split; cbn; auto; lia|done]. }
  destruct (negb _ || _ || _) eqn:Hc. { left. split_and!; [done|apply quiet_refl|done]. }
  apply orb_false_iff in Hc as [[Hr Ht]%orb_false_iff Hg].
  apply negb_false_iff, bool_decide_eq_true in Hr. apply negb_false_iff, Z.eqb_eq in Ht.
  apply negb_false_iff in Hg. right. destruct (_ <=? _) eqn:Hq.
  - destruct (Raft.propose _ Noop now) as [[n' i]|e|] eqn:Hp.
    + cbn [fst snd]. apply Z.leb_le in Hq. cbn in Hq. unfold Raft.propose in Hp. cbn in Hp.
      injection Hp as <- _. split_and!; try done.
      all: try (case_decide; [applied|]; cbn; by rewrite ?dom_fmap_L).
      right. split; [done|]. split; [by case_decide; [applied|]|].
      split; [by case_decide; [applied|]|].
      pose proof (Z.mod_pos_bound (Z.of_nat (size (Raft.peers n)) + 1) 2 ltac:(lia)).
      pose proof (Z.div_mod (Z.of_nat (size (Raft.peers n)) + 1) 2 ltac:(lia)). lia.
    + unfold Raft.propose in Hp. done.
    + unfold Raft.propose in Hp. done.
  - cbn [fst snd]. split_and!; try done. by left.
Qed.

(** ** Votes *)

(** [v] voted for [cand] in term [t]: it said so, or it is the candidate and asked for votes. *)
Definition vote (c : cluster) (v : string) (t : Z) (cand : string) : Prop :=
  VoteResp cand (mkVoteResp t true v) ∈ sent c \/
  (v = cand /\ exists req, VoteReq req ∈ sent c /\ vq_term req = t /\ vq_candidate_id req = cand).

Record election_inv (c : cluster) : Prop := {
  ei_node : forall id n, members c !! id = Some n ->
    Raft.node_id n = id /\ dom (Raft.peers n) = dom (members c) ∖ {[id]};
  ei_vote : forall v t cand, vote c v t cand -> exists n, members c !! v = Some n /\
    t <= Raft.current_term n /\ (t = Raft.current_term n -> Raft.voted_for n = Some cand);
  ei_once : forall v t c1 c2, vote c v t c1 -> vote c v t c2 -> c1 = c2;
  ei_received : forall id n v, members c !! id = Some n -> Raft.role n <> Follower ->
    v ∈ Raft.votes_received n -> vote c v (Raft.current_term n) id;
  ei_elected : forall t id, (t, id) ∈ elected c -> exists (q : gset string), q ⊆ dom (members c) /\
    (size (dom (members c)) < 2 * size q)%nat /\ (forall v, v ∈ q -> vote c v t id);
  ei_leader : forall id n, members c !! id = Some n -> Raft.role n = Leader ->
    (Raft.current_term n, id) ∈ elected c;
  ei_past : forall t id, (t, id) ∈ elected c -> exists n, members c !! id = Some n /\
    t <= Raft.current_term n /\ (t = Raft.current_term n -> Raft.role n <> Candidate);
  ei_unique : NoDup (elected c).*1 }.

(** Two quorums share a member. *)
Lemma quorum_meet (m q1 q2 : gset string) : q1 ⊆ m -> q2 ⊆ m ->
  (size m < 2 * size q1)%nat -> (size m < 2 * size q2)%nat -> exists v, v ∈ q1 /\ v ∈ q2.
Proof.
  intros H1 H2 S1 S2. destruct (set_choose_or_empty (q1 ∩ q2)) as [[v Hv]|He]; [exists v; set_solver|].
  assert (size (q1 ∪ q2) = size q1 + size q2)%nat as Hs by (apply size_union; set_solver).
  assert (size (q1 ∪ q2) <= size m)%nat by (apply subseteq_size; set_solver). lia.
Qed.

Lemma vote_mono c c' v t cand : (forall m, m ∈ sent c -> m ∈ sent c') -> vote c v t cand -> vote c' v t cand.
Proof. unfold vote. naive_solver. Qed.

(** One node changes, the sent messages grow by [msgs]; the votes in [msgs] are by that node. *)
Section one_node.
Context (c : cluster) (id : string) (n n' : Raft.t) (msgs : list message)
  (Hinv : election_inv c) (Hn : members c !! id = Some n).
Context (Hid : Raft.node_id n' = Raft.node_id n) (Hp : dom (Raft.peers n') = dom (Raft.peers n))
  (Ht : Raft.current_term n <= Raft.current_term n').
Context (el : list (Z * string)).
Abbreviation c' := (mkCluster (<[id := n']> (members c)) (msgs ++ sent c) (el ++ elected c)).
(** The votes of [msgs] are cast by [id], in the term it is in now, as [voted_for] says. *)
Context (Hnew : forall v t cand, vote c' v t cand -> vote c v t cand \/
  (v = id /\ t = Raft.current_term n' /\ Raft.voted_for n' = Some cand)).
(** In the same term a vote is only set, not changed. *)
Context (Hkeep : Raft.current_term n' = Raft.current_term n -> forall cand,
  Raft.voted_for n = Some cand -> Raft.voted_for n' = Some cand).

Lemma one_dom : dom (members c') = dom (members c).
Proof. cbn. apply dom_insert_lookup_L. by eexists. Qed.

Lemma one_old v t cand : vote c v t cand -> vote c' v t cand.
Proof. apply vote_mono. intros m Hm. apply elem_of_app. by right. Qed.

Lemma one_node_id i m : members c' !! i = Some m ->
  Raft.node_id m = i /\ dom (Raft.peers m) = dom (members c') ∖ {[i]}.
Proof.
  rewrite one_dom. cbn. rewrite lookup_insert_Some. destruct (ei_node _ Hinv id n Hn) as [A B].
  intros [[<- <-]|[_ Hi]]; [split; congruence|]. by apply (ei_node _ Hinv).
Qed.

Lemma one_vote v t cand : vote c' v t cand -> exists m, members c' !! v = Some m /\
  t <= Raft.current_term m /\ (t = Raft.current_term m -> Raft.voted_for m = Some cand).
Proof.
  cbn. intros [Hv|(-> & -> & Hc)]%Hnew.
  - destruct (ei_vote _ Hinv v t cand Hv) as (m & Hm & Hle & Hvf).
    destruct (decide (v = id)) as [->|Hne].
    + exists n'. rewrite lookup_insert_eq. assert (m = n) as -> by congruence. split_and!; [done|lia|].
      intros ->. apply Hkeep; [lia|]. apply Hvf. lia.
    + exists m. by rewrite lookup_insert_ne.
  - exists n'. rewrite lookup_insert_eq. split_and!; [done|lia|done].
Qed.

Lemma one_once v t c1 c2 : vote c' v t c1 -> vote c' v t c2 -> c1 = c2.
Proof.
  assert (forall cand, vote c id (Raft.current_term n') cand -> Raft.voted_for n' = Some cand) as Hcur.
  { intros cand Hv. destruct (ei_vote _ Hinv _ _ _ Hv) as (m & Hm & Hle & Hvf).
    assert (m = n) as -> by congruence. apply Hkeep; [lia|]. apply Hvf. lia. }
  intros [H1|(-> & -> & H1)]%Hnew [H2|(H & H' & H2)]%Hnew; subst.
  - by apply (ei_once _ Hinv v t).
  - apply Hcur in H1. congruence.
  - apply Hcur in H2. congruence.
  - congruence.
Qed.

Lemma one_elected t i : (t, i) ∈ elected c -> exists (q : gset string), q ⊆ dom (members c') /\
  (size (dom (members c')) < 2 * size q)%nat /\ (forall v, v ∈ q -> vote c' v t i).
Proof.
  intros Hin. rewrite one_dom. destruct (ei_elected _ Hinv t i Hin) as (q & Hq & Hs & Hv).
  exists q. split_and!; [done..|]. intros v Hvq. by apply one_old, Hv.
Qed.

Lemma one_past t i : (Raft.role n' = Candidate -> Raft.role n = Candidate \/ Raft.current_term n < Raft.current_term n') ->
  (t, i) ∈ elected c -> exists m, members c' !! i = Some m /\
  t <= Raft.current_term m /\ (t = Raft.current_term m -> Raft.role m <> Candidate).
Proof.
  intros Hr Hin. destruct (ei_past _ Hinv t i Hin) as (m & Hm & Hle & Hnc). cbn.
  destruct (decide (i = id)) as [->|Hne]; [|exists m; by rewrite lookup_insert_ne].
  assert (m = n) as -> by congruence. exists n'. rewrite lookup_insert_eq. split_and!; [done|lia|].
  intros Heq Hcand. destruct (Hr Hcand) as [H|H]; [|lia].
  destruct (decide (t = Raft.current_term n)) as [He|]; [by apply (Hnc He)|lia].
Qed.
End one_node.

Lemma vote_split c id n' msgs el v t cand :
  vote (mkCluster (<[id := n']> (members c)) (msgs ++ sent c) el) v t cand ->
  vote c v t cand \/ VoteResp cand (mkVoteResp t true v) ∈ msgs \/
    (v = cand /\ exists req, VoteReq req ∈ msgs /\ vq_term req = t /\ vq_candidate_id req = cand).
Proof.
  unfold vote. cbn. rewrite elem_of_app. intros [[H|H]|(-> & req & H & ?)]; [auto..|].
  apply elem_of_app in H as [H|H]; [right; right|left; right]; naive_solver.
Qed.

(** A quiet handler keeps the invariant. *)
Lemma election_quiet c id n n' msgs : election_inv c -> members c !! id = Some n -> quiet n n' ->
  (forall cand resp, VoteResp cand resp ∈ msgs -> vr_vote_granted resp = false) ->
  (forall req, VoteReq req ∉ msgs) ->
  election_inv (update c id n' msgs).
Proof.
  intros Hinv Hn [Qid Qp Qt Qs Ql] Hresp Hreq.
  assert (forall v t cand, vote (update c id n' msgs) v t cand -> vote c v t cand \/
    (v = id /\ t = Raft.current_term n' /\ Raft.voted_for n' = Some cand)) as Hnew.
  { intros v t cand [H|[H|(_ & req & H & _)]]%vote_split; [by left| |by apply Hreq in H].
    apply Hresp in H. done. }
  assert (Raft.current_term n' = Raft.current_term n -> forall cand,
    Raft.voted_for n = Some cand -> Raft.voted_for n' = Some cand) as Hkeep.
  { intros He cand Hv. destruct Qs as (-> & _); done. }
  unfold update in *. rewrite <- (app_nil_l (elected c)) in *.
  split.
  - by apply (one_node_id c id n n' msgs Hinv Hn Qid Qp []).
  - by apply (one_vote c id n n' msgs Hinv Hn Qt [] Hnew Hkeep).
  - by apply (one_once c id n n' msgs Hinv Hn Qt [] Hnew Hkeep).
  - intros i m v. cbn [members]. rewrite lookup_insert_Some. intros [[<- <-]|[_ Hi]] Hr Hv.
    + destruct (decide (Raft.current_term n' = Raft.current_term n)) as [He|He].
      * destruct Qs as (_ & Hvr & Hrole); [done|]. rewrite He. apply one_old.
        apply (ei_received _ Hinv id n); [done| |congruence]. destruct Hrole; congruence.
      * rewrite Ql in Hr by lia. done.
    + apply one_old. by apply (ei_received _ Hinv i).
  - intros t i. apply (one_elected c id n n' msgs Hinv Hn []).
  - intros i m. cbn [members elected app]. rewrite lookup_insert_Some. intros [[<- <-]|[_ Hi]] Hr.
    + destruct (decide (Raft.current_term n' = Raft.current_term n)) as [He|He].
      * destruct Qs as (_ & _ & Hrole); [done|]. rewrite He. apply (ei_leader _ Hinv id n); [done|].
        destruct Hrole; congruence.
      * rewrite Ql in Hr by lia. done.
    + by apply (ei_leader _ Hinv i).
  - intros t i. apply (one_past c id n n' msgs Hinv Hn Qt []). intros Hc.
    destruct (decide (Raft.current_term n' = Raft.current_term n)) as [He|He].
    + destruct Qs as (_ & _ & [Hrole|Hrole]); [done|left|]; congruence.
    + rewrite Ql in Hc by lia. done.
  - apply (ei_unique _ Hinv).
Qed.

Lemma election_start c id n : election_inv c -> members c !! id = Some n ->
  0 <= Raft.current_term n -> Raft.current_term n + 1 < 2 ^ 64 ->
  let r := Raft.start_election n in election_inv (update c id r.1 [VoteReq r.2]).
Proof.
  intros Hinv Hn H0 Hmax r. destruct (ei_node _ Hinv id n Hn) as [Hid _].
  assert (Raft.current_term r.1 = Raft.current_term n + 1) as Hterm by (cbn; apply wrap_small; unfold fits; lia).
  assert (forall v t cand, vote (update c id r.1 [VoteReq r.2]) v t cand -> vote c v t cand \/
    (v = id /\ t = Raft.current_term r.1 /\ Raft.voted_for r.1 = Some cand)) as Hnew.
  { intros v t cand [H|[H|(-> & req & H & <- & <-)]]%vote_split; [by left|set_solver|].
    apply list_elem_of_singleton in H as [= ->]. right. cbn. by rewrite Hid. }
  assert (vote (update c id r.1 [VoteReq r.2]) id (Raft.current_term r.1) id) as Hself.
  { right. split; [done|]. exists r.2. cbn. split_and!; [set_solver|done..]. }
  assert (Raft.current_term n <= Raft.current_term r.1) as Hle by lia.
  assert (Raft.current_term r.1 = Raft.current_term n -> forall cand,
    Raft.voted_for n = Some cand -> Raft.voted_for r.1 = Some cand) as Hkeep by (intros; lia).
  unfold update in *. rewrite <- (app_nil_l (elected c)) in *. split.
  - by apply (one_node_id c id n r.1 [VoteReq r.2] Hinv Hn).
  - by apply (one_vote c id n r.1 [VoteReq r.2] Hinv Hn Hle [] Hnew Hkeep).
  - by apply (one_once c id n r.1 [VoteReq r.2] Hinv Hn Hle [] Hnew Hkeep).
  - intros i m v. cbn [members]. rewrite lookup_insert_Some. intros [[<- <-]|[_ Hi]] Hr Hv.
    + assert (v = id) as -> by (cbn in Hv; set_solver). exact Hself.
    + apply one_old. by apply (ei_received _ Hinv i).
  - intros t i. by apply (one_elected c id n r.1 [VoteReq r.2] Hinv Hn []).
  - intros i m. cbn [members elected app]. rewrite lookup_insert_Some. intros [[<- <-]|[_ Hi]] Hr; [done|].
    by apply (ei_leader _ Hinv i).
  - intros t i. apply (one_past c id n r.1 [VoteReq r.2] Hinv Hn Hle []). intros _. right. lia.
  - apply (ei_unique _ Hinv).
Qed.

(** Answering a vote request: quiet, or a vote for the candidate in the current term. *)
Lemma request_vote_cases n req : let r := Raft.handle_request_vote n req in
  Raft.log r.1 = Raft.log n /\
  ((quiet n r.1 /\ vr_vote_granted r.2 = false) \/
   (exists n1, quiet n n1 /\ Raft.log n1 = Raft.log n /\
     (Raft.voted_for n1 = None \/ Raft.voted_for n1 = Some (vq_candidate_id req)) /\
     Raft.current_term n1 = vq_term req /\
     r.1 = Raft.set_election n1 (Raft.current_term n1) (Raft.role n1) (Some (vq_candidate_id req)) (Raft.leader_id n1) /\
     r.2 = mkVoteResp (vq_term req) true (Raft.node_id n1))).
Proof.
  unfold Raft.handle_request_vote.
  set (n1 := if Raft.current_term n <? vq_term req then _ else n).
  assert (quiet n n1 /\ Raft.log n1 = Raft.log n /\ vq_term req <= Raft.current_term n1) as (H1 & Hl1 & Ht1).
  { unfold n1. destruct (Z.ltb_spec (Raft.current_term n) (vq_term req)).
    - split_and!; [split; cbn; auto; lia|done|cbn; lia].
    - split_and!; [apply quiet_refl|done|lia]. }
  clearbody n1. destruct (Z.ltb_spec (vq_term req) (Raft.current_term n1)).
  { split; [done|]. by left. }
  destruct (_ && _) eqn:Hc; [|split; [done|by left]].
  split; [done|]. right. exists n1. apply andb_true_iff in Hc as [Hv _].
  assert (Raft.current_term n1 = vq_term req) as Heq by lia.
  split_and!; try done; [|cbn; congruence].
  destruct (Raft.voted_for n1); [|by left]. right. f_equal. by apply bool_decide_eq_true in Hv.
Qed.

Lemma election_vote c id n req : election_inv c -> members c !! id = Some n ->
  let r := Raft.handle_request_vote n req in
  election_inv (update c id r.1 [VoteResp (vq_candidate_id req) r.2]).
Proof.
  intros Hinv Hn r.
  destruct (request_vote_cases n req) as [_ [[Hq Hg]|(n1 & Hq & _ & Hvf & Hterm & Hr1 & Hr2)]].
  { apply (election_quiet c id n); [done..|set_solver|set_solver]. }
  fold r in Hr1, Hr2. destruct (ei_node _ Hinv id n Hn) as [Hid _].
  assert (quiet n n1) as [Qid Qp Qt Qs Ql] by done.
  assert (forall v t cand, vote (update c id r.1 [VoteResp (vq_candidate_id req) r.2]) v t cand ->
    vote c v t cand \/ (v = id /\ t = Raft.current_term r.1 /\ Raft.voted_for r.1 = Some cand)) as Hnew.
  { intros v t cand [H|[H|(_ & q & H & _)]]%vote_split; [by left| |set_solver].
    apply list_elem_of_singleton in H as [= -> Hm]. rewrite Hr2 in Hm. injection Hm as -> ->.
    right. rewrite Hr1. cbn. split_and!; congruence. }
  assert (Raft.current_term r.1 = Raft.current_term n -> forall cand,
    Raft.voted_for n = Some cand -> Raft.voted_for r.1 = Some cand) as Hkeep.
  { rewrite Hr1. cbn. intros He cand Hv. destruct Qs as (Hs & _); [done|]. destruct Hvf; congruence. }
  assert (Raft.current_term n <= Raft.current_term r.1) as Htr by (rewrite Hr1; cbn; lia).
  unfold update in *. rewrite <- (app_nil_l (elected c)) in *. split.
  - apply (one_node_id c id n r.1 _ Hinv Hn); rewrite Hr1; cbn; congruence.
  - by apply (one_vote c id n r.1 _ Hinv Hn Htr [] Hnew Hkeep).
  - by apply (one_once c id n r.1 _ Hinv Hn Htr [] Hnew Hkeep).
  - intros i m v. cbn [members]. rewrite lookup_insert_Some. intros [[<- <-]|[_ Hi]] Hr Hv.
    + apply one_old. rewrite Hr1 in Hr, Hv |- *. cbn in *.
      destruct (decide (Raft.current_term n1 = Raft.current_term n)) as [He|He].
      * destruct Qs as (_ & Hvr & Hrole); [done|]. rewrite He.
        apply (ei_received _ Hinv id n); [done| |congruence]. destruct Hrole; congruence.
      * rewrite Ql in Hr by lia. done.
    + apply one_old. by apply (ei_received _ Hinv i).
  - intros t i. by apply (one_elected c id n r.1 _ Hinv Hn []).
  - intros i m. cbn [members elected app]. rewrite lookup_insert_Some. intros [[<- <-]|[_ Hi]] Hr.
    + rewrite Hr1 in Hr |- *. cbn in *. destruct (decide (Raft.current_term n1 = Raft.current_term n)) as [He|He].
      * destruct Qs as (_ & _ & Hrole); [done|]. rewrite He. apply (ei_leader _ Hinv id n); [done|].
        destruct Hrole; congruence.
      * rewrite Ql in Hr by lia. done.
    + by apply (ei_leader _ Hinv i).
  - intros t i. apply (one_past c id n r.1 _ Hinv Hn Htr []). rewrite Hr1. cbn. intros Hc.
    destruct (decide (Raft.current_term n1 = Raft.current_term n)) as [He|He].
    + destruct Qs as (_ & _ & [Hrole|Hrole]); [done|left|]; congruence.
    + rewrite Ql in Hc by lia. done.
  - apply (ei_unique _ Hinv).
Qed.

Lemma peers_size c id n : election_inv c -> members c !! id = Some n ->
  (size (Raft.peers n) + 1 = size (dom (members c)))%nat.
Proof.
  intros Hinv Hn. destruct (ei_node _ Hinv id n Hn) as [_ Hp]. rewrite <- size_dom, Hp.
  assert (id ∈ dom (members c)) by (apply elem_of_dom; by eexists).
  assert (dom (members c) = {[id]} ∪ dom (members c) ∖ {[id]}) as Hd by (apply union_difference_L; set_solver).
  pose proof (size_union (C := gset string) {[id]} (dom (members c) ∖ {[id]}) ltac:(set_solver)) as Hs.
  rewrite <- Hd, size_singleton in Hs. lia.
Qed.

(** The winner of an election is new to its term. *)
Lemma election_won_fresh c id n v : election_inv c -> members c !! id = Some n ->
  Raft.role n = Candidate -> vote c v (Raft.current_term n) id ->
  (size (Raft.peers n) + 1 < 2 * size (Raft.votes_received n ∪ {[v]}))%nat ->
  (exists (q : gset string), q ⊆ dom (members c) /\ (size (dom (members c)) < 2 * size q)%nat /\
     (forall w, w ∈ q -> vote c w (Raft.current_term n) id)) /\
  forall i, (Raft.current_term n, i) ∉ elected c.
Proof.
  intros Hinv Hn Hrole Hv Hsize.
  set (q := Raft.votes_received n ∪ {[v]}) in *.
  assert (forall w, w ∈ q -> vote c w (Raft.current_term n) id) as Hq.
  { intros w [Hw|Hw]%elem_of_union; [apply (ei_received _ Hinv id n); [done|by rewrite Hrole|done]|].
    by apply elem_of_singleton in Hw as ->. }
  assert (q ⊆ dom (members c)) as Hsub.
  { intros w Hw%Hq. destruct (ei_vote _ Hinv _ _ _ Hw) as (m & Hm & _). apply elem_of_dom. by eexists. }
  rewrite (peers_size c id n Hinv Hn) in Hsize. split; [by exists q|].
  intros i Hin. destruct (ei_elected _ Hinv _ _ Hin) as (q' & Hsub' & Hs' & Hv').
  destruct (quorum_meet _ _ _ Hsub Hsub' Hsize Hs') as (w & Hw & Hw').
  assert (id = i) as <- by (apply (ei_once _ Hinv w (Raft.current_term n)); auto).
  destruct (ei_past _ Hinv _ _ Hin) as (m & Hm & _ & Hnc). assert (m = n) as -> by congruence.
  by apply Hnc.
Qed.

Lemma election_record c id n resp now : election_inv c -> members c !! id = Some n ->
  VoteResp id resp ∈ sent c ->
  let r := Raft.record_vote n (vr_voter_id resp) (vr_vote_granted resp) (vr_term resp) now in
  election_inv (mkCluster (<[id := r.1]> (members c)) (sent c)
    ((if r.2 then [(Raft.current_term r.1, id)] else []) ++ elected c)).
Proof.
  intros Hinv Hn Hsent r.
  destruct (record_vote_cases n (vr_voter_id resp) (vr_vote_granted resp) (vr_term resp) now)
    as [(Hf & Hq & _)|(Hg & Ht & Hrole & Rid & Rp & Rt & Rv & Rr & Hcase)].
  { fold r in Hf, Hq. rewrite Hf. by apply (election_quiet c id n r.1 []); [| |set_solver..]. }
  fold r in Rid, Rp, Rt, Rv, Rr, Hcase.
  assert (vote c (vr_voter_id resp) (Raft.current_term n) id) as Hvote.
  { left. destruct resp as [t g v]. cbn in *. by subst. }
  rewrite Rt. set (el := if r.2 then _ else _).
  assert (forall v t cand, vote (mkCluster (<[id := r.1]> (members c)) ([] ++ sent c) (el ++ elected c)) v t cand ->
    vote c v t cand \/ (v = id /\ t = Raft.current_term r.1 /\ Raft.voted_for r.1 = Some cand)) as Hnew by by left.
  assert (Raft.current_term n <= Raft.current_term r.1) as Hle by lia.
  assert (Raft.current_term r.1 = Raft.current_term n -> forall cand,
    Raft.voted_for n = Some cand -> Raft.voted_for r.1 = Some cand) as Hkeep by congruence.
  rewrite <- (app_nil_l (sent c)).
  assert (Hel : forall t i, (t, i) ∈ el -> t = Raft.current_term n /\ i = id /\ Raft.role r.1 = Leader /\
    (size (Raft.peers n) + 1 < 2 * size (Raft.votes_received n ∪ {[vr_voter_id resp]}))%nat).
  { unfold el. destruct Hcase as [(-> & _)|(-> & Hl & _ & Hs)]; [set_solver|].
    intros t i [= -> ->]%list_elem_of_singleton. done. }
  split.
  - by apply (one_node_id c id n r.1 [] Hinv Hn Rid Rp).
  - by apply (one_vote c id n r.1 [] Hinv Hn Hle el Hnew Hkeep).
  - by apply (one_once c id n r.1 [] Hinv Hn Hle el Hnew Hkeep).
  - intros i m v. cbn [members]. rewrite lookup_insert_Some. intros [[<- <-]|[_ Hi]] Hr Hv; apply one_old.
    + rewrite Rr in Hv. rewrite Rt. apply elem_of_union in Hv as [Hv|Hv].
      * apply (ei_received _ Hinv id n); [done|by rewrite Hrole|done].
      * by apply elem_of_singleton in Hv as ->.
    + by apply (ei_received _ Hinv i).
  - intros t i. cbn [elected]. intros [(-> & -> & _ & Hs)%Hel|Hin]%elem_of_app.
    + rewrite (one_dom c id n r.1 [] Hn). destruct (election_won_fresh c id n _ Hinv Hn Hrole Hvote Hs) as [(q & Hq & Hqs & Hqv) _].
      exists q. split_and!; [done..|]. intros v Hvq. by apply one_old, Hqv.
    + by apply (one_elected c id n r.1 [] Hinv Hn el).
  - intros i m. cbn [members elected]. rewrite lookup_insert_Some, elem_of_app. intros [[<- <-]|[_ Hi]] Hr.
    + left. rewrite Rt. unfold el. destruct Hcase as [(_ & Hc & _)|(-> & _)]; [congruence|set_solver].
    + right. by apply (ei_leader _ Hinv i).
  - intros t i. cbn [elected]. intros [(-> & -> & Hl & _)%Hel|Hin]%elem_of_app.
    + exists r.1. cbn [members]. rewrite lookup_insert_eq. split_and!; [done|lia|congruence].
    + apply (one_past c id n r.1 [] Hinv Hn Hle el); [by left|done].
  - cbn [elected]. rewrite fmap_app. unfold el. destruct Hcase as [(-> & _)|(-> & _ & _ & Hs)]; [apply (ei_unique _ Hinv)|].
    apply NoDup_cons. split; [|apply (ei_unique _ Hinv)]. cbn.
    intros ([t i] & Heq & Hin)%list_elem_of_fmap. cbn in Heq. subst t.
    by destruct (election_won_fresh c id n _ Hinv Hn Hrole Hvote Hs) as [_ Hfresh]; apply (Hfresh i).
Qed.

(** ** Logs *)

(** [hist t] is the log of the leader of term [t]. A log is sound when every entry is at its
    index and the log up to it is the leader's of the entry's term. *)
Definition sound (hist : Z -> list RaftLogEntry) (l : list RaftLogEntry) : Prop :=
  forall p e, l !! p = Some e -> e_index e = Z.of_nat p + 1 /\
    take (S p) l = take (S p) (hist (e_term e)).

(** An append request was cut from a sound log, or carries no entries. *)
Definition sound_req (hist : Z -> list RaftLogEntry) (req : AppendEntriesRequest) : Prop :=
  0 <= aq_prev_log_index req /\
  (aq_entries req = [] \/
   exists l p, sound hist l /\ aq_prev_log_index req = Z.of_nat p /\ (p <= length l)%nat /\
     aq_entries req = drop p l /\
     (forall q e, p = S q -> l !! q = Some e -> e_term e = aq_prev_log_term req)).

Record log_inv (c : cluster) (hist : Z -> list RaftLogEntry) : Prop := {
  li_term : forall id n, members c !! id = Some n -> 0 <= Raft.current_term n;
  li_log : forall id n, members c !! id = Some n -> sound hist (Raft.log n);
  li_req : forall peer req, AppendReq peer req ∈ sent c -> sound_req hist req;
  li_leader : forall id n, members c !! id = Some n -> Raft.role n = Leader ->
    Raft.log n = hist (Raft.current_term n);
  li_elected : forall t, hist t <> [] -> t ∈ (elected c).*1 }.

Lemma sound_nil hist : sound hist [].
Proof. by intros p e. Qed.

Lemma sound_take hist l k : sound hist l -> sound hist (take k l).
Proof.
  intros Hl p e Hp. apply lookup_take_Some in Hp as [Hp Hlt]. destruct (Hl p e Hp) as [Hi Ht].
  split; [done|]. rewrite take_take. by replace (S p `min` k)%nat with (S p) by lia.
Qed.

(** The histories only grow. *)
Definition extends (hist hist' : Z -> list RaftLogEntry) : Prop := forall t, hist t `prefix_of` hist' t.

Lemma sound_extends hist hist' l : extends hist hist' -> sound hist l -> sound hist' l.
Proof.
  intros He Hl p e Hp. destruct (Hl p e Hp) as [Hi Ht]. split; [done|].
  destruct (He (e_term e)) as [k Hk]. rewrite Ht, Hk.
  assert (S p <= length (hist (e_term e)))%nat.
  { apply (f_equal length) in Ht. rewrite !length_take in Ht. pose proof (lookup_lt_Some _ _ _ Hp). lia. }
  by rewrite take_app_le.
Qed.

(** Two sound logs with an entry of the same term at a position agree up to it. *)
Lemma sound_agree hist l l' p e e' : sound hist l -> sound hist l' ->
  l !! p = Some e -> l' !! p = Some e' -> e_term e = e_term e' -> take (S p) l = take (S p) l'.
Proof.
  intros Hl Hl' Hp Hp' Heq. destruct (Hl p e Hp) as [_ ->], (Hl' p e' Hp') as [_ ->]. by rewrite Heq.
Qed.

(** The loop that appends entries cut from a sound log, to a sound log that agrees with it up to
    the cut, does not panic and leaves a sound log. *)
Lemma append_loop_ok hist lm : sound hist lm -> forall d q l, (length lm - q)%nat = d ->
  sound hist l -> (q <= length l)%nat -> (q <= length lm)%nat -> take q l = take q lm ->
  returns (Raft.append_loop (drop q lm) l) (sound hist).
Proof.
  intros Hlm d. induction d as [|d IH]; intros q l Hd Hl Hq Hqm Hag.
  { by rewrite drop_ge by lia. }
  destruct (lookup_lt_is_Some_2 lm q) as [e He]; [lia|]. rewrite (drop_S _ e q He).
  cbn [Raft.append_loop]. destruct (Hlm q e He) as [Hi _]. rewrite Hi.
  assert (Hsnoc : take (S q) lm = take q l ++ [e]).
  { by rewrite (take_S_r _ _ _ He), Hag. }
  destruct (Z.leb_spec (Z.of_nat q + 1) (zlen l)) as [Hle|Hgt].
  - replace (Z.of_nat q + 1 - 1) with (Z.of_nat q) by lia. unfold zlen in Hle.
    destruct (lookup_lt_is_Some_2 l q) as [x Hx]; [lia|].
    rewrite (index_ok l (Z.of_nat q) x) by (rewrite ?Nat2Z.id; done || lia). cbn [obind].
    rewrite Nat2Z.id. destruct (Z.eqb_spec (e_term x) (e_term e)) as [Ht|Ht].
    + apply IH; [lia|done|lia|lia|]. by apply (sound_agree hist l lm q x e).
    + rewrite <- Hsnoc. apply IH; [lia|by apply sound_take|rewrite length_take; lia|lia|].
      by rewrite take_take, Nat.min_id.
  - assert (length l = q) as Hlen by (unfold zlen in Hgt; lia).
    replace (l ++ [e]) with (take (S q) lm) by (by rewrite Hsnoc, take_ge by lia).
    apply IH; [lia|by apply sound_take|rewrite length_take; lia|lia|].
    by rewrite take_take, Nat.min_id.
Qed.

(** Handling a sound request does not panic and leaves a sound log. *)
Lemma append_entries_sound hist n req now : sound hist (Raft.log n) -> sound_req hist req ->
  returns (Raft.handle_append_entries n req now) (fun r => sound hist (Raft.log r.1)).
Proof.
  intros Hl [Hp0 Hreq]. unfold Raft.handle_append_entries.
  set (n1 := if Raft.current_term n <? aq_term req then _ else n).
  assert (Raft.log n1 = Raft.log n) as Hl1 by (unfold n1; by destruct (_ <? _)).
  clearbody n1. rewrite <- Hl1 in Hl. clear Hl1 n. destruct (_ <? _); [done|].
  cbn [Raft.set_election Raft.log]. destruct (0 <? aq_prev_log_index req) eqn:Hpos; cbn [andb].
  - destruct (Z.ltb_spec (zlen (Raft.log n1)) (aq_prev_log_index req)); [done|]. apply Z.ltb_lt in Hpos.
    destruct (lookup_lt_is_Some_2 (Raft.log n1) (Z.to_nat (aq_prev_log_index req - 1))) as [pe Hpe];
      [unfold zlen in *; lia|].
    rewrite (index_ok _ _ pe) by (done || lia). cbn [obind].
    destruct (Z.eqb_spec (e_term pe) (aq_prev_log_term req)) as [Ht|Ht]; cbn [negb].
    2: { by apply sound_take. }
    apply returns_bind. apply (returns_mono _ (sound hist)).
    + destruct Hreq as [->|(lm & p & Hlm & Hp & Hplen & -> & Hterm)]; [done|].
      apply (append_loop_ok hist lm Hlm (length lm - p)); [done|done|unfold zlen in *; lia|done|].
      destruct p as [|q]; [lia|]. destruct (lookup_lt_is_Some_2 lm q) as [e He]; [lia|].
      apply (sound_agree hist _ _ q pe e); [done|done| |done|rewrite (Hterm q e); done].
      rewrite <- Hpe. f_equal. lia.
    + intros l Hs. cbn [returns fst]. destruct (Raft.commit_index _ <? _); [applied|]; exact Hs.
  - cbn [obind negb]. apply returns_bind. apply (returns_mono _ (sound hist)).
    + destruct Hreq as [->|(lm & p & Hlm & Hp & Hplen & -> & Hterm)]; [done|].
      apply (append_loop_ok hist lm Hlm (length lm - p)); [done|done|lia|done|].
      assert (p = 0%nat) as -> by lia. done.
    + intros l Hs. cbn [returns fst]. destruct (Raft.commit_index _ <? _); [applied|]; exact Hs.
Qed.

(** What a leader sends is cut from its log. *)
Lemma create_append_sound hist n peer req : sound hist (Raft.log n) ->
  Raft.create_append_entries_for_peer n peer = Ok (Some req) -> sound_req hist req.
Proof.
  intros Hl. unfold Raft.create_append_entries_for_peer. case_decide; [|done].
  destruct (Raft.peers n !! peer) as [pr|]; [|done].
  intros (pt & Hpt & Hk)%obind_ok_inv. apply obind_ok_inv in Hk as (es & Hes & [= <-]).
  unfold saturating_sub in *. split; cbn [aq_prev_log_index aq_prev_log_term aq_entries]; [lia|].
  destruct (Z.leb_spec (next_index pr) (zlen (Raft.log n))) as [Hle|]; [|left; by injection Hes].
  right. unfold slice_from, slice in Hes.
  destruct ((0 <=? next_index pr - 1) && _ && _) eqn:Hc; [|done]. injection Hes as <-.
  exists (Raft.log n), (Z.to_nat (next_index pr - 1)). unfold zlen in *. split_and!; [done|lia|lia| |].
  - rewrite take_ge; [done|]. rewrite length_drop. lia.
  - intros q e Hq He. rewrite (proj2 (Z.ltb_lt 0 _)), (proj2 (Z.leb_le _ (Z.of_nat _))) in Hpt by lia.
    cbn [andb] in Hpt. apply obind_ok_inv in Hpt as (e' & He' & [= <-]).
    rewrite (index_ok _ _ e) in He' by (lia || (rewrite <- He; f_equal; lia)). by injection He' as ->.
Qed.

Lemma elected_inj c t id id' : election_inv c -> (t, id) ∈ elected c -> (t, id') ∈ elected c -> id = id'.
Proof.
  intros Hinv H1 H2. pose proof (ei_unique _ Hinv) as Hnd. clear Hinv.
  induction (elected c) as [|[t' i] l IH]; [set_solver|]. apply NoDup_cons in Hnd as [Hni Hnd].
  apply elem_of_cons in H1. apply elem_of_cons in H2.
  destruct H1 as [E1|H1], H2 as [E2|H2]; simplify_eq; [done| | |by apply IH].
  - exfalso. apply Hni, list_elem_of_fmap. by exists (t', id').
  - exfalso. apply Hni, list_elem_of_fmap. by exists (t', id).
Qed.

Lemma sound_snoc hist l e t : sound hist l -> hist t = l ++ [e] -> e_term e = t ->
  e_index e = zlen l + 1 -> sound hist (l ++ [e]).
Proof.
  intros Hl Hh Ht Hi p x Hp. apply lookup_app_Some in Hp as [Hp|[Hge Hp]].
  - destruct (Hl p x Hp) as [? Htk]. pose proof (lookup_lt_Some _ _ _ Hp).
    by rewrite take_app_le by lia.
  - apply list_lookup_singleton_Some in Hp as [Hp <-]. assert (p = length l) as -> by lia.
    split; [unfold zlen in Hi; done|]. by rewrite Ht, Hh.
Qed.

(** The history in which the leader of [t] has log [l]. *)
Definition set_hist (hist : Z -> list RaftLogEntry) (t : Z) (l : list RaftLogEntry) : Z -> list RaftLogEntry :=
  fun t' => if decide (t' = t) then l else hist t'.

Lemma set_hist_extends hist t l : hist t `prefix_of` l -> extends hist (set_hist hist t l).
Proof. intros H t'. unfold set_hist. by case_decide; subst. Qed.

(** One node changes, and with it at most the history of the term it leads. *)
Lemma log_step c id n n' msgs el hist hist' : log_inv c hist -> election_inv c ->
  members c !! id = Some n -> extends hist hist' -> Raft.current_term n <= Raft.current_term n' ->
  sound hist' (Raft.log n') -> (Raft.role n' = Leader -> Raft.log n' = hist' (Raft.current_term n')) ->
  (forall t, hist' t <> hist t -> t ∈ el.*1 \/ (t, id) ∈ elected c) ->
  (forall t, t ∈ el.*1 -> t ∉ (elected c).*1) ->
  (forall peer req, AppendReq peer req ∈ msgs -> sound_req hist' req) ->
  log_inv (mkCluster (<[id := n']> (members c)) (msgs ++ sent c) (el ++ elected c)) hist'.
Proof.
  intros Hinv Hel Hn Hext Ht Hs Hlead Hchg Hfresh Hmsgs. split; cbn [members sent elected].
  - intros i m [[<- <-]|[_ Hi]]%lookup_insert_Some; [pose proof (li_term _ _ Hinv id n Hn); lia|].
    by apply (li_term _ _ Hinv i).
  - intros i m [[<- <-]|[_ Hi]]%lookup_insert_Some; [done|].
    apply (sound_extends hist); [done|]. by apply (li_log _ _ Hinv i).
  - intros peer req [H|H]%elem_of_app; [by apply (Hmsgs peer)|].
    destruct (li_req _ _ Hinv peer req H) as [? [?|(l & p & Hl & ?)]]; (split; [done|]); [by left|].
    right. exists l, p. split; [by apply (sound_extends hist)|done].
  - intros i m [[<- <-]|[Hne Hi]]%lookup_insert_Some Hr; [by apply Hlead|].
    rewrite (li_leader _ _ Hinv i m Hi Hr). pose proof (ei_leader _ Hel i m Hi Hr) as Hin.
    destruct (decide (hist' (Raft.current_term m) = hist (Raft.current_term m))) as [|Hd]; [done|].
    exfalso. destruct (Hchg _ Hd) as [Hin'|Hin'].
    + apply (Hfresh _ Hin'). apply list_elem_of_fmap. by exists (Raft.current_term m, i).
    + by apply Hne, (elected_inj c (Raft.current_term m)).
  - intros t Hne. rewrite fmap_app, elem_of_app.
    destruct (decide (hist' t = hist t)) as [He|Hd].
    + right. apply (li_elected _ _ Hinv). by rewrite <- He.
    + destruct (Hchg t Hd) as [?|Hin]; [by left|right]. apply list_elem_of_fmap. by exists (t, id).
Qed.

(** A handler that leaves the histories alone. *)
Lemma log_keep c id n n' msgs hist : log_inv c hist -> election_inv c -> members c !! id = Some n ->
  Raft.current_term n <= Raft.current_term n' -> sound hist (Raft.log n') ->
  (Raft.role n' = Leader -> Raft.log n' = hist (Raft.current_term n')) ->
  (forall peer req, AppendReq peer req ∈ msgs -> sound_req hist req) ->
  log_inv (update c id n' msgs) hist.
Proof.
  intros Hinv Hel Hn Ht Hs Hl Hm. unfold update. rewrite <- (app_nil_l (elected c)).
  apply (log_step c id n n' msgs [] hist hist); try done; [by intros t|cbn; set_solver].
Qed.

(** Quiet handlers that do not touch the log of a leader. *)
Lemma log_quiet c id n n' msgs hist : log_inv c hist -> election_inv c -> members c !! id = Some n ->
  quiet n n' -> sound hist (Raft.log n') -> (Raft.role n' = Leader -> Raft.log n' = Raft.log n) ->
  (forall peer req, AppendReq peer req ∈ msgs -> sound_req hist req) ->
  log_inv (update c id n' msgs) hist.
Proof.
  intros Hinv Hel Hn [Qid Qp Qt Qs Ql] Hs Hlog Hm. apply (log_keep c id n); try done.
  intros Hr. rewrite Hlog by done. destruct (decide (Raft.current_term n' = Raft.current_term n)) as [He|He].
  - destruct Qs as (_ & _ & Hrole); [done|]. rewrite He. apply (li_leader _ _ Hinv id); [done|].
    destruct Hrole; congruence.
  - rewrite Ql in Hr by lia. done.
Qed.

(** A leader appends to its log. *)
Lemma log_leader_append c id n n' cmd now hist : log_inv c hist -> election_inv c ->
  members c !! id = Some n -> Raft.role n = Leader -> quiet n n' ->
  Raft.log n' = Raft.log n ++ [mkEntry (zlen (Raft.log n) + 1) (Raft.current_term n) cmd now] ->
  exists hist', log_inv (update c id n' []) hist'.
Proof.
  intros Hinv Hel Hn Hr [Qid Qp Qt Qs Ql] Hlog. set (t := Raft.current_term n).
  exists (set_hist hist t (Raft.log n')). unfold update. rewrite <- (app_nil_l (elected c)).
  assert (hist t = Raft.log n) as Hh by (symmetry; by apply (li_leader _ _ Hinv id)).
  assert (extends hist (set_hist hist t (Raft.log n'))) as Hext.
  { apply set_hist_extends. rewrite Hh, Hlog. by apply prefix_app_r. }
  apply (log_step c id n n' [] [] hist); try done; [| |intros t' Hd|set_solver|set_solver].
  - rewrite Hlog. apply (sound_snoc _ _ _ t); [|unfold set_hist; by rewrite decide_True|done|done].
    apply (sound_extends hist); [by rewrite <- Hlog|]. by apply (li_log _ _ Hinv id).
  - intros Hr'. unfold set_hist. rewrite decide_True; [done|].
    destruct (decide (Raft.current_term n' = t)) as [|He]; [done|]. rewrite Ql in Hr' by lia. done.
  - right. unfold set_hist in Hd. case_decide as Ht; [|done]. subst t'. by apply (ei_leader _ Hel).
Qed.

Lemma log_record c id n resp now hist : log_inv c hist -> election_inv c ->
  members c !! id = Some n -> VoteResp id resp ∈ sent c ->
  let r := Raft.record_vote n (vr_voter_id resp) (vr_vote_granted resp) (vr_term resp) now in
  exists hist', log_inv (mkCluster (<[id := r.1]> (members c)) (sent c)
    ((if r.2 then [(Raft.current_term r.1, id)] else []) ++ elected c)) hist'.
Proof.
  intros Hinv Hel Hn Hsent r.
  destruct (record_vote_cases n (vr_voter_id resp) (vr_vote_granted resp) (vr_term resp) now)
    as [(Hf & Hq & Hl)|(Hg & Ht & Hrole & Rid & Rp & Rt & Rv & Rr & Hcase)].
  { fold r in Hf, Hq, Hl. exists hist. rewrite Hf. apply (log_quiet c id n r.1 []); try done; [|set_solver].
    rewrite Hl. by apply (li_log _ _ Hinv id). }
  fold r in Rid, Rp, Rt, Rv, Rr, Hcase.
  destruct Hcase as [(Hf & Hc & Hl)|(Hf & Hlead & Hl & Hsize)]; rewrite Hf.
  { exists hist. apply (log_keep c id n r.1 []); try done; [lia| |congruence|set_solver].
    rewrite Hl. by apply (li_log _ _ Hinv id). }
  assert (vote c (vr_voter_id resp) (Raft.current_term n) id) as Hvote.
  { left. destruct resp as [t g v]. cbn in *. by subst. }
  destruct (election_won_fresh c id n _ Hel Hn Hrole Hvote Hsize) as [_ Hfresh].
  assert (Raft.current_term n ∉ (elected c).*1) as Hnot.
  { intros ([t i] & Heq & Hin)%list_elem_of_fmap. cbn in Heq. subst t. by apply (Hfresh i). }
  assert (hist (Raft.current_term n) = []) as Hnil.
  { destruct (decide (hist (Raft.current_term n) = [])) as [|Hne]; [done|]. by apply (li_elected _ _ Hinv) in Hne. }
  exists (set_hist hist (Raft.current_term n) (Raft.log r.1)). rewrite <- (app_nil_l (sent c)).
  assert (extends hist (set_hist hist (Raft.current_term n) (Raft.log r.1))) as Hext.
  { apply set_hist_extends. rewrite Hnil. apply prefix_nil. }
  apply (log_step c id n r.1 [] _ hist _ Hinv Hel Hn Hext); [lia| | | | |by intros peer req ?%not_elem_of_nil].
  - rewrite Hl. apply (sound_snoc _ _ _ (Raft.current_term n)); [|unfold set_hist; by rewrite decide_True|done|done].
    apply (sound_extends hist); [by rewrite <- Hl|]. by apply (li_log _ _ Hinv id).
  - intros _. rewrite Rt. unfold set_hist. by rewrite decide_True.
  - intros t Hd. left. unfold set_hist in Hd. case_decide as He; [|done]. cbn [fmap list_fmap fst]. rewrite Rt.
    by apply list_elem_of_singleton.
  - intros t. cbn [fmap list_fmap fst]. rewrite Rt. by intros ->%list_elem_of_singleton.
Qed.

(** ** The cluster *)

Definition cluster_inv (c : cluster) : Prop := election_inv c /\ exists hist, log_inv c hist.

Lemma new_peers id ids : dom (Raft.peers (Raft.new id ids)) = list_to_set ids ∖ {[id]}.
Proof.
  cbn. assert (forall m : gmap string PeerProgress, dom (foldl (fun peers peer =>
    if decide (peer = id) then peers else <[peer := mkProgress 1 0]> peers) m ids) =
    dom m ∪ (list_to_set ids ∖ {[id]})) as H.
  { induction ids as [|i ids IH]; intros m; cbn; [set_solver|]. rewrite IH. case_decide; set_solver. }
  rewrite H. set_solver.
Qed.

Lemma initial_dom ids : dom (members (initial ids)) = list_to_set ids.
Proof. cbn. rewrite dom_list_to_map_L, <- list_fmap_compose. f_equal. by apply list_fmap_id. Qed.

Lemma initial_inv ids : cluster_inv (initial ids).
Proof.
  assert (forall id n, members (initial ids) !! id = Some n -> id ∈ ids /\ n = Raft.new id ids) as Hnew.
  { intros id n H%elem_of_list_to_map_2. apply list_elem_of_fmap in H as (i & [= -> ->] & Hi). done. }
  pose proof (initial_dom ids) as Hdom.
  assert (forall v t cand, ~ vote (initial ids) v t cand) as Hno.
  { intros v t cand [H|(_ & req & H & _)]; cbn in H; set_solver. }
  split; [split|exists (fun _ => []); split].
  - intros id n [_ ->]%Hnew. by rewrite Hdom, new_peers.
  - by intros v t cand H%Hno.
  - by intros v t c1 c2 H%Hno.
  - by intros id n v [_ ->]%Hnew Hr.
  - intros t id H. cbn in H. set_solver.
  - by intros id n [_ ->]%Hnew.
  - intros t id H. cbn in H. set_solver.
  - constructor.
  - by intros id n [_ ->]%Hnew.
  - intros id n [_ ->]%Hnew. apply sound_nil.
  - intros peer req H. cbn in H. set_solver.
  - by intros id n [_ ->]%Hnew.
  - done.
Qed.

(** A quiet handler that keeps the log and sends no vote and no entries. *)
Lemma inv_quiet c id n n' msgs : cluster_inv c -> members c !! id = Some n -> quiet n n' ->
  Raft.log n' = Raft.log n -> (forall m, m ∈ msgs -> exists l r, m = AppendResp l r) ->
  cluster_inv (update c id n' msgs).
Proof.
  intros [Hel [hist Hlog]] Hn Hq Hl Hm. split.
  - apply (election_quiet c id n); [done..| |]; [intros cand resp [? [? [=]]]%Hm|intros req [? [? [=]]]%Hm].
  - exists hist. apply (log_quiet c id n); [done..| |done|by intros ? ? [? [? [=]]]%Hm].
    rewrite Hl. by apply (li_log _ _ Hlog id).
Qed.

Lemma inv_append c id n n' cmd now : cluster_inv c -> members c !! id = Some n -> quiet n n' ->
  Raft.role n = Leader ->
  Raft.log n' = Raft.log n ++ [mkEntry (zlen (Raft.log n) + 1) (Raft.current_term n) cmd now] ->
  cluster_inv (update c id n' []).
Proof.
  intros [Hel [hist Hlog]] Hn Hq Hr Hl. split; [|by apply (log_leader_append c id n n' cmd now hist)].
  apply (election_quiet c id n); [done..| |]; by intros ? ?%not_elem_of_nil || by intros ? ? ?%not_elem_of_nil.
Qed.

Lemma inv_vote c id n req : cluster_inv c -> members c !! id = Some n ->
  let r := Raft.handle_request_vote n req in
  cluster_inv (update c id r.1 [VoteResp (vq_candidate_id req) r.2]).
Proof.
  intros [Hel [hist Hlog]] Hn r. split; [by apply election_vote|]. exists hist.
  destruct (request_vote_cases n req) as [Hl Hcase]. fold r in Hl, Hcase.
  pose proof (li_log _ _ Hlog id n Hn) as Hs. rewrite <- Hl in Hs.
  assert (forall peer rq, AppendReq peer rq ∈ [VoteResp (vq_candidate_id req) r.2] -> sound_req hist rq) as Hm.
  { by intros peer rq [=]%list_elem_of_singleton. }
  destruct Hcase as [[Hq _]|(n1 & Hq & Hl1 & _ & _ & Hr1 & _)]; [by apply (log_quiet c id n)|].
  destruct Hq as [_ _ Qt Qs Ql].
  apply (log_keep c id n); [done..|rewrite Hr1; cbn; lia|done| |done].
  rewrite Hr1. cbn. intros Hr. destruct (decide (Raft.current_term n1 = Raft.current_term n)) as [He|He].
  - destruct Qs as (_ & _ & Hrole); [done|]. rewrite He, Hl1. apply (li_leader _ _ Hlog id); [done|].
    destruct Hrole; congruence.
  - rewrite Ql in Hr by lia. done.
Qed.

Lemma step_inv c c' : cluster_inv c -> step c c' -> cluster_inv c'.
Proof.
  intros Hinv Hstep. pose proof Hinv as [Hel [hist Hlog]].
  destruct Hstep as [id n Hn Hmax r|id n req Hn Hm r|id n resp now Hn Hm r|id n cmd now n' i Hn Hp
    |id n res h ttl now Hn|id n peer req Hn Hc|id n req now n' resp Hn Hm Hh|id n resp now n' Hn Hm Hh
    |id n target now Hn].
  - pose proof (li_term _ _ Hlog id n Hn) as Hpos. split; [by apply election_start|]. exists hist.
    apply (log_keep c id n); [done..| |exact (li_log _ _ Hlog id n Hn)|done|by intros ? ? [=]%list_elem_of_singleton].
    cbn. rewrite wrap_small; unfold fits; lia.
  - by apply inv_vote.
  - split; [by apply election_record|]. by apply (log_record c id n resp now hist).
  - apply quiet_propose in Hp as (Hq & Hr & Hl). by apply (inv_append c id n n' cmd now).
  - destruct (quiet_lease n res h ttl now) as [Hq [Hl|(Hr & cmd & Hl)]].
    + apply (inv_quiet c id n); [done..|]. by intros ? ?%not_elem_of_nil.
    + by apply (inv_append c id n _ cmd now).
  - split; [apply (election_quiet c id n); [done..|apply quiet_refl| |]; set_solver|].
    exists hist. pose proof (li_log _ _ Hlog id n Hn) as Hs.
    apply (log_quiet c id n); [done..|apply quiet_refl|done|done|].
    intros p rq [= -> ->]%list_elem_of_singleton. by apply (create_append_sound hist n peer).
  - destruct (quiet_append_entries n req now n' resp Hh) as [Hq Hl].
    pose proof (append_entries_sound hist n req now (li_log _ _ Hlog id n Hn) (li_req _ _ Hlog id req Hm)) as Hs.
    rewrite Hh in Hs. split; [apply (election_quiet c id n); [done..| |]; set_solver|].
    exists hist. by apply (log_quiet c id n); [..|intros ? ? [=]%list_elem_of_singleton].
  - destruct (quiet_append_response n _ resp now n' Hh) as [Hq Hl].
    apply (inv_quiet c id n); [done..|]. by intros ? ?%not_elem_of_nil.
  - destruct (quiet_commit_to n target now) as [Hq Hl].
    apply (inv_quiet c id n); [done..|]. by intros ? ?%not_elem_of_nil.
Qed.

Lemma reachable_inv ids c : reachable ids c -> cluster_inv c.
Proof.
  intros Hr. unfold reachable in Hr. remember (initial ids) as c0 eqn:Hc0.
  assert (cluster_inv c0) as H0 by (subst; apply initial_inv). clear Hc0.
  induction Hr as [|c0 c1 c2 Hs Hr IH]; [done|]. apply IH. by apply (step_inv c0).
Qed.

Lemma reachable_dom ids c : reachable ids c -> dom (members c) = list_to_set ids.
Proof.
  intros Hr. unfold reachable in Hr. rewrite <- (initial_dom ids). remember (initial ids) as c0 eqn:Hc0. clear Hc0.
  induction Hr as [|c0 c1 c2 Hs Hr IH]; [done|]. rewrite IH.
  destruct Hs; cbn; apply dom_insert_lookup_L; by eexists.
Qed.

(** C4. Election safety. In every run of a cluster, however messages are delayed, reordered,
    duplicated or lost, at most one node is ever elected in a term, it was elected by a majority,
    and two nodes that are leaders at the same time are in different terms. *)
Theorem raft_election_safety ids c : reachable ids c ->
  NoDup (elected c).*1 /\
  (forall t id, (t, id) ∈ elected c -> exists q : gset string, q ⊆ list_to_set ids /\
     (size (list_to_set ids : gset string) < 2 * size q)%nat /\ forall v, v ∈ q -> vote c v t id) /\
  (forall i j ni nj, members c !! i = Some ni -> members c !! j = Some nj ->
     Raft.role ni = Leader -> Raft.role nj = Leader ->
     Raft.current_term ni = Raft.current_term nj -> i = j).
Proof.
  intros Hr. assert (dom (members c) = list_to_set ids) as Hdom by by apply reachable_dom.
  destruct (reachable_inv ids c Hr) as [Hel _]. split_and!.
  - apply (ei_unique _ Hel).
  - intros t id Hin. destruct (ei_elected _ Hel t id Hin) as (q & Hq & Hs & Hv). rewrite Hdom in Hq, Hs.
    by exists q.
  - intros i j ni nj Hi Hj Hli Hlj Ht. apply (elected_inj c (Raft.current_term ni)); [done|by apply (ei_leader _ Hel)|].
    rewrite Ht. by apply (ei_leader _ Hel).
Qed.

(** C27. Log matching. In every run, entries are stored at their index, two logs with an entry of
    the same term at the same position are equal up to there, and no append request that was ever
    sent makes its receiver panic, now or later. *)
Theorem raft_log_matching ids c : reachable ids c ->
  (forall i n p e, members c !! i = Some n -> Raft.log n !! p = Some e -> e_index e = Z.of_nat p + 1) /\
  (forall i j ni nj p ei ej, members c !! i = Some ni -> members c !! j = Some nj ->
     Raft.log ni !! p = Some ei -> Raft.log nj !! p = Some ej -> e_term ei = e_term ej ->
     take (S p) (Raft.log ni) = take (S p) (Raft.log nj)) /\
  (forall i n req now, members c !! i = Some n -> AppendReq i req ∈ sent c ->
     Raft.handle_append_entries n req now <> Panic).
Proof.
  intros Hr. destruct (reachable_inv ids c Hr) as [_ [hist Hlog]]. split_and!.
  - intros i n p e Hn Hp. by apply (li_log _ _ Hlog i n Hn p e).
  - intros i j ni nj p ei ej Hi Hj Hpi Hpj Ht.
    by apply (sound_agree hist _ _ p ei ej); [apply (li_log _ _ Hlog i)|apply (li_log _ _ Hlog j)|..].
  - intros i n req now Hn Hm.
    pose proof (append_entries_sound hist n req now (li_log _ _ Hlog i n Hn) (li_req _ _ Hlog i req Hm)) as Hs.
    by destruct (Raft.handle_append_entries n req now).
Qed.

Module RaftExamples.
Definition ids : list string := ["a"; "b"; "c"].
Definition c0 : cluster := initial ids.
(** [a] campaigns, [b] votes for it, [a] counts the vote and wins. *)
Definition vote_req : RequestVoteRequest := (Raft.start_election (Raft.new "a" ids)).2.
Definition c1 : cluster := update c0 "a" (Raft.start_election (Raft.new "a" ids)).1 [VoteReq vote_req].
Definition vote_b := Raft.handle_request_vote (Raft.new "b" ids) vote_req.
Definition c2 : cluster := update c1 "b" vote_b.1 [VoteResp "a" vote_b.2].
Definition a_elected := Raft.record_vote (Raft.start_election (Raft.new "a" ids)).1
  (vr_voter_id vote_b.2) (vr_vote_granted vote_b.2) (vr_term vote_b.2) 100.
Definition c3 : cluster := mkCluster (<["a" := a_elected.1]> (members c2)) (sent c2)
  ((if a_elected.2 then [(Raft.current_term a_elected.1, "a")] else []) ++ elected c2).

Lemma c3_reachable : reachable ids c3.
Proof.
  unfold reachable. apply (rtc_l _ c0 c1); [|apply (rtc_l _ c1 c2); [|apply rtc_once]].
  - apply (step_start_election c0 "a" (Raft.new "a" ids)); [reflexivity|cbn; lia].
  - apply (step_request_vote c1 "b" (Raft.new "b" ids) vote_req); [reflexivity|]. unfold c1. cbn. set_solver.
  - apply (step_record_vote c2 "a" (Raft.start_election (Raft.new "a" ids)).1 vote_b.2 100).
    + vm_compute. reflexivity.
    + apply elem_of_app. left. apply list_elem_of_singleton. done.
Qed.

Lemma raft_election_safety_witness : elected c3 = [(1, "a")] /\ NoDup (elected c3).*1.
Proof. split; [vm_compute; reflexivity|]. apply (raft_election_safety ids c3 c3_reachable). Defined.

Lemma raft_log_matching_witness : members c3 !! "a" = Some a_elected.1 /\
  Raft.log a_elected.1 !! 0%nat = Some (mkEntry 1 1 Noop 100) /\
  e_index (mkEntry 1 1 Noop 100) = Z.of_nat 0 + 1.
Proof.
  split; [vm_compute; reflexivity|]. split; [vm_compute; reflexivity|].
  apply (proj1 (raft_log_matching ids c3 c3_reachable) "a" a_elected.1 0%nat); vm_compute; reflexivity.
Defined.

(** A lease that is still running is granted to a second holder: neither [acquire_lease] nor
    [apply] looks at the lease in place. *)
Definition alone : Raft.t := Raft.set_election (Raft.new "a" []) 1 Leader (Some "a") (Some "a").
Theorem lease_not_exclusive :
  let r1 := Raft.acquire_lease alone "shard" "h1" 60000 100 in
  let r2 := Raft.acquire_lease r1.1 "shard" "h2" 60000 101 in
  exists l1 l2, r1.2 = Ok l1 /\ r2.2 = Ok l2 /\ l_holder l1 = "h1" /\ l_holder l2 = "h2" /\
    is_active l1 101 = true /\ Raft.get_lease r2.1 "shard" 101 = Some l2.
Proof. do 2 eexists. vm_compute. split_and!; reflexivity. Qed.

(** Epochs come from a counter of the node, not from the replicated state: a node that becomes
    leader later grants an epoch below one already granted. *)
Definition successor : Raft.t :=
  Raft.apply_committed_entries
    (Raft.set_log alone [mkEntry 1 1 (AcquireLease "shard" "h1" 60000 7) 100]) 1 100.
Theorem lease_epoch_goes_back :
  let r := Raft.acquire_lease successor "shard" "h2" 60000 200 in
  exists l1 l2, Raft.get_lease successor "shard" 100 = Some l1 /\ r.2 = Ok l2 /\
    l_epoch l1 = 7 /\ l_epoch l2 = 1.
Proof. do 2 eexists. vm_compute. split_and!; reflexivity. Qed.
End RaftExamples.
