(* ===== verification/Scheduler.v ===== *)
(** * Transfer scheduling, transfer/scheduler.rs

    The deficit round-robin scheduler and the concurrency limiter. For the scheduler: nothing is
    lost or invented, each tier is served in order, and a waiting task is returned after a number
    of [pop_next] calls that [wait_bound] computes, whatever is pushed or cancelled meanwhile.
    For the limiter: how many slots are taken along any run of calls, drops and notifications. *)

From S2P Require Import Prelude.

Inductive TransferPriority := Urgent | High | Normal | Low.
#[global] Instance TransferPriority_eq_dec : EqDecision TransferPriority.
Proof. solve_decision. Defined.

Module Priority.
Definition weight (p : TransferPriority) : Z :=
  match p with Urgent => 8 | High => 4 | Normal => 2 | Low => 1 end.

(** [base_quantum.saturating_mul(self.weight())] *)
Definition quantum_bytes (p : TransferPriority) (base_quantum : Z) : Z :=
  Z.min (base_quantum * weight p) (2 ^ 64 - 1).

Definition all : list TransferPriority := [Urgent; High; Normal; Low].

(** The position of a tier in [all]. *)
Definition tier (p : TransferPriority) : Z :=
  match p with Urgent => 0 | High => 1 | Normal => 2 | Low => 3 end.
End Priority.

(** ** The scheduler *)

Section scheduler.
Context {T : Type}.

Record ScheduledTask := mkTask { t_id : Z; t_priority : TransferPriority; t_cost : Z; t_payload : T }.

(** The map has an entry for every tier from the start: the queue and its deficit. *)
Record PriorityScheduler := mkSched {
  base_quantum : Z;
  next_id : Z;
  queues : TransferPriority -> list ScheduledTask * Z;
  round_robin_index : Z }.

Definition DEFAULT_BASE_QUANTUM : Z := 64 * 1024.

Definition sched_new (base_quantum : Z) : PriorityScheduler :=
  let base_quantum := if base_quantum =? 0 then DEFAULT_BASE_QUANTUM else base_quantum in
  mkSched base_quantum 1 (fun _ => ([], 0)) 0.

Definition set_queue (s : PriorityScheduler) (p : TransferPriority) (q : list ScheduledTask) (d : Z)
  : PriorityScheduler :=
  mkSched (base_quantum s) (next_id s)
    (fun p' => if decide (p' = p) then (q, d) else queues s p') (round_robin_index s).
Definition set_index (s : PriorityScheduler) (i : Z) : PriorityScheduler :=
  mkSched (base_quantum s) (next_id s) (queues s) i.

Definition sched_push (s : PriorityScheduler) (payload : T) (priority : TransferPriority) (cost : Z)
  : PriorityScheduler * Z :=
  let id := next_id s in
  let s := mkSched (base_quantum s) (wrap 64 (id + 1)) (queues s) (round_robin_index s) in
  let task := mkTask id priority (Z.max cost 1) payload in
  let '(q, d) := queues s priority in
  (set_queue s priority (q ++ [task]) d, id).

Definition sched_len (s : PriorityScheduler) : Z :=
  foldr (fun p acc => zlen (queues s p).1 + acc) 0 Priority.all.
Definition is_empty (s : PriorityScheduler) : bool := sched_len s =? 0.
Definition count_for_priority (s : PriorityScheduler) (p : TransferPriority) : Z :=
  zlen (queues s p).1.

(** One round of the loop: the tier under the index is credited and served if it can be. *)
Definition visit (s : PriorityScheduler) : PriorityScheduler * option ScheduledTask :=
  let num := zlen Priority.all in
  let p := default Urgent (Priority.all !! Z.to_nat (round_robin_index s mod num)) in
  let s := set_index s ((round_robin_index s + 1) mod num) in
  let '(q, deficit) := queues s p in
  match q with
  | [] => (set_queue s p [] 0, None)
  | front :: rest =>
      let deficit := saturating_add 64 deficit (Priority.quantum_bytes p (base_quantum s)) in
      if t_cost front <=? deficit then
        let deficit := saturating_sub deficit (t_cost front) in
        let deficit := match rest with [] => 0 | _ => deficit end in
        (set_queue s p rest deficit, Some front)
      else (set_queue s p q deficit, None)
  end.

Fixpoint visits (n : nat) (s : PriorityScheduler) : PriorityScheduler * option ScheduledTask :=
  match n with
  | O => (s, None)
  | S n =>
      match visit s with
      | (s, Some task) => (s, Some task)
      | (s, None) => visits n s
      end
  end.

(** The fallback: the front of the highest tier that has one. *)
Fixpoint pop_front_of (ps : list TransferPriority) (s : PriorityScheduler)
  : PriorityScheduler * option ScheduledTask :=
  match ps with
  | [] => (s, None)
  | p :: ps =>
      match (queues s p).1 with
      | task :: rest => (set_queue s p rest 0, Some task)
      | [] => pop_front_of ps s
      end
  end.

Definition pop_next (s : PriorityScheduler) : PriorityScheduler * option ScheduledTask :=
  if is_empty s then (s, None)
  else
    match visits (length Priority.all * 2) s with
    | (s, Some task) => (s, Some task)
    | (s, None) => pop_front_of Priority.all s
    end.

Definition pop_next_urgent_preemptive (s : PriorityScheduler)
  : PriorityScheduler * option ScheduledTask :=
  match queues s Urgent with
  | (task :: rest, d) => (set_queue s Urgent rest d, Some task)
  | _ => pop_next s
  end.

(** [q.iter().position(|t| t.id == task_id)] and [q.remove(pos)]. *)
Fixpoint remove_id (id : Z) (q : list ScheduledTask) : option (ScheduledTask * list ScheduledTask) :=
  match q with
  | [] => None
  | t :: q =>
      if t_id t =? id then Some (t, q)
      else match remove_id id q with Some (x, q') => Some (x, t :: q') | None => None end
  end.

(** The map iterates its tiers in order. *)
Fixpoint cancel_in (ps : list TransferPriority) (s : PriorityScheduler) (task_id : Z)
  : PriorityScheduler * option T :=
  match ps with
  | [] => (s, None)
  | p :: ps =>
      let '(q, d) := queues s p in
      match remove_id task_id q with
      | Some (t, q') => (set_queue s p q' d, Some (t_payload t))
      | None => cancel_in ps s task_id
      end
  end.
Definition cancel (s : PriorityScheduler) (task_id : Z) : PriorityScheduler * option T :=
  cancel_in Priority.all s task_id.
End scheduler.
Arguments ScheduledTask : clear implicits.
Arguments PriorityScheduler : clear implicits.

(** ** The limiter *)

Module Limiter.

(** A waiter is the sender of its oneshot channel, here the number of the [acquire] call. *)
Record LimiterState := mk {
  max_concurrency : Z;
  active_count : Z;
  waiters : TransferPriority -> list Z }.

Definition new (max_concurrency : Z) : LimiterState := mk (Z.max max_concurrency 1) 0 (fun _ => []).

(** The part of [acquire] under the lock: a permit at once, or a place in the queue. *)
Definition acquire (s : LimiterState) (priority : TransferPriority) (tx : Z) : LimiterState * bool :=
  if active_count s <? max_concurrency s
  then (mk (max_concurrency s) (active_count s + 1) (waiters s), true)
  else (mk (max_concurrency s) (active_count s)
          (fun p => if decide (p = priority) then waiters s p ++ [tx] else waiters s p), false).

(** [while let Some(tx) = waiters.pop_front()]: up to the first whose receiver is still there. *)
Fixpoint notify (alive : Z -> bool) (q : list Z) : list Z * option Z :=
  match q with
  | [] => ([], None)
  | tx :: q => if alive tx then (q, Some tx) else notify alive q
  end.

Fixpoint notify_tiers (alive : Z -> bool) (ps : list TransferPriority) (w : TransferPriority -> list Z)
  : (TransferPriority -> list Z) * option Z :=
  match ps with
  | [] => (w, None)
  | p :: ps =>
      let '(q, found) := notify alive (w p) in
      let w := fun p' => if decide (p' = p) then q else w p' in
      match found with
      | Some tx => (w, Some tx)
      | None => notify_tiers alive ps w
      end
  end.

(** The task that [Drop for TransferPermit] spawns. *)
Definition release (alive : Z -> bool) (s : LimiterState) : LimiterState * option Z :=
  let '(w, found) := notify_tiers alive Priority.all (waiters s) in
  match found with
  | Some tx => (mk (max_concurrency s) (active_count s) w, Some tx)
  | None =>
      (mk (max_concurrency s)
         (if 0 <? active_count s then active_count s - 1 else active_count s) w, None)
  end.
End Limiter.

(** ** The scheduler loses nothing *)

Section fairness.
Context {T : Type}.
Implicit Types (s : PriorityScheduler T) (t : ScheduledTask T) (p : TransferPriority).

Abbreviation queue s p := (queues s p).1.
Abbreviation deficit s p := (queues s p).2.

Definition pending s : list (ScheduledTask T) := mjoin ((fun p => queue s p) <$> Priority.all).

(** What holds of every scheduler the operations build. *)
Record sched_ok s : Prop := {
  ok_base : 1 <= base_quantum s < 2 ^ 64;
  ok_index : 0 <= round_robin_index s < 4;
  ok_deficit : forall p, 0 <= deficit s p < 2 ^ 64;
  ok_cost : forall p t, t ∈ queue s p -> 1 <= t_cost t < 2 ^ 64 }.

Lemma sched_new_ok b : 0 <= b < 2 ^ 64 -> sched_ok (@sched_new T b).
Proof.
  intros Hb. split; cbn; [|lia|lia|set_solver]. destruct (Z.eqb_spec b 0); [done|lia].
Qed.

Lemma queue_set s p q d p' : queues (set_queue s p q d) p' = if decide (p' = p) then (q, d) else queues s p'.
Proof. done. Qed.

Lemma set_queue_ok s p q d : sched_ok s -> 0 <= d < 2 ^ 64 ->
  (forall t, t ∈ q -> 1 <= t_cost t < 2 ^ 64) -> sched_ok (set_queue s p q d).
Proof.
  intros [A B C D] Hd Hq. split; [done..| |].
  - intros p'. rewrite queue_set. by case_decide.
  - intros p'. rewrite queue_set. case_decide; [done|]. apply D.
Qed.

Lemma pending_spec s t : t ∈ pending s <-> exists p, t ∈ queue s p.
Proof.
  unfold pending. rewrite list_elem_of_join. split.
  - intros (l & Ht & (p & -> & _)%list_elem_of_fmap). by exists p.
  - intros (p & Ht). exists (queue s p). split; [done|]. apply list_elem_of_fmap. exists p.
    split; [done|]. destruct p; set_solver.
Qed.

Lemma is_empty_spec s : is_empty s = true <-> forall p, queue s p = [].
Proof.
  unfold is_empty, sched_len. cbn. rewrite Z.eqb_eq. split.
  - intros H p. apply nil_length_inv. unfold zlen in H. destruct p; lia.
  - intros H. by rewrite !H.
Qed.

(** The queues of [s'] are those of [s] without the front [t] of one of them. *)
Definition served s s' t : Prop := exists p, queue s p = t :: queue s' p /\
  forall p', p' <> p -> queue s' p' = queue s p'.

Lemma served_pending s s' t : served s s' t -> pending s ≡ₚ t :: pending s'.
Proof.
  intros (p & Hp & Hother). unfold pending. cbn.
  destruct p; rewrite Hp; repeat match goal with
    | |- context [queues s' ?p'] => rewrite (Hother p') by discriminate end; cbn; solve_Permutation.
Qed.

Lemma all_tier p : Priority.all !! Z.to_nat (Priority.tier p) = Some p.
Proof. by destruct p. Qed.

Lemma tier_at i : 0 <= i < 4 -> exists p, Priority.all !! Z.to_nat i = Some p /\ Priority.tier p = i.
Proof.
  intros Hi. assert (i = 0 \/ i = 1 \/ i = 2 \/ i = 3) as [-> | [-> | [-> | ->]]] by lia; by eexists.
Qed.

Lemma quantum_pos s p : sched_ok s -> 1 <= Priority.quantum_bytes p (base_quantum s) < 2 ^ 64.
Proof.
  intros [Hb _ _ _]. unfold Priority.quantum_bytes. assert (1 <= Priority.weight p) by (by destruct p). nia.
Qed.

(** One round: the tier [p] under the index, credited with its quantum, served or not. *)
Lemma visit_spec s : sched_ok s -> let r := visit s in
  sched_ok r.1 /\ base_quantum r.1 = base_quantum s /\
  round_robin_index r.1 = (round_robin_index s + 1) mod 4 /\
  exists p, Priority.tier p = round_robin_index s /\
    (forall p', p' <> p -> queues r.1 p' = queues s p') /\
    let d := deficit s p + Priority.quantum_bytes p (base_quantum s) in
    match queue s p with
    | [] => r.2 = None /\ queue r.1 p = []
    | front :: rest =>
        if t_cost front <=? d
        then r.2 = Some front /\ queue r.1 p = rest
        else r.2 = None /\ queues r.1 p = (front :: rest, d)
    end.
Proof.
  intros Hok. pose proof Hok as [Hb Hi Hd Hc]. destruct (tier_at _ Hi) as (p & Hp & Ht).
  assert (zlen Priority.all = 4) as H4 by done.
  unfold visit. rewrite H4, (Z.mod_small (round_robin_index s) 4), Hp by lia. unfold default, id.
  pose proof (quantum_pos s p Hok) as Hq. specialize (Hd p) as Hdp.
  assert (Hidx : sched_ok (set_index s ((round_robin_index s + 1) mod 4))).
  { split; try done. cbn. apply Z.mod_pos_bound. lia. }
  cbn [set_index queues]. destruct (queues s p) as [[|front rest] d] eqn:Hqp; cbn [fst snd] in *.
  - split; [by apply set_queue_ok; [|done|set_solver]|]. split; [done|]. split; [done|]. exists p.
    rewrite Hqp. cbn [fst snd]. split; [done|]. split; [by intros p' Hne; rewrite queue_set, decide_False|].
    by rewrite queue_set, decide_True.
  - assert (1 <= t_cost front < 2 ^ 64) as Hcf by (apply (Hc p); rewrite Hqp; set_solver).
    assert (forall x, x ∈ rest -> 1 <= t_cost x < 2 ^ 64) as Hcr by (intros x Hx; apply (Hc p); rewrite Hqp; set_solver).
    cbn [base_quantum set_index]. unfold saturating_add.
    set (q := Priority.quantum_bytes p (base_quantum s)) in *.
    assert ((t_cost front <=? Z.min (d + q) (2 ^ 64 - 1)) = (t_cost front <=? d + q)) as -> by lia.
    destruct (Z.leb_spec (t_cost front) (d + q)) as [Hle|Hgt]; cbn [fst snd].
    + split; [apply set_queue_ok; [done| |done]; unfold saturating_sub; destruct rest; lia|].
      split; [done|]. split; [done|]. exists p. rewrite Hqp. cbn [fst snd]. split; [done|].
      split; [by intros p' Hne; rewrite queue_set, decide_False|]. fold q.
      rewrite (proj2 (Z.leb_le _ _)) by done. by rewrite queue_set, decide_True.
    + split; [apply set_queue_ok; [done|lia|]; intros x Hx; apply (Hc p); by rewrite Hqp|].
      split; [done|]. split; [done|]. exists p. rewrite Hqp. cbn [fst snd]. split; [done|].
      split; [by intros p' Hne; rewrite queue_set, decide_False|]. fold q.
      rewrite (proj2 (Z.leb_gt _ _)) by done. rewrite queue_set, decide_True by done.
      split; [done|]. f_equal. lia.
Qed.

Lemma visit_served s : sched_ok s -> let r := visit s in
  match r.2 with Some t => served s r.1 t | None => forall p, queue r.1 p = queue s p end.
Proof.
  intros Hok r. destruct (visit_spec s Hok) as (_ & _ & _ & p & _ & Ho & Hp). fold r in Ho, Hp. cbv zeta in Hp.
  destruct (queue s p) as [|front rest] eqn:Hq.
  - destruct Hp as [-> Hp]. intros p'. destruct (decide (p' = p)) as [->|]; [congruence|]. by rewrite Ho.
  - destruct (_ <=? _); destruct Hp as [-> Hp].
    + exists p. split; [congruence|]. intros p' Hne. by rewrite Ho.
    + intros p'. destruct (decide (p' = p)) as [->|]; [by rewrite Hp, Hq|]. by rewrite Ho.
Qed.

Lemma visits_spec n s : sched_ok s -> let r := visits n s in
  sched_ok r.1 /\ base_quantum r.1 = base_quantum s /\
  match r.2 with Some t => served s r.1 t | None => forall p, queue r.1 p = queue s p end.
Proof.
  revert s. induction n as [|n IH]; intros s Hok; cbn [visits]; [done|].
  pose proof (visit_served s Hok) as Hs. destruct (visit_spec s Hok) as (Hok' & Hb & _).
  destruct (visit s) as [s1 [t|]]; cbn [fst snd] in *; [done|].
  destruct (IH s1 Hok') as (A & B & C). split; [done|]. split; [congruence|].
  destruct (visits n s1) as [s2 [t|]]; cbn [fst snd] in *.
  - destruct C as (p & Hp & Ho). exists p. rewrite <- Hs. split; [done|]. intros p' Hne. rewrite <- Hs. by apply Ho.
  - intros p. by rewrite C, Hs.
Qed.

Lemma pop_front_of_spec ps s : sched_ok s -> let r := pop_front_of ps s in
  sched_ok r.1 /\ base_quantum r.1 = base_quantum s /\ round_robin_index r.1 = round_robin_index s /\
  match r.2 with
  | Some t => exists p, queue s p = t :: queue r.1 p /\ deficit r.1 p = 0 /\
      forall p', p' <> p -> queues r.1 p' = queues s p'
  | None => r.1 = s /\ forall p, p ∈ ps -> queue s p = []
  end.
Proof.
  intros Hok. induction ps as [|p ps IH]; cbn [pop_front_of].
  { split; [done|]. split; [done|]. split; [done|]. split; [done|]. set_solver. }
  destruct (queue s p) as [|t rest] eqn:Hq.
  - destruct IH as (A & B & C & D). split; [done|]. split; [done|]. split; [done|].
    destruct (pop_front_of ps s).2; [done|]. destruct D as [D1 D2]. split; [done|]. set_solver.
  - cbn [fst snd]. split; [apply set_queue_ok; [done|done|]; intros x Hx; apply (ok_cost _ Hok p); rewrite Hq; set_solver|].
    split; [done|]. split; [done|]. exists p. rewrite queue_set, decide_True by done. split; [done|]. split; [done|].
    intros p' Hne. by rewrite queue_set, decide_False.
Qed.

(** [pop_next] serves a front, and fails only on an empty scheduler. *)
Lemma pop_next_served s : sched_ok s -> let r := pop_next s in
  sched_ok r.1 /\ match r.2 with
  | Some t => served s r.1 t
  | None => r.1 = s /\ forall p, queue s p = []
  end.
Proof.
  intros Hok. unfold pop_next. destruct (is_empty s) eqn:He.
  { cbn. split; [done|]. split; [done|]. by apply is_empty_spec. }
  destruct (visits_spec (length Priority.all * 2) s Hok) as (Hok1 & _ & Hv).
  destruct (visits _ s) as [s1 [t|]]; cbn [fst snd] in *; [done|].
  destruct (pop_front_of_spec Priority.all s1 Hok1) as (Hok2 & _ & _ & Hp). split; [done|].
  destruct (pop_front_of Priority.all s1).2.
  - destruct Hp as (p & Hp & _ & Ho). exists p. rewrite <- Hv. split; [done|].
    intros p' Hne. rewrite <- Hv. by rewrite Ho.
  - destruct Hp as [_ Hp]. exfalso. apply not_true_iff_false in He. apply He, is_empty_spec.
    intros p. rewrite <- Hv. apply Hp. destruct p; set_solver.
Qed.

(** ** No starvation *)

(** Rounds of a tier with quantum [q] and deficit [d] until a front of cost [c] is served. *)
Definition rounds (q d c : Z) : Z := Z.max 1 ((c - d + q - 1) / q).
(** The same for a queue with costs [cs], up to and including the last. *)
Definition need (q d : Z) (cs : list Z) : Z :=
  match cs with
  | [] => 0
  | c :: cs => rounds q d c + foldr (fun c acc => rounds q 0 c + acc) 0 cs
  end.

Lemma rounds_mono q d d' c : 1 <= q -> d <= d' -> rounds q d' c <= rounds q d c.
Proof.
  intros Hq Hd. unfold rounds. assert ((c - d' + q - 1) / q <= (c - d + q - 1) / q); [|lia].
  apply Z.div_le_mono; lia.
Qed.

Lemma need_pos q d cs : cs <> [] -> 1 <= need q d cs.
Proof.
  destruct cs as [|c cs]; [done|]. intros _. cbn. assert (1 <= rounds q d c) by (unfold rounds; lia).
  assert (0 <= foldr (fun c acc => rounds q 0 c + acc) 0 cs); [|lia].
  induction cs as [|c' cs IH]; cbn; [lia|]. unfold rounds at 1. lia.
Qed.

Lemma need_mono q d d' cs : 1 <= q -> d <= d' -> need q d' cs <= need q d cs.
Proof. intros Hq Hd. destruct cs; cbn; [lia|]. pose proof (rounds_mono q d d' z Hq Hd). lia. Qed.

Lemma need_0 q cs : need q 0 cs = foldr (fun c acc => rounds q 0 c + acc) 0 cs.
Proof. by destruct cs. Qed.

(** The front is gone, whatever deficit is left. *)
Lemma need_served q d d' c cs : 1 <= q -> 0 <= d' -> need q d' cs + 1 <= need q d (c :: cs).
Proof.
  intros Hq Hd. pose proof (need_mono q 0 d' cs Hq Hd). rewrite need_0 in *. cbn.
  assert (1 <= rounds q d c) by (unfold rounds; lia). lia.
Qed.

(** The front was credited and is still too dear. *)
Lemma need_credit q d c cs : 1 <= q -> d + q < c -> need q (d + q) (c :: cs) + 1 <= need q d (c :: cs).
Proof.
  intros Hq Hc. cbn. assert (rounds q (d + q) c + 1 <= rounds q d c); [|lia]. unfold rounds.
  replace (c - d + q - 1) with ((c - (d + q) + q - 1) + 1 * q) by lia. rewrite Z.div_add by lia.
  assert (1 <= (c - (d + q) + q - 1) / q); [|lia]. apply Z.div_le_lower_bound; lia.
Qed.

(** Dropping a cost does not make the rest wait longer. *)
Lemma need_drop q d a c b : 1 <= q -> 0 <= d -> need q d (a ++ b) <= need q d (a ++ c :: b).
Proof.
  intros Hq Hd. destruct a as [|x a]; cbn [app].
  - pose proof (need_served q d d c b Hq Hd). lia.
  - cbn. rewrite !foldr_app. cbn. assert (0 <= rounds q 0 c) by (unfold rounds; lia).
    assert (forall u v, u <= v -> foldr (fun c acc => rounds q 0 c + acc) u a <=
      foldr (fun c acc => rounds q 0 c + acc) v a) as Hm.
    { intros u v Huv. induction a; cbn; lia. }
    pose proof (Hm (foldr (fun c acc => rounds q 0 c + acc) 0 b)
      (rounds q 0 c + foldr (fun c acc => rounds q 0 c + acc) 0 b)). lia.
Qed.

(** How many more calls of [pop_next] a task can wait: it is in tier [p] behind [pre]. *)
Definition wait_bound s p (pre : list (ScheduledTask T)) t : Z :=
  4 * (need (Priority.quantum_bytes p (base_quantum s)) (deficit s p) (t_cost <$> (pre ++ [t])) - 1) +
  (Priority.tier p - round_robin_index s) mod 4 + 1.

Lemma wait_pos s p pre t : 1 <= wait_bound s p pre t.
Proof.
  unfold wait_bound. pose proof (Z.mod_pos_bound (Priority.tier p - round_robin_index s) 4 ltac:(lia)).
  assert (t_cost <$> (pre ++ [t]) <> []) as Hne by (rewrite fmap_app; by destruct pre).
  pose proof (need_pos (Priority.quantum_bytes p (base_quantum s)) (deficit s p) _ Hne). lia.
Qed.

Lemma tier_bound p : 0 <= Priority.tier p < 4.
Proof. by destruct p. Qed.

Lemma tier_inj p p' : Priority.tier p = Priority.tier p' -> p = p'.
Proof. by destruct p, p'. Qed.

Lemma next_dist i j : 0 <= i < 4 -> 0 <= j < 4 -> i <> j -> (j - (i + 1) mod 4) mod 4 + 1 = (j - i) mod 4.
Proof.
  intros Hi Hj. assert (i = 0 \/ i = 1 \/ i = 2 \/ i = 3) as [-> | [-> | [-> | ->]]] by lia;
  assert (j = 0 \/ j = 1 \/ j = 2 \/ j = 3) as [-> | [-> | [-> | ->]]] by lia; intros; done.
Qed.

(** One round serves the task or brings it closer. *)
Lemma visit_wait s p pre t post : sched_ok s -> queue s p = pre ++ t :: post -> let r := visit s in
  r.2 = Some t \/
  exists pre', queue r.1 p = pre' ++ t :: post /\ wait_bound r.1 p pre' t + 1 <= wait_bound s p pre t.
Proof.
  intros Hok Hq r. destruct (visit_spec s Hok) as (Hok1 & Hb & Hi & p' & Ht & Ho & Hp). fold r in Hok1, Hb, Hi, Ho, Hp.
  pose proof (ok_index _ Hok). pose proof (tier_bound p). pose proof (quantum_pos s p Hok) as Hqp.
  destruct (decide (p' = p)) as [->|Hne].
  2: { right. exists pre. rewrite (Ho p) by done. split; [done|]. unfold wait_bound. rewrite Ho, Hb, Hi by done.
       pose proof (next_dist (round_robin_index s) (Priority.tier p)) as Hd. rewrite <- Hd; [lia|done|done|].
       intros He. apply Hne, tier_inj. congruence. }
  unfold wait_bound. rewrite Hb, Hi, Ht, Z.sub_diag, Hq in *. cbv zeta in Hp.
  assert ((round_robin_index s - (round_robin_index s + 1) mod 4) mod 4 = 3) as Hdist.
  { assert (round_robin_index s = 0 \/ round_robin_index s = 1 \/ round_robin_index s = 2 \/
      round_robin_index s = 3) as [-> | [-> | [-> | ->]]] by lia; done. }
  rewrite Hdist, Zmod_0_l. set (q := Priority.quantum_bytes p (base_quantum s)) in *.
  destruct pre as [|x pre]; cbn [app] in *;
    [destruct (Z.leb_spec (t_cost t) (deficit s p + q)) as [Hle|Hgt]
    |destruct (Z.leb_spec (t_cost x) (deficit s p + q)) as [Hle|Hgt]]; destruct Hp as [Hr Hp].
  - by left.
  - right. exists []. rewrite Hp. cbn [fst snd app fmap list_fmap]. split; [done|].
    pose proof (need_credit q (deficit s p) (t_cost t) [] ltac:(lia) Hgt). lia.
  - right. exists pre. rewrite Hp. split; [done|]. cbn [fmap list_fmap].
    pose proof (need_served q (deficit s p) (deficit r.1 p) (t_cost x) (t_cost <$> (pre ++ [t])) ltac:(lia)
      ltac:(apply (ok_deficit _ Hok1))). lia.
  - right. exists (x :: pre). rewrite Hp. cbn [fst snd app]. split; [done|]. cbn [fmap list_fmap].
    pose proof (need_credit q (deficit s p) (t_cost x) (t_cost <$> (pre ++ [t])) ltac:(lia) Hgt). lia.
Qed.

Lemma visits_wait n s p pre t post : (0 < n)%nat -> sched_ok s -> queue s p = pre ++ t :: post ->
  let r := visits n s in
  r.2 = Some t \/
  exists pre', queue r.1 p = pre' ++ t :: post /\ wait_bound r.1 p pre' t + 1 <= wait_bound s p pre t.
Proof.
  revert s pre. induction n as [|n IH]; intros s pre Hn Hok Hq; [lia|]. cbn [visits].
  pose proof (visit_wait s p pre t post Hok Hq) as Hv. pose proof (visit_spec s Hok) as [Hok1 _].
  destruct (visit s) as [s1 [u|]]; cbn [fst snd] in *; [done|].
  destruct Hv as [Hv|(pre1 & Hq1 & Hw1)]; [done|].
  destruct n as [|n]; [right; by exists pre1|].
  destruct (IH s1 pre1 ltac:(lia) Hok1 Hq1) as [Hr|(pre2 & Hq2 & Hw2)]; [by left|].
  right. exists pre2. split; [done|]. lia.
Qed.

(** One call of [pop_next] returns the task or brings it closer. *)
Lemma pop_next_wait s p pre t post : sched_ok s -> queue s p = pre ++ t :: post ->
  let r := pop_next s in
  r.2 = Some t \/
  exists pre', queue r.1 p = pre' ++ t :: post /\ wait_bound r.1 p pre' t + 1 <= wait_bound s p pre t.
Proof.
  intros Hok Hq. unfold pop_next. destruct (is_empty s) eqn:He.
  { apply is_empty_spec with (p := p) in He. rewrite Hq in He. by destruct pre. }
  pose proof (visits_wait (length Priority.all * 2) s p pre t post ltac:(cbn; lia) Hok Hq) as Hv.
  destruct (visits_spec (length Priority.all * 2) s Hok) as (Hok1 & _ & _).
  destruct (visits _ s) as [s1 [u|]]; cbn [fst snd] in *; [done|].
  destruct Hv as [Hv|(pre1 & Hq1 & Hw1)]; [done|].
  destruct (pop_front_of_spec Priority.all s1 Hok1) as (Hok2 & Hb & Hi & Hp).
  destruct (pop_front_of Priority.all s1) as [s2 [u|]]; cbn [fst snd] in *.
  2: { destruct Hp as [-> _]. right. by exists pre1. }
  destruct Hp as (p' & Hp & Hd & Ho). destruct (decide (p' = p)) as [->|Hne].
  - rewrite Hq1 in Hp. destruct pre1 as [|x pre1]; [left; cbn in Hp; congruence|].
    right. exists pre1. injection Hp as -> Hp. split; [done|]. unfold wait_bound in *. rewrite Hb, Hi, Hd.
    pose proof (quantum_pos s1 p Hok1). cbn [app fmap list_fmap] in Hw1.
    pose proof (need_served (Priority.quantum_bytes p (base_quantum s1)) (deficit s1 p) 0 (t_cost u)
      (t_cost <$> (pre1 ++ [t])) ltac:(lia) ltac:(lia)). lia.
  - right. exists pre1. rewrite (Ho p) by done. split; [done|]. unfold wait_bound in *.
    by rewrite (Ho p), Hb, Hi.
Qed.

(** ** Runs of operations *)

Inductive op := Push (payload : T) (priority : TransferPriority) (cost : Z) | Pop | Cancel (id : Z).

Definition do_op s (o : op) : PriorityScheduler T * list (ScheduledTask T) :=
  match o with
  | Push payload priority cost => ((sched_push s payload priority cost).1, [])
  | Pop => let r := pop_next s in (r.1, option_list r.2)
  | Cancel id => ((cancel s id).1, [])
  end.

(** The tasks returned by the [pop_next] calls of a run, and the scheduler after it. *)
Fixpoint do_ops s (ops : list op) : PriorityScheduler T * list (ScheduledTask T) :=
  match ops with
  | [] => (s, [])
  | o :: ops => let r := do_op s o in let r' := do_ops r.1 ops in (r'.1, r.2 ++ r'.2)
  end.

Definition pops (ops : list op) : Z := zlen (List.filter (fun o => match o with Pop => true | _ => false end) ops).

Definition op_ok (o : op) : Prop := match o with Push _ _ cost => 0 <= cost < 2 ^ 64 | _ => True end.

Lemma remove_id_spec id q : match remove_id id q with
  | Some (t, q') => t_id t = id /\ exists a b, q = a ++ t :: b /\ q' = a ++ b
  | None => forall t, t ∈ q -> t_id t <> id
  end.
Proof.
  induction q as [|x q IH]; cbn; [set_solver|]. destruct (Z.eqb_spec (t_id x) id) as [He|He].
  - split; [done|]. by exists [], q.
  - destruct (remove_id id q) as [[t q']|].
    + destruct IH as (Hid & a & b & -> & ->). split; [done|]. by exists (x :: a), b.
    + set_solver.
Qed.

Lemma cancel_in_spec ps s id : sched_ok s -> let r := cancel_in ps s id in
  sched_ok r.1 /\ base_quantum r.1 = base_quantum s /\ round_robin_index r.1 = round_robin_index s /\
  match r.2 with
  | None => r.1 = s /\ forall p t, p ∈ ps -> t ∈ queue s p -> t_id t <> id
  | Some payload => exists p t a b, t_id t = id /\ t_payload t = payload /\ queue s p = a ++ t :: b /\
      queues r.1 p = (a ++ b, deficit s p) /\ forall p', p' <> p -> queues r.1 p' = queues s p'
  end.
Proof.
  intros Hok. induction ps as [|p ps IH]; cbn [cancel_in].
  { split; [done|]. split; [done|]. split; [done|]. split; [done|]. set_solver. }
  pose proof (remove_id_spec id (queue s p)) as Hr. destruct (queues s p) as [q d] eqn:Hq. cbn [fst snd] in Hr.
  destruct (remove_id id q) as [[t q']|]; cbn [fst snd].
  - destruct Hr as (Hid & a & b & -> & ->). pose proof (ok_cost _ Hok p) as Hc. pose proof (ok_deficit _ Hok p) as Hd.
    rewrite Hq in Hc, Hd. cbn [fst snd] in *.
    split; [apply set_queue_ok; [done|done|]; intros x Hx; apply Hc; set_solver|]. split; [done|]. split; [done|].
    exists p, t, a, b. rewrite Hq, queue_set, decide_True by done. split_and!; [done..|].
    intros p' Hne. by rewrite queue_set, decide_False.
  - destruct IH as (A & B & C & D). split; [done|]. split; [done|]. split; [done|].
    destruct (cancel_in ps s id).2; [done|]. destruct D as [D1 D2]. split; [done|].
    intros p' t [->|Hin]%elem_of_cons; [rewrite Hq; apply Hr|by apply D2].
Qed.

Lemma push_spec s payload p cost : let r := sched_push s payload p cost in
  base_quantum r.1 = base_quantum s /\ round_robin_index r.1 = round_robin_index s /\
  queues r.1 p = (queue s p ++ [mkTask (next_id s) p (Z.max cost 1) payload], deficit s p) /\
  forall p', p' <> p -> queues r.1 p' = queues s p'.
Proof.
  unfold sched_push. cbn [queues base_quantum round_robin_index]. destruct (queues s p) as [q d] eqn:Hq. cbn [fst snd].
  split; [done|]. split; [done|]. rewrite queue_set, decide_True by done. split; [done|].
  intros p' Hne. by rewrite queue_set, decide_False.
Qed.

Lemma push_ok s payload p cost : sched_ok s -> 0 <= cost < 2 ^ 64 -> sched_ok (sched_push s payload p cost).1.
Proof.
  intros Hok Hc. destruct (push_spec s payload p cost) as (A & B & C & D). pose proof Hok as [E F G H]. split.
  - by rewrite A.
  - by rewrite B.
  - intros p'. destruct (decide (p' = p)) as [->|]; [rewrite C; apply G|rewrite D by done; apply G].
  - intros p' t. destruct (decide (p' = p)) as [->|Hne]; [|rewrite D by done; apply H].
    rewrite C. cbn [fst]. intros [Ht| ->%list_elem_of_singleton]%elem_of_app; [by apply (H p)|]. cbn. lia.
Qed.

Lemma do_op_ok s o : sched_ok s -> op_ok o -> sched_ok (do_op s o).1.
Proof.
  intros Hok Ho. destruct o as [payload p cost| |id]; cbn [do_op fst].
  - by apply push_ok.
  - by apply pop_next_served.
  - apply (cancel_in_spec Priority.all s id Hok).
Qed.

(** Any operation but the cancellation of the task leaves it no further behind; a [Pop] that does
    not return it brings it closer. *)
Lemma do_op_wait s o p pre t post : sched_ok s -> queue s p = pre ++ t :: post -> o <> Cancel (t_id t) ->
  t ∈ (do_op s o).2 \/ exists pre' post', queue (do_op s o).1 p = pre' ++ t :: post' /\
    wait_bound (do_op s o).1 p pre' t + (match o with Pop => 1 | _ => 0 end) <= wait_bound s p pre t.
Proof.
  intros Hok Hq Hne. destruct o as [payload p' cost| |id]; cbn [do_op fst snd].
  - right. destruct (push_spec s payload p' cost) as (A & B & C & D). unfold wait_bound. rewrite A, B.
    destruct (decide (p' = p)) as [->|Hp]; [|exists pre, post; rewrite D by done; split; [done|lia]].
    exists pre, (post ++ [mkTask (next_id s) p (Z.max cost 1) payload]). rewrite C, Hq. cbn [fst snd].
    split; [by rewrite <- app_assoc|lia].
  - destruct (pop_next_wait s p pre t post Hok Hq) as [Hr|(pre' & Hq' & Hw)].
    + left. rewrite Hr. cbn. set_solver.
    + right. by exists pre', post.
  - right. destruct (cancel_in_spec Priority.all s id Hok) as (_ & A & B & C). fold (cancel s id) in *.
    destruct (cancel s id).2 as [payload|]; [|destruct C as [-> _]; exists pre, post; split; [done|lia]].
    destruct C as (p' & x & a & b & Hid & _ & Ha & Hb & Ho). unfold wait_bound. rewrite A, B.
    destruct (decide (p' = p)) as [->|Hp]; [|exists pre, post; rewrite Ho by done; split; [done|lia]].
    rewrite Hb. cbn [fst snd]. pose proof (quantum_pos s p Hok). pose proof (ok_deficit _ Hok p).
    assert (x <> t) as Hxt by congruence. rewrite Hq in Ha.
    apply app_eq_inv in Ha as [(k & -> & Hk)|(k & -> & Hk)]; destruct k as [|y k]; cbn in Hk.
    + congruence.
    + injection Hk as -> ->. exists (a ++ k), post. rewrite <- app_assoc. split; [done|].
      rewrite <- !app_assoc. cbn [app]. rewrite (fmap_app _ a), (fmap_app _ a), fmap_cons.
      pose proof (need_drop (Priority.quantum_bytes p (base_quantum s)) (deficit s p) (t_cost <$> a) (t_cost y)
        (t_cost <$> (k ++ [t])) ltac:(lia) ltac:(lia)). lia.
    + congruence.
    + injection Hk as -> ->. exists pre, (k ++ b). rewrite <- app_assoc. split; [done|lia].
Qed.

(** C26. No starvation. A task behind [pre] in its tier is returned within [wait_bound] calls of
    [pop_next], however they are interleaved with pushes of any size and priority and with
    cancellations of other tasks. The bound counts four rounds for every quantum the costs up to
    the task amount to. *)
Theorem drr_no_starvation s p pre t post ops : sched_ok s -> queue s p = pre ++ t :: post ->
  Forall op_ok ops -> Cancel (t_id t) ∉ ops -> wait_bound s p pre t <= pops ops ->
  t ∈ (do_ops s ops).2.
Proof.
  revert s pre post. induction ops as [|o ops IH]; intros s pre post Hok Hq Hops Hnc Hw.
  { pose proof (wait_pos s p pre t). unfold pops, zlen in Hw. cbn in Hw. lia. }
  apply Forall_cons in Hops as [Ho Hops]. cbn [do_ops snd]. apply elem_of_app.
  destruct (do_op_wait s o p pre t post Hok Hq ltac:(set_solver)) as [Hin|(pre' & post' & Hq' & Hw')]; [by left|].
  right. apply (IH _ pre' post'); [by apply do_op_ok|done|done|set_solver|].
  unfold pops in *. cbn [List.filter] in Hw. destruct o; unfold zlen in *; cbn [length] in *; lia.
Qed.

(** The scheduler is a multiset with priorities. [sched_push] adds one task under a new id;
    [pop_next] takes the front of a tier, which it removes, and fails only when nothing is
    pending; [cancel] removes the task with the id, or nothing if there is none. Nothing else
    appears or disappears, and the invariant of the deficits is kept. *)
Theorem scheduler_conserves s : sched_ok s ->
  (forall payload p cost, 0 <= cost < 2 ^ 64 -> let r := sched_push s payload p cost in
     sched_ok r.1 /\ pending r.1 ≡ₚ mkTask (next_id s) p (Z.max cost 1) payload :: pending s) /\
  (let r := pop_next s in sched_ok r.1 /\
     match r.2 with
     | Some t => served s r.1 t /\ pending s ≡ₚ t :: pending r.1
     | None => r.1 = s /\ pending s = []
     end) /\
  (forall id, let r := cancel s id in sched_ok r.1 /\
     match r.2 with
     | Some payload => exists t, t_id t = id /\ t_payload t = payload /\ pending s ≡ₚ t :: pending r.1
     | None => r.1 = s /\ forall t, t ∈ pending s -> t_id t <> id
     end).
Proof.
  intros Hok. split_and!.
  - intros payload p cost Hc r. split; [by apply push_ok|].
    destruct (push_spec s payload p cost) as (_ & _ & C & D). fold r in C, D. unfold pending. cbn.
    destruct p; rewrite C; repeat match goal with
      | |- context [queues r.1 ?p'] => rewrite (D p') by discriminate end; cbn; solve_Permutation.
  - destruct (pop_next_served s Hok) as [Hok' Hp]. split; [done|]. destruct (pop_next s).2.
    + split; [done|]. by apply served_pending.
    + destruct Hp as [Hs He]. split; [done|]. unfold pending. cbn. by rewrite !He.
  - intros id. destruct (cancel_in_spec Priority.all s id Hok) as (Hok' & _ & _ & C).
    fold (cancel s id) in Hok', C. destruct (cancel s id) as [s' [payload|]]; cbn [fst snd] in *; (split; [done|]).
    + destruct C as (p & t & a & b & Hid & Hpl & Ha & Hb & Ho). exists t. split_and!; [done..|].
      unfold pending. cbn. destruct p; rewrite Ha, Hb; repeat match goal with
        | |- context [queues s' ?p'] => rewrite (Ho p') by discriminate end; cbn; solve_Permutation.
    + destruct C as [-> C]. split; [done|]. intros t (p & Ht)%pending_spec. apply (C p); [destruct p; set_solver|done].
Qed.
End fairness.

(** ** The limiter's slots *)

Module LimiterRun.
Import Limiter.

(** The limiter with its callers: permits held, calls that were notified and have not been
    polled since, notifications nobody received, releases that were spawned and have not run,
    and the calls that still wait. *)
Record world := mkWorld {
  lim : LimiterState;
  held : Z; notified : Z; lost : Z; releasing : Z;
  waiting : gset Z;
  fresh : Z }.

Definition start (max_concurrency : Z) : world := mkWorld (new max_concurrency) 0 0 0 0 ∅ 0.

Definition alive (w : world) (tx : Z) : bool := bool_decide (tx ∈ waiting w).

Definition after_acquire (w : world) (p : TransferPriority) : world :=
  let r := acquire (lim w) p (fresh w) in
  if r.2 then mkWorld r.1 (held w + 1) (notified w) (lost w) (releasing w) (waiting w) (fresh w + 1)
  else mkWorld r.1 (held w) (notified w) (lost w) (releasing w) (waiting w ∪ {[fresh w]}) (fresh w + 1).

Definition after_release (w : world) : world :=
  let r := release (alive w) (lim w) in
  match r.2 with
  | Some tx => mkWorld r.1 (held w) (notified w + 1) (lost w) (releasing w - 1) (waiting w ∖ {[tx]}) (fresh w)
  | None => mkWorld r.1 (held w) (notified w) (lost w) (releasing w - 1) (waiting w) (fresh w)
  end.

Inductive step (w : world) : world -> Prop :=
  (** a call of [acquire] *)
  | acquires p : step w (after_acquire w p)
  (** a waiting call is dropped: its receiver is gone *)
  | gives_up tx : tx ∈ waiting w ->
      step w (mkWorld (lim w) (held w) (notified w) (lost w) (releasing w) (waiting w ∖ {[tx]}) (fresh w))
  (** a notified call is polled and returns its permit *)
  | wakes : 0 < notified w ->
      step w (mkWorld (lim w) (held w + 1) (notified w - 1) (lost w) (releasing w) (waiting w) (fresh w))
  (** a notified call is dropped before it is polled: no permit is made *)
  | dropped : 0 < notified w ->
      step w (mkWorld (lim w) (held w) (notified w - 1) (lost w + 1) (releasing w) (waiting w) (fresh w))
  (** a permit is dropped: the release is spawned *)
  | drops_permit : 0 < held w ->
      step w (mkWorld (lim w) (held w - 1) (notified w) (lost w) (releasing w + 1) (waiting w) (fresh w))
  (** the spawned release runs *)
  | releases : 0 < releasing w -> step w (after_release w).

Record slots (w : world) : Prop := {
  sl_max : 1 <= max_concurrency (lim w);
  sl_pos : 0 <= held w /\ 0 <= notified w /\ 0 <= lost w /\ 0 <= releasing w;
  sl_sum : held w + notified w + lost w + releasing w = active_count (lim w);
  sl_le : active_count (lim w) <= max_concurrency (lim w);
  sl_queued : forall tx, tx ∈ waiting w -> exists p, tx ∈ waiters (lim w) p;
  sl_full : waiting w <> ∅ -> active_count (lim w) = max_concurrency (lim w) }.

Lemma notify_spec (al : Z -> bool) q : let r := notify al q in
  match r.2 with
  | Some tx => al tx = true /\ tx ∈ q /\ forall x, x ∈ q -> al x = true -> x <> tx -> x ∈ r.1
  | None => forall x, x ∈ q -> al x = false
  end.
Proof.
  induction q as [|x q IH]; cbn; [set_solver|]. destruct (al x) eqn:Hx; cbn.
  - split; [done|]. set_solver.
  - destruct (notify al q) as [q' [tx|]]; cbn in *.
    + destruct IH as (A & B & C). split; [done|]. split; [set_solver|].
      intros y [->|Hy]%elem_of_cons Hal Hne; [congruence|]. by apply C.
    + intros y [->|Hy]%elem_of_cons; [done|]. by apply IH.
Qed.

Lemma notify_tiers_spec (al : Z -> bool) ps w : let r := notify_tiers al ps w in
  match r.2 with
  | Some tx => al tx = true /\ forall x p, x ∈ w p -> al x = true -> x <> tx -> x ∈ r.1 p
  | None => forall x p, p ∈ ps -> x ∈ w p -> al x = false
  end.
Proof.
  revert w. induction ps as [|p ps IH]; intros w; cbn; [set_solver|].
  pose proof (notify_spec al (w p)) as Hn. destruct (notify al (w p)) as [q [tx|]]; cbn in *.
  - destruct Hn as (A & B & C). split; [done|]. intros x p' Hx Hal Hne. case_decide; subst; [by apply C|done].
  - set (w' := fun p' => if decide (p' = p) then q else w p'). specialize (IH w').
    assert (Hkeep : forall x p', al x = true -> x ∈ w p' -> x ∈ w' p').
    { intros x p' Hal Hx. unfold w'. case_decide; [subst|done]. rewrite Hn in Hal by done. done. }
    destruct (notify_tiers al ps w') as [w2 [tx|]]; cbn in *.
    + destruct IH as [A B]. split; [done|]. intros x p' Hx Hal Hne. apply B; [by apply Hkeep|done|done].
    + intros x p' [->|Hp]%elem_of_cons Hx; [by apply Hn|].
      destruct (al x) eqn:Hal; [|done]. rewrite <- Hal. apply (IH x p'); [done|by apply Hkeep].
Qed.

Lemma start_slots n : slots (start n).
Proof. split; cbn; [lia|lia|lia|lia|set_solver|done]. Qed.

Lemma acquire_slots w p : slots w -> slots (after_acquire w p).
Proof.
  intros [A B C D E F]. unfold after_acquire, acquire. destruct (Z.ltb_spec (active_count (lim w)) (max_concurrency (lim w))); cbn.
  - split; cbn; [done|lia|lia|lia|done|]. intros Hne. apply F in Hne. lia.
  - split; cbn; [done|done|done|done| |intros; lia].
    intros tx [Htx| ->%elem_of_singleton]%elem_of_union.
    + destruct (E tx Htx) as [p' Hp']. exists p'. case_decide; set_solver.
    + exists p. rewrite decide_True by done. set_solver.
Qed.

Lemma release_slots w : slots w -> 0 < releasing w -> slots (after_release w).
Proof.
  intros [A B C D E F] Hr. unfold after_release, release.
  pose proof (notify_tiers_spec (alive w) Priority.all (waiters (lim w))) as Hn.
  destruct (notify_tiers (alive w) Priority.all (waiters (lim w))) as [ws [tx|]]; cbn [fst snd] in *.
  - destruct Hn as [Hal Hkeep]. unfold alive in *. rewrite bool_decide_eq_true in Hal.
    split; cbn; [done|lia|lia|done| |].
    + intros x [Hx Hne]%elem_of_difference. destruct (E x Hx) as [p Hp]. exists p.
      apply Hkeep; [done|by apply bool_decide_eq_true|set_solver].
    + intros _. apply F. set_solver.
  - assert (waiting w = ∅) as He.
    { apply set_eq. intros x. split; [|set_solver]. intros Hx. destruct (E x Hx) as [p Hp].
      assert (alive w x = false) as Hal by (apply (Hn x p); [destruct p; set_solver|done]).
      unfold alive in Hal. by rewrite bool_decide_eq_false in Hal. }
    rewrite (proj2 (Z.ltb_lt 0 _)) by lia. split; cbn; [done|lia|lia|lia| |].
    + rewrite He. set_solver.
    + by rewrite He.
Qed.

Lemma step_slots w w' : slots w -> step w w' -> slots w'.
Proof.
  intros Hs Hstep. destruct Hstep as [p|tx Htx|H|H|H|H];
    [by apply acquire_slots| | | | |by apply release_slots];
    destruct Hs as [A B C D E F]; split; cbn; try done; try lia; try (intros; apply F; set_solver).
  intros x Hx. apply E. set_solver.
Qed.

Lemma run_slots n w : rtc step (start n) w -> slots w.
Proof.
  intros Hr. remember (start n) as w0 eqn:H0. assert (slots w0) as Hs by (subst; apply start_slots). clear H0.
  induction Hr as [|w0 w1 w2 Hst Hr IH]; [done|]. apply IH. by apply (step_slots w0).
Qed.

(** The limiter never runs more transfers than its limit, and leaves no slot idle while a call
    waits: along any run every slot in use is a permit, a notification under way, a release under
    way or a notification that was lost, and all slots are in use when a call is waiting. *)
Theorem limiter_bounded n w : rtc step (start n) w ->
  0 <= held w <= Z.max n 1 /\
  active_count (lim w) = held w + notified w + lost w + releasing w /\
  (waiting w <> ∅ -> held w + notified w + lost w + releasing w = Z.max n 1).
Proof.
  intros Hr. assert (max_concurrency (lim w) = Z.max n 1) as Hm.
  { remember (start n) as w0 eqn:H0. assert (max_concurrency (lim w0) = Z.max n 1) as H by by subst. clear H0.
    induction Hr as [|w0 w1 w2 Hst Hr IH]; [done|]. apply IH. rewrite <- H. destruct Hst; try done.
    - unfold after_acquire, acquire. by destruct (_ <? _).
    - unfold after_release, release. by destruct (notify_tiers _ _ _) as [ws [tx|]]. }
  destruct (run_slots n w Hr) as [A B C D E F]. rewrite Hm in *. split; [lia|]. split; [lia|].
  intros Hne. rewrite C. by apply F.
Qed.
End LimiterRun.

Module SchedulerExamples.
(** A low task behind a dear one, with urgent traffic coming in. *)
Definition low : ScheduledTask nat := mkTask 2 Low 70000 7%nat.
Definition s0 : PriorityScheduler nat :=
  (sched_push (sched_push (sched_new 0) 1%nat Low 200000).1 7%nat Low 70000).1.
Definition traffic : list (@op nat) := mjoin (replicate 24 [Push 0%nat Urgent 100; Pop]).

Lemma s0_ok : sched_ok s0.
Proof. do 2 (apply push_ok; [|lia]). apply sched_new_ok. lia. Qed.

Lemma drr_no_starvation_witness : wait_bound s0 Low [mkTask 1 Low 200000 1%nat] low = 24 /\
  low ∈ (do_ops s0 traffic).2.
Proof.
  split; [vm_compute; reflexivity|].
  apply (drr_no_starvation s0 Low [mkTask 1 Low 200000 1%nat] low [] traffic s0_ok);
    [reflexivity| | |vm_compute; discriminate].
  - apply Forall_forall. intros o Ho. cbn in Ho. repeat (apply elem_of_cons in Ho as [->|Ho]; [done|]). by apply not_elem_of_nil in Ho.
  - intros Ho. cbn in Ho. repeat (apply elem_of_cons in Ho as [Ho|Ho]; [discriminate|]). by apply not_elem_of_nil in Ho.
Defined.

Lemma scheduler_conserves_witness : exists t, (pop_next s0).2 = Some t /\
  pending s0 ≡ₚ t :: pending (pop_next s0).1.
Proof.
  pose proof (proj1 (proj2 (scheduler_conserves s0 s0_ok))) as [_ H].
  destruct (pop_next s0).2 as [t|] eqn:Hp; [|vm_compute in Hp; discriminate]. exists t. by destruct H.
Defined.

Lemma limiter_bounded_witness : rtc LimiterRun.step (LimiterRun.start 1)
    (LimiterRun.after_acquire (LimiterRun.start 1) High) /\
  0 <= LimiterRun.held (LimiterRun.after_acquire (LimiterRun.start 1) High) <= Z.max 1 1.
Proof.
  assert (rtc LimiterRun.step (LimiterRun.start 1) (LimiterRun.after_acquire (LimiterRun.start 1) High)) as H
    by (apply rtc_once, LimiterRun.acquires).
  split; [exact H|]. apply (LimiterRun.limiter_bounded 1 _ H).
Defined.

(** A call that is notified and dropped before it is polled takes its slot with it: with one slot
    nobody holds a permit, nothing is under way, and the next call waits for ever. *)
Theorem limiter_loses_slot : exists w, rtc LimiterRun.step (LimiterRun.start 1) w /\
  LimiterRun.held w = 0 /\ LimiterRun.notified w = 0 /\ LimiterRun.releasing w = 0 /\
  LimiterRun.waiting w = {[2]}.
Proof.
  eexists. split.
  - eapply rtc_l; [apply (LimiterRun.acquires _ High)|]. eapply rtc_l; [apply (LimiterRun.acquires _ High)|].
    eapply rtc_l; [apply LimiterRun.drops_permit; vm_compute; reflexivity|].
    eapply rtc_l; [apply LimiterRun.releases; vm_compute; reflexivity|].
    eapply rtc_l; [apply LimiterRun.dropped; vm_compute; reflexivity|].
    eapply rtc_l; [apply (LimiterRun.acquires _ High)|]. apply rtc_refl.
  - vm_compute. repeat split; reflexivity.
Qed.
End SchedulerExamples.
