(* ===== verification/Lock.v ===== *)
(** * Distributed locks, sync/lock.rs

    [DistributedLockManager] with its leases per resource and its token counter. The clock is an
    argument, as in the code; the random part of a lock id is one too. Persistence is a report
    that is written after every change, unless the write fails, which the code ignores, and read
    back at a restart; the JSON in between is not modelled. *)

From S2P Require Import Prelude Utf8 Protocol Paths.

Inductive LockMode := Exclusive | Shared.
#[global] Instance LockMode_eq_dec : EqDecision LockMode.
Proof. solve_decision. Defined.

Record LeaseLock := mkLock {
  lock_id : bytes; resource : bytes; holder_id : bytes; mode : LockMode; fencing_token : Z;
  granted_at_secs : Z; expires_at_secs : Z; ttl_secs : Z }.
#[global] Instance LeaseLock_eq_dec : EqDecision LeaseLock.
Proof. solve_decision. Defined.

Definition is_expired (l : LeaseLock) (now_secs : Z) : bool := expires_at_secs l <=? now_secs.
Definition remaining_ttl_secs (l : LeaseLock) (now_secs : Z) : Z :=
  saturating_sub (expires_at_secs l) now_secs.

Inductive LockError :=
  | ResourceBusy (resource current_holder : bytes) (mode : LockMode) (expires_in_secs : Z)
  | LockNotFound (lock_id : bytes)
  | HolderMismatch (lock_id expected_holder actual_holder : bytes)
  | LockExpired (lock_id : bytes)
  | InvalidResource (reason : bytes).

Record LockReport := mkLockReport {
  total_active_locks : Z; total_exclusive_locks : Z; total_shared_locks : Z;
  highest_fencing_token : Z; active_locks : list LeaseLock }.

Module LockManager.

Record t := mk {
  locks : gmap bytes (list LeaseLock);
  token_counter : Z;
  default_ttl_secs : Z;
  max_ttl_secs : Z }.

Definition new : t := mk ∅ 100 60 3600.

Definition with_ttl (m : t) (default_ttl max_ttl : Z) : t :=
  let d := Z.max default_ttl 5 in mk (locks m) (token_counter m) d (Z.max max_ttl d).

Definition set_locks (m : t) (l : gmap bytes (list LeaseLock)) : t :=
  mk l (token_counter m) (default_ttl_secs m) (max_ttl_secs m).

(** [trim_start_matches('/')] *)
Fixpoint trim_slashes (s : bytes) : bytes :=
  match s with
  | b :: s' => if b =? Str.SLASH then trim_slashes s' else s
  | [] => []
  end.

Definition canonicalize_resource (r : bytes) : outcome LockError bytes :=
  let trimmed := Str.trim r in
  if bool_decide (trimmed = []) then Err (InvalidResource (Utf8.str_bytes "resource name cannot be empty"))
  else
    let cleaned := trim_slashes (Str.replace [Str.BACKSLASH] [Str.SLASH] trimmed) in
    if bool_decide (cleaned = []) then Ok [Str.SLASH] else Ok (Str.SLASH :: cleaned).

(** [x.clamp(lo, hi)], which panics when [lo > hi]. *)
Definition clamp {E} (x lo hi : Z) : outcome E Z :=
  if lo <=? hi then Ok (Z.min (Z.max x lo) hi) else Panic.

Definition live (now_secs : Z) (ls : list LeaseLock) : list LeaseLock :=
  List.filter (fun l => negb (is_expired l now_secs)) ls.

(** The lease that blocks a request, if one does. *)
Definition conflict (mode_ : LockMode) (leases : list LeaseLock) : option LeaseLock :=
  match mode_ with
  | Exclusive => head leases
  | Shared => List.find (fun l => bool_decide (mode l = Exclusive)) leases
  end.

Definition acquire (m : t) (res holder : bytes) (mode_ : LockMode) (ttl : option Z) (rnd now_secs : Z)
  : t * outcome LockError LeaseLock :=
  match canonicalize_resource res with
  | Err e => (m, Err e)
  | Panic => (m, Panic)
  | Ok canon =>
      if bool_decide (Str.trim holder = [])
      then (m, Err (InvalidResource (Utf8.str_bytes "holder_id cannot be empty")))
      else
        match clamp (default (default_ttl_secs m) ttl) 5 (max_ttl_secs m) with
        | Ok effective_ttl =>
            let lock_map :=
              match locks m !! canon with
              | Some ls => <[canon := live now_secs ls]> (locks m)
              | None => locks m
              end in
            let leases := default [] (lock_map !! canon) in
            match conflict mode_ leases with
            | Some ex =>
                (set_locks m lock_map,
                 Err (ResourceBusy canon (holder_id ex) (mode ex) (remaining_ttl_secs ex now_secs)))
            | None =>
                let token := wrap 64 (token_counter m + 1) in
                let lease :=
                  mkLock (Utf8.str_bytes "lck-" ++ Utf8.decimal token ++ Utf8.str_bytes "-" ++ Utf8.decimal rnd) canon holder
                    mode_ token now_secs (wrap 64 (now_secs + effective_ttl)) effective_ttl in
                (mk (<[canon := leases ++ [lease]]> lock_map) token (default_ttl_secs m) (max_ttl_secs m),
                 Ok lease)
            end
        | Err e => (m, Err e)
        | Panic => (m, Panic)
        end
  end.

(** The resource and position of the first lease with the id, in the order of the map. *)
Fixpoint find_position (id : bytes) (ls : list LeaseLock) (i : nat) : option (nat * LeaseLock) :=
  match ls with
  | [] => None
  | l :: ls => if bool_decide (lock_id l = id) then Some (i, l) else find_position id ls (S i)
  end.
Fixpoint find_lease (id : bytes) (entries : list (bytes * list LeaseLock))
  : option (bytes * nat * LeaseLock) :=
  match entries with
  | [] => None
  | (res, ls) :: entries =>
      match find_position id ls 0 with
      | Some (i, l) => Some (res, i, l)
      | None => find_lease id entries
      end
  end.

Definition renew (m : t) (id holder : bytes) (extension : option Z) (now_secs : Z)
  : t * outcome LockError LeaseLock :=
  match find_lease id (map_to_list (locks m)) with
  | Some (res, i, lease) =>
      if negb (bool_decide (holder_id lease = holder))
      then (m, Err (HolderMismatch id (holder_id lease) holder))
      else if is_expired lease now_secs then (m, Err (LockExpired id))
      else
        match clamp (default (ttl_secs lease) extension) 5 (max_ttl_secs m) with
        | Ok ext =>
            let updated :=
              mkLock (lock_id lease) (resource lease) (holder_id lease) (mode lease)
                (fencing_token lease) (granted_at_secs lease) (wrap 64 (now_secs + ext)) ext in
            (set_locks m (alter (fun ls => <[i := updated]> ls) res (locks m)), Ok updated)
        | Err e => (m, Err e)
        | Panic => (m, Panic)
        end
  | None => (m, Err (LockNotFound id))
  end.

Definition release (m : t) (id holder : bytes) : t * outcome LockError bool :=
  match find_lease id (map_to_list (locks m)) with
  | Some (res, i, lease) =>
      if negb (bool_decide (holder_id lease = holder))
      then (m, Err (HolderMismatch id (holder_id lease) holder))
      else
        let leases := delete i (default [] (locks m !! res)) in
        let lock_map :=
          if bool_decide (leases = []) then delete res (locks m) else <[res := leases]> (locks m) in
        (set_locks m lock_map, Ok true)
  | None => (m, Err (LockNotFound id))
  end.

Definition inspect (m : t) (res : bytes) (now_secs : Z) : list LeaseLock :=
  match canonicalize_resource res with
  | Ok canon => match locks m !! canon with Some ls => live now_secs ls | None => [] end
  | _ => []
  end.

Definition verify_fencing (m : t) (res : bytes) (token now_secs : Z) : bool :=
  match canonicalize_resource res with
  | Ok canon =>
      match locks m !! canon with
      | Some ls => existsb (fun l => (fencing_token l =? token) && negb (is_expired l now_secs)) ls
      | None => false
      end
  | _ => false
  end.

Definition purge_expired (m : t) (now_secs : Z) : t * Z :=
  let kept := (live now_secs <$> locks m) in
  let purged := foldr (fun e acc => zlen e.2 - zlen (live now_secs e.2) + acc) 0 (map_to_list (locks m)) in
  (set_locks m (filter (fun e => e.2 <> []) kept), purged).

(** ** Reports and persistence *)

Definition token_le (a b : LeaseLock) : Prop := fencing_token a <= fencing_token b.
#[global] Instance token_le_dec : RelDecision token_le.
Proof. intros a b. unfold token_le. apply _. Defined.

Definition count_mode (md : LockMode) (ls : list LeaseLock) : Z :=
  zlen (List.filter (fun l => bool_decide (mode l = md)) ls).

Definition report_of (m : t) (ls : list LeaseLock) : LockReport :=
  mkLockReport (zlen ls) (count_mode Exclusive ls) (count_mode Shared ls) (token_counter m)
    (merge_sort token_le ls).

Definition all_locks (m : t) : list LeaseLock := mjoin (snd <$> map_to_list (locks m)).

Definition generate_report (m : t) (now_secs : Z) : LockReport := report_of m (live now_secs (all_locks m)).

(** What [save_to_persistence] writes. *)
Definition save_to_persistence (m : t) : LockReport := report_of m (all_locks m).

(** [map.entry(l.resource.clone()).or_default().push(l)] *)
Definition group (map : gmap bytes (list LeaseLock)) (l : LeaseLock) : gmap bytes (list LeaseLock) :=
  <[resource l := default [] (map !! resource l) ++ [l]]> map.

Definition load_from_persistence (m : t) (file : option LockReport) : t :=
  match file with
  | Some report =>
      mk (foldl group ∅ (active_locks report)) (highest_fencing_token report)
        (default_ttl_secs m) (max_ttl_secs m)
  | None => m
  end.
End LockManager.

(** ** The invariant *)

Module LockInv.
Import LockManager.

(** The leases of a resource: either all shared or a single one, in the order of their tokens. *)
Record leases_ok (r : bytes) (counter : Z) (ls : list LeaseLock) : Prop := {
  lo_some : ls <> [];
  lo_res : Forall (eq r) (resource <$> ls);
  lo_mode : Forall (eq Shared) (mode <$> ls) \/ length ls = 1%nat;
  lo_tokens : StronglySorted Z.lt (fencing_token <$> ls);
  lo_bound : Forall (fun k => 0 < k <= counter) (fencing_token <$> ls) }.

Record lock_ok (m : t) : Prop := {
  lk_ttl : 5 <= default_ttl_secs m <= max_ttl_secs m;
  lk_leases : forall r ls, locks m !! r = Some ls -> leases_ok r (token_counter m) ls;
  lk_unique : forall r1 r2 ls1 ls2 k, locks m !! r1 = Some ls1 -> locks m !! r2 = Some ls2 ->
    k ∈ fencing_token <$> ls1 -> k ∈ fencing_token <$> ls2 -> r1 = r2 }.

Lemma sorted_sublist (l k : list Z) : l `sublist_of` k -> StronglySorted Z.lt k -> StronglySorted Z.lt l.
Proof.
  induction 1 as [|x l k Hs IH|x l k Hs IH]; intros Hk; [done|..];
    apply StronglySorted_inv in Hk as [Hk Hx]; [|auto].
  constructor; [auto|]. rewrite Forall_forall in *. intros y Hy. apply Hx. by eapply elem_of_sublist.
Qed.

Lemma leases_sub r c ls ls' : ls' `sublist_of` ls -> ls' <> [] -> leases_ok r c ls -> leases_ok r c ls'.
Proof.
  intros Hs Hne [A B C D E].
  assert (forall {B} (f : LeaseLock -> B) P, Forall P (f <$> ls) -> Forall P (f <$> ls')) as Hf.
  { intros X f P. rewrite !Forall_fmap, !Forall_forall. intros H x Hx. apply H. by eapply elem_of_sublist. }
  split; [done|by apply Hf| |by eapply sorted_sublist, D; apply fmap_sublist|by apply Hf].
  destruct C as [C|C]; [left; by apply Hf|right]. apply sublist_length in Hs.
  destruct ls' as [|x [|y ls']]; cbn in *; [done|done|lia].
Qed.

Lemma live_sublist now ls : live now ls `sublist_of` ls.
Proof. induction ls as [|l ls IH]; cbn; [done|]. destruct (negb _); by constructor. Qed.

Lemma live_spec now ls l : l ∈ live now ls <-> l ∈ ls /\ is_expired l now = false.
Proof. unfold live. by rewrite list_elem_of_In, filter_In, <- list_elem_of_In, negb_true_iff. Qed.

(** A map whose lists are sublists of the old ones. *)
Lemma shrink_ok m lm : lock_ok m ->
  (forall r ls', lm !! r = Some ls' -> exists ls, locks m !! r = Some ls /\ ls' `sublist_of` ls /\ ls' <> []) ->
  lock_ok (set_locks m lm).
Proof.
  intros [A B C] Hlm. split; [done| |]; cbn.
  - intros r ls' Hr. destruct (Hlm r ls' Hr) as (ls & Hls & Hs & Hne). apply (leases_sub _ _ ls); auto.
  - intros r1 r2 ls1 ls2 k H1 H2 K1 K2. destruct (Hlm _ _ H1) as (l1 & Hl1 & Hs1 & _).
    destruct (Hlm _ _ H2) as (l2 & Hl2 & Hs2 & _).
    apply (C r1 r2 l1 l2 k Hl1 Hl2);
      [eapply elem_of_sublist, fmap_sublist; [exact K1|done]|eapply elem_of_sublist, fmap_sublist; [exact K2|done]].
Qed.

Lemma purge_ok m now : lock_ok m -> lock_ok (purge_expired m now).1.
Proof.
  intros Hok. apply shrink_ok; [done|]. intros r ls'. rewrite map_lookup_filter_Some, lookup_fmap_Some.
  intros [(ls & <- & Hls) Hne]. exists ls. split; [done|]. split; [apply live_sublist|done].
Qed.

(** ** Acquiring *)

Lemma conflict_none md ls : conflict md ls = None ->
  match md with Exclusive => ls = [] | Shared => Forall (eq Shared) (mode <$> ls) end.
Proof.
  destruct md; cbn; [by destruct ls|]. intros H. apply Forall_fmap, Forall_forall. intros l Hl.
  apply list_elem_of_In in Hl. apply (List.find_none _ _ H) in Hl. rewrite bool_decide_eq_false in Hl.
  cbn. by destruct (mode l).
Qed.

Lemma conflict_some md ls l : conflict md ls = Some l -> l ∈ ls /\ (md = Shared -> mode l = Exclusive).
Proof.
  destruct md; cbn.
  - destruct ls; [done|]. intros [= ->]. split; [set_solver|done].
  - intros [Hin Hm]%List.find_some. apply list_elem_of_In in Hin. by apply bool_decide_eq_true in Hm.
Qed.

Lemma leases_mono r c c' ls : c <= c' -> leases_ok r c ls -> leases_ok r c' ls.
Proof. intros Hc [A B C D E]. split; [done..|]. eapply Forall_impl; [exact E|]. cbn. lia. Qed.

(** Adding a lease with the next token to the live leases of its resource. *)
Lemma grant_ok m canon now lease : lock_ok m -> 0 <= token_counter m ->
  let old := live now (default [] (locks m !! canon)) in
  (mode lease = Exclusive -> old = []) -> (mode lease = Shared -> Forall (eq Shared) (mode <$> old)) ->
  resource lease = canon -> fencing_token lease = token_counter m + 1 ->
  lock_ok (mk (<[canon := old ++ [lease]]> (locks m)) (token_counter m + 1) (default_ttl_secs m) (max_ttl_secs m)).
Proof.
  intros [A B C] Hpos old HE HS Hres Htok.
  assert (old = [] \/ leases_ok canon (token_counter m) old) as Hold.
  { unfold old. destruct (locks m !! canon) as [ls|] eqn:Hls; [|by left]. cbn.
    destruct (decide (live now ls = [])) as [He|Hne]; [by left|right].
    apply (leases_sub _ _ ls); [apply live_sublist|done|by apply B]. }
  assert (Hin : forall k, k ∈ fencing_token <$> old -> exists ls, locks m !! canon = Some ls /\ k ∈ fencing_token <$> ls).
  { intros k Hk. unfold old in Hk. destruct (locks m !! canon) as [ls|]; [|cbn in Hk; set_solver].
    exists ls. split; [done|]. eapply elem_of_sublist; [exact Hk|]. cbn. apply fmap_sublist, live_sublist. }
  assert (Hlt : forall r ls k, locks m !! r = Some ls -> k ∈ fencing_token <$> ls -> k <= token_counter m).
  { intros r ls k Hr Hk. destruct (B r ls Hr) as [_ _ _ _ Hb]. rewrite Forall_forall in Hb. apply Hb in Hk. lia. }
  split; [done|cbn..].
  - intros r ls. rewrite lookup_insert_Some. intros [[<- <-]|[Hne Hr]]; [|by apply (leases_mono _ (token_counter m)), B; [lia|]].
    split; rewrite ?fmap_app.
    + by destruct old.
    + apply Forall_app. split; [|by apply Forall_singleton]. destruct Hold as [->|[_ H _ _ _]]; [constructor|done].
    + destruct (mode lease) eqn:Hm; [right; by rewrite HE|left]. apply Forall_app. split; [by apply HS|].
      cbn. by apply Forall_singleton.
    + apply StronglySorted_app_2.
      * intros k k' Hk ->%list_elem_of_singleton. destruct (Hin k Hk) as (ls & Hls & Hk'). apply (Hlt canon ls) in Hk'; [lia|done].
      * destruct Hold as [->|[_ _ _ H _]]; [constructor|done].
      * cbn. by repeat constructor.
    + apply Forall_app. split; [|apply Forall_singleton; lia].
      destruct Hold as [->|[_ _ _ _ H]]; [constructor|]. eapply Forall_impl; [exact H|]. cbn. lia.
  - assert (Hnew : forall r ls k, <[canon := old ++ [lease]]> (locks m) !! r = Some ls -> k ∈ fencing_token <$> ls ->
      (r = canon /\ k = token_counter m + 1) \/ (k <= token_counter m /\ exists ls', locks m !! r = Some ls' /\ k ∈ fencing_token <$> ls')).
    { intros r ls k. rewrite lookup_insert_Some. intros [[<- <-]|[Hne Hr]] Hk.
      - rewrite fmap_app in Hk. apply elem_of_app in Hk as [Hk|Hk]; [right|left; cbn in Hk; set_solver].
        destruct (Hin k Hk) as (ls' & Hls' & Hk'). split; [by apply (Hlt canon ls')|by exists ls'].
      - right. split; [by apply (Hlt r ls)|by exists ls]. }
    intros r1 r2 ls1 ls2 k H1 H2 K1 K2.
    destruct (Hnew _ _ _ H1 K1) as [[-> ->]|(L1 & l1 & Hl1 & Kl1)], (Hnew _ _ _ H2 K2) as [[-> ?]|(L2 & l2 & Hl2 & Kl2)];
      [done|lia|lia|]. by apply (C r1 r2 l1 l2 k).
Qed.

(** What a successful [acquire] did: the leases of the resource that are still live, none in
    conflict, and the new one behind them. *)
Lemma acquire_cases m res holder md ttl rnd now : lock_ok m -> token_counter m + 1 < 2 ^ 64 -> 0 <= token_counter m ->
  let r := acquire m res holder md ttl rnd now in
  r.2 <> Panic /\ lock_ok r.1 /\
  forall lease, r.2 = Ok lease -> exists canon old,
    canonicalize_resource res = Ok canon /\ old = live now (default [] (locks m !! canon)) /\
    (md = Exclusive -> old = []) /\ (md = Shared -> Forall (eq Shared) (mode <$> old)) /\
    locks r.1 = <[canon := old ++ [lease]]> (locks m) /\
    token_counter r.1 = token_counter m + 1 /\
    fencing_token lease = token_counter m + 1 /\ resource lease = canon /\ mode lease = md /\
    holder_id lease = holder /\ exists ttl', 5 <= ttl' <= max_ttl_secs m /\ expires_at_secs lease = wrap 64 (now + ttl').
Proof.
  intros Hok Hmax Hpos. unfold acquire. destruct (canonicalize_resource res) as [canon|e|] eqn:Hc;
    [|done|unfold canonicalize_resource in Hc; by repeat case_bool_decide].
  case_bool_decide; [done|]. unfold clamp. pose proof (lk_ttl _ Hok) as Httl.
  rewrite (proj2 (Z.leb_le 5 _)) by lia. set (ttl' := Z.min _ _).
  assert (5 <= ttl' <= max_ttl_secs m) as Ht by lia. clearbody ttl'.
  set (old := live now (default [] (locks m !! canon))).
  set (lm := match locks m !! canon with Some ls => <[canon := live now ls]> (locks m) | None => locks m end).
  assert (default [] (lm !! canon) = old) as Hold.
  { unfold lm, old. destruct (locks m !! canon) as [ls|] eqn:Hls; [by rewrite lookup_insert_eq|by rewrite Hls]. }
  assert (Hsub : forall r ls', lm !! r = Some ls' -> ls' <> [] ->
    exists ls, locks m !! r = Some ls /\ ls' `sublist_of` ls /\ ls' <> []).
  { intros r ls' Hr Hne. unfold lm in Hr. destruct (locks m !! canon) as [ls|] eqn:Hls; [|by exists ls'].
    apply lookup_insert_Some in Hr as [[<- <-]|[_ Hr]]; [exists ls|by exists ls'].
    split; [done|]. split; [apply live_sublist|done]. }
  assert (Hsome : forall r ls', lm !! r = Some ls' -> r <> canon -> ls' <> []).
  { intros r ls' Hr Hne. unfold lm in Hr. destruct (locks m !! canon) as [ls|].
    - rewrite lookup_insert_ne in Hr by done. by apply (lk_leases _ Hok r).
    - by apply (lk_leases _ Hok r). }
  rewrite Hold. destruct (conflict md old) as [ex|] eqn:Hcf; cbn [fst snd].
  - split; [done|]. split; [|done]. apply shrink_ok; [done|]. intros r ls' Hr. apply Hsub; [done|].
    destruct (decide (r = canon)) as [->|Hne]; [|by apply (Hsome r)]. rewrite Hr in Hold. unfold default, id in Hold.
    apply conflict_some in Hcf as [Hin _]. intros ->. rewrite <- Hold in Hin. set_solver.
  - split; [done|]. rewrite wrap_small by (unfold fits; lia). set (lease := mkLock _ _ _ _ _ _ _ _).
    assert (<[canon := old ++ [lease]]> lm = <[canon := old ++ [lease]]> (locks m)) as Hlm.
    { unfold lm. by destruct (locks m !! canon); rewrite ?insert_insert_eq. }
    rewrite Hlm. apply conflict_none in Hcf.
    assert (md = Exclusive -> old = []) as HE by (by intros ->).
    assert (md = Shared -> Forall (eq Shared) (mode <$> old)) as HS by (by intros ->).
    split; [by apply grant_ok|]. intros l [= <-]. exists canon, old. split_and!; try done. by exists ttl'.
Qed.

(** ** Renewing and releasing *)

Lemma find_position_spec id ls i : match find_position id ls i with
  | Some (j, l) => (i <= j)%nat /\ ls !! (j - i)%nat = Some l /\ lock_id l = id
  | None => forall l, l ∈ ls -> lock_id l <> id
  end.
Proof.
  revert i. induction ls as [|x ls IH]; intros i; cbn [find_position]; [set_solver|]. case_bool_decide as Hx.
  - split; [lia|]. by rewrite Nat.sub_diag.
  - specialize (IH (S i)). destruct (find_position id ls (S i)) as [[j l]|].
    + destruct IH as (Hj & Hl & Hid). split; [lia|]. split; [|done].
      by replace (j - i)%nat with (S (j - S i)) by lia.
    + set_solver.
Qed.

Lemma find_lease_spec id entries : match find_lease id entries with
  | Some (res, i, l) => exists ls, (res, ls) ∈ entries /\ ls !! i = Some l /\ lock_id l = id
  | None => forall res ls l, (res, ls) ∈ entries -> l ∈ ls -> lock_id l <> id
  end.
Proof.
  induction entries as [|[res ls] entries IH]; cbn [find_lease]; [set_solver|].
  pose proof (find_position_spec id ls 0) as Hp. destruct (find_position id ls 0) as [[i l]|].
  - destruct Hp as (_ & Hl & Hid). exists ls. rewrite Nat.sub_0_r in Hl. split; [set_solver|done].
  - destruct (find_lease id entries) as [[[res' i] l]|].
    + destruct IH as (ls' & Hin & ?). exists ls'. split; [set_solver|done].
    + intros res' ls' l [[= -> ->]|Hin]%elem_of_cons Hl; [by apply Hp|by apply (IH res' ls')].
Qed.

Lemma find_in_map m id res i l : find_lease id (map_to_list (locks m)) = Some (res, i, l) ->
  exists ls, locks m !! res = Some ls /\ ls !! i = Some l /\ lock_id l = id.
Proof.
  intros H. pose proof (find_lease_spec id (map_to_list (locks m))) as Hf. rewrite H in Hf.
  destruct Hf as (ls & Hin & Hl). exists ls. by apply elem_of_map_to_list in Hin.
Qed.

(** Replacing a lease by one with the same resource, mode and token. *)
Lemma alter_ok m res ls i l l' : lock_ok m -> locks m !! res = Some ls -> ls !! i = Some l ->
  resource l' = resource l -> mode l' = mode l -> fencing_token l' = fencing_token l ->
  lock_ok (set_locks m (alter (fun ls => <[i := l']> ls) res (locks m))).
Proof.
  intros [A B C] Hls Hl Hr Hm Ht.
  assert (Hf : forall {X} (f : LeaseLock -> X), f l' = f l -> f <$> <[i := l']> ls = f <$> ls).
  { intros X f Hf. rewrite list_fmap_insert. apply list_insert_id. by rewrite list_lookup_fmap, Hl, Hf. }
  assert (Hlook : forall r ls', alter (fun ls => <[i := l']> ls) res (locks m) !! r = Some ls' ->
    exists ls0, locks m !! r = Some ls0 /\ fencing_token <$> ls' = fencing_token <$> ls0 /\ leases_ok r (token_counter m) ls').
  { intros r ls'. destruct (decide (r = res)) as [->|Hne].
    - rewrite lookup_alter_eq, Hls. intros [= <-]. exists ls. destruct (B res ls Hls) as [P Q R S T].
      split; [done|]. split; [by apply Hf|]. split; rewrite ?Hf by done; [|done|by rewrite length_insert|done|done].
      intros He. apply (f_equal length) in He. rewrite length_insert in He. by destruct ls.
    - rewrite lookup_alter_ne by done. intros Hr'. exists ls'. split; [done|]. split; [done|]. by apply B. }
  split; [done|cbn..].
  - intros r ls' Hr'. by destruct (Hlook r ls' Hr') as (ls0 & _ & _ & H).
  - intros r1 r2 ls1 ls2 k H1 H2. destruct (Hlook _ _ H1) as (l1 & Hl1 & -> & _).
    destruct (Hlook _ _ H2) as (l2 & Hl2 & -> & _). by apply (C r1 r2 l1 l2 k).
Qed.

Lemma renew_cases m id holder ext now : lock_ok m -> let r := renew m id holder ext now in
  r.2 <> Panic /\ lock_ok r.1 /\ token_counter r.1 = token_counter m /\
  match r.2 with
  | Ok l' => exists res i ls l, locks m !! res = Some ls /\ ls !! i = Some l /\ lock_id l = id /\
      holder_id l = holder /\ is_expired l now = false /\ fencing_token l' = fencing_token l /\ mode l' = mode l /\
      locks r.1 = <[res := <[i := l']> ls]> (locks m)
  | _ => r.1 = m
  end.
Proof.
  intros Hok. unfold renew. destruct (find_lease id _) as [[[res i] l]|] eqn:Hf; [|done].
  destruct (find_in_map m id res i l Hf) as (ls & Hls & Hl & Hid).
  case_bool_decide as Hh; cbn [negb]; [|done]. destruct (is_expired l now) eqn:He; [done|].
  unfold clamp. pose proof (lk_ttl _ Hok). rewrite (proj2 (Z.leb_le 5 _)) by lia. cbn [fst snd]. split; [done|].
  split; [by apply (alter_ok m res ls i l)|]. split; [done|]. exists res, i, ls, l. split_and!; try done. cbn.
  apply map_eq. intros r. destruct (decide (r = res)) as [->|Hne].
  - by rewrite lookup_alter_eq, Hls, lookup_insert_eq.
  - by rewrite lookup_alter_ne, lookup_insert_ne.
Qed.

Lemma release_cases m id holder : lock_ok m -> let r := release m id holder in
  r.2 <> Panic /\ lock_ok r.1 /\ token_counter r.1 = token_counter m /\
  match r.2 with
  | Ok _ => exists res i ls l, locks m !! res = Some ls /\ ls !! i = Some l /\ lock_id l = id /\ holder_id l = holder /\
      default [] (locks r.1 !! res) = delete i ls /\ forall res', res' <> res -> locks r.1 !! res' = locks m !! res'
  | _ => r.1 = m
  end.
Proof.
  intros Hok. unfold release. destruct (find_lease id _) as [[[res i] l]|] eqn:Hf; [|done].
  destruct (find_in_map m id res i l Hf) as (ls & Hls & Hl & Hid).
  case_bool_decide as Hh; cbn [negb]; [|done]. rewrite Hls. change (default [] (Some ls)) with ls. cbn [fst snd].
  split; [done|]. split; [|split; [done|exists res, i, ls, l; split_and!; try done]].
  - apply shrink_ok; [done|]. intros r ls'. case_bool_decide as Hd.
    + rewrite lookup_delete_Some. intros [_ Hr]. exists ls'. split; [done|]. split; [done|]. by apply (lk_leases _ Hok r).
    + rewrite lookup_insert_Some. intros [[<- <-]|[_ Hr]]; [exists ls|exists ls'].
      * split; [done|]. split; [apply sublist_delete|done].
      * split; [done|]. split; [done|]. by apply (lk_leases _ Hok r).
  - cbn. case_bool_decide as Hd; [by rewrite lookup_delete_eq, Hd|by rewrite lookup_insert_eq].
  - intros res' Hne. cbn. case_bool_decide; [by rewrite lookup_delete_ne|by rewrite lookup_insert_ne].
Qed.

(** ** Restarts *)

#[global] Instance token_le_trans : Transitive token_le.
Proof. intros a b c. unfold token_le. lia. Qed.
#[global] Instance token_le_total : Total token_le.
Proof. intros a b. unfold token_le. lia. Qed.

Abbreviation of_res r := (filter (fun l => resource l = r)).

Lemma foldl_group ls r : foldl group ∅ ls !! r = if decide (of_res r ls = []) then None else Some (of_res r ls).
Proof.
  induction ls as [|l ls IH] using rev_ind; [done|]. rewrite foldl_app. cbn. unfold group at 1.
  rewrite filter_app. cbn. destruct (decide (resource l = r)) as [Hr|Hr].
  - rewrite Hr, lookup_insert_eq, IH. rewrite (decide_False (P := _ ++ [l] = [])) by (by destruct (of_res r ls)).
    f_equal. case_decide as Hd; [by rewrite Hd|done].
  - rewrite lookup_insert_ne, IH by done. by rewrite app_nil_r.
Qed.

Lemma filter_none {A} (P : A -> Prop) `{forall x, Decision (P x)} (l : list A) :
  (forall x, x ∈ l -> ~ P x) -> filter P l = [].
Proof. induction l as [|x l IH]; intros Hl; [done|]. rewrite filter_cons, decide_False by set_solver. apply IH. set_solver. Qed.
Lemma filter_all {A} (P : A -> Prop) `{forall x, Decision (P x)} (l : list A) :
  (forall x, x ∈ l -> P x) -> filter P l = l.
Proof. induction l as [|x l IH]; intros Hl; [done|]. rewrite filter_cons, decide_True by set_solver. f_equal. apply IH. set_solver. Qed.

Lemma res_of m r ls l : lock_ok m -> locks m !! r = Some ls -> l ∈ ls -> resource l = r.
Proof.
  intros Hok Hr Hl. destruct (lk_leases _ Hok r ls Hr) as [_ Hres _ _ _]. rewrite Forall_fmap, Forall_forall in Hres.
  symmetry. by apply Hres.
Qed.

Lemma all_locks_res m r : lock_ok m -> of_res r (all_locks m) ≡ₚ default [] (locks m !! r).
Proof.
  intros Hok. unfold all_locks.
  assert (Hother : of_res r (mjoin (snd <$> map_to_list (delete r (locks m)))) = []).
  { apply filter_none. intros l (ls & Hl & ([r' ls'] & -> & Hin)%list_elem_of_fmap)%list_elem_of_join. cbn in Hl.
    apply elem_of_map_to_list, lookup_delete_Some in Hin as [Hne Hr']. rewrite (res_of m r' ls' l) by done. congruence. }
  destruct (locks m !! r) as [ls|] eqn:Hr; cbn.
  - rewrite <- (insert_delete_id (locks m) r ls Hr) at 1. rewrite map_to_list_insert by apply lookup_delete_eq.
    rewrite fmap_cons. change (mjoin ((r, ls).2 :: ?k)) with (ls ++ mjoin k).
    rewrite filter_app, Hother, app_nil_r. rewrite filter_all; [done|].
    intros l Hl. by apply (res_of m r ls).
  - rewrite (delete_id (locks m) r Hr) in Hother. by rewrite Hother.
Qed.

Lemma sorted_filter {A} (R : relation A) (P : A -> Prop) `{forall x, Decision (P x)} (l : list A) :
  StronglySorted R l -> StronglySorted R (filter P l).
Proof.
  induction 1 as [|x l Hl IH Hx]; [constructor|]. rewrite filter_cons. case_decide; [|done].
  constructor; [done|]. rewrite Forall_forall in *. intros y [_ Hy]%list_elem_of_filter. by apply Hx.
Qed.

Lemma load_save m d mx : lock_ok m ->
  let m' := load_from_persistence (with_ttl new d mx) (Some (save_to_persistence m)) in
  locks m' = locks m /\ token_counter m' = token_counter m.
Proof.
  intros Hok. cbn. split; [|done]. apply map_eq. intros r. rewrite foldl_group.
  pose proof (all_locks_res m r Hok) as Hp.
  assert (of_res r (merge_sort token_le (all_locks m)) = default [] (locks m !! r)) as ->.
  { apply (StronglySorted_unique_strong token_le).
    - intros x y Hx Hy Hxy Hyx. destruct (locks m !! r) as [ls|] eqn:Hr; [|cbn in Hy; set_solver]. cbn in *.
      assert (x ∈ ls) as Hx'. { rewrite merge_sort_Permutation in Hx. by rewrite <- Hp. }
      destruct (lk_leases _ Hok r ls Hr) as [_ _ _ Hs _]. apply list_elem_of_lookup in Hx' as [i Hi], Hy as [j Hj].
      assert (fencing_token x = fencing_token y) as Heq by (unfold token_le in *; lia).
      assert (NoDup (fencing_token <$> ls)) as Hnd.
      { clear -Hs. induction Hs as [|k l Hl IH Hk]; constructor; [|done]. rewrite Forall_forall in Hk. intros H%Hk. lia. }
      assert (i = j) as <-; [|congruence]. apply (NoDup_lookup _ _ _ (fencing_token x) Hnd).
      + by rewrite list_lookup_fmap, Hi.
      + by rewrite list_lookup_fmap, Hj, Heq.
    - apply sorted_filter, StronglySorted_merge_sort; apply _.
    - destruct (locks m !! r) as [ls|] eqn:Hr; cbn; [|constructor].
      destruct (lk_leases _ Hok r ls Hr) as [_ _ _ Hs _]. clear -Hs.
      induction ls as [|l ls IH]; [constructor|]. rewrite fmap_cons in Hs. apply StronglySorted_inv in Hs as [Hs Hl].
      constructor; [by apply IH|]. rewrite Forall_fmap in Hl. apply (Forall_impl _ _ _ Hl). unfold token_le. cbn. lia.
    - by rewrite merge_sort_Permutation. }
  destruct (locks m !! r) as [ls|] eqn:Hr; cbn; [|done]. rewrite decide_False; [done|]. by apply (lk_leases _ Hok r).
Qed.

(** ** Runs with restarts *)

(** The manager and the file; a change is followed by a save that succeeds or not. *)
Record world := mkWorld { mgr : t; file : option LockReport }.

Definition saved (ok : bool) (m : t) (old : option LockReport) : option LockReport :=
  if ok then Some (save_to_persistence m) else old.
Definition is_ok {E A} (o : outcome E A) : bool := match o with Ok _ => true | _ => false end.

Inductive step (w : world) : world -> Prop :=
  | do_acquire res holder md ttl rnd now ok : token_counter (mgr w) + 1 < 2 ^ 64 ->
      let r := acquire (mgr w) res holder md ttl rnd now in
      step w (mkWorld r.1 (saved (is_ok r.2 && ok) r.1 (file w)))
  | do_renew id holder ext now ok :
      let r := renew (mgr w) id holder ext now in
      step w (mkWorld r.1 (saved (is_ok r.2 && ok) r.1 (file w)))
  | do_release id holder ok :
      let r := release (mgr w) id holder in
      step w (mkWorld r.1 (saved (is_ok r.2 && ok) r.1 (file w)))
  | do_purge now ok :
      let r := purge_expired (mgr w) now in
      step w (mkWorld r.1 (saved ((0 <? r.2) && ok) r.1 (file w)))
  | restart d mx : step w (mkWorld (load_from_persistence (with_ttl new d mx) (file w)) (file w)).

Definition start (d mx : Z) : world := mkWorld (with_ttl new d mx) None.

Record world_ok (w : world) : Prop := {
  wo_mgr : lock_ok (mgr w);
  wo_pos : 0 <= token_counter (mgr w);
  wo_file : forall rep, file w = Some rep -> exists m, lock_ok m /\ 0 <= token_counter m /\ rep = save_to_persistence m }.

Lemma lock_new_ok d mx : lock_ok (with_ttl new d mx).
Proof. split; cbn; [lia|intros r ls|intros r1 r2 ls1 ls2 k]; by rewrite lookup_empty. Qed.

Lemma saved_ok w m' b : world_ok w -> lock_ok m' -> 0 <= token_counter m' ->
  world_ok (mkWorld m' (saved b m' (file w))).
Proof.
  intros [A B C] Hm Hp. split; cbn; [done|done|]. unfold saved. destruct b; [|done].
  intros rep [= <-]. by exists m'.
Qed.

Lemma step_ok w w' : world_ok w -> step w w' -> world_ok w'.
Proof.
  intros Hw Hstep. pose proof Hw as [A B C].
  destruct Hstep as [res holder md ttl rnd now ok Hmax r|id holder ext now ok r|id holder ok r|now ok r|d mx].
  - destruct (acquire_cases (mgr w) res holder md ttl rnd now A Hmax B) as (_ & Hok & Hg). fold r in Hok, Hg.
    apply saved_ok; [done..|]. destruct r.2 as [l|e|] eqn:Hr.
    + destruct (Hg l eq_refl) as (canon & old & _ & _ & _ & _ & _ & -> & _). lia.
    + unfold r in Hr |- *. unfold acquire in *. by repeat case_match.
    + unfold r in Hr |- *. unfold acquire in *. by repeat case_match.
  - destruct (renew_cases (mgr w) id holder ext now A) as (_ & Hok & Ht & _). apply saved_ok; [done..|].
    unfold r. by rewrite Ht.
  - destruct (release_cases (mgr w) id holder A) as (_ & Hok & Ht & _). apply saved_ok; [done..|].
    unfold r. by rewrite Ht.
  - apply saved_ok; [done|by apply purge_ok|done].
  - destruct (file w) as [rep|] eqn:Hf; [|split; [apply lock_new_ok|done|done]].
    destruct (C rep eq_refl) as (m & Hm & Hp & ->). destruct (load_save m d mx Hm) as [Hl Ht].
    split; [|cbn; done|intros rep [= <-]; by exists m].
    destruct Hm as [_ P Q]. split; cbn [mgr]; [cbn; lia| |]; rewrite ?Hl, ?Ht; done.
Qed.

Lemma run_ok d mx w : rtc step (start d mx) w -> world_ok w.
Proof.
  intros Hr. remember (start d mx) as w0 eqn:H0.
  assert (world_ok w0) as Hw by (subst; split; [apply lock_new_ok|done|done]). clear H0.
  induction Hr as [|w0 w1 w2 Hst Hr IH]; [done|]. apply IH. by apply (step_ok w0).
Qed.

(** C7. Mutual exclusion in the table of the manager. In every run of one lock manager, with failing saves and restarts, as long as
    the token counter does not overflow: two leases that the manager then has as live on a resource are the same lease or both shared, and every
    such lease was granted on that resource. When the file holds the last state, a restart keeps exactly these leases, so that those who
    hold them stay protected. When a save has failed it does not: the table after a restart says nothing of a lease that was lost with it, whose holder
    still has it ([LockExamples.fencing_token_reused]). *)
Theorem lock_mutual_exclusion d mx w res now l1 l2 : rtc step (start d mx) w ->
  l1 ∈ inspect (mgr w) res now -> l2 ∈ inspect (mgr w) res now ->
  canonicalize_resource res = Ok (resource l1) /\
  (l1 = l2 \/ (mode l1 = Shared /\ mode l2 = Shared)) /\
  (file w = Some (save_to_persistence (mgr w)) -> forall d' mx', inspect (load_from_persistence (with_ttl new d' mx') (file w)) res now = inspect (mgr w) res now).
Proof.
  intros Hr. destruct (run_ok d mx w Hr) as [Hok _ _].
  assert (file w = Some (save_to_persistence (mgr w)) -> forall d' mx', inspect (load_from_persistence (with_ttl new d' mx') (file w)) res now = inspect (mgr w) res now) as Hload.
  { intros -> d' mx'. unfold inspect. by rewrite (proj1 (load_save (mgr w) d' mx' Hok)). }
  revert Hload. unfold inspect.
  destruct (canonicalize_resource res) as [canon|e|] eqn:Hc; [|set_solver|set_solver].
  destruct (locks (mgr w) !! canon) as [ls|] eqn:Hls; [|set_solver].
  intros Hload [H1 _]%live_spec [H2 _]%live_spec. apply and_assoc. split; [|exact Hload]. split; [f_equal; symmetry; by apply (res_of (mgr w) canon ls)|].
  destruct (lk_leases _ Hok canon ls Hls) as [_ _ [Hm|Hm] _ _].
  - right. rewrite Forall_fmap, Forall_forall in Hm. split; symmetry; by apply Hm.
  - left. destruct ls as [|x [|y ls]]; [done| |done]. set_solver.
Qed.

(** Fencing. A granted lease carries a token above every token of the manager, that verifies
    until the lease expires, and an exclusive grant invalidates every other token on the resource;
    [renew] keeps the token, and only the holder of a live lease can renew. *)
Theorem lock_fencing d mx w res holder md ttl rnd now : rtc step (start d mx) w ->
  token_counter (mgr w) + 1 < 2 ^ 64 -> 0 <= now -> now + max_ttl_secs (mgr w) < 2 ^ 64 ->
  let r := acquire (mgr w) res holder md ttl rnd now in
  r.2 <> Panic /\
  (forall lease, r.2 = Ok lease ->
     (forall r' ls l, locks (mgr w) !! r' = Some ls -> l ∈ ls -> fencing_token l < fencing_token lease) /\
     now + 5 <= expires_at_secs lease /\
     (forall t, t < expires_at_secs lease -> verify_fencing r.1 res (fencing_token lease) t = true) /\
     (md = Exclusive -> forall k t, verify_fencing r.1 res k t = true -> k = fencing_token lease)) /\
  (forall id h ext t l', (renew (mgr w) id h ext t).2 = Ok l' ->
     exists r' ls l, locks (mgr w) !! r' = Some ls /\ l ∈ ls /\ lock_id l = id /\ holder_id l = h /\
       is_expired l t = false /\ fencing_token l' = fencing_token l).
Proof.
  intros Hr Hmax Hnow Hwrap r. destruct (run_ok d mx w Hr) as [Hok Hpos _].
  destruct (acquire_cases (mgr w) res holder md ttl rnd now Hok Hmax Hpos) as (Hnp & _ & Hg). fold r in Hnp, Hg.
  split; [done|]. split.
  - intros lease Hl. destruct (Hg lease Hl) as (canon & old & Hc & Hold & HE & HS & Hlocks & Hcnt & Htok & Hres & Hmode & _ & ttl' & Httl & Hexp).
    rewrite wrap_small in Hexp by (unfold fits; lia). split_and!.
    + intros r' ls l Hr' Hin. destruct (lk_leases _ Hok r' ls Hr') as [_ _ _ _ Hb].
      rewrite Forall_fmap, Forall_forall in Hb. apply Hb in Hin. cbn in Hin. lia.
    + lia.
    + intros t Ht. unfold verify_fencing. rewrite Hc, Hlocks, lookup_insert_eq, existsb_app. cbn.
      unfold is_expired. rewrite Z.eqb_refl, (proj2 (Z.leb_gt _ _)) by lia. cbn. by rewrite orb_true_r.
    + intros He k t. unfold verify_fencing. rewrite Hc, Hlocks, lookup_insert_eq, HE by done. cbn. lia.
  - intros id h ext t l' Hl'. destruct (renew_cases (mgr w) id h ext t Hok) as (_ & _ & _ & Hc). rewrite Hl' in Hc.
    destruct Hc as (r' & i & ls & l & Hls & Hi & Hid & Hh & He & Ht & _). exists r', ls, l.
    split_and!; try done. by apply list_elem_of_lookup_2 in Hi.
Qed.

(** Persistence. After a successful save, a restart brings back the same leases, in the same
    order, and the same token counter. *)
Theorem lock_restart d mx w d' mx' : rtc step (start d mx) w ->
  let m' := load_from_persistence (with_ttl new d' mx') (Some (save_to_persistence (mgr w))) in
  locks m' = locks (mgr w) /\ token_counter m' = token_counter (mgr w).
Proof. intros Hr. destruct (run_ok d mx w Hr) as [Hok _ _]. by apply load_save. Qed.
End LockInv.

Module LockExamples.
Import LockManager LockInv.
Definition s := Utf8.str_bytes.
Definition w0 : world := start 60 3600.
Definition a1 := acquire (mgr w0) (s "/data") (s "n1") Exclusive None 7 1000.
Definition w1 : world := mkWorld a1.1 (saved (is_ok a1.2 && true) a1.1 (file w0)).
Definition lease1 : LeaseLock := mkLock (s "lck-101-7") (s "/data") (s "n1") Exclusive 101 1000 1060 60.

Definition now_tokens (m : t) : list Z := fencing_token <$> all_locks m.

Lemma w1_reached : rtc step w0 w1.
Proof. apply rtc_once. apply (do_acquire w0 (s "/data") (s "n1") Exclusive None 7 1000 true). cbn. lia. Qed.

Lemma lock_mutual_exclusion_witness :
  lease1 ∈ inspect (mgr w1) (s "data") 1010 /\
  canonicalize_resource (s "data") = Ok (resource lease1) /\ (lease1 = lease1 \/ (mode lease1 = Shared /\ mode lease1 = Shared)) /\
  inspect (load_from_persistence (with_ttl new 60 3600) (file w1)) (s "data") 1010 = inspect (mgr w1) (s "data") 1010.
Proof.
  assert (lease1 ∈ inspect (mgr w1) (s "data") 1010) as H.
  { replace (inspect (mgr w1) (s "data") 1010) with [lease1] by (vm_compute; reflexivity). apply list_elem_of_here. }
  split; [exact H|]. destruct (lock_mutual_exclusion 60 3600 w1 (s "data") 1010 lease1 lease1 w1_reached H H) as (H1 & H2 & H3).
  split; [exact H1|]. split; [exact H2|]. apply H3. vm_compute. reflexivity.
Defined.

Lemma lock_fencing_witness : exists lease,
  (acquire (mgr w1) (s "/other") (s "n2") Shared None 8 1001).2 = Ok lease /\
  now_tokens (mgr w1) = [101] /\ fencing_token lease1 < fencing_token lease.
Proof.
  eexists. split; [vm_compute; reflexivity|]. split; [vm_compute; reflexivity|].
  pose proof (proj1 (proj2 (lock_fencing 60 3600 w1 (s "/other") (s "n2") Shared None 8 1001 w1_reached
    ltac:(vm_compute; reflexivity) ltac:(lia) ltac:(vm_compute; reflexivity)))) as H.
  edestruct H as [Hlt _]; [vm_compute; reflexivity|].
  apply (Hlt (s "/data") [lease1]); [vm_compute; reflexivity|apply list_elem_of_here].
Defined.

Lemma lock_restart_witness :
  locks (load_from_persistence (with_ttl new 60 3600) (Some (save_to_persistence (mgr w1)))) = locks (mgr w1).
Proof. apply (lock_restart 60 3600 w1 60 3600 w1_reached). Defined.

(** A save that fails is ignored; after a restart the counter is behind and a token that was
    granted before is granted again, to another holder. *)
Theorem fencing_token_reused : exists w r1 l1 r2 l2,
  rtc step w0 w /\ r1 = acquire (mgr w) (s "/a") (s "n1") Exclusive None 1 1000 /\ r1.2 = Ok l1 /\
  let w' := mkWorld r1.1 (file w) in
  step w w' /\ r2 = acquire (load_from_persistence (with_ttl new 60 3600) (file w')) (s "/a") (s "n2") Exclusive None 2 1001 /\
  r2.2 = Ok l2 /\ fencing_token l1 = fencing_token l2 /\ holder_id l1 <> holder_id l2 /\ is_expired l1 1001 = false.
Proof.
  exists w1. do 4 eexists. split; [apply w1_reached|]. split; [reflexivity|]. split; [vm_compute; reflexivity|].
  split; [apply (do_acquire w1 (s "/a") (s "n1") Exclusive None 1 1000 false); vm_compute; reflexivity|].
  split; [reflexivity|]. vm_compute. done.
Qed.

(** A trailing slash, or a doubled one, names another resource. *)
Theorem canonical_forms_differ :
  canonicalize_resource (s "a/b") <> canonicalize_resource (s "a/b/") /\
  canonicalize_resource (s "a/b") <> canonicalize_resource (s "a//b").
Proof. split; vm_compute; congruence. Qed.
End LockExamples.
