(* ===== verification/AuditLog.v ===== *)
(** * Audit accumulator, audit/mod.rs

    Commitments, the Merkle tree over them, inclusion and exclusion proofs with their verifiers,
    and the hex form of hashes. BLAKE3 is a function from bytes to bytes; the soundness of
    inclusion proofs takes its results to be of 32 bytes and is stated up to a collision of it.
    The examples show what the verifiers do not check. *)

From S2P Require Import Prelude Utf8 Protocol Paths.

(** A collision of a hash function. *)
Definition collision (h : bytes -> bytes) : Prop := exists x y, x <> y /\ h x = h y.

Definition AUDIT_LEAF_DOMAIN_TAG : bytes := Utf8.str_bytes "velcrux-audit-leaf:v1".
Definition AUDIT_NODE_DOMAIN_TAG : bytes := Utf8.str_bytes "velcrux-audit-node:v1".

Inductive AuditProofDirection := Left | Right.
Record AuditProofStep := mkStep { sibling : bytes; direction : AuditProofDirection }.
Record AuditInclusionProof := mkInclusion {
  leaf_index : Z; leaf_hash : bytes; path : list AuditProofStep; expected_root : bytes; tree_size : Z }.
Record AuditExclusionProof := mkExclusion {
  target_hash : bytes; lower_bound : option AuditInclusionProof;
  upper_bound : option AuditInclusionProof; x_expected_root : bytes }.
Record AuditRecord := mkRecord {
  transfer_id : bytes; tenant_id : bytes; manifest_hash : bytes; total_bytes : Z; completed_at_secs : Z }.
Record BlindedAuditLeaf := mkBlinded { b_leaf_hash : bytes; b_salt : bytes; b_transfer_id : bytes }.

(** [VelcruxError::Config]; the messages are left out. *)
Inductive AuditError := OutOfBounds (leaf_index size : Z) | EmptyTree | TargetExists
  | BadHexLength (len : Z) | BadHexByte (s : bytes).

Section audit.
Context (blake3 : bytes -> bytes).

(** [hasher.update] of each part, then [finalize]. *)
Definition commit (r : AuditRecord) (salt : bytes) : BlindedAuditLeaf :=
  let h := blake3 (AUDIT_LEAF_DOMAIN_TAG ++ transfer_id r ++ tenant_id r ++ manifest_hash r ++
                   to_le 8 (total_bytes r) ++ to_le 8 (completed_at_secs r) ++ salt) in
  mkBlinded h salt (transfer_id r).

Definition combine_hashes (left right : bytes) : bytes :=
  blake3 (AUDIT_NODE_DOMAIN_TAG ++ left ++ right).

Definition climb (current : bytes) (step : AuditProofStep) : bytes :=
  match direction step with
  | Left => combine_hashes (sibling step) current
  | Right => combine_hashes current (sibling step)
  end.

Definition verify_inclusion_proof (p : AuditInclusionProof) : bool :=
  bool_decide (foldl climb (leaf_hash p) (path p) = expected_root p).

(** [None] is the bound not provided; otherwise the three checks of the code. *)
Definition bound_ok (b : option AuditInclusionProof) (order : bytes -> bool) (root : bytes) : bool :=
  match b with
  | None => true
  | Some p => verify_inclusion_proof p && order (leaf_hash p) && bool_decide (expected_root p = root)
  end.

Definition verify_exclusion_proof (p : AuditExclusionProof) : bool :=
  bound_ok (lower_bound p) (fun h => bytes_lt h (target_hash p)) (x_expected_root p) &&
  bound_ok (upper_bound p) (fun h => bytes_lt (target_hash p) h) (x_expected_root p) &&
  match lower_bound p, upper_bound p with
  | Some lower, Some upper => leaf_index upper =? leaf_index lower + 1
  | None, None => false
  | _, _ => true
  end.

(** ** The tree *)

Record MerkleAuditTree := mkTree {
  epoch : Z; leaves : list bytes; sorted_leaves : list (bytes * Z) }.

Definition tree_new (epoch : Z) : MerkleAuditTree := mkTree epoch [] [].

(** [binary_search_by] of the standard library: halving from [base], the last match being [Ok]. *)
Definition key (l : list (bytes * Z)) (i : nat) : bytes := default [] (fst <$> l !! i).

Fixpoint search_loop (fuel : nat) (l : list (bytes * Z)) (h : bytes) (base size : nat) : nat :=
  match fuel with
  | O => base
  | S fuel =>
      if (1 <? size)%nat then
        let half := (size / 2)%nat in
        let mid := (base + half)%nat in
        search_loop fuel l h (if bytes_lt h (key l mid) then base else mid) (size - half)%nat
      else base
  end.

Definition binary_search (l : list (bytes * Z)) (h : bytes) : nat + nat :=
  match l with
  | [] => inr 0%nat
  | _ =>
      let base := search_loop (length l) l h 0 (length l) in
      if bool_decide (key l base = h) then inl base
      else inr (base + (if bytes_lt (key l base) h then 1 else 0))%nat
  end.

Definition insert_leaf (t : MerkleAuditTree) (h : bytes) : MerkleAuditTree * Z :=
  let index := zlen (leaves t) in
  let pos := match binary_search (sorted_leaves t) h with inl i => i | inr i => i end in
  let sorted := take pos (sorted_leaves t) ++ (h, index) :: drop pos (sorted_leaves t) in
  (mkTree (epoch t) (leaves t ++ [h]) sorted, index).

Definition insert_record (t : MerkleAuditTree) (r : AuditRecord) (salt : bytes)
  : MerkleAuditTree * (Z * bytes) :=
  let blinded := commit r salt in
  let '(t, index) := insert_leaf t (b_leaf_hash blinded) in
  (t, (index, b_leaf_hash blinded)).

(** One level of the tree from the one below, an odd last node paired with itself. *)
Fixpoint next_level (l : list bytes) : list bytes :=
  match l with
  | a :: b :: l => combine_hashes a b :: next_level l
  | [a] => [combine_hashes a a]
  | [] => []
  end.

(** [while count > 1 { count = (count + 1) / 2; h += 1; }] *)
Fixpoint height_loop (fuel : nat) (count h : Z) : Z :=
  match fuel with
  | O => h
  | S fuel => if 1 <? count then height_loop fuel ((count + 1) / 2) (h + 1) else h
  end.
Definition height (t : MerkleAuditTree) : Z :=
  match leaves t with [] => 0 | _ => height_loop (length (leaves t)) (zlen (leaves t)) 1 end.

(** [while current_level.len() > 1]; every round at least halves the level. *)
Fixpoint root_loop (fuel : nat) (level : list bytes) : list bytes :=
  match fuel with
  | O => level
  | S fuel => if 1 <? zlen level then root_loop fuel (next_level level) else level
  end.

Definition root (t : MerkleAuditTree) : bytes :=
  match leaves t with
  | [] => blake3 (AUDIT_NODE_DOMAIN_TAG ++ Utf8.str_bytes "empty")
  | _ => default [] (head (root_loop (length (leaves t)) (leaves t)))
  end.

Definition sibling_index (level : list bytes) (i : Z) : Z :=
  if i mod 2 =? 1 then i - 1 else if i + 1 <? zlen level then i + 1 else i.

Fixpoint path_loop (fuel : nat) (level : list bytes) (i : Z) : outcome AuditError (list AuditProofStep) :=
  match fuel with
  | O => Ok []
  | S fuel =>
      if 1 <? zlen level then
        let? h := index level (sibling_index level i) in
        let step := mkStep h (if i mod 2 =? 1 then Left else Right) in
        let? rest := path_loop fuel (next_level level) (i / 2) in
        Ok (step :: rest)
      else Ok []
  end.

Definition generate_inclusion_proof (t : MerkleAuditTree) (i : Z) : outcome AuditError AuditInclusionProof :=
  if zlen (leaves t) <=? i then Err (OutOfBounds i (zlen (leaves t)))
  else
    let? h := index (leaves t) i in
    let? path := path_loop (length (leaves t)) (leaves t) i in
    Ok (mkInclusion i h path (root t) (zlen (leaves t))).

Definition generate_exclusion_proof (t : MerkleAuditTree) (target : bytes) : outcome AuditError AuditExclusionProof :=
  match leaves t with
  | [] => Err EmptyTree
  | _ =>
      match binary_search (sorted_leaves t) target with
      | inl _ => Err TargetExists
      | inr pos =>
          let? lower :=
            (if (0 <? Z.of_nat pos) then
               let? e := index (sorted_leaves t) (Z.of_nat pos - 1) in
               let? p := generate_inclusion_proof t e.2 in Ok (Some p)
             else Ok None) in
          let? upper :=
            (if (Z.of_nat pos <? zlen (sorted_leaves t)) then
               let? e := index (sorted_leaves t) (Z.of_nat pos) in
               let? p := generate_inclusion_proof t e.2 in Ok (Some p)
             else Ok None) in
          Ok (mkExclusion target lower upper (root t))
      end
  end.
End audit.

(** ** Hex *)

Module Hex.
Definition digit (v : Z) : Z := if v <? 10 then 48 + v else 87 + v.

(** [write!(s, "{:02x}", b)] for each byte. *)
Definition hex_encode (b : bytes) : bytes := mjoin ((fun x => [digit (x / 16); digit (x mod 16)]) <$> b).

Definition digit_value (c : Z) : option Z :=
  if Utf8.in_range 48 57 c then Some (c - 48)
  else if Utf8.in_range 97 102 c then Some (c - 87)
  else if Utf8.in_range 65 70 c then Some (c - 55)
  else None.

(** [u8::from_str_radix(s, 16)] on two bytes; a leading plus sign is accepted. *)
Definition from_str_radix_16 (s : bytes) : option Z :=
  match s with
  | [a; b] =>
      if a =? 43 then digit_value b
      else match digit_value a, digit_value b with Some x, Some y => Some (16 * x + y) | _, _ => None end
  | _ => None
  end.

(** [&s[i..j]] of a string: a panic off a character boundary. *)
Definition str_slice {E} (s : bytes) (i j : Z) : outcome E bytes :=
  if Utf8.is_char_boundary s i && Utf8.is_char_boundary s j then slice s i j else Panic.

Definition hex_decode_32 (hex_str : bytes) : outcome AuditError bytes :=
  let trimmed := Str.trim hex_str in
  let s := if Str.starts_with (Utf8.str_bytes "0x") trimmed then drop 2 trimmed else trimmed in
  if negb (zlen s =? 64) then Err (BadHexLength (zlen s))
  else
    for_range 0 32 (fun i out =>
      let? byte_str := str_slice s (i * 2) (i * 2 + 2) in
      let? b := ok_or (from_str_radix_16 byte_str) (BadHexByte byte_str) in
      write_at out i b) (replicate 32 0).
End Hex.

(** ** Levels *)

Section merkle.
Context (blake3 : bytes -> bytes).
Abbreviation combine := (combine_hashes blake3).
Abbreviation next := (next_level blake3).
Abbreviation top fuel level := (default [] (head (root_loop blake3 fuel level))).

(** Induction two leaves at a time. *)
Lemma pairs_ind (P : list bytes -> Prop) : P [] -> (forall a, P [a]) ->
  (forall a b l, P l -> P (a :: b :: l)) -> forall l, P l.
Proof.
  intros H0 H1 H2 l. enough (P l /\ forall a, P (a :: l)) as [? _] by done.
  induction l as [|a l [IH1 IH2]]; [auto|]. split; [apply IH2|]. intros b. by apply H2.
Qed.

Lemma next_length l : zlen (next l) = (zlen l + 1) / 2.
Proof.
  induction l as [|a|a b l IH] using pairs_ind; [done|done|]. cbn [next_level].
  rewrite !zlen_cons, IH. replace (1 + (1 + zlen l) + 1) with ((zlen l + 1) + 1 * 2) by lia.
  rewrite Z.div_add by lia. lia.
Qed.

Lemma next_shorter l n : (length l <= S n)%nat -> 1 < zlen l -> (length (next l) <= n)%nat /\ next l <> [].
Proof.
  intros Hl H1. pose proof (next_length l) as Hn. unfold zlen in *.
  assert (1 <= (Z.of_nat (length l) + 1) / 2 < Z.of_nat (length l)).
  { split; [apply Z.div_le_lower_bound; lia|apply Z.div_lt_upper_bound; lia]. }
  split; [lia|]. intros He. rewrite He in Hn. cbn in Hn. lia.
Qed.

Lemma next_lookup l j a : l !! (2 * j)%nat = Some a ->
  next l !! j = Some (combine a (default a (l !! (2 * j + 1)%nat))).
Proof.
  revert j a. induction l as [|x|x y l IH] using pairs_ind; intros j a Ha.
  - done.
  - destruct j as [|j]; [cbn in *; congruence|]. replace (2 * S j)%nat with (S (S (2 * j))) in Ha by lia. done.
  - destruct j as [|j]; [cbn in *; congruence|].
    replace (2 * S j)%nat with (S (S (2 * j))) in * by lia. change (l !! (2 * j)%nat = Some a) in Ha.
    change (next l !! j = Some (combine a (default a (l !! (2 * j + 1)%nat)))). by apply IH.
Qed.

Lemma next_inv l x : x ∈ next l -> exists a b, a ∈ l /\ b ∈ l /\ x = combine a b.
Proof.
  induction l as [|y|y z l IH] using pairs_ind; cbn [next_level]; [set_solver|set_solver|].
  intros [->|H]%elem_of_cons; [exists y, z; set_solver|]. destruct (IH H) as (a & b & Ha & Hb & ->).
  exists a, b. set_solver.
Qed.

Lemma height_loop_add fuel count h : height_loop fuel count h = h + height_loop fuel count 0.
Proof.
  revert count h. induction fuel as [|fuel IH]; intros count h; cbn; [lia|].
  destruct (1 <? count); [|lia]. rewrite (IH _ (h + 1)), (IH _ (0 + 1)). lia.
Qed.

(** ** Completeness *)

Lemma climb_next level i h : 0 <= i -> level !! Z.to_nat i = Some h ->
  exists s, @index AuditError _ level (sibling_index level i) = Ok s /\ (s ∈ level) /\
    next level !! Z.to_nat (i / 2) =
      Some (climb blake3 h (mkStep s (if i mod 2 =? 1 then Left else Right))).
Proof.
  intros Hi Hh. pose proof (Z.div_mod i 2 ltac:(lia)) as Hd. pose proof (Z.mod_pos_bound i 2 ltac:(lia)) as Hm.
  pose proof (lookup_lt_Some _ _ _ Hh). unfold sibling_index. assert (0 <= i / 2) by (apply Z.div_pos; lia).
  destruct (Z.eqb_spec (i mod 2) 1) as [Ho|He].
  - destruct (lookup_lt_is_Some_2 level (Z.to_nat (i - 1))) as [s Hs]; [lia|]. exists s.
    split; [apply index_ok; [lia|done]|]. split; [by eapply list_elem_of_lookup_2|].
    rewrite (next_lookup level (Z.to_nat (i / 2)) s) by (rewrite <- Hs; f_equal; lia).
    replace (2 * Z.to_nat (i / 2) + 1)%nat with (Z.to_nat i) by lia. by rewrite Hh.
  - assert (level !! (2 * Z.to_nat (i / 2))%nat = Some h) as Hh' by (rewrite <- Hh; f_equal; lia).
    rewrite (next_lookup _ _ _ Hh'). destruct (Z.ltb_spec (i + 1) (zlen level)) as [Hlt|Hge].
    + destruct (lookup_lt_is_Some_2 level (Z.to_nat (i + 1))) as [s Hs]; [unfold zlen in *; lia|]. exists s.
      split; [apply index_ok; [lia|done]|]. split; [by eapply list_elem_of_lookup_2|].
      replace (2 * Z.to_nat (i / 2) + 1)%nat with (Z.to_nat (i + 1)) by lia. by rewrite Hs.
    + exists h. split; [by apply index_ok|]. split; [by eapply list_elem_of_lookup_2|].
      rewrite (lookup_ge_None_2 level) by (unfold zlen in *; lia). done.
Qed.

Lemma path_loop_ok fuel level i h : (length level <= fuel)%nat -> 0 <= i -> level !! Z.to_nat i = Some h ->
  exists path, path_loop blake3 fuel level i = Ok path /\ foldl (climb blake3) h path = top fuel level /\
    zlen path = height_loop fuel (zlen level) 0.
Proof.
  revert level i h. induction fuel as [|fuel IH]; intros level i h Hf Hi Hh.
  { destruct level; [done|cbn in Hf; lia]. }
  cbn [path_loop root_loop height_loop]. destruct (Z.ltb_spec 1 (zlen level)) as [H1|H1].
  - destruct (climb_next level i h Hi Hh) as (s & -> & _ & Hnext). cbn [obind].
    destruct (next_shorter level fuel Hf H1) as [Hs _].
    destruct (IH (next level) (i / 2) _ Hs (Z.div_pos i 2 Hi ltac:(lia)) Hnext) as (path & -> & Hc & Hl). cbn [obind].
    eexists. split; [done|]. split; [done|]. rewrite zlen_cons, Hl, next_length.
    rewrite (height_loop_add fuel _ (0 + 1)). lia.
  - exists []. split; [done|]. split; [|done]. assert (i = 0) as ->.
    { pose proof (lookup_lt_Some _ _ _ Hh). unfold zlen in H1. lia. }
    destruct level; [done|]. cbn in Hh |- *. by injection Hh as ->.
Qed.

Lemma height_eq t : leaves t <> [] -> height t - 1 = height_loop (length (leaves t)) (zlen (leaves t)) 0.
Proof. intros H. unfold height. destruct (leaves t); [done|]. rewrite height_loop_add. lia. Qed.

Lemma root_eq t : leaves t <> [] -> root blake3 t = top (length (leaves t)) (leaves t).
Proof. intros H. unfold root. by destruct (leaves t). Qed.

Lemma audit_path t i : 0 <= i ->
  match generate_inclusion_proof blake3 t i with
  | Ok p => verify_inclusion_proof blake3 p = true /\ leaves t !! Z.to_nat i = Some (leaf_hash p) /\
      expected_root p = root blake3 t /\ zlen (path p) = height t - 1 /\ leaf_index p = i /\
      tree_size p = zlen (leaves t)
  | Err e => e = OutOfBounds i (zlen (leaves t)) /\ zlen (leaves t) <= i
  | Panic => False
  end.
Proof.
  intros Hi. unfold generate_inclusion_proof. destruct (Z.leb_spec (zlen (leaves t)) i) as [Hge|Hlt]; [done|].
  destruct (lookup_lt_is_Some_2 (leaves t) (Z.to_nat i)) as [h Hh]; [unfold zlen in *; lia|].
  rewrite (index_ok _ _ h) by done. cbn [obind].
  destruct (path_loop_ok (length (leaves t)) (leaves t) i h) as (p & -> & Hc & Hp); [lia|done..|]. cbn.
  assert (leaves t <> []) as Hne by (intros He; rewrite He in Hh; done).
  unfold verify_inclusion_proof. cbn. rewrite bool_decide_eq_true, height_eq, root_eq by done. done.
Qed.

(** Inclusion proofs are complete: for any tree and position, [generate_inclusion_proof] does not
    panic; past the end it is refused as out of bounds, otherwise the proof is of the leaf at that
    position, against the tree's root, of one step per level below the root, and verifies. *)
Theorem audit_inclusion_complete t i : 0 <= i ->
  match generate_inclusion_proof blake3 t i with
  | Ok p => verify_inclusion_proof blake3 p = true /\ leaves t !! Z.to_nat i = Some (leaf_hash p) /\
      expected_root p = root blake3 t /\ zlen (path p) = height t - 1 /\ leaf_index p = i /\
      tree_size p = zlen (leaves t)
  | Err e => e = OutOfBounds i (zlen (leaves t)) /\ zlen (leaves t) <= i
  | Panic => False
  end.
Proof. apply audit_path. Qed.

(** ** Soundness *)

Context (Hlen : forall x, length (blake3 x) = 32%nat).

Lemma combine_inj a b a' b' : length a = 32%nat -> length a' = 32%nat ->
  combine a b = combine a' b' -> (a = a' /\ b = b') \/ collision blake3.
Proof.
  intros Ha Ha' H. unfold combine_hashes in H.
  destruct (decide (AUDIT_NODE_DOMAIN_TAG ++ a ++ b = AUDIT_NODE_DOMAIN_TAG ++ a' ++ b')) as [He|Hne].
  - left. apply app_inv_head in He. by apply app_inj_1 in He; [|congruence].
  - right. by do 2 eexists.
Qed.

Lemma sound_loop fuel level leaf path : (length level <= fuel)%nat -> level <> [] ->
  Forall (fun x => length x = 32%nat) level -> length leaf = 32%nat ->
  Forall (fun s => length (sibling s) = 32%nat) path ->
  foldl (climb blake3) leaf path = top fuel level -> zlen path = height_loop fuel (zlen level) 0 ->
  leaf ∈ level \/ collision blake3.
Proof.
  revert level leaf path. induction fuel as [|fuel IH]; intros level leaf path Hf Hne Hl Hleaf Hp Hc Hz.
  { destruct level; [done|cbn in Hf; lia]. }
  cbn [root_loop height_loop] in *. destruct (Z.ltb_spec 1 (zlen level)) as [H1|H1].
  - destruct path as [|s path].
    { rewrite (height_loop_add fuel _ (0 + 1)) in Hz. unfold zlen at 1 in Hz. cbn in Hz.
      assert (forall f c h, 0 <= h -> 0 <= height_loop f c h) as Hpos.
      { clear. induction f as [|f IH]; intros c h Hh; cbn; [done|]. destruct (1 <? c); [apply IH; lia|done]. }
      pose proof (Hpos fuel ((zlen level + 1) / 2) 0). lia. }
    rewrite zlen_cons, (height_loop_add fuel _ (0 + 1)) in Hz. apply Forall_cons in Hp as [Hs Hp].
    destruct (next_shorter level fuel Hf H1) as [Hsh Hnn].
    assert (length (climb blake3 leaf s) = 32%nat) as Hlc by (unfold climb, combine_hashes; by destruct (direction s)).
    assert (Forall (fun x => length x = 32%nat) (next level)) as Hnl.
    { apply Forall_forall. intros x (a & b & _ & _ & ->)%next_inv. apply Hlen. }
    assert (zlen path = height_loop fuel (zlen (next level)) 0) as Hzn by (rewrite next_length; lia).
    destruct (IH (next level) (climb blake3 leaf s) path Hsh Hnn Hnl Hlc Hp Hc Hzn) as [Hin|?]; [|by right].
    apply next_inv in Hin as (a & b & Ha & Hb & Heq). rewrite Forall_forall in Hl. unfold climb in Heq.
    destruct (direction s); (apply combine_inj in Heq as [[? ?]|?]; [left; congruence|by right|by auto..]).
  - destruct path as [|s path]; [|unfold zlen in Hz; cbn in Hz; lia]. left.
    destruct level as [|x [|y level]]; [done| |unfold zlen in H1; cbn in H1; lia]. cbn in Hc. set_solver.
Qed.

(** C34. Inclusion proofs are sound: a proof that verifies against the root of a tree and has one step
    per level below the root is of a leaf of the tree, or exhibits a collision of BLAKE3. *)
Theorem audit_inclusion_sound t p : leaves t <> [] -> Forall (fun x => length x = 32%nat) (leaves t) ->
  length (leaf_hash p) = 32%nat -> Forall (fun s => length (sibling s) = 32%nat) (path p) ->
  expected_root p = root blake3 t -> zlen (path p) = height t - 1 ->
  verify_inclusion_proof blake3 p = true -> leaf_hash p ∈ leaves t \/ collision blake3.
Proof.
  intros Hne Hl Hleaf Hp Hr Hz Hv%bool_decide_eq_true.
  apply (sound_loop (length (leaves t)) _ _ (path p)); try done.
  - by rewrite Hv, Hr, root_eq.
  - by rewrite Hz, height_eq.
Qed.
End merkle.

(** ** The sorted index *)

(** Keys do not decrease. *)
Definition sorted_keys (l : list (bytes * Z)) : Prop :=
  forall i j, (i <= j < length l)%nat -> bytes_le (key l i) (key l j).

Lemma search_loop_spec fuel l h base size : sorted_keys l -> (size <= fuel)%nat -> (1 <= size)%nat ->
  (base + size <= length l)%nat -> (base = 0%nat \/ bytes_le (key l base) h) ->
  (forall j, (base + size <= j < length l)%nat -> bytes_lt h (key l j) = true) ->
  let b := search_loop fuel l h base size in
  (b < length l)%nat /\ (b = 0%nat \/ bytes_le (key l b) h) /\
  (forall j, (b < j < length l)%nat -> bytes_lt h (key l j) = true).
Proof.
  intros Hs. revert base size. induction fuel as [|fuel IH]; intros base size Hf H1 Hl Hb Hj; [lia|].
  cbn [search_loop]. destruct (Nat.ltb_spec 1 size) as [Hlt|Hge].
  - assert (1 <= size / 2 < size)%nat as Hhalf.
    { split; [by apply (Nat.div_le_lower_bound size 2 1); lia|apply Nat.div_lt; lia]. }
    assert (2 * (size / 2) <= size)%nat as Hh2 by (apply Nat.Div0.mul_div_le).
    destruct (bytes_lt h (key l (base + size / 2))) eqn:E; apply IH; try lia; auto.
    + intros j Hj'. apply (bytes_lt_le_trans _ _ _ E). apply Hs. lia.
    + intros j Hj'. apply Hj. lia.
  - split; [lia|]. split; [done|]. intros j Hj'. apply Hj. lia.
Qed.

(** The result of a search in a sorted index: a match, or the place between the smaller and the larger keys. *)
Lemma binary_search_spec l h : sorted_keys l ->
  match binary_search l h with
  | inl i => (i < length l)%nat /\ key l i = h
  | inr i => (i <= length l)%nat /\ (forall j, (j < i)%nat -> bytes_lt (key l j) h = true) /\
      (forall j, (i <= j < length l)%nat -> bytes_lt h (key l j) = true)
  end.
Proof.
  intros Hs. unfold binary_search. destruct l as [|e l'] eqn:El; [cbn; split; [done|]; split; intros; lia|].
  rewrite <- El in *. assert (1 <= length l)%nat as Hlen by (rewrite El; cbn; lia).
  destruct (search_loop_spec (length l) l h 0 (length l)) as (Hb & Hle & Hj); [done|lia..|by left|intros; lia|].
  set (b := search_loop _ _ _ _ _) in *. case_bool_decide as Heq; [done|].
  destruct (bytes_lt (key l b) h) eqn:E.
  - split; [lia|]. split; intros j Hjb; [|apply Hj; lia]. apply (bytes_le_lt_trans _ (key l b)); [|done]. apply Hs. lia.
  - assert (bytes_lt h (key l b) = true) as Hgt.
    { destruct (bytes_lt h (key l b)) eqn:E'; [done|]. destruct Heq. by apply bytes_lt_total. }
    destruct Hle as [Hb0|Hle]; [|unfold bytes_le in Hle; congruence].
    split; [lia|]. split; intros j Hjb; [lia|]. apply (bytes_lt_le_trans _ _ _ Hgt). apply Hs. lia.
Qed.

Lemma key_lookup l i e : l !! i = Some e -> key l i = e.1.
Proof. intros H. unfold key. by rewrite H. Qed.

Lemma sorted_insert l h index pos : sorted_keys l -> (pos <= length l)%nat ->
  (forall j, (j < pos)%nat -> bytes_le (key l j) h) ->
  (forall j, (pos <= j < length l)%nat -> bytes_le h (key l j)) ->
  sorted_keys (take pos l ++ (h, index) :: drop pos l).
Proof.
  intros Hs Hp Hlo Hhi. set (l' := _ ++ _).
  assert (forall j, (j < pos)%nat -> key l' j = key l j) as K1.
  { intros j Hj. unfold key, l'. by rewrite lookup_app_l, lookup_take_lt by (rewrite ?length_take; lia). }
  assert (key l' pos = h) as K2.
  { unfold key, l'. rewrite lookup_app_r, length_take by (rewrite length_take; lia).
    by replace (pos - pos `min` length l)%nat with 0%nat by lia. }
  assert (forall j, (pos <= j)%nat -> key l' (S j) = key l j) as K3.
  { intros j Hj. unfold key, l'. rewrite lookup_app_r, length_take by (rewrite length_take; lia).
    replace (S j - pos `min` length l)%nat with (S (j - pos)) by lia.
    change (default [] (fst <$> drop pos l !! (j - pos)%nat) = default [] (fst <$> l !! j)). rewrite lookup_drop. by replace (pos + (j - pos))%nat with j by lia. }
  assert (length l' = S (length l)) as Hl' by (unfold l'; rewrite length_app, length_take; cbn; rewrite length_drop; lia).
  intros i j Hij. rewrite Hl' in Hij. destruct (decide (j < pos)%nat); [rewrite !K1 by lia; apply Hs; lia|].
  destruct (decide (j = pos)) as [->|].
  - rewrite K2. destruct (decide (i = pos)) as [->|]; [by rewrite K2|]. rewrite K1 by lia. apply Hlo. lia.
  - destruct j as [|j]; [lia|]. rewrite (K3 j) by lia. destruct (decide (i < pos)%nat).
    + rewrite K1 by lia. apply Hs. lia.
    + destruct (decide (i = pos)) as [->|]; [rewrite K2; apply Hhi; lia|].
      destruct i as [|i]; [lia|]. rewrite (K3 i) by lia. apply Hs. lia.
Qed.

(** The trees built by insertions from an empty one. *)
Definition insert_all (epoch : Z) (hs : list bytes) : MerkleAuditTree :=
  foldl (fun t h => (insert_leaf t h).1) (tree_new epoch) hs.

(** The index of a tree: sorted, and made of the leaves with their positions. *)
Definition indexed (t : MerkleAuditTree) : Prop :=
  sorted_keys (sorted_leaves t) /\
  sorted_leaves t ≡ₚ zip (leaves t) (Z.of_nat <$> seq 0 (length (leaves t))).

Lemma insert_leaf_indexed t h : indexed t -> indexed (insert_leaf t h).1.
Proof.
  intros [Hs Hp]. unfold insert_leaf. cbn. pose proof (binary_search_spec _ h Hs) as Hb.
  set (pos := match binary_search _ _ with inl i => i | inr i => i end).
  assert ((pos <= length (sorted_leaves t))%nat /\
    (forall j, (j < pos)%nat -> bytes_le (key (sorted_leaves t) j) h) /\
    (forall j, (pos <= j < length (sorted_leaves t))%nat -> bytes_le h (key (sorted_leaves t) j))) as (H1 & H2 & H3).
  { unfold pos. destruct (binary_search _ _) as [i|i].
    - destruct Hb as [Hi <-]. split; [lia|]. split; intros j Hj; apply Hs; lia.
    - destruct Hb as (Hi & Hlo & Hhi). split; [done|]. split; intros j Hj; apply bytes_lt_le; auto. }
  split; [by apply sorted_insert|]. cbn. rewrite length_app, Nat.add_1_r, seq_S, fmap_app, zip_with_app
    by (by rewrite length_fmap, length_seq). cbn. unfold zlen.
  rewrite <- Hp, <- Permutation_middle, take_drop. apply Permutation_cons_append.
Qed.

Lemma insert_all_indexed e hs : indexed (insert_all e hs).
Proof.
  unfold insert_all. assert (indexed (tree_new e)) as H by (split; [intros i j; cbn; lia|done]).
  revert H. generalize (tree_new e). induction hs as [|h hs IH]; intros t Ht; cbn [foldl]; [done|].
  apply IH. by apply insert_leaf_indexed.
Qed.

Lemma insert_all_leaves e hs : leaves (insert_all e hs) = hs.
Proof.
  unfold insert_all. enough (forall t, leaves (foldl (fun t h => (insert_leaf t h).1) t hs) = leaves t ++ hs) as H by apply H.
  induction hs as [|h hs IH]; intros t; cbn [foldl]; [by rewrite app_nil_r|]. rewrite IH. cbn. by rewrite <- app_assoc.
Qed.

Lemma indexed_entry t i e : indexed t -> sorted_leaves t !! i = Some e ->
  0 <= e.2 /\ leaves t !! Z.to_nat e.2 = Some e.1.
Proof.
  intros [_ Hp] He%list_elem_of_lookup_2. rewrite Hp in He. apply list_elem_of_lookup in He as [j Hj].
  apply lookup_zip_with_Some in Hj as (h & n & -> & Hh & Hn). apply list_lookup_fmap_Some in Hn as (k & -> & Hk).
  apply lookup_seq in Hk as [-> _]. cbn. rewrite Nat2Z.id. split; [lia|done].
Qed.

Lemma indexed_key t h : indexed t -> h ∈ leaves t <-> exists i, (i < length (sorted_leaves t))%nat /\ key (sorted_leaves t) i = h.
Proof.
  intros Hi. split.
  - intros [j Hj]%list_elem_of_lookup. destruct Hi as [_ Hp]. assert ((h, Z.of_nat j) ∈ sorted_leaves t) as He.
    { rewrite Hp. apply list_elem_of_lookup. exists j. apply lookup_zip_with_Some. exists h, (Z.of_nat j). split; [done|].
      split; [done|]. rewrite list_lookup_fmap, lookup_seq_lt by (by eapply lookup_lt_Some). done. }
    apply list_elem_of_lookup in He as [i Hi]. exists i. split; [by eapply lookup_lt_Some|by rewrite (key_lookup _ _ _ Hi)].
  - intros (i & Hlt & <-). destruct (lookup_lt_is_Some_2 _ _ Hlt) as [e He]. rewrite (key_lookup _ _ _ He).
    eapply list_elem_of_lookup_2. by eapply indexed_entry.
Qed.

Section exclusion.
Context (blake3 : bytes -> bytes).

(** A bound of an exclusion proof of [t]: its leaf is in the tree, and its own proof verifies. *)
Definition bound_of (t : MerkleAuditTree) (p : AuditInclusionProof) : Prop :=
  leaf_hash p ∈ leaves t /\ verify_inclusion_proof blake3 p = true /\ expected_root p = root blake3 t.

Lemma bound_returns t i : indexed t -> (i < length (sorted_leaves t))%nat ->
  returns (let? e := index (sorted_leaves t) (Z.of_nat i) in generate_inclusion_proof blake3 t e.2)
    (fun p => bound_of t p /\ leaf_hash p = key (sorted_leaves t) i).
Proof.
  intros Hi Hlt. destruct (lookup_lt_is_Some_2 _ _ Hlt) as [e He]. destruct (indexed_entry _ _ _ Hi He) as [H0 Hl].
  rewrite (index_ok _ _ e) by (first [lia|by rewrite Nat2Z.id]). cbn [obind]. pose proof (audit_path blake3 t e.2 H0) as H.
  rewrite (key_lookup _ _ _ He). pose proof (lookup_lt_Some _ _ _ Hl).
  destruct (generate_inclusion_proof blake3 t e.2) as [p|err|]; [|destruct H; unfold zlen in *; lia|done]. cbn.
  destruct H as (Hv & Hl' & Hr & _). split; [|congruence]. split; [by eapply list_elem_of_lookup_2|done].
Qed.

Lemma bound_option t (c : bool) i : indexed t -> (c = true -> 0 <= i /\ (Z.to_nat i < length (sorted_leaves t))%nat) ->
  returns (if c then let? e := index (sorted_leaves t) i in
             let? p := generate_inclusion_proof blake3 t e.2 in Ok (Some p) else Ok None)
    (fun o => if c then exists p, o = Some p /\ bound_of t p /\ leaf_hash p = key (sorted_leaves t) (Z.to_nat i)
              else o = None).
Proof.
  intros Hi Hc. destruct c; [|done]. destruct (Hc eq_refl) as [H0 Hlt].
  pose proof (bound_returns t _ Hi Hlt) as H. rewrite Z2Nat.id in H by done.
  destruct (index (sorted_leaves t) i) as [e| |]; try done. cbn [obind] in *.
  destruct (generate_inclusion_proof blake3 t e.2) as [p| |]; try done. cbn in *. eauto.
Qed.

(** [generate_exclusion_proof] on a tree built by insertions does not panic, decides membership
    (an absent target gets a proof, a present one [TargetExists]), and its bounds are leaves of the
    tree with verifying proofs that enclose the target with no other leaf between. *)
Theorem audit_exclusion_neighbours e hs target : let t := insert_all e hs in
  match generate_exclusion_proof blake3 t target with
  | Ok p => target ∉ hs /\ target_hash p = target /\ x_expected_root p = root blake3 t /\
      (forall q, lower_bound p = Some q -> bound_of t q /\ bytes_lt (leaf_hash q) target = true) /\
      (forall q, upper_bound p = Some q -> bound_of t q /\ bytes_lt target (leaf_hash q) = true) /\
      (forall h, h ∈ hs ->
        (exists q, lower_bound p = Some q /\ bytes_le h (leaf_hash q)) \/
        (exists q, upper_bound p = Some q /\ bytes_le (leaf_hash q) h))
  | Err err => (err = EmptyTree /\ hs = []) \/ (err = TargetExists /\ target ∈ hs)
  | Panic => False
  end.
Proof.
  intros t. pose proof (insert_all_indexed e hs) as Hi. pose proof (insert_all_leaves e hs) as Hl. fold t in Hi, Hl.
  unfold generate_exclusion_proof. destruct (leaves t) as [|x l] eqn:El; [by left|]. rewrite <- El in *.
  pose proof (binary_search_spec _ target (proj1 Hi)) as Hb. pose proof (indexed_key t target Hi) as Hk.
  destruct (binary_search (sorted_leaves t) target) as [i|pos].
  { right. split; [done|]. rewrite <- Hl. apply Hk. eauto. }
  destruct Hb as (Hp & Hlo & Hhi).
  destruct (returns_inv _ _ (bound_option t (0 <? Z.of_nat pos) (Z.of_nat pos - 1) Hi ltac:(intros ?%Z.ltb_lt; lia))) as (lo & -> & HL).
  destruct (returns_inv _ _ (bound_option t (Z.of_nat pos <? zlen (sorted_leaves t)) (Z.of_nat pos) Hi
    ltac:(intros ?%Z.ltb_lt; unfold zlen in *; lia))) as (up & -> & HU). cbn [obind].
  replace (Z.to_nat (Z.of_nat pos - 1)) with (pos - 1)%nat in HL by lia. rewrite Nat2Z.id in HU.
  split_and!; cbn [target_hash lower_bound upper_bound x_expected_root]; [|done|done|..].
  - rewrite <- Hl, Hk. intros (i & Hlt & Hi'). pose proof (bytes_lt_irrefl target).
    destruct (decide (i < pos)%nat); [specialize (Hlo i ltac:(lia))|specialize (Hhi i ltac:(lia))]; congruence.
  - intros q ->. destruct (Z.ltb_spec 0 (Z.of_nat pos)); [|done].
    destruct HL as (q' & [= <-] & Hbo & ->). split; [done|]. apply Hlo. lia.
  - intros q ->. destruct (Z.ltb_spec (Z.of_nat pos) (zlen (sorted_leaves t))); [|done].
    destruct HU as (q' & [= <-] & Hbo & ->). split; [done|]. apply Hhi. unfold zlen in *. lia.
  - intros h Hh. rewrite <- Hl, (indexed_key t h Hi) in Hh. destruct Hh as (i & Hlt & <-).
    destruct (decide (i < pos)%nat).
    + left. rewrite (proj2 (Z.ltb_lt _ _)) in HL by lia. destruct HL as (q & -> & _ & Hq). exists q. split; [done|].
      rewrite Hq. apply (proj1 Hi). lia.
    + right. rewrite (proj2 (Z.ltb_lt _ _)) in HU by (unfold zlen; lia). destruct HU as (q & -> & _ & Hq). exists q. split; [done|].
      rewrite Hq. apply (proj1 Hi). lia.
Qed.
End exclusion.

(** C40. The accumulator is well formed after any insertions: the leaves are the inserted hashes in
    order, and the index has them with their positions, sorted by hash, also with duplicates. *)
Theorem audit_index_wf e hs :
  leaves (insert_all e hs) = hs /\ sorted_keys (sorted_leaves (insert_all e hs)) /\
  sorted_leaves (insert_all e hs) ≡ₚ zip hs (Z.of_nat <$> seq 0 (length hs)).
Proof.
  pose proof (insert_all_indexed e hs) as [Hs Hp]. rewrite insert_all_leaves in Hp. split; [apply insert_all_leaves|done].
Qed.

(** ** Examples *)

Module AuditExamples.
(** A toy hash of 32 bytes. *)
Definition toy (b : bytes) : bytes := foldl (fun a x => (a * 31 + x) mod 251) 7 b :: replicate 31 0.
Definition leaf (n : Z) : bytes := n :: replicate 31 0.
Definition tree3 : MerkleAuditTree := insert_all 1 [leaf 10; leaf 30; leaf 20].
Definition proof_of (t : MerkleAuditTree) (i : Z) : AuditInclusionProof :=
  match generate_inclusion_proof toy t i with Ok p => p | _ => mkInclusion 0 [] [] [] 0 end.

Lemma audit_inclusion_complete_witness :
  match generate_inclusion_proof toy tree3 2 with
  | Ok p => verify_inclusion_proof toy p = true /\ leaves tree3 !! 2%nat = Some (leaf_hash p) /\
      expected_root p = root toy tree3 /\ zlen (path p) = height tree3 - 1 /\ leaf_index p = 2 /\
      tree_size p = zlen (leaves tree3)
  | Err e => e = OutOfBounds 2 (zlen (leaves tree3)) /\ zlen (leaves tree3) <= 2
  | Panic => False
  end.
Proof. apply (audit_inclusion_complete toy tree3 2). lia. Defined.

Lemma audit_inclusion_sound_witness : leaf 20 ∈ leaves tree3 \/ collision toy.
Proof.
  apply (audit_inclusion_sound toy (fun x => eq_refl) tree3 (proof_of tree3 2)).
  - discriminate.
  - repeat constructor.
  - reflexivity.
  - vm_compute. repeat constructor.
  - vm_compute. reflexivity.
  - vm_compute. reflexivity.
  - vm_compute. reflexivity.
Defined.

(** A tree of three leaves and the tree with its last leaf repeated have the same root. *)
Example duplicate_leaf_root (h : bytes -> bytes) a b c :
  root h (insert_all 1 [a; b; c]) = root h (insert_all 1 [a; b; c; c]).
Proof. reflexivity. Qed.

(** Without the length of the path, an inner node passes for a leaf. *)
Example internal_node_verifies (h : bytes -> bytes) a b c d :
  verify_inclusion_proof h (mkInclusion 0 (combine_hashes h a b)
    [mkStep (combine_hashes h c d) Right] (root h (insert_all 1 [a; b; c; d])) 4) = true.
Proof. unfold verify_inclusion_proof. apply bool_decide_eq_true. reflexivity. Qed.

(** One bound is enough for the verifier, so a leaf of the tree is "proved" absent. *)
Example exclusion_unsound : leaf 20 ∈ leaves tree3 /\
  verify_exclusion_proof toy (mkExclusion (leaf 20) (Some (proof_of tree3 0)) None (root toy tree3)) = true.
Proof. split; [vm_compute; set_solver|vm_compute; reflexivity]. Qed.

(** The neighbours in hash order are not neighbours in insertion order, so an honest proof is refused. *)
Example exclusion_incomplete : exists p,
  generate_exclusion_proof toy tree3 (leaf 15) = Ok p /\ verify_exclusion_proof toy p = false.
Proof. eexists. split; [reflexivity|vm_compute; reflexivity]. Qed.

(** Two records with one commitment: the identifiers are hashed without a delimiter. *)
Example commit_ambiguous (h : bytes -> bytes) m n s salt :
  b_leaf_hash (commit h (mkRecord (Utf8.str_bytes "ab") (Utf8.str_bytes "c") m n s) salt) =
  b_leaf_hash (commit h (mkRecord (Utf8.str_bytes "a") (Utf8.str_bytes "bc") m n s) salt).
Proof. reflexivity. Qed.

Example hex_of_bytes : Hex.hex_decode_32 (Hex.hex_encode (Z.of_nat <$> seq 100 32)) = Ok (Z.of_nat <$> seq 100 32).
Proof. vm_compute. reflexivity. Qed.
Example hex_plus_sign :
  Hex.hex_decode_32 (Utf8.str_bytes "+f" ++ replicate 62 48) = Ok (15 :: replicate 31 0).
Proof. vm_compute. reflexivity. Qed.
(** 64 bytes of text with a two-byte character across a pair. *)
Example hex_boundary_panics :
  Hex.hex_decode_32 (48 :: [195; 169] ++ replicate 61 48) = Panic.
Proof. vm_compute. reflexivity. Qed.
End AuditExamples.
