(* ===== verification/Geo.v ===== *)
(** * Geo-replication, sync/geo.rs

    Vector clocks, the outbound queue and [GeoReplicationCoordinator]. Region and path names are
    byte strings; the wall clock is an argument; payload-independent texts (details of a
    resolution, reports) are left out. *)

From S2P Require Import Prelude Utf8 Protocol.

(** ** Vector clocks *)

Inductive ClockOrdering := CEqual | CGreater | CLess | CConcurrent.

Module VectorClock.
(** [VectorClock.clocks]: region to counter. *)
Abbreviation t := (gmap bytes Z).

Definition get (c : t) (region : bytes) : Z := default 0 (c !! region).

Definition increment (c : t) (region : bytes) : t := <[region := wrap 64 (get c region + 1)]> c.

Definition initial (region : bytes) : t := increment ∅ region.

(** The loop over [other]; the keys are distinct, so its order does not matter. *)
Definition merge (c other : t) : t :=
  foldl (fun c (e : bytes * Z) => <[e.1 := Z.max (get c e.1) e.2]> c) c (map_to_list other).

Definition all_regions (c other : t) : list bytes := elements (dom c ∪ dom other : gset bytes).

Definition compare (c other : t) : ClockOrdering :=
  let has_greater := existsb (fun r => get other r <? get c r) (all_regions c other) in
  let has_less := existsb (fun r => get c r <? get other r) (all_regions c other) in
  match has_greater, has_less with
  | false, false => CEqual
  | true, false => CGreater
  | false, true => CLess
  | true, true => CConcurrent
  end.
End VectorClock.

(** ** Items, changes and policies *)

Inductive ConflictPolicy :=
  | LastWriteWins
  | PrimaryAuthority (primary_region : bytes)
  | KeepBoth
  | RejectConcurrent.

Inductive GeoRegionState := RActive | RDegraded | RPaused | ROffline.

Record GeoRegionDescriptor := mkRegion {
  region_id : bytes; endpoint : bytes; priority : Z; r_state : GeoRegionState;
  replication_lag_ms : Z; pending_changes : Z }.

Definition region_new (region_id endpoint : bytes) : GeoRegionDescriptor :=
  mkRegion region_id endpoint 50 RActive 0 0.

Record GeoItemMetadata := mkItem {
  rel_path : bytes; size : Z; hash : Hash; vector_clock : VectorClock.t; physical_time_ms : Z;
  origin_region : bytes; is_tombstone : bool }.

Definition set_clock (i : GeoItemMetadata) (c : VectorClock.t) : GeoItemMetadata :=
  mkItem (rel_path i) (size i) (hash i) c (physical_time_ms i) (origin_region i) (is_tombstone i).
Definition set_path (i : GeoItemMetadata) (p : bytes) : GeoItemMetadata :=
  mkItem p (size i) (hash i) (vector_clock i) (physical_time_ms i) (origin_region i) (is_tombstone i).

Definition item_file (rel_path : bytes) (size : Z) (hash : Hash) (c : VectorClock.t) (origin : bytes)
  (now_ms : Z) : GeoItemMetadata := mkItem rel_path size hash c now_ms origin false.
(** [empty_hash] is [Hash::of(b"")]. *)
Definition item_tombstone (empty_hash : Hash) (rel_path : bytes) (c : VectorClock.t) (origin : bytes)
  (now_ms : Z) : GeoItemMetadata := mkItem rel_path 0 empty_hash c now_ms origin true.

Record ReplicationChange := mkChange {
  sequence_id : Z; metadata : GeoItemMetadata; payload : option bytes }.

Inductive ConflictAction := ApplyRemote | KeepLocal | CreateBranch (branch_path : bytes) | Rejected.
Record ConflictResolutionResult := mkResolution { action : ConflictAction; was_conflict : bool }.

(** ** The outbound queue *)

Module GeoReplicationQueue.
Record t := mk {
  outbound : gmap bytes (list ReplicationChange); next_seq : Z; max_queue_depth : Z }.

Definition new (max_depth : Z) : t := mk ∅ 1 (Z.max max_depth 100).

(** [entry(region).or_default()], and a push unless the queue is full. *)
Definition push_region (max_depth : Z) (change : ReplicationChange) (out : gmap bytes (list ReplicationChange))
  (region : bytes) : gmap bytes (list ReplicationChange) :=
  let list := default [] (out !! region) in
  <[region := if zlen list <? max_depth then list ++ [change] else list]> out.

Definition enqueue (q : t) (targets : list bytes) (m : GeoItemMetadata) (p : option bytes) : t * Z :=
  let seq := next_seq q in
  let change := mkChange seq m p in
  (mk (foldl (push_region (max_queue_depth q) change) (outbound q) targets) (wrap 64 (seq + 1))
     (max_queue_depth q), seq).

Definition drain_batch (q : t) (region : bytes) (batch_size : Z) : t * list ReplicationChange :=
  match outbound q !! region with
  | Some list =>
      let count := Z.min (zlen list) batch_size in
      (mk (<[region := drop (Z.to_nat count) list]> (outbound q)) (next_seq q) (max_queue_depth q),
       take (Z.to_nat count) list)
  | None => (q, [])
  end.

Definition pending_count (q : t) (region : bytes) : Z := zlen (default [] (outbound q !! region)).
Definition total_pending (q : t) : Z :=
  foldr (fun (e : bytes * list ReplicationChange) acc => zlen e.2 + acc) 0 (map_to_list (outbound q)).
End GeoReplicationQueue.

(** ** The coordinator *)

Module Geo.
Record t := mk {
  local_region : bytes;
  policy : ConflictPolicy;
  regions : gmap bytes GeoRegionDescriptor;
  ledger : gmap bytes GeoItemMetadata;
  tombstones : gmap bytes GeoItemMetadata;
  queue : GeoReplicationQueue.t;
  conflict_count : Z }.

Definition new (local_region : bytes) (policy : ConflictPolicy) : t :=
  mk local_region policy ∅ ∅ ∅ (GeoReplicationQueue.new 10000) 0.

Definition set_items (s : t) (l tb : gmap bytes GeoItemMetadata) : t :=
  mk (local_region s) (policy s) (regions s) l tb (queue s) (conflict_count s).
Definition set_regions (s : t) (r : gmap bytes GeoRegionDescriptor) : t :=
  mk (local_region s) (policy s) r (ledger s) (tombstones s) (queue s) (conflict_count s).
Definition set_queue (s : t) (q : GeoReplicationQueue.t) : t :=
  mk (local_region s) (policy s) (regions s) (ledger s) (tombstones s) q (conflict_count s).
Definition count_conflict (s : t) : t :=
  mk (local_region s) (policy s) (regions s) (ledger s) (tombstones s) (queue s) (wrap 64 (conflict_count s + 1)).

Definition register_region (s : t) (d : GeoRegionDescriptor) : t := set_regions s (<[region_id d := d]> (regions s)).

(** [regions.keys()]: the code takes every region, whatever its state. *)
Definition target_regions (s : t) : list bytes := (map_to_list (regions s)).*1.

Definition enqueue (s : t) (m : GeoItemMetadata) (p : option bytes) : t * ReplicationChange :=
  let '(q, seq) := GeoReplicationQueue.enqueue (queue s) (target_regions s) m p in
  (set_queue s q, mkChange seq m p).

Definition record_local_mutation (s : t) (rel_path : bytes) (size : Z) (hash : Hash) (p : option bytes)
  (now_ms : Z) : t * ReplicationChange :=
  let tb := delete rel_path (tombstones s) in
  let vc := match ledger s !! rel_path with Some e => vector_clock e | None => ∅ end in
  let vc := VectorClock.increment vc (local_region s) in
  let m := item_file rel_path size hash vc (local_region s) now_ms in
  enqueue (set_items s (<[rel_path := m]> (ledger s)) tb) m p.

Definition record_local_deletion (empty_hash : Hash) (s : t) (rel_path : bytes) (now_ms : Z)
  : t * option ReplicationChange :=
  let vc :=
    match ledger s !! rel_path with
    | Some e => vector_clock e
    | None => match tombstones s !! rel_path with Some e => vector_clock e | None => ∅ end
    end in
  let vc := VectorClock.increment vc (local_region s) in
  let m := item_tombstone empty_hash rel_path vc (local_region s) now_ms in
  let '(s, c) := enqueue (set_items s (delete rel_path (ledger s)) (<[rel_path := m]> (tombstones s))) m None in
  (s, Some c).

Definition branch_path (local remote : GeoItemMetadata) : bytes :=
  rel_path local ++ Utf8.str_bytes ".conflict-" ++ origin_region remote ++ Utf8.str_bytes "-" ++
  Utf8.decimal (physical_time_ms remote).

Definition resolve_concurrent_conflict (s : t) (local remote : GeoItemMetadata) : ConflictResolutionResult :=
  match policy s with
  | LastWriteWins =>
      if physical_time_ms local <? physical_time_ms remote then mkResolution ApplyRemote true
      else if physical_time_ms remote <? physical_time_ms local then mkResolution KeepLocal true
      else if bytes_lt (origin_region local) (origin_region remote) then mkResolution ApplyRemote true
      else mkResolution KeepLocal true
  | PrimaryAuthority primary_region =>
      if bool_decide (origin_region remote = primary_region) then mkResolution ApplyRemote true
      else mkResolution KeepLocal true
  | KeepBoth => mkResolution (CreateBranch (branch_path local remote)) true
  | RejectConcurrent => mkResolution Rejected true
  end.

(** The local state of a path, in either ledger. *)
Definition local_meta (s : t) (p : bytes) : option GeoItemMetadata :=
  match ledger s !! p with Some e => Some e | None => tombstones s !! p end.

(** The first part of [apply_remote_change]: the resolution, and the conflict counter. *)
Definition resolve (s : t) (change : ReplicationChange) : t * ConflictResolutionResult :=
  match local_meta s (rel_path (metadata change)) with
  | None => (s, mkResolution ApplyRemote false)
  | Some local =>
      match VectorClock.compare (vector_clock local) (vector_clock (metadata change)) with
      | CLess => (s, mkResolution ApplyRemote false)
      | CGreater | CEqual => (s, mkResolution KeepLocal false)
      | CConcurrent => (count_conflict s, resolve_concurrent_conflict s local (metadata change))
      end
  end.

(** [if let Some(orig) = map.get_mut(p) { orig.vector_clock.merge(clock) }] *)
Definition merge_at (m : gmap bytes GeoItemMetadata) (p : bytes) (c : VectorClock.t) : gmap bytes GeoItemMetadata :=
  alter (fun i => set_clock i (VectorClock.merge (vector_clock i) c)) p m.

Definition apply_action (s : t) (change : ReplicationChange) (a : ConflictAction) : t :=
  let m := metadata change in
  let p := rel_path m in
  match a with
  | ApplyRemote =>
      if is_tombstone m then set_items s (delete p (ledger s)) (<[p := m]> (tombstones s))
      else set_items s (<[p := m]> (ledger s)) (delete p (tombstones s))
  | CreateBranch b =>
      set_items s (merge_at (<[b := set_path m b]> (ledger s)) p (vector_clock m)) (tombstones s)
  | KeepLocal | Rejected =>
      match ledger s !! p with
      | Some _ => set_items s (merge_at (ledger s) p (vector_clock m)) (tombstones s)
      | None => set_items s (ledger s) (merge_at (tombstones s) p (vector_clock m))
      end
  end.

(** [apply_remote_change]; it always returns [Ok]. *)
Definition apply_remote_change (s : t) (change : ReplicationChange) : t * ConflictResolutionResult :=
  let '(s, r) := resolve s change in
  (apply_action s change (action r), r).

Definition prune_tombstones (s : t) (ttl_secs now_secs : Z) : t * Z :=
  let kept := filter (fun e : bytes * GeoItemMetadata =>
    saturating_sub now_secs (physical_time_ms e.2 / 1000) < ttl_secs) (tombstones s) in
  (set_items s (ledger s) kept, Z.of_nat (base.size (tombstones s)) - Z.of_nat (base.size kept)).
End Geo.

(** ** Clocks as a lattice *)

Module Clock.
Import VectorClock.

Definition clock_ok (c : t) : Prop := forall r v, c !! r = Some v -> fits 64 v.
Definition le (a b : t) : Prop := forall r, get a r <= get b r.

#[export] Instance le_preorder : PreOrder le.
Proof. split; [intros a r; lia|]. intros a b c H1 H2 r. specialize (H1 r). specialize (H2 r). lia. Qed.

Lemma get_nonneg c r : clock_ok c -> 0 <= get c r.
Proof. intros Hc. unfold get. destruct (c !! r) as [v|] eqn:E; cbn; [|lia]. apply Hc in E. unfold fits in E. lia. Qed.

Lemma merge_lookup a b r :
  merge a b !! r = match b !! r with Some v => Some (Z.max (get a r) v) | None => a !! r end.
Proof.
  enough (forall l : list (bytes * Z), NoDup l.*1 -> forall a,
    foldl (fun c (e : bytes * Z) => <[e.1 := Z.max (get c e.1) e.2]> c) a l !! r =
    match (list_to_map l : gmap bytes Z) !! r with Some v => Some (Z.max (get a r) v) | None => a !! r end) as H.
  { unfold merge. rewrite H by apply NoDup_fst_map_to_list. by rewrite list_to_map_to_list. }
  induction l as [|[k v] l IH]; intros Hnd c; [by rewrite list_to_map_nil, lookup_empty|].
  cbn [fmap list_fmap fst] in Hnd. apply NoDup_cons in Hnd as [Hk Hnd]. cbn [foldl]. rewrite IH by done.
  rewrite list_to_map_cons. cbn [fst snd]. destruct (decide (k = r)) as [->|Hne].
  - rewrite (not_elem_of_list_to_map_1 l r) by done. by rewrite !lookup_insert_eq.
  - unfold get. by rewrite !lookup_insert_ne by done.
Qed.

Lemma get_merge a b r : clock_ok a -> get (merge a b) r = Z.max (get a r) (get b r).
Proof.
  intros Ha. pose proof (get_nonneg a r Ha). unfold get in *. rewrite merge_lookup. unfold get.
  destruct (b !! r); cbn; [done|]. lia.
Qed.

Lemma merge_ok a b : clock_ok a -> clock_ok b -> clock_ok (merge a b).
Proof.
  intros Ha Hb r v. rewrite merge_lookup. destruct (b !! r) as [w|] eqn:E; [|apply Ha]. intros [= <-].
  apply Hb in E. unfold get. destruct (a !! r) as [u|] eqn:Ea; cbn [default].
  - apply Ha in Ea. unfold fits, default, id in *. lia.
  - unfold fits, default, id in *. lia.
Qed.

Lemma merge_idem a b : merge (merge a b) b = merge a b.
Proof.
  apply map_eq. intros r. rewrite !merge_lookup. destruct (b !! r) as [v|] eqn:E; [|done]. f_equal.
  unfold get at 1. rewrite merge_lookup, E. change (Z.max (Z.max (get a r) v) v = Z.max (get a r) v). lia.
Qed.
Lemma merge_self a : merge a a = a.
Proof.
  apply map_eq. intros r. rewrite merge_lookup. unfold get. destruct (a !! r) as [v|]; [|done]. change (Some (Z.max v v) = Some v). f_equal. lia.
Qed.

Lemma exists_region a b (f : Z -> Z -> bool) : (f 0 0 = false) ->
  existsb (fun r => f (get a r) (get b r)) (all_regions a b) = true <-> exists r, f (get a r) (get b r) = true.
Proof.
  intros H0. rewrite existsb_exists. split; [naive_solver|]. intros [r Hr]. exists r. split; [|done].
  apply list_elem_of_In. unfold all_regions. rewrite elem_of_elements, elem_of_union, !elem_of_dom.
  unfold get in Hr. destruct (a !! r) eqn:Ea; [by left; eauto|]. destruct (b !! r) eqn:Eb; [by right; eauto|].
  cbn in Hr. congruence.
Qed.

Lemma exists_region_false a b (f : Z -> Z -> bool) : (f 0 0 = false) ->
  existsb (fun r => f (get a r) (get b r)) (all_regions a b) = false <-> forall r, f (get a r) (get b r) = false.
Proof.
  intros H0. rewrite <- not_true_iff_false, (exists_region a b f H0). split.
  - intros Hn r. apply not_true_iff_false. naive_solver.
  - intros Hall [r Hr]. specialize (Hall r). congruence.
Qed.

(** [compare] decides the pointwise order. *)
Lemma compare_spec a b :
  match compare a b with
  | CEqual => le a b /\ le b a
  | CGreater => le b a /\ ~ le a b
  | CLess => le a b /\ ~ le b a
  | CConcurrent => ~ le a b /\ ~ le b a
  end.
Proof.
  unfold compare. pose proof (exists_region a b (fun x y => y <? x) eq_refl) as Hg.
  pose proof (exists_region a b (fun x y => x <? y) eq_refl) as Hl.
  pose proof (exists_region_false a b (fun x y => y <? x) eq_refl) as Hg'.
  pose proof (exists_region_false a b (fun x y => x <? y) eq_refl) as Hl'. cbv beta in *.
  assert (forall x y, (forall r, (get y r <? get x r) = false) -> le x y) as Hle.
  { intros x y H r. specialize (H r). lia. }
  assert (forall x y, (exists r, (get y r <? get x r) = true) -> ~ le x y) as Hnle.
  { intros x y [r Hr] H. specialize (H r). lia. }
  destruct (existsb (fun r => get b r <? get a r) _), (existsb (fun r => get a r <? get b r) _); split;
    (apply Hle || apply Hnle); (apply Hg || apply Hl || apply Hg' || apply Hl'); done.
Qed.

Lemma le_merge_r a b : clock_ok a -> le b (merge a b).
Proof. intros Ha r. rewrite get_merge by done. lia. Qed.
Lemma le_merge_l a b : clock_ok a -> le a (merge a b).
Proof. intros Ha r. rewrite get_merge by done. lia. Qed.

Lemma increment_ok c r : clock_ok c -> clock_ok (increment c r).
Proof.
  intros Hc r' v. unfold increment. destruct (decide (r = r')) as [->|].
  - rewrite lookup_insert_eq. intros [= <-]. apply wrap_fits. lia.
  - rewrite lookup_insert_ne by done. apply Hc.
Qed.

Lemma increment_greater c r : clock_ok c -> get c r + 1 < 2 ^ 64 -> compare (increment c r) c = CGreater.
Proof.
  intros Hc Hlt. pose proof (get_nonneg c r Hc). assert (forall r', get (increment c r) r' = if decide (r' = r) then get c r + 1 else get c r') as Hg.
  { intros r'. unfold increment, get at 1. case_decide as He; [subst r'; rewrite lookup_insert_eq|by rewrite lookup_insert_ne].
    change (wrap 64 (get c r + 1) = get c r + 1). apply wrap_small. unfold fits. lia. }
  pose proof (compare_spec (increment c r) c) as Hs.
  assert (le c (increment c r)) by (intros r'; rewrite Hg; case_decide; subst; lia).
  assert (~ le (increment c r) c) by (intros Hle; specialize (Hle r); rewrite Hg, decide_True in Hle by done; lia).
  destruct (compare _ _); naive_solver.
Qed.

(** Vector clocks. [compare] decides the pointwise order of counters, absent regions counting as
    zero; [merge] is the least upper bound in that order; and [increment] gives a strictly greater
    clock, short of the end of the counter. *)
Theorem geo_clock_lattice a b : clock_ok a -> clock_ok b ->
  match compare a b with
  | CEqual => forall r, get a r = get b r
  | CGreater => le b a /\ exists r, get b r < get a r
  | CLess => le a b /\ exists r, get a r < get b r
  | CConcurrent => (exists r, get b r < get a r) /\ exists r, get a r < get b r
  end /\
  le a (merge a b) /\ le b (merge a b) /\ (forall c, le a c -> le b c -> le (merge a b) c) /\ clock_ok (merge a b) /\
  (forall r, get a r + 1 < 2 ^ 64 -> compare (increment a r) a = CGreater).
Proof.
  intros Ha Hb. split; [|split_and!].
  - pose proof (compare_spec a b) as Hs. pose proof (exists_region a b (fun x y => y <? x) eq_refl) as Hg.
    pose proof (exists_region a b (fun x y => x <? y) eq_refl) as Hl. cbv beta in *. unfold compare in *.
    destruct (existsb (fun r => get b r <? get a r) _), (existsb (fun r => get a r <? get b r) _);
      [destruct (proj1 Hg eq_refl) as [r1 H1]; destruct (proj1 Hl eq_refl) as [r2 H2]; split; [exists r1|exists r2]; lia
      |destruct (proj1 Hg eq_refl) as [r1 H1]; split; [apply Hs|exists r1; lia]
      |destruct (proj1 Hl eq_refl) as [r2 H2]; split; [apply Hs|exists r2; lia]
      |intros r; destruct Hs as [H1 H2]; specialize (H1 r); specialize (H2 r); lia].
  - by apply le_merge_l.
  - by apply le_merge_r.
  - intros c H1 H2 r. rewrite get_merge by done. specialize (H1 r). specialize (H2 r). lia.
  - by apply merge_ok.
  - intros r. by apply increment_greater.
Qed.

(** Clocks that are at least [b] keep the local item. *)
Lemma compare_ge a b : le b a -> compare a b = CGreater \/ compare a b = CEqual.
Proof. intros H. pose proof (compare_spec a b) as Hs. destruct (compare a b); naive_solver. Qed.
End Clock.

(** ** The coordinator's invariant and idempotence *)

Module GeoProofs.
Import Geo Clock.

Definition item_ok (p : bytes) (i : GeoItemMetadata) : Prop := rel_path i = p /\ clock_ok (vector_clock i).
Definition items_ok (m : gmap bytes GeoItemMetadata) : Prop := map_Forall item_ok m.
(** Entries are stored under their path, with counters in range. *)
Definition geo_ok (s : t) : Prop := items_ok (ledger s) /\ items_ok (tombstones s).
Definition change_ok (c : ReplicationChange) : Prop := clock_ok (vector_clock (metadata c)).

Lemma items_insert_ok m p i : items_ok m -> item_ok p i -> items_ok (<[p := i]> m).
Proof. intros. by apply map_Forall_insert_2. Qed.
Lemma delete_ok m p : items_ok m -> items_ok (delete p m).
Proof. intros H q i [_ Hi]%lookup_delete_Some. by apply H. Qed.
Lemma merge_at_ok m p c : items_ok m -> clock_ok c -> items_ok (merge_at m p c).
Proof.
  intros H Hc q i. unfold merge_at. destruct (decide (q = p)) as [->|].
  - rewrite lookup_alter_eq. destruct (m !! p) as [j|] eqn:E; [|done]. intros [= <-]. destruct (H _ _ E).
    split; [done|]. by apply merge_ok.
  - rewrite lookup_alter_ne by done. apply H.
Qed.
#[local] Hint Resolve items_insert_ok delete_ok merge_at_ok : geo.

Lemma apply_action_ok s ch a : geo_ok s -> change_ok ch -> geo_ok (apply_action s ch a).
Proof.
  intros [Hl Ht] Hc. unfold apply_action. pose proof (conj eq_refl Hc : item_ok _ (metadata ch)) as Hi.
  destruct a as [| |b|]; repeat case_match; split; cbn; eauto with geo.
  apply merge_at_ok; [|done]. apply items_insert_ok; [done|]. by split.
Qed.

Lemma resolve_items s ch : ledger (resolve s ch).1 = ledger s /\ tombstones (resolve s ch).1 = tombstones s /\
  policy (resolve s ch).1 = policy s.
Proof. unfold resolve. by repeat case_match. Qed.

Lemma apply_remote_ok s ch : geo_ok s -> change_ok ch -> geo_ok (apply_remote_change s ch).1.
Proof.
  intros Hs Hc. unfold apply_remote_change. destruct (resolve_items s ch) as (E1 & E2 & _).
  destruct (resolve s ch) as [s' r]. cbn in *. apply apply_action_ok; [|done]. unfold geo_ok. by rewrite E1, E2.
Qed.

Lemma mutation_ok s p sz h pl now : geo_ok s -> geo_ok (record_local_mutation s p sz h pl now).1.
Proof.
  intros [Hl Ht]. unfold record_local_mutation, enqueue. destruct (GeoReplicationQueue.enqueue _ _ _ _). split; cbn; [|auto with geo].
  apply items_insert_ok; [done|]. split; [done|]. cbn. apply increment_ok. destruct (ledger s !! p) eqn:E; [by eapply Hl|done].
Qed.
Lemma deletion_ok eh s p now : geo_ok s -> geo_ok (record_local_deletion eh s p now).1.
Proof.
  intros [Hl Ht]. unfold record_local_deletion, enqueue. destruct (GeoReplicationQueue.enqueue _ _ _ _). split; cbn; [auto with geo|].
  apply items_insert_ok; [done|]. split; [done|]. cbn. apply increment_ok.
  destruct (ledger s !! p) eqn:E; [by eapply Hl|]. destruct (tombstones s !! p) eqn:E'; [by eapply Ht|done].
Qed.

Lemma local_meta_ok s p i : geo_ok s -> local_meta s p = Some i -> item_ok p i.
Proof. intros [Hl Ht]. unfold local_meta. destruct (ledger s !! p) eqn:E; [intros [= <-]; by apply Hl|apply Ht]. Qed.

Lemma merge_at_fix m p c i : m !! p = Some i -> VectorClock.merge (vector_clock i) c = vector_clock i -> merge_at m p c = m.
Proof.
  intros Hi Hm. apply map_eq. intros q. unfold merge_at. destruct (decide (q = p)) as [->|]; [|by rewrite lookup_alter_ne].
  rewrite lookup_alter_eq, Hi. cbn. rewrite Hm. by destruct i.
Qed.
Lemma merge_at_twice m p c : merge_at (merge_at m p c) p c = merge_at m p c.
Proof.
  apply map_eq. intros q. unfold merge_at. destruct (decide (q = p)) as [->|]; [|by rewrite !lookup_alter_ne].
  rewrite !lookup_alter_eq. destruct (m !! p) as [i|]; [|done]. unfold set_clock; cbn. by rewrite merge_idem.
Qed.

(** What [apply_remote_change] keeps of a path it does not replace. *)
Definition kept_local (s : t) (ch : ReplicationChange) : t := apply_action s ch KeepLocal.

Lemma local_meta_kept s ch i : local_meta s (rel_path (metadata ch)) = Some i ->
  local_meta (kept_local s ch) (rel_path (metadata ch)) =
    Some (set_clock i (VectorClock.merge (vector_clock i) (vector_clock (metadata ch)))).
Proof.
  unfold local_meta, kept_local, apply_action. set (p := rel_path _). destruct (ledger s !! p) as [j|] eqn:E.
  - intros [= ->]. cbn. unfold merge_at. by rewrite lookup_alter_eq, E.
  - intros Ht. cbn. rewrite E. unfold merge_at. by rewrite lookup_alter_eq, Ht.
Qed.

Lemma local_meta_applied s ch :
  local_meta (apply_action s ch ApplyRemote) (rel_path (metadata ch)) = Some (metadata ch).
Proof.
  unfold local_meta, apply_action. destruct (is_tombstone (metadata ch)); cbn.
  - by rewrite lookup_delete_eq, lookup_insert_eq.
  - by rewrite lookup_insert_eq.
Qed.

Definition same_items (s s' : t) : Prop := ledger s = ledger s' /\ tombstones s = tombstones s'.

(** A change the local item already covers leaves everything as it is. *)
Lemma covered_noop s ch i : local_meta s (rel_path (metadata ch)) = Some i ->
  le (vector_clock (metadata ch)) (vector_clock i) ->
  VectorClock.merge (vector_clock i) (vector_clock (metadata ch)) = vector_clock i ->
  same_items (apply_remote_change s ch).1 s.
Proof.
  intros Hi Hle Hm. unfold apply_remote_change, resolve. rewrite Hi.
  assert (same_items (kept_local s ch) s) as Hk.
  { unfold kept_local, apply_action, local_meta in *. destruct (ledger s !! _) as [j|] eqn:E.
    - injection Hi as ->. split; [|done]. by apply (merge_at_fix _ _ _ i).
    - split; [done|]. by apply (merge_at_fix _ _ _ i). }
  by destruct (compare_ge _ _ Hle) as [-> | ->].
Qed.

Lemma branch_path_ne local remote : branch_path local remote <> rel_path local.
Proof.
  unfold branch_path. intros H%(f_equal length). rewrite !length_app in H. cbn in H. lia.
Qed.

Lemma branch_twice s ch j : policy s = KeepBoth -> item_ok (rel_path (metadata ch)) j ->
  local_meta s (rel_path (metadata ch)) = Some j ->
  VectorClock.compare (vector_clock j) (vector_clock (metadata ch)) = CConcurrent ->
  let s1 := (apply_remote_change s ch).1 in same_items (apply_remote_change s1 ch).1 s1.
Proof.
  intros Hpol [Hpath Hclk] Hj Hcmp s1. pose proof (branch_path_ne j (metadata ch)) as Hne. rewrite Hpath in Hne.
  set (b := branch_path j (metadata ch)) in *. set (p := rel_path (metadata ch)) in *. set (m := metadata ch) in *.
  assert (ledger s1 = merge_at (<[b := set_path m b]> (ledger s)) p (vector_clock m) /\
    tombstones s1 = tombstones s /\ policy s1 = KeepBoth) as (L1 & T1 & P1).
  { unfold s1, apply_remote_change, resolve. fold m p. rewrite Hj, Hcmp. unfold resolve_concurrent_conflict. rewrite Hpol. done. }
  assert (ledger s1 !! p = (fun i => set_clock i (VectorClock.merge (vector_clock i) (vector_clock m))) <$> (ledger s !! p)) as Lp.
  { rewrite L1. unfold merge_at. by rewrite lookup_alter_eq, lookup_insert_ne. }
  unfold local_meta in Hj. destruct (ledger s !! p) as [i|] eqn:E.
  - injection Hj as ->. eapply covered_noop; [unfold local_meta; fold m p; by rewrite Lp| |]; cbn.
    + by apply le_merge_r.
    + apply merge_idem.
  - unfold apply_remote_change, resolve, local_meta. fold m p. rewrite Lp, T1. cbn [fmap option_fmap option_map]. rewrite Hj, Hcmp.
    unfold resolve_concurrent_conflict. rewrite P1. fold b. split; cbn; [|done]. fold m p.
    assert (forall l : gmap bytes GeoItemMetadata, l !! p = None -> merge_at l p (vector_clock m) = l) as Hn.
    { intros l Hl. unfold merge_at. by apply alter_id; intros x; rewrite Hl. }
    rewrite L1, (Hn (<[b := set_path m b]> (ledger s))) by (by rewrite lookup_insert_ne).
    rewrite Hn by (by rewrite !lookup_insert_ne). apply insert_insert_eq.
Qed.

(** Applying a change a second time changes nothing. The coordinator's invariant (entries under
    their path, counters in range) is kept by every operation that stores items, and for every
    policy, in a state that satisfies it, a change that is applied again after
    [apply_remote_change] leaves both ledgers as they are. *)
Theorem geo_apply_idempotent s : geo_ok s ->
  (forall p sz h pl now, geo_ok (record_local_mutation s p sz h pl now).1) /\
  (forall eh p now, geo_ok (record_local_deletion eh s p now).1) /\
  (forall ch, change_ok ch -> let s1 := (apply_remote_change s ch).1 in
    geo_ok s1 /\ ledger (apply_remote_change s1 ch).1 = ledger s1 /\
    tombstones (apply_remote_change s1 ch).1 = tombstones s1).
Proof.
  intros Hs. split; [intros; by apply mutation_ok|]. split; [intros; by apply deletion_ok|]. intros ch Hc s1.
  split; [by apply apply_remote_ok|]. change (same_items (apply_remote_change s1 ch).1 s1).
  assert (Happly : forall s', same_items (apply_remote_change (apply_action s' ch ApplyRemote) ch).1 (apply_action s' ch ApplyRemote)).
  { intros s'. eapply covered_noop; [apply local_meta_applied|reflexivity|apply merge_self]. }
  assert (Hkeep : forall s' i, same_items s' s -> local_meta s (rel_path (metadata ch)) = Some i ->
    same_items (apply_remote_change (kept_local s' ch) ch).1 (kept_local s' ch)).
  { intros s' i [E1 E2] Hi. assert (local_meta s' (rel_path (metadata ch)) = Some i) as Hi'.
    { unfold local_meta in *. by rewrite E1, E2. }
    destruct (local_meta_ok _ _ _ Hs Hi) as [_ Hclk].
    eapply covered_noop; [apply (local_meta_kept _ _ _ Hi')|by apply le_merge_r|apply merge_idem]. }
  destruct (local_meta s (rel_path (metadata ch))) as [i|] eqn:Hi.
  2: { unfold s1. unfold apply_remote_change at 2 3, resolve. rewrite Hi. apply Happly. }
  destruct (VectorClock.compare (vector_clock i) (vector_clock (metadata ch))) eqn:Hcmp.
  1,2,3: unfold s1; unfold apply_remote_change at 2 3, resolve; rewrite Hi, Hcmp; first [by apply (Hkeep s i)|apply Happly].
  destruct (policy s) eqn:Hpol; [| |by apply (branch_twice s ch i Hpol (local_meta_ok _ _ _ Hs Hi))|];
    unfold s1; unfold apply_remote_change at 2 3, resolve; rewrite Hi, Hcmp; unfold resolve_concurrent_conflict; rewrite Hpol;
    repeat case_match; first [apply Happly|by apply (Hkeep (count_conflict s) i)].
Qed.
End GeoProofs.

(** ** Convergence of last-write-wins *)

Module Lww.
Import Geo Clock GeoProofs.

(** [x] loses against [y]: earlier, or at the same time from a smaller region. *)
Definition older (x y : GeoItemMetadata) : Prop :=
  physical_time_ms x < physical_time_ms y \/
  (physical_time_ms x = physical_time_ms y /\ bytes_lt (origin_region x) (origin_region y) = true).

Lemma older_trans x y z : older x y -> older y z -> older x z.
Proof.
  intros [?|[? ?]] [?|[? ?]]; [left; lia..|]. right. split; [congruence|by eapply bytes_lt_trans].
Qed.

(** The resolution of a conflict, by [older]. *)
Lemma lww_resolution s local remote : policy s = LastWriteWins ->
  (older local remote /\ action (resolve_concurrent_conflict s local remote) = ApplyRemote) \/
  (~ older local remote /\ action (resolve_concurrent_conflict s local remote) = KeepLocal).
Proof.
  intros Hp. unfold resolve_concurrent_conflict, older. rewrite Hp.
  destruct (Z.ltb_spec (physical_time_ms local) (physical_time_ms remote)); [left; tauto|].
  destruct (Z.ltb_spec (physical_time_ms remote) (physical_time_ms local)); [right; split; [lia|done]|].
  destruct (bytes_lt _ _) eqn:E; [left; split; [right; split; [lia|done]|done]|right].
  split; [|done]. intros [?|[_ ?]]; [lia|congruence].
Qed.

Section converge.
Context (p : bytes) (U : GeoItemMetadata -> Prop).
(** The versions of one path, written by regions that maintain their clocks: *)
Record versions : Prop := {
  v_path : forall x, U x -> rel_path x = p;
  v_clock : forall x, U x -> clock_ok (vector_clock x);
  (** each has an event of its own, and a clock that counts it has seen all the writer had seen; *)
  v_event : forall x, U x -> exists r, forall y, U y ->
    VectorClock.get (vector_clock x) r <= VectorClock.get (vector_clock y) r ->
    le (vector_clock x) (vector_clock y);
  (** a version that has seen another is newer, and no two have the same time and region. *)
  v_causal : forall x y, U x -> U y -> le (vector_clock x) (vector_clock y) -> x = y \/ older x y;
  v_total : forall x y, U x -> U y -> x = y \/ older x y \/ older y x }.
Context (HU : versions).

Definition deliver (s : t) (D : list ReplicationChange) : t := foldl (fun s c => (apply_remote_change s c).1) s D.
Definition newest (x : GeoItemMetadata) (D : list GeoItemMetadata) : Prop :=
  x ∈ D /\ forall y, y ∈ D -> y = x \/ older y x.

(** After the delivery of [D]: the newest version, under a clock between its own and the join of
    the delivered ones. *)
Definition holds (s : t) (D : list GeoItemMetadata) : Prop :=
  policy s = LastWriteWins /\
  match D with
  | [] => local_meta s p = None
  | _ => exists b c, newest b D /\ local_meta s p = Some (set_clock b c) /\ clock_ok c /\ le (vector_clock b) c /\
      forall r, exists z, z ∈ D /\ VectorClock.get c r <= VectorClock.get (vector_clock z) r
  end.

Lemma apply_action_policy s ch a : policy (apply_action s ch a) = policy s.
Proof. unfold apply_action. by repeat case_match. Qed.

Lemma applied_holds s ch D : policy s = LastWriteWins -> U (metadata ch) -> newest (metadata ch) (D ++ [metadata ch]) ->
  holds (apply_action s ch ApplyRemote) (D ++ [metadata ch]).
Proof.
  intros Hp Hy Hn. split; [by rewrite apply_action_policy|]. destruct (D ++ [metadata ch]) as [|d l] eqn:E; [by destruct D|].
  rewrite <- E in *. exists (metadata ch), (vector_clock (metadata ch)). split; [done|].
  split; [rewrite <- (v_path HU _ Hy), local_meta_applied; by destruct (metadata ch)|].
  split; [by apply (v_clock HU)|]. split; [done|]. intros r. exists (metadata ch). split; [set_solver|lia].
Qed.

Lemma kept_holds s ch D b c : policy s = LastWriteWins -> U (metadata ch) -> local_meta s p = Some (set_clock b c) ->
  clock_ok c -> le (vector_clock b) c ->
  (forall r, exists z, z ∈ D /\ VectorClock.get c r <= VectorClock.get (vector_clock z) r) ->
  newest b (D ++ [metadata ch]) -> holds (apply_action s ch KeepLocal) (D ++ [metadata ch]).
Proof.
  intros Hp Hy Hl Hc Hle Hj Hn. split; [by rewrite apply_action_policy|]. destruct (D ++ [metadata ch]) as [|d l] eqn:E; [by destruct D|].
  rewrite <- E in *. exists b, (VectorClock.merge c (vector_clock (metadata ch))). split; [done|].
  split; [|split; [apply merge_ok; [done|by apply (v_clock HU)]|]].
  - pose proof (local_meta_kept s ch (set_clock b c)) as H. rewrite (v_path HU _ Hy) in H. by apply H.
  - split; [transitivity c; [done|by apply le_merge_l]|]. intros r. rewrite get_merge by done.
    destruct (Hj r) as (z & Hz & Hzr). destruct (Z.max_spec (VectorClock.get c r) (VectorClock.get (vector_clock (metadata ch)) r)) as [[_ ->]|[_ ->]].
    + exists (metadata ch). split; [set_solver|lia].
    + exists z. split; [set_solver|done].
Qed.

Lemma newest_new b y D : newest b D -> older b y -> newest y (D ++ [y]).
Proof.
  intros [Hb Hn] Ho. split; [set_solver|]. intros x [Hx|Hx]%elem_of_app; [|left; set_solver].
  right. destruct (Hn x Hx) as [->|Hx']; [done|by eapply older_trans].
Qed.
Lemma newest_old b y D : newest b D -> y = b \/ older y b -> newest b (D ++ [y]).
Proof.
  intros [Hb Hn] Ho. split; [set_solver|]. intros x [Hx|Hx]%elem_of_app; [by apply Hn|].
  apply list_elem_of_singleton in Hx as ->. done.
Qed.

(** A version whose event the local clock counts is not newer than the local one. *)
Lemma counted_old b c y D : U y -> (forall x, x ∈ D -> U x) -> newest b D ->
  (forall r, exists z, z ∈ D /\ VectorClock.get c r <= VectorClock.get (vector_clock z) r) ->
  le (vector_clock y) c -> y = b \/ older y b.
Proof.
  intros Hy HD [Hb Hn] Hj Hle. destruct (v_event HU y Hy) as [r Hr]. destruct (Hj r) as (z & Hz & Hzr).
  assert (le (vector_clock y) (vector_clock z)) as Hyz by (apply Hr; [by apply HD|]; specialize (Hle r); lia).
  destruct (v_causal HU y z Hy (HD z Hz) Hyz) as [->|Ho]; [by apply Hn|].
  right. destruct (Hn z Hz) as [->|Hz']; [done|by eapply older_trans].
Qed.

Lemma apply_holds s ch D : U (metadata ch) -> (forall x, x ∈ D -> U x) -> holds s D ->
  holds (apply_remote_change s ch).1 (D ++ [metadata ch]).
Proof.
  intros Hy HD [Hp Hh]. unfold apply_remote_change, resolve. rewrite (v_path HU _ Hy).
  destruct D as [|d D'] eqn:ED.
  { rewrite Hh. apply (applied_holds s ch []); [done|done|]. split; [set_solver|]. intros x Hx. left. set_solver. }
  rewrite <- ED in *. clear ED. destruct Hh as (b & c & Hn & Hl & Hc & Hle & Hj). rewrite Hl.
  cbn [vector_clock set_clock]. pose proof (compare_spec c (vector_clock (metadata ch))) as Hcmp.
  assert (U b) as Hb by (apply HD, Hn).
  assert (forall s', policy s' = LastWriteWins -> local_meta s' p = local_meta s p -> metadata ch = b \/ older (metadata ch) b ->
    holds (apply_action s' ch KeepLocal) (D ++ [metadata ch])) as Hkeep.
  { intros s' Hp' Hl' Ho. apply (kept_holds s' ch D b c); try done; [congruence|by apply newest_old]. }
  destruct (VectorClock.compare _ _); cbn [action fst].
  - apply Hkeep; [done..|]. by apply (counted_old b c _ D); [| | | |apply Hcmp].
  - apply Hkeep; [done..|]. by apply (counted_old b c _ D); [| | | |apply Hcmp].
  - destruct Hcmp as [Hcy Hyc]. apply applied_holds; [done..|]. apply (newest_new b); [done|].
    destruct (v_causal HU b (metadata ch) Hb Hy) as [Heq|?]; [by transitivity c| |done]. rewrite <- Heq in Hyc. done.
  - destruct (lww_resolution s (set_clock b c) (metadata ch) Hp) as [[Ho ->]|[Ho ->]].
    + apply applied_holds; [done..|]. by apply (newest_new b).
    + apply Hkeep; [done..|]. destruct (v_total HU (metadata ch) b Hy Hb) as [?|[?|?]]; [by left|by right|done].
Qed.

Lemma deliver_holds s D cs : (forall c, c ∈ cs -> U (metadata c)) -> (forall x, x ∈ D -> U x) -> holds s D ->
  holds (deliver s cs) (D ++ (metadata <$> cs)).
Proof.
  revert s D. induction cs as [|c cs IH]; intros s D Hcs HD Hh; [by rewrite app_nil_r|].
  cbn [deliver foldl fmap list_fmap]. rewrite cons_middle, app_assoc. apply IH; [set_solver| |].
  - intros x [Hx|Hx]%elem_of_app; [by apply HD|]. apply list_elem_of_singleton in Hx as ->. apply Hcs. set_solver.
  - apply apply_holds; [apply Hcs; set_solver|done|done].
Qed.

Lemma newest_unique b b' D D' : (forall x, x ∈ D <-> x ∈ D') -> newest b D -> newest b' D' -> b = b'.
Proof.
  intros Hdd [Hb Hn] [Hb' Hn']. apply Hdd in Hb. apply Hdd in Hb'. destruct (Hn b' Hb') as [?|H1]; [done|].
  destruct (Hn' b Hb) as [?|H2]; [done|]. pose proof (older_trans _ _ _ H1 H2) as [?|[_ H]]; [lia|].
  by rewrite bytes_lt_irrefl in H.
Qed.
End converge.

(** C19. Convergence of last-write-wins, for versions with sound clocks. Two coordinators under last-write-wins
    that had nothing under a path and received the same versions of it, in any order and any number of times,
    hold the same version, the newest by time and region, whether a file or a tombstone. The versions are
    assumed ([versions]) to have each an event of its own that a clock counts only when it has seen all its
    writer had seen, times that follow the clocks, and no two the same time and region. This is a condition on
    the writers: [record_local_mutation] breaks it when it starts from an empty clock after a deletion or goes
    on from a clock that was replaced ([GeoExamples.recreated_file_ignored], [GeoExamples.lost_update]). *)
Theorem geo_lww_converges p U s1 s2 cs1 cs2 : versions p U ->
  (forall c, c ∈ cs1 -> U (metadata c)) -> (forall x, x ∈ metadata <$> cs1 <-> x ∈ metadata <$> cs2) ->
  policy s1 = LastWriteWins -> policy s2 = LastWriteWins -> local_meta s1 p = None -> local_meta s2 p = None ->
  cs1 <> [] ->
  exists b c1 c2, newest b (metadata <$> cs1) /\
    local_meta (deliver s1 cs1) p = Some (set_clock b c1) /\ local_meta (deliver s2 cs2) p = Some (set_clock b c2).
Proof.
  intros HU H1 Hsame P1 P2 L1 L2 Hne.
  assert (forall c, c ∈ cs2 -> U (metadata c)) as H2.
  { intros c Hc. assert (metadata c ∈ metadata <$> cs1) as (c' & -> & Hc')%list_elem_of_fmap by (apply Hsame; by apply list_elem_of_fmap_2).
    by apply H1. }
  destruct (deliver_holds p U HU s1 [] cs1 H1 ltac:(set_solver) (conj P1 L1)) as [_ D1].
  destruct (deliver_holds p U HU s2 [] cs2 H2 ltac:(set_solver) (conj P2 L2)) as [_ D2]. cbn [app] in *.
  assert (exists x, x ∈ metadata <$> cs1) as [x Hx].
  { destruct cs1 as [|c cs]; [done|]. exists (metadata c). cbn. set_solver. }
  pose proof (proj1 (Hsame x) Hx) as Hx2.
  destruct (metadata <$> cs1) as [|d1 l1] eqn:E1; [by apply elem_of_nil in Hx|]. rewrite <- E1 in *.
  destruct (metadata <$> cs2) as [|d2 l2] eqn:E2; [by apply elem_of_nil in Hx2|]. rewrite <- E2 in *.
  destruct D1 as (b & c1 & N1 & M1 & _), D2 as (b2 & c2 & N2 & M2 & _).
  rewrite <- (newest_unique b b2 _ _ Hsame N1 N2) in M2. exists b, c1, c2. done.
Qed.
End Lww.

(** ** Examples *)

Module GeoExamples.
Import Geo Clock GeoProofs Lww.
Definition str (x : string) : bytes := Utf8.str_bytes x.
Definition f : bytes := str "f".
Definition ca : VectorClock.t := {[ str "a" := 1 ]}.
Definition cb : VectorClock.t := {[ str "b" := 1 ]}.
Definition cab : VectorClock.t := <[str "a" := 2]> cb.
Definition item (c : VectorClock.t) (time : Z) (region : string) : GeoItemMetadata := mkItem f 1 [time] c time (str region) false.
Definition x : GeoItemMetadata := item ca 10 "a".
Definition y : GeoItemMetadata := item cb 20 "b".
Definition z : GeoItemMetadata := item cab 30 "a".
Definition ch (i : GeoItemMetadata) : ReplicationChange := mkChange 1 i None.
Definition U (i : GeoItemMetadata) : Prop := i ∈ [x; y; z].

Lemma le_by a b : match VectorClock.compare a b with CLess | CEqual => true | _ => false end = true -> le a b.
Proof. pose proof (compare_spec a b). destruct (VectorClock.compare a b); naive_solver. Qed.
Lemma clocks_ok : clock_ok ca /\ clock_ok cb /\ clock_ok cab.
Proof.
  assert (forall r, clock_ok {[ r := 1 ]}) as H1.
  { intros r r' v [_ <-]%lookup_singleton_Some. unfold fits. lia. }
  split; [apply H1|]. split; [apply H1|]. unfold cab. intros r v [[_ <-]|[_ H]]%lookup_insert_Some; [unfold fits; lia|by apply (H1 _ _ _ H)].
Qed.

Lemma versions_xyz : versions f U.
Proof.
  destruct clocks_ok as (Ha & Hb & Hab). unfold U. split.
  - intros i Hi. set_unfold in Hi. by destruct Hi as [->|[->|[->|[]]]].
  - intros i Hi. set_unfold in Hi. by destruct Hi as [->|[->|[->|[]]]].
  - intros i Hi. set_unfold in Hi. destruct Hi as [->|[->|[->|[]]]].
    + exists (str "a"). intros j Hj H. set_unfold in Hj. destruct Hj as [->|[->|[->|[]]]]; try (apply le_by; vm_compute; reflexivity). exfalso. vm_compute in H. congruence.
    + exists (str "b"). intros j Hj H. set_unfold in Hj. destruct Hj as [->|[->|[->|[]]]]; try (apply le_by; vm_compute; reflexivity). exfalso. vm_compute in H. congruence.
    + exists (str "a"). intros j Hj H. set_unfold in Hj. destruct Hj as [->|[->|[->|[]]]]; try (apply le_by; vm_compute; reflexivity); exfalso; vm_compute in H; congruence.
  - intros i j Hi Hj Hle. set_unfold in Hi. set_unfold in Hj.
    destruct Hi as [->|[->|[->|[]]]], Hj as [->|[->|[->|[]]]]; try (by left); try (right; left; cbn; lia); exfalso.
    + pose proof (Hle (str "b")) as H. vm_compute in H. congruence.
    + pose proof (Hle (str "a")) as H. vm_compute in H. congruence.
    + pose proof (Hle (str "a")) as H. vm_compute in H. congruence.
  - intros i j Hi Hj. set_unfold in Hi. set_unfold in Hj.
    destruct Hi as [->|[->|[->|[]]]], Hj as [->|[->|[->|[]]]]; try (by left); first [right; left; left; cbn; lia|right; right; left; cbn; lia].
Qed.

Definition west : t := new (str "w") LastWriteWins.
Definition east : t := new (str "e") LastWriteWins.
Lemma geo_lww_converges_witness : exists b c1 c2, newest b [z; x; y] /\
  local_meta (deliver west [ch z; ch x; ch y]) f = Some (set_clock b c1) /\
  local_meta (deliver east [ch y; ch y; ch x; ch z]) f = Some (set_clock b c2).
Proof.
  apply (geo_lww_converges f U west east [ch z; ch x; ch y] [ch y; ch y; ch x; ch z] versions_xyz).
  - intros c Hc. set_unfold in Hc. unfold U. destruct Hc as [->|[->|[->|[]]]]; cbn; set_solver.
  - intros i. cbn. set_solver.
  - reflexivity.
  - reflexivity.
  - reflexivity.
  - reflexivity.
  - discriminate.
Defined.

Lemma geo_clock_lattice_witness :
  le ca (VectorClock.merge ca cb) /\ VectorClock.compare ca cb = CConcurrent.
Proof.
  split; [|vm_compute; reflexivity].
  apply (geo_clock_lattice ca cb (proj1 clocks_ok) (proj1 (proj2 clocks_ok))).
Defined.

Lemma west_ok : geo_ok west.
Proof. split; apply map_Forall_empty. Qed.
Lemma geo_apply_idempotent_witness : let s1 := (apply_remote_change west (ch x)).1 in
  ledger s1 !! f = Some x /\ ledger (apply_remote_change s1 (ch x)).1 = ledger s1.
Proof.
  split; [vm_compute; reflexivity|]. apply (geo_apply_idempotent west west_ok). apply clocks_ok.
Defined.

(** ** What the clocks do not ensure *)

Definition write (s : t) (h now : Z) : t * ReplicationChange := record_local_mutation s f 1 [h] None now.
Definition held (s : t) : option Hash := hash <$> (ledger s !! f).

(** A lost update. A region that takes over a remote version forgets its own counter, so its next
    write carries a clock below what the other region has seen, and is dropped there for good. *)
Theorem lost_update :
  let '(a1, _) := write (new (str "a") LastWriteWins) 1 1 in
  let '(a2, w2) := write a1 2 2 in
  let '(b1, v1) := write (new (str "b") LastWriteWins) 5 5 in
  let a3 := (apply_remote_change a2 v1).1 in
  let b2 := (apply_remote_change b1 w2).1 in
  let '(a4, w4) := write a3 9 9 in
  let '(b3, r) := apply_remote_change b2 w4 in
  r = mkResolution KeepLocal false /\ held a4 = Some [9] /\ held b3 = Some [5].
Proof. vm_compute. done. Qed.

(** A file that is deleted and created again starts from an empty clock: where the deletion has
    arrived, the new file is taken for an old version. *)
Theorem recreated_file_ignored :
  let '(a1, _) := write (new (str "a") LastWriteWins) 1 1 in
  let '(a2, del) := record_local_deletion [] a1 f 2 in
  let '(a3, w) := write a2 3 3 in
  match del with
  | Some d =>
      let b1 := (apply_remote_change (new (str "b") LastWriteWins) d).1 in
      let '(b2, r) := apply_remote_change b1 w in
      action r = KeepLocal /\ held a3 = Some [3] /\ held b2 = None
  | None => False
  end.
Proof. vm_compute. done. Qed.

(** With a primary region, two other regions that conflict keep a version each. *)
Theorem primary_diverges :
  let pol := PrimaryAuthority (str "p") in
  let '(a1, w) := write (new (str "a") pol) 1 1 in
  let '(b1, v) := write (new (str "b") pol) 2 2 in
  held (apply_remote_change a1 v).1 = Some [1] /\ held (apply_remote_change b1 w).1 = Some [2].
Proof. vm_compute. done. Qed.

(** A full queue drops the change; the caller gets a sequence number all the same. *)
Theorem full_queue_drops (q : GeoReplicationQueue.t) r m pl :
  GeoReplicationQueue.max_queue_depth q <= GeoReplicationQueue.pending_count q r ->
  (GeoReplicationQueue.enqueue q [r] m pl).2 = GeoReplicationQueue.next_seq q /\
  default [] (GeoReplicationQueue.outbound (GeoReplicationQueue.enqueue q [r] m pl).1 !! r) =
    default [] (GeoReplicationQueue.outbound q !! r).
Proof.
  intros H. split; [done|]. cbn. unfold GeoReplicationQueue.push_region, GeoReplicationQueue.pending_count in *.
  rewrite lookup_insert_eq. cbn. by rewrite (proj2 (Z.ltb_ge _ _)) by done.
Qed.
End GeoExamples.
