(* ===== verification/Pmtu.v ===== *)
(** * Path MTU discovery, transport/pmtu.rs

    [PmtuCoordinator], its search over candidate sizes and its fallback on a black hole, and the
    keepalive state of [NatTraversalCoordinator], with time in seconds as an argument. The texts of
    the diagnostics report are left out. *)

From S2P Require Import Prelude.

Definition BASE_PLPMTU : Z := 1200.
Definition JUMBO_FRAME_MTU : Z := 9000.
Definition DEFAULT_PMTU_CANDIDATES : list Z := [1200; 1280; 1420; 1500; 2048; 4096; 9000].

Inductive PmtuState := Base | Searching | SearchComplete | BlackholeRecovery.
#[global] Instance PmtuState_eq_dec : EqDecision PmtuState.
Proof. solve_decision. Defined.

Record PmtuConfig := mkPmtuConfig {
  base_mtu : Z; max_mtu : Z; max_probe_attempts : Z; blackhole_loss_threshold : Z; candidates : list Z }.

Definition default_config : PmtuConfig :=
  mkPmtuConfig BASE_PLPMTU JUMBO_FRAME_MTU 3 4 DEFAULT_PMTU_CANDIDATES.

Module Pmtu.
Record t := mk {
  config : PmtuConfig;
  state : PmtuState;
  current_mtu : Z;
  candidate_idx : Z;
  current_probe_attempts : Z;
  consecutive_data_losses : Z;
  probes_sent : Z;
  probes_acked : Z;
  probes_lost : Z;
  blackhole_events : Z }.

Definition new (c : PmtuConfig) : t := mk c Base (base_mtu c) 1 0 0 0 0 0 0.

Definition set_state (s : t) (st : PmtuState) : t :=
  mk (config s) st (current_mtu s) (candidate_idx s) (current_probe_attempts s) (consecutive_data_losses s)
    (probes_sent s) (probes_acked s) (probes_lost s) (blackhole_events s).

(** [candidates[idx]], when [idx] is inside. *)
Definition candidate (s : t) (idx : Z) : option Z := candidates (config s) !! Z.to_nat idx.

Definition next_probe_size (s : t) : t * option Z :=
  if decide (state s = SearchComplete) then (s, None)
  else
    match candidate s (candidate_idx s) with
    | None => (set_state s SearchComplete, None)
    | Some target =>
        if max_mtu (config s) <? target then (set_state s SearchComplete, None)
        else
          (mk (config s) Searching (current_mtu s) (candidate_idx s) (wrap 32 (current_probe_attempts s + 1))
             (consecutive_data_losses s) (wrap 64 (probes_sent s + 1)) (probes_acked s) (probes_lost s)
             (blackhole_events s), Some target)
    end.

Definition on_probe_ack (s : t) (probed_size : Z) : t :=
  if current_mtu s <? probed_size then
    let idx := candidate_idx s + 1 in
    let st := match candidate s idx with
              | None => SearchComplete
              | Some c => if max_mtu (config s) <? c then SearchComplete else Searching
              end in
    mk (config s) st probed_size idx 0 0 (probes_sent s) (wrap 64 (probes_acked s + 1)) (probes_lost s)
      (blackhole_events s)
  else s.

Definition on_probe_loss (s : t) (probed_size : Z) : t :=
  let lost := wrap 64 (probes_lost s + 1) in
  if max_probe_attempts (config s) <=? current_probe_attempts s then
    mk (config s) SearchComplete (current_mtu s) (candidate_idx s) 0 (consecutive_data_losses s)
      (probes_sent s) (probes_acked s) lost (blackhole_events s)
  else
    mk (config s) Searching (current_mtu s) (candidate_idx s) (current_probe_attempts s)
      (consecutive_data_losses s) (probes_sent s) (probes_acked s) lost (blackhole_events s).

Definition on_data_ack (s : t) : t :=
  mk (config s) (if decide (state s = BlackholeRecovery) then Searching else state s) (current_mtu s)
    (candidate_idx s) (current_probe_attempts s) 0 (probes_sent s) (probes_acked s) (probes_lost s)
    (blackhole_events s).

Definition on_data_loss (s : t) : t * bool :=
  let losses := wrap 32 (consecutive_data_losses s + 1) in
  if (base_mtu (config s) <? current_mtu s) && (blackhole_loss_threshold (config s) <=? losses) then
    (mk (config s) BlackholeRecovery (base_mtu (config s)) 1 0 0 (probes_sent s) (probes_acked s)
       (probes_lost s) (wrap 64 (blackhole_events s + 1)), true)
  else
    (mk (config s) (state s) (current_mtu s) (candidate_idx s) (current_probe_attempts s) losses
       (probes_sent s) (probes_acked s) (probes_lost s) (blackhole_events s), false).
End Pmtu.

(** ** Keepalives *)

Inductive NatBindingStatus := Direct | Natted | RebindingDetected.
#[global] Instance NatBindingStatus_eq_dec : EqDecision NatBindingStatus.
Proof. solve_decision. Defined.

Module Nat_.
Record t := mk {
  base_keepalive : Z; min_keepalive : Z; max_keepalive : Z; current_keepalive : Z; last_activity : Z;
  binding_status : NatBindingStatus; rebinding_events : Z }.

Definition new (base_keepalive now : Z) : t := mk base_keepalive 5 30 base_keepalive now Direct 0.
Definition on_packet_activity (s : t) (now : Z) : t :=
  mk (base_keepalive s) (min_keepalive s) (max_keepalive s) (current_keepalive s) now (binding_status s) (rebinding_events s).
Definition on_rebind_detected (s : t) : t :=
  mk (base_keepalive s) (min_keepalive s) (max_keepalive s)
    (Z.max (saturating_sub (current_keepalive s) 5) (min_keepalive s)) (last_activity s)
    RebindingDetected (wrap 64 (rebinding_events s + 1)).
Definition mark_natted (s : t) : t :=
  mk (base_keepalive s) (min_keepalive s) (max_keepalive s) (current_keepalive s) (last_activity s)
    (if decide (binding_status s = RebindingDetected) then RebindingDetected else Natted) (rebinding_events s).
Definition should_send_keepalive (s : t) (now : Z) : bool := current_keepalive s <=? saturating_sub now (last_activity s).
End Nat_.

(** ** The search *)

Module PmtuSearch.
Import Pmtu.

(** One probe on a path that delivers packets up to [p] bytes: it is acknowledged or lost. *)
Definition probe (p : Z) (s : t) : t :=
  match next_probe_size s with
  | (s, Some size) => if size <=? p then on_probe_ack s size else on_probe_loss s size
  | (s, None) => s
  end.

(** Candidates ascend from the base; every size is positive and below [2^16]. *)
Record config_ok (c : PmtuConfig) : Prop := {
  co_first : candidates c !! 0%nat = Some (base_mtu c);
  co_up : forall i j a b, candidates c !! i = Some a -> candidates c !! j = Some b -> (i < j)%nat -> a < b;
  co_attempts : 1 <= max_probe_attempts c < 2 ^ 32 }.

(** The largest candidate the path and the configuration allow. *)
Definition optimal (c : PmtuConfig) (p v : Z) : Prop :=
  v ∈ candidates c /\ (v = base_mtu c \/ (v <= p /\ v <= max_mtu c)) /\
  forall x, x ∈ candidates c -> x <= p -> x <= max_mtu c -> x <= v.

Section search.
Context (c : PmtuConfig) (p : Z) (Hc : config_ok c).

Definition found (s : t) : Prop := state s = SearchComplete /\ optimal c p (current_mtu s).

(** Probing candidate [j] after [a] losses: the one before it is confirmed. *)
Definition at_candidate (j a : Z) (s : t) : Prop :=
  config s = c /\ state s <> SearchComplete /\ 1 <= j <= zlen (candidates c) /\ candidate_idx s = j /\
  candidates c !! Z.to_nat (j - 1) = Some (current_mtu s) /\
  (current_mtu s = base_mtu c \/ (current_mtu s <= p /\ current_mtu s <= max_mtu c)) /\
  current_probe_attempts s = a /\ 0 <= a < max_probe_attempts c.

(** The confirmed candidate is optimal when the next one is too large. *)
Lemma optimal_here j a s : at_candidate j a s ->
  (forall x, candidates c !! Z.to_nat j = Some x -> p < x \/ max_mtu c < x) -> optimal c p (current_mtu s).
Proof.
  intros (_ & _ & Hj & _ & Hcur & Hb & _) Hnext. split; [by eapply list_elem_of_lookup_2|]. split; [done|].
  intros x [i Hi]%list_elem_of_lookup Hp Hm. destruct (decide (i <= Z.to_nat (j - 1)))%nat as [Hle|Hgt].
  - destruct (decide (i = Z.to_nat (j - 1))) as [->|]; [assert (x = current_mtu s) as -> by congruence; lia|].
    pose proof (co_up c Hc _ _ _ _ Hi Hcur). lia.
  - destruct (lookup_lt_is_Some_2 (candidates c) (Z.to_nat j)) as [y Hy].
    { pose proof (lookup_lt_Some _ _ _ Hi). lia. }
    destruct (decide (i = Z.to_nat j)) as [->|]; [assert (x = y) as -> by congruence|pose proof (co_up c Hc _ _ _ _ Hy Hi)];
      destruct (Hnext y Hy); lia.
Qed.

(** A round ends the search or moves on. *)
Lemma probe_step j a s : at_candidate j a s ->
  found (probe p s) \/ at_candidate (j + 1) 0 (probe p s) \/ at_candidate j (a + 1) (probe p s).
Proof.
  intros Hat. pose proof Hat as (Hcfg & Hst & Hj & Hidx & Hcur & Hb & Ha & Hr). pose proof (co_attempts c Hc) as Hm.
  unfold probe, next_probe_size, candidate. rewrite decide_False, Hcfg, Hidx by done.
  destruct (candidates c !! Z.to_nat j) as [target|] eqn:Ht.
  2: { left. split; [done|]. apply (optimal_here j a s Hat). by rewrite Ht. }
  destruct (Z.ltb_spec (max_mtu c) target) as [Hbig|Hsm].
  { left. split; [done|]. apply (optimal_here j a s Hat). rewrite Ht. intros x [= <-]. by right. }
  assert (current_mtu s < target) as Hup by (apply (co_up c Hc _ _ _ _ Hcur Ht); lia).
  destruct (Z.leb_spec target p) as [Hp|Hp].
  - unfold on_probe_ack, candidate. cbn. rewrite (proj2 (Z.ltb_lt _ _)) by done.
    pose proof (lookup_lt_Some _ _ _ Ht) as Hlen.
    assert (forall s', config s' = c -> state s' = Searching -> candidate_idx s' = j + 1 -> current_mtu s' = target ->
      current_probe_attempts s' = 0 -> at_candidate (j + 1) 0 s') as Hnext.
    { intros s' E1 E2 E3 E4 E5. unfold at_candidate. rewrite E1, E2, E3, E4, E5. replace (j + 1 - 1) with j by lia.
      unfold zlen. split_and!; try done; try lia. }
    assert (forall x, candidates c !! Z.to_nat (j + 1) = Some x -> target < x) as Hab.
    { intros x Hx. apply (co_up c Hc _ _ _ _ Ht Hx). lia. }
    assert (forall x, (candidates c !! Z.to_nat (j + 1) = None \/ max_mtu c < x /\ candidates c !! Z.to_nat (j + 1) = Some x) ->
      optimal c p target) as Hopt.
    { intros x Hx. set (s' := mk c Searching target (j + 1) 0 0 0 0 0 0).
      apply (optimal_here (j + 1) 0 s'); [by apply Hnext|]. intros y Hy. destruct Hx as [Hx|[? Hx]]; [congruence|right; congruence]. }
    destruct (candidates c !! Z.to_nat (j + 1)) as [x|] eqn:Hx; [|left; split; [done|by apply (Hopt 0); left]].
    destruct (Z.ltb_spec (max_mtu c) x); [left; split; [done|by apply (Hopt x); right]|right; left; by apply Hnext].
  - unfold on_probe_loss. cbn. rewrite Ha, wrap_small by (unfold fits; lia).
    destruct (Z.leb_spec (max_probe_attempts c) (a + 1)).
    + left. split; [done|]. apply (optimal_here j a s Hat). rewrite Ht. intros x [= <-]. by left.
    + right. right. unfold at_candidate. cbn. split_and!; done || lia.
Qed.

Lemma found_stays s : found s -> probe p s = s.
Proof. intros [Hs _]. unfold probe, next_probe_size. by rewrite decide_True. Qed.

Lemma probes_found n s : found s -> found (Nat.iter n (probe p) s).
Proof. intros Hs. induction n as [|n IH]; [done|]. cbn. by rewrite found_stays. Qed.

Lemma search_ends n j a s : at_candidate j a s ->
  (zlen (candidates c) - j + 1) * max_probe_attempts c - a <= Z.of_nat n -> found (Nat.iter n (probe p) s).
Proof.
  revert j a s. induction n as [|n IH]; intros j a s Hat Hn.
  { exfalso. destruct Hat as (_ & _ & Hj & _ & _ & _ & _ & Ha). nia. }
  rewrite Nat.iter_succ_r. destruct (probe_step j a s Hat) as [Hf|[Hn'|Hn']].
  - by apply probes_found.
  - apply (IH _ _ _ Hn'). destruct Hat as (_ & _ & Hj & _ & _ & _ & _ & Ha). nia.
  - apply (IH _ _ _ Hn'). lia.
Qed.
End search.

(** The search ends with the right size. On a path that delivers packets up to some size, probing
    from a new coordinator reaches [SearchComplete] after at most attempts times candidates probes, and
    the MTU it ends with is the largest candidate within the path and the configured maximum, or
    the base if there is none. *)
Theorem pmtu_search_correct c p n : config_ok c -> zlen (candidates c) * max_probe_attempts c <= Z.of_nat n ->
  let s := Nat.iter n (probe p) (new c) in state s = SearchComplete /\ optimal c p (current_mtu s).
Proof.
  intros Hc Hn. pose proof (co_attempts c Hc). pose proof (lookup_lt_Some _ _ _ (co_first c Hc)) as Hl.
  apply (search_ends c p Hc n 1 0); [|lia]. unfold at_candidate. cbn. unfold zlen.
  split_and!; try done; try lia; first [apply (co_first c Hc)|by left].
Qed.

Abbreviation lose := (fun s => (on_data_loss s).1).

(** At the base, losses change nothing but their count. *)
Lemma base_stays n s : current_mtu s = base_mtu (config s) ->
  current_mtu (Nat.iter n lose s) = base_mtu (config s) /\ blackhole_events (Nat.iter n lose s) = blackhole_events s.
Proof.
  revert s. induction n as [|n IH]; intros s Hs; [done|]. rewrite Nat.iter_succ_r.
  assert (on_data_loss s = (mk (config s) (state s) (current_mtu s) (candidate_idx s) (current_probe_attempts s)
    (wrap 32 (consecutive_data_losses s + 1)) (probes_sent s) (probes_acked s) (probes_lost s) (blackhole_events s), false)) as ->.
  { unfold on_data_loss. by rewrite (proj2 (Z.ltb_ge _ _)) by lia. }
  by apply (IH (mk _ _ _ _ _ _ _ _ _ _)).
Qed.

Lemma losses_fall_back n s : 0 <= consecutive_data_losses s -> consecutive_data_losses s + Z.of_nat n < 2 ^ 32 ->
  blackhole_loss_threshold (config s) <= consecutive_data_losses s + Z.of_nat n -> (1 <= n)%nat ->
  base_mtu (config s) < current_mtu s ->
  current_mtu (Nat.iter n lose s) = base_mtu (config s) /\
  blackhole_events (Nat.iter n lose s) = wrap 64 (blackhole_events s + 1).
Proof.
  revert s. induction n as [|n IH]; intros s H0 Hlt Hth Hn Hup; [lia|]. rewrite Nat.iter_succ_r.
  unfold on_data_loss at 2 4. rewrite (proj2 (Z.ltb_lt _ _)), wrap_small by (unfold fits; lia). cbn [andb].
  destruct (Z.leb_spec (blackhole_loss_threshold (config s)) (consecutive_data_losses s + 1)); cbn [fst].
  - by apply (base_stays n (mk _ _ _ _ _ _ _ _ _ _)).
  - apply (IH (mk _ _ _ _ _ _ _ _ _ _)); cbn; lia.
Qed.

(** Black holes. After as many data losses in a row as the threshold, from any state and without an
    acknowledgement in between, the MTU is the base; and the event is counted when it was above. *)
Theorem pmtu_blackhole s n : 0 <= consecutive_data_losses s -> consecutive_data_losses s + Z.of_nat n < 2 ^ 32 ->
  1 <= blackhole_loss_threshold (config s) <= Z.of_nat n -> base_mtu (config s) <= current_mtu s ->
  let s' := Nat.iter n (fun s => (on_data_loss s).1) s in
  current_mtu s' = base_mtu (config s) /\
  (base_mtu (config s) < current_mtu s -> blackhole_events s' = wrap 64 (blackhole_events s + 1)).
Proof.
  intros H0 Hlt Hth Hb. destruct (decide (current_mtu s = base_mtu (config s))) as [He|Hne].
  - split; [by apply base_stays|lia].
  - destruct (losses_fall_back n s) as [H1 H2]; [lia..|]. done.
Qed.
End PmtuSearch.

Module PmtuExamples.
Import Pmtu PmtuSearch.

Lemma default_ok : config_ok default_config.
Proof.
  split; [reflexivity| |cbn; lia]. intros i j a b Hi Hj Hij.
  assert (forallb (fun j => forallb (fun i => default 0 (DEFAULT_PMTU_CANDIDATES !! i) <? default 0 (DEFAULT_PMTU_CANDIDATES !! j))
    (seq 0 j)) (seq 0 7) = true) as H by (vm_compute; reflexivity).
  pose proof (lookup_lt_Some _ _ _ Hj) as Hl. change (j < 7)%nat in Hl.
  rewrite forallb_forall in H. specialize (H j ltac:(apply in_seq; lia)).
  rewrite forallb_forall in H. specialize (H i ltac:(apply in_seq; lia)). cbn in Hi, Hj. rewrite Hi, Hj in H. by apply Z.ltb_lt.
Qed.

Lemma pmtu_search_correct_witness : let s := Nat.iter 21 (probe 1450) (new default_config) in
  (state s = SearchComplete /\ optimal default_config 1450 (current_mtu s)) /\ current_mtu s = 1420.
Proof.
  split; [|vm_compute; reflexivity]. apply (pmtu_search_correct default_config 1450 21 default_ok). vm_compute. congruence.
Defined.

Definition jumbo : t := Nat.iter 21 (probe 9000) (new default_config).
Lemma pmtu_blackhole_witness : current_mtu jumbo = 9000 /\
  current_mtu (Nat.iter 4 (fun s => (on_data_loss s).1) jumbo) = 1200.
Proof.
  split; [vm_compute; reflexivity|].
  apply (pmtu_blackhole jumbo 4); vm_compute; [congruence|reflexivity|split; congruence|congruence].
Defined.

(** The report of a lost probe that arrives after the search is complete opens it again. *)
Theorem late_loss_reopens : state jumbo = SearchComplete /\ state (on_probe_loss jumbo 9000) = Searching.
Proof. vm_compute. done. Qed.

(** An acknowledged size need not be the candidate under test: it advances the search all the same,
    and the MTU can exceed the configured maximum. *)
Theorem ack_unchecked : max_mtu default_config < current_mtu (on_probe_ack (new default_config) 20000).
Proof. vm_compute. reflexivity. Qed.

(** Keepalives tighten to five seconds at the least, and not further. *)
Theorem keepalive_floor b now : 5 <= b -> let s := Nat_.on_rebind_detected (Nat_.new b now) in
  5 <= Nat_.current_keepalive s <= b.
Proof. intros Hb. cbn. unfold saturating_sub. lia. Qed.
End PmtuExamples.
