(* ===== verification/BandwidthSchedule.v ===== *)
(** * Bandwidth schedules, scheduler/schedule.rs

    Days, time windows, rules and their evaluation at a point in time, with the civil time of a
    Unix timestamp. A rate is the number in [BandwidthRate]. Parsing and printing of schedules and
    the token bucket (floating point) are left out. *)

From S2P Require Import Prelude.

Inductive DayOfWeek := Monday | Tuesday | Wednesday | Thursday | Friday | Saturday | Sunday.
#[global] Instance DayOfWeek_eq_dec : EqDecision DayOfWeek.
Proof. solve_decision. Defined.

Module Day.
Definition number (d : DayOfWeek) : Z :=
  match d with
  | Monday => 1 | Tuesday => 2 | Wednesday => 3 | Thursday => 4 | Friday => 5 | Saturday => 6 | Sunday => 7
  end.
Definition from_u8 (v : Z) : option DayOfWeek :=
  if v =? 1 then Some Monday else if v =? 2 then Some Tuesday else if v =? 3 then Some Wednesday
  else if v =? 4 then Some Thursday else if v =? 5 then Some Friday else if v =? 6 then Some Saturday
  else if v =? 7 then Some Sunday else None.
Definition is_weekday (d : DayOfWeek) : bool :=
  match d with Monday | Tuesday | Wednesday | Thursday | Friday => true | _ => false end.
Definition is_weekend (d : DayOfWeek) : bool := match d with Saturday | Sunday => true | _ => false end.
Definition next (d : DayOfWeek) : DayOfWeek :=
  match d with
  | Monday => Tuesday | Tuesday => Wednesday | Wednesday => Thursday | Thursday => Friday
  | Friday => Saturday | Saturday => Sunday | Sunday => Monday
  end.
End Day.

Inductive DayMatcher := AllDays | Weekdays | Weekend | Range (from to : DayOfWeek) | List_ (days : list DayOfWeek).

Definition day_matches (m : DayMatcher) (day : DayOfWeek) : bool :=
  match m with
  | AllDays => true
  | Weekdays => Day.is_weekday day
  | Weekend => Day.is_weekend day
  | Range from to =>
      let start := Day.number from in
      let end_ := Day.number to in
      let target := Day.number day in
      if start <=? end_ then (start <=? target) && (target <=? end_)
      else (start <=? target) || (target <=? end_)
  | List_ days => existsb (fun d => bool_decide (d = day)) days
  end.

Inductive ParseScheduleError := StartTooLarge (start : Z) | EndTooLarge (end_ : Z) | EmptyWindow | BadTime.

Module TimeWindow.
Record t := mk { start_minute : Z; end_minute : Z }.

Definition new (start_minute end_minute : Z) : outcome ParseScheduleError t :=
  if 1440 <=? start_minute then Err (StartTooLarge start_minute)
  else if 1440 <=? end_minute then Err (EndTooLarge end_minute)
  else if start_minute =? end_minute then Err EmptyWindow
  else Ok (mk start_minute end_minute).

Definition from_hm (sh sm eh em : Z) : outcome ParseScheduleError t :=
  if (24 <=? sh) || (24 <=? eh) || (60 <=? sm) || (60 <=? em) then Err BadTime
  else new (sh * 60 + sm) (eh * 60 + em).

Definition spans_midnight (w : t) : bool := end_minute w <? start_minute w.

Definition contains (w : t) (minute_of_day : Z) : bool :=
  if start_minute w <? end_minute w then (start_minute w <=? minute_of_day) && (minute_of_day <? end_minute w)
  else (start_minute w <=? minute_of_day) || (minute_of_day <? end_minute w).

Definition minutes_until_boundary (w : t) (minute_of_day : Z) : Z :=
  let target := if contains w minute_of_day then end_minute w else start_minute w in
  if minute_of_day <=? target then target - minute_of_day else (1440 - minute_of_day) + target.
End TimeWindow.

Record BandwidthScheduleRule := mkRule {
  r_id : bytes; r_days : DayMatcher; r_time : option TimeWindow.t; r_rate : Z; r_description : bytes }.

Definition rule_matches (r : BandwidthScheduleRule) (day : DayOfWeek) (minute_of_day : Z) : bool :=
  if negb (day_matches (r_days r) day) then false
  else match r_time r with Some w => TimeWindow.contains w minute_of_day | None => true end.

Record ActiveScheduleStatus := mkStatus {
  active_rate : Z; matching_rule_id : option bytes; matching_rule_desc : option bytes; is_default : bool;
  day : DayOfWeek; hour : Z; minute : Z; seconds_until_transition : Z }.

(** [as i64] of a sixty-four-bit value, and [i64] arithmetic of a release build. *)
Definition to_i64 (v : Z) : Z := wrap 64 (v + 2 ^ 63) - 2 ^ 63.

(** Local day, hour, minute and second; [rem_euclid] and [div_euclid] of a positive divisor. *)
Definition civil_time_from_timestamp (timestamp_secs utc_offset_minutes : Z) : DayOfWeek * Z * Z * Z :=
  let offset_secs := utc_offset_minutes * 60 in
  let local_secs := to_i64 (to_i64 timestamp_secs + offset_secs) in
  let seconds_in_day := local_secs mod 86400 in
  let hour := seconds_in_day / 3600 in
  let minute := (seconds_in_day mod 3600) / 60 in
  let second := seconds_in_day mod 60 in
  let days_since_epoch := local_secs / 86400 in
  let weekday_num := (days_since_epoch + 3) mod 7 + 1 in
  (default Thursday (Day.from_u8 weekday_num), hour, minute, second).

Module Schedule.
Record t := mk { rules : list BandwidthScheduleRule; default_rate : Z; utc_offset_minutes : Z }.

Definition new (default_rate : Z) : t := mk [] default_rate 0.
Definition add_rule (s : t) (r : BandwidthScheduleRule) : t := mk (rules s ++ [r]) (default_rate s) (utc_offset_minutes s).
Definition with_utc_offset (s : t) (minutes : Z) : t :=
  mk (rules s) (default_rate s) (Z.min (Z.max minutes (-720)) 840).

Definition first_match (s : t) (d : DayOfWeek) (minute_of_day : Z) : option BandwidthScheduleRule :=
  List.find (fun r => rule_matches r d minute_of_day) (rules s).

Definition rate_for (s : t) (d : DayOfWeek) (minute_of_day : Z) : Z :=
  match first_match s d minute_of_day with Some r => r_rate r | None => default_rate s end.

(** The rate at a time, through its civil time, as both loops compute it. *)
Definition rate_at (s : t) (secs : Z) : Z :=
  let '(d, h, m, _) := civil_time_from_timestamp secs (utc_offset_minutes s) in
  rate_for s d (h * 60 + m).

(** [for step in ..]: the first round, counted from [step], at which the rate differs. *)
Fixpoint scan (s : t) (n : nat) (step check_secs stride current_rate : Z) : option Z :=
  match n with
  | O => None
  | S n =>
      if negb (rate_at s check_secs =? current_rate) then Some step
      else scan s n (step + 1) (wrap 64 (check_secs + stride)) stride current_rate
  end.

Definition calculate_seconds_to_next_transition (s : t) (now_secs current_rate current_second : Z) : Z :=
  match rules s with
  | [] => 86400 * 7
  | _ =>
      let seconds_to_next_minute := Z.max (saturating_sub 60 current_second) 1 in
      let check_secs := wrap 64 (now_secs + seconds_to_next_minute) in
      match scan s 1440 1 check_secs 60 current_rate with
      | Some step => (step - 1) * 60 + seconds_to_next_minute
      | None =>
          match scan s (6 * 24 * 4) 1 (wrap 64 (check_secs + 1440 * 60)) 900 current_rate with
          | Some step => 86400 + (step - 1) * 900
          | None => 86400 * 7
          end
      end
  end.

Definition resolve_at (s : t) (timestamp_secs : Z) : ActiveScheduleStatus :=
  let '(d, h, m, second) := civil_time_from_timestamp timestamp_secs (utc_offset_minutes s) in
  let minute_of_day := h * 60 + m in
  let matched := first_match s d minute_of_day in
  let rate := match matched with Some r => r_rate r | None => default_rate s end in
  mkStatus rate (r_id <$> matched)
    (match matched with
     | Some r => if bool_decide (r_description r = []) then None else Some (r_description r)
     | None => None
     end)
    (match matched with Some _ => false | None => true end) d h m
    (calculate_seconds_to_next_transition s timestamp_secs rate second).
End Schedule.

(** ** Civil time *)

(** The local minute a time is in, counted from the epoch; everything depends on it alone. *)
Definition local_minute (t off : Z) : Z := (t + off * 60) / 60.
(** Times and offsets for which nothing overflows: the next hundred billion years, and every [i32]. *)
Definition time_ok (t : Z) : Prop := 0 <= t < 2 ^ 62.
Definition offset_ok (off : Z) : Prop := - 2 ^ 31 <= off < 2 ^ 31.
Definition weekday_of (q : Z) : DayOfWeek := default Thursday (Day.from_u8 ((q / 1440 + 3) mod 7 + 1)).

Lemma local_secs_eq t off : time_ok t -> offset_ok off -> to_i64 (to_i64 t + off * 60) = t + off * 60.
Proof.
  intros Ht Ho. unfold time_ok, offset_ok in *. assert (forall v, - 2 ^ 63 <= v < 2 ^ 63 -> to_i64 v = v) as Hi.
  { intros v Hv. unfold to_i64. rewrite wrap_small by (unfold fits; lia). lia. }
  rewrite (Hi t), Hi by lia. done.
Qed.

Lemma civil_minute t off : time_ok t -> offset_ok off -> let '(d, h, m, s) := civil_time_from_timestamp t off in
  d = weekday_of (local_minute t off) /\ h * 60 + m = local_minute t off mod 1440 /\
  0 <= h < 24 /\ 0 <= m < 60 /\ s = t mod 60.
Proof.
  intros Ht0 Ho. unfold civil_time_from_timestamp, weekday_of, local_minute. rewrite local_secs_eq by done. clear Ht0 Ho. set (l := t + off * 60).
  assert (l / 86400 = l / 60 / 1440) as -> by (rewrite Z.div_div by lia; done).
  split; [done|]. assert (t = l - off * 60) as Ht by lia. clearbody l. subst t. Z.to_euclidean_division_equations. lia.
Qed.

(** A day later it is the next day of the week, at the same time. *)
Lemma civil_next_day t off : time_ok t -> time_ok (t + 86400) -> offset_ok off -> let '(d, h, m, s) := civil_time_from_timestamp t off in
  civil_time_from_timestamp (t + 86400) off = (Day.next d, h, m, s).
Proof.
  intros Ht Ht' Ho. unfold civil_time_from_timestamp. rewrite !local_secs_eq by done. replace (t + 86400 + off * 60) with (t + off * 60 + 1 * 86400) by lia.
  rewrite Z_mod_plus_full, Z.div_add by lia. repeat f_equal. set (d := (t + off * 60) / 86400).
  replace (d + 1 + 3) with (d + 3 + 1) by lia. pose proof (Z.mod_pos_bound (d + 3) 7 ltac:(lia)) as Hb.
  rewrite <- (Zplus_mod_idemp_l (d + 3) 1 7). set (w := (d + 3) mod 7) in *. clearbody w.
  assert (w = 0 \/ w = 1 \/ w = 2 \/ w = 3 \/ w = 4 \/ w = 5 \/ w = 6) as Hw by lia.
  by destruct Hw as [-> |[-> |[-> |[-> |[-> |[-> | ->]]]]]].
Qed.

(** ** Windows *)

Definition window_ok (w : TimeWindow.t) : Prop :=
  0 <= TimeWindow.start_minute w < 1440 /\ 0 <= TimeWindow.end_minute w < 1440 /\
  TimeWindow.start_minute w <> TimeWindow.end_minute w.

(** The next boundary: the window is in the same state until then, and in the other one then. *)
Lemma boundary_correct w m : window_ok w -> 0 <= m < 1440 ->
  let d := TimeWindow.minutes_until_boundary w m in
  0 < d <= 1440 /\
  TimeWindow.contains w ((m + d) mod 1440) = negb (TimeWindow.contains w m) /\
  forall i, 0 <= i < d -> TimeWindow.contains w ((m + i) mod 1440) = TimeWindow.contains w m.
Proof.
  intros (Hs & He & Hne) Hm. unfold TimeWindow.minutes_until_boundary, TimeWindow.contains.
  set (s := TimeWindow.start_minute w) in *. set (e := TimeWindow.end_minute w) in *.
  assert (forall x, 0 <= x < 2880 -> x mod 1440 = if x <? 1440 then x else x - 1440) as Hmod.
  { intros x Hx. destruct (Z.ltb_spec x 1440); [by apply Z.mod_small; lia|].
    symmetry. apply (Z.mod_unique x 1440 1); lia. }
  destruct (Z.ltb_spec s e), (Z.leb_spec s m), (Z.ltb_spec m e); cbn [andb orb negb]; try lia;
    (destruct (Z.leb_spec m e) || idtac); (destruct (Z.leb_spec m s) || idtac); try lia;
    (split; [lia|]); (split; [rewrite Hmod by lia; repeat case_match; lia|]);
    intros i Hi; rewrite Hmod by lia; repeat case_match; lia.
Qed.

(** ** Transitions *)

Section transition.
Import Schedule.
Context (s : t) (Hoff : offset_ok (utc_offset_minutes s)).

Lemma rate_minute t1 t2 : time_ok t1 -> time_ok t2 -> local_minute t1 (utc_offset_minutes s) = local_minute t2 (utc_offset_minutes s) ->
  rate_at s t1 = rate_at s t2.
Proof.
  intros Ht1 Ht2 H. unfold rate_at. pose proof (civil_minute t1 _ Ht1 Hoff) as H1. pose proof (civil_minute t2 _ Ht2 Hoff) as H2.
  destruct (civil_time_from_timestamp t1 _) as [[[d1 h1] m1] s1], (civil_time_from_timestamp t2 _) as [[[d2 h2] m2] s2].
  destruct H1 as (-> & -> & _), H2 as (-> & -> & _). by rewrite H.
Qed.

Lemma rate_scan_spec n step c stride cur : 0 <= c -> 0 <= stride -> c + Z.of_nat n * stride < 2 ^ 62 ->
  match scan s n step c stride cur with
  | Some k => step <= k < step + Z.of_nat n /\ rate_at s (c + (k - step) * stride) <> cur /\
      forall j, 0 <= j < k - step -> rate_at s (c + j * stride) = cur
  | None => forall j, 0 <= j < Z.of_nat n -> rate_at s (c + j * stride) = cur
  end.
Proof.
  revert step c. induction n as [|n IH]; intros step c Hc0 Hst Hlim; cbn [scan]; [lia|].
  assert (0 <= Z.of_nat n * stride) as Hpos by (apply Z.mul_nonneg_nonneg; lia).
  rewrite (wrap_small 64 (c + stride)) by (unfold fits; lia).
  destruct (Z.eqb_spec (rate_at s c) cur) as [He|Hne]; cbn [negb].
  - assert (forall j, c + stride + (j - 1) * stride = c + j * stride) as Hc by lia.
    assert (forall hi, (forall j, 0 <= j < hi - 1 -> rate_at s (c + stride + j * stride) = cur) ->
      forall j, 0 <= j < hi -> rate_at s (c + j * stride) = cur) as Hshift.
    { intros hi H j Hj. destruct (decide (j = 0)) as [->|]; [by replace (c + 0 * stride) with c by lia|].
      rewrite <- Hc. apply H. lia. }
    specialize (IH (step + 1) (c + stride) ltac:(lia) Hst ltac:(lia)). destruct (scan s n _ _ _ _) as [k|].
    + destruct IH as (Hk & Hr & Hb). split; [lia|]. split.
      * rewrite <- Hc. by replace (k - step - 1) with (k - (step + 1)) by lia.
      * apply Hshift. intros j Hj. apply Hb. lia.
    + apply Hshift. intros j Hj. apply IH. lia.
  - split; [lia|]. replace (c + (step - step) * stride) with c by lia. split; [done|lia].
Qed.

(** From one minute boundary to the next the rate is that of the boundary. *)
Lemma rate_from_boundary c j u : time_ok (c + j * 60) -> time_ok (c + j * 60 + u) -> c mod 60 = 0 -> 0 <= u < 60 -> rate_at s (c + j * 60 + u) = rate_at s (c + j * 60).
Proof.
  intros H1 H2 Hc Hu. apply rate_minute; [done..|]. clear H1 H2. unfold local_minute. set (o := utc_offset_minutes s).
  Z.to_euclidean_division_equations. lia.
Qed.

Lemma rate_this_minute now x : time_ok now -> time_ok (now + x) -> 0 <= x < 60 - now mod 60 -> rate_at s (now + x) = rate_at s now.
Proof.
  intros H1 H2 Hx. apply rate_minute; [done..|]. clear H1 H2. unfold local_minute. set (o := utc_offset_minutes s).
  Z.to_euclidean_division_equations. lia.
Qed.

(** The rate until [n] minutes after the next boundary, from the rates at those boundaries. *)
Lemma rate_until now n : 0 <= now < 2 ^ 61 -> n <= 1440 -> let next := 60 - now mod 60 in
  (forall j, 0 <= j < n -> rate_at s (now + next + j * 60) = rate_at s now) ->
  forall x, 0 <= x < next + n * 60 -> rate_at s (now + x) = rate_at s now.
Proof.
  intros Hnow Hn next H x Hx. pose proof (Z.mod_pos_bound now 60 ltac:(lia)). assert (0 < next <= 60) by (unfold next; lia).
  destruct (decide (x < next)); [apply rate_this_minute; unfold next, time_ok in *; lia|].
  pose proof (Z.mod_pos_bound (x - next) 60 ltac:(lia)). pose proof (Z.div_mod (x - next) 60 ltac:(lia)).
  replace (now + x) with (now + next + (x - next) / 60 * 60 + (x - next) mod 60) by lia.
  rewrite rate_from_boundary; [apply H; split; [apply Z.div_pos; lia|apply Z.div_lt_upper_bound; lia]|unfold time_ok; lia..| |done].
  unfold next. Z.to_euclidean_division_equations. lia.
Qed.

Lemma transition_spec now : 0 <= now < 2 ^ 61 -> let cur := rate_at s now in
  let r := calculate_seconds_to_next_transition s now cur (now mod 60) in
  0 < r <= 604800 /\ (forall x, 0 <= x < Z.min r 86400 -> rate_at s (now + x) = cur) /\
  (r < 86400 -> rate_at s (now + r) <> cur).
Proof.
  intros Hnow. cbv zeta. unfold calculate_seconds_to_next_transition. destruct (rules s) as [|rule rs] eqn:Hr.
  { split; [lia|]. split; [|lia]. intros x _. unfold rate_at, rate_for, first_match. rewrite Hr.
    by destruct (civil_time_from_timestamp (now + x) _) as [[[? ?] ?] ?], (civil_time_from_timestamp now _) as [[[? ?] ?] ?]. }
  pose proof (Z.mod_pos_bound now 60 ltac:(lia)).
  replace (Z.max (saturating_sub 60 (now mod 60)) 1) with (60 - now mod 60) by (unfold saturating_sub; lia).
  rewrite (wrap_small 64 (now + (60 - now mod 60))) by (unfold fits; lia).
  pose proof (rate_scan_spec 1440 1 (now + (60 - now mod 60)) 60 (rate_at s now) ltac:(lia) ltac:(lia) ltac:(lia)) as H1.
  destruct (scan s 1440 1 _ _ _) as [k|].
  - destruct H1 as (Hk & Hne & Hb). split; [lia|]. split.
    + intros x Hx. apply (rate_until now (k - 1)); [done|lia|done|lia].
    + intros _. by replace (now + ((k - 1) * 60 + (60 - now mod 60))) with (now + (60 - now mod 60) + (k - 1) * 60) by lia.
  - assert (forall x, 0 <= x < 86400 -> rate_at s (now + x) = rate_at s now) as Hday.
    { intros x Hx. apply (rate_until now 1440); [done|lia|done|lia]. }
    rewrite (wrap_small 64 (now + (60 - now mod 60) + 1440 * 60)) by (unfold fits; lia).
    pose proof (rate_scan_spec (6 * 24 * 4) 1 (now + (60 - now mod 60) + 1440 * 60) 900 (rate_at s now)
      ltac:(lia) ltac:(lia) ltac:(lia)) as H2.
    destruct (scan s (6 * 24 * 4) 1 _ _ _) as [k|].
    + destruct H2 as (Hk & _). split; [lia|]. split; [intros x Hx; apply Hday; lia|lia].
    + split; [lia|]. split; [intros x Hx; apply Hday; lia|lia].
Qed.
End transition.

(** The reported transition. At any time at which sixty-four bits do not overflow, the status has the rate of the first rule that matches the
    civil time, or the default; until the reported number of seconds, as far as that is within a
    day, the rate stays the same; and a transition reported within the day is one: at that second the
    rate is another. *)
Theorem schedule_transition s now : 0 <= now < 2 ^ 61 -> offset_ok (Schedule.utc_offset_minutes s) ->
  let st := Schedule.resolve_at s now in
  active_rate st = Schedule.rate_at s now /\ 0 < seconds_until_transition st <= 604800 /\
  (forall x, 0 <= x < Z.min (seconds_until_transition st) 86400 -> Schedule.rate_at s (now + x) = active_rate st) /\
  (seconds_until_transition st < 86400 ->
    Schedule.rate_at s (now + seconds_until_transition st) <> active_rate st).
Proof.
  intros Hnow Hoff. unfold Schedule.resolve_at.
  pose proof (civil_minute now _ ltac:(unfold time_ok; lia) Hoff) as Hc.
  pose proof (transition_spec s Hoff now Hnow) as Ht. cbv zeta in Ht.
  destruct (civil_time_from_timestamp now _) as [[[d h] m] sec] eqn:E. destruct Hc as (_ & _ & _ & _ & ->).
  assert (Schedule.rate_at s now = match Schedule.first_match s d (h * 60 + m) with
    Some r => r_rate r | None => Schedule.default_rate s end) as Hrate by (unfold Schedule.rate_at; by rewrite E).
  rewrite Hrate in Ht. done.
Qed.

Module ScheduleExamples.
Import Schedule.
Definition rule (d : DayMatcher) (w : option TimeWindow.t) (rate : Z) : BandwidthScheduleRule := mkRule [] d w rate [].
(** Monday 5 January 1970, 00:00. *)
Definition monday : Z := 4 * 86400.
Definition work : Schedule.t := add_rule (new 0) (rule Weekdays (Some (TimeWindow.mk 540 1020)) 100).

(** Monday 08:59:30: the rate changes in thirty seconds. *)
Example opens : resolve_at work (monday + 8 * 3600 + 59 * 60 + 30) =
  mkStatus 0 None None true Monday 8 59 30.
Proof. vm_compute. reflexivity. Qed.

Lemma schedule_transition_witness : seconds_until_transition (resolve_at work (monday + 32370)) = 30 /\
  rate_at work (monday + 32370 + 30) <> 0.
Proof.
  split; [vm_compute; reflexivity|].
  destruct (schedule_transition work (monday + 32370)) as (_ & _ & _ & H); [done..|].
  assert (seconds_until_transition (resolve_at work (monday + 32370)) = 30) as E by (vm_compute; reflexivity).
  rewrite E in H. exact (H eq_refl).
Defined.

(** An overnight window is tested with the day it is, not the day it began: a rule for Friday 22:00
    to 06:00 is not in force on Saturday at 02:00, and is on Friday at 02:00. *)
Theorem overnight_wrong_day :
  let s := add_rule (new 0) (rule (List_ [Friday]) (Some (TimeWindow.mk 1320 360)) 100) in
  rate_at s (monday + 5 * 86400 + 7200) = 0 /\ rate_at s (monday + 4 * 86400 + 7200) = 100.
Proof. vm_compute. done. Qed.

(** Beyond a day the transition is looked for in steps of fifteen minutes that start at the next
    minute, and reported without it: on Saturday at 09:10 the opening on Monday at 09:00 is reported
    for Monday 09:10, ten minutes late. *)
Theorem late_transition :
  let now := monday + 5 * 86400 + 9 * 3600 + 10 * 60 in
  let st := resolve_at work now in
  rate_at work (monday + 7 * 86400 + 9 * 3600) <> active_rate st /\
  monday + 7 * 86400 + 9 * 3600 < now + seconds_until_transition st.
Proof. vm_compute. split; [discriminate|reflexivity]. Qed.

(** A change that lasts less than fifteen minutes can be missed altogether. *)
Theorem missed_transition :
  let s := add_rule (new 0) (rule (List_ [Wednesday]) (Some (TimeWindow.mk 542 550)) 100) in
  seconds_until_transition (resolve_at s monday) = 604800 /\ rate_at s (monday + 2 * 86400 + 9 * 3600 + 5 * 60) = 100.
Proof. vm_compute. done. Qed.
End ScheduleExamples.
