(* ===== verification/Xattr.v ===== *)
(** * Extended attributes and access control lists, storage/xattr.rs

    Attribute names and ACLs are translated between Linux and macOS: [CanonicalAcl] is read from and
    written to the binary POSIX form, the POSIX text and the Darwin text, and [XattrTransmuter]
    maps names and values under a policy. The sidecar codec of storage/mod.rs is here too. The
    operating system the program was built for, [PlatformOs::current], is an argument. *)

From S2P Require Import Prelude Utf8 Protocol Varint Wire Paths ManifestEntry.
Import Str.

(** ** Standard library text functions *)

(** [str::lines]: pieces that end with a newline lose it and a carriage return before it; an empty
    last piece is not a line. *)
Definition strip_cr (s : bytes) : bytes :=
  match reverse s with 13 :: r => reverse r | _ => s end.
Definition lines (s : bytes) : list bytes :=
  match reverse (split_on 10 s) with
  | [] => []
  | last :: front => (strip_cr <$> reverse front) ++ (if bool_decide (last = []) then [] else [last])
  end.

(** [str::parse::<u32>]: an optional plus sign, then at least one digit, below 2^32. *)
Fixpoint parse_digits (acc : Z) (s : bytes) : option Z :=
  match s with
  | [] => Some acc
  | b :: s' =>
      if Utf8.in_range 48 57 b then
        let acc' := acc * 10 + (b - 48) in
        if acc' <? 2 ^ 32 then parse_digits acc' s' else None
      else None
  end.
Definition parse_u32 (s : bytes) : option Z :=
  let digits := match s with 43 :: d => d | _ => s end in
  match digits with [] => None | _ => parse_digits 0 digits end.

(** [Vec<&str>::join] with a separator of one byte. *)
Fixpoint join_with (sep : Z) (cs : list bytes) : bytes :=
  match cs with
  | [] => []
  | [c] => c
  | c :: cs' => c ++ sep :: join_with sep cs'
  end.
Definition join_comma : list bytes -> bytes := join_with 44.

Definition eqs (s : bytes) (t : string) : bool := bool_decide (s = lit t).
Definition is_one_of (s : bytes) (ts : list string) : bool := existsb (eqs s) ts.

Definition strip_prefix (p s : bytes) : option bytes :=
  if starts_with p s then Some (drop (length p) s) else None.

(** ** Policies *)

Inductive PlatformOs := Linux | MacOS | Windows | UnknownOs.
Inductive XattrPolicy := XTransmute | XStrict | XSidecar | XStrip.
Inductive AclPolicy := ATransmute | AStrict | ASidecar | AStrip.
#[global] Instance PlatformOs_eq_dec : EqDecision PlatformOs.
Proof. solve_decision. Defined.
#[global] Instance XattrPolicy_eq_dec : EqDecision XattrPolicy.
Proof. solve_decision. Defined.
#[global] Instance AclPolicy_eq_dec : EqDecision AclPolicy.
Proof. solve_decision. Defined.

(** ** Entries *)

Inductive AcePrincipal :=
  | Owner | GroupOwner
  | NamedUser (uid : Z) (name : option bytes)
  | NamedGroup (gid : Z) (name : option bytes)
  | Mask | Other | Everyone.
Inductive AceType := Allow | Deny.
Record AcePermissions := mkPerms {
  p_read : bool; p_write : bool; p_execute : bool; p_append : bool; p_delete : bool; p_read_attr : bool;
  p_write_attr : bool; p_read_xattr : bool; p_write_xattr : bool; p_read_security : bool;
  p_write_security : bool; p_chown : bool }.
Record AceFlags := mkFlags { default_entry : bool; file_inherit : bool; directory_inherit : bool; inherited : bool }.
Record CanonicalAce := mkAce {
  principal : AcePrincipal; ace_type : AceType; permissions : AcePermissions; ace_flags : AceFlags }.

Definition id_string (p : AcePrincipal) : bytes :=
  match p with
  | Owner => lit "owner"
  | GroupOwner => lit "group_owner"
  | NamedUser id name | NamedGroup id name => default (Utf8.decimal id) name
  | Mask => lit "mask"
  | Other => lit "other"
  | Everyone => lit "everyone"
  end.

Definition from_posix_mode (r w x : bool) : AcePermissions := mkPerms r w x w w r w r w r w false.

Definition to_posix_mode (p : AcePermissions) : bool * bool * bool :=
  (p_read p || p_read_attr p || p_read_xattr p,
   p_write p || p_append p || p_delete p || p_write_attr p || p_write_xattr p,
   p_execute p).

Definition from_posix_str (s : bytes) : outcome VelcruxError AcePermissions :=
  let s := trim s in
  if negb (zlen s =? 3)
  then Err (EProtocol (Malformed "posix acl permission must be 3 characters (e.g. rwx, r-x)"))
  else
    let? r := index s 0 in
    let? w := index s 1 in
    let? x := index s 2 in
    Ok (from_posix_mode (r =? 114) (w =? 119) (x =? 120)).

Definition to_posix_str (p : AcePermissions) : bytes :=
  let '(r, w, x) := to_posix_mode p in
  [if r then 114 else 45; if w then 119 else 45; if x then 120 else 45].

Definition no_perms : AcePermissions := mkPerms false false false false false false false false false false false false.

(** One name of the Darwin permission list. *)
Definition add_darwin (p : AcePermissions) (part : bytes) : AcePermissions :=
  let '(mkPerms rd wr ex ap dl ra wa rx wx rs ws ch) := p in
  let s := to_ascii_lowercase (trim part) in
  if is_one_of s ["read"; "read_data"; "list_directory"] then mkPerms true wr ex ap dl ra wa rx wx rs ws ch
  else if is_one_of s ["write"; "write_data"; "add_file"] then mkPerms rd true ex ap dl ra wa rx wx rs ws ch
  else if is_one_of s ["execute"; "execute_file"; "search_directory"] then mkPerms rd wr true ap dl ra wa rx wx rs ws ch
  else if is_one_of s ["append"; "append_data"; "add_subdirectory"] then mkPerms rd wr ex true dl ra wa rx wx rs ws ch
  else if is_one_of s ["delete"; "delete_child"] then mkPerms rd wr ex ap true ra wa rx wx rs ws ch
  else if is_one_of s ["readattr"; "read_attributes"] then mkPerms rd wr ex ap dl true wa rx wx rs ws ch
  else if is_one_of s ["writeattr"; "write_attributes"] then mkPerms rd wr ex ap dl ra true rx wx rs ws ch
  else if is_one_of s ["readextattr"; "read_xattr"] then mkPerms rd wr ex ap dl ra wa true wx rs ws ch
  else if is_one_of s ["writeextattr"; "write_xattr"] then mkPerms rd wr ex ap dl ra wa rx true rs ws ch
  else if is_one_of s ["readsecurity"; "read_acl"] then mkPerms rd wr ex ap dl ra wa rx wx true ws ch
  else if is_one_of s ["writesecurity"; "write_acl"] then mkPerms rd wr ex ap dl ra wa rx wx rs true ch
  else if is_one_of s ["chown"; "change_owner"] then mkPerms rd wr ex ap dl ra wa rx wx rs ws true
  else p.
Definition from_darwin_str (s : bytes) : AcePermissions := foldl add_darwin no_perms (split_on 44 s).

Definition to_darwin_str (p : AcePermissions) : bytes :=
  let add (b : bool) (name : string) := if b then [lit name] else [] in
  let list :=
    add (p_read p) "read" ++ add (p_write p) "write" ++ add (p_execute p) "execute" ++
    add (p_append p && negb (p_write p)) "append" ++ add (p_delete p) "delete" ++
    add (p_read_attr p) "readattr" ++ add (p_write_attr p) "writeattr" ++
    add (p_read_xattr p) "readextattr" ++ add (p_write_xattr p) "writeextattr" ++
    add (p_read_security p) "readsecurity" ++ add (p_write_security p) "writesecurity" ++
    add (p_chown p) "chown" in
  match list with [] => lit "read" | _ => join_comma list end.

(** ** Lists *)
Module CanonicalAcl.
Abbreviation t := (list CanonicalAce).

(** Fields of a line of an ACL text, trimmed. *)
Definition part (parts : list bytes) (i : nat) : bytes := trim (default [] (parts !! i)).

(** [qual.parse::<u32>()], or the text itself as a name, with the id 0. *)
Definition named (mk : Z -> option bytes -> AcePrincipal) (qual : bytes) : AcePrincipal :=
  match parse_u32 qual with Some id => mk id None | None => mk 0 (Some qual) end.

(** The principal of a POSIX line; [None] skips the line. *)
Definition posix_principal (tag qual : bytes) : option AcePrincipal :=
  if is_one_of tag ["user"; "u"] then
    Some (if bool_decide (qual = []) then Owner else named NamedUser qual)
  else if is_one_of tag ["group"; "g"] then
    Some (if bool_decide (qual = []) then GroupOwner else named NamedGroup qual)
  else if is_one_of tag ["mask"; "m"] then Some Mask
  else if is_one_of tag ["other"; "o"] then Some Other
  else None.

Definition from_posix_acl_text (text : bytes) (is_default : bool) : outcome VelcruxError t :=
  for_each (lines text) (fun line acl =>
    let line := trim line in
    if bool_decide (line = []) || starts_with [35] line then Ok acl
    else
      let '(is_def, line_content) :=
        match strip_prefix (lit "default:") line with Some s => (true, s) | None => (is_default, line) end in
      let parts := split_on COLON line_content in
      if zlen parts <? 3 then Ok acl
      else
        let? perms := from_posix_str (part parts 2) in
        match posix_principal (part parts 0) (part parts 1) with
        | None => Ok acl
        | Some p => Ok (acl ++ [mkAce p Allow perms (mkFlags is_def is_def is_def false)])
        end) [].

Definition posix_line (only_default : bool) (ace : CanonicalAce) : bytes :=
  let prefix := if only_default then lit "default:" else [] in
  let perm := to_posix_str (permissions ace) in
  match principal ace with
  | Owner => prefix ++ lit "user::" ++ perm ++ [10]
  | GroupOwner => prefix ++ lit "group::" ++ perm ++ [10]
  | NamedUser uid name => prefix ++ lit "user:" ++ default (Utf8.decimal uid) name ++ [COLON] ++ perm ++ [10]
  | NamedGroup gid name => prefix ++ lit "group:" ++ default (Utf8.decimal gid) name ++ [COLON] ++ perm ++ [10]
  | Mask => prefix ++ lit "mask::" ++ perm ++ [10]
  | Other | Everyone => prefix ++ lit "other::" ++ perm ++ [10]
  end.
Definition to_posix_acl_text (acl : t) (only_default : bool) : bytes :=
  mjoin (posix_line only_default <$> filter (fun ace => default_entry (ace_flags ace) = only_default) acl).

Definition darwin_principal (tag qual : bytes) : AcePrincipal :=
  if eqs tag "user" then
    match parse_u32 qual with
    | Some uid => NamedUser uid None
    | None => if eqs qual "owner" then Owner else NamedUser 0 (Some qual)
    end
  else if eqs tag "group" then
    match parse_u32 qual with
    | Some gid => NamedGroup gid None
    | None => if eqs qual "group_owner" then GroupOwner else NamedGroup 0 (Some qual)
    end
  else if eqs tag "everyone" then Everyone
  else if eqs tag "mask" then Mask
  else Other.

Definition darwin_ace (parts : list bytes) : CanonicalAce :=
  let flags_str := part parts 4 in
  mkAce (darwin_principal (to_ascii_lowercase (part parts 0)) (part parts 1))
    (if eqs (to_ascii_lowercase (part parts 2)) "deny" then Deny else Allow)
    (from_darwin_str (part parts 3))
    (mkFlags (contains (lit "directory_inherit") flags_str) (contains (lit "file_inherit") flags_str)
       (contains (lit "directory_inherit") flags_str) (contains (lit "inherited") flags_str)).

(** It never fails; [Ok] of the source is left out. *)
Definition from_darwin_acl_text (text : bytes) : t :=
  foldl (fun acl line =>
    let line := trim line in
    if bool_decide (line = []) || starts_with [35] line then acl
    else
      let parts := split_on COLON line in
      if zlen parts <? 4 then acl else acl ++ [darwin_ace parts]) [] (lines text).

Definition darwin_line (ace : CanonicalAce) : bytes :=
  let '(tag, qual) :=
    match principal ace with
    | Owner => (lit "user", lit "owner")
    | GroupOwner => (lit "group", lit "group_owner")
    | NamedUser uid name => (lit "user", default (Utf8.decimal uid) name)
    | NamedGroup gid name => (lit "group", default (Utf8.decimal gid) name)
    | Mask => (lit "mask", lit "mask")
    | Other => (lit "user", lit "other")
    | Everyone => (lit "everyone", [])
    end in
  let act := match ace_type ace with Allow => lit "allow" | Deny => lit "deny" end in
  let perm := to_darwin_str (permissions ace) in
  let f := ace_flags ace in
  let flags := (if file_inherit f then [lit "file_inherit"] else []) ++
    (if directory_inherit f then [lit "directory_inherit"] else []) ++
    (if inherited f then [lit "inherited"] else []) in
  let line := tag ++ COLON :: qual ++ COLON :: act ++ COLON :: perm in
  match flags with [] => line ++ [10] | _ => line ++ COLON :: join_comma flags ++ [10] end.
Definition to_darwin_acl_text (acl : t) : bytes := mjoin (darwin_line <$> acl).

(** *** The binary POSIX form *)

Definition POSIX_ACL_XATTR_VERSION : Z := 0x0002.
Definition ACL_USER_OBJ : Z := 0x01.
Definition ACL_USER : Z := 0x02.
Definition ACL_GROUP_OBJ : Z := 0x04.
Definition ACL_GROUP : Z := 0x08.
Definition ACL_MASK : Z := 0x10.
Definition ACL_OTHER : Z := 0x20.
Definition ACL_READ : Z := 0x04.
Definition ACL_WRITE : Z := 0x02.
Definition ACL_EXECUTE : Z := 0x01.
Definition ACL_UNDEFINED_ID : Z := 0xFFFFFFFF.

Definition binary_principal (tag id : Z) : option AcePrincipal :=
  if tag =? ACL_USER_OBJ then Some Owner
  else if tag =? ACL_USER then Some (NamedUser id None)
  else if tag =? ACL_GROUP_OBJ then Some GroupOwner
  else if tag =? ACL_GROUP then Some (NamedGroup id None)
  else if tag =? ACL_MASK then Some Mask
  else if tag =? ACL_OTHER then Some Other
  else None.

Definition posix_flags (is_default : bool) : AceFlags := mkFlags is_default is_default is_default false.

(** [while offset + 8 <= bytes.len()]. *)
Fixpoint binary_loop (fuel : nat) (bytes : bytes) (is_default : bool) (offset : Z) (acl : t)
  : outcome VelcruxError t :=
  match fuel with
  | O => Panic
  | S fuel =>
      if offset + 8 <=? zlen bytes then
        let? tag := read_le bytes offset 2 in
        let? perm := read_le bytes (offset + 2) 2 in
        let? id := read_le bytes (offset + 4) 4 in
        let offset := offset + 8 in
        let r := negb (Z.land perm ACL_READ =? 0) in
        let w := negb (Z.land perm ACL_WRITE =? 0) in
        let x := negb (Z.land perm ACL_EXECUTE =? 0) in
        match binary_principal tag id with
        | None => binary_loop fuel bytes is_default offset acl
        | Some p =>
            binary_loop fuel bytes is_default offset
              (acl ++ [mkAce p Allow (from_posix_mode r w x) (posix_flags is_default)])
        end
      else Ok acl
  end.

Definition from_posix_acl_binary (bytes : bytes) (is_default : bool) : outcome VelcruxError t :=
  if zlen bytes <? 4 then Err (EProtocol (Malformed "truncated posix acl binary header"))
  else
    let? version := read_le bytes 0 4 in
    if negb (version =? POSIX_ACL_XATTR_VERSION)
    then Err (EProtocol (Malformed "unsupported posix acl binary version"))
    else binary_loop (S (length bytes)) bytes is_default 4 [].

Definition binary_ace (ace : CanonicalAce) : bytes :=
  let '(tag, id) :=
    match principal ace with
    | Owner => (ACL_USER_OBJ, ACL_UNDEFINED_ID)
    | NamedUser uid _ => (ACL_USER, uid)
    | GroupOwner => (ACL_GROUP_OBJ, ACL_UNDEFINED_ID)
    | NamedGroup gid _ => (ACL_GROUP, gid)
    | Mask => (ACL_MASK, ACL_UNDEFINED_ID)
    | Other | Everyone => (ACL_OTHER, ACL_UNDEFINED_ID)
    end in
  let '(r, w, x) := to_posix_mode (permissions ace) in
  let perm := 0 in
  let perm := if r then Z.lor perm ACL_READ else perm in
  let perm := if w then Z.lor perm ACL_WRITE else perm in
  let perm := if x then Z.lor perm ACL_EXECUTE else perm in
  to_le 2 tag ++ to_le 2 perm ++ to_le 4 id.
Definition to_posix_acl_binary (acl : t) : bytes :=
  to_le 4 POSIX_ACL_XATTR_VERSION ++ mjoin (binary_ace <$> acl).
End CanonicalAcl.

(** ** The transmuter *)
Module Transmuter.

Record t := mk {
  source_os : PlatformOs; target_os : PlatformOs; xattr_policy : XattrPolicy; acl_policy : AclPolicy;
  is_admin : bool }.

Definition new (source_os target_os : PlatformOs) : t := mk source_os target_os XTransmute ATransmute false.
Definition with_xattr_policy (s : t) (p : XattrPolicy) : t :=
  mk (source_os s) (target_os s) p (acl_policy s) (is_admin s).
Definition with_acl_policy (s : t) (p : AclPolicy) : t :=
  mk (source_os s) (target_os s) (xattr_policy s) p (is_admin s).
Definition with_admin (s : t) (b : bool) : t :=
  mk (source_os s) (target_os s) (xattr_policy s) (acl_policy s) b.

Definition is_privileged (name : bytes) : bool :=
  starts_with (lit "security.") name || starts_with (lit "trusted.") name || starts_with (lit "system.") name.

Definition posix_acl_name (name : bytes) : bool :=
  eqs name "system.posix_acl_access" || eqs name "system.posix_acl_default".

Definition transmute_name (s : t) (name : bytes) : option bytes :=
  if decide (xattr_policy s = XStrip) then None
  else if decide (xattr_policy s = XStrict) then
    if negb (is_admin s) && is_privileged name then None else Some name
  else if bool_decide (source_os s = target_os s) && bool_decide (source_os s <> UnknownOs) then
    if negb (is_admin s) && is_privileged name then None else Some name
  else
    match target_os s with
    | MacOS =>
        if posix_acl_name name then
          if decide (acl_policy s = AStrip) then None else Some (lit "com.apple.acl.text")
        else
          match strip_prefix (lit "user.") name with
          | Some unprefixed => Some unprefixed
          | None => if is_privileged name then if is_admin s then Some name else None else Some name
          end
    | Linux =>
        if eqs name "com.apple.acl.text" then
          if decide (acl_policy s = AStrip) then None
          else if is_admin s then Some (lit "system.posix_acl_access") else Some (lit "user.posix_acl_access")
        else if starts_with (lit "user.") name then Some name
        else if is_privileged name then if is_admin s then Some name else None
        else Some (lit "user." ++ name)
    | _ => if negb (is_admin s) && is_privileged name then None else Some name
    end.

(** [from_posix_acl_binary(..).or_else(text).unwrap_or_default()]. *)
Definition decode_posix (value : bytes) (is_default : bool) : pure CanonicalAcl.t :=
  match CanonicalAcl.from_posix_acl_binary value is_default with
  | Ok acl => Ok acl
  | Panic => Panic
  | Err _ =>
      match Utf8.from_utf8 value with
      | None => Ok []
      | Some s =>
          match CanonicalAcl.from_posix_acl_text s is_default with
          | Ok acl => Ok acl
          | Err _ => Ok []
          | Panic => Panic
          end
      end
  end.

(** The general case at the end of [transmute_entry]. *)
Definition rename (s : t) (name value : bytes) : option (bytes * bytes) :=
  new_name ← transmute_name s name; Some (new_name, value).

Definition transmute_entry (s : t) (name value : bytes) : pure (option (bytes * bytes)) :=
  if decide (xattr_policy s = XStrip) then Ok None
  else if negb (is_admin s) && is_privileged name then Ok None
  else if posix_acl_name name && bool_decide (target_os s = MacOS) then
    match acl_policy s with
    | AStrip => Ok None
    | ATransmute =>
        let is_default := ends_with (lit "default") name in
        let? acl := decode_posix value is_default in
        Ok (Some (lit "com.apple.acl.text", CanonicalAcl.to_darwin_acl_text acl))
    | _ => Ok (rename s name value)
    end
  else if eqs name "com.apple.acl.text" && bool_decide (target_os s = Linux) then
    match acl_policy s with
    | AStrip => Ok None
    | ATransmute =>
        match Utf8.from_utf8 value with
        | Some text =>
            let target_name := if is_admin s then lit "system.posix_acl_access" else lit "user.posix_acl_access" in
            Ok (Some (target_name, CanonicalAcl.to_posix_acl_binary (CanonicalAcl.from_darwin_acl_text text)))
        | None => Ok (rename s name value)
        end
    | _ => Ok (rename s name value)
    end
  else Ok (rename s name value).

Definition transmute_entries (s : t) (entries : list (bytes * bytes)) : pure (list (bytes * bytes)) :=
  for_each entries (fun '(name, val) out =>
    let? r := transmute_entry s name val in
    Ok (out ++ option_list r)) [].
End Transmuter.

(** ** Sidecar files, storage/mod.rs *)
Module Sidecar.

Fixpoint encode_loop (xattrs : list (bytes * bytes)) (out : bytes) : presult bytes :=
  match xattrs with
  | [] => Ok out
  | (name, val) :: rest =>
      let? v := Varint.put_varint (zlen name) in
      let out := out ++ v ++ name in
      let? v := Varint.put_varint (zlen val) in
      let out := out ++ v ++ val in
      encode_loop rest out
  end.
Definition encode_xattrs_canonical (xattrs : list (bytes * bytes)) : presult bytes :=
  let? v := Varint.put_varint (zlen xattrs) in
  encode_loop xattrs v.

(** [Vec::with_capacity] panics when the bytes (48 for a name and a value) exceed [isize::MAX]. *)
Definition with_capacity (count : Z) : presult unit := if 2 ^ 63 <=? count * 48 then Panic else Ok tt.

(** One length-prefixed string; all errors are protocol errors. [usize] additions wrap. *)
Definition decode_str (buf : bytes) (offset : Z) (truncated : string) : presult (bytes * Z) :=
  let? rest := slice_from buf offset in
  let? '(len, c) := Varint.decode_varint rest in
  let offset := offset + c in
  let end_ := wrap 64 (offset + len) in
  if zlen buf <? end_ then Err (Malformed truncated) else
  let? s := slice buf offset end_ in
  Ok (s, end_).

Fixpoint decode_loop (count : nat) (buf : bytes) (offset : Z) (acc : list (bytes * bytes))
  : presult (list (bytes * bytes)) :=
  match count with
  | O => Ok acc
  | S count =>
      let? '(raw, offset) := decode_str buf offset "truncated xattr sidecar name" in
      let? name := ok_or (Utf8.from_utf8 raw) (Malformed "xattr sidecar name not UTF-8") in
      let? '(val, offset) := decode_str buf offset "truncated xattr sidecar val" in
      decode_loop count buf offset (acc ++ [(name, val)])
  end.

Definition decode_xattrs_canonical (buf : bytes) : presult (list (bytes * bytes)) :=
  match buf with
  | [] => Ok []
  | _ =>
      let? '(count, c) := Varint.decode_varint buf in
      let? _ := with_capacity count in
      decode_loop (Z.to_nat count) buf c []
  end.
End Sidecar.

(** ** The binary form *)
Section binary.
Import CanonicalAcl.

(** The entries a POSIX ACL can have. *)
Definition principal_ok (p : AcePrincipal) : Prop :=
  match p with
  | Owner | GroupOwner | Mask | Other => True
  | NamedUser id None | NamedGroup id None => fits 32 id
  | _ => False
  end.
Definition posix_ace (d : bool) (a : CanonicalAce) : Prop :=
  exists p r w x, principal_ok p /\ a = mkAce p Allow (from_posix_mode r w x) (posix_flags d).

(** Tag, permission bits and id of an entry. *)
Definition tag_of (p : AcePrincipal) : Z :=
  match p with
  | Owner => ACL_USER_OBJ | NamedUser _ _ => ACL_USER | GroupOwner => ACL_GROUP_OBJ
  | NamedGroup _ _ => ACL_GROUP | Mask => ACL_MASK | Other | Everyone => ACL_OTHER
  end.
Definition id_of (p : AcePrincipal) : Z :=
  match p with NamedUser id _ | NamedGroup id _ => id | _ => ACL_UNDEFINED_ID end.
Definition perm_bits (r w x : bool) : Z := 4 * Z.b2z r + 2 * Z.b2z w + Z.b2z x.

Lemma posix_mode_id r w x : to_posix_mode (from_posix_mode r w x) = (r, w, x).
Proof. by destruct r, w, x. Qed.

Lemma binary_ace_eq a : binary_ace a =
  to_le 2 (tag_of (principal a)) ++
  (let '(r, w, x) := to_posix_mode (permissions a) in to_le 2 (perm_bits r w x)) ++ to_le 4 (id_of (principal a)).
Proof.
  unfold binary_ace. destruct (to_posix_mode _) as [[r w] x].
  by destruct (principal a), r, w, x.
Qed.

Lemma binary_ace_len a : zlen (binary_ace a) = 8.
Proof. rewrite binary_ace_eq. destruct (to_posix_mode _) as [[r w] x]. rewrite !zlen_app, !zlen_to_le. lia. Qed.

Lemma binary_principal_ok p : principal_ok p -> binary_principal (tag_of p) (id_of p) = Some p.
Proof. by destruct p as [| |id [name|]|id [name|]| | |]. Qed.

Lemma tag_fits p : fits 16 (tag_of p).
Proof. by destruct p. Qed.
Lemma id_fits p : principal_ok p -> fits 32 (id_of p).
Proof. by destruct p as [| |id [name|]|id [name|]| | |]. Qed.
Lemma perm_fits r w x : fits 16 (perm_bits r w x).
Proof. by destruct r, w, x. Qed.

Lemma binary_loop_aces d l pre acc fuel : Forall (posix_ace d) l -> (length l < fuel)%nat ->
  binary_loop fuel (pre ++ mjoin (binary_ace <$> l)) d (zlen pre) acc = Ok (acc ++ l).
Proof.
  intros Hl. revert pre acc fuel. induction Hl as [|a l Ha Hl IH]; intros pre acc [|fuel] Hf; cbn [length] in Hf; try lia.
  { cbn [fmap list_fmap mjoin list_join binary_loop]. rewrite !app_nil_r. by rewrite (proj2 (Z.leb_gt _ _)) by lia. }
  change (mjoin (binary_ace <$> a :: l)) with (binary_ace a ++ mjoin (binary_ace <$> l)). cbn [binary_loop].
  specialize (IH (pre ++ binary_ace a)).
  rewrite zlen_app, binary_ace_len, <- app_assoc in IH.
  rewrite (proj2 (Z.leb_le _ _)).
  2: { rewrite !zlen_app, binary_ace_len. pose proof (zlen_nonneg (mjoin (binary_ace <$> l))). lia. }
  destruct Ha as (p & r & w & x & Hp & ->). rewrite binary_ace_eq in *. cbn [principal permissions] in *.
  rewrite posix_mode_id in *. rewrite <- !app_assoc in *.
  rewrite !(read_le_skip pre) by lia. rewrite (read_le_here 2) by first [lia|apply tag_fits]. cbn [obind].
  rewrite !(read_le_skip (to_le 2 (tag_of p))) by (rewrite zlen_to_le; lia).
  rewrite (read_le_here 2) by first [rewrite zlen_to_le; lia|lia|apply perm_fits]. cbn [obind].
  rewrite !(read_le_skip (to_le 2 (perm_bits r w x))) by (rewrite !zlen_to_le; lia).
  rewrite (read_le_here 4) by first [rewrite !zlen_to_le; lia|lia|by apply id_fits]. cbn [obind].
  rewrite binary_principal_ok by done. rewrite IH by lia. rewrite <- app_assoc. do 4 f_equal.
  by destruct r, w, x.
Qed.

Lemma binary_loop_safe d buf offset acc fuel : is_bytes buf -> 0 <= offset -> (length buf - Z.to_nat offset < fuel)%nat ->
  Forall (posix_ace d) acc -> returns (binary_loop fuel buf d offset acc) (Forall (posix_ace d)).
Proof.
  intros Hb. revert offset acc. induction fuel as [|fuel IH]; intros offset acc Ho Hf Hacc; [lia|]. cbn [binary_loop].
  destruct (Z.leb_spec (offset + 8) (zlen buf)) as [Hle|]; [|done].
  assert (forall i n, 0 <= i -> 0 <= n -> i + n <= zlen buf -> exists v, @read_le VelcruxError buf i n = Ok v /\ fits (8 * n) v) as Hr.
  { intros i n Hi Hn Hl. apply wp_returns; [unfold read_le; auto with no_err|by apply wp_read_le]. }
  destruct (Hr offset 2) as (tag & -> & _); [lia..|]. destruct (Hr (offset + 2) 2) as (perm & -> & _); [lia..|].
  destruct (Hr (offset + 4) 4) as (id & -> & Hid); [lia..|]. cbn [obind]. unfold zlen in *.
  destruct (binary_principal tag id) as [p|] eqn:Hp; apply IH; try lia; try done.
  apply Forall_app. split; [done|]. constructor; [|done]. eexists p, _, _, _. split; [|reflexivity].
  unfold binary_principal in Hp. repeat case_match; simplify_eq; done.
Qed.

Lemma posix_binary_roundtrip d acl : Forall (posix_ace d) acl ->
  from_posix_acl_binary (to_posix_acl_binary acl) d = Ok acl.
Proof.
  intros Hacl. unfold from_posix_acl_binary, to_posix_acl_binary.
  assert (zlen (to_le 4 POSIX_ACL_XATTR_VERSION) = 4) as Hv by apply zlen_to_le.
  rewrite (proj2 (Z.ltb_ge _ _)) by (rewrite zlen_app, Hv; pose proof (zlen_nonneg (mjoin (binary_ace <$> acl))); lia).
  rewrite (read_le_here 4) by done. cbn [obind]. change (negb _) with false. cbn match.
  rewrite <- Hv. apply (binary_loop_aces d acl _ []); [done|]. rewrite length_app.
  assert (8 * length acl <= length (mjoin (binary_ace <$> acl)))%nat; [|lia].
  clear. induction acl as [|a l IH]; [done|]. change (mjoin (binary_ace <$> a :: l)) with (binary_ace a ++ mjoin (binary_ace <$> l)).
  rewrite length_app. pose proof (binary_ace_len a). unfold zlen in *. cbn [length]. lia.
Qed.

Lemma posix_binary_safe d buf : is_bytes buf -> wp (from_posix_acl_binary buf d) (Forall (posix_ace d)).
Proof.
  intros Hb. unfold from_posix_acl_binary. destruct (Z.ltb_spec (zlen buf) 4); [done|].
  eapply wp_bind_mono; [apply (wp_read_le _ _ _ (fun _ => True)); (done || lia)|]. intros v _. case_match; [done|].
  pose proof (binary_loop_safe d buf 4 [] (S (length buf)) Hb ltac:(lia) ltac:(lia) ltac:(constructor)) as H'.
  by destruct (binary_loop _ _ _ _ _).
Qed.
End binary.

(** ** Text *)

(** Printable ASCII without a space: nothing to trim, valid UTF-8. *)
Definition graphic (b : Z) : Prop := 33 <= b < 127.

Lemma trim_start_graphic b s : graphic b -> trim_start (b :: s) = b :: s.
Proof.
  intros Hb. unfold graphic in Hb. cbn [trim_start].
  assert (is_ws1 b = false) as -> by (unfold is_ws1, Utf8.in_range; lia).
  destruct s as [|c s]; [done|]. assert (is_ws2 b c = false) as -> by (unfold is_ws2; lia).
  destruct s as [|d s]; [done|]. assert (is_ws3 b c d = false) as -> by (unfold is_ws3, Utf8.in_range; lia). done.
Qed.
Lemma trim_rev_graphic b s : graphic b -> trim_rev (b :: s) = b :: s.
Proof.
  intros Hb. unfold graphic in Hb. cbn [trim_rev].
  assert (is_ws1 b = false) as -> by (unfold is_ws1, Utf8.in_range; lia).
  destruct s as [|c s]; [done|]. assert (is_ws2 c b = false) as -> by (unfold is_ws2, Utf8.in_range; lia).
  destruct s as [|d s]; [done|]. assert (is_ws3 d c b = false) as -> by (unfold is_ws3, Utf8.in_range; lia). done.
Qed.

Lemma trim_graphic s : Forall graphic s -> trim s = s.
Proof.
  intros H. unfold trim. destruct s as [|b s]; [done|]. rewrite trim_start_graphic by by inversion H.
  apply Forall_reverse in H. destruct (reverse (b :: s)) as [|c r] eqn:E; [by apply (f_equal length) in E; rewrite length_reverse in E|].
  rewrite trim_rev_graphic by by inversion H. by rewrite <- E, reverse_involutive.
Qed.

Lemma graphic_utf8 s : Forall (fun b => b = 10 \/ graphic b) s -> Utf8.from_utf8 s = Some s.
Proof.
  intros H. apply Utf8.from_utf8_ok. induction H as [|b s Hb _ IH]; [done|]. cbn [Utf8.utf8_valid].
  unfold graphic in Hb. assert (Utf8.in_range 0 127 b = true) as -> by (unfold Utf8.in_range; lia). done.
Qed.

Lemma lines_join ls : Forall (Forall graphic) ls -> lines (mjoin ((fun l => l ++ [10]) <$> ls)) = ls.
Proof.
  intros H. assert (split_on 10 (mjoin ((fun l => l ++ [10]) <$> ls)) = ls ++ [[]]) as E.
  { induction H as [|l ls Hl _ IH]; [done|].
    change (mjoin _) with ((l ++ [10]) ++ mjoin ((fun l => l ++ [10]) <$> ls)). rewrite <- app_assoc. unfold split_on in *.
    cbn [app]. rewrite split_app; [by rewrite IH| |done].
    eapply Forall_impl; [apply Hl|]. intros x Hx. unfold graphic in Hx. apply Z.eqb_neq. lia. }
  unfold lines. rewrite E, reverse_snoc, reverse_involutive. rewrite bool_decide_eq_true_2, app_nil_r by done.
  clear E. induction H as [|l ls Hl _ IH]; [done|]. cbn [fmap list_fmap]. f_equal; [|exact IH].
  unfold strip_cr. apply Forall_reverse in Hl. destruct Hl as [|b r Hb _]; [done|]. unfold graphic in Hb. 
  repeat case_match; try done; lia.
Qed.

Lemma split_join_with sep cs : cs <> [] -> Forall (fun c => sep ∉ c) cs -> split_on sep (join_with sep cs) = cs.
Proof.
  intros Hne H. unfold split_on. induction H as [|c cs Hc Hcs IH]; [done|].
  assert (Forall (fun x => (sep =? x) = false) c) as Hc'.
  { apply Forall_forall. intros x Hx. apply Z.eqb_neq. by intros ->. }
  destruct cs as [|d cs]; [by apply split_none|].
  change (join_with sep (c :: d :: cs)) with (c ++ sep :: join_with sep (d :: cs)).
  rewrite split_app by (done || apply Z.eqb_refl). by rewrite IH.
Qed.

(** Decimal numbers are read back. *)
Lemma parse_digit v c : 0 <= v -> 0 <= c < 10 -> v * 10 + c < 2 ^ 32 -> forall s,
  parse_digits v (Z.of_N (Ascii.N_of_ascii (pretty_N_char (Z.to_N c))) :: s) = parse_digits (v * 10 + c) s.
Proof.
  intros Hv Hc Hlt s. assert (Z.of_N (Ascii.N_of_ascii (pretty_N_char (Z.to_N c))) = 48 + c) as ->.
  { assert (c = 0 \/ c = 1 \/ c = 2 \/ c = 3 \/ c = 4 \/ c = 5 \/ c = 6 \/ c = 7 \/ c = 8 \/ c = 9) as H by lia.
    repeat destruct H as [->|H]; try done. by subst. }
  cbn [parse_digits]. assert (Utf8.in_range 48 57 (48 + c) = true) as -> by (unfold Utf8.in_range; lia).
  replace (v * 10 + (48 + c - 48)) with (v * 10 + c) by lia. by rewrite (proj2 (Z.ltb_lt _ _)).
Qed.

Lemma str_bytes_cons c s : Utf8.str_bytes (String c s) = Z.of_N (Ascii.N_of_ascii c) :: Utf8.str_bytes s.
Proof. done. Qed.

Lemma pretty_go_digits n x s : (Z.to_nat x < n)%nat -> 0 <= x -> exists d,
  Utf8.str_bytes (pretty_N_go (Z.to_N x) s) = d ++ Utf8.str_bytes s /\ (0 < x -> d <> []) /\
  Forall (fun b => 48 <= b <= 57) d /\
  (x < 2 ^ 32 -> forall r, parse_digits 0 (d ++ r) = parse_digits x r).
Proof.
  revert x s. induction n as [|n IH]; intros x s Hn Hx; [lia|].
  destruct (decide (x = 0)) as [->|Hne]; [exists []; by rewrite pretty_N_go_0|].
  rewrite pretty_N_go_step by lia.
  assert (Z.to_N x `div` 10 = Z.to_N (x / 10))%N as -> by (rewrite Z2N.inj_div by lia; done).
  assert (Z.to_N x `mod` 10 = Z.to_N (x mod 10))%N as -> by (rewrite Z2N.inj_mod by lia; done).
  pose proof (Z.mod_pos_bound x 10 ltac:(lia)). pose proof (Z.div_mod x 10 ltac:(lia)) as Hdm.
  pose proof (Z.div_pos x 10 ltac:(lia) ltac:(lia)).
  destruct (IH (x / 10) (String (pretty_N_char (Z.to_N (x mod 10))) s)) as (d & -> & _ & Hd & Hp); [lia|lia|].
  rewrite str_bytes_cons. set (c := Z.of_N (Ascii.N_of_ascii (pretty_N_char (Z.to_N (x mod 10))))).
  exists (d ++ [c]). rewrite <- app_assoc. split_and!; [done|by destruct d| |].
  - apply Forall_app. split; [done|]. constructor; [|done]. unfold c. revert H. generalize (x mod 10). intros m H.
    assert (m = 0 \/ m = 1 \/ m = 2 \/ m = 3 \/ m = 4 \/ m = 5 \/ m = 6 \/ m = 7 \/ m = 8 \/ m = 9) as Hm by lia.
    repeat destruct Hm as [->|Hm]; try (vm_compute; by split). subst. vm_compute. by split.
  - intros Hlt r. rewrite <- app_assoc. rewrite Hp by lia. cbn [app]. unfold c. rewrite parse_digit by lia. f_equal. lia.
Qed.

Lemma decimal_digits v : 0 <= v -> Forall (fun b => 48 <= b <= 57) (Utf8.decimal v) /\ Utf8.decimal v <> [].
Proof.
  intros Hv. unfold Utf8.decimal, pretty, pretty_N. case_decide as H0.
  { split; [|done]. by repeat constructor. }
  destruct (pretty_go_digits (S (Z.to_nat v)) v "" ltac:(lia) Hv) as (d & -> & Hne & Hd & _).
  change (Utf8.str_bytes "") with ([] : bytes). rewrite app_nil_r. split; [done|]. apply Hne. lia.
Qed.

Lemma parse_decimal v : fits 32 v -> parse_u32 (Utf8.decimal v) = Some v.
Proof.
  intros Hv. unfold fits in Hv. destruct (decimal_digits v) as [Hd Hne]; [lia|]. unfold parse_u32.
  destruct (Utf8.decimal v) as [|b l] eqn:E; [done|]. assert (b <> 43) as Hb by (inversion Hd; lia).
  assert (parse_digits 0 (b :: l) = Some v) as Hp.
  2: { repeat case_match; simplify_eq; done. }
  rewrite <- E. unfold Utf8.decimal, pretty, pretty_N. case_decide as H0; [by replace v with 0 by lia|].
  destruct (pretty_go_digits (S (Z.to_nat v)) v "" ltac:(lia) ltac:(lia)) as (d & -> & _ & _ & Hp). by rewrite Hp by lia.
Qed.

(** ** From Linux to macOS and back *)
Section trip.
Import CanonicalAcl.

Definition field_ok (s : bytes) : Prop := Forall graphic s /\ COLON ∉ s.
Definition field_okb (s : bytes) : bool := forallb (fun b => (33 <=? b) && (b <? 127) && negb (b =? COLON)) s.
Lemma field_okb_ok s : field_okb s = true -> field_ok s.
Proof.
  unfold field_okb. rewrite forallb_forall. setoid_rewrite <- list_elem_of_In. intros H. split.
  - apply Forall_forall. intros b Hb. specialize (H b Hb). unfold graphic. lia.
  - intros Hc. by specialize (H _ Hc).
Qed.
Lemma decimal_field v : 0 <= v -> field_ok (Utf8.decimal v).
Proof.
  intros Hv. destruct (decimal_digits v Hv) as [Hd _]. split.
  - eapply Forall_impl; [apply Hd|]. unfold graphic. cbn. lia.
  - intros Hc. rewrite Forall_forall in Hd. specialize (Hd _ Hc). unfold COLON in Hd. lia.
Qed.

(** The fields of the line written for a POSIX entry, and the principal read from them. *)
Definition tag_text (p : AcePrincipal) : bytes :=
  match p with GroupOwner | NamedGroup _ _ => lit "group" | Mask => lit "mask" | _ => lit "user" end.
Definition qual_text (p : AcePrincipal) : bytes :=
  match p with
  | Owner => lit "owner" | GroupOwner => lit "group_owner" | Mask => lit "mask" | Other => lit "other"
  | NamedUser id _ | NamedGroup id _ => Utf8.decimal id
  | Everyone => []
  end.
Definition fields (p : AcePrincipal) (r w x d : bool) : list bytes :=
  [tag_text p; qual_text p; lit "allow"; to_darwin_str (from_posix_mode r w x)] ++
  if d then [lit "file_inherit,directory_inherit"] else [].
Definition reparsed (p : AcePrincipal) (r w x d : bool) : CanonicalAce :=
  mkAce (match p with Other => NamedUser 0 (Some (lit "other")) | _ => p end) Allow
    (from_darwin_str (to_darwin_str (from_posix_mode r w x))) (posix_flags d).

Lemma darwin_line_fields p r w x d : principal_ok p ->
  darwin_line (mkAce p Allow (from_posix_mode r w x) (posix_flags d)) = join_with COLON (fields p r w x d) ++ [10].
Proof.
  intros Hp. unfold darwin_line, fields. cbn [principal ace_type permissions ace_flags].
  generalize (to_darwin_str (from_posix_mode r w x)). intros perm.
  assert (match p with
    | Owner => (lit "user", lit "owner") | GroupOwner => (lit "group", lit "group_owner")
    | NamedUser uid name => (lit "user", default (Utf8.decimal uid) name)
    | NamedGroup gid name => (lit "group", default (Utf8.decimal gid) name)
    | Mask => (lit "mask", lit "mask") | Other => (lit "user", lit "other") | Everyone => (lit "everyone", [])
    end = (tag_text p, qual_text p)) as -> by by destruct p as [| |id [name|]|id [name|]| | |].
  destruct d; cbn [file_inherit directory_inherit inherited posix_flags app join_with]; [|done].
  change (join_comma _) with (lit "file_inherit,directory_inherit").
  by repeat (rewrite <- ?app_assoc; cbn [app]).
Qed.

Lemma fields_ok p r w x d : principal_ok p -> Forall field_ok (fields p r w x d).
Proof.
  intros Hp. unfold fields. apply Forall_app. split; [|destruct d; [apply Forall_singleton; by apply field_okb_ok|constructor]].
  assert (field_ok (qual_text p)) as Hq.
  { destruct p as [| |id [name|]|id [name|]| | |]; try done; try by apply field_okb_ok.
    all: apply decimal_field; unfold principal_ok, fits in Hp; lia. }
  repeat apply Forall_cons_2; [by destruct p; apply field_okb_ok|done|by apply field_okb_ok| |constructor].
  destruct r, w, x; by apply field_okb_ok.
Qed.

Lemma darwin_ace_fields p r w x d : principal_ok p -> darwin_ace (fields p r w x d) = reparsed p r w x d.
Proof.
  intros Hp. pose proof (fields_ok p r w x d Hp) as Hf.
  assert (forall i, part (fields p r w x d) i = default [] (fields p r w x d !! i)) as Hpart.
  { intros i. unfold part. destruct (fields p r w x d !! i) as [f|] eqn:E; [|done]. cbn.
    apply trim_graphic. rewrite Forall_lookup in Hf. by apply (Hf i f). }
  unfold darwin_ace, reparsed. rewrite !Hpart. unfold fields. cbn [lookup list_lookup app default].
  f_equal; [|by destruct d].
  destruct p as [| |id [name|]|id [name|]| | |]; try done; cbn [principal_ok] in Hp.
  - change (darwin_principal (lit "user") (Utf8.decimal id) = NamedUser id None).
    unfold darwin_principal. by rewrite parse_decimal.
  - change (darwin_principal (lit "group") (Utf8.decimal id) = NamedGroup id None).
    unfold darwin_principal. by rewrite parse_decimal.
Qed.

Lemma join_graphic p r w x d : principal_ok p -> Forall graphic (join_with COLON (fields p r w x d)).
Proof.
  intros Hp. generalize (fields_ok p r w x d Hp). generalize (fields p r w x d). induction 1 as [|c cs [Hc _] _ IH]; [constructor|].
  destruct cs as [|c' cs]; [done|]. change (join_with COLON (c :: c' :: cs)) with (c ++ COLON :: join_with COLON (c' :: cs)).
  apply Forall_app. split; [done|]. constructor; [done|exact IH].
Qed.

(** Reading back what was written for POSIX entries. *)
Lemma darwin_text_reads d (acl : t) : Forall (posix_ace d) acl -> exists acl',
  from_darwin_acl_text (to_darwin_acl_text acl) = acl' /\ Utf8.from_utf8 (to_darwin_acl_text acl) = Some (to_darwin_acl_text acl) /\
  Forall2 (fun a a' => exists p r w x, principal_ok p /\
    a = mkAce p Allow (from_posix_mode r w x) (posix_flags d) /\ a' = reparsed p r w x d) acl acl'.
Proof.
  intros Hacl. assert (exists l, Forall (fun '(p, _, _, _) => principal_ok p) l /\
    acl = (fun '(p, r, w, x) => mkAce p Allow (from_posix_mode r w x) (posix_flags d)) <$> l) as (l & Hl & ->).
  { induction Hacl as [|a acl (p & r & w & x & Hp & ->) _ (l & Hl & ->)]; [by exists []|].
    exists ((p, r, w, x) :: l). split; [by constructor|done]. }
  clear Hacl. set (body := fun '(p, r, w, x) => join_with COLON (fields p r w x d)).
  assert (to_darwin_acl_text ((fun '(p, r, w, x) => mkAce p Allow (from_posix_mode r w x) (posix_flags d)) <$> l) =
    mjoin ((fun s => s ++ [10]) <$> (body <$> l))) as ->.
  { unfold to_darwin_acl_text. f_equal. rewrite <- !list_fmap_compose. apply list_fmap_ext. intros i [[[p r] w] x] Hi.
    apply darwin_line_fields. rewrite Forall_lookup in Hl. by specialize (Hl _ _ Hi). }
  assert (Forall (Forall graphic) (body <$> l)) as Hg.
  { apply Forall_fmap. eapply Forall_impl; [apply Hl|]. intros [[[p r] w] x] Hp. by apply join_graphic. }
  exists ((fun '(p, r, w, x) => reparsed p r w x d) <$> l). split_and!.
  - unfold from_darwin_acl_text. rewrite lines_join by done. clear Hg.
    match goal with |- foldl ?f _ _ = _ => set (step := f) end.
    assert (forall acc, foldl step acc (body <$> l) = acc ++ ((fun '(p, r, w, x) => reparsed p r w x d) <$> l)) as H; [|apply H].
    induction Hl as [|[[[p r] w] x] l Hp _ IH]; intros acc; [by rewrite app_nil_r|]. cbn [fmap list_fmap foldl].
    assert (step acc (body (p, r, w, x)) = acc ++ [reparsed p r w x d]) as ->; [|by rewrite IH, <- app_assoc].
    unfold step, body. rewrite trim_graphic by by apply join_graphic.
    rewrite split_join_with by (done || (eapply Forall_impl; [by apply fields_ok|by intros ? []])).
    rewrite darwin_ace_fields by done. rewrite bool_decide_eq_false_2.
    2: { unfold fields. cbn [join_with app]. by destruct p. }
    assert (starts_with [35] (join_with COLON (fields p r w x d)) = false) as -> by by destruct p.
    by destruct d.
  - apply graphic_utf8. clear -Hg. induction Hg as [|s ss Hs _ IH]; [done|].
    change (mjoin _) with ((s ++ [10]) ++ mjoin ((fun s => s ++ [10]) <$> ss)). repeat (apply Forall_app; split); try done.
    + eapply Forall_impl; [apply Hs|]. by right.
    + constructor; [by left|done].
  - apply Forall2_fmap, Forall_Forall2_diag, (Forall_impl _ _ _ Hl). intros [[[p r] w] x] Hp. by exists p, r, w, x.
Qed.
End trip.

Section results.
Import CanonicalAcl.

(** What comes back of an entry: [other] as user 0, no permission as read. *)
Definition survived (a : CanonicalAce) : CanonicalAce :=
  let '(r, w, x) := to_posix_mode (permissions a) in
  mkAce (match principal a with Other => NamedUser 0 None | p => p end) (ace_type a)
    (from_posix_mode (r || negb (w || x)) w x) (ace_flags a).

Lemma reparsed_survived p r w x d : principal_ok p ->
  binary_ace (reparsed p r w x d) = binary_ace (survived (mkAce p Allow (from_posix_mode r w x) (posix_flags d))).
Proof. intros Hp. destruct p as [| |id [name|]|id [name|]| | |]; try done; by destruct r, w, x. Qed.

Lemma survived_same d a : posix_ace d a -> principal a <> Other -> to_posix_mode (permissions a) <> (false, false, false) ->
  survived a = a.
Proof.
  intros (p & r & w & x & Hp & ->) Ho Hm. unfold survived. cbn in *. rewrite posix_mode_id in *.
  destruct p as [| |id [name|]|id [name|]| | |]; try done; by destruct r, w, x.
Qed.

(** *** Privileged names *)

Lemma posix_str_no_panic s : from_posix_str s <> Panic.
Proof.
  unfold from_posix_str. destruct (Z.eqb_spec (zlen (trim s)) 3) as [E|]; cbn [negb]; [|done].
  destruct (trim s) as [|r [|w [|x [|y t']]]]; (done || (rewrite !zlen_cons in E; pose proof (zlen_nonneg t'); lia)).
Qed.

Lemma posix_text_no_panic text d : from_posix_acl_text text d <> Panic.
Proof.
  unfold from_posix_acl_text. match goal with |- for_each _ ?f _ <> _ => set (body := f) end.
  assert (forall l acc, body l acc <> Panic) as Hb.
  { intros l acc. unfold body. case_match; [done|]. destruct (strip_prefix _ _) as [s|]; (case_match; [done|]).
    all: match goal with |- obind (from_posix_str ?x) _ <> _ => pose proof (posix_str_no_panic x); destruct (from_posix_str x) end.
    all: cbn [obind]; try done; by case_match. }
  assert (forall ls acc, for_each ls body acc <> Panic) as H; [|apply H].
  induction ls as [|l ls IH]; intros acc; [done|]. cbn [for_each]. specialize (Hb l acc).
  destruct (body l acc); [apply IH|done|done].
Qed.

Lemma decode_posix_returns value d : is_bytes value -> exists acl, Transmuter.decode_posix value d = Ok acl.
Proof.
  intros Hb. unfold Transmuter.decode_posix. pose proof (posix_binary_safe d value Hb) as Hs.
  destruct (from_posix_acl_binary value d) as [acl|e|]; [by exists acl| |done].
  destruct (Utf8.from_utf8 value) as [s|]; [|by exists []].
  pose proof (posix_text_no_panic s d). destruct (from_posix_acl_text s d) as [acl| |]; [by exists acl|by exists []|done].
Qed.

(** Only removing [user.] on the way to macOS can give an ordinary client a privileged name. *)
Lemma transmute_name_privileged s name n : Transmuter.is_admin s = false -> Transmuter.is_privileged name = false ->
  Transmuter.transmute_name s name = Some n -> Transmuter.is_privileged n = true ->
  Transmuter.target_os s = MacOS /\ name = lit "user." ++ n.
Proof.
  intros Ha Hp. unfold Transmuter.transmute_name. rewrite Ha, Hp. cbn [negb andb].
  case_decide; [done|]. case_decide; [intros; simplify_eq; congruence|]. case_match; [intros; simplify_eq; congruence|].
  destruct (Transmuter.target_os s); [| |intros; simplify_eq; congruence..].
  - destruct (eqs name "com.apple.acl.text"); [destruct (decide _); [done|]; intros [= <-] Hn; by vm_compute in Hn|].
    destruct (starts_with _ _); [intros; simplify_eq; congruence|].
    intros [= <-] Hn. by cbn in Hn.
  - destruct (Transmuter.posix_acl_name name); [destruct (decide _); [done|]; intros [= <-] Hn; by vm_compute in Hn|].
    unfold strip_prefix.
    destruct (starts_with (lit "user.") name) eqn:Hs; [|intros; simplify_eq; congruence].
    intros [= <-] _. split; [done|]. apply starts_with_prefix in Hs as [k ->]. reflexivity.
Qed.

Lemma transmute_entry_returns s name v : is_bytes v -> exists r, Transmuter.transmute_entry s name v = Ok r.
Proof.
  intros Hv. unfold Transmuter.transmute_entry. destruct (decode_posix_returns v (ends_with (lit "default") name) Hv) as [acl ->].
  repeat case_match; by eexists.
Qed.
Lemma transmute_entries_returns s entries : Forall (fun x => is_bytes x.2) entries ->
  exists out, Transmuter.transmute_entries s entries = Ok out.
Proof.
  intros H. unfold Transmuter.transmute_entries. generalize ([] : list (bytes * bytes)).
  induction H as [|[n v] l Hv _ IH]; intros acc; [by eexists|]. cbn [for_each].
  destruct (transmute_entry_returns s n v Hv) as [r ->]. cbn [obind]. apply IH.
Qed.

Lemma transmute_entry_privileged s name v : Transmuter.is_admin s = false -> is_bytes v -> exists r,
  Transmuter.transmute_entry s name v = Ok r /\
  forall n v', r = Some (n, v') -> Transmuter.is_privileged n = true ->
    Transmuter.target_os s = MacOS /\ name = lit "user." ++ n /\ v' = v.
Proof.
  intros Ha Hv. unfold Transmuter.transmute_entry. rewrite Ha. cbn [negb andb].
  case_decide; [by exists None|]. destruct (Transmuter.is_privileged name) eqn:Hp; [by exists None|].
  assert (forall n v', Transmuter.rename s name v = Some (n, v') -> Transmuter.is_privileged n = true ->
    Transmuter.target_os s = MacOS /\ name = lit "user." ++ n /\ v' = v) as Hren.
  { intros n v'. unfold Transmuter.rename. destruct (Transmuter.transmute_name s name) as [m|] eqn:E; [|done]. cbn. intros [= <- <-] Hn.
    by destruct (transmute_name_privileged s name m Ha Hp E Hn). }
  case_match.
  { destruct (Transmuter.acl_policy s); try (by eexists).
    destruct (decode_posix_returns v (ends_with (lit "default") name) Hv) as [acl ->]. cbn [obind].
    eexists. split; [done|]. by intros n v' [= <- <-]. }
  case_match; [|by eexists]. destruct (Transmuter.acl_policy s); try (by eexists).
  destruct (Utf8.from_utf8 v); [|by eexists]. eexists. split; [done|]. by intros n v' [= <- <-].
Qed.
End results.

(** ** Sidecar files *)
Section sidecar.
Import Sidecar ManifestCodec.

Definition sidecar_ok (xs : list (bytes * bytes)) : Prop :=
  Forall (fun x => Utf8.utf8_valid x.1 = true) xs /\ zlen xs * 48 < 2 ^ 63 /\
  zlen (Varint.varint_bytes (zlen xs) ++ mjoin (xattr_bytes <$> xs)) < 2 ^ 63.

Lemma xattr_len x : zlen x.1 + zlen x.2 <= zlen (xattr_bytes x).
Proof.
  unfold xattr_bytes, str_bytes. rewrite !zlen_app.
  pose proof (zlen_nonneg (Varint.varint_bytes (zlen x.1))). pose proof (zlen_nonneg (Varint.varint_bytes (zlen x.2))). lia.
Qed.

Lemma xattr_sizes xs : zlen (mjoin (xattr_bytes <$> xs)) < 2 ^ 63 ->
  Forall (fun x => fits 64 (zlen x.1) /\ fits 64 (zlen x.2)) xs.
Proof.
  induction xs as [|x xs IH]; intros H; [constructor|].
  change (mjoin (xattr_bytes <$> x :: xs)) with (xattr_bytes x ++ mjoin (xattr_bytes <$> xs)) in H. rewrite zlen_app in H.
  pose proof (xattr_len x). pose proof (zlen_nonneg (mjoin (xattr_bytes <$> xs))). pose proof (zlen_nonneg x.1).
  pose proof (zlen_nonneg x.2). constructor; [unfold fits; lia|apply IH; lia].
Qed.

Lemma sidecar_encode xs : sidecar_ok xs ->
  encode_xattrs_canonical xs = Ok (Varint.varint_bytes (zlen xs) ++ mjoin (xattr_bytes <$> xs)).
Proof.
  intros (_ & Hn & Hs). unfold encode_xattrs_canonical. pose proof (zlen_nonneg xs).
  rewrite Varint.put_varint_spec by (unfold fits; lia). cbn [obind]. rewrite zlen_app in Hs.
  pose proof (zlen_nonneg (Varint.varint_bytes (zlen xs))).
  assert (Forall (fun x => fits 64 (zlen x.1) /\ fits 64 (zlen x.2)) xs) as Hf by (apply xattr_sizes; lia).
  generalize (Varint.varint_bytes (zlen xs)). clear -Hf. induction Hf as [|[n v] xs [Hn Hv] _ IH]; intros out.
  { by rewrite app_nil_r. }
  cbn [encode_loop fst snd] in *. rewrite !Varint.put_varint_spec by done. cbn [obind]. rewrite IH.
  change (mjoin (xattr_bytes <$> (n, v) :: xs)) with (xattr_bytes (n, v) ++ mjoin (xattr_bytes <$> xs)).
  unfold xattr_bytes, str_bytes. cbn [fst snd]. by rewrite <- !app_assoc.
Qed.

Lemma decode_str_at s buf i post why : at_ buf i (str_bytes s ++ post) -> fits 64 (zlen s) -> zlen buf < 2 ^ 63 ->
  decode_str buf i why = Ok (s, i + zlen (str_bytes s)) /\ at_ buf (i + zlen (str_bytes s)) post.
Proof.
  intros Hat Hf Hb. destruct (str_at _ _ _ _ Hat Hf) as (H1 & H2 & H3 & Hi & Hl).
  pose proof (Varint.varint_len_bounds (zlen s)). pose proof (zlen_nonneg s). pose proof (zlen_nonneg post).
  assert (zlen (str_bytes s) = Varint.varint_len (zlen s) + zlen s) as E.
  { unfold str_bytes. by rewrite zlen_app, Varint.zlen_varint_bytes. }
  rewrite E, Z.add_assoc. split; [|done]. unfold decode_str. unfold at_ in H1. rewrite H1. cbn [obind].
  rewrite Varint.decode_varint_bytes by done. cbn [obind]. rewrite wrap_small by (unfold fits; lia).
  rewrite (proj2 (Z.ltb_ge _ _)) by lia. rewrite (at_slice _ _ _ _ _ H2) by lia. done.
Qed.

Lemma sidecar_decode xs buf i acc : at_ buf i (mjoin (xattr_bytes <$> xs)) -> zlen buf < 2 ^ 63 ->
  Forall (fun x => Utf8.utf8_valid x.1 = true) xs -> Forall (fun x => fits 64 (zlen x.1) /\ fits 64 (zlen x.2)) xs ->
  decode_loop (length xs) buf i acc = Ok (acc ++ xs).
Proof.
  intros Hat Hb Hu Hf. revert i acc Hat. induction Hu as [|[n v] xs Hn _ IH]; intros i acc Hat; [by rewrite app_nil_r|].
  inversion Hf as [|? ? [Hfn Hfv] Hf']; subst. cbn [fst snd length decode_loop] in *.
  change (mjoin (xattr_bytes <$> (n, v) :: xs)) with (xattr_bytes (n, v) ++ mjoin (xattr_bytes <$> xs)) in Hat.
  unfold xattr_bytes at 1 in Hat. cbn [fst snd] in Hat. rewrite <- app_assoc in Hat.
  destruct (decode_str_at n buf i _ "truncated xattr sidecar name" Hat Hfn Hb) as [-> H2]. cbn [obind].
  rewrite Utf8.from_utf8_ok by done. cbn [ok_or obind].
  destruct (decode_str_at v buf _ _ "truncated xattr sidecar val" H2 Hfv Hb) as [-> H3]. cbn [obind].
  rewrite (IH Hf' _ _ H3). by rewrite <- app_assoc.
Qed.

(** Sidecar files read back. *)
Lemma sidecar_roundtrip xs : sidecar_ok xs -> exists b, encode_xattrs_canonical xs = Ok b /\ decode_xattrs_canonical b = Ok xs.
Proof.
  intros Hok. eexists. split; [by apply sidecar_encode|]. destruct Hok as (Hu & Hn & Hs). pose proof (zlen_nonneg xs).
  assert (fits 64 (zlen xs)) as Hc by (unfold fits; lia). pose proof (Varint.varint_len_bounds (zlen xs)).
  set (buf := Varint.varint_bytes (zlen xs) ++ mjoin (xattr_bytes <$> xs)) in *.
  assert (zlen (Varint.varint_bytes (zlen xs)) = Varint.varint_len (zlen xs)) as Hv by by apply Varint.zlen_varint_bytes.
  unfold decode_xattrs_canonical. destruct buf as [|x l] eqn:E.
  { exfalso. apply (f_equal zlen) in E. unfold buf in E. rewrite zlen_app, Hv in E. pose proof (zlen_nonneg (mjoin (xattr_bytes <$> xs))).
    change (zlen []) with 0 in E. lia. }
  rewrite <- E in *. unfold buf at 1. rewrite Varint.decode_varint_bytes by done. cbn [obind]. unfold with_capacity.
  rewrite (proj2 (Z.leb_gt _ _)) by done. cbn [obind]. unfold zlen at 1. rewrite Nat2Z.id.
  apply (sidecar_decode xs buf _ []); [|done|done|].
  - unfold at_, buf. rewrite <- Hv, slice_from_skip, Z.sub_diag by lia. by rewrite slice_from_0.
  - apply xattr_sizes. unfold buf in Hs. rewrite zlen_app in Hs. pose proof (zlen_nonneg (Varint.varint_bytes (zlen xs))). lia.
Qed.
End sidecar.

(** ** Main results *)
Import CanonicalAcl Transmuter.

(** A client that is an administrator on both sides. *)
Definition to_mac : Transmuter.t := with_admin (new Linux MacOS) true.
Definition to_linux : Transmuter.t := with_admin (new MacOS Linux) true.

(** An ACL on its way to macOS and back. Any access or default ACL in the binary POSIX form becomes
    Darwin text, and the text comes back as the binary form of the same entries in order, except that an
    entry for others has become one for user 0 and an entry without permissions one with read; when
    there are no such entries it is the same ACL. *)
Theorem acl_trip d acl : Forall (posix_ace d) acl ->
  (exists text,
    transmute_entry to_mac (lit (if d then "system.posix_acl_default" else "system.posix_acl_access")) (to_posix_acl_binary acl) =
      Ok (Some (lit "com.apple.acl.text", text)) /\
    transmute_entry to_linux (lit "com.apple.acl.text") text =
      Ok (Some (lit "system.posix_acl_access", to_posix_acl_binary (survived <$> acl)))) /\
  (Forall (fun a => principal a <> Other /\ to_posix_mode (permissions a) <> (false, false, false)) acl ->
    survived <$> acl = acl).
Proof.
  intros Hacl. split.
  - destruct (darwin_text_reads d acl Hacl) as (acl' & Hr & Hu & H2). exists (to_darwin_acl_text acl). split.
    + assert (decode_posix (to_posix_acl_binary acl) d = Ok acl) as Hd
        by (unfold decode_posix; by rewrite posix_binary_roundtrip).
      by destruct d; unfold transmute_entry; vm_compute (ends_with _ _); cbn; rewrite Hd.
    + unfold transmute_entry. cbn -[to_posix_acl_binary from_darwin_acl_text to_darwin_acl_text].
      rewrite Hu, Hr. cbn [fst]. unfold to_posix_acl_binary.
      assert (binary_ace <$> acl' = binary_ace <$> (survived <$> acl)) as ->; [|done].
      clear -H2. induction H2 as [|a a' acl acl' (p & r & w & x & Hp & -> & ->) _ IH]; [done|].
      cbn [fmap list_fmap]. f_equal; [by apply reparsed_survived|exact IH].
  - intros Hk. rewrite <- (list_fmap_id acl) at 2. apply list_fmap_ext. intros i a Hi.
    rewrite Forall_lookup in Hacl, Hk. destruct (Hk i a Hi) as [H1 H2]. exact (survived_same d a (Hacl i a Hi) H1 H2).
Qed.

(** Privileges. Translating any attributes for a client that is not an administrator succeeds, and
    no attribute in a privileged namespace comes out, except a [user.] attribute whose name loses
    that prefix on macOS. *)
Theorem xattr_privilege s entries : is_admin s = false -> Forall (fun x => is_bytes x.2) entries ->
  exists out, transmute_entries s entries = Ok out /\
    forall n v, (n, v) ∈ out -> is_privileged n = true -> target_os s = MacOS /\ (lit "user." ++ n, v) ∈ entries.
Proof.
  intros Ha Hb. unfold transmute_entries.
  assert (forall acc, exists out, for_each entries (fun '(name, val) out =>
    let? r := transmute_entry s name val in Ok (out ++ option_list r)) acc = Ok (acc ++ out) /\
    forall n v, (n, v) ∈ out -> is_privileged n = true -> target_os s = MacOS /\ (lit "user." ++ n, v) ∈ entries) as H.
  2: { destruct (H []) as (out & -> & Ho). by exists out. }
  induction Hb as [|[name val] entries Hv _ IH]; intros acc.
  { exists []. rewrite app_nil_r. split; [done|]. by intros n v H%elem_of_nil. }
  cbn [for_each]. destruct (transmute_entry_privileged s name val Ha Hv) as (r & -> & Hr). cbn [obind].
  destruct (IH (acc ++ option_list r)) as (out & -> & Ho). exists (option_list r ++ out). split; [by rewrite app_assoc|].
  intros n v [Hn|Hn]%elem_of_app Hp.
  - destruct r as [[n' v']|]; [|by apply elem_of_nil in Hn]. cbn in Hn. apply list_elem_of_singleton in Hn as [= -> ->].
    destruct (Hr n' v' eq_refl Hp) as (? & -> & ->). split; [done|left].
  - destruct (Ho n v Hn Hp). split; [done|by right].
Qed.

Module XattrExamples.
(** [user::rwx], [user:1000:r-x], [mask::rwx]. *)
Definition acl : CanonicalAcl.t :=
  [mkAce Owner Allow (from_posix_mode true true true) (posix_flags false);
   mkAce (NamedUser 1000 None) Allow (from_posix_mode true false true) (posix_flags false);
   mkAce Mask Allow (from_posix_mode true true true) (posix_flags false)].
Lemma acl_posix : Forall (posix_ace false) acl.
Proof. repeat constructor; eexists _, _, _, _; (split; [|reflexivity]); done. Qed.

Lemma acl_trip_witness : exists text,
  transmute_entry to_mac (lit "system.posix_acl_access") (to_posix_acl_binary acl) = Ok (Some (lit "com.apple.acl.text", text)) /\
  transmute_entry to_linux (lit "com.apple.acl.text") text = Ok (Some (lit "system.posix_acl_access", to_posix_acl_binary acl)).
Proof.
  destruct (acl_trip false acl acl_posix) as [(text & H1 & H2) Hs]. exists text. split; [exact H1|].
  rewrite Hs in H2; [exact H2|]. repeat constructor; done.
Defined.

Lemma xattr_privilege_witness : exists out,
  transmute_entries (new Linux MacOS) [(lit "user.a", [1]); (lit "trusted.b", [2])] = Ok out /\ out = [(lit "a", [1])].
Proof.
  destruct (xattr_privilege (new Linux MacOS) [(lit "user.a", [1]); (lit "trusted.b", [2])]) as (out & Ho & _).
  - reflexivity.
  - apply Forall_cons_2; [|apply Forall_cons_2; [|constructor]]; (apply Forall_singleton; done).
  - exists out. split; [exact Ho|]. vm_compute in Ho. by inversion Ho.
Defined.

(** Every POSIX ACL has an entry for others, and it comes back as a grant to root. *)
Theorem other_becomes_root :
  survived (mkAce Other Allow (from_posix_mode true false false) (posix_flags false)) =
  mkAce (NamedUser 0 None) Allow (from_posix_mode true false false) (posix_flags false).
Proof. reflexivity. Qed.

(** An entry that grants nothing comes back granting read. *)
Theorem nothing_becomes_read : to_darwin_str no_perms = lit "read".
Proof. reflexivity. Qed.

(** A Darwin entry that denies is written as a POSIX entry that allows. *)
Theorem deny_becomes_allow :
  to_posix_acl_binary (from_darwin_acl_text (lit "user:1000:deny:write")) =
  to_posix_acl_binary [mkAce (NamedUser 1000 None) Allow (from_posix_mode false true false) (posix_flags false)].
Proof. vm_compute. reflexivity. Qed.

(** A user given by name is written with the id of root. *)
Theorem name_becomes_root :
  to_posix_acl_binary (from_darwin_acl_text (lit "user:alice:allow:read,write")) =
  to_posix_acl_binary [mkAce (NamedUser 0 None) Allow (from_posix_mode true true false) (posix_flags false)].
Proof. vm_compute. reflexivity. Qed.

(** An ordinary [user.] attribute becomes a privileged one by way of macOS. *)
Theorem privilege_by_way_of_mac : exists v,
  transmute_entry (new Linux MacOS) (lit "user.security.capability") [1] = Ok (Some v) /\
  v = (lit "security.capability", [1]) /\
  transmute_entry to_linux v.1 v.2 = Ok (Some (lit "security.capability", [1])).
Proof. eexists. split; [vm_compute; reflexivity|]. split; [reflexivity|]. vm_compute. reflexivity. Qed.

(** A ten-byte sidecar file makes the decoder panic when it reserves room for its entries. *)
Theorem sidecar_capacity_panics :
  Sidecar.decode_xattrs_canonical [255; 255; 255; 255; 255; 255; 255; 255; 255; 1] = Panic.
Proof. vm_compute. reflexivity. Qed.

(** So does a name length near 2^64, whose end wraps around. *)
Theorem sidecar_length_panics :
  Sidecar.decode_xattrs_canonical [1; 255; 255; 255; 255; 255; 255; 255; 255; 255; 1; 0] = Panic.
Proof. vm_compute. reflexivity. Qed.
End XattrExamples.
