(* ===== verification/DirectoryDiff.v ===== *)
(** * Reconciliation of directories, sync/directory.rs

    The plan of a sync: for every path of source or destination an action, from two maps of scanned
    entries ([plan_directory_diff_with_options]) or in one pass over two manifests
    ([diff_manifest_readers]). Both are compared with [reconcile], and the actions applied to the
    destination give the source. The percentage of a summary is floating point: an operation of the
    class [Percent]. *)

From S2P Require Import Prelude Utf8 Protocol Varint Wire MsgManifest Chunking ChunkEngine Paths ManifestEntry Compression ManifestFile Xattr.

(** [f64] percentages: [(a as f64 / b as f64) * 100.0] and comparison. *)
Class Percent := {
  percent : Type;
  pct_zero : percent;
  pct_of : Z -> Z -> percent;
  pct_gt : percent -> percent -> bool }.

Inductive FileActionType := FUnchanged | FModify | FAdd | FDelete.
#[global] Instance FileActionType_eq_dec : EqDecision FileActionType.
Proof. solve_decision. Defined.

Record FileAction := mkAction {
  rel_path : bytes; action : FileActionType; src_size : Z; dst_size : Z; src_hash : option Hash;
  bytes_to_transfer : Z; bytes_reusable : Z }.

Record ScannedEntry := mkScanned {
  se_size : Z; se_hash : Hash; se_is_symlink : bool; se_symlink_target : option bytes;
  se_hardlink_target : option bytes; se_xattrs : list (bytes * bytes); se_mode : Z; se_mtime_sec : Z;
  se_mtime_nsec : Z }.

Definition scanned_file (size : Z) (hash : Hash) : ScannedEntry := mkScanned size hash false None None [] 0 0 0.
Definition scanned_symlink (blake3 : bytes -> Hash) (target : bytes) : ScannedEntry :=
  mkScanned (zlen target) (blake3 target) true (Some target) None [] 0 0 0.
Definition scanned_hardlink (size : Z) (hash : Hash) (target : bytes) : ScannedEntry :=
  mkScanned size hash false None (Some target) [] 0 0 0.

(** The counters both loops keep; byte counts are [u64]. *)
Record Counters := mkCounters {
  n_unchanged : Z; n_modified : Z; n_added : Z; n_deleted : Z; data_present : Z; data_to_transfer : Z }.
Definition zero_counters : Counters := mkCounters 0 0 0 0 0 0.

(** The four arms of the loops: counters and action. *)
Definition count_unchanged (c : Counters) (size : Z) : Counters :=
  mkCounters (n_unchanged c + 1) (n_modified c) (n_added c) (n_deleted c) (wrap 64 (data_present c + size)) (data_to_transfer c).
Definition count_modified (c : Counters) (size : Z) : Counters :=
  mkCounters (n_unchanged c) (n_modified c + 1) (n_added c) (n_deleted c) (data_present c) (wrap 64 (data_to_transfer c + size)).
Definition count_added (c : Counters) (size : Z) : Counters :=
  mkCounters (n_unchanged c) (n_modified c) (n_added c + 1) (n_deleted c) (data_present c) (wrap 64 (data_to_transfer c + size)).
Definition count_deleted (c : Counters) : Counters :=
  mkCounters (n_unchanged c) (n_modified c) (n_added c) (n_deleted c + 1) (data_present c) (data_to_transfer c).

Definition unchanged_action (p : bytes) (s d : Z) (h : Hash) : FileAction := mkAction p FUnchanged s d (Some h) 0 s.
Definition modify_action (p : bytes) (s d : Z) (h : Hash) : FileAction := mkAction p FModify s d (Some h) s 0.
Definition add_action (p : bytes) (s : Z) (h : Hash) : FileAction := mkAction p FAdd s 0 (Some h) s 0.
Definition delete_action (p : bytes) (d : Z) : FileAction := mkAction p FDelete 0 d None 0 0.

Section summary.
Context `{Percent}.
Record DirectoryDiffSummary := mkSummary { counters : Counters; estimated_reduction : percent }.
Record DirectoryPlan := mkPlan { actions : list FileAction; summary : DirectoryDiffSummary }.

Definition summarize (c : Counters) : DirectoryDiffSummary :=
  let total_data := wrap 64 (data_present c + data_to_transfer c) in
  mkSummary c (if 0 <? total_data then pct_of (data_present c) total_data else pct_zero).

(** ** From two maps *)

Definition transmuter (from to : PlatformOs) (policy : XattrPolicy) (acl : AclPolicy) : Transmuter.t :=
  Transmuter.with_admin (Transmuter.with_acl_policy (Transmuter.with_xattr_policy (Transmuter.new from to) policy) acl) true.

Definition xattrs_are_compatible (current : PlatformOs) (src dst : list (bytes * bytes)) (policy : XattrPolicy)
    (acl_policy : AclPolicy) : pure bool :=
  if decide (policy = XStrip) then Ok true
  else if bool_decide (src = dst) then Ok true
  else if decide (policy = XTransmute) then
    let? a := Transmuter.transmute_entries (transmuter UnknownOs current policy acl_policy) src in
    if bool_decide (a = dst) then Ok true else
    let? b := Transmuter.transmute_entries (transmuter Linux MacOS policy acl_policy) src in
    if bool_decide (b = dst) then Ok true else
    let? c := Transmuter.transmute_entries (transmuter MacOS Linux policy acl_policy) src in
    if bool_decide (c = dst) then Ok true else Ok false
  else Ok false.

(** [BTreeMap<String, _>] in the order of its keys. *)
Definition key_le {A} (x y : bytes * A) : Prop := bytes_le x.1 y.1.
#[export] Instance key_le_dec {A} : RelDecision (@key_le A).
Proof. intros x y. unfold key_le, bytes_le. apply _. Defined.
Definition sorted_items {A} (m : gmap bytes A) : list (bytes * A) := merge_sort key_le (map_to_list m).

(** Every path of either side, with what is there. *)
Definition pair_up {A} (a b : option A) : option (option A * option A) :=
  match a, b with None, None => None | _, _ => Some (a, b) end.
Definition all_paths {A} (src dst : gmap bytes A) : gmap bytes (option A * option A) := merge pair_up src dst.

Definition scanned_same (current : PlatformOs) (xattr_policy : XattrPolicy) (acl_policy : AclPolicy)
    (sf df : ScannedEntry) : pure bool :=
  if bool_decide (se_is_symlink sf = se_is_symlink df) && bool_decide (se_symlink_target sf = se_symlink_target df)
     && bool_decide (se_hardlink_target sf = se_hardlink_target df) && (se_size sf =? se_size df)
     && bool_decide (se_hash sf = se_hash df)
  then
    let? compatible := xattrs_are_compatible current (se_xattrs sf) (se_xattrs df) xattr_policy acl_policy in
    Ok (compatible && (se_is_symlink sf || (se_mode sf =? 0) || (se_mode df =? 0)
                       || (Z.land (se_mode sf) 511 =? Z.land (se_mode df) 511)))
  else Ok false.

(** Of the options only the two policies are read. *)
Definition plan_directory_diff_with_options (current : PlatformOs) (src_files dst_files : gmap bytes ScannedEntry)
    (xattr_policy : XattrPolicy) (acl_policy : AclPolicy) : pure DirectoryPlan :=
  let? '(actions, c) :=
    for_each (sorted_items (all_paths src_files dst_files)) (fun '(p, (sf_opt, df_opt)) '(actions, c) =>
      match sf_opt, df_opt with
      | Some sf, Some df =>
          let? is_same := scanned_same current xattr_policy acl_policy sf df in
          if is_same then
            Ok (actions ++ [unchanged_action p (se_size sf) (se_size df) (se_hash sf)], count_unchanged c (se_size sf))
          else Ok (actions ++ [modify_action p (se_size sf) (se_size df) (se_hash sf)], count_modified c (se_size sf))
      | Some sf, None => Ok (actions ++ [add_action p (se_size sf) (se_hash sf)], count_added c (se_size sf))
      | None, Some df => Ok (actions ++ [delete_action p (se_size df)], count_deleted c)
      | None, None => Panic
      end) ([], zero_counters) in
  Ok (mkPlan actions (summarize c)).

Definition plan_directory_diff (current : PlatformOs) (src_files dst_files : gmap bytes ScannedEntry) : pure DirectoryPlan :=
  plan_directory_diff_with_options current src_files dst_files XTransmute ATransmute.

(** ** From two manifests *)

Context `{Zstd}.
Context {hasher : Type} (hasher_new : hasher) (hasher_update : hasher -> bytes -> hasher) (hasher_finalize : hasher -> Hash).
Abbreviation reader := (@ManifestReader hasher).
Abbreviation next r := (next_entry hasher_update hasher_finalize r).

Definition entry_same (sf df : FileEntry.t) : bool :=
  (FileEntry.flags sf =? FileEntry.flags df) && (FileEntry.size sf =? FileEntry.size df)
  && bool_decide (FileEntry.file_hash sf = FileEntry.file_hash df) && bool_decide (FileEntry.xattrs sf = FileEntry.xattrs df)
  && bool_decide (FileEntry.symlink_target sf = FileEntry.symlink_target df)
  && bool_decide (FileEntry.hardlink_target sf = FileEntry.hardlink_target df).

(** [on_action] collects the actions. *)
Fixpoint diff_loop (fuel : nat) (src dst : reader) (cur_src cur_dst : option FileEntry.t) (acts : list FileAction)
    (c : Counters) : vresult (list FileAction * Counters) :=
  match fuel with
  | O => Panic
  | S fuel =>
      let add sf :=
        let acts := acts ++ [add_action (FileEntry.path sf) (FileEntry.size sf) (FileEntry.file_hash sf)] in
        let c := count_added c (FileEntry.size sf) in
        let '(src, o) := next src in
        let? cur_src := o in
        diff_loop fuel src dst cur_src cur_dst acts c in
      let del df :=
        let acts := acts ++ [delete_action (FileEntry.path df) (FileEntry.size df)] in
        let c := count_deleted c in
        let '(dst, o) := next dst in
        let? cur_dst := o in
        diff_loop fuel src dst cur_src cur_dst acts c in
      match cur_src, cur_dst with
      | Some sf, Some df =>
          if bytes_lt (FileEntry.path sf) (FileEntry.path df) then add sf
          else if bytes_lt (FileEntry.path df) (FileEntry.path sf) then del df
          else
            let '(acts, c) :=
              if entry_same sf df then
                (acts ++ [unchanged_action (FileEntry.path sf) (FileEntry.size sf) (FileEntry.size df) (FileEntry.file_hash sf)],
                 count_unchanged c (FileEntry.size sf))
              else
                (acts ++ [modify_action (FileEntry.path sf) (FileEntry.size sf) (FileEntry.size df) (FileEntry.file_hash sf)],
                 count_modified c (FileEntry.size sf)) in
            let '(src, o) := next src in
            let? cur_src := o in
            let '(dst, o) := next dst in
            let? cur_dst := o in
            diff_loop fuel src dst cur_src cur_dst acts c
      | Some sf, None => add sf
      | None, Some df => del df
      | None, None => Ok (acts, c)
      end
  end.

Definition diff_manifest_readers (fuel : nat) (src dst : reader) : vresult (list FileAction * DirectoryDiffSummary) :=
  let '(src, o) := next src in
  let? cur_src := o in
  let '(dst, o) := next dst in
  let? cur_dst := o in
  let? '(acts, c) := diff_loop fuel src dst cur_src cur_dst [] zero_counters in
  Ok (acts, summarize c).

Definition diff_manifest_spill_files (fuel : nat) (src_spill : bytes) (src_hash : Hash) (dst_spill : bytes) (dst_hash : Hash)
    : vresult (list FileAction * DirectoryDiffSummary) :=
  let? src_reader := reader_open hasher_new src_spill src_hash in
  let? dst_reader := reader_open hasher_new dst_spill dst_hash in
  diff_manifest_readers fuel src_reader dst_reader.
End summary.

(** ** The reference *)

(** Lists with strictly increasing keys. *)
Definition key_lt {A} (x y : bytes * A) : Prop := bytes_lt x.1 y.1 = true.
Abbreviation keyed := (StronglySorted key_lt).

Lemma keyed_ext {A} (l1 l2 : list (bytes * A)) : keyed l1 -> keyed l2 -> (forall x, x ∈ l1 <-> x ∈ l2) -> l1 = l2.
Proof.
  intros H1. revert l2. induction H1 as [|x l1 H1 IH Hx]; intros [|y l2] H2 Hin.
  - done.
  - exfalso. eapply not_elem_of_nil, Hin. left.
  - exfalso. eapply not_elem_of_nil, Hin. left.
  - inversion H2 as [|? ? H2' Hy]; subst. rewrite Forall_forall in Hx, Hy.
    assert (x = y) as <-.
    { assert (y ∈ x :: l1) as Hy1 by (apply Hin; left). assert (x ∈ y :: l2) as Hx2 by (apply Hin; left).
      apply elem_of_cons in Hy1 as [->|Hy1]; [done|]. apply elem_of_cons in Hx2 as [->|Hx2]; [done|].
      pose proof (bytes_lt_trans _ _ _ (Hx _ Hy1) (Hy _ Hx2)) as Hc. by rewrite bytes_lt_irrefl in Hc. }
    f_equal. apply IH; [done|]. intros z. split; intros Hz.
    + assert (z ∈ x :: l2) as [->|?]%elem_of_cons by (apply Hin; by right); [|done].
      specialize (Hx _ Hz). unfold key_lt in Hx. by rewrite bytes_lt_irrefl in Hx.
    + assert (z ∈ x :: l1) as [->|?]%elem_of_cons by (apply Hin; by right); [|done].
      specialize (Hy _ Hz). unfold key_lt in Hy. by rewrite bytes_lt_irrefl in Hy.
Qed.

#[export] Instance key_le_total {A} : Total (@key_le A).
Proof.
  intros x y. unfold key_le, bytes_le. destruct (bytes_lt y.1 x.1) eqn:E; [|by left]. right. by apply bytes_lt_le.
Qed.
#[export] Instance key_le_trans {A} : Transitive (@key_le A).
Proof. intros x y z. unfold key_le. apply transitivity. Qed.

Lemma sorted_items_elem {A} (m : gmap bytes A) p a : (p, a) ∈ sorted_items m <-> m !! p = Some a.
Proof. unfold sorted_items. by rewrite merge_sort_Permutation, elem_of_map_to_list. Qed.

Lemma merge_keyed {A} (l : list (bytes * A)) : NoDup l.*1 -> keyed (merge_sort key_le l).
Proof.
  intros Hl. assert (NoDup (merge_sort key_le l).*1) as Hnd by by rewrite merge_sort_Permutation.
  assert (StronglySorted key_le (merge_sort key_le l)) as Hs by (apply (StronglySorted_merge_sort key_le)).
  induction Hs as [|x l' _ IH Hx]; [constructor|]. cbn in Hnd. apply NoDup_cons in Hnd as [Hn Hnd].
  constructor; [by apply IH|]. rewrite Forall_forall in Hx |- *. intros y Hy. specialize (Hx y Hy).
  unfold key_lt, key_le, bytes_le in *. destruct (bytes_lt x.1 y.1) eqn:E; [done|]. exfalso. apply Hn.
  rewrite (bytes_lt_total x.1 y.1) by done. by apply list_elem_of_fmap_2.
Qed.

Lemma sorted_items_keyed {A} (m : gmap bytes A) : keyed (sorted_items m).
Proof. apply merge_keyed, NoDup_fst_map_to_list. Qed.

Section reference.
Context {E : Type} (size : E -> Z) (hash : E -> Hash) (same : E -> E -> bool).

(** The action for a path from what is on both sides. *)
Definition act (x : bytes * (option E * option E)) : list FileAction :=
  let '(p, (s, d)) := x in
  match s, d with
  | Some s, Some d =>
      [if same s d then unchanged_action p (size s) (size d) (hash s) else modify_action p (size s) (size d) (hash s)]
  | Some s, None => [add_action p (size s) (hash s)]
  | None, Some d => [delete_action p (size d)]
  | None, None => []
  end.
Definition tally (c : Counters) (x : bytes * (option E * option E)) : Counters :=
  match x.2 with
  | (Some s, Some d) => if same s d then count_unchanged c (size s) else count_modified c (size s)
  | (Some s, None) => count_added c (size s)
  | (None, Some _) => count_deleted c
  | (None, None) => c
  end.

Definition reconcile (src dst : gmap bytes E) : list FileAction := mjoin (act <$> sorted_items (all_paths src dst)).
Definition totals (src dst : gmap bytes E) : Counters := foldl tally zero_counters (sorted_items (all_paths src dst)).

Lemma all_paths_lookup (src dst : gmap bytes E) p : all_paths src dst !! p = pair_up (src !! p) (dst !! p).
Proof. unfold all_paths. rewrite lookup_merge. by destruct (src !! p), (dst !! p). Qed.

(** One action per path of either side. *)
Lemma reconcile_elem src dst a : a ∈ reconcile src dst <->
  exists p s d, src !! p = s /\ dst !! p = d /\ a ∈ act (p, (s, d)).
Proof.
  unfold reconcile. rewrite list_elem_of_join. setoid_rewrite list_elem_of_fmap. split.
  - intros (l & Ha & [p [s d]] & -> & Hin). rewrite sorted_items_elem, all_paths_lookup in Hin.
    exists p, s, d. unfold pair_up in Hin. destruct (src !! p), (dst !! p); by simplify_eq.
  - intros (p & s & d & Hs & Hd & Ha). exists (act (p, (s, d))). split; [done|]. exists (p, (s, d)). split; [done|].
    rewrite sorted_items_elem, all_paths_lookup, Hs, Hd. unfold pair_up. destruct s, d; try done.
    by apply elem_of_nil in Ha.
Qed.

(** Carrying out an action: copies come from the source. *)
Definition perform (src : gmap bytes E) (m : gmap bytes E) (a : FileAction) : gmap bytes E :=
  match action a with
  | FUnchanged => m
  | FModify | FAdd => match src !! rel_path a with Some e => <[rel_path a := e]> m | None => m end
  | FDelete => delete (rel_path a) m
  end.

(** What a path holds afterwards. *)
Definition effect (s d : option E) : option E :=
  match s, d with
  | Some s, Some d => Some (if same s d then d else s)
  | Some s, None => Some s
  | None, _ => None
  end.

Lemma perform_act src m p s d : src !! p = s -> m !! p = d ->
  foldl (perform src) m (act (p, (s, d))) !! p = effect s d /\
  forall q, q <> p -> foldl (perform src) m (act (p, (s, d))) !! q = m !! q.
Proof.
  intros Hs Hd. destruct s as [s|], d as [d|]; cbn [act effect].
  - destruct (same s d); cbn -[insert lookup]; unfold perform; cbn -[insert lookup]; [done|]. rewrite Hs.
    split; [apply lookup_insert_eq|]. intros q Hq. by apply lookup_insert_ne.
  - cbn -[insert lookup]. unfold perform. cbn -[insert lookup]. rewrite Hs. split; [apply lookup_insert_eq|].
    intros q Hq. by apply lookup_insert_ne.
  - cbn -[delete lookup]. unfold perform. cbn -[delete lookup]. split; [apply lookup_delete_eq|]. intros q Hq. by apply lookup_delete_ne.
  - done.
Qed.

Lemma perform_all src l m : NoDup l.*1 -> (forall p s d, (p, (s, d)) ∈ l -> src !! p = s /\ m !! p = d) ->
  (forall p s d, (p, (s, d)) ∈ l -> foldl (perform src) m (mjoin (act <$> l)) !! p = effect s d) /\
  (forall p, p ∉ l.*1 -> foldl (perform src) m (mjoin (act <$> l)) !! p = m !! p).
Proof.
  revert m. induction l as [|[p [s d]] l IH]; intros m Hnd Hl.
  { split; [by intros p s d H%elem_of_nil|done]. }
  apply NoDup_cons in Hnd as [Hp Hnd]. destruct (Hl p s d ltac:(left)) as [Hs Hd].
  change (mjoin (act <$> (p, (s, d)) :: l)) with (act (p, (s, d)) ++ mjoin (act <$> l)). rewrite foldl_app.
  destruct (perform_act src m p s d Hs Hd) as [Hpe Hpo]. set (m1 := foldl (perform src) m (act (p, (s, d)))) in *.
  destruct (IH m1 Hnd) as [H1 H2].
  { intros q s' d' Hq. destruct (Hl q s' d' ltac:(by right)) as [Hs' Hd']. split; [done|]. rewrite Hpo; [done|].
    intros ->. apply Hp. apply list_elem_of_fmap. by exists (p, (s', d')). }
  split.
  - intros q s' d' Hq. apply elem_of_cons in Hq as [[= ? ? ?]|Hq]; [subst q s' d'; by rewrite H2 by done|by apply H1].
  - intros q Hq. cbn in Hq. apply not_elem_of_cons in Hq as [Hne Hq]. rewrite H2 by done. by apply Hpo.
Qed.

(** Carrying out the reconciliation makes the destination the source, up to entries that count as
    the same and are kept. *)
Lemma reconcile_effect src dst p : foldl (perform src) dst (reconcile src dst) !! p = effect (src !! p) (dst !! p).
Proof.
  unfold reconcile. set (l := sorted_items (all_paths src dst)).
  assert (forall p s d, (p, (s, d)) ∈ l <-> pair_up (src !! p) (dst !! p) = Some (s, d)) as Hl.
  { intros q s d. unfold l. by rewrite sorted_items_elem, all_paths_lookup. }
  destruct (perform_all src l dst) as [H1 H2].
  - unfold l, sorted_items. rewrite merge_sort_Permutation. apply NoDup_fst_map_to_list.
  - intros q s d Hq%Hl. unfold pair_up in Hq. destruct (src !! q), (dst !! q); by simplify_eq.
  - destruct (pair_up (src !! p) (dst !! p)) as [[s d]|] eqn:Hpu.
    + rewrite (H1 p s d) by by apply Hl. unfold pair_up in Hpu. destruct (src !! p), (dst !! p); by simplify_eq.
    + rewrite H2. { unfold pair_up in Hpu. by destruct (src !! p), (dst !! p). }
      intros ([q [s d]] & -> & Hq)%list_elem_of_fmap. apply Hl in Hq. cbn in *. congruence.
Qed.
End reference.

(** ** The plan from maps *)
Section plan.
Context `{Percent} (current : PlatformOs) (xp : XattrPolicy) (ap : AclPolicy).

Definition xattrs_bytes (e : ScannedEntry) : Prop := Forall (fun x => is_bytes x.2) (se_xattrs e).
Definition sameb (sf df : ScannedEntry) : bool :=
  match scanned_same current xp ap sf df with Ok b => b | _ => false end.

Lemma compatible_returns src dst : Forall (fun x => is_bytes x.2) src -> exists b,
  xattrs_are_compatible current src dst xp ap = Ok b.
Proof.
  intros Hb. unfold xattrs_are_compatible.
  destruct (transmute_entries_returns (transmuter UnknownOs current xp ap) src Hb) as [a ->].
  destruct (transmute_entries_returns (transmuter Linux MacOS xp ap) src Hb) as [b ->].
  destruct (transmute_entries_returns (transmuter MacOS Linux xp ap) src Hb) as [c ->].
  cbn [obind]. repeat case_match; by eexists.
Qed.

Lemma scanned_same_sameb sf df : xattrs_bytes sf -> scanned_same current xp ap sf df = Ok (sameb sf df).
Proof.
  intros Hb. unfold sameb, scanned_same. destruct (compatible_returns (se_xattrs sf) (se_xattrs df) Hb) as [b ->]. by case_match.
Qed.

Lemma plan_loop l : (forall p s d, (p, (s, d)) ∈ l -> pair_up s d <> None /\ forall e, s = Some e -> xattrs_bytes e) -> forall acts c,
  for_each l (fun '(p, (sf_opt, df_opt)) '(actions, c) =>
      match sf_opt, df_opt with
      | Some sf, Some df =>
          let? is_same := scanned_same current xp ap sf df in
          if is_same then
            Ok (actions ++ [unchanged_action p (se_size sf) (se_size df) (se_hash sf)], count_unchanged c (se_size sf))
          else Ok (actions ++ [modify_action p (se_size sf) (se_size df) (se_hash sf)], count_modified c (se_size sf))
      | Some sf, None => Ok (actions ++ [add_action p (se_size sf) (se_hash sf)], count_added c (se_size sf))
      | None, Some df => Ok (actions ++ [delete_action p (se_size df)], count_deleted c)
      | None, None => @Panic Empty_set _
      end) (acts, c) =
  Ok (acts ++ mjoin (act se_size se_hash sameb <$> l), foldl (tally se_size sameb) c l).
Proof.
  induction l as [|[p [s d]] l IH]; intros Hl acts c; [by rewrite app_nil_r|].
  destruct (Hl p s d ltac:(left)) as [Hne Hx]. assert (forall p s d, (p, (s, d)) ∈ l -> pair_up s d <> None /\ forall e, s = Some e -> xattrs_bytes e) as Hl' by (intros p0 s0 d0 H0; apply (Hl p0); by right).
  cbn [for_each foldl].
  change (mjoin (act se_size se_hash sameb <$> (p, (s, d)) :: l)) with
    (act se_size se_hash sameb (p, (s, d)) ++ mjoin (act se_size se_hash sameb <$> l)). rewrite app_assoc.
  destruct s as [s|], d as [d|]; cbn [obind act tally snd]; try done.
  - rewrite scanned_same_sameb by by apply Hx. cbn [obind]. destruct (sameb s d); cbn [obind]; by apply IH.
  - by apply IH.
  - by apply IH.
Qed.

Lemma plan_is_reconcile (src dst : gmap bytes ScannedEntry) : map_Forall (fun _ => xattrs_bytes) src ->
  plan_directory_diff_with_options current src dst xp ap =
  Ok (mkPlan (reconcile se_size se_hash sameb src dst) (summarize (totals se_size sameb src dst))).
Proof.
  intros Hx. unfold plan_directory_diff_with_options. rewrite plan_loop; [done|]. intros p s d Hp.
  rewrite sorted_items_elem, all_paths_lookup in Hp. unfold pair_up in *.
  destruct (src !! p) as [e|] eqn:Hs, (dst !! p) eqn:Hd; simplify_eq; (split; [done|]); intros e' He; simplify_eq; by eapply Hx.
Qed.
End plan.

(** ** Merging two sorted lists *)
Section merge.
Abbreviation path := FileEntry.path.
Implicit Types ss ds : list FileEntry.t.

Definition by_path (e e' : FileEntry.t) : Prop := bytes_lt (path e) (path e') = true.
Abbreviation sorted := (StronglySorted by_path).
Definition to_map (l : list FileEntry.t) : gmap bytes FileEntry.t := list_to_map ((fun e => (path e, e)) <$> l).

Lemma to_map_cons e l p : to_map (e :: l) !! p = if decide (p = path e) then Some e else to_map l !! p.
Proof.
  unfold to_map. cbn. case_decide as Hp; [subst; by rewrite lookup_insert_eq|by rewrite lookup_insert_ne].
Qed.

(** Nothing at or below the head's path in the tail. *)
Lemma to_map_below e l p : sorted (e :: l) -> bytes_le p (path e) -> to_map l !! p = None.
Proof.
  intros Hs Hp. inversion Hs as [|? ? _ Hall]; subst. unfold to_map. apply not_elem_of_list_to_map_1.
  rewrite <- list_fmap_compose. intros (x & -> & Hx)%list_elem_of_fmap. cbn in Hp. rewrite Forall_forall in Hall.
  specialize (Hall x Hx). unfold by_path in Hall. unfold bytes_le in Hp. congruence.
Qed.
Lemma to_map_above e l p : sorted (e :: l) -> bytes_lt p (path e) = true -> to_map (e :: l) !! p = None.
Proof.
  intros Hs Hp. rewrite to_map_cons. case_decide as He; [subst; by rewrite bytes_lt_irrefl in Hp|].
  eapply to_map_below; [done|by apply bytes_lt_le].
Qed.

Fixpoint zipm ss : list FileEntry.t -> list (bytes * (option FileEntry.t * option FileEntry.t)) :=
  fix go ds :=
    match ss, ds with
    | [], [] => []
    | s :: ss', [] => (path s, (Some s, None)) :: zipm ss' []
    | [], d :: ds' => (path d, (None, Some d)) :: go ds'
    | s :: ss', d :: ds' =>
        if bytes_lt (path s) (path d) then (path s, (Some s, None)) :: zipm ss' ds
        else if bytes_lt (path d) (path s) then (path d, (None, Some d)) :: go ds'
        else (path s, (Some s, Some d)) :: zipm ss' ds'
    end.

(** The head, as the loop sees it. *)
Lemma zipm_cons_cons s ss d ds : zipm (s :: ss) (d :: ds) =
  if bytes_lt (path s) (path d) then (path s, (Some s, None)) :: zipm ss (d :: ds)
  else if bytes_lt (path d) (path s) then (path d, (None, Some d)) :: zipm (s :: ss) ds
  else (path s, (Some s, Some d)) :: zipm ss ds.
Proof. done. Qed.
Lemma zipm_nil_cons d ds : zipm [] (d :: ds) = (path d, (None, Some d)) :: zipm [] ds.
Proof. done. Qed.
Lemma zipm_cons_nil s ss : zipm (s :: ss) [] = (path s, (Some s, None)) :: zipm ss [].
Proof. done. Qed.

(** [lists_pairs l ms md]: the sorted list of the pairs of two maps. *)
Definition lists_pairs (l : list (bytes * (option FileEntry.t * option FileEntry.t))) (ms md : gmap bytes FileEntry.t) : Prop :=
  keyed l /\ forall p s d, (p, (s, d)) ∈ l <-> pair_up (ms !! p) (md !! p) = Some (s, d).

Lemma lists_pairs_cons (k : bytes) (a b : option FileEntry.t) (l : list (bytes * (option FileEntry.t * option FileEntry.t)))
    (ms md ms' md' : gmap bytes FileEntry.t) : lists_pairs l ms md ->
  (forall p, bytes_le p k -> ms !! p = None /\ md !! p = None) -> pair_up a b <> None ->
  (forall p, ms' !! p = if decide (p = k) then a else ms !! p) ->
  (forall p, md' !! p = if decide (p = k) then b else md !! p) -> lists_pairs ((k, (a, b)) :: l) ms' md'.
Proof.
  intros [Hk Hl] Hlow Hab Hs Hd. split.
  - constructor; [done|]. apply Forall_forall. intros [p [s d]] Hp%Hl. unfold key_lt. cbn.
    destruct (bytes_lt k p) eqn:E; [done|]. destruct (Hlow p E) as [H1 H2]. by rewrite H1, H2 in Hp.
  - intros p s d. rewrite elem_of_cons, Hl, Hs, Hd. case_decide as Hp.
    + subst p. destruct (Hlow k ltac:(by apply reflexivity)) as [-> ->]. split.
      * intros [[= -> ->]|?]; [|done]. by destruct a, b.
      * intros Hp. left. destruct a, b; by simplify_eq/=.
    + split; [intros [[= ? ? ?]|?]; [done|done]|by right].
Qed.

Lemma zipm_pairs ss ds : sorted ss -> sorted ds -> lists_pairs (zipm ss ds) (to_map ss) (to_map ds).
Proof.
  intros Hs. revert ds. induction Hs as [|s ss Hss IHs Hall]; intros ds Hd.
  - induction Hd as [|d ds Hds IHd Hd].
    { split; [constructor|]. intros p s d. unfold to_map. cbn. split; [by intros H%elem_of_nil|done]. }
    rewrite zipm_nil_cons. eapply lists_pairs_cons; [exact IHd| |done|intros p; by case_decide|apply to_map_cons].
    intros p Hp. split; [done|]. eapply to_map_below; [by constructor|done].
  - assert (sorted (s :: ss)) as Hs by by constructor. induction Hd as [|d ds Hds IHd Hd].
    { rewrite zipm_cons_nil. eapply lists_pairs_cons; [apply (IHs []); constructor| |done|apply to_map_cons|intros p; by case_decide].
      intros p Hp. split; [|done]. by eapply to_map_below. }
    assert (sorted (d :: ds)) as Hd' by by constructor. rewrite zipm_cons_cons.
    destruct (bytes_lt (path s) (path d)) eqn:E1; [|destruct (bytes_lt (path d) (path s)) eqn:E2].
    + eapply lists_pairs_cons; [by apply IHs| |done|apply to_map_cons|].
      * intros p Hp. split; [by eapply to_map_below|]. apply to_map_above; [done|]. by eapply bytes_le_lt_trans.
      * intros p. case_decide; [subst; by apply to_map_above|done].
    + eapply lists_pairs_cons; [exact IHd| |done| |apply to_map_cons].
      * intros p Hp. split; [|by eapply to_map_below]. apply to_map_above; [done|]. by eapply bytes_le_lt_trans.
      * intros p. case_decide; [subst; by apply to_map_above|done].
    + pose proof (bytes_lt_total _ _ E1 E2) as Ep.
      eapply lists_pairs_cons; [by apply IHs| |done|apply to_map_cons|rewrite Ep; apply to_map_cons].
      intros p Hp. split; [by eapply to_map_below|]. eapply to_map_below; [done|]. by rewrite <- Ep.
Qed.

Lemma zipm_sorted_items ss ds : sorted ss -> sorted ds -> zipm ss ds = sorted_items (all_paths (to_map ss) (to_map ds)).
Proof.
  intros Hs Hd. destruct (zipm_pairs ss ds Hs Hd) as [Hk Hl]. apply keyed_ext; [done|apply sorted_items_keyed|].
  intros [p [s d]]. by rewrite Hl, sorted_items_elem, all_paths_lookup.
Qed.
End merge.

(** ** The streaming loop *)
Section streaming.
Context `{Percent} `{Zstd} `{!Compression.ZstdLaws}.
Context {hasher : Type} (hn : hasher) (hu : hasher -> bytes -> hasher) (hf : hasher -> Hash).

Abbreviation acts_of := (act FileEntry.size FileEntry.file_hash entry_same).
Abbreviation tally_of := (tally FileEntry.size entry_same).
Abbreviation yields := (ManifestFile.yields hn hu hf).
Abbreviation loop := (diff_loop hu hf).

(** A reader from which [cur] was taken has [l] from there on. *)
Definition stands (r : ManifestReader) (cur : option FileEntry.t) (l : list FileEntry.t) : Prop :=
  match cur with Some e => exists l', l = e :: l' /\ yields r l' | None => l = [] end.

Lemma next_stands r l : yields r l -> exists r' o, next_entry hu hf r = (r', Ok o) /\ stands r' o l.
Proof.
  destruct l as [|e l]; intros Hy.
  - destruct (yields_nil hn hu hf r Hy) as (r' & ->). by exists r', None.
  - destruct (yields_cons hn hu hf r e l Hy) as (r' & -> & Hy'). exists r', (Some e). split; [done|]. by exists l.
Qed.

Lemma zip_out (acts : list FileAction) (c : Counters) x l :
  (acts ++ mjoin (acts_of <$> x :: l), foldl tally_of c (x :: l)) =
  ((acts ++ acts_of x) ++ mjoin (acts_of <$> l), foldl tally_of (tally_of c x) l).
Proof. f_equal. change (mjoin (acts_of <$> x :: l)) with (acts_of x ++ mjoin (acts_of <$> l)). apply app_assoc. Qed.

Lemma diff_loop_spec fuel : forall rs rd cs cd ss ds acts c, stands rs cs ss -> stands rd cd ds ->
  (length ss + length ds < fuel)%nat ->
  loop fuel rs rd cs cd acts c = Ok (acts ++ mjoin (acts_of <$> zipm ss ds), foldl tally_of c (zipm ss ds)).
Proof.
  induction fuel as [|fuel IH]; intros rs rd cs cd ss ds acts c Hs Hd Hf; [lia|]. cbn [diff_loop].
  destruct cs as [s|]; [destruct Hs as (ss' & -> & Hs)|unfold stands in Hs; subst ss];
    (destruct cd as [d|]; [destruct Hd as (ds' & -> & Hd)|unfold stands in Hd; subst ds]); cbn [length] in Hf.
  - destruct (next_stands rs ss' Hs) as (rs' & os & Ens & Hs'). destruct (next_stands rd ds' Hd) as (rd' & od & End & Hd').
    rewrite zipm_cons_cons, Ens, End. cbn [obind]. destruct (bytes_lt (FileEntry.path s) (FileEntry.path d));
      [|destruct (bytes_lt (FileEntry.path d) (FileEntry.path s))]; rewrite zip_out.
    + apply (IH _ _ _ _ ss' (d :: ds')); [done|by exists ds'|cbn; lia].
    + apply (IH _ _ _ _ (s :: ss') ds'); [by exists ss'|done|cbn; lia].
    + destruct (entry_same s d) eqn:Es; cbn [acts_of act tally snd]; rewrite Es; (apply (IH _ _ _ _ ss' ds'); [done|done|lia]).
  - destruct (next_stands rs ss' Hs) as (rs' & os & Ens & Hs'). rewrite zipm_cons_nil, Ens, zip_out. cbn [obind].
    apply (IH _ _ _ _ ss' []); [done|done|cbn; lia].
  - destruct (next_stands rd ds' Hd) as (rd' & od & End & Hd'). rewrite zipm_nil_cons, End, zip_out. cbn [obind].
    apply (IH _ _ _ _ [] ds'); [done|done|cbn; lia].
  - by rewrite app_nil_r.
Qed.

Lemma diff_readers_spec fuel rs rd ss ds : yields rs ss -> yields rd ds -> StronglySorted by_path ss -> StronglySorted by_path ds ->
  (length ss + length ds < fuel)%nat ->
  diff_manifest_readers hu hf fuel rs rd =
  Ok (reconcile FileEntry.size FileEntry.file_hash entry_same (to_map ss) (to_map ds),
      summarize (totals FileEntry.size entry_same (to_map ss) (to_map ds))).
Proof.
  intros Hs Hd Ss Sd Hf. unfold diff_manifest_readers.
  destruct (next_stands rs ss Hs) as (rs' & os & -> & Hs'). destruct (next_stands rd ds Hd) as (rd' & od & -> & Hd').
  cbn [obind]. rewrite (diff_loop_spec fuel _ _ _ _ ss ds) by done. cbn [obind app].
  unfold reconcile, totals. by rewrite zipm_sorted_items.
Qed.
End streaming.

(** ** Totals *)
Section totals.
Context {E : Type} (size : E -> Z) (hash : E -> Hash) (same : E -> E -> bool).

Definition count (t : FileActionType) (l : list FileAction) : Z := zlen (filter (fun a => action a = t) l).
Definition sum (f : FileAction -> Z) (l : list FileAction) : Z := foldr Z.add 0 (f <$> l).

(** The counters a list of actions stands for. *)
Definition counters_of (l : list FileAction) : Counters :=
  mkCounters (count FUnchanged l) (count FModify l) (count FAdd l) (count FDelete l)
    (wrap 64 (sum bytes_reusable l)) (wrap 64 (sum bytes_to_transfer l)).

Lemma count_app t l l' : count t (l ++ l') = count t l + count t l'.
Proof. unfold count. by rewrite filter_app, zlen_app. Qed.
Lemma sum_app f l l' : sum f (l ++ l') = sum f l + sum f l'.
Proof. unfold sum. rewrite fmap_app. induction (f <$> l) as [|x r IH]; [done|]. cbn. rewrite IH. lia. Qed.

Lemma wrap_add_idemp x y : wrap 64 (wrap 64 x + y) = wrap 64 (x + y).
Proof. unfold wrap. by rewrite Zplus_mod_idemp_l. Qed.

Lemma count_one t a : count t [a] = if decide (action a = t) then 1 else 0.
Proof. unfold count. rewrite filter_cons, filter_nil. by case_decide. Qed.
Lemma count_none t : count t [] = 0.
Proof. done. Qed.
Lemma sum_one f a : sum f [a] = f a.
Proof. unfold sum. cbn. lia. Qed.
Lemma sum_none f : sum f [] = 0.
Proof. done. Qed.

Lemma counters_snoc l x : counters_of (l ++ act size hash same x) = tally size same (counters_of l) x.
Proof.
  assert (forall v, wrap 64 (wrap 64 v + 0) = wrap 64 v) as H0 by (intros; rewrite wrap_add_idemp; f_equal; lia).
  destruct x as [p [s d]]. unfold counters_of. rewrite !count_app, !sum_app.
  destruct s as [s|], d as [d|]; cbn [act tally snd]; [destruct (same s d)|..];
    rewrite ?count_one, ?count_none, ?sum_one, ?sum_none; cbn [action unchanged_action modify_action add_action delete_action
      bytes_reusable bytes_to_transfer]; repeat (case_decide; [|]); try done;
    unfold count_unchanged, count_modified, count_added, count_deleted; cbn [n_unchanged n_modified n_added n_deleted data_present
      data_to_transfer]; rewrite ?wrap_add_idemp, ?Z.add_0_r; done.
Qed.

Lemma totals_counters src dst : totals size same src dst = counters_of (reconcile size hash same src dst).
Proof.
  unfold totals, reconcile. generalize (sorted_items (all_paths src dst)). intros l.
  assert (forall acts, foldl (tally size same) (counters_of acts) l = counters_of (acts ++ mjoin (act size hash same <$> l))) as H.
  2: { exact (H []). }
  induction l as [|x l IH]; intros acts; [by rewrite app_nil_r|]. cbn [foldl].
  change (mjoin (act size hash same <$> x :: l)) with (act size hash same x ++ mjoin (act size hash same <$> l)).
  by rewrite <- counters_snoc, IH, app_assoc.
Qed.

(** Actions are in strict order of their paths. *)
Lemma reconcile_sorted src dst : StronglySorted (fun a b => bytes_lt (rel_path a) (rel_path b) = true) (reconcile size hash same src dst).
Proof.
  unfold reconcile. pose proof (sorted_items_keyed (all_paths src dst)) as Hk.
  induction Hk as [|x l Hl IH Hx]; [constructor|].
  change (mjoin (act size hash same <$> x :: l)) with (act size hash same x ++ mjoin (act size hash same <$> l)).
  assert (forall x a, a ∈ act size hash same x -> rel_path a = x.1) as Hp.
  { intros [p [s d]] a. destruct s as [s|], d as [d|]; cbn [act]; [destruct (same s d)|..]; intros Ha; 
      first [by apply elem_of_nil in Ha|apply list_elem_of_singleton in Ha as ->; done]. }
  assert (forall a b, a ∈ act size hash same x -> b ∈ mjoin (act size hash same <$> l) -> bytes_lt (rel_path a) (rel_path b) = true) as Hlt.
  { intros a b Ha (l' & Hb & (y & -> & Hy)%list_elem_of_fmap)%list_elem_of_join. rewrite (Hp _ _ Ha), (Hp _ _ Hb).
    rewrite Forall_forall in Hx. by apply Hx. }
  destruct (act size hash same x) as [|a [|a' r]] eqn:Ea; [done| |].
  - cbn [app]. constructor; [done|]. apply Forall_forall. intros b Hb. apply Hlt; [left|done].
  - exfalso. destruct x as [p [[s|] [d|]]]; done.
Qed.
End totals.

(** ** Main results *)

(** C33. The plan of a sync. For any source and destination maps, planning succeeds; the actions are in
    strict order of their paths; carrying them out leaves at every path the source's entry, or the
    destination's own where the two count as the same, and nothing where the source has nothing; and
    the summary counts the actions and their bytes. *)
Theorem plan_reconciles `{Percent} (current : PlatformOs) (xp : XattrPolicy) (ap : AclPolicy) (src dst : gmap bytes ScannedEntry) : map_Forall (fun _ => xattrs_bytes) src ->
  exists acts, plan_directory_diff_with_options current src dst xp ap = Ok (mkPlan acts (summarize (counters_of acts))) /\
    StronglySorted (fun a b => bytes_lt (rel_path a) (rel_path b) = true) acts /\
    forall p, foldl (perform src) dst acts !! p =
      match src !! p, dst !! p with
      | Some s, Some d => Some (if sameb current xp ap s d then d else s)
      | Some s, None => Some s
      | None, _ => None
      end.
Proof.
  intros Hx. eexists. rewrite plan_is_reconcile by done. rewrite (totals_counters se_size se_hash). split; [done|].
  split; [apply reconcile_sorted|]. intros p. apply reconcile_effect.
Qed.

(** C21. The streaming diff. Two manifests, written by the manifest writer from well-formed entries in strict
    order of their paths, with batches within the decompression limit of the reader (which the writer does not
    check), are compared in one pass, which ends: the actions and the summary are those of the reconciliation
    of the two sets of entries, and carrying them out makes the destination's entries the source's, up to
    entries that count as the same. Compressed batches are assumed to be shorter than 4 GiB. *)
Theorem streaming_diff_correct `{Percent} `{Zstd} `{!Compression.ZstdLaws} {hasher : Type} (hn : hasher) hu hf params
    ss ds bs es fs bd ed fd fuel :
  (forall data level c, encode_all data level = Some c -> zlen data <= Limits.MAX_BATCH_DECOMPRESSED_BYTES -> zlen c < 2 ^ 32) ->
  Forall ManifestCodec.entry_ok ss -> Forall small (batches ss) ->
  Forall ManifestCodec.entry_ok ds -> Forall small (batches ds) ->
  StronglySorted by_path ss -> StronglySorted by_path ds ->
  (let? w := add_entries hu (writer_new hn params) ss in writer_finish hu hf w) = Ok (bs, es, fs) ->
  (let? w := add_entries hu (writer_new hn params) ds in writer_finish hu hf w) = Ok (bd, ed, fd) ->
  (length ss + length ds < fuel)%nat ->
  exists acts, diff_manifest_spill_files hn hu hf fuel fs (ManifestBegin.manifest_hash bs) fd (ManifestBegin.manifest_hash bd) =
      Ok (acts, summarize (counters_of acts)) /\
    acts = reconcile FileEntry.size FileEntry.file_hash entry_same (to_map ss) (to_map ds) /\
    forall p, foldl (perform (to_map ss)) (to_map ds) acts !! p = effect entry_same (to_map ss !! p) (to_map ds !! p).
Proof.
  intros Hexp Hs Hsm Hd Hdm Ss Sd Ws Wd Hf. eexists. split; [|split; [reflexivity|intros p; apply reconcile_effect]].
  destruct (written_yields hn hu hf Hexp params ss bs es fs Hs Hsm Ws) as (_ & _ & rs & Hrs & Ys).
  destruct (written_yields hn hu hf Hexp params ds bd ed fd Hd Hdm Wd) as (_ & _ & rd & Hrd & Yd).
  unfold diff_manifest_spill_files. rewrite Hrs. cbn [obind]. rewrite Hrd. cbn [obind].
  rewrite (diff_readers_spec hn hu hf fuel rs rd ss ds) by done. by rewrite (totals_counters FileEntry.size FileEntry.file_hash).
Qed.

Module DiffExamples.
Import ManifestFileExamples ManifestEntryExamples ManifestCodec TrimCodec.

(** Percentages as integers. *)
Definition int_percent : Percent := {| percent := Z; pct_zero := 0; pct_of a b := a * 100 / b; pct_gt a b := b <? a |}.
#[local] Existing Instance int_percent.

Definition src : gmap bytes ScannedEntry := {[ lit "a" := scanned_file 3 [1]; lit "b" := scanned_file 5 [2] ]}.
Definition dst : gmap bytes ScannedEntry := {[ lit "b" := scanned_file 5 [2]; lit "c" := scanned_file 9 [3] ]}.

Lemma plan_reconciles_witness : exists acts,
  plan_directory_diff_with_options Linux src dst XTransmute ATransmute = Ok (mkPlan acts (summarize (counters_of acts))) /\
  foldl (perform src) dst acts !! lit "a" = Some (scanned_file 3 [1]) /\ foldl (perform src) dst acts !! lit "c" = None.
Proof.
  destruct (plan_reconciles Linux XTransmute ATransmute src dst) as (acts & Hp & _ & Hc).
  - unfold src. apply map_Forall_insert_2; [constructor|]. apply map_Forall_singleton. constructor.
  - exists acts. split; [exact Hp|]. split; rewrite Hc; vm_compute; reflexivity.
Defined.

Definition plain : FileEntry.t := FileEntry.regular (lit "b") 3 420 0 0 h1 [ChunkDesc.new 3 h1].
Lemma plain_ok : entry_ok plain.
Proof.
  apply regular_ok; try done.
  - apply path_ok. by vm_compute.
  - apply h1_ok.
  - repeat constructor; try done; apply h1_ok.
Qed.

Lemma streaming_diff_correct_witness : exists bs es fs bd ed fd acts,
  (let? w := add_entries update (writer_new [] ChunkParams.default) [plain; sparse] in writer_finish update digest w) = Ok (bs, es, fs) /\
  (let? w := add_entries update (writer_new [] ChunkParams.default) [sparse] in writer_finish update digest w) = Ok (bd, ed, fd) /\
  diff_manifest_spill_files [] update digest 4 fs (ManifestBegin.manifest_hash bs) fd (ManifestBegin.manifest_hash bd) =
    Ok (acts, summarize (counters_of acts)) /\
  action <$> acts = [FAdd; FUnchanged].
Proof.
  eexists _, _, _, _, _, _, _. split; [vm_compute; reflexivity|]. split; [vm_compute; reflexivity|].
  match goal with |- diff_manifest_spill_files _ _ _ _ ?f (ManifestBegin.manifest_hash ?b) ?f' (ManifestBegin.manifest_hash ?b') = _ /\ _ =>
    destruct (streaming_diff_correct (H0 := trim_zstd) [] update digest ChunkParams.default [plain; sparse] [sparse]
      b (ManifestEnd.mk (ManifestBegin.manifest_hash b)) f b' (ManifestEnd.mk (ManifestBegin.manifest_hash b')) f' 4) as (acts & Hd & -> & _) end.
  - exact trim_expansion.
  - apply Forall_cons_2; [exact plain_ok|]. apply Forall_singleton, sparse_ok.
  - constructor; [|constructor]. unfold small. vm_compute. discriminate.
  - apply Forall_singleton, sparse_ok.
  - constructor; [|constructor]. unfold small. vm_compute. discriminate.
  - repeat constructor.
  - repeat constructor.
  - vm_compute. reflexivity.
  - vm_compute. reflexivity.
  - cbn. lia.
  - split; [exact Hd|]. vm_compute. reflexivity.
Defined.
End DiffExamples.
