(* ===== verification/Scanner.v ===== *)
(** * Scanning a directory tree into a manifest, manifest/scanner.rs

    The file system is a tree: what the successive reads of a file return, the metadata the scanner
    asks for, and the content of its attribute sidecar when there is one. A symbolic link's target is
    its UTF-8 bytes. Entries go to the manifest writer in the order of a depth-first walk that takes
    the names of a directory in byte order; the streaming diff expects the byte order of whole paths,
    and the two differ where a name continues another with a byte below the slash. *)

From S2P Require Import Prelude Utf8 Protocol Varint Wire MsgManifest Chunking ChunkEngine Paths ManifestEntry Compression ManifestFile Xattr DirectoryDiff.
Import Str.

Inductive node :=
  | NFile (reads : list (string + bytes)) (len mode mtime_sec mtime_nsec : Z) (sidecar : option bytes)
  | NLink (target : bytes) (mtime_sec mtime_nsec : Z) (sidecar : option bytes)
  | NDir (children : list (bytes * node)).

(** Names the scanner leaves out. *)
Definition skipped (name : bytes) : bool :=
  starts_with (lit ".velcrux-staging") name || starts_with (lit ".velcrux-chunks") name
  || ends_with (lit ".velcrux-partial") name || ends_with (lit ".velcrux-xattr") name
  || ends_with (lit ".velcrux-manifest.sig") name || eqs name ".velcrux-manifest.sig"
  || starts_with (lit ".velcrux-journal") name || starts_with (lit ".velcrux-backup") name
  || starts_with (lit ".velcrux-shadow") name.

(** [path.to_str()] and [VPath::validate]. *)
Definition to_vpath (rel : bytes) : vresult VPath.t :=
  let? s := ok_or (Utf8.from_utf8 rel) (EProtocol InvalidPath) in
  map_err (fun e => EProtocol (InvalidManifest (VPath.fmt e))) (VPath.validate s).

(** [decode_xattrs_canonical(&bytes).unwrap_or_default()]. *)
Definition sidecar_xattrs (sidecar : option bytes) : vresult (list (bytes * bytes)) :=
  match sidecar with
  | None => Ok []
  | Some b =>
      match Sidecar.decode_xattrs_canonical b with Ok xs => Ok xs | Err _ => Ok [] | Panic => Panic end
  end.

Section scanner.
Context `{Zstd}.
Context {hasher : Type} (hasher_new : hasher) (hasher_update : hasher -> bytes -> hasher) (hasher_finalize : hasher -> Hash).
Context (blake3 : bytes -> Hash) (mode : ChunkMode) (params : ChunkParams.t).

Definition scan_single_file (rel : bytes) (n : node) (w : ManifestWriter) : vresult ManifestWriter :=
  let? vpath := to_vpath rel in
  match n with
  | NDir _ => add_entry hasher_update w (FileEntry.directory vpath 493 0 0)
  | NLink target mtime_sec mtime_nsec sidecar =>
      let? xattrs := sidecar_xattrs sidecar in
      add_entry hasher_update w
        (FileEntry.with_xattrs (FileEntry.symlink_with_target blake3 vpath 511 mtime_sec mtime_nsec target) xattrs)
  | NFile reads len fmode mtime_sec mtime_nsec sidecar =>
      let? xattrs := sidecar_xattrs sidecar in
      let? '(chunks, file_hash, _) :=
        chunk_reader blake3 hasher_new hasher_update hasher_finalize (fun acc desc _ => Ok (acc ++ [desc])) reads mode params [] in
      add_entry hasher_update w
        (FileEntry.with_xattrs (FileEntry.regular vpath len fmode mtime_sec mtime_nsec file_hash chunks) xattrs)
  end.

(** The entries of one directory, in the order of [sort_by_key(file_name)]. *)
Definition listed (children : list (bytes * node)) : list (bytes * node) :=
  merge_sort key_le (filter (fun c => skipped c.1 = false) children).

Definition join_path (dir name : bytes) : bytes := match dir with [] => name | _ => dir ++ SLASH :: name end.

(** The fuel bounds the depth of the tree. *)
Fixpoint scan_dir_recursive (fuel : nat) (dir : bytes) (children : list (bytes * node)) (w : ManifestWriter)
    : vresult ManifestWriter :=
  match fuel with
  | O => Panic
  | S fuel =>
      for_each (listed children) (fun '(name, n) w =>
        let rel := join_path dir name in
        match n with
        | NDir cs =>
            let? vpath := to_vpath rel in
            let? w := add_entry hasher_update w (FileEntry.directory vpath 493 0 0) in
            scan_dir_recursive fuel rel cs w
        | _ => scan_single_file rel n w
        end) w
  end.

Fixpoint height (n : node) : nat :=
  match n with
  | NDir cs => S (foldr Nat.max O ((fix go (cs : list (bytes * node)) := match cs with [] => [] | c :: cs => height c.2 :: go cs end) cs))
  | _ => O
  end.

Definition scan_directory_tree (children : list (bytes * node)) (w : ManifestWriter) : vresult ManifestWriter :=
  scan_dir_recursive (height (NDir children)) [] children w.
End scanner.

(** ** The order of the walk *)

Lemma height_children cs : height (NDir cs) = S (foldr Nat.max O ((fun c : bytes * node => height c.2) <$> cs)).
Proof. done. Qed.

Lemma height_child cs c : c ∈ cs -> (height c.2 < height (NDir cs))%nat.
Proof.
  rewrite height_children. intros Hc. induction Hc as [|c c' cs _ IH]; cbn; lia.
Qed.

(** Paths and nodes in the order in which they are visited: a child, and what is below it. *)
Definition visit (below : bytes -> list (bytes * node) -> list (bytes * node)) (dir : bytes) (c : bytes * node)
    : list (bytes * node) :=
  (join_path dir c.1, c.2) :: match c.2 with NDir cs => below (join_path dir c.1) cs | _ => [] end.
Fixpoint walk (fuel : nat) (dir : bytes) (children : list (bytes * node)) : list (bytes * node) :=
  match fuel with
  | O => []
  | S fuel => mjoin (visit (walk fuel) dir <$> listed children)
  end.

Lemma for_each_app {E S A} (l l' : list A) (f : A -> S -> outcome E S) s :
  for_each (l ++ l') f s = let? s := for_each l f s in for_each l' f s.
Proof. revert s. induction l as [|x l IH]; intros s; [done|]. cbn. destruct (f x s); [apply IH|done|done]. Qed.

Lemma listed_elem children c : c ∈ listed children -> c ∈ children.
Proof. unfold listed. rewrite merge_sort_Permutation, list_elem_of_filter. by intros [_ ?]. Qed.

Lemma scan_walk `{Zstd} {hasher : Type} (hn : hasher) hu hf blake3 mode params fuel dir children w :
  (height (NDir children) <= fuel)%nat ->
  scan_dir_recursive hn hu hf blake3 mode params fuel dir children w =
  for_each (walk fuel dir children) (fun '(rel, n) w => scan_single_file hn hu hf blake3 mode params rel n w) w.
Proof.
  revert dir children w. induction fuel as [|fuel IH]; intros dir children w Hh; [rewrite height_children in Hh; lia|].
  cbn [scan_dir_recursive walk].
  assert (forall c, c ∈ listed children -> (height c.2 <= fuel)%nat) as Hc.
  { intros c Hc. pose proof (height_child children c (listed_elem _ _ Hc)). lia. }
  revert w. induction (listed children) as [|[name n] l IHl]; intros w; [done|].
  cbn [for_each]. change (mjoin (?f <$> ?x :: l)) with (f x ++ mjoin (f <$> l)). rewrite for_each_app. cbn [visit fst snd for_each].
  assert (height n <= fuel)%nat as Hn by (apply (Hc (name, n)); left).
  assert (forall w', for_each l _ w' = _) as IHl' by (intros w'; apply IHl; intros c ?; apply Hc; by right).
  destruct n as [reads len fm ms mn sc|target ms mn sc|cs].
  - destruct (scan_single_file _ _ _ _ _ _ _ _ _); cbn [obind]; [apply IHl'|done|done].
  - destruct (scan_single_file _ _ _ _ _ _ _ _ _); cbn [obind]; [apply IHl'|done|done].
  - unfold scan_single_file. destruct (to_vpath (join_path dir name)); cbn [obind]; [|done|done].
    destruct (add_entry _ _ _) as [w1| |]; cbn [obind]; [|done|done]. rewrite IH by done.
    destruct (for_each (walk _ _ _) _ _); cbn [obind]; [apply IHl'|done|done].
Qed.

(** Paths compared component by component: the slash sorts below every byte of a name. *)
Definition slash_low (p : bytes) : bytes := (fun b => if b =? SLASH then 0 else b) <$> p.
Definition before (p q : bytes) : Prop := bytes_lt (slash_low p) (slash_low q) = true.

Definition name_ok (n : bytes) : Prop := n <> [] /\ Forall (fun b => 0 < b /\ b <> SLASH) n.

(** Directories in which every name occurs once. *)
Fixpoint tree_ok (fuel : nat) (children : list (bytes * node)) : Prop :=
  match fuel with
  | O => True
  | S fuel => NoDup children.*1 /\ Forall (fun c => name_ok c.1 /\ match c.2 with NDir cs => tree_ok fuel cs | _ => True end) children
  end.

Lemma slash_low_name n : name_ok n -> slash_low n = n.
Proof.
  intros [_ H]. unfold slash_low. induction H as [|b n [Hb1 Hb2] _ IH]; [done|]. cbn. rewrite (proj2 (Z.eqb_neq _ _)) by done.
  by f_equal.
Qed.

Lemma name_lt_app n m x y : Forall (fun b => 0 < b) m -> bytes_lt n m = true -> (x = [] \/ exists x', x = 0 :: x') ->
  bytes_lt (n ++ x) (m ++ y) = true.
Proof.
  intros Hm. revert n. induction Hm as [|c m Hc Hm IH]; intros n Hlt Hx.
  { by destruct n. }
  destruct n as [|b n]; cbn [app].
  - destruct Hx as [->|[x' ->]]; [done|]. cbn [bytes_lt]. by rewrite (proj2 (Z.ltb_lt _ _)).
  - apply bytes_lt_cons in Hlt as [Hlt|[-> Hlt]]; apply bytes_lt_cons; [by left|right; split; [done|by apply IH]].
Qed.

Lemma bytes_lt_app p x y : bytes_lt (p ++ x) (p ++ y) = bytes_lt x y.
Proof. induction p as [|b p IH]; [done|]. cbn. by rewrite Z.ltb_irrefl, Z.eqb_refl, IH. Qed.

Lemma slash_low_app p q : slash_low (p ++ q) = slash_low p ++ slash_low q.
Proof. apply fmap_app. Qed.

(** What comes before the names of a directory. *)
Definition stem_of (dir : bytes) : bytes := match dir with [] => [] | _ => slash_low dir ++ [0] end.
Lemma slash_low_join dir name : name_ok name -> slash_low (join_path dir name) = stem_of dir ++ name.
Proof.
  intros Hn. destruct dir as [|b dir]; [by rewrite slash_low_name|]. cbn [join_path stem_of].
  rewrite slash_low_app, <- app_assoc. f_equal. cbn. f_equal. by apply slash_low_name.
Qed.

Lemma stem_join dir name : name_ok name -> stem_of (join_path dir name) = stem_of dir ++ name ++ [0].
Proof.
  intros Hn. rewrite app_assoc, <- slash_low_join by done. unfold stem_of at 1.
  destruct (join_path dir name) eqn:E; [|done]. exfalso. destruct Hn as [Hn _]. by destruct dir.
Qed.

(** Everything visited from a child lies at or below it. *)
Definition child_ok (fuel : nat) (c : bytes * node) : Prop :=
  name_ok c.1 /\ match c.2 with NDir cs => tree_ok fuel cs | _ => True end.

Lemma visit_below below dir c p : name_ok c.1 ->
  (forall cs q, c.2 = NDir cs -> q ∈ (below (join_path dir c.1) cs).*1 -> exists y, slash_low q = stem_of (join_path dir c.1) ++ y) ->
  p ∈ (visit below dir c).*1 -> exists x, slash_low p = stem_of dir ++ c.1 ++ x /\ (x = [] \/ exists x', x = 0 :: x').
Proof.
  intros Hn Hb Hp. unfold visit in Hp. cbn [fmap list_fmap fst] in Hp. apply elem_of_cons in Hp as [->|Hp].
  - exists []. rewrite app_nil_r, slash_low_join by done. by split; [|left].
  - destruct (c.2) as [| |cs]; [by apply elem_of_nil in Hp..|]. destruct (Hb cs p eq_refl Hp) as [y ->].
    exists (0 :: y). rewrite stem_join, <- !app_assoc by done. split; [done|]. right. by exists y.
Qed.

Lemma walk_below fuel dir children p : tree_ok fuel children -> p ∈ (walk fuel dir children).*1 ->
  exists y, slash_low p = stem_of dir ++ y.
Proof.
  revert dir children p. induction fuel as [|fuel IH]; intros dir children p Ht Hp; [by apply elem_of_nil in Hp|].
  destruct Ht as [_ Ht]. rewrite Forall_forall in Ht. cbn [walk] in Hp.
  apply list_elem_of_fmap in Hp as (pn & -> & Hp). apply list_elem_of_join in Hp as (l & Hp & (c & -> & Hc)%list_elem_of_fmap).
  destruct (Ht c (listed_elem _ _ Hc)) as [Hn Hsub]. destruct (visit_below (walk fuel) dir c pn.1 Hn) as (x & -> & _).
  - intros cs q E Hq. rewrite E in Hsub. by eapply IH.
  - by apply list_elem_of_fmap_2.
  - by eexists.
Qed.

Lemma sorted_app {A} (R : A -> A -> Prop) l l' : StronglySorted R l -> StronglySorted R l' ->
  (forall x y, x ∈ l -> y ∈ l' -> R x y) -> StronglySorted R (l ++ l').
Proof.
  intros Hl Hl' H. induction Hl as [|x l _ IH Hx]; [done|]. cbn. constructor.
  - apply IH. intros y z Hy. apply H. by right.
  - apply Forall_app. split; [done|]. apply Forall_forall. intros y Hy. apply H; [left|done].
Qed.

Lemma listed_sorted children : NoDup children.*1 -> keyed (listed children).
Proof.
  intros Hnd. apply merge_keyed. induction children as [|c l IH]; [done|]. cbn in Hnd. apply NoDup_cons in Hnd as [Hc Hnd].
  rewrite filter_cons. case_decide; [|by apply IH]. cbn. apply NoDup_cons. split; [|by apply IH].
  intros (c' & Ec & [_ Hc']%list_elem_of_filter)%list_elem_of_fmap. apply Hc. rewrite Ec. by apply list_elem_of_fmap_2.
Qed.

Lemma visit_sorted fuel dir c : child_ok fuel c ->
  (forall cs, c.2 = NDir cs -> StronglySorted before (walk fuel (join_path dir c.1) cs).*1) ->
  StronglySorted before (visit (walk fuel) dir c).*1.
Proof.
  intros [Hn Hsub] Hw. unfold visit. cbn [fmap list_fmap fst]. destruct (c.2) as [| |cs]; [by repeat constructor..|].
  constructor; [by apply Hw|]. apply Forall_forall. intros q Hq. destruct (walk_below _ _ _ _ Hsub Hq) as [y Hy].
  unfold before. rewrite Hy, slash_low_join, stem_join by done.
  rewrite <- (app_nil_r (stem_of dir ++ c.1)), <- !app_assoc, !bytes_lt_app. done.
Qed.

Lemma walk_sorted fuel dir children : tree_ok fuel children -> StronglySorted before (walk fuel dir children).*1.
Proof.
  revert dir children. induction fuel as [|fuel IH]; intros dir children Ht; [constructor|]. destruct Ht as [Hnd Ht].
  assert (Forall (child_ok fuel) (listed children)) as Hl.
  { rewrite Forall_forall in Ht |- *. intros c Hc. apply Ht. by apply listed_elem. }
  pose proof (listed_sorted children Hnd) as Hs. cbn [walk]. clear Ht Hnd. induction Hs as [|c l Hs IHs Hc]; [constructor|].
  apply Forall_cons in Hl as [Hc0 Hl]. change (mjoin (?f <$> c :: l)) with (f c ++ mjoin (f <$> l)). rewrite fmap_app.
  assert (forall c p, child_ok fuel c -> p ∈ (visit (walk fuel) dir c).*1 ->
    exists x, slash_low p = stem_of dir ++ c.1 ++ x /\ (x = [] \/ exists x', x = 0 :: x')) as Hv.
  { intros c' p [Hn Hsub] Hp. apply (visit_below (walk fuel) dir c' p Hn); [|done]. intros cs q E Hq. rewrite E in Hsub.
    by eapply walk_below. }
  apply sorted_app; [|by apply IHs|].
  - apply visit_sorted; [done|]. intros cs E. apply IH. destruct Hc0 as [_ Hsub]. by rewrite E in Hsub.
  - intros p q Hp Hq. destruct (Hv c p Hc0 Hp) as (x & Hpx & Hx).
    apply list_elem_of_fmap in Hq as (qn & -> & Hq). apply list_elem_of_join in Hq as (l' & Hq & (c' & -> & Hc')%list_elem_of_fmap).
    rewrite Forall_forall in Hl, Hc. destruct (Hv c' qn.1 (Hl c' Hc') ltac:(by apply list_elem_of_fmap_2)) as (y & Hqy & _).
    unfold before. rewrite Hpx, Hqy, bytes_lt_app. apply name_lt_app; [|by apply Hc|done].
    destruct (Hl c' Hc') as [[_ Hn'] _]. eapply Forall_impl; [apply Hn'|]. by intros b [? _].
Qed.

(** The order of a scan. Scanning a tree adds the entries of exactly its walk, each as for a single
    file, and stops at the first error; the walk of a tree without repeated names is in strict order
    of the components of the paths, a directory before what it holds. *)
Theorem scan_order `{Zstd} {hasher : Type} (hn : hasher) hu hf blake3 mode params children w :
  tree_ok (height (NDir children)) children ->
  let visited := walk (height (NDir children)) [] children in
  scan_directory_tree hn hu hf blake3 mode params children w =
    for_each visited (fun '(rel, n) w => scan_single_file hn hu hf blake3 mode params rel n w) w /\
  StronglySorted before visited.*1.
Proof. intros Ht. split; [by apply scan_walk|by apply walk_sorted]. Qed.

Module ScannerExamples.
Import ManifestFileExamples TrimCodec.

Definition file (b : Z) : node := NFile [inr [b]] 1 420 0 0 None.
Definition src_tree : list (bytes * node) := [(lit "a.txt", file 2); (lit "a", NDir [(lit "b", file 1)])].
Definition dst_tree : list (bytes * node) := [(lit "a", NDir []); (lit "a.txt", file 2)].
Definition spill (tree : list (bytes * node)) : vresult (ManifestBegin.t * ManifestEnd.t * bytes) :=
  let? w := scan_directory_tree [] update digest digest Cdc ChunkParams.default tree (writer_new [] ChunkParams.default) in
  writer_finish update digest w.

Lemma src_ok : tree_ok (height (NDir src_tree)) src_tree.
Proof.
  cbn. split; [apply NoDup_cons; split; [|apply NoDup_singleton]; by intros H%list_elem_of_singleton|].
  assert (forall n, forallb (fun b => (0 <? b) && negb (b =? SLASH)) n = true -> n <> [] -> name_ok n) as Hn.
  { intros n Hf Hne. split; [done|]. rewrite forallb_forall in Hf. apply Forall_forall. intros b Hb%list_elem_of_In.
    specialize (Hf b Hb). lia. }
  repeat (apply Forall_cons_2 || apply Forall_nil_2); cbn; split; try done; try by apply Hn.
  split; [apply NoDup_singleton|]. apply Forall_singleton. split; [by apply Hn|done].
Qed.

Lemma scan_order_witness : (walk 2 [] src_tree).*1 = [lit "a"; lit "a/b"; lit "a.txt"] /\
  StronglySorted before (walk 2 [] src_tree).*1.
Proof.
  split; [vm_compute; reflexivity|].
  destruct (scan_order (H := trim_zstd) [] update digest digest Cdc ChunkParams.default src_tree
    (writer_new [] ChunkParams.default) src_ok) as [_ Hs]. exact Hs.
Defined.

(** The diff of two scanned trees that both hold the same file [a.txt] deletes it and adds it again,
    because [a/b] is visited before [a.txt] and is above it in byte order. A caller that deletes last
    loses the file. *)
Theorem scan_order_breaks_diff `{Percent} : exists bs es fs bd ed fd acts s,
  spill src_tree = Ok (bs, es, fs) /\ spill dst_tree = Ok (bd, ed, fd) /\
  diff_manifest_spill_files [] update digest 9 fs (ManifestBegin.manifest_hash bs) fd (ManifestBegin.manifest_hash bd) = Ok (acts, s) /\
  (fun a => (rel_path a, action a)) <$> acts =
    [(lit "a", FUnchanged); (lit "a.txt", FDelete); (lit "a/b", FAdd); (lit "a.txt", FAdd)].
Proof.
  eexists _, _, _, _, _, _, _, _. split; [vm_compute; reflexivity|]. split; [vm_compute; reflexivity|].
  split; [vm_compute; reflexivity|]. vm_compute. reflexivity.
Qed.
End ScannerExamples.
