(* ===== verification/SyncPlan.v ===== *)
(** * Filters and deletion guardrails of a sync, sync/plan.rs

    The glob matcher with its backtracking loop, the path filter, the checks on planned deletions, and
    the transfer plan made from a directory plan. Percentages are those of the class [Percent]; the
    reports in text and JSON are left out. *)

From S2P Require Import Prelude Utf8 Protocol Paths Xattr DirectoryDiff.
Import Str.

(** ** Deletion modes *)

Inductive DeleteMode := DeleteNone | DeleteBefore | DeleteAfter | DeleteExcluded.
#[global] Instance DeleteMode_eq_dec : EqDecision DeleteMode.
Proof. solve_decision. Defined.

(** [Display] and [FromStr]; [None] is the error. *)
Definition mode_text (m : DeleteMode) : bytes :=
  match m with
  | DeleteNone => lit "none"
  | DeleteBefore => lit "delete-before"
  | DeleteAfter => lit "delete-after"
  | DeleteExcluded => lit "delete-excluded"
  end.
Definition mode_from_str (s : bytes) : option DeleteMode :=
  let s := to_ascii_lowercase (trim s) in
  if is_one_of s ["none"; "off"; "false"] then Some DeleteNone
  else if is_one_of s ["delete-before"; "before"] then Some DeleteBefore
  else if is_one_of s ["delete-after"; "after"; "delete"] then Some DeleteAfter
  else if is_one_of s ["delete-excluded"; "excluded"] then Some DeleteExcluded
  else None.

(** ** Globs *)
Module Glob.

Definition STAR : Z := 42.
Definition QM : Z := 63.

(** [while p_idx < pattern.len() && pattern[p_idx] == b'*'], then the test for the end. *)
Fixpoint only_stars (p : bytes) : bool :=
  match p with [] => true | c :: p' => (c =? STAR) && only_stars p' end.

(** The loop of [glob_recursive_match]; the indices of the last star are set together. *)
Fixpoint glob_loop (fuel : nat) (pattern text : bytes) (p_idx t_idx : nat) (star_p_idx star_t_idx : option nat) : pure bool :=
  match fuel with
  | O => Panic
  | S fuel =>
      match text !! t_idx with
      | None => Ok (only_stars (drop p_idx pattern))
      | Some x =>
          let back :=
            match star_p_idx, star_t_idx with
            | Some sp, Some st => glob_loop fuel pattern text sp (st + 1)%nat (Some sp) (Some (st + 1)%nat)
            | _, _ => Ok false
            end in
          match pattern !! p_idx with
          | None => back
          | Some c =>
              if (c =? QM) || (c =? x) then glob_loop fuel pattern text (p_idx + 1)%nat (t_idx + 1)%nat star_p_idx star_t_idx
              else if c =? STAR then
                let p_idx :=
                  (if bool_decide (pattern !! (p_idx + 1)%nat = Some STAR)
                   then if bool_decide (pattern !! (p_idx + 2)%nat = Some SLASH) then p_idx + 3 else p_idx + 2
                   else p_idx + 1)%nat in
                glob_loop fuel pattern text p_idx t_idx (Some p_idx) (Some t_idx)
              else back
          end
      end
  end.

(** Every star moves the pattern on, every step back moves the star, every other step the text. *)
Definition glob_fuel (pattern text : bytes) : nat :=
  ((length pattern + 2) * (length text + 1) * (length text + 1))%nat.

Definition glob_recursive_match (pattern text : bytes) : pure bool :=
  glob_loop (glob_fuel pattern text) pattern text 0 0 None None.

(** [trim_end_matches('/')], [strip_suffix], [rsplit('/').next()]. *)
Fixpoint drop_slashes (s : bytes) : bytes :=
  match s with b :: s' => if b =? SLASH then drop_slashes s' else s | [] => [] end.
Definition trim_end_slashes (s : bytes) : bytes := reverse (drop_slashes (reverse s)).
Definition strip_suffix (p s : bytes) : option bytes :=
  if ends_with p s then Some (take (length s - length p) s) else None.
Definition file_name (s : bytes) : bytes := List.last (split_on SLASH s) [].
Definition has (c : Z) (s : bytes) : bool := existsb (Z.eqb c) s.
Definition normalize (s : bytes) : bytes := replace [BACKSLASH] [SLASH] (trim s).

Definition matches_glob (pattern path : bytes) : pure bool :=
  let p := normalize pattern in
  let t := normalize path in
  if eqs p "*" || eqs p "**" then Ok true
  else if bool_decide (p = t) then Ok true
  else if starts_with (lit "*.") p && negb (has SLASH (drop 2 p)) && negb (has STAR (drop 2 p))
  then Ok (ends_with (drop 1 p) t)
  else
    match strip_suffix (lit "/**") p with
    | Some prefix =>
        let prefix := trim_end_slashes prefix in
        Ok (bool_decide (t = prefix) || starts_with (prefix ++ [SLASH]) t)
    | None =>
    match strip_suffix (lit "/*") p with
    | Some prefix =>
        let prefix := trim_end_slashes prefix in
        match strip_prefix (prefix ++ [SLASH]) t with
        | Some rest => Ok (negb (has SLASH rest))
        | None => Ok false
        end
    | None =>
    if match strip_suffix [SLASH] p with
       | Some prefix => bool_decide (t = prefix) || starts_with (prefix ++ [SLASH]) t
       | None => false
       end then Ok true
    else
    match (prefix ← strip_suffix [STAR] p; if negb (has STAR prefix) && negb (has QM prefix) then Some prefix else None) with
    | Some prefix => Ok (starts_with prefix (file_name t) || starts_with prefix t)
    | None =>
    match (suffix ← strip_prefix [STAR] p; if negb (has STAR suffix) && negb (has QM suffix) then Some suffix else None) with
    | Some suffix => Ok (ends_with suffix (file_name t))
    | None =>
    match (if starts_with [STAR] p && ends_with [STAR] p && (2 <? zlen p)
           then let sub := take (length p - 2) (drop 1 p) in
                if negb (has STAR sub) && negb (has QM sub) then Some sub else None
           else None) with
    | Some sub => Ok (contains sub t)
    | None =>
    if negb (has SLASH p) && bool_decide (file_name t = p) then Ok true
    else glob_recursive_match p t
    end end end end end.

Record PathFilter := mkFilter { exclude_patterns : list bytes; include_patterns : list bytes }.
Definition filter_new : PathFilter := mkFilter [] [].
Definition add_exclude (f : PathFilter) (p : bytes) : PathFilter := mkFilter (exclude_patterns f ++ [p]) (include_patterns f).
Definition add_include (f : PathFilter) (p : bytes) : PathFilter := mkFilter (exclude_patterns f) (include_patterns f ++ [p]).

(** The first pattern of a list that matches ends its loop. *)
Fixpoint any_match (patterns : list bytes) (path : bytes) : pure bool :=
  match patterns with
  | [] => Ok false
  | p :: ps => let? b := matches_glob p path in if b then Ok true else any_match ps path
  end.
Definition is_excluded (f : PathFilter) (rel_path : bytes) : pure bool :=
  let norm_path := replace [BACKSLASH] [SLASH] rel_path in
  let? inc := any_match (include_patterns f) norm_path in
  if inc then Ok false else any_match (exclude_patterns f) norm_path.
End Glob.

(** ** Guardrails *)
Section guardrails.
Context `{Percent}.

Inductive DeleteSafetyError :=
  | MaxFilesExceeded (attempted limit : Z)
  | MaxPercentageExceeded (attempted_pct limit_pct : percent)
  | PathEscapeAttempt (path : bytes)
  | ProtectedPath (path : bytes)
  | InvalidDestinationRoot.

Record DeleteGuardrails := mkGuardrails {
  max_delete_files : option Z; max_delete_pct : option percent; force_delete : bool }.
Definition permissive : DeleteGuardrails := mkGuardrails None None false.
Definition with_max_delete_files (g : DeleteGuardrails) (max : option Z) : DeleteGuardrails :=
  mkGuardrails max (max_delete_pct g) (force_delete g).
Definition with_max_delete_pct (g : DeleteGuardrails) (pct : option percent) : DeleteGuardrails :=
  mkGuardrails (max_delete_files g) pct (force_delete g).
Definition with_force_delete (g : DeleteGuardrails) (force : bool) : DeleteGuardrails :=
  mkGuardrails (max_delete_files g) (max_delete_pct g) force.

Definition validate_deletions (g : DeleteGuardrails) (total_dst_files delete_count : Z) : outcome DeleteSafetyError unit :=
  if force_delete g || (delete_count =? 0) then Ok tt
  else
    let? _ := match max_delete_files g with
              | Some limit => if limit <? delete_count then Err (MaxFilesExceeded delete_count limit) else Ok tt
              | None => Ok tt
              end in
    match max_delete_pct g with
    | Some limit_pct =>
        if 0 <? total_dst_files then
          let pct := pct_of delete_count total_dst_files in
          if pct_gt pct limit_pct then Err (MaxPercentageExceeded pct limit_pct) else Ok tt
        else Ok tt
    | None => Ok tt
    end.

(** [Path::components] of a relative Unix path: empty components and dots are left out, except a
    dot at the front. *)
Inductive Component := CurDir | ParentDir | Normal (name : bytes).
Fixpoint components_from (first : bool) (cs : list bytes) : list Component :=
  match cs with
  | [] => []
  | c :: cs =>
      (if bool_decide (c = []) then []
       else if eqs c "." then if first then [CurDir] else []
       else if eqs c ".." then [ParentDir] else [Normal c]) ++ components_from false cs
  end.
Definition components (s : bytes) : list Component := components_from true (split_on SLASH s).

(** [PathBuf::join] of a relative path. *)
Definition path_join (root rel : bytes) : bytes :=
  if bool_decide (root = []) || ends_with [SLASH] root then root ++ rel else root ++ SLASH :: rel.

Definition is_parent (c : Component) : bool := match c with ParentDir => true | _ => false end.

Definition validate_deletion_path (rel_path dst_root : bytes) : outcome DeleteSafetyError bytes :=
  let clean := replace [BACKSLASH] [SLASH] (trim rel_path) in
  if bool_decide (clean = []) || eqs clean "." || eqs clean ".." || starts_with [SLASH] clean
  then Err (PathEscapeAttempt rel_path)
  else if starts_with (lit ".velcrux-staging") clean || starts_with (lit ".velcrux-chunks") clean || starts_with (lit ".git") clean
  then Err (ProtectedPath rel_path)
  else if existsb is_parent (components clean) then Err (PathEscapeAttempt rel_path)
  else Ok (path_join dst_root clean).

(** ** The transfer plan *)

Record TransferPlan := mkTransferPlan {
  source_path : bytes; destination_path : bytes; total_files : Z; files_unchanged : Z; files_modified : Z;
  files_added : Z; files_deleted : Z; files_excluded : Z; total_source_bytes : Z; tp_bytes_to_transfer : Z;
  tp_bytes_reusable : Z; estimated_reduction_pct : percent; delete_mode : DeleteMode; guardrails : DeleteGuardrails;
  tp_actions : list FileAction; dry_run : bool }.

Definition from_directory_plan (src_path dst_path : bytes) (plan : DirectoryPlan) (mode : DeleteMode)
    (g : DeleteGuardrails) (files_excluded : Z) (dry_run : bool) : TransferPlan :=
  let c := counters (summary plan) in
  mkTransferPlan src_path dst_path (n_unchanged c + n_modified c + n_added c) (n_unchanged c) (n_modified c) (n_added c)
    (n_deleted c) files_excluded
    (wrap 64 (DirectoryDiff.sum src_size (filter (fun a => action a <> FDelete) (actions plan))))
    (data_to_transfer c) (data_present c) (estimated_reduction (summary plan)) mode g (actions plan) dry_run.

Definition validate_safety (p : TransferPlan) (total_dst_files : Z) : outcome DeleteSafetyError unit :=
  if decide (delete_mode p = DeleteNone) then Ok tt
  else validate_deletions (guardrails p) total_dst_files (files_deleted p).
End guardrails.

(** ** The matcher and its reference *)
Module GlobProofs.
Import Glob.

(** The rest of the pattern after a star: a second star goes with it, and a slash after that. *)
Definition after_star (p : bytes) : bytes :=
  match p with
  | c :: p' => if c =? STAR then match p' with d :: p'' => if d =? SLASH then p'' else p' | [] => [] end else p
  | [] => []
  end.

(** A pattern matches a text: character by character, a question mark for any, a star for any run of
    characters; the end of the text by stars only. *)
Inductive gmatch : bytes -> bytes -> Prop :=
  | gm_end p : Forall (eq STAR) p -> gmatch p []
  | gm_one c x p t : c <> STAR -> c = QM \/ c = x -> gmatch p t -> gmatch (c :: p) (x :: t)
  | gm_star p v x t : v ++ t <> [] -> x = v ++ t -> gmatch (after_star p) t -> gmatch (STAR :: p) x.

Lemma only_stars_iff p : only_stars p = true <-> Forall (eq STAR) p.
Proof.
  induction p as [|c p IH]; cbn; [done|]. rewrite andb_true_iff, Z.eqb_eq, IH, Forall_cons. naive_solver.
Qed.

Lemma gmatch_nil p : gmatch p [] <-> Forall (eq STAR) p.
Proof.
  split; [|apply gm_end]. inversion 1; subst; [done|]. match goal with H : [] = _ ++ _ |- _ => by rewrite <- H in * end.
Qed.

Lemma gmatch_one c x p t : c <> STAR -> gmatch (c :: p) (x :: t) <-> (c = QM \/ c = x) /\ gmatch p t.
Proof. intros Hc. split; [by inversion 1; subst|]. intros [? ?]. by apply gm_one. Qed.

Lemma gmatch_empty x t : ~ gmatch [] (x :: t).
Proof. by inversion 1. Qed.

(** A star consumes some of the text. *)
Lemma gmatch_star p x t : gmatch (STAR :: p) (x :: t) <-> exists v u, x :: t = v ++ u /\ gmatch (after_star p) u.
Proof.
  split.
  - inversion 1; subst; [done|]. by eexists _, _.
  - intros (v & u & E & H). eapply gm_star; [|exact E|done]. by rewrite <- E.
Qed.

Lemma after_star_stars p : Forall (eq STAR) p -> Forall (eq STAR) (after_star p).
Proof.
  unfold after_star. destruct 1 as [|c p <- Hp]; [constructor|]. rewrite Z.eqb_refl.
  destruct Hp as [|d p <- Hp]; [constructor|]. by apply Forall_cons.
Qed.

(** Whatever follows a star in a longer text, matches in any text it ends. *)
Lemma gmatch_star_later p v w : v ++ w <> [] -> gmatch (STAR :: p) w -> gmatch (STAR :: p) (v ++ w).
Proof.
  intros Hne H. destruct w as [|x w].
  - rewrite gmatch_nil in H. apply Forall_cons in H as [_ H]. eapply (gm_star p v _ []); [done|done|].
    by apply gmatch_nil, after_star_stars.
  - apply gmatch_star in H as (v' & u & E & H). eapply (gm_star p (v ++ v') _ u); [|by rewrite E, app_assoc|done].
    rewrite <- app_assoc, <- E. by destruct v.
Qed.

(** A part of the pattern without stars takes as many characters. *)
Lemma gmatch_segment seg q u : Forall (fun c => c <> STAR) seg -> gmatch (seg ++ q) u ->
  exists v w, u = v ++ w /\ length v = length seg /\ gmatch q w.
Proof.
  intros Hs. revert u. induction Hs as [|c seg Hc _ IH]; intros u Hu; [by exists [], u|]. destruct u as [|x u].
  - apply gmatch_nil in Hu. cbn in Hu. apply Forall_cons in Hu as [Hu _]. by subst.
  - cbn in Hu. apply gmatch_one in Hu as [_ Hu]; [|done]. destruct (IH u Hu) as (v & w & -> & Hl & Hw).
    exists (x :: v), w. cbn. by rewrite Hl.
Qed.

Section loop.
Context (P T : bytes) (HT : STAR ∉ T).
Open Scope nat_scope.

(** What stepping back to the last star can still reach. *)
Definition later (sp st : option nat) : Prop :=
  match sp, st with
  | Some sp, Some st => exists j, st < j <= length T /\ gmatch (drop sp P) (drop j T)
  | _, _ => False
  end.

(** Since the last star as many characters of the pattern as of the text were matched, none a star. *)
Definition since_star (p t : nat) (sp st : option nat) : Prop :=
  match sp, st with
  | Some sp, Some st => sp <= p /\ st <= t /\ p - sp = t - st /\ Forall (fun c => c <> STAR) (take (p - sp) (drop sp P))
  | None, None => True
  | _, _ => False
  end.

Definition measure (t : nat) (sp st : option nat) : nat :=
  ((match sp with Some sp => length P - sp | None => length P + 1 end) * (length T + 1) +
   match st with Some st => length T - st | None => length T end) * (length T + 1) + (length T - t).

Lemma drop_here {A} (l : list A) i x : l !! i = Some x -> drop i l = x :: drop (i + 1) l.
Proof. intros H. rewrite Nat.add_1_r. by apply drop_S. Qed.

(** Matching from the last star later means matching later at the current place. *)
Lemma later_here p t sp st : p <= length P -> since_star p t sp st -> later sp st ->
  exists j, t < j <= length T /\ gmatch (drop p P) (drop j T).
Proof.
  destruct sp as [sp|], st as [st|]; cbn; try done. intros Hp (Hs1 & Hs2 & Hlen & Hseg) (j & Hj & Hm).
  assert (drop sp P = take (p - sp) (drop sp P) ++ drop p P) as E.
  { rewrite <- (take_drop (p - sp) (drop sp P)) at 1. f_equal. rewrite drop_drop. f_equal. lia. }
  rewrite E in Hm. destruct (gmatch_segment _ _ _ Hseg Hm) as (v & w & Ew & Hl & Hw).
  rewrite length_take, length_drop in Hl. assert (length (drop j T) = length v + length w) as Hlen2 by by rewrite Ew, length_app.
  rewrite length_drop in Hlen2. exists (j + length v). split; [lia|].
  rewrite <- drop_drop, Ew, drop_app_length. done.
Qed.

Lemma after_star_index p c : P !! p = Some c ->
  let q := if bool_decide (P !! (p + 1) = Some STAR)
           then if bool_decide (P !! (p + 2) = Some SLASH) then p + 3 else p + 2 else p + 1 in
  p < q <= length P /\ drop q P = after_star (drop (p + 1) P).
Proof.
  intros Hc. apply lookup_lt_Some in Hc. cbv zeta. case_bool_decide as H1.
  - pose proof (lookup_lt_Some _ _ _ H1). rewrite (drop_here _ _ _ H1). cbn [after_star]. rewrite Z.eqb_refl.
    replace (p + 1 + 1) with (p + 2) by lia. case_bool_decide as H2.
    + pose proof (lookup_lt_Some _ _ _ H2). rewrite (drop_here _ _ _ H2). rewrite Z.eqb_refl. split; [lia|]. f_equal. lia.
    + split; [lia|]. destruct (drop (p + 2) P) as [|d r] eqn:E; [done|]. destruct (Z.eqb_spec d SLASH); [|done]. subst d.
      exfalso. apply H2. rewrite <- (Nat.add_0_r (p + 2)), <- lookup_drop, E. done.
  - split; [lia|]. destruct (drop (p + 1) P) as [|d r] eqn:E; [done|]. cbn [after_star]. destruct (Z.eqb_spec d STAR); [|done]. subst d.
    exfalso. apply H1. rewrite <- (Nat.add_0_r (p + 1)), <- lookup_drop, E. done.
Qed.

Lemma measure_star t q sp st : (match sp with Some sp => sp < q | None => True end) -> q <= length P -> t <= length T ->
  measure t (Some q) (Some t) < measure t sp st.
Proof. intros Hsp Hq Ht. unfold measure. destruct sp, st; nia. Qed.
Lemma measure_back t sp st : st < length T -> measure (st + 1) (Some sp) (Some (st + 1)) < measure t (Some sp) (Some st).
Proof. intros Ht. unfold measure. nia. Qed.
Lemma measure_one t sp st : t < length T -> measure (t + 1) sp st < measure t sp st.
Proof. intros Ht. unfold measure. lia. Qed.

Lemma text_not_star t x : T !! t = Some x -> x <> STAR.
Proof. intros Hx ->. apply HT. by eapply list_elem_of_lookup_2. Qed.

(** The loop returns, and decides what can be reached from its state. *)
Lemma glob_loop_spec fuel : forall p t sp st, p <= length P -> t <= length T -> since_star p t sp st ->
  measure t sp st < fuel -> exists b, glob_loop fuel P T p t sp st = Ok b /\
    (b = true <-> gmatch (drop p P) (drop t T) \/ later sp st).
Proof.
  induction fuel as [|fuel IH]; intros p t sp st Hp Ht Hss Hm; [lia|]. cbn [glob_loop].
  destruct (T !! t) as [x|] eqn:Hx.
  2: { eexists. split; [done|]. apply lookup_ge_None in Hx. rewrite (drop_ge T) by done. rewrite only_stars_iff, gmatch_nil.
       split; [by left|]. intros [?|Hl]; [done|]. destruct (later_here p t sp st Hp Hss Hl) as (j & Hj & _). lia. }
  pose proof (text_not_star t x Hx) as Hxs. pose proof (lookup_lt_Some _ _ _ Hx) as Htl.
  rewrite (drop_here _ _ _ Hx).
  assert (~ gmatch (drop p P) (x :: drop (t + 1) T) -> exists b,
    match sp, st with
    | Some sp, Some st => glob_loop fuel P T sp (st + 1) (Some sp) (Some (st + 1))
    | _, _ => Ok false
    end = Ok b /\ (b = true <-> gmatch (drop p P) (x :: drop (t + 1) T) \/ later sp st)) as Hback.
  { intros Hno. destruct sp as [sp|], st as [st|]; try done; [|exists false; cbn; naive_solver].
    destruct Hss as (Hs1 & Hs2 & Hlen & Hseg). pose proof (measure_back t sp st ltac:(lia)) as Hmb.
    destruct (IH sp (st + 1) (Some sp) (Some (st + 1))) as (b & -> & Hb); [lia|lia|cbn|lia|].
    { split_and!; try lia. by rewrite Nat.sub_diag, take_0. }
    exists b. split; [done|]. rewrite Hb. cbn. split.
    - intros [H|(j & Hj & H)]; right; [exists (st + 1)|exists j]; (split; [lia|done]).
    - intros [H|(j & Hj & H)]; [done|]. destruct (decide (j = st + 1)) as [->|]; [by left|]. right. exists j. split; [lia|done]. }
  destruct (P !! p) as [c|] eqn:Hc.
  2: { apply Hback. apply lookup_ge_None in Hc. rewrite drop_ge by done. apply gmatch_empty. }
  rewrite (drop_here _ _ _ Hc) in *. pose proof (lookup_lt_Some _ _ _ Hc) as Hpl.
  destruct ((c =? QM) || (c =? x))%Z eqn:E1.
  - apply orb_true_iff in E1. rewrite !Z.eqb_eq in E1. assert (c <> STAR) as Hcs by (destruct E1; subst; done).
    pose proof (measure_one t sp st Htl) as Hm1.
    destruct (IH (p + 1) (t + 1) sp st) as (b & -> & Hb); [lia|lia| |lia|].
    { destruct sp as [sp|], st as [st|]; try done. destruct Hss as (? & ? & ? & Hseg). cbn. split_and!; try lia.
      replace (p + 1 - sp) with (S (p - sp)) by lia. erewrite take_S_r by (rewrite lookup_drop; replace (sp + (p - sp)) with p by lia; done).
      apply Forall_app. split; [done|]. by apply Forall_singleton. }
    exists b. split; [done|]. rewrite Hb, gmatch_one by done. naive_solver.
  - apply orb_false_iff in E1. rewrite !Z.eqb_neq in E1. destruct E1 as [E1 E2]. destruct (Z.eqb_spec c STAR) as [->|Hcs].
    2: { apply Hback. rewrite gmatch_one by done. naive_solver. }
    destruct (after_star_index p STAR Hc) as [Hq Eq]. cbv zeta in Hq, Eq. set (q := if bool_decide _ then _ else _) in *. clearbody q.
    assert (match sp with Some sp => sp < q | None => True end) as Hspq.
    { destruct sp as [sp|]; [|done]. destruct st as [st|]; [|done]. destruct Hss. lia. }
    pose proof (measure_star t q sp st Hspq ltac:(lia) Ht) as Hms.
    destruct (IH q t (Some q) (Some t)) as (b & -> & Hb); [lia|lia|cbn|lia|].
    { split_and!; try lia. by rewrite Nat.sub_diag, take_0. }
    exists b. split; [done|]. rewrite Hb, Eq, (drop_here _ _ _ Hx). cbn [later]. rewrite Eq, gmatch_star. split.
    + intros [H0|(j & Hj & H0)]; left; [by exists [], (x :: drop (t + 1) T)|]. exists (take (j - t) (drop t T)), (drop j T).
      split; [|done]. rewrite <- (drop_here _ _ _ Hx), <- (take_drop (j - t) (drop t T)) at 1. f_equal. rewrite drop_drop. f_equal. lia.
    + assert (forall v u, x :: drop (t + 1) T = v ++ u -> gmatch (after_star (drop (p + 1) P)) u ->
        gmatch (after_star (drop (p + 1) P)) (x :: drop (t + 1) T) \/
        exists j, t < j <= length T /\ gmatch (after_star (drop (p + 1) P)) (drop j T)) as Hv.
      { intros v u E Hu. destruct v as [|y v]; [left; cbn in E; by rewrite E|]. right. exists (t + length (y :: v)).
        rewrite <- (drop_here _ _ _ Hx) in E. assert (length (drop t T) = length (y :: v) + length u) as El by by rewrite E, length_app.
        rewrite length_drop in El. cbn [length] in *. split; [lia|].
        replace (drop (t + S (length v)) T) with (drop (length (y :: v)) (drop t T)) by by rewrite drop_drop.
        by rewrite E, drop_app_length. }
      intros [(v & u & E & H0)|Hl]; [by eapply Hv|].
      destruct (later_here p t sp st Hp Hss Hl) as (j & Hj & H0). rewrite (drop_here _ _ _ Hc) in H0.
      assert (gmatch (STAR :: drop (p + 1) P) (x :: drop (t + 1) T)) as H1.
      { rewrite <- (drop_here _ _ _ Hx), <- (take_drop (j - t) (drop t T)). rewrite drop_drop.
        replace (t + (j - t)) with j by lia. apply gmatch_star_later; [|done].
        intros E%(f_equal length). rewrite length_app, length_take, !length_drop in E. cbn in E. lia. }
      apply gmatch_star in H1 as (v & u & E & H1). by eapply Hv.
Qed.
End loop.
End GlobProofs.

(** The glob matcher decides the reference. For a text without stars, the backtracking loop returns
    within its bound, and answers whether the pattern matches by the rules for stars, question marks
    and other characters. *)
Theorem glob_match_correct pattern text : Glob.STAR ∉ text -> exists b,
  Glob.glob_recursive_match pattern text = Ok b /\ (b = true <-> GlobProofs.gmatch pattern text).
Proof.
  intros Ht. destruct (GlobProofs.glob_loop_spec pattern text Ht (Glob.glob_fuel pattern text) 0 0 None None) as (b & Hb & Hiff);
    [lia|lia|done| |].
  - unfold GlobProofs.measure, Glob.glob_fuel. nia.
  - exists b. split; [exact Hb|]. rewrite Hiff, !drop_0. cbn. naive_solver.
Qed.

(** ** Deletions *)
Section deletion.
Context `{Percent}.

Lemma components_no_parent first cs : existsb is_parent (components_from first cs) = false -> Forall (fun c => c <> lit "..") cs.
Proof.
  revert first. induction cs as [|c cs IH]; intros first Hc; [constructor|]. cbn [components_from] in Hc.
  rewrite existsb_app, orb_false_iff in Hc. destruct Hc as [Hc Hcs]. constructor; [|by eapply IH].
  intros ->. by vm_compute in Hc.
Qed.

Lemma resolve_stays cs : Forall (fun c => c <> lit "..") cs -> exists below, forall dir, resolve dir cs = Some (below ++ dir).
Proof.
  induction 1 as [|c cs Hc _ IH]; [by exists []|]. destruct IH as [below IH]. cbn [resolve]. rewrite (bool_decide_eq_false_2 (c = lit "..")) by done.
  case_match; [by exists below|]. exists (below ++ [c]). intros dir. by rewrite IH, <- app_assoc.
Qed.
End deletion.

(** Deletions stay inside. A path accepted for deletion is the destination root joined with a relative
    path that resolves, component by component, to the root or below it; and planned deletions that
    pass the guardrails without force are within the limit on files and the limit on the percentage. *)
Theorem deletion_guarded `{Percent} rel root full g total n :
  (validate_deletion_path rel root = Ok full -> exists clean below,
    full = path_join root clean /\ clean <> [] /\ starts_with [SLASH] clean = false /\
    forall dir, resolve dir (split_on SLASH clean) = Some (below ++ dir)) /\
  (validate_deletions g total n = Ok tt -> force_delete g = false ->
    (forall limit, max_delete_files g = Some limit -> n = 0 \/ n <= limit) /\
    (forall limit, max_delete_pct g = Some limit -> n = 0 \/ total <= 0 \/ pct_gt (pct_of n total) limit = false)).
Proof.
  split.
  - unfold validate_deletion_path. set (clean := replace _ _ _).
    destruct (bool_decide (clean = []) || eqs clean "." || eqs clean ".." || starts_with [SLASH] clean) eqn:E1; [done|].
    rewrite !orb_false_iff, bool_decide_eq_false in E1. destruct E1 as [[[Hne _] _] Hsl].
    case_match; [done|]. destruct (existsb is_parent _) eqn:Ep; [done|]. intros [= <-].
    apply components_no_parent in Ep. destruct (resolve_stays (split_on SLASH clean) Ep) as [below Hb].
    by exists clean, below.
  - unfold validate_deletions. intros Hv Hf. rewrite Hf in Hv. cbn [orb] in Hv. destruct (n =? 0) eqn:En; [apply Z.eqb_eq in En; by split; left|].
    split; intros limit Hl; right.
    + rewrite Hl in Hv. destruct (Z.ltb_spec limit n); [done|lia].
    + destruct (match max_delete_files g with Some l => if l <? n then _ else _ | None => _ end); try done. cbn [obind] in Hv.
      rewrite Hl in Hv. destruct (Z.ltb_spec 0 total); [|left; lia]. right. by destruct (pct_gt _ _).
Qed.

Module PlanExamples.
Import Glob DiffExamples.
#[local] Existing Instance int_percent.

Lemma glob_match_correct_witness : glob_recursive_match (lit "src/**/t?st*.rs") (lit "src/a/b/test_x.rs") = Ok true /\
  GlobProofs.gmatch (lit "src/**/t?st*.rs") (lit "src/a/b/test_x.rs").
Proof.
  split; [vm_compute; reflexivity|].
  destruct (glob_match_correct (lit "src/**/t?st*.rs") (lit "src/a/b/test_x.rs")) as (b & Hb & Hiff).
  - apply existsb_elem. vm_compute. reflexivity.
  - apply Hiff. vm_compute in Hb. by injection Hb as <-.
Defined.

Lemma deletion_guarded_witness : validate_deletion_path (lit "docs/old.txt") (lit "/dst") = Ok (lit "/dst/docs/old.txt") /\
  exists clean below, lit "/dst/docs/old.txt" = path_join (lit "/dst") clean /\ clean <> [] /\ starts_with [SLASH] clean = false /\
    forall dir, resolve dir (split_on SLASH clean) = Some (below ++ dir).
Proof.
  split; [vm_compute; reflexivity|].
  destruct (deletion_guarded (lit "docs/old.txt") (lit "/dst") (lit "/dst/docs/old.txt") permissive 10 3) as [H1 _].
  apply H1. vm_compute. reflexivity.
Defined.

(** The printed modes are read back. *)
Example mode_roundtrip m : mode_from_str (mode_text m) = Some m.
Proof. by destruct m. Qed.

(** In a text with a star, the pattern's star is taken for that character and can match nothing else. *)
Theorem literal_star : glob_recursive_match (lit "a*b?c") (lit "a*xb1c") = Ok false /\
  GlobProofs.gmatch (lit "a*b?c") (lit "a*xb1c").
Proof.
  split; [vm_compute; reflexivity|]. apply (GlobProofs.gm_one 97 97); [done|by right|].
  apply (GlobProofs.gm_star (lit "b?c") (lit "*x") _ (lit "b1c")); [done|done|].
  apply (GlobProofs.gm_one 98 98); [done|by right|]. apply (GlobProofs.gm_one 63 49); [done|by left|].
  apply (GlobProofs.gm_one 99 99); [done|by right|]. constructor. constructor.
Qed.

(** A question mark matches a byte, and so not a character of two. *)
Theorem question_mark_byte : matches_glob (lit "caf?.txt") (lit "caf" ++ [195; 169] ++ lit ".txt") = Ok false.
Proof. vm_compute. reflexivity. Qed.

(** Protected directories are tested at the very front of the text: with a dot before them they can be
    deleted, and so can the root itself. *)
Theorem protected_by_dot : validate_deletion_path (lit "./.git/config") (lit "/dst") = Ok (lit "/dst/./.git/config") /\
  validate_deletion_path (lit "./.") (lit "/dst") = Ok (lit "/dst/./.") /\
  resolve [] (split_on SLASH (lit "./.")) = Some [].
Proof. split; [vm_compute; reflexivity|]. split; vm_compute; reflexivity. Qed.

(** Files that only share the prefix are refused. *)
Theorem gitignore_protected : validate_deletion_path (lit ".gitignore") (lit "/dst") = Err (ProtectedPath (lit ".gitignore")).
Proof. vm_compute. reflexivity. Qed.
End PlanExamples.
