(* ===== verification/FileSys.v ===== *)
(** * Files, faults and crashes

    What the storage code uses of [std::fs]: a disk is a map from absolute paths to the content of
    files. Directories are not entries: a path is that of a file or of nothing. The paths of a disk
    are texts: symbolic links and hard links do not exist in the model, and [.], [..] and empty
    components are not resolved, so two texts are two files. What is proved of a disk is therefore
    read for paths in canonical form ([canonical]), of which none is below another ([file_tree]);
    theorems that name paths given by a caller say so in their hypotheses. Every call that
    touches the disk takes the next event of the environment: it is carried out, or it fails with an
    error text, or the process dies in it. A write, a copy or a recursive removal that fails or dies
    can have been carried out in part. Values that the code serialises to JSON and replaces with a
    rename are documents: they are written whole or not at all. *)

From S2P Require Import Prelude Utf8 Protocol Paths.
Import Str.

(** ** Computations *)

Inductive event :=
  | Go
  | Fault (n : nat) (msg : bytes)
  | Crash (n : nat).

(** A value, an error, or the death of the process. *)
Inductive res (E A : Type) :=
  | Done (a : A)
  | Failed (e : E)
  | Crashed.
Arguments Done {E A} a.
Arguments Failed {E A} e.
Arguments Crashed {E A}.

Definition M (S E A : Type) : Type := S -> res E A * S.
Definition ret {S E A} (a : A) : M S E A := fun s => (Done a, s).
Definition throw {S E A} (e : E) : M S E A := fun s => (Failed e, s).
Definition bind {S E A B} (c : M S E A) (k : A -> M S E B) : M S E B := fun s =>
  match c s with
  | (Done a, s) => k a s
  | (Failed e, s) => (Failed e, s)
  | (Crashed, s) => (Crashed, s)
  end.
Declare Scope fs_scope.
#[global] Open Scope fs_scope.
Notation "'let!' x := c 'in' k" := (bind c (fun x => k))
  (at level 200, x name, c at level 100, k at level 200, right associativity) : fs_scope.
Notation "'let!' ' p := c 'in' k" := (bind c (fun x => match x with p => k end))
  (at level 200, p pattern, c at level 100, k at level 200, right associativity) : fs_scope.

(** [let _ = c;] *)
Definition ignore {S E F A} (c : M S E A) : M S F unit := fun s =>
  match c s with
  | (Done _, s) | (Failed _, s) => (Done tt, s)
  | (Crashed, s) => (Crashed, s)
  end.
(** [c.ok()] *)
Definition ok {S E F A} (c : M S E A) : M S F (option A) := fun s =>
  match c s with
  | (Done a, s) => (Done (Some a), s)
  | (Failed _, s) => (Done None, s)
  | (Crashed, s) => (Crashed, s)
  end.
(** The result as a value. *)
Definition attempt {S E F A} (c : M S E A) : M S F (E + A) := fun s =>
  match c s with
  | (Done a, s) => (Done (inr a), s)
  | (Failed e, s) => (Done (inl e), s)
  | (Crashed, s) => (Crashed, s)
  end.
Definition map_error {S E F A} (f : E -> F) (c : M S E A) : M S F A := fun s =>
  match c s with
  | (Done a, s) => (Done a, s)
  | (Failed e, s) => (Failed (f e), s)
  | (Crashed, s) => (Crashed, s)
  end.
Definition when {S E} (b : bool) (c : M S E unit) : M S E unit := if b then c else ret tt.

(** A computation on the second part of a state. *)
Definition snd_part {T S E A} (c : M S E A) : M (T * S) E A := fun '(t, s) =>
  let '(r, s) := c s in (r, (t, s)).

(** ** The disk *)

Record world (J : Type) := mkWorld {
  disk : gmap bytes bytes;
  docs : gmap bytes J;
  events : list event;
  now : Z }.
Arguments mkWorld {J} _ _ _ _.
Arguments disk {J} _.
Arguments docs {J} _.
Arguments events {J} _.
Arguments now {J} _.

Definition set_disk {J : Type} (f : gmap bytes bytes -> gmap bytes bytes) (w : world J) : world J :=
  mkWorld (f (disk w)) (docs w) (events w) (now w).
Definition set_docs {J : Type} (f : gmap bytes J -> gmap bytes J) (w : world J) : world J :=
  mkWorld (disk w) (f (docs w)) (events w) (now w).

(** [PathBuf::join]: an absolute path replaces what it is joined to. *)
Definition join_to (root rel : bytes) : bytes :=
  if starts_with [SLASH] rel then rel
  else if bool_decide (root = []) || ends_with [SLASH] root then root ++ rel else root ++ SLASH :: rel.
(** Strictly inside a directory. *)
Definition below (root p : bytes) : bool := starts_with (root ++ [SLASH]) p.

(** A relative path of names: no component is empty, [.] or [..]. *)
Definition plain_names (r : bytes) : Prop := Forall (fun c => c <> [] /\ c <> lit "." /\ c <> lit "..") (split_on SLASH r).
(** An absolute path of names. *)
Definition canonical (p : bytes) : Prop :=
  match p with [] => False | c :: r => c = SLASH /\ (r = [] \/ plain_names r) end.
(** Different files of one tree: every path is in canonical form and none is inside another. *)
Definition file_tree (ps : list bytes) : Prop :=
  Forall (fun p => canonical p /\ Forall (fun q => below p q = false) ps) ps.

#[export] Instance plain_names_dec r : Decision (plain_names r).
Proof. unfold plain_names. apply _. Defined.
#[export] Instance canonical_dec p : Decision (canonical p).
Proof. destruct p; cbn; apply _. Defined.
#[export] Instance file_tree_dec ps : Decision (file_tree ps).
Proof. unfold file_tree. apply _. Defined.

Lemma plain_relative r : plain_names r -> starts_with [SLASH] r = false.
Proof.
  intros Hr. apply not_true_iff_false. intros [k ->]%starts_with_prefix. apply Forall_cons in Hr as [[H _] _]. by apply H.
Qed.

Section calls.
Context {J : Type}.
Local Abbreviation io A := (M (world J) bytes A).

Definition call {A} (go : world J -> res bytes A * world J) (part : nat -> world J -> world J) : io A := fun w =>
  let rest := mkWorld (disk w) (docs w) (tail (events w)) (now w) in
  match events w with
  | [] | Go :: _ => go rest
  | Fault n msg :: _ => (Failed msg, part n rest)
  | Crash n :: _ => (Crashed, part n rest)
  end.

Definition ENOENT : bytes := lit "No such file or directory (os error 2)".
Definition nothing (n : nat) (w : world J) : world J := w.
(** What is left of a write: nothing of it, or the file with the first bytes. *)
Definition cut (p content : bytes) (n : nat) (w : world J) : world J :=
  match n with O => w | S n => set_disk <[p := take n content]> w end.

Definition exists_file {E} (p : bytes) : M (world J) E bool := fun w => (Done (bool_decide (is_Some (disk w !! p))), w).
Definition create_dir_all (p : bytes) : io unit := call (fun w => (Done tt, w)) nothing.
(** [if let Some(parent) = p.parent() { create_dir_all(parent) }] *)
Definition create_parents (p : bytes) : io unit := create_dir_all p.
Definition read_file (p : bytes) : io bytes :=
  call (fun w => match disk w !! p with Some b => (Done b, w) | None => (Failed ENOENT, w) end) nothing.
Definition file_len (p : bytes) : io Z :=
  call (fun w => match disk w !! p with Some b => (Done (zlen b), w) | None => (Failed ENOENT, w) end) nothing.
Definition write_file (p content : bytes) : io unit := call (fun w => (Done tt, set_disk <[p := content]> w)) (cut p content).
Definition copy_file (src dst : bytes) : io unit :=
  call (fun w => match disk w !! src with Some b => (Done tt, set_disk <[dst := b]> w) | None => (Failed ENOENT, w) end)
       (fun n w => match disk w !! src with Some b => cut dst b n w | None => w end).
Definition rename_file (src dst : bytes) : io unit :=
  call (fun w => match disk w !! src with
                 | Some b => (Done tt, set_disk (fun d => <[dst := b]> (delete src d)) w)
                 | None => (Failed ENOENT, w)
                 end) nothing.
Definition remove_file (p : bytes) : io unit :=
  call (fun w => match disk w !! p with Some _ => (Done tt, set_disk (delete p) w) | None => (Failed ENOENT, w) end) nothing.

Definition remove_paths (ps : list bytes) (d : gmap bytes bytes) : gmap bytes bytes := foldr delete d ps.
Definition paths_below (root : bytes) (d : gmap bytes bytes) : list bytes :=
  List.filter (below root) (map_to_list d).*1.
Definition remove_dir_all (root : bytes) : io unit :=
  call (fun w => (Done tt, set_disk (fun d => remove_paths (paths_below root d) d) w))
       (fun n w => set_disk (fun d => remove_paths (take n (paths_below root d)) d) w).

(** A document written to a temporary file that is then renamed. *)
Definition save_doc (p : bytes) (j : J) : io unit := call (fun w => (Done tt, set_docs <[p := j]> w)) nothing.
Definition get_now {E} : M (world J) E Z := fun w => (Done (now w), w).

(** ** What calls leave alone *)

(** [c] changes the disk only at paths with [P], and no document, whatever the events are. *)
Definition only {E A} (P : bytes -> Prop) (c : M (world J) E A) : Prop := forall w,
  docs (c w).2 = docs w /\ forall p, ~ P p -> disk (c w).2 !! p = disk w !! p.

Lemma remove_paths_lookup ps d p : remove_paths ps d !! p = if bool_decide (p ∈ ps) then None else d !! p.
Proof.
  induction ps as [|q ps IH]; [done|]. cbn [remove_paths foldr]. fold (remove_paths ps d). destruct (decide (p = q)) as [->|Hne].
  - rewrite lookup_delete_eq, bool_decide_eq_true_2; [done|left].
  - rewrite lookup_delete_ne, IH by done. do 2 case_bool_decide; set_solver.
Qed.

Lemma paths_below_elem root d p : p ∈ paths_below root d <-> below root p = true /\ is_Some (d !! p).
Proof.
  unfold paths_below. rewrite list_elem_of_In, List.filter_In, <- list_elem_of_In. rewrite list_elem_of_fmap. split.
  - intros [([q b] & -> & Hq) Hb]. split; [done|]. exists b. by apply elem_of_map_to_list.
  - intros [Hb [b Hp]]. split; [|done]. exists (p, b). split; [done|]. by apply elem_of_map_to_list.
Qed.

Lemma remove_paths_below root d p : below root p = false -> remove_paths (paths_below root d) d !! p = d !! p.
Proof. intros Hp. rewrite remove_paths_lookup, bool_decide_eq_false_2; [done|]. rewrite paths_below_elem. intros [H _]. congruence. Qed.

Section only.
Implicit Types P : bytes -> Prop.

Lemma only_at {E A} P (c : M (world J) E A) w p : only P c -> ~ P p -> disk (c w).2 !! p = disk w !! p.
Proof. intros Hc. apply Hc. Qed.
Lemma only_ret {E A} P (a : A) : only P (@ret _ E A a).
Proof. done. Qed.
Lemma only_throw {E A} P (e : E) : only P (@throw _ E A e).
Proof. done. Qed.
Lemma only_bind {E A B} P (c : M (world J) E A) (k : A -> M (world J) E B) :
  only P c -> (forall a, only P (k a)) -> only P (bind c k).
Proof.
  intros Hc Hk w. specialize (Hc w). unfold bind. destruct (c w) as [[a|e|] w']; cbn in *; [|done|done].
  destruct (Hk a w') as [H1 H2], Hc as [H3 H4]. split; [congruence|]. intros p Hp. rewrite <- H4 by done. by apply H2.
Qed.
Lemma only_ignore {E F A} P (c : M (world J) E A) : only P c -> only P (@ignore _ E F A c).
Proof. intros Hc w. specialize (Hc w). unfold ignore. by destruct (c w) as [[]]. Qed.
Lemma only_ok {E F A} P (c : M (world J) E A) : only P c -> only P (@ok _ E F A c).
Proof. intros Hc w. specialize (Hc w). unfold ok. by destruct (c w) as [[]]. Qed.
Lemma only_attempt {E F A} P (c : M (world J) E A) : only P c -> only P (@attempt _ E F A c).
Proof. intros Hc w. specialize (Hc w). unfold attempt. by destruct (c w) as [[]]. Qed.
Lemma only_map_error {E F A} P (f : E -> F) (c : M (world J) E A) : only P c -> only P (map_error f c).
Proof. intros Hc w. specialize (Hc w). unfold map_error. by destruct (c w) as [[]]. Qed.
Lemma only_when {E} P b (c : M (world J) E unit) : only P c -> only P (when b c).
Proof. by destruct b. Qed.
Lemma only_exists {E} P q : only P (@exists_file E q).
Proof. done. Qed.
Lemma only_now {E} P : only P (@get_now E).
Proof. done. Qed.

Lemma only_call {A} P (go : world J -> res bytes A * world J) part :
  (forall w, docs (go w).2 = docs w /\ forall p, ~ P p -> disk (go w).2 !! p = disk w !! p) ->
  (forall n w, docs (part n w) = docs w /\ forall p, ~ P p -> disk (part n w) !! p = disk w !! p) -> only P (call go part).
Proof.
  intros Hg Hn w. unfold call. set (rest := mkWorld _ _ _ _).
  destruct (events w) as [|[|n msg|n]]; cbn; [apply (Hg rest)|apply (Hg rest)|apply (Hn n rest)..].
Qed.

Lemma only_mkdir P q : only P (create_dir_all q).
Proof. by apply only_call. Qed.
Lemma only_parents P q : only P (create_parents q).
Proof. by apply only_call. Qed.
Lemma only_read P q : only P (read_file q).
Proof. apply only_call; [|done]. intros w. by case_match. Qed.
Lemma only_len P q : only P (file_len q).
Proof. apply only_call; [|done]. intros w. by case_match. Qed.

Lemma cut_other q b n w : docs (cut q b n w) = docs w /\ forall p, p <> q -> disk (cut q b n w) !! p = disk w !! p.
Proof. destruct n; [done|]. split; [done|]. intros p Hne. cbn. by rewrite lookup_insert_ne. Qed.

Lemma only_write P q b : P q -> only P (write_file q b).
Proof.
  intros Hq. apply only_call; [intros w; split; [done|]; intros p Hp; cbn; rewrite lookup_insert_ne; [done|by intros ->]|].
  intros n w. destruct (cut_other q b n w) as [H1 H2]. split; [done|]. intros p Hp. apply H2. by intros ->.
Qed.
Lemma only_copy P a b : P b -> only P (copy_file a b).
Proof.
  intros Hb. apply only_call.
  - intros w. case_match; [|done]. split; [done|]. intros p Hp. cbn. rewrite lookup_insert_ne; [done|by intros ->].
  - intros n w. case_match; [|done]. destruct (cut_other b l n w) as [H1 H2]. split; [done|]. intros p Hp. apply H2. by intros ->.
Qed.
Lemma only_rename P a b : P a -> P b -> only P (rename_file a b).
Proof.
  intros Ha Hb. apply only_call; [|done]. intros w. case_match; [|done]. split; [done|]. intros p Hp. cbn.
  rewrite lookup_insert_ne, lookup_delete_ne; [done|by intros ->..].
Qed.
Lemma only_remove P a : P a -> only P (remove_file a).
Proof.
  intros Ha. apply only_call; [|done]. intros w. case_match; [|done]. split; [done|]. intros p Hp. cbn.
  rewrite lookup_delete_ne; [done|by intros ->].
Qed.
Lemma only_remove_dir P root : (forall p, below root p = true -> P p) -> only P (remove_dir_all root).
Proof.
  intros Hr. apply only_call.
  - intros w. split; [done|]. intros p Hp. cbn. rewrite remove_paths_lookup, bool_decide_eq_false_2; [done|].
    rewrite paths_below_elem. intros [Hb _]. by apply Hp, Hr.
  - intros n w. split; [done|]. intros p Hp. cbn. rewrite remove_paths_lookup, bool_decide_eq_false_2; [done|].
    intros (i & Hi & _)%elem_of_take. apply Hp, Hr. apply list_elem_of_lookup_2, paths_below_elem in Hi. by destruct Hi.
Qed.
End only.
End calls.

Create HintDb fs.
#[export] Hint Resolve only_ret only_throw only_bind only_ignore only_ok only_attempt only_map_error only_when only_exists only_now
  only_mkdir only_parents only_read only_len only_write only_copy only_rename only_remove only_remove_dir : fs.

(** ** Calls that are carried out *)

(** The next [n] calls are carried out. *)
Definition goes (n : nat) (es : list event) : Prop := Forall (eq Go) (take n es).

Section goes.
Context {J : Type}.

Lemma call_go {A} n (go : world J -> res bytes A * world J) part d js es nw : goes (S n) es ->
  call go part (mkWorld d js es nw) = go (mkWorld d js (drop 1 es) nw) /\ goes n (drop 1 es).
Proof.
  intros Hg. unfold call. cbn. destruct es as [|e es]; [split; [done|by destruct n]|].
  unfold goes in Hg. cbn in Hg. apply Forall_cons in Hg as [<- Hg]. cbn. by rewrite drop_0.
Qed.

Lemma goes_nil n : goes n [].
Proof. unfold goes. by rewrite take_nil. Qed.
Lemma goes_le n m es : (n <= m)%nat -> goes m es -> goes n es.
Proof. unfold goes. intros Hle Hg. replace n with (n `min` m)%nat by lia. rewrite <- take_take. by apply Forall_take. Qed.
Lemma goes_drop n m es : goes (n + m) es -> goes m (drop n es).
Proof. unfold goes. intros Hg. rewrite take_drop_commute. by apply Forall_drop. Qed.
Lemma goes_app n m es : goes (n + m) es -> goes n es.
Proof. apply goes_le. lia. Qed.
End goes.

(** ** Paths *)

Lemma join_base root : exists base, forall rel, starts_with [SLASH] rel = false -> join_to root rel = base ++ rel.
Proof.
  unfold join_to. destruct (bool_decide (root = []) || ends_with [SLASH] root) eqn:E; [exists root|exists (root ++ [SLASH])];
    intros rel ->; [done|by rewrite <- app_assoc].
Qed.

Lemma below_join root rel : root <> [] -> ends_with [SLASH] root = false -> starts_with [SLASH] rel = false ->
  join_to root rel = (root ++ [SLASH]) ++ rel /\ below root (join_to root rel) = true.
Proof.
  intros Hne He Hr. unfold join_to, below. rewrite Hr, He, bool_decide_eq_false_2 by done. cbn [orb].
  replace (root ++ SLASH :: rel) with ((root ++ [SLASH]) ++ rel) by by rewrite <- app_assoc.
  split; [done|]. apply starts_with_prefix. by exists rel.
Qed.

Lemma join_inj root a b : starts_with [SLASH] a = false -> starts_with [SLASH] b = false ->
  join_to root a = join_to root b -> a = b.
Proof. destruct (join_base root) as [base Hb]. intros Ha Hc. rewrite !Hb by done. apply app_inv_head. Qed.
