(* ===== verification/Transaction.v ===== *)
(** * Transactions over a directory, sync/transaction.rs

    [DirectoryTransaction] with its shadow and backup directories and its journal, on the file system
    of [FileSys]: every call can fail or be the last one before a crash. A transaction's own fields
    are the first part of the state, so that what a failing operation has already changed is kept. The
    journal is a document. Elapsed times of reports, the listing of journals and the texts of some
    errors' paths are left out. *)

From S2P Require Import Prelude Utf8 Protocol Wire Paths Xattr FileSys.
Import Str.

Inductive TransactionError :=
  | NotFound (tx_id : bytes)
  | InvalidPath_ (what : bytes)
  | ChecksumMismatch_ (path expected actual : bytes)
  | SizeMismatch (path : bytes) (expected actual : Z)
  | InvalidState (current expected : bytes)
  | Io (what : bytes)
  | Recovery (what : bytes).

Inductive TransactionState := Staging | Prepared | Committing | Committed | Aborted | RolledBack.
#[global] Instance TransactionState_eq_dec : EqDecision TransactionState.
Proof. solve_decision. Defined.

Definition state_text (s : TransactionState) : bytes :=
  match s with
  | Staging => lit "Staging" | Prepared => lit "Prepared" | Committing => lit "Committing"
  | Committed => lit "Committed" | Aborted => lit "Aborted" | RolledBack => lit "RolledBack"
  end.

Inductive TransactionAction := Create_ | Update | Delete_.
#[global] Instance TransactionAction_eq_dec : EqDecision TransactionAction.
Proof. solve_decision. Defined.

Record TransactionItem := mkItem {
  rel_path : bytes; action : TransactionAction; shadow_path : option bytes; backup_path : option bytes;
  dest_path : bytes; expected_hash : option Hash; original_hash : option Hash; size : Z; applied : bool }.

Record TransactionJournal := mkJournal {
  j_tx_id : bytes; j_target_dir : bytes; j_shadow_root : bytes; j_backup_root : bytes; j_state : TransactionState;
  j_created_at_sec : Z; j_updated_at_sec : Z; j_items : list TransactionItem }.

Record TransactionReport := mkReport {
  r_tx_id : bytes; r_state : TransactionState; files_total : Z; files_committed : Z; files_backed_up : Z;
  files_rolled_back : Z; bytes_committed : Z }.

Record DirectoryTransaction := mkTx {
  tx_id : bytes; target_dir : bytes; shadow_root : bytes; backup_root : bytes; journal_path : bytes;
  state : TransactionState; items : list TransactionItem; created_at_sec : Z }.

Definition with_state (t : DirectoryTransaction) (s : TransactionState) : DirectoryTransaction :=
  mkTx (tx_id t) (target_dir t) (shadow_root t) (backup_root t) (journal_path t) s (items t) (created_at_sec t).
Definition with_items (t : DirectoryTransaction) (l : list TransactionItem) : DirectoryTransaction :=
  mkTx (tx_id t) (target_dir t) (shadow_root t) (backup_root t) (journal_path t) (state t) l (created_at_sec t).
Definition with_applied (i : TransactionItem) (b : bool) : TransactionItem :=
  mkItem (rel_path i) (action i) (shadow_path i) (backup_path i) (dest_path i) (expected_hash i) (original_hash i) (size i) b.
Definition with_backup (i : TransactionItem) (p : bytes) : TransactionItem :=
  mkItem (rel_path i) (action i) (shadow_path i) (Some p) (dest_path i) (expected_hash i) (original_hash i) (size i) (applied i).

Definition fs_world : Type := world TransactionJournal.
Definition st : Type := DirectoryTransaction * fs_world.

Section transaction.
(** [Hash::of], BLAKE3. *)
Context (hash_of : bytes -> Hash).

Definition io {A} (c : M fs_world bytes A) : M fs_world TransactionError A := map_error Io c.
Definition get {E} : M st E DirectoryTransaction := fun s => (Done s.1, s).
Definition set_state {E} (x : TransactionState) : M st E unit := fun '(t, w) => (Done tt, (with_state t x, w)).
Definition set_items {E} (l : list TransactionItem) : M st E unit := fun '(t, w) => (Done tt, (with_items t l, w)).

Definition journal_of (t : DirectoryTransaction) (now_sec : Z) : TransactionJournal :=
  mkJournal (tx_id t) (target_dir t) (shadow_root t) (backup_root t) (state t) (created_at_sec t) now_sec (items t).

Definition save_journal_of (t : DirectoryTransaction) : M fs_world TransactionError unit :=
  let! now_sec := get_now in
  io (save_doc (journal_path t) (journal_of t now_sec)).
Definition save_journal : M st TransactionError unit :=
  let! t := get in snd_part (save_journal_of t).

Definition journal_dir (target : bytes) : bytes := join_to target (lit ".velcrux-journal").
Definition journal_file (target id : bytes) : bytes := join_to (journal_dir target) (id ++ lit ".json").

(** The target is absolute; [counter] is the value of the process-wide counter. *)
Definition begin_tx (abs_target : bytes) (target_exists : bool) (counter : Z) : M fs_world TransactionError DirectoryTransaction :=
  let! _ := when (negb target_exists) (io (create_dir_all abs_target)) in
  let! now_sec := get_now in
  let id := lit "tx_" ++ Utf8.decimal now_sec ++ lit "_" ++ Utf8.decimal counter in
  let shadow := join_to (join_to abs_target (lit ".velcrux-shadow")) id in
  let backup := join_to (join_to abs_target (lit ".velcrux-backup")) id in
  let! _ := io (create_dir_all shadow) in
  let! _ := io (create_dir_all backup) in
  let! _ := io (create_dir_all (journal_dir abs_target)) in
  let t := mkTx id abs_target shadow backup (journal_file abs_target id) Staging [] now_sec in
  let! _ := save_journal_of t in
  ret t.

Fixpoint trim_start_slashes (s : bytes) : bytes :=
  match s with
  | b :: s' => if b =? SLASH then trim_start_slashes s' else s
  | [] => []
  end.
Definition clean (rel : bytes) : bytes := replace [BACKSLASH] [SLASH] (trim_start_slashes rel).

Definition require_state {A} (s : TransactionState) (k : M st TransactionError A) : M st TransactionError A :=
  let! t := get in
  if bool_decide (state t = s) then k else throw (InvalidState (state_text (state t)) (state_text s)).

(** The action, the hash of what is there, the new item and the journal: the end of the three
    staging operations. *)
Definition push_staged (clean_rel shadow_dest : bytes) (expected : option Hash) (len : Z) : M st TransactionError unit :=
  let! t := get in
  let dest := join_to (target_dir t) clean_rel in
  let! there := snd_part (exists_file dest) in
  let act := if there : bool then Update else Create_ in
  let! original :=
    (if there then let! b := snd_part (ok (read_file dest)) in ret (hash_of <$> b) else ret None) in
  let! t := get in
  let! _ := set_items (items t ++ [mkItem clean_rel act (Some shadow_dest) None dest expected original len false]) in
  save_journal.

Definition stage_file (rel source : bytes) (expected : option Hash) : M st TransactionError bytes :=
  require_state Staging (
    let! t := get in
    let clean_rel := clean rel in
    let shadow_dest := join_to (shadow_root t) clean_rel in
    let! _ := snd_part (io (create_parents shadow_dest)) in
    let! _ := snd_part (io (copy_file source shadow_dest)) in
    let! len := snd_part (io (file_len shadow_dest)) in
    let! _ := push_staged clean_rel shadow_dest expected len in
    ret shadow_dest).

Definition stage_file_bytes (rel content : bytes) (expected : option Hash) : M st TransactionError bytes :=
  require_state Staging (
    let! t := get in
    let clean_rel := clean rel in
    let shadow_dest := join_to (shadow_root t) clean_rel in
    let! _ := snd_part (io (create_parents shadow_dest)) in
    let! _ := snd_part (io (write_file shadow_dest content)) in
    let! _ := push_staged clean_rel shadow_dest expected (zlen content) in
    ret shadow_dest).

Definition register_staged (rel shadow : bytes) (expected : option Hash) : M st TransactionError unit :=
  require_state Staging (
    let clean_rel := clean rel in
    let! len := snd_part (io (file_len shadow)) in
    push_staged clean_rel shadow expected len).

Definition stage_deletion (rel : bytes) : M st TransactionError unit :=
  require_state Staging (
    let! t := get in
    let clean_rel := clean rel in
    let dest := join_to (target_dir t) clean_rel in
    let! there := snd_part (exists_file dest) in
    if negb there then ret tt
    else
      let! b := snd_part (ok (read_file dest)) in
      let! len := snd_part (io (file_len dest)) in
      let! t := get in
      let! _ := set_items (items t ++ [mkItem clean_rel Delete_ None None dest None (hash_of <$> b) len false]) in
      save_journal).

(** The checks of a staged file; returns the bytes it adds to the total. *)
Definition verify_item (i : TransactionItem) : M fs_world TransactionError Z :=
  match shadow_path i with
  | None => ret 0
  | Some shadow =>
      let! there := exists_file shadow in
      if negb there then throw (InvalidPath_ (lit "staged shadow file missing: " ++ shadow))
      else
        let! len := io (file_len shadow) in
        if negb (len =? size i) then throw (SizeMismatch (rel_path i) (size i) len)
        else
          let! _ :=
            match expected_hash i with
            | None => ret tt
            | Some expected =>
                let! buf := io (read_file shadow) in
                let actual := hash_of buf in
                if bool_decide (actual = expected) then ret tt
                else throw (ChecksumMismatch_ (rel_path i) (Hash_to_hex expected) (Hash_to_hex actual))
            end in
          ret (size i)
  end.

Definition replaces (a : TransactionAction) : bool := bool_decide (a <> Create_).

(** The item with its backup, when there is something to back up. *)
Definition backup_item (root : bytes) (i : TransactionItem) : M fs_world TransactionError (TransactionItem * Z) :=
  let! there := exists_file (dest_path i) in
  if replaces (action i) && there then
    let backup := join_to root (rel_path i) in
    let! _ := io (create_parents backup) in
    let! _ := io (copy_file (dest_path i) backup) in
    ret (with_backup i backup, 1)
  else ret (i, 0).

Fixpoint prepare_items (done todo : list TransactionItem) (backed_up total : Z) : M st TransactionError (Z * Z) :=
  match todo with
  | [] => ret (backed_up, total)
  | i :: todo =>
      let! t := get in
      let! bytes_of := snd_part (verify_item i) in
      let! '(i, n) := snd_part (backup_item (backup_root t) i) in
      let! _ := set_items (done ++ i :: todo) in
      prepare_items (done ++ [i]) todo (backed_up + n) (wrap 64 (total + bytes_of))
  end.

Definition report (t : DirectoryTransaction) (committed backed_up rolled_back total : Z) : TransactionReport :=
  mkReport (tx_id t) (state t) (zlen (items t)) committed backed_up rolled_back total.

Definition prepare : M st TransactionError TransactionReport :=
  require_state Staging (
    let! t := get in
    let! '(backed_up, total) := prepare_items [] (items t) 0 0 in
    let! _ := set_state Prepared in
    let! _ := save_journal in
    let! t := get in
    ret (report t 0 backed_up 0 total)).

(** The move of one item: the error of the parent directory ends the commit at once, the other error
    is a value. *)
Definition apply_item (i : TransactionItem) : M fs_world TransactionError (bytes + unit) :=
  match action i with
  | Create_ | Update =>
      match shadow_path i with
      | Some shadow =>
          let! _ := io (create_parents (dest_path i)) in
          let! there := exists_file (dest_path i) in
          let! _ := when there (ignore (remove_file (dest_path i))) in
          attempt (rename_file shadow (dest_path i))
      | None => ret (inr tt)
      end
  | Delete_ =>
      let! there := exists_file (dest_path i) in
      if there : bool then attempt (remove_file (dest_path i)) else ret (inr tt)
  end.

Definition is_put (a : TransactionAction) : bool := bool_decide (a <> Delete_).

Fixpoint commit_items (done todo : list TransactionItem) (committed total : Z)
  : M st TransactionError (Z * Z * option bytes) :=
  match todo with
  | [] => ret (committed, total, None)
  | i :: todo =>
      let! r := snd_part (apply_item i) in
      match r with
      | inr _ =>
          let i := with_applied i true in
          let! _ := set_items (done ++ i :: todo) in
          if is_put (action i)
          then commit_items (done ++ [i]) todo (committed + 1) (wrap 64 (total + size i))
          else commit_items (done ++ [i]) todo committed total
      | inl e => ret (committed, total, Some (lit "commit failed on '" ++ rel_path i ++ lit "': " ++ e))
      end
  end.

(** Undo of one item; returns how many were rolled back. *)
Definition undo_item (i : TransactionItem) : M fs_world TransactionError Z :=
  match action i with
  | Create_ =>
      let! there := exists_file (dest_path i) in
      if there : bool then let! _ := ignore (remove_file (dest_path i)) in ret 1 else ret 0
  | Update | Delete_ =>
      match backup_path i with
      | Some backup =>
          let! there := exists_file backup in
          if there : bool then
            let! _ := ignore (create_parents (dest_path i)) in
            let! _ := ignore (copy_file backup (dest_path i)) in
            ret 1
          else ret 0
      | None => ret 0
      end
  end.

Fixpoint rollback_items (done todo : list TransactionItem) (rolled_back : Z) : M st TransactionError Z :=
  match todo with
  | [] => ret rolled_back
  | i :: todo =>
      if applied i then
        let! n := snd_part (undo_item i) in
        let i := with_applied i false in
        let! _ := set_items (done ++ i :: todo) in
        rollback_items (done ++ [i]) todo (rolled_back + n)
      else rollback_items (done ++ [i]) todo rolled_back
  end.

Definition drop_roots : M st TransactionError unit :=
  let! t := get in
  let! _ := snd_part (ignore (remove_dir_all (shadow_root t))) in
  snd_part (ignore (remove_dir_all (backup_root t))).

Definition rollback : M st TransactionError TransactionReport :=
  let! t := get in
  let! rolled_back := rollback_items [] (items t) 0 in
  let! _ := set_state RolledBack in
  let! _ := save_journal in
  let! _ := drop_roots in
  let! t := get in
  ret (report t 0 0 rolled_back 0).

Definition commit : M st TransactionError TransactionReport :=
  let! t := get in
  let! _ := when (bool_decide (state t = Staging)) (let! _ := prepare in ret tt) in
  require_state Prepared (
    let! _ := set_state Committing in
    let! _ := save_journal in
    let! t := get in
    let! '(committed, total, err) := commit_items [] (items t) 0 0 in
    match err with
    | Some e =>
        let! _ := ignore rollback in
        throw (Io (e ++ lit "; transaction rolled back"))
    | None =>
        let! _ := set_state Committed in
        let! _ := save_journal in
        let! t := get in
        let! _ := snd_part (ignore (remove_dir_all (shadow_root t))) in
        ret (report t committed 0 0 total)
    end).

Definition abort : M st TransactionError unit :=
  let! _ := set_state Aborted in
  let! _ := save_journal in
  drop_roots.

(** ** [TransactionManager] *)

Definition tx_of (j : TransactionJournal) (path : bytes) : DirectoryTransaction :=
  mkTx (j_tx_id j) (j_target_dir j) (j_shadow_root j) (j_backup_root j) path (j_state j) (j_items j) (j_created_at_sec j).

Definition run_on {A} (t : DirectoryTransaction) (c : M st TransactionError A) : M fs_world TransactionError A := fun w =>
  let '(r, (_, w)) := c (t, w) in (r, w).

Definition get_journal (target id : bytes) : M fs_world TransactionError TransactionJournal := fun w =>
  match docs w !! journal_file target id with
  | Some j => (Done j, w)
  | None => (Failed (NotFound id), w)
  end.

Definition rollback_transaction (target id : bytes) : M fs_world TransactionError TransactionReport :=
  let! j := get_journal target id in
  run_on (tx_of j (journal_file target id)) rollback.

(** One journal of a recovery. *)
Definition recover_one (path : bytes) (j : TransactionJournal) : M fs_world TransactionError (list TransactionReport) :=
  match j_state j with
  | Staging | Prepared =>
      let! _ := ignore (run_on (tx_of j path) abort) in
      ret [mkReport (j_tx_id j) Aborted (zlen (j_items j)) 0 0 0 0]
  | Committing => let! r := run_on (tx_of j path) rollback in ret [r]
  | Committed =>
      let! _ := ignore (remove_dir_all (j_shadow_root j)) in
      let! _ := ignore (remove_dir_all (j_backup_root j)) in
      ret []
  | Aborted | RolledBack => ret []
  end.

Fixpoint recover_all (js : list (bytes * TransactionJournal)) : M fs_world TransactionError (list TransactionReport) :=
  match js with
  | [] => ret []
  | (path, j) :: js =>
      let! r := recover_one path j in
      let! rs := recover_all js in
      ret (r ++ rs)
  end.

(** The journals of the directory, in the order of the listing. *)
Definition recover_pending_transactions (target : bytes) : M fs_world TransactionError (list TransactionReport) := fun w =>
  recover_all (List.filter (fun x => below (journal_dir target) x.1) (map_to_list (docs w))) w.

End transaction.

(** ** Before the commit nothing outside changes *)

(** Whatever the events, [c] keeps [R] and changes the disk only at [P]; what it returns has [Q]. *)
Definition keeps {E A} (R : st -> Prop) (P : bytes -> Prop) (Q : A -> Prop) (c : M st E A) : Prop := forall s, R s ->
  R (c s).2 /\ (forall p, ~ P p -> disk (c s).2.2 !! p = disk s.2 !! p) /\ match (c s).1 with Done a => Q a | _ => True end.

Section keeps.
Context (R : st -> Prop) (P : bytes -> Prop).

Lemma keeps_ret {E A} (Q : A -> Prop) a : Q a -> keeps R P Q (@ret _ E A a).
Proof. intros HQ s HR. done. Qed.
Lemma keeps_throw {E A} (Q : A -> Prop) (e : E) : keeps R P Q (throw e).
Proof. intros s HR. done. Qed.
Lemma keeps_bind {E A B} (Q : A -> Prop) (Q' : B -> Prop) (c : M st E A) k :
  keeps R P Q c -> (forall a, Q a -> keeps R P Q' (k a)) -> keeps R P Q' (bind c k).
Proof.
  intros Hc Hk s HR. destruct (Hc s HR) as (H1 & H2 & H3). unfold bind. destruct (c s) as [[a|e|] s']; cbn in *; [|done|done].
  destruct (Hk a H3 s' H1) as (H4 & H5 & H6). split_and!; [done| |done]. intros p Hp. by rewrite H5, H2.
Qed.
Lemma keeps_ignore {E F A} (Q : A -> Prop) (c : M st E A) : keeps R P Q c -> keeps R P (fun _ => True) (@ignore _ E F A c).
Proof. intros Hc s HR. destruct (Hc s HR) as (H1 & H2 & _). unfold ignore. by destruct (c s) as [[]]. Qed.
Lemma keeps_when {E} b (c : M st E unit) : keeps R P (fun _ => True) c -> keeps R P (fun _ => True) (when b c).
Proof. destruct b; [done|]. intros _. by apply keeps_ret. Qed.
Lemma keeps_weaken {E A} (Q Q' : A -> Prop) (c : M st E A) : (forall a, Q a -> Q' a) -> keeps R P Q c -> keeps R P Q' c.
Proof. intros Hq Hc s HR. destruct (Hc s HR) as (H1 & H2 & H3). split_and!; [done|done|]. case_match; auto. Qed.
Lemma keeps_snd {E A} (Q : A -> Prop) (c : M fs_world E A) :
  (forall t w w', docs w' = docs w -> R (t, w) -> R (t, w')) -> only P c -> (forall w, match (c w).1 with Done a => Q a | _ => True end) ->
  keeps R P Q (snd_part c).
Proof.
  intros HR Ho Hq [t w] Hs. specialize (Ho w). specialize (Hq w). unfold snd_part. destruct (c w) as [r w']; cbn in *.
  destruct Ho as [Hd Ho]. split_and!; [by eapply HR|done|done].
Qed.
End keeps.

Section isolation.
Context (hash_of : bytes -> Hash) (t0 : DirectoryTransaction).
Hypothesis shadow_ne : shadow_root t0 <> [].
Hypothesis backup_ne : backup_root t0 <> [].
Hypothesis shadow_noslash : ends_with [SLASH] (shadow_root t0) = false.
Hypothesis backup_noslash : ends_with [SLASH] (backup_root t0) = false.

(** The transaction's own directories. *)
Definition own (p : bytes) : Prop := below (shadow_root t0) p = true \/ below (backup_root t0) p = true.

Definition quiet (s : st) : Prop :=
  (shadow_root s.1 = shadow_root t0 /\ backup_root s.1 = backup_root t0 /\ journal_path s.1 = journal_path t0) /\
  state s.1 <> Committing /\
  Forall (fun i => starts_with [SLASH] (rel_path i) = false /\ applied i = false) (items s.1) /\
  forall j, docs s.2 !! journal_path t0 = Some j ->
    j_shadow_root j = shadow_root t0 /\ j_backup_root j = backup_root t0 /\ j_state j <> Committing.

Lemma quiet_docs t (w w' : fs_world) : docs w' = docs w -> quiet (t, w) -> quiet (t, w').
Proof. intros Hd. unfold quiet. cbn. by rewrite Hd. Qed.

Local Abbreviation keep := (keeps quiet own).

Lemma keep_get {E A} (Q : A -> Prop) (k : DirectoryTransaction -> M st E A) :
  (forall t, shadow_root t = shadow_root t0 -> backup_root t = backup_root t0 ->
    Forall (fun i => starts_with [SLASH] (rel_path i) = false /\ applied i = false) (items t) -> keep Q (k t)) -> keep Q (bind get k).
Proof. intros Hk s Hs. destruct Hs as ((H1 & H2 & H3) & H4 & H5 & H6). by apply (Hk s.1 H1 H2 H5 s). Qed.

Lemma keep_call {E A} (c : M fs_world E A) : only own c -> keep (fun _ => True) (snd_part c).
Proof. intros Hc. apply keeps_snd; [by apply quiet_docs|done|]. intros w. by case_match. Qed.

Lemma keep_set_state {E} x : x <> Committing -> keep (fun _ => True) (@set_state E x).
Proof. intros Hx [t w] ((H1 & H2 & H3) & H4 & H5 & H6). by split_and!. Qed.

Lemma keep_set_items {E} l : Forall (fun i => starts_with [SLASH] (rel_path i) = false /\ applied i = false) l ->
  keep (fun _ => True) (@set_items E l).
Proof. intros Hl [t w] ((H1 & H2 & H3) & H4 & H5 & H6). by split_and!. Qed.

Lemma keep_push {E A} (Q : A -> Prop) i (k : M st E A) : starts_with [SLASH] (rel_path i) = false -> applied i = false -> keep Q k ->
  keep Q (let! t := get in let! _ := set_items (items t ++ [i]) in k).
Proof.
  intros Hr Ha Hk. apply keep_get. intros t _ _ Ht. apply (keeps_bind _ _ (fun _ => True)); [|done].
  apply keep_set_items. apply Forall_app. split; [done|]. by constructor.
Qed.

Lemma keep_save : keep (fun _ => True) save_journal.
Proof.
  intros [t w] Hs. pose proof Hs as ((H1 & H2 & H3) & H4 & H5 & H6). cbn in H1, H2, H3, H4, H5, H6.
  unfold save_journal, save_journal_of, bind, get, snd_part, get_now, io, map_error, save_doc, call. cbn.
  assert (quiet (t, set_docs <[journal_path t := journal_of t (now w)]> (mkWorld (disk w) (docs w) (tail (events w)) (now w)))) as Hnew.
  { unfold quiet. cbn. split_and!; [done..|]. rewrite H3. intros j. rewrite lookup_insert_eq. by intros [= <-]. }
  destruct (events w) as [|[]]; cbn; (split; [|done]); try exact Hnew; apply (quiet_docs t w); done.
Qed.

Lemma shadow_own rel : starts_with [SLASH] rel = false -> own (join_to (shadow_root t0) rel).
Proof. intros Hr. left. by apply below_join. Qed.
Lemma backup_own rel : starts_with [SLASH] rel = false -> own (join_to (backup_root t0) rel).
Proof. intros Hr. right. by apply below_join. Qed.

Hint Resolve keep_set_state keep_save keep_call shadow_own backup_own : tx.
Ltac keep_step := first
  [ apply keep_save
  | apply keep_push; [done|done|]
  | apply keep_get; intros ? Hsr Hbr Hits; rewrite ?Hsr, ?Hbr
  | eapply (keeps_bind _ _ (fun _ => True)); [|intros ? _]
  | apply keeps_ret; done
  | apply keeps_throw
  | apply keeps_when
  | apply keep_set_state; done
  | apply keep_call; unfold io; eauto 6 with fs tx
  | case_match ].

Lemma keep_require {A} (Q : A -> Prop) x (k : M st TransactionError A) : keep Q k -> keep Q (require_state x k).
Proof. intros Hk. unfold require_state. apply keep_get. intros t _ _ _. case_match; [done|]. apply keeps_throw. Qed.

Lemma keep_push_staged rel shadow expected len : starts_with [SLASH] rel = false ->
  keep (fun _ => True) (push_staged hash_of rel shadow expected len).
Proof. intros Hr. unfold push_staged. repeat keep_step. Qed.

Lemma keep_stage_file rel source expected : starts_with [SLASH] (clean rel) = false ->
  keep (fun _ => True) (stage_file hash_of rel source expected).
Proof. intros Hr. apply keep_require. repeat first [by apply keep_push_staged|keep_step]. Qed.
Lemma keep_stage_bytes rel content expected : starts_with [SLASH] (clean rel) = false ->
  keep (fun _ => True) (stage_file_bytes hash_of rel content expected).
Proof. intros Hr. apply keep_require. repeat first [by apply keep_push_staged|keep_step]. Qed.
Lemma keep_register rel shadow expected : starts_with [SLASH] (clean rel) = false ->
  keep (fun _ => True) (register_staged hash_of rel shadow expected).
Proof. intros Hr. apply keep_require. repeat first [by apply keep_push_staged|keep_step]. Qed.
Lemma keep_stage_deletion rel : starts_with [SLASH] (clean rel) = false -> keep (fun _ => True) (stage_deletion hash_of rel).
Proof. intros Hr. apply keep_require. repeat keep_step. Qed.

Lemma only_verify i : only own (verify_item hash_of i).
Proof.
  unfold verify_item, io. repeat first [apply only_ret|apply only_throw|apply only_bind; [|intros]|apply only_map_error
    |apply only_exists|apply only_len|apply only_read|case_match].
Qed.

Lemma keep_backup i : starts_with [SLASH] (rel_path i) = false -> applied i = false ->
  keep (fun x => starts_with [SLASH] (rel_path x.1) = false /\ applied x.1 = false) (snd_part (backup_item (backup_root t0) i)).
Proof.
  intros Hr Ha. apply keeps_snd; [by apply quiet_docs| |].
  - unfold backup_item, io. apply only_bind; [eauto with fs|]. intros there. case_match; eauto 8 with fs tx.
  - intros w. unfold backup_item, exists_file, bind. cbn. destruct (replaces _ && _); [|done].
    unfold create_parents, create_dir_all, copy_file, io, map_error, call. cbn.
    repeat (case_match; simplify_eq/=); try done.
Qed.

Lemma keep_prepare_items done todo n m :
  Forall (fun i => starts_with [SLASH] (rel_path i) = false /\ applied i = false) done ->
  Forall (fun i => starts_with [SLASH] (rel_path i) = false /\ applied i = false) todo ->
  keep (fun _ => True) (prepare_items hash_of done todo n m).
Proof.
  intros Hd Ht. revert done n m Hd. induction Ht as [|i todo [Hr Ha] Ht IH]; intros done n m Hd; [by apply keeps_ret|].
  cbn [prepare_items]. apply keep_get. intros t _ -> _.
  eapply (keeps_bind _ _ (fun _ => True)); [apply keep_call, only_verify|intros b _].
  eapply keeps_bind; [by apply keep_backup|]. intros [i' k] [Hr' Ha'].
  eapply (keeps_bind _ _ (fun _ => True)); [apply keep_set_items, Forall_app; split; [done|by constructor]|intros _ _].
  apply IH. apply Forall_app. split; [done|]. by constructor.
Qed.

Lemma keep_rollback_items done todo n :
  Forall (fun i => starts_with [SLASH] (rel_path i) = false /\ applied i = false) todo -> keep (fun _ => True) (rollback_items done todo n).
Proof.
  intros Ht. revert done n. induction Ht as [|i todo [Hr Ha] Ht IH]; intros done n; [by apply keeps_ret|].
  cbn [rollback_items]. rewrite Ha. apply IH.
Qed.

Lemma keep_drop_roots : keep (fun _ => True) drop_roots.
Proof. unfold drop_roots. apply keep_get. intros t -> -> _. repeat keep_step; apply only_ignore, only_remove_dir; unfold own; auto. Qed.

(** Everything a caller can do before the commit. *)
Inductive op :=
  | OpStage (rel source : bytes) (expected : option Hash)
  | OpBytes (rel content : bytes) (expected : option Hash)
  | OpRegister (rel shadow : bytes) (expected : option Hash)
  | OpDelete (rel : bytes)
  | OpPrepare | OpAbort | OpRollback.

Definition run_op (o : op) : M st TransactionError unit :=
  match o with
  | OpStage rel source e => ignore (stage_file hash_of rel source e)
  | OpBytes rel content e => ignore (stage_file_bytes hash_of rel content e)
  | OpRegister rel shadow e => ignore (register_staged hash_of rel shadow e)
  | OpDelete rel => ignore (stage_deletion hash_of rel)
  | OpPrepare => ignore (prepare hash_of)
  | OpAbort => ignore abort
  | OpRollback => ignore rollback
  end.
Definition op_ok (o : op) : Prop :=
  match o with
  | OpStage rel _ _ | OpBytes rel _ _ | OpRegister rel _ _ | OpDelete rel => plain_names (clean rel)
  | _ => True
  end.
Fixpoint run_ops (os : list op) : M st TransactionError unit :=
  match os with
  | [] => ret tt
  | o :: os => let! _ := run_op o in run_ops os
  end.

Lemma keep_op o : op_ok o -> keep (fun _ => True) (run_op o).
Proof.
  intros Ho. destruct o; cbn in *; try apply plain_relative in Ho; apply (keeps_ignore _ _ (fun _ => True)).
  1: by apply keep_stage_file. 1: by apply keep_stage_bytes. 1: by apply keep_register. 1: by apply keep_stage_deletion.
  - unfold prepare. apply keep_require. apply keep_get. intros t _ _ Hi.
    eapply (keeps_bind _ _ (fun _ => True)); [by apply keep_prepare_items|]. intros [n m] _. repeat keep_step.
  - unfold abort. repeat first [apply keep_drop_roots|keep_step].
  - unfold rollback. apply keep_get. intros t _ _ Hi. eapply (keeps_bind _ _ (fun _ => True)); [by apply keep_rollback_items|].
    intros n _. repeat first [apply keep_drop_roots|keep_step].
Qed.

Lemma keep_ops os : Forall op_ok os -> keep (fun _ => True) (run_ops os).
Proof.
  induction 1 as [|o os Ho _ IH]; [by apply keeps_ret|]. cbn [run_ops].
  eapply (keeps_bind _ _ (fun _ => True)); [by apply keep_op|done].
Qed.

Lemma recover_quiet path j : j_shadow_root j = shadow_root t0 -> j_backup_root j = backup_root t0 -> j_state j <> Committing ->
  forall w p, ~ own p -> disk (recover_one path j w).2 !! p = disk w !! p.
Proof.
  intros Hs Hb Hj.
  assert (only own (remove_dir_all (J := TransactionJournal) (shadow_root t0))) as H1 by (apply only_remove_dir; unfold own; auto).
  assert (only own (remove_dir_all (J := TransactionJournal) (backup_root t0))) as H2 by (apply only_remove_dir; unfold own; auto).
  set (R := fun s : st => shadow_root s.1 = shadow_root t0 /\ backup_root s.1 = backup_root t0).
  assert (keeps R own (fun _ => True) abort) as Ha.
  { unfold abort. apply (keeps_bind _ _ (fun _ => True)); [by intros [t w] [??]|intros _ _].
    apply (keeps_bind _ _ (fun _ => True)).
    - intros [t w] HR. unfold save_journal, save_journal_of, bind, get, snd_part, get_now, io, map_error, save_doc, call. cbn.
      by destruct (events w) as [|[]].
    - intros _ _. unfold drop_roots. intros s HR. destruct HR as [Es Eb].
      change (bind get ?k s) with (k s.1 s). cbn beta. rewrite Es, Eb. revert s Es Eb.
      assert (keeps R own (fun _ => True) (let! _ := snd_part (ignore (remove_dir_all (shadow_root t0))) in
        snd_part (ignore (F := TransactionError) (remove_dir_all (backup_root t0))))) as Hk.
      { apply (keeps_bind _ _ (fun _ => True)); [|intros _ _]; (apply keeps_snd; [done|by apply only_ignore|intros w; by case_match]). }
      intros s Es Eb. by apply Hk. }
  intros w p Hp. unfold recover_one. case_match eqn:E; try done.
  1,2: unfold bind, ignore, run_on; destruct (Ha (tx_of j path, w)) as (_ & Hd & _); [by split|];
    destruct (abort (tx_of j path, w)) as [[] [t' w']]; cbn in *; by apply Hd.
  rewrite Hs, Hb. apply (only_at own); [|done]. apply only_bind; [by apply only_ignore|intros _]. apply only_bind; [by apply only_ignore|intros _; apply only_ret].
Qed.
End isolation.

(** ** Calls that succeed *)

(** Rewriting with a run, up to conversion of the state. *)
Ltac use_run E := match type of E with ?f _ = ?r => match goal with |- context [f ?s] =>
  let H := fresh in assert (f s = r) as H by exact E; rewrite H; clear H end end.

Section moves.
Context (hash_of : bytes -> Hash) (t0 : DirectoryTransaction).
Hypothesis shadow_ne : shadow_root t0 <> [].
Hypothesis backup_ne : backup_root t0 <> [].
Hypothesis shadow_noslash : ends_with [SLASH] (shadow_root t0) = false.
Hypothesis backup_noslash : ends_with [SLASH] (backup_root t0) = false.
Hypothesis apart : forall p, below (shadow_root t0) p = true -> below (backup_root t0) p = false.
Implicit Types (d : gmap bytes bytes) (i j : TransactionItem) (js : gmap bytes TransactionJournal) (es : list event).

Local Abbreviation shadow_of i := (join_to (shadow_root t0) (rel_path i)).
Local Abbreviation backup_of i := (join_to (backup_root t0) (rel_path i)).

(** A staged item: its paths, and what the disk has there. *)
Record staged d i : Prop := {
  s_rel : starts_with [SLASH] (rel_path i) = false;
  s_dest : dest_path i = join_to (target_dir t0) (rel_path i);
  s_out : ~ own t0 (dest_path i);
  s_new : match action i with
          | Delete_ => shadow_path i = None
          | _ => shadow_path i = Some (shadow_of i) /\ is_Some (d !! shadow_of i)
          end;
  s_old : is_Some (d !! dest_path i) <-> action i <> Create_ }.

(** Its backup, after [prepare]. *)
Definition backed d i : Prop :=
  match action i with
  | Create_ => backup_path i = None
  | _ => backup_path i = Some (backup_of i) /\ d !! backup_of i = d !! dest_path i
  end.

(** What an item puts at its destination, and what its backup holds. *)
Definition content d i : option bytes := match shadow_path i with Some s => d !! s | None => None end.
Definition saved d i : option bytes := match backup_path i with Some b => d !! b | None => None end.

Definition move i d : gmap bytes bytes :=
  match content d i with
  | Some c => <[dest_path i := c]> (delete (shadow_of i) (delete (dest_path i) d))
  | None => delete (dest_path i) d
  end.
Definition undo i d : gmap bytes bytes :=
  match saved d i with
  | Some c => <[dest_path i := c]> d
  | None => delete (dest_path i) d
  end.
Definition calls i : nat := match action i with Create_ => 2 | Update => 3 | Delete_ => 1 end.

Lemma shadow_dest d i j : staged d i -> staged d j -> shadow_of i <> dest_path j.
Proof. intros Hi Hj E. apply (s_out _ _ Hj). rewrite <- E. apply shadow_own; try done. by apply s_rel with d. Qed.
Lemma backup_dest d i j : staged d i -> staged d j -> backup_of i <> dest_path j.
Proof. intros Hi Hj E. apply (s_out _ _ Hj). rewrite <- E. apply backup_own; try done. by apply s_rel with d. Qed.
Lemma shadow_backup d i j : staged d i -> staged d j -> shadow_of i <> backup_of j.
Proof.
  intros Hi Hj E. destruct (below_join (shadow_root t0) (rel_path i)) as [_ H1]; [done|done|by apply s_rel with d|].
  destruct (below_join (backup_root t0) (rel_path j)) as [_ H2]; [done|done|by apply s_rel with d|].
  apply apart in H1. rewrite E in H1. congruence.
Qed.
Lemma dest_inj d i j : staged d i -> staged d j -> dest_path i = dest_path j -> rel_path i = rel_path j.
Proof. intros Hi Hj. rewrite (s_dest _ _ Hi), (s_dest _ _ Hj). apply join_inj; by eapply s_rel. Qed.

Lemma move_lookup d i p : staged d i ->
  move i d !! p = if bool_decide (p = dest_path i) then content d i
                  else if bool_decide (p = shadow_of i /\ is_put (action i) = true) then None else d !! p.
Proof.
  intros Hi. unfold move. pose proof (s_new _ _ Hi) as Hn. pose proof (shadow_dest d i i Hi Hi) as Hsd.
  unfold content, is_put. destruct (action i) eqn:Ea.
  1,2: destruct Hn as [-> [c Hc]]; cbn match; rewrite Hc; (destruct (decide (p = dest_path i)) as [->|Hne];
    [rewrite lookup_insert_eq, bool_decide_eq_true_2 by done; done|]; rewrite lookup_insert_ne, (bool_decide_eq_false_2 (p = dest_path i)) by done;
    destruct (decide (p = shadow_of i)) as [->|Hns]; [rewrite lookup_delete_eq, bool_decide_eq_true_2 by done; done|];
    rewrite !lookup_delete_ne, bool_decide_eq_false_2 by naive_solver; done).
  rewrite Hn. cbn match. destruct (decide (p = dest_path i)) as [->|Hne].
  - by rewrite lookup_delete_eq, bool_decide_eq_true_2.
  - rewrite lookup_delete_ne, !bool_decide_eq_false_2 by naive_solver. done.
Qed.

Lemma move_shadow d i j : staged d i -> staged d j -> rel_path i <> rel_path j -> move i d !! shadow_of j = d !! shadow_of j.
Proof.
  intros Hi Hj Hne. rewrite move_lookup, !bool_decide_eq_false_2; [done| | |done].
  - intros [E _]. apply Hne. symmetry. apply join_inj in E; [done|by eapply s_rel..].
  - by apply (shadow_dest d).
Qed.
Lemma move_dest d i j : staged d i -> staged d j -> rel_path i <> rel_path j -> move i d !! dest_path j = d !! dest_path j.
Proof.
  intros Hi Hj Hne. rewrite move_lookup, !bool_decide_eq_false_2; [done| | |done].
  - intros [E _]. by eapply (shadow_dest d i j).
  - intros E. apply Hne. symmetry. by eapply dest_inj.
Qed.
Lemma move_backup d i j : staged d i -> staged d j -> move i d !! backup_of j = d !! backup_of j.
Proof.
  intros Hi Hj. rewrite move_lookup, !bool_decide_eq_false_2; [done| | |done].
  - intros [E _]. by eapply (shadow_backup d i j).
  - by apply (backup_dest d).
Qed.

Lemma staged_move d i j : staged d i -> staged d j -> rel_path i <> rel_path j -> staged (move i d) j.
Proof.
  intros Hi Hj Hne. destruct Hj as [H1 H2 H3 H4 H5] eqn:E. split; [done..| |].
  - rewrite (move_shadow d i j) by done. done.
  - by rewrite (move_dest d i j).
Qed.
Lemma backed_move d i j : staged d i -> staged d j -> rel_path i <> rel_path j -> backed d j -> backed (move i d) j.
Proof. intros Hi Hj Hne Hb. unfold backed in *. by rewrite (move_backup d i j), (move_dest d i j). Qed.

Lemma content_move d i j : staged d i -> staged d j -> rel_path i <> rel_path j -> content (move i d) j = content d j.
Proof.
  intros Hi Hj Hne. unfold content. pose proof (s_new _ _ Hj) as Hn. destruct (action j); [destruct Hn as [-> _]..|by rewrite Hn];
    cbn match; by apply move_shadow.
Qed.

(** *** Moves of a commit *)

Local Abbreviation W d js es nw := (mkWorld d js es nw).
Definition moves (l : list TransactionItem) d : gmap bytes bytes := foldl (fun d i => move i d) d l.
Definition all_calls (l : list TransactionItem) : nat := foldr (fun i n => (calls i + n)%nat) 0%nat l.
Definition mark (l : list TransactionItem) : list TransactionItem := (fun i => with_applied i true) <$> l.

Ltac go_call H :=
  unfold set_disk, set_docs; cbn [disk docs events now];
  match type of H with goes (S ?n) ?es =>
    let E := fresh "E" in let H' := fresh H in
    match goal with |- context [call ?go ?part (mkWorld ?d ?js es ?nw)] =>
      destruct (call_go n go part d js es nw H) as [E H']; rewrite E; clear E H; rename H' into H end
  end.

Lemma apply_item_go d js es nw i : staged d i -> goes (calls i) es ->
  apply_item i (W d js es nw) = (Done (inr tt), W (move i d) js (drop (calls i) es) nw).
Proof.
  intros Hi Hg. pose proof (s_new _ _ Hi) as Hn. pose proof (s_old _ _ Hi) as Ho. pose proof (shadow_dest d i i Hi Hi) as Hsd.
  unfold apply_item, calls, move, content in *. destruct (action i).
  - destruct Hn as [-> [c Hc]]. assert (d !! dest_path i = None) as Hd by (apply eq_None_not_Some; naive_solver).
    unfold bind, io, map_error, create_parents, create_dir_all. go_call Hg.
    unfold exists_file, when. cbn. rewrite Hd. cbn. unfold ret, attempt, rename_file. go_call Hg. cbn. rewrite Hc. cbn.
    by rewrite (delete_id d (dest_path i)), !drop_drop.
  - destruct Hn as [-> [c Hc]]. destruct (proj2 Ho) as [old Hd]; [done|].
    unfold bind, io, map_error, create_parents, create_dir_all. go_call Hg.
    unfold exists_file, when. cbn. rewrite Hd. cbn. unfold ignore, remove_file. go_call Hg. cbn. rewrite Hd. cbn.
    unfold attempt, rename_file. go_call Hg. cbn. rewrite lookup_delete_ne, Hc by done. cbn. by rewrite !drop_drop.
  - rewrite Hn. destruct (proj2 Ho) as [old Hd]; [done|]. unfold bind, exists_file. cbn. rewrite Hd. cbn.
    unfold attempt, remove_file. go_call Hg. cbn. by rewrite Hd.
Qed.

Lemma with_items_same t : with_items t (items t) = t.
Proof. by destruct t. Qed.

Lemma commit_items_go (pre todo done : list TransactionItem) n m t d js es nw : Forall (staged d) pre -> NoDup (rel_path <$> pre) ->
  items t = done ++ pre ++ todo -> goes (all_calls pre) es ->
  exists n' m', commit_items done (pre ++ todo) n m (t, W d js es nw) =
    commit_items (done ++ mark pre) todo n' m'
      (with_items t (done ++ mark pre ++ todo), W (moves pre d) js (drop (all_calls pre) es) nw).
Proof.
  revert done n m t d es. induction pre as [|i pre IH]; intros done n m t d es Hs Hnd Ht Hg.
  { exists n, m. cbn. rewrite app_nil_r, drop_0. cbn in Ht. by rewrite <- Ht, with_items_same. }
  apply Forall_cons in Hs as [Hi Hs]. rewrite fmap_cons in Hnd. apply NoDup_cons in Hnd as [Hni Hnd]. cbn in Hg.
  assert (Forall (staged (move i d)) pre) as Hs'.
  { apply Forall_forall. intros j Hj. apply staged_move; [done| |]; [by eapply Forall_forall in Hs|].
    intros E. apply Hni. rewrite E. by apply list_elem_of_fmap_2. }
  cbn [commit_items app]. unfold bind at 1, snd_part at 1. rewrite apply_item_go; [|done|by apply goes_app in Hg].
  cbv beta iota zeta. unfold bind at 1, set_items at 1. cbv beta iota zeta.
  apply goes_drop in Hg. set (t1 := with_items t (done ++ with_applied i true :: pre ++ todo)).
  assert (forall n m, exists n' m', commit_items (done ++ [with_applied i true]) (pre ++ todo) n m
      (t1, W (move i d) js (drop (calls i) es) nw) =
    commit_items (done ++ mark (i :: pre)) todo n' m'
      (with_items t (done ++ mark (i :: pre) ++ todo), W (moves (i :: pre) d) js (drop (all_calls (i :: pre)) es) nw)) as Hrest.
  { intros n1 m1. destruct (IH (done ++ [with_applied i true]) n1 m1 t1 (move i d) (drop (calls i) es)) as (n' & m' & E); [done|done| |done|].
    - unfold t1. cbn. by rewrite <- app_assoc.
    - exists n', m'. rewrite E. cbn [mark fmap list_fmap moves foldl all_calls foldr]. rewrite drop_drop, <- !app_assoc. done. }
  case_match; apply Hrest.
Qed.

Lemma moves_staged (l : list TransactionItem) d j : Forall (staged d) l -> staged d j -> NoDup (rel_path <$> j :: l) ->
  staged (moves l d) j /\ content (moves l d) j = content d j /\ moves l d !! dest_path j = d !! dest_path j.
Proof.
  revert d. induction l as [|i l IH]; intros d Hs Hj Hnd; [done|]. apply Forall_cons in Hs as [Hi Hs].
  rewrite !fmap_cons in Hnd. apply NoDup_cons in Hnd as [Hj1 Hnd]. apply NoDup_cons in Hnd as [Hi1 Hnd].
  assert (rel_path i <> rel_path j) as Hne by (intros E; apply Hj1; rewrite E; by left).
  assert (Forall (staged (move i d)) l) as Hs'.
  { apply Forall_forall. intros k Hk. apply staged_move; [done| |]; [by eapply Forall_forall in Hs|].
    intros E. apply Hi1. rewrite E. by apply list_elem_of_fmap_2. }
  cbn [moves foldl]. fold (moves l (move i d)). destruct (IH (move i d)) as (H1 & H2 & H3); [done|by apply staged_move| |].
  - rewrite fmap_cons. apply NoDup_cons. split; [|done]. intros Hin. apply Hj1. by right.
  - split; [done|]. rewrite H2, H3, content_move, move_dest by done. done.
Qed.

Lemma moves_outside (l : list TransactionItem) d p : Forall (staged d) l -> NoDup (rel_path <$> l) -> ~ own t0 p ->
  moves l d !! p = match List.find (fun i => bool_decide (dest_path i = p)) l with Some i => content d i | None => d !! p end.
Proof.
  revert d. induction l as [|i l IH]; intros d Hs Hnd Hp; [done|]. apply Forall_cons in Hs as [Hi Hs].
  rewrite fmap_cons in Hnd. apply NoDup_cons in Hnd as [Hi1 Hnd].
  assert (forall k, k ∈ l -> staged d k /\ rel_path i <> rel_path k) as Hk.
  { intros k Hk. split; [by eapply Forall_forall in Hs|]. intros E. apply Hi1. rewrite E. by apply list_elem_of_fmap_2. }
  cbn [moves foldl List.find]. fold (moves l (move i d)). rewrite IH; [|apply Forall_forall; intros k [??]%Hk; by apply staged_move|done|done].
  destruct (List.find _ l) as [k|] eqn:Ef.
  - apply List.find_some in Ef as [Hin%list_elem_of_In Hd%bool_decide_eq_true]. destruct (Hk k Hin) as [Hsk Hne].
    rewrite bool_decide_eq_false_2; [by apply content_move|]. intros E. apply Hne. apply (dest_inj d); [done|done|]. by rewrite E, Hd.
  - rewrite move_lookup by done. destruct (decide (p = dest_path i)) as [->|Hne]; [by rewrite !bool_decide_eq_true_2 by done|].
    rewrite (bool_decide_eq_false_2 (dest_path i = p)), (bool_decide_eq_false_2 (p = dest_path i)) by congruence.
    rewrite bool_decide_eq_false_2; [done|]. intros [-> _]. apply Hp. apply shadow_own; [done..|]. by eapply s_rel.
Qed.

(** *** Preparation *)

Definition verified d i : Prop :=
  match shadow_path i with
  | None => True
  | Some s => exists c, d !! s = Some c /\ zlen c = size i /\
      match expected_hash i with Some h => hash_of c = h | None => True end
  end.
Definition prepared_item i : TransactionItem := if replaces (action i) then with_backup i (backup_of i) else i.

Lemma verify_item_ok d js nw i : verified d i ->
  verify_item hash_of i (W d js [] nw) = (Done (match shadow_path i with None => 0 | _ => size i end), W d js [] nw).
Proof.
  unfold verified, verify_item. destruct (shadow_path i) as [s|]; [|done]. intros (c & Hc & Hl & Hh).
  unfold bind, exists_file, io, map_error, file_len, read_file, call. cbn. rewrite Hc. cbn. rewrite Hc, Hl, Z.eqb_refl. cbn.
  destruct (expected_hash i) as [h|]; [|done]. cbn. rewrite Hc, Hh. by rewrite bool_decide_eq_true_2.
Qed.

Lemma backup_item_ok d js nw i : staged d i -> exists n,
  backup_item (backup_root t0) i (W d js [] nw) =
    (Done (prepared_item i, n),
     W (if replaces (action i) then match d !! dest_path i with Some old => <[backup_of i := old]> d | None => d end else d) js [] nw).
Proof.
  intros Hi. pose proof (s_old _ _ Hi) as Ho. unfold backup_item, prepared_item, replaces, bind, exists_file. cbn.
  destruct (decide (action i = Create_)) as [E|E].
  - rewrite (bool_decide_eq_false_2 (action i <> Create_)) by naive_solver. by exists 0.
  - rewrite (bool_decide_eq_true_2 (action i <> Create_)) by done. destruct (proj2 Ho E) as [old Hd]. rewrite Hd. cbn.
    unfold io, map_error, create_parents, create_dir_all, copy_file, call. cbn. rewrite Hd. by exists 1.
Qed.

Lemma prepared_fields i : rel_path (prepared_item i) = rel_path i /\ action (prepared_item i) = action i /\
  shadow_path (prepared_item i) = shadow_path i /\ dest_path (prepared_item i) = dest_path i.
Proof. unfold prepared_item. by case_match. Qed.

Lemma staged_frame d d' i : staged d i -> (forall p, below (backup_root t0) p = false -> d' !! p = d !! p) -> staged d' i.
Proof.
  intros Hi Hf. assert (d' !! shadow_of i = d !! shadow_of i) as E1.
  { apply Hf, apart. apply below_join; [done|done|]. by eapply s_rel. }
  assert (d' !! dest_path i = d !! dest_path i) as E2.
  { apply Hf. destruct (below _ _) eqn:E; [|done]. exfalso. apply (s_out _ _ Hi). by right. }
  destruct Hi. split; [done..| |]; by rewrite ?E1, ?E2.
Qed.
Lemma staged_prepared d i : staged d i -> staged d (prepared_item i).
Proof.
  intros Hi. destruct (prepared_fields i) as (E1 & E2 & E3 & E4). destruct Hi. by split; rewrite ?E1, ?E2, ?E3, ?E4.
Qed.

Lemma prepare_items_ok (todo done : list TransactionItem) n m t d js nw : Forall (staged d) todo -> Forall (verified d) todo ->
  Forall (fun i => backup_path i = None) todo -> NoDup (rel_path <$> todo) -> items t = done ++ todo -> backup_root t = backup_root t0 ->
  exists n' m' d', prepare_items hash_of done todo n m (t, W d js [] nw) =
      (Done (n', m'), (with_items t (done ++ (prepared_item <$> todo)), W d' js [] nw)) /\
    (forall p, (forall j, j ∈ todo -> p <> backup_of j) -> d' !! p = d !! p) /\
    Forall (backed d') (prepared_item <$> todo).
Proof.
  revert done n m t d. induction todo as [|i todo IH]; intros done n m t d Hs Hv Hb Hnd Ht Hr.
  { exists n, m, d. cbn. rewrite <- Ht, with_items_same. by split_and!. }
  apply Forall_cons in Hs as [Hi Hs]. apply Forall_cons in Hv as [Hvi Hv]. apply Forall_cons in Hb as [Hbi Hb].
  rewrite fmap_cons in Hnd. apply NoDup_cons in Hnd as [Hni Hnd].
  assert (forall j, j ∈ todo -> backup_of j <> backup_of i) as Hbne.
  { intros j Hj E. apply Hni. apply join_inj in E; [rewrite <- E; by apply list_elem_of_fmap_2| |by eapply s_rel].
    eapply s_rel. by eapply Forall_forall in Hs. }
  cbn [prepare_items]. unfold bind at 1, get at 1. cbn [fst]. rewrite Hr.
  unfold bind at 1, snd_part at 1. rewrite verify_item_ok by done. cbv beta iota zeta.
  unfold bind at 1, snd_part at 1. destruct (backup_item_ok d js nw i Hi) as [k Ek]. rewrite Ek. cbv beta iota zeta.
  unfold bind at 1, set_items at 1. cbv beta iota zeta. set (d1 := if replaces (action i) then _ else d).
  assert (forall p, p <> backup_of i -> d1 !! p = d !! p) as Hd1.
  { intros p Hp. unfold d1. repeat case_match; try done. by rewrite lookup_insert_ne. }
  assert (forall p, below (backup_root t0) p = false -> d1 !! p = d !! p) as Hout.
  { intros p Hp. apply Hd1. intros ->. destruct (below_join (backup_root t0) (rel_path i)) as [_ H]; [done|done|by eapply s_rel|congruence]. }
  edestruct (IH (done ++ [prepared_item i]) (n + k) (wrap 64 (m + match shadow_path i with None => 0 | _ => size i end)) (with_items t (done ++ prepared_item i :: todo)) d1) as (n' & m' & d' & E & Hf & Hbk).
  6: done.
  - eapply Forall_impl; [exact Hs|]. intros j Hj. by eapply staged_frame.
  - apply Forall_forall. intros j Hj. assert (verified d j) as Hvj by by eapply Forall_forall in Hv.
    unfold verified in *. destruct (shadow_path j) as [s|] eqn:Es; [|done]. destruct Hvj as (c & Hc & Hrest). exists c. split; [|done].
    rewrite <- Hc. apply Hd1. assert (staged d j) as Hj' by by eapply Forall_forall in Hs.
    pose proof (s_new _ _ Hj') as Hn. intros ->. destruct (action j); simplify_eq; destruct Hn as [Hn _]; simplify_eq;
      by eapply (shadow_backup d j i).
  - done.
  - done.
  - cbn. by rewrite <- app_assoc.
  - exists n', m', d'. split_and!.
    + etransitivity; [exact E|]. cbn [fmap list_fmap]. by rewrite <- app_assoc.
    + intros p Hp. rewrite Hf, Hd1; [done|apply Hp; left|]. intros j Hj. apply Hp. by right.
    + cbn [fmap list_fmap]. constructor; [|done]. destruct (prepared_fields i) as (E1 & E2 & E3 & E4).
      unfold backed. rewrite E1, E2, E4. pose proof (s_old _ _ Hi) as Ho. unfold prepared_item, replaces.
      destruct (decide (action i = Create_)) as [Ea|Ea].
      * rewrite Ea. rewrite bool_decide_eq_false_2 by naive_solver. done.
      * rewrite bool_decide_eq_true_2 by done. destruct (proj2 Ho Ea) as [old Hd].
        assert (d' !! backup_of i = d' !! dest_path i) as Heq.
        { rewrite !Hf; [|intros j Hj; intros E'; symmetry in E'; revert E'; apply (backup_dest d); [by eapply Forall_forall in Hs|done]
            |intros j Hj E'; by apply (Hbne j)].
          unfold d1, replaces. rewrite bool_decide_eq_true_2, Hd by done. rewrite lookup_insert_eq, lookup_insert_ne; [done|].
          by apply (backup_dest d). }
        by destruct (action i).
Qed.

(** *** Rollback *)

Definition restorable d i : Prop :=
  match action i with
  | Create_ => backup_path i = None
  | _ => exists c, backup_path i = Some (backup_of i) /\ d !! backup_of i = Some c
  end.
Definition undos (l : list TransactionItem) d : gmap bytes bytes := foldl (fun d i => if applied i then undo i d else d) d l.
Definition unmark (l : list TransactionItem) : list TransactionItem := (fun i => if applied i then with_applied i false else i) <$> l.

Lemma undo_item_ok d js nw i : restorable d i -> exists n, undo_item i (W d js [] nw) = (Done n, W (undo i d) js [] nw).
Proof.
  unfold restorable, undo_item, undo, saved. intros Hr.
  destruct (action i).
  - rewrite Hr. unfold bind, exists_file. cbn. destruct (d !! dest_path i) as [x|] eqn:Ed; cbn.
    + unfold ignore, remove_file, call. cbn. rewrite Ed. by exists 1.
    + rewrite delete_id by done. by exists 0.
  - destruct Hr as (c & -> & Hc). unfold bind, exists_file. cbn. rewrite Hc. cbn.
    unfold ignore, create_parents, create_dir_all, copy_file, call. cbn. rewrite Hc. by exists 1.
  - destruct Hr as (c & -> & Hc). unfold bind, exists_file. cbn. rewrite Hc. cbn.
    unfold ignore, create_parents, create_dir_all, copy_file, call. cbn. rewrite Hc. by exists 1.
Qed.

Lemma undo_lookup d i p : undo i d !! p = if bool_decide (p = dest_path i) then saved d i else d !! p.
Proof.
  unfold undo. destruct (decide (p = dest_path i)) as [->|Hne].
  - rewrite bool_decide_eq_true_2 by done. destruct (saved d i) as [c|]; [by rewrite lookup_insert_eq|by rewrite lookup_delete_eq].
  - rewrite bool_decide_eq_false_2 by done. destruct (saved d i) as [c|]; [by rewrite lookup_insert_ne|by rewrite lookup_delete_ne].
Qed.

(** Items whose destinations are no backups. *)
Definition places (l : list TransactionItem) : Prop := forall i j, i ∈ l -> j ∈ l -> dest_path i <> backup_of j.

Lemma restorable_undo d i j : dest_path i <> backup_of j -> restorable d j -> restorable (undo i d) j.
Proof. intros Hne Hr. unfold restorable in *. rewrite undo_lookup, bool_decide_eq_false_2 by congruence. done. Qed.
Lemma saved_undo d i j : dest_path i <> backup_of j -> restorable d j -> saved (undo i d) j = saved d j.
Proof.
  intros Hne Hr. unfold restorable, saved in *. destruct (action j); [by rewrite Hr|destruct Hr as (c & -> & Hc)..];
    by rewrite undo_lookup, bool_decide_eq_false_2 by congruence.
Qed.

Lemma rollback_items_ok (todo done : list TransactionItem) n t d js nw : places todo ->
  Forall (fun i => applied i = true -> restorable d i) todo -> items t = done ++ todo ->
  exists n', rollback_items done todo n (t, W d js [] nw) =
    (Done n', (with_items t (done ++ unmark todo), W (undos todo d) js [] nw)).
Proof.
  revert done n t d. induction todo as [|i todo IH]; intros done n t d Hp Hr Ht.
  { exists n. cbn. by rewrite <- Ht, with_items_same. }
  apply Forall_cons in Hr as [Hi Hr].
  assert (places todo) as Hp' by (intros a b Ha Hb; apply Hp; by right).
  cbn [rollback_items undos foldl unmark fmap list_fmap]. fold (unmark todo). destruct (applied i) eqn:Ea.
  - unfold bind at 1, snd_part at 1. destruct (undo_item_ok d js nw i (Hi eq_refl)) as [k ->]. cbv beta iota zeta.
    unfold bind at 1, set_items at 1. cbv beta iota zeta. fold (undos todo (undo i d)).
    destruct (IH (done ++ [with_applied i false]) (n + k) (with_items t (done ++ with_applied i false :: todo)) (undo i d)) as [n' E].
    + done.
    + apply Forall_forall. intros j Hj Haj. apply restorable_undo; [apply Hp; [left|by right]|]. by eapply Forall_forall in Hr; [apply Hr|].
    + cbn. by rewrite <- app_assoc.
    + exists n'. etransitivity; [exact E|]. unfold with_items. cbn. by rewrite <- app_assoc.
  - destruct (IH (done ++ [i]) n t d) as [n' E]; [done|done|by rewrite <- app_assoc|]. exists n'. etransitivity; [exact E|]. by rewrite <- app_assoc.
Qed.

Lemma undos_lookup (l : list TransactionItem) d p : places l -> Forall (fun i => applied i = true -> restorable d i) l ->
  (forall i j, i ∈ l -> j ∈ l -> dest_path i = dest_path j -> i = j) ->
  undos l d !! p =
    match List.find (fun i => applied i && bool_decide (dest_path i = p)) l with Some i => saved d i | None => d !! p end.
Proof.
  revert d. induction l as [|i l IH]; intros d Hp Hr Hinj; [done|]. apply Forall_cons in Hr as [Hi Hr].
  assert (places l) as Hp' by (intros a b Ha Hb; apply Hp; by right).
  assert (forall a b, a ∈ l -> b ∈ l -> dest_path a = dest_path b -> a = b) as Hinj' by (intros a b Ha Hb; apply Hinj; by right).
  cbn [undos foldl List.find]. destruct (applied i) eqn:Ea; [|by apply IH]. fold (undos l (undo i d)).
  rewrite IH; [|done| |done].
  2: { apply Forall_forall. intros j Hj Haj. apply restorable_undo; [apply Hp; [left|by right]|]. by eapply Forall_forall in Hr; [apply Hr|]. }
  cbn [andb]. destruct (List.find _ l) as [k|] eqn:Ef.
  - apply List.find_some in Ef as [Hin%list_elem_of_In Hk]. apply andb_true_iff in Hk as [Hak Hd%bool_decide_eq_true].
    rewrite saved_undo; [|apply Hp; [left|by right]|eapply Forall_forall in Hr; [by apply Hr|done]].
    case_bool_decide as E; [|done]. assert (i = k) as -> by (apply Hinj; [left|by right|congruence]). done.
  - rewrite undo_lookup. destruct (decide (p = dest_path i)) as [->|Hne]; [by rewrite !bool_decide_eq_true_2|].
    by rewrite !bool_decide_eq_false_2 by congruence.
Qed.

(** *** Whole operations *)

Lemma moves_backup (l : list TransactionItem) d j : Forall (staged d) l -> NoDup (rel_path <$> l) ->
  starts_with [SLASH] (rel_path j) = false -> moves l d !! backup_of j = d !! backup_of j.
Proof.
  revert d. induction l as [|i l IH]; intros d Hs Hnd Hj; [done|]. apply Forall_cons in Hs as [Hi Hs].
  rewrite fmap_cons in Hnd. apply NoDup_cons in Hnd as [Hni Hnd]. cbn [moves foldl]. fold (moves l (move i d)).
  destruct (below_join (backup_root t0) (rel_path j)) as [_ Hbj]; [done..|].
  rewrite IH; [|apply Forall_forall; intros k Hk; apply staged_move; [done|by eapply Forall_forall in Hs|]|done|done].
  2: { intros E. apply Hni. rewrite E. by apply list_elem_of_fmap_2. }
  rewrite move_lookup, !bool_decide_eq_false_2; [done| | |done].
  - intros [E _]. destruct (below_join (shadow_root t0) (rel_path i)) as [_ H1]; [done|done|by eapply s_rel|].
    apply apart in H1. rewrite <- E in H1. congruence.
  - intros E. apply (s_out _ _ Hi). right. by rewrite <- E.
Qed.

Section prepared.
Context (l : list TransactionItem) (d : gmap bytes bytes).
Hypothesis l_staged : Forall (staged d) l.
Hypothesis l_backed : Forall (backed d) l.
Hypothesis l_rels : NoDup (rel_path <$> l).
Hypothesis l_new : Forall (fun i => applied i = false) l.

Lemma of_l i : i ∈ l -> staged d i /\ backed d i /\ applied i = false.
Proof. rewrite !Forall_forall in l_staged, l_backed, l_new. auto. Qed.

Lemma rel_inj i j : i ∈ l -> j ∈ l -> rel_path i = rel_path j -> i = j.
Proof.
  intros Hi Hj E. apply list_elem_of_lookup in Hi as [a Ha], Hj as [b Hb].
  assert (a = b) as -> by (eapply NoDup_lookup; [exact l_rels|rewrite list_lookup_fmap, Ha; done|rewrite list_lookup_fmap, Hb; cbn; by rewrite E]).
  congruence.
Qed.

Lemma restorable_moved pre rest i : l = pre ++ rest -> i ∈ l -> restorable (moves pre d) i.
Proof.
  intros E Hi. destruct (of_l i Hi) as (Hs & Hb & _).
  assert (moves pre d !! backup_of i = d !! backup_of i) as Em.
  { rewrite E in l_staged, l_rels. apply Forall_app in l_staged as [Hp _]. rewrite fmap_app in l_rels. apply NoDup_app in l_rels as [Hn _].
    apply moves_backup; [done|done|]. by eapply s_rel. }
  unfold restorable, backed in *. pose proof (s_old _ _ Hs) as Ho. rewrite Em. destruct (action i); [done|..];
    destruct Hb as [-> ->]; destruct (proj2 Ho) as [c Hc]; try done; by exists c.
Qed.

Lemma saved_moved pre rest i : l = pre ++ rest -> i ∈ l -> saved (moves pre d) i = d !! dest_path i.
Proof.
  intros E Hi. destruct (of_l i Hi) as (Hs & Hb & _).
  assert (moves pre d !! backup_of i = d !! backup_of i) as Em.
  { rewrite E in l_staged, l_rels. apply Forall_app in l_staged as [Hp _]. rewrite fmap_app in l_rels. apply NoDup_app in l_rels as [Hn _].
    apply moves_backup; [done|done|]. by eapply s_rel. }
  unfold saved, backed in *. pose proof (s_old _ _ Hs) as Ho. destruct (action i).
  - rewrite Hb. symmetry. apply eq_None_not_Some. naive_solver.
  - destruct Hb as [-> <-]. done.
  - destruct Hb as [-> <-]. done.
Qed.

Lemma marked_elem pre rest i : l = pre ++ rest -> i ∈ mark pre ++ rest -> exists j, j ∈ l /\ rel_path i = rel_path j /\
  dest_path i = dest_path j /\ action i = action j /\ backup_path i = backup_path j /\
  (j ∈ pre /\ i = with_applied j true \/ j ∈ rest /\ i = j).
Proof.
  intros -> [Hi|Hi]%elem_of_app.
  - apply list_elem_of_fmap in Hi as (j & -> & Hj). exists j. rewrite elem_of_app. naive_solver.
  - exists i. rewrite elem_of_app. naive_solver.
Qed.

Lemma marked_places pre rest : l = pre ++ rest -> places (mark pre ++ rest) /\
  Forall (fun i => applied i = true -> restorable (moves pre d) i) (mark pre ++ rest) /\
  (forall i j, i ∈ mark pre ++ rest -> j ∈ mark pre ++ rest -> dest_path i = dest_path j -> i = j).
Proof.
  intros E. split_and!.
  - intros i j (i' & Hi & _ & -> & _)%(marked_elem _ _ _ E) (j' & Hj & -> & _)%(marked_elem _ _ _ E) Ed. symmetry in Ed. revert Ed.
    apply (backup_dest d); by apply of_l.
  - apply Forall_forall. intros i (j & Hj & H1 & H2 & H3 & H4 & _)%(marked_elem _ _ _ E) _.
    pose proof (restorable_moved pre rest j E Hj) as Hr. unfold restorable in *. by rewrite H3, H4, H1.
  - intros i j Hi Hj Ed. apply (marked_elem _ _ _ E) in Hi as (i' & Hi & _ & E1 & _ & _ & Hi').
    apply (marked_elem _ _ _ E) in Hj as (j' & Hj & _ & E2 & _ & _ & Hj').
    assert (i' = j') as ->. { apply rel_inj; [done|done|]. apply (dest_inj d); [by apply of_l|by apply of_l|congruence]. }
    destruct Hi' as [[Ha ->]|[Ha ->]], Hj' as [[Hb ->]|[Hb ->]]; try done; exfalso; rewrite E in l_rels; rewrite fmap_app in l_rels;
      apply NoDup_app in l_rels as (_ & Hx & _); eapply Hx; by apply list_elem_of_fmap_2.
Qed.

(** Undoing the moves of a part of the items gives the disk before them. *)
Lemma undo_moves pre rest p : l = pre ++ rest -> ~ own t0 p -> undos (mark pre ++ rest) (moves pre d) !! p = d !! p.
Proof.
  intros E Hp. destruct (marked_places pre rest E) as (H1 & H2 & H3). rewrite undos_lookup by done.
  destruct (List.find _ _) as [i|] eqn:Ef.
  - apply List.find_some in Ef as [Hi%list_elem_of_In Hk]. apply andb_true_iff in Hk as [Ha Hd%bool_decide_eq_true].
    apply (marked_elem _ _ _ E) in Hi as (j & Hj & _ & Ej & _ & Eb & _). rewrite <- Hd, Ej.
    rewrite <- (saved_moved pre rest j E Hj). unfold saved. by rewrite Eb.
  - pose proof l_staged as Hs. pose proof l_rels as Hn. rewrite E in Hs, Hn. apply Forall_app in Hs as [Hs _]. rewrite fmap_app in Hn.
    apply NoDup_app in Hn as [Hn _]. rewrite moves_outside by done. destruct (List.find _ pre) as [j|] eqn:Ej; [|done].
    apply List.find_some in Ej as [Hj%list_elem_of_In Hd].
    eapply List.find_none in Ef; [|apply list_elem_of_In, elem_of_app; left; by apply list_elem_of_fmap_2].
    cbn in Ef. congruence.
Qed.
End prepared.

Lemma save_journal_go t d js es nw : goes 1 es ->
  save_journal (t, W d js es nw) = (Done tt, (t, W d (<[journal_path t := journal_of t nw]> js) (drop 1 es) nw)).
Proof.
  intros Hg. unfold save_journal, save_journal_of, bind, get, snd_part, get_now, io, map_error, save_doc. cbn -[drop call].
  go_call Hg. done.
Qed.

Definition removed (root : bytes) d : gmap bytes bytes := remove_paths (paths_below root d) d.

Lemma drop_roots_ok t d js nw : shadow_root t = shadow_root t0 -> backup_root t = backup_root t0 ->
  drop_roots (t, W d js [] nw) = (Done tt, (t, W (removed (backup_root t0) (removed (shadow_root t0) d)) js [] nw)).
Proof. intros Hs Hb. unfold drop_roots, bind, get, snd_part, ignore, remove_dir_all, call. cbn. by rewrite Hs, Hb. Qed.

Lemma removed_own d p : ~ own t0 p -> removed (backup_root t0) (removed (shadow_root t0) d) !! p = d !! p.
Proof.
  intros Hp. unfold removed. rewrite !remove_paths_below; [done|..]; destruct (below _ p) eqn:E; try done; exfalso; apply Hp; unfold own; auto.
Qed.

Lemma rollback_ok t d js nw : shadow_root t = shadow_root t0 -> backup_root t = backup_root t0 ->
  places (items t) -> Forall (fun i => applied i = true -> restorable d i) (items t) ->
  exists rep d' t', rollback (t, W d js [] nw) =
      (Done rep, (t', W d' (<[journal_path t := journal_of t' nw]> js) [] nw)) /\
    state t' = RolledBack /\ forall p, ~ own t0 p -> d' !! p = undos (items t) d !! p.
Proof.
  intros Hs Hb Hp Hr. unfold rollback. unfold bind at 1, get at 1. cbn [fst].
  destruct (rollback_items_ok (items t) [] 0 t d js nw) as [n E]; [done|done|done|]. unfold bind at 1. rewrite E.
  unfold bind at 1, set_state at 1. unfold bind at 1. rewrite save_journal_go by apply goes_nil. unfold bind at 1.
  rewrite drop_roots_ok by done. unfold bind, get, ret. cbn. do 3 eexists. split; [reflexivity|]. split; [done|].
  intros p Ho. by rewrite removed_own.
Qed.

Section commits.
Context (t : DirectoryTransaction) (d : gmap bytes bytes).
Hypothesis t_shadow : shadow_root t = shadow_root t0.
Hypothesis t_backup : backup_root t = backup_root t0.
Hypothesis t_state : state t = Prepared.
Hypothesis t_staged : Forall (staged d) (items t).
Hypothesis t_backed : Forall (backed d) (items t).
Hypothesis t_rels : NoDup (rel_path <$> items t).
Hypothesis t_new : Forall (fun i => applied i = false) (items t).

(** The commit up to the first item after [pre], or to its end. *)
Lemma commit_start pre todo js es nw : items t = pre ++ todo -> goes (S (all_calls pre)) es -> exists n m js',
  commit hash_of (t, W d js es nw) =
    (let! '(committed, total, err) := commit_items (mark pre) todo n m in
     match err with
     | Some e => let! _ := ignore rollback in throw (Io (e ++ lit "; transaction rolled back"))
     | None =>
         let! _ := set_state Committed in
         let! _ := save_journal in
         let! t := get in
         let! _ := snd_part (ignore (remove_dir_all (shadow_root t))) in
         ret (report t committed 0 0 total)
     end)
    (with_items (with_state t Committing) (mark pre ++ todo), W (moves pre d) js' (drop (S (all_calls pre)) es) nw).
Proof.
  intros Hi Hg. unfold commit. unfold bind at 1, get at 1. cbn [fst]. rewrite t_state. unfold when.
  rewrite bool_decide_eq_false_2 by done. unfold bind at 1, ret at 1. unfold require_state. unfold bind at 1, get at 1. cbn [fst].
  rewrite t_state, bool_decide_eq_true_2 by done. unfold bind at 1, set_state at 1. unfold bind at 1.
  rewrite save_journal_go by (eapply goes_le; [|exact Hg]; lia). unfold bind at 1, get at 1. cbn [fst].
  change (S (all_calls pre)) with (1 + all_calls pre)%nat in Hg. apply goes_drop in Hg.
  pose proof t_staged as Hs. pose proof t_rels as Hn. rewrite Hi in Hs, Hn. apply Forall_app in Hs as [Hs _]. rewrite fmap_app in Hn.
  apply NoDup_app in Hn as [Hn _].
  destruct (commit_items_go pre todo [] 0 0 (with_state t Committing) d
    (<[journal_path t := journal_of (with_state t Committing) nw]> js) (drop 1 es) nw) as (n & m & E); [done|done|done|done|].
  exists n, m. eexists. unfold bind at 1. change (items (with_state t Committing)) with (items t). rewrite Hi at 1.
  change (journal_path (with_state t Committing)) with (journal_path t).
  unfold bind at 2. cbn [app] in E. rewrite E. rewrite drop_drop. reflexivity.
Qed.

Lemma commit_done js nw : exists rep d' js',
  commit hash_of (t, W d js [] nw) =
    (Done rep, (with_state (with_items t (mark (items t))) Committed, W d' js' [] nw)) /\
  forall p, below (shadow_root t0) p = false -> d' !! p = moves (items t) d !! p.
Proof.
  destruct (commit_start (items t) [] js [] nw) as (n & m & js' & E); [by rewrite app_nil_r|apply goes_nil|].
  rewrite E. rewrite app_nil_r. cbn [commit_items]. unfold bind at 1, ret at 1. unfold bind at 1, set_state at 1. unfold bind at 1.
  rewrite save_journal_go by apply goes_nil. unfold bind, get, snd_part, ignore, remove_dir_all, call, ret. cbn.
  rewrite t_shadow. do 3 eexists. split; [reflexivity|]. intros p Hp. by apply remove_paths_below.
Qed.

(** A fault in the move of an item that is not an update: everything is as before. *)
Lemma commit_fault pre i post n msg js nw : items t = pre ++ i :: post -> action i <> Update ->
  exists e t' d' js',
  commit hash_of (t, W d js (replicate (all_calls pre + calls i) Go ++ [Fault n msg]) nw) = (Failed e, (t', W d' js' [] nw)) /\
  state t' = RolledBack /\ forall p, ~ own t0 p -> d' !! p = d !! p.
Proof.
  intros Hi Hu. set (es := replicate (all_calls pre + calls i) Go ++ [Fault n msg]).
  assert (exists k, calls i = S k /\ drop (S (all_calls pre)) es = replicate k Go ++ [Fault n msg]) as (k & Ek & Hes).
  { exists (calls i - 1)%nat. assert (0 < calls i)%nat by (unfold calls; destruct (action i); lia). split; [lia|].
    unfold es. rewrite drop_app_le by (rewrite length_replicate; lia). rewrite drop_replicate. do 2 f_equal. lia. }
  destruct (commit_start pre (i :: post) js es nw) as (c & m & js' & E); [done| |].
  { unfold goes, es. rewrite take_app_le by (rewrite length_replicate; lia). apply Forall_take, Forall_replicate. done. }
  rewrite E, Hes. clear E.
  assert (staged (moves pre d) i) as Hst.
  { pose proof t_staged as Hs. pose proof t_rels as Hn. rewrite Hi in Hs, Hn. apply Forall_app in Hs as [Hs Hs'].
    apply Forall_cons in Hs' as [Hs' _]. rewrite fmap_app, fmap_cons in Hn. apply NoDup_app in Hn as (Hn & Hx & _).
    apply moves_staged; [done|done|]. rewrite fmap_cons. apply NoDup_cons. split; [|done]. intros Hin. eapply Hx; [exact Hin|left]. }
  assert (apply_item i (W (moves pre d) js' (replicate k Go ++ [Fault n msg]) nw) = (Done (inl msg), W (moves pre d) js' [] nw)) as Ea.
  { pose proof (s_new _ _ Hst) as Hn. pose proof (s_old _ _ Hst) as Ho. unfold apply_item, calls in *. destruct (action i); [|done|].
    - destruct Hn as [-> _]. assert (moves pre d !! dest_path i = None) as Hd by (apply eq_None_not_Some; naive_solver).
      assert (k = 1%nat) as -> by lia. unfold bind, io, map_error, create_parents, create_dir_all, exists_file, attempt, rename_file, call.
      cbn. rewrite Hd. cbn. done.
    - assert (k = 0%nat) as -> by lia. destruct (proj2 Ho) as [old Hd]; [done|].
      unfold bind, exists_file, attempt, remove_file, call. cbn. by rewrite Hd. }
  cbn [commit_items]. unfold bind at 1. unfold bind at 1, snd_part at 1. rewrite Ea. cbv beta iota zeta. unfold ret at 1.
  destruct (marked_places (items t) d t_staged t_backed t_rels t_new pre (i :: post) Hi) as (H1 & H2 & H3).
  destruct (rollback_ok (with_items (with_state t Committing) (mark pre ++ i :: post)) (moves pre d) js' nw) as (rep & d' & t' & Er & Hst' & Hd');
    [done|done|done|done|].
  unfold bind at 1, ignore at 1.
  use_run Er. unfold throw. do 4 eexists. split; [reflexivity|]. split; [done|].
  intros p Hp. rewrite Hd' by done. cbn [items with_items]. by apply (undo_moves (items t)).
Qed.

Lemma commit_rollback js nw : exists rep s rep' t' d' js',
  commit hash_of (t, W d js [] nw) = (Done rep, s) /\ rollback s = (Done rep', (t', W d' js' [] nw)) /\
  state t' = RolledBack /\ forall p, ~ own t0 p -> d' !! p = d !! p.
Proof.
  destruct (commit_done js nw) as (rep & d1 & js1 & E & Hd1). rewrite E.
  assert (items t = items t ++ []) as Hi by by rewrite app_nil_r.
  destruct (marked_places (items t) d t_staged t_backed t_rels t_new _ _ Hi) as (H1 & H2 & H3). rewrite app_nil_r in H1, H2, H3.
  set (t1 := with_state (with_items t (mark (items t))) Committed).
  assert (forall i, i ∈ mark (items t) -> restorable d1 i) as Hr.
  { intros i Him. assert (i ∈ mark (items t) ++ []) as Hx by by rewrite app_nil_r.
    eapply (marked_elem (items t)) in Hx as (j & Hj & Er & _); [|done..].
    assert (restorable (moves (items t) d) i) as Hres.
    { eapply Forall_forall in H2; [|done]. apply H2. apply list_elem_of_fmap in Him as (x & -> & _). done. }
    unfold restorable in *. rewrite Hd1; [done|]. destruct (below _ _) eqn:Eb; [|done]. apply apart in Eb.
    destruct (below_join (backup_root t0) (rel_path i)) as [_ Hb]; [done|done| |congruence].
    rewrite Er. eapply s_rel. by eapply Forall_forall in t_staged. }
  destruct (rollback_ok t1 d1 js1 nw) as (rep' & d' & t' & Er & Hst & Hd'); [done|done|done| |].
  { cbn. apply Forall_forall. intros i Him _. by apply Hr. }
  do 6 eexists. split; [reflexivity|]. split; [exact Er|]. split; [done|]. intros p Hp. rewrite Hd' by done. cbn [items t1 with_state with_items].
  rewrite <- (undo_moves (items t) d t_staged t_backed t_rels t_new (items t) [] p Hi Hp), app_nil_r.
  rewrite !undos_lookup; [|done|done|done|done|apply Forall_forall; intros i Him _; by apply Hr|done].
  destruct (List.find _ _) as [i|] eqn:Ef.
  - apply List.find_some in Ef as [Him%list_elem_of_In _]. specialize (Hr i Him). unfold restorable, saved in *.
    destruct (action i) eqn:Ea; [by rewrite Hr|..]; destruct Hr as (c & -> & Hc); apply Hd1;
      (destruct (below (shadow_root t0) _) eqn:Eb; [|done]; apply apart in Eb;
       destruct (below_join (backup_root t0) (rel_path i)) as [_ Hb]; [done|done| |congruence];
       apply list_elem_of_fmap in Him as (x & -> & Hx); cbn; eapply s_rel; by eapply Forall_forall in t_staged).
  - apply Hd1. destruct (below _ p) eqn:Eb; [|done]. exfalso. apply Hp. by left.
Qed.
End commits.

(** *** Staging *)

Inductive change :=
  | Put (rel content : bytes) (expected : option Hash)
  | Del (rel : bytes).
Definition rel_of (c : change) : bytes := match c with Put r _ _ | Del r => r end.
Definition stage (c : change) : M st TransactionError unit :=
  match c with
  | Put r b e => let! _ := stage_file_bytes hash_of r b e in ret tt
  | Del r => stage_deletion hash_of r
  end.
Fixpoint stage_all (cs : list change) : M st TransactionError unit :=
  match cs with
  | [] => ret tt
  | c :: cs => let! _ := stage c in stage_all cs
  end.

(** Relative, without backslashes, outside the transaction's directories, and with the right hash. *)
Definition change_ok (c : change) : Prop :=
  starts_with [SLASH] (rel_of c) = false /\ BACKSLASH ∉ rel_of c /\ ~ own t0 (join_to (target_dir t0) (rel_of c)) /\
  match c with Put _ b (Some h) => hash_of b = h | _ => True end.

Definition change_disk d (c : change) : gmap bytes bytes :=
  match c with
  | Put r b _ => <[join_to (target_dir t0) r := b]> d
  | Del r => delete (join_to (target_dir t0) r) d
  end.
Definition changed d (cs : list change) : gmap bytes bytes := foldl change_disk d cs.

(** What the items will leave at a path. *)
Definition view (l : list TransactionItem) d p : option bytes :=
  match List.find (fun i => bool_decide (dest_path i = p)) l with Some i => content d i | None => d !! p end.

Record staging t d d0 (cs : list change) : Prop := {
  g_roots : shadow_root t = shadow_root t0 /\ backup_root t = backup_root t0 /\ target_dir t = target_dir t0;
  g_state : state t = Staging;
  g_staged : Forall (staged d) (items t);
  g_verified : Forall (verified d) (items t);
  g_fresh : Forall (fun i => backup_path i = None /\ applied i = false) (items t);
  g_rels : NoDup (rel_path <$> items t);
  g_sub : forall i, i ∈ items t -> exists c, c ∈ cs /\ rel_path i = rel_of c;
  g_outside : forall p, ~ own t0 p -> d !! p = d0 !! p;
  g_view : forall p, ~ own t0 p -> view (items t) d p = changed d0 cs !! p }.

Lemma clean_id r : starts_with [SLASH] r = false -> BACKSLASH ∉ r -> clean r = r.
Proof.
  intros Hs Hb. unfold clean. assert (trim_start_slashes r = r) as ->.
  { destruct r as [|x r]; [done|]. cbn [starts_with trim_start_slashes] in *. rewrite andb_true_r, Z.eqb_sym in Hs. by rewrite Hs. }
  clear Hs. unfold replace. induction r as [|x r IH]; [done|]. rewrite not_elem_of_cons in Hb. destruct Hb as [Hx Hb].
  cbn [replace_skip starts_with]. rewrite (proj2 (Z.eqb_neq _ _) Hx). cbn [andb]. f_equal. by apply IH.
Qed.

Lemma find_app_one (l : list TransactionItem) i p :
  List.find (fun i => bool_decide (dest_path i = p)) (l ++ [i]) =
    match List.find (fun i => bool_decide (dest_path i = p)) l with
    | Some j => Some j
    | None => if bool_decide (dest_path i = p) then Some i else None
    end.
Proof. induction l as [|j l IH]; [done|]. cbn [app List.find]. by destruct (bool_decide (dest_path j = p)). Qed.

Lemma push_staged_ok t d js nw r shadow expected len : exists act original,
  push_staged hash_of r shadow expected len (t, W d js [] nw) =
    (let i := mkItem r act (Some shadow) None (join_to (target_dir t) r) expected original len false in
     let t' := with_items t (items t ++ [i]) in
     (Done tt, (t', W d (<[journal_path t := journal_of t' nw]> js) [] nw))) /\
  (is_Some (d !! join_to (target_dir t) r) <-> act <> Create_) /\ act <> Delete_.
Proof.
  unfold push_staged. unfold bind at 1, get at 1. cbn [fst]. unfold bind at 1, snd_part at 1, exists_file at 1.
  cbn [disk]. destruct (d !! join_to (target_dir t) r) as [x|] eqn:E.
  - rewrite bool_decide_eq_true_2 by done. exists Update. eexists.
    unfold bind, snd_part, ok, read_file, call, ret, get, set_items. cbn. rewrite E. cbn. split; [reflexivity|].
    split; [|done]. split; done.
  - rewrite bool_decide_eq_false_2 by (intros [? ?]; done). exists Create_. eexists.
    unfold bind, ret, get, set_items. cbn. split; [reflexivity|]. split; [|done]. split; [by intros [? ?]|done].
Qed.

Section step.
Context (t : DirectoryTransaction) (d d0 : gmap bytes bytes) (cs : list change).
Hypothesis inv : staging t d d0 cs.

(** One more item, on a disk that may have a new file in the shadow directory. *)
Lemma staging_push d' i c t' :
  change_ok c -> rel_of c ∉ rel_of <$> cs ->
  rel_path i = rel_of c -> t' = with_items t (items t ++ [i]) ->
  (forall p, p <> shadow_of i -> d' !! p = d !! p) -> staged d' i -> verified d' i -> backup_path i = None -> applied i = false ->
  content d' i = changed d0 (cs ++ [c]) !! dest_path i ->
  staging t' d' d0 (cs ++ [c]).
Proof.
  intros Hok Hfresh Hr -> Hd Hi Hv Hb Ha Hc. destruct inv as [(E1 & E2 & E3) Est Hst Hvf Hfr Hnd Hsub Hout Hview].
  assert (forall j, j ∈ items t -> rel_path j <> rel_path i) as Hne.
  { intros j Hj E. destruct (Hsub j Hj) as (c' & Hc' & Er). apply Hfresh. rewrite <- Hr, <- E, Er. by apply list_elem_of_fmap_2. }
  assert (forall j, j ∈ items t -> staged d j) as Hsj by (intros j Hj; by eapply Forall_forall in Hst).
  assert (forall j, j ∈ items t -> shadow_of j <> shadow_of i) as Hsh.
  { intros j Hj E. apply (Hne j Hj). apply join_inj in E; [done|eapply s_rel; by apply Hsj|by eapply s_rel]. }
  assert (forall j, j ∈ items t -> staged d' j) as Hsj'.
  { intros j Hj. pose proof (Hsj j Hj) as [S1 S2 S3 S4 S5]. split; [done..| |].
    - destruct (action j); rewrite ?Hd by (by apply Hsh); done.
    - rewrite Hd; [done|]. intros E. apply S3. rewrite E. apply shadow_own; [done..|]. by eapply s_rel. }
  assert (forall p, ~ own t0 p -> d' !! p = d !! p) as Hout'.
  { intros p Hp. apply Hd. intros ->. apply Hp. apply shadow_own; [done..|]. by eapply s_rel. }
  assert (forall j, j ∈ items t -> content d' j = content d j) as Hcj.
  { intros j Hj. unfold content. pose proof (s_new _ _ (Hsj j Hj)) as Hn. destruct (action j); [destruct Hn as [-> _]..|by rewrite Hn];
      by apply Hd, Hsh. }
  split; cbn [items with_items shadow_root backup_root target_dir state]; try done.
  - apply Forall_app. split; [|by constructor]. apply Forall_forall, Hsj'.
  - apply Forall_app. split; [|by constructor]. apply Forall_forall. intros j Hj. eapply Forall_forall in Hvf; [|exact Hj].
    unfold verified in *. pose proof (s_new _ _ (Hsj j Hj)) as Hn. destruct (shadow_path j) as [x|] eqn:Ex; [|done].
    assert (x = shadow_of j) as -> by (destruct (action j); naive_solver). by rewrite Hd by (by apply Hsh).
  - apply Forall_app. split; [done|by constructor].
  - rewrite fmap_app. apply NoDup_app. split_and!; [done| |apply NoDup_singleton].
    intros x (j & -> & Hj)%list_elem_of_fmap Hx%list_elem_of_singleton. by apply (Hne j).
  - intros j [Hj|Hj%list_elem_of_singleton]%elem_of_app.
    + destruct (Hsub j Hj) as (c' & Hc' & E). exists c'. split; [|done]. apply elem_of_app. by left.
    + subst j. exists c. split; [|done]. apply elem_of_app. right. by apply list_elem_of_singleton.
  - intros p Hp. rewrite Hout' by done. by apply Hout.
  - intros p Hp. unfold view. rewrite find_app_one. specialize (Hview p Hp). unfold view in Hview.
    assert (dest_path i <> p -> changed d0 (cs ++ [c]) !! p = changed d0 cs !! p) as Hskip.
    { intros Hnp. unfold changed. rewrite foldl_app. cbn [foldl]. rewrite (s_dest _ _ Hi), Hr in Hnp.
      destruct c; cbn [change_disk rel_of] in *; [by rewrite lookup_insert_ne|by rewrite lookup_delete_ne]. }
    destruct (List.find _ (items t)) as [j|] eqn:Ef.
    + apply List.find_some in Ef as [Hj%list_elem_of_In Hjd%bool_decide_eq_true]. rewrite Hskip, Hcj; [done|done|].
      intros E. apply (Hne j Hj). apply (dest_inj d'); [by apply Hsj'|done|congruence].
    + case_bool_decide as E; [by subst|]. rewrite Hskip by done. by rewrite Hout'.
Qed.

Lemma stage_ok c js nw : change_ok c -> rel_of c ∉ rel_of <$> cs ->
  exists t' d' js', stage c (t, W d js [] nw) = (Done tt, (t', W d' js' [] nw)) /\ staging t' d' d0 (cs ++ [c]) /\
    journal_path t' = journal_path t.
Proof.
  intros Hok Hfresh. pose proof Hok as (Hr & Hb & Ho & Hh). pose proof (clean_id _ Hr Hb) as Ecl.
  destruct (g_roots _ _ _ _ inv) as (E1 & E2 & E3). pose proof (g_state _ _ _ _ inv) as Est.
  destruct c as [r b e|r]; cbn [rel_of] in *; cbn [stage].
  - unfold bind at 1, stage_file_bytes, require_state. unfold bind at 1, get at 1. cbn [fst]. rewrite Est, bool_decide_eq_true_2 by done.
    unfold bind at 1, get at 1. cbn [fst]. rewrite Ecl, E1.
    unfold bind at 1, snd_part at 1, io at 1, map_error at 1, create_parents, create_dir_all, call. cbn [events tail disk docs now].
    unfold bind at 1, snd_part at 1, io at 1, map_error at 1, write_file, call, set_disk. cbn [events tail disk docs now].
    unfold bind at 1.
    destruct (push_staged_ok t (<[join_to (shadow_root t0) r := b]> d) js nw r (join_to (shadow_root t0) r) e (zlen b)) as (act & original & E & Hact & Hnd).
    use_run E. unfold ret. cbv zeta iota beta. do 3 eexists. split; [reflexivity|]. split; [|done].
    assert (join_to (shadow_root t0) r <> join_to (target_dir t0) r) as Hsd.
    { intros Ex. apply Ho. rewrite <- Ex. by apply shadow_own. }
    set (d' := <[join_to (shadow_root t0) r := b]> d) in *.
    assert (d' !! join_to (shadow_root t0) r = Some b) as Hnew by apply lookup_insert_eq.
    eapply staging_push; try reflexivity; try done.
    + intros p Hp. unfold d'. by rewrite lookup_insert_ne.
    + split; cbn; [done|by rewrite E3|by rewrite E3| |done]. destruct act; [|by split|done]. by split.
    + unfold verified. cbn. exists b. split; [done|]. split; [done|]. by destruct e.
    + unfold content. cbn. rewrite Hnew. unfold changed. rewrite foldl_app. cbn. by rewrite E3, lookup_insert_eq.
  - unfold stage_deletion, require_state. unfold bind at 1, get at 1. cbn [fst]. rewrite Est, bool_decide_eq_true_2 by done.
    unfold bind at 1, get at 1. cbn [fst]. rewrite Ecl, E3. unfold bind at 1, snd_part at 1, exists_file at 1. cbn [disk].
    destruct (d !! join_to (target_dir t0) r) as [x|] eqn:Ed.
    + rewrite bool_decide_eq_true_2 by done. cbn [negb].
      unfold bind, snd_part, ok, read_file, io, map_error, file_len, call, get, set_items. cbn. rewrite Ed. cbn. rewrite Ed. cbn.
      do 3 eexists. split; [reflexivity|]. split; [|done]. eapply staging_push; try reflexivity; try done.
      unfold content. cbn. unfold changed. rewrite foldl_app. cbn. by rewrite lookup_delete_eq.
    + rewrite bool_decide_eq_false_2 by (intros [??]; done). cbn [negb]. do 3 eexists. split; [reflexivity|]. split; [|done].
      destruct inv as [? ? ? ? ? ? Hsub Hout Hview]. split; try done.
      * intros i Hi. destruct (Hsub i Hi) as (c' & Hc' & E). exists c'. split; [|done]. apply elem_of_app. by left.
      * intros p Hp. rewrite Hview by done. unfold changed. rewrite foldl_app. cbn.
        destruct (decide (p = join_to (target_dir t0) r)) as [->|Hne]; [|by rewrite lookup_delete_ne].
        rewrite lookup_delete_eq. rewrite <- Hview by done. unfold view. destruct (List.find _ _) as [j|] eqn:Ef; [|done].
        apply List.find_some in Ef as [Hj%list_elem_of_In Hjd%bool_decide_eq_true]. exfalso. apply Hfresh.
        destruct (Hsub j Hj) as (c' & Hc' & Er). assert (rel_path j = r) as <-; [|rewrite Er; by apply list_elem_of_fmap_2].
        assert (staged d j) as Hsj by by eapply Forall_forall in g_staged0.
        rewrite (s_dest _ _ Hsj) in Hjd. apply join_inj in Hjd; [done|by eapply s_rel|done].
Qed.
End step.

Lemma stage_all_ok (todo done : list change) (t : DirectoryTransaction) d d0 js nw : staging t d d0 done -> Forall change_ok todo -> NoDup (rel_of <$> done ++ todo) ->
  exists t' d' js', stage_all todo (t, W d js [] nw) = (Done tt, (t', W d' js' [] nw)) /\ staging t' d' d0 (done ++ todo) /\
    journal_path t' = journal_path t.
Proof.
  revert done t d js. induction todo as [|c todo IH]; intros done t d js Hs Hok Hnd.
  { exists t, d, js. by rewrite app_nil_r. }
  apply Forall_cons in Hok as [Hc Hok]. cbn [stage_all].
  destruct (stage_ok t d d0 done Hs c js nw Hc) as (t1 & d1 & js1 & E & Hs1 & Hj1).
  { rewrite fmap_app in Hnd. apply NoDup_app in Hnd as (_ & Hx & _). intros Hin. eapply Hx; [exact Hin|left]. }
  destruct (IH (done ++ [c]) t1 d1 js1 Hs1 Hok) as (t2 & d2 & js2 & E2 & Hs2 & Hj2); [by rewrite <- app_assoc|].
  exists t2, d2, js2. unfold bind. use_run E. rewrite <- app_assoc in Hs2. split; [exact E2|]. split; [done|congruence].
Qed.

(** A transaction that is ready to commit, on a disk where its items will leave [final]. *)
Record to_commit (t : DirectoryTransaction) d d0 (final : gmap bytes bytes) : Prop := {
  c_roots : shadow_root t = shadow_root t0 /\ backup_root t = backup_root t0 /\ target_dir t = target_dir t0;
  c_state : state t = Prepared;
  c_staged : Forall (staged d) (items t);
  c_backed : Forall (backed d) (items t);
  c_rels : NoDup (rel_path <$> items t);
  c_new : Forall (fun i => applied i = false) (items t);
  c_outside : forall p, ~ own t0 p -> d !! p = d0 !! p;
  c_final : forall p, ~ own t0 p -> moves (items t) d !! p = final !! p }.

Lemma prepare_ok (t : DirectoryTransaction) d d0 cs js nw : staging t d d0 cs -> exists rep t' d' js',
  prepare hash_of (t, W d js [] nw) = (Done rep, (t', W d' js' [] nw)) /\ to_commit t' d' d0 (changed d0 cs) /\
  journal_path t' = journal_path t.
Proof.
  intros [(E1 & E2 & E3) Est Hst Hvf Hfr Hnd Hsub Hout Hview]. unfold prepare, require_state. unfold bind at 1, get at 1. cbn [fst].
  rewrite Est, bool_decide_eq_true_2 by done. unfold bind at 1, get at 1. cbn [fst].
  destruct (prepare_items_ok (items t) [] 0 0 t d js nw) as (n & m & d' & E & Hf & Hbk); [done|done| |done|done|done|].
  { eapply Forall_impl; [exact Hfr|]. by intros i [? _]. }
  unfold bind at 1. use_run E. unfold bind at 1, set_state at 1. unfold bind at 1. rewrite save_journal_go by apply goes_nil.
  unfold bind, get, ret. cbn [fst]. do 4 eexists. split; [reflexivity|]. split; [|done].
  assert (forall p, below (backup_root t0) p = false -> d' !! p = d !! p) as Hfr'.
  { intros p Hp. apply Hf. intros j Hj ->. destruct (below_join (backup_root t0) (rel_path j)) as [_ H]; [done|done| |congruence].
    eapply s_rel. by eapply Forall_forall in Hst. }
  assert (Forall (staged d') (prepared_item <$> items t)) as Hst'.
  { apply Forall_fmap. eapply Forall_impl; [exact Hst|]. intros i Hi. apply staged_prepared. by eapply staged_frame. }
  assert (rel_path <$> (prepared_item <$> items t) = rel_path <$> items t) as Er.
  { rewrite <- list_fmap_compose. apply list_fmap_ext. intros k i _. cbn. apply prepared_fields. }
  assert (forall p, ~ own t0 p -> d' !! p = d !! p) as Hout'.
  { intros p Hp. apply Hfr'. destruct (below _ p) eqn:Eb; [|done]. exfalso. apply Hp. by right. }
  split; cbn [items with_items with_state shadow_root backup_root state app]; try done.
  - by rewrite Er.
  - apply Forall_fmap. eapply Forall_impl; [exact Hfr|]. intros i [_ Ha]. cbn. unfold prepared_item. by case_match.
  - intros p Hp. rewrite Hout' by done. by apply Hout.
  - intros p Hp. rewrite <- Hview, moves_outside; [|done|by rewrite Er|done|done]. unfold view. rewrite <- Hout' by done.
    assert (forall l : list TransactionItem, Forall (staged d) l ->
      match List.find (fun i => bool_decide (dest_path i = p)) (prepared_item <$> l) with Some i => content d' i | None => d' !! p end =
      match List.find (fun i => bool_decide (dest_path i = p)) l with Some i => content d i | None => d' !! p end) as Hl; [|by apply Hl].
    induction 1 as [|i l Hi _ IHl]; [done|]. cbn [fmap list_fmap List.find]. destruct (prepared_fields i) as (F1 & F2 & F3 & F4).
    rewrite F4. case_bool_decide; [|exact IHl]. unfold content. rewrite F3. pose proof (s_new _ _ Hi) as Hn.
    destruct (action i); [destruct Hn as [-> _]..|by rewrite Hn]; apply Hfr', apart, below_join; try done; by eapply s_rel.
Qed.
End moves.

(** ** Transactions from their beginning *)

Definition new_tx (target : bytes) (now_sec counter : Z) : DirectoryTransaction :=
  let id := lit "tx_" ++ Utf8.decimal now_sec ++ lit "_" ++ Utf8.decimal counter in
  mkTx id target (join_to (join_to target (lit ".velcrux-shadow")) id) (join_to (join_to target (lit ".velcrux-backup")) id)
    (journal_file target id) Staging [] now_sec.

(** Begin, stage all changes and prepare. *)
Definition prepare_all (hash_of : bytes -> Hash) (target : bytes) (target_exists : bool) (counter : Z) (cs : list change)
  : M fs_world TransactionError DirectoryTransaction :=
  let! t := begin_tx target target_exists counter in
  run_on t (let! _ := stage_all hash_of cs in let! _ := prepare hash_of in get).

Definition rel_ok (r : bytes) : Prop :=
  plain_names r /\ BACKSLASH ∉ r /\ starts_with (lit ".velcrux-") r = false.
Definition rel_okb (r : bytes) : bool :=
  bool_decide (plain_names r) && negb (existsb (Z.eqb BACKSLASH) r) && negb (starts_with (lit ".velcrux-") r).
Lemma rel_okb_ok r : rel_okb r = true -> rel_ok r.
Proof.
  unfold rel_okb, rel_ok. rewrite !andb_true_iff, !negb_true_iff, bool_decide_eq_true. intros [[H1 H2] H3]. split_and!; [done| |done].
  by apply existsb_elem.
Qed.

Section roots.
Context (target : bytes) (nw counter : Z).
Hypothesis nw_ok : 0 <= nw.
Hypothesis counter_ok : 0 <= counter.

Lemma ends_with_app a b : b <> [] -> ends_with [SLASH] (a ++ b) = ends_with [SLASH] b.
Proof.
  intros Hb. unfold ends_with. rewrite reverse_app. destruct (reverse b) as [|x l] eqn:E.
  - apply (f_equal reverse) in E. by rewrite reverse_involutive in E.
  - by rewrite <- app_comm_cons.
Qed.

Lemma id_noslash (a : bytes) : ends_with [SLASH] (a ++ Utf8.decimal counter) = false.
Proof.
  destruct (decimal_digits counter counter_ok) as [Hd Hne]. rewrite ends_with_app by done.
  unfold ends_with. apply Forall_reverse in Hd. destruct (reverse _) as [|x l]; [done|]. apply Forall_cons in Hd as [Hx _].
  change (((SLASH =? x) && true) = false). rewrite andb_true_r. apply Z.eqb_neq. unfold SLASH. lia.
Qed.

Lemma root_form (name : bytes) : starts_with [SLASH] name = false -> ends_with [SLASH] name = false -> name <> [] ->
  forall base, (forall rel, starts_with [SLASH] rel = false -> join_to target rel = base ++ rel) ->
  join_to (join_to target name) (tx_id (new_tx target nw counter)) = base ++ name ++ [SLASH] ++ tx_id (new_tx target nw counter).
Proof.
  intros Hs He Hne base Hb. rewrite Hb by done. unfold join_to at 1.
  change (starts_with [SLASH] (tx_id (new_tx target nw counter))) with false. cbv iota.
  rewrite bool_decide_eq_false_2, ends_with_app, He by (try done; by destruct base, name). cbn [orb].
  by rewrite <- !app_assoc.
Qed.

Lemma roots_ok : let t := new_tx target nw counter in
  shadow_root t <> [] /\ backup_root t <> [] /\ ends_with [SLASH] (shadow_root t) = false /\ ends_with [SLASH] (backup_root t) = false /\
  (forall p, below (shadow_root t) p = true -> below (backup_root t) p = false) /\
  (forall r, rel_ok r -> ~ own t (join_to (target_dir t) r)).
Proof.
  intros t. destruct (join_base target) as [base Hb].
  assert (shadow_root t = base ++ lit ".velcrux-shadow" ++ [SLASH] ++ tx_id (new_tx target nw counter)) as Es by by apply root_form.
  assert (backup_root t = base ++ lit ".velcrux-backup" ++ [SLASH] ++ tx_id (new_tx target nw counter)) as Ebk by by apply root_form.
  set (id := tx_id (new_tx target nw counter)) in *. rewrite Es, Ebk. split_and!.
  - by destruct base.
  - by destruct base.
  - unfold id. cbn [tx_id new_tx]. rewrite !app_assoc. apply id_noslash.
  - unfold id. cbn [tx_id new_tx]. rewrite !app_assoc. apply id_noslash.
  - intros p Hp. apply not_true_iff_false. intros E. unfold below in *. apply starts_with_prefix in E as [k ->].
    apply starts_with_prefix in Hp as [k' E]. rewrite <- !app_assoc in E. apply app_inv_head in E. done.
  - intros r (H1%plain_relative & _ & H3) [E|E]; cbn [target_dir new_tx] in E; unfold below in E; apply starts_with_prefix in E as [k E];
      rewrite ?Es, ?Ebk in E; (change (target_dir t) with target in E); rewrite Hb in E by done; rewrite <- !app_assoc in E; apply app_inv_head in E;
      rewrite E in H3; done.
Qed.

Lemma begin_ok ex d js : begin_tx target ex counter (mkWorld d js [] nw) =
  (Done (new_tx target nw counter), mkWorld d (<[journal_path (new_tx target nw counter) := journal_of (new_tx target nw counter) nw]> js) [] nw).
Proof. by destruct ex. Qed.
End roots.

(** The files a transaction with these changes writes or removes. *)
Definition tx_paths (t : DirectoryTransaction) (cs : list change) : list bytes :=
  journal_path t :: (join_to (target_dir t) ∘ rel_of <$> cs) ++ (join_to (shadow_root t) ∘ rel_of <$> cs) ++
  (join_to (backup_root t) ∘ rel_of <$> cs).

(** C2. Commit, rollback and a failed move, on a disk without symbolic links. Take changes of distinct
    relative paths whose components are names (not empty, [.] or [..]), that have no backslash and do
    not begin with [.velcrux-], with contents that have the expected hashes where one is given; and
    let the files of the disk, the changed ones and the transaction's own be files of one tree, so
    that no file is where another needs a directory. When no call fails the changes are staged and
    prepared. Their commit then leaves exactly the changed files; rolling that back leaves every file
    as it was; and so does a commit in which the one call that fails is the move of an item that
    creates or deletes a file. All this is outside the transaction's shadow and backup directories.
    A crash in the middle of the commit, a failed move of an updated file and a failed creation of a
    parent directory are not covered: there the code keeps half of the changes
    ([TxExamples.crash_leaves_half], [TxExamples.failed_update_loses_file],
    [TxExamples.mkdir_failure_no_rollback]). *)
Theorem tx_atomic hash_of target ex counter cs d js nw : 0 <= nw -> 0 <= counter -> canonical target ->
  file_tree ((map_to_list d).*1 ++ tx_paths (new_tx target nw counter) cs) ->
  Forall (fun c => rel_ok (rel_of c) /\ match c with Put _ b (Some h) => hash_of b = h | _ => True end) cs -> NoDup (rel_of <$> cs) ->
  exists t d1 js1, prepare_all hash_of target ex counter cs (mkWorld d js [] nw) = (Done t, mkWorld d1 js1 [] nw) /\
    (exists rep t' d' js', commit hash_of (t, mkWorld d1 js1 [] nw) = (Done rep, (t', mkWorld d' js' [] nw)) /\
       forall p, ~ own t p -> d' !! p = changed t d cs !! p) /\
    (exists rep s rep' t' d' js', commit hash_of (t, mkWorld d1 js1 [] nw) = (Done rep, s) /\
       rollback s = (Done rep', (t', mkWorld d' js' [] nw)) /\ forall p, ~ own t p -> d' !! p = d !! p) /\
    (forall pre i post n msg, items t = pre ++ i :: post -> action i <> Update ->
       exists e t' d' js', commit hash_of (t, mkWorld d1 js1 (replicate (all_calls pre + calls i) Go ++ [Fault n msg]) nw) =
           (Failed e, (t', mkWorld d' js' [] nw)) /\ forall p, ~ own t p -> d' !! p = d !! p).
Proof.
  intros Hnw Hc _ _ Hcs Hnd. set (t0 := new_tx target nw counter).
  destruct (roots_ok target nw counter Hc) as (R1 & R2 & R3 & R4 & R5 & R6). fold t0 in R1, R2, R3, R4, R5, R6.
  assert (Forall (change_ok hash_of t0) cs) as Hok.
  { eapply Forall_impl; [exact Hcs|]. intros c [(H1 & H2 & H3) H4]. by split_and!; [apply plain_relative| |apply R6|]. }
  destruct (stage_all_ok hash_of t0 R1 R2 R3 cs [] t0 d d (<[journal_path t0 := journal_of t0 nw]> js) nw) as (t1 & d1 & js1 & E1 & Hs1 & _);
    [|done|done|].
  { split; try done; try constructor. by intros i Hi%elem_of_nil. }
  destruct (prepare_ok hash_of t0 R1 R2 R3 R4 R5 t1 d1 d cs js1 nw Hs1) as (rep & t2 & d2 & js2 & E2 & [(F1 & F2 & Ft) F3 F4 F5 F6 F7 F8 F9] & _).
  exists t2, d2, js2.
  assert (forall p, ~ own t2 p -> ~ own t0 p) as Hown by (unfold own; by rewrite F1, F2).
  split; [|split; [|split]].
  - unfold prepare_all, bind at 1. rewrite begin_ok. fold t0. unfold run_on. unfold bind at 1. use_run E1.
    unfold bind at 1. use_run E2. done.
  - destruct (commit_done hash_of t0 R1 R3 t2 d2 F1 F3 F4 F6 js2 nw) as (rp & d' & js' & E & Hd').
    do 4 eexists. split; [exact E|]. intros p Hp. rewrite Hd' by (destruct (below _ p) eqn:Eb; [exfalso; apply (Hown p Hp); by left|done]).
    rewrite F9 by auto. unfold changed, change_disk. by rewrite Ft.
  - destruct (commit_rollback hash_of t0 R1 R2 R3 R4 R5 t2 d2 F1 F2 F3 F4 F5 F6 F7 js2 nw) as (rp & s & rp' & t' & d' & js' & H1 & H2 & _ & H4).
    do 6 eexists. split; [exact H1|]. split; [exact H2|]. intros p Hp. rewrite H4 by auto. auto.
  - intros pre i post n msg Hi Hu.
    destruct (commit_fault hash_of t0 R1 R2 R3 R4 R5 t2 d2 F1 F2 F3 F4 F5 F6 F7 pre i post n msg js2 nw Hi Hu) as (e & t' & d' & js' & H1 & _ & H2).
    do 4 eexists. split; [exact H1|]. intros p Hp. rewrite H2 by auto. auto.
Qed.

Lemma begin_any target ex counter w : let t0 := new_tx target (now w) counter in
  let '(r, w1) := begin_tx target ex counter w in
  disk w1 = disk w /\
  match r with Done t => t = t0 /\ docs w1 = <[journal_path t0 := journal_of t0 (now w)]> (docs w) | _ => True end.
Proof.
  destruct w as [d js es nw]. intros t0. cbn [disk docs now] in *.
  assert (forall (c : M fs_world TransactionError unit) (k : M fs_world TransactionError DirectoryTransaction) d js nw es,
    (exists q, c = io (create_dir_all q)) \/ c = ret tt ->
    (forall es, let '(r, w1) := k (mkWorld d js es nw) in disk w1 = d /\
      match r with Done t => t = t0 /\ docs w1 = <[journal_path t0 := journal_of t0 nw]> js | _ => True end) ->
    let '(r, w1) := (let! _ := c in k) (mkWorld d js es nw) in disk w1 = d /\
      match r with Done t => t = t0 /\ docs w1 = <[journal_path t0 := journal_of t0 nw]> js | _ => True end) as Hstep.
  { intros c k d' js' nw' es' [[q ->]| ->] Hk; [|apply Hk]. unfold bind at 1, io, map_error, create_dir_all, call. cbn [events].
    destruct es' as [|[]]; cbn; try apply Hk; by split. }
  unfold begin_tx. apply Hstep; [destruct ex; [by right|left; exists []; reflexivity]|]. clear es. intros es.
  unfold bind at 1, get_now at 1. cbn [now]. do 3 (apply Hstep; [left; exists []; reflexivity|]; clear es; intros es).
  unfold save_journal_of, bind, get_now, io, map_error, save_doc, call. cbn.
  destruct es as [|[]]; by cbn.
Qed.

(** C8. Nothing happens before the commit, on a disk without symbolic links. Let the paths given for
    staging and deletion be, once leading slashes are stripped and backslashes turned into slashes,
    relative paths of names: no component is empty, [.] or [..]; and let no journal of the
    transaction's id exist. Whatever calls fail and wherever the process dies, beginning the
    transaction, staging files and deletions, preparing, aborting and rolling back before a commit
    change no file outside the transaction's shadow and backup directories; and neither does the
    recovery of the journal they leave, whatever fails in it. The code does not check the condition
    on paths: [TxExamples.backslash_escapes] and [TxExamples.parent_escapes] are what it lets through. *)
Theorem tx_isolated hash_of target ex counter os w : 0 <= counter -> canonical target -> Forall op_ok os ->
  let t0 := new_tx target (now w) counter in
  docs w !! journal_path t0 = None ->
  let '(r, w1) := begin_tx target ex counter w in
  (forall p, disk w1 !! p = disk w !! p) /\
  forall t, r = Done t ->
    let w2 := (run_ops hash_of os (t, w1)).2.2 in
    (forall p, ~ own t0 p -> disk w2 !! p = disk w !! p) /\
    forall j es p, docs w2 !! journal_path t0 = Some j -> ~ own t0 p ->
      disk (recover_one (journal_path t0) j (mkWorld (disk w2) (docs w2) es (now w2))).2 !! p = disk w !! p.
Proof.
  intros Hc _ Hos t0 Hfresh. pose proof (begin_any target ex counter w) as Hb. cbv zeta in Hb. fold t0 in Hb.
  destruct (begin_tx target ex counter w) as [r w1]. destruct Hb as [Hd Hr]. split; [by rewrite Hd|]. intros t ->.
  destruct Hr as [-> Hdocs]. destruct (roots_ok target (now w) counter Hc) as (R1 & R2 & R3 & R4 & _). fold t0 in R1, R2, R3, R4.
  destruct (keep_ops hash_of t0 R1 R2 R3 R4 os Hos (t0, w1)) as (Hq & Hk & _).
  { unfold quiet. cbn [fst snd]. split; [done|]. split; [done|]. split; [constructor|]. rewrite Hdocs. intros j. rewrite lookup_insert_eq. intros [= <-]. done. }
  intros w2. fold w2 in Hk. assert (forall p, ~ own t0 p -> disk w2 !! p = disk w !! p) as Hout.
  { intros p Hp. rewrite Hk by done. cbn. by rewrite Hd. }
  split; [done|]. intros j es p Hj Hp. destruct Hq as (_ & _ & _ & Hjs). destruct (Hjs j Hj) as (J1 & J2 & J3).
  rewrite (recover_quiet t0) by done. by apply Hout.
Qed.

Module TxExamples.
Definition hash (b : bytes) : Hash := b.
Definition before : gmap bytes bytes := {[ lit "/t/a" := [1]; lit "/t/b" := [2; 2] ]}.
Definition start (es : list event) : fs_world := mkWorld before ∅ es 7.
Definition edits : list change := [Put (lit "c") [3] (Some [3]); Put (lit "a") [4; 4] None; Del (lit "b")].

Lemma tx_atomic_witness : exists t d1 js1, prepare_all hash (lit "/t") true 0 edits (start []) = (Done t, mkWorld d1 js1 [] 7) /\
  exists rep t' d' js', commit hash (t, mkWorld d1 js1 [] 7) = (Done rep, (t', mkWorld d' js' [] 7)) /\
    forall p, ~ own t p -> d' !! p = changed t before edits !! p.
Proof.
  destruct (tx_atomic hash (lit "/t") true 0 edits before ∅ 7) as (t & d1 & js1 & E & Hc & _).
  - lia.
  - lia.
  - apply (bool_decide_unpack _). vm_compute. exact I.
  - apply (bool_decide_unpack _). vm_compute. exact I.
  - repeat (apply Forall_cons_2; [split; [by apply rel_okb_ok|done]|]). by apply Forall_nil_2.
  - apply (bool_decide_unpack _). vm_compute. exact I.
  - exists t, d1, js1. exact (conj E Hc).
Defined.

Lemma tx_isolated_witness : let t0 := new_tx (lit "/t") 7 0 in
  let '(r, w1) := begin_tx (lit "/t") true 0 (start [Go; Go; Go; Go; Go; Go; Go; Go; Crash 1]) in
  (forall p, disk w1 !! p = before !! p) /\
  forall t, r = Done t ->
    let w2 := (run_ops hash [OpBytes (lit "a") [9] None; OpPrepare] (t, w1)).2.2 in
    (forall p, ~ own t0 p -> disk w2 !! p = before !! p) /\
    forall j es p, docs w2 !! journal_path t0 = Some j -> ~ own t0 p ->
      disk (recover_one (journal_path t0) j (mkWorld (disk w2) (docs w2) es (now w2))).2 !! p = before !! p.
Proof.
  exact (tx_isolated hash (lit "/t") true 0 [OpBytes (lit "a") [9] None; OpPrepare] (start [Go; Go; Go; Go; Go; Go; Go; Go; Crash 1])
    ltac:(lia) ltac:(apply (bool_decide_unpack _); vm_compute; exact I)
    ltac:(apply Forall_cons_2; [apply (bool_decide_unpack _); vm_compute; exact I|by apply Forall_singleton]) eq_refl).
Defined.

(** The prepared transaction of the examples, and what a run leaves at the three paths. *)
Definition prepared (es : list event) : st :=
  match prepare_all hash (lit "/t") true 0 edits (start []) with
  | (Done t, w) => (t, mkWorld (disk w) (docs w) es (now w))
  | (_, w) => (new_tx (lit "/t") 7 0, w)
  end.
Definition at_paths (w : fs_world) : list (option bytes) := (fun p => disk w !! p) <$> [lit "/t/a"; lit "/t/b"; lit "/t/c"].

Example before_paths : at_paths (prepared []).2 = [Some [1]; Some [2; 2]; None].
Proof. vm_compute. reflexivity. Qed.
Example after_paths : at_paths (commit hash (prepared [])).2.2 = [Some [4; 4]; None; Some [3]].
Proof. vm_compute. reflexivity. Qed.

(** A crash in the middle of a commit: the journal was written before the first move and says that
    nothing is applied, so recovery rolls nothing back, deletes the backups and leaves half of the
    changes. *)
Theorem crash_leaves_half : let w := (commit hash (prepared [Go; Go; Go; Go; Go; Go; Crash 0])).2.2 in
  let w' := (recover_pending_transactions (lit "/t") (mkWorld (disk w) (docs w) [] (now w))).2 in
  at_paths w' = [Some [4; 4]; Some [2; 2]; Some [3]] /\
  disk w' !! join_to (backup_root (prepared []).1) (lit "a") = None.
Proof. vm_compute. split; reflexivity. Qed.

(** An update removes the old file before the rename; when the rename fails, the rollback does not
    restore the item and deletes the backup: the file is lost. *)
Theorem failed_update_loses_file :
  let s := (commit hash (prepared [Go; Go; Go; Go; Go; Fault 0 (lit "no space")])).2 in
  at_paths s.2 = [None; Some [2; 2]; None] /\ state s.1 = RolledBack /\
  disk s.2 !! join_to (backup_root s.1) (lit "a") = None.
Proof. vm_compute. split_and!; reflexivity. Qed.

(** A parent directory that cannot be created ends the commit without a rollback. *)
Theorem mkdir_failure_no_rollback :
  let s := (commit hash (prepared [Go; Go; Go; Fault 0 (lit "denied")])).2 in
  at_paths s.2 = [Some [1]; Some [2; 2]; Some [3]] /\ state s.1 = Committing.
Proof. vm_compute. split; reflexivity. Qed.

(** Recovery of a committed transaction deletes its backups; a rollback after it removes created files
    and restores nothing, and reports success. *)
Theorem rollback_after_recovery :
  let w := (recover_pending_transactions (lit "/t") (commit hash (prepared [])).2.2).2 in
  let '(r, w') := rollback_transaction (lit "/t") (tx_id (prepared []).1) w in
  at_paths w' = [Some [4; 4]; None; None] /\ match r with Done rep => r_state rep = RolledBack | _ => False end.
Proof. vm_compute. split; reflexivity. Qed.

(** The leading slashes are stripped before backslashes become slashes, so a path can be absolute and
    the staged file is written there at once. *)
Theorem backslash_escapes : let s := (stage_file_bytes hash (lit "\etc\passwd") [6] None (new_tx (lit "/t") 7 0, start [])).2 in
  disk s.2 !! lit "/etc/passwd" = Some [6].
Proof. vm_compute. reflexivity. Qed.

(** Parent components are kept. *)
Theorem parent_escapes : exists i, items (stage_file_bytes hash (lit "../x") [6] None (new_tx (lit "/t") 7 0, start [])).2.1 = [i] /\
  dest_path i = lit "/t/../x" /\ resolve [] (split_on SLASH (dest_path i)) = Some [lit "x"].
Proof. eexists. split; [vm_compute; reflexivity|]. vm_compute. split; reflexivity. Qed.
End TxExamples.
