(* ===== verification/CasGc.v ===== *)
(** * Garbage collection of chunks and staging files, storage/cas_gc.rs and storage/gc.rs

    The generational collector of the content-addressed store: chunks, tombstones, the mark-and-sweep
    pass, the purge and the compaction daemon's counters. The store is a map of chunks by hash with
    size and modification time, and a map of tombstone files, [None] for one that cannot be read. A
    removal or a write the code ignores the error of can fail: the store carries the results of the
    calls to come. Directories, the collection of references from files and the clock's origin are
    left out: the references and the time of a sweep are arguments. *)

From S2P Require Import Prelude Utf8 Protocol Paths StateStore.
Import Str.

Inductive CasGeneration := Nursery | Tenured | Tombstoned.
#[global] Instance CasGeneration_eq_dec : EqDecision CasGeneration.
Proof. solve_decision. Defined.
Definition generation_number (g : CasGeneration) : Z := match g with Nursery => 0 | Tenured => 1 | Tombstoned => 2 end.
Definition generation_text (g : CasGeneration) : bytes :=
  match g with Nursery => lit "nursery" | Tenured => lit "tenured" | Tombstoned => lit "tombstoned" end.

Record CasTombstone := mkTombstone {
  t_hash : Hash; tombstoned_at_secs : Z; t_size : Z; t_generation : Z; reason : bytes; tenant : option bytes }.
Definition tombstone_new (h : Hash) (size : Z) (why : bytes) (who : option bytes) (now_secs : Z) : CasTombstone :=
  mkTombstone h now_secs size (generation_number Tombstoned) why who.
Definition is_expired (t : CasTombstone) (ttl_secs now_secs : Z) : bool :=
  ttl_secs <=? saturating_sub now_secs (tombstoned_at_secs t).

Record CasChunkEntry := mkEntry {
  e_hash : Hash; e_size : Z; generation : CasGeneration; modified_secs : Z; tombstone : option CasTombstone }.

Record CasGcPolicy := mkPolicy { nursery_grace_secs : Z; tombstone_ttl_secs : Z; purge_expired : bool; dry_run : bool }.
Definition default_policy : CasGcPolicy := mkPolicy 3600 86400 true false.

Record CasGenerationalGcReport := mkGcReport {
  total_chunks_scanned : Z; nursery_chunks : Z; tenured_chunks : Z; existing_tombstones : Z; newly_tombstoned : Z;
  resurrected_chunks : Z; purged_chunks : Z; bytes_scanned : Z; bytes_tombstoned : Z; bytes_reclaimed : Z;
  bytes_retained : Z; r_dry_run : bool }.
Definition empty_report (dry : bool) : CasGenerationalGcReport := mkGcReport 0 0 0 0 0 0 0 0 0 0 0 dry.

Record CasStoreStatus := mkStatus {
  total_chunks : Z; s_nursery_chunks : Z; s_tenured_chunks : Z; tombstoned_chunks : Z; total_bytes : Z;
  nursery_bytes : Z; tenured_bytes : Z; tombstoned_bytes : Z; reclaimable_bytes : Z }.

(** ** The store *)

Record chunk := mkChunk { c_size : Z; c_mtime : Z }.
Record store := mkStore {
  chunks : gmap Hash chunk;
  tombs : gmap Hash (option CasTombstone);
  oks : list bool }.

(** The next call succeeds, unless it is said to fail. *)
Definition next_ok (s : store) : bool * store :=
  match oks s with
  | [] => (true, s)
  | b :: bs => (b, mkStore (chunks s) (tombs s) bs)
  end.
Definition remove_chunk (s : store) (h : Hash) : store :=
  let '(b, s) := next_ok s in if b then mkStore (delete h (chunks s)) (tombs s) (oks s) else s.
Definition remove_tomb (s : store) (h : Hash) : bool * store :=
  let '(b, s) := next_ok s in (b, if b then mkStore (chunks s) (delete h (tombs s)) (oks s) else s).
Definition write_tomb (s : store) (h : Hash) (t : CasTombstone) : store :=
  let '(b, s) := next_ok s in if b then mkStore (chunks s) (<[h := Some t]> (tombs s)) (oks s) else s.

Definition generation_of (now_secs grace mtime : Z) (t : option CasTombstone) : CasGeneration :=
  match t with
  | Some _ => Tombstoned
  | None => if saturating_sub now_secs mtime <? grace then Nursery else Tenured
  end.
Definition entry_of (s : store) (now_secs grace : Z) (x : Hash * chunk) : CasChunkEntry :=
  let t := match tombs s !! x.1 with Some (Some t) => Some t | _ => None end in
  mkEntry x.1 (c_size x.2) (generation_of now_secs grace (c_mtime x.2) t) (c_mtime x.2) t.
(** In the order of the listing. *)
Definition scan_chunks (s : store) (now_secs grace : Z) : list CasChunkEntry :=
  entry_of s now_secs grace <$> map_to_list (chunks s).

Definition count_status (st : CasStoreStatus) (e : CasChunkEntry) : CasStoreStatus :=
  let add g k := if bool_decide (generation e = g) then k else 0 in
  mkStatus (total_chunks st + 1) (s_nursery_chunks st + add Nursery 1) (s_tenured_chunks st + add Tenured 1)
    (tombstoned_chunks st + add Tombstoned 1) (total_bytes st + e_size e) (nursery_bytes st + add Nursery (e_size e))
    (tenured_bytes st + add Tenured (e_size e)) (tombstoned_bytes st + add Tombstoned (e_size e))
    (reclaimable_bytes st + add Tombstoned (e_size e)).
Definition store_status (s : store) (now_secs grace : Z) : CasStoreStatus :=
  foldl count_status (mkStatus 0 0 0 0 0 0 0 0 0) (scan_chunks s now_secs grace).

(** [Err] is a removal that failed. *)
Definition resurrect (s : store) (h : Hash) : outcome unit bool * store :=
  match tombs s !! h, chunks s !! h with
  | Some _, Some _ => let '(b, s) := remove_tomb s h in (if b then Ok true else Err tt, s)
  | _, _ => (Ok false, s)
  end.

(** Unlinking a chunk and its tombstone. *)
Definition unlink (s : store) (h : Hash) : store := (remove_tomb (remove_chunk s h) h).2.

Definition add_scanned (r : CasGenerationalGcReport) (size : Z) : CasGenerationalGcReport :=
  mkGcReport (total_chunks_scanned r + 1) (nursery_chunks r) (tenured_chunks r) (existing_tombstones r) (newly_tombstoned r)
    (resurrected_chunks r) (purged_chunks r) (bytes_scanned r + size) (bytes_tombstoned r) (bytes_reclaimed r)
    (bytes_retained r) (r_dry_run r).
Definition add_counts (r : CasGenerationalGcReport) (nur ten ex new res pur tomb rec ret : Z) : CasGenerationalGcReport :=
  mkGcReport (total_chunks_scanned r) (nursery_chunks r + nur) (tenured_chunks r + ten) (existing_tombstones r + ex)
    (newly_tombstoned r + new) (resurrected_chunks r + res) (purged_chunks r + pur) (bytes_scanned r)
    (bytes_tombstoned r + tomb) (bytes_reclaimed r + rec) (bytes_retained r + ret) (r_dry_run r).

(** One entry of a sweep. *)
Definition sweep_entry (referenced : gset Hash) (p : CasGcPolicy) (now_secs : Z)
    (acc : store * CasGenerationalGcReport) (e : CasChunkEntry) : store * CasGenerationalGcReport :=
  let '(s, r) := acc in
  let r := add_scanned r (e_size e) in
  if bool_decide (e_hash e ∈ referenced) then
    match tombstone e with
    | Some _ => (if dry_run p then s else (resurrect s (e_hash e)).2, add_counts r 0 1 0 0 1 0 0 0 (e_size e))
    | None => (s, add_counts r 0 1 0 0 0 0 0 0 (e_size e))
    end
  else if bool_decide (generation e = Nursery) && bool_decide (tombstone e = None)
  then (s, add_counts r 1 0 0 0 0 0 0 0 (e_size e))
  else
    match tombstone e with
    | Some tomb =>
        if purge_expired p && is_expired tomb (tombstone_ttl_secs p) now_secs
        then (if dry_run p then s else unlink s (e_hash e), add_counts r 0 0 1 0 0 1 (e_size e) (e_size e) 0)
        else (s, add_counts r 0 0 1 0 0 0 (e_size e) 0 (e_size e))
    | None =>
        (if dry_run p then s
         else write_tomb s (e_hash e) (tombstone_new (e_hash e) (e_size e) (lit "unreferenced in generational sweep") None now_secs),
         add_counts r 0 0 0 1 0 0 (e_size e) 0 (e_size e))
    end.

Definition mark_and_sweep (s : store) (referenced : gset Hash) (p : CasGcPolicy) (now_secs : Z) : store * CasGenerationalGcReport :=
  foldl (sweep_entry referenced p now_secs) (s, empty_report (dry_run p)) (scan_chunks s now_secs (nursery_grace_secs p)).

Definition purge_entry (older_than_secs : Z) (dry : bool) (now_secs : Z)
    (acc : store * CasGenerationalGcReport) (e : CasChunkEntry) : store * CasGenerationalGcReport :=
  let '(s, r) := acc in
  let r := add_scanned r (e_size e) in
  match tombstone e with
  | Some tomb =>
      if older_than_secs <=? saturating_sub now_secs (tombstoned_at_secs tomb)
      then (if dry then s else unlink s (e_hash e), add_counts r 0 0 1 0 0 1 0 (e_size e) 0)
      else (s, add_counts r 0 0 1 0 0 0 (e_size e) 0 (e_size e))
  | None => (s, add_counts r 0 0 0 0 0 0 0 0 (e_size e))
  end.
Definition purge_tombstones (s : store) (older_than_secs : Z) (dry : bool) (now_secs : Z) : store * CasGenerationalGcReport :=
  foldl (purge_entry older_than_secs dry now_secs) (s, empty_report dry) (scan_chunks s now_secs 0).

(** The daemon's counters. *)
Record CasCompactionDaemon := mkDaemon {
  d_policy : CasGcPolicy; runs_total : Z; chunks_tombstoned_total : Z; chunks_resurrected_total : Z;
  chunks_purged_total : Z; bytes_reclaimed_total : Z }.
Definition daemon_new (p : CasGcPolicy) : CasCompactionDaemon := mkDaemon p 0 0 0 0 0.
Definition daemon_step (dm : CasCompactionDaemon) (s : store) (referenced : gset Hash) (now_secs : Z)
  : CasCompactionDaemon * store * CasGenerationalGcReport :=
  let '(s, r) := mark_and_sweep s referenced (d_policy dm) now_secs in
  (mkDaemon (d_policy dm) (wrap 64 (runs_total dm + 1)) (wrap 64 (chunks_tombstoned_total dm + newly_tombstoned r))
     (wrap 64 (chunks_resurrected_total dm + resurrected_chunks r)) (wrap 64 (chunks_purged_total dm + purged_chunks r))
     (wrap 64 (bytes_reclaimed_total dm + bytes_reclaimed r)), s, r).

(** ** Staging files, storage/gc.rs *)
Module Staging.

Record StagingGcReport := mkReport { entries_scanned : Z; orphans_found : Z; orphans_deleted : Z; bytes_reclaimed : Z }.

Section staging.
(** The text of a transfer id, by the ulid library. *)
Context (ulid_text : TransferId -> bytes).

Definition is_ascii_alphanumeric (c : Z) : bool :=
  Utf8.in_range 48 57 c || Utf8.in_range 65 90 c || Utf8.in_range 97 122 c.
Definition safe_tid (tid : bytes) : bytes := (fun c => if is_ascii_alphanumeric c then c else 95) <$> tid.

(** The names whose staging is kept: those of active and resumable transfers, as they are and with
    other characters replaced. A query that fails counts for nothing. *)
Definition names_of (r : TransferRecord) : list bytes :=
  match StateStore.status r with
  | Active | Resumable => [ulid_text (transfer_id r); safe_tid (ulid_text (transfer_id r))]
  | Cancelled | Committed => []
  end.
Definition active_tids (query : Role -> option (list TransferRecord)) : list bytes :=
  mjoin ((fun role => match query role with Some records => mjoin (names_of <$> records) | None => [] end) <$> [Server; Client]).

Definition is_active (tids : list bytes) (name : bytes) : bool :=
  existsb (fun tid => starts_with tid name || starts_with name tid) tids.

(** The entries of the staging directory with their sizes, and whether their removal succeeds; the
    entries that are left. *)
Fixpoint sweep (tids : list bytes) (dry : bool) (entries : list (bytes * Z * bool)) (r : StagingGcReport)
  : StagingGcReport * list (bytes * Z) :=
  match entries with
  | [] => (r, [])
  | (name, size, ok) :: entries =>
      let r := mkReport (entries_scanned r + 1) (orphans_found r) (orphans_deleted r) (bytes_reclaimed r) in
      if is_active tids name then
        let '(r, kept) := sweep tids dry entries r in (r, (name, size) :: kept)
      else
        let r := mkReport (entries_scanned r) (orphans_found r + 1) (if dry then orphans_deleted r else orphans_deleted r + 1)
                   (bytes_reclaimed r + size) in
        let '(r, kept) := sweep tids dry entries r in (r, if negb dry && ok then kept else (name, size) :: kept)
  end.
Definition gc_staging (query : Role -> option (list TransferRecord)) (dry : bool) (entries : list (bytes * Z * bool))
  : StagingGcReport * list (bytes * Z) :=
  sweep (active_tids query) dry entries (mkReport 0 0 0 0).
End staging.
End Staging.

(** Chunks that are not referenced, deleted at once. *)
Module ChunkGc.
Record ChunkStoreGcReport := mkReport { chunks_scanned : Z; unreferenced_found : Z; unreferenced_deleted : Z; bytes_reclaimed : Z }.

Definition collect (referenced : gset Hash) (acc : list Hash * ChunkStoreGcReport) (x : Hash * chunk) : list Hash * ChunkStoreGcReport :=
  let '(del, r) := acc in
  if bool_decide (x.1 ∈ referenced) then (del, mkReport (chunks_scanned r + 1) (unreferenced_found r) (unreferenced_deleted r) (bytes_reclaimed r))
  else (del ++ [x.1], mkReport (chunks_scanned r + 1) (unreferenced_found r + 1) (unreferenced_deleted r) (bytes_reclaimed r + c_size x.2)).
Definition delete_one (acc : store * ChunkStoreGcReport) (h : Hash) : store * ChunkStoreGcReport :=
  let '(s, r) := acc in
  let '(b, s) := next_ok s in
  if b then (mkStore (delete h (chunks s)) (tombs s) (oks s),
             mkReport (chunks_scanned r) (unreferenced_found r) (unreferenced_deleted r + 1) (bytes_reclaimed r))
  else (s, r).
Definition gc_chunk_store (s : store) (referenced : gset Hash) (dry : bool) : store * ChunkStoreGcReport :=
  let '(del, r) := foldl (collect referenced) ([], mkReport 0 0 0 0) (map_to_list (chunks s)) in
  if dry then (s, r) else foldl delete_one (s, r) del.
End ChunkGc.

(** ** One sweep *)

Section sweep.
Context (referenced : gset Hash) (p : CasGcPolicy) (now_secs : Z).
Local Abbreviation step := (sweep_entry referenced p now_secs).

(** The calls of an entry touch only its own hash. *)
Definition same_at (h : Hash) (s s' : store) : Prop := chunks s' !! h = chunks s !! h /\ tombs s' !! h = tombs s !! h.

Lemma same_refl h s : same_at h s s.
Proof. done. Qed.
Lemma same_trans h s s' s'' : same_at h s s' -> same_at h s' s'' -> same_at h s s''.
Proof. intros [H1 H2] [H3 H4]. split; congruence. Qed.

Lemma remove_chunk_other s h k : h <> k -> same_at h s (remove_chunk s k).
Proof. intros Hne. unfold remove_chunk, next_ok, same_at. destruct (oks s) as [|[]]; cbn; by rewrite ?lookup_delete_ne. Qed.
Lemma remove_tomb_other s h k : h <> k -> same_at h s (remove_tomb s k).2.
Proof. intros Hne. unfold remove_tomb, next_ok, same_at. destruct (oks s) as [|[]]; cbn; by rewrite ?lookup_delete_ne. Qed.
Lemma write_tomb_other s h k t : h <> k -> same_at h s (write_tomb s k t).
Proof. intros Hne. unfold write_tomb, next_ok, same_at. destruct (oks s) as [|[]]; cbn; by rewrite ?lookup_insert_ne. Qed.
Lemma unlink_other s h k : h <> k -> same_at h s (unlink s k).
Proof. intros Hne. unfold unlink. eapply same_trans; [by apply (remove_chunk_other _ _ k)|by apply remove_tomb_other]. Qed.
Lemma resurrect_other s h k : h <> k -> same_at h s (resurrect s k).2.
Proof.
  intros Hne. unfold resurrect. pose proof (remove_tomb_other s h k Hne). destruct (tombs s !! k), (chunks s !! k); try done.
  by destruct (remove_tomb s k) as [[]].
Qed.

Lemma step_other s r e h : h <> e_hash e -> same_at h s (step (s, r) e).1.
Proof.
  intros Hne. unfold sweep_entry. repeat case_match; cbn; try apply same_refl;
    first [by apply resurrect_other|by apply unlink_other|by apply write_tomb_other].
Qed.

Lemma step_oks s r e : oks s = [] -> oks (step (s, r) e).1 = [].
Proof.
  intros Ho. unfold sweep_entry, resurrect, unlink, remove_chunk, remove_tomb, write_tomb, next_ok.
  rewrite !Ho. repeat case_match; simplify_eq/=; rewrite ?Ho; done.
Qed.

Lemma steps_oks es s r : oks s = [] -> oks (foldl step (s, r) es).1 = [].
Proof.
  revert s r. induction es as [|e es IH]; intros s r Ho; [done|]. cbn [foldl]. pose proof (step_oks s r e Ho) as H1.
  destruct (step (s, r) e) as [s' r']. by apply IH.
Qed.

Lemma steps_other es s r h : h ∉ (e_hash <$> es) -> same_at h s (foldl step (s, r) es).1.
Proof.
  revert s r. induction es as [|e es IH]; intros s r Hh; [apply same_refl|]. rewrite fmap_cons, not_elem_of_cons in Hh.
  destruct Hh as [H1 H2]. cbn [foldl]. pose proof (step_other s r e h H1) as Hs. destruct (step (s, r) e) as [s' r'].
  eapply same_trans; [exact Hs|]. by apply IH.
Qed.

(** What a sweep does at a hash is what its entry does there. *)
Lemma steps_at es s r e : NoDup (e_hash <$> es) -> e ∈ es -> exists s1 r1,
  same_at (e_hash e) s s1 /\ same_at (e_hash e) (step (s1, r1) e).1 (foldl step (s, r) es).1 /\ (oks s = [] -> oks s1 = []).
Proof.
  revert s r. induction es as [|e' es IH]; intros s r Hnd He; [by apply elem_of_nil in He|].
  rewrite fmap_cons in Hnd. apply NoDup_cons in Hnd as [Hni Hnd]. cbn [foldl]. apply elem_of_cons in He as [->|He].
  - exists s, r. split; [apply same_refl|]. split; [|done]. destruct (step (s, r) e') as [s' r']. by apply steps_other.
  - assert (e_hash e <> e_hash e') as Hne by (intros E; apply Hni; rewrite <- E; by apply list_elem_of_fmap_2).
    pose proof (step_other s r e' _ Hne) as Hs. pose proof (step_oks s r e') as Ho. destruct (step (s, r) e') as [s' r'].
    destruct (IH s' r' Hnd He) as (s1 & r1 & H1 & H2 & H3). exists s1, r1. split; [by eapply same_trans|]. auto.
Qed.

Lemma scan_hashes s grace : NoDup (e_hash <$> scan_chunks s now_secs grace).
Proof. unfold scan_chunks. rewrite <- list_fmap_compose. apply (NoDup_fst_map_to_list (chunks s)). Qed.

Lemma scan_elem s grace h c : chunks s !! h = Some c -> entry_of s now_secs grace (h, c) ∈ scan_chunks s now_secs grace.
Proof. intros Hc. apply list_elem_of_fmap_2. by apply elem_of_map_to_list. Qed.

Lemma sweep_at s h c : chunks s !! h = Some c -> exists s1 r1, same_at h s s1 /\
  same_at h (step (s1, r1) (entry_of s now_secs (nursery_grace_secs p) (h, c))).1 (mark_and_sweep s referenced p now_secs).1 /\
  (oks s = [] -> oks s1 = []).
Proof. intros Hc. eapply (steps_at _ s _ (entry_of _ _ _ (h, c))); [apply scan_hashes|by apply scan_elem]. Qed.

Lemma sweep_absent s h : chunks s !! h = None -> same_at h s (mark_and_sweep s referenced p now_secs).1.
Proof.
  intros Hc. apply steps_other. unfold scan_chunks. rewrite <- list_fmap_compose.
  intros ([k c] & -> & Hk%elem_of_map_to_list)%list_elem_of_fmap. cbn in Hc. congruence.
Qed.
End sweep.

Lemma resurrect_at s h c o : chunks s !! h = Some c -> tombs s !! h = Some o ->
  chunks (resurrect s h).2 !! h = Some c /\ (tombs (resurrect s h).2 !! h = Some o \/ tombs (resurrect s h).2 !! h = None) /\
  (oks s = [] -> tombs (resurrect s h).2 !! h = None).
Proof.
  intros Hc Ht. unfold resurrect, remove_tomb, next_ok. rewrite Hc, Ht.
  destruct (oks s) as [|[]]; cbn; rewrite ?lookup_delete_eq; naive_solver.
Qed.
Lemma unlink_at s h : (chunks (unlink s h) !! h = chunks s !! h \/ chunks (unlink s h) !! h = None) /\
  (tombs (unlink s h) !! h = tombs s !! h \/ tombs (unlink s h) !! h = None) /\
  (oks s = [] -> chunks (unlink s h) !! h = None /\ tombs (unlink s h) !! h = None).
Proof.
  unfold unlink, remove_chunk, remove_tomb, next_ok.
  destruct s as [cs ts [|[] [|[]]]]; cbn; rewrite ?lookup_delete_eq; split_and!; auto; done.
Qed.
Lemma write_tomb_at s h t : chunks (write_tomb s h t) !! h = chunks s !! h /\
  (tombs (write_tomb s h t) !! h = tombs s !! h \/ tombs (write_tomb s h t) !! h = Some (Some t)).
Proof. unfold write_tomb, next_ok. destruct (oks s) as [|[]]; cbn; rewrite ?lookup_insert_eq; auto. Qed.

Ltac fate := refine (conj _ (conj _ (conj _ (conj _ _)))); intros;
  first [done|congruence|solve [left; congruence]|solve [split; [congruence|intros; congruence]]|solve [auto]|solve [split; [congruence|eauto]]
    |match goal with H : is_Some _ |- _ => destruct H; split; [congruence|]; right; eexists; eassumption end
    |match goal with H : is_Some _ |- _ => destruct H; congruence end].

(** What an entry does at its own hash, by cases. *)
Lemma sweep_entry_at referenced p now_secs s1 r h c o grace s :
  chunks s1 !! h = Some c -> tombs s1 !! h = o -> o = tombs s !! h ->
  let s' := (sweep_entry referenced p now_secs (s1, r) (entry_of s now_secs grace (h, c))).1 in
  (h ∈ referenced -> chunks s' !! h = Some c /\ (oks s1 = [] -> dry_run p = false -> forall t, tombs s' !! h <> Some (Some t))) /\
  (saturating_sub now_secs (c_mtime c) < grace -> o = None -> chunks s' !! h = Some c /\ tombs s' !! h = None) /\
  (chunks s' !! h = Some c \/ chunks s' !! h = None /\ h ∉ referenced /\ dry_run p = false /\ purge_expired p = true /\
    exists t, o = Some (Some t) /\ is_expired t (tombstone_ttl_secs p) now_secs = true) /\
  (forall t, tombs s' !! h = Some (Some t) -> o = Some (Some t) \/
    h ∉ referenced /\ tombstoned_at_secs t = now_secs /\ (forall t', o <> Some (Some t'))) /\
  (oks s1 = [] -> is_Some (tombs s' !! h) -> chunks s' !! h = Some c /\ (o = Some None \/ exists t, tombs s' !! h = Some (Some t))).
Proof.
  intros Hc Ht Ho. cbv zeta. unfold sweep_entry. cbn [entry_of e_hash e_size tombstone generation fst snd]. rewrite <- Ho.
  pose proof (unlink_at s1 h) as (U1 & U2 & U3).
  destruct (bool_decide (h ∈ referenced)) eqn:Er; [apply bool_decide_eq_true in Er|apply bool_decide_eq_false in Er].
  - destruct o as [[t|]|]; cbn; [|fate..].
    pose proof (resurrect_at s1 h c (Some t) Hc Ht) as (R1 & R2 & R3). destruct (dry_run p); cbn; [fate|].
    refine (conj _ (conj _ (conj _ (conj _ _)))); [|done|by left| |].
    + intros _. split; [done|]. intros Ho1 _ t'. by rewrite R3.
    + intros t' Ht'. left. destruct R2 as [E|E]; congruence.
    + intros Ho1 [x Hx]. rewrite R3 in Hx by done. done.
  - destruct o as [[t|]|]; cbn [generation_of].
    + rewrite (bool_decide_eq_false_2 (Tombstoned = Nursery)) by done. cbn [andb].
      destruct (purge_expired p && is_expired t (tombstone_ttl_secs p) now_secs) eqn:Ep; cbn; [|fate].
      apply andb_true_iff in Ep as [Ep1 Ep2]. destruct (dry_run p); cbn; [fate|].
      refine (conj _ (conj _ (conj _ (conj _ _)))); [done|done| | |].
      * destruct U1 as [E|E]; [left; congruence|]. right. rewrite E. split_and!; try done. by exists t.
      * intros t' Ht'. left. destruct U2 as [E|E]; congruence.
      * intros Ho1 [x Hx]. destruct (U3 Ho1) as [_ E]. congruence.
    + destruct (saturating_sub now_secs (c_mtime c) <? grace) eqn:Eg.
      * rewrite !bool_decide_eq_true_2 by done. cbn. fate.
      * rewrite (bool_decide_eq_false_2 (Tenured = Nursery)) by done. cbn [andb]. destruct (dry_run p); cbn; [fate|].
        set (tn := tombstone_new _ _ _ _ _). destruct (write_tomb_at s1 h tn) as [W1 W2].
        refine (conj _ (conj _ (conj _ (conj _ _)))); [done|done|left; congruence| |].
        -- intros t' Ht'. right. destruct W2 as [E|E]; [congruence|]. rewrite E in Ht'. injection Ht' as <-. split_and!; done.
        -- intros _ _. split; [congruence|]. destruct W2 as [E|E]; rewrite E; eauto.
    + destruct (saturating_sub now_secs (c_mtime c) <? grace) eqn:Eg.
      * rewrite !bool_decide_eq_true_2 by done. cbn. fate.
      * rewrite (bool_decide_eq_false_2 (Tenured = Nursery)) by done. cbn [andb]. destruct (dry_run p); cbn; [fate|].
        set (tn := tombstone_new _ _ _ _ _). destruct (write_tomb_at s1 h tn) as [W1 W2].
        refine (conj _ (conj _ (conj _ (conj _ _)))); [done| |left; congruence| |].
        -- intros Hlt _. apply Z.ltb_ge in Eg. lia.
        -- intros t' Ht'. right. destruct W2 as [E|E]; [congruence|]. rewrite E in Ht'. injection Ht' as <-. split_and!; done.
        -- intros _ [x Hx]. split; [congruence|]. destruct W2 as [E|E]; [congruence|]. rewrite E. eauto.
Qed.

(** A sweep keeps what it must keep. Whatever calls fail: a chunk that is referenced, or younger than
    the grace period without a tombstone, stays, and the latter gets no tombstone; a chunk that
    disappears was not referenced and had a tombstone that has expired; a tombstone that appears is of
    an unreferenced chunk that was there without one, and is dated by the sweep; and a dry run changes
    nothing. When the removal succeeds a referenced chunk loses its tombstone. *)
Theorem gc_safe s referenced p now_secs h c : chunks s !! h = Some c ->
  let s' := (mark_and_sweep s referenced p now_secs).1 in
  (h ∈ referenced -> chunks s' !! h = Some c /\ (oks s = [] -> dry_run p = false -> forall t, tombs s' !! h <> Some (Some t))) /\
  (saturating_sub now_secs (c_mtime c) < nursery_grace_secs p -> tombs s !! h = None -> chunks s' !! h = Some c /\ tombs s' !! h = None) /\
  (chunks s' !! h = Some c \/ chunks s' !! h = None /\ h ∉ referenced /\ dry_run p = false /\ purge_expired p = true /\
    exists t, tombs s !! h = Some (Some t) /\ is_expired t (tombstone_ttl_secs p) now_secs = true) /\
  (forall t, tombs s' !! h = Some (Some t) -> tombs s !! h = Some (Some t) \/
    h ∉ referenced /\ tombstoned_at_secs t = now_secs /\ (forall t', tombs s !! h <> Some (Some t'))) /\
  (dry_run p = true -> s' = s).
Proof.
  intros Hc. destruct (sweep_at referenced p now_secs s h c Hc) as (s1 & r1 & [E1 E2] & [F1 F2] & Ho). cbv zeta.
  set (s' := (mark_and_sweep s referenced p now_secs).1) in *. rewrite Hc in E1.
  assert (dry_run p = true -> s' = s) as Hdry.
  { intros Hd. unfold s', mark_and_sweep. generalize (empty_report (dry_run p)). generalize (scan_chunks s now_secs (nursery_grace_secs p)).
    induction l as [|e es IH]; intros r; [done|]. cbn [foldl].
    assert (exists r', sweep_entry referenced p now_secs (s, r) e = (s, r')) as [r' ->]; [|apply IH].
    unfold sweep_entry. rewrite Hd. repeat case_match; by eexists. }
  pose proof (sweep_entry_at referenced p now_secs s1 r1 h c (tombs s !! h) (nursery_grace_secs p) s) as Hf.
  destruct Hf as (G1 & G2 & G3 & G4 & G5); [congruence|congruence|done|]. rewrite <- F1 in G1, G2, G3. rewrite <- F2 in G1, G2, G4, G5.
  split_and!; try done. intros Hr. destruct (G1 Hr) as [H1 H2]. split; [done|]. intros Hok. apply H2. auto.
Qed.

(** ** Many sweeps *)

(** Between sweeps chunks are written: a chunk that is there already is left as it is. *)
Inductive action :=
  | ASweep (referenced : gset Hash) (now_secs : Z)
  | AWrite (h : Hash) (size now_secs : Z).
Definition act (p : CasGcPolicy) (s : store) (a : action) : store :=
  match a with
  | ASweep referenced now_secs => (mark_and_sweep s referenced p now_secs).1
  | AWrite h size now_secs =>
      match chunks s !! h with
      | Some _ => s
      | None => mkStore (<[h := mkChunk size now_secs]> (chunks s)) (tombs s) (oks s)
      end
  end.
Definition run (p : CasGcPolicy) (s : store) (l : list action) : store := foldl (act p) s l.

(** Sweeps of a run, the last first. *)
Fixpoint sweeps (l : list action) : list (gset Hash * Z) :=
  match l with
  | [] => []
  | ASweep referenced now_secs :: l => (referenced, now_secs) :: sweeps l
  | AWrite _ _ _ :: l => sweeps l
  end.

(** Since the sweep that is the date of its tombstone, a chunk has not been referenced. *)
Definition since (h : Hash) (at_secs : Z) (hist : list (gset Hash * Z)) : Prop :=
  exists post r pre, hist = post ++ (r, at_secs) :: pre /\ h ∉ r /\ Forall (fun x => h ∉ x.1) post.

Definition dated (s : store) (hist : list (gset Hash * Z)) : Prop := oks s = [] /\
  forall h o, tombs s !! h = Some o -> exists t, o = Some t /\ is_Some (chunks s !! h) /\ since h (tombstoned_at_secs t) hist.

Lemma since_skip h a hist r now_secs : h ∉ r -> since h a hist -> since h a ((r, now_secs) :: hist).
Proof. intros Hr (post & r' & pre & -> & H1 & H2). exists ((r, now_secs) :: post), r', pre. split; [done|]. split; [done|]. by constructor. Qed.

Lemma dated_sweep p s hist referenced now_secs : dry_run p = false -> dated s hist ->
  dated (mark_and_sweep s referenced p now_secs).1 ((referenced, now_secs) :: hist).
Proof.
  intros Hdry [Hok Hd]. split; [by apply steps_oks|]. intros h o Ho.
  destruct (chunks s !! h) as [c|] eqn:Hc.
  2: { destruct (sweep_absent referenced p now_secs s h Hc) as [_ E]. rewrite E in Ho. destruct (Hd h o Ho) as (t & _ & [? ?] & _). congruence. }
  destruct (sweep_at referenced p now_secs s h c Hc) as (s1 & r1 & [E1 E2] & [F1 F2] & Ho1).
  destruct (sweep_entry_at referenced p now_secs s1 r1 h c (tombs s !! h) (nursery_grace_secs p) s) as (G1 & _ & _ & G4 & G5); [congruence|congruence|done|].
  rewrite <- F1 in G1, G5. rewrite <- F2 in G1, G4, G5. destruct (G5 (Ho1 Hok)) as [Hc' Ht']; [by eexists|].
  assert (exists t, o = Some t) as [t ->].
  { destruct Ht' as [E|[t E]]; [|exists t; congruence]. destruct (Hd h None E) as (t & [=] & _). }
  exists t. split; [done|]. split; [by exists c|].
  assert (h ∉ referenced) as Hr by (intros Hr; by eapply (proj2 (G1 Hr)); auto).
  destruct (G4 t Ho) as [E|(_ & Ed & _)].
  - destruct (Hd h (Some t) E) as (t' & [= <-] & _ & Hs). by apply since_skip.
  - rewrite Ed. exists [], referenced, hist. split_and!; [done|done|constructor].
Qed.

Lemma run_dated p l s hist : dry_run p = false -> dated s hist -> dated (run p s l) (reverse (sweeps l) ++ hist).
Proof.
  intros Hdry. revert s hist. induction l as [|a l IH]; intros s hist Hd; [done|]. cbn [run foldl]. fold (run p (act p s a) l).
  destruct a as [r now_secs|h size now_secs]; cbn [act sweeps].
  - rewrite reverse_cons, <- app_assoc. cbn [app]. by apply IH, dated_sweep.
  - apply IH. destruct (chunks s !! h) as [c|] eqn:Hc; [done|]. destruct Hd as [Hok Hd]. split; [done|]. cbn.
    intros k o Hk. destruct (Hd k o Hk) as (t & -> & Hs & Ht). exists t. split; [done|]. split; [|done].
    destruct (decide (k = h)) as [->|Hne]; [by rewrite lookup_insert_eq|by rewrite lookup_insert_ne].
Qed.

(** Whatever calls fail, a tombstone is dated by a sweep that did not find its chunk referenced. *)
Definition witnessed (s : store) (hist : list (gset Hash * Z)) : Prop :=
  forall h t, tombs s !! h = Some (Some t) -> exists r, (r, tombstoned_at_secs t) ∈ hist /\ h ∉ r.

Lemma witnessed_sweep p s hist referenced now_secs : witnessed s hist ->
  witnessed (mark_and_sweep s referenced p now_secs).1 ((referenced, now_secs) :: hist).
Proof.
  intros Hw h t Ht. assert (tombs s !! h = Some (Some t) \/ h ∉ referenced /\ tombstoned_at_secs t = now_secs) as [Ho|[Hr <-]].
  - destruct (chunks s !! h) as [c|] eqn:Hc; [|destruct (sweep_absent referenced p now_secs s h Hc) as [_ E]; left; congruence].
    destruct (sweep_at referenced p now_secs s h c Hc) as (s1 & r1 & [E1 E2] & [F1 F2] & _).
    destruct (sweep_entry_at referenced p now_secs s1 r1 h c (tombs s !! h) (nursery_grace_secs p) s) as (_ & _ & _ & G4 & _); [congruence|congruence|done|].
    rewrite <- F2 in G4. destruct (G4 t Ht) as [|(? & ? & _)]; auto.
  - destruct (Hw h t Ho) as (r & Hr & Hn). exists r. split; [by right|done].
  - exists referenced. split; [by left|done].
Qed.
Lemma run_witnessed p l s hist : witnessed s hist -> witnessed (run p s l) (reverse (sweeps l) ++ hist).
Proof.
  revert s hist. induction l as [|a l IH]; intros s hist Hw; [done|]. cbn [run foldl]. fold (run p (act p s a) l).
  destruct a as [r now_secs|h size now_secs]; cbn [act sweeps].
  - rewrite reverse_cons, <- app_assoc. cbn [app]. by apply IH, witnessed_sweep.
  - apply IH. by destruct (chunks s !! h).
Qed.

(** C30. No chunk is deleted without warning. In any run of sweeps under one policy and of writes, on a store that begins without
    tombstones, whichever removals and writes of the sweeps fail: a sweep that deletes a chunk does not find it referenced, and an earlier sweep,
    at least the retention time before, did not find it referenced either. When moreover no call fails, no sweep since then found it
    referenced. (The removal of the tombstone of a chunk that is referenced again can fail, and is then ignored; and
    [purge_tombstones], which looks at no references, is not part of such a run.) *)
Theorem gc_retention p l cs fails referenced now_secs h c :
  let s := run p (mkStore cs ∅ fails) l in
  chunks s !! h = Some c -> chunks (mark_and_sweep s referenced p now_secs).1 !! h = None ->
  h ∉ referenced /\ exists at_secs, tombstone_ttl_secs p <= saturating_sub now_secs at_secs /\
    (exists r, (r, at_secs) ∈ sweeps l /\ h ∉ r) /\ (fails = [] -> since h at_secs (reverse (sweeps l))).
Proof.
  intros s Hc Hn. destruct (sweep_at referenced p now_secs s h c Hc) as (s1 & r1 & [E1 E2] & [F1 F2] & Ho).
  destruct (sweep_entry_at referenced p now_secs s1 r1 h c (tombs s !! h) (nursery_grace_secs p) s) as (_ & _ & G3 & _); [congruence|congruence|done|].
  rewrite <- F1 in G3. destruct G3 as [E|(_ & Hr & Hdry & _ & t & Ht & Hx)]; [congruence|]. split; [done|].
  exists (tombstoned_at_secs t). split; [unfold is_expired in Hx; by apply Z.leb_le|]. split.
  - assert (witnessed s (reverse (sweeps l) ++ [])) as Hw by (apply run_witnessed; intros k o; cbn; by rewrite lookup_empty).
    destruct (Hw h t Ht) as (r & Hin & Hh). rewrite app_nil_r, elem_of_reverse in Hin. by exists r.
  - intros ->. assert (dated s (reverse (sweeps l) ++ [])) as [_ Hd] by (apply run_dated; [done|]; split; [done|]; intros k o Hk; cbn in Hk; by rewrite lookup_empty in Hk).
    rewrite app_nil_r in Hd. by destruct (Hd h _ Ht) as (t' & [= <-] & _ & Hs).
Qed.

(** ** Accounting *)

Definition balanced (r : CasGenerationalGcReport) : Prop :=
  total_chunks_scanned r = nursery_chunks r + tenured_chunks r + existing_tombstones r + newly_tombstoned r /\
  bytes_scanned r = bytes_retained r + bytes_reclaimed r.

Lemma sweep_balanced s referenced p now_secs : balanced (mark_and_sweep s referenced p now_secs).2 /\
  total_chunks_scanned (mark_and_sweep s referenced p now_secs).2 = Z.of_nat (size (chunks s)).
Proof.
  unfold mark_and_sweep. assert (forall es a, balanced a.2 ->
    balanced (foldl (sweep_entry referenced p now_secs) a es).2 /\
    total_chunks_scanned (foldl (sweep_entry referenced p now_secs) a es).2 = total_chunks_scanned a.2 + zlen es) as Hb.
  { induction es as [|e es IH]; intros [s' r] Ha; [split; [done|]; unfold zlen; cbn; lia|]. cbn [foldl].
    destruct (IH (sweep_entry referenced p now_secs (s', r) e)) as [H1 H2].
    - unfold balanced in *. cbn in Ha. unfold sweep_entry. repeat case_match; cbn; lia.
    - split; [done|]. rewrite H2, zlen_cons. unfold sweep_entry. repeat case_match; cbn; lia. }
  destruct (Hb (scan_chunks s now_secs (nursery_grace_secs p)) (s, empty_report (dry_run p))) as [H1 H2]; [done|].
  split; [done|]. rewrite H2. cbn. unfold zlen, scan_chunks. by rewrite length_fmap, length_map_to_list.
Qed.

Section staging_proofs.
Context (ulid_text : TransferId -> bytes).
Import Staging.

Lemma starts_with_refl x : starts_with x x = true.
Proof. apply starts_with_prefix. by exists []; rewrite app_nil_r. Qed.

Lemma sweep_kept tids dry entries r x : x ∈ (sweep tids dry entries r).2 <->
  exists ok, (x, ok) ∈ entries /\ (is_active tids x.1 = true \/ dry = true \/ ok = false).
Proof.
  revert r. induction entries as [|[[name size] ok] entries IH]; intros r; cbn [sweep].
  { split; [by intros ?%elem_of_nil|]. by intros (ok & ?%elem_of_nil & _). }
  destruct (is_active tids name) eqn:Ea.
  - specialize (IH (mkReport (entries_scanned r + 1) (orphans_found r) (orphans_deleted r) (bytes_reclaimed r))).
    destruct (sweep tids dry entries _) as [r' kept]. cbn [snd] in *. rewrite elem_of_cons, IH. split.
    + intros [->|(k & H1 & H2)]; [exists ok; split; [left|by left]|exists k; split; [by right|done]].
    + intros (k & [[= -> ->]|H1]%elem_of_cons & H2); [by left|]. right. eauto.
  - match goal with |- context [sweep tids dry entries ?r1] => specialize (IH r1); destruct (sweep tids dry entries r1) as [r' kept] end.
    cbn [snd] in *. destruct (negb dry && ok) eqn:Ed.
    + apply andb_true_iff in Ed as [Ed%negb_true_iff ->]. rewrite IH. split.
      * intros (k & H1 & H2). exists k. split; [by right|done].
      * intros (k & [[= -> ->]|H1]%elem_of_cons & H2); [|eauto]. cbn in H2. destruct H2 as [H2|[H2|H2]]; congruence.
    + rewrite elem_of_cons, IH. split.
      * intros [->|(k & H1 & H2)]; [exists ok; split; [left|]|exists k; split; [by right|done]].
        right. apply andb_false_iff in Ed as [Ed%negb_false_iff|Ed]; auto.
      * intros (k & [[= -> ->]|H1]%elem_of_cons & H2); [by left|]. right. eauto.
Qed.

(** Staging of live transfers is kept. When the state store answers, an entry whose name begins with
    the id of an active or resumable transfer survives a collection, and an entry is removed exactly
    when it is related to no such id, its removal succeeds and the run is not dry. *)
Theorem staging_gc_safe server client dry entries : let query r := Some (match r with Server => server | Client => client end) in
  let kept := (gc_staging ulid_text query dry entries).2 in
  (forall x ok rec suffix, (x, ok) ∈ entries -> rec ∈ server ++ client -> StateStore.status rec = Active \/ StateStore.status rec = Resumable ->
     x.1 = ulid_text (transfer_id rec) ++ suffix \/ x.1 = safe_tid (ulid_text (transfer_id rec)) ++ suffix -> x ∈ kept) /\
  (forall x, x ∈ kept <-> exists ok, (x, ok) ∈ entries /\ (is_active (active_tids ulid_text query) x.1 = true \/ dry = true \/ ok = false)).
Proof.
  intros query kept. split; [|intros x; apply sweep_kept]. intros x ok rec suffix Hx Hrec Hst Hname. apply sweep_kept. exists ok. split; [done|]. left.
  assert (forall tid, tid ∈ names_of ulid_text rec -> tid ∈ active_tids ulid_text query) as Hin.
  { intros tid Ht. unfold active_tids. cbn. rewrite app_nil_r, elem_of_app, !list_elem_of_join.
    apply elem_of_app in Hrec as [Hr|Hr]; [left|right]; exists (names_of ulid_text rec); (split; [done|by apply list_elem_of_fmap_2]). }
  unfold is_active. apply existsb_exists. unfold names_of in Hin.
  assert (exists tid, tid ∈ active_tids ulid_text query /\ exists suf, x.1 = tid ++ suf) as (tid & Ht & suf & ->).
  { destruct Hst as [E|E]; rewrite E in Hin; (destruct Hname as [->| ->]; [exists (ulid_text (transfer_id rec))|exists (safe_tid (ulid_text (transfer_id rec)))]);
      (split; [apply Hin; set_solver|by exists suffix]). }
  exists tid. split; [by apply list_elem_of_In|]. rewrite (proj2 (starts_with_prefix tid (tid ++ suf))); [done|by exists suf].
Qed.
End staging_proofs.

(** ** Runs of the collector *)
Module GcExamples.

Definition h1 : Hash := replicate 32 1.
Definition pol : CasGcPolicy := mkPolicy 100 1000 true false.
Definition one : gmap Hash chunk := {[ h1 := mkChunk 10 0 ]}.

Lemma gc_safe_witness : chunks (mark_and_sweep (mkStore one ∅ []) {[ h1 ]} pol 5000).1 !! h1 = Some (mkChunk 10 0).
Proof.
  pose proof (gc_safe (mkStore one ∅ []) {[ h1 ]} pol 5000 h1 (mkChunk 10 0)) as H.
  destruct H as [H _]; [by vm_compute|]. apply H. set_solver.
Defined.

(** Two sweeps, far enough apart, delete a chunk nobody references. *)
Lemma gc_retention_witness : h1 ∉ (∅ : gset Hash) /\ exists at_secs, 1000 <= saturating_sub 7000 at_secs /\
  (exists r, (r, at_secs) ∈ [(∅ : gset Hash, 5000)] /\ h1 ∉ r) /\ (@nil bool = [] -> since h1 at_secs [(∅, 5000)]).
Proof.
  apply (gc_retention pol [ASweep ∅ 5000] one [] ∅ 7000 h1 (mkChunk 10 0)); by vm_compute.
Defined.

(** When the tombstone of a chunk that is referenced again cannot be removed, the next sweep after the reference is gone deletes the
    chunk, a second later here. *)
Example failed_resurrection_deletes :
  let s := run pol (mkStore one ∅ [true; false]) [ASweep ∅ 5000; ASweep {[ h1 ]} 7000] in
  chunks s !! h1 = Some (mkChunk 10 0) /\ chunks (mark_and_sweep s ∅ pol 7001).1 !! h1 = None.
Proof. by vm_compute. Qed.

Definition tid (n : Z) : TransferId := replicate 16 n.
Definition rec (n : Z) (st : TransferStatus) : TransferRecord :=
  mk_record (tid n) [] Server Upload st [] [] 0 h1 0 0 0 [] 0 0.
Definition num (t : TransferId) : bytes := (fun z => 48 + z) <$> t.
Definition staged : list (bytes * Z * bool) :=
  [(num (tid 1) ++ lit ".part", 7, true); (num (tid 2) ++ lit ".part", 9, true)].

Lemma staging_gc_safe_witness :
  let query r := Some (match r with Server => [rec 1 Resumable; rec 2 Committed] | Client => [] end) in
  (num (tid 1) ++ lit ".part", 7) ∈ (Staging.gc_staging num query false staged).2 /\
  (num (tid 2) ++ lit ".part", 9) ∉ (Staging.gc_staging num query false staged).2.
Proof.
  split; [|apply (bool_decide_unpack _); by vm_compute].
  apply (staging_gc_safe num [rec 1 Resumable; rec 2 Committed] [] false staged) with (ok := true) (rec := rec 1 Resumable) (suffix := lit ".part");
    [by left|by left|by right|by left].
Defined.

(** When the state store does not answer, the staging of every live transfer is deleted. *)
Example failed_query_sweeps_all : (Staging.gc_staging num (fun _ => None) false staged).2 = [].
Proof. reflexivity. Qed.

(** The purge deletes chunks by the age of their tombstones alone: one that is referenced again since
    the last sweep is lost. *)
Example purge_ignores_references :
  let s := (mark_and_sweep (mkStore one ∅ []) ∅ pol 5000).1 in
  chunks (mark_and_sweep s {[ h1 ]} pol 7000).1 !! h1 = Some (mkChunk 10 0) /\
  chunks (purge_tombstones s 1000 false 7000).1 !! h1 = None.
Proof. by vm_compute. Qed.

(** When a chunk is unlinked and its tombstone is not, the tombstone is that of the next chunk with the
    same hash: written a second ago, within the grace period, it is deleted by the next sweep. *)
Example orphan_tombstone_kills_fresh_chunk :
  let s := run pol (mkStore one ∅ [true; true; false]) [ASweep ∅ 5000; ASweep ∅ 7000; AWrite h1 10 7001] in
  chunks s !! h1 = Some (mkChunk 10 7001) /\ saturating_sub 7002 7001 < nursery_grace_secs pol /\
  chunks (mark_and_sweep s ∅ pol 7002).1 !! h1 = None.
Proof. by vm_compute. Qed.

(** A tombstone is removed by a sweep alone, so a chunk that is written again while it is tombstoned
    keeps the old tombstone, and goes with it. *)
Example rewritten_chunk_keeps_tombstone :
  let s := run pol (mkStore one ∅ []) [ASweep ∅ 5000; AWrite h1 10 6999] in
  is_Some (tombs s !! h1) /\ chunks (mark_and_sweep s ∅ pol 7000).1 !! h1 = None.
Proof. vm_compute. eauto. Qed.

(** A tombstone that cannot be read counts as none, and is written again: the retention starts anew. *)
Example unreadable_tombstone_restarts :
  tombstoned_at_secs <$> mjoin (tombs (mark_and_sweep (mkStore one {[ h1 := None ]} []) ∅ pol 5000).1 !! h1) = Some 5000.
Proof. by vm_compute. Qed.

(** The plain collector has no grace period. *)
Example fresh_chunk_deleted :
  chunks (ChunkGc.gc_chunk_store (mkStore {[ h1 := mkChunk 10 5000 ]} ∅ []) ∅ false).1 !! h1 = None.
Proof. by vm_compute. Qed.
End GcExamples.
