(* ===== verification/TxSnapshot.v ===== *)
(** * Snapshot isolation, txsnapshot/mod.rs

    Vector clocks, transactions with staged operations, the two-phase commit that publishes a snapshot
    manifest, reads at a snapshot and the rollback of a directory. The files of the engine are maps: the
    catalog, the metadata and the staged data of transactions, the version contents by name and the
    manifests. The clock is an argument. Calls on files that change something fail as the arguments of
    the operations say: a write or a copy can leave a part of the file, and a removal of a directory
    can stop anywhere. A begin, a staged deletion or a preparation whose files cannot be read or
    written, and a commit that cannot read the catalog, changes nothing and is not a step; in the
    rollback of a directory only the ignored removals fail. Elapsed times and the benchmark are left
    out. An error is the text of [VelcruxError::Internal], or that of the failed call. *)

From S2P Require Import Prelude Utf8 Protocol Wire Paths ManifestEntry DirectoryDiff.
Import Str.

(** ** Vector clocks *)
Module TxVectorClock.
(** [clock], in the order of node names. *)
Abbreviation t := (gmap bytes Z).

Definition new : t := ∅.
Definition get (c : t) (node : bytes) : Z := default 0 (c !! node).
Definition increment (c : t) (node : bytes) : t * Z :=
  let v := wrap 64 (get c node + 1) in (<[node := v]> c, v).
Definition initial (node : bytes) : t := (increment new node).1.

(** [entry(node).or_insert(0)], and the larger number. *)
Definition raise_to (c : t) (e : bytes * Z) : t :=
  let entry := get c e.1 in <[e.1 := if entry <? e.2 then e.2 else entry]> c.
Definition update_max (c other : t) : t := foldl raise_to c (sorted_items other).
Definition merge (c other : t) : t := update_max c other.

(** The first loop: [None] is the early return. *)
Fixpoint below_loop (entries : list (bytes * Z)) (other : t) (strictly_less : bool) : option bool :=
  match entries with
  | [] => Some strictly_less
  | (node, seq) :: entries =>
      let other_seq := get other node in
      if other_seq <? seq then None
      else below_loop entries other (if seq <? other_seq then true else strictly_less)
  end.
Definition is_causally_before (c other : t) : bool :=
  match below_loop (sorted_items c) other false with
  | None => false
  | Some strictly_less =>
      foldl (fun (b : bool) (e : bytes * Z) => if bool_decide (c !! e.1 = None) && (0 <? e.2) then true else b)
        strictly_less (sorted_items other)
  end.
Definition is_concurrent (c other : t) : bool :=
  negb (is_causally_before c other) && negb (is_causally_before other c) && bool_decide (c <> other).
Definition dominant_epoch (c : t) : Z := foldr Z.max 0 (sorted_items c).*2.
Definition sum_ticks (c : t) : Z := foldl (fun a x => wrap 64 (a + x)) 0 (sorted_items c).*2.

Definition fmt (c : t) : bytes :=
  let show '(node, seq) := node ++ [58] ++ Utf8.decimal seq in
  [123] ++ (match show <$> sorted_items c with [] => [] | x :: l => x ++ mjoin ((fun y => lit ", " ++ y) <$> l) end) ++ [125].
End TxVectorClock.

(** ** Data *)

Inductive TxState := Active | Prepared | Committed | Aborted.
#[global] Instance TxState_eq_dec : EqDecision TxState.
Proof. solve_decision. Defined.
Definition tx_state_text (s : TxState) : bytes :=
  match s with Active => lit "Active" | Prepared => lit "Prepared" | Committed => lit "Committed" | Aborted => lit "Aborted" end.

Inductive FileOpKind := Write | Delete | Rename (old_path : bytes).

Record StagedFileOp := mkOp {
  path : bytes; kind : FileOpKind; op_size : Z; op_hash : Hash; staged_data_rel_path : bytes; expected_base_version : option Z }.

Record FileRevision := mkRevision {
  revision_id : Z; r_path : bytes; r_size : Z; r_hash : Hash; r_vector_clock : TxVectorClock.t; r_tx_id : bytes;
  committed_at_secs : Z; r_author_node : bytes; is_tombstone : bool; content_ref : bytes }.

Record GlobalSnapshotManifest := mkManifest {
  snapshot_id : bytes; tag : bytes; epoch : Z; m_vector_clock : TxVectorClock.t; coordinator_node : bytes;
  participant_nodes : list bytes; files : gmap bytes FileRevision; merkle_root : Hash; total_files : Z; total_bytes : Z;
  created_at_secs : Z; commit_tx_id : bytes }.

Record SnapshotSummary := mkSummary {
  s_snapshot_id : bytes; s_tag : bytes; s_epoch : Z; s_total_files : Z; s_total_bytes : Z; s_created_at_secs : Z;
  merkle_root_hex : bytes }.

Record TwoPhasePrepare := mkPrepare {
  p_tx_id : bytes; coordinator : bytes; participants : list bytes; p_staged_ops : list StagedFileOp;
  staging_merkle_root : Hash; p_read_vector_clock : TxVectorClock.t }.

Inductive VoteKind := VCommit | VAbort (reason : bytes).
Record TwoPhaseVote := mkVote { v_node_id : bytes; vote : VoteKind; v_vector_clock : TxVectorClock.t }.

Record RollbackReport := mkRollback {
  target_snapshot_id : bytes; target_tag : bytes; restored_files : Z; deleted_files : Z; bytes_restored : Z }.

Record TxSnapshotStatusReport := mkStatus {
  st_node_id : bytes; st_vector_clock : TxVectorClock.t; st_current_epoch : Z; total_snapshots : Z;
  catalog_file_count : Z; active_transactions : Z; prepared_transactions : Z }.

Record ActiveTxMeta := mkMeta {
  tx_id : bytes; author_node : bytes; state : TxState; meta_created_at_secs : Z; read_vector_clock : TxVectorClock.t;
  staged_ops : gmap bytes StagedFileOp; prepared_manifest : option TwoPhasePrepare }.

Record SnapshotCatalog := mkCatalog {
  current_epoch : Z; vector_clock : TxVectorClock.t; snapshots : gmap bytes GlobalSnapshotManifest;
  tag_to_id : gmap bytes bytes; file_revisions : gmap bytes (list FileRevision) }.

(** The counters of the engine. *)
Record Metrics := mkMetrics {
  tx_begun_total : Z; tx_committed_total : Z; tx_aborted_total : Z; active_tx_count : Z; snapshots_total : Z;
  rollbacks_total : Z; conflicts_total : Z }.

(** The engine with its files. *)
Record TxSnapshotEngine := mkEngine {
  node_id : bytes;
  catalog : SnapshotCatalog;
  metas : gmap bytes ActiveTxMeta;
  staged : gmap (bytes * bytes) bytes;
  versions : gmap bytes bytes;
  manifests : gmap bytes GlobalSnapshotManifest;
  metrics : Metrics }.

Definition set_metas (s : TxSnapshotEngine) (f : gmap bytes ActiveTxMeta -> gmap bytes ActiveTxMeta) : TxSnapshotEngine :=
  mkEngine (node_id s) (catalog s) (f (metas s)) (staged s) (versions s) (manifests s) (metrics s).
Definition set_staged (s : TxSnapshotEngine) (f : gmap (bytes * bytes) bytes -> gmap (bytes * bytes) bytes) : TxSnapshotEngine :=
  mkEngine (node_id s) (catalog s) (metas s) (f (staged s)) (versions s) (manifests s) (metrics s).
Definition set_metrics (s : TxSnapshotEngine) (f : Metrics -> Metrics) : TxSnapshotEngine :=
  mkEngine (node_id s) (catalog s) (metas s) (staged s) (versions s) (manifests s) (f (metrics s)).

Definition with_state (m : ActiveTxMeta) (x : TxState) : ActiveTxMeta :=
  mkMeta (tx_id m) (author_node m) x (meta_created_at_secs m) (read_vector_clock m) (staged_ops m) (prepared_manifest m).
Definition with_ops (m : ActiveTxMeta) (ops : gmap bytes StagedFileOp) : ActiveTxMeta :=
  mkMeta (tx_id m) (author_node m) (state m) (meta_created_at_secs m) (read_vector_clock m) ops (prepared_manifest m).
Definition with_prepared (m : ActiveTxMeta) (x : TwoPhasePrepare) : ActiveTxMeta :=
  mkMeta (tx_id m) (author_node m) Prepared (meta_created_at_secs m) (read_vector_clock m) (staged_ops m) (Some x).

(** A call that fails: what it leaves of the file ([0]: nothing, [S n]: the first [n] bytes) and its
    error. *)
Record fault := mkFault { remains : nat; fault_text : bytes }.
Definition leave {K} `{Countable K} (k : K) (b : bytes) (n : nat) (m : gmap K bytes) : gmap K bytes :=
  match n with O => m | S n => <[k := take n b]> m end.

Section engine.
(** [Hash::of], and the order in which a [HashMap] is visited. *)
Context (hash_of : bytes -> Hash).
Context (visit : gmap bytes StagedFileOp -> list (bytes * StagedFileOp)).

Definition new_engine (node : bytes) : TxSnapshotEngine :=
  mkEngine node (mkCatalog 0 (TxVectorClock.initial node) ∅ ∅ ∅) ∅ ∅ ∅ ∅ (mkMetrics 0 0 0 0 0 0 0).

Definition load_tx_meta (s : TxSnapshotEngine) (id : bytes) : outcome bytes ActiveTxMeta :=
  match metas s !! id with Some m => Ok m | None => Err (lit "transaction '" ++ id ++ lit "' not found") end.
Definition save_tx_meta (s : TxSnapshotEngine) (m : ActiveTxMeta) : TxSnapshotEngine := set_metas s <[tx_id m := m]>.

Definition begin_tx (s : TxSnapshotEngine) (author : option bytes) (now_secs now_nanos : Z) : TxSnapshotEngine * bytes :=
  let who := default (node_id s) author in
  let short := take 8 (Hash_to_hex (hash_of (node_id s ++ [58] ++ who ++ [58] ++ Utf8.decimal now_nanos))) in
  let id := lit "tx-" ++ Utf8.decimal now_secs ++ lit "-" ++ short in
  let s := save_tx_meta s (mkMeta id who Active now_secs (vector_clock (catalog s)) ∅ None) in
  (set_metrics s (fun m => mkMetrics (wrap 64 (tx_begun_total m + 1)) (tx_committed_total m) (tx_aborted_total m)
     (wrap 64 (active_tx_count m + 1)) (snapshots_total m) (rollbacks_total m) (conflicts_total m)), id).

Definition require_active (s : TxSnapshotEngine) (what id : bytes) : outcome bytes ActiveTxMeta :=
  let? m := load_tx_meta s id in
  if bool_decide (state m = Active) then Ok m
  else Err (lit "cannot " ++ what ++ lit ": transaction '" ++ id ++ lit "' is " ++ tx_state_text (state m)).

Fixpoint trim_slashes (p : bytes) : bytes :=
  match p with b :: p' => if b =? SLASH then trim_slashes p' else p | [] => [] end.

Definition data_name (h : Hash) (now_nanos : Z) : bytes :=
  lit "data_" ++ take 16 (Hash_to_hex h) ++ lit "_" ++ Utf8.decimal now_nanos ++ lit ".bin".

(** [data_fault] and [meta_fault]: the failures of the two writes. *)
Definition stage_file (s : TxSnapshotEngine) (id p data : bytes) (base : option Z) (now_nanos : Z)
    (data_fault : option fault) (meta_fault : option bytes) : TxSnapshotEngine * outcome bytes StagedFileOp :=
  match require_active s (lit "stage files") id with
  | Err e => (s, Err e)
  | Panic => (s, Panic)
  | Ok m =>
      let clean := trim_slashes p in
      let h := hash_of data in
      let name := data_name h now_nanos in
      match data_fault with
      | Some f => (set_staged s (leave (id, name) data (remains f)), Err (fault_text f))
      | None =>
          let s := set_staged s <[(id, name) := data]> in
          let op := mkOp clean Write (zlen data) h name base in
          match meta_fault with
          | Some e => (s, Err e)
          | None => (save_tx_meta s (with_ops m (<[clean := op]> (staged_ops m))), Ok op)
          end
      end
  end.

Definition stage_delete (s : TxSnapshotEngine) (id p : bytes) (base : option Z) : outcome bytes (TxSnapshotEngine * StagedFileOp) :=
  let? m := require_active s (lit "stage delete") id in
  let clean := trim_slashes p in
  let op := mkOp clean Delete 0 Hash_ZERO [] base in
  Ok (save_tx_meta s (with_ops m (<[clean := op]> (staged_ops m))), op).

(** [sort_by] on the path, which is stable. *)
Fixpoint insert_op (x : StagedFileOp) (l : list StagedFileOp) : list StagedFileOp :=
  match l with
  | [] => [x]
  | y :: l' => if bytes_lt (path y) (path x) then y :: insert_op x l' else x :: l
  end.
Definition sort_ops (l : list StagedFileOp) : list StagedFileOp := foldr insert_op [] l.

Definition kind_bytes (k : FileOpKind) : bytes :=
  match k with Write => lit "WRITE" | Delete => lit "DELETE" | Rename old => lit "RENAME" ++ old end.
Definition op_bytes (o : StagedFileOp) : bytes :=
  path o ++ to_le 8 (op_size o) ++ op_hash o ++ kind_bytes (kind o) ++ to_le 8 (default 0 (expected_base_version o)).
Definition compute_staging_merkle_root (ops : list StagedFileOp) : Hash :=
  hash_of (lit "velcrux:txsnapshot:staging_merkle:v1" ++ [10] ++ mjoin (op_bytes <$> sort_ops ops)).

(** The last revision of a path in the catalog. *)
Definition latest (c : SnapshotCatalog) (p : bytes) : option FileRevision := last (default [] (file_revisions c !! p)).
(** The first operation whose base is behind, with the base and the latest revision. *)
Definition conflict_of (c : SnapshotCatalog) (o : StagedFileOp) : option (Z * Z) :=
  match expected_base_version o, latest c (path o) with
  | Some base, Some rev => if base <? revision_id rev then Some (base, revision_id rev) else None
  | _, _ => None
  end.
Fixpoint occ_conflict (c : SnapshotCatalog) (ops : list StagedFileOp) : option (bytes * Z * Z) :=
  match ops with
  | [] => None
  | o :: ops => match conflict_of c o with Some (base, rev) => Some (path o, base, rev) | None => occ_conflict c ops end
  end.

(** A conflict is counted, so an error has a state too. *)
Definition prepare_2pc (s : TxSnapshotEngine) (id : bytes) (ps : list bytes) : TxSnapshotEngine * outcome bytes TwoPhasePrepare :=
  match require_active s (lit "prepare") id with
  | Ok m =>
      match occ_conflict (catalog s) (visit (staged_ops m)).*2 with
      | Some (p, base, rev) =>
          (set_metrics s (fun m => mkMetrics (tx_begun_total m) (tx_committed_total m) (tx_aborted_total m)
             (active_tx_count m) (snapshots_total m) (rollbacks_total m) (wrap 64 (conflicts_total m + 1))),
           Err (lit "OCC conflict on path '" ++ p ++ lit "': expected base revision " ++ Utf8.decimal base
                ++ lit " but latest committed revision is " ++ Utf8.decimal rev))
      | None =>
          let ops := sort_ops (visit (staged_ops m)).*2 in
          let pr := mkPrepare id (node_id s) ps ops (compute_staging_merkle_root ops) (read_vector_clock m) in
          (save_tx_meta s (with_prepared m pr), Ok pr)
      end
  | Err e => (s, Err e)
  | Panic => (s, Panic)
  end.

Definition get_tx_prepare (s : TxSnapshotEngine) (id : bytes) : outcome bytes (option TwoPhasePrepare) :=
  let? m := load_tx_meta s id in Ok (prepared_manifest m).

Definition vote_2pc (s : TxSnapshotEngine) (pr : TwoPhasePrepare) : TwoPhaseVote :=
  let say v := mkVote (node_id s) v (vector_clock (catalog s)) in
  let expected := compute_staging_merkle_root (p_staged_ops pr) in
  if negb (bool_decide (expected = staging_merkle_root pr)) then
    say (VAbort (lit "staging Merkle root mismatch: expected " ++ Hash_to_hex expected ++ lit " got " ++ Hash_to_hex (staging_merkle_root pr)))
  else
    match occ_conflict (catalog s) (p_staged_ops pr) with
    | Some (p, base, rev) =>
        say (VAbort (lit "OCC conflict on participant for path '" ++ p ++ lit "': latest revision " ++ Utf8.decimal rev
                     ++ lit " > base " ++ Utf8.decimal base))
    | None => say VCommit
    end.

Definition compute_snapshot_merkle_root (fs : gmap bytes FileRevision) : Hash :=
  hash_of (lit "velcrux:txsnapshot:manifest_merkle:v1" ++ [10] ++
    mjoin ((fun '(p, rev) => p ++ to_le 8 (r_size rev) ++ r_hash rev ++ to_le 8 (revision_id rev)) <$> sorted_items fs)).

(** [remove_dir_all] of the transaction's directory: [gone] are the files it removes, all of them when
    it succeeds. *)
Definition META : bytes := lit "tx_meta.json".
Definition remove_tx_dir (s : TxSnapshotEngine) (id : bytes) (gone : bytes -> bool) : TxSnapshotEngine :=
  set_staged (if gone META then set_metas s (delete id) else s) (filter (fun x => x.1.1 <> id \/ gone x.1.2 = false)).

Definition less_active (m : Metrics) : Z := if 0 <? active_tx_count m then active_tx_count m - 1 else active_tx_count m.

(** [gone]: what the removal, whose result is ignored, removes. *)
Definition abort_tx (s : TxSnapshotEngine) (id : bytes) (gone : bytes -> bool) : TxSnapshotEngine :=
  match metas s !! id with
  | None => s
  | Some _ =>
      set_metrics (remove_tx_dir s id gone)
        (fun m => mkMetrics (tx_begun_total m) (tx_committed_total m) (wrap 64 (tx_aborted_total m + 1))
           (less_active m) (snapshots_total m) (rollbacks_total m) (conflicts_total m))
  end.

Definition first_abort (votes : list TwoPhaseVote) : option (bytes * bytes) :=
  foldr (fun v o => match vote v with VAbort reason => Some (v_node_id v, reason) | VCommit => o end) None votes.

(** The files of the last snapshot of the map, in the order of the identifiers. *)
Definition baseline (c : SnapshotCatalog) : gmap bytes FileRevision :=
  match last (sorted_items (snapshots c)) with Some (_, snap) => files snap | None => ∅ end.

Definition version_name (h : Hash) : bytes := Hash_to_hex h ++ lit ".bin".

Definition push_revision (c : SnapshotCatalog) (p : bytes) (rev : FileRevision) : SnapshotCatalog :=
  mkCatalog (current_epoch c) (vector_clock c) (snapshots c) (tag_to_id c)
    (<[p := default [] (file_revisions c !! p) ++ [rev]]> (file_revisions c)).

(** The copy of staged data to its version file, which is skipped when that exists. *)
Definition copy_version (copy_fault : bytes -> option fault) (data : gmap (bytes * bytes) bytes) (id : bytes) (o : StagedFileOp)
    (vs : gmap bytes bytes) : gmap bytes bytes * option bytes :=
  let name := version_name (op_hash o) in
  match data !! (id, staged_data_rel_path o), vs !! name with
  | Some b, None =>
      match copy_fault name with
      | None => (<[name := b]> vs, None)
      | Some f => (leave name b (remains f) vs, Some (fault_text f))
      end
  | _, _ => (vs, None)
  end.

(** One staged operation: the version files, and the catalog and the new snapshot. *)
Definition promote (m : ActiveTxMeta) (data : gmap (bytes * bytes) bytes) (id : bytes) (now_secs : Z)
    (copy_fault : bytes -> option fault) (c : SnapshotCatalog) (vs : gmap bytes bytes) (fs : gmap bytes FileRevision)
    (x : bytes * StagedFileOp) : gmap bytes bytes * outcome bytes (SnapshotCatalog * gmap bytes FileRevision) :=
  let '(p, o) := x in
  let next := match latest c p with Some rev => wrap 64 (revision_id rev + 1) | None => 1 end in
  let written := mkRevision next p (op_size o) (op_hash o) (vector_clock c) id now_secs (author_node m) false (version_name (op_hash o)) in
  match kind o with
  | Write =>
      match copy_version copy_fault data id o vs with
      | (vs, Some e) => (vs, Err e)
      | (vs, None) => (vs, Ok (push_revision c p written, <[p := written]> fs))
      end
  | Delete =>
      (vs, Ok (push_revision c p (mkRevision next p 0 Hash_ZERO (vector_clock c) id now_secs (author_node m) true []), delete p fs))
  | Rename old =>
      match copy_version copy_fault data id o vs with
      | (vs, Some e) => (vs, Err e)
      | (vs, None) => (vs, Ok (push_revision c p written, <[p := written]> (delete old fs)))
      end
  end.
(** The loop over the staged operations; a copy that fails leaves it. *)
Fixpoint promote_all (m : ActiveTxMeta) (data : gmap (bytes * bytes) bytes) (id : bytes) (now_secs : Z)
    (copy_fault : bytes -> option fault) (c : SnapshotCatalog) (vs : gmap bytes bytes) (fs : gmap bytes FileRevision)
    (l : list (bytes * StagedFileOp)) : gmap bytes bytes * outcome bytes (SnapshotCatalog * gmap bytes FileRevision) :=
  match l with
  | [] => (vs, Ok (c, fs))
  | x :: l =>
      match promote m data id now_secs copy_fault c vs fs x with
      | (vs, Ok (c, fs)) => promote_all m data id now_secs copy_fault c vs fs l
      | (vs, Err e) => (vs, Err e)
      | (vs, Panic) => (vs, Panic)
      end
  end.

Definition snapshot_name (ep : Z) (root : Hash) : bytes :=
  lit "snap-" ++ Utf8.decimal ep ++ lit "-" ++ take 8 (Hash_to_hex root).

(** How the calls of a commit go: the copies by version name, the writes of the manifest and of the
    catalog, whether the metadata is saved at the end, and what the removal takes. The manifests are
    written and never read; one whose write fails is not in the map. *)
Record commit_env := mkEnv {
  copy_fault : bytes -> option fault; manifest_fault : option bytes; catalog_fault : option bytes;
  meta_saved : bool; gone : bytes -> bool }.
Definition env_ok : commit_env := mkEnv (fun _ => None) None None true (fun _ => true).

Definition commit_2pc (s : TxSnapshotEngine) (id : bytes) (votes : list TwoPhaseVote) (snapshot_tag : option bytes)
    (now_secs : Z) (env : commit_env) : TxSnapshotEngine * outcome bytes GlobalSnapshotManifest :=
  match load_tx_meta s id with
  | Err e => (s, Err e)
  | Panic => (s, Panic)
  | Ok m =>
      if negb (bool_decide (state m = Prepared)) then
        (s, Err (lit "cannot commit: transaction '" ++ id ++ lit "' is " ++ tx_state_text (state m) ++ lit " (must be Prepared)"))
      else
        match first_abort votes with
        | Some (node, reason) =>
            (abort_tx s id (gone env), Err (lit "2PC aborted due to participant '" ++ node ++ lit "': " ++ reason))
        | None =>
            let c := catalog s in
            let clock := foldl (fun k v => TxVectorClock.update_max k (v_vector_clock v)) (vector_clock c) votes in
            let clock := (TxVectorClock.increment clock (node_id s)).1 in
            let c := mkCatalog (wrap 64 (current_epoch c + 1)) clock (snapshots c) (tag_to_id c) (file_revisions c) in
            let '(vs, r) := promote_all m (staged s) id now_secs (copy_fault env) c (versions s) (baseline c) (visit (staged_ops m)) in
            let s := mkEngine (node_id s) (catalog s) (metas s) (staged s) vs (manifests s) (metrics s) in
            match r with
            | Err e => (s, Err e)
            | Panic => (s, Panic)
            | Ok (c, fs) =>
                let root := compute_snapshot_merkle_root fs in
                let ep := current_epoch c in
                let name := snapshot_name ep root in
                let t := default (lit "snapshot-" ++ Utf8.decimal ep) snapshot_tag in
                let total := foldl (fun a (e : bytes * FileRevision) => wrap 64 (a + r_size e.2)) 0 (sorted_items fs) in
                let snap := mkManifest name t ep (vector_clock c) (node_id s) (v_node_id <$> votes) fs root
                              (Z.of_nat (size fs)) total now_secs id in
                match manifest_fault env with
                | Some e => (s, Err e)
                | None =>
                    let s := mkEngine (node_id s) (catalog s) (metas s) (staged s) vs (<[name := snap]> (manifests s)) (metrics s) in
                    let c := mkCatalog ep (vector_clock c) (<[name := snap]> (snapshots c)) (<[t := name]> (tag_to_id c)) (file_revisions c) in
                    match catalog_fault env with
                    | Some e => (s, Err e)
                    | None =>
                        let s := mkEngine (node_id s) c (metas s) (staged s) vs (manifests s) (metrics s) in
                        let s := if meta_saved env then save_tx_meta s (with_state m Committed) else s in
                        let s := remove_tx_dir s id (gone env) in
                        (set_metrics s (fun k => mkMetrics (tx_begun_total k) (wrap 64 (tx_committed_total k + 1)) (tx_aborted_total k)
                           (less_active k) (wrap 64 (snapshots_total k + 1)) (rollbacks_total k) (conflicts_total k)), Ok snap)
                    end
                end
            end
        end
  end.

Definition resolve_snapshot_id (c : SnapshotCatalog) (tag_or_id : bytes) : option bytes :=
  match snapshots c !! tag_or_id with Some _ => Some tag_or_id | None => tag_to_id c !! tag_or_id end.

Definition get_snapshot (s : TxSnapshotEngine) (tag_or_id : bytes) : outcome bytes GlobalSnapshotManifest :=
  let? id := ok_or (resolve_snapshot_id (catalog s) tag_or_id) (lit "snapshot '" ++ tag_or_id ++ lit "' not found") in
  ok_or (snapshots (catalog s) !! id) (lit "snapshot manifest '" ++ id ++ lit "' missing").

Definition read_snapshot (s : TxSnapshotEngine) (tag_or_id p : bytes) : outcome bytes (option bytes) :=
  let? id := ok_or (resolve_snapshot_id (catalog s) tag_or_id) (lit "snapshot '" ++ tag_or_id ++ lit "' not found") in
  let? snap := ok_or (snapshots (catalog s) !! id) (lit "snapshot '" ++ id ++ lit "' not found in catalog") in
  let clean := trim_slashes p in
  match files snap !! clean with
  | None => Ok None
  | Some rev =>
      if is_tombstone rev then Ok None
      else
        match versions s !! content_ref rev with
        | None => Err (lit "version data '" ++ content_ref rev ++ lit "' for path '" ++ clean ++ lit "' missing on disk")
        | Some b =>
            let h := hash_of b in
            if bool_decide (h = r_hash rev) then Ok (Some b)
            else Err (lit "cryptographic hash mismatch on read: expected " ++ Hash_to_hex (r_hash rev) ++ lit " got " ++ Hash_to_hex h)
        end
  end.

Definition list_snapshot_files (s : TxSnapshotEngine) (tag_or_id : bytes) : outcome bytes (list FileRevision) :=
  let? id := ok_or (resolve_snapshot_id (catalog s) tag_or_id) (lit "snapshot '" ++ tag_or_id ++ lit "' not found") in
  let? snap := ok_or (snapshots (catalog s) !! id) (lit "snapshot '" ++ id ++ lit "' not found") in
  Ok (sorted_items (files snap)).*2.

(** [sort_by_key] on the epoch, which is stable. *)
Fixpoint insert_summary (x : SnapshotSummary) (l : list SnapshotSummary) : list SnapshotSummary :=
  match l with
  | [] => [x]
  | y :: l' => if s_epoch y <? s_epoch x then y :: insert_summary x l' else x :: l
  end.
Definition summary_of (m : GlobalSnapshotManifest) : SnapshotSummary :=
  mkSummary (snapshot_id m) (tag m) (epoch m) (total_files m) (total_bytes m) (created_at_secs m) (Hash_to_hex (merkle_root m)).
Definition list_snapshots (s : TxSnapshotEngine) : list SnapshotSummary :=
  foldr insert_summary [] (summary_of <$> (sorted_items (snapshots (catalog s))).*2).

(** ** Rollback of a directory

    The directory is the map of its regular files by relative path; the paths of a manifest are taken
    in the form the directory lists them. *)

(** The contents of a snapshot, staged beside the directory. *)
Fixpoint stage_rollback (vs : gmap bytes bytes) (fs : list (bytes * FileRevision)) (tmp : gmap bytes bytes) (n total : Z)
  : outcome bytes (gmap bytes bytes * Z * Z) :=
  match fs with
  | [] => Ok (tmp, n, total)
  | (p, rev) :: fs =>
      if is_tombstone rev then stage_rollback vs fs tmp n total
      else
        match vs !! content_ref rev with
        | None => Err (lit "version content '" ++ content_ref rev ++ lit "' missing for rollback of '" ++ p ++ lit "'")
        | Some b =>
            let h := hash_of b in
            if bool_decide (h = r_hash rev) then stage_rollback vs fs (<[p := b]> tmp) (n + 1) (wrap 64 (total + r_size rev))
            else Err (lit "content corruption detected on '" ++ p ++ lit "': expected " ++ Hash_to_hex (r_hash rev)
                      ++ lit " got " ++ Hash_to_hex h)
        end
  end.

Definition copy_staged (tmp : gmap bytes bytes) (dir : gmap bytes bytes) (x : bytes * FileRevision) : gmap bytes bytes :=
  match tmp !! x.1 with Some b => <[x.1 := b]> dir | None => dir end.

(** [can_delete]: whether the ignored removal of a file succeeds. The directory is returned on errors
    too. *)
Definition rollback_to_snapshot (s : TxSnapshotEngine) (tag_or_id : bytes) (can_delete : bytes -> bool) (dir : gmap bytes bytes)
  : TxSnapshotEngine * gmap bytes bytes * outcome bytes RollbackReport :=
  match get_snapshot s tag_or_id with
  | Err e => (s, dir, Err e)
  | Panic => (s, dir, Panic)
  | Ok m =>
      match stage_rollback (versions s) (sorted_items (files m)) ∅ 0 0 with
      | Err e => (s, dir, Err e)
      | Panic => (s, dir, Panic)
      | Ok (tmp, restored, total) =>
          let extra := filter (fun x => files m !! x.1 = None) dir in
          let dir := filter (fun x => is_Some (files m !! x.1) \/ can_delete x.1 = false) dir in
          let dir := foldl (copy_staged tmp) dir (sorted_items (files m)) in
          (set_metrics s (fun k => mkMetrics (tx_begun_total k) (tx_committed_total k) (tx_aborted_total k)
             (active_tx_count k) (snapshots_total k) (wrap 64 (rollbacks_total k + 1)) (conflicts_total k)),
           dir, Ok (mkRollback (snapshot_id m) (tag m) restored (Z.of_nat (size extra)) total))
      end
  end.

Definition status_report (s : TxSnapshotEngine) : TxSnapshotStatusReport :=
  let count x := Z.of_nat (length (List.filter (fun e : bytes * ActiveTxMeta => bool_decide (state e.2 = x)) (map_to_list (metas s)))) in
  mkStatus (node_id s) (vector_clock (catalog s)) (current_epoch (catalog s)) (Z.of_nat (size (snapshots (catalog s))))
    (Z.of_nat (size (file_revisions (catalog s)))) (count Active) (count Prepared).
End engine.

(** ** Clocks are compared point by point *)

Section clocks.
Import TxVectorClock.
Implicit Types c o : TxVectorClock.t.

Definition clock_le (b : Z) (c : TxVectorClock.t) : Prop := forall n v, c !! n = Some v -> 0 <= v <= b.

Lemma get_bound b c n : 0 <= b -> clock_le b c -> 0 <= get c n <= b.
Proof. intros Hb Hc. unfold get. destruct (c !! n) as [v|] eqn:E; cbn; [by eapply Hc|lia]. Qed.

Lemma sorted_items_map {A} (m : gmap bytes A) : list_to_map (sorted_items m) = m.
Proof.
  apply map_eq. intros p. destruct (m !! p) as [a|] eqn:E.
  - apply elem_of_list_to_map; [|by apply sorted_items_elem]. unfold sorted_items. rewrite merge_sort_Permutation. apply NoDup_fst_map_to_list.
  - apply not_elem_of_list_to_map_1. intros ([q a] & -> & Hq)%list_elem_of_fmap. apply sorted_items_elem in Hq. cbn in E. congruence.
Qed.
Lemma sorted_items_nodup {A} (m : gmap bytes A) : NoDup (sorted_items m).*1.
Proof. unfold sorted_items. rewrite merge_sort_Permutation. apply NoDup_fst_map_to_list. Qed.

Lemma raise_lookup (l : list (bytes * Z)) c n : NoDup l.*1 ->
  foldl raise_to c l !! n =
    match (list_to_map l : gmap bytes Z) !! n with Some v => Some (Z.max (get c n) v) | None => c !! n end.
Proof.
  revert c. induction l as [|[k v] l IH]; intros c Hnd; [done|]. cbn in Hnd. apply NoDup_cons in Hnd as [Hk Hnd].
  cbn [foldl list_to_map foldr uncurry]. rewrite IH by done. destruct (decide (n = k)) as [->|Hne].
  - rewrite (not_elem_of_list_to_map_1 l k Hk), lookup_insert_eq. unfold raise_to. cbn. rewrite lookup_insert_eq.
    f_equal. destruct (Z.ltb_spec (get c k) v); lia.
  - rewrite lookup_insert_ne by done. unfold raise_to, get. cbn. by rewrite lookup_insert_ne.
Qed.

Lemma update_max_lookup c o n : update_max c o !! n = match o !! n with Some v => Some (Z.max (get c n) v) | None => c !! n end.
Proof. unfold update_max. by rewrite raise_lookup, sorted_items_map by apply sorted_items_nodup. Qed.

Lemma update_max_le b c o : clock_le b c -> clock_le b o -> clock_le b (update_max c o).
Proof.
  intros Hc Ho n v. rewrite update_max_lookup. destruct (o !! n) as [w|] eqn:E; [|apply Hc]. intros [= <-].
  specialize (Ho n w E). pose proof (get_bound b c n). unfold get in *. destruct (c !! n) as [u|] eqn:Ec; cbn in *; [specialize (Hc n u Ec)|]; lia.
Qed.
Lemma update_max_left b c o n : clock_le b c -> get c n <= get (update_max c o) n.
Proof. intros Hc. unfold get at 2. rewrite update_max_lookup. unfold get. destruct (o !! n), (c !! n); cbn; lia. Qed.
Lemma update_max_right b c o n : clock_le b o -> clock_le b c -> get o n <= get (update_max c o) n.
Proof.
  intros Ho Hc. unfold get at 2. rewrite update_max_lookup. unfold get. destruct (o !! n) as [v|] eqn:E; cbn; [lia|].
  destruct (c !! n) as [u|] eqn:Ec; cbn; [specialize (Hc n u Ec)|]; lia.
Qed.

Lemma below_loop_spec l o b : below_loop l o b =
  if forallb (fun e => e.2 <=? get o e.1) l then Some (b || existsb (fun e => e.2 <? get o e.1) l) else None.
Proof.
  revert b. induction l as [|[n v] l IH]; intros b; cbn; [by rewrite orb_false_r|].
  destruct (Z.ltb_spec (get o n) v), (Z.leb_spec v (get o n)); try lia; [done|]. rewrite IH. cbn [andb].
  destruct (forallb _ l); [|done]. destruct (Z.ltb_spec v (get o n)), b; done.
Qed.
Lemma foldl_or {A} (f : A -> bool) l b : foldl (fun b e => if f e then true else b) b l = b || existsb f l.
Proof.
  revert b. induction l as [|a l IH]; intros b; cbn; [by rewrite orb_false_r|]. rewrite IH. by destruct (f a), b.
Qed.

Lemma before_spec b b' c o : clock_le b c -> clock_le b' o ->
  is_causally_before c o = true <-> (forall n, get c n <= get o n) /\ exists n, get c n < get o n.
Proof.
  intros Hc Ho. unfold is_causally_before. rewrite below_loop_spec.
  assert (forall n, 0 <= get o n) as Ho0 by (intros n; unfold get; destruct (o !! n) as [v|] eqn:E; cbn; [by eapply Ho|lia]).
  assert (forallb (fun e => e.2 <=? get o e.1) (sorted_items c) = true <-> forall n, get c n <= get o n) as Hle.
  { rewrite forallb_forall. split.
    - intros H n. unfold get at 1. destruct (c !! n) as [v|] eqn:E; [|apply Ho0]. apply sorted_items_elem, list_elem_of_In, H in E. cbn in *. lia.
    - intros H [n v] Hin. apply list_elem_of_In, sorted_items_elem in Hin. specialize (H n). unfold get at 1 in H. rewrite Hin in H. cbn in *. lia. }
  destruct (forallb _ (sorted_items c)) eqn:Ef.
  2: { split; [done|]. intros [H _]. apply Hle in H. done. }
  pose proof (proj1 Hle eq_refl) as Hall. rewrite foldl_or, !orb_true_iff, !existsb_exists. split.
  - intros [[H|([n v] & Hin & H)]|([n v] & Hin & H)]; [done| |]; (split; [done|]); exists n; apply list_elem_of_In, sorted_items_elem in Hin.
    + unfold get at 1. rewrite Hin. cbn in *. lia.
    + apply andb_true_iff in H as [H1%bool_decide_eq_true H2]. cbn in *. unfold get. rewrite H1, Hin. cbn. lia.
  - intros [_ [n Hn]]. unfold get at 1 in Hn. destruct (c !! n) as [v|] eqn:E; cbn in Hn.
    + left; right. exists (n, v). split; [by apply list_elem_of_In, sorted_items_elem|]. cbn. lia.
    + right. unfold get in Hn. destruct (o !! n) as [w|] eqn:Eo; cbn in Hn; [|lia]. exists (n, w).
      split; [by apply list_elem_of_In, sorted_items_elem|]. cbn. rewrite bool_decide_eq_true_2 by done. cbn. lia.
Qed.
End clocks.

(** ** Names *)

Lemma str_bytes_inj s s' : Utf8.str_bytes s = Utf8.str_bytes s' -> s = s'.
Proof.
  unfold Utf8.str_bytes. revert s'. induction s as [|a s IH]; intros [|a' s'] E; try done. cbn in E. injection E as Ea Es.
  f_equal; [|by apply IH]. rewrite <- (Ascii.ascii_N_embedding a), <- (Ascii.ascii_N_embedding a'). f_equal. lia.
Qed.
Lemma decimal_inj a b : 0 <= a -> 0 <= b -> Utf8.decimal a = Utf8.decimal b -> a = b.
Proof. intros Ha Hb E. apply str_bytes_inj in E. apply (inj pretty) in E. lia. Qed.

Lemma hex_digit_back b : 0 <= b < 256 ->
  exists h l, hex_byte b = [h; l] /\ ((high ← to_digit16 h; low ← to_digit16 l; Some (Z.lor (Z.shiftl high 4) low)) = Some b).
Proof.
  intros Hb. assert (forallb (fun b => match hex_byte b with [h; l] =>
    bool_decide ((high ← to_digit16 h; low ← to_digit16 l; Some (Z.lor (Z.shiftl high 4) low)) = Some b) | _ => false end) (seqZ 0 256) = true) as H
    by by vm_compute.
  rewrite forallb_forall in H. eexists _, _. split; [reflexivity|]. eapply bool_decide_eq_true_1, (H b). apply list_elem_of_In, elem_of_seqZ. lia.
Qed.
Lemma hex_cons b h : Hash_to_hex (b :: h) = hex_byte b ++ Hash_to_hex h.
Proof. done. Qed.
Lemma hex_pairs_hex h : Forall (fits 8) h -> hex_pairs (Hash_to_hex h) = Some h.
Proof.
  induction 1 as [|b h Hb Hh IH]; [done|]. destruct (hex_digit_back b) as (x & y & E & Hd); [unfold fits in Hb; lia|].
  rewrite hex_cons, E. cbn [app hex_pairs]. rewrite IH. destruct (to_digit16 x); [|done]. cbn in *. destruct (to_digit16 y); [|done]. cbn in *. congruence.
Qed.
Lemma hex_inj a b : Forall (fits 8) a -> Forall (fits 8) b -> Hash_to_hex a = Hash_to_hex b -> a = b.
Proof. intros Ha Hb E. apply hex_pairs_hex in Ha, Hb. rewrite E in Ha. congruence. Qed.
Lemma hex_length h : length (Hash_to_hex h) = (2 * length h)%nat.
Proof. induction h as [|b h IH]; [done|]. rewrite hex_cons, length_app, IH. cbn. lia. Qed.

Section names.
Context (hash_of : bytes -> Hash).
Context (hash_ok : forall b, Forall (fits 8) (hash_of b) /\ length (hash_of b) = 32%nat).

Lemma version_name_inj a b : version_name (hash_of a) = version_name (hash_of b) -> hash_of a = hash_of b.
Proof. unfold version_name. intros E%app_inv_tail. apply hex_inj; [apply hash_ok..|done]. Qed.

Lemma data_name_inj a b n k : 0 <= n -> 0 <= k -> data_name (hash_of a) n = data_name (hash_of b) k -> n = k.
Proof.
  intros Hn Hk. unfold data_name. intros E%app_inv_head. apply app_inj_1 in E as [_ E].
  - apply app_inv_head, app_inv_tail in E. by apply decimal_inj.
  - destruct (hash_ok a) as [_ Ha], (hash_ok b) as [_ Hb]. rewrite !length_take, !hex_length. lia.
Qed.

End names.

Lemma dash_free v : 0 <= v -> 45 ∉ Utf8.decimal v.
Proof. intros Hv Hin. destruct (Xattr.decimal_digits v Hv) as [Hd _]. rewrite Forall_forall in Hd. specialize (Hd _ Hin). lia. Qed.
Lemma split_at_dash a b c d : 45 ∉ a -> 45 ∉ b -> a ++ 45 :: c = b ++ 45 :: d -> a = b.
Proof.
  revert b. induction a as [|x a IH]; intros [|y b] Ha Hb E; [done| | |].
  - injection E as <- _. exfalso. apply Hb. left.
  - injection E as -> _. exfalso. apply Ha. left.
  - injection E as <- E. f_equal. eapply IH; [| |done]; set_solver.
Qed.
Lemma snapshot_name_epoch e e' r r' : 0 <= e -> 0 <= e' -> snapshot_name e r = snapshot_name e' r' -> e = e'.
Proof.
  intros He He' E%app_inv_head. apply decimal_inj; [done|done|]. eapply split_at_dash; [by apply dash_free..|exact E].
Qed.

(** Up to nine the identifiers are in the order of the epochs. *)
Lemma snapshot_name_lt e e' r r' : 1 <= e -> e < e' -> e' <= 9 -> bytes_lt (snapshot_name e r) (snapshot_name e' r') = true.
Proof.
  intros H1 H2 H3. assert (forallb (fun e => bool_decide (Utf8.decimal e = [48 + e])) (seqZ 1 9) = true) as H by by vm_compute.
  rewrite forallb_forall in H. assert (forall e, 1 <= e <= 9 -> Utf8.decimal e = [48 + e]) as Hd.
  { intros k Hk. apply (bool_decide_eq_true_1 (Utf8.decimal k = [48 + k])), H. apply list_elem_of_In, elem_of_seqZ. lia. }
  unfold snapshot_name. rewrite !Hd by lia. cbn. replace (48 + e <? 48 + e') with true; [done|]. symmetry. apply Z.ltb_lt. lia.
Qed.

(** ** Commit of the staged operations *)

Section runs.
Context (hash_of : bytes -> Hash) (visit : gmap bytes StagedFileOp -> list (bytes * StagedFileOp)).
Context (hash_ok : forall b, Forall (fits 8) (hash_of b) /\ length (hash_of b) = 32%nat).
Context (visit_all : forall m, visit m ≡ₚ map_to_list m).

(** A staged operation whose data is there. *)
Definition op_good (data : gmap (bytes * bytes) bytes) (id : bytes) (last : Z) (o : StagedFileOp) : Prop :=
  match kind o with
  | Write => exists b n, data !! (id, staged_data_rel_path o) = Some b /\ op_hash o = hash_of b /\
      staged_data_rel_path o = data_name (hash_of b) n /\ 0 <= n <= last
  | Delete => True
  | Rename _ => False
  end.
Definition named (vs : gmap bytes bytes) : Prop := forall name b, vs !! name = Some b -> name = version_name (hash_of b).
Definition same_frame (c c' : SnapshotCatalog) : Prop :=
  current_epoch c' = current_epoch c /\ vector_clock c' = vector_clock c /\ snapshots c' = snapshots c /\ tag_to_id c' = tag_to_id c.

(** What an operation leaves at its path. *)
Definition left_by (vs : gmap bytes bytes) (o : StagedFileOp) (r : option FileRevision) : Prop :=
  match kind o with
  | Write => exists rev, r = Some rev /\ is_tombstone rev = false /\ content_ref rev = version_name (op_hash o) /\
      r_hash rev = op_hash o /\ is_Some (vs !! content_ref rev)
  | _ => r = None
  end.

Lemma left_by_mono vs vs' o r : vs ⊆ vs' -> left_by vs o r -> left_by vs' o r.
Proof.
  unfold left_by. destruct (kind o); try done. intros Hs (rev & H1 & H2 & H3 & H4 & [b H5]). exists rev. split_and!; try done.
  exists b. by eapply lookup_weaken.
Qed.

Lemma leave_fresh {K} `{Countable K} (k : K) b n m : m !! k = None -> m ⊆ leave k b n m.
Proof. intros Hk. destruct n; [done|]. by apply insert_subseteq. Qed.

Lemma copy_version_any cf data id o vs : let '(vs', e) := copy_version cf data id o vs in
  vs ⊆ vs' /\ (is_Some e -> exists name, is_Some (cf name)).
Proof.
  unfold copy_version. destruct (data !! _) as [b|]; [|by split; [|intros []]].
  destruct (vs !! _) eqn:E; [by split; [|intros []]|]. destruct (cf _) eqn:Ef; (split; [|by eauto || intros []]).
  - by apply leave_fresh.
  - by apply insert_subseteq.
Qed.

(** Whatever fails, version files are only added, and the catalog is extended by revisions; an error is
    that of a copy. *)
Lemma promote_all_any m data id now cf l c vs fs : let '(vs', r) := promote_all m data id now cf c vs fs l in
  vs ⊆ vs' /\ match r with Ok (c', _) => same_frame c c' | Err _ => exists name, is_Some (cf name) | Panic => False end.
Proof.
  revert c vs fs. induction l as [|[p o] l IH]; intros c vs fs; [done|]. cbn [promote_all]. unfold promote.
  pose proof (copy_version_any cf data id o vs) as Hc. destruct (copy_version cf data id o vs) as [vs1 e]. destruct Hc as [Hs He].
  assert (forall vs2 c2 fs2, vs ⊆ vs2 -> same_frame c c2 -> let '(vs', r) := promote_all m data id now cf c2 vs2 fs2 l in
    vs ⊆ vs' /\ match r with Ok (c', _) => same_frame c c' | Err _ => exists name, is_Some (cf name) | Panic => False end) as Hgo.
  { intros vs2 c2 fs2 H2 (F1 & F2 & F3 & F4). specialize (IH c2 vs2 fs2). destruct (promote_all _ _ _ _ _ c2 vs2 fs2 l) as [vs' r].
    destruct IH as [I1 I2]. split; [by etransitivity|]. destruct r as [[c' ?]| |]; [|done..]. destruct I2 as (? & ? & ? & ?). split_and!; congruence. }
  destruct (kind o); [destruct e; [by split; eauto|]|..|destruct e; [by split; eauto|]]; by apply Hgo.
Qed.

(** No copy leaves a part of a file. *)
Definition calm (cf : bytes -> option fault) : Prop := forall name f, cf name = Some f -> remains f = 0%nat.

Lemma copy_version_good cf data id last o vs : calm cf -> op_good data id last o -> kind o = Write -> named vs ->
  let '(vs', e) := copy_version cf data id o vs in
  named vs' /\ (forall name b, vs' !! name = Some b -> vs !! name = Some b \/ exists k, data !! k = Some b) /\
  (e = None -> is_Some (vs' !! version_name (op_hash o))).
Proof.
  intros Hcf Ho Hk Hn. unfold op_good in Ho. rewrite Hk in Ho. destruct Ho as (b & n & E1 & E2 & _). unfold copy_version. rewrite E1.
  destruct (vs !! version_name (op_hash o)) as [b'|] eqn:Ev; [split_and!; eauto|].
  destruct (cf _) as [f|] eqn:Ef; [rewrite (Hcf _ _ Ef); by split_and!; auto|].
  split_and!; [| |intros _; by rewrite lookup_insert_eq]; intros name x;
    (destruct (decide (name = version_name (op_hash o))) as [->|Hne]; [rewrite lookup_insert_eq; intros [= <-]|rewrite lookup_insert_ne by done]);
    [congruence|apply Hn|eauto|auto].
Qed.

Lemma promote_all_good m data id now cf last l c vs fs : calm cf -> NoDup l.*1 -> Forall (fun x => op_good data id last x.2) l -> named vs ->
  let '(vs', r) := promote_all m data id now cf c vs fs l in
  named vs' /\ (forall name b, vs' !! name = Some b -> vs !! name = Some b \/ exists k, data !! k = Some b) /\
  match r with
  | Ok (_, fs') => forall p, match (list_to_map l : gmap bytes StagedFileOp) !! p with Some o => left_by vs' o (fs' !! p) | None => fs' !! p = fs !! p end
  | _ => True
  end.
Proof.
  intros Hcf. revert c vs fs. induction l as [|[p o] l IH]; intros c vs fs Hnd Hl Hn; [by cbn; split_and!; auto|].
  cbn in Hnd. apply NoDup_cons in Hnd as [Hp Hnd]. apply Forall_cons in Hl as [Ho Hl]. cbn [snd] in Ho. cbn [promote_all].
  assert (exists vs1 r1, promote m data id now cf c vs fs (p, o) = (vs1, r1) /\ named vs1 /\
    (forall name b, vs1 !! name = Some b -> vs !! name = Some b \/ exists k, data !! k = Some b) /\
    match r1 with Ok (_, fs1) => left_by vs1 o (fs1 !! p) /\ forall q, q <> p -> fs1 !! q = fs !! q | _ => True end) as (vs1 & r1 & -> & N1 & F1 & L1).
  { unfold promote, left_by. destruct (kind o) as [| |old] eqn:Ek; [| |by unfold op_good in Ho; rewrite Ek in Ho].
    - pose proof (copy_version_good cf data id last o vs Hcf Ho Ek Hn) as Hc. destruct (copy_version cf data id o vs) as [vs1 [e|]].
      + destruct Hc as (C1 & C2 & _). by do 2 eexists.
      + destruct Hc as (C1 & C2 & C3). do 2 eexists. split; [done|]. split; [done|]. split; [done|]. cbn.
        split; [|by intros q Hq; rewrite lookup_insert_ne]. rewrite lookup_insert_eq. eexists. split_and!; try done. by apply C3.
    - do 2 eexists. split; [done|]. split_and!; [done|auto|apply lookup_delete_eq|]. intros q Hq. by rewrite lookup_delete_ne. }
  destruct r1 as [[c1 fs1]| |]; [|done..]. destruct L1 as [L1 Q1]. specialize (IH c1 vs1 fs1 Hnd Hl N1).
  pose proof (promote_all_any m data id now cf l c1 vs1 fs1) as Hany.
  destruct (promote_all _ _ _ _ _ c1 vs1 fs1 l) as [vs' r]. destruct IH as (N2 & F2 & P2), Hany as [V2 _].
  split; [done|]. split; [intros name b Hb; destruct (F2 name b Hb) as [H|H]; [by apply F1|by right]|].
  destruct r as [[c' fs']| |]; [|done..]. intros q. specialize (P2 q). cbn [list_to_map foldr uncurry]. destruct (decide (q = p)) as [->|Hne].
  - rewrite lookup_insert_eq. rewrite (not_elem_of_list_to_map_1 l p Hp) in P2. rewrite P2. by eapply left_by_mono.
  - rewrite lookup_insert_ne by done. destruct (list_to_map l !! q); [done|]. rewrite P2. by apply Q1.
Qed.

(** ** The invariant *)

Definition files_good (vs : gmap bytes bytes) (fs : gmap bytes FileRevision) : Prop := forall p rev, fs !! p = Some rev ->
  is_tombstone rev = false /\ content_ref rev = version_name (r_hash rev) /\ exists b, vs !! content_ref rev = Some b /\ hash_of b = r_hash rev.

(** The bound on the clocks: what votes may bring, and a tick per step. *)
Definition limit (n : Z) : Z := 2 ^ 62 + n.

Record snap_good (n : Z) (c : SnapshotCatalog) (id : bytes) (m : GlobalSnapshotManifest) : Prop := {
  sg_id : id = snapshot_name (epoch m) (merkle_root m);
  sg_epoch : 1 <= epoch m <= current_epoch c;
  sg_clock : clock_le (limit n) (m_vector_clock m);
  sg_past : forall k, TxVectorClock.get (m_vector_clock m) k <= TxVectorClock.get (vector_clock c) k }.

(** What holds of the catalog whatever fails. *)
Record cat_inv (n : Z) (c : SnapshotCatalog) : Prop := {
  ci_n : 0 <= n < 2 ^ 62;
  ci_clock : clock_le (limit n) (vector_clock c);
  ci_epoch : 0 <= current_epoch c <= n;
  ci_snaps : forall id m, snapshots c !! id = Some m -> snap_good n c id m;
  ci_epochs : forall e, 1 <= e <= current_epoch c -> exists id m, snapshots c !! id = Some m /\ epoch m = e;
  ci_order : forall id m id' m', snapshots c !! id = Some m -> snapshots c !! id' = Some m' ->
    (epoch m = epoch m' -> id = id') /\
    (epoch m < epoch m' -> TxVectorClock.is_causally_before (m_vector_clock m) (m_vector_clock m') = true) }.

(** Version files have the names of their contents, and those of snapshots are there. *)
Definition contents (c : SnapshotCatalog) (vs : gmap bytes bytes) : Prop :=
  named vs /\ forall id m, snapshots c !! id = Some m -> files_good vs (files m).

Definition metas_inv (last : Z) (ms : gmap bytes ActiveTxMeta) (data : gmap (bytes * bytes) bytes) : Prop := forall id m, ms !! id = Some m ->
  tx_id m = id /\ forall p o, staged_ops m !! p = Some o -> path o = p /\ op_good data id last o.

Lemma clock_le_mono b b' c : b <= b' -> clock_le b c -> clock_le b' c.
Proof. intros Hb Hc n v Hv. specialize (Hc n v Hv). lia. Qed.
Lemma files_good_mono vs vs' fs : vs ⊆ vs' -> files_good vs fs -> files_good vs' fs.
Proof.
  intros Hs Hf p rev Hp. destruct (Hf p rev Hp) as (H1 & H2 & b & H3 & H4). split_and!; try done. exists b. split; [|done]. by eapply lookup_weaken.
Qed.

(** The clock after the votes and the tick. *)
Definition voted (clock : TxVectorClock.t) (votes : list TwoPhaseVote) : TxVectorClock.t :=
  foldl (fun k v => TxVectorClock.update_max k (v_vector_clock v)) clock votes.
Definition votes_ok (votes : list TwoPhaseVote) : Prop := Forall (fun v => clock_le (2 ^ 62) (v_vector_clock v)) votes.

Lemma voted_le n clock votes : 0 <= n -> clock_le (limit n) clock -> votes_ok votes -> clock_le (limit n) (voted clock votes) /\
  (forall k, TxVectorClock.get clock k <= TxVectorClock.get (voted clock votes) k) /\
  Forall (fun v => forall k, TxVectorClock.get (v_vector_clock v) k <= TxVectorClock.get (voted clock votes) k) votes.
Proof.
  intros Hn. revert clock. induction votes as [|v votes IH]; intros clock Hc Hv; [by cbn; split_and!|]. apply Forall_cons in Hv as [Hv Hvs].
  assert (clock_le (limit n) (v_vector_clock v)) as Hv' by (eapply clock_le_mono; [|done]; unfold limit; lia).
  destruct (IH (TxVectorClock.update_max clock (v_vector_clock v))) as (H1 & H2 & H3); [by apply update_max_le|done|]. cbn [voted foldl].
  split; [done|]. split; [|constructor; [|done]]; intros k; (etransitivity; [|apply H2]);
    [by eapply update_max_left|by eapply update_max_right].
Qed.

Lemma tick_spec n clock node : 0 <= n < 2 ^ 62 -> clock_le (limit n) clock ->
  let clock' := (TxVectorClock.increment clock node).1 in
  clock_le (limit (n + 1)) clock' /\ (forall k, TxVectorClock.get clock k <= TxVectorClock.get clock' k) /\
  TxVectorClock.get clock node < TxVectorClock.get clock' node.
Proof.
  intros Hn Hc. cbn. assert (0 <= TxVectorClock.get clock node <= limit n) as Hb by (apply get_bound; [unfold limit; lia|done]).
  rewrite wrap_small by (unfold fits, limit in *; lia). unfold limit in *. split_and!.
  - intros k v. destruct (decide (k = node)) as [->|Hne]; [rewrite lookup_insert_eq; intros [= <-]; lia|].
    rewrite lookup_insert_ne by done. intros Hk. specialize (Hc k v Hk). lia.
  - intros k. unfold TxVectorClock.get at 2. destruct (decide (k = node)) as [->|Hne]; [rewrite lookup_insert_eq; cbn; lia|].
    by rewrite lookup_insert_ne.
  - unfold TxVectorClock.get at 2. rewrite lookup_insert_eq. cbn. lia.
Qed.

(** ** What a commit does *)

(** What a commit changes in the catalog, whatever its calls do. *)
Record commit_core (s s' : TxSnapshotEngine) (votes : list TwoPhaseVote) (snap : GlobalSnapshotManifest) : Prop := {
  cp_epoch : epoch snap = wrap 64 (current_epoch (catalog s) + 1);
  cp_id : snapshot_id snap = snapshot_name (epoch snap) (merkle_root snap);
  cp_clock : m_vector_clock snap = (TxVectorClock.increment (voted (vector_clock (catalog s)) votes) (node_id s)).1;
  cp_cat_epoch : current_epoch (catalog s') = epoch snap;
  cp_cat_clock : vector_clock (catalog s') = m_vector_clock snap;
  cp_snaps : snapshots (catalog s') = <[snapshot_id snap := snap]> (snapshots (catalog s)) }.
(** The version files after a commit, and the files of its snapshot. *)
Definition good_versions (s s' : TxSnapshotEngine) : Prop := versions s ⊆ versions s' /\ named (versions s') /\
  forall name b, versions s' !! name = Some b -> versions s !! name = Some b \/ exists k, staged s !! k = Some b.
Definition commit_files (s s' : TxSnapshotEngine) (m : ActiveTxMeta) (snap : GlobalSnapshotManifest) : Prop := forall p,
  match staged_ops m !! p with Some o => left_by (versions s') o (files snap !! p) | None => files snap !! p = baseline (catalog s) !! p end.

Lemma visit_map m : list_to_map (visit m) = m.
Proof. rewrite (list_to_map_proper (visit m) (map_to_list m)); [apply list_to_map_to_list|rewrite visit_all; apply NoDup_fst_map_to_list|apply visit_all]. Qed.

Definition not_ok {A} (r : outcome bytes A) : Prop := match r with Ok _ => False | _ => True end.
Definition faulty (env : commit_env) : Prop :=
  (exists name, is_Some (copy_fault env name)) \/ is_Some (manifest_fault env) \/ is_Some (catalog_fault env).

(** The ways a commit ends: refused, aborted by a vote, failed in a call, published. *)
Inductive commit_case (s : TxSnapshotEngine) (id : bytes) (votes : list TwoPhaseVote) (env : commit_env)
    (s' : TxSnapshotEngine) : outcome bytes GlobalSnapshotManifest -> Prop :=
  | CRefused r : not_ok r -> (forall m, metas s !! id = Some m -> state m <> Prepared) -> s' = s -> commit_case s id votes env s' r
  | CAborted m r : not_ok r -> metas s !! id = Some m -> state m = Prepared -> is_Some (first_abort votes) ->
      s' = abort_tx s id (gone env) -> commit_case s id votes env s' r
  | CFailed m r : not_ok r -> metas s !! id = Some m -> state m = Prepared -> first_abort votes = None -> faulty env ->
      versions s ⊆ versions s' ->
      (forall last, calm (copy_fault env) -> metas_inv last (metas s) (staged s) -> named (versions s) -> good_versions s s') ->
      catalog s' = catalog s -> metas s' = metas s -> staged s' = staged s -> commit_case s id votes env s' r
  | CDone m snap : metas s !! id = Some m -> state m = Prepared -> first_abort votes = None ->
      versions s ⊆ versions s' -> commit_core s s' votes snap ->
      (forall last, calm (copy_fault env) -> metas_inv last (metas s) (staged s) -> named (versions s) ->
        good_versions s s' /\ commit_files s s' m snap) ->
      metas s' = (let ms := if meta_saved env then <[tx_id m := with_state m Committed]> (metas s) else metas s in
                  if gone env META then delete id ms else ms) ->
      staged s' = filter (fun x => x.1.1 <> id \/ gone env x.1.2 = false) (staged s) -> commit_case s id votes env s' (Ok snap).

Lemma remove_dir_fields x id gn : catalog (remove_tx_dir x id gn) = catalog x /\ versions (remove_tx_dir x id gn) = versions x /\
  metas (remove_tx_dir x id gn) = (if gn META then delete id (metas x) else metas x) /\
  staged (remove_tx_dir x id gn) = filter (fun y => y.1.1 <> id \/ gn y.1.2 = false) (staged x).
Proof. unfold remove_tx_dir. by destruct (gn META). Qed.

Lemma commit_cases s id votes tg now env : let '(s', r) := commit_2pc hash_of visit s id votes tg now env in commit_case s id votes env s' r.
Proof.
  unfold commit_2pc, load_tx_meta. destruct (metas s !! id) as [m|] eqn:Em; [|by apply CRefused; [|congruence|]].
  destruct (bool_decide (state m = Prepared)) eqn:Es; cbn [negb].
  2: { apply bool_decide_eq_false in Es. apply CRefused; [done| |done]. intros m' Hm'. congruence. }
  apply bool_decide_eq_true in Es. destruct (first_abort votes) as [[? ?]|] eqn:Ea; [by eapply CAborted; [| | |rewrite Ea; eauto|]|].
  cbv zeta. match goal with |- context [promote_all m (staged s) id now (copy_fault env) ?c ?vs ?fs ?l] =>
    pose proof (promote_all_any m (staged s) id now (copy_fault env) l c vs fs) as Hany;
    pose proof (fun last Hcf => promote_all_good m (staged s) id now (copy_fault env) last l c vs fs Hcf) as Hgood;
    destruct (promote_all m (staged s) id now (copy_fault env) c vs fs l) as [vs' pr] end.
  destruct Hany as [V1 Hpr].
  assert (forall last, calm (copy_fault env) -> metas_inv last (metas s) (staged s) -> named (versions s) ->
    named vs' /\ (forall name b, vs' !! name = Some b -> versions s !! name = Some b \/ exists k, staged s !! k = Some b) /\
    match pr with
    | Ok (_, fs') => forall p, match staged_ops m !! p with Some o => left_by vs' o (fs' !! p) | None => fs' !! p = baseline (catalog s) !! p end
    | _ => True
    end) as Hgood'.
  { intros last Hcf Hm Hn. specialize (Hgood last Hcf). rewrite visit_map in Hgood. apply Hgood; [| |done].
    - rewrite visit_all. apply NoDup_fst_map_to_list.
    - apply Forall_forall. intros [p o] Hin. rewrite visit_all in Hin. apply elem_of_map_to_list in Hin. cbn. by eapply Hm. }
  clear Hgood. destruct pr as [[c' fs']|e|]; [| |done].
  2: { apply CFailed with m; try done; [by left|]. intros last Hcf Hm Hn. by destruct (Hgood' last Hcf Hm Hn) as (? & ? & _). }
  destruct Hpr as (S1 & S2 & S3 & S4). cbn in S1, S2, S3, S4.
  destruct (manifest_fault env) as [e|] eqn:Emf.
  { apply CFailed with m; try done; [right; left; rewrite Emf; eauto|]. intros last Hcf Hm Hn. by destruct (Hgood' last Hcf Hm Hn) as (? & ? & _). }
  destruct (catalog_fault env) as [e|] eqn:Ecf.
  { apply CFailed with m; try done; [right; right; rewrite Ecf; eauto|]. intros last Hcf Hm Hn. by destruct (Hgood' last Hcf Hm Hn) as (? & ? & _). }
  match goal with |- commit_case _ _ _ _ ?x (Ok ?y) => set (s' := x); set (snap := y) end.
  assert (catalog s' = mkCatalog (current_epoch c') (vector_clock c') (<[snapshot_id snap := snap]> (snapshots c')) (<[tag snap := snapshot_id snap]> (tag_to_id c'))
      (file_revisions c') /\ versions s' = vs') as [Ec Ev].
  { unfold s', remove_tx_dir. by destruct (meta_saved env), (gone env META). }
  apply CDone with m; [done|done|done|by rewrite Ev| | | |].
  - split; rewrite ?Ec; cbn [current_epoch vector_clock snapshots]; [exact S1|done|exact S2|done|done|by rewrite S3].
  - intros last Hcf Hm Hn. destruct (Hgood' last Hcf Hm Hn) as (? & ? & ?). unfold good_versions, commit_files. by rewrite Ev.
  - unfold s', remove_tx_dir. by destruct (meta_saved env), (gone env META).
  - unfold s', remove_tx_dir. by destruct (meta_saved env), (gone env META).
Qed.

Lemma baseline_good c vs : contents c vs -> files_good vs (baseline c).
Proof.
  intros H. unfold baseline. destruct (last (sorted_items (snapshots c))) as [[id m]|] eqn:E; [|by intros p rev Hp].
  apply last_Some_elem_of, sorted_items_elem in E. by eapply H.
Qed.

Lemma commit_cat_inv n s s' votes snap : cat_inv n (catalog s) -> n + 1 < 2 ^ 62 -> votes_ok votes -> commit_core s s' votes snap ->
  cat_inv (n + 1) (catalog s') /\ snapshots (catalog s) !! snapshot_id snap = None.
Proof.
  intros [Hn0 Hclk Hep Hsn Heps Hord] Hn Hv [E1 E2 E3 E4 E5 E6]. rewrite wrap_small in E1 by (unfold fits; lia).
  destruct (voted_le n (vector_clock (catalog s)) votes) as (V1 & V2 & _); [lia|done|done|].
  destruct (tick_spec n (voted (vector_clock (catalog s)) votes) (node_id s)) as (T1 & T2 & T3); [lia|done|]. rewrite <- E3 in T1, T2, T3.
  assert (forall id' m', snapshots (catalog s) !! id' = Some m' -> TxVectorClock.is_causally_before (m_vector_clock m') (m_vector_clock snap) = true) as Hbefore.
  { intros id' m' Hm'. destruct (Hsn _ _ Hm') as [_ _ Hc Hp]. eapply before_spec; [done|done|]. split.
    - intros k. etransitivity; [apply Hp|]. etransitivity; [apply V2|apply T2].
    - exists (node_id s). eapply Z.le_lt_trans; [apply Hp|]. eapply Z.le_lt_trans; [apply V2|apply T3]. }
  split; [split; [lia|by rewrite E5|rewrite E4; lia| | |]|].
  - intros id' m'. rewrite E6. destruct (decide (id' = snapshot_id snap)) as [->|Hne].
    + rewrite lookup_insert_eq. intros [= <-]. split; [done|rewrite E4; lia|done|by rewrite E5].
    + rewrite lookup_insert_ne by done. intros Hm'. destruct (Hsn _ _ Hm') as [G1 G2 G3 G4]. split; [done|rewrite E4; lia| |].
      * eapply clock_le_mono; [|done]. unfold limit. lia.
      * intros k. rewrite E5. etransitivity; [apply G4|]. etransitivity; [apply V2|apply T2].
  - intros e He. rewrite E4 in He. rewrite E6. destruct (decide (e = epoch snap)) as [->|Hne].
    + exists (snapshot_id snap), snap. by rewrite lookup_insert_eq.
    + destruct (Heps e) as (id' & m' & Hm' & He'); [lia|]. exists id', m'. split; [|done]. rewrite lookup_insert_ne; [done|].
      intros <-. destruct (Hsn _ _ Hm') as [G1 G2 _ _]. rewrite E2 in G1. apply snapshot_name_epoch in G1; lia.
  - intros id1 m1 id2 m2. rewrite E6. destruct (decide (id1 = snapshot_id snap)) as [->|N1], (decide (id2 = snapshot_id snap)) as [->|N2];
      rewrite ?lookup_insert_eq, ?lookup_insert_ne by done.
    + intros [= <-] [= <-]. split; [done|lia].
    + intros [= <-] H2. destruct (Hsn _ _ H2) as [_ G2 _ _]. split; lia.
    + intros H1 [= <-]. destruct (Hsn _ _ H1) as [_ G2 _ _]. split; [lia|]. intros _. by eapply Hbefore.
    + apply Hord.
  - destruct (snapshots (catalog s) !! snapshot_id snap) as [m'|] eqn:Em'; [|done]. destruct (Hsn _ _ Em') as [Hid [He1 He2] _ _].
    rewrite E2 in Hid. apply snapshot_name_epoch in Hid; lia.
Qed.

Lemma commit_contents last s s' m id votes snap : contents (catalog s) (versions s) -> metas_inv last (metas s) (staged s) ->
  metas s !! id = Some m -> commit_core s s' votes snap -> good_versions s s' -> commit_files s s' m snap ->
  contents (catalog s') (versions s').
Proof.
  intros Hc Hms Hm P (V1 & V2 & _) Hf. pose proof (baseline_good _ _ Hc) as Hbase. split; [done|]. rewrite (cp_snaps _ _ _ _ P). intros id' m'.
  destruct (decide (id' = snapshot_id snap)) as [->|Hne].
  2: { rewrite lookup_insert_ne by done. intros Hm'. eapply files_good_mono; [done|]. by eapply Hc. }
  rewrite lookup_insert_eq. intros [= <-] p rev Hp. specialize (Hf p). destruct (staged_ops m !! p) as [o|] eqn:Eo.
  - destruct (proj2 (Hms _ _ Hm) p o Eo) as [_ Ho]. unfold left_by, op_good in *. destruct (kind o); [|congruence..].
    destruct Hf as (rev' & R1 & R2 & R3 & R4 & [b R5]), Ho as (b0 & k & _ & O2 & _). rewrite R1 in Hp. injection Hp as <-.
    split; [done|]. split; [congruence|]. exists b. split; [done|]. apply V2 in R5. rewrite R4, O2. apply version_name_inj; [done|]. congruence.
  - rewrite Hf in Hp. by eapply files_good_mono.
Qed.

(** ** Runs *)

Inductive op :=
  | OBegin (author : option bytes) (now_secs now_nanos : Z)
  | OStage (id p data : bytes) (base : option Z) (now_nanos : Z) (data_fault : option fault) (meta_fault : option bytes)
  | ODelete (id p : bytes) (base : option Z)
  | OPrepare (id : bytes) (ps : list bytes)
  | OCommit (id : bytes) (votes : list TwoPhaseVote) (tg : option bytes) (now_secs : Z) (env : commit_env)
  | OAbort (id : bytes) (gone : bytes -> bool).

Definition apply_op (s : TxSnapshotEngine) (o : op) : TxSnapshotEngine :=
  match o with
  | OBegin author secs nanos => (begin_tx hash_of s author secs nanos).1
  | OStage id p data base nanos df mf => (stage_file hash_of s id p data base nanos df mf).1
  | ODelete id p base => match stage_delete s id p base with Ok (s', _) => s' | _ => s end
  | OPrepare id ps => (prepare_2pc hash_of visit s id ps).1
  | OCommit id votes tg secs env => (commit_2pc hash_of visit s id votes tg secs env).1
  | OAbort id gn => abort_tx s id gn
  end.
Definition run (s : TxSnapshotEngine) (l : list op) : TxSnapshotEngine := foldl apply_op s l.

(** Contents are staged at increasing times, and votes carry clocks that are not near the end of their
    range. *)
Fixpoint ops_ok (last : Z) (l : list op) : Prop :=
  match l with
  | [] => True
  | OStage _ _ _ _ nanos _ _ :: l => 0 <= nanos /\ last < nanos /\ ops_ok nanos l
  | OCommit _ votes _ _ _ :: l => votes_ok votes /\ ops_ok last l
  | _ :: l => ops_ok last l
  end.

(** Failures that do no harm: a copy that fails leaves nothing, and a removal that fails has removed the
    metadata, or nothing. *)
Definition tame_removal (gn : bytes -> bool) : Prop := gn META = true \/ forall name, gn name = false.
Definition tame (o : op) : Prop :=
  match o with
  | OCommit _ _ _ _ env => calm (copy_fault env) /\ tame_removal (gone env)
  | OAbort _ gn => tame_removal gn
  | _ => True
  end.

Lemma op_good_mono data id last last' o : last <= last' -> op_good data id last o -> op_good data id last' o.
Proof. intros Hl. unfold op_good. destruct (kind o); try done. intros (b & n & H1 & H2 & H3 & H4). exists b, n. split_and!; try done; lia. Qed.
Lemma metas_mono last last' ms data : last <= last' -> metas_inv last ms data -> metas_inv last' ms data.
Proof. intros Hl H id m Hm. destruct (H id m Hm) as [H1 H2]. split; [done|]. intros p o Ho. destruct (H2 p o Ho). split; [done|]. by eapply op_good_mono. Qed.
Lemma metas_same last ms data id m m' : metas_inv last ms data -> ms !! id = Some m -> tx_id m' = id -> staged_ops m' = staged_ops m ->
  metas_inv last (<[id := m']> ms) data.
Proof.
  intros H Hm Ht Ho k x. destruct (decide (k = id)) as [->|Hne]; [rewrite lookup_insert_eq; intros [= <-]|rewrite lookup_insert_ne by done; apply H].
  split; [done|]. rewrite Ho. by apply H.
Qed.
(** What a removal leaves. *)
Definition metas_after (gn : bytes -> bool) (id : bytes) (ms : gmap bytes ActiveTxMeta) : gmap bytes ActiveTxMeta :=
  if gn META then delete id ms else ms.
Definition data_after (gn : bytes -> bool) (id : bytes) (data : gmap (bytes * bytes) bytes) : gmap (bytes * bytes) bytes :=
  filter (fun x => x.1.1 <> id \/ gn x.1.2 = false) data.

Lemma data_after_keep gn id data k : tame_removal gn -> k.1 <> id \/ gn META = false -> data_after gn id data !! k = data !! k.
Proof.
  intros Ht Hk. unfold data_after. destruct (data !! k) as [b|] eqn:E; [|apply map_lookup_filter_None; by left].
  apply map_lookup_filter_Some. split; [done|]. cbn. destruct Hk as [?|Hk]; [by left|]. right. destruct Ht as [Ht|Ht]; [congruence|apply Ht].
Qed.
Lemma metas_after_lookup gn id ms k m : metas_after gn id ms !! k = Some m -> ms !! k = Some m /\ (k <> id \/ gn META = false).
Proof. unfold metas_after. destruct (gn META); [intros [? ?]%lookup_delete_Some; auto|auto]. Qed.

Lemma metas_remove last ms data id gn : tame_removal gn -> metas_inv last ms data -> metas_inv last (metas_after gn id ms) (data_after gn id data).
Proof.
  intros Ht H k m [Hm Hk]%metas_after_lookup. destruct (H k m Hm) as [H1 H2]. split; [done|]. intros p o Ho. destruct (H2 p o Ho) as [H3 H4].
  split; [done|]. unfold op_good in *. destruct (kind o); try done. destruct H4 as (b & n & D1 & D2). exists b, n. split; [|done].
  by rewrite data_after_keep.
Qed.
(** Staging an operation whose data is new. *)
Lemma metas_stage last nanos ms data id m p o data' : last <= nanos -> metas_inv last ms data -> ms !! id = Some m -> path o = p ->
  op_good data' id nanos o -> (forall id' k b x, 0 <= k <= last -> data !! (id', data_name (hash_of x) k) = Some b -> data' !! (id', data_name (hash_of x) k) = Some b) ->
  metas_inv nanos (<[id := with_ops m (<[p := o]> (staged_ops m))]> ms) data'.
Proof.
  intros Hl H Hm Hp Ho Hd. assert (forall id' o', op_good data id' last o' -> op_good data' id' nanos o') as Hk.
  { intros id' o' Ho'. unfold op_good in *. destruct (kind o'); try done. destruct Ho' as (b & k & D1 & D2 & D3 & D4). exists b, k.
    split_and!; [|done|done|lia|lia]. rewrite D3 in *. by apply Hd. }
  intros k x. destruct (decide (k = id)) as [->|Hne]; [rewrite lookup_insert_eq; intros [= <-]|rewrite lookup_insert_ne by done; intros Hx].
  - split; [exact (proj1 (H _ _ Hm))|]. intros q o'. cbn. destruct (decide (q = p)) as [->|Hq]; [rewrite lookup_insert_eq; intros [= <-]; done|].
    rewrite lookup_insert_ne by done. intros Ho'. destruct (proj2 (H _ _ Hm) q o' Ho'). auto.
  - split; [exact (proj1 (H _ _ Hx))|]. intros q o' Ho'. destruct (proj2 (H _ _ Hx) q o' Ho'). auto.
Qed.

(** The engine when all failures are tame. *)
Definition inv (n last : Z) (s : TxSnapshotEngine) : Prop :=
  cat_inv n (catalog s) /\ contents (catalog s) (versions s) /\ metas_inv last (metas s) (staged s).

Lemma require_active_ok s what id m : require_active s what id = Ok m -> metas s !! id = Some m /\ state m = Active.
Proof.
  unfold require_active, load_tx_meta. destruct (metas s !! id) as [m'|]; [|done]. cbn [obind]. destruct (bool_decide (state m' = Active)) eqn:E; [|done].
  apply bool_decide_eq_true in E. intros [= <-]. done.
Qed.
Lemma require_active_no s what id : not_ok (require_active s what id) -> forall m, metas s !! id = Some m -> state m <> Active.
Proof.
  unfold require_active, load_tx_meta. intros H m Hm. rewrite Hm in H. cbn in H. destruct (bool_decide (state m = Active)) eqn:E; [done|].
  by apply bool_decide_eq_false in E.
Qed.

(** The ways staging ends: the data file is new or not written, and the operation is recorded on success. *)
Lemma stage_file_cases s id p data base nanos df mf : let '(s', r) := stage_file hash_of s id p data base nanos df mf in
  let name := data_name (hash_of data) nanos in
  catalog s' = catalog s /\ versions s' = versions s /\
  match r with
  | Ok o => exists m, metas s !! id = Some m /\ state m = Active /\ df = None /\ mf = None /\
      o = mkOp (trim_slashes p) Write (zlen data) (hash_of data) name base /\
      s' = save_tx_meta (set_staged s <[(id, name) := data]>) (with_ops m (<[trim_slashes p := o]> (staged_ops m)))
  | _ => metas s' = metas s /\ (forall k, k <> (id, name) -> staged s' !! k = staged s !! k) /\
      (forall m, metas s !! id = Some m -> state m = Active -> is_Some df \/ is_Some mf)
  end.
Proof.
  unfold stage_file. destruct (require_active _ _ _) as [m|e|] eqn:E.
  2-3: split_and!; try done; intros m Hm Ha; exfalso; eapply (require_active_no s (lit "stage files") id); [by rewrite E|done|done].
  apply require_active_ok in E as [E Ha]. destruct df as [f|]; [|destruct mf as [e|]].
  - split_and!; try done; [|by eauto]. intros k Hk. unfold set_staged, leave. cbn [staged]. destruct (remains f); [done|]. by rewrite lookup_insert_ne.
  - split_and!; try done; [|by eauto]. intros k Hk. unfold set_staged. cbn [staged]. by rewrite lookup_insert_ne.
  - split; [done|]. split; [done|]. exists m. done.
Qed.
Lemma stage_delete_ok s id p base s' o : stage_delete s id p base = Ok (s', o) ->
  exists m, metas s !! id = Some m /\ state m = Active /\ o = mkOp (trim_slashes p) Delete 0 Hash_ZERO [] base /\
    s' = save_tx_meta s (with_ops m (<[trim_slashes p := o]> (staged_ops m))).
Proof.
  unfold stage_delete. destruct (require_active _ _ _) as [m| |] eqn:E; try done. cbn [obind]. intros [= <- <-].
  apply require_active_ok in E as [E ?]. eauto.
Qed.

(** Data files with other times are other files. *)
Lemma other_time (id id' : bytes) x y k nanos : 0 <= k <= nanos - 1 -> (id, data_name (hash_of x) k) <> (id', data_name (hash_of y) nanos).
Proof. intros Hk [_ E]%pair_equal_spec. apply data_name_inj in E; [lia|done|lia|lia]. Qed.

Lemma metas_new_data last nanos ms data data' : last < nanos ->
  (forall k, (forall id x, k <> (id, data_name (hash_of x) nanos)) -> data' !! k = data !! k) -> metas_inv last ms data -> metas_inv nanos ms data'.
Proof.
  intros Hl Hd H id m Hm. destruct (H id m Hm) as [H1 H2]. split; [done|]. intros p o Ho. destruct (H2 p o Ho) as [H3 H4]. split; [done|].
  unfold op_good in *. destruct (kind o); try done. destruct H4 as (b & k & D1 & D2 & D3 & D4). exists b, k. split_and!; [|done|done|lia|lia].
  rewrite Hd; [done|]. intros id' x. rewrite D3. apply other_time. lia.
Qed.

Lemma inv_stage n last s id p data base nanos df mf : inv n last s -> 0 <= nanos -> last < nanos ->
  inv n nanos (stage_file hash_of s id p data base nanos df mf).1.
Proof.
  intros (Hc & Hv & Hm) Hn0 Hn. pose proof (stage_file_cases s id p data base nanos df mf) as H.
  destruct (stage_file hash_of s id p data base nanos df mf) as [s' r]. cbn [fst]. destruct H as (E1 & E2 & H). unfold inv. rewrite E1, E2.
  split; [done|]. split; [done|].
  assert (not_ok r -> metas_inv nanos (metas s') (staged s')) as Hno.
  { destruct r; [done|..]; intros _; destruct H as (-> & Hs & _); (eapply metas_new_data; [exact Hn| |exact Hm]; intros k Hk; apply Hs, Hk). }
  destruct r as [o|e|]; [|by apply Hno..]. destruct H as (m & Em & _ & _ & _ & -> & ->). unfold save_tx_meta, set_staged, set_metas. cbn [metas staged].
  destruct (Hm _ _ Em) as [Ht _]. change (tx_id (with_ops ?a ?b)) with (tx_id a). rewrite Ht. eapply (metas_stage last); [lia|done|done|done| |].
  - exists data, nanos. rewrite lookup_insert_eq. split_and!; try done; lia.
  - intros id' k b x Hk Hb. rewrite lookup_insert_ne; [done|]. intros E. by eapply other_time, eq_sym, E; lia.
Qed.
Lemma inv_delete n last s id p base s' o : inv n last s -> stage_delete s id p base = Ok (s', o) -> inv n last s'.
Proof.
  intros (Hc & Hv & Hm) (m & Em & _ & -> & ->)%stage_delete_ok. split; [done|]. split; [done|]. cbn.
  destruct (Hm _ _ Em) as [Ht _]. rewrite Ht. eapply (metas_stage last last); [lia|done|done|done|done|auto].
Qed.

Lemma abort_fields s id gn : let s' := abort_tx s id gn in catalog s' = catalog s /\ versions s' = versions s /\
  (metas s !! id = None /\ metas s' = metas s /\ staged s' = staged s \/
   metas s' = metas_after gn id (metas s) /\ staged s' = data_after gn id (staged s)).
Proof.
  unfold abort_tx. destruct (metas s !! id) eqn:E; [|by split_and!; auto]. destruct (remove_dir_fields s id gn) as (F1 & F2 & F3 & F4).
  split_and!; [exact F1|exact F2|]. right. split; [exact F3|exact F4].
Qed.
Lemma inv_abort n last s id gn : tame_removal gn -> inv n last s -> inv n last (abort_tx s id gn).
Proof.
  intros Ht (Hc & Hv & Hm). destruct (abort_fields s id gn) as (E1 & E2 & E3). unfold inv. rewrite E1, E2. split; [done|]. split; [done|].
  destruct E3 as [(_ & -> & ->)|(-> & ->)]; [done|by apply metas_remove].
Qed.

Lemma inv_begin n last s author secs nanos : inv n last s -> inv n last (begin_tx hash_of s author secs nanos).1.
Proof.
  intros (Hc & Hv & Hm). split; [done|]. split; [done|]. cbn. intros k x. match goal with |- <[?i := _]> _ !! _ = _ -> _ => destruct (decide (k = i)) as [->|Hne] end.
  - rewrite lookup_insert_eq. intros [= <-]. split; [done|]. intros p o. cbn. by rewrite lookup_empty.
  - rewrite lookup_insert_ne by done. apply Hm.
Qed.

Lemma inv_prepare n last s id ps : inv n last s -> inv n last (prepare_2pc hash_of visit s id ps).1.
Proof.
  intros (Hc & Hv & Hm). unfold prepare_2pc. destruct (require_active _ _ _) as [m| |] eqn:E; try done. apply require_active_ok in E as [E _].
  destruct (occ_conflict _ _) as [[[? ?] ?]|]; [done|]. split; [done|]. split; [done|]. cbn. destruct (Hm _ _ E) as [Ht _]. rewrite Ht. by eapply metas_same.
Qed.

Lemma cat_mono n n' c : n <= n' < 2 ^ 62 -> cat_inv n c -> cat_inv n' c.
Proof.
  intros Hn [H1 H2 H3 H5 H6 H7]. split; [lia| |lia| |done|done].
  - eapply clock_le_mono; [|done]. unfold limit. lia.
  - intros id m Hm. destruct (H5 _ _ Hm) as [G1 G2 G3 G4]. split; try done. eapply clock_le_mono; [|done]. unfold limit. lia.
Qed.
Lemma inv_mono n last s : n + 1 < 2 ^ 62 -> inv n last s -> inv (n + 1) last s.
Proof. intros Hn (H1 & H2). split; [|done]. eapply cat_mono; [|done]. destruct H1. lia. Qed.

Lemma inv_commit n last s id votes tg secs env : inv n last s -> n + 1 < 2 ^ 62 -> votes_ok votes ->
  calm (copy_fault env) -> tame_removal (gone env) -> inv (n + 1) last (commit_2pc hash_of visit s id votes tg secs env).1.
Proof.
  intros Hi Hn Hv Hcf Ht. pose proof Hi as (Hc & Hco & Hm). pose proof (commit_cases s id votes tg secs env) as H.
  destruct (commit_2pc hash_of visit s id votes tg secs env) as [s' r]. cbn [fst].
  destruct H as [r _ _ ->|m r _ _ _ _ ->|m r _ Em Es Ea _ _ Hg E1 E2 E3|m snap Em Es Ea _ P Hg E2 E3].
  - by apply inv_mono.
  - by apply inv_mono, inv_abort.
  - apply inv_mono; [done|]. destruct (Hg last Hcf Hm (proj1 Hco)) as (V1 & V2 & _). unfold inv. rewrite E1, E2, E3. split; [done|]. split; [|done].
    split; [done|]. intros id' m' Hm'. eapply files_good_mono; [done|]. by eapply Hco.
  - destruct (Hg last Hcf Hm (proj1 Hco)) as [Hg1 Hg2]. split; [by eapply commit_cat_inv|]. split; [by eapply commit_contents|].
    rewrite E2, E3. destruct (Hm _ _ Em) as [Htx _]. fold (data_after (gone env) id (staged s)).
    fold (metas_after (gone env) id (if meta_saved env then <[tx_id m:=with_state m Committed]> (metas s) else metas s)).
    apply metas_remove; [done|]. destruct (meta_saved env); [|done]. rewrite Htx. by eapply metas_same.
Qed.

Lemma tx_step_inv n last s o l : inv n last s -> tame o -> ops_ok last (o :: l) -> n + 1 < 2 ^ 62 ->
  exists last', inv (n + 1) last' (apply_op s o) /\ ops_ok last' l.
Proof.
  intros Hi Ht Hok Hn. destruct o; cbn [ops_ok apply_op tame] in *.
  - exists last. split; [by apply inv_mono, inv_begin|done].
  - destruct Hok as (H1 & H2 & H3). exists now_nanos. split; [|done]. apply inv_mono; [done|]. by eapply inv_stage.
  - exists last. split; [|done]. apply inv_mono; [done|]. destruct (stage_delete _ _ _ _) as [[s' x]| |] eqn:E; [by eapply inv_delete|done|done].
  - exists last. split; [by apply inv_mono, inv_prepare|done].
  - exists last. destruct Hok, Ht. split; [by apply inv_commit|done].
  - exists last. split; [by apply inv_mono, inv_abort|done].
Qed.

Lemma run_inv l l' n last s : inv n last s -> Forall tame l -> ops_ok last (l ++ l') -> n + Z.of_nat (length l) < 2 ^ 62 ->
  exists last', inv (n + Z.of_nat (length l)) last' (run s l) /\ ops_ok last' l'.
Proof.
  revert n last s. induction l as [|o l IH]; intros n last s Hi Ht Hok Hn; cbn [length] in *.
  - exists last. by replace (n + Z.of_nat 0) with n by lia.
  - apply Forall_cons in Ht as [Ho Ht]. destruct (tx_step_inv n last s o (l ++ l') Hi Ho Hok) as (last' & Hi' & Hok'); [lia|].
    replace (n + Z.of_nat (S (length l))) with (n + 1 + Z.of_nat (length l)) by lia. apply (IH _ last'); [done|done|done|lia].
Qed.

Lemma new_inv node : inv 0 (-1) (new_engine node).
Proof.
  split; [split; cbn; [lia| |lia|by intros ? ? ?|lia|by intros ? ? ? ? ?]|split; [split|]; by intros ? ? ?].
  intros k v. unfold TxVectorClock.initial, TxVectorClock.increment, TxVectorClock.new, TxVectorClock.get. cbn.
  destruct (decide (k = node)) as [->|Hne]; [rewrite lookup_insert_eq; intros [= <-]; by vm_compute|by rewrite lookup_insert_ne].
Qed.

(** ** Snapshots *)

(** The contents of a snapshot. *)
Definition view (s : TxSnapshotEngine) (fs : gmap bytes FileRevision) : gmap bytes bytes :=
  omap (fun rev => if is_tombstone rev then None else versions s !! content_ref rev) fs.

Lemma view_lookup s fs p : view s fs !! p = (rev ← fs !! p; if is_tombstone rev then None else versions s !! content_ref rev).
Proof. apply lookup_omap. Qed.

Lemma view_mono s s' fs : versions s ⊆ versions s' -> files_good (versions s) fs -> view s' fs = view s fs.
Proof.
  intros Hs Hf. apply map_eq. intros p. rewrite !view_lookup. destruct (fs !! p) as [rev|] eqn:E; [|done]. cbn.
  destruct (Hf p rev E) as (-> & _ & b & Hb & _). rewrite Hb. by eapply lookup_weaken.
Qed.

Lemma read_unfold s id m p : snapshots (catalog s) !! id = Some m ->
  read_snapshot hash_of s id p =
    match files m !! trim_slashes p with
    | None => Ok None
    | Some rev =>
        if is_tombstone rev then Ok None else
        match versions s !! content_ref rev with
        | None => Err (lit "version data '" ++ content_ref rev ++ lit "' for path '" ++ trim_slashes p ++ lit "' missing on disk")
        | Some b =>
            if bool_decide (hash_of b = r_hash rev) then Ok (Some b)
            else Err (lit "cryptographic hash mismatch on read: expected " ++ Hash_to_hex (r_hash rev) ++ lit " got " ++ Hash_to_hex (hash_of b))
        end
    end.
Proof. intros Hm. unfold read_snapshot, resolve_snapshot_id. rewrite Hm. cbn [ok_or obind]. rewrite Hm. done. Qed.

Lemma read_view n last s id m p : inv n last s -> snapshots (catalog s) !! id = Some m ->
  read_snapshot hash_of s id p = Ok (view s (files m) !! trim_slashes p).
Proof.
  intros (_ & Hc & _) Hm. rewrite (read_unfold s id m p Hm), view_lookup. destruct (files m !! trim_slashes p) as [rev|] eqn:E; [|done].
  cbn [mbind option_bind]. destruct (proj2 Hc _ _ Hm _ _ E) as (-> & _ & b & -> & Hb). by rewrite bool_decide_eq_true_2.
Qed.

(** Whatever fails, no snapshot and no version file is changed. *)
Lemma step_core n last s o : cat_inv n (catalog s) -> ops_ok last [o] -> n + 1 < 2 ^ 62 ->
  cat_inv (n + 1) (catalog (apply_op s o)) /\ versions s ⊆ versions (apply_op s o) /\
  snapshots (catalog s) ⊆ snapshots (catalog (apply_op s o)).
Proof.
  intros Hc Hok Hn. assert (cat_inv (n + 1) (catalog s)) as Hc' by (eapply cat_mono; [|done]; destruct Hc; lia).
  destruct o; cbn [apply_op].
  - done.
  - pose proof (stage_file_cases s id p data base now_nanos data_fault meta_fault) as H.
    destruct (stage_file _ _ _ _ _ _ _ _ _) as [s' r]. destruct H as (E1 & E2 & _). cbn [fst]. by rewrite E1, E2.
  - destruct (stage_delete _ _ _ _) as [[s' x]| |] eqn:E; [|done..]. by apply stage_delete_ok in E as (m & _ & _ & _ & ->).
  - unfold prepare_2pc. destruct (require_active _ _ _); [|done..]. by destruct (occ_conflict _ _) as [[[]]|].
  - pose proof (commit_cases s id votes tg now_secs env) as H. destruct (commit_2pc _ _ _ _ _ _ _ _) as [s' r]. cbn [fst]. destruct Hok as [Hv _].
    destruct H as [r _ _ ->|m r _ _ _ _ ->|m r _ _ _ _ _ V1 _ E1 _ _|m snap _ _ _ V1 P _ _ _].
    + done.
    + destruct (abort_fields s id (gone env)) as (E1 & E2 & _). by rewrite E1, E2.
    + by rewrite E1.
    + destruct (commit_cat_inv n s s' votes snap Hc Hn Hv P) as [H1 H2]. split; [done|]. split; [done|]. rewrite (cp_snaps _ _ _ _ P).
      by apply insert_subseteq.
  - destruct (abort_fields s id gone0) as (E1 & E2 & _). by rewrite E1, E2.
Qed.

Lemma ops_ok_head last o l : ops_ok last (o :: l) -> ops_ok last [o] /\ exists last', ops_ok last' l.
Proof. destruct o; cbn; naive_solver. Qed.

Lemma run_core l last n s : cat_inv n (catalog s) -> ops_ok last l -> n + Z.of_nat (length l) < 2 ^ 62 ->
  cat_inv (n + Z.of_nat (length l)) (catalog (run s l)) /\ versions s ⊆ versions (run s l) /\
  snapshots (catalog s) ⊆ snapshots (catalog (run s l)).
Proof.
  revert n last s. induction l as [|o l IH]; intros n last s Hi Hok Hn; cbn [length] in *.
  - by replace (n + Z.of_nat 0) with n by lia.
  - destruct (ops_ok_head _ _ _ Hok) as (Ho & last' & Hok'). destruct (step_core n last s o Hi Ho) as (K1 & K2 & K3); [lia|].
    replace (n + Z.of_nat (S (length l))) with (n + 1 + Z.of_nat (length l)) by lia.
    destruct (IH _ _ _ K1 Hok') as (K4 & K5 & K6); [lia|]. split_and!; [done|by etransitivity..].
Qed.
Lemma ops_ok_app l l' last : ops_ok last (l ++ l') -> ops_ok last l /\ exists last', ops_ok last' l'.
Proof.
  revert last. induction l as [|o l IH]; intros last H; [split; [done|by exists last]|]. destruct o; cbn [app ops_ok] in *.
  all: repeat match goal with H : _ /\ _ |- _ => destruct H end; match goal with H : ops_ok _ (_ ++ _) |- _ => destruct (IH _ H) end; done.
Qed.

(** The state after a run of a new engine. *)
Lemma reachable node l l' : Forall tame l -> ops_ok (-1) (l ++ l') -> Z.of_nat (length (l ++ l')) < 2 ^ 62 ->
  exists last, inv (Z.of_nat (length l)) last (run (new_engine node) l) /\ ops_ok last l'.
Proof. intros Ht Hok Hn. rewrite length_app in Hn. apply (run_inv l l' 0 (-1)); [apply new_inv|done|done|lia]. Qed.
Lemma reachable_core node l : ops_ok (-1) l -> Z.of_nat (length l) < 2 ^ 62 ->
  cat_inv (Z.of_nat (length l)) (catalog (run (new_engine node) l)).
Proof. intros Hok Hn. destruct (run_core l (-1) 0 (new_engine node)) as [H _]; [apply new_inv|done|lia|done]. Qed.

(** C24. Snapshots do not change. In any run of the engine of fewer than 2^62 operations, in which
    contents are staged at increasing times and votes carry clock values up to 2^62: with aborting
    votes, aborted transactions, writes and copies that fail and leave a part of a file, and
    clean-ups that stop anywhere. A snapshot that is published stays in the catalog as it is; a read
    of a path at it that succeeds once gives the same result at any later time; and contents it
    returns have the hash that the manifest records for the path. When no copy has failed leaving a
    part of the file, and no failed clean-up has removed staged data but not the metadata, every read
    at a published snapshot succeeds; otherwise it can fail for ever
    ([TxSnapExamples.truncated_version_stays]). *)
Theorem snapshots_stable node l l' id m p : ops_ok (-1) (l ++ l') -> Z.of_nat (length (l ++ l')) < 2 ^ 62 ->
  let s := run (new_engine node) l in
  let s' := run s l' in
  snapshots (catalog s) !! id = Some m ->
  snapshots (catalog s') !! id = Some m /\
  (forall v, read_snapshot hash_of s id p = Ok v -> read_snapshot hash_of s' id p = Ok v) /\
  (forall b, read_snapshot hash_of s id p = Ok (Some b) -> exists rev, files m !! trim_slashes p = Some rev /\ hash_of b = r_hash rev) /\
  (Forall tame l -> exists v, read_snapshot hash_of s id p = Ok v).
Proof.
  intros Hok Hn s s' Hm. destruct (ops_ok_app _ _ _ Hok) as (Hl & last' & Hl'). pose proof Hn as Hn'. rewrite length_app in Hn'.
  pose proof (reachable_core node l Hl ltac:(lia)) as Hc. fold s in Hc.
  destruct (run_core l' last' _ s Hc Hl') as (_ & K1 & K2); [lia|]. fold s' in K1, K2.
  assert (snapshots (catalog s') !! id = Some m) as Hm' by by eapply lookup_weaken. split; [done|].
  rewrite (read_unfold s id m p Hm), (read_unfold s' id m p Hm'). split_and!.
  - intros v. destruct (files m !! trim_slashes p) as [rev|]; [|done]. destruct (is_tombstone rev); [done|].
    destruct (versions s !! content_ref rev) as [b|] eqn:Eb; [|done]. by rewrite (lookup_weaken _ _ _ _ Eb K1).
  - intros b. destruct (files m !! trim_slashes p) as [rev|]; [|done]. destruct (is_tombstone rev); [done|].
    destruct (versions s !! content_ref rev) as [b'|]; [|done]. case_bool_decide; [|done]. intros [= <-]. eauto.
  - intros Ht. destruct (reachable node l l' Ht Hok Hn) as (last & Hi & _). fold s in Hi. rewrite <- (read_unfold s id m p Hm).
    rewrite (read_view _ _ _ _ _ _ Hi Hm). eauto.
Qed.

(** Snapshots are in causal order. In any run, whatever fails, two published snapshots have different epochs, and the
    vector clock of the earlier one is causally before that of the later one. *)
Theorem snapshots_causal node l id m id' m' : ops_ok (-1) l -> Z.of_nat (length l) < 2 ^ 62 ->
  let c := catalog (run (new_engine node) l) in
  snapshots c !! id = Some m -> snapshots c !! id' = Some m' -> id <> id' ->
  (epoch m < epoch m' /\ TxVectorClock.is_causally_before (m_vector_clock m) (m_vector_clock m') = true) \/
  (epoch m' < epoch m /\ TxVectorClock.is_causally_before (m_vector_clock m') (m_vector_clock m) = true).
Proof.
  intros Hok Hn c Hm Hm' Hne. pose proof (reachable_core node l Hok Hn) as Hc.
  destruct (ci_order _ _ Hc _ _ _ _ Hm Hm') as [H1 H2]. destruct (ci_order _ _ Hc _ _ _ _ Hm' Hm) as [_ H3].
  destruct (Z.lt_trichotomy (epoch m) (epoch m')) as [H|[H|H]]; [left; auto|by apply H1 in H|right; auto].
Qed.

(** ** The promise of the engine

    The states of the transactions, their pending changes, and the contents of snapshots. *)
Record spec := mkSpec {
  a_state : gmap bytes TxState; a_pending : gmap bytes (gmap bytes (option bytes)); a_snaps : gmap bytes (gmap bytes bytes) }.

(** What an operation answers. *)
Inductive reply := RRefused | RBegun (id : bytes) | RDone | RSnapshot (id : bytes) | RAborted.

Definition apply_changes (changes : gmap bytes (option bytes)) (v : gmap bytes bytes) : gmap bytes bytes :=
  merge (fun x y => match x with Some w => w | None => y end) changes v.
(** The snapshot with the greatest identifier. *)
Definition base_view (a : spec) : gmap bytes bytes := match last (sorted_items (a_snaps a)) with Some (_, v) => v | None => ∅ end.
(** The transaction is forgotten when its metadata is removed. *)
Definition spec_drop (gn : bytes -> bool) (id : bytes) (a : spec) : spec :=
  if gn META then mkSpec (delete id (a_state a)) (delete id (a_pending a)) (a_snaps a) else a.

(** The answers the specification allows in a state. *)
Definition spec_reply (a : spec) (o : op) (r : reply) : Prop :=
  match o, r with
  | OBegin _ _ _, RBegun _ | OAbort _ _, RDone | OPrepare _ _, RRefused => True
  | OStage id _ _ _ _ df mf, RDone => a_state a !! id = Some Active /\ df = None /\ mf = None
  | OStage id _ _ _ _ df mf, RRefused => a_state a !! id <> Some Active \/ is_Some df \/ is_Some mf
  | ODelete id _ _, RDone | OPrepare id _, RDone => a_state a !! id = Some Active
  | ODelete id _ _, RRefused => a_state a !! id <> Some Active
  | OCommit id votes _ _ _, RSnapshot sid => a_state a !! id = Some Prepared /\ first_abort votes = None /\ a_snaps a !! sid = None
  | OCommit id votes _ _ _, RAborted => a_state a !! id = Some Prepared /\ is_Some (first_abort votes)
  | OCommit id votes _ _ env, RRefused => a_state a !! id <> Some Prepared \/ first_abort votes = None /\ faulty env
  | _, _ => False
  end.

Definition spec_step (a : spec) (o : op) (r : reply) : spec :=
  match o, r with
  | OBegin _ _ _, RBegun id => mkSpec (<[id := Active]> (a_state a)) (<[id := ∅]> (a_pending a)) (a_snaps a)
  | OStage id p data _ _ _ _, RDone => mkSpec (a_state a) (alter <[trim_slashes p := Some data]> id (a_pending a)) (a_snaps a)
  | ODelete id p _, RDone => mkSpec (a_state a) (alter <[trim_slashes p := None]> id (a_pending a)) (a_snaps a)
  | OPrepare id _, RDone => mkSpec (<[id := Prepared]> (a_state a)) (a_pending a) (a_snaps a)
  | OCommit id _ _ _ env, RSnapshot sid =>
      spec_drop (gone env) id (mkSpec (if meta_saved env then <[id := Committed]> (a_state a) else a_state a) (a_pending a)
        (<[sid := apply_changes (default ∅ (a_pending a !! id)) (base_view a)]> (a_snaps a)))
  | OCommit id _ _ _ env, RAborted => spec_drop (gone env) id a
  | OAbort id gn, _ => spec_drop gn id a
  | _, _ => a
  end.

Definition reply_of (s : TxSnapshotEngine) (o : op) : reply :=
  match o with
  | OBegin author secs nanos => RBegun (begin_tx hash_of s author secs nanos).2
  | OStage id p data base nanos df mf => match (stage_file hash_of s id p data base nanos df mf).2 with Ok _ => RDone | _ => RRefused end
  | ODelete id p base => match stage_delete s id p base with Ok _ => RDone | _ => RRefused end
  | OPrepare id ps => match (prepare_2pc hash_of visit s id ps).2 with Ok _ => RDone | _ => RRefused end
  | OCommit id votes tg secs env =>
      match (commit_2pc hash_of visit s id votes tg secs env).2 with
      | Ok snap => RSnapshot (snapshot_id snap)
      | _ => if bool_decide (state <$> metas s !! id = Some Prepared) && bool_decide (first_abort votes <> None) then RAborted else RRefused
      end
  | OAbort _ _ => RDone
  end.

Definition pending_of (data : gmap (bytes * bytes) bytes) (id : bytes) (m : ActiveTxMeta) : gmap bytes (option bytes) :=
  (fun o => match kind o with Write => data !! (id, staged_data_rel_path o) | _ => None end) <$> staged_ops m.
Definition pendings (data : gmap (bytes * bytes) bytes) (ms : gmap bytes ActiveTxMeta) : gmap bytes (gmap bytes (option bytes)) :=
  map_imap (fun id m => Some (pending_of data id m)) ms.
Definition abs (s : TxSnapshotEngine) : spec :=
  mkSpec (state <$> metas s) (pendings (staged s) (metas s)) ((fun m => view s (files m)) <$> snapshots (catalog s)).

(** No two contents of the engine have the same hash. *)
Definition no_collision (s : TxSnapshotEngine) : Prop :=
  let held b := (exists name, versions s !! name = Some b) \/ (exists k, staged s !! k = Some b) in
  forall a b, held a -> held b -> hash_of a = hash_of b -> a = b.

Lemma pendings_lookup data ms id : pendings data ms !! id = pending_of data id <$> ms !! id.
Proof. unfold pendings. rewrite map_lookup_imap. by destruct (ms !! id). Qed.

Lemma pending_ext last ms data data' id m : metas_inv last ms data -> ms !! id = Some m ->
  (forall x k, 0 <= k <= last -> data' !! (id, data_name (hash_of x) k) = data !! (id, data_name (hash_of x) k)) ->
  pending_of data' id m = pending_of data id m.
Proof.
  intros H Hm Hd. apply map_eq. intros p. unfold pending_of. rewrite !lookup_fmap. destruct (staged_ops m !! p) as [o|] eqn:E; [|done]. cbn.
  destruct (proj2 (H _ _ Hm) _ _ E) as [_ Ho]. unfold op_good in Ho. destruct (kind o); try done. destruct Ho as (b & k & _ & _ & -> & Hk). by rewrite Hd.
Qed.

Lemma pendings_remove last ms data id gn : tame_removal gn -> metas_inv last ms data ->
  pendings (data_after gn id data) (metas_after gn id ms) = if gn META then delete id (pendings data ms) else pendings data ms.
Proof.
  intros Ht H. apply map_eq. intros k. rewrite pendings_lookup.
  assert (metas_after gn id ms !! k = if gn META && bool_decide (k = id) then None else ms !! k) as ->.
  { unfold metas_after. destruct (gn META); [|done]. case_bool_decide; [subst; apply lookup_delete_eq|by rewrite lookup_delete_ne]. }
  assert ((if gn META then delete id (pendings data ms) else pendings data ms) !! k =
    if gn META && bool_decide (k = id) then None else pending_of data k <$> ms !! k) as ->.
  { rewrite <- pendings_lookup. destruct (gn META); [|done]. case_bool_decide; [subst; apply lookup_delete_eq|by rewrite lookup_delete_ne]. }
  destruct (gn META && bool_decide (k = id)) eqn:E; [done|]. destruct (ms !! k) as [m|] eqn:Em; [|done]. cbn [fmap option_fmap option_map]. f_equal.
  eapply pending_ext; [done|done|]. intros x j _. apply data_after_keep; [done|]. cbn [fst].
  apply andb_false_iff in E as [E|E]; [by right|left; by apply bool_decide_eq_false in E].
Qed.
Lemma states_remove gn id ms : state <$> metas_after gn id ms = if gn META then delete id (state <$> ms) else state <$> ms.
Proof. unfold metas_after. destruct (gn META); [apply fmap_delete|done]. Qed.
Lemma pendings_same ms data id m m' : ms !! id = Some m -> staged_ops m' = staged_ops m -> pendings data (<[id := m']> ms) = pendings data ms.
Proof.
  intros Hm E. apply map_eq. intros k. rewrite !pendings_lookup. destruct (decide (k = id)) as [->|Hne]; [|by rewrite lookup_insert_ne].
  rewrite lookup_insert_eq, Hm. cbn. unfold pending_of. by rewrite E.
Qed.

Lemma sorted_items_fmap {A B} (f : A -> B) (m : gmap bytes A) : sorted_items (f <$> m) = prod_map id f <$> sorted_items m.
Proof.
  apply keyed_ext; [apply sorted_items_keyed| |].
  - pose proof (sorted_items_keyed m) as H. induction H as [|x l H IH Hx]; [constructor|]. rewrite fmap_cons. constructor; [done|].
    rewrite Forall_fmap. eapply Forall_impl; [exact Hx|]. done.
  - intros [p b]. rewrite sorted_items_elem, lookup_fmap, fmap_Some. split.
    + intros (a & Ha & ->). change (p, f a) with (prod_map id f (p, a)). by apply list_elem_of_fmap_2, sorted_items_elem.
    + intros ([q a] & E & Hin)%list_elem_of_fmap. injection E as -> ->. exists a. split; [|done]. by apply sorted_items_elem.
Qed.

Lemma base_view_abs s : base_view (abs s) = view s (baseline (catalog s)).
Proof.
  unfold base_view, baseline. cbn. rewrite sorted_items_fmap, fmap_last. destruct (last (sorted_items (snapshots (catalog s)))) as [[id m]|]; cbn; [done|].
  unfold view. by rewrite omap_empty.
Qed.

Lemma abs_state s id : a_state (abs s) !! id = state <$> metas s !! id.
Proof. apply lookup_fmap. Qed.

Lemma abs_abort n last s id gn : inv n last s -> tame_removal gn -> abs (abort_tx s id gn) = spec_drop gn id (abs s).
Proof.
  intros (_ & _ & Hm) Ht. destruct (abort_fields s id gn) as (E1 & E2 & E3). unfold abs at 1, spec_drop. unfold view. rewrite E1, E2.
  destruct E3 as [(E & -> & ->)|(-> & ->)].
  - destruct (gn META); [|done]. unfold abs, view. cbn [a_state a_pending a_snaps]. rewrite !delete_id; [done|by rewrite pendings_lookup, E|by rewrite lookup_fmap, E].
  - rewrite (pendings_remove last), states_remove by done. by destruct (gn META).
Qed.

Lemma commit_view n last s s' m id snap : inv n last s -> metas s !! id = Some m -> good_versions s s' -> commit_files s s' m snap -> no_collision s ->
  view s' (files snap) = apply_changes (pending_of (staged s) id m) (view s (baseline (catalog s))).
Proof.
  intros (_ & Hc & Hm) Em (V1 & N1 & F1) P1 Hcol. apply map_eq. intros p. unfold apply_changes.
  rewrite lookup_merge, !view_lookup. unfold pending_of. rewrite lookup_fmap. specialize (P1 p).
  destruct (staged_ops m !! p) as [o|] eqn:Eo; cbn.
  - destruct (proj2 (Hm _ _ Em) _ _ Eo) as [_ Ho]. unfold left_by, op_good in *. destruct (kind o).
    + destruct P1 as (rev & -> & T & C1 & C2 & [b' B]), Ho as (b & k & D1 & D2 & _). cbn. rewrite T, D1, B.
      assert (b' = b) as ->.
      { apply Hcol; [by destruct (F1 _ _ B) as [H|H]; [left|right]; eauto|right; eauto|]. apply N1 in B. rewrite C1, D2 in B. by apply version_name_inj in B. }
      by destruct (baseline (catalog s) !! p).
    + rewrite P1. cbn. by destruct (baseline (catalog s) !! p).
    + done.
  - rewrite P1. pose proof (baseline_good _ _ Hc p) as Hb. destruct (baseline (catalog s) !! p) as [rev|]; [|done]. cbn.
    destruct (Hb _ eq_refl) as (-> & _ & b & E & _). rewrite E. by eapply lookup_weaken.
Qed.

(** Old snapshots keep their contents when version files are added. *)
Lemma views_kept s s' : contents (catalog s) (versions s) -> versions s ⊆ versions s' ->
  (fun m => view s' (files m)) <$> snapshots (catalog s) = (fun m => view s (files m)) <$> snapshots (catalog s).
Proof. intros Hc Hv. apply map_fmap_ext. intros i x Hx. apply view_mono; [done|]. by eapply Hc. Qed.

Lemma step_commit n last s id votes tg secs env : inv n last s -> no_collision s -> n + 1 < 2 ^ 62 -> votes_ok votes ->
  calm (copy_fault env) -> tame_removal (gone env) ->
  let o := OCommit id votes tg secs env in
  spec_reply (abs s) o (reply_of s o) /\ abs (apply_op s o) = spec_step (abs s) o (reply_of s o).
Proof.
  intros Hi Hcol Hn Hv Hcf Ht o. pose proof Hi as (Hc & Hco & Hm). unfold o. cbn [apply_op reply_of].
  pose proof (commit_cases s id votes tg secs env) as H. destruct (commit_2pc hash_of visit s id votes tg secs env) as [s' r]. cbn [fst snd].
  destruct H as [r Hr Hno ->|m r Hr Em Es Ea ->|m r Hr Em Es Ea Hf V1 Hg E1 E2 E3|m snap Em Es Ea V1 P Hg E2 E3].
  - rewrite (bool_decide_eq_false_2 (state <$> metas s !! id = Some Prepared)) by (destruct (metas s !! id); [intros [= E]; by eapply Hno|done]).
    destruct r; [done|..]; cbn [andb spec_reply spec_step]; (split; [left; rewrite abs_state; destruct (metas s !! id); [intros [= E]; by eapply Hno|done]|done]).
  - rewrite Em, bool_decide_eq_true_2 by (cbn; congruence). rewrite bool_decide_eq_true_2 by (by destruct Ea as [? ->]).
    destruct r; [done|..]; cbn [andb spec_reply spec_step]; rewrite abs_state, Em; cbn [fmap option_fmap option_map];
      (split; [split; [congruence|done]|by eapply abs_abort]).
  - rewrite Ea, (bool_decide_eq_false_2 (None <> None)), andb_false_r by (intros X; by apply X).
    assert (abs s' = abs s) as Habs by (unfold abs; rewrite E1, E2, E3; f_equal; by apply views_kept).
    destruct r; [done|..]; cbn [spec_reply spec_step]; auto.
  - destruct (Hg last Hcf Hm (proj1 Hco)) as [Hg1 Hg2]. destruct (Hm _ _ Em) as [Htx _]. rewrite Htx in E2. cbn [spec_reply spec_step].
    destruct (commit_cat_inv n s s' votes snap Hc Hn Hv P) as [_ Hnew]. rewrite abs_state, Em. cbn [fmap option_fmap option_map]. split.
    { split; [congruence|]. split; [done|]. cbn. by rewrite lookup_fmap, Hnew. }
    rewrite base_view_abs. unfold abs at 1. rewrite (cp_snaps _ _ _ _ P), fmap_insert, views_kept by done.
    rewrite (commit_view n last s s' m id snap) by done. fold (data_after (gone env) id (staged s)) in E3.
    change (metas s' = metas_after (gone env) id (if meta_saved env then <[id:=with_state m Committed]> (metas s) else metas s)) in E2.
    rewrite E2, E3, states_remove, (pendings_remove last).
    2: done. 2: destruct (meta_saved env); [by eapply metas_same|done].
    assert (pendings (staged s) (if meta_saved env then <[id:=with_state m Committed]> (metas s) else metas s) = a_pending (abs s)) as ->
      by (destruct (meta_saved env); [by eapply pendings_same|done]).
    assert (state <$> (if meta_saved env then <[id:=with_state m Committed]> (metas s) else metas s) =
      if meta_saved env then <[id := Committed]> (a_state (abs s)) else a_state (abs s)) as -> by (destruct (meta_saved env); [apply fmap_insert|done]).
    assert (default ∅ (a_pending (abs s) !! id) = pending_of (staged s) id m) as -> by (cbn; by rewrite pendings_lookup, Em).
    unfold spec_drop. by destruct (gone env META).
Qed.

Lemma step_stage n last s id p data base nanos df mf : inv n last s -> 0 <= nanos -> last < nanos ->
  let o := OStage id p data base nanos df mf in
  spec_reply (abs s) o (reply_of s o) /\ abs (apply_op s o) = spec_step (abs s) o (reply_of s o).
Proof.
  intros (_ & _ & Hm) Hn0 Hn o. unfold o. cbn [apply_op reply_of]. pose proof (stage_file_cases s id p data base nanos df mf) as H.
  destruct (stage_file hash_of s id p data base nanos df mf) as [s' r]. cbn [fst snd]. destruct H as (C1 & C2 & H).
  assert (forall k mk data', metas s !! k = Some mk -> (forall x, x <> (id, data_name (hash_of data) nanos) -> data' !! x = staged s !! x) ->
    pending_of data' k mk = pending_of (staged s) k mk) as Hkeep.
  { intros k mk data' Hk Hd. eapply pending_ext; [done|done|]. intros x j Hj. apply Hd. apply other_time. lia. }
  assert (not_ok r -> spec_reply (abs s) (OStage id p data base nanos df mf) RRefused /\ abs s' = abs s) as Hno.
  { destruct r; [done|..]; intros _; destruct H as (E1 & E2 & E3); (split; [cbn; rewrite lookup_fmap|]).
    1, 3: destruct (metas s !! id) as [m|] eqn:Em; [|by left]; destruct (decide (state m = Active)) as [Ha|Ha]; [right; by eapply E3|left; intros [= E]; done].
    all: unfold abs, view; rewrite C1, C2, E1; f_equal; apply map_eq; intros k; rewrite !pendings_lookup;
      destruct (metas s !! k) as [mk|] eqn:Ek; [|done]; cbn; f_equal; by apply Hkeep. }
  destruct r as [o'|e|]; [|by apply Hno..]. destruct H as (m & Em & Ha & -> & -> & -> & ->). cbn [spec_reply spec_step].
  rewrite abs_state, Em. split; [cbn; by rewrite Ha|]. destruct (Hm _ _ Em) as [Ht _]. unfold abs at 1, save_tx_meta, set_staged, set_metas.
  cbn [metas staged catalog]. change (tx_id (with_ops ?a ?b)) with (tx_id a). rewrite Ht. f_equal.
  - cbn. rewrite fmap_insert. cbn. apply insert_id. by rewrite lookup_fmap, Em.
  - apply map_eq. intros k. rewrite pendings_lookup. cbn [abs a_pending]. destruct (decide (k = id)) as [->|Hne].
    + rewrite lookup_insert_eq, lookup_alter_eq, pendings_lookup, Em. cbn. f_equal.
      rewrite <- (Hkeep id m (<[(id, data_name (hash_of data) nanos) := data]> (staged s)) Em) by (intros x Hx; by rewrite lookup_insert_ne).
      unfold pending_of. cbn. rewrite fmap_insert. cbn. by rewrite lookup_insert_eq.
    + rewrite lookup_insert_ne, lookup_alter_ne, pendings_lookup by done. destruct (metas s !! k) as [mk|] eqn:Ek; [|done]. cbn. f_equal.
      apply Hkeep; [done|]. intros x Hx. by rewrite lookup_insert_ne.
Qed.
Lemma step_delete n last s id p base : inv n last s -> let o := ODelete id p base in
  spec_reply (abs s) o (reply_of s o) /\ abs (apply_op s o) = spec_step (abs s) o (reply_of s o).
Proof.
  intros (_ & _ & Hm) o. unfold o. cbn [apply_op reply_of].
  destruct (stage_delete s id p base) as [[s' x]|e|] eqn:E; cbn [spec_reply spec_step].
  2-3: split; [|done]; rewrite abs_state; unfold stage_delete in E; pose proof (require_active_no s (lit "stage delete") id) as Hr;
    (destruct (require_active s (lit "stage delete") id); [done|..]; (destruct (metas s !! id) as [m|]; [intros [= Ha]; by eapply Hr|done])).
  apply stage_delete_ok in E as (m & Em & Ha & -> & ->). rewrite abs_state, Em. split; [cbn; by rewrite Ha|].
  destruct (Hm _ _ Em) as [Ht _]. unfold abs at 1, save_tx_meta, set_metas. cbn [metas staged catalog].
  change (tx_id (with_ops ?a ?b)) with (tx_id a). rewrite Ht. f_equal.
  - cbn. rewrite fmap_insert. cbn. apply insert_id. by rewrite lookup_fmap, Em.
  - apply map_eq. intros k. rewrite pendings_lookup. cbn [abs a_pending]. destruct (decide (k = id)) as [->|Hne].
    + rewrite lookup_insert_eq, lookup_alter_eq, pendings_lookup, Em. cbn. f_equal. unfold pending_of. cbn. by rewrite fmap_insert.
    + by rewrite lookup_insert_ne, lookup_alter_ne, pendings_lookup by done.
Qed.

Lemma step_refines n last s o : inv n last s -> tame o -> ops_ok last [o] -> n + 1 < 2 ^ 62 -> no_collision s ->
  spec_reply (abs s) o (reply_of s o) /\ abs (apply_op s o) = spec_step (abs s) o (reply_of s o).
Proof.
  intros Hi Ht Hok Hn Hcol. pose proof Hi as (_ & _ & Hm). destruct o; cbn [ops_ok tame] in Hok, Ht.
  - split; [done|]. cbn [apply_op reply_of spec_step]. unfold abs at 1. cbn. f_equal; [by rewrite fmap_insert|]. apply map_eq. intros k. rewrite pendings_lookup.
    match goal with |- context [<[?i := mkMeta _ _ _ _ _ _ _]> _] => destruct (decide (k = i)) as [->|Hne] end.
    + rewrite !lookup_insert_eq. cbn. by rewrite fmap_empty.
    + by rewrite !lookup_insert_ne, pendings_lookup by done.
  - destruct Hok as (H1 & H2 & _). by eapply step_stage.
  - by eapply step_delete.
  - cbn [apply_op reply_of]. unfold prepare_2pc. destruct (require_active _ _ _) as [m| |] eqn:E; [|done..]. apply require_active_ok in E as [E Ha].
    destruct (occ_conflict _ _) as [[[]]|]; [done|]. cbn [fst snd spec_reply spec_step]. rewrite abs_state, E. split; [cbn; by rewrite Ha|].
    unfold abs. cbn. destruct (Hm _ _ E) as [Htx _]. rewrite Htx. f_equal; [by rewrite fmap_insert|]. by eapply pendings_same.
  - destruct Hok, Ht. by eapply step_commit.
  - split; [done|]. cbn [apply_op reply_of spec_step]. by eapply abs_abort.
Qed.

Lemma last_sorted {A} (m : gmap bytes A) k a k' a' : last (sorted_items m) = Some (k, a) -> m !! k' = Some a' -> k' = k \/ bytes_lt k' k = true.
Proof.
  intros Hl Hm. apply sorted_items_elem in Hm. pose proof (sorted_items_keyed m) as Hs. revert Hl Hm Hs. generalize (sorted_items m). intros l Hl Hm Hs.
  apply last_Some in Hl as [l' ->]. apply elem_of_app in Hm as [Hm|Hm]; [right|left; apply list_elem_of_singleton in Hm; congruence].
  apply StronglySorted_app in Hs as (Hs & _). exact (Hs _ _ Hm (list_elem_of_here _ _)).
Qed.

Lemma baseline_newest n c : cat_inv n c -> 1 <= current_epoch c <= 9 ->
  exists id m, last (sorted_items (snapshots c)) = Some (id, m) /\ epoch m = current_epoch c.
Proof.
  intros H He. destruct (ci_epochs _ _ H (current_epoch c)) as (id' & m' & Hm' & Ee'); [lia|].
  destruct (last (sorted_items (snapshots c))) as [[id m]|] eqn:El.
  2: { apply last_None in El. apply sorted_items_elem in Hm'. rewrite El in Hm'. by apply elem_of_nil in Hm'. }
  exists id, m. split; [done|]. assert (snapshots c !! id = Some m) as Hm by (apply sorted_items_elem; by apply last_Some_elem_of).
  destruct (ci_snaps _ _ H _ _ Hm) as [G1 G2 _ _], (ci_snaps _ _ H _ _ Hm') as [G1' G2' _ _].
  destruct (last_sorted _ _ _ _ _ El Hm') as [->|Hlt]; [congruence|]. destruct (decide (epoch m = current_epoch c)) as [|Hne]; [done|exfalso].
  assert (bytes_lt id id' = true) as Hgt by (rewrite G1, G1'; apply snapshot_name_lt; lia).
  pose proof (bytes_lt_trans _ _ _ Hlt Hgt) as Hx. by rewrite bytes_lt_irrefl in Hx.
Qed.

(** C20. Transactions are applied as a whole. In a run of fewer than 2^62 operations, with contents
    staged at increasing times, votes with clock values up to 2^62 and no two held contents of the same
    hash, in which a copy that fails leaves nothing of the file and a clean-up that fails has removed
    the metadata or nothing: every step answers as the specification allows and is its step. Staging
    succeeds exactly on an active transaction whose files can be written and records its change; only
    an active transaction is prepared; a commit of a prepared one without an aborting vote publishes,
    under a new identifier, the snapshot with the greatest identifier in the order of strings with all
    its changes made, and is refused only when a call fails, which changes nothing; an abort drops the
    changes when the metadata is removed, and otherwise leaves the transaction as it is, so that it
    can still be committed. Up to nine snapshots the greatest identifier is that of the newest
    ([TxSnapExamples.tenth_commit_lost] is a later one). *)
Theorem tx_refines node l o : Forall tame (l ++ [o]) -> ops_ok (-1) (l ++ [o]) -> Z.of_nat (length (l ++ [o])) < 2 ^ 62 ->
  let s := run (new_engine node) l in
  no_collision s ->
  spec_reply (abs s) o (reply_of s o) /\
  abs (apply_op s o) = spec_step (abs s) o (reply_of s o) /\
  (1 <= current_epoch (catalog s) <= 9 ->
   exists id m, last (sorted_items (snapshots (catalog s))) = Some (id, m) /\ epoch m = current_epoch (catalog s)).
Proof.
  intros Ht Hok Hn s Hcol. apply Forall_app in Ht as [Htl Hto]. apply Forall_cons in Hto as [Hto _].
  destruct (reachable node l [o] Htl Hok Hn) as (last & Hi & Hok'). rewrite length_app in Hn. cbn in Hn.
  destruct (step_refines _ _ _ _ Hi Hto Hok' ltac:(lia) Hcol) as [H1 H2]. split; [done|]. split; [done|].
  eapply baseline_newest. apply Hi.
Qed.

(** ** Rollback *)

Lemma stage_rollback_good vs l tmp n t : Forall (fun x : bytes * FileRevision => is_tombstone x.2 = false /\
    exists b, vs !! content_ref x.2 = Some b /\ hash_of b = r_hash x.2) l -> NoDup l.*1 ->
  exists tmp' t', stage_rollback hash_of vs l tmp n t = Ok (tmp', n + zlen l, t') /\
    forall p, tmp' !! p = match (list_to_map l : gmap bytes FileRevision) !! p with Some rev => vs !! content_ref rev | None => tmp !! p end.
Proof.
  revert tmp n t. induction l as [|[p rev] l IH]; intros tmp n t Hl Hnd; [exists tmp, t; split; [by rewrite Z.add_0_r|done]|].
  apply Forall_cons in Hl as [(H1 & b & H2 & H3) Hl]. cbn in Hnd. apply NoDup_cons in Hnd as [Hp Hnd]. cbn [fst snd] in H1, H2, H3. cbn [stage_rollback].
  rewrite H1, H2, bool_decide_eq_true_2 by done. destruct (IH (<[p := b]> tmp) (n + 1) (wrap 64 (t + r_size rev)) Hl Hnd) as (tmp' & t' & E & Ht).
  exists tmp', t'. split; [rewrite E, zlen_cons; do 3 f_equal; lia|]. intros q. rewrite Ht. cbn [list_to_map foldr uncurry].
  destruct (decide (q = p)) as [->|Hne]; [|by rewrite !lookup_insert_ne].
  cbn [fst snd]. by rewrite (not_elem_of_list_to_map_1 l p Hp), !lookup_insert_eq, H2.
Qed.

Lemma copy_staged_all tmp (l : list (bytes * FileRevision)) dir p :
  foldl (copy_staged tmp) dir l !! p = if bool_decide (p ∈ l.*1) then match tmp !! p with Some b => Some b | None => dir !! p end else dir !! p.
Proof.
  revert dir. induction l as [|[q rev] l IH]; intros dir; [done|]. cbn [foldl fmap list_fmap fst]. rewrite IH. unfold copy_staged. cbn [fst].
  destruct (decide (p = q)) as [->|Hne].
  - rewrite (bool_decide_eq_true_2 (q ∈ q :: l.*1)) by left. destruct (tmp !! q) as [b|] eqn:E; [rewrite lookup_insert_eq|]; by case_bool_decide.
  - assert (bool_decide (p ∈ q :: l.*1) = bool_decide (p ∈ l.*1)) as -> by (apply bool_decide_ext; rewrite elem_of_cons; naive_solver).
    destruct (tmp !! q); [by rewrite lookup_insert_ne|done].
Qed.

(** Rolling back restores a snapshot. In any run with tame failures, rolling a directory back to a published snapshot
    succeeds: every file of the snapshot is there with its contents, and any other file is gone unless
    its removal fails. When a rollback reports an error the directory is as it was. *)
Theorem rollback_exact node l id m can_delete dir : Forall tame l -> ops_ok (-1) l -> Z.of_nat (length l) < 2 ^ 62 ->
  let s := run (new_engine node) l in
  snapshots (catalog s) !! id = Some m ->
  (exists s' dir' rep, rollback_to_snapshot hash_of s id can_delete dir = (s', dir', Ok rep) /\ restored_files rep = Z.of_nat (size (files m)) /\
     forall p, dir' !! p = match view s (files m) !! p with Some b => Some b | None => if can_delete p then None else dir !! p end) /\
  forall s0 name, match rollback_to_snapshot hash_of s0 name can_delete dir with (_, dir', Err _) => dir' = dir | _ => True end.
Proof.
  intros Htm Hok Hn s Hm. split.
  2: { intros s0 name. unfold rollback_to_snapshot. destruct (get_snapshot s0 name); [|done..]. by destruct (stage_rollback _ _ _ _ _ _) as [[[]]| |]. }
  destruct (reachable node l []) as (last & (_ & Hc & _) & _); [done|by rewrite app_nil_r|by rewrite app_nil_r|]. fold s in Hc.
  pose proof (proj2 Hc _ _ Hm) as Hf.
  unfold rollback_to_snapshot, get_snapshot, resolve_snapshot_id. rewrite Hm. cbn [ok_or obind]. rewrite Hm. cbn [ok_or].
  destruct (stage_rollback_good (versions s) (sorted_items (files m)) ∅ 0 0) as (tmp & t & E & Ht).
  { apply Forall_forall. intros [p rev] Hin. apply sorted_items_elem in Hin. destruct (Hf _ _ Hin) as (H1 & _ & H2). done. }
  { apply sorted_items_nodup. }
  rewrite E. do 3 eexists. split; [reflexivity|]. split.
  { cbn. unfold zlen, sorted_items. by rewrite merge_sort_Permutation, length_map_to_list. }
  intros p. rewrite copy_staged_all, Ht, sorted_items_map, view_lookup.
  assert (p ∈ (sorted_items (files m)).*1 <-> is_Some (files m !! p)) as Hin.
  { split; [intros ([q rev] & -> & Hq)%list_elem_of_fmap; apply sorted_items_elem in Hq; eauto|].
    intros [rev Hq]. apply sorted_items_elem in Hq. by apply (list_elem_of_fmap_2 fst) in Hq. }
  destruct (files m !! p) as [rev|] eqn:Ep.
  - rewrite bool_decide_eq_true_2 by (apply Hin; eauto). destruct (Hf _ _ Ep) as (H1 & _ & b & H2 & _). cbn. by rewrite H1, H2.
  - rewrite bool_decide_eq_false_2 by (rewrite Hin; by intros [? ?]). cbn. destruct (can_delete p) eqn:Ed.
    + apply map_lookup_filter_None. right. intros b _ [[? H]|H]; cbn in *; congruence.
    + destruct (dir !! p) as [b|] eqn:Eb; [|apply map_lookup_filter_None; by left]. apply map_lookup_filter_Some. cbn. auto.
Qed.
End runs.

(** A transaction is prepared only when nobody has committed past the base of one of its operations. *)
Lemma occ_none c ops : occ_conflict c ops = None -> Forall (fun o => forall base rev, expected_base_version o = Some base ->
  latest c (path o) = Some rev -> revision_id rev <= base) ops.
Proof.
  induction ops as [|o ops IH]; [constructor|]. cbn. unfold conflict_of. intros H. constructor.
  - intros base rev E1 E2. rewrite E1, E2 in H. destruct (Z.ltb_spec base (revision_id rev)); [done|lia].
  - apply IH. destruct (expected_base_version o), (latest c (path o)); try done. by destruct (_ <? _).
Qed.

Module TxSnapExamples.
Definition hash (b : bytes) : Hash := take 32 ((wrap 8 <$> b) ++ replicate 32 0).
Definition order (m : gmap bytes StagedFileOp) : list (bytes * StagedFileOp) := map_to_list m.

Lemma hash_good b : Forall (fits 8) (hash b) /\ length (hash b) = 32%nat.
Proof.
  unfold hash. split.
  - apply Forall_take, Forall_app. split; [|by apply Forall_replicate]. apply Forall_fmap, Forall_forall. intros x _. by apply wrap_fits.
  - rewrite length_take, length_app, length_replicate. lia.
Qed.
Lemma order_all m : order m ≡ₚ map_to_list m.
Proof. done. Qed.

Definition node : bytes := lit "n1".
Definition engine : TxSnapshotEngine := new_engine node.
Definition id_at (secs nanos : Z) : bytes := (begin_tx hash engine None secs nanos).2.
Local Abbreviation go := (run hash order).

(** A transaction that writes one file, from begin to commit, at a time of its own. *)
Definition write_tx (t : Z) (p data : bytes) : list op :=
  [OBegin None t (10 * t); OStage (id_at t (10 * t)) p data None (10 * t + 1) None None; OPrepare (id_at t (10 * t)) [];
   OCommit (id_at t (10 * t)) [] None t env_ok].

Lemma write_tame t p data : Forall tame (write_tx t p data).
Proof. unfold write_tx. repeat (apply Forall_cons_2; [first [exact I|split; [done|by left]]|]). by apply Forall_nil_2. Qed.

Definition some_snap (s : TxSnapshotEngine) : GlobalSnapshotManifest :=
  match last (sorted_items (snapshots (catalog s))) with
  | Some (_, m) => m
  | None => mkManifest [] [] 0 ∅ [] [] ∅ [] 0 0 0 []
  end.
Definition first : list op := write_tx 1 (lit "a") [1].
Definition second : list op := write_tx 2 (lit "b") [2].
Definition m1 : GlobalSnapshotManifest := some_snap (go engine first).
Definition m2 : GlobalSnapshotManifest := some_snap (go engine (first ++ second)).

Lemma snapshots_stable_witness :
  read_snapshot hash (go (go engine first) second) (snapshot_id m1) (lit "/a") = Ok (Some [1]).
Proof.
  destruct (snapshots_stable hash order hash_good order_all node first second (snapshot_id m1) m1 (lit "/a")) as (_ & E & _).
  - cbn [first second write_tx ops_ok app]. repeat split; try lia; constructor.
  - vm_compute. reflexivity.
  - vm_compute. reflexivity.
  - apply E. vm_compute. reflexivity.
Defined.

Lemma snapshots_causal_witness : (epoch m1 < epoch m2 /\ TxVectorClock.is_causally_before (m_vector_clock m1) (m_vector_clock m2) = true) \/
  (epoch m2 < epoch m1 /\ TxVectorClock.is_causally_before (m_vector_clock m2) (m_vector_clock m1) = true).
Proof.
  apply (snapshots_causal hash order hash_good order_all node (first ++ second) (snapshot_id m1) m1 (snapshot_id m2) m2).
  - cbn [first second write_tx ops_ok app]. repeat split; try lia; constructor.
  - vm_compute. reflexivity.
  - vm_compute. reflexivity.
  - vm_compute. reflexivity.
  - vm_compute. discriminate.
Defined.

Lemma tx_refines_witness : let s := go engine (take 3 first) in
  let o := OCommit (id_at 1 10) [] None 1 env_ok in
  spec_reply (abs s) o (reply_of hash order s o) /\ abs (apply_op hash order s o) = spec_step (abs s) o (reply_of hash order s o).
Proof.
  destruct (tx_refines hash order hash_good order_all node (take 3 first) (OCommit (id_at 1 10) [] None 1 env_ok)) as (H1 & H2 & _).
  - exact (write_tame 1 (lit "a") [1]).
  - cbn [take first write_tx ops_ok app]. repeat split; try lia; constructor.
  - vm_compute. reflexivity.
  - intros a b [[name Ha]|[k Ha]] [[name' Hb]|[k' Hb]] _.
    1-3: match goal with H : versions _ !! _ = _ |- _ => vm_compute in H; discriminate H end.
    assert (staged (run hash order (new_engine node) (take 3 first)) = {[ (id_at 1 10, data_name (hash [1]) 11) := [1] ]}) as E
      by (vm_compute; reflexivity).
    rewrite E in Ha, Hb. apply lookup_singleton_Some in Ha as [_ <-], Hb as [_ <-]. reflexivity.
  - exact (conj H1 H2).
Defined.

Lemma rollback_exact_witness : exists s' dir' rep,
  rollback_to_snapshot hash (go engine (first ++ second)) (snapshot_id m1) (fun _ => true) {[ lit "b" := [2]; lit "a" := [9] ]} = (s', dir', Ok rep) /\
  dir' !! lit "a" = Some [1] /\ dir' !! lit "b" = None.
Proof.
  destruct (rollback_exact hash order hash_good order_all node (first ++ second) (snapshot_id m1) m1 (fun _ => true) {[ lit "b" := [2]; lit "a" := [9] ]})
    as [(s' & dir' & rep & E & _ & H) _].
  - apply Forall_app. split; apply write_tame.
  - cbn [first second write_tx ops_ok app]. repeat split; try lia; constructor.
  - vm_compute. reflexivity.
  - vm_compute. reflexivity.
  - exists s', dir', rep. split; [exact E|]. split; rewrite H; vm_compute; reflexivity.
Defined.

(** The base of a commit is the snapshot whose identifier is last in the order of strings, which from ten
    snapshots on is the ninth: the tenth transaction is missing from the eleventh snapshot. *)
Definition many (n : nat) : list op := mjoin ((fun k => write_tx (Z.of_nat k) [96 + Z.of_nat k] [Z.of_nat k]) <$> List.seq 1 n).
Example tenth_commit_lost :
  let s := go engine (many 11) in
  let read e p := (fun m => view s (files m) !! p) <$> List.find (fun m => epoch m =? e) (sorted_items (snapshots (catalog s))).*2 in
  read 10 [106] = Some (Some [10]) /\ read 11 [107] = Some (Some [11]) /\ read 11 [105] = Some (Some [9]) /\ read 11 [106] = Some None.
Proof. vm_compute. split_and!; reflexivity. Qed.

(** The base is checked when a transaction is prepared and not when it commits, so of two transactions
    prepared from the same base both commit. *)
Definition racing : list op :=
  let a := id_at 1 10 in let b := id_at 2 20 in
  [OBegin None 1 10; OBegin None 2 20; OStage a (lit "f") [1] (Some 0) 21 None None; OStage b (lit "f") [2] (Some 0) 22 None None;
   OPrepare a []; OPrepare b []; OCommit a [] None 3 env_ok; OCommit b [] None 4 env_ok].
Example both_commit : (fun m => (revision_id <$> files m !! lit "f")) <$> (sorted_items (snapshots (catalog (go engine racing)))).*2 = [Some 1; Some 2].
Proof. vm_compute. reflexivity. Qed.

(** Votes are not compared with the participants: none are needed. *)
Example no_votes_needed : let s := go engine [OBegin None 1 10; OPrepare (id_at 1 10) [lit "n2"; lit "n3"]] in
  reply_of hash order s (OCommit (id_at 1 10) [] None 2 env_ok) <> RRefused.
Proof. vm_compute. discriminate. Qed.

(** An abort only removes the files: when that fails the transaction stays prepared and can commit. *)
Example aborted_commits : let s := go engine [OBegin None 1 10; OPrepare (id_at 1 10) []; OAbort (id_at 1 10) (fun _ => false)] in
  match (commit_2pc hash order s (id_at 1 10) [] None 2 env_ok).2 with Ok m => epoch m = 1 | _ => False end.
Proof. vm_compute. reflexivity. Qed.

(** When the clean-up of a commit fails the transaction can be committed again. *)
Example commits_twice : let s := go engine [OBegin None 1 10; OPrepare (id_at 1 10) []; OCommit (id_at 1 10) [] None 2 (mkEnv (fun _ => None) None None false (fun _ => false))] in
  match (commit_2pc hash order s (id_at 1 10) [] None 2 env_ok).2 with Ok m => epoch m = 2 | _ => False end.
Proof. vm_compute. reflexivity. Qed.
(** A copy that fails and leaves a part of the version file: the commit fails, and when it is tried again
    it succeeds and keeps the part, since the file exists. Every read of the path then fails, also after
    another transaction writes the same contents. *)
Definition cut_copy : commit_env := mkEnv (fun _ => Some (mkFault 2 (lit "no space"))) None None true (fun _ => true).
Definition write_cut (t : Z) (p data : bytes) : list op :=
  [OBegin None t (10 * t); OStage (id_at t (10 * t)) p data None (10 * t + 1) None None; OPrepare (id_at t (10 * t)) [];
   OCommit (id_at t (10 * t)) [] None t cut_copy; OCommit (id_at t (10 * t)) [] None t env_ok].
Example truncated_version_stays :
  let s := go engine (write_cut 1 (lit "a") [1; 2; 3]) in
  let s' := go s (write_tx 2 (lit "a") [1; 2; 3]) in
  size (snapshots (catalog s)) = 1%nat /\ versions s' !! version_name (hash [1; 2; 3]) = Some [1] /\
  match read_snapshot hash s (snapshot_id (some_snap s)) (lit "a"), read_snapshot hash s' (snapshot_id (some_snap s')) (lit "a") with
  | Err _, Err _ => True
  | _, _ => False
  end.
Proof. vm_compute. split_and!; done. Qed.

(** An abort whose removal stops after the data and before the metadata: the transaction can still be
    committed, and its file has no contents. *)
Example half_removed_commits :
  let gn name := negb (bool_decide (name = META)) in
  let s := go engine [OBegin None 1 10; OStage (id_at 1 10) (lit "a") [1] None 11 None None; OPrepare (id_at 1 10) []; OAbort (id_at 1 10) gn;
                      OCommit (id_at 1 10) [] None 2 env_ok] in
  size (snapshots (catalog s)) = 1%nat /\ match read_snapshot hash s (snapshot_id (some_snap s)) (lit "a") with Err _ => True | _ => False end.
Proof. vm_compute. split; done. Qed.
End TxSnapExamples.
