(* ===== verification/ChunkStore.v ===== *)
(** * The content-addressed chunk store, storage/chunk_store.rs

    [LocalChunkStore]: chunk files by hash with their times, the Bloom filter in front of them, pins,
    access times and the pruning of the cache. Input and output errors of a write are an argument; a
    removal whose error the code ignores can fail. The directories and the temporary files of writes are
    left out, as is the ingestion of whole files. The size of the Bloom filter is floating point: an
    argument. *)

From S2P Require Import Prelude Utf8 Protocol Wire Rle Bloom.

Record PrunePolicy := mkPolicy {
  max_bytes : option Z; max_chunks : option Z; ttl : option Z; keep_hashes : option (gset Hash) }.

Record PruneReport := mkReport {
  chunks_scanned : Z; chunks_pruned : Z; bytes_reclaimed : Z; bytes_remaining : Z; chunks_remaining : Z; pinned_skipped : Z }.

(** A chunk file, with its modification time. *)
Record chunk_file := mkFile { data : bytes; modified : Z }.

Record LocalChunkStore := mkStore {
  chunks : gmap Hash chunk_file;
  bloom : Bloom.t;
  pinned_chunks : gmap Hash Z;
  access_times : gmap Hash Z }.

Definition with_chunks (s : LocalChunkStore) (m : gmap Hash chunk_file) : LocalChunkStore :=
  mkStore m (bloom s) (pinned_chunks s) (access_times s).
Definition with_bloom (s : LocalChunkStore) (b : Bloom.t) : LocalChunkStore :=
  mkStore (chunks s) b (pinned_chunks s) (access_times s).
Definition with_pins (s : LocalChunkStore) (m : gmap Hash Z) : LocalChunkStore :=
  mkStore (chunks s) (bloom s) m (access_times s).
Definition with_access (s : LocalChunkStore) (m : gmap Hash Z) : LocalChunkStore :=
  mkStore (chunks s) (bloom s) (pinned_chunks s) m.

(** [sort_by_key], which is stable. *)
Fixpoint insert_by {A} (key : A -> Z) (x : A) (l : list A) : list A :=
  match l with
  | [] => [x]
  | y :: l' => if key y <? key x then y :: insert_by key x l' else x :: l
  end.
Definition sort_by_key {A} (key : A -> Z) (l : list A) : list A := foldr (insert_by key) [] l.

Section store.
(** [Hash::of], and the filter [BloomFilter::new] builds for a number of hashes. *)
Context (hash_of : bytes -> Hash) (bloom_bits : Z -> Z) (bloom_hashes : Z -> Z -> Z).

Definition new_bloom (n : Z) : Bloom.t := Bloom.new (bloom_bits n) (bloom_hashes n).

(** The hashes of the directory are those of the chunk files. *)
Definition rebuild_bloom_sync (s : LocalChunkStore) : outcome VelcruxError LocalChunkStore :=
  let hashes := (map_to_list (chunks s)).*1 in
  let? b := Bloom.insert_all (new_bloom (Z.max (zlen hashes) 1000)) hashes in
  Ok (with_bloom s b).

Definition open_store (files : gmap Hash chunk_file) : outcome VelcruxError LocalChunkStore :=
  rebuild_bloom_sync (mkStore files (new_bloom 50000) ∅ ∅).

Definition contains_sync (s : LocalChunkStore) (h : Hash) : outcome VelcruxError bool :=
  let? b := Bloom.contains (bloom s) h in
  if b : bool then Ok (bool_decide (is_Some (chunks s !! h))) else Ok false.

Definition MISMATCH : VelcruxError := EProtocol (Malformed "checksum mismatch").

(** [removed]: whether the ignored removal of a damaged file succeeds. *)
Definition get_sync (s : LocalChunkStore) (h : Hash) (now : Z) (removed : bool) : LocalChunkStore * outcome VelcruxError bytes :=
  match chunks s !! h with
  | None => (s, Err (EIo "No such file or directory (os error 2)"))
  | Some f =>
      if bool_decide (hash_of (data f) = h) then (with_access s (<[h := now]> (access_times s)), Ok (data f))
      else (if removed then with_chunks s (delete h (chunks s)) else s, Err MISMATCH)
  end.

(** [broken]: an input or output error of the calls that write the file. *)
Definition put_file (s : LocalChunkStore) (h : Hash) (b : bytes) (now : Z) (broken : option string) : outcome VelcruxError (LocalChunkStore * bool) :=
  if negb (bool_decide (hash_of b = h)) then Err MISMATCH
  else if bool_decide (is_Some (chunks s !! h)) then Ok (s, false)
  else
    match broken with
    | Some why => Err (EIo why)
    | None =>
        let s := with_chunks s (<[h := mkFile b now]> (chunks s)) in
        let? f := Bloom.insert (bloom s) h in
        Ok (with_bloom s f, true)
    end.
Definition put_sync (s : LocalChunkStore) (h : Hash) (b : bytes) (now : Z) (broken : option string) : outcome VelcruxError LocalChunkStore :=
  let? '(s, written) := put_file s h b now broken in
  Ok (if written : bool then with_access s (<[h := now]> (access_times s)) else s).
(** The asynchronous put does not note the access. *)
Definition put (s : LocalChunkStore) (h : Hash) (b : bytes) (now : Z) (broken : option string) : outcome VelcruxError LocalChunkStore :=
  let? '(s, _) := put_file s h b now broken in Ok s.

Definition remove (s : LocalChunkStore) (h : Hash) (broken : option string) : outcome VelcruxError (LocalChunkStore * bool) :=
  match broken with
  | Some why => Err (EIo why)
  | None =>
      match chunks s !! h with
      | Some _ => Ok (with_access (with_chunks s (delete h (chunks s))) (delete h (access_times s)), true)
      | None => Ok (s, false)
      end
  end.

Fixpoint has_batch (s : LocalChunkStore) (l : list Hash) : outcome VelcruxError (list bool) :=
  match l with
  | [] => Ok []
  | h :: l => let? b := contains_sync s h in let? r := has_batch s l in Ok (b :: r)
  end.
Definition total_chunks (s : LocalChunkStore) : Z := Z.of_nat (size (chunks s)).
Definition total_bytes (s : LocalChunkStore) : Z :=
  foldl (fun a (e : Hash * chunk_file) => wrap 64 (a + zlen (data e.2))) 0 (map_to_list (chunks s)).

Definition pin_chunk (s : LocalChunkStore) (h : Hash) : LocalChunkStore :=
  with_pins s (<[h := default 0 (pinned_chunks s !! h) + 1]> (pinned_chunks s)).
Definition unpin_chunk (s : LocalChunkStore) (h : Hash) : LocalChunkStore :=
  match pinned_chunks s !! h with
  | Some c => with_pins s (if c <=? 1 then delete h (pinned_chunks s) else <[h := c - 1]> (pinned_chunks s))
  | None => s
  end.
Definition is_pinned (s : LocalChunkStore) (h : Hash) : bool := 0 <? default 0 (pinned_chunks s !! h).

(** ** Pruning *)

Record ChunkEntry := mkEntry { e_hash : Hash; e_size : Z; last_access : Z; pinned : bool }.

#[global] Instance ChunkEntry_eq_dec : EqDecision ChunkEntry.
Proof. solve_decision. Defined.

Definition entry_of (s : LocalChunkStore) (p : PrunePolicy) (x : Hash * chunk_file) : ChunkEntry :=
  let kept := match keep_hashes p with Some k => bool_decide (x.1 ∈ k) | None => false end in
  mkEntry x.1 (zlen (data x.2)) (default (modified x.2) (access_times s !! x.1)) (is_pinned s x.1 || kept).

(** Unpinned and not used for the time to live; a time ahead of the clock has no age. *)
Definition expired (p : PrunePolicy) (now : Z) (e : ChunkEntry) : bool :=
  match ttl p with
  | Some t => negb (pinned e) && (last_access e <=? now) && (t <=? now - last_access e)
  | None => false
  end.

(** The loop over the unpinned entries, the oldest first. *)
Fixpoint evict (max_b max_c : Z) (l : list ChunkEntry) (to_prune : gset Hash) (cur_bytes cur_chunks : Z) : gset Hash :=
  match l with
  | [] => to_prune
  | e :: l =>
      if (cur_bytes <=? max_b) && (cur_chunks <=? max_c) then to_prune
      else evict max_b max_c l ({[ e_hash e ]} ∪ to_prune) (saturating_sub cur_bytes (e_size e)) (saturating_sub cur_chunks 1)
  end.

Definition total_size (l : list ChunkEntry) : Z := foldl (fun a e => wrap 64 (a + e_size e)) 0 l.
Definition U64_MAX : Z := 2 ^ 64 - 1.

Definition choose (p : PrunePolicy) (now : Z) (entries : list ChunkEntry) : gset Hash :=
  let to_prune := list_to_set (e_hash <$> List.filter (expired p now) entries) : gset Hash in
  let free e := negb (pinned e) && negb (bool_decide (e_hash e ∈ to_prune)) in
  let left := List.filter (fun e => negb (bool_decide (e_hash e ∈ to_prune))) entries in
  evict (default U64_MAX (max_bytes p)) (default U64_MAX (max_chunks p)) (sort_by_key last_access (List.filter free entries)) to_prune
    (total_size left) (zlen entries - Z.of_nat (size to_prune)).

(** One entry of the last loop: a file that is pruned goes when its removal succeeds. *)
Definition prune_one (to_prune : gset Hash) (can_remove : Hash -> bool) (acc : LocalChunkStore * PruneReport) (e : ChunkEntry)
  : LocalChunkStore * PruneReport :=
  let '(s, r) := acc in
  if bool_decide (e_hash e ∈ to_prune) then
    let s := if can_remove (e_hash e) then with_chunks s (delete (e_hash e) (chunks s)) else s in
    (with_access s (delete (e_hash e) (access_times s)),
     mkReport (chunks_scanned r) (chunks_pruned r + 1) (bytes_reclaimed r + e_size e) (bytes_remaining r) (chunks_remaining r) (pinned_skipped r))
  else (s, mkReport (chunks_scanned r) (chunks_pruned r) (bytes_reclaimed r) (bytes_remaining r + e_size e) (chunks_remaining r + 1) (pinned_skipped r)).

Definition prune_cache_sync (s : LocalChunkStore) (p : PrunePolicy) (now : Z) (can_remove : Hash -> bool)
  : outcome VelcruxError (LocalChunkStore * PruneReport) :=
  let entries := entry_of s p <$> map_to_list (chunks s) in
  let r := mkReport (zlen entries) 0 0 0 0 (zlen (List.filter pinned entries)) in
  let '(s, r) := foldl (prune_one (choose p now entries) can_remove) (s, r) entries in
  if 0 <? chunks_pruned r then let? s := rebuild_bloom_sync s in Ok (s, r) else Ok (s, r).
End store.

(** ** The store answers for its files *)

Section proofs.
Context (hash_of : bytes -> Hash) (bloom_bits : Z -> Z) (bloom_hashes : Z -> Z -> Z).
Context (hash_wf : forall b, wf_hash (hash_of b)).

(** The filter holds every chunk. *)
Definition filter_ok (s : LocalChunkStore) : Prop := Bloom.wf (bloom s) /\
  forall h f, chunks s !! h = Some f -> wf_hash h /\ Bloom.holds (bloom s) h.

Lemma new_bloom_wf n : Bloom.wf (new_bloom bloom_bits bloom_hashes n).
Proof. apply Bloom.with_dimensions_wf. Qed.

Lemma contains_exact s h : filter_ok s -> wf_hash h -> contains_sync s h = Ok (bool_decide (is_Some (chunks s !! h))).
Proof.
  intros [Hw Hf] Hh. unfold contains_sync. rewrite Bloom.contains_spec by done. cbn [obind].
  destruct (forallb _ _) eqn:E; [done|]. rewrite bool_decide_eq_false_2; [done|]. intros [f Ef]. destruct (Hf _ _ Ef) as [_ H]. unfold Bloom.holds in H. congruence.
Qed.

Lemma rebuild_ok s : (forall h f, chunks s !! h = Some f -> wf_hash h) ->
  exists b, rebuild_bloom_sync bloom_bits bloom_hashes s = Ok (with_bloom s b) /\ filter_ok (with_bloom s b).
Proof.
  intros Hs. unfold rebuild_bloom_sync.
  destruct (@Bloom.insert_all_ok VelcruxError ((map_to_list (chunks s)).*1)) with (f := new_bloom bloom_bits bloom_hashes (Z.max (zlen (map_to_list (chunks s)).*1) 1000))
    as (b & -> & Hw & Hall & _).
  - apply Forall_forall. intros h ([k f] & -> & Hk)%list_elem_of_fmap. apply elem_of_map_to_list in Hk. by eapply Hs.
  - apply new_bloom_wf.
  - exists b. split; [done|]. split; [done|]. intros h f Hf. split; [by eapply Hs|]. rewrite Forall_forall in Hall. apply Hall.
    apply elem_of_map_to_list in Hf. by apply (list_elem_of_fmap_2 fst) in Hf.
Qed.

Lemma put_file_ok s h b now broken : filter_ok s ->
  put_file hash_of s h b now broken = Err MISMATCH /\ hash_of b <> h \/
  (exists why, put_file hash_of s h b now broken = Err (EIo why)) \/
  hash_of b = h /\ is_Some (chunks s !! h) /\ put_file hash_of s h b now broken = Ok (s, false) \/
  hash_of b = h /\ chunks s !! h = None /\ exists f, put_file hash_of s h b now broken = Ok (with_bloom (with_chunks s (<[h := mkFile b now]> (chunks s))) f, true) /\
    filter_ok (with_bloom (with_chunks s (<[h := mkFile b now]> (chunks s))) f).
Proof.
  intros [Hw Hf]. unfold put_file. destruct (bool_decide (hash_of b = h)) eqn:E; [apply bool_decide_eq_true in E as <-|left; split; [done|by apply bool_decide_eq_false in E]].
  right. cbn [negb]. destruct (chunks s !! hash_of b) as [f0|] eqn:Ec; [rewrite bool_decide_eq_true_2 by eauto; right; left; eauto|].
  rewrite bool_decide_eq_false_2 by (by intros [? ?]). destruct broken as [why|]; [left; eauto|]. right; right. split; [done|]. split; [done|].
  destruct (@Bloom.insert_ok VelcruxError (bloom s) (hash_of b) Hw (hash_wf b)) as (f & Ei & Hw' & _). cbn. rewrite Ei. cbn. exists f. split; [done|].
  split; [done|]. cbn. intros k x. destruct (decide (k = hash_of b)) as [->|Hne].
  - intros _. split; [apply hash_wf|]. exact (proj1 (Bloom.insert_holds _ _ _ (hash_of b) Hw (hash_wf b) Ei)).
  - rewrite lookup_insert_ne by done. intros Hk. destruct (Hf _ _ Hk). split; [done|]. by apply (proj2 (Bloom.insert_holds _ _ _ k Hw (hash_wf b) Ei)).
Qed.

Lemma filter_ok_delete s h : filter_ok s -> filter_ok (with_chunks s (delete h (chunks s))).
Proof. intros [Hw Hf]. split; [done|]. cbn. intros k f [_ Hk]%lookup_delete_Some. by eapply Hf. Qed.

(** What the last loop of a pruning leaves. *)
Lemma prune_fold T can_remove l s r : let s' := (foldl (prune_one T can_remove) (s, r) l).1 in
  bloom s' = bloom s /\ pinned_chunks s' = pinned_chunks s /\
  forall h, chunks s' !! h = if bool_decide (h ∈ e_hash <$> l) && bool_decide (h ∈ T) && can_remove h then None else chunks s !! h.
Proof.
  revert s r. induction l as [|e l IH]; intros s r; [done|]. cbn [foldl].
  assert (exists s1 r1, prune_one T can_remove (s, r) e = (s1, r1) /\ bloom s1 = bloom s /\ pinned_chunks s1 = pinned_chunks s /\
    chunks s1 = if bool_decide (e_hash e ∈ T) && can_remove (e_hash e) then delete (e_hash e) (chunks s) else chunks s) as (s1 & r1 & -> & B1 & P1 & C1).
  { unfold prune_one. destruct (bool_decide (e_hash e ∈ T)); [|by do 2 eexists]. destruct (can_remove (e_hash e)); by do 2 eexists. }
  destruct (IH s1 r1) as (B2 & P2 & C2). split; [congruence|]. split; [congruence|]. intros h. rewrite C2, C1. rewrite fmap_cons.
  destruct (decide (h = e_hash e)) as [->|Hne].
  - rewrite (bool_decide_eq_true_2 (e_hash e ∈ e_hash e :: _)) by left. cbn [andb].
    destruct (bool_decide (e_hash e ∈ T) && can_remove (e_hash e)) eqn:E.
    + rewrite lookup_delete_eq. by destruct (_ && _ && _).
    + rewrite <- andb_assoc, E. by rewrite andb_false_r.
  - assert (bool_decide (h ∈ e_hash e :: (e_hash <$> l)) = bool_decide (h ∈ e_hash <$> l)) as -> by (apply bool_decide_ext; rewrite elem_of_cons; naive_solver).
    destruct (bool_decide (h ∈ e_hash <$> l) && bool_decide (h ∈ T) && can_remove h); [done|].
    destruct (bool_decide (e_hash e ∈ T) && can_remove (e_hash e)); [by rewrite lookup_delete_ne|done].
Qed.

Lemma entries_hashes s p : e_hash <$> (entry_of s p <$> map_to_list (chunks s)) = (map_to_list (chunks s)).*1.
Proof. rewrite <- list_fmap_compose. done. Qed.

Lemma prune_result s p now can_remove : filter_ok s ->
  exists s' r, prune_cache_sync bloom_bits bloom_hashes s p now can_remove = Ok (s', r) /\ filter_ok s' /\
    forall h, chunks s' !! h = if bool_decide (h ∈ choose p now (entry_of s p <$> map_to_list (chunks s))) && can_remove h then None else chunks s !! h.
Proof.
  intros [Hw Hf]. unfold prune_cache_sync. set (entries := entry_of s p <$> map_to_list (chunks s)). set (T := choose p now entries).
  match goal with |- context [foldl (prune_one T can_remove) (s, ?r0) entries] =>
    pose proof (prune_fold T can_remove entries s r0) as Hp; destruct (foldl (prune_one T can_remove) (s, r0) entries) as [s1 r1] end.
  cbn [fst] in Hp. destruct Hp as (B1 & _ & C1).
  assert (forall h, chunks s1 !! h = if bool_decide (h ∈ T) && can_remove h then None else chunks s !! h) as C2.
  { intros h. rewrite C1. unfold entries. rewrite entries_hashes. destruct (chunks s !! h) as [f|] eqn:E; [|by repeat case_match].
    rewrite (bool_decide_eq_true_2 (h ∈ (map_to_list (chunks s)).*1)); [done|]. apply elem_of_map_to_list in E. by apply (list_elem_of_fmap_2 fst) in E. }
  assert (forall h f, chunks s1 !! h = Some f -> chunks s !! h = Some f) as C3.
  { intros h f. rewrite C2. by destruct (bool_decide (h ∈ T) && can_remove h). }
  destruct (0 <? chunks_pruned r1).
  - destruct (rebuild_ok s1) as (b & -> & Hb); [intros h f Hh; apply C3 in Hh; by apply Hf in Hh as []|]. cbn. eauto.
  - exists s1, r1. split; [done|]. split; [|done]. split; [by rewrite B1|]. intros h f Hh. rewrite B1. apply C3 in Hh. by apply Hf in Hh.
Qed.

(** ** Runs *)

Inductive op :=
  | OPut (h : Hash) (b : bytes) (now : Z) (broken : option string) (sync : bool)
  | OGet (h : Hash) (now : Z) (removed : bool)
  | ORemove (h : Hash) (broken : option string)
  | ORebuild
  | OPin (h : Hash)
  | OUnpin (h : Hash)
  | OPrune (p : PrunePolicy) (now : Z) (can_remove : Hash -> bool)
  | ODamage (h : Hash) (b : bytes).

(** An operation that reports an error leaves the store as it was, and a damage of the disk replaces
    the contents of a file. *)
Definition settle {A} (s : LocalChunkStore) (f : A -> LocalChunkStore) (c : outcome VelcruxError A) : outcome Empty_set LocalChunkStore :=
  match c with Ok a => Ok (f a) | Err _ => Ok s | Panic => Panic end.
Definition apply_op (s : LocalChunkStore) (o : op) : outcome Empty_set LocalChunkStore :=
  match o with
  | OPut h b now broken sync => settle s id (if sync then put_sync hash_of s h b now broken else put hash_of s h b now broken)
  | OGet h now removed => Ok (get_sync hash_of s h now removed).1
  | ORemove h broken => settle s fst (remove s h broken)
  | ORebuild => settle s id (rebuild_bloom_sync bloom_bits bloom_hashes s)
  | OPin h => Ok (pin_chunk s h)
  | OUnpin h => Ok (unpin_chunk s h)
  | OPrune p now can_remove => settle s fst (prune_cache_sync bloom_bits bloom_hashes s p now can_remove)
  | ODamage h b => Ok (with_chunks s (alter (fun f => mkFile b (modified f)) h (chunks s)))
  end.
Fixpoint run (s : LocalChunkStore) (l : list op) : outcome Empty_set LocalChunkStore :=
  match l with [] => Ok s | o :: l => let? s := apply_op s o in run s l end.

Definition damaged (l : list op) : gset Hash :=
  list_to_set (omap (fun o => match o with ODamage h _ => Some h | _ => None end) l).
Definition verified (bad : gset Hash) (s : LocalChunkStore) : Prop :=
  forall h f, chunks s !! h = Some f -> h ∉ bad -> hash_of (data f) = h.

Lemma verified_sub bad s s' : (forall h f, chunks s' !! h = Some f -> chunks s !! h = Some f) -> verified bad s -> verified bad s'.
Proof. intros Hs Hv h f Hf. by apply Hv, Hs. Qed.

Lemma put_any s h b now broken bad : filter_ok s -> verified bad s ->
  (exists e, put_file hash_of s h b now broken = Err e) \/
  exists s' w, put_file hash_of s h b now broken = Ok (s', w) /\ filter_ok s' /\ verified bad s' /\ is_Some (chunks s' !! h).
Proof.
  intros Hf Hv. destruct (put_file_ok s h b now broken Hf) as [[E _]|[[why E]|[(_ & Hs & E)|(Hh & Hn & f & E & Hf')]]]; [eauto..| |].
  - right. exists s, false. auto.
  - right. do 2 eexists. split; [exact E|]. split; [done|]. split; [|cbn; rewrite lookup_insert_eq; by eexists].
    intros k x. cbn. destruct (decide (k = h)) as [->|Hne]; [rewrite lookup_insert_eq; by intros [= <-]|rewrite lookup_insert_ne by done; apply Hv].
Qed.

Lemma chunk_step_ok s o bad : filter_ok s -> verified bad s ->
  exists s', apply_op s o = Ok s' /\ filter_ok s' /\ verified (damaged [o] ∪ bad) s'.
Proof.
  intros Hf Hv. assert (forall x, verified bad x -> verified (damaged [o] ∪ bad) x) as Hw by (intros x Hx h f E Hh; apply Hx; set_solver).
  destruct o; cbn [apply_op].
  - assert (put_sync hash_of s h b now broken = (let? '(s, w) := put_file hash_of s h b now broken in Ok (if w : bool then with_access s (<[h := now]> (access_times s)) else s))) as E1 by done.
    assert (put hash_of s h b now broken = (let? '(s, w) := put_file hash_of s h b now broken in Ok s)) as E2 by done.
    destruct (put_any s h b now broken bad Hf Hv) as [[e E]|(s' & w & E & F1 & F2 & _)]; rewrite E in E1, E2; cbn in E1, E2; rewrite E1, E2.
    + exists s. destruct sync; auto.
    + destruct sync; cbn; [|by eauto]. eexists. split; [reflexivity|]. by destruct w; auto.
  - unfold get_sync. destruct (chunks s !! h) as [f|] eqn:E; [|by eauto]. destruct (bool_decide (hash_of (data f) = h)); [by eauto|].
    destruct removed; cbn; [|by eauto]. eexists. split; [reflexivity|]. split; [by apply filter_ok_delete|]. apply Hw.
    eapply verified_sub; [|done]. cbn. by intros k x [_ ?]%lookup_delete_Some.
  - unfold remove. destruct broken; [by eauto|]. destruct (chunks s !! h) as [f|] eqn:E; cbn; [|by eauto]. eexists. split; [reflexivity|].
    split; [exact (filter_ok_delete s h Hf)|]. apply Hw. eapply verified_sub; [|done]. cbn. by intros k x [_ ?]%lookup_delete_Some.
  - destruct (rebuild_ok s) as (b & -> & Hb); [intros h f Hh; by apply Hf in Hh as []|]. cbn. eexists. split; [reflexivity|]. by auto.
  - by eauto.
  - eexists. split; [reflexivity|]. unfold unpin_chunk. destruct (pinned_chunks s !! h); auto.
  - destruct (prune_result s p now can_remove Hf) as (s' & r & -> & Hf' & Hc). cbn. eexists. split; [reflexivity|]. split; [done|]. apply Hw.
    eapply verified_sub; [|done]. intros k x. rewrite Hc. by destruct (_ && _).
  - eexists. split; [reflexivity|]. destruct Hf as [F1 F2]. split.
    + split; [done|]. cbn. intros k x. rewrite lookup_alter_Some. intros [(<- & y & Hy & ->)|[_ Hk]]; by eapply F2.
    + intros k x. cbn. rewrite lookup_alter_Some. intros [(<- & y & Hy & ->)|[_ Hk]] Hn; [set_solver|]. eapply Hv; [done|set_solver].
Qed.

Lemma store_run_ok l s bad : filter_ok s -> verified bad s -> exists s', run s l = Ok s' /\ filter_ok s' /\ verified (damaged l ∪ bad) s'.
Proof.
  revert s bad. induction l as [|o l IH]; intros s bad Hf Hv.
  - exists s. split; [done|]. split; [done|]. intros h f E Hh. apply Hv; set_solver.
  - destruct (chunk_step_ok s o bad Hf Hv) as (s1 & E & Hf1 & Hv1). destruct (IH s1 _ Hf1 Hv1) as (s' & E' & Hf' & Hv').
    exists s'. cbn [run]. rewrite E. cbn. split; [done|]. split; [done|]. intros h f Ef Hh. eapply Hv'; [done|].
    unfold damaged in *. cbn in *. destruct o; cbn in *; set_solver.
Qed.

(** C32. The store answers for its chunks. Any operations on a new store, with failing calls and damaged
    files, run without a panic, and afterwards: the membership test is exact, behind the Bloom filter; what
    a read returns has the hash that was asked for; a chunk that was not damaged is read; and a chunk that
    is put with its hash is there. *)
Theorem chunk_store_correct l : exists s0 s, open_store bloom_bits bloom_hashes ∅ = Ok s0 /\ run s0 l = Ok s /\
  (forall h, wf_hash h -> contains_sync s h = Ok (bool_decide (is_Some (chunks s !! h)))) /\
  (forall h now rm b, (get_sync hash_of s h now rm).2 = Ok b -> hash_of b = h) /\
  (forall h now rm, is_Some (chunks s !! h) -> h ∉ damaged l -> exists b, (get_sync hash_of s h now rm).2 = Ok b) /\
  (forall b now s', put_sync hash_of s (hash_of b) b now None = Ok s' -> contains_sync s' (hash_of b) = Ok true).
Proof.
  destruct (rebuild_ok (mkStore ∅ (new_bloom bloom_bits bloom_hashes 50000) ∅ ∅)) as (b0 & E0 & Hf0); [by intros ? ? ?|].
  destruct (store_run_ok l _ ∅ Hf0) as (s & E & Hf & Hv); [by intros ? ? ?|]. do 2 eexists. split; [exact E0|]. split; [exact E|]. split_and!.
  - intros h Hh. by apply contains_exact.
  - intros h now rm b. unfold get_sync. destruct (chunks s !! h) as [f|]; [|done]. destruct (bool_decide (hash_of (data f) = h)) eqn:Eh; [|done].
    cbn. intros [= <-]. by apply bool_decide_eq_true in Eh.
  - intros h now rm [f Ef] Hh. unfold get_sync. rewrite Ef, bool_decide_eq_true_2; [by eexists|]. eapply Hv; [done|set_solver].
  - intros b now s'. unfold put_sync. destruct (put_any s (hash_of b) b now None (damaged l ∪ ∅) Hf Hv) as [[e ->]|(s1 & w & -> & F1 & _ & F3)]; [done|].
    cbn. intros [= <-]. assert (contains_sync s1 (hash_of b) = Ok true) as Hc by (rewrite contains_exact by (done || apply hash_wf); by rewrite bool_decide_eq_true_2).
    by destruct w.
Qed.
End proofs.

(** ** Pruning keeps what it should *)

Definition bytes_of (l : list ChunkEntry) : Z := foldr (fun e n => e_size e + n) 0 l.

Lemma bytes_of_app l1 l2 : bytes_of (l1 ++ l2) = bytes_of l1 + bytes_of l2.
Proof. unfold bytes_of. induction l1 as [|e l1 IH]; [done|]. cbn [app foldr]. rewrite IH. lia. Qed.
#[global] Instance bytes_of_perm : Proper ((≡ₚ) ==> eq) bytes_of.
Proof. induction 1; cbn in *; unfold bytes_of in *; lia. Qed.
Lemma bytes_of_nonneg l : Forall (fun e => 0 <= e_size e) l -> 0 <= bytes_of l.
Proof. induction 1; cbn; unfold bytes_of in *; lia. Qed.
Lemma total_size_eq l : Forall (fun e => 0 <= e_size e) l -> bytes_of l < 2 ^ 64 -> total_size l = bytes_of l.
Proof.
  intros Hl Hb. unfold total_size. assert (forall a, 0 <= a -> a + bytes_of l < 2 ^ 64 -> foldl (fun a e => wrap 64 (a + e_size e)) a l = a + bytes_of l) as H.
  { clear Hb. induction Hl as [|e l He Hl IH]; intros a Ha Hb; cbn in *; [unfold bytes_of; lia|]. pose proof (bytes_of_nonneg l Hl). unfold bytes_of in *.
    rewrite wrap_small by (unfold fits; lia). rewrite IH by lia. lia. }
  rewrite H by lia. lia.
Qed.

Lemma insert_by_perm {A} (key : A -> Z) x l : insert_by key x l ≡ₚ x :: l.
Proof. induction l as [|y l IH]; [done|]. cbn. destruct (key y <? key x); [|done]. rewrite IH. constructor. Qed.
Lemma sort_by_perm {A} (key : A -> Z) l : sort_by_key key l ≡ₚ l.
Proof. induction l as [|x l IH]; [done|]. cbn. rewrite insert_by_perm. by constructor. Qed.
Lemma insert_by_sorted {A} (key : A -> Z) x l : StronglySorted (fun a b => key a <= key b) l -> StronglySorted (fun a b => key a <= key b) (insert_by key x l).
Proof.
  induction 1 as [|y l Hs IH Hy]; [by repeat constructor|]. cbn. destruct (Z.ltb_spec (key y) (key x)).
  - constructor; [done|]. rewrite insert_by_perm. constructor; [lia|done].
  - constructor; [by constructor|]. constructor; [lia|]. eapply Forall_impl; [exact Hy|]. cbn. lia.
Qed.
Lemma sort_by_sorted {A} (key : A -> Z) l : StronglySorted (fun a b => key a <= key b) (sort_by_key key l).
Proof. induction l as [|x l IH]; [constructor|]. by apply insert_by_sorted. Qed.

(** Eviction takes a prefix, up to the first point within the limits. *)
Lemma evict_prefix max_b max_c l T b c : Forall (fun e => 0 <= e_size e) l -> bytes_of l <= b -> zlen l <= c ->
  exists k, (k <= length l)%nat /\ evict max_b max_c l T b c = list_to_set (e_hash <$> take k l) ∪ T /\
    (k = length l \/ b - bytes_of (take k l) <= max_b /\ c - Z.of_nat k <= max_c) /\
    (k <> 0%nat -> max_b < b \/ max_c < c).
Proof.
  intros Hl. revert T b c. induction Hl as [|e l He Hl IH]; intros T b c Hb Hc.
  - exists 0%nat. cbn. split; [lia|]. split; [set_solver|]. split; [by left|lia].
  - pose proof (bytes_of_nonneg l Hl). rewrite zlen_cons in Hc. cbn [bytes_of foldr] in Hb. fold (bytes_of l) in Hb. cbn [evict]. pose proof (zlen_nonneg l).
    destruct ((b <=? max_b) && (c <=? max_c)) eqn:E.
    + apply andb_true_iff in E as [E1%Z.leb_le E2%Z.leb_le]. exists 0%nat. split; [lia|]. split; [set_solver|]. split; [right; cbn; lia|lia].
    + unfold saturating_sub. rewrite !Z.max_r by lia. destruct (IH ({[ e_hash e ]} ∪ T) (b - e_size e) (c - 1)) as (k & H1 & -> & H3 & _); [lia|lia|].
      exists (S k). split; [cbn; lia|]. split; [cbn; set_solver|]. split.
      * destruct H3 as [->|[H3 H4]]; [by left|right]. cbn [take bytes_of foldr]. fold (bytes_of (take k l)). lia.
      * intros _. apply andb_false_iff in E as [E%Z.leb_gt|E%Z.leb_gt]; lia.
Qed.

Section choose.
Context (p : PrunePolicy) (now : Z) (entries : list ChunkEntry).
Context (Hnd : NoDup (e_hash <$> entries)) (Hsz : Forall (fun e => 0 <= e_size e) entries) (Hsum : bytes_of entries < 2 ^ 64).

Definition old : gset Hash := list_to_set (e_hash <$> List.filter (expired p now) entries).
Definition left_of (T : gset Hash) : list ChunkEntry := List.filter (fun e => negb (bool_decide (e_hash e ∈ T))) entries.

Lemma hash_once e e' : e ∈ entries -> e' ∈ entries -> e_hash e = e_hash e' -> e = e'.
Proof.
  clear -Hnd. intros He He' E. induction entries as [|x l IH]; [by apply elem_of_nil in He|]. rewrite fmap_cons in Hnd. apply NoDup_cons in Hnd as [Hx Hl].
  apply elem_of_cons in He as [->|He]; apply elem_of_cons in He' as [->|He']; [done| | |by apply IH].
  - exfalso. apply Hx. rewrite E. by apply list_elem_of_fmap_2.
  - exfalso. apply Hx. rewrite <- E. by apply list_elem_of_fmap_2.
Qed.
Lemma in_filter (f : ChunkEntry -> bool) l e : e ∈ List.filter f l <-> e ∈ l /\ f e = true.
Proof. by rewrite !list_elem_of_In, List.filter_In. Qed.
Lemma in_hashes (f : ChunkEntry -> bool) e : e ∈ entries -> e_hash e ∈ (list_to_set (e_hash <$> List.filter f entries) : gset Hash) <-> f e = true.
Proof.
  intros He. rewrite elem_of_list_to_set, list_elem_of_fmap. split.
  - intros (e' & E & [He' Hf]%in_filter). by rewrite (hash_once e e').
  - intros Hf. exists e. split; [done|]. by apply in_filter.
Qed.
Lemma in_left T e : e ∈ left_of T <-> e ∈ entries /\ e_hash e ∉ T.
Proof. unfold left_of. by rewrite in_filter, negb_true_iff, bool_decide_eq_false. Qed.

Lemma nodup_filter (f : ChunkEntry -> bool) l : NoDup l -> NoDup (List.filter f l).
Proof. intros H. apply NoDup_ListNoDup. apply List.NoDup_filter. by apply NoDup_ListNoDup. Qed.
Lemma nodup_entries : NoDup entries.
Proof. by apply NoDup_fmap_1 in Hnd. Qed.

Lemma nodup_hashes (l : list ChunkEntry) : NoDup l -> l ⊆ entries -> NoDup (e_hash <$> l).
Proof.
  induction 1 as [|x l Hx Hl IH]; intros Hs; [constructor|]. rewrite fmap_cons. constructor; [|apply IH; set_solver].
  intros (y & E & Hy)%list_elem_of_fmap. apply Hx. rewrite (hash_once x y); [done|set_solver|set_solver|done].
Qed.

(** The candidates, in the order of their last access. *)
Definition victims : list ChunkEntry :=
  sort_by_key last_access (List.filter (fun e => negb (pinned e) && negb (bool_decide (e_hash e ∈ old))) entries).
Lemma in_victims e : e ∈ victims <-> e ∈ entries /\ pinned e = false /\ e_hash e ∉ old.
Proof. unfold victims. rewrite sort_by_perm, in_filter, andb_true_iff, !negb_true_iff, bool_decide_eq_false. done. Qed.

Lemma left_split T k : T = list_to_set (e_hash <$> take k victims) ∪ old -> left_of old ≡ₚ take k victims ++ left_of T.
Proof.
  intros ->. assert (forall x, x ∈ take k victims -> x ∈ victims) as Hk by (intros x (i & Hi & _)%elem_of_take; by eapply list_elem_of_lookup_2).
  apply NoDup_Permutation.
  - apply nodup_filter, nodup_entries.
  - apply NoDup_app. split_and!; [| |apply nodup_filter, nodup_entries].
    + eapply sublist_NoDup; [|apply sublist_take]. unfold victims. rewrite sort_by_perm. apply nodup_filter, nodup_entries.
    + intros x Hx Hl. apply in_left in Hl as [_ Hl]. apply Hl, elem_of_union_l, elem_of_list_to_set. by apply list_elem_of_fmap_2.
  - intros x. rewrite elem_of_app, !in_left. split.
    + intros [Hx Ho]. destruct (decide (x ∈ take k victims)) as [|Hn]; [by left|right]. split; [done|]. rewrite elem_of_union, elem_of_list_to_set, list_elem_of_fmap.
      intros [(y & E & Hy)|H]; [|done]. apply Hn. rewrite (hash_once x y); [done|done| |done]. by apply Hk, in_victims in Hy as [].
    + intros [Hx|[Hx Hn]]; [apply Hk, in_victims in Hx as (? & _ & ?); done|]. split; [done|]. set_solver.
Qed.

Lemma count_left : zlen entries - Z.of_nat (size old) = zlen (left_of old).
Proof.
  assert (size old = length (List.filter (expired p now) entries)) as ->.
  { unfold old. rewrite size_list_to_set, length_fmap; [done|]. apply nodup_hashes; [apply nodup_filter, nodup_entries|]. intros x Hx. by apply in_filter in Hx as []. }
  assert (forall l, l ⊆ entries -> length l = (length (List.filter (expired p now) l) + length (List.filter (fun e => negb (bool_decide (e_hash e ∈ old))) l))%nat) as H.
  { induction l as [|x l IH]; intros Hs; [done|]. cbn. rewrite IH by set_solver. pose proof (in_hashes (expired p now) x ltac:(set_solver)) as Hx. fold old in Hx.
    destruct (expired p now x) eqn:E; [rewrite bool_decide_eq_true_2 by naive_solver|rewrite bool_decide_eq_false_2 by naive_solver]; cbn; lia. }
  unfold left_of, zlen. specialize (H entries ltac:(done)). lia.
Qed.

Lemma choose_spec : let T := choose p now entries in
  (forall e, e ∈ entries -> pinned e = true -> e_hash e ∉ T) /\
  (forall e, e ∈ entries -> expired p now e = true -> e_hash e ∈ T) /\
  (forall e e', e ∈ entries -> e' ∈ entries -> e_hash e ∈ T -> expired p now e = false -> pinned e' = false -> e_hash e' ∉ T -> last_access e <= last_access e') /\
  (bytes_of (left_of T) <= default U64_MAX (max_bytes p) /\ zlen (left_of T) <= default U64_MAX (max_chunks p) \/ Forall (fun e => pinned e = true) (left_of T)) /\
  (bytes_of (left_of old) <= default U64_MAX (max_bytes p) -> zlen (left_of old) <= default U64_MAX (max_chunks p) -> T = old).
Proof.
  unfold choose. fold old. fold victims. fold (left_of old). rewrite count_left.
  assert (Forall (fun e => 0 <= e_size e) (left_of old)) as Hsl by (rewrite Forall_forall in Hsz |- *; intros x Hx; apply Hsz; by apply in_left in Hx as []).
  assert (forall l, l ⊆ entries -> Forall (fun e => 0 <= e_size e) l) as Hall by (intros l Hl; rewrite Forall_forall in Hsz |- *; auto).
  assert (bytes_of (left_of old) <= bytes_of entries) as Hle.
  { unfold left_of. clear -Hsz. induction entries as [|x l IH]; [done|]. apply Forall_cons in Hsz as [Hx Hl]. specialize (IH Hl). cbn. destruct (negb _); cbn; unfold bytes_of in *; cbn; lia. }
  rewrite total_size_eq by (done || lia).
  pose proof (left_split _ (length victims) eq_refl) as Hsplit. rewrite take_ge in Hsplit by lia.
  assert (Forall (fun e => 0 <= e_size e) victims) as Hv by (apply Hall; intros x Hx; by apply in_victims in Hx as []).
  destruct (evict_prefix (default U64_MAX (max_bytes p)) (default U64_MAX (max_chunks p)) victims old (bytes_of (left_of old)) (zlen (left_of old)) Hv) as (k & Hk & -> & Hlim & Hneed).
  { rewrite Hsplit, bytes_of_app. match goal with |- _ <= _ + bytes_of ?l => enough (0 <= bytes_of l) by lia; apply bytes_of_nonneg, Hall end. intros x Hx. by apply in_left in Hx as []. }
  { unfold zlen. rewrite (Permutation_length Hsplit), length_app. lia. }
  set (T := list_to_set (e_hash <$> take k victims) ∪ old). assert (forall x, x ∈ take k victims -> x ∈ victims) as Hin by (intros x (i & Hi & _)%elem_of_take; by eapply list_elem_of_lookup_2).
  assert (forall e, e ∈ entries -> e_hash e ∈ T -> e ∈ take k victims \/ expired p now e = true) as HT.
  { intros e He. unfold T. rewrite elem_of_union, elem_of_list_to_set, list_elem_of_fmap. intros [(y & E & Hy)|H]; [left|right; by apply in_hashes in H].
    rewrite (hash_once e y); [done|done| |done]. by apply Hin, in_victims in Hy as []. }
  split_and!.
  - intros e He Hp Hc. destruct (HT e He Hc) as [H%Hin%in_victims|H]; [destruct H as (_ & ? & _); congruence|]. unfold expired in H. rewrite Hp in H. by destruct (ttl p).
  - intros e He Hx. apply elem_of_union_r. by apply in_hashes.
  - intros e e' He He' Hc Hx Hp' Hc'. destruct (HT e He Hc) as [H|H]; [|congruence].
    assert (e' ∈ victims) as Hv' by (apply in_victims; split_and!; [done|done|unfold T in Hc'; set_solver]).
    rewrite <- (take_drop k victims) in Hv'. apply elem_of_app in Hv' as [Hv'|Hv'].
    { exfalso. apply Hc', elem_of_union_l, elem_of_list_to_set. by apply list_elem_of_fmap_2. }
    pose proof (sort_by_sorted last_access (List.filter (fun e => negb (pinned e) && negb (bool_decide (e_hash e ∈ old))) entries)) as Hs. fold victims in Hs.
    rewrite <- (take_drop k victims) in Hs. apply StronglySorted_app in Hs as (Hs & _). by apply Hs.
  - pose proof (left_split T k eq_refl) as Hs. assert (bytes_of (left_of old) = bytes_of (take k victims) + bytes_of (left_of T)) as Hb by (by rewrite Hs, bytes_of_app).
    assert (zlen (left_of old) = Z.of_nat k + zlen (left_of T)) as Hc by (unfold zlen; rewrite (Permutation_length Hs), length_app, length_take; lia).
    destruct Hlim as [->|[H1 H2]]; [right|left; lia]. rewrite Forall_forall. intros x Hx. apply in_left in Hx as [Hx Hn].
    destruct (pinned x) eqn:Ep; [done|]. exfalso. apply Hn. unfold T. rewrite take_ge by lia. destruct (decide (e_hash x ∈ old)); [by apply elem_of_union_r|].
    apply elem_of_union_l, elem_of_list_to_set, list_elem_of_fmap_2, in_victims. done.
  - intros H1 H2. destruct k as [|k]; [unfold T; cbn; set_solver|]. destruct Hneed; [done|lia|lia].
Qed.
End choose.

Lemma entries_sizes s p : Forall (fun e => 0 <= e_size e) (entry_of s p <$> map_to_list (chunks s)).
Proof. apply Forall_fmap, Forall_forall. intros [h f] _. cbn. apply zlen_nonneg. Qed.

(** Pruning respects pins, age and limits. Pruning a store after any operations succeeds and
    removes, where the removal succeeds, a set of chunks such that: no pinned or kept chunk is in it, and
    every other chunk that was not used for the time to live is; when a younger chunk is in it, so is
    every unprotected one that was used before it; what is left is within both limits or wholly protected;
    and when the limits hold already, only expired chunks are in it. *)
Theorem prune_correct hash_of bloom_bits bloom_hashes (hash_wf : forall b, wf_hash (hash_of b)) l s0 s p now can_remove :
  open_store bloom_bits bloom_hashes ∅ = Ok s0 -> run hash_of bloom_bits bloom_hashes s0 l = Ok s ->
  let entries := entry_of s p <$> map_to_list (chunks s) in bytes_of entries < 2 ^ 64 ->
  exists s' r T, prune_cache_sync bloom_bits bloom_hashes s p now can_remove = Ok (s', r) /\
    (forall h, chunks s' !! h = if bool_decide (h ∈ T) && can_remove h then None else chunks s !! h) /\
    (forall e, e ∈ entries -> pinned e = true -> e_hash e ∉ T) /\
    (forall e, e ∈ entries -> expired p now e = true -> e_hash e ∈ T) /\
    (forall e e', e ∈ entries -> e' ∈ entries -> e_hash e ∈ T -> expired p now e = false -> pinned e' = false -> e_hash e' ∉ T -> last_access e <= last_access e') /\
    (bytes_of (left_of entries T) <= default U64_MAX (max_bytes p) /\ zlen (left_of entries T) <= default U64_MAX (max_chunks p) \/
     Forall (fun e => pinned e = true) (left_of entries T)) /\
    (let old := old p now entries in
     bytes_of (left_of entries old) <= default U64_MAX (max_bytes p) -> zlen (left_of entries old) <= default U64_MAX (max_chunks p) -> T = old).
Proof.
  intros E0 E entries Hb. destruct (rebuild_ok bloom_bits bloom_hashes (mkStore ∅ (new_bloom bloom_bits bloom_hashes 50000) ∅ ∅)) as (b0 & E1 & Hf0); [by intros ? ? ?|].
  unfold open_store in E0. rewrite E0 in E1. injection E1 as ->. destruct (store_run_ok hash_of bloom_bits bloom_hashes hash_wf l _ ∅ Hf0) as (s' & E' & Hf & _); [by intros ? ? ?|].
  rewrite E in E'. injection E' as <-. destruct (prune_result bloom_bits bloom_hashes s p now can_remove Hf) as (s1 & r & -> & _ & Hc).
  exists s1, r, (choose p now entries). split; [done|]. split; [done|]. apply choose_spec; [|apply entries_sizes|done].
  unfold entries. rewrite entries_hashes. apply NoDup_fst_map_to_list.
Qed.

Module ChunkStoreExamples.
Definition hash (b : bytes) : Hash := take 32 ((wrap 8 <$> b) ++ replicate 32 0).
Lemma hash_is_wf b : wf_hash (hash b).
Proof.
  unfold hash. split.
  - apply Forall_take, Forall_app. split; [|by apply Forall_replicate]. apply Forall_fmap, Forall_forall. intros x _. by apply wrap_fits.
  - unfold zlen. rewrite length_take, length_app, length_replicate. lia.
Qed.
Definition bits (n : Z) : Z := 64.
Definition hashes (n m : Z) : Z := 3.
Definition start : LocalChunkStore := match open_store bits hashes ∅ with Ok s => s | _ => mkStore ∅ (Bloom.with_dimensions 64 3) ∅ ∅ end.
Definition fill : list op := [OPut (hash [1]) [1] 10 None true; OPut (hash [2; 2]) [2; 2] 20 None true; OPut (hash [3]) [3] 30 None true; OPin (hash [1])].
Definition full : LocalChunkStore := match run hash bits hashes start fill with Ok s => s | _ => start end.
Definition two : PrunePolicy := mkPolicy None (Some 2) None None.

Lemma chunk_store_correct_witness : exists s0 s, open_store bits hashes ∅ = Ok s0 /\ run hash bits hashes s0 fill = Ok s /\
  contains_sync s (hash [3]) = Ok (bool_decide (is_Some (chunks s !! hash [3]))).
Proof.
  destruct (chunk_store_correct hash bits hashes hash_is_wf fill) as (s0 & s & E0 & E & H & _).
  exists s0, s. split; [exact E0|]. split; [exact E|]. apply H. apply hash_is_wf.
Defined.

Lemma prune_correct_witness : exists s' r (T : gset Hash), prune_cache_sync bits hashes full two 40 (fun _ => true) = Ok (s', r) /\
  forall h, chunks s' !! h = if bool_decide (h ∈ T) && true then None else chunks full !! h.
Proof.
  destruct (prune_correct hash bits hashes hash_is_wf fill start full two 40 (fun _ => true)) as (s' & r & T & E & H & _).
  - vm_compute. reflexivity.
  - vm_compute. reflexivity.
  - vm_compute. reflexivity.
  - exists s', r, T. exact (conj E H).
Defined.

(** The oldest chunk is pinned, so the next one goes. *)
Example prunes_unpinned : match prune_cache_sync bits hashes full two 40 (fun _ => true) with
  | Ok (s, r) => chunks_pruned r = 1 /\ contains_sync s (hash [1]) = Ok true /\ contains_sync s (hash [2; 2]) = Ok false /\ contains_sync s (hash [3]) = Ok true
  | _ => False
  end.
Proof. vm_compute. split_and!; reflexivity. Qed.

(** A file whose removal fails is reported as pruned and its bytes as reclaimed. *)
Example failed_removal_counted : match prune_cache_sync bits hashes full two 40 (fun _ => false) with
  | Ok (s, r) => chunks_pruned r = 1 /\ bytes_reclaimed r = 2 /\ chunks_remaining r = 2 /\ total_chunks s = 3
  | _ => False
  end.
Proof. vm_compute. split_and!; reflexivity. Qed.

(** A chunk that is put again is not an access: the least recently written goes first although it was
    just asked for. *)
Example put_again_is_no_access :
  match run hash bits hashes full [OPut (hash [2; 2]) [2; 2] 35 None true] with
  | Ok s => match prune_cache_sync bits hashes s two 40 (fun _ => true) with Ok (s', _) => chunks s' !! hash [2; 2] = None | _ => False end
  | _ => False
  end.
Proof. vm_compute. reflexivity. Qed.
End ChunkStoreExamples.
