(* ===== verification/DeltaSync.v ===== *)
(** * Delta synchronisation of a file, sync/mod.rs, sync/inventory.rs, sync/estimator.rs and sync/reconstruct.rs

    The chunks of the old file ([LocalInventory]), the estimate of the cost, the staging file into which
    chunks of the old file, of the chunk store and of the source are written ([DeltaReconstructor]), its
    verification and the rename over the target, and the whole of [execute_dedup_sync]. Files are those of
    [FileSys], whose calls can fail and at which the process can die; an open file is its contents. A read of
    a file returns all it can; reading a whole file is one call. The chunk store is a state of its own, its
    files apart from those of the synchronisation. A panic unwinds like an error: [Panicked]. Floating point is the class
    [Ratio]. *)

From S2P Require Import Prelude Utf8 Protocol Wire Paths Rle Bloom Chunking ChunkEngine FileSys ChunkStore.
Import Str.

Inductive DeltaError :=
  | DIo (why : bytes)
  | Inventory (why : bytes)
  | Reconstruction (why : bytes)
  | HashMismatch (expected actual : bytes)
  | DRle (e : SyncError)
  | Panicked.

(** ** The estimate *)

(** [have as f64 / total as f64 < min_savings_ratio], and [(size as f64 * ratio).round() as u64]. *)
Class Ratio := { ratio_below : Z -> Z -> bool; part_of : Z -> Z -> Z -> Z }.

Inductive SyncDecision := Skip | Delta | Full.
#[global] Instance SyncDecision_eq_dec : EqDecision SyncDecision.
Proof. solve_decision. Defined.

Record SyncPlan := mkPlan {
  p_decision : SyncDecision; p_total_bytes : Z; wire_bytes : Z; reused_bytes : Z; p_total_chunks : Z; have_chunks : Z; need_chunks : Z }.

Definition MIN_FILE_SIZE : Z := 64 * 1024.

Definition skip_plan (file_size total_chunks : Z) : SyncPlan := mkPlan Skip file_size 0 file_size total_chunks total_chunks 0.
Definition plan_for (d : SyncDecision) (file_size reused total_chunks have need : Z) : SyncPlan :=
  mkPlan d file_size (match d with Skip => 0 | Full => file_size | Delta => saturating_sub file_size reused end)
    (match d with Skip => file_size | Full => 0 | Delta => reused end) total_chunks have need.

Definition evaluate `{Ratio} (file_size total_chunks have_chunks : Z) (target_matches : bool) : SyncPlan :=
  if target_matches then skip_plan file_size total_chunks
  else
    let total_c := Z.max total_chunks 1 in
    let have_c := Z.min have_chunks total_c in
    let d := if file_size <? MIN_FILE_SIZE then Full else if (have_c =? 0) || ratio_below have_c total_c then Full else Delta in
    plan_for d file_size (part_of file_size have_c total_c) total_chunks have_c (total_c - have_c).

(** With the bytes counted; the ratio of an empty file is one. *)
Definition evaluate_with_bytes `{Ratio} (file_size reused total_chunks have_chunks : Z) (target_matches : bool) : SyncPlan :=
  if target_matches then skip_plan file_size total_chunks
  else
    let total_c := Z.max total_chunks 1 in
    let have_c := Z.min have_chunks total_c in
    let reused_b := Z.min reused file_size in
    let low := if 0 <? file_size then ratio_below reused_b file_size else ratio_below 1 1 in
    let d := if file_size <? MIN_FILE_SIZE then Full else if (have_c =? 0) || low then Full else Delta in
    plan_for d file_size reused_b total_chunks have_c (total_c - have_c).

(** ** The chunks of the old file *)

Record ChunkExtent := mkExtent { offset : Z; length_ : Z }.
Record LocalInventory := mkInventory {
  inv_chunks : gmap Hash ChunkExtent; inv_total_bytes : Z; inv_total_chunks : Z; whole_hash : option Hash }.

Definition inv_contains (i : LocalInventory) (h : Hash) : bool := bool_decide (is_Some (inv_chunks i !! h)).
Definition inv_lookup (i : LocalInventory) (h : Hash) : option ChunkExtent := inv_chunks i !! h.
Definition unique_chunks (i : LocalInventory) : Z := Z.of_nat (size (inv_chunks i)).

(** The callback: [entry(hash).or_insert(..)]. *)
Definition add_extent (acc : gmap Hash ChunkExtent * Z * Z) (d : ChunkDesc.t) (payload : bytes)
  : outcome VelcruxError (gmap Hash ChunkExtent * Z * Z) :=
  let '(m, off, n) := acc in
  let m := match ChunkDesc.hash d with
           | Some h => match m !! h with Some _ => m | None => <[h := mkExtent off (ChunkDesc.length d)]> m end
           | None => m
           end in
  Ok (m, off + ChunkDesc.length d, n + 1).

(** The callback of the source scan. *)
Definition add_chunk (acc : list (Z * Z * option Hash) * Z) (d : ChunkDesc.t) (payload : bytes)
  : outcome VelcruxError (list (Z * Z * option Hash) * Z) :=
  let '(l, off) := acc in Ok (l ++ [(off, ChunkDesc.length d, ChunkDesc.hash d)], off + ChunkDesc.length d).

(** ** Files *)

Definition fs : Type := world Empty_set.
Local Abbreviation io A := (M fs bytes A).

(** [file.write_all] after [seek]: beyond the end the gap is zeros. *)
Definition splice (c : bytes) (off : Z) (b : bytes) : bytes :=
  take (Z.to_nat off) c ++ replicate (Z.to_nat (off - zlen c)) 0 ++ b ++ drop (Z.to_nat (off + zlen b)) c.
Definition edit (p : bytes) (f : bytes -> bytes) (w : fs) : fs := set_disk (alter f p) w.

Definition create_file (p : bytes) : io unit := call (fun w => (Done tt, set_disk <[p := []]> w)) nothing.
Definition set_len (p : bytes) (n : Z) : io unit :=
  call (fun w => (Done tt, edit p (fun c => take (Z.to_nat n) c ++ replicate (Z.to_nat (n - zlen c)) 0) w)) nothing.
Definition write_at (p : bytes) (off : Z) (b : bytes) : io unit :=
  call (fun w => (Done tt, edit p (fun c => splice c off b) w)) (fun n w => edit p (fun c => splice c off (take n b)) w).
(** A read of an open file. *)
Definition read_at (content : bytes) (off n : Z) : io bytes :=
  call (fun w => (Done (take (Z.to_nat n) (drop (Z.to_nat off) content)), w)) nothing.
Definition len_of (content : bytes) : io Z := call (fun w => (Done (zlen content), w)) nothing.

(** ** The reconstructor *)

Record DeltaReconstructor := mkRec {
  target_path : bytes; staging_path : bytes; open_ : bool; expected_hash : Hash; total_size : Z; total_chunks : Z;
  local_chunks_copied : Z; store_chunks_copied : Z; wire_chunks_written : Z; sparse_holes_skipped : Z; bytes_written : Z;
  committed : bool }.

Record DeltaProgress := mkProgress {
  g_total_chunks : Z; g_local : Z; g_store : Z; g_wire : Z; g_holes : Z; g_bytes_written : Z; g_total_bytes : Z }.
Definition progress (r : DeltaReconstructor) : DeltaProgress :=
  mkProgress (total_chunks r) (local_chunks_copied r) (store_chunks_copied r) (wire_chunks_written r) (sparse_holes_skipped r)
    (bytes_written r) (total_size r).

Definition counted (r : DeltaReconstructor) (l s w h b : Z) : DeltaReconstructor :=
  mkRec (target_path r) (staging_path r) (open_ r) (expected_hash r) (total_size r) (total_chunks r) (local_chunks_copied r + l)
    (store_chunks_copied r + s) (wire_chunks_written r + w) (sparse_holes_skipped r + h) (wrap 64 (bytes_written r + b)) (committed r).
Definition closed (r : DeltaReconstructor) : DeltaReconstructor :=
  mkRec (target_path r) (staging_path r) false (expected_hash r) (total_size r) (total_chunks r) (local_chunks_copied r)
    (store_chunks_copied r) (wire_chunks_written r) (sparse_holes_skipped r) (bytes_written r) (committed r).
Definition done_ (r : DeltaReconstructor) : DeltaReconstructor :=
  mkRec (target_path r) (staging_path r) (open_ r) (expected_hash r) (total_size r) (total_chunks r) (local_chunks_copied r)
    (store_chunks_copied r) (wire_chunks_written r) (sparse_holes_skipped r) (bytes_written r) true.

(** The reconstructor, the chunk store and the files. *)
Definition st : Type := DeltaReconstructor * LocalChunkStore * fs.
Definition get_rec {E} : M st E DeltaReconstructor := fun s => (Done s.1.1, s).
Definition set_rec {E} (f : DeltaReconstructor -> DeltaReconstructor) : M st E unit := fun '(r, c, w) => (Done tt, (f r, c, w)).
Definition get_store {E} : M st E LocalChunkStore := fun s => (Done s.1.2, s).
Definition set_store {E} (c : LocalChunkStore) : M st E unit := fun '(r, _, w) => (Done tt, (r, c, w)).
Definition files {A} (c : io A) : M st DeltaError A := snd_part (map_error DIo c).

Definition new_rec (target staging : bytes) (h : Hash) (size chunks : Z) : M fs DeltaError DeltaReconstructor :=
  let! _ := map_error DIo (create_parents staging) in
  let! _ := map_error DIo (create_file staging) in
  let! _ := map_error DIo (set_len staging size) in
  ret (mkRec target staging true h size chunks 0 0 0 0 0 false).

Definition require_open {A} (k : M st DeltaError A) : M st DeltaError A :=
  let! r := get_rec in
  if open_ r then k else throw (Reconstruction (lit "staging file is closed or committed")).

Definition BUF : Z := 64 * 1024.

(** [while remaining > 0]; every round but the last of a file that is too short moves a byte. *)
Fixpoint copy_loop (fuel : nat) (src : bytes) (staging short : bytes) (src_off dst_off remaining : Z) : M fs DeltaError unit :=
  if remaining <=? 0 then ret tt
  else
    match fuel with
    | O => throw Panicked
    | S fuel =>
        let to_read := Z.min remaining BUF in
        let! buf := map_error DIo (read_at src src_off to_read) in
        let n := zlen buf in
        if n =? 0 then throw (Reconstruction short)
        else
          let! _ := map_error DIo (write_at staging dst_off buf) in
          copy_loop fuel src staging short (src_off + n) (dst_off + n) (remaining - n)
    end.

Definition copy_local_chunk (src : bytes) (src_offset dst_offset len : Z) : M st DeltaError unit :=
  require_open (
    let! r := get_rec in
    let! _ := snd_part (copy_loop (Z.to_nat len) src (staging_path r)
                (lit "unexpected EOF while copying local chunk at offset " ++ Utf8.decimal src_offset) src_offset dst_offset len) in
    set_rec (fun r => counted r 1 0 0 0 len)).

Section sync.
(** [Hash::of] and the texts of errors; the hasher and the reads of a file, for the chunk engine. *)
Context (hash_of : bytes -> Hash) (show : VelcruxError -> bytes).
Context {hasher : Type} (hasher_new : hasher) (hasher_update : hasher -> bytes -> hasher) (hasher_finalize : hasher -> Hash).
Context (split : bytes -> list bytes).

(** [LocalChunkStore::copy_to_std_file], with the error that its caller makes of its own. *)
Definition store_error (why : bytes) : DeltaError := Reconstruction (lit "failed to copy chunk from store: " ++ why).
Definition copy_to_std_file (c : LocalChunkStore) (h : Hash) (staging : bytes) (dst_offset : Z) : M fs DeltaError Z :=
  match chunks c !! h with
  | None => throw (store_error (show (EIo "No such file or directory (os error 2)")))
  | Some f =>
      let len := zlen (data f) in
      let! _ := map_error (fun e => match e with DIo why => store_error (lit "I/O error: " ++ why) | e => e end)
        (copy_loop (Z.to_nat len) (data f) staging (lit "failed to copy chunk from store: I/O error: truncated chunk file in chunk store") 0 dst_offset len) in
      if bool_decide (hash_of (data f) = h) then ret len else throw (store_error (show MISMATCH))
  end.

Definition copy_chunk_from_store (h : Hash) (dst_offset : Z) : M st DeltaError unit :=
  require_open (
    let! r := get_rec in
    let! c := get_store in
    let! n := snd_part (copy_to_std_file c h (staging_path r) dst_offset) in
    set_rec (fun r => counted r 0 1 0 0 n)).

Definition write_wire_chunk (dst_offset : Z) (payload : bytes) : M st DeltaError unit :=
  require_open (
    let! r := get_rec in
    let! _ := files (write_at (staging_path r) dst_offset payload) in
    set_rec (fun r => counted r 0 0 1 0 (zlen payload))).

Definition skip_hole (len : Z) : M st DeltaError unit := require_open (set_rec (fun r => counted r 0 0 0 1 len)).

Definition verify_and_commit : M st DeltaError unit :=
  let! r := get_rec in
  if negb (open_ r) then throw (Reconstruction (lit "staging file already closed"))
  else
    let! _ := set_rec closed in
    let! content := files (read_file (staging_path r)) in
    let read_bytes := zlen content in
    if negb (read_bytes =? total_size r) then
      let! _ := snd_part (ignore (remove_file (staging_path r))) in
      throw (Reconstruction (lit "reconstructed file size mismatch: expected " ++ Utf8.decimal (total_size r) ++ lit ", got " ++ Utf8.decimal read_bytes))
    else
      let computed := hash_of content in
      if negb (bool_decide (computed = expected_hash r)) then
        let! _ := snd_part (ignore (remove_file (staging_path r))) in
        throw (HashMismatch (Hash_to_hex (expected_hash r)) (Hash_to_hex computed))
      else
        let! _ := files (create_parents (target_path r)) in
        let! _ := files (rename_file (staging_path r) (target_path r)) in
        set_rec done_.

(** [Drop]. *)
Definition drop_rec {E} : M st E unit :=
  let! r := get_rec in
  if committed r then ret tt else snd_part (ignore (remove_file (staging_path r))).
(** [c], and the destructor at its end, also after an error. *)
Definition finally {S E A} (c : M S E A) (d : M S E unit) : M S E A := fun s =>
  match c s with
  | (Crashed, s) => (Crashed, s)
  | (r, s) => match d s with (Crashed, s) => (Crashed, s) | (_, s) => (r, s) end
  end.

(** ** The synchronisation *)

Record DeltaSyncReport := mkSync {
  decision : SyncDecision; total_bytes_ : Z; wire_bytes_transferred : Z; local_bytes_reused : Z; store_bytes_reused : Z;
  sparse_bytes_skipped : Z; wire_chunks_count : Z; local_chunks_count : Z; store_chunks_count : Z; sparse_holes_count : Z;
  report_chunks : Z; whole_file_hash : Hash }.

Definition DOT : Z := 46.
(** [Path::with_extension], and the name of the staging file. *)
Fixpoint rsplit (c : Z) (l : bytes) : option (bytes * bytes) :=
  match l with
  | [] => None
  | x :: l' => match rsplit c l' with Some (a, b) => Some (x :: a, b) | None => if x =? c then Some ([], l') else None end
  end.
Definition dir_and_name (p : bytes) : bytes * bytes := match rsplit SLASH p with Some (d, n) => (d ++ [SLASH], n) | None => ([], p) end.
Definition stem_and_extension (name : bytes) : bytes * option bytes :=
  match rsplit DOT name with Some ([], _) | None => (name, None) | Some (stem, e) => (stem, Some e) end.
Definition staging_for (dst : bytes) : bytes :=
  let '(d, name) := dir_and_name dst in
  if bool_decide (name = []) || bool_decide (name = [DOT; DOT]) then dst
  else let '(stem, e) := stem_and_extension name in d ++ stem ++ [DOT] ++ default (lit "dat") e ++ lit ".velcrux-partial".

Definition from_file (mode : ChunkMode) (params : ChunkParams.t) (path : bytes) : M fs DeltaError LocalInventory :=
  let! content := map_error DIo (read_file path) in
  let! content := map_error (fun e => Inventory (lit "failed to scan file " ++ path ++ lit ": " ++ e)) (read_at content 0 (zlen content)) in
  match chunk_reader hash_of hasher_new hasher_update hasher_finalize add_extent (inr <$> split content) mode params (∅, 0, 0) with
  | Ok (m, _, n, h, total) => ret (mkInventory m total n (Some h))
  | Err e => throw (Inventory (lit "failed to scan file " ++ path ++ lit ": " ++ show e))
  | Panic => throw Panicked
  end.

(** Where a chunk comes from: the wire, the old file, the chunk store or a hole. *)
Inductive source := Wire | LocalFile | InStore | Hole.
#[global] Instance source_eq_dec : EqDecision source.
Proof. solve_decision. Defined.

Definition source_of (inv : option LocalInventory) (c : option LocalChunkStore) (h : option Hash) : outcome VelcruxError source :=
  match h with
  | None => Ok Hole
  | Some h =>
      if match inv with Some i => inv_contains i h | None => false end then Ok LocalFile
      else match c with
           | Some c => let? b := contains_sync c h in Ok (if b : bool then InStore else Wire)
           | None => Ok Wire
           end
  end.
Fixpoint sources_of (inv : option LocalInventory) (c : option LocalChunkStore) (l : list (Z * Z * option Hash)) : outcome VelcruxError (list source) :=
  match l with
  | [] => Ok []
  | (_, _, h) :: l => let? x := source_of inv c h in let? xs := sources_of inv c l in Ok (x :: xs)
  end.

(** The counters of the loop. *)
Record counts := mkCounts { wire_b : Z; local_b : Z; store_b : Z; hole_b : Z; wire_n : Z; local_n : Z; store_n : Z; hole_n : Z }.
Definition no_counts : counts := mkCounts 0 0 0 0 0 0 0 0.
Definition add_wire (k : counts) (n : Z) := mkCounts (wire_b k + n) (local_b k) (store_b k) (hole_b k) (wire_n k + 1) (local_n k) (store_n k) (hole_n k).
Definition add_local (k : counts) (n : Z) := mkCounts (wire_b k) (local_b k + n) (store_b k) (hole_b k) (wire_n k) (local_n k + 1) (store_n k) (hole_n k).
Definition add_store (k : counts) (n : Z) := mkCounts (wire_b k) (local_b k) (store_b k + n) (hole_b k) (wire_n k) (local_n k) (store_n k + 1) (hole_n k).
Definition add_hole (k : counts) (n : Z) := mkCounts (wire_b k) (local_b k) (store_b k) (hole_b k + n) (wire_n k) (local_n k) (store_n k) (hole_n k + 1).

(** A chunk over the wire: the buffer has [max] bytes. [now] and [broken] are the time and the input and
    output error of the store's write, whose result is ignored. *)
Definition send_chunk (use_store : bool) (now : Z) (broken : Hash -> option string) (params : ChunkParams.t) (src : bytes) (off len : Z) (h : Hash) : M st DeltaError unit :=
  if ChunkParams.max params <? len then throw Panicked
  else
    let! slice := files (read_at src off len) in
    if zlen slice <? len then throw (DIo (lit "failed to fill whole buffer"))
    else
      let! _ := write_wire_chunk off slice in
      if use_store then
        let! c := get_store in
        match put_sync hash_of c h slice now (broken h) with
        | Ok c => set_store c
        | Err _ => ret tt
        | Panic => throw Panicked
        end
      else ret tt.

Fixpoint delta_loop (use_store : bool) (now : Z) (broken : Hash -> option string) (params : ChunkParams.t) (src : bytes) (dst : option bytes)
    (inv : option LocalInventory) (l : list (Z * Z * option Hash * source)) (k : counts) : M st DeltaError counts :=
  match l with
  | [] => ret k
  | (off, len, h, from) :: l =>
      match h with
      | None => let! _ := skip_hole len in delta_loop use_store now broken params src dst inv l (add_hole k len)
      | Some h =>
          let wire :=
            let! _ := send_chunk use_store now broken params src off len h in
            delta_loop use_store now broken params src dst inv l (add_wire k len) in
          match from with
          | Hole => let! _ := skip_hole len in delta_loop use_store now broken params src dst inv l (add_hole k len)
          | LocalFile =>
              match inv ≫= (fun i => inv_lookup i h), dst with
              | Some extent, Some d =>
                  let! _ := copy_local_chunk d (offset extent) off len in
                  delta_loop use_store now broken params src dst inv l (add_local k len)
              | _, _ => wire
              end
          | InStore =>
              if use_store then
                let! _ := copy_chunk_from_store h off in
                delta_loop use_store now broken params src dst inv l (add_store k len)
              else wire
          | Wire => wire
          end
      end
  end.

Fixpoint full_loop (use_store : bool) (now : Z) (broken : Hash -> option string) (params : ChunkParams.t) (src : bytes)
    (l : list (Z * Z * option Hash)) (k : counts) : M st DeltaError counts :=
  match l with
  | [] => ret k
  | (off, len, Some h) :: l =>
      let! _ := send_chunk use_store now broken params src off len h in
      full_loop use_store now broken params src l (add_wire k len)
  | (off, len, None) :: l => let! _ := skip_hole len in full_loop use_store now broken params src l (add_hole k len)
  end.

(** The chunks of the source. *)
Definition scan_source (mode : ChunkMode) (params : ChunkParams.t) (src : bytes) : M fs DeltaError (list (Z * Z * option Hash) * Hash) :=
  let! content := map_error DIo (read_file src) in
  let! content := map_error (fun e => Reconstruction (lit "failed to scan source file: " ++ e)) (read_at content 0 (zlen content)) in
  match chunk_reader hash_of hasher_new hasher_update hasher_finalize add_chunk (inr <$> split content) mode params ([], 0) with
  | Ok (l, _, h, _) => ret (l, h)
  | Err e => throw (Reconstruction (lit "failed to scan source file: " ++ show e))
  | Panic => throw Panicked
  end.

(** The have-bits over the wire and back. *)
Definition negotiate (xs : list source) : outcome SyncError Rle.t :=
  let rle := Rle.from_bits ((fun x => negb (bool_decide (x = Wire))) <$> xs) in
  match Rle.encode rle with
  | Ok b => Rle.decode b (Rle.total_chunks rle)
  | Err _ | Panic => Panic
  end.

(** What follows the creation of the staging file. *)
Definition transfer (use_store : bool) (now : Z) (broken : Hash -> option string) (params : ChunkParams.t) (src_path dst_path : bytes) (d : SyncDecision)
    (inv : option LocalInventory) (l : list (Z * Z * option Hash)) (xs : list source) : M st DeltaError counts :=
  let! src := files (read_file src_path) in
  let! there := snd_part (exists_file dst_path) in
  let! dst := (if there : bool then let! d := files (read_file dst_path) in ret (Some d) else ret None) in
  let! k := (match d with
             | Delta => delta_loop use_store now broken params src dst inv (zip l xs) no_counts
             | _ => full_loop use_store now broken params src l no_counts
             end) in
  let! _ := verify_and_commit in
  ret k.

(** The chunks of the old file, where there is one. *)
Definition old_inventory (mode : ChunkMode) (params : ChunkParams.t) (dst_path : bytes) : M fs DeltaError (option LocalInventory) :=
  let! there := exists_file dst_path in
  if there : bool then let! i := from_file mode params dst_path in ret (Some i) else ret None.

Definition unchanged (inv : option LocalInventory) (h : Hash) (src_size : Z) : bool :=
  match inv with Some i => bool_decide (whole_hash i = Some h) && (inv_total_bytes i =? src_size) | None => false end.

(** The staging file, the transfer and the report. *)
Definition staged_sync (params : ChunkParams.t) (use_store : bool) (now : Z) (broken : Hash -> option string)
    (src_path dst_path : bytes) (d : SyncDecision) (src_size : Z) (h : Hash) (inv : option LocalInventory) (l : list (Z * Z * option Hash)) (xs : list source)
    : M (LocalChunkStore * fs) DeltaError DeltaSyncReport := fun '(c, w) =>
  match new_rec dst_path (staging_for dst_path) h src_size (zlen l) w with
  | (Failed e, w) => (Failed e, (c, w))
  | (Crashed, w) => (Crashed, (c, w))
  | (Done r, w) =>
      let '(res, (_, c, w)) := finally (transfer use_store now broken params src_path dst_path d inv l xs) drop_rec (r, c, w) in
      (match res with
       | Done k => Done (mkSync d src_size (wire_b k) (local_b k) (store_b k) (hole_b k) (wire_n k) (local_n k) (store_n k) (hole_n k) (zlen l) h)
       | Failed e => Failed e
       | Crashed => Crashed
       end, (c, w))
  end.

Definition execute_dedup_sync `{Ratio} (mode : ChunkMode) (params : ChunkParams.t) (use_store : bool) (now : Z) (broken : Hash -> option string)
    (src_path dst_path : bytes) : M (LocalChunkStore * fs) DeltaError DeltaSyncReport :=
  let! content := snd_part (map_error DIo (read_file src_path)) in
  let! src_size := snd_part (map_error DIo (len_of content)) in
  let! inv := snd_part (old_inventory mode params dst_path) in
  let! '(l, h) := snd_part (scan_source mode params src_path) in
  let n := zlen l in
  if unchanged inv h src_size
  then ret (mkSync Skip src_size 0 src_size 0 0 0 n 0 0 n h)
  else fun '(c, w) =>
    match sources_of inv (if use_store then Some c else None) l with
    | Err _ | Panic => (Failed Panicked, (c, w))
    | Ok xs =>
        match negotiate xs with
        | Err e => (Failed (DRle e), (c, w))
        | Panic => (Failed Panicked, (c, w))
        | Ok rle =>
            let plan := evaluate src_size n (Rle.have_count rle) false in
            staged_sync params use_store now broken src_path dst_path (p_decision plan) src_size h inv l xs (c, w)
        end
    end.

Definition execute_delta_sync `{Ratio} (mode : ChunkMode) (params : ChunkParams.t) (now : Z) (src_path dst_path : bytes)
  : M (LocalChunkStore * fs) DeltaError DeltaSyncReport := execute_dedup_sync mode params false now (fun _ => None) src_path dst_path.

(** ** The files that are changed *)

Lemma only_edit P p (f : bytes -> bytes) (g : nat -> bytes -> bytes) : P p ->
  only (J:=Empty_set) P (call (fun w => (Done tt, edit p f w)) (fun n w => edit p (g n) w)).
Proof. intros Hp. apply only_call; intros; (split; [done|]); intros q Hq; cbn; apply lookup_alter_ne; by intros ->. Qed.

Lemma only_create P p : P p -> only P (create_file p).
Proof. intros Hp. apply only_call; [|done]. intros w. split; [done|]. intros q Hq. cbn. apply lookup_insert_ne. by intros ->. Qed.
Lemma only_set_len P p n : P p -> only P (set_len p n).
Proof. intros Hp. apply only_call; [|done]. intros w. split; [done|]. intros q Hq. cbn. apply lookup_alter_ne. by intros ->. Qed.
Lemma only_write_at P p off b : P p -> only P (write_at p off b).
Proof. apply only_edit. Qed.
Lemma only_read_at P c off n : only P (read_at c off n).
Proof. by apply only_call. Qed.
Lemma only_len_of P c : only P (len_of c).
Proof. by apply only_call. Qed.
#[local] Hint Resolve only_create only_set_len only_write_at only_read_at only_len_of : fs.

Lemma only_copy_loop P fuel src staging short so d n : P staging -> only P (copy_loop fuel src staging short so d n).
Proof.
  intros HP. revert so d n. induction fuel as [|fuel IH]; intros so d n; cbn [copy_loop]; case_match; eauto with fs.
  apply only_bind; [eauto with fs|]. intros buf. case_match; eauto with fs.
Qed.
#[local] Hint Resolve only_copy_loop : fs.

Section job.
Context (target staging : bytes) (h : Hash) (n : Z).

Definition job (r : DeltaReconstructor) : Prop := target_path r = target /\ staging_path r = staging /\ expected_hash r = h /\ total_size r = n.

(** [c] leaves the reconstructor's task as it is and changes no file but the staging file. *)
Definition stages {E A} (c : M st E A) : Prop := forall x, job x.1.1 ->
  job (c x).2.1.1 /\ forall p, p <> staging -> disk (c x).2.2 !! p = disk x.2 !! p.

Lemma stages_ret {E A} (a : A) : stages (@ret _ E A a).
Proof. by intros x Hx. Qed.
Lemma stages_throw {E A} (e : E) : stages (@throw _ E A e).
Proof. by intros x Hx. Qed.
Lemma stages_bind {E A B} (c : M st E A) (k : A -> M st E B) : stages c -> (forall a, stages (k a)) -> stages (bind c k).
Proof.
  intros Hc Hk x Hx. specialize (Hc x Hx) as [Hj Hd]. unfold bind. destruct (c x) as [[a|e|] x'] eqn:E0; cbn [fst snd] in *; [|done|done].
  destruct (Hk a x' Hj) as [Hj' Hd']. split; [done|]. intros p Hp. rewrite Hd', Hd; done.
Qed.
Lemma stages_get {E A} (k : DeltaReconstructor -> M st E A) : (forall r, job r -> stages (k r)) -> stages (bind get_rec k).
Proof. intros Hk x Hx. by apply Hk. Qed.
Lemma stages_snd {E A} (c : M fs E A) : only (eq staging) c -> stages (snd_part c).
Proof. intros Hc [rc w] Hx. cbn. destruct (Hc w) as [_ Hd]. destruct (c w) as [r w']. cbn in *. split; [done|]. intros p Hp. by apply Hd; intros ->. Qed.
Lemma stages_files {A} (c : io A) : only (eq staging) c -> stages (files c).
Proof. intros Hc. by apply stages_snd, only_map_error. Qed.
Lemma stages_set {E} f : (forall r, job r -> job (f r)) -> stages (@set_rec E f).
Proof. intros Hf [[r c] w] Hx. cbn. split; [by apply Hf|done]. Qed.
Lemma stages_counted {E} a b c d e : stages (@set_rec E (fun r => counted r a b c d e)).
Proof. by apply stages_set. Qed.
Lemma stages_store {E} c : stages (@set_store E c).
Proof. by intros [[r c'] w] Hx. Qed.
Lemma stages_get_store {E} : stages (@get_store E).
Proof. by intros [[r c'] w] Hx. Qed.
Lemma stages_open {A} (k : M st DeltaError A) : stages k -> stages (require_open k).
Proof. intros Hk. apply stages_get. intros r Hr. case_match; [done|apply stages_throw]. Qed.
Hint Resolve stages_ret stages_throw stages_bind stages_counted stages_store stages_get_store : fs.

Lemma stages_copy src so d len : stages (copy_local_chunk src so d len).
Proof.
  apply stages_open, stages_get. intros r (_ & -> & _). apply stages_bind; [|eauto with fs]. apply stages_snd. eauto with fs.
Qed.
Lemma stages_copy_store hh d : stages (copy_chunk_from_store hh d).
Proof.
  apply stages_open, stages_get. intros r (_ & -> & _). apply stages_bind; [eauto with fs|]. intros c. apply stages_bind; [|eauto with fs].
  apply stages_snd. unfold copy_to_std_file. case_match; [|eauto with fs]. apply only_bind; [eauto with fs|]. intros _. case_match; eauto with fs.
Qed.
Lemma stages_wire d b : stages (write_wire_chunk d b).
Proof. apply stages_open, stages_get. intros r (_ & -> & _). apply stages_bind; [|eauto with fs]. apply stages_files. eauto with fs. Qed.
Lemma stages_skip len : stages (skip_hole len).
Proof. apply stages_open. eauto with fs. Qed.
Hint Resolve stages_copy stages_copy_store stages_wire stages_skip : fs.

Lemma stages_send us nw br params src off len hh : stages (send_chunk us nw br params src off len hh).
Proof.
  unfold send_chunk. case_match; [eauto with fs|]. apply stages_bind; [apply stages_files; eauto with fs|]. intros b. case_match; [eauto with fs|].
  apply stages_bind; [eauto with fs|]. intros _. case_match; [|eauto with fs]. apply stages_bind; [eauto with fs|]. intros c. case_match; eauto with fs.
Qed.
Hint Resolve stages_send : fs.

Lemma stages_delta us nw br params src dst inv l k : stages (delta_loop us nw br params src dst inv l k).
Proof. revert k. induction l as [|[[[off len] [hh|]] from] l IH]; intros k; cbn [delta_loop]; repeat case_match; eauto with fs. Qed.
Lemma stages_full us nw br params src l k : stages (full_loop us nw br params src l k).
Proof. revert k. induction l as [|[[off len] [hh|]] l IH]; intros k; cbn [full_loop]; eauto with fs. Qed.

Context (Hne : target <> staging).

(** The verified file. *)
Definition good (w : fs) : Prop := exists b, disk w !! target = Some b /\ hash_of b = h /\ zlen b = n.
(** [c] changes the staging file and the target, the latter only by a verified file, which is there when [c] succeeds. *)
Definition published {E A} (x : st) (y : res E A * st) : Prop :=
  job y.2.1.1 /\ (forall p, p <> staging -> p <> target -> disk y.2.2 !! p = disk x.2 !! p) /\
  match y.1 with Done _ => good y.2.2 | _ => disk y.2.2 !! target = disk x.2 !! target \/ good y.2.2 end.
Definition publishes {E A} (c : M st E A) : Prop := forall x, job x.1.1 -> published x (c x).

Lemma publishes_after {E A B} (c : M st E A) (k : A -> M st E B) : stages c -> (forall a, publishes (k a)) -> publishes (bind c k).
Proof.
  intros Hc Hk x Hx. specialize (Hc x Hx) as [Hj Hd]. unfold bind. destruct (c x) as [[a|e|] x'] eqn:E0; cbn [fst snd] in *.
  - destruct (Hk a x' Hj) as (Hj' & Ho & Ht). split; [done|]. split; [intros p H1 H2; rewrite Ho, Hd; done|].
    rewrite <- (Hd target Hne). done.
  - split; [done|]. split; [intros p H1 _; by apply Hd|]. left. by apply Hd.
  - split; [done|]. split; [intros p H1 _; by apply Hd|]. left. by apply Hd.
Qed.
Lemma publishes_ret {E A B} (c : M st E A) (b : B) : publishes c -> publishes (let! _ := c in ret b).
Proof. intros Hc x Hx. specialize (Hc x Hx) as (Hj & Ho & Ht). unfold bind. by destruct (c x) as [[a|e|] x']. Qed.
Lemma publishes_throw {E A} (e : E) : publishes (@throw _ E A e).
Proof. intros x Hx. by split; [|split; [|left]]. Qed.

Lemma read_file_disk p (w : fs) : disk (read_file p w).2 = disk w /\ forall b, (read_file p w).1 = Done b -> disk w !! p = Some b.
Proof. unfold read_file, call. destruct (events w) as [|[]]; cbn; [| |done|done]; destruct (disk w !! p) eqn:E0; cbn; (split; [done|]); congruence. Qed.
Lemma parents_disk p (w : fs) : disk (create_parents p w).2 = disk w.
Proof. unfold create_parents, create_dir_all, call. by destruct (events w) as [|[]]. Qed.
Lemma rename_disk a b (w : fs) : match (rename_file a b w).1 with
  | Done _ => exists c, disk w !! a = Some c /\ disk (rename_file a b w).2 = <[b := c]> (delete a (disk w))
  | _ => disk (rename_file a b w).2 = disk w end.
Proof. unfold rename_file, call. destruct (events w) as [|[]]; cbn; [| |done|done]; destruct (disk w !! a) eqn:E0; cbn; [eauto|done|eauto|done]. Qed.

(** The rename, of a file that has been verified. *)
Lemma rename_good b x : job x.1.1 -> disk x.2 !! staging = Some b -> hash_of b = h -> zlen b = n ->
  published x ((let! _ := files (create_parents target) in let! _ := files (rename_file staging target) in set_rec (E:=DeltaError) done_) x).
Proof.
  destruct x as [[r cs] w]. cbn [fst snd]. intros Hj Hs Hh Hz. unfold published, bind, files, snd_part, map_error. cbn.
  pose proof (parents_disk target w) as Hp. destruct (create_parents target w) as [[u|e|] w1]; cbn in *; [|by rewrite Hp; eauto..].
  pose proof (rename_disk staging target w1) as Hr. destruct (rename_file staging target w1) as [[u'|e|] w2]; cbn in *; [|by rewrite Hr, Hp; eauto..].
  destruct Hr as (c & Hc & Hd). rewrite Hd. assert (c = b) as -> by congruence. split; [done|]. split.
  - intros p H1 H2. by rewrite lookup_insert_ne, lookup_delete_ne, Hp.
  - exists b. by rewrite Hd, lookup_insert_eq.
Qed.
Lemma published_disk {E A} r c w w' x (y : res E A * st) : disk w' = disk w -> published (x, c, w') y -> published (r, c, w) y.
Proof. unfold published. cbn. by intros ->. Qed.

Lemma publishes_commit : publishes verify_and_commit.
Proof.
  intros [[r c] w] Hj. cbn [fst snd] in Hj. pose proof Hj as (Ht & Hs & Hh & Hz). unfold verify_and_commit. unfold bind at 1. cbn [get_rec fst snd].
  rewrite Ht, Hs, Hh, Hz. destruct (negb (open_ r)); [by apply publishes_throw|].
  unfold bind at 1. cbn [set_rec]. unfold bind at 1. unfold files at 1, snd_part at 1, map_error at 1.
  pose proof (read_file_disk staging w) as [Hd Hb]. destruct (read_file staging w) as [[b|e|] w1]; cbn [fst snd] in *;
    [|by eapply (published_disk _ _ _ w1); [|split; [|split; [|left]]]..].
  apply (published_disk _ _ _ w1 (closed r)); [done|].
  assert (forall e, publishes (let! _ := snd_part (ignore (remove_file staging)) in throw (A:=unit) (e : DeltaError))) as Hrm.
  { intros e. apply publishes_after; [|intros _; apply publishes_throw]. apply stages_snd. eauto with fs. }
  destruct (zlen b =? n) eqn:E; cbn [negb]; [|by apply Hrm].
  case_bool_decide as Hhash; cbn [negb]; [|by apply Hrm].
  specialize (Hb b eq_refl). apply (rename_good b); [done|cbn; by rewrite Hd|done|lia].
Qed.

Lemma publishes_transfer us nw br params src dst d inv l xs : publishes (transfer us nw br params src dst d inv l xs).
Proof.
  unfold transfer. apply publishes_after; [apply stages_files; eauto with fs|]. intros b.
  apply publishes_after; [apply stages_snd; eauto with fs|]. intros there.
  apply publishes_after; [case_match; [apply stages_bind; [apply stages_files; eauto with fs|eauto with fs]|eauto with fs]|]. intros od.
  apply publishes_after; [case_match; [apply stages_full|apply stages_delta|apply stages_full]|]. intros k.
  apply publishes_ret, publishes_commit.
Qed.

Lemma publishes_finally {A} (c : M st DeltaError A) : publishes c -> publishes (finally c drop_rec).
Proof.
  intros Hc x Hx. specialize (Hc x Hx) as (Hj & Ho & Ht). unfold finally.
  assert (stages (@drop_rec DeltaError)) as Hd.
  { apply stages_get. intros r (_ & -> & _). destruct (committed r); [apply stages_ret|]. apply stages_snd. eauto with fs. }
  destruct (c x) as [res y] eqn:Ec. cbn [fst snd] in *. specialize (Hd y Hj) as [Hj' Hd']. unfold published, good in *.
  destruct res as [a|e|]; [destruct (drop_rec y) as [[]y'] eqn:Ed; cbn [fst snd] in *; rewrite ?(Hd' target) by done;
    (split; [done|]); (split; [by intros p H1 H2; rewrite Hd', Ho|]); auto..|done].
Qed.
End job.

(** ** Paths *)

(** The path ends in the name of a file. *)
Definition named (dst : bytes) : bool := let name := (dir_and_name dst).2 in negb (bool_decide (name = []) || bool_decide (name = [DOT; DOT])).

Lemma rsplit_app c l a b : rsplit c l = Some (a, b) -> l = a ++ c :: b.
Proof.
  revert a b. induction l as [|x l IH]; intros a b; [done|]. cbn. destruct (rsplit c l) as [[a' b']|].
  - intros [= <- <-]. cbn. f_equal. by apply IH.
  - destruct (Z.eqb_spec x c); [|done]. by intros [= <- <-]; subst.
Qed.

Lemma staging_longer dst : named dst = true -> zlen dst < zlen (staging_for dst).
Proof.
  unfold named, staging_for. assert (dst = (dir_and_name dst).1 ++ (dir_and_name dst).2) as Hd.
  { unfold dir_and_name. destruct (rsplit SLASH dst) as [[d nm]|] eqn:E; [|done]. apply rsplit_app in E. cbn. by rewrite <- app_assoc. }
  destruct (dir_and_name dst) as [d nm]. cbn [fst snd] in *. intros ->%negb_true_iff. rewrite Hd at 1. unfold stem_and_extension.
  destruct (rsplit DOT nm) as [[[|x stem] e]|] eqn:E; [|apply rsplit_app in E; rewrite E|];
    unfold zlen; rewrite !length_app; cbn [length default]; unfold lit; rewrite ?length_fmap; cbn; lia.
Qed.

(** ** What the scans find *)

Section scans.
Hypothesis hasher_spec : forall l, hasher_finalize (foldl hasher_update hasher_new l) = hash_of (mjoin l).
Hypothesis split_join : forall b, mjoin (split b) = b.
Hypothesis split_parts : forall b, Forall (fun part => part <> []) (split b).
Context (mode : ChunkMode) (params : ChunkParams.t) (Htarget : 0 < ChunkParams.target params) (Hmin : 0 <= ChunkParams.min params).

Local Abbreviation chunks_of := (spec_chunks (cut_of mode params)).
Definition digest (c : bytes) : option Hash := if is_all_zeros c then None else Some (hash_of c).

(** The chunks in order, where they start. *)
Fixpoint layout (off : Z) (l : list bytes) : list (Z * Z * option Hash) :=
  match l with [] => [] | c :: l => (off, zlen c, digest c) :: layout (off + zlen c) l end.

Lemma describe_eq c : ChunkDesc.length (describe hash_of c (zlen c)) = zlen c /\ ChunkDesc.hash (describe hash_of c (zlen c)) = digest c.
Proof. unfold describe, digest. by destruct (is_all_zeros c). Qed.

Lemma feed_layout l acc off : feed hash_of add_chunk (acc, off) l = Ok (acc ++ layout off l, off + zlen (mjoin l)).
Proof.
  revert acc off. induction l as [|c l IH]; intros acc off; cbn [feed layout]; [by rewrite app_nil_r, Z.add_0_r|].
  cbn [add_chunk obind]. destruct (describe_eq c) as [-> ->]. rewrite IH, <- app_assoc. do 2 f_equal.
  change (mjoin (c :: l)) with (c ++ mjoin l). rewrite zlen_app. lia.
Qed.

Lemma parts_bytes b : is_bytes b -> Forall (fun part => is_bytes part /\ part <> []) (split b).
Proof.
  intros Hb. apply Forall_and. split; [|apply split_parts]. rewrite <- (split_join b) in Hb. revert Hb. generalize (split b).
  induction l as [|c l IH]; intros Hb; [done|]. cbn in Hb. apply Forall_app in Hb as [? ?]. constructor; [done|by apply IH].
Qed.

Lemma read_at_all c (w : fs) : disk (read_at c 0 (zlen c) w).2 = disk w /\ forall b, (read_at c 0 (zlen c) w).1 = Done b -> b = c.
Proof. unfold read_at, call. destruct (events w) as [|[]]; cbn; (split; [done|]); intros b; try done; intros [= <-]; unfold zlen; rewrite drop_0, Nat2Z.id; apply firstn_all. Qed.

Lemma scan_found src w l h w' : (forall b, disk w !! src = Some b -> is_bytes b) -> scan_source mode params src w = (Done (l, h), w') ->
  disk w' = disk w /\ exists b, disk w !! src = Some b /\ h = hash_of b /\ l = layout 0 (chunks_of b).
Proof.
  intros Hb. unfold scan_source, bind, map_error. pose proof (read_file_disk src w) as [Hd H1]. destruct (read_file src w) as [[b|e|] w1]; cbn [fst snd] in *; [|done|done].
  specialize (H1 b eq_refl). pose proof (read_at_all b w1) as [Hd' H2]. destruct (read_at b 0 (zlen b) w1) as [[b'|e|] w2]; cbn [fst snd] in *; [|done|done].
  specialize (H2 b' eq_refl) as ->. rewrite (chunk_reader_spec _ _ _ _ _ hasher_spec) by (try done; by apply parts_bytes, Hb).
  rewrite split_join, feed_layout. cbn [obind]. intros [= <- <- <-]. split; [congruence|]. by exists b.
Qed.

(** Every extent is that of a chunk with the hash. *)
Definition extents_ok (m : gmap Hash ChunkExtent) (b : bytes) (l : list bytes) : Prop := forall h e, m !! h = Some e ->
  exists c, c ∈ l /\ hash_of c = h /\ length_ e = zlen c /\ 0 <= offset e /\ take (Z.to_nat (zlen c)) (drop (Z.to_nat (offset e)) b) = c.

Lemma feed_extents b l : forall pre seen m n, b = pre ++ mjoin l -> extents_ok m b seen ->
  exists m' n', feed hash_of add_extent (m, zlen pre, n) l = Ok (m', zlen b, n') /\ extents_ok m' b (seen ++ l).
Proof.
  induction l as [|c l IH]; intros pre seen m n Hb Hm; cbn [feed].
  - cbn in Hb. rewrite app_nil_r in Hb. rewrite Hb, app_nil_r. subst. eauto.
  - cbn [add_extent obind]. destruct (describe_eq c) as [-> ->]. change (mjoin (c :: l)) with (c ++ mjoin l) in Hb. rewrite app_assoc in Hb.
    rewrite <- zlen_app. replace (seen ++ c :: l) with ((seen ++ [c]) ++ l) by by rewrite <- app_assoc. apply IH; [done|].
    assert (extents_ok m b (seen ++ [c])) as Hm'. { intros h e E. destruct (Hm h e E) as (x & Hx & ?). exists x. split; [set_solver|done]. }
    unfold digest. destruct (is_all_zeros c); [done|]. destruct (m !! hash_of c) eqn:E; [done|]. intros h e. destruct (decide (hash_of c = h)) as [<-|Hh].
    + rewrite lookup_insert_eq. intros [= <-]. cbn [offset length_]. exists c. split; [set_solver|]. split; [done|]. split; [done|]. split; [apply zlen_nonneg|].
      rewrite Hb, <- app_assoc. unfold zlen. rewrite !Nat2Z.id, drop_app_length. by rewrite take_app_length.
    + rewrite lookup_insert_ne by done. apply Hm'.
Qed.

Lemma inventory_found dst w i w' : (forall b, disk w !! dst = Some b -> is_bytes b) -> from_file mode params dst w = (Done i, w') ->
  disk w' = disk w /\ exists b, disk w !! dst = Some b /\ whole_hash i = Some (hash_of b) /\ inv_total_bytes i = zlen b /\ extents_ok (inv_chunks i) b (chunks_of b).
Proof.
  intros Hb. unfold from_file, bind, map_error. pose proof (read_file_disk dst w) as [Hd H1]. destruct (read_file dst w) as [[b|e|] w1]; cbn [fst snd] in *; [|done|done].
  specialize (H1 b eq_refl). pose proof (read_at_all b w1) as [Hd' H2]. destruct (read_at b 0 (zlen b) w1) as [[b'|e|] w2]; cbn [fst snd] in *; [|done|done].
  specialize (H2 b' eq_refl) as ->. rewrite (chunk_reader_spec _ _ _ _ _ hasher_spec) by (try done; by apply parts_bytes, Hb). rewrite split_join.
  destruct (feed_extents b (chunks_of b) [] [] ∅ 0) as (m & k & E & Hm); [symmetry; apply spec_chunks_concat|done|].
  change (zlen []) with 0 in E. rewrite E. cbn [obind]. intros [= <- <-]. split; [congruence|]. exists b. by cbn.
Qed.

Lemma old_inventory_found dst w i w' : (forall b, disk w !! dst = Some b -> is_bytes b) -> old_inventory mode params dst w = (Done (Some i), w') ->
  exists b, disk w !! dst = Some b /\ whole_hash i = Some (hash_of b) /\ inv_total_bytes i = zlen b /\ extents_ok (inv_chunks i) b (chunks_of b).
Proof.
  intros Hb. unfold old_inventory, bind. cbn. case_match; [|done]. destruct (from_file mode params dst w) as [[i'|e|] w1] eqn:E; [|done|done].
  intros [= <- <-]. apply inventory_found in E as [_ E]; done.
Qed.

(** ** Safety *)

Section safety.
Context (src dst : bytes) (w0 : fs).

(** The target holds a file of the size and the hash of the source. *)
Definition same_file (w : fs) : Prop := exists b s, disk w !! dst = Some b /\ disk w0 !! src = Some s /\ hash_of b = hash_of s /\ zlen b = zlen s.
Definition sync_safe (y : res DeltaError DeltaSyncReport * (LocalChunkStore * fs)) : Prop :=
  (forall p, p <> staging_for dst -> p <> dst -> disk y.2.2 !! p = disk w0 !! p) /\
  match y.1 with Done _ => same_file y.2.2 | _ => disk y.2.2 !! dst = disk w0 !! dst \/ same_file y.2.2 end.

Lemma safe_error y : (forall r, y.1 <> Done r) -> disk y.2.2 = disk w0 -> sync_safe y.
Proof. destruct y as [r [c w]]. unfold sync_safe. cbn. intros Hr Hd. rewrite Hd. split; [done|]. destruct r as [r|e|]; [by destruct (Hr r)|by left..]. Qed.

(** A call that changes no file. *)
Lemma safe_quiet {A} (c : M fs DeltaError A) k cs w : disk w = disk w0 -> only (fun _ => False) c ->
  (forall a w', c w = (Done a, w') -> disk w' = disk w0 -> sync_safe (k a (cs, w'))) -> sync_safe (bind (snd_part c) k (cs, w)).
Proof.
  intros Hw Hc Hk. specialize (Hc w) as [_ Hc]. unfold bind, snd_part. destruct (c w) as [r w'] eqn:E. cbn [fst snd] in *.
  assert (disk w' = disk w0) as Hd by (rewrite <- Hw; apply map_eq; intros p; apply Hc; tauto). destruct r; [by apply Hk|by apply safe_error..].
Qed.

Lemma only_new_rec P target staging h size k : P staging -> only P (new_rec target staging h size k).
Proof. intros HP. unfold new_rec. eauto 10 with fs. Qed.
Lemma new_rec_job target staging h size k (w w' : fs) r : new_rec target staging h size k w = (Done r, w') -> job target staging h size r.
Proof. unfold new_rec, bind. repeat case_match; try done. intros [= <- <-]. by split_and!. Qed.

(** From the creation of the staging file on. *)
Lemma safe_staged us nw br d inv l xs cs w b : named dst = true -> disk w = disk w0 -> disk w0 !! src = Some b ->
  sync_safe (staged_sync params us nw br src dst d (zlen b) (hash_of b) inv l xs (cs, w)).
Proof.
  intros Hn Hw Hb. unfold staged_sync. assert (dst <> staging_for dst) as Hne by (intros E; pose proof (staging_longer dst Hn) as Hl; rewrite <- E in Hl; lia).
  pose proof (only_new_rec (eq (staging_for dst)) dst (staging_for dst) (hash_of b) (zlen b) (zlen l) eq_refl w) as [_ Ho].
  destruct (new_rec _ _ _ _ _ w) as [r w1] eqn:E. cbn [fst snd] in Ho.
  assert (forall p, p <> staging_for dst -> disk w1 !! p = disk w0 !! p) as Ho' by (intros p Hp; rewrite <- Hw; apply Ho; congruence).
  destruct r as [r|e|]; [|by split; [intros p Hp _; apply Ho'|left; apply Ho']..].
  apply new_rec_job in E. pose proof (publishes_finally dst (staging_for dst) (hash_of b) (zlen b) Hne _
    (publishes_transfer dst (staging_for dst) (hash_of b) (zlen b) Hne us nw br params src dst d inv l xs) (r, cs, w1) E) as (_ & H1 & H2).
  destruct (finally _ _ _) as [res [[r' c'] w2]]. cbn [fst snd] in *.
  split; cbn [fst snd]; [intros p H3 H4; rewrite H1, Ho'; done|]. rewrite Ho' in H2 by done.
  assert (good dst (hash_of b) (zlen b) w2 -> same_file w2) as Hgood. { intros (x & ? & ? & ?). exists x, b. by split_and!. }
  destruct res as [k'|e|]; [by apply Hgood|destruct H2; auto..].
Qed.

Lemma len_of_eq c (w : fs) z w' : len_of c w = (Done z, w') -> z = zlen c.
Proof. unfold len_of, call. destruct (events w) as [|[]]; cbn; congruence. Qed.

Lemma only_scan P p : only P (scan_source mode params p).
Proof. unfold scan_source. apply only_bind; [eauto with fs|]. intros a. apply only_bind; [eauto with fs|]. intros b. repeat case_match; eauto with fs. Qed.
Lemma only_from_file P p : only P (from_file mode params p).
Proof. unfold from_file. apply only_bind; [eauto with fs|]. intros a. apply only_bind; [eauto with fs|]. intros b. repeat case_match; eauto with fs. Qed.

Lemma only_inventory P p : only P (old_inventory mode params p).
Proof. unfold old_inventory. apply only_bind; [eauto with fs|]. intros t. pose proof (only_from_file P p). case_match; eauto with fs. Qed.

(** C18. A synchronisation publishes nothing but the source. Whatever calls fail and wherever the process
    dies, a synchronisation changes no file but the target and its staging file, and the target is as it
    was, or has the size and the hash of the source; it has them whenever the synchronisation reports
    success. *)
Theorem delta_commit_verified `{Ratio} use_store at_ broken cs : named dst = true ->
  (forall p b, disk w0 !! p = Some b -> is_bytes b) ->
  sync_safe (execute_dedup_sync mode params use_store at_ broken src dst (cs, w0)).
Proof.
  intros Hn Hb. unfold execute_dedup_sync. apply safe_quiet; [done|eauto with fs|]. intros b w1 E1 D1.
  assert (disk w0 !! src = Some b) as Hsrc.
  { unfold map_error in E1. destruct (read_file_disk src w0) as [_ Hr]. destruct (read_file src w0) as [[]]; simplify_eq/=. by apply Hr. }
  apply safe_quiet; [done|eauto with fs|]. intros size w2 E2 D2.
  assert (size = zlen b) as -> by (unfold map_error in E2; repeat case_match; simplify_eq/=; by eapply len_of_eq).
  apply safe_quiet; [done|apply only_inventory|]. intros inv w3 E3 D3. apply safe_quiet; [done|apply only_scan|]. intros [l h] w4 E4 D4.
  apply scan_found in E4 as (_ & b' & Hsrc' & -> & _); [|rewrite D3; apply Hb]. rewrite D3 in Hsrc'. simplify_eq.
  destruct (unchanged inv _ _) eqn:Eq; [destruct inv as [i|]; [|done]|].
  - apply old_inventory_found in E3 as (d & Hd & Hh & Hz & _); [|intros; eapply Hb; rewrite <- D2; eassumption]. rewrite D2 in Hd. unfold unchanged in Eq. apply andb_true_iff in Eq as [Eq%bool_decide_eq_true Ez].
    split; cbn [fst snd ret]; [by rewrite D4|]. exists d, b. rewrite D4. split; [done|]. split; [done|]. split; [congruence|lia].
  - destruct (sources_of _ _ _) as [xs| |]; [destruct (negotiate xs)|..]; [by apply safe_staged|by apply safe_error..].
Qed.
End safety.

(** ** When no call fails *)

Section succeeds.
Context (js : gmap bytes Empty_set) (time : Z).
Local Abbreviation W d := (mkWorld d js [] time).

Lemma alter_at (f : bytes -> bytes) (p c : bytes) (d : gmap bytes bytes) : d !! p = Some c -> alter f p d = <[p := f c]> d.
Proof. intros Hp. apply map_eq. intros q. destruct (decide (p = q)) as [<-|Hq]; [by rewrite lookup_alter_eq, lookup_insert_eq, Hp|by rewrite lookup_alter_ne, lookup_insert_ne]. Qed.

Lemma splice_at (a r b : bytes) : (length b <= length r)%nat -> splice (a ++ r) (zlen a) b = a ++ b ++ drop (length b) r.
Proof.
  intros Hl. unfold splice, zlen. rewrite Nat2Z.id, take_app_length, length_app. replace (Z.to_nat (Z.of_nat (length a) - Z.of_nat (length a + length r))) with 0%nat by lia.
  replace (Z.to_nat (Z.of_nat (length a) + Z.of_nat (length b))) with (length a + length b)%nat by lia. rewrite drop_app_add. done.
Qed.

Lemma write_at_done (p a r b : bytes) d : d !! p = Some (a ++ r) -> (length b <= length r)%nat ->
  write_at p (zlen a) b (W d) = (Done tt, W (<[p := a ++ b ++ drop (length b) r]> d)).
Proof. intros Hp Hl. unfold write_at, call, edit, set_disk. cbn. by rewrite (alter_at _ _ _ _ Hp), splice_at. Qed.

Lemma copy_loop_ok fuel : forall (src p : bytes) short so len (a r : bytes) d, d !! p = Some (a ++ r) -> 0 <= so -> 0 <= len <= Z.of_nat fuel -> so + len <= zlen src -> len <= zlen r ->
  copy_loop fuel src p short so (zlen a) len (W d)
  = (Done tt, W (<[p := a ++ take (Z.to_nat len) (drop (Z.to_nat so) src) ++ drop (Z.to_nat len) r]> d)).
Proof.
  induction fuel as [|fuel IH]; intros src p short so len a r d Hp Hso Hlen Hsrc Hr; cbn [copy_loop].
  - assert (len = 0) as -> by lia. cbn. by rewrite take_0, drop_0, insert_id.
  - destruct (Z.leb_spec len 0). { assert (len = 0) as -> by lia. cbn. by rewrite take_0, drop_0, insert_id. }
    unfold bind at 1, map_error, read_at, call. cbn [disk docs events now tail]. set (m := Z.min len BUF).
    assert (0 < m <= len) as Hm by (unfold m, BUF in *; lia). set (buf := take (Z.to_nat m) (drop (Z.to_nat so) src)).
    assert (zlen buf = m) as Hbuf by (unfold buf; rewrite zlen_take, zlen_drop; lia). rewrite Hbuf.
    destruct (Z.eqb_spec m 0); [lia|]. unfold bind. rewrite (write_at_done _ _ _ _ _ Hp) by (unfold zlen in *; lia).
    replace (zlen a + m) with (zlen (a ++ buf)) by (rewrite zlen_app; lia).
    rewrite (IH _ _ _ _ _ (a ++ buf) (drop (length buf) r)); [|by rewrite lookup_insert_eq, <- app_assoc|lia..|rewrite zlen_drop; unfold zlen in *; lia].
    rewrite insert_insert_eq, <- app_assoc, drop_drop, (app_assoc buf). unfold buf at 1. do 6 f_equal.
    + replace (Z.to_nat len) with (Z.to_nat m + Z.to_nat (len - m))%nat by lia. rewrite <- take_take_drop, drop_drop. do 4 f_equal. lia.
    + unfold zlen in *. lia.
Qed.

Section loop.
Context (target p : bytes) (h0 : Hash) (size : Z) (use_store : bool) (at_ : Z) (broken : Hash -> option string).
Context (full : bytes) (old : option bytes) (inv : option LocalInventory) (cs0 : LocalChunkStore).
Hypothesis hash_wf : forall b, wf_hash (hash_of b).

Definition live (r : DeltaReconstructor) : Prop := job target p h0 size r /\ open_ r = true.
(** The state while chunks are written: the staging file holds [a] and, from there on, zeros. *)
Definition filled (a : bytes) (m : nat) (d : gmap bytes bytes) (x : st) : Prop :=
  live x.1.1 /\ filter_ok x.1.2 /\ chunks cs0 ⊆ chunks x.1.2 /\ x.2 = W (<[p := a ++ replicate m 0]> d).

Lemma filled_write a (c : bytes) m d x : filled a (length c + m) d x ->
  write_at p (zlen a) c x.2 = (Done tt, W (<[p := (a ++ c) ++ replicate m 0]> d)).
Proof.
  intros (_ & _ & _ & ->). rewrite (write_at_done _ a (replicate (length c + m) 0)); [|apply lookup_insert_eq|rewrite length_replicate; lia].
  by rewrite insert_insert_eq, drop_replicate, <- app_assoc, Nat.add_comm, Nat.add_sub.
Qed.

Lemma put_keeps cs h b : filter_ok cs ->
  (exists e, put_sync hash_of cs h b at_ (broken h) = Err e) \/
  exists cs', put_sync hash_of cs h b at_ (broken h) = Ok cs' /\ filter_ok cs' /\ chunks cs ⊆ chunks cs'.
Proof.
  intros Hf. unfold put_sync. destruct (put_file_ok hash_of hash_wf cs h b at_ (broken h) Hf) as [[-> _]|[[why ->]|[(_ & _ & ->)|(_ & Hn & f & -> & Hf')]]]; cbn [obind]; eauto.
  right. eexists. split; [done|]. split; [done|]. cbn. by apply insert_subseteq.
Qed.

Lemma send_ok a (c rest : bytes) m d x h : full = a ++ c ++ rest -> zlen c <= ChunkParams.max params -> filled a (length c + m) d x ->
  exists x', send_chunk use_store at_ broken params full (zlen a) (zlen c) h x = (Done tt, x') /\ filled (a ++ c) m d x'.
Proof.
  intros Hfull Hmax Hx. pose proof (filled_write a c m d x Hx) as Hwr. destruct x as [[r cs] w]. destruct Hx as ((Hj & Ho) & Hf & Hsub & Hd). cbn [fst snd] in *.
  unfold send_chunk. destruct (Z.ltb_spec (ChunkParams.max params) (zlen c)); [lia|]. subst w.
  unfold bind at 1, files, snd_part, map_error, read_at, call. cbn [disk docs events now tail].
  assert (take (Z.to_nat (zlen c)) (drop (Z.to_nat (zlen a)) full) = c) as ->
    by (rewrite Hfull; unfold zlen; by rewrite !Nat2Z.id, drop_app_length, take_app_length).
  rewrite Z.ltb_irrefl. unfold bind at 1, write_wire_chunk, require_open. unfold bind at 1. cbn [get_rec fst snd]. rewrite Ho.
  unfold bind at 1. cbn [get_rec fst snd]. destruct Hj as (Ht & Hp & Hh & Hz). rewrite Hp. unfold bind at 1, files, snd_part, map_error. rewrite Hwr. cbn [set_rec].
  assert (forall cs', filter_ok cs' -> chunks cs ⊆ chunks cs' -> filled (a ++ c) m d (counted r 0 0 1 0 (zlen c), cs', W (<[p := (a ++ c) ++ replicate m 0]> d))) as Hdone.
  { intros cs' H1 H2. split; [by split|]. split; [done|]. split; [by etrans|done]. }
  destruct use_store; [|by eexists; split; [done|apply Hdone]]. unfold bind. cbn [get_store fst snd].
  destruct (put_keeps cs h c Hf) as [[e ->]|(cs' & -> & H1 & H2)]; eexists; (split; [done|by apply Hdone]).
Qed.

Lemma filled_copy a (c b : bytes) short so m d x : filled a (length c + m) d x -> 0 <= so -> so + zlen c <= zlen b ->
  take (Z.to_nat (zlen c)) (drop (Z.to_nat so) b) = c ->
  copy_loop (Z.to_nat (zlen c)) b p short so (zlen a) (zlen c) x.2 = (Done tt, W (<[p := (a ++ c) ++ replicate m 0]> d)).
Proof.
  intros (_ & _ & _ & ->) Hso Hle Hc. pose proof (zlen_nonneg c).
  rewrite (copy_loop_ok _ b p short so (zlen c) a (replicate (length c + m) 0)); [|apply lookup_insert_eq|done|lia|lia|rewrite zlen_replicate; unfold zlen; lia].
  rewrite Hc. unfold zlen. by rewrite Nat2Z.id, insert_insert_eq, drop_replicate, <- app_assoc, Nat.add_comm, Nat.add_sub.
Qed.

Lemma copy_ok a (c b : bytes) so m d x : filled a (length c + m) d x -> 0 <= so -> so + zlen c <= zlen b ->
  take (Z.to_nat (zlen c)) (drop (Z.to_nat so) b) = c ->
  exists x', copy_local_chunk b so (zlen a) (zlen c) x = (Done tt, x') /\ filled (a ++ c) m d x'.
Proof.
  intros Hx Hso Hle Hc. pose proof (fun s => filled_copy a c b s so m d x Hx Hso Hle Hc) as Hl. destruct x as [[r cs] w].
  destruct Hx as ((Hj & Ho) & Hf & Hsub & Hd). cbn [fst snd] in *. subst w. destruct Hj as (Ht & Hp & Hh & Hz).
  unfold copy_local_chunk, require_open. unfold bind at 1. cbn [get_rec fst snd]. rewrite Ho. unfold bind at 1. cbn [get_rec fst snd]. rewrite Hp.
  unfold bind at 1. cbn [snd_part]. rewrite Hl. cbn [set_rec]. by eexists.
Qed.

Lemma copy_store_ok a (c : bytes) h f m d x : filled a (length c + m) d x -> chunks cs0 !! h = Some f -> data f = c -> hash_of c = h ->
  exists x', copy_chunk_from_store h (zlen a) x = (Done tt, x') /\ filled (a ++ c) m d x'.
Proof.
  intros Hx Hf Hd Hh. assert (take (Z.to_nat (zlen c)) (drop (Z.to_nat 0) c) = c) as Hc by (unfold zlen; rewrite Nat2Z.id, drop_0; apply firstn_all).
  pose proof (fun s => filled_copy a c c s 0 m d x Hx ltac:(lia) ltac:(lia) Hc) as Hl. destruct x as [[r cs] w].
  destruct Hx as ((Hj & Ho) & Hfo & Hsub & Hw). cbn [fst snd] in *. subst w. pose proof Hj as (Ht & Hp & Hhh & Hz).
  pose proof (lookup_weaken _ _ _ _ Hf Hsub) as Hcs.
  unfold copy_chunk_from_store, require_open. unfold bind at 1. cbn [get_rec fst snd]. rewrite Ho. unfold bind at 1. cbn [get_rec fst snd]. rewrite Hp.
  unfold bind at 1. cbn [get_store fst snd]. unfold bind at 1. cbn [snd_part]. unfold copy_to_std_file. rewrite Hcs, Hd.
  unfold bind at 1, map_error. rewrite Hl. rewrite bool_decide_eq_true_2 by done. cbn [ret set_rec]. by eexists.
Qed.

Lemma skip_ok a (c : bytes) m d x : filled a (length c + m) d x -> c = replicate (length c) 0 ->
  exists x', skip_hole (zlen c) x = (Done tt, x') /\ filled (a ++ c) m d x'.
Proof.
  destruct x as [[r cs] w]. intros ((Hj & Ho) & Hfo & Hsub & Hw) Hc. cbn [fst snd] in *. subst w.
  unfold skip_hole, require_open, bind. cbn [get_rec fst snd]. rewrite Ho. cbn [set_rec]. eexists. split; [done|].
  split; [by split|]. split; [done|]. split; [done|]. cbn [snd]. by rewrite replicate_add, <- Hc, app_assoc.
Qed.

Lemma hole_zeros c : is_bytes c -> digest c = None -> c = replicate (length c) 0.
Proof.
  unfold digest, is_all_zeros. intros Hb. rewrite zero_words_spec by done. destruct (forallb (Z.eqb 0) c) eqn:E; [|done]. intros _. clear Hb.
  induction c as [|x c IH]; [done|]. cbn [forallb] in E. apply andb_true_iff in E as [E1%Z.eqb_eq E2]. rewrite <- E1. cbn [length replicate]. f_equal. by apply IH.
Qed.

(** Where a chunk can be taken from. *)
Definition can_use (c : bytes) (x : source) : Prop :=
  match digest c, x with
  | Some _, Hole => False
  | Some h, LocalFile => exists i e b, inv = Some i /\ inv_lookup i h = Some e /\ old = Some b /\ 0 <= offset e /\ offset e + zlen c <= zlen b /\
      take (Z.to_nat (zlen c)) (drop (Z.to_nat (offset e)) b) = c
  | Some h, InStore => use_store = true /\ exists f, chunks cs0 !! h = Some f /\ data f = c
  | _, _ => True
  end.
Definition bytes_in (k : counts) : Z := wire_b k + local_b k + store_b k + hole_b k.

Local Abbreviation loop_ l k := (delta_loop use_store at_ broken params full old inv l k).
Lemma loop_step a c x l k : forall y m d rest, is_bytes c -> zlen c <= ChunkParams.max params -> can_use c x -> full = a ++ c ++ rest -> filled a (length c + m) d y ->
  exists y' k', loop_ ((zlen a, zlen c, digest c, x) :: l) k y = loop_ l k' y' /\ filled (a ++ c) m d y' /\ bytes_in k' = bytes_in k + zlen c.
Proof.
  intros y m d rest Hb Hmax Hu Hfull Hy. cbn [delta_loop].
  assert (forall (s : M st DeltaError unit) k', (exists y', s y = (Done tt, y') /\ filled (a ++ c) m d y') -> bytes_in k' = bytes_in k + zlen c ->
    exists y' k'', (let! _ := s in loop_ l k') y = loop_ l k'' y' /\ filled (a ++ c) m d y' /\ bytes_in k'' = bytes_in k + zlen c) as Hgo.
  { intros s k' (y' & E & Hy') Hk. exists y', k'. unfold bind. by rewrite E. }
  unfold can_use in Hu. destruct (digest c) as [h|] eqn:Eh; [|apply Hgo; [apply skip_ok; [done|by apply hole_zeros]|unfold bytes_in; cbn; lia]].
  destruct x; [| | |done].
  - apply Hgo; [by eapply send_ok|unfold bytes_in; cbn; lia].
  - destruct Hu as (i & e & b & -> & He & -> & H1 & H2 & H3). cbn [mbind option_bind]. rewrite He. apply Hgo; [by apply copy_ok|unfold bytes_in; cbn; lia].
  - destruct Hu as (Hus & f & Hf & Hd). assert (forall T (u v : T), (if use_store then u else v) = u) as -> by by rewrite Hus. apply Hgo; [|unfold bytes_in; cbn; lia]. eapply copy_store_ok; [done..|].
    unfold digest in Eh. by destruct (is_all_zeros c); simplify_eq.
Qed.

Lemma loop_ok l xs : Forall2 can_use l xs -> Forall (fun c => is_bytes c /\ zlen c <= ChunkParams.max params) l ->
  forall a k y d, full = a ++ mjoin l -> filled a (length (mjoin l)) d y ->
  exists y' k', loop_ (zip (layout (zlen a) l) xs) k y = (Done k', y') /\ filled full 0 d y' /\ bytes_in k' = bytes_in k + zlen (mjoin l).
Proof.
  induction 1 as [|c x l xs Hu Hl IH]; intros HF a k y d Hfull Hy.
  - cbn in *. rewrite app_nil_r in Hfull. subst a. exists y, k. split; [done|]. split; [done|]. rewrite zlen_nil. lia.
  - apply Forall_cons in HF as [[Hb Hm] HF]. change (mjoin (c :: l)) with (c ++ mjoin l) in *. rewrite length_app in Hy. cbn [layout zip zip_with].
    destruct (loop_step a c x (zip (layout (zlen a + zlen c) l) xs) k y (length (mjoin l)) d (mjoin l) Hb Hm Hu Hfull Hy) as (y1 & k1 & -> & Hy1 & Hk1).
    rewrite <- zlen_app. destruct (IH HF (a ++ c) k1 y1 d) as (y' & k' & E & Hy' & Hk'); [by rewrite <- app_assoc|done|].
    exists y', k'. split; [exact E|]. split; [done|]. rewrite zlen_app. lia.
Qed.

Lemma full_as_delta l k y : full_loop use_store at_ broken params full l k y = loop_ (zip l (replicate (length l) Wire)) k y.
Proof.
  revert k y. induction l as [|[[off len] [h|]] l IH]; intros k y; [done| |]; cbn [full_loop length replicate zip zip_with delta_loop]; unfold bind.
  - destruct (send_chunk _ _ _ _ _ _ _ _ _) as [[]]; [apply IH|done|done].
  - destruct (skip_hole _ _) as [[]]; [apply IH|done|done].
Qed.
End loop.

(** ** The synchronisation of a file *)

Lemma bind_done {S E A B} (c : M S E A) (k : A -> M S E B) x a y : c x = (Done a, y) -> bind c k x = k a y.
Proof. unfold bind. by intros ->. Qed.

Lemma finally_done {S E A} (c : M S E A) f x a y z : c x = (Done a, y) -> f y = (Done tt, z) -> finally c f x = (Done a, z).
Proof. unfold finally. by intros -> ->. Qed.

Section whole.
Context (src dst s : bytes) (d : gmap bytes bytes) (cs : LocalChunkStore) (use_store : bool) (at_ : Z) (broken : Hash -> option string).
Local Abbreviation p := (staging_for dst).
(** The files and chunks that are compared by their hashes. *)
Definition known (b : bytes) : Prop := b = s \/ d !! dst = Some b \/ b ∈ chunks_of s \/ (exists o, d !! dst = Some o /\ b ∈ chunks_of o) \/
  exists h f, chunks cs !! h = Some f /\ data f = b.
Hypothesis hash_wf : forall b, wf_hash (hash_of b).
Hypothesis no_collision : forall a b, known a -> known b -> hash_of a = hash_of b -> a = b.
Context (Hfilter : filter_ok cs) (Hverified : verified hash_of ∅ cs).
Context (Hdst : named dst = true) (Hsrc : d !! src = Some s) (Hother : src <> p).
Context (Hbytes : forall q b, d !! q = Some b -> is_bytes b).

Definition inventory_of (inv : option LocalInventory) : Prop :=
  match inv with None => True | Some i => exists o, d !! dst = Some o /\ whole_hash i = Some (hash_of o) /\ inv_total_bytes i = zlen o /\ extents_ok (inv_chunks i) o (chunks_of o) end.

Local Abbreviation usable inv := (can_use use_store (d !! dst) inv cs).
Lemma source_ok inv c : inventory_of inv -> c ∈ chunks_of s ->
  exists x, source_of inv (if use_store then Some cs else None) (digest c) = Ok x /\ usable inv c x.
Proof.
  intros Hi Hc. unfold can_use, source_of. destruct (digest c) as [h|] eqn:E; [|by exists Hole].
  assert (hash_of c = h /\ 0 < zlen c) as [Hh Hz]. { unfold digest in E. destruct c as [|z c]; [done|]. split; [by destruct (is_all_zeros (z :: c)); simplify_eq|rewrite zlen_cons; pose proof (zlen_nonneg c); lia]. }
  destruct (match inv with Some i => inv_contains i h | None => false end) eqn:Ei.
  - exists LocalFile. split; [done|]. destruct inv as [i|]; [|done]. apply bool_decide_eq_true in Ei as [e He]. destruct Hi as (o & Ho & _ & _ & Hx).
    destruct (Hx h e He) as (c' & Hc' & Hh' & Hl & Hoff & Ht). assert (c' = c) as ->.
    { apply no_collision; [right; right; right; left; by exists o|right; right; by left|congruence]. }
    exists i, e, o. split; [done|]. split; [done|]. split; [done|]. split; [done|]. split; [|done].
    apply (f_equal zlen) in Ht. rewrite zlen_take, zlen_drop in Ht. lia.
  - destruct use_store; [|by exists Wire]. rewrite (contains_exact cs h Hfilter) by by rewrite <- Hh. cbn [obind]. case_bool_decide as Eb; [|by exists Wire].
    destruct Eb as [f Hf]. exists InStore. split; [done|]. split; [done|]. exists f. split; [done|].
    apply no_collision; [do 4 right; eauto|right; right; by left|]. rewrite Hh. apply (Hverified h f Hf). set_solver.
Qed.

Lemma sources_ok inv l off : inventory_of inv -> l ⊆ chunks_of s ->
  exists xs, sources_of inv (if use_store then Some cs else None) (layout off l) = Ok xs /\ Forall2 (usable inv) l xs.
Proof.
  intros Hi. revert off. induction l as [|c l IH]; intros off Hl; [by exists []|]. cbn [layout sources_of].
  destruct (source_ok inv c Hi) as (x & -> & Hx); [set_solver|]. destruct (IH (off + zlen c)) as (xs & -> & Hxs); [set_solver|].
  cbn [obind]. exists (x :: xs). split; [done|by constructor].
Qed.

Lemma negotiate_ok xs : zlen xs <= Rle.U32_MAX -> exists rle, negotiate xs = Ok rle.
Proof.
  intros Hl. unfold negotiate. set (bits := _ <$> xs). destruct (Rle.from_bits_ok bits) as (Hw & _); [unfold bits, zlen in *; by rewrite length_fmap|].
  destruct (Rle.encode (Rle.from_bits bits)) as [b| |] eqn:E.
  - exists (Rle.from_bits bits). by apply Rle.rle_decode_encode.
  - exfalso. unfold Rle.encode in E. rewrite Rle.put_runs_spec in E by apply Hw. done.
  - exfalso. unfold Rle.encode in E. rewrite Rle.put_runs_spec in E by apply Hw. done.
Qed.

Context (Hvalid : ChunkParams.valid params) (Hmode : mode <> FastCdc \/ ChunkParams.min params < ChunkParams.max params).
Context (Hcount : zlen (chunks_of s) <= Rle.U32_MAX).

Lemma dst_not_staging : dst <> p.
Proof. intros E. pose proof (staging_longer dst Hdst) as Hl. rewrite <- E in Hl. lia. Qed.

Lemma chunks_fit : Forall (fun c => is_bytes c /\ zlen c <= ChunkParams.max params) (chunks_of s).
Proof.
  apply Forall_and. split.
  - pose proof (Hbytes _ _ Hsrc) as Hb. rewrite <- (spec_chunks_concat (cut_of mode params) s) in Hb. revert Hb. generalize (chunks_of s).
    induction l as [|c l IH]; intros Hb; [done|]. change (mjoin (c :: l)) with (c ++ mjoin l) in Hb. apply Forall_app in Hb as [? ?]. constructor; [done|by apply IH].
  - destruct (spec_chunks_sizes mode params s Hvalid Hmode) as [Hl _]. eapply Forall_impl; [exact Hl|]. cbn. lia.
Qed.

Lemma length_layout off l : length (layout off l) = length l.
Proof. revert off. induction l as [|c l IH]; intros off; cbn; [done|by rewrite IH]. Qed.

Lemma loops_ok dec inv xs y : Forall2 (usable inv) (chunks_of s) xs -> filled dst p (hash_of s) (zlen s) cs [] (length s) d y ->
  exists y' k, match dec with
    | Delta => delta_loop use_store at_ broken params s (d !! dst) inv (zip (layout 0 (chunks_of s)) xs) no_counts
    | _ => full_loop use_store at_ broken params s (layout 0 (chunks_of s)) no_counts end y = (Done k, y') /\
    filled dst p (hash_of s) (zlen s) cs s 0 d y' /\ bytes_in k = zlen s.
Proof.
  intros Hxs Hy. pose proof (spec_chunks_concat (cut_of mode params) s) as Hcat.
  assert (forall xs, Forall2 (usable inv) (chunks_of s) xs -> exists y' k, delta_loop use_store at_ broken params s (d !! dst) inv (zip (layout 0 (chunks_of s)) xs) no_counts y = (Done k, y') /\
    filled dst p (hash_of s) (zlen s) cs s 0 d y' /\ bytes_in k = zlen s) as Hrun.
  { intros ys Hys. destruct (loop_ok dst p (hash_of s) (zlen s) use_store at_ broken s (d !! dst) inv cs hash_wf (chunks_of s) ys Hys chunks_fit [] no_counts y d) as (y' & k & E & Hy' & Hk);
      [by rewrite Hcat|by rewrite Hcat|]. exists y', k. split; [exact E|]. split; [done|]. rewrite Hk, Hcat. done. }
  destruct dec; [|by apply Hrun|]; rewrite full_as_delta with (old := d !! dst) (inv := inv); apply Hrun;
    rewrite length_layout; apply Forall2_replicate_r; try done; apply Forall_forall; intros c _; unfold flip, can_use; by destruct (digest c).
Qed.

Lemma commit_renames y : filled dst p (hash_of s) (zlen s) cs s 0 d y ->
  exists r, verify_and_commit y = (Done tt, (r, y.1.2, W (<[dst := s]> (delete p d)))) /\ committed r = true.
Proof.
  destruct y as [[r c] w]. intros (((Ht & Hp & Hh & Hz) & Ho) & _ & _ & Hw). cbn [fst snd] in *. subst w. cbn [replicate]. rewrite app_nil_r.
  unfold verify_and_commit. unfold bind at 1. cbn [get_rec fst snd]. rewrite Ho, Ht, Hp, Hh, Hz. cbn [negb]. unfold bind at 1. cbn [set_rec].
  unfold bind at 1, files at 1, snd_part at 1, map_error at 1, read_file at 1, call at 1. cbn [disk docs events now tail]. rewrite lookup_insert_eq.
  rewrite Z.eqb_refl, bool_decide_eq_true_2 by done. cbn [negb]. unfold bind, files, snd_part, map_error, create_parents, create_dir_all, rename_file, call.
  cbn [disk docs events now tail]. rewrite lookup_insert_eq. unfold set_disk. cbn [disk docs events now tail set_rec]. rewrite delete_insert_eq. by eexists.
Qed.

Lemma transfer_ok dec inv xs r : Forall2 (usable inv) (chunks_of s) xs -> live dst p (hash_of s) (zlen s) r ->
  exists r' cs' k, transfer use_store at_ broken params src dst dec inv (layout 0 (chunks_of s)) xs (r, cs, W (<[p := replicate (length s) 0]> d))
    = (Done k, (r', cs', W (<[dst := s]> (delete p d)))) /\ committed r' = true /\ bytes_in k = zlen s.
Proof.
  intros Hxs Hr. pose proof dst_not_staging as Hne. unfold transfer.
  unfold bind at 1, files, snd_part at 1, map_error at 1, read_file at 1, call at 1. cbn [disk docs events now tail]. rewrite lookup_insert_ne, Hsrc by done.
  unfold bind at 1, snd_part at 1, exists_file at 1. cbn [disk]. rewrite lookup_insert_ne by done.
  set (x0 := (r, cs, W (<[p := replicate (length s) 0]> d))).
  assert ((if bool_decide (is_Some (d !! dst)) then let! o := snd_part (map_error DIo (read_file dst)) in ret (Some o) else ret None) x0 = (Done (d !! dst), x0)) as E0.
  { destruct (d !! dst) as [o|] eqn:Eo; [|done]. rewrite bool_decide_eq_true_2 by eauto.
    unfold x0, bind, snd_part, map_error, read_file, call. cbn [disk docs events now tail]. by rewrite lookup_insert_ne, Eo. }
  erewrite bind_done; [|exact E0]. destruct (loops_ok dec inv xs x0 Hxs) as (y' & k & El & Hy & Hk); [by split_and!|].
  erewrite bind_done; [|exact El]. destruct (commit_renames y' Hy) as (r' & Ec & Hc). erewrite bind_done; [|exact Ec]. by exists r', y'.1.2, k.
Qed.

Lemma new_rec_ok k : exists r, new_rec dst p (hash_of s) (zlen s) k (W d) = (Done r, W (<[p := replicate (length s) 0]> d)) /\ live dst p (hash_of s) (zlen s) r.
Proof.
  unfold new_rec, bind, map_error, create_parents, create_dir_all, create_file, set_len, call, edit, set_disk. cbn [disk docs events now tail].
  rewrite (alter_at _ p []) by apply lookup_insert_eq. rewrite insert_insert_eq, take_nil, app_nil_l. change (zlen []) with 0. rewrite Z.sub_0_r. unfold zlen. rewrite Nat2Z.id.
  eexists. split; [done|]. by split_and!.
Qed.

Lemma staged_ok dec inv xs : Forall2 (usable inv) (chunks_of s) xs ->
  exists cs' rep, staged_sync params use_store at_ broken src dst dec (zlen s) (hash_of s) inv (layout 0 (chunks_of s)) xs (cs, W d) = (Done rep, (cs', W (<[dst := s]> (delete p d)))) /\
    decision rep = dec /\ whole_file_hash rep = hash_of s /\ wire_bytes_transferred rep + local_bytes_reused rep + store_bytes_reused rep + sparse_bytes_skipped rep = zlen s.
Proof.
  intros Hxs. unfold staged_sync. destruct (new_rec_ok (zlen (layout 0 (chunks_of s)))) as (r & -> & Hr).
  destruct (transfer_ok dec inv xs r Hxs Hr) as (r' & cs' & k & Et & Hc & Hk). erewrite finally_done; [|exact Et|unfold drop_rec, bind; cbn [get_rec fst snd]; by rewrite Hc].
  eexists cs', _. split; [done|]. split; [done|]. split; [done|]. exact Hk.
Qed.

(** A file that is read whole, and scanned. *)
Lemma read_ok q b : d !! q = Some b -> read_file q (W d) = (Done b, W d) /\ read_at b 0 (zlen b) (W d) = (Done b, W d).
Proof.
  intros Hq. unfold read_file, read_at, call. cbn [disk docs events now tail]. rewrite Hq. split; [done|]. do 2 f_equal.
  unfold zlen. rewrite drop_0, Nat2Z.id. apply firstn_all.
Qed.

Lemma scan_ok : scan_source mode params src (W d) = (Done (layout 0 (chunks_of s), hash_of s), W d).
Proof.
  destruct (read_ok src s Hsrc) as [E1 E2]. unfold scan_source, bind, map_error. rewrite E1, E2.
  rewrite (chunk_reader_spec _ _ _ _ _ hasher_spec) by (try done; by apply parts_bytes, (Hbytes src)). by rewrite split_join, feed_layout.
Qed.

Lemma old_inventory_ok : exists inv, old_inventory mode params dst (W d) = (Done inv, W d) /\ inventory_of inv.
Proof.
  unfold old_inventory. unfold bind at 1, exists_file. cbn [disk]. destruct (d !! dst) as [o|] eqn:Eo; [|by exists None].
  rewrite bool_decide_eq_true_2 by eauto. destruct (read_ok dst o Eo) as [E1 E2].
  destruct (feed_extents o (chunks_of o) [] [] ∅ 0) as (m & k & E & Hm); [symmetry; apply spec_chunks_concat|done|]. change (zlen []) with 0 in E.
  exists (Some (mkInventory m (zlen o) k (Some (hash_of o)))). split; [|by exists o].
  unfold from_file, bind, map_error. rewrite E1, E2. rewrite (chunk_reader_spec _ _ _ _ _ hasher_spec) by (try done; by apply parts_bytes, (Hbytes dst)).
  rewrite split_join, E. done.
Qed.

(** C3. A synchronisation makes the target the source. Where no call fails, the source is not the staging file
    of the target, no two of the files and chunks that are compared have the same hash, every chunk fits the
    buffer, no chunk of the local store is damaged and its filter knows its chunks: a synchronisation succeeds
    for every old file, whatever chunks the store has and whatever the estimate decides. The target has the
    content of the source, its staging file is gone where one was used, every other file is as it was, and the
    bytes sent, copied, taken from the store and skipped add up to the size. *)
Theorem delta_sync_correct `{Ratio} : exists rep cs' d',
  execute_dedup_sync mode params use_store at_ broken src dst (cs, W d) = (Done rep, (cs', W d')) /\
  d' !! dst = Some s /\ (forall q, q <> dst -> q <> p -> d' !! q = d !! q) /\ (decision rep <> Skip -> d' !! p = None) /\
  whole_file_hash rep = hash_of s /\
  wire_bytes_transferred rep + local_bytes_reused rep + store_bytes_reused rep + sparse_bytes_skipped rep = zlen s.
Proof.
  unfold execute_dedup_sync. destruct (read_ok src s Hsrc) as [E1 _]. erewrite bind_done; [|cbn [snd_part]; unfold map_error; by rewrite E1].
  rewrite (bind_done _ _ _ (zlen s) (cs, W d)) by done. destruct old_inventory_ok as (inv & E2 & Hi). erewrite bind_done; [|cbn [snd_part]; by rewrite E2].
  erewrite bind_done; [|cbn [snd_part]; by rewrite scan_ok].
  cbv beta iota. destruct (unchanged inv (hash_of s) (zlen s)) eqn:Eq.
  - eexists _, cs, d. split; [reflexivity|]. split; [|split; [done|split; [done|split; [done|cbn; lia]]]].
    destruct inv as [i|]; [|done]. destruct Hi as (o & Ho & Hh & _). unfold unchanged in Eq. apply andb_true_iff in Eq as [Eq%bool_decide_eq_true _]. rewrite Ho. f_equal.
    apply no_collision; [by right; left|by left|congruence].
  - destruct (sources_ok inv (chunks_of s) 0 Hi ltac:(done)) as (xs & -> & Hxs).
    destruct (negotiate_ok xs) as (rle & ->); [unfold zlen in *; by rewrite <- (Forall2_length _ _ _ Hxs)|]. cbn zeta.
    destruct (staged_ok (p_decision (evaluate (zlen s) (zlen (layout 0 (chunks_of s))) (Rle.have_count rle) false)) inv xs Hxs) as (cs' & rep & E & _ & Hh & Hsum).
    exists rep, cs', (<[dst := s]> (delete p d)). pose proof dst_not_staging. split; [exact E|]. split; [apply lookup_insert_eq|]. split.
    + intros q H1 H2. by rewrite lookup_insert_ne, lookup_delete_ne.
    + split; [|done]. intros _. by rewrite lookup_insert_ne, lookup_delete_eq.
Qed.
End whole.
End succeeds.
End scans.
End sync.

(** ** The theorems at concrete inputs *)
Module DeltaExamples.
Import ChunkStoreExamples.
#[local] Instance ratio : Ratio := {| ratio_below a b := 100 * a <? 5 * b; part_of n a b := (2 * n * a + b) / (2 * b) |}.
(** A hasher that keeps its updates, and a file that is read at once. *)
Definition update (l : list bytes) (b : bytes) : list bytes := l ++ [b].
Definition finalize (l : list bytes) : Hash := hash (mjoin l).
Definition one_read (b : bytes) : list bytes := match b with [] => [] | _ => [b] end.
Definition show (e : VelcruxError) : bytes := lit "error".
Definition params : ChunkParams.t := ChunkParams.mk 2 4 8.

Definition source_file : bytes := [1; 2; 3; 4; 0; 0; 0; 0; 9; 9; 9; 9; 7].
Definition old_file : bytes := [1; 2; 3; 4; 5; 5; 5; 5].
Definition SRC : bytes := lit "/s/a.bin".
Definition DST : bytes := lit "/d/b.bin".
Definition files_at_start : gmap bytes bytes := <[SRC := source_file]> (<[DST := old_file]> ∅).
Definition put_nine : list op := [OPut (hash [9; 9; 9; 9]) [9; 9; 9; 9] 10 None true].
Definition stored : LocalChunkStore := match run hash bits hashes start put_nine with Ok s => s | _ => start end.
Definition start_world (d : gmap bytes bytes) (es : list event) : fs := mkWorld d ∅ es 0.

Lemma updates l : finalize (foldl update [] l) = hash (mjoin l).
Proof. unfold finalize. f_equal. f_equal. assert (forall k, foldl update k l = k ++ l) as H; [|apply (H [])]. induction l as [|b l IH]; intros k; cbn; [by rewrite app_nil_r|]. rewrite IH. unfold update. by rewrite <- app_assoc. Qed.
Lemma reads_join b : mjoin (one_read b) = b.
Proof. destruct b; [done|]. cbn. by rewrite app_nil_r. Qed.
Lemma reads_parts b : Forall (fun part => part <> []) (one_read b).
Proof. destruct b; repeat constructor. done. Qed.
Lemma files_bytes q b : files_at_start !! q = Some b -> is_bytes b.
Proof.
  unfold files_at_start. rewrite !lookup_insert_Some, lookup_empty. intros [[_ <-]|[_ [[_ <-]|[_ ?]]]]; [| |done]; repeat constructor; lia.
Qed.
Lemma stored_ok : filter_ok stored /\ verified hash ∅ stored.
Proof.
  assert (chunks start = ∅) as Hs by by vm_compute. assert (bloom start = Bloom.with_dimensions 64 3) as Hb by by vm_compute.
  destruct (store_run_ok hash bits hashes hash_is_wf put_nine start ∅) as (s & E & Hf & Hv).
  - split; [rewrite Hb; apply Bloom.with_dimensions_wf|]. intros h f. by rewrite Hs, lookup_empty.
  - intros h f. by rewrite Hs, lookup_empty.
  - assert (stored = s) as -> by (unfold stored; by rewrite E). split; [done|]. intros h f Hh _. apply (Hv h f Hh). change (damaged put_nine) with (∅ : gset Hash). clear. set_solver.
Qed.

(** What is compared by hash. *)
Definition compared : list bytes := [source_file; old_file] ++ spec_chunks (cut_of Fixed params) source_file ++ spec_chunks (cut_of Fixed params) old_file ++ [[9; 9; 9; 9]].
Lemma known_compared b : known Fixed params DST source_file files_at_start stored b -> b ∈ compared.
Proof.
  assert (files_at_start !! DST = Some old_file) as Hd by by vm_compute. unfold compared, known. rewrite Hd.
  intros [->|[[= <-]|[H|[(o & [= <-] & H)|(h & f & Hf & <-)]]]]; rewrite !elem_of_app;
    [left; apply elem_of_cons; by left|left; apply elem_of_cons; right; by apply elem_of_cons; left|by right; left|by right; right; left|].
  right; right; right. assert (chunks stored = {[hash [9; 9; 9; 9] := mkFile [9; 9; 9; 9] 10]}) as Hs by by vm_compute. rewrite Hs in Hf.
  apply lookup_singleton_Some in Hf as [_ <-]. apply elem_of_cons. by left.
Qed.
Lemma compared_apart a b : a ∈ compared -> b ∈ compared -> hash a = hash b -> a = b.
Proof.
  assert (Forall (fun a => Forall (fun b => hash a = hash b -> a = b) compared) compared) as H; [|rewrite Forall_forall in H; intros Ha Hb; specialize (H a Ha); rewrite Forall_forall in H; by apply H].
  apply (bool_decide_unpack _). by vm_compute.
Qed.

Lemma delta_commit_verified_witness :
  sync_safe hash SRC DST (start_world files_at_start [Go; Go; Go; Go; Go; Go; Go; Go; Go; Go; Go; Go; Crash 2])
    (execute_dedup_sync hash show [] update finalize one_read Fixed params true 5 (fun _ => None) SRC DST
      (stored, start_world files_at_start [Go; Go; Go; Go; Go; Go; Go; Go; Go; Go; Go; Go; Crash 2])).
Proof.
  apply (delta_commit_verified hash show [] update finalize one_read updates reads_join reads_parts Fixed params ltac:(by vm_compute) ltac:(by vm_compute)).
  - by vm_compute.
  - exact files_bytes.
Defined.

Lemma delta_sync_correct_witness : exists rep cs' d',
  execute_dedup_sync hash show [] update finalize one_read Fixed params true 5 (fun _ => None) SRC DST (stored, start_world files_at_start []) = (Done rep, (cs', start_world d' [])) /\
  d' !! DST = Some source_file.
Proof.
  destruct (delta_sync_correct hash show [] update finalize one_read updates reads_join reads_parts Fixed params ltac:(by vm_compute) ltac:(by vm_compute) ∅ 0
    SRC DST source_file files_at_start stored true 5 (fun _ => None) hash_is_wf) with (H := ratio) as (rep & cs' & d' & E & H & _).
  - intros a b Ha Hb. apply compared_apart; by apply known_compared.
  - apply stored_ok.
  - apply stored_ok.
  - by vm_compute.
  - by vm_compute.
  - by vm_compute.
  - exact files_bytes.
  - unfold ChunkParams.valid. cbn. lia.
  - by left.
  - by vm_compute.
  - exists rep, cs', d'. exact (conj E H).
Defined.

(** A plan to reuse chunks takes one from each place. *)
Example from_everywhere :
  match old_inventory hash show [] update finalize one_read Fixed params DST (start_world files_at_start []),
        scan_source hash show [] update finalize one_read Fixed params SRC (start_world files_at_start []) with
  | (Done inv, _), (Done (l, h), _) =>
      match staged_sync hash show params true 5 (fun _ => None) SRC DST Delta (zlen source_file) h inv l [LocalFile; Hole; InStore; Wire] (stored, start_world files_at_start []) with
      | (Done r, (_, w)) => (local_bytes_reused r, sparse_bytes_skipped r, store_bytes_reused r, wire_bytes_transferred r) = (4, 4, 4, 1) /\ disk w !! DST = Some source_file
      | _ => False
      end
  | _, _ => False
  end.
Proof. vm_compute. split; reflexivity. Qed.

(** FastCDC with one size cuts chunks a byte longer than the buffer they are read into. *)
Example single_size_panics :
  (execute_dedup_sync hash show [] update finalize one_read FastCdc (ChunkParams.fixed 4) false 5 (fun _ => None) SRC (lit "/d/new")
    (stored, start_world files_at_start [])).1 = Failed Panicked.
Proof. by vm_compute. Qed.

(** Two targets with one staging file. *)
Example staging_shared : staging_for (lit "/d/b") = staging_for (lit "/d/b.dat") /\ staging_for (lit "/d/b") = lit "/d/b.dat.velcrux-partial".
Proof. by vm_compute. Qed.

(** The staging file that cannot be sized stays. *)
Example staging_left : match execute_dedup_sync hash show [] update finalize one_read Fixed params false 5 (fun _ => None) SRC (lit "/d/new")
    (stored, start_world files_at_start [Go; Go; Go; Go; Go; Go; Fault 0 (lit "No space left on device")]) with
  | (Failed _, (_, w)) => disk w !! staging_for (lit "/d/new") = Some []
  | _ => False
  end.
Proof. by vm_compute. Qed.
End DeltaExamples.
