(* ===== verification/Batch.v ===== *)
(** * Batches of small files, sync/batch.rs

    The planner that groups small files, and the container [VBATCH/1] with its writer and reader. Files
    are those of [FileSys], with the permissions and the modification time of a file as its document (the
    times that writes set are left out). A
    loop that copies a file in pieces is one read and one write, which can fail or stop anywhere. The
    stream that is written or read is a list of bytes beside the files, and its calls can fail too. The
    JSON of the index is the class [IndexJson]; whether a path of the source is a regular file is an
    argument of the planner. *)

From S2P Require Import Prelude Utf8 Protocol Wire Paths Xattr DirectoryDiff FileSys DeltaSync.
Import Str.

Definition VBATCH_MAGIC : bytes := lit "VBATCH" ++ [1].
Definition DEFAULT_SMALL_FILE_THRESHOLD : Z := 131072.
Definition DEFAULT_BATCH_MAX_BYTES : Z := 33554432.
Definition DEFAULT_BATCH_MAX_FILES : Z := 1000.
Definition MAX_BATCH_INDEX_BYTES : Z := 16 * 1024 * 1024.

Record SmallFileBatchConfig := mkConfig { enabled : bool; threshold_bytes : Z; max_batch_bytes : Z; max_batch_files : Z }.
Definition config_default : SmallFileBatchConfig :=
  mkConfig true DEFAULT_SMALL_FILE_THRESHOLD DEFAULT_BATCH_MAX_BYTES DEFAULT_BATCH_MAX_FILES.

Record BatchEntryMeta := mkEntry {
  e_path : bytes; e_size : Z; e_mode : Z; e_mtime_ns : Z; e_hash : bytes; e_xattrs : list (bytes * bytes) }.

Record SmallFileBatch := mkBatch { batch_id : Z; actions : list FileAction; batch_bytes : Z }.
Record BatchedSyncPlan := mkBatched {
  batches : list SmallFileBatch; individual_actions : list FileAction; small_files_count : Z; batch_containers_count : Z;
  roundtrips_saved : Z }.

(** ** The planner *)

Record planner := mkPlanner {
  done_batches : list SmallFileBatch; individual : list FileAction; current : list FileAction; current_bytes : Z; small : Z }.

(** A finished batch. *)
Definition close_batch (s : planner) : planner :=
  mkPlanner (done_batches s ++ [mkBatch (zlen (done_batches s)) (current s) (current_bytes s)]) (individual s) [] 0 (small s).

Definition is_transfer (a : FileAction) : bool := bool_decide (action a = FAdd) || bool_decide (action a = FModify).

Definition plan_action (is_file : bytes -> bool) (c : SmallFileBatchConfig) (s : planner) (a : FileAction) : planner :=
  let alone := mkPlanner (done_batches s) (individual s ++ [a]) (current s) (current_bytes s) (small s) in
  if negb (is_transfer a) then alone
  else if negb (is_file (rel_path a)) then alone
  else if src_size a <=? threshold_bytes c then
    let would_exceed_bytes := (max_batch_bytes c <? wrap 64 (current_bytes s + src_size a)) && negb (bool_decide (current s = [])) in
    let would_exceed_files := max_batch_files c <=? zlen (current s) in
    let s := if would_exceed_bytes || would_exceed_files then close_batch s else s in
    mkPlanner (done_batches s) (individual s) (current s ++ [a]) (wrap 64 (current_bytes s + src_size a)) (small s + 1)
  else alone.

Definition plan (is_file : bytes -> bool) (l : list FileAction) (c : SmallFileBatchConfig) : BatchedSyncPlan :=
  if negb (enabled c) || bool_decide (l = []) then mkBatched [] l 0 0 0
  else
    let s := foldl (plan_action is_file c) (mkPlanner [] [] [] 0 0) l in
    let s := if bool_decide (current s = []) then s else close_batch s in
    mkBatched (done_batches s) (individual s) (small s) (zlen (done_batches s)) (saturating_sub (small s) (zlen (done_batches s))).

(** ** Files with their metadata *)

Record file_meta := mkMeta { mode : Z; mtime_ns : Z }.
Definition new_file : file_meta := mkMeta 33188 0.
Abbreviation bfs := (world file_meta).

(** The length and the metadata. *)
Definition stat (p : bytes) : M bfs bytes (Z * file_meta) :=
  call (fun w => match disk w !! p with Some b => (Done (zlen b, default new_file (docs w !! p)), w) | None => (Failed ENOENT, w) end) nothing.
Definition set_permissions (p : bytes) (m : Z) : M bfs bytes unit :=
  call (fun w => (Done tt, set_docs (fun d => <[p := mkMeta m (mtime_ns (default new_file (d !! p)))]> d) w)) nothing.
Definition set_modified (p : bytes) (t : Z) : M bfs bytes unit :=
  call (fun w => (Done tt, set_docs (fun d => <[p := mkMeta (mode (default new_file (d !! p))) t]> d) w)) nothing.

(** [{:?}] of bytes. *)
Definition debug (l : bytes) : bytes := lit "[" ++ match Utf8.decimal <$> l with [] => [] | x :: xs => x ++ mjoin (app (lit ", ") <$> xs) end ++ lit "]".

Definition xattr_sidecar_path (p : bytes) : bytes := p ++ lit ".velcrux-xattr".

(** The stream, before the files. *)
Abbreviation bst := (bytes * world file_meta)%type.
Definition on_files {A} (c : M bfs bytes A) : M bst DeltaError A := snd_part (map_error DIo c).
Definition write_all (b : bytes) : M bst DeltaError unit := fun '(o, w) =>
  match call (fun w => (Done tt, w)) nothing w with
  | (Done _, w) => (Done tt, (o ++ b, w))
  | (Failed e, w) => (Failed (DIo e), (o, w))
  | (Crashed, w) => (Crashed, (o, w))
  end.
Definition EOF : bytes := lit "failed to fill whole buffer".
(** What there is of [n] bytes. *)
Definition read_some (n : Z) : M bst DeltaError bytes := fun '(i, w) =>
  match call (fun w => (Done tt, w)) nothing w with
  | (Done _, w) => (Done (take (Z.to_nat n) i), (drop (Z.to_nat n) i, w))
  | (Failed e, w) => (Failed (DIo e), (i, w))
  | (Crashed, w) => (Crashed, (i, w))
  end.
Definition read_exact (n : Z) : M bst DeltaError bytes :=
  let! b := read_some n in if zlen b <? n then throw (DIo EOF) else ret b.

(** [serde_json] on the index. *)
Class IndexJson := { to_vec : list BatchEntryMeta -> bytes; from_slice : bytes -> bytes + list BatchEntryMeta }.

(** What was written is read back, and a size is a [u64]. *)
Class IndexJsonLaws `{IndexJson} : Prop := {
  json_roundtrip : forall l, Forall (fun e => fits 64 (e_size e)) l -> from_slice (to_vec l) = inr l;
  json_sizes : forall b l, from_slice b = inr l -> Forall (fun e => fits 64 (e_size e)) l }.

(** [for x in l], collecting. *)
Fixpoint collect_all {S E A B} (f : A -> M S E B) (l : list A) : M S E (list B) :=
  match l with
  | [] => ret []
  | x :: l => let! y := f x in let! r := collect_all f l in ret (y :: r)
  end.

Section container.
Context (hash_of : bytes -> Hash) `{IndexJson}.

(** ** The writer *)

(** An unreadable or malformed sidecar file counts as none. *)
Definition read_xattrs (p : bytes) : M bfs DeltaError (list (bytes * bytes)) :=
  let! there := exists_file (xattr_sidecar_path p) in
  if there : bool then
    let! b := ok (read_file (xattr_sidecar_path p)) in
    match b with
    | Some b => match Sidecar.decode_xattrs_canonical b with Ok x => ret x | Err _ => ret [] | Panic => throw Panicked end
    | None => ret []
    end
  else ret [].

Definition collect_entry (root : bytes) (a : FileAction) : M bfs DeltaError BatchEntryMeta :=
  let path := join_to root (rel_path a) in
  let! '(size, m) := map_error DIo (stat path) in
  let! xattrs := read_xattrs path in
  let! h := (if size =? 0 then ret (hash_of []) else let! b := map_error DIo (read_file path) in ret (hash_of b)) in
  ret (mkEntry (rel_path a) size (mode m) (mtime_ns m) (Hash_to_hex h) xattrs).

Definition write_entry (root : bytes) (e : BatchEntryMeta) : M bst DeltaError bytes :=
  let! content := on_files (read_file (join_to root (e_path e))) in
  let payload := take (Z.to_nat (e_size e)) content in
  let! _ := write_all payload in
  if zlen payload <? e_size e then throw (DIo EOF)
  else if bool_decide (Hash_to_hex (hash_of payload) = e_hash e) then ret payload
  else throw (HashMismatch (e_hash e) (Hash_to_hex (hash_of payload))).

Definition payload_bytes (l : list BatchEntryMeta) : Z := foldl (fun a e => wrap 64 (a + e_size e)) 0 l.

Definition pack (root : bytes) (l : list FileAction) : M bst DeltaError Z :=
  let! entries := snd_part (collect_all (collect_entry root) l) in
  let index := to_vec entries in
  if MAX_BATCH_INDEX_BYTES <? zlen index then
    throw (Reconstruction (lit "batch index size " ++ Utf8.decimal (zlen index) ++ lit " exceeds limit " ++ Utf8.decimal MAX_BATCH_INDEX_BYTES))
  else
    let! _ := write_all VBATCH_MAGIC in
    let! _ := write_all [0] in
    let! _ := write_all (to_be 4 (wrap 32 (zlen entries))) in
    let! _ := write_all (to_be 4 (wrap 32 (zlen index))) in
    let! _ := write_all (to_be 8 (payload_bytes entries)) in
    let! _ := write_all index in
    let! payloads := collect_all (write_entry root) entries in
    let! _ := write_all (hash_of (mjoin payloads)) in
    ret (wrap 64 (7 + 1 + 4 + 4 + 8 + zlen index + payload_bytes entries + 32)).

(** ** The reader *)

Record UnpackedBatchReport := mkUnpacked { files_extracted : Z; unpacked_bytes : Z; unpacked_paths : list bytes }.

(** Permissions, attributes and time, all best effort. *)
Definition restore_meta (target : bytes) (e : BatchEntryMeta) : M bfs DeltaError unit :=
  let! _ := ignore (set_permissions target (e_mode e)) in
  let! _ := (if bool_decide (e_xattrs e = []) then ret tt
             else match Sidecar.encode_xattrs_canonical (e_xattrs e) with
                  | Ok b => ignore (write_file (xattr_sidecar_path target) b)
                  | Err _ | Panic => throw Panicked
                  end) in
  if 0 <? e_mtime_ns e then
    let! opened := ok (read_file target) in
    match opened with Some _ => ignore (set_modified target (e_mtime_ns e)) | None => ret tt end
  else ret tt.

Definition unpack_entry (root : bytes) (e : BatchEntryMeta) : M bst DeltaError bytes :=
  match VPath.validate (e_path e) with
  | Err x => throw (Reconstruction (lit "batch entry path rejected: " ++ lit (VPath.fmt x)))
  | Panic => throw Panicked
  | Ok v =>
      let target := join_to root v in
      let! _ := on_files (create_parents target) in
      let! b := read_some (e_size e) in
      let! _ := on_files (write_file target b) in
      if zlen b <? e_size e then throw (DIo EOF)
      else if negb (bool_decide (Hash_to_hex (hash_of b) = e_hash e)) then
        let! _ := snd_part (ignore (remove_file target)) in
        throw (HashMismatch (e_hash e) (Hash_to_hex (hash_of b)))
      else
        let! _ := snd_part (restore_meta target e) in
        ret b
  end.

Definition unpack (root : bytes) : M bst DeltaError UnpackedBatchReport :=
  let! magic := read_exact 7 in
  if negb (bool_decide (magic = VBATCH_MAGIC)) then throw (Reconstruction (lit "invalid batch magic: expected " ++ debug VBATCH_MAGIC ++ lit ", got " ++ debug magic))
  else
    let! flags := read_exact 1 in
    let! header := read_exact 16 in
    let entry_count := from_be (take 4 header) in
    let index_len := from_be (take 4 (drop 4 header)) in
    let total := from_be (take 8 (drop 8 header)) in
    if MAX_BATCH_INDEX_BYTES <? index_len then
      throw (Reconstruction (lit "batch container index length " ++ Utf8.decimal index_len ++ lit " exceeds maximum allowed " ++ Utf8.decimal MAX_BATCH_INDEX_BYTES))
    else
      let! index := read_exact index_len in
      match from_slice index with
      | inl why => throw (Reconstruction (lit "corrupt batch index JSON: " ++ why))
      | inr entries =>
          if negb (zlen entries =? entry_count) then
            throw (Reconstruction (lit "batch entry count mismatch: header declared " ++ Utf8.decimal entry_count ++ lit ", index contained " ++ Utf8.decimal (zlen entries)))
          else
            let! payloads := collect_all (unpack_entry root) entries in
            let! trailer := read_exact 32 in
            if negb (bool_decide (hash_of (mjoin payloads) = trailer)) then
              throw (Reconstruction (lit "batch container payload trailer checksum mismatch (data tampered or corrupted)"))
            else ret (mkUnpacked (zlen entries) total (e_path <$> entries))
      end.
End container.

(** ** The plan *)

Section planning.
Context (is_file : bytes -> bool) (c : SmallFileBatchConfig).

Definition batched (a : FileAction) : bool := is_transfer a && is_file (rel_path a) && (src_size a <=? threshold_bytes c).
Fixpoint size_of (l : list FileAction) : Z := match l with [] => 0 | a :: l => src_size a + size_of l end.
Definition batch_ok (b : SmallFileBatch) : Prop :=
  actions b <> [] /\ zlen (actions b) <= max_batch_files c /\ batch_bytes b = size_of (actions b) /\
  (batch_bytes b <= max_batch_bytes c \/ zlen (actions b) = 1).

(** What the planner has made of the actions [l]. *)
Record planned (l : list FileAction) (s : planner) : Prop := {
  planned_small : mjoin (actions <$> done_batches s) ++ current s = List.filter batched l;
  planned_alone : individual s = List.filter (fun a => negb (batched a)) l;
  planned_count : small s = zlen (List.filter batched l);
  planned_batches : Forall batch_ok (done_batches s);
  planned_ids : batch_id <$> done_batches s = seqZ 0 (zlen (done_batches s));
  planned_bytes : current_bytes s = size_of (current s);
  planned_files : zlen (current s) <= max_batch_files c;
  planned_limit : current_bytes s <= max_batch_bytes c \/ zlen (current s) <= 1 }.

Lemma size_app l k : size_of (l ++ k) = size_of l + size_of k.
Proof. induction l; cbn; lia. Qed.
Lemma size_nonneg l : Forall (fun a => 0 <= src_size a) l -> 0 <= size_of l.
Proof. induction 1; cbn; lia. Qed.

Lemma closed_planned l s : planned l s -> current s <> [] -> planned l (close_batch s).
Proof.
  intros [H1 H2 H3 H4 H5 H6 H7 H8] Hne. assert (zlen (current s) <> 0) by (destruct (current s); [done|]; rewrite zlen_cons; pose proof (zlen_nonneg l0); lia).
  pose proof (zlen_nonneg (current s)). split; cbn [close_batch done_batches current current_bytes individual small]; try done.
  - rewrite fmap_app, join_app, app_nil_r. cbn. by rewrite app_nil_r.
  - apply Forall_app. split; [done|]. constructor; [|done]. unfold batch_ok. cbn. split; [done|]. split; [done|]. split; [done|lia].
  - rewrite fmap_app, H5, zlen_app. cbn. change (zlen [_]) with 1. pose proof (zlen_nonneg (done_batches s)). rewrite seqZ_app by lia. by rewrite Z.add_0_l.
  - pose proof (zlen_nonneg (current s)). rewrite zlen_nil. lia.
  - right. by rewrite zlen_nil.
Qed.

Lemma filter_small l : zlen (List.filter batched l) <= zlen l.
Proof. induction l as [|a l IH]; [done|]. cbn. destruct (batched a); rewrite ?zlen_cons; lia. Qed.

Lemma plan_step l s a : 1 <= max_batch_files c -> Forall (fun a => 0 <= src_size a) (l ++ [a]) -> size_of (List.filter batched (l ++ [a])) < 2 ^ 64 ->
  planned l s -> planned (l ++ [a]) (plan_action is_file c s a).
Proof.
  intros Hc Hl Hs Hp. assert (batched a = false -> planned (l ++ [a]) (mkPlanner (done_batches s) (individual s ++ [a]) (current s) (current_bytes s) (small s))) as Halone.
  { intros Ha. destruct Hp. split; cbn; try done; rewrite ?List.filter_app; cbn; rewrite Ha; cbn; rewrite ?app_nil_r; try done. by rewrite planned_alone0. }
  unfold plan_action. unfold batched in Halone |- *. destruct (is_transfer a) eqn:E1; [|by apply Halone]. destruct (is_file (rel_path a)) eqn:E2; [|by apply Halone].
  destruct (src_size a <=? threshold_bytes c) eqn:E3; [|by apply Halone]. cbn [negb]. clear Halone.
  assert (batched a = true) as Ha by (unfold batched; by rewrite E1, E2, E3). rewrite List.filter_app, size_app in Hs. cbn in Hs. rewrite Ha in Hs. cbn in Hs.
  apply Forall_app in Hl as [Hl Ha0]. apply Forall_cons in Ha0 as [Ha0 _].
  assert (Forall (fun a => 0 <= src_size a) (mjoin (actions <$> done_batches s) ++ current s)) as Hnn.
  { rewrite (planned_small _ _ Hp). rewrite Forall_forall in Hl |- *. intros x Hx. apply Hl. apply list_elem_of_In in Hx. apply List.filter_In in Hx as [Hx _]. by apply list_elem_of_In. }
  rewrite <- (planned_small _ _ Hp), size_app in Hs. apply Forall_app in Hnn as [Hd Hcur]. pose proof (size_nonneg _ Hd). pose proof (size_nonneg _ Hcur).
  rewrite (wrap_small 64 (current_bytes s + src_size a)) by (rewrite (planned_bytes _ _ Hp); unfold fits; lia).
  set (s' := if _ || _ then _ else _).
  assert (planned l s' /\ zlen (current s') < max_batch_files c /\ (current_bytes s' + src_size a <= max_batch_bytes c \/ current s' = []) /\ 0 <= current_bytes s' <= current_bytes s) as (Hp' & Hf & Hb & Hle).
  { unfold s'. pose proof (planned_bytes _ _ Hp). pose proof (planned_files _ _ Hp). case_bool_decide as Ec; cbn [negb andb].
    - rewrite andb_false_r, Ec. change (zlen []) with 0. destruct (Z.leb_spec (max_batch_files c) 0); [lia|]. cbn. rewrite Ec. split; [done|]. split; [rewrite zlen_nil; lia|]. split; [by right|lia].
    - rewrite andb_true_r. destruct (Z.ltb_spec (max_batch_bytes c) (current_bytes s + src_size a)); [|destruct (Z.leb_spec (max_batch_files c) (zlen (current s)))]; cbn [orb].
      + split; [by apply closed_planned|]. cbn. split; [rewrite zlen_nil; lia|]. split; [by right|lia].
      + split; [by apply closed_planned|]. cbn. split; [rewrite zlen_nil; lia|]. split; [by right|lia].
      + split; [done|]. split; [done|]. split; [by left|lia]. }
  rewrite (wrap_small 64 (current_bytes s' + src_size a)) by (rewrite (planned_bytes _ _ Hp) in Hle; unfold fits; lia).
  destruct Hp'. split; cbn [done_batches current current_bytes individual small]; rewrite ?List.filter_app; cbn; rewrite ?Ha; cbn; rewrite ?app_nil_r; try done.
  - by rewrite app_assoc, planned_small0.
  - rewrite zlen_app. change (zlen [a]) with 1. lia.
  - rewrite size_app, planned_bytes0. cbn. lia.
  - rewrite zlen_app. change (zlen [a]) with 1. lia.
  - rewrite zlen_app. change (zlen [a]) with 1. destruct Hb as [Hb| ->]; [by left|right]. rewrite zlen_nil. lia.
Qed.

(** The plan of the batches. Batches and single transfers are the actions, each once and in order: the
    small regular files that are added or modified go to the batches, the others alone. A batch is not
    empty, holds at most the configured number of files and bytes (or a single file), and counts them
    rightly; batches are numbered in order. *)
Theorem batch_plan_correct l : enabled c = true -> 1 <= max_batch_files c -> Forall (fun a => 0 <= src_size a) l -> size_of (List.filter batched l) < 2 ^ 64 ->
  let p := plan is_file l c in
  mjoin (actions <$> batches p) = List.filter batched l /\ individual_actions p = List.filter (fun a => negb (batched a)) l /\
  small_files_count p = zlen (List.filter batched l) /\ Forall batch_ok (batches p) /\
  batch_id <$> batches p = seqZ 0 (batch_containers_count p) /\ batch_containers_count p = zlen (batches p).
Proof.
  intros He Hc Hl Hs. unfold plan. rewrite He. cbn [negb orb]. case_bool_decide as E; [subst; by split_and!|].
  assert (forall k, (exists rest, l = k ++ rest) -> planned k (foldl (plan_action is_file c) (mkPlanner [] [] [] 0 0) k)) as Hall.
  { induction k as [|a k IH] using rev_ind; intros [rest ->]; [split; cbn; try done; [change (zlen _) with 0; lia|by right]|]. rewrite foldl_app. cbn.
    apply plan_step; [done| | |apply IH; eexists; by rewrite <- app_assoc].
    - by apply Forall_app in Hl as [? _].
    - rewrite List.filter_app, size_app in Hs. assert (0 <= size_of (List.filter batched rest)); [|lia]. apply size_nonneg. apply Forall_app in Hl as [_ Hl].
      rewrite Forall_forall in Hl |- *. intros x Hx. apply Hl. apply list_elem_of_In in Hx. apply List.filter_In in Hx as [Hx _]. by apply list_elem_of_In. }
  specialize (Hall l (ex_intro _ [] (eq_sym (app_nil_r l)))). set (s := foldl _ _ _) in *.
  set (s' := if bool_decide (current s = []) then s else close_batch s).
  assert (planned l s' /\ current s' = []) as [[H1 H2 H3 H4 H5 _ _ _] Hcur] by (unfold s'; case_bool_decide; [done|split; [by apply closed_planned|done]]).
  cbn [batches individual_actions small_files_count batch_containers_count]. rewrite Hcur, app_nil_r in H1. by split_and!.
Qed.
End planning.

(** ** What extraction changes *)

Section alters.
Implicit Types P : bytes -> Prop.

(** [c] changes files and their metadata only at paths with [P]. *)
Definition alters {E A} P (c : M bfs E A) : Prop := forall w p, ~ P p -> disk (c w).2 !! p = disk w !! p /\ docs (c w).2 !! p = docs w !! p.

Lemma alters_only {E A} P (c : M bfs E A) : only P c -> alters P c.
Proof. intros Hc w p Hp. destruct (Hc w) as [-> Hd]. split; [by apply Hd|done]. Qed.
Lemma alters_bind {E A B} P (c : M bfs E A) (k : A -> M bfs E B) : alters P c -> (forall a, alters P (k a)) -> alters P (bind c k).
Proof.
  intros Hc Hk w p Hp. specialize (Hc w p Hp). unfold bind. destruct (c w) as [[a|e|] w']; cbn in *; [|done|done].
  destruct (Hk a w' p Hp) as [-> ->]. done.
Qed.
Lemma alters_ignore {E F A} P (c : M bfs E A) : alters P c -> alters P (@ignore _ E F A c).
Proof. intros Hc w p Hp. specialize (Hc w p Hp). unfold ignore. by destruct (c w) as [[]]. Qed.
Lemma alters_meta P (p : bytes) (f : gmap bytes file_meta -> file_meta) : P p -> alters P (call (fun w => (Done tt, set_docs (fun d => <[p := f d]> d) w)) nothing).
Proof. intros Hp w q Hq. unfold call. destruct (events w) as [|[]]; cbn; try done; (rewrite lookup_insert_ne; [done|by intros ->]). Qed.
Lemma alters_perm P p m : P p -> alters P (set_permissions p m).
Proof. apply (alters_meta P p (fun d => mkMeta m (mtime_ns (default new_file (d !! p))))). Qed.
Lemma alters_time P p t : P p -> alters P (set_modified p t).
Proof. apply (alters_meta P p (fun d => mkMeta (mode (default new_file (d !! p))) t)). Qed.

(** The same with the stream. *)
Definition extracts {E A} P (c : M bst E A) : Prop := forall i w p, ~ P p ->
  disk (c (i, w)).2.2 !! p = disk w !! p /\ docs (c (i, w)).2.2 !! p = docs w !! p.
Lemma extracts_ret {E A} P (a : A) : extracts P (@ret _ E A a).
Proof. done. Qed.
Lemma extracts_throw {E A} P (e : E) : extracts P (@throw _ E A e).
Proof. done. Qed.
Lemma extracts_bind {E A B} P (c : M bst E A) (k : A -> M bst E B) : extracts P c -> (forall a, extracts P (k a)) -> extracts P (bind c k).
Proof.
  intros Hc Hk i w p Hp. specialize (Hc i w p Hp). unfold bind. destruct (c (i, w)) as [[a|e|] [i' w']]; cbn in *; [|done|done].
  destruct (Hk a i' w' p Hp) as [-> ->]. done.
Qed.
Lemma extracts_files {E A} P (c : M bfs E A) : alters P c -> extracts P (snd_part c).
Proof. intros Hc i w p Hp. specialize (Hc w p Hp). cbn. by destruct (c w). Qed.
Lemma extracts_io {A} P (c : M bfs bytes A) : only P c -> extracts P (on_files c).
Proof. intros Hc. by apply extracts_files, alters_only, only_map_error. Qed.
Lemma extracts_read P n : extracts P (read_some n).
Proof. intros i w p Hp. unfold read_some, call. by destruct (events w) as [|[]]. Qed.
Lemma extracts_exact P n : extracts P (read_exact n).
Proof. apply extracts_bind; [apply extracts_read|]. intros b. case_match; [apply extracts_throw|apply extracts_ret]. Qed.
Lemma extracts_all {A B} P (f : A -> M bst DeltaError B) l : (forall x, x ∈ l -> extracts P (f x)) -> extracts P (collect_all f l).
Proof.
  induction l as [|x l IH]; intros Hf; [apply extracts_ret|]. cbn. apply extracts_bind; [apply Hf; left|]. intros y.
  apply extracts_bind; [apply IH; intros z Hz; apply Hf; by right|]. intros r. apply extracts_ret.
Qed.
End alters.
#[local] Hint Resolve alters_only alters_bind alters_ignore alters_perm alters_time extracts_ret extracts_throw extracts_bind extracts_io extracts_read extracts_exact : fs.

Section extraction.
Context (hash_of : bytes -> Hash) `{IndexJson} (root : bytes).

(** The file of an entry and its sidecar file. *)
Definition target (e : BatchEntryMeta) : bytes := join_to root (e_path e).
Definition touches (e : BatchEntryMeta) (p : bytes) : Prop :=
  VPath.valid_path (e_path e) /\ (p = target e \/ p = xattr_sidecar_path (target e)).

Lemma alters_restore P t e : P t -> P (xattr_sidecar_path t) -> alters P (restore_meta t e).
Proof.
  intros H1 H2. unfold restore_meta. apply alters_bind; [eauto with fs|]. intros _. apply alters_bind.
  - case_bool_decide; [eauto with fs|]. case_match; eauto with fs.
  - intros _. case_match; [|eauto with fs]. apply alters_bind; [eauto with fs|]. intros o. case_match; eauto with fs.
Qed.

Lemma extracts_entry e : extracts (touches e) (unpack_entry hash_of root e).
Proof.
  unfold unpack_entry. destruct (VPath.validate (e_path e)) as [v| |] eqn:Ev; [|eauto with fs..]. apply VPath.validate_ok_iff in Ev as [-> Hv].
  assert (touches e (join_to root (e_path e))) as H1 by (split; [done|by left]). assert (touches e (xattr_sidecar_path (join_to root (e_path e)))) as H2 by (split; [done|by right]).
  apply extracts_bind; [eauto with fs|]. intros _. apply extracts_bind; [eauto with fs|]. intros b. apply extracts_bind; [eauto with fs|]. intros _.
  case_match; [eauto with fs|]. case_match; (apply extracts_bind; [apply extracts_files|eauto with fs]); [eauto with fs|by apply alters_restore].
Qed.

(** An entry that is extracted is in its file, verified. *)
Definition extracted (w : bfs) (e : BatchEntryMeta) : Prop :=
  exists b, disk w !! target e = Some b /\ Hash_to_hex (hash_of b) = e_hash e /\ zlen b = e_size e.

Lemma write_disk p b (w w' : bfs) : write_file p b w = (Done tt, w') -> disk w' !! p = Some b.
Proof. unfold write_file, call. destruct (events w) as [|[]]; cbn; intros [= <-]; apply lookup_insert_eq. Qed.
Lemma sidecar_other p : p <> xattr_sidecar_path p.
Proof. intros E. apply (f_equal length) in E. unfold xattr_sidecar_path in E. rewrite length_app in E. cbn in E. lia. Qed.

(** Restoring metadata leaves the contents of the file. *)
Lemma restore_content t e w : disk (restore_meta t e w).2 !! t = disk w !! t.
Proof.
  unfold restore_meta.
  assert (forall E (f : gmap bytes file_meta -> gmap bytes file_meta) w, disk (ignore (F:=E) (call (fun w => (Done tt, set_docs f w)) nothing) w).2 = disk w) as Hm
    by (intros E f w1; unfold ignore, call; by destruct (events w1) as [|[]]).
  unfold bind at 1. pose proof (Hm DeltaError (fun d => <[t := mkMeta (e_mode e) (mtime_ns (default new_file (d !! t)))]> d) w) as H1. unfold set_permissions. destruct (ignore _ w) as [[[]| |] w1]; cbn [snd] in H1 |- *; [|by rewrite H1..].
  unfold bind at 1.
  match goal with |- context [(if bool_decide _ then _ else _) w1] => set (c := (if bool_decide _ then _ else _) : M bfs DeltaError unit) end.
  assert (alters (fun p => p = xattr_sidecar_path t) c) as Hc by (unfold c; case_bool_decide; [eauto with fs|]; case_match; eauto with fs).
  specialize (Hc w1 t (sidecar_other t)) as [Hc _]. rewrite H1 in Hc. destruct (c w1) as [[[]| |] w2]; cbn [snd] in Hc |- *; [|done..].
  case_match; [|done]. unfold bind. assert (alters (fun _ => False) (ok (F:=DeltaError) (read_file (J:=file_meta) t))) as Hr by eauto with fs. specialize (Hr w2 t ltac:(tauto)) as [Hr _].
  destruct (ok _ w2) as [[[b|]|e'|] w3]; cbn [snd] in Hr |- *; [unfold set_modified; rewrite Hm|..]; cbn [ret snd]; by rewrite Hr.
Qed.

Lemma entry_done e i w b i' w' : 0 <= e_size e -> unpack_entry hash_of root e (i, w) = (Done b, (i', w')) ->
  VPath.valid_path (e_path e) /\ extracted w' e /\ Hash_to_hex (hash_of b) = e_hash e /\ b = take (Z.to_nat (e_size e)) i /\ i' = drop (Z.to_nat (e_size e)) i.
Proof.
  intros Hz. unfold unpack_entry. destruct (VPath.validate (e_path e)) as [v| |] eqn:Ev; [|done..]. apply VPath.validate_ok_iff in Ev as [-> Hv].
  unfold bind at 1, on_files at 1, snd_part at 1. destruct (map_error DIo (create_parents _) w) as [[[]| |] w1]; [|done..].
  unfold bind at 1, read_some at 1. destruct (call _ _ w1) as [[[]| |] w2]; [|done..]. set (x := take _ i).
  unfold bind at 1, on_files at 1, snd_part at 1, map_error at 1. destruct (write_file _ x w2) as [[[]| |] w3] eqn:Ew; [|done..]. apply write_disk in Ew.
  destruct (Z.ltb_spec (zlen x) (e_size e)) as [|Hlen]; [done|]. case_bool_decide as Hh; cbn [negb].
  - unfold bind, snd_part, ret. pose proof (restore_content (join_to root (e_path e)) e w3) as Hr. destruct (restore_meta _ e w3) as [[[]| |] w4]; [|done..]. cbn in Hr.
    intros [= <- <- <-]. split; [done|]. split; [|done]. exists x. unfold target. rewrite Hr. split; [done|]. split; [done|].
    unfold x in *. rewrite zlen_take in *. lia.
  - unfold bind, snd_part. by destruct (ignore _ w3) as [[[]| |] w4].
Qed.

(** No file of an entry is that of another or its sidecar file. *)
Definition apart (l : list BatchEntryMeta) : Prop := NoDup (e_path <$> l) /\
  forall e e', e ∈ l -> e' ∈ l -> e_path e <> e_path e' ++ lit ".velcrux-xattr".

Lemma valid_relative v : VPath.valid_path v -> starts_with [SLASH] v = false.
Proof.
  intros Hv. destruct (starts_with [SLASH] v) eqn:E; [|done]. pose proof (proj2 (VPath.validate_ok_iff v v) (conj eq_refl Hv)) as Ho.
  unfold VPath.validate in Ho. rewrite E in Ho. repeat case_match; done.
Qed.

Lemma target_untouched e e' : VPath.valid_path (e_path e) -> e_path e <> e_path e' -> e_path e <> e_path e' ++ lit ".velcrux-xattr" -> ~ touches e' (target e).
Proof.
  intros Hv Hn Hs [Hv' Ht]. apply valid_relative in Hv, Hv'. destruct (join_base root) as [base Hb]. unfold target, xattr_sidecar_path in Ht. rewrite !Hb in Ht by done.
  destruct Ht as [Ht|Ht]; [|rewrite <- app_assoc in Ht]; apply app_inv_head in Ht; done.
Qed.

Lemma extracts_weaken {E A} (P Q : bytes -> Prop) (c : M bst E A) : (forall p, P p -> Q p) -> extracts P c -> extracts Q c.
Proof. intros HPQ Hc i w p Hp. apply Hc. auto. Qed.
Lemma extracts_entries l : extracts (fun p => exists e, e ∈ l /\ touches e p) (collect_all (unpack_entry hash_of root) l).
Proof. apply extracts_all. intros e He. eapply extracts_weaken; [|apply extracts_entry]. intros p Hp. by exists e. Qed.

Lemma entries_done l : forall i w bs i' w', Forall (fun e => 0 <= e_size e) l -> collect_all (unpack_entry hash_of root) l (i, w) = (Done bs, (i', w')) ->
  apart l -> Forall (extracted w') l.
Proof.
  induction l as [|e l IH]; intros i w bs i' w' Hz E [Hnd Hs]; [done|]. cbn in E. apply Forall_cons in Hz as [Hz0 Hz].
  unfold bind in E. destruct (unpack_entry hash_of root e (i, w)) as [[b| |] [i1 w1]] eqn:E1; [|done..].
  pose proof (extracts_entries l i1 w1 (target e)) as Hkeep. destruct (collect_all (unpack_entry hash_of root) l (i1, w1)) as [[bs'| |] [i2 w2]] eqn:E2; [|done..].
  unfold ret in E. simplify_eq/=. apply NoDup_cons in Hnd as [He Hnd]. apply entry_done in E1 as (Hv & (x & Hx & Hrest) & _); [|done]. constructor.
  - exists x. split; [|done]. rewrite <- Hx. apply Hkeep. intros (e' & He' & Ht). revert Ht. apply target_untouched; [done| |].
    + intros Eq. apply He. rewrite Eq. by apply list_elem_of_fmap_2.
    + apply Hs; [left|by right].
  - eapply IH; [done|exact E2|]. split; [done|]. intros a a' Ha Ha'. apply Hs; by right.
Qed.

(** What unpacking promises of its result. *)
Definition unpack_ok (w : bfs) (y : res DeltaError UnpackedBatchReport * bst) : Prop := exists entries,
  (forall p, ~ (exists e, e ∈ entries /\ touches e p) -> disk y.2.2 !! p = disk w !! p /\ docs y.2.2 !! p = docs w !! p) /\
  forall rep, y.1 = Done rep -> unpacked_paths rep = e_path <$> entries /\ files_extracted rep = zlen entries /\
    (apart entries -> Forall (extracted y.2.2) entries).
Definition same_files (w w' : bfs) : Prop := forall p, disk w' !! p = disk w !! p /\ docs w' !! p = docs w !! p.

Lemma unpack_error w w' r i : same_files w w' -> (forall rep, r <> Done rep) -> unpack_ok w (r, (i, w')).
Proof. intros Hw Hr. exists []. split; [intros p _; apply Hw|]. intros rep E. by destruct (Hr rep). Qed.

Lemma unpack_read {A} (c : M bst DeltaError A) k i w w0 : extracts (fun _ => False) c -> same_files w0 w ->
  (forall a i' w', same_files w0 w' -> unpack_ok w0 (k a (i', w'))) -> unpack_ok w0 (bind c k (i, w)).
Proof.
  intros Hc Hw Hk. unfold bind. specialize (Hc i w). destruct (c (i, w)) as [r [i' w']]. cbn in Hc.
  assert (same_files w0 w') as Hw' by (intros p; destruct (Hc p ltac:(tauto)) as [-> ->]; apply Hw).
  destruct r; [by apply Hk|by apply unpack_error..].
Qed.

Lemma unpack_tail `{!IndexJsonLaws} n total index entries i w w0 : same_files w0 w -> from_slice index = inr entries ->
  unpack_ok w0 ((let! payloads := collect_all (unpack_entry hash_of root) entries in
                 let! trailer := read_exact 32 in
                 if negb (bool_decide (hash_of (mjoin payloads) = trailer)) then throw n
                 else ret (mkUnpacked (zlen entries) total (e_path <$> entries))) (i, w)).
Proof.
  intros Hw Hi. apply json_sizes in Hi. assert (Forall (fun e => 0 <= e_size e) entries) as Hz by (eapply Forall_impl; [exact Hi|]; unfold fits; cbn; lia).
  exists entries. unfold bind. pose proof (extracts_entries entries i w) as Hx. destruct (collect_all _ entries (i, w)) as [r [i1 w1]] eqn:E. cbn [fst snd] in Hx.
  assert (forall p, ~ (exists e, e ∈ entries /\ touches e p) -> disk w1 !! p = disk w0 !! p /\ docs w1 !! p = docs w0 !! p) as H1
    by (intros p Hp; destruct (Hx p Hp) as [-> ->]; apply Hw).
  destruct r as [bs| |]; [|cbn [fst snd]; by split..]. pose proof (extracts_exact (fun _ => False) 32 i1 w1) as Hr.
  destruct (read_exact 32 (i1, w1)) as [r [i2 w2]]. cbn [fst snd] in Hr.
  assert (forall p, disk w2 !! p = disk w1 !! p /\ docs w2 !! p = docs w1 !! p) as H2 by (intros p; apply Hr; tauto).
  destruct r as [t| |]; [|cbn [fst snd]; by (split; [intros p Hp; destruct (H2 p) as [-> ->]; by apply H1|])..].
  case_bool_decide; cbn [negb]; (split; [intros p Hp; cbn [throw ret fst snd]; destruct (H2 p) as [-> ->]; by apply H1|]); [|done].
  cbn. intros rep [= <-]. split; [done|]. split; [done|]. intros Ha. pose proof (entries_done entries i w bs i1 w1 Hz E Ha) as Hd.
  eapply Forall_impl; [exact Hd|]. intros e (b & Hb & Hrest). exists b. split; [|done]. by rewrite (proj1 (H2 _)).
Qed.

(** C31. Extraction stays in its directory and verifies what it reports. Whatever the stream contains and
    whatever fails, unpacking changes no file but those at validated paths of entries of the index below
    the directory, and their sidecar files. When it succeeds, every entry's file has the size and the hash
    of the index, unless an entry overwrites the file of another. *)
Theorem unpack_confined `{!IndexJsonLaws} i w : unpack_ok w (unpack hash_of root (i, w)).
Proof.
  assert (same_files w w) as Hw by done. unfold unpack.
  apply unpack_read; [apply extracts_exact|done|]. intros magic i1 w1 Hw1. case_bool_decide; cbn [negb]; [|by apply unpack_error].
  apply unpack_read; [apply extracts_exact|done|]. intros flags i2 w2 Hw2. apply unpack_read; [apply extracts_exact|done|]. intros header i3 w3 Hw3.
  case_match; [by apply unpack_error|]. apply unpack_read; [apply extracts_exact|done|]. intros index i4 w4 Hw4.
  destruct (from_slice index) as [why|entries] eqn:Ei; [by apply unpack_error|]. destruct (zlen entries =? _); cbn [negb]; [|by apply unpack_error].
  by eapply unpack_tail.
Qed.

(** The files of the entries are below the directory. *)
Lemma touches_below e p : root <> [] -> ends_with [SLASH] root = false -> touches e p -> below root p = true.
Proof.
  intros Hn He [Hv Hp]. apply valid_relative in Hv. destruct (below_join root (e_path e) Hn He Hv) as [Hj Hb]. unfold target in Hp. destruct Hp as [->| ->]; [done|].
  unfold below, xattr_sidecar_path in *. apply starts_with_prefix. apply starts_with_prefix in Hb. by apply prefix_app_r.
Qed.
End extraction.

(** ** Packing and unpacking *)

Section roundtrip.
Context (hash_of : bytes -> Hash) `{!IndexJson} `{!IndexJsonLaws} (time : Z).
Local Abbreviation W d m := (mkWorld d m [] time).
Local Abbreviation meta_at m p := (default new_file (m !! p)).

Section source.
Context (root : bytes) (d : gmap bytes bytes) (m : gmap bytes file_meta).
Local Abbreviation src a := (join_to root (rel_path a)).

Definition content (a : FileAction) : bytes := default [] (d !! src a).
Definition attributes (a : FileAction) : list (bytes * bytes) :=
  match d !! xattr_sidecar_path (src a) with
  | Some b => match Sidecar.decode_xattrs_canonical b with Ok x => x | _ => [] end
  | None => []
  end.
(** The file is there, and its sidecar file is not one that stops the process. *)
Definition packable (a : FileAction) : Prop :=
  is_Some (d !! src a) /\ forall b, d !! xattr_sidecar_path (src a) = Some b -> Sidecar.decode_xattrs_canonical b <> Panic.
Definition entry_for (a : FileAction) : BatchEntryMeta :=
  mkEntry (rel_path a) (zlen (content a)) (mode (meta_at m (src a))) (mtime_ns (meta_at m (src a))) (Hash_to_hex (hash_of (content a))) (attributes a).

Lemma read_xattrs_ok a : packable a -> read_xattrs (src a) (W d m) = (Done (attributes a), W d m).
Proof.
  intros [_ Hp]. unfold read_xattrs, bind, exists_file, ok, read_file, call, attributes. cbn [disk docs events now tail].
  destruct (d !! xattr_sidecar_path (src a)) as [b|] eqn:E; [|done]. rewrite bool_decide_eq_true_2 by eauto. specialize (Hp b eq_refl).
  cbn [disk docs events now tail]. rewrite E. by destruct (Sidecar.decode_xattrs_canonical b).
Qed.

Lemma collect_entry_ok a : packable a -> collect_entry hash_of root a (W d m) = (Done (entry_for a), W d m).
Proof.
  intros Hp. pose proof (read_xattrs_ok a Hp) as Hx. destruct Hp as [[b Hb] _]. unfold collect_entry. erewrite bind_done; [|unfold map_error, stat, call; cbn [disk docs events now tail]; by rewrite Hb].
  cbv beta iota. erewrite bind_done; [|exact Hx]. unfold entry_for, content. rewrite Hb. cbn [default].
  destruct (Z.eqb_spec (zlen b) 0) as [Hz|Hz].
  - assert (b = []) as -> by (destruct b as [|x b]; [done|]; rewrite zlen_cons in Hz; pose proof (zlen_nonneg b); lia). done.
  - unfold bind, map_error, read_file, call. cbn [disk docs events now tail]. by rewrite Hb.
Qed.

Lemma collect_all_ok {S E A B} (f : A -> M S E B) (g : A -> B) l x : (forall a, a ∈ l -> f a x = (Done (g a), x)) -> collect_all f l x = (Done (g <$> l), x).
Proof.
  induction l as [|a l IH]; intros Hf; [done|]. cbn. erewrite bind_done; [|apply Hf; left]. erewrite bind_done; [|apply IH; intros y Hy; apply Hf; by right]. done.
Qed.

Lemma write_entry_ok a o : packable a -> write_entry hash_of root (entry_for a) (o, W d m) = (Done (content a), (o ++ content a, W d m)).
Proof.
  intros [[b Hb] _]. assert (content a = b) as Hc by (unfold content; by rewrite Hb). unfold write_entry, bind, on_files, snd_part, map_error, read_file, write_all, call. cbn [disk docs events now tail e_path entry_for]. rewrite Hb.
  cbn [disk docs events now tail e_size e_hash entry_for]. rewrite Hc.
  assert (take (Z.to_nat (zlen b)) b = b) as -> by (unfold zlen; rewrite Nat2Z.id; apply firstn_all). rewrite Z.ltb_irrefl, bool_decide_eq_true_2 by done. done.
Qed.

Lemma write_entries_ok l o : Forall packable l ->
  collect_all (write_entry hash_of root) (entry_for <$> l) (o, W d m) = (Done (content <$> l), (o ++ mjoin (content <$> l), W d m)).
Proof.
  intros Hl. revert o. induction Hl as [|a l Ha Hl IH]; intros o; [cbn; by rewrite app_nil_r|]. rewrite !fmap_cons. cbn [collect_all].
  erewrite bind_done; [|by apply write_entry_ok]. erewrite bind_done; [|apply IH]. change (mjoin (content a :: (content <$> l))) with (content a ++ mjoin (content <$> l)). by rewrite app_assoc.
Qed.

Definition container (l : list FileAction) : bytes :=
  let es := entry_for <$> l in
  VBATCH_MAGIC ++ [0] ++ to_be 4 (zlen l) ++ to_be 4 (zlen (to_vec es)) ++ to_be 8 (zlen (mjoin (content <$> l))) ++ to_vec es ++ mjoin (content <$> l) ++
  hash_of (mjoin (content <$> l)).

Lemma payload_sum l : zlen (mjoin (content <$> l)) < 2 ^ 64 -> payload_bytes (entry_for <$> l) = zlen (mjoin (content <$> l)).
Proof.
  intros Hl. unfold payload_bytes. assert (forall n, 0 <= n -> n + zlen (mjoin (content <$> l)) < 2 ^ 64 ->
    foldl (fun a e => wrap 64 (a + e_size e)) n (entry_for <$> l) = n + zlen (mjoin (content <$> l))) as Hsum; [|apply (Hsum 0); lia].
  clear Hl. induction l as [|a l IH]; intros n Hn Hb; [cbn; rewrite zlen_nil; lia|]. rewrite !fmap_cons in *. cbn [foldl e_size entry_for].
  change (mjoin (content a :: (content <$> l))) with (content a ++ mjoin (content <$> l)) in *. rewrite zlen_app in *. pose proof (zlen_nonneg (content a)). pose proof (zlen_nonneg (mjoin (content <$> l))).
  rewrite wrap_small by (unfold fits; lia). rewrite IH by lia. lia.
Qed.

Lemma pack_ok l : Forall packable l -> zlen l < 2 ^ 32 -> zlen (to_vec (entry_for <$> l)) <= MAX_BATCH_INDEX_BYTES -> zlen (mjoin (content <$> l)) < 2 ^ 63 ->
  (forall b, zlen (hash_of b) = 32) ->
  pack hash_of root l ([], W d m) = (Done (zlen (container l)), (container l, W d m)).
Proof.
  intros Hl Hn Hi Hs Hh. unfold pack.
  erewrite bind_done; [|cbn [snd_part]; rewrite (collect_all_ok _ entry_for); [done|]; intros a Ha; apply collect_entry_ok; rewrite Forall_forall in Hl; by apply Hl].
  destruct (Z.ltb_spec MAX_BATCH_INDEX_BYTES (zlen (to_vec (entry_for <$> l)))); [lia|]. pose proof (zlen_nonneg l). pose proof (zlen_nonneg (to_vec (entry_for <$> l))). pose proof (zlen_nonneg (mjoin (content <$> l))).
  assert (zlen (entry_for <$> l) = zlen l) as El by (unfold zlen; by rewrite length_fmap). rewrite El.
  rewrite (wrap_small 32 (zlen l)), (wrap_small 32 (zlen (to_vec _))) by (unfold fits, MAX_BATCH_INDEX_BYTES in *; lia). rewrite payload_sum by lia.
  do 6 (erewrite bind_done; [|reflexivity]). erewrite bind_done; [|by apply write_entries_ok]. erewrite bind_done; [|reflexivity]. unfold ret. rewrite wrap_small by (unfold fits, MAX_BATCH_INDEX_BYTES in *; lia).
  unfold container. rewrite !zlen_app, !zlen_to_be, Hh, <- !app_assoc. change (zlen VBATCH_MAGIC) with 7. change (zlen [0]) with 1. do 2 f_equal. lia.
Qed.
End source.

Lemma take_drop_app (a b : bytes) : take (Z.to_nat (zlen a)) (a ++ b) = a /\ drop (Z.to_nat (zlen a)) (a ++ b) = b.
Proof. unfold zlen. by rewrite Nat2Z.id, take_app_length, drop_app_length. Qed.

Section destination.
Context (root : bytes).
Local Abbreviation target := (target root).
Local Abbreviation touches := (touches root).

(** The file of an entry with its metadata and attributes. *)
Definition restored (w : bfs) (e : BatchEntryMeta) (b : bytes) : Prop :=
  disk w !! target e = Some b /\ mode (meta_at (docs w) (target e)) = e_mode e /\
  (0 < e_mtime_ns e -> mtime_ns (meta_at (docs w) (target e)) = e_mtime_ns e) /\
  (e_xattrs e <> [] -> exists s, Sidecar.encode_xattrs_canonical (e_xattrs e) = Ok s /\ disk w !! xattr_sidecar_path (target e) = Some s).

(** An entry for the content [b]. *)
Definition describes (e : BatchEntryMeta) (b : bytes) : Prop :=
  VPath.valid_path (e_path e) /\ zlen b = e_size e /\ Hash_to_hex (hash_of b) = e_hash e /\
  (e_xattrs e <> [] -> exists s, Sidecar.encode_xattrs_canonical (e_xattrs e) = Ok s).

Lemma restore_ok e b d m : d !! target e = Some b -> (e_xattrs e <> [] -> exists s, Sidecar.encode_xattrs_canonical (e_xattrs e) = Ok s) ->
  exists d' m', restore_meta (target e) e (W d m) = (Done tt, W d' m') /\ restored (W d' m') e b.
Proof.
  intros Hd Hx. pose proof (sidecar_other (target e)) as Hne. unfold restore_meta.
  erewrite bind_done; [|reflexivity]. unfold set_docs. cbn [disk docs events now tail]. set (m1 := <[target e := _]> m).
  assert (exists d1, (if bool_decide (e_xattrs e = []) then ret tt else match Sidecar.encode_xattrs_canonical (e_xattrs e) with
     | Ok b => ignore (write_file (xattr_sidecar_path (target e)) b) | _ => throw Panicked end) (W d m1) = (Done tt, W d1 m1) /\
     d1 !! target e = Some b /\ (e_xattrs e <> [] -> exists s, Sidecar.encode_xattrs_canonical (e_xattrs e) = Ok s /\ d1 !! xattr_sidecar_path (target e) = Some s)) as (d1 & E1 & Hd1 & Hx1).
  { case_bool_decide as Ex; [by exists d|]. destruct (Hx Ex) as [s Hs]. exists (<[xattr_sidecar_path (target e) := s]> d). rewrite Hs. split; [done|].
    split; [by rewrite lookup_insert_ne|]. intros _. exists s. by rewrite lookup_insert_eq. }
  erewrite bind_done; [|exact E1]. destruct (Z.ltb_spec 0 (e_mtime_ns e)) as [Ht|Ht].
  - erewrite bind_done; [|unfold ok, read_file, call; cbn [disk docs events now tail]; by rewrite Hd1]. unfold ignore, set_modified, call, set_docs. cbn [disk docs events now tail].
    exists d1, (<[target e := mkMeta (mode (meta_at m1 (target e))) (e_mtime_ns e)]> m1). split; [done|]. unfold restored. cbn [disk docs]. rewrite lookup_insert_eq. cbn. unfold m1. rewrite lookup_insert_eq. by split_and!.
  - exists d1, m1. split; [done|]. unfold restored. cbn [disk docs]. unfold m1. rewrite lookup_insert_eq. cbn. split; [done|]. split; [done|]. split; [lia|done].
Qed.

Lemma unpack_entry_ok e b rest d m : describes e b ->
  exists d' m', unpack_entry hash_of root e (b ++ rest, W d m) = (Done b, (rest, W d' m')) /\ restored (W d' m') e b.
Proof.
  intros (Hv & Hz & Hh & Hx). unfold unpack_entry. rewrite (proj2 (VPath.validate_ok_iff (e_path e) (e_path e)) (conj eq_refl Hv)).
  rewrite (bind_done (on_files _) _ _ tt (b ++ rest, W d m)) by done.
  rewrite (bind_done (read_some _) _ _ b (rest, W d m)) by (unfold read_some; cbn; rewrite <- Hz; by destruct (take_drop_app b rest) as [-> ->]).
  rewrite (bind_done (on_files _) _ _ tt (rest, W (<[target e := b]> d) m)) by done. rewrite <- Hz, Z.ltb_irrefl, bool_decide_eq_true_2 by done. cbn [negb].
  destruct (restore_ok e b (<[target e := b]> d) m) as (d' & m' & E & Hr); [apply lookup_insert_eq|done|]. exists d', m'.
  rewrite (bind_done (snd_part _) _ _ tt (rest, W d' m')) by (change (join_to root (e_path e)) with (target e); unfold snd_part; by rewrite E). done.
Qed.

Lemma sidecar_untouched e e' : VPath.valid_path (e_path e) -> e_path e <> e_path e' -> e_path e' <> e_path e ++ lit ".velcrux-xattr" ->
  ~ touches e' (xattr_sidecar_path (target e)).
Proof.
  intros Hv Hn Hs [Hv' Ht]. apply valid_relative in Hv, Hv'. destruct (join_base root) as [base Hb]. unfold Batch.target, xattr_sidecar_path in Ht. rewrite !Hb in Ht by done.
  rewrite <- !app_assoc in Ht. destruct Ht as [Ht|Ht]; apply app_inv_head in Ht; [congruence|]. by apply app_inv_tail in Ht.
Qed.

Lemma unpack_entries_ok es bs : Forall2 describes es bs -> apart es -> forall rest d m,
  exists d' m', collect_all (unpack_entry hash_of root) es (mjoin bs ++ rest, W d m) = (Done bs, (rest, W d' m')) /\ Forall2 (restored (W d' m')) es bs.
Proof.
  induction 1 as [|e b es bs He Hes IH]; intros [Hnd Hap] rest d m; [by exists d, m|]. rewrite fmap_cons in Hnd. apply NoDup_cons in Hnd as [Hn Hnd].
  change (mjoin (b :: bs)) with (b ++ mjoin bs). rewrite <- app_assoc. cbn [collect_all].
  destruct (unpack_entry_ok e b (mjoin bs ++ rest) d m He) as (d1 & m1 & E1 & Hr1). erewrite bind_done; [|exact E1].
  destruct (IH (conj Hnd (fun a a' Ha Ha' => Hap a a' (list_elem_of_further _ _ _ Ha) (list_elem_of_further _ _ _ Ha'))) rest d1 m1) as (d2 & m2 & E2 & Hr2).
  erewrite bind_done; [|exact E2]. exists d2, m2. split; [done|]. constructor; [|done].
  assert (forall p, (forall e', e' ∈ es -> ~ touches e' p) -> d2 !! p = d1 !! p /\ m2 !! p = m1 !! p) as Hkeep.
  { intros p Hp. pose proof (extracts_entries hash_of root es (mjoin bs ++ rest) (W d1 m1) p) as Hx. rewrite E2 in Hx. apply Hx. intros (e' & He' & Ht). by apply (Hp e' He'). }
  destruct He as (Hv & _). assert (forall e', e' ∈ es -> e_path e <> e_path e') as Hdiff by (intros e' He' Eq; apply Hn; rewrite Eq; by apply list_elem_of_fmap_2).
  destruct (Hkeep (target e)) as [Hk1 Hk2]. { intros e' He'. apply target_untouched; [done|by apply Hdiff|]. apply Hap; [left|by right]. }
  destruct (Hkeep (xattr_sidecar_path (target e))) as [Hk3 _]. { intros e' He'. apply sidecar_untouched; [done|by apply Hdiff|]. apply Hap; [by right|left]. }
  unfold restored in *. cbn [disk docs] in *. by rewrite Hk1, Hk2, Hk3.
Qed.

Lemma read_exact_ok n (a rest : bytes) d m : zlen a = n -> read_exact n (a ++ rest, W d m) = (Done a, (rest, W d m)).
Proof.
  intros <-. unfold read_exact, bind, read_some, call. cbn [disk docs events now tail]. destruct (take_drop_app a rest) as [-> ->]. by rewrite Z.ltb_irrefl.
Qed.
End destination.

Lemma Forall2_diag_inv {A} (Q : A -> A -> Prop) l : Forall2 Q l l -> Forall (fun x => Q x x) l.
Proof. induction l as [|x l IH]; intros HQ; [done|]. apply Forall2_cons in HQ as [? ?]. constructor; auto. Qed.

Section both.
Context (src dst : bytes) (d : gmap bytes bytes) (m : gmap bytes file_meta) (l : list FileAction).
Hypothesis hash_len : forall b, zlen (hash_of b) = 32.
Context (Hpack : Forall (packable src d) l) (Hvalid : Forall (fun a => VPath.valid_path (rel_path a)) l).
Context (Hattrs : Forall (fun a => sidecar_ok (attributes src d a)) l).
Context (Honce : NoDup (rel_path <$> l)) (Hside : forall a a', a ∈ l -> a' ∈ l -> rel_path a <> rel_path a' ++ lit ".velcrux-xattr").
Context (Hcount : zlen l < 2 ^ 32) (Hindex : zlen (to_vec (entry_for src d m <$> l)) <= MAX_BATCH_INDEX_BYTES) (Hsum : zlen (mjoin (content src d <$> l)) < 2 ^ 63).

(** The file of the action below the other directory: content, permissions, time and attributes. *)
Definition carried (w : bfs) (a : FileAction) : Prop :=
  let t := join_to dst (rel_path a) in let m0 := meta_at m (join_to src (rel_path a)) in
  disk w !! t = Some (content src d a) /\ mode (meta_at (docs w) t) = mode m0 /\ (0 < mtime_ns m0 -> mtime_ns (meta_at (docs w) t) = mtime_ns m0) /\
  (attributes src d a <> [] -> exists s, disk w !! xattr_sidecar_path t = Some s /\ Sidecar.decode_xattrs_canonical s = Ok (attributes src d a)).

Lemma all_described : Forall2 describes (entry_for src d m <$> l) (content src d <$> l).
Proof.
  apply Forall2_fmap_2, Forall_Forall2_diag, Forall_forall. intros a Ha. rewrite Forall_forall in Hvalid, Hattrs. split; [by apply Hvalid|]. split; [done|]. split; [done|].
  intros _. destruct (sidecar_roundtrip (attributes src d a)) as (s & Hs & _); [by apply Hattrs|]. by exists s.
Qed.
Lemma all_apart : apart (entry_for src d m <$> l).
Proof.
  split; [by rewrite <- list_fmap_compose|]. intros e e' (a & -> & Ha)%list_elem_of_fmap (a' & -> & Ha')%list_elem_of_fmap. by apply Hside.
Qed.

Lemma header_ok (a b c : Z) : fits 32 a -> fits 32 b -> fits 64 c ->
  let h := to_be 4 a ++ to_be 4 b ++ to_be 8 c in zlen h = 16 /\ from_be (take 4 h) = a /\ from_be (take 4 (drop 4 h)) = b /\ from_be (take 8 (drop 8 h)) = c.
Proof.
  intros Ha Hb Hc h. unfold h. assert (forall n x, length (to_be n x) = n) as Hl by (intros n x; pose proof (zlen_to_be n x); unfold zlen in *; lia).
  split; [rewrite !zlen_app, !zlen_to_be; lia|]. rewrite take_app_length', drop_app_length', take_app_length' by (by rewrite Hl).
  rewrite app_assoc, drop_app_length' by (by rewrite length_app, !Hl). rewrite take_ge by (by rewrite Hl). by rewrite !from_to_be.
Qed.

Lemma unpack_container rest : exists d' m',
  unpack hash_of dst (container src d m l ++ rest, W d m)
  = (Done (mkUnpacked (zlen l) (zlen (mjoin (content src d <$> l))) (rel_path <$> l)), (rest, W d' m')) /\
  Forall2 (restored dst (W d' m')) (entry_for src d m <$> l) (content src d <$> l).
Proof.
  destruct (unpack_entries_ok dst _ _ all_described all_apart (hash_of (mjoin (content src d <$> l)) ++ rest) d m) as (d' & m' & E & Hr). exists d', m'. split; [|done].
  pose proof (zlen_nonneg l). set (es := entry_for src d m <$> l) in *. pose proof (zlen_nonneg (to_vec es)). pose proof (zlen_nonneg (mjoin (content src d <$> l))).
  destruct (header_ok (zlen l) (zlen (to_vec es)) (zlen (mjoin (content src d <$> l)))) as (H16 & Hh1 & Hh2 & Hh3); [unfold fits, MAX_BATCH_INDEX_BYTES in *; lia..|].
  unfold container. fold es. cbv zeta. set (h := to_be 4 _ ++ to_be 4 _ ++ to_be 8 _) in *.
  replace (_ ++ rest) with (VBATCH_MAGIC ++ [0] ++ h ++ to_vec es ++ mjoin (content src d <$> l) ++ hash_of (mjoin (content src d <$> l)) ++ rest) by (unfold h; by rewrite <- !app_assoc).
  unfold unpack. erewrite bind_done; [|by apply read_exact_ok]. rewrite bool_decide_eq_true_2 by done. cbn [negb].
  erewrite bind_done; [|by apply (read_exact_ok 1 [0])]. erewrite bind_done; [|by apply read_exact_ok]. rewrite Hh1, Hh2, Hh3.
  destruct (Z.ltb_spec MAX_BATCH_INDEX_BYTES (zlen (to_vec es))); [unfold es in *; lia|]. erewrite bind_done; [|by apply read_exact_ok].
  rewrite json_roundtrip.
  - assert (zlen es = zlen l) as -> by (unfold es, zlen; by rewrite length_fmap). rewrite Z.eqb_refl. cbn [negb].
    erewrite bind_done; [|exact E]. erewrite bind_done; [|by apply read_exact_ok]. rewrite bool_decide_eq_true_2 by done. cbn [negb]. unfold ret.
    assert (e_path <$> es = rel_path <$> l) as -> by (unfold es; by rewrite <- list_fmap_compose). done.
  - unfold es. apply Forall_fmap, Forall_forall. intros a Ha. cbn. split; [apply zlen_nonneg|]. clear -Ha Hsum.
    induction l as [|x k IH]; [by apply elem_of_nil in Ha|]. rewrite fmap_cons in Hsum. change (mjoin (content src d x :: (content src d <$> k))) with (content src d x ++ mjoin (content src d <$> k)) in Hsum.
    rewrite zlen_app in Hsum. pose proof (zlen_nonneg (content src d x)). pose proof (zlen_nonneg (mjoin (content src d <$> k))). apply elem_of_cons in Ha as [->|Ha]; [lia|]. apply IH; [lia|done].
Qed.

(** C23. A batch carries files. No call fails; the paths are valid and distinct, and none is that of another
    with [.velcrux-xattr] after it; the files are there, and the index has at most 16 MiB. Then the files
    packed into a container and unpacked below another directory, also when more follows in the stream, are
    there with their contents, permissions, attributes and, when it is after the epoch, modification time; the
    writer returns the length of the container, and the reader takes exactly the container and reports the
    paths and the number of bytes. *)
Theorem batch_roundtrip rest : exists c d' m',
  pack hash_of src l ([], W d m) = (Done (zlen c), (c, W d m)) /\
  unpack hash_of dst (c ++ rest, W d m)
  = (Done (mkUnpacked (zlen l) (zlen (mjoin (content src d <$> l))) (rel_path <$> l)), (rest, W d' m')) /\
  Forall (carried (W d' m')) l.
Proof.
  destruct (unpack_container rest) as (d' & m' & E & Hr). exists (container src d m l), d', m'. split; [by apply pack_ok|]. split; [done|].
  rewrite Forall2_fmap in Hr. apply Forall2_diag_inv in Hr. apply Forall_forall. intros a Ha. rewrite Forall_forall in Hr, Hattrs. destruct (Hr a Ha) as (H1 & H2 & H3 & H4).
  split; [done|]. split; [done|]. split; [done|]. intros Hn. destruct (H4 Hn) as (s & Hs & Hd). exists s. split; [done|].
  destruct (sidecar_roundtrip _ (Hattrs a Ha)) as (s' & Hs' & Hdec). cbn [e_xattrs entry_for] in Hs. congruence.
Qed.
End both.
End roundtrip.

(** ** The theorems at concrete inputs *)
Module BatchExamples.
Definition hash (b : bytes) : Hash := ChunkStore.ChunkStoreExamples.hash b.
Lemma hash_is_32 b : zlen (hash b) = 32.
Proof. apply ChunkStore.ChunkStoreExamples.hash_is_wf. Qed.

(** An index as one number. *)
#[local] Instance BatchEntryMeta_eq_dec : EqDecision BatchEntryMeta.
Proof. solve_decision. Defined.
#[local] Program Instance BatchEntryMeta_countable : Countable BatchEntryMeta :=
  inj_countable' (fun e => (e_path e, e_size e, e_mode e, e_mtime_ns e, e_hash e, e_xattrs e)) (fun '(a, b, c, d, e, f) => mkEntry a b c d e f) _.
Next Obligation. by intros []. Qed.
#[local] Instance number_json : IndexJson := {|
  to_vec l := [Z.pos (encode l)];
  from_slice b := match b with
                  | [Z.pos x] => match decode (A := list BatchEntryMeta) x with
                                 | Some l => if forallb (fun e => (0 <=? e_size e) && (e_size e <? 2 ^ 64)) l then inr l else inl (lit "invalid value")
                                 | None => inl (lit "invalid type")
                                 end
                  | _ => inl (lit "expected value")
                  end |}.
#[local] Instance number_laws : IndexJsonLaws.
Proof.
  split.
  - intros l Hl. cbn. rewrite decode_encode. assert (forallb (fun e => (0 <=? e_size e) && (e_size e <? 2 ^ 64)) l = true) as ->; [|done].
    apply forallb_forall. intros e He. rewrite Forall_forall in Hl. apply list_elem_of_In, Hl in He. unfold fits in He. lia.
  - intros b l. cbn. repeat case_match; try done. intros [= <-]. apply Forall_forall. intros e He. apply list_elem_of_In in He.
    match goal with Hf : forallb _ _ = true |- _ => apply forallb_forall with (x := e) in Hf; [|done] end. unfold fits. lia.
Qed.

Definition add (p : string) (size : Z) : FileAction := mkAction (lit p) FAdd size 0 None size 0.
Definition A : FileAction := add "a" 3.
Definition B : FileAction := add "x/b" 2.
Definition SRC : bytes := lit "/s".
Definition DST : bytes := lit "/d".
Definition disk0 : gmap bytes bytes := <[lit "/s/a" := [1; 2; 3]]> (<[lit "/s/x/b" := [9; 9]]> ∅).
Definition metas : gmap bytes file_meta := <[lit "/s/a" := mkMeta 33261 77]> ∅.
Definition start (es : list event) : bfs := mkWorld disk0 metas es 0.

Lemma valid_names : VPath.valid_path (lit "a") /\ VPath.valid_path (lit "x/b").
Proof. split; [apply (VPath.validate_ok_iff _ (lit "a"))|apply (VPath.validate_ok_iff _ (lit "x/b"))]; by vm_compute. Qed.

Lemma batch_plan_correct_witness : let p := plan (fun _ => true) [A; B; add "big" 200000] (mkConfig true 131072 4 10) in
  mjoin (actions <$> batches p) = [A; B] /\ Forall (batch_ok (mkConfig true 131072 4 10)) (batches p).
Proof.
  destruct (batch_plan_correct (fun _ => true) (mkConfig true 131072 4 10) [A; B; add "big" 200000]) as (H & _ & _ & Hb & _).
  - reflexivity.
  - cbn. lia.
  - repeat constructor; cbn; lia.
  - vm_compute. reflexivity.
  - split; [exact H|exact Hb].
Defined.

Lemma unpack_confined_witness : unpack_ok hash DST (start []) (unpack hash DST (VBATCH_MAGIC ++ [0; 0; 0; 0; 1], start [])).
Proof. apply (unpack_confined hash DST (VBATCH_MAGIC ++ [0; 0; 0; 0; 1]) (start [])). Defined.

Lemma batch_roundtrip_witness : exists c d' m',
  pack hash SRC [A; B] ([], start []) = (Done (zlen c), (c, start [])) /\
  unpack hash DST (c ++ [5], start []) = (Done (mkUnpacked 2 5 [lit "a"; lit "x/b"]), ([5], mkWorld d' m' [] 0)) /\ d' !! lit "/d/x/b" = Some [9; 9].
Proof.
  destruct (batch_roundtrip hash 0 SRC DST disk0 metas [A; B] hash_is_32) with (rest := [5]) as (c & d' & m' & E1 & E2 & H).
  - apply Forall_cons. split; [split; [by exists [1; 2; 3]|by intros b]|]. apply Forall_cons. split; [split; [by exists [9; 9]|by intros b]|constructor].
  - apply Forall_cons. split; [apply valid_names|]. apply Forall_cons. split; [apply valid_names|constructor].
  - apply Forall_cons. split; [split; [constructor|by vm_compute]|]. apply Forall_cons. split; [split; [constructor|by vm_compute]|constructor].
  - apply (bool_decide_unpack _). by vm_compute.
  - intros a a' Ha Ha'. apply elem_of_cons in Ha as [->|[->|?%elem_of_nil]%elem_of_cons]; [| |done]; apply elem_of_cons in Ha' as [->|[->|?%elem_of_nil]%elem_of_cons]; done.
  - by vm_compute.
  - by vm_compute.
  - by vm_compute.
  - exists c, d', m'. split; [exact E1|]. split; [exact E2|]. apply Forall_cons in H as [_ H]. apply Forall_cons in H as [H _]. exact (proj1 H).
Defined.

Definition packed : bytes := (pack hash SRC [A; B] ([], start [])).2.1.
(** A limit of no files makes an empty batch before the first file. *)
Example no_files_empty_batch : actions <$> batches (plan (fun _ => true) [A; B] (mkConfig true 131072 1000 0)) = [[]; [A]; [B]].
Proof. by vm_compute. Qed.

(** The checksum of the whole comes too late: the files are in place when it is found to be wrong. *)
Example trailer_too_late : match unpack hash DST (take 30 packed ++ replicate 32 7, start []) with
  | (Failed (Reconstruction _), (_, w)) => zlen packed = 62 /\ disk w !! lit "/d/a" = Some [1; 2; 3] /\ disk w !! lit "/d/x/b" = Some [9; 9]
  | _ => False
  end.
Proof. vm_compute. split_and!; reflexivity. Qed.

(** A stream that ends in a file leaves its beginning in place. *)
Example partial_file_left : match unpack hash DST (take 27 packed, start []) with
  | (Failed (DIo _), (_, w)) => disk w !! lit "/d/a" = Some [1; 2]
  | _ => False
  end.
Proof. by vm_compute. Qed.

(** Neither the flags nor the announced number of bytes are looked at; the latter is reported. *)
Example header_unchecked : match unpack hash DST (<[7%nat := 255]> (<[23%nat := 99]> packed), start []) with
  | (Done rep, _) => unpacked_bytes rep = 99
  | _ => False
  end.
Proof. by vm_compute. Qed.

(** The attributes of one file overwrite another file of the batch that has been verified. *)
Definition with_attrs : BatchEntryMeta := mkEntry (lit "a") 1 33188 0 (Hash_to_hex (hash [1])) [(lit "user.k", [5])].
Definition plain : BatchEntryMeta := mkEntry (lit "a.velcrux-xattr") 1 33188 0 (Hash_to_hex (hash [2])) [].
Example attributes_overwrite_file :
  match unpack hash DST (VBATCH_MAGIC ++ [0] ++ to_be 4 2 ++ to_be 4 1 ++ to_be 8 2 ++ to_vec [plain; with_attrs] ++ [2; 1] ++ hash [2; 1], start []) with
  | (Done rep, (_, w)) => unpacked_paths rep = [lit "a.velcrux-xattr"; lit "a"] /\ disk w !! lit "/d/a.velcrux-xattr" <> Some [2]
  | _ => False
  end.
Proof. vm_compute. split; [reflexivity|discriminate]. Qed.
End BatchExamples.
