(* ===== verification/Checkpoint.v ===== *)
(** * Checkpoints and recovery, transfer/checkpoint.rs

    The trait [StateStore] of state/mod.rs as a class, whose calls are computations of [FileSys] that can
    fail or at which the process can die, with what they promise ([StateStoreLaws]); the in-memory store
    with such calls is an instance. Over the trait: the policy, the coordinator that says when a checkpoint
    is due and commits it, and the recovery of interrupted transfers. Instants are numbers (microseconds),
    an operation takes the readings of the clocks it makes. The percentage of a summary is floating point
    and left out. *)

From S2P Require Import Prelude Utf8 Protocol Wire Paths Bitmap StateStore FileSys.

(** ** The trait *)

Class StateStore (S : Type) := {
  upsert_transfer : TransferRecord -> M S StateStoreError UpsertOutcome;
  update_transfer : TransferRecord -> M S StateStoreError unit;
  get_transfer : TransferId -> M S StateStoreError TransferRecord;
  write_bitmap : TransferId -> ChunkBitmap.t -> M S StateStoreError unit;
  read_bitmap : TransferId -> M S StateStoreError ChunkBitmap.t;
  write_journal : CommitJournalEntry -> M S StateStoreError unit;
  mark_journal_committed : TransferId -> Z -> M S StateStoreError unit;
  mark_active_transfers_resumable : M S StateStoreError Z;
  wal_checkpoint : WalCheckpointMode -> M S StateStoreError WalCheckpointReport;
  list_resumable_transfers : option Role -> M S StateStoreError (list TransferRecord);
  prune_stale_transfers : Z -> M S StateStoreError Z }.

(** What a store holds. *)
Class StoreView (S : Type) := {
  record_of : S -> TransferId -> option TransferRecord;
  bitmap_of : S -> TransferId -> option ChunkBitmap.t;
  sane : S -> Prop }.

(** Two states that differ at most in a record or a bitmap. *)
Definition same_but_bitmap {S} `{StoreView S} (id : TransferId) (b : ChunkBitmap.t) (s s' : S) : Prop :=
  record_of s' = record_of s /\ forall i, bitmap_of s' i = bitmap_of s i \/ i = id /\ bitmap_of s' i = Some b.
Definition same_but_record {S} `{StoreView S} (x : TransferRecord) (s s' : S) : Prop :=
  bitmap_of s' = bitmap_of s /\ forall i, record_of s' i = record_of s i \/ i = transfer_id x /\ record_of s' i = Some x.

(** What becomes of a record when the process starts again. *)
Definition resumed (now : Z) (x : TransferRecord) : TransferRecord :=
  if bool_decide (status x = Active) then MockStateStore.set_status Resumable now x else x.

(** A write that is not reported as done may or may not have happened. *)
Class StateStoreLaws (S : Type) `{StateStore S} `{StoreView S} : Prop := {
  sane_id s id x : sane s -> record_of s id = Some x -> transfer_id x = id;
  write_bitmap_law id b s : sane s -> let '(r, s') := write_bitmap id b s in
    sane s' /\ same_but_bitmap id b s s' /\ forall u, r = Done u -> bitmap_of s' id = Some b;
  get_transfer_law id s : sane s -> let '(r, s') := get_transfer id s in
    sane s' /\ record_of s' = record_of s /\ bitmap_of s' = bitmap_of s /\ forall x, r = Done x -> record_of s id = Some x;
  update_transfer_law x y s : sane s -> record_of s (transfer_id x) = Some y ->
    role x = role y -> idempotency_key x = idempotency_key y -> let '(r, s') := update_transfer x s in
    sane s' /\ same_but_record x s s' /\ forall u, r = Done u -> record_of s' (transfer_id x) = Some x;
  read_bitmap_law id s : sane s -> let '(r, s') := read_bitmap id s in
    sane s' /\ record_of s' = record_of s /\ bitmap_of s' = bitmap_of s /\ forall b, r = Done b -> bitmap_of s id = Some b;
  mark_law s : sane s -> let '(r, s') := mark_active_transfers_resumable s in
    sane s' /\ bitmap_of s' = bitmap_of s /\ forall n, r = Done n -> exists now, forall i, record_of s' i = resumed now <$> record_of s i;
  journal_law e s : sane s -> let '(r, s') := write_journal e s in sane s' /\ record_of s' = record_of s /\ bitmap_of s' = bitmap_of s;
  journal_committed_law id f s : sane s -> let '(r, s') := mark_journal_committed id f s in sane s' /\ record_of s' = record_of s /\ bitmap_of s' = bitmap_of s;
  wal_law m s : sane s -> let '(r, s') := wal_checkpoint m s in sane s' /\ record_of s' = record_of s /\ bitmap_of s' = bitmap_of s;
  list_law who s : sane s -> let '(r, s') := list_resumable_transfers who s in
    sane s' /\ record_of s' = record_of s /\ bitmap_of s' = bitmap_of s /\ forall l, r = Done l -> forall x,
      x ∈ l <-> record_of s (transfer_id x) = Some x /\ status x = Resumable /\ forall t, who = Some t -> role x = t }.

(** ** The policy and the coordinator *)

Definition DEFAULT_CHECKPOINT_BYTES : Z := 256 * 1024 * 1024.
Definition SECONDS : Z := 1000 * 1000.
Definition DEFAULT_CHECKPOINT_INTERVAL : Z := 10 * SECONDS.

Record CheckpointPolicy := mkPolicy { bytes_threshold : Z; time_interval : Z; chunk_threshold : Z; fsync_staging : bool }.
Definition policy_default : CheckpointPolicy := mkPolicy DEFAULT_CHECKPOINT_BYTES DEFAULT_CHECKPOINT_INTERVAL 256 true.
Definition high_throughput : CheckpointPolicy := mkPolicy (1024 * 1024 * 1024) (30 * SECONDS) 1024 true.
Definition hostile_network : CheckpointPolicy := mkPolicy (64 * 1024 * 1024) (3 * SECONDS) 64 true.

Record CheckpointStats := mkStats { checkpoints_total : Z; checkpoint_duration_micros_total : Z; checkpoint_bytes_total : Z }.

Record CheckpointCoordinator := mkCoordinator {
  policy : CheckpointPolicy; bytes_since_last : Z; chunks_since_last : Z; last_checkpoint_instant : Z; last_checkpoint_bytes : Z;
  stats : CheckpointStats }.
Definition coordinator_new (p : CheckpointPolicy) (s : CheckpointStats) (now : Z) : CheckpointCoordinator := mkCoordinator p 0 0 now 0 s.
Definition with_defaults (now : Z) : CheckpointCoordinator := coordinator_new policy_default (mkStats 0 0 0) now.

Definition should_checkpoint (c : CheckpointCoordinator) (now : Z) : bool :=
  let p := policy c in
  if (0 <? bytes_threshold p) && (bytes_threshold p <=? bytes_since_last c) then true
  else if negb (time_interval p =? 0) && (time_interval p <=? now - last_checkpoint_instant c) then true
  else if (0 <? chunk_threshold p) && (chunk_threshold p <=? chunks_since_last c) then true
  else false.

Definition observe_chunk (c : CheckpointCoordinator) (chunk_len now : Z) : CheckpointCoordinator * bool :=
  let c := mkCoordinator (policy c) (saturating_add 64 (bytes_since_last c) chunk_len) (saturating_add 64 (chunks_since_last c) 1)
             (last_checkpoint_instant c) (last_checkpoint_bytes c) (stats c) in
  (c, should_checkpoint c now).

Definition set_progress (r : TransferRecord) (bytes now_ms : Z) : TransferRecord :=
  mk_record (transfer_id r) (idempotency_key r) (role r) (direction r) (status r) (remote_path r) (local_path r) (file_size r) (file_hash r)
    (verified_up_to r) now_ms bytes (staging_relpath r) (created_ms r) now_ms.

(** The coordinator after a checkpoint that began at [t0] and ended at [t1]. *)
Definition committed (c : CheckpointCoordinator) (bytes t0 t1 : Z) : CheckpointCoordinator :=
  mkCoordinator (policy c) 0 0 t1 bytes
    (mkStats (wrap 64 (checkpoints_total (stats c) + 1)) (wrap 64 (checkpoint_duration_micros_total (stats c) + (t1 - t0))) bytes).

Section operations.
Context {S : Type} `{StateStore S}.

(** [if let Ok(mut record) = get { ..; let _ = update }]. *)
Definition record_progress (id : TransferId) (bytes now_ms : Z) : M S VelcruxError unit :=
  let! r := ok (get_transfer id) in
  match r with Some r => ignore (update_transfer (set_progress r bytes now_ms)) | None => ret tt end.

Definition commit_checkpoint (c : CheckpointCoordinator) (id : TransferId) (bytes : Z) (b : ChunkBitmap.t) (t0 t1 now_ms : Z)
  : M S VelcruxError CheckpointCoordinator :=
  let! _ := map_error (fun _ => EInternal "checkpoint bitmap write failed") (write_bitmap id b) in
  let! _ := record_progress id bytes now_ms in
  ret (committed c bytes t0 t1).

(** ** Recovery *)

Record RecoveredTransferSummary := mkSummary {
  s_transfer_id : TransferId; s_idempotency_key : bytes; s_role : string; s_remote_path : bytes; s_local_path : bytes; s_file_size : Z;
  s_bytes_completed : Z; s_staging_relpath : bytes; staging_exists : bool; staging_len : Z; chunks_completed : Z; s_status : string; verified : bool }.

Record ResumeRecoveryReport := mkRecovery {
  timestamp_ms : Z; active_transfers_marked_resumable : Z; resumable_count : Z; total_bytes_resumable : Z; total_bytes_completed : Z;
  transfers : list RecoveredTransferSummary; wal_status : option WalCheckpointReport }.

(** [len_of]: the length of a file, where there is one. *)
Definition inspect_transfer (len_of : bytes -> option Z) (r : TransferRecord) (staging_root : option bytes) : M S VelcruxError RecoveredTransferSummary :=
  let! b := ok (read_bitmap (transfer_id r)) in
  let chunks := ChunkBitmap.len (default ChunkBitmap.new b) in
  let found := match staging_root with
               | Some root => if bool_decide (staging_relpath r = []) then None else len_of (join_to root (staging_relpath r))
               | None => None
               end in
  ret (mkSummary (transfer_id r) (idempotency_key r) (role_as_str (role r)) (remote_path r) (local_path r) (file_size r) (bytes_completed r)
         (staging_relpath r) (bool_decide (is_Some found)) (default 0 found) chunks (status_name (status r))
         (match found with Some n => bytes_completed r <=? n | None => true end)).

Fixpoint inspect_all (len_of : bytes -> option Z) (staging_root : option bytes) (l : list TransferRecord) : M S VelcruxError (list RecoveredTransferSummary) :=
  match l with
  | [] => ret []
  | r :: l => let! x := inspect_transfer len_of r staging_root in let! xs := inspect_all len_of staging_root l in ret (x :: xs)
  end.

Definition total (f : TransferRecord -> Z) (l : list TransferRecord) : Z := foldl (fun a r => saturating_add 64 a (f r)) 0 l.

Definition fast_recover_all (len_of : bytes -> option Z) (staging_root : option bytes) (now_ms : Z) : M S VelcruxError ResumeRecoveryReport :=
  let! marked := map_error (fun _ => EInternal "mark active resumable failed") mark_active_transfers_resumable in
  let! l := map_error (fun _ => EInternal "list resumable failed") (list_resumable_transfers None) in
  let! xs := inspect_all len_of staging_root l in
  let! wal := ok (wal_checkpoint Passive) in
  ret (mkRecovery now_ms marked (zlen xs) (total file_size l) (total bytes_completed l) xs wal).

Definition recover_transfer (len_of : bytes -> option Z) (staging_root : option bytes) (id : TransferId) : M S VelcruxError RecoveredTransferSummary :=
  let! r := map_error (fun _ => EInternal "get transfer failed") (get_transfer id) in
  inspect_transfer len_of r staging_root.

Definition prune_stale (max_age_secs : Z) : M S VelcruxError Z :=
  map_error (fun _ => EInternal "prune stale transfers failed") (prune_stale_transfers max_age_secs).
Definition wal_flush (mode : WalCheckpointMode) : M S VelcruxError WalCheckpointReport :=
  map_error (fun _ => EInternal "wal checkpoint failed") (wal_checkpoint mode).
End operations.

(** ** The in-memory store, with calls that can fail *)

Record flaky := mkFlaky { mock : MockStateStore.t; faults : list event; clock : Z }.

(** A call that goes is that of the store; one that fails does nothing. *)
Definition flake {A} (f : MockStateStore.t -> Z -> outcome StateStoreError (A * MockStateStore.t)) : M flaky StateStoreError A := fun s =>
  let keep := mkFlaky (mock s) (tail (faults s)) (clock s) in
  match faults s with
  | Fault _ _ :: _ => (Failed Database, keep)
  | Crash _ :: _ => (Crashed, keep)
  | _ => match f (mock s) (clock s) with
         | Ok (a, g) => (Done a, mkFlaky g (tail (faults s)) (clock s))
         | Err e => (Failed e, keep)
         | Panic => (Crashed, keep)
         end
  end.
Definition unit_ok {E} (o : outcome E MockStateStore.t) : outcome E (unit * MockStateStore.t) := let? g := o in Ok (tt, g).

#[global] Instance flaky_store : StateStore flaky := {
  upsert_transfer r := flake (fun g _ => MockStateStore.upsert_transfer g r);
  update_transfer r := flake (fun g _ => unit_ok (MockStateStore.update_transfer g r));
  get_transfer id := flake (fun g _ => let? r := MockStateStore.get_transfer g id in Ok (r, g));
  write_bitmap id b := flake (fun g _ => unit_ok (MockStateStore.write_bitmap g id b));
  read_bitmap id := flake (fun g _ => let? b := MockStateStore.read_bitmap g id in Ok (b, g));
  write_journal e := flake (fun g _ => Ok (tt, MockStateStore.write_journal g e));
  mark_journal_committed id f := flake (fun g _ => unit_ok (MockStateStore.mark_journal_committed g id f));
  mark_active_transfers_resumable := flake (fun g now => Ok (MockStateStore.mark_active_transfers_resumable g now));
  wal_checkpoint m := flake (fun g _ => Ok (MockStateStore.wal_checkpoint m, g));
  list_resumable_transfers r := flake (fun g _ => Ok (MockStateStore.list_resumable_transfers g r, g));
  prune_stale_transfers age := flake (fun g now => Ok (MockStateStore.prune_stale_transfers g now age)) }.

#[global] Instance flaky_view : StoreView flaky := {
  record_of s id := MockStateStore.transfers_by_id (mock s) !! id;
  bitmap_of s id := MockStateStore.bitmaps (mock s) !! id;
  sane s := MockStateStore.wf (mock s) }.

(** A call that is not done changes nothing, one that is done is that of the store. *)
Lemma flake_cases {A} f s :
  (exists r, @flake A f s = (r, mkFlaky (mock s) (tail (faults s)) (clock s)) /\ forall a, r <> Done a) \/
  exists a g, f (mock s) (clock s) = Ok (a, g) /\ @flake A f s = (Done a, mkFlaky g (tail (faults s)) (clock s)).
Proof.
  unfold flake.
  destruct (faults s) as [|[]]; try (left; eexists; split; [done|]; congruence); (destruct (f (mock s) (clock s)) as [[a g]|e|] eqn:E; [right; by exists a, g|left; eexists; split; [done|]; congruence..]).
Qed.

Ltac flake_case s r Hr a g E :=
  match goal with |- context [flake ?f s] => destruct (flake_cases f s) as [(r & -> & Hr)|(a & g & E & ->)] end.

Lemma listed_resumable g who x : MockStateStore.wf g ->
  x ∈ MockStateStore.list_resumable_transfers g who <->
  MockStateStore.transfers_by_id g !! transfer_id x = Some x /\ status x = Resumable /\ forall t, who = Some t -> role x = t.
Proof.
  intros Hw. unfold MockStateStore.list_resumable_transfers. rewrite merge_sort_Permutation, !list_elem_of_filter.
  assert (x ∈ MockStateStore.records g <-> MockStateStore.transfers_by_id g !! transfer_id x = Some x) as ->.
  { unfold MockStateStore.records. rewrite list_elem_of_fmap. split.
    - intros ([i y] & -> & Hy%elem_of_map_to_list). cbn. by rewrite (MockStateStore.wf_id _ Hw _ _ Hy).
    - intros Hx%elem_of_map_to_list. by exists (transfer_id x, x). }
  split.
  - intros (Hr & Hs & Hx). split; [done|]. split; [done|]. intros t ->. cbn in Hr. by apply bool_decide_eq_true in Hr.
  - intros (Hx & Hs & Hr). split; [|done]. destruct who as [t|]; [|done]. cbn. apply bool_decide_eq_true. by apply Hr.
Qed.

#[global] Instance flaky_laws : StateStoreLaws flaky.
Proof.
  split.
  - intros s id x Hs. apply (MockStateStore.wf_id _ Hs).
  - intros id b s Hs. cbn. flake_case s r Hr a g E.
    + split; [done|]. split; [split; [done|]; by left|]. intros u Hu. by destruct (Hr u).
    + unfold unit_ok in E. destruct (MockStateStore.write_bitmap (mock s) id b) as [g'| |] eqn:Ew; simplify_eq/=.
      assert (MockStateStore.wf g) as Hg by (apply (MockStateStore.step_wf MockStateStore.keeps_key (mock s)); [done|by eapply MockStateStore.step_write_bitmap|done]).
      unfold MockStateStore.write_bitmap in Ew. case_match; simplify_eq/=. split; [done|]. split; [split; [done|]|intros _ _; apply lookup_insert_eq].
      intros i. destruct (decide (i = id)) as [->|Hi]; [right; split; [done|apply lookup_insert_eq]|left; by apply lookup_insert_ne].
  - intros id s Hs. cbn. flake_case s r Hr a g E.
    + split; [done|]. split; [done|]. split; [done|]. intros u Hu. by destruct (Hr u).
    + unfold MockStateStore.get_transfer in E. destruct (MockStateStore.transfers_by_id (mock s) !! id) eqn:El; simplify_eq/=. split_and!; try done. congruence.
  - intros x y s Hs Hy Hr Hk. cbn. flake_case s r Hn a g E.
    + split; [done|]. split; [split; [done|]; by left|]. intros u Hu. by destruct (Hn u).
    + unfold unit_ok in E. destruct (MockStateStore.update_transfer (mock s) x) as [g'| |] eqn:Ew; simplify_eq/=.
      assert (MockStateStore.wf g) as Hg. { apply (MockStateStore.step_wf MockStateStore.keeps_key (mock s)); [done| |done]. eapply MockStateStore.step_update; [|exact Ew]. intros ?. rewrite Hy. unfold MockStateStore.key_of. congruence. }
      unfold MockStateStore.update_transfer in Ew. rewrite Hy in Ew. simplify_eq/=. split; [done|]. split; [split; [done|]|intros _ _; apply lookup_insert_eq].
      intros i. destruct (decide (i = transfer_id x)) as [->|Hi]; [right; split; [done|apply lookup_insert_eq]|left; by apply lookup_insert_ne].
  - intros id s Hs. cbn. flake_case s r Hr a g E.
    + split; [done|]. split; [done|]. split; [done|]. intros u Hu. by destruct (Hr u).
    + unfold MockStateStore.read_bitmap in E. destruct (MockStateStore.transfers_by_id (mock s) !! id); [|done].
      destruct (MockStateStore.bitmaps (mock s) !! id) eqn:El; simplify_eq/=. split_and!; try done. congruence.
  - intros s Hs. cbn. flake_case s r Hr a g E.
    + split; [done|]. split; [done|]. intros n Hn. by destruct (Hr n).
    + injection E as <- <-. split; [by apply MockStateStore.mark_resumable_wf|]. split; [done|]. intros n _. exists (clock s). intros i. cbn. apply lookup_fmap.
  - intros e s Hs. cbn. flake_case s r Hr a g E; [done|]. injection E as <- <-. split; [|done]. apply (MockStateStore.step_wf MockStateStore.keeps_key (mock s)); [done|apply MockStateStore.step_write_journal|done].
  - intros id f s Hs. cbn. flake_case s r Hr a g E; [done|]. unfold unit_ok in E. destruct (MockStateStore.mark_journal_committed (mock s) id f) as [g'| |] eqn:Ew; simplify_eq/=.
    split; [apply (MockStateStore.step_wf MockStateStore.keeps_key (mock s)); [done|by eapply MockStateStore.step_commit|done]|]. unfold MockStateStore.mark_journal_committed in Ew. by repeat case_match; simplify_eq/=.
  - intros m s Hs. cbn. flake_case s r Hr a g E; [done|]. by injection E as <- <-.
  - intros who s Hs. cbn. flake_case s r Hr a g E.
    + split; [done|]. split; [done|]. split; [done|]. intros l Hl. by destruct (Hr l).
    + injection E as <- <-. split; [done|]. split; [done|]. split; [done|]. intros l [= <-] x. apply (listed_resumable _ who x Hs).
Qed.

(** ** What a checkpoint leaves *)

Section commit.
Context {S : Type} `{StateStoreLaws S}.

(** The record has the progress of a bitmap, or the one it had. *)
Lemma record_progress_law id bytes now_ms s : sane s -> let '(r, s') := record_progress id bytes now_ms s in
  sane s' /\ bitmap_of s' = bitmap_of s /\ (forall e, r <> Failed e) /\
  forall i, record_of s' i = record_of s i \/ i = id /\ exists x, record_of s i = Some x /\ record_of s' i = Some (set_progress x bytes now_ms).
Proof.
  intros Hs. unfold record_progress, bind, ok. pose proof (get_transfer_law id s Hs) as Hg. destruct (get_transfer id s) as [[x|e|] s1]; destruct Hg as (Hs1 & Hr1 & Hb1 & Hx).
  - specialize (Hx x eq_refl). pose proof (sane_id s id x Hs Hx) as Hid. unfold ignore.
    pose proof (update_transfer_law (set_progress x bytes now_ms) x s1 Hs1) as Hu. cbn [transfer_id set_progress role idempotency_key] in Hu.
    rewrite Hr1, Hid in Hu. specialize (Hu Hx eq_refl eq_refl). destruct (update_transfer _ s1) as [r s2]. destruct Hu as (Hs2 & [Hb2 Hd2] & _).
    assert (sane s2 /\ bitmap_of s2 = bitmap_of s /\ forall i, record_of s2 i = record_of s i \/ i = id /\ exists y, record_of s i = Some y /\ record_of s2 i = Some (set_progress y bytes now_ms)) as (Ha & Hb & Hc).
    { split; [done|]. split; [congruence|]. intros i. destruct (Hd2 i) as [->|[-> ->]]; [left; by rewrite Hr1|right]. cbn. split; [done|]. exists x. by rewrite Hid. }
    destruct r; by split_and!.
  - split; [done|]. split; [done|]. split; [done|]. rewrite Hr1. by left.
  - split; [done|]. split; [done|]. split; [done|]. rewrite Hr1. by left.
Qed.

Lemma commit_law c id bytes b t0 t1 now_ms s : sane s ->
  let '(r, s') := commit_checkpoint c id bytes b t0 t1 now_ms s in
  sane s' /\
  (forall i, bitmap_of s' i = bitmap_of s i \/ i = id /\ bitmap_of s' i = Some b) /\
  (forall i, record_of s' i = record_of s i \/ i = id /\ exists x, record_of s i = Some x /\ record_of s' i = Some (set_progress x bytes now_ms)) /\
  (forall c', r = Done c' -> bitmap_of s' id = Some b /\ bytes_since_last c' = 0 /\ chunks_since_last c' = 0 /\ last_checkpoint_bytes c' = bytes /\ policy c' = policy c).
Proof.
  intros Hs. unfold commit_checkpoint. unfold bind at 1, map_error. pose proof (write_bitmap_law id b s Hs) as Hw. destruct (write_bitmap id b s) as [[u|e|] s1]; destruct Hw as (Hs1 & [Hr1 Hb1] & Hd1).
  - unfold bind. pose proof (record_progress_law id bytes now_ms s1 Hs1) as Hp. destruct (record_progress id bytes now_ms s1) as [[u'|e|] s2]; destruct Hp as (Hs2 & Hb2 & Hne & Hr2).
    + cbv beta iota delta [ret]. rewrite Hb2. rewrite Hr1 in Hr2. split; [done|]. split; [done|]. split; [done|]. intros c' [= <-]. split; [by eapply Hd1|done].
    + by destruct (Hne e).
    + rewrite Hb2. rewrite Hr1 in Hr2. split; [done|]. split; [done|]. split; done.
  - split; [done|]. split; [done|]. split; [rewrite Hr1; by left|done].
  - split; [done|]. split; [done|]. split; [rewrite Hr1; by left|done].
Qed.

(** A checkpoint. When a checkpoint succeeds the store has the bitmap, and the record has its progress
    or is as it was; the coordinator starts to count anew. When it fails or the process dies in it, bitmap
    and record are, each by itself, the old or the new ones, and nothing of any other transfer changes. *)
Theorem checkpoint_persists c id bytes b t0 t1 now_ms s : sane s ->
  let '(r, s') := commit_checkpoint c id bytes b t0 t1 now_ms s in
  sane s' /\
  (forall i, bitmap_of s' i = bitmap_of s i \/ i = id /\ bitmap_of s' i = Some b) /\
  (forall i, record_of s' i = record_of s i \/ i = id /\ exists x, record_of s i = Some x /\ record_of s' i = Some (set_progress x bytes now_ms)) /\
  (forall c', r = Done c' -> bitmap_of s' id = Some b /\ bytes_since_last c' = 0 /\ chunks_since_last c' = 0 /\ last_checkpoint_bytes c' = bytes /\ policy c' = policy c).
Proof. apply commit_law. Qed.

(** ** What recovery finds *)

(** What is said of a transfer that can be resumed; a bitmap that cannot be read counts no chunk. *)
Definition tells (s : S) (x : TransferRecord) (y : RecoveredTransferSummary) : Prop :=
  s_transfer_id y = transfer_id x /\ s_bytes_completed y = bytes_completed x /\ s_file_size y = file_size x /\
  (chunks_completed y = 0 \/ exists b, bitmap_of s (transfer_id x) = Some b /\ chunks_completed y = ChunkBitmap.len b) /\
  (staging_exists y = true -> verified y = true -> bytes_completed x <= staging_len y).

Lemma inspect_transfer_law len_of x root s : sane s -> let '(r, s') := inspect_transfer len_of x root s in
  sane s' /\ record_of s' = record_of s /\ bitmap_of s' = bitmap_of s /\ (forall e, r <> Failed e) /\ forall y, r = Done y -> tells s x y.
Proof.
  intros Hs. unfold inspect_transfer, bind, ok. pose proof (read_bitmap_law (transfer_id x) s Hs) as Hr.
  destruct (read_bitmap (transfer_id x) s) as [[b|e|] s1]; destruct Hr as (Hs1 & Hr1 & Hb1 & Hd); [| |by split_and!];
    (split; [done|]; split; [done|]; split; [done|]; split; [done|]; intros y [= <-]; split_and!; try done; cbn).
  - right. exists b. split; [by apply Hd|done].
  - destruct (match root with Some _ => _ | None => None end) as [n|]; cbn; [lia|done].
  - by left.
  - destruct (match root with Some _ => _ | None => None end) as [n|]; cbn; [lia|done].
Qed.

Lemma inspect_all_law len_of root l : forall s, sane s -> let '(r, s') := inspect_all len_of root l s in
  sane s' /\ record_of s' = record_of s /\ bitmap_of s' = bitmap_of s /\ forall ys, r = Done ys -> Forall2 (tells s) l ys.
Proof.
  induction l as [|x l IH]; intros s Hs; cbn [inspect_all].
  - split_and!; try done. intros ys [= <-]. constructor.
  - unfold bind at 1. pose proof (inspect_transfer_law len_of x root s Hs) as Hx. destruct (inspect_transfer len_of x root s) as [[y|e|] s1]; destruct Hx as (Hs1 & Hr1 & Hb1 & _ & Hd); try by split_and!.
    unfold bind. specialize (IH s1 Hs1). destruct (inspect_all len_of root l s1) as [[ys|e|] s2]; destruct IH as (Hs2 & Hr2 & Hb2 & Hd2); cbv beta iota delta [ret]; rewrite Hr2, Hb2; try by split_and!.
    split_and!; try done. intros zs [= <-]. constructor; [by apply Hd|]. specialize (Hd2 ys eq_refl). unfold tells in Hd2 |- *. by rewrite Hb1 in Hd2.
Qed.

(** Recovery. After a recovery that succeeds no transfer is active, and the report has exactly one
    summary for each transfer that was active or could be resumed, with the progress of its record, the
    chunks of its bitmap (none where it cannot be read), and, where there is a staging file, whether
    that holds the bytes counted. *)
Theorem recovery_reports len_of root now_ms s : sane s ->
  let '(r, s') := fast_recover_all len_of root now_ms s in
  sane s' /\ bitmap_of s' = bitmap_of s /\
  forall rep, r = Done rep -> exists now l, (forall i, record_of s' i = resumed now <$> record_of s i) /\
    (forall i x, record_of s' i = Some x -> status x <> Active) /\
    (forall x, x ∈ l <-> record_of s' (transfer_id x) = Some x /\ status x = Resumable) /\
    Forall2 (tells s) l (transfers rep) /\ resumable_count rep = zlen l /\ total_bytes_completed rep = total bytes_completed l.
Proof.
  intros Hs. unfold fast_recover_all. unfold bind at 1, map_error. pose proof (mark_law s Hs) as Hm.
  destruct (mark_active_transfers_resumable s) as [[n|e|] s1]; destruct Hm as (Hs1 & Hb1 & Hd1); [|by split_and!..].
  destruct (Hd1 n eq_refl) as [now Hnow]. unfold bind at 1. pose proof (list_law None s1 Hs1) as Hl.
  destruct (list_resumable_transfers None s1) as [[l|e|] s2]; destruct Hl as (Hs2 & Hr2 & Hb2 & Hd2); [|by rewrite Hb2, Hb1..].
  specialize (Hd2 l eq_refl). unfold bind at 1. pose proof (inspect_all_law len_of root l s2 Hs2) as Hi.
  destruct (inspect_all len_of root l s2) as [[ys|e|] s3]; destruct Hi as (Hs3 & Hr3 & Hb3 & Hd3); [|by rewrite Hb3, Hb2, Hb1..].
  specialize (Hd3 ys eq_refl). unfold bind, ok. pose proof (wal_law Passive s3 Hs3) as Hw.
  destruct (wal_checkpoint Passive s3) as [[w|e|] s4]; destruct Hw as (Hs4 & Hr4 & Hb4); cbv beta iota delta [ret]; rewrite Hr4, Hb4, Hb3, Hb2, Hb1; [| |done];
    (split; [done|]; split; [done|]; intros rep [= <-]; exists now, l; rewrite Hr3, Hr2; cbn; split; [done|]; split; [|split; [|split; [|split; [|done]]]]).
  1, 5: intros i x; rewrite Hnow; destruct (record_of s i) as [y|]; cbn; [|done]; intros [= <-]; unfold resumed; case_bool_decide; done.
  1, 4: intros x; rewrite Hd2; naive_solver.
  1, 3: unfold tells in Hd3 |- *; by rewrite Hb2, Hb1 in Hd3.
  all: unfold zlen; by rewrite (Forall2_length _ _ _ Hd3).
Qed.
End commit.

(** ** Examples *)

Module CheckpointExamples.
Abbreviation str := Utf8.str_bytes.
Definition c0 : CheckpointCoordinator := with_defaults 0.
Definition T1 : TransferId := replicate 16 0.
Definition rec1 : TransferRecord :=
  mk_record T1 (str "tx-cp") Server Upload Active (str "upload/target.bin") [] 10000 (replicate 32 0) 0 0 0 (str "staging.tmp") 100 100.
Definition store_of (es : list event) : flaky :=
  match MockStateStore.upsert_transfer MockStateStore.new rec1 with Ok (_, g) => mkFlaky g es 700 | _ => mkFlaky MockStateStore.new es 700 end.
Definition two : ChunkBitmap.t := (ChunkBitmap.mark_complete (ChunkBitmap.mark_complete ChunkBitmap.new 0 1024).1 1 1024).1.

Lemma store_sane es : sane (store_of es).
Proof.
  assert (MockStateStore.wf MockStateStore.new) as Hn by apply MockStateStore.new_wf.
  destruct (MockStateStore.upsert_transfer MockStateStore.new rec1) as [[o g]| |] eqn:E; [|vm_compute in E; done..].
  change (MockStateStore.wf (mock (store_of es))). unfold store_of. rewrite E. cbn [mock].
  apply (MockStateStore.step_wf MockStateStore.keeps_key MockStateStore.new); [done| |done]. by eapply MockStateStore.step_upsert.
Qed.

Lemma checkpoint_persists_witness :
  let '(r, s') := commit_checkpoint c0 T1 2048 two 5 9 800 (store_of [Go; Go; Fault 0 []]) in
  sane s' /\
  (forall i, bitmap_of s' i = bitmap_of (store_of [Go; Go; Fault 0 []]) i \/ i = T1 /\ bitmap_of s' i = Some two) /\
  (forall i, record_of s' i = record_of (store_of [Go; Go; Fault 0 []]) i \/
     i = T1 /\ exists x, record_of (store_of [Go; Go; Fault 0 []]) i = Some x /\ record_of s' i = Some (set_progress x 2048 800)) /\
  (forall c', r = Done c' -> bitmap_of s' T1 = Some two /\ bytes_since_last c' = 0 /\ chunks_since_last c' = 0 /\ last_checkpoint_bytes c' = 2048 /\ policy c' = policy c0).
Proof. apply (checkpoint_persists c0 T1 2048 two 5 9 800 (store_of [Go; Go; Fault 0 []])). apply store_sane. Defined.

Lemma recovery_reports_witness :
  let s := store_of [] in let '(r, s') := fast_recover_all (fun _ => Some 512) (Some (str "/srv")) 900 s in
  sane s' /\ bitmap_of s' = bitmap_of s /\
  forall rep, r = Done rep -> exists now l, (forall i, record_of s' i = resumed now <$> record_of s i) /\
    (forall i x, record_of s' i = Some x -> status x <> Active) /\
    (forall x, x ∈ l <-> record_of s' (transfer_id x) = Some x /\ status x = Resumable) /\
    Forall2 (tells s) l (transfers rep) /\ resumable_count rep = zlen l /\ total_bytes_completed rep = total bytes_completed l.
Proof. apply (recovery_reports (fun _ => Some 512) (Some (str "/srv")) 900 (store_of [])). apply store_sane. Defined.

(** The unit tests of the module. *)
Definition by_bytes : CheckpointPolicy := mkPolicy 1000 (3600 * SECONDS) 0 false.
Example trigger_by_bytes :
  let c := coordinator_new by_bytes (mkStats 0 0 0) 0 in
  let '(c, a) := observe_chunk c 500 1 in let '(c, b) := observe_chunk c 499 2 in let '(c, d) := observe_chunk c 1 3 in
  (a, b, d) = (false, false, true).
Proof. reflexivity. Qed.
Example trigger_by_chunks :
  let c := coordinator_new (mkPolicy 0 (3600 * SECONDS) 3 false) (mkStats 0 0 0) 0 in
  let '(c, a) := observe_chunk c 10 1 in let '(c, b) := observe_chunk c 10 2 in let '(c, d) := observe_chunk c 10 3 in
  (a, b, d) = (false, false, true).
Proof. reflexivity. Qed.
Example commit_updates : let '(r, s) := commit_checkpoint c0 T1 2048 two 5 9 800 (store_of []) in
  (exists c, r = Done c /\ checkpoints_total (stats c) = 1) /\ record_of s T1 = Some (set_progress rec1 2048 800).
Proof. split; [eexists; split; vm_compute; reflexivity|vm_compute; reflexivity]. Qed.

(** A checkpoint counts as done when the progress could not be written: the record then says fewer bytes
    than the bitmap. *)
Example progress_lost : let '(r, s) := commit_checkpoint c0 T1 2048 two 5 9 800 (store_of [Go; Go; Fault 0 []]) in
  (exists c, r = Done c /\ last_checkpoint_bytes c = 2048) /\ bitmap_of s T1 = Some two /\ record_of s T1 = Some rec1.
Proof. split; [eexists; split; vm_compute; reflexivity|split; vm_compute; reflexivity]. Qed.

(** A transfer whose staging file is gone counts as verified. *)
Definition rec_done : TransferRecord := set_progress rec1 9000 800.
Example missing_staging_verified : let '(r, _) := inspect_transfer (fun _ => None) rec_done (Some (str "/srv")) (store_of []) in
  exists y, r = Done y /\ staging_exists y = false /\ s_bytes_completed y = 9000 /\ verified y = true.
Proof. eexists. split; [vm_compute; reflexivity|done]. Qed.

(** Whether the staging file is to be synced changes nothing of a checkpoint. *)
Lemma fsync_ignored p f st now id bytes b t0 t1 now_ms (s : flaky) :
  let c v := coordinator_new (mkPolicy (bytes_threshold p) (time_interval p) (chunk_threshold p) v) st now in
  (commit_checkpoint (c f) id bytes b t0 t1 now_ms s).2 = (commit_checkpoint (c (negb f)) id bytes b t0 t1 now_ms s).2.
Proof. cbn zeta. unfold commit_checkpoint, bind. destruct (map_error _ _ s) as [[] s1]; try done. by destruct (record_progress id bytes now_ms s1) as [[] ]. Qed.
End CheckpointExamples.
