(* ===== verification/Upload.v ===== *)
(** * An upload, transfer/engine.rs and the staging files of storage/mod.rs

    [LocalFilesystemBackend] as far as an upload uses it, the server's half of a single-stream upload
    ([server_upload_session_with_limits]), and the client's half ([client_upload_stream]). The two sides
    are computations over a [session]: the state store, the files, what is still to be received and what was
    sent, and the readings of clocks to come. A call of the files, of the store or a send can fail, or the
    process can die in it. Rate limits and progress reports change nothing of this and are left out, so are the
    texts of i/o errors. *)

From Stdlib Require Import QArith.
From S2P Require Import Prelude Utf8 Protocol Varint Wire Paths Bitmap StateStore Chunking ChunkEngine FileSys CasGc Frame Compression DataPath MsgTransfer MsgResume Message Session DeltaSync Checkpoint.
Import Str.
Open Scope Z_scope.

(** ** A session *)

Record session (S : Type) := mkSession {
  store : S; files : fs; data_in : RecvStream; ctl_in : RecvStream; data_out : bytes; ctl_out : bytes; ticks : list Z }.
Arguments mkSession {S} _ _ _ _ _ _ _.
Arguments store {S} _.
Arguments files {S} _.
Arguments data_in {S} _.
Arguments ctl_in {S} _.
Arguments data_out {S} _.
Arguments ctl_out {S} _.
Arguments ticks {S} _.

Definition io_error (e : bytes) : VelcruxError := EIo "i/o error".
Definition protocol_violation (detail : string) : VelcruxError := EProtocol (InvalidStateTransition detail).

Section lifts.
Context {S : Type}.
Local Abbreviation N A := (M (session S) VelcruxError A).

Definition on_files {A} (c : M fs bytes A) : N A := fun x =>
  let '(r, w) := map_error io_error c (files x) in
  (r, mkSession (store x) w (data_in x) (ctl_in x) (data_out x) (ctl_out x) (ticks x)).
Definition on_store {E A} (c : M S E A) : M (session S) E A := fun x =>
  let '(r, s) := c (store x) in (r, mkSession s (files x) (data_in x) (ctl_in x) (data_out x) (ctl_out x) (ticks x)).
(** A panic ends the task. *)
Definition of_outcome {A} (o : outcome VelcruxError A) : N A := fun x =>
  match o with Ok a => (Done a, x) | Err e => (Failed e, x) | Panic => (Crashed, x) end.
Definition of_protocol {A} (o : presult A) : N A := of_outcome (map_err EProtocol o).

(** The next reading of a clock. *)
Definition read_clock : N Z := fun x =>
  (Done (default 0 (head (ticks x))), mkSession (store x) (files x) (data_in x) (ctl_in x) (data_out x) (ctl_out x) (tail (ticks x))).

Definition recv_data (n : Z) : N (option bytes) := fun x =>
  match Session.read_exact n (data_in x) with
  | Ok (Some (b, s)) => (Done (Some b), mkSession (store x) (files x) s (ctl_in x) (data_out x) (ctl_out x) (ticks x))
  | Ok None => (Done None, x)
  | Err e => (Failed e, x)
  | Panic => (Crashed, x)
  end.

(** [write_all] on a stream: a send that fails may have sent the first bytes. *)
Definition transmit (put : bytes -> session S -> session S) (b : bytes) : N unit := fun x =>
  let w := files x in
  let x := mkSession (store x) (mkWorld (disk w) (docs w) (tail (events w)) (now w)) (data_in x) (ctl_in x) (data_out x) (ctl_out x) (ticks x) in
  match events w with
  | [] | Go :: _ => (Done tt, put b x)
  | Fault n _ :: _ => (Failed (ETransport "write failed"), put (take n b) x)
  | Crash n :: _ => (Crashed, put (take n b) x)
  end.
Definition send_data : bytes -> N unit :=
  transmit (fun b x => mkSession (store x) (files x) (data_in x) (ctl_in x) (data_out x ++ b) (ctl_out x) (ticks x)).
Definition send_ctl : bytes -> N unit :=
  transmit (fun b x => mkSession (store x) (files x) (data_in x) (ctl_in x) (data_out x) (ctl_out x ++ b) (ticks x)).
End lifts.

(** ** Control frames as the engine reads them: nothing is decompressed, an end of the stream is an error *)

Definition need {A} (r : option A) : outcome VelcruxError A := match r with Some a => Ok a | None => Err (EProtocol Empty) end.
Definition read_control_frame (recv : RecvStream) : outcome VelcruxError (Frame.t * RecvStream) :=
  let? r := Session.read_exact 5 recv in let? '(buf, recv) := need r in
  let? r := Session.read_varint_tail 11 buf 1 recv in let? '(buf, _, recv) := need r in
  let? rest := slice_from buf 4 in
  let? '(declared_length, _) := map_err EProtocol (Varint.decode_varint rest) in
  let max := Frame.max_message_size in
  if max <? declared_length then Err (EProtocol (FrameTooLarge declared_length max)) else
  let? r := Session.read_exact 8 recv in let? '(rid, recv) := need r in
  let buf := buf ++ rid in
  let? r := if declared_length =? 0 then Ok (Some ([], recv)) else Session.read_exact declared_length recv in let? '(payload, recv) := need r in
  let buf := buf ++ payload in
  let? frame := map_err EProtocol (Frame.decode_frame buf) in
  Ok (frame, recv).

Definition recv_ctl {S} : M (session S) VelcruxError Frame.t := fun x =>
  match read_control_frame (ctl_in x) with
  | Ok (f, s) => (Done f, mkSession (store x) (files x) (data_in x) s (data_out x) (ctl_out x) (ticks x))
  | Err e => (Failed e, x)
  | Panic => (Crashed, x)
  end.

(** ** The storage *)

(** [available]: the free space, where it can be told. *)
Record Backend := mkBackend { root : bytes; staging_dir : bytes; min_free_space : Z; preallocate : bool; available : option Z }.

Definition resolve (b : Backend) (p : bytes) : bytes := join_to (root b) p.
(** Joining the empty path adds a separator that names do not see. *)
Definition staging_path (b : Backend) (id p : bytes) : bytes :=
  let dir := join_to (staging_dir b) (CasGc.Staging.safe_tid id) in
  let out := match p with [] => dir | _ => join_to dir p end in
  let '(d, name) := dir_and_name out in
  let '(stem, e) := stem_and_extension name in
  d ++ stem ++ [DOT] ++ default [] e ++ lit ".velcrux-partial".

(** [w_err]: the error of the last write of the file, which the next one reports. *)
Record StagingWriter := mkWriter { w_path : bytes; written : Z; w_err : option bytes }.

(** [OpenOptions::create(true).write(true).truncate(t).open]. *)
Definition open_file (p : bytes) (truncate : bool) : M fs bytes unit :=
  call (fun w => (Done tt, if truncate then set_disk <[p := []]> w else match disk w !! p with Some _ => w | None => set_disk <[p := []]> w end)) nothing.
Definition try_exists (p : bytes) : M fs bytes bool := call (fun w => (Done (bool_decide (is_Some (disk w !! p))), w)) nothing.
(** [fallocate]: a file that is shorter gets that length. *)
Definition allocate (p : bytes) (n : Z) : M fs bytes unit :=
  call (fun w => (Done tt, edit p (fun c => c ++ replicate (Z.to_nat (n - zlen c)) 0) w)) nothing.
Definition sync_all : M fs bytes unit := call (fun w => (Done tt, w)) nothing.
Definition FILE_MAX : Z := 2 ^ 63 - 1.
Definition EINVAL : bytes := lit "Invalid argument (os error 22)".
Definition EFBIG : bytes := lit "File too large (os error 27)".
Definition seek : M fs bytes unit := call (fun w => (Done tt, w)) nothing.
(** [tokio::fs::File] takes the bytes of a write in pieces of at most [MAX_BUF] and writes each in the
    background: it waits for a piece before it takes the next, and does not wait for the last one. A write
    that fails after [n] bytes is reported at once when more than the last piece was to come, and otherwise
    when the next bytes are written; a sync waits for the piece and does not report it. A process that dies
    with a piece in the background leaves what such a failure leaves. *)
Definition MAX_BUF : Z := 2 * 1024 * 1024.
Definition late (b : bytes) (n : Z) : bool := (zlen b - 1) / MAX_BUF * MAX_BUF <=? n.
Definition background_write (p : bytes) (off : Z) (b : bytes) : M fs bytes (option bytes) := fun w =>
  if FILE_MAX <? off + zlen b then (if late b 0 then (Done (Some EFBIG), w) else (Failed EFBIG, w))
  else
    match write_at p off b w with
    | (Done _, w') => (Done None, w')
    | (Failed e, w') => if late b (match events w with Fault n _ :: _ => Z.of_nat n | _ => 0 end) then (Done (Some e), w') else (Failed e, w')
    | (Crashed, w') => (Crashed, w')
    end.
(** [seek] and [write_all] on a file whose last write left [err]; no file is longer than [FILE_MAX]. *)
Definition seek_write (p : bytes) (err : option bytes) (off : Z) (b : bytes) : M fs bytes (option bytes) :=
  if FILE_MAX <? off then throw EINVAL else
  let! _ := seek in
  match b, err with
  | [], _ => ret err
  | _, Some e => throw e
  | _, None => background_write p off b
  end.

Section storage.
Context {S : Type} (no_space : bytes -> bool).
Local Abbreviation N A := (M (session S) VelcruxError A).

Definition check_space (b : Backend) (size_hint : Z) : outcome VelcruxError unit :=
  if ((0 <? min_free_space b) || preallocate b) && (0 <? size_hint) then
    match available b with
    | Some avail => if avail <? saturating_add 64 size_hint (min_free_space b) then Err (EProtocol (DiskFull "insufficient disk space")) else Ok tt
    | None => Ok tt
    end
  else Ok tt.

(** [no_space] tells [ENOSPC] and errors of no known kind. *)
Definition reserve (b : Backend) (path : bytes) (size_hint : Z) (resumed : bool) : M fs VelcruxError unit :=
  if preallocate b && (0 <? size_hint) then
    let! r := attempt (allocate path size_hint) in
    match r with
    | inr _ => ret tt
    | inl e => if no_space e then throw (EProtocol (DiskFull "preallocation fallocate failed")) else ignore (set_len path size_hint)
    end
  else when ((0 <? size_hint) && negb resumed) (ignore (set_len path size_hint)).

(** A computation of the files with errors of its own. *)
Definition with_files {A} (c : M fs VelcruxError A) : N A := fun x =>
  let '(r, w) := c (files x) in (r, mkSession (store x) w (data_in x) (ctl_in x) (data_out x) (ctl_out x) (ticks x)).

Definition open_staging_resumable (b : Backend) (id p : bytes) (size_hint : Z) (resumed : bool) : N StagingWriter :=
  let! _ := of_outcome (check_space b size_hint) in
  let path := staging_path b id p in
  let! _ := on_files (create_parents path) in
  let! r := with_files (ok (try_exists path)) in
  let existed := default false r in
  let truncate := if resumed && existed then false else true in
  let! _ := on_files (open_file path truncate) in
  let! _ := with_files (reserve b path size_hint resumed) in
  let! n := if resumed && existed then with_files (let! r := ok (file_len path) in ret (default 0 r)) else ret 0 in
  ret (mkWriter path n None).

Definition writer_write_at (w : StagingWriter) (off : Z) (data : bytes) : N StagingWriter :=
  let! err := on_files (seek_write (w_path w) (w_err w) off data) in
  let last := off + zlen data in
  ret (mkWriter (w_path w) (if written w <? last then last else written w) err).
Definition fsync (w : StagingWriter) : N unit := on_files sync_all.

(** Rename, then open and sync the directory. *)
Definition commit (b : Backend) (staging dest : bytes) : N unit :=
  let dest_path := resolve b dest in
  let! _ := on_files (create_parents dest_path) in
  let! _ := on_files (rename_file staging dest_path) in
  let! _ := on_files sync_all in
  on_files sync_all.
End storage.

(** ** The server's half *)

Definition M3_CHUNK_SIZE : Z := 1024 * 1024.
Definition DELTA_CHUNK_SIZE : Z := 64 * 1024.

(** What both sides know of the transfer. [ulid_text] prints an id; [hash_of] is BLAKE3. *)
Record job := mkJob { tid : TransferId; size : Z; whole : Hash }.
Definition HASH_ZERO : Hash := replicate 32 0.

Section engine.
Context `{Zstd} {S : Type} `{StateStore S}.
Context (entropy_sum : list Z -> Z -> Q) (centibits : Q -> Z).
Context (hash_of : bytes -> Hash) (ulid_text : TransferId -> bytes) (no_space : bytes -> bool).
Local Abbreviation N A := (M (session S) VelcruxError A).

Definition of_zeros (n : Z) : Hash := hash_of (replicate (Z.to_nat n) 0).

(** The next DATA frame with its contents, checked; [None] at the end of the stream. *)
Definition recv_chunk : N (option (Data.DataFrameHeader * bytes)) :=
  let! header := recv_data Data.DATA_FRAME_HEADER_LEN in
  match header with
  | None => ret None
  | Some header_bytes =>
      let! '(hdr, _) := of_protocol (Data.decode_data_frame_header header_bytes) in
      let hole := Data.is_hole (Data.flags hdr) in
      let payload_len := if hole then 0 else Data.chunk_len hdr in
      let! payload := if 0 <? payload_len
                      then let! r := recv_data payload_len in
                           match r with Some b => ret b | None => throw (protocol_violation "upload: chunk payload shorter than declared (stream EOF)") end
                      else ret [] in
      let! '(chunk_data, computed) :=
        (if hole then ret ([], of_zeros (Data.chunk_len hdr))
         else let! data := (if Data.compressed (Data.flags hdr)
                            then of_protocol (Compression.decompress_payload_bounded payload Limits.MAX_CHUNK_SIZE (Some 500))
                            else ret payload) in
              ret (data, hash_of data)) in
      if negb (bool_decide (computed = Data.chunk_hash hdr)) then throw (EProtocol (Malformed "upload: chunk hash mismatch"))
      else ret (Some (hdr, chunk_data))
  end.

(** The bitmap, the writer and the bytes counted. *)
Record intake := mkIntake { bm : ChunkBitmap.t; writer : StagingWriter; received : Z }.

Definition put_chunk (chunk_size : Z) (streaming : bool) (k : intake) (hdr : Data.DataFrameHeader) (chunk_data : bytes) : N intake :=
  let chunk_index := Data.chunk_offset hdr / chunk_size in
  if streaming || negb (ChunkBitmap.contains (bm k) chunk_index) then
    let! w := (if Data.is_hole (Data.flags hdr) then ret (writer k) else writer_write_at (writer k) (Data.chunk_offset hdr) chunk_data) in
    let bm := if streaming then bm k else (ChunkBitmap.mark_complete (bm k) chunk_index (Data.chunk_len hdr)).1 in
    ret (mkIntake bm w (saturating_add 64 (received k) (Data.chunk_len hdr)))
  else ret k.

(** [has_store]: a state store was given. *)
Definition progress_of (has_store : bool) (id : TransferId) (k : intake) (c : CheckpointCoordinator) (chunk_len : Z) : N CheckpointCoordinator :=
  if negb has_store then ret c
  else
    let! now := read_clock in
    let '(c, due) := observe_chunk c chunk_len now in
    if due then
      let! _ := when (fsync_staging (policy c)) (ignore (fsync (writer k))) in
      let! t0 := read_clock in let! now_ms := read_clock in let! t1 := read_clock in
      let! r := attempt (on_store (commit_checkpoint c id (received k) (bm k) t0 t1 now_ms)) in
      ret (match r with inr c' => c' | inl _ => c end)
    else ret c.

(** Every round takes a header from the stream: its length is enough fuel, and one more for the end. *)
Fixpoint receive (fuel : nat) (has_store : bool) (chunk_size : Z) (streaming : bool) (id : TransferId) (k : intake) (c : CheckpointCoordinator) : N intake :=
  match fuel with
  | O => fun x => (Crashed, x)
  | Datatypes.S fuel =>
      let! r := recv_chunk in
      match r with
      | None => ret k
      | Some (hdr, chunk_data) =>
          let! k := put_chunk chunk_size streaming k hdr chunk_data in
          let! c := progress_of has_store id k c (Data.chunk_len hdr) in
          receive fuel has_store chunk_size streaming id k c
      end
  end.

(** The data stream, to the staging file and the bitmap. *)
Definition receive_stream (b : Backend) (has_store : bool) (resumed : bool) (j : job) (dst : bytes) (chunk_size : Z) (bitmap : ChunkBitmap.t) : N intake :=
  let! pre := recv_data Data.DATA_PREAMBLE_LEN in
  let! pre := of_outcome (need pre) in
  let! preamble := of_protocol (Data.decode_data_preamble pre) in
  if negb (bool_decide (Data.transfer_id preamble = tid j)) then throw (protocol_violation "upload: transfer_id mismatch in preamble") else
  let! w := open_staging_resumable no_space b (ulid_text (tid j)) dst (size j) resumed in
  let! now := read_clock in
  let c := with_defaults now in
  let! k := (fun x => receive (Datatypes.S (length (avail (data_in x)))) has_store chunk_size (bool_decide (whole j = HASH_ZERO)) (tid j)
                        (mkIntake bitmap w (ChunkBitmap.bytes_completed bitmap)) c x) in
  let! _ := fsync (writer k) in
  ret k.

(** CHECKPOINT frames are taken until another frame comes; each takes bytes of the stream. *)
Definition take_checkpoint (has_store : bool) (id : TransferId) (bitmap : ChunkBitmap.t) (payload : bytes) : N unit :=
  match MsgResume.Checkpoint.decode payload with
  | Ok cp =>
      when has_store (
        let! _ := ignore (on_store (write_bitmap id bitmap)) in
        let! r := ok (on_store (get_transfer id)) in
        match r with
        | Some r => ignore (on_store (update_transfer (mk_record (transfer_id r) (idempotency_key r) (role r) (direction r) (status r) (remote_path r)
                      (local_path r) (file_size r) (file_hash r) (verified_up_to r) (MsgResume.Checkpoint.ts_ms cp) (MsgResume.Checkpoint.bytes_transferred cp)
                      (staging_relpath r) (created_ms r) (updated_ms r))))
        | None => ret tt
        end)
  | Err _ => ret tt
  | Panic => fun x => (Crashed, x)
  end.
Fixpoint await_verify (fuel : nat) (has_store : bool) (id : TransferId) (bitmap : ChunkBitmap.t) : N Frame.t :=
  match fuel with
  | O => fun x => (Crashed, x)
  | Datatypes.S fuel =>
      let! f := recv_ctl in
      if Frame.type_byte f =? Message.CHECKPOINT then
        let! _ := take_checkpoint has_store id bitmap (Frame.payload f) in await_verify fuel has_store id bitmap
      else ret f
  end.

Definition say (msg : Message.t) : N unit := let! buf := of_outcome (Session.encode_message entropy_sum msg 0) in send_ctl buf.

(** VERIFY and its answer. *)
Definition answer_verify (j : job) (computed : Hash) (f : Frame.t) : N unit :=
  if negb (Frame.type_byte f =? Message.VERIFY) then throw (protocol_violation "server: expected VERIFY") else
  let! v := of_protocol (Verify.decode (Frame.payload f)) in
  if negb (bool_decide (Verify.transfer_id v = tid j)) || negb (bool_decide (whole j = HASH_ZERO)) && negb (bool_decide (Verify.expected_hash v = whole j))
  then throw (protocol_violation "server: VERIFY transfer_id/hash mismatch") else
  let good := if negb (bool_decide (whole j = HASH_ZERO)) then bool_decide (computed = whole j) else bool_decide (computed = Verify.expected_hash v) in
  let! _ := say (Message.MVerifyResult (VerifyResult.mk (tid j) good computed)) in
  if negb good then throw (EProtocol (Malformed "server: hash mismatch on verify")) else ret tt.

(** COMMIT: the journal says [Renamed], the file is renamed, the journal says [Committed]. *)
Definition finish_commit (b : Backend) (has_store : bool) (j : job) (dst staging : bytes) : N unit :=
  let! f := recv_ctl in
  if negb (Frame.type_byte f =? Message.COMMIT) then throw (protocol_violation "server: expected COMMIT") else
  let! m := of_protocol (Commit.decode (Frame.payload f)) in
  if negb (bool_decide (Commit.transfer_id m = tid j)) then throw (protocol_violation "server: COMMIT transfer_id mismatch") else
  let! now := read_clock in
  let! _ := when has_store (ignore (on_store (write_journal (mk_entry (tid j) 1 dst CRenamed now)))) in
  let! actual_size := (if 0 <? size j then ret (size j) else with_files (let! r := ok (file_len staging) in ret (default 0 r))) in
  let! _ := commit b staging dst in
  let! _ := when has_store (ignore (on_store (mark_journal_committed (tid j) 1))) in
  say (Message.MCommitted (Committed.mk (tid j) 1)).

Definition compute_staging_hash (b : Backend) (id p : bytes) : N Hash :=
  let! c := on_files (read_file (staging_path b id p)) in ret (hash_of c).

Definition server_upload_session_with_limits (b : Backend) (has_store resumed : bool) (j : job) (dst : bytes) (initial_bitmap : option ChunkBitmap.t) : N Hash :=
  let is_delta := bool_decide (is_Some initial_bitmap) in
  let! bitmap := match initial_bitmap with
                 | Some bm => ret bm
                 | None => if has_store && resumed
                           then let! r := ok (on_store (read_bitmap (tid j))) in ret (default ChunkBitmap.new r)
                           else ret ChunkBitmap.new
                 end in
  let chunk_size := if is_delta then DELTA_CHUNK_SIZE else M3_CHUNK_SIZE in
  let! k := receive_stream b has_store resumed j dst chunk_size bitmap in
  let! _ := when has_store (ignore (on_store (write_bitmap (tid j) (bm k)))) in
  let! computed := compute_staging_hash b (ulid_text (tid j)) dst in
  let! f := (fun x => await_verify (Datatypes.S (length (avail (ctl_in x)))) has_store (tid j) (bm k) x) in
  let! _ := answer_verify j computed f in
  let! _ := finish_commit b has_store j dst (w_path (writer k)) in
  ret computed.

(** ** The client's half *)

Record PipelineConfig := mkConfig { read_buffer_size : Z; chunk_mode : ChunkMode; chunk_params : ChunkParams.t; compression : bool }.
Definition config_default : PipelineConfig := mkConfig (2 * 1024 * 1024) Cdc ChunkParams.default false.

Definition div_ceil (a b : Z) : outcome VelcruxError Z := if b =? 0 then Panic else Ok ((a + b - 1) / b).
Definition first_missing (bitmap : ChunkBitmap.t) (from total : Z) : N Z :=
  let! r := of_outcome (map_err (fun e : Empty_set => match e with end) (ChunkBitmap.first_missing_from bitmap from)) in ret (default total r).

Definition fixed_chunk_size (cfg : PipelineConfig) (file_size : Z) (bitmap : ChunkBitmap.t) : outcome VelcruxError Z :=
  match chunk_mode cfg with
  | Fixed => Ok (ChunkParams.target (chunk_params cfg))
  | _ =>
      let? n := div_ceil file_size M3_CHUNK_SIZE in
      Ok (if (0 <? ChunkBitmap.len bitmap) && (n <? ChunkBitmap.len bitmap) then DELTA_CHUNK_SIZE else M3_CHUNK_SIZE)
  end.

(** The frame of a chunk, with the state of the adaptive compression. *)
Definition encode_chunk (cfg : PipelineConfig) (sel : Compression.AdaptiveCompressionSelector) (offset : Z) (buf : bytes)
  : outcome VelcruxError (bytes * Compression.AdaptiveCompressionSelector) :=
  if compression cfg
  then let? '(b, _, _, sel) := DataPath.encode_data_frame_adaptive entropy_sum centibits offset (hash_of buf) buf sel in Ok (b, sel)
  else let? '(b, _) := DataPath.encode_data_frame_maybe_compressed entropy_sum offset (hash_of buf) buf false in Ok (b, sel).

(** A chunk of the open file: a read that comes short is followed by one that finds the end. *)
Definition read_chunk (content : bytes) (offset want : Z) : N bytes :=
  let! b := on_files (read_at content offset want) in
  if zlen b =? want then ret b else throw (EInternal "file truncated").

Definition note_progress (has_store : bool) (id : TransferId) (bitmap : ChunkBitmap.t) (c : CheckpointCoordinator) (chunk_len : Z) : N CheckpointCoordinator :=
  if negb has_store then ret c
  else
    let! now := read_clock in
    let '(c, due) := observe_chunk c chunk_len now in
    if due then
      let! t0 := read_clock in let! now_ms := read_clock in let! t1 := read_clock in
      let! r := attempt (on_store (commit_checkpoint c id (ChunkBitmap.bytes_completed bitmap) bitmap t0 t1 now_ms)) in
      ret (match r with inr c' => c' | inl _ => c end)
    else ret c.

(** [while next_chunk < total_chunks]: every round has a larger index, so their number is enough fuel. *)
Fixpoint send_missing (fuel : nat) (cfg : PipelineConfig) (has_store : bool) (j : job) (content : bytes) (chunk_size total_chunks : Z)
    (bitmap : ChunkBitmap.t) (c : CheckpointCoordinator) (sel : Compression.AdaptiveCompressionSelector) (next_chunk : Z) : N ChunkBitmap.t :=
  if next_chunk <? total_chunks then
    match fuel with
    | O => fun x => (Crashed, x)
    | Datatypes.S fuel =>
        let offset := next_chunk * chunk_size in
        let want := Z.min (size j - offset) chunk_size in
        let! buf := read_chunk content offset want in
        let bitmap := (ChunkBitmap.mark_complete bitmap next_chunk want).1 in
        let! '(bytes, sel) := of_outcome (encode_chunk cfg sel offset buf) in
        let! _ := send_data bytes in
        let! c := note_progress has_store (tid j) bitmap c want in
        let! next_chunk := first_missing bitmap (next_chunk + 1) total_chunks in
        send_missing fuel cfg has_store j content chunk_size total_chunks bitmap c sel next_chunk
    end
  else ret bitmap.

Definition send_fixed (cfg : PipelineConfig) (has_store : bool) (j : job) (local_path : bytes) (bitmap : ChunkBitmap.t) : N ChunkBitmap.t :=
  let! chunk_size := of_outcome (fixed_chunk_size cfg (size j) bitmap) in
  let! total_chunks := of_outcome (div_ceil (size j) chunk_size) in
  let! content := on_files (read_file local_path) in
  let! next_chunk := first_missing bitmap 0 total_chunks in
  let! now := read_clock in
  send_missing (Z.to_nat total_chunks) cfg has_store j content chunk_size total_chunks bitmap (with_defaults now) Compression.selector_with_defaults next_chunk.

(** The frames of the chunks that end in the bytes read so far. *)
Fixpoint send_boundaries (cfg : PipelineConfig) (pending : bytes) (pending_offset : Z) (l : list ChunkBoundary) : N (bytes * Z) :=
  match l with
  | [] => ret (pending, pending_offset)
  | b :: l =>
      let need := boundary_end b - pending_offset in
      let! payload := of_outcome (slice pending 0 need) in
      let! '(bytes, _) := of_outcome (DataPath.encode_data_frame_maybe_compressed entropy_sum pending_offset (hash_of payload) payload (compression cfg)) in
      let! _ := send_data bytes in
      send_boundaries cfg (drop (Z.to_nat need) pending) (boundary_end b) l
  end.
(** Every round but the last reads a byte or more. *)
Fixpoint chunk_to_stream (fuel : nat) (cfg : PipelineConfig) (content : bytes) (off : Z) (chunker : AnyChunker) (pending : bytes) (pending_offset : Z) : N unit :=
  match fuel with
  | O => fun x => (Crashed, x)
  | Datatypes.S fuel =>
      let! buf := on_files (read_at content off (read_buffer_size cfg)) in
      if zlen buf =? 0 then
        if bool_decide (pending = []) then ret tt
        else let! '(bytes, _) := of_outcome (DataPath.encode_data_frame_maybe_compressed entropy_sum pending_offset (hash_of pending) pending (compression cfg)) in
             send_data bytes
      else
        let! '(chunker, l) := of_protocol (any_push chunker buf) in
        let! '(pending, pending_offset) := send_boundaries cfg (pending ++ buf) pending_offset l in
        chunk_to_stream fuel cfg content (off + zlen buf) chunker pending pending_offset
  end.
Definition send_cdc (cfg : PipelineConfig) (local_path : bytes) : N unit :=
  let! content := on_files (read_file local_path) in
  chunk_to_stream (Datatypes.S (length content)) cfg content 0 (create_chunker (chunk_mode cfg) (chunk_params cfg)) [] 0.

(** The whole data stream; the result is the client's bitmap. *)
Definition send_stream (cfg : PipelineConfig) (has_store : bool) (j : job) (local_path : bytes) (bitmap : ChunkBitmap.t) : N ChunkBitmap.t :=
  let! pre := of_outcome (Data.encode_data_preamble (Data.mk_preamble (tid j) 1 1)) in
  let! _ := send_data pre in
  if (0 <? ChunkBitmap.len bitmap) || match chunk_mode cfg with Fixed => true | _ => false end
  then send_fixed cfg has_store j local_path bitmap
  else let! _ := send_cdc cfg local_path in ret bitmap.

(** The names of the transfer, in the client's record. *)
Definition register (has_store : bool) (j : job) (key local_path remote_path : bytes) (bitmap : ChunkBitmap.t) : N unit :=
  let! now := read_clock in
  when has_store (ignore (on_store (upsert_transfer
    (mk_record (tid j) key Client Upload Active remote_path local_path (size j) (whole j) 0 now (ChunkBitmap.bytes_completed bitmap) [] now now)))).

Definition set_committed (r : TransferRecord) (file_size now : Z) : TransferRecord :=
  mk_record (transfer_id r) (idempotency_key r) (role r) (direction r) Committed (remote_path r) (local_path r) (StateStore.file_size r) (file_hash r)
    file_size (last_checkpoint_ms r) file_size (staging_relpath r) (created_ms r) now.

(** What is told of the progress when the data is sent. *)
Definition tell_progress (has_store : bool) (j : job) (bitmap : ChunkBitmap.t) : N unit :=
  when has_store (
    let! _ := ignore (on_store (write_bitmap (tid j) bitmap)) in
    let! now := read_clock in
    say (Message.MCheckpoint (MsgResume.Checkpoint.mk (tid j) (ChunkBitmap.bytes_completed bitmap) 0 now (ChunkBitmap.indices bitmap)))).

Definition await_verify_result (j : job) : N Hash :=
  let! f := recv_ctl in
  if negb (Frame.type_byte f =? Message.VERIFY_RESULT) then throw (protocol_violation "expected VERIFY_RESULT") else
  let! vr := of_protocol (VerifyResult.decode (Frame.payload f)) in
  if negb (bool_decide (VerifyResult.transfer_id vr = tid j)) then throw (protocol_violation "VERIFY_RESULT transfer_id mismatch") else
  if negb (VerifyResult.matches vr) then throw (EProtocol (Malformed "whole-file hash mismatch")) else
  ret (VerifyResult.computed_hash vr).
Definition await_committed (j : job) : N unit :=
  let! f := recv_ctl in
  if negb (Frame.type_byte f =? Message.COMMITTED) then throw (protocol_violation "expected COMMITTED") else
  let! m := of_protocol (Committed.decode (Frame.payload f)) in
  if negb (bool_decide (Committed.transfer_id m = tid j)) || negb (Committed.files m =? 1) then throw (protocol_violation "COMMITTED transfer_id/files mismatch")
  else ret tt.

Definition client_upload_stream (cfg : PipelineConfig) (has_store : bool) (j : job) (key local_path remote_path : bytes) (bitmap : ChunkBitmap.t) : N Hash :=
  let! _ := register has_store j key local_path remote_path bitmap in
  let! bitmap := send_stream cfg has_store j local_path bitmap in
  let! _ := tell_progress has_store j bitmap in
  let! _ := say (Message.MVerify (Verify.mk (tid j) (whole j))) in
  let! computed := await_verify_result j in
  let! _ := say (Message.MCommit (Commit.mk (tid j))) in
  let! _ := await_committed j in
  let! now := read_clock in
  let! _ := when has_store (
    let! r := ok (on_store (get_transfer (tid j))) in
    match r with Some r => ignore (on_store (update_transfer (set_committed r (size j) now))) | None => ret tt end) in
  ret computed.
End engine.
