(* ===== verification/UploadSafety.v ===== *)
(** * What an upload leaves behind, whatever happens

    Over the model of [Upload]: a triple for computations that can fail or die; what the steps of the server
    change on the disk; [upload_verified]: only a file with the announced hash is published, whatever the
    peer sends and whichever calls fail. *)

From Stdlib Require Import QArith.
From S2P Require Import Prelude Utf8 Protocol Varint Wire Paths Bitmap StateStore Chunking ChunkEngine FileSys CasGc Frame Compression DataPath MsgTransfer MsgResume Message Session DeltaSync Checkpoint Upload.
Import Str.
Open Scope Z_scope.

(** ** Triples *)

(** From a state with [P], a result is one with [Q], and an error or a crash leaves a state with [R]. *)
Definition triple {X E A} (P : X -> Prop) (c : M X E A) (Q : A -> X -> Prop) (R : X -> Prop) : Prop := forall x, P x ->
  match c x with (Done a, y) => Q a y | (_, y) => R y end.

Section triples.
Context {X : Type}.
Implicit Types (P R : X -> Prop).

Lemma triple_ret {E A} P (a : A) Q R : (forall x, P x -> Q a x) -> triple P (@ret X E A a) Q R.
Proof. intros H x Hx. by apply H. Qed.
Lemma triple_throw {E A} P (e : E) (Q : A -> X -> Prop) R : (forall x, P x -> R x) -> triple P (@throw X E A e) Q R.
Proof. intros H x Hx. by apply H. Qed.
Lemma triple_bind {E A B} P (c : M X E A) (k : A -> M X E B) Q Q' R : triple P c Q R -> (forall a, triple (Q a) (k a) Q' R) -> triple P (bind c k) Q' R.
Proof. intros Hc Hk x Hx. unfold bind. specialize (Hc x Hx). destruct (c x) as [[a|e|] y]; [by apply Hk|done..]. Qed.
Lemma triple_pre {E A} P P' (c : M X E A) Q R : (forall x, P x -> P' x) -> triple P' c Q R -> triple P c Q R.
Proof. intros H Hc x Hx. by apply Hc, H. Qed.
Lemma triple_post {E A} P (c : M X E A) (Q Q' : A -> X -> Prop) R : (forall a x, Q a x -> Q' a x) -> triple P c Q R -> triple P c Q' R.
Proof. intros H Hc x Hx. specialize (Hc x Hx). destruct (c x) as [[a|e|] y]; auto. Qed.
Lemma triple_err {E A} P (c : M X E A) Q (R R' : X -> Prop) : (forall x, R x -> R' x) -> triple P c Q R -> triple P c Q R'.
Proof. intros H Hc x Hx. specialize (Hc x Hx). destruct (c x) as [[a|e|] y]; auto. Qed.
Lemma triple_result {E A} P (c : M X E A) (T : A -> Prop) Q R : (forall x a y, c x = (Done a, y) -> T a) -> triple P c Q R -> triple P c (fun a x => T a /\ Q a x) R.
Proof. intros H Hc x Hx. specialize (Hc x Hx). specialize (H x). destruct (c x) as [[a|e|] y]; [|done..]. split; [by eapply H|done]. Qed.
Lemma triple_ignore {E F A} P (c : M X E A) R : triple P c (fun _ => R) R -> triple P (@ignore X E F A c) (fun _ => R) R.
Proof. intros Hc x Hx. unfold ignore. specialize (Hc x Hx). by destruct (c x) as [[a|e|] y]. Qed.
Lemma triple_ok {E F A} P (c : M X E A) Q R : triple P c (fun a => Q (Some a)) (fun y => Q None y /\ R y) -> triple P (@ok X E F A c) Q R.
Proof. intros Hc x Hx. unfold ok. specialize (Hc x Hx). destruct (c x) as [[a|e|] y]; [done|by destruct Hc..]. Qed.
Lemma triple_attempt {E F A} P (c : M X E A) Q R : triple P c (fun a => Q (inr a)) (fun y => (forall e, Q (inl e) y) /\ R y) -> triple P (@attempt X E F A c) Q R.
Proof. intros Hc x Hx. unfold attempt. specialize (Hc x Hx). destruct (c x) as [[a|e|] y]; [done|by destruct Hc..]. Qed.
Lemma triple_when {E} P b (c : M X E unit) R : (forall x, P x -> R x) -> triple P c (fun _ => R) R -> triple P (when b c) (fun _ => R) R.
Proof. destruct b; [done|]. intros H _ x Hx. by apply H. Qed.
(** A computation that looks at the state to begin with. *)
Lemma triple_self {E A} P (f : X -> M X E A) Q R : (forall z, triple (fun x => P x /\ x = z) (f z) Q R) -> triple P (fun x => f x x) Q R.
Proof. intros H x Hx. by apply H. Qed.
End triples.

(** ** The disk *)

Section disk.
Context {S : Type}.
Local Abbreviation X := (session S).

(** [c] changes files at most at paths with [P]. *)
Definition leaves {E A} (P : bytes -> Prop) (c : M X E A) : Prop := forall x p, ~ P p -> disk (files (c x).2) !! p = disk (files x) !! p.
(** [c] keeps a part of the state. *)
Definition keeps {Y E A} (g : X -> Y) (c : M X E A) : Prop := forall x, g (c x).2 = g x.
(** No file; neither a file nor the store. *)
Definition on_disk (x : X) : gmap bytes bytes := disk (files x).
Definition on_both (x : X) : gmap bytes bytes * S := (disk (files x), store x).

Lemma quiet_leaves {E A} P (c : M X E A) : keeps on_disk c -> leaves P c.
Proof. intros Hc x p Hp. specialize (Hc x). unfold on_disk in Hc. by rewrite Hc. Qed.
Lemma still_quiet {E A} (c : M X E A) : keeps on_both c -> keeps on_disk c.
Proof. intros Hc x. specialize (Hc x). unfold on_both in Hc. by injection Hc. Qed.
Lemma keeps_triple {Y E A} (g : X -> Y) (c : M X E A) (D : Y -> Prop) : keeps g c ->
  triple (fun x => D (g x)) c (fun _ x => D (g x)) (fun x => D (g x)).
Proof. intros Hc x Hx. specialize (Hc x). destruct (c x) as [[a|e|] y]; cbn in Hc; congruence. Qed.

Section keeps.
Context {Y : Type} (g : X -> Y).
Lemma keeping_bind {E A B} (c : M X E A) (k : A -> M X E B) : keeps g c -> (forall a, keeps g (k a)) -> keeps g (bind c k).
Proof. intros Hc Hk x. unfold bind. specialize (Hc x). destruct (c x) as [[a|e|] y]; cbn in *; [by rewrite Hk|done..]. Qed.
Lemma keeping_ret {E A} (a : A) : keeps g (@ret X E A a).
Proof. done. Qed.
Lemma keeping_throw {E A} (e : E) : keeps g (@throw X E A e).
Proof. done. Qed.
Lemma keeping_ignore {E F A} (c : M X E A) : keeps g c -> keeps g (@ignore X E F A c).
Proof. intros Hc x. unfold ignore. specialize (Hc x). by destruct (c x) as [[a|e|] y]. Qed.
Lemma keeps_ok {E F A} (c : M X E A) : keeps g c -> keeps g (@ok X E F A c).
Proof. intros Hc x. unfold ok. specialize (Hc x). by destruct (c x) as [[a|e|] y]. Qed.
Lemma keeps_attempt {E F A} (c : M X E A) : keeps g c -> keeps g (@attempt X E F A c).
Proof. intros Hc x. unfold attempt. specialize (Hc x). by destruct (c x) as [[a|e|] y]. Qed.
Lemma keeping_when {E} b (c : M X E unit) : keeps g c -> keeps g (when b c).
Proof. by destruct b. Qed.
Lemma keeps_outcome {A} (o : outcome VelcruxError A) : keeps g (of_outcome o).
Proof. by destruct o. Qed.
Lemma keeps_crash {E A} : keeps g (fun x : X => (@Crashed E A, x)).
Proof. done. Qed.
End keeps.

Lemma quiet_store {E A} (c : M S E A) : keeps on_disk (on_store c).
Proof. intros x. unfold on_store. by destruct (c (store x)). Qed.
Lemma still_clock : keeps on_both read_clock.
Proof. done. Qed.
Lemma still_recv n : keeps on_both (recv_data n).
Proof. intros x. unfold recv_data. by destruct (Session.read_exact n (data_in x)) as [[[b s]|]| |]. Qed.
Lemma still_recv_ctl : keeps on_both recv_ctl.
Proof. intros x. unfold recv_ctl. by destruct (read_control_frame (ctl_in x)) as [[f s]| |]. Qed.
Lemma still_send_ctl b : keeps on_both (send_ctl b).
Proof. intros x. unfold send_ctl, transmit. by destruct (events (files x)) as [|[]]. Qed.
Lemma still_send_data b : keeps on_both (send_data b).
Proof. intros x. unfold send_data, transmit. by destruct (events (files x)) as [|[]]. Qed.
Lemma still_call {A} (go : fs -> res bytes A * fs) : (forall w, disk (go w).2 = disk w) -> keeps on_both (on_files (call go nothing)).
Proof.
  intros Hg x. unfold on_files, map_error, call. destruct (events (files x)) as [|[]]; cbn; try done;
    (match goal with |- context [go ?w] => specialize (Hg w); destruct (go w) as [[] ] end); unfold on_both; cbn in *; by rewrite Hg.
Qed.
Lemma still_sync : keeps on_both (on_files sync_all).
Proof. by apply still_call. Qed.
Lemma still_parents p : keeps on_both (on_files (create_parents p)).
Proof. by apply still_call. Qed.
Lemma still_read p : keeps on_both (on_files (read_file p)).
Proof. apply still_call. intros w. by case_match. Qed.
Lemma still_len p : keeps on_both (with_files (let! r := ok (file_len p) in ret (default 0 r))).
Proof.
  intros x. unfold with_files, bind, ok, file_len, call. destruct (events (files x)) as [|[]]; cbn; try done; by destruct (disk (files x) !! p).
Qed.

Lemma read_done p x v y : on_files (S:=S) (read_file p) x = (Done v, y) -> disk (files x) !! p = Some v.
Proof. unfold on_files, map_error, read_file, call. destruct (events (files x)) as [|[]]; cbn [disk]; try done; (destruct (disk (files x) !! p); by intros [= <- _]). Qed.

Lemma leaves_bind {E A B} P (c : M X E A) (k : A -> M X E B) : leaves P c -> (forall a, leaves P (k a)) -> leaves P (bind c k).
Proof. intros Hc Hk x p Hp. unfold bind. specialize (Hc x p Hp). destruct (c x) as [[a|e|] y]; cbn in *; [by rewrite Hk|done..]. Qed.
Lemma leaves_bind_with {E A B} P (T : A -> Prop) (c : M X E A) (k : A -> M X E B) :
  leaves P c -> (forall x a y, c x = (Done a, y) -> T a) -> (forall a, T a -> leaves P (k a)) -> leaves P (bind c k).
Proof. intros Hc Ht Hk x p Hp. unfold bind. specialize (Hc x p Hp). specialize (Ht x). destruct (c x) as [[a|e|] y]; cbn in *; [|done..]. rewrite Hk; [done|by eapply Ht|done]. Qed.
Lemma leaves_when {E} P b (c : M X E unit) : leaves P c -> leaves P (when b c).
Proof. by destruct b. Qed.
Lemma leaves_files {A} P (c : M fs bytes A) : only P c -> leaves P (on_files c).
Proof.
  intros Hc x p Hp. unfold on_files, map_error. destruct (Hc (files x)) as [_ Hd]. specialize (Hd p Hp). destruct (c (files x)) as [[] ]; exact Hd.
Qed.
Lemma leaves_with {A} P (c : M fs VelcruxError A) : only P c -> leaves P (with_files c).
Proof. intros Hc x p Hp. unfold with_files. destruct (Hc (files x)) as [_ Hd]. specialize (Hd p Hp). revert Hd. by destruct (c (files x)). Qed.
End disk.

(** A write of some bytes that is carried out. *)
Lemma seek_write_ok p off w c d js nw : w <> [] -> off + zlen w <= FILE_MAX -> d !! p = Some c ->
  seek_write p None off w (mkWorld d js [] nw) = (Done None, mkWorld (<[p := splice c off w]> d) js [] nw).
Proof.
  intros Hw Hm Hd. assert (0 <= zlen w) by (unfold zlen; lia). unfold seek_write. rewrite (proj2 (Z.ltb_ge FILE_MAX off)) by lia. unfold bind, seek, call. cbn [events tail disk docs now].
  destruct w as [|a w]; [done|]. unfold background_write. rewrite (proj2 (Z.ltb_ge FILE_MAX _)) by lia. unfold write_at, call. cbn [events tail disk docs now].
  unfold edit, set_disk. cbn [disk docs events now]. by rewrite (alter_at _ p c d Hd).
Qed.

Create HintDb keeps.
#[export] Hint Resolve keeping_ret keeping_throw keeping_ignore keeps_ok keeps_attempt keeping_when keeps_outcome keeps_crash quiet_store still_quiet still_clock still_recv still_recv_ctl
  still_send_ctl still_send_data still_sync still_parents still_read still_len : keeps.
(** The steps of a computation in turn. *)
Ltac keeps := repeat (first [progress eauto with keeps | apply keeping_bind; [|intros] | apply keeping_when | apply keeping_ignore | apply keeps_ok | apply keeps_attempt | case_match]).

(** ** The server's half *)

Section server.
Context `{Zstd} {S : Type} `{StateStore S}.
Context (entropy_sum : list Z -> Z -> Q) (hash_of : bytes -> Hash) (ulid_text : TransferId -> bytes) (no_space : bytes -> bool).
Local Abbreviation X := (session S).

Lemma still_recv_chunk : keeps on_both (recv_chunk (S:=S) hash_of).
Proof. unfold recv_chunk, of_protocol. keeps. Qed.
Lemma quiet_progress has_store id k c n : keeps on_disk (progress_of has_store id k c n).
Proof. unfold progress_of, fsync. keeps. Qed.
Lemma quiet_checkpoint has_store id b p : keeps on_disk (take_checkpoint (S:=S) has_store id b p).
Proof. unfold take_checkpoint. keeps. Qed.
Lemma quiet_await fuel has_store id b : keeps on_disk (await_verify (S:=S) fuel has_store id b).
Proof. induction fuel as [|fuel IH]; cbn [await_verify]; [keeps|]. pose proof quiet_checkpoint. keeps. Qed.
Lemma quiet_say m : keeps on_disk (say (S:=S) entropy_sum m).
Proof. unfold say. keeps. Qed.
#[local] Hint Resolve still_recv_chunk quiet_progress quiet_checkpoint quiet_await quiet_say : keeps.
Lemma quiet_answer j h f : keeps on_disk (answer_verify (S:=S) entropy_sum j h f).
Proof. unfold answer_verify, of_protocol. keeps. Qed.
#[local] Hint Resolve quiet_answer : keeps.


(** The staging file. *)
Context (b : Backend) (j : job) (dst : bytes).
Let sp := staging_path b (ulid_text (tid j)) dst.

Lemma bind_inv {Y E A B} (c : M Y E A) (k : A -> M Y E B) x z y : bind c k x = (Done z, y) -> exists a u, c x = (Done a, u) /\ k a u = (Done z, y).
Proof. unfold bind. destruct (c x) as [[a|e|] u]; [|done..]. by exists a, u. Qed.

Lemma leaves_seek err off data : leaves (S:=S) (eq sp) (on_files (seek_write sp err off data)).
Proof.
  apply leaves_files. unfold seek_write. case_match; [apply only_throw|]. apply only_bind; [by apply only_call|intros []].
  destruct data, err; [apply only_ret..|apply only_throw|]. intros w. unfold background_write. case_match; [by case_match|].
  match goal with |- context [write_at sp off ?l w] => pose proof (only_write_at (eq sp) sp off l eq_refl w) as Hw; destruct (write_at sp off l w) as [[u|e|] w'] end;
    try case_match; exact Hw.
Qed.
Lemma leaves_put chunk_size streaming k hdr data : w_path (writer k) = sp -> leaves (eq sp) (put_chunk (S:=S) chunk_size streaming k hdr data).
Proof.
  intros Hk. unfold put_chunk, writer_write_at. rewrite Hk. case_match; [|apply quiet_leaves; keeps].
  apply leaves_bind; [|intros; apply quiet_leaves; keeps]. case_match; [apply quiet_leaves; keeps|].
  apply leaves_bind; [apply leaves_seek|intros; apply quiet_leaves; keeps].
Qed.
Lemma put_path chunk_size streaming k hdr data x k' y : put_chunk (S:=S) chunk_size streaming k hdr data x = (Done k', y) -> w_path (writer k') = w_path (writer k).
Proof.
  unfold put_chunk. case_match; [|by intros [= <- _]]. intros (w & u & Hw & [= <- _])%bind_inv. cbn. case_match; [by injection Hw as <-|].
  unfold writer_write_at in Hw. by apply bind_inv in Hw as (? & ? & _ & [= <- _]).
Qed.
Lemma leaves_receive fuel : forall has_store chunk_size streaming k c, w_path (writer k) = sp ->
  leaves (eq sp) (receive (S:=S) hash_of fuel has_store chunk_size streaming (tid j) k c).
Proof.
  induction fuel as [|fuel IH]; intros has_store chunk_size streaming k c Hk; cbn [receive]; [apply quiet_leaves; keeps|].
  apply leaves_bind; [apply quiet_leaves; keeps|]. intros [[hdr data]|]; [|apply quiet_leaves; keeps].
  apply (leaves_bind_with _ (fun k => w_path (writer k) = sp)); [by apply leaves_put| |].
  - intros x k' y Hp%put_path. by rewrite Hp.
  - intros k' Hk'. apply leaves_bind; [apply quiet_leaves; keeps|]. intros c'. by apply IH.
Qed.
Lemma receive_path fuel : forall has_store chunk_size streaming k c x k' y,
  receive (S:=S) hash_of fuel has_store chunk_size streaming (tid j) k c x = (Done k', y) -> w_path (writer k') = w_path (writer k).
Proof.
  induction fuel as [|fuel IH]; intros has_store chunk_size streaming k c x k' y Hr; cbn [receive] in Hr; [done|].
  apply bind_inv in Hr as ([[hdr data]|] & x1 & _ & Hr); [|by injection Hr as <- _].
  apply bind_inv in Hr as (k1 & x2 & Hp%put_path & Hr). apply bind_inv in Hr as (c' & x3 & _ & Hr). apply IH in Hr. congruence.
Qed.

Lemma only_allocate P p n : P p -> only P (allocate p n).
Proof. intros Hp. apply only_call; [|done]. intros w. split; [done|]. intros q Hq. cbn. apply lookup_alter_ne. by intros ->. Qed.
Lemma only_open P p t : P p -> only P (open_file p t).
Proof. intros Hp. apply only_call; [|done]. intros w. split; [by repeat case_match|]. intros q Hq. destruct t; [|case_match; [done|]]; cbn; (rewrite lookup_insert_ne; [done|by intros ->]). Qed.
Lemma only_reserve n resumed : only (eq sp) (reserve no_space b sp n resumed).
Proof.
  unfold reserve. case_match.
  - apply only_bind; [by apply only_attempt, only_allocate|]. intros [e|[]]; [|apply only_ret]. case_match; [apply only_throw|by apply only_ignore, only_set_len].
  - by apply only_when, only_ignore, only_set_len.
Qed.
Lemma leaves_open n resumed : leaves (S:=S) (eq sp) (open_staging_resumable no_space b (ulid_text (tid j)) dst n resumed).
Proof.
  unfold open_staging_resumable. fold sp. apply leaves_bind; [apply quiet_leaves; keeps|]. intros []. apply leaves_bind; [apply quiet_leaves; keeps|]. intros [].
  apply leaves_bind; [by apply leaves_with, only_ok, only_call|]. intros r.
  apply leaves_bind; [by apply leaves_files, only_open|]. intros []. apply leaves_bind; [apply leaves_with, only_reserve|]. intros [].
  apply leaves_bind; [case_match; apply quiet_leaves; keeps|]. intros m. apply quiet_leaves; keeps.
Qed.
Lemma open_path n resumed x w y : open_staging_resumable (S:=S) no_space b (ulid_text (tid j)) dst n resumed x = (Done w, y) -> w_path w = sp.
Proof.
  unfold open_staging_resumable. fold sp. do 5 (intros (? & ? & _ & Hr)%bind_inv; revert Hr). by intros (? & ? & _ & [= <- _])%bind_inv.
Qed.

Lemma leaves_stream has_store resumed chunk_size bitmap : leaves (eq sp) (receive_stream (S:=S) hash_of ulid_text no_space b has_store resumed j dst chunk_size bitmap).
Proof.
  unfold receive_stream, of_protocol. do 3 (apply leaves_bind; [apply quiet_leaves; keeps|intros ?]). case_match; [apply quiet_leaves; keeps|].
  apply (leaves_bind_with _ (fun w => w_path w = sp)); [apply leaves_open|intros ? ? ?; apply open_path|]. intros w Hw.
  apply leaves_bind; [apply quiet_leaves; keeps|intros now]. apply leaves_bind; [intros x; by apply leaves_receive|]. intros k. apply quiet_leaves. unfold fsync. keeps.
Qed.
Lemma stream_path has_store resumed chunk_size bitmap x k y :
  receive_stream (S:=S) hash_of ulid_text no_space b has_store resumed j dst chunk_size bitmap x = (Done k, y) -> w_path (writer k) = sp.
Proof.
  unfold receive_stream. do 3 (intros (? & ? & _ & Hr)%bind_inv; revert Hr). case_match; [done|].
  intros (w & ? & Hw%open_path & Hr)%bind_inv. apply bind_inv in Hr as (now & ? & _ & Hr). apply bind_inv in Hr as (k1 & ? & Hk%receive_path & Hr).
  apply bind_inv in Hr as (? & ? & _ & [= <- _]). by rewrite Hk.
Qed.

(** The end of the session: the staging file is renamed as it is. *)
Definition kept_or (p v : bytes) (d d' : gmap bytes bytes) : Prop := d' !! p = d !! p \/ d' !! p = Some v.

Lemma rename_files a c x : a <> c ->
  let '(r, y) := on_files (S:=S) (rename_file a c) x in
  (forall p, p <> a -> p <> c -> disk (files y) !! p = disk (files x) !! p) /\
  match r with Done _ => disk (files y) !! c = disk (files x) !! a | _ => disk (files y) = disk (files x) end.
Proof.
  intros Hac. unfold on_files, map_error, rename_file, call. destruct (events (files x)) as [|[]]; cbn [disk]; try done;
    (destruct (disk (files x) !! a) as [v|] eqn:Ha; [|done]; cbn; split; [intros p Hp Hq; by rewrite lookup_insert_ne, lookup_delete_ne by done|apply lookup_insert_eq]).
Qed.

Lemma commit_publishes staging v x : staging <> resolve b dst -> disk (files x) !! staging = Some v ->
  let '(r, y) := commit (S:=S) b staging dst x in
  (forall (p : bytes), p <> staging -> p <> resolve b dst -> disk (files y) !! p = disk (files x) !! p) /\
  kept_or (resolve b dst) v (disk (files x)) (disk (files y)) /\ (forall u, r = Done u -> disk (files y) !! resolve b dst = Some v).
Proof.
  intros Hne Hv. unfold commit. pose proof (still_quiet _ (still_parents (S:=S) (resolve b dst)) x) as Hq. unfold bind at 1.
  destruct (on_files (create_parents (resolve b dst)) x) as [[[]|e|] x1]; unfold on_disk in Hq; cbn [snd] in Hq; [|rewrite Hq; split_and!; [done|by left|done]..].
  rewrite <- Hq in *. clear Hq. unfold bind at 1. pose proof (rename_files staging (resolve b dst) x1 Hne) as Hr.
  destruct (on_files (rename_file staging (resolve b dst)) x1) as [[[]|e|] x2]; destruct Hr as [Ho Hr]; [|rewrite Hr; split_and!; [done|by left|done]..].
  assert (forall (y : X), disk (files y) = disk (files x2) -> (forall (p : bytes), p <> staging -> p <> resolve b dst -> disk (files y) !! p = disk (files x1) !! p) /\ disk (files y) !! resolve b dst = Some v) as Hend.
  { intros y ->. split; [done|]. by rewrite Hr. }
  unfold bind. pose proof (still_quiet _ still_sync x2) as Hs. destruct (on_files sync_all x2) as [[[]|e|] x3]; unfold on_disk in Hs; cbn [snd] in Hs;
    [pose proof (still_quiet _ still_sync x3) as Hs'; destruct (on_files sync_all x3) as [r x4]; unfold on_disk in Hs'; cbn [snd] in Hs'; rewrite Hs in Hs'; destruct (Hend x4 Hs')|destruct (Hend x3 Hs)..];
    (split_and!; [done|by right|done]).
Qed.

(** What the end of a session can do to the disk. *)
Definition publishes {E A} (v : bytes) (c : M X E A) : Prop := forall x, disk (files x) !! sp = Some v ->
  let '(r, y) := c x in
  (forall (p : bytes), p <> sp -> p <> resolve b dst -> disk (files y) !! p = disk (files x) !! p) /\
  kept_or (resolve b dst) v (disk (files x)) (disk (files y)) /\ (forall u, r = Done u -> disk (files y) !! resolve b dst = Some v).
Lemma publishing_after {E A B} v (c : M X E A) (k : A -> M X E B) : keeps on_disk c -> (forall a, publishes v (k a)) -> publishes v (bind c k).
Proof.
  intros Hc Hk x Hx. unfold bind. specialize (Hc x). destruct (c x) as [[a|e|] x1]; unfold on_disk in Hc; cbn [snd] in Hc; [|rewrite Hc; split_and!; [done|by left|done]..].
  rewrite <- Hc. apply Hk. by rewrite Hc.
Qed.
Lemma publishes_then {E A B} v (c : M X E A) (k : A -> M X E B) : publishes v c -> (forall a, keeps on_disk (k a)) -> publishes v (bind c k).
Proof.
  intros Hc Hk x Hx. unfold bind. specialize (Hc x Hx). destruct (c x) as [[a|e|] x1]; [|destruct Hc as (? & ? & ?); split_and!; done..].
  destruct Hc as (Ho & Hp & Hd). specialize (Hk a x1). destruct (k a x1) as [r y]. unfold on_disk in Hk; cbn [snd] in Hk. rewrite Hk. split_and!; [done..|]. intros u _. by eapply Hd.
Qed.
Lemma publishing_throw {E A} v (e : E) : publishes v (@throw X E A e).
Proof. intros x Hx. split_and!; [done|by left|done]. Qed.

Lemma finish_publishes has_store v : sp <> resolve b dst -> publishes v (finish_commit (S:=S) entropy_sum b has_store j dst sp).
Proof.
  intros Hne. unfold finish_commit, of_protocol. apply publishing_after; [keeps|intros f]. case_match; [apply publishing_throw|].
  apply publishing_after; [keeps|intros m]. case_match; [apply publishing_throw|].
  apply publishing_after; [keeps|intros now]. apply publishing_after; [keeps|intros _]. apply publishing_after; [keeps|intros _].
  apply publishes_then; [intros x Hx; by apply commit_publishes|]. intros _. keeps.
Qed.

(** The frames of a control stream. *)
Inductive spoken : RecvStream -> Frame.t -> Prop :=
  | spoken_next s f s' : read_control_frame s = Ok (f, s') -> spoken s f
  | spoken_later s g s' f : read_control_frame s = Ok (g, s') -> spoken s' f -> spoken s f.
(** The peer asked for a verification of the transfer against this hash. *)
Definition asked (ctl : RecvStream) (h : Hash) : Prop := exists f v, spoken ctl f /\ Frame.type_byte f = Message.VERIFY /\
  Verify.decode (Frame.payload f) = Ok v /\ Verify.transfer_id v = tid j /\ Verify.expected_hash v = h.
(** The hash of a published file: the peer asked for it, and it is the announced one where one was
    announced. *)
Definition vouched (ctl : RecvStream) (h : Hash) : Prop := asked ctl h /\ (whole j <> HASH_ZERO -> h = whole j).

(** An upload that is published. *)
Definition verified_by (ctl : RecvStream) (d d' : gmap bytes bytes) (r : res VelcruxError Hash) : Prop :=
  (forall (p : bytes), p <> staging_path b (ulid_text (tid j)) dst -> p <> resolve b dst -> d' !! p = d !! p) /\
  (d' !! resolve b dst = d !! resolve b dst \/ exists v, d' !! resolve b dst = Some v /\ vouched ctl (hash_of v)) /\
  (forall h, r = Done h -> exists v, d' !! resolve b dst = Some v /\ hash_of v = h /\ vouched ctl h).

Lemma verified_error ctl d d' r : (forall (p : bytes), p <> sp -> d' !! p = d !! p) -> sp <> resolve b dst -> (forall h, r <> Done h) -> verified_by ctl d d' r.
Proof. intros Hd Hne Hr. split; [by auto|]. split; [left; by apply Hd|]. intros h Hh. by destruct (Hr h). Qed.

Lemma answer_good h f x u y : answer_verify (S:=S) entropy_sum j h f x = (Done u, y) ->
  (whole j <> HASH_ZERO -> h = whole j) /\ Frame.type_byte f = Message.VERIFY /\
  exists v, Verify.decode (Frame.payload f) = Ok v /\ Verify.transfer_id v = tid j /\ Verify.expected_hash v = h.
Proof.
  unfold answer_verify. destruct (Frame.type_byte f =? Message.VERIFY) eqn:Et; [|done]. apply Z.eqb_eq in Et. cbn [negb].
  intros (v & x1 & Hd & Hr)%bind_inv. assert (Verify.decode (Frame.payload f) = Ok v) as Hv.
  { unfold of_protocol, of_outcome in Hd. destruct (Verify.decode (Frame.payload f)); cbn in Hd; [|done..]. by injection Hd as ->. }
  destruct (bool_decide (Verify.transfer_id v = tid j)) eqn:Eid; [|done]. apply bool_decide_eq_true in Eid. cbn [negb orb] in Hr.
  destruct (decide (whole j = HASH_ZERO)) as [Hw|Hw].
  - rewrite (bool_decide_eq_true_2 _ Hw) in Hr. cbn [negb andb] in Hr. apply bind_inv in Hr as (? & x2 & _ & Hr).
    destruct (bool_decide (h = Verify.expected_hash v)) eqn:Eh; [|done]. apply bool_decide_eq_true in Eh. split; [done|]. split; [done|]. by exists v.
  - rewrite (bool_decide_eq_false_2 _ Hw) in Hr. cbn [negb andb] in Hr. destruct (bool_decide (Verify.expected_hash v = whole j)) eqn:Ee; [|done].
    apply bool_decide_eq_true in Ee. cbn [negb] in Hr. apply bind_inv in Hr as (? & x2 & _ & Hr).
    destruct (bool_decide (h = whole j)) eqn:Eh; [|done]. apply bool_decide_eq_true in Eh. split; [done|]. split; [done|]. exists v. split; [done|]. split; [done|congruence].
Qed.

Lemma ctl_store {E A} (c : M S E A) : keeps (S:=S) ctl_in (on_store c).
Proof. intros x. unfold on_store. by destruct (c (store x)). Qed.
Lemma ctl_files {A} (c : M fs bytes A) : keeps (S:=S) ctl_in (on_files c).
Proof. intros x. unfold on_files. by destruct (map_error io_error c (files x)). Qed.
Lemma ctl_with {A} (c : M fs VelcruxError A) : keeps (S:=S) ctl_in (with_files c).
Proof. intros x. unfold with_files. by destruct (c (files x)). Qed.
Lemma ctl_clock : keeps (S:=S) ctl_in read_clock.
Proof. done. Qed.
Lemma ctl_recv n : keeps (S:=S) ctl_in (recv_data n).
Proof. intros x. unfold recv_data. by destruct (Session.read_exact n (data_in x)) as [[[? ?]|]| |]. Qed.
#[local] Hint Resolve ctl_store ctl_files ctl_with ctl_clock ctl_recv : keeps.
Lemma ctl_checkpoint has_store id bitmap p : keeps ctl_in (take_checkpoint (S:=S) has_store id bitmap p).
Proof. unfold take_checkpoint. keeps. Qed.
Lemma await_spoken fuel has_store id bitmap : forall x f y, await_verify (S:=S) fuel has_store id bitmap x = (Done f, y) -> spoken (ctl_in x) f.
Proof.
  induction fuel as [|fuel IH]; intros x f y Hr; cbn [await_verify] in Hr; [done|]. apply bind_inv in Hr as (g & x1 & Hg & Hr).
  unfold recv_ctl in Hg. destruct (read_control_frame (ctl_in x)) as [[g' s']|e|] eqn:Es; [|done..]. injection Hg as -> <-.
  destruct (Frame.type_byte g =? Message.CHECKPOINT); [|injection Hr as <- _; by eapply spoken_next].
  apply bind_inv in Hr as (u & x2 & Hu & Hr). apply (spoken_later _ _ _ _ Es).
  match type of Hu with take_checkpoint _ _ _ _ ?z = _ => pose proof (ctl_checkpoint has_store id bitmap (Frame.payload g) z) as Hk end.
  rewrite Hu in Hk. cbn in Hk. rewrite <- Hk. by eapply IH.
Qed.

(** What follows the data: [v] is in the staging file. *)
Lemma after_data has_store k v h : w_path (writer k) = sp -> sp <> resolve b dst -> hash_of v = h -> forall x, disk (files x) !! sp = Some v ->
  let '(r, y) := (let! f := (fun x => await_verify (Datatypes.S (length (avail (ctl_in x)))) has_store (tid j) (bm k) x) in
                  let! _ := answer_verify entropy_sum j h f in let! _ := finish_commit entropy_sum b has_store j dst (w_path (writer k)) in ret h) x in
  verified_by (ctl_in x) (disk (files x)) (disk (files y)) r.
Proof.
  intros Hk Hne Hh x Hx. rewrite Hk. unfold bind at 1. pose proof (quiet_await (Datatypes.S (length (avail (ctl_in x)))) has_store (tid j) (bm k) x) as Hq.
  pose proof (await_spoken (Datatypes.S (length (avail (ctl_in x)))) has_store (tid j) (bm k) x) as Hs.
  destruct (await_verify _ _ _ _ x) as [[f|e|] x1]; unfold on_disk in Hq; cbn [snd] in Hq; [|apply verified_error; rewrite ?Hq; done..]. specialize (Hs f x1 eq_refl).
  rewrite <- Hq in Hx |- *. clear Hq. unfold bind at 1. pose proof (quiet_answer j h f x1) as Hq. pose proof (answer_good h f x1) as Hg.
  destruct (answer_verify entropy_sum j h f x1) as [[u|e|] x2]; unfold on_disk in Hq; cbn [snd] in Hq; [|apply verified_error; rewrite ?Hq; done..].
  destruct (Hg u x2 eq_refl) as (Hw & Ht & ver & Hv & Hid & He). clear Hg.
  assert (vouched (ctl_in x) (hash_of v)) as Hvo by (rewrite Hh; split; [by exists f, ver|done]).
  rewrite <- Hq in Hx |- *. clear Hq. unfold bind. pose proof (finish_publishes has_store v Hne x2 Hx) as Hf.
  destruct (finish_commit entropy_sum b has_store j dst sp x2) as [[u'|e|] y]; destruct Hf as (Ho & Hp & Hd); cbv beta iota delta [ret].
  - split; [done|]. specialize (Hd u' eq_refl). split; [right; by exists v|]. intros h' [= <-]. exists v. split_and!; [done..|by rewrite <- Hh].
  - split; [done|]. split; [|done]. destruct Hp as [Hp|Hp]; [by left|right]. by exists v.
  - split; [done|]. split; [|done]. destruct Hp as [Hp|Hp]; [by left|right]. by exists v.
Qed.

(** What follows when the data is received. *)
Lemma after_stream has_store k d0 x2 : w_path (writer k) = sp -> sp <> resolve b dst -> (forall (p : bytes), p <> sp -> disk (files x2) !! p = d0 !! p) ->
  let '(r, y) := (let! _ := when has_store (ignore (on_store (write_bitmap (tid j) (bm k)))) in
                  let! computed := compute_staging_hash hash_of b (ulid_text (tid j)) dst in
                  let! f := (fun x => await_verify (Datatypes.S (length (avail (ctl_in x)))) has_store (tid j) (bm k) x) in
                  let! _ := answer_verify entropy_sum j computed f in let! _ := finish_commit entropy_sum b has_store j dst (w_path (writer k)) in ret computed) x2 in
  verified_by (ctl_in x2) d0 (disk (files y)) r.
Proof.
  intros Hp Hne Hd.
  unfold bind at 1. match goal with |- context [match when ?a ?c x2 with _ => _ end] => assert (keeps on_disk (when a c)) as Hq by keeps;
    assert (keeps ctl_in (when a c)) as Hc by keeps; specialize (Hq x2); specialize (Hc x2); destruct (when a c x2) as [[[]|e|] x3] end;
    unfold on_disk in Hq; cbn [snd] in Hq, Hc; [|apply verified_error; rewrite ?Hq; done..]. rewrite <- Hq in Hd. rewrite <- Hc. clear Hq Hc x2.
  unfold compute_staging_hash. fold sp. unfold bind at 1, bind at 1. pose proof (still_quiet _ (still_read (S:=S) sp) x3) as Hq.
  pose proof (ctl_files (read_file sp) x3) as Hc. pose proof (read_done sp x3) as Hv.
  destruct (on_files (read_file sp) x3) as [[v|e|] x4]; unfold on_disk in Hq; cbn [snd] in Hq, Hc; [|apply verified_error; rewrite ?Hq; done..]. specialize (Hv v x4 eq_refl).
  rewrite <- Hq in Hd, Hv. rewrite <- Hc. cbv beta iota delta [ret]. pose proof (after_data has_store k v (hash_of v) Hp Hne eq_refl x4 Hv) as Ha.
  match goal with |- let '(r, y) := ?t in _ => change (let '(r, y) := t in verified_by (ctl_in x4) (disk (files x4)) (disk (files y)) r) in Ha; destruct t as [r y] end.
  destruct Ha as (Ho & Hp' & Hdone). split; [intros p H1 H2; rewrite Ho by done; by apply Hd|]. rewrite (Hd (resolve b dst)) in Hp' by congruence. by split.
Qed.

(** The control stream is read after the data. *)
Lemma ctl_open n resumed : keeps (S:=S) ctl_in (open_staging_resumable no_space b (ulid_text (tid j)) dst n resumed).
Proof. pose proof @ctl_with. unfold open_staging_resumable. keeps. Qed.
Lemma ctl_recv_chunk : keeps (S:=S) ctl_in (recv_chunk hash_of).
Proof. unfold recv_chunk, of_protocol. keeps. Qed.
Lemma ctl_put chunk_size streaming k hdr data : keeps (S:=S) ctl_in (put_chunk chunk_size streaming k hdr data).
Proof. unfold put_chunk, writer_write_at. keeps. Qed.
Lemma ctl_progress has_store id k c n : keeps (S:=S) ctl_in (progress_of has_store id k c n).
Proof. unfold progress_of, fsync. keeps. Qed.
#[local] Hint Resolve ctl_open ctl_recv_chunk ctl_put ctl_progress : keeps.
Lemma ctl_receive fuel : forall has_store chunk_size streaming k c, keeps (S:=S) ctl_in (receive hash_of fuel has_store chunk_size streaming (tid j) k c).
Proof. induction fuel as [|fuel IH]; intros; cbn [receive]; keeps. Qed.
Lemma ctl_stream has_store resumed chunk_size bitmap : keeps (S:=S) ctl_in (receive_stream hash_of ulid_text no_space b has_store resumed j dst chunk_size bitmap).
Proof.
  unfold receive_stream, of_protocol, fsync. repeat (apply keeping_bind; [solve [keeps]|intros ?]). case_match; [keeps|].
  repeat (apply keeping_bind; [first [solve [keeps]|intros x; apply ctl_receive]|intros ?]). keeps.
Qed.

(** C11. Whatever the peer sends, whichever calls of the files, the store or the streams fail, and wherever the
    process dies, when the staging file is not the destination: an upload leaves every file but its
    staging file and its destination as it is; the destination is as it was, or a file with a hash that a
    VERIFY of the peer for this transfer asked for, which is the announced hash unless none (the zero hash)
    was announced; and an upload that is reported as done has put a file with the reported hash there,
    asked for in the same way. *)
Theorem upload_verified has_store resumed initial x : staging_path b (ulid_text (tid j)) dst <> resolve b dst ->
  let '(r, y) := server_upload_session_with_limits entropy_sum hash_of ulid_text no_space b has_store resumed j dst initial x in
  verified_by (ctl_in x) (disk (files x)) (disk (files y)) r.
Proof.
  intros Hne. change (sp <> resolve b dst) in Hne. unfold server_upload_session_with_limits. unfold bind at 1.
  match goal with |- context [match ?c x with _ => _ end] => assert (keeps on_disk c) as Hq by keeps; assert (keeps ctl_in c) as Hc by keeps;
    specialize (Hq x); specialize (Hc x); destruct (c x) as [[bitmap|e|] x1] end;
    unfold on_disk in Hq; cbn [snd] in Hq, Hc; [|apply verified_error; rewrite ?Hq; done..]. rewrite <- Hq, <- Hc. clear Hq Hc x. remember (disk (files x1)) as d0 eqn:Hd0.
  unfold bind at 1. match goal with |- context [receive_stream ?h ?u ?n ?a1 ?a2 ?a3 ?a4 ?a5 ?a6 ?a7 x1] =>
    pose proof (leaves_stream a2 a3 a6 a7 x1) as Hl; pose proof (ctl_stream a2 a3 a6 a7 x1) as Hc; pose proof (stream_path a2 a3 a6 a7 x1) as Hp;
    destruct (receive_stream h u n a1 a2 a3 a4 a5 a6 a7 x1) as [[k|e|] x2] end;
    cbn [snd] in Hl, Hc; [|apply verified_error; [intros p Hn; rewrite Hd0; apply Hl; congruence|done..]..]. specialize (Hp k x2 eq_refl).
  assert (forall (p : bytes), p <> sp -> disk (files x2) !! p = d0 !! p) as Hd by (intros p Hn; rewrite Hd0; apply Hl; congruence). rewrite <- Hc. clear Hl Hd0 Hc x1.
  by apply after_stream.
Qed.
End server.

(** ** Examples *)

Module UploadExamples.
Import TrimCodec.
Abbreviation str := Utf8.str_bytes.
Definition flat (_ : list Z) (_ : Z) : Q := 0%Q.
Definition cents (_ : Q) : Z := 0.
Definition num_hash (b : bytes) : Hash := to_le 32 (1 + from_le b).
Definition ulid (id : TransferId) : bytes := str "01ARZ3NDEKTSV4RRFFQ69G5FAV".
Definition never (_ : bytes) : bool := false.
Definition T1 : TransferId := CheckpointExamples.T1.
Definition backend : Backend := mkBackend (str "/srv/data") (str "/srv/staging") 0 false None.
Definition DST : bytes := str "a.bin".
Definition SRC : bytes := str "/home/u/a.bin".
Definition file : bytes := [1; 2; 3; 4; 5; 6].
Definition J : job := mkJob T1 6 (num_hash file).
Definition disk0 : gmap bytes bytes := <[SRC := file]> ∅.
Definition fixed (n : Z) : PipelineConfig := mkConfig 4096 Fixed (ChunkParams.fixed n) false.
Definition start (s : flaky) (d : gmap bytes bytes) (es : list event) (data ctl : bytes) : session flaky :=
  mkSession s (mkWorld d ∅ es 0) (mk_stream data None) (mk_stream ctl None) [] [] [].
Definition server := server_upload_session_with_limits (S:=flaky) flat num_hash ulid never backend true.
Definition client (cfg : PipelineConfig) := client_upload_stream (S:=flaky) flat cents num_hash cfg false.
Definition S0 : flaky := CheckpointExamples.store_of [].

(** What the client sends when it gets these answers. *)
Definition sent (cfg : PipelineConfig) (bitmap : ChunkBitmap.t) (answers : bytes) : bytes * bytes :=
  let '(_, y) := client cfg J [] SRC DST bitmap (start S0 disk0 [] [] answers) in (data_out y, ctl_out y).
Definition said (m : Message.t) : bytes := match Session.encode_message flat m 0 with Ok b => b | _ => [] end.
Definition answers : bytes := said (Message.MVerifyResult (VerifyResult.mk T1 true (num_hash file))) ++ said (Message.MCommitted (Committed.mk T1 1)).

Definition x0 : session flaky := let '(data, ctl) := sent (fixed M3_CHUNK_SIZE) ChunkBitmap.new answers in start S0 ∅ [] data ctl.
Lemma upload_verified_witness : let '(r, y) := server false J DST None x0 in verified_by num_hash ulid backend J DST (ctl_in x0) (disk (files x0)) (disk (files y)) r.
Proof. apply (upload_verified flat num_hash ulid never backend J DST true false None x0). vm_compute. discriminate. Defined.

(** The two sides together: the file arrives, and both sides report its hash. *)
Example upload_runs : let '(r, y) := server false J DST None x0 in
  r = Done (num_hash file) /\ disk (files y) !! resolve backend DST = Some file /\ ctl_out y = answers.
Proof. vm_compute. done. Qed.

(** Chunks of another size than the server's: two that begin in the same window count as one. *)
Example small_chunks_lost : let '(data, ctl) := sent (fixed 3) ChunkBitmap.new answers in
  let '(r, y) := server false J DST None (start S0 ∅ [] data ctl) in
  r = Failed (EProtocol (Malformed "server: hash mismatch on verify")) /\ disk (files y) !! staging_path backend (ulid T1) DST = Some [1; 2; 3; 0; 0; 0].
Proof. vm_compute. done. Qed.

(** The journal says that the file is renamed before it is: after a crash in between, recovery takes the
    commit for one to be finalised, and the file is not there. *)
Definition x_crash : session flaky := start S0 ∅ (replicate 9 Go ++ [Crash 0]) (data_in x0).(avail) (ctl_in x0).(avail).
Example renamed_too_early : let '(r, y) := server false J DST None x_crash in
  r = Crashed /\ disk (files y) !! resolve backend DST = None /\
  MockStateStore.recover_commit_journal (mock (store y)) = Ok [Finalize T1 1].
Proof. vm_compute. done. Qed.

(** A resumed upload: the staging file has the chunk, the bitmap says so. *)
Definition one : ChunkBitmap.t := (ChunkBitmap.mark_complete ChunkBitmap.new 0 6).1.
Definition S1 : flaky := (write_bitmap T1 one S0).2.
Definition staged_disk : gmap bytes bytes := <[staging_path backend (ulid T1) DST := file]> ∅.
Definition resumed_run (d : gmap bytes bytes) (es : list event) : res VelcruxError Hash * session flaky :=
  let '(data, ctl) := sent (fixed M3_CHUNK_SIZE) one answers in server true J DST None (start S1 d es data ctl).
Example resume_runs : let '(r, y) := resumed_run staged_disk [] in r = Done (num_hash file) /\ disk (files y) !! resolve backend DST = Some file.
Proof. vm_compute. done. Qed.
(** The bitmap is believed although the staging file is gone: the upload fails, and so does every retry. *)
Example staging_gone : let '(r, y) := resumed_run ∅ [] in
  r = Failed (EProtocol (Malformed "server: hash mismatch on verify")) /\ bitmap_of (store y) T1 = Some one /\ disk (files y) !! staging_path backend (ulid T1) DST = Some [].
Proof. vm_compute. done. Qed.
(** A failed test whether the staging file exists empties it. *)
Example exists_failure_truncates : let '(r, y) := resumed_run staged_disk [Go; Fault 0 []] in
  r = Failed (EProtocol (Malformed "server: hash mismatch on verify")) /\ disk (files y) !! staging_path backend (ulid T1) DST = Some [].
Proof. vm_compute. done. Qed.

(** The write of a chunk fails in the background after two bytes: nobody is told, the chunk is counted in the
    stored bitmap, and the hash does not match; a second session does not send the chunk again and fails in
    the same way. *)
Definition torn_disk : gmap bytes bytes := <[staging_path backend (ulid T1) DST := [1; 2; 0; 0; 0; 0]]> ∅.
Example lost_write_counted :
  (let '(r, y) := server false J DST None (start S0 ∅ [Go; Go; Go; Go; Go; Fault 2 []] (avail (data_in x0)) (avail (ctl_in x0))) in
   r = Failed (EProtocol (Malformed "server: hash mismatch on verify")) /\ bitmap_of (store y) T1 = Some one /\ disk (files y) = torn_disk) /\
  (resumed_run torn_disk []).1 = Failed (EProtocol (Malformed "server: hash mismatch on verify")).
Proof. vm_compute. done. Qed.

(** A file of zeros that compresses well is refused as a bomb. *)
Definition zeros_file : bytes := replicate (Z.to_nat 66000) 0.
Definition JZ : job := mkJob T1 66000 (num_hash zeros_file).
Example compressed_zeros_refused :
  let '(_, c) := client (mkConfig 4096 Fixed (ChunkParams.fixed M3_CHUNK_SIZE) true) JZ [] SRC DST ChunkBitmap.new (start S0 (<[SRC := zeros_file]> ∅) [] [] []) in
  (server false JZ DST None (start S0 ∅ [] (data_out c) (ctl_out c))).1 = Failed (EProtocol (DecompressionBomb "decompression expansion ratio exceeded 500x limit")).
Proof. vm_compute. reflexivity. Qed.
End UploadExamples.
