(* ===== verification/UploadResume.v ===== *)
(** * Interrupted uploads

    When the peer sends chunks of one file, in any order and cut off anywhere, then wherever a session of
    the server ends the chunks that the stored bitmap counts are in the staging file as they are in the file,
    but for at most one whose write failed unnoticed ([upload_resumable]): the next session can go on from
    there. *)

From Stdlib Require Import QArith.
From S2P Require Import Prelude Utf8 Protocol Varint Wire Paths Bitmap StateStore Chunking ChunkEngine FileSys CasGc Frame Compression DataPath MsgTransfer MsgResume Message Session DeltaSync Checkpoint Upload UploadSafety.
Import Str.
Open Scope Z_scope.

(** ** Contents *)

Lemma splice_lookup (c b : bytes) (off : Z) (q : nat) : 0 <= off ->
  splice c off b !! q =
  if decide (Z.of_nat q < off) then (if decide (Z.of_nat q < zlen c) then c !! q else Some 0)
  else if decide (Z.of_nat q < off + zlen b) then b !! (q - Z.to_nat off)%nat else c !! q.
Proof.
  intros Ho. unfold splice, zlen in *. destruct (decide (Z.of_nat q < off)) as [H1|H1].
  - destruct (decide (Z.of_nat q < Z.of_nat (length c))) as [H2|H2].
    + rewrite lookup_app_l by (rewrite length_take; lia). apply lookup_take_lt. lia.
    + rewrite lookup_app_r by (rewrite length_take; lia). rewrite length_take. rewrite lookup_app_l by (rewrite length_replicate; lia).
      apply lookup_replicate_2. lia.
  - rewrite lookup_app_r by (rewrite length_take; lia). rewrite length_take, lookup_app_r by (rewrite length_replicate; lia). rewrite length_replicate.
    replace (q - Z.to_nat off `min` length c - Z.to_nat (off - Z.of_nat (length c)))%nat with (q - Z.to_nat off)%nat by lia.
    destruct (decide (Z.of_nat q < off + Z.of_nat (length b))) as [H2|H2]; [by rewrite lookup_app_l by lia|].
    rewrite lookup_app_r by lia. rewrite lookup_drop. f_equal. lia.
Qed.
Lemma zlen_splice (c b : bytes) off : 0 <= off -> zlen (splice c off b) = Z.max (off + zlen b) (zlen c).
Proof. intros Ho. unfold splice, zlen. rewrite !length_app, length_take, length_replicate, length_drop. lia. Qed.

Section chunks.
Context (f : bytes) (CS : Z) (Hcs : 0 < CS).

Definition window (i : Z) : bytes := take (Z.to_nat CS) (drop (Z.to_nat (i * CS)) f).
(** The index of a chunk of the file. *)
Definition in_file (i : Z) : Prop := 0 <= i /\ i * CS < zlen f.
(** [c] has the bytes of the file at a position, and in a chunk. *)
Definition agrees (c : bytes) (q : nat) : Prop := is_Some (f !! q) -> c !! q = f !! q.
Definition holds (c : bytes) (i : Z) : Prop := forall q : nat, i * CS <= Z.of_nat q < (i + 1) * CS -> agrees c q.

(** No longer than the file, and no worse. *)
Definition better (c c' : bytes) : Prop := (zlen c <= zlen f -> zlen c' <= zlen f) /\ forall q, is_Some (c !! q) -> agrees c q -> agrees c' q.

Lemma better_refl c : better c c.
Proof. done. Qed.
Lemma better_trans c1 c2 c3 : better c1 c2 -> better c2 c3 -> better c1 c3.
Proof.
  intros [Hz1 Hb1] [Hz2 Hb2]. split; [auto|]. intros q Hq Ha Hs. apply Hb2; [|by apply Hb1|done]. rewrite (Hb1 q Hq Ha Hs). done.
Qed.
Lemma better_holds c c' i : better c c' -> holds c i -> holds c' i.
Proof.
  intros [_ Hb] Hh q Hq Hf. apply Hb; [|by apply Hh|done]. specialize (Hh q Hq Hf). by rewrite Hh.
Qed.
Lemma better_grow c n : n <= zlen f -> better c (c ++ replicate (Z.to_nat (n - zlen c)) 0).
Proof.
  intros Hn. split; [unfold zlen in *; rewrite length_app, length_replicate; lia|]. intros q [x Hx] Ha Hf. rewrite lookup_app_l; [by apply Ha|]. by apply lookup_lt_Some in Hx.
Qed.
Lemma better_set_len c : better c (take (Z.to_nat (zlen f)) c ++ replicate (Z.to_nat (zlen f - zlen c)) 0).
Proof.
  split; [unfold zlen in *; rewrite length_app, length_take, length_replicate; lia|]. intros q [x Hx] Ha Hf.
  pose proof (lookup_lt_Some _ _ _ Hx). destruct Hf as [y Hy]. pose proof (lookup_lt_Some _ _ _ Hy).
  rewrite lookup_app_l by (rewrite length_take; unfold zlen; lia). rewrite lookup_take_lt by (unfold zlen; lia). by apply Ha.
Qed.

Lemma window_lookup i k : in_file i -> Z.of_nat k < CS -> window i !! k = f !! (Z.to_nat (i * CS) + k)%nat.
Proof. intros [Hi _] Hk. unfold window. rewrite lookup_take_lt by lia. by rewrite lookup_drop. Qed.
Lemma zlen_window i : in_file i -> 0 < zlen (window i) <= CS /\ i * CS + zlen (window i) = Z.min ((i + 1) * CS) (zlen f).
Proof. intros [Hi Hl]. unfold window, zlen in *. rewrite length_take, length_drop. nia. Qed.

(** A write of a chunk, whole or in part. *)
Lemma better_write c i n : in_file i -> better c (splice c (i * CS) (take n (window i))).
Proof.
  intros Hi. destruct (zlen_window i Hi) as [Hw He]. assert (0 <= i * CS) as Ho by (destruct Hi; nia).
  assert (zlen (take n (window i)) <= zlen (window i)) as Ht by (unfold zlen; rewrite length_take; lia). split.
  - rewrite zlen_splice by done. destruct Hi. lia.
  - intros q [x Hx] Ha Hf. rewrite splice_lookup by done. pose proof (lookup_lt_Some _ _ _ Hx) as Hlt.
    destruct (decide (Z.of_nat q < i * CS)); [rewrite decide_True by (unfold zlen; lia); by apply Ha|].
    destruct (decide (Z.of_nat q < i * CS + zlen (take n (window i)))) as [H|H]; [|by apply Ha].
    assert (Z.of_nat (q - Z.to_nat (i * CS)) < zlen (take n (window i))) as Hk by lia.
    rewrite lookup_take_lt by (unfold zlen in Hk; rewrite length_take in Hk; lia). rewrite window_lookup by (done || lia). f_equal. lia.
Qed.
Lemma write_holds c i : in_file i -> holds (splice c (i * CS) (window i)) i.
Proof.
  intros Hi q Hq [x Hx]. destruct (zlen_window i Hi) as [Hw He]. assert (0 <= i * CS) as Ho by (destruct Hi; nia).
  rewrite splice_lookup by done. rewrite decide_False by lia. apply lookup_lt_Some in Hx as Hlt. rewrite decide_True by (unfold zlen in *; lia).
  rewrite window_lookup by (done || lia). f_equal. lia.
Qed.
End chunks.

(** ** An honest data stream *)

Lemma read_prefix n (h t : bytes) s : zlen h = n -> avail s `prefix_of` h ++ t ->
  match Session.read_exact n s with
  | Ok (Some (b, s')) => b = h /\ avail s' `prefix_of` t
  | Panic => False
  | _ => True
  end.
Proof.
  intros Hn [k Hk]. unfold Session.read_exact. destruct (Z.leb_spec n (zlen (avail s))) as [Hl|]; [|by destruct (reset s)]. cbn [avail].
  assert (length h <= length (avail s))%nat as Hle by (unfold zlen in *; lia). rewrite <- Hn. unfold zlen at 1 2. rewrite !Nat2Z.id.
  assert (take (length h) (avail s) = h) as Ht.
  { rewrite <- (take_app_le _ k) by done. rewrite <- Hk. by rewrite take_app_length. }
  split; [done|]. exists k. apply (app_inv_head h). rewrite Hk, app_assoc. f_equal. transitivity (take (length h) (avail s) ++ drop (length h) (avail s)); [by rewrite take_drop|by rewrite Ht].
Qed.

Section honest.
Context `{Zstd} {S : Type}.
Context (hash_of : bytes -> Hash) (f : bytes) (CS : Z).
Context (Hcs : 0 < CS <= Data.DATA_MAX_CHUNK_LEN) (Hf : zlen f <= FILE_MAX) (Hhash : forall b, wf_hash (hash_of b)).
Local Abbreviation X := (session S).

Definition header_of (i : Z) : Data.DataFrameHeader := Data.mk_header (i * CS) (zlen (window f CS i)) Data.NONE (hash_of (window f CS i)).
Definition frame_of (i : Z) : bytes :=
  Data.header_bytes (i * CS) (zlen (window f CS i)) Data.NONE (hash_of (window f CS i)) ++ window f CS i.
(** What is still to come is the beginning of frames of these chunks. *)
Definition offers (l : list Z) (x : X) : Prop := Forall (in_file f CS) l /\ avail (data_in x) `prefix_of` mjoin (frame_of <$> l).

Lemma header_ok_of i : in_file f CS i -> Data.header_ok (header_of i).
Proof.
  intros Hi. destruct (zlen_window f CS (proj1 Hcs) i Hi) as [Hw He]. destruct Hi as [Hi Hl]. unfold Data.header_ok, FILE_MAX, header_of in *. cbn [Data.chunk_offset Data.chunk_len Data.flags Data.chunk_hash].
  split; [unfold fits; nia|]. split; [lia|]. split; [by vm_compute|apply Hhash].
Qed.

Lemma recv_chunk_honest l x : offers l x ->
  match recv_chunk hash_of x with
  | (Done (Some (hdr, data)), y) => exists i l', l = i :: l' /\ hdr = header_of i /\ data = window f CS i /\ offers l' y
  | _ => True
  end.
Proof.
  intros [Hin Hp]. unfold recv_chunk. unfold bind at 1, recv_data at 1. destruct l as [|i l].
  { apply prefix_nil_inv in Hp. unfold Session.read_exact. rewrite Hp. cbn. by destruct (reset (data_in x)). }
  apply Forall_cons in Hin as [Hi Hin]. cbn [fmap list_fmap mjoin list_join] in Hp. unfold frame_of in Hp. rewrite <- app_assoc in Hp.
  pose proof (header_ok_of i Hi) as Hok. destruct (zlen_window f CS (proj1 Hcs) i Hi) as [Hw _].
  assert (zlen (Data.header_bytes (i * CS) (zlen (window f CS i)) Data.NONE (hash_of (window f CS i))) = Data.DATA_FRAME_HEADER_LEN) as Hlen.
  { unfold Data.header_bytes. rewrite !zlen_app, !zlen_to_le. by rewrite (proj2 (Hhash _)). }
  pose proof (read_prefix _ _ _ _ Hlen Hp) as Hr. destruct (Session.read_exact Data.DATA_FRAME_HEADER_LEN (data_in x)) as [[[hb s]|]| |]; [|done..].
  destruct Hr as [-> Hs]. pose proof (Data.header_roundtrip (header_of i) [] Hok) as Hd. rewrite app_nil_r in Hd. cbn [Data.chunk_offset Data.chunk_len Data.flags Data.chunk_hash header_of] in Hd.
  unfold bind at 1, of_protocol, of_outcome. rewrite Hd. cbn [map_err Data.flags Data.chunk_len header_of]. change (Data.is_hole Data.NONE) with false. change (Data.compressed Data.NONE) with false. cbv iota.
  rewrite (proj2 (Z.ltb_lt 0 _)) by lia. unfold bind at 1, bind at 1, recv_data. cbn [data_in].
  pose proof (read_prefix _ _ _ _ eq_refl Hs) as Hr. destruct (Session.read_exact (zlen (window f CS i)) s) as [[[pb s']|]| |]; [|done..].
  destruct Hr as [-> Hs']. cbv beta iota delta [ret bind]. cbn [Data.chunk_hash header_of]. rewrite bool_decide_eq_true_2 by done. cbn [negb]. by exists i, l.
Qed.
End honest.

(** ** What the stored bitmap promises *)

Lemma set_mark m i n : ChunkBitmap.set (ChunkBitmap.mark_complete m i n).1 ⊆ i :: ChunkBitmap.set m.
Proof.
  assert (forall l, (BTreeSet.insert i l).2 ⊆ i :: l) as Hins.
  { induction l as [|y l IH]; cbn [BTreeSet.insert]; [done|]. repeat case_match; cbn [snd] in *; try set_solver. }
  unfold ChunkBitmap.mark_complete. specialize (Hins (ChunkBitmap.set m)). destruct (BTreeSet.insert i (ChunkBitmap.set m)) as [[] l]; done.
Qed.

Section resume.
Context `{Zstd} {S : Type} `{StateStoreLaws S}.
Context (entropy_sum : list Z -> Z -> Q) (hash_of : bytes -> Hash) (ulid_text : TransferId -> bytes) (no_space : bytes -> bool).
Context (b : Backend) (j : job) (dst f : bytes).
Context (Hf : zlen f <= FILE_MAX) (Hhash : forall b, wf_hash (hash_of b)) (Hsize : size j = zlen f) (Hwhole : whole j <> HASH_ZERO).
Local Abbreviation X := (session S).
Local Abbreviation CS := M3_CHUNK_SIZE.
Local Abbreviation sp := (staging_path b (ulid_text (tid j)) dst).

(** The chunks of [l] are in the staging file, those of [lost] apart. *)
Section lost.
Context (lost : list Z).
Definition covers (d : gmap bytes bytes) (l : list Z) : Prop := forall i, i ∈ l -> i ∉ lost -> exists c, d !! sp = Some c /\ holds f CS c i.
(** The chunks of [l] and those of the stored bitmap are in the staging file, which is no longer than the file. *)
Definition inv (l : list Z) (v : gmap bytes bytes * S) : Prop :=
  sane v.2 /\ (forall c, v.1 !! sp = Some c -> zlen c <= zlen f) /\ covers v.1 l /\ forall m, bitmap_of v.2 (tid j) = Some m -> covers v.1 (ChunkBitmap.set m).
Definition staged (x : X) : Prop := inv [] (on_both x).
(** The same, and the staging file is there. *)
Definition live (l : list Z) (v : gmap bytes bytes * S) : Prop := inv l v /\ is_Some (v.1 !! sp).

Lemma inv_less l l' v : l' ⊆ l -> inv l v -> inv l' v.
Proof. intros Hl (Hs & Hz & Hc & Hb). split; [done|]. split; [done|]. split; [|done]. intros i Hi. by apply Hc, Hl. Qed.
Lemma inv_nil l v : inv l v -> inv [] v.
Proof. apply inv_less. by intros i Hi%elem_of_nil. Qed.

(** A change of the staging file that loses nothing. *)
Definition upgrade (o o' : option bytes) : Prop :=
  match o, o' with
  | Some c, Some c' => better f c c'
  | Some _, None => False
  | None, Some c' => zlen c' <= zlen f
  | None, None => True
  end.
Lemma upgrade_refl o : upgrade o o.
Proof. by destruct o. Qed.
Lemma upgrade_trans o1 o2 o3 : upgrade o1 o2 -> upgrade o2 o3 -> upgrade o1 o3.
Proof. destruct o1, o2, o3; cbn; try done; [apply better_trans|]. intros Hz [Hl _]. auto. Qed.
Lemma inv_upgrade l d d' s : upgrade (d !! sp) (d' !! sp) -> inv l (d, s) -> inv l (d', s).
Proof.
  intros Hu (Hs & Hz & Hc & Hb).
  assert (forall l, covers d l -> covers d' l) as Hup.
  { intros k Hk i Hi Hn. destruct (Hk i Hi Hn) as (c & Hd & Hh). rewrite Hd in Hu. destruct (d' !! sp) as [c'|] eqn:E; [|done]. exists c'. split; [done|]. by eapply better_holds. }
  split; [done|]. split; [|split; [by apply Hup|intros m Hm; by apply Hup, Hb]]. intros c Hc'. cbn in *. rewrite Hc' in Hu.
  destruct (d !! sp) as [c0|]; [|done]. apply Hu. by apply Hz.
Qed.
Lemma live_upgrade l d d' s : upgrade (d !! sp) (d' !! sp) -> live l (d, s) -> live l (d', s).
Proof. intros Hu [Hi [c Hc]]. split; [by eapply inv_upgrade|]. cbn in *. rewrite Hc in Hu. by destruct (d' !! sp). Qed.

(** Computations of the files that lose nothing. *)
Definition ups {E A} (c : M fs E A) : Prop := forall w, upgrade (disk w !! sp) (disk (c w).2 !! sp).
Lemma ups_ret {E A} (a : A) : ups (@ret fs E A a).
Proof. intros w. apply upgrade_refl. Qed.
Lemma ups_throw {E A} (e : E) : ups (@throw fs E A e).
Proof. intros w. apply upgrade_refl. Qed.
Lemma ups_bind {E A B} (c : M fs E A) (k : A -> M fs E B) : ups c -> (forall a, ups (k a)) -> ups (bind c k).
Proof. intros Hc Hk w. unfold bind. specialize (Hc w). destruct (c w) as [[a|e|] w1]; [|done..]. eapply upgrade_trans; [exact Hc|]. apply Hk. Qed.
Lemma ups_attempt {E F A} (c : M fs E A) : ups c -> ups (@attempt fs E F A c).
Proof. intros Hc w. unfold attempt. specialize (Hc w). by destruct (c w) as [[a|e|] w1]. Qed.
Lemma ups_ignore {E F A} (c : M fs E A) : ups c -> ups (@ignore fs E F A c).
Proof. intros Hc w. unfold ignore. specialize (Hc w). by destruct (c w) as [[a|e|] w1]. Qed.
Lemma ups_when {E} a (c : M fs E unit) : ups c -> ups (when a c).
Proof. destruct a; [done|]. intros _. apply ups_ret. Qed.
Lemma ups_call {A} (go : fs -> res bytes A * fs) part : (forall w, upgrade (disk w !! sp) (disk (go w).2 !! sp)) ->
  (forall n w, upgrade (disk w !! sp) (disk (part n w) !! sp)) -> ups (call go part).
Proof. intros Hg Hp w. unfold call. destruct (events w) as [|[]]; [apply (Hg (mkWorld (disk w) (docs w) _ _))..|apply (Hp _ (mkWorld (disk w) (docs w) _ _))|apply (Hp _ (mkWorld (disk w) (docs w) _ _))]. Qed.
Lemma upgrade_edit g w : (forall c, better f c (g c)) -> upgrade (disk w !! sp) (disk (edit sp g w) !! sp).
Proof. intros Hg. cbn. rewrite lookup_alter_eq. destruct (disk w !! sp); [apply Hg|done]. Qed.
Lemma ups_set_len : ups (set_len sp (size j)).
Proof. apply ups_call; [|intros; apply upgrade_refl]. intros w. apply upgrade_edit. intros c. rewrite Hsize. apply better_set_len. Qed.
Lemma ups_allocate : ups (allocate sp (size j)).
Proof. apply ups_call; [|intros; apply upgrade_refl]. intros w. apply upgrade_edit. intros c. apply better_grow. by rewrite Hsize. Qed.
Lemma ups_reserve resumed : ups (reserve no_space b sp (size j) resumed).
Proof.
  unfold reserve. case_match.
  - apply ups_bind; [apply ups_attempt, ups_allocate|]. intros [e|u]; [|apply ups_ret]. case_match; [apply ups_throw|apply ups_ignore, ups_set_len].
  - apply ups_when, ups_ignore, ups_set_len.
Qed.
Lemma ups_write err i : in_file f CS i -> ups (seek_write sp err (i * CS) (window f CS i)).
Proof.
  intros Hi. unfold seek_write. case_match; [apply ups_throw|]. apply ups_bind; [apply ups_call; intros; apply upgrade_refl|intros []].
  assert (ups (background_write sp (i * CS) (window f CS i))) as Hw.
  { intros w. unfold background_write. case_match; [case_match; apply upgrade_refl|].
    assert (ups (write_at sp (i * CS) (window f CS i))) as Hc.
    { apply ups_call.
      - intros v. apply upgrade_edit. intros c. rewrite <- (take_ge (window f CS i) (length (window f CS i))) at 1 by done. by apply better_write.
      - intros n v. apply upgrade_edit. intros c. by apply better_write. }
    specialize (Hc w). destruct (write_at sp (i * CS) (window f CS i) w) as [[u|e|] w']; try case_match; exact Hc. }
  destruct (window f CS i), err; [apply ups_ret..|apply ups_throw|exact Hw].
Qed.

Lemma ups_with {A} (c : M fs VelcruxError A) (D : gmap bytes bytes * S -> Prop) : ups c -> (forall d d' s, upgrade (d !! sp) (d' !! sp) -> D (d, s) -> D (d', s)) ->
  triple (fun x : X => D (on_both x)) (with_files c) (fun _ x => D (on_both x)) (fun x => D (on_both x)).
Proof. intros Hc HD x Hx. unfold with_files. specialize (Hc (files x)). destruct (c (files x)) as [[a|e|] w]; (eapply HD; [exact Hc|exact Hx]). Qed.
Lemma ups_files {A} (c : M fs bytes A) (D : gmap bytes bytes * S -> Prop) : ups c -> (forall d d' s, upgrade (d !! sp) (d' !! sp) -> D (d, s) -> D (d', s)) ->
  triple (fun x : X => D (on_both x)) (on_files c) (fun _ x => D (on_both x)) (fun x => D (on_both x)).
Proof. intros Hc HD x Hx. unfold on_files, map_error. specialize (Hc (files x)). destruct (c (files x)) as [[a|e|] w]; (eapply HD; [exact Hc|exact Hx]). Qed.

(** Calls of the store that write at most a bitmap of chunks in [l]. *)
Definition honest_store {E A} (l : list Z) (c : M S E A) : Prop := forall s, sane s ->
  sane (c s).2 /\ (bitmap_of (c s).2 (tid j) = bitmap_of s (tid j) \/ exists m, bitmap_of (c s).2 (tid j) = Some m /\ ChunkBitmap.set m ⊆ l).
Lemma inv_store {E A} l (c : M S E A) d s : honest_store l c -> inv l (d, s) -> inv l (d, (c s).2).
Proof.
  intros Hc (Hs & Hz & Hl & Hb). destruct (Hc s Hs) as [Hs' Hm]. split; [done|]. split; [done|]. split; [done|]. cbn in *. intros m Hm'.
  destruct Hm as [Heq|(m' & Heq & Hsub)]; rewrite Heq in Hm'; [by apply Hb|]. injection Hm' as <-. intros i Hi. by apply Hl, Hsub.
Qed.
Lemma live_store {E A} l (c : M S E A) : honest_store l c ->
  triple (fun x : X => live l (on_both x)) (on_store c) (fun _ x => live l (on_both x)) (fun x => live l (on_both x)).
Proof.
  intros Hc x [Hi Hx]. unfold on_store. assert (live l (disk (files x), (c (store x)).2)) as Hl by (split; [by apply inv_store|done]).
  revert Hl. by destruct (c (store x)) as [[a|e|] s].
Qed.
Lemma store_write_bitmap l m : ChunkBitmap.set m ⊆ l -> honest_store l (write_bitmap (tid j) m).
Proof.
  intros Hl s Hs. pose proof (write_bitmap_law (tid j) m s Hs) as Hw. destruct (write_bitmap (tid j) m s) as [r s']. destruct Hw as (Hs' & [_ Hb] & _).
  split; [done|]. cbn. destruct (Hb (tid j)) as [->|[_ ->]]; [by left|]. right. by exists m.
Qed.
Lemma store_commit l c n m t0 t1 now_ms : ChunkBitmap.set m ⊆ l -> honest_store l (commit_checkpoint c (tid j) n m t0 t1 now_ms).
Proof.
  intros Hl s Hs. pose proof (commit_law c (tid j) n m t0 t1 now_ms s Hs) as Hw. destruct (commit_checkpoint c (tid j) n m t0 t1 now_ms s) as [r s']. destruct Hw as (Hs' & Hb & _).
  split; [done|]. cbn. destruct (Hb (tid j)) as [->|[_ ->]]; [by left|]. right. by exists m.
Qed.
Lemma store_journal l e : honest_store l (write_journal e).
Proof. intros s Hs. pose proof (journal_law e s Hs) as Hw. destruct (write_journal e s) as [r s']. destruct Hw as (Hs' & _ & Hb). split; [done|]. left. cbn. by rewrite Hb. Qed.
Lemma store_committed l id n : honest_store l (mark_journal_committed id n).
Proof. intros s Hs. pose proof (journal_committed_law id n s Hs) as Hw. destruct (mark_journal_committed id n s) as [r s']. destruct Hw as (Hs' & _ & Hb). split; [done|]. left. cbn. by rewrite Hb. Qed.

(** ** The loop *)

Lemma live_less l l' v : l' ⊆ l -> live l v -> live l' v.
Proof. intros Hl [Hi Hx]. split; [by eapply inv_less|done]. Qed.

Lemma live_nil l v : live l v -> live [] v.
Proof. apply live_less. by intros i Hi%elem_of_nil. Qed.

(** The data stream moves on only when it is read. *)
Lemma data_files {A} (c : M fs bytes A) : keeps (S:=S) data_in (on_files c).
Proof. intros x. unfold on_files. by destruct (map_error io_error c (files x)). Qed.
Lemma data_store {E A} (c : M S E A) : keeps (S:=S) data_in (on_store c).
Proof. intros x. unfold on_store. by destruct (c (store x)). Qed.
Lemma data_clock : keeps (S:=S) data_in read_clock.
Proof. done. Qed.
#[local] Hint Resolve data_files data_store data_clock : keeps.
Lemma data_progress has_store id k c n : keeps (S:=S) data_in (progress_of has_store id k c n).
Proof. unfold progress_of, fsync. keeps. Qed.

Lemma triple_and {Y E A} (g : X -> Y) (D : Y -> Prop) P (c : M X E A) Q R : keeps g c -> triple P c Q R -> triple (fun x => D (g x) /\ P x) c (fun a x => D (g x) /\ Q a x) R.
Proof. intros Hg Hc x [HD Hx]. specialize (Hc x Hx). specialize (Hg x). destruct (c x) as [[a|e|] y]; [|done..]. cbn in Hg. by rewrite Hg. Qed.

Lemma progress_inv has_store k c n l : ChunkBitmap.set (bm k) ⊆ l ->
  triple (fun x : X => live l (on_both x)) (progress_of has_store (tid j) k c n) (fun _ x => live l (on_both x)) (fun x => live l (on_both x)).
Proof.
  intros Hl. unfold progress_of. case_match; [by apply triple_ret|].
  eapply triple_bind; [apply keeps_triple; keeps|intros now]. cbv beta. destruct (observe_chunk c n now) as [c' due]. destruct due; [|by apply triple_ret].
  eapply triple_bind; [apply keeps_triple; unfold fsync; keeps|intros []]. cbv beta. eapply triple_bind; [apply keeps_triple; keeps|intros t0]. eapply triple_bind; [apply keeps_triple; keeps|intros now_ms]. eapply triple_bind; [apply keeps_triple; keeps|intros t1]. cbv beta.
  eapply triple_bind with (Q := fun _ x => live l (on_both x)).
  - apply triple_attempt. intros x Hx. pose proof (live_store l _ (store_commit l c' (received k) (bm k) t0 t1 now_ms Hl) x Hx) as Hs.
    destruct (on_store _ x) as [[c1|e|] y]; done.
  - intros r. by apply triple_ret.
Qed.

(** ** The beginning *)

(** Nothing is counted as received but what is lost. *)
Definition fresh (x : X) : Prop := forall m, bitmap_of (store x) (tid j) = Some m -> ChunkBitmap.set m ⊆ lost.
(** The question whether the staging file exists, the second call of the files, is answered. *)
Definition answered (x : X) : Prop := forall n msg, events (files x) !! 1%nat <> Some (Fault n msg).
Definition ready (resumed : bool) (l : list Z) (x : X) : Prop :=
  inv l (on_both x) /\ (if resumed then answered x else fresh x /\ l ⊆ lost).

Lemma inv_empty l d s : sane s -> (forall c, d !! sp = Some c -> zlen c <= zlen f) -> (forall m, bitmap_of s (tid j) = Some m -> ChunkBitmap.set m ⊆ lost) -> l ⊆ lost -> inv l (d, s).
Proof. intros Hs Hz He Hl. split; [done|]. split; [done|]. split; [intros i Hi Hn; by apply Hl in Hi|]. intros m Hm i Hi Hn. cbn in Hm. by apply (He m Hm) in Hi. Qed.

(** Without a staging file nothing else can be counted. *)
Lemma inv_absent l x : inv l (on_both x) -> disk (files x) !! sp = None -> fresh x /\ l ⊆ lost.
Proof.
  intros (_ & _ & Hl & Hb) Hn. assert (forall l', covers (disk (files x)) l' -> l' ⊆ lost) as He.
  { intros l' Hc i Hi. destruct (decide (i ∈ lost)) as [|Hno]; [done|]. destruct (Hc i Hi Hno) as (c & Hd & _). congruence. }
  split; [|by apply He]. intros m Hm. by apply He, Hb.
Qed.

Lemma open_inv (truncate : bool) l x : inv l (on_both x) -> (if truncate then fresh x /\ l ⊆ lost else is_Some (disk (files x) !! sp)) ->
  match on_files (open_file sp truncate) x with (Done _, y) => live l (on_both y) | (_, y) => inv l (on_both y) end.
Proof.
  intros Hi Ht. unfold on_files, map_error, open_file, call. destruct (events (files x)) as [|[]]; try done; cbn [fst snd];
    (destruct truncate; [destruct Ht as [Hfr Hls]; split; [apply inv_empty; [apply Hi| |exact Hfr|exact Hls]; cbn; rewrite lookup_insert_eq; intros c [= <-]; unfold zlen; cbn; lia|cbn; by rewrite lookup_insert_eq]|];
     destruct Ht as [c Hc]; cbn [disk]; rewrite Hc; split; [exact Hi|]; cbn; by rewrite Hc).
Qed.

Lemma parents_event p x : let '(r, y) := on_files (S:=S) (create_parents p) x in events (files y) = tail (events (files x)).
Proof. unfold on_files, map_error, create_parents, create_dir_all, call. by destruct (events (files x)) as [|[]]. Qed.
Lemma exists_answer x : (forall n msg, events (files x) !! 0%nat <> Some (Fault n msg)) ->
  match with_files (S:=S) (ok (try_exists sp)) x with
  | (Done r, y) => r = Some (bool_decide (is_Some (disk (files x) !! sp))) /\ on_both y = on_both x
  | (_, y) => on_both y = on_both x
  end.
Proof.
  intros Hn. unfold with_files, ok, try_exists, call. destruct (events (files x)) as [|[|n msg|n]] eqn:E; try done. by destruct (Hn n msg).
Qed.
Lemma exists_still x : on_both (with_files (S:=S) (ok (try_exists sp)) x).2 = on_both x.
Proof. unfold with_files, ok, try_exists, call. by destruct (events (files x)) as [|[]]. Qed.

Lemma open_staging_inv resumed l :
  triple (ready resumed l) (open_staging_resumable (S:=S) no_space b (ulid_text (tid j)) dst (size j) resumed)
    (fun _ x => live l (on_both x)) (fun x => inv l (on_both x)).
Proof.
  intros x [Hi Hr]. unfold open_staging_resumable. unfold bind at 1, of_outcome. destruct (check_space b (size j)); [|done..].
  unfold bind at 1. pose proof (still_parents sp x) as Hs. pose proof (parents_event sp x) as He. destruct (on_files (create_parents sp) x) as [[u|e|] x1]; cbn [snd] in Hs; rewrite <- Hs in Hi; [|done..].
  unfold bind at 1. assert (fresh x1 /\ l ⊆ lost \/ resumed = true /\ forall n msg, events (files x1) !! 0%nat <> Some (Fault n msg)) as Hr1.
  { destruct resumed; [right|left]. - split; [done|]. intros n msg. specialize (Hr n msg). rewrite He. by destruct (events (files x)). - unfold fresh. unfold on_both in Hs. injection Hs as _ ->. exact Hr. }
  assert (match with_files (ok (try_exists sp)) x1 with (Done r, y) => on_both y = on_both x1 /\ (if resumed && default false r then is_Some (disk (files y) !! sp) else fresh y /\ l ⊆ lost) | (_, y) => on_both y = on_both x1 end) as Hex.
  { destruct Hr1 as [Hfr|[-> Hn]].
    - pose proof (exists_still x1) as Hq. assert (resumed = false \/ resumed = true) as [->| ->] by (destruct resumed; auto).
      + destruct (with_files (ok (try_exists sp)) x1) as [[r|e|] y]; cbn [snd] in Hq; try done. split; [done|]. cbn. unfold fresh in *. unfold on_both in Hq. injection Hq as _ ->. exact Hfr.
      + unfold with_files, ok, try_exists, call. destruct (events (files x1)) as [|[]]; cbn; try done; (split; [done|]; case_bool_decide; [done|exact Hfr]).
    - pose proof (exists_answer x1 Hn) as Ha. destruct (with_files (ok (try_exists sp)) x1) as [[r|e|] y]; try done. destruct Ha as [-> Hq]. split; [done|]. cbn.
      unfold on_both in Hq. injection Hq as Hd Hst. rewrite Hd. case_bool_decide as Hc; [done|]. unfold fresh. rewrite Hst. apply inv_absent; [done|]. by apply eq_None_not_Some. }
  destruct (with_files (ok (try_exists sp)) x1) as [[r|e|] x2]; [|by rewrite Hex..]. destruct Hex as [Hq Ht]. rewrite <- Hq in Hi.
  unfold bind at 1. pose proof (open_inv (if resumed && default false r then false else true) l x2 Hi) as Ho.
  assert (if (if resumed && default false r then false else true) then fresh x2 /\ l ⊆ lost else is_Some (disk (files x2) !! sp)) as Ht' by by destruct (resumed && default false r).
  specialize (Ho Ht'). destruct (on_files (open_file sp _) x2) as [[v|e|] x3]; [|done..].
  unfold bind at 1. pose proof (ups_with (reserve no_space b sp (size j) resumed) (live l) (ups_reserve resumed) (live_upgrade l) x3 Ho) as Hv.
  destruct (with_files (reserve no_space b sp (size j) resumed) x3) as [[v'|e|] x4]; [|apply Hv..].
  unfold bind. destruct (resumed && default false r); [|done]. pose proof (still_len sp x4) as Hk. unfold bind in Hk. destruct (with_files _ x4) as [[m|e|] x5]; cbn [snd] in Hk; rewrite <- Hk in Hv; [done|apply Hv..].
Qed.

Lemma data_with {A} (c : M fs VelcruxError A) : keeps (S:=S) data_in (with_files c).
Proof. intros x. unfold with_files. by destruct (c (files x)). Qed.
Lemma data_open n resumed : keeps (S:=S) data_in (open_staging_resumable no_space b (ulid_text (tid j)) dst n resumed).
Proof. pose proof @data_with. unfold open_staging_resumable. keeps. Qed.

(** The data stream: a preamble and chunks, cut off anywhere. *)
Definition honest_stream (x : X) : Prop := exists pre l, zlen pre = Data.DATA_PREAMBLE_LEN /\ Forall (in_file f CS) l /\
  avail (data_in x) `prefix_of` pre ++ mjoin (frame_of hash_of f CS <$> l).

(** ** The end *)

Definition published (x : X) : Prop := exists v, on_disk x !! resolve b dst = Some v /\ hash_of v = whole j.
Definition ends (x : X) : Prop := staged x \/ published x.
(** The chunks are there, and [v] is the whole staging file. *)
Definition holding (l : list Z) (v : bytes) (x : X) : Prop := on_disk x !! sp = Some v /\ live l (on_both x).
Lemma holding_ends l v x : holding l v x -> ends x.
Proof. intros [_ [Hi _]]. left. by eapply inv_nil. Qed.

Lemma holding_still {E A} l v (c : M X E A) : keeps on_both c -> triple (holding l v) c (fun _ => holding l v) ends.
Proof.
  intros Hc x Hx. specialize (Hc x). assert (forall y, on_both y = on_both x -> holding l v y) as Hy.
  { intros y Hy. destruct Hx as [Hd Hl]. split; [|by rewrite Hy]. change (on_disk y) with (on_both y).1. by rewrite Hy. }
  destruct (c x) as [[a|e|] y]; [by apply Hy|by eapply holding_ends, Hy..].
Qed.
Lemma holding_store {E A} l v (c : M S E A) : honest_store l c -> triple (holding l v) (on_store c) (fun _ => holding l v) (holding l v).
Proof.
  intros Hc x [Hd Hl]. pose proof (live_store l c Hc x Hl) as Hs. pose proof (quiet_store c x) as Hq.
  destruct (on_store c x) as [[a|e|] y]; cbn [snd] in Hq; (split; [by rewrite Hq|done]).
Qed.

Lemma holding_when l v a (c : M X VelcruxError unit) : triple (holding l v) c (fun _ => holding l v) ends -> triple (holding l v) (when a c) (fun _ => holding l v) ends.
Proof. destruct a; [done|]. by intros _ x Hx. Qed.
Lemma holding_ignore {E A} l v (c : M S E A) : honest_store l c -> triple (holding l v) (@ignore X E VelcruxError A (on_store c)) (fun _ => holding l v) ends.
Proof. intros Hc x Hx. pose proof (holding_store l v c Hc x Hx) as Hs. unfold ignore. destruct (on_store c x) as [[a|e|] y]; [done|done|by eapply holding_ends]. Qed.

(** A record of the store that is read and written back changed. *)
Lemma store_update (g : TransferRecord -> TransferRecord) r s : sane s -> record_of s (tid j) = Some r -> transfer_id (g r) = transfer_id r -> role (g r) = role r -> idempotency_key (g r) = idempotency_key r ->
  sane (update_transfer (g r) s).2 /\ bitmap_of (update_transfer (g r) s).2 = bitmap_of s.
Proof.
  intros Hs Hr Hid Hro Hk. pose proof (sane_id s (tid j) r Hs Hr) as Ht. pose proof (update_transfer_law (g r) r s Hs) as Hu.
  rewrite Hid, Ht in Hu. specialize (Hu Hr Hro Hk). destruct (update_transfer (g r) s) as [o s']. by destruct Hu as (Hs' & [Hb _] & _).
Qed.

Lemma take_checkpoint_inv has_store m v payload l : ChunkBitmap.set m ⊆ l ->
  triple (holding l v) (take_checkpoint has_store (tid j) m payload) (fun _ => holding l v) ends.
Proof.
  intros Hm. unfold take_checkpoint. destruct (MsgResume.Checkpoint.decode payload) as [cp|e|]; [|by intros x Hx|by intros x Hx; eapply holding_ends].
  apply holding_when. eapply triple_bind; [apply holding_ignore; by apply store_write_bitmap|intros u]. cbv beta. intros x Hx.
  unfold bind, ok, on_store at 1. destruct Hx as [Hd Hl]. assert (sane (store x)) as Hs by apply Hl. pose proof (get_transfer_law (tid j) (store x) Hs) as Hg.
  destruct (get_transfer (tid j) (store x)) as [[r|e|] s1]; destruct Hg as (Hs1 & Hr1 & Hb1 & Hx1).
  - specialize (Hx1 r eq_refl). rewrite <- Hr1 in Hx1. unfold ignore, on_store. cbn [store files].
    match goal with |- context [update_transfer ?r' s1] => pose proof (store_update (fun _ => r') r s1 Hs1 Hx1 eq_refl eq_refl eq_refl) as [Hs2 Hb2]; destruct (update_transfer r' s1) as [[o|e|] s2] end;
      cbn [snd] in Hs2, Hb2; rewrite Hb1 in Hb2; destruct Hl as [(_ & Hz & Hc & Hst) He];
      (assert (inv l (disk (files x), s2)) as Hi by (split; [done|]; split; [done|]; split; [done|]; cbn; rewrite Hb2; exact Hst)); [split; [done|split; done]..|left; by eapply inv_nil].
  - split; [done|]. destruct Hl as [(_ & Hz & Hc & Hst) He]. split; [|done]. split; [done|]. split; [done|]. split; [done|]. cbn. rewrite Hb1. exact Hst.
  - left. destruct Hl as [(_ & Hz & Hc & Hst) He]. eapply inv_nil. split; [done|]. split; [done|]. split; [done|]. cbn. rewrite Hb1. exact Hst.
Qed.
Lemma await_inv has_store m v l fuel : ChunkBitmap.set m ⊆ l -> triple (holding l v) (await_verify fuel has_store (tid j) m) (fun _ => holding l v) ends.
Proof.
  intros Hm. induction fuel as [|fuel IH]; cbn [await_verify]; [by intros x Hx; eapply holding_ends|].
  eapply triple_bind; [apply holding_still; keeps|intros fr]. cbv beta. case_match; [|by apply triple_ret].
  eapply triple_bind; [by apply take_checkpoint_inv|intros u]. exact IH.
Qed.

Lemma still_say m : keeps (S:=S) on_both (say entropy_sum m).
Proof. unfold say. keeps. Qed.
Lemma still_answer h fr : keeps (S:=S) on_both (answer_verify entropy_sum j h fr).
Proof. pose proof still_say. unfold answer_verify, of_protocol. keeps. Qed.

Lemma published_quiet {E A} (c : M X E A) : keeps on_disk c -> triple published c (fun _ => published) ends.
Proof. intros Hc x Hx. specialize (Hc x). assert (published (c x).2) as Hp by (unfold published; by rewrite Hc). destruct (c x) as [[a|e|] y]; [done|by right..]. Qed.

Lemma store_files {A} (c : M fs bytes A) : keeps (S:=S) store (on_files c).
Proof. intros x. unfold on_files. by destruct (map_error io_error c (files x)). Qed.
Lemma commit_inv v l : sp <> resolve b dst -> hash_of v = whole j -> triple (holding l v) (commit b sp dst) (fun _ => published) ends.
Proof.
  intros Hne Hv. unfold commit. eapply triple_bind; [apply holding_still; keeps|intros u]. cbv beta.
  eapply triple_bind with (Q := fun _ => published); [|intros u'; eapply triple_bind; [apply published_quiet; keeps|intros u2; apply published_quiet; keeps]].
  intros x Hx. pose proof (rename_files sp (resolve b dst) x Hne) as Hr. pose proof (holding_ends _ _ _ Hx) as He. destruct Hx as [Hd Hl].
  pose proof (store_files (rename_file sp (resolve b dst)) x) as Hst.
  destruct (on_files (rename_file sp (resolve b dst)) x) as [[u'|e|] y]; destruct Hr as [_ Hr]; cbn [snd] in Hst.
  - exists v. split; [|done]. unfold on_disk in *. by rewrite Hr.
  - left. unfold staged, on_both. rewrite Hr, Hst. eapply inv_nil. apply Hl.
  - left. unfold staged, on_both. rewrite Hr, Hst. eapply inv_nil. apply Hl.
Qed.

Lemma finish_inv has_store v l : sp <> resolve b dst -> hash_of v = whole j -> triple (holding l v) (finish_commit entropy_sum b has_store j dst sp) (fun _ => ends) ends.
Proof.
  intros Hne Hv. unfold finish_commit, of_protocol. eapply triple_bind; [apply holding_still; keeps|intros fr]. cbv beta. case_match; [by apply triple_throw; intros x; apply holding_ends|].
  eapply triple_bind; [apply holding_still; keeps|intros m]. cbv beta. case_match; [by apply triple_throw; intros x; apply holding_ends|].
  eapply triple_bind; [apply holding_still; keeps|intros now]. cbv beta. eapply triple_bind; [apply holding_when, holding_ignore, store_journal|intros u]. cbv beta.
  eapply triple_bind; [apply holding_still; keeps|intros n]. cbv beta. eapply triple_bind; [by apply commit_inv|intros u2]. cbv beta.
  eapply triple_bind; [apply published_quiet; keeps|intros u3]. eapply triple_post; [|apply published_quiet; pose proof still_say; keeps]. intros ? ? ?. by right.
Qed.

(** The bitmap a session begins with. *)
Lemma bitmap_ready (has_store resumed : bool) : triple (E:=VelcruxError) (fun x : X => honest_stream x /\ staged x /\ (if resumed then answered x else fresh x))
  (if has_store && resumed then let! r := ok (on_store (read_bitmap (tid j))) in ret (default ChunkBitmap.new r) else ret ChunkBitmap.new)
  (fun bitmap x => honest_stream x /\ ready resumed (ChunkBitmap.set bitmap) x) staged.
Proof.
  intros x (Hh & Hst & Hr). destruct (has_store && resumed) eqn:E.
  - apply andb_true_iff in E as [_ ->]. unfold bind, ok, on_store. pose proof (read_bitmap_law (tid j) (store x) (proj1 Hst)) as Hb.
    assert (forall l s', sane s' -> bitmap_of s' = bitmap_of (store x) -> covers (disk (files x)) l -> inv l (disk (files x), s')) as Hi.
    { intros l s' Hs' Hbm Hl. destruct Hst as (_ & Hz & _ & Hm). split; [done|]. split; [done|]. split; [done|]. cbn. rewrite Hbm. exact Hm. }
    destruct (read_bitmap (tid j) (store x)) as [[m|e|] s']; destruct Hb as (Hs' & _ & Hbm & Hm); cbn.
    + split; [exact Hh|]. split; [|exact Hr]. apply Hi; [done..|]. apply Hst. by apply Hm.
    + split; [exact Hh|]. split; [|exact Hr]. apply Hi; [done..|]. by intros i Hi'%elem_of_nil.
    + apply Hi; [done..|]. by intros i Hi'%elem_of_nil.
  - split; [exact Hh|]. split; [exact Hst|]. destruct resumed; [exact Hr|]. split; [exact Hr|by intros i Hi%elem_of_nil].
Qed.

Lemma hash_inv l : triple (fun x : X => live l (on_both x)) (compute_staging_hash hash_of b (ulid_text (tid j)) dst)
  (fun h z => exists v, hash_of v = h /\ holding l v z) ends.
Proof.
  intros x Hx. unfold compute_staging_hash, bind. pose proof (still_read sp x) as Hs.
  pose proof (read_done sp x) as Hv.
  destruct (on_files (read_file sp) x) as [[v|e|] y]; cbn [snd] in Hs; rewrite <- Hs in Hx; [|left; eapply inv_nil, Hx..].
  exists v. split; [done|]. split; [|done]. change (on_disk y) with (on_both y).1. rewrite Hs. by eapply Hv.
Qed.

End lost.

(** ** Calls that do not fail *)

Definition calm_events (es : list event) : Prop := Forall (fun e => match e with Fault _ _ => False | _ => True end) es.
(** No call of the files or streams fails; the process can die. *)
Definition calm (x : X) : Prop := calm_events (events (files x)).
#[local] Instance calm_dec x : Decision (calm x).
Proof. unfold calm, calm_events. apply Forall_dec. intros []; cbn; apply _. Defined.

Definition settles {E A} (c : M fs E A) : Prop := forall w, calm_events (events w) -> calm_events (events (c w).2).
Definition stays {E A} (c : M X E A) : Prop := forall x, calm x -> calm (c x).2.

Lemma settles_ret {E A} (a : A) : settles (@ret fs E A a).
Proof. by intros w Hw. Qed.
Lemma settles_throw {E A} (e : E) : settles (@throw fs E A e).
Proof. by intros w Hw. Qed.
Lemma settles_bind {E A B} (c : M fs E A) (k : A -> M fs E B) : settles c -> (forall a, settles (k a)) -> settles (bind c k).
Proof. intros Hc Hk w Hw. unfold bind. specialize (Hc w Hw). destruct (c w) as [[a|e|] w1]; [by apply Hk|done..]. Qed.
Lemma settles_ok {E F A} (c : M fs E A) : settles c -> settles (@ok fs E F A c).
Proof. intros Hc w Hw. unfold ok. specialize (Hc w Hw). by destruct (c w) as [[a|e|] w1]. Qed.
Lemma settles_attempt {E F A} (c : M fs E A) : settles c -> settles (@attempt fs E F A c).
Proof. intros Hc w Hw. unfold attempt. specialize (Hc w Hw). by destruct (c w) as [[a|e|] w1]. Qed.
Lemma settles_ignore {E F A} (c : M fs E A) : settles c -> settles (@ignore fs E F A c).
Proof. intros Hc w Hw. unfold ignore. specialize (Hc w Hw). by destruct (c w) as [[a|e|] w1]. Qed.
Lemma settles_when {E} a (c : M fs E unit) : settles c -> settles (when a c).
Proof. destruct a; [done|]. intros _. apply settles_ret. Qed.
Lemma settles_call {A} (go : fs -> res bytes A * fs) part : (forall w, events (go w).2 = events w) -> (forall n w, events (part n w) = events w) -> settles (call go part).
Proof.
  intros Hg Hp w Hw. unfold call. assert (calm_events (tail (events w))) as Ht by (destruct Hw; [constructor|done]).
  destruct (events w) as [|[]]; cbn [snd]; rewrite ?Hg, ?Hp; exact Ht.
Qed.

Lemma stays_files {A} (c : M fs bytes A) : settles c -> stays (on_files c).
Proof. intros Hc x Hx. specialize (Hc (files x) Hx). unfold on_files, map_error. by destruct (c (files x)) as [[a|e|] w]. Qed.
Lemma stays_with {A} (c : M fs VelcruxError A) : settles c -> stays (with_files c).
Proof. intros Hc x Hx. specialize (Hc (files x) Hx). unfold with_files. by destruct (c (files x)) as [r w]. Qed.
Lemma stays_keeps {E A} (c : M X E A) : keeps files c -> stays c.
Proof. intros Hc x Hx. unfold calm. by rewrite Hc. Qed.
Lemma stays_bind {E A B} (c : M X E A) (k : A -> M X E B) : stays c -> (forall a, stays (k a)) -> stays (bind c k).
Proof. intros Hc Hk x Hx. unfold bind. specialize (Hc x Hx). destruct (c x) as [[a|e|] y]; [by apply Hk|done..]. Qed.
Lemma stays_ignore {E F A} (c : M X E A) : stays c -> stays (@ignore X E F A c).
Proof. intros Hc x Hx. unfold ignore. specialize (Hc x Hx). by destruct (c x) as [[a|e|] y]. Qed.
Lemma stays_attempt {E F A} (c : M X E A) : stays c -> stays (@attempt X E F A c).
Proof. intros Hc x Hx. unfold attempt. specialize (Hc x Hx). by destruct (c x) as [[a|e|] y]. Qed.
Lemma stays_when {E} a (c : M X E unit) : stays c -> stays (when a c).
Proof. destruct a; [done|]. by intros _ x Hx. Qed.

Lemma files_store {E A} (c : M S E A) : keeps (S:=S) files (on_store c).
Proof. intros x. unfold on_store. by destruct (c (store x)). Qed.
Lemma files_clock : keeps (S:=S) files read_clock.
Proof. done. Qed.
Lemma files_recv n : keeps (S:=S) files (recv_data n).
Proof. intros x. unfold recv_data. by destruct (Session.read_exact n (data_in x)) as [[[? ?]|]| |]. Qed.
#[local] Hint Resolve files_store files_clock files_recv : keeps.
Lemma files_recv_chunk : keeps (S:=S) files (recv_chunk hash_of).
Proof. unfold recv_chunk, of_protocol. keeps. Qed.

Lemma settles_len p n : settles (set_len p n).
Proof. by apply settles_call. Qed.
Lemma settles_reserve p n resumed : settles (reserve no_space b p n resumed).
Proof.
  unfold reserve. case_match; [|apply settles_when, settles_ignore, settles_len].
  apply settles_bind; [by apply settles_attempt, settles_call|]. intros [e|u]; [|apply settles_ret]. case_match; [apply settles_throw|apply settles_ignore, settles_len].
Qed.
Lemma stays_open p n resumed : stays (open_staging_resumable no_space b p dst n resumed).
Proof.
  unfold open_staging_resumable. apply stays_bind; [apply stays_keeps; keeps|intros []]. apply stays_bind; [by apply stays_files, settles_call|intros []].
  apply stays_bind; [by apply stays_with, settles_ok, settles_call|intros r].
  apply stays_bind; [apply stays_files, settles_call; [|done]; intros w; repeat case_match; done|intros []].
  apply stays_bind; [apply stays_with, settles_reserve|intros []]. apply stays_bind; [|intros m; apply stays_keeps; keeps].
  case_match; [|apply stays_keeps; keeps]. apply stays_with, settles_bind; [apply settles_ok, settles_call; [|done]; intros w; by case_match|intros m; apply settles_ret].
Qed.
Lemma stays_progress has_store k c n : stays (progress_of has_store (tid j) k c n).
Proof.
  unfold progress_of. case_match; [apply stays_keeps; keeps|]. apply stays_bind; [apply stays_keeps; keeps|intros now].
  destruct (observe_chunk c n now) as [c' due]. destruct due; [|apply stays_keeps; keeps].
  apply stays_bind; [apply stays_when, stays_ignore, stays_files; by apply settles_call|intros []]. apply stays_keeps. keeps.
Qed.

(** ** A write that is lost *)

Section session.
Context (lost : list Z) (strict : bool).

(** At most one chunk more is lost, and none where [strict]. *)
Definition one_more (L : list Z) : Prop := (L = lost \/ exists i, L = i :: lost) /\ (strict = true -> L = lost).
(** The counted chunks are there; a chunk that is lost has left its error with the writer. *)
Definition tally (k : intake) (x : X) : Prop := exists L, one_more L /\ (w_err (writer k) = None -> L = lost) /\ live L (ChunkBitmap.set (bm k)) (on_both x) /\
  (strict = true -> w_err (writer k) = None /\ calm x).
Definition rest (x : X) : Prop := exists L, one_more L /\ staged L x.

Lemma one_more_refl : one_more lost.
Proof. split; [by left|done]. Qed.
Lemma live_staged L l x : live L l (on_both x) -> staged L x.
Proof. intros [Hi _]. by eapply inv_nil. Qed.
Lemma tally_rest k x : tally k x -> rest x.
Proof. intros (L & HL & _ & Hl & _). exists L. split; [done|]. by eapply live_staged. Qed.

Lemma live_forget i L l v : live L l v -> live (i :: L) (i :: l) v.
Proof.
  intros [(Hs & Hz & Hc & Hb) He]. assert (forall l, covers L v.1 l -> covers (i :: L) v.1 l) as Hup.
  { intros l' Hl' q Hq Hn. apply Hl'; [done|]. set_solver. }
  split; [|done]. split; [done|]. split; [done|]. split; [|intros m Hm; by apply Hup, Hb]. intros q [->|Hq]%elem_of_cons Hn; [set_solver|]. by apply Hup in Hc; apply Hc.
Qed.

(** What a write of a chunk leaves. *)
Lemma write_live err i l x : in_file f CS i -> live lost l (on_both x) ->
  match on_files (seek_write sp err (i * CS) (window f CS i)) x with
  | (Done err', y) => live lost l (on_both y) /\ err = None /\ (calm x -> err' = None /\ calm y) /\ (err' = None -> exists c, disk (files y) !! sp = Some c /\ holds f CS c i)
  | (_, y) => live lost l (on_both y)
  end.
Proof.
  intros Hi Hx. pose proof (ups_files (seek_write sp err (i * CS) (window f CS i)) (live lost l) (ups_write err i Hi) (live_upgrade lost l) x Hx) as Hw.
  destruct (zlen_window f CS ltac:(done) i Hi) as [Hlen Hend]. assert (i * CS + zlen (window f CS i) <= FILE_MAX) as Hmax by lia. revert Hw. unfold on_files, map_error, seek_write.
  rewrite (proj2 (Z.ltb_ge FILE_MAX (i * CS))) by lia. unfold bind, seek, call.
  assert (forall w, disk w = disk (files x) -> calm_events (events w) \/ ~ calm x -> match background_write sp (i * CS) (window f CS i) w with
    | (Done err', w') => (calm x -> err' = None /\ calm_events (events w')) /\ (err' = None -> exists c, disk w' !! sp = Some c /\ holds f CS c i) | _ => True end) as Hb.
  { intros w Hd Hcalm. unfold background_write. rewrite (proj2 (Z.ltb_ge _ _)) by lia. destruct Hx as [_ [c Hc]]. cbn in Hc. rewrite <- Hd in Hc. unfold write_at, call.
    destruct (events w) as [|[|n msg|n] es] eqn:Ee; cbn [disk events tail]; [| |destruct (late (window f CS i) (Z.of_nat n)); [|done]|done].
    1-2: split; [intros Hcx; split; [done|]; destruct Hcalm as [Hcalm|]; [cbn; inversion Hcalm; first [assumption|constructor]|done]|]; intros _;
      exists (splice c (i * CS) (window f CS i)); cbn; rewrite lookup_alter_eq, Hc; split; [done|by apply write_holds].
    split; [|done]. intros Hcx. destruct Hcalm as [[[] _]%Forall_cons|]; done. }
  destruct (window f CS i) as [|w0 win] eqn:Ew; [unfold zlen in Hlen; cbn in Hlen; lia|].
  destruct (events (files x)) as [|[|n msg|n] es] eqn:Ee; cbn [fst snd]; try exact (fun u => u).
  all: destruct err as [e|]; unfold throw; cbn [fst snd]; try exact (fun u => u).
  all: match goal with |- context [background_write ?q ?o ?l ?w] => specialize (Hb w eq_refl);
    destruct (background_write q o l w) as [[err'|e|] w'] end; cbn; try exact (fun u => u).
  all: intros Hw; split; [exact Hw|]; split; [done|]; apply Hb; cbn [events tail].
  - left. constructor.
  - destruct (decide (calm x)) as [Hc|Hc]; [left|by right]. unfold calm in Hc. rewrite Ee in Hc. by apply Forall_cons in Hc as [_ Hc].
Qed.

Lemma put_inv i k : in_file f CS i -> w_path (writer k) = sp ->
  triple (tally k) (put_chunk CS false k (header_of hash_of f CS i) (window f CS i)) tally rest.
Proof.
  intros Hi Hk x Hx. unfold put_chunk. cbn [Data.chunk_offset Data.chunk_len Data.flags header_of orb]. rewrite Z.div_mul by done. change (Data.is_hole Data.NONE) with false. cbv iota.
  destruct (ChunkBitmap.contains (bm k) i); cbn [negb]; [exact Hx|]. destruct Hx as (L & HL & Hnone & Hl & Hst). unfold writer_write_at. rewrite Hk. unfold bind at 1, bind at 1.
  assert (w_err (writer k) = None \/ is_Some (w_err (writer k))) as [Herr|[e0 Herr]] by (destruct (w_err (writer k)); eauto).
  - rewrite (Hnone Herr) in Hl. pose proof (write_live (w_err (writer k)) i _ x Hi Hl) as Hw.
    destruct (on_files (seek_write sp (w_err (writer k)) (i * CS) (window f CS i)) x) as [[err'|e|] y].
    2-3: exists lost; split; [apply one_more_refl|by eapply live_staged].
    destruct Hw as (Hly & _ & Hcalm & Hd). cbv beta iota delta [ret]. destruct err' as [e|].
    + exists (i :: lost). cbn [writer w_err bm]. assert (strict = false) as Hs.
      { destruct strict; [|done]. destruct (Hst eq_refl) as [_ Hc]. by destruct (Hcalm Hc). }
      split_and!; [split; [right; eauto|by rewrite Hs]|done| |by rewrite Hs]. apply (live_less _ (i :: ChunkBitmap.set (bm k))); [apply set_mark|]. by apply live_forget.
    + exists lost. cbn [writer w_err bm]. split; [apply one_more_refl|]. split; [done|]. split.
      * apply (live_less _ (i :: ChunkBitmap.set (bm k))); [apply set_mark|]. destruct (Hd eq_refl) as (c & Hc & Hh).
        destruct Hly as [(Hs & Hz & Hcov & Hb) He]. split; [|done]. split; [done|]. split; [done|]. split; [|done]. intros i' [->|Hi']%elem_of_cons Hn; [by exists c|by apply Hcov].
      * intros Hs. destruct (Hst Hs) as [_ Hc]. split; [done|]. by destruct (Hcalm Hc).
  - assert (rest x) as Hr by (exists L; split; [done|by eapply live_staged]).
    pose proof (ups_files (seek_write sp (w_err (writer k)) (i * CS) (window f CS i)) (live L (ChunkBitmap.set (bm k))) (ups_write (w_err (writer k)) i Hi) (live_upgrade L _) x Hl) as Hw.
    rewrite Herr in Hw |- *. assert (forall err' y, on_files (seek_write sp (Some e0) (i * CS) (window f CS i)) x <> (Done err', y)) as Hno.
    { intros err' y. destruct (zlen_window f CS ltac:(done) i Hi) as [Hlen _]. unfold on_files, map_error, seek_write. destruct (FILE_MAX <? i * CS); [done|]. unfold bind, seek, call.
      destruct (window f CS i); [unfold zlen in Hlen; cbn in Hlen; lia|]. by destruct (events (files x)) as [|[]]. }
    destruct (on_files (seek_write sp (Some e0) (i * CS) (window f CS i)) x) as [[err'|e|] y]; [by destruct (Hno err' y)|..]; (exists L; split; [done|by eapply live_staged]).
Qed.

Lemma tally_progress has_store k c n : triple (tally k) (progress_of has_store (tid j) k c n) (fun _ => tally k) rest.
Proof.
  intros x (L & HL & Hnone & Hl & Hst). pose proof (progress_inv L has_store k c n _ (reflexivity _) x Hl) as Hp. pose proof (stays_progress has_store k c n x) as Hc.
  destruct (progress_of has_store (tid j) k c n x) as [[c'|e|] y]; [|by exists L; split; [done|by eapply live_staged]..].
  exists L. split; [done|]. split; [done|]. split; [done|]. intros Hs. destruct (Hst Hs). auto.
Qed.

Lemma data_put chunk_size streaming k hdr data : keeps (S:=S) data_in (put_chunk chunk_size streaming k hdr data).
Proof. pose proof @data_files. unfold put_chunk, writer_write_at. keeps. Qed.

Lemma receive_inv has_store fuel : forall l k c, w_path (writer k) = sp ->
  triple (fun x => offers hash_of f CS l x /\ tally k x) (receive hash_of fuel has_store CS false (tid j) k c) tally rest.
Proof.
  induction fuel as [|fuel IH]; intros l k c Hk x [Ho Hx]; cbn [receive]; [by eapply tally_rest|].
  unfold bind at 1. pose proof (recv_chunk_honest hash_of f CS ltac:(done) Hf Hhash l x Ho) as Hr. pose proof (still_recv_chunk hash_of x) as Hs. pose proof (files_recv_chunk x) as Hfs.
  assert (tally k (recv_chunk hash_of x).2) as Hy.
  { destruct Hx as (L & HL & Hnone & Hl & Hst). exists L. rewrite Hs. split; [done|]. split; [done|]. split; [done|]. unfold calm. by rewrite Hfs. }
  destruct (recv_chunk hash_of x) as [[[[hdr data]|]|e|] y]; cbn [snd] in *; [|done|by eapply tally_rest..].
  destruct Hr as (i & l' & -> & -> & -> & Ho'). destruct Ho as [[Hi _]%Forall_cons _].
  apply (triple_bind (fun x => offers hash_of f CS l' x /\ tally k x) _ _ (fun k' x => offers hash_of f CS l' x /\ (w_path (writer k') = sp /\ tally k' x))); [| |done].
  - apply (triple_and data_in (fun s => Forall (in_file f CS) l' /\ avail s `prefix_of` mjoin (frame_of hash_of f CS <$> l')) (tally k)); [apply data_put|].
    intros z Hz. pose proof (put_inv i k Hi Hk z Hz) as Hp. pose proof (put_path CS false k (header_of hash_of f CS i) (window f CS i) z) as Hw.
    destruct (put_chunk CS false k (header_of hash_of f CS i) (window f CS i) z) as [[k'|e|] z']; [|done..]. split; [|done]. rewrite <- Hk. by eapply Hw.
  - intros k' z (Hoz & Hk' & Hz). revert z Hoz Hz.
    assert (triple (fun x => offers hash_of f CS l' x /\ tally k' x) (let! c := progress_of has_store (tid j) k' c (Data.chunk_len (header_of hash_of f CS i)) in receive hash_of fuel has_store CS false (tid j) k' c)
      tally rest) as Ht; [|intros z Hoz Hz; by apply Ht].
    eapply triple_bind with (Q := fun _ x => offers hash_of f CS l' x /\ tally k' x); [|intros c'; by apply IH].
    apply (triple_and data_in (fun s => Forall (in_file f CS) l' /\ avail s `prefix_of` mjoin (frame_of hash_of f CS <$> l')) (tally k')); [apply data_progress|apply tally_progress].
Qed.

Lemma open_fresh p n resumed x w y : open_staging_resumable (S:=S) no_space b p dst n resumed x = (Done w, y) -> w_err w = None.
Proof. unfold open_staging_resumable. do 5 (intros (? & ? & _ & Hr)%bind_inv; revert Hr). by intros (? & ? & _ & [= <- _])%bind_inv. Qed.

Lemma stream_inv has_store resumed bitmap :
  triple (fun x : X => honest_stream x /\ ready lost resumed (ChunkBitmap.set bitmap) x /\ (strict = true -> calm x)) (receive_stream hash_of ulid_text no_space b has_store resumed j dst CS bitmap)
    (fun k x => exists L, one_more L /\ live L (ChunkBitmap.set (bm k)) (on_both x)) rest.
Proof.
  intros x ((pre & l & Hpre & Hl & Hp) & Hx & Hcalm). unfold receive_stream. unfold bind at 1, recv_data. pose proof (read_prefix _ _ _ _ Hpre Hp) as Hr.
  assert (rest x) as Hst by (exists lost; split; [apply one_more_refl|eapply inv_nil, Hx]).
  destruct (Session.read_exact Data.DATA_PREAMBLE_LEN (data_in x)) as [[[pb s]|]| |]; [|done..]. destruct Hr as [-> Hs]. cbn [fst snd].
  set (x1 := mkSession _ _ _ _ _ _ _). unfold bind at 1, of_outcome, need at 1. unfold bind at 1, of_protocol, of_outcome. destruct (map_err EProtocol _) as [p|e|]; [|done..].
  destruct (negb (bool_decide (Data.transfer_id p = tid j))); [done|]. assert (ready lost resumed (ChunkBitmap.set bitmap) x1) as Hx1 by exact Hx.
  unfold bind at 1. pose proof (open_staging_inv lost resumed _ x1 Hx1) as Ho. pose proof (data_open (size j) resumed x1) as Hd. pose proof (stays_open (ulid_text (tid j)) (size j) resumed x1) as Hc1.
  pose proof (open_path (S:=S) ulid_text no_space b j dst (size j) resumed x1) as Hw. pose proof (open_fresh (ulid_text (tid j)) (size j) resumed x1) as He.
  destruct (open_staging_resumable no_space b _ dst (size j) resumed x1) as [[w|e|] x2]; [|exists lost; split; [apply one_more_refl|by eapply inv_nil]..].
  cbn [snd] in Hd. specialize (Hw w x2 eq_refl). specialize (He w x2 eq_refl). cbn [snd] in Hc1.
  unfold bind at 1, read_clock. cbv beta iota zeta. set (x3 := mkSession _ _ _ _ _ _ _). rewrite (bool_decide_eq_false_2 _ Hwhole).
  assert (offers hash_of f CS l x3) as Ho3 by (split; [done|]; unfold x3; cbn [data_in]; by rewrite Hd).
  assert (tally (mkIntake bitmap w (ChunkBitmap.bytes_completed bitmap)) x3) as Ht3.
  { exists lost. split; [apply one_more_refl|]. split; [done|]. split; [exact Ho|]. intros Hstr. split; [exact He|]. exact (Hc1 (Hcalm Hstr)). }
  unfold bind at 1. pose proof (receive_inv has_store (Datatypes.S (length (avail (data_in x3)))) l (mkIntake bitmap w (ChunkBitmap.bytes_completed bitmap))
    (with_defaults (default 0 (head (ticks x2)))) Hw x3 (conj Ho3 Ht3)) as Hrec.
  destruct (receive hash_of _ has_store CS false (tid j) _ _ x3) as [[k|e|] x4]; [|exact Hrec..]. destruct Hrec as (L & HL & _ & Hlv & _).
  unfold bind, fsync. pose proof (still_sync x4) as Hy. destruct (on_files sync_all x4) as [[u|e|] x5]; cbn [snd] in Hy; rewrite <- Hy in Hlv; (exists L; split; [done|]); [done|by eapply live_staged..].
Qed.
End session.

End resume.

(** ** Examples *)

Module ResumeExamples.
Import UploadExamples.

Lemma num_hash_ok b : wf_hash (num_hash b).
Proof. split; [apply is_bytes_to_le|apply zlen_to_le]. Qed.
Lemma S1_sane : sane S1.
Proof. pose proof (write_bitmap_law T1 one S0 (CheckpointExamples.store_sane [])) as Hw. unfold S1. destruct (write_bitmap T1 one S0) as [r s]. apply Hw. Qed.

(** A second session, cut off after the first chunk has come once more; the process dies in its write. *)
Definition cut_off : session flaky := start S1 staged_disk [Go; Go; Go; Go; Crash 3] (take 110 (avail (data_in x0))) [].
Lemma cut_off_stream : honest_stream (S:=flaky) num_hash file cut_off.
Proof.
  exists (take 56 (avail (data_in x0))), [0]. split; [by vm_compute|]. split; [by repeat constructor|].
  exists (drop 110 (avail (data_in x0))). unfold cut_off, start. cbn [data_in avail]. rewrite take_drop. vm_compute. reflexivity.
Qed.
Lemma S1_bitmap m : bitmap_of S1 T1 = Some m -> m = one.
Proof. intros Hm. assert (bitmap_of S1 T1 = Some one) as E by by vm_compute. congruence. Qed.
Lemma cut_off_staged : staged (S:=flaky) ulid backend J DST file [] cut_off.
Proof.
  split; [apply S1_sane|]. split; [|split; [by intros i Hi%elem_of_nil|]].
  - intros c Hc. assert (on_disk cut_off !! staging_path backend (ulid (tid J)) DST = Some file) as E by by vm_compute. change (on_disk cut_off !! staging_path backend (ulid (tid J)) DST = Some c) in Hc. by simplify_eq.
  - intros m Hm i Hi _. exists file. split; [by vm_compute|]. by intros q Hq.
Qed.
(** The process dies and no call fails: nothing is lost. *)
Example cut_off_calm : calm cut_off.
Proof. repeat constructor. Qed.
End ResumeExamples.
