(* ===== verification/UploadComplete.v ===== *)
(** * Uploads that go through

    Where no call of the files or the streams fails, the two halves of an upload together put exactly the
    file at the destination, also when earlier sessions have already staged some of its chunks, and whether or
    not the calls of the state store succeed ([upload_complete]). *)

From Stdlib Require Import QArith.
From S2P Require Import Prelude Utf8 Protocol Varint Wire Paths Bitmap StateStore Chunking ChunkEngine FileSys CasGc Frame Compression DataPath MsgTransfer MsgResume Message Session DeltaSync Checkpoint Upload UploadSafety UploadResume.
Import Str.
Open Scope Z_scope.

(** ** Control messages *)

(** The engine reads a frame that is not compressed as the session layer does. *)
Lemma control_frame_of_session `{Zstd} s fr s' : Session.read_frame s = Ok (Some (fr, s')) -> Frame.compressed (Frame.flags fr) = false ->
  exists fr', read_control_frame s = Ok (fr', s') /\ Frame.type_byte fr' = Frame.type_byte fr /\ Frame.payload fr' = Frame.payload fr.
Proof.
  intros Hr Hc. unfold Session.read_frame in Hr. unfold read_control_frame.
  destruct (Session.read_exact 5 s) as [[[buf s1]|]|e|]; [|done..]. cbn [obind need] in *.
  destruct (Session.read_varint_tail 11 buf 1 s1) as [[[[buf2 n] s2]|]|e|]; [|done..]. cbn [obind need] in *.
  destruct (slice_from buf2 4) as [rest|e|]; [|done..]. cbn [obind] in *.
  destruct (Varint.decode_varint rest) as [[len n']|e|]; [|done..]. cbn [map_err obind] in *.
  destruct (Session.read_exact 8 s2) as [[[rid s3]|]|e|]; [|done..]. cbn [obind need] in *. destruct (Frame.max_message_size <? len); [done|].
  destruct (if len =? 0 then _ else _) as [[[p s4]|]|e|]; [|done..]. cbn [obind need] in *. unfold Session.finish_frame in Hr.
  destruct (Frame.decode_frame _) as [fr0|e|]; [|done..]. cbn [map_err obind] in *. exists fr0. destruct (Frame.compressed (Frame.flags fr0)) eqn:E.
  - destruct (Compression.decompress_payload_bounded _ _ _); [|done..]. cbn in Hr. injection Hr as <- <-. cbn in Hc. congruence.
  - cbn in Hr. by injection Hr as <- <-.
Qed.

(** ** States in which no call of the files or the streams fails *)

Section runs.
Context `{Zstd} {S : Type} `{StateStore S}.
Context (entropy_sum : list Z -> Z -> Q) (hash_of : bytes -> Hash) (js : gmap bytes Empty_set) (nw : Z).
Local Abbreviation St s d di ci dout cout t := (mkSession (S:=S) s (mkWorld d js [] nw) di ci dout cout t).

Definition message (ty : Z) (p : bytes) : bytes := Frame.frame_bytes ty Frame.NONE 0 p.
Lemma say_run m ty p s d di ci dout cout t : Message.ok m -> Message.encode m = Ok (ty, p) -> zlen p <= Limits.MAX_MESSAGE_SIZE ->
  say entropy_sum m (St s d di ci dout cout t) = (Done tt, St s d di ci dout (cout ++ message ty p) t).
Proof.
  intros Hok He Hl. unfold say, bind, of_outcome, Session.encode_message. pose proof (zlen_nonneg p).
  destruct (Session.encode_message_total entropy_sum m 0 false ty p Hok He) as (body & fl & -> & _ & Hc); [unfold fits, Limits.MAX_MESSAGE_SIZE in *; lia|].
  by destruct Hc as [[-> ->]|[? _]].
Qed.
Lemma recv_ctl_run ty p rest r s d di dout cout t : fits 8 ty -> zlen p <= Limits.MAX_MESSAGE_SIZE ->
  exists fr, recv_ctl (St s d di (mk_stream (message ty p ++ rest) r) dout cout t) = (Done fr, St s d di (mk_stream rest r) dout cout t) /\
    Frame.type_byte fr = ty /\ Frame.payload fr = p.
Proof.
  intros Hty Hl. pose proof (Session.read_frame_bytes ty Frame.NONE 0 p rest r Hty ltac:(done) ltac:(done) Hl) as Hr.
  unfold Session.deliver in Hr. change (Frame.compressed Frame.NONE) with false in Hr. cbn [obind] in Hr.
  destruct (control_frame_of_session _ _ _ Hr eq_refl) as (fr & Hc & Ht & Hp). exists fr. unfold recv_ctl. cbn [ctl_in]. unfold message. rewrite Hc. done.
Qed.

Lemma clock_run s d di ci dout cout t : exists n t', read_clock (St s d di ci dout cout t) = (Done n, St s d di ci dout cout t').
Proof. by eexists _, _. Qed.
Lemma send_run b s d di ci dout cout t : send_data b (St s d di ci dout cout t) = (Done tt, St s d di ci (dout ++ b) cout t).
Proof. done. Qed.

(** A store that does not die: its calls may fail. *)
Definition alive {E A} (up : S -> Prop) (c : M S E A) : Prop := forall s, up s -> (c s).1 <> Crashed /\ up (c s).2.
Lemma ignore_run {E A} up (c : M S E A) s d di ci dout cout t : alive up c -> up s ->
  exists s', up s' /\ @ignore _ _ VelcruxError _ (on_store c) (St s d di ci dout cout t) = (Done tt, St s' d di ci dout cout t).
Proof.
  intros Hc Hs. destruct (Hc s Hs) as [Hn Hu]. unfold ignore, on_store. cbn [store]. destruct (c s) as [[a|e|] s']; [by exists s'|by exists s'|done].
Qed.
Lemma ok_run {E A} up (c : M S E A) s d di ci dout cout t : alive up c -> up s ->
  exists r s', up s' /\ @ok _ _ VelcruxError _ (on_store c) (St s d di ci dout cout t) = (Done r, St s' d di ci dout cout t).
Proof.
  intros Hc Hs. destruct (Hc s Hs) as [Hn Hu]. unfold ok, on_store. cbn [store]. destruct (c s) as [[a|e|] s']; [by exists (Some a), s'|by exists None, s'|done].
Qed.
Lemma attempt_run {E A} up (c : M S E A) s d di ci dout cout t : alive up c -> up s ->
  exists r s', up s' /\ @attempt _ _ VelcruxError _ (on_store c) (St s d di ci dout cout t) = (Done r, St s' d di ci dout cout t).
Proof.
  intros Hc Hs. destruct (Hc s Hs) as [Hn Hu]. unfold attempt, on_store. cbn [store]. destruct (c s) as [[a|e|] s']; [by exists (inr a), s'|by exists (inl e), s'|done].
Qed.
Lemma alive_ok {E F A} up (c : M S E A) : alive up c -> alive up (@ok _ _ F _ c).
Proof. intros Hc s Hs. specialize (Hc s Hs). unfold ok. destruct (c s) as [[a|e|] s']; cbn in *; naive_solver. Qed.
Lemma alive_ignore {E F A} up (c : M S E A) : alive up c -> alive up (@ignore _ _ F _ c).
Proof. intros Hc s Hs. specialize (Hc s Hs). unfold ignore. destruct (c s) as [[a|e|] s']; cbn in *; naive_solver. Qed.
Lemma alive_map_error {E F A} up g (c : M S E A) : alive up c -> alive up (@map_error _ _ F _ g c).
Proof. intros Hc s Hs. specialize (Hc s Hs). unfold map_error. destruct (c s) as [[a|e|] s']; cbn in *; naive_solver. Qed.
Lemma alive_bind {E A B} up (c : M S E A) (k : A -> M S E B) : alive up c -> (forall a, alive up (k a)) -> alive up (bind c k).
Proof. intros Hc Hk s Hs. specialize (Hc s Hs). unfold bind. destruct (c s) as [[a|e|] s']; cbn in *; [apply Hk; naive_solver|naive_solver..]. Qed.
Lemma alive_ret {E A} up (a : A) : alive up (@ret _ E _ a).
Proof. by intros s Hs. Qed.

(** The calls of the store in an upload. *)
Record responsive (up : S -> Prop) : Prop := {
  up_read id : alive up (read_bitmap id); up_write id m : alive up (write_bitmap id m);
  up_get id : alive up (get_transfer id); up_update r : alive up (update_transfer r);
  up_journal e : alive up (write_journal e); up_committed id n : alive up (mark_journal_committed id n) }.
Lemma alive_commit up c id n m t0 t1 now_ms : responsive up -> alive up (commit_checkpoint c id n m t0 t1 now_ms).
Proof.
  intros Hup. unfold commit_checkpoint, record_progress. apply alive_bind; [apply alive_map_error, Hup|intros _]. apply alive_bind; [|intros _; apply alive_ret].
  apply alive_bind; [apply alive_ok, Hup|]. intros [r|]; [apply alive_ignore, Hup|apply alive_ret].
Qed.
End runs.

(** ** The server *)

Section server_runs.
Context `{Zstd} {S : Type} `{StateStoreLaws S}.
Context (entropy_sum : list Z -> Z -> Q) (hash_of : bytes -> Hash) (ulid_text : TransferId -> bytes) (no_space : bytes -> bool).
Context (b : Backend) (j : job) (dst f : bytes) (js : gmap bytes Empty_set) (nw : Z) (up : S -> Prop) (has_store : bool).
Context (Hf : zlen f <= FILE_MAX) (Hhash : forall b, wf_hash (hash_of b)) (Hsize : size j = zlen f) (Hwhole : whole j = hash_of f) (Hzero : hash_of f <> HASH_ZERO).
Context (Hup : responsive up) (Hid : wf_id (tid j)).
(** The size of a chunk is a constant that is not to be computed with. *)
Context (CS : Z) (Hcs : 0 < CS <= Data.DATA_MAX_CHUNK_LEN).
Local Abbreviation sp := (staging_path b (ulid_text (tid j)) dst).
Local Abbreviation St s d di ci dout cout t := (mkSession (S:=S) s (mkWorld d js [] nw) di ci dout cout t).
Local Abbreviation frames l := (mjoin (frame_of hash_of f CS <$> l)).

Lemma recv_chunk_run i rest s d ci dout cout t : in_file f CS i ->
  recv_chunk hash_of (St s d (mk_stream (frame_of hash_of f CS i ++ rest) None) ci dout cout t)
  = (Done (Some (header_of hash_of f CS i, window f CS i)), St s d (mk_stream rest None) ci dout cout t).
Proof.
  intros Hi. destruct (zlen_window f CS (proj1 Hcs) i Hi) as [Hw _]. unfold recv_chunk. unfold bind at 1, recv_data at 1. cbn [data_in]. unfold frame_of. rewrite <- app_assoc.
  rewrite Session.read_exact_app by (unfold Data.header_bytes; rewrite !zlen_app, !zlen_to_le; by rewrite (proj2 (Hhash _))).
  pose proof (Data.header_roundtrip (header_of hash_of f CS i) [] (header_ok_of hash_of f CS Hcs Hf Hhash i Hi)) as Hd. rewrite app_nil_r in Hd.
  cbn [Data.chunk_offset Data.chunk_len Data.flags Data.chunk_hash header_of] in Hd.
  unfold bind at 1, of_protocol, of_outcome. rewrite Hd. cbn [map_err Data.flags Data.chunk_len header_of]. change (Data.is_hole Data.NONE) with false. change (Data.compressed Data.NONE) with false. cbv iota.
  rewrite (proj2 (Z.ltb_lt 0 _)) by lia. unfold bind at 1, bind at 1, recv_data. cbn [data_in]. rewrite Session.read_exact_app by done.
  cbv beta iota delta [ret bind]. cbn [Data.chunk_hash header_of]. rewrite bool_decide_eq_true_2 by done. done.
Qed.

(** The writer of the staging file, whose writes have gone well. *)
Definition writing (w : StagingWriter) : Prop := w_path w = sp /\ w_err w = None.

Lemma put_run i k s d di ci dout cout t content : in_file f CS i -> writing (writer k) -> d !! sp = Some content -> (forall i, i ∈ ChunkBitmap.set (bm k) -> holds f CS content i) ->
  exists k' content', put_chunk CS false k (header_of hash_of f CS i) (window f CS i) (St s d di ci dout cout t) = (Done k', St s (<[sp := content']> d) di ci dout cout t) /\
    writing (writer k') /\ better f content content' /\ (forall i, i ∈ ChunkBitmap.set (bm k') -> holds f CS content' i) /\ holds f CS content' i.
Proof.
  intros Hi Hk Hd Hl. destruct (zlen_window f CS (proj1 Hcs) i Hi) as [Hw He]. unfold put_chunk. cbn [Data.chunk_offset Data.chunk_len Data.flags header_of orb].
  rewrite Z.div_mul by lia. change (Data.is_hole Data.NONE) with false. cbv iota. destruct (ChunkBitmap.contains (bm k) i) eqn:Hc; cbn [negb].
  - exists k, content. split; [by rewrite insert_id|]. split; [done|]. split; [apply better_refl|]. split; [done|]. apply Hl.
    unfold ChunkBitmap.contains, BTreeSet.contains in Hc. apply existsb_exists in Hc as (y & Hy & ->%Z.eqb_eq). by apply list_elem_of_In.
  - unfold writer_write_at, bind. destruct Hk as [-> ->]. unfold on_files, map_error. cbn [files].
    rewrite (seek_write_ok sp _ _ content) by (done || lia || (intros E; rewrite E in Hw; unfold zlen in Hw; cbn in Hw; lia)).
    eexists _, (splice content (i * CS) (window f CS i)). split; [reflexivity|]. unfold writing. cbn [writer w_path w_err bm].
    assert (better f content (splice content (i * CS) (window f CS i))) as Hb.
    { pose proof (better_write f CS (proj1 Hcs) content i (length (window f CS i)) Hi) as Hb. by rewrite take_ge in Hb by done. }
    pose proof (write_holds f CS (proj1 Hcs) content i Hi) as Hh. split; [done|]. split; [done|]. split; [|done].
    intros i' Hi'. apply set_mark in Hi'. apply elem_of_cons in Hi' as [->|Hi']; [done|]. by eapply better_holds, Hl.
Qed.

Lemma progress_run k c n s d di ci dout cout t : up s ->
  exists c' s' t', progress_of has_store (tid j) k c n (St s d di ci dout cout t) = (Done c', St s' d di ci dout cout t') /\ up s'.
Proof.
  intros Hs. unfold progress_of. destruct has_store; cbn [negb]; [|by eexists c, s, t]. unfold bind at 1, read_clock. destruct (observe_chunk c n _) as [c1 due]. cbn [store files data_in ctl_in data_out ctl_out ticks]. destruct due; [|by eexists c1, s, _].
  assert (forall t, when (fsync_staging (policy c1)) (ignore (fsync (writer k))) (St s d di ci dout cout t) = (@Done VelcruxError _ tt, St s d di ci dout cout t)) as Hw by (intros t'; by destruct (fsync_staging (policy c1))).
  unfold bind at 1. rewrite Hw. unfold bind at 1, read_clock. unfold bind at 1, read_clock. unfold bind at 1, read_clock. cbn [store files data_in ctl_in data_out ctl_out ticks]. unfold bind.
  match goal with |- context [attempt (on_store ?c)] => destruct (attempt_run js nw up c s d di ci dout cout (tail (tail (tail (tail t)))) (alive_commit up _ _ _ _ _ _ _ Hup) Hs) as (r & s' & Hs' & Hr) end.
  rewrite Hr. by eexists _, s', _.
Qed.

Lemma receive_run l : Forall (in_file f CS) l -> forall fuel k c s d ci dout cout t content, (length l < fuel)%nat -> up s -> writing (writer k) ->
  d !! sp = Some content -> (forall i, i ∈ ChunkBitmap.set (bm k) -> holds f CS content i) ->
  exists k' s' t' content', receive hash_of fuel has_store CS false (tid j) k c (St s d (mk_stream (frames l) None) ci dout cout t)
      = (Done k', St s' (<[sp := content']> d) (mk_stream [] None) ci dout cout t') /\
    up s' /\ writing (writer k') /\ better f content content' /\ forall i, i ∈ l -> holds f CS content' i.
Proof.
  induction 1 as [|i l Hi _ IH]; intros [|fuel] k c s d ci dout cout t content Hfuel Hs Hk Hd Hl; cbn [length] in Hfuel; try lia; cbn [receive].
  - exists k, s, t, content. split; [by rewrite insert_id|]. split; [done|]. split; [done|]. split; [apply better_refl|by intros i Hi%elem_of_nil].
  - unfold bind at 1. change (frames (i :: l)) with (frame_of hash_of f CS i ++ frames l). rewrite recv_chunk_run by done.
    destruct (put_run i k s d (mk_stream (frames l) None) ci dout cout t content Hi Hk Hd Hl) as (k1 & c1 & Hp & Hk1 & Hb1 & Hl1 & Hh1).
    unfold bind at 1. rewrite Hp. destruct (progress_run k1 c (Data.chunk_len (header_of hash_of f CS i)) s (<[sp := c1]> d) (mk_stream (frames l) None) ci dout cout t Hs) as (c' & s1 & t1 & Hpr & Hs1).
    unfold bind at 1. rewrite Hpr. destruct (IH fuel k1 c' s1 (<[sp := c1]> d) ci dout cout t1 c1 ltac:(lia) Hs1 Hk1 (lookup_insert_eq _ _ _) Hl1) as (k2 & s2 & t2 & c2 & Hr & Hs2 & Hk2 & Hb2 & Hl2).
    exists k2, s2, t2, c2. rewrite Hr, insert_insert_eq. split; [done|]. split; [done|]. split; [done|]. split; [by eapply better_trans|].
    intros i' [->|Hi']%elem_of_cons; [by eapply better_holds|by apply Hl2].
Qed.

(** The staging file is opened, and made as long as the file. *)
Lemma reserve_run resumed d c : d !! sp = Some c -> exists c', reserve no_space b sp (size j) resumed (mkWorld d js [] nw) = (Done tt, mkWorld (<[sp := c']> d) js [] nw) /\ better f c c'.
Proof.
  intros Hd. unfold reserve. destruct (preallocate b && (0 <? size j)).
  - unfold bind, attempt, allocate, call. cbn [events tail disk docs now]. unfold edit, set_disk. cbn [disk docs events now]. rewrite (alter_at _ sp c d Hd).
    eexists. split; [done|]. apply better_grow. lia.
  - destruct ((0 <? size j) && negb resumed); cbn [when].
    + unfold ignore, set_len, call. cbn [events tail disk docs now]. unfold edit, set_disk. cbn [disk docs events now]. rewrite (alter_at _ sp c d Hd). eexists. split; [done|]. rewrite Hsize. apply better_set_len.
    + exists c. by rewrite insert_id.
Qed.
Lemma open_run resumed s d di ci dout cout t : check_space b (size j) = Ok tt -> (forall c, d !! sp = Some c -> zlen c <= zlen f) ->
  exists w c', open_staging_resumable no_space b (ulid_text (tid j)) dst (size j) resumed (St s d di ci dout cout t) = (Done w, St s (<[sp := c']> d) di ci dout cout t) /\
    writing w /\ zlen c' <= zlen f /\ forall c, resumed = true -> d !! sp = Some c -> better f c c'.
Proof.
  intros Hsp Hz. unfold open_staging_resumable. rewrite Hsp.
  rewrite (bind_done _ _ _ tt (St s d di ci dout cout t)) by done. rewrite (bind_done _ _ _ tt (St s d di ci dout cout t)) by done.
  rewrite (bind_done _ _ _ (Some (bool_decide (is_Some (d !! sp)))) (St s d di ci dout cout t)) by done. cbv zeta. change (default false (Some (bool_decide (is_Some (d !! sp))))) with (bool_decide (is_Some (d !! sp))).
  set (keep := resumed && bool_decide (is_Some (d !! sp))). set (c0 := if keep then default [] (d !! sp) else []).
  assert (on_files (open_file sp (if keep then false else true)) (St s d di ci dout cout t) = (Done tt, St s (<[sp := c0]> d) di ci dout cout t)) as Ho.
  { unfold on_files, map_error, open_file, call. cbn [files events tail disk docs now]. unfold c0, keep. destruct resumed; cbn [andb]; [|done].
    case_bool_decide as Hc; [|done]. destruct Hc as [c Hc]. rewrite Hc. cbn [default]. by rewrite insert_id. }
  rewrite (bind_done _ _ _ tt _ Ho). destruct (reserve_run resumed (<[sp := c0]> d) c0 (lookup_insert_eq _ _ _)) as (c' & Hr & Hb). rewrite insert_insert_eq in Hr.
  rewrite (bind_done _ _ _ tt (St s (<[sp := c']> d) di ci dout cout t)) by (unfold with_files; cbn [files]; by rewrite Hr).
  assert (zlen c' <= zlen f) as Hz'. { apply Hb. unfold c0, keep. destruct (resumed && _); [|unfold zlen; cbn; lia]. destruct (d !! sp) as [c|] eqn:E; [by apply Hz|unfold zlen; cbn; lia]. }
  assert (forall c, resumed = true -> d !! sp = Some c -> better f c c') as Hb'. { intros c -> Hc. unfold c0, keep in Hb. cbn [andb] in Hb. rewrite bool_decide_eq_true_2 in Hb by (by rewrite Hc). by rewrite Hc in Hb. }
  destruct keep; [|by eexists _, c']. unfold bind, with_files, ok, file_len, call. cbn [files events tail disk docs now store data_in ctl_in data_out ctl_out ticks]. rewrite lookup_insert_eq. by eexists _, c'.
Qed.

(** The chunks are all there is to a file. *)
Lemma all_chunks c : zlen c <= zlen f -> (forall i, in_file f CS i -> holds f CS c i) -> c = f.
Proof.
  intros Hz Hl. apply list_eq. intros q. destruct (f !! q) as [x|] eqn:Hx.
  - rewrite <- Hx. pose proof (lookup_lt_Some _ _ _ Hx). apply (Hl (Z.of_nat q / CS)); [| |done].
    + split; [apply Z.div_pos; lia|]. pose proof (Z.mul_div_le (Z.of_nat q) CS). unfold zlen. lia.
    + pose proof (Z.mul_div_le (Z.of_nat q) CS). pose proof (Z.mul_succ_div_gt (Z.of_nat q) CS). lia.
  - apply lookup_ge_None in Hx. apply lookup_ge_None. unfold zlen in Hz. lia.
Qed.

Lemma stream_run resumed bitmap pre p l s d ci dout cout t : check_space b (size j) = Ok tt -> up s ->
  zlen pre = Data.DATA_PREAMBLE_LEN -> Data.decode_data_preamble pre = Ok p -> Data.transfer_id p = tid j -> Forall (in_file f CS) l ->
  (forall c, d !! sp = Some c -> zlen c <= zlen f) -> (resumed = false -> ChunkBitmap.set bitmap = []) ->
  (forall i, i ∈ ChunkBitmap.set bitmap -> exists c, d !! sp = Some c /\ holds f CS c i) ->
  (forall i, in_file f CS i -> i ∈ l \/ resumed = true /\ exists c, d !! sp = Some c /\ holds f CS c i) ->
  exists k s' t', receive_stream hash_of ulid_text no_space b has_store resumed j dst CS bitmap (St s d (mk_stream (pre ++ frames l) None) ci dout cout t)
      = (Done k, St s' (<[sp := f]> d) (mk_stream [] None) ci dout cout t') /\ up s' /\ w_path (writer k) = sp.
Proof.
  intros Hsp Hs Hpre Hp Ht Hl Hz Hnew Hbm Hall. unfold receive_stream. unfold bind at 1, recv_data. cbn [data_in]. rewrite Session.read_exact_app by done.
  unfold bind at 1, of_outcome, need at 1. unfold bind at 1, of_protocol, of_outcome. rewrite Hp. cbn [map_err]. rewrite bool_decide_eq_true_2 by done. cbn [negb store files ctl_in data_out ctl_out ticks].
  destruct (open_run resumed s d (mk_stream (frames l) None) ci dout cout t Hsp Hz) as (w & c0 & Ho & Hw & Hz0 & Hb0). unfold bind at 1. rewrite Ho.
  unfold bind at 1, read_clock. cbn [store files data_in ctl_in data_out ctl_out ticks]. rewrite (bool_decide_eq_false_2 (whole j = HASH_ZERO)) by (by rewrite Hwhole).
  assert (forall i, i ∈ ChunkBitmap.set bitmap -> holds f CS c0 i) as Hbm0.
  { intros i Hi. destruct resumed; [|rewrite Hnew in Hi by done; by apply elem_of_nil in Hi]. destruct (Hbm i Hi) as (c & Hc & Hh). eapply better_holds; [by apply Hb0|done]. }
  assert (length l < Datatypes.S (length (frames l)))%nat as Hfuel.
  { clear -Hhash. induction l as [|i l IH]; [cbn; lia|]. change (frames (i :: l)) with (frame_of hash_of f CS i ++ frames l). rewrite length_app. cbn [length].
    assert (48 <= length (frame_of hash_of f CS i))%nat; [|lia]. pose proof (zlen_nonneg (window f CS i)) as Hn. cut (48 <= zlen (frame_of hash_of f CS i)); [unfold zlen; lia|].
    unfold frame_of, Data.header_bytes. rewrite !zlen_app, !zlen_to_le, (proj2 (Hhash _)). lia. }
  destruct (receive_run l Hl _ (mkIntake bitmap w (ChunkBitmap.bytes_completed bitmap)) (with_defaults (default 0 (head t))) s (<[sp := c0]> d) ci dout cout (tail t) c0 Hfuel Hs Hw (lookup_insert_eq _ _ _) Hbm0)
    as (k & s' & t' & c' & Hr & Hs' & Hk & Hb & Hh). rewrite insert_insert_eq in Hr.
  exists k, s', t'. unfold bind at 1. cbn [data_in avail]. rewrite Hr. assert (c' = f) as ->; [|by destruct Hk].
  apply all_chunks; [by apply Hb|]. intros i Hi. destruct (Hall i Hi) as [Hi'|(Hres & c & Hc & Hhc)]; [by apply Hh|]. eapply better_holds; [exact Hb|]. eapply better_holds; [by apply Hb0|done].
Qed.

Definition verify_payload : bytes := tid j ++ whole j.
Definition result_payload : bytes := tid j ++ push (Z.b2z true) ++ zeros 7 ++ hash_of f.
Definition committed_payload : bytes := tid j ++ to_le 4 1.
(** What the client says, and what the server answers. *)
Definition client_says : bytes := message Message.VERIFY verify_payload ++ message Message.COMMIT (tid j).
Definition server_says : bytes := message Message.VERIFY_RESULT result_payload ++ message Message.COMMITTED committed_payload.

Lemma short_payloads : zlen verify_payload = 48 /\ zlen result_payload = 56 /\ zlen (tid j) = 16 /\ zlen committed_payload = 20.
Proof.
  unfold verify_payload, result_payload, committed_payload. by rewrite Hwhole, !zlen_app, zlen_to_le, zlen_push, zlen_zeros, (proj2 Hid), (proj2 (Hhash f)).
Qed.

Lemma answer_run fr s d di ci dout cout t : Frame.type_byte fr = Message.VERIFY -> Frame.payload fr = verify_payload ->
  answer_verify entropy_sum j (hash_of f) fr (St s d di ci dout cout t) = (Done tt, St s d di ci dout (cout ++ message Message.VERIFY_RESULT result_payload) t).
Proof.
  intros Hty Hp. destruct short_payloads as (Hv & Hr & _ & _). unfold answer_verify. rewrite Hty, Hp, Z.eqb_refl. cbn [negb].
  assert (Verify.decode verify_payload = Ok (Verify.mk (tid j) (whole j))) as Hd.
  { apply Verify.verify_roundtrip; [|done|by rewrite Hv]. split; [done|]. cbn. rewrite Hwhole. apply Hhash. }
  rewrite (bind_done _ _ _ (Verify.mk (tid j) (whole j)) (St s d di ci dout cout t)) by (unfold of_protocol; by rewrite Hd). cbn [Verify.transfer_id Verify.expected_hash].
  rewrite (bool_decide_eq_true_2 (tid j = tid j)), (bool_decide_eq_true_2 (whole j = whole j)), (bool_decide_eq_false_2 (whole j = HASH_ZERO)) by (done || by rewrite Hwhole). cbn [negb orb andb].
  rewrite (bool_decide_eq_true_2 (hash_of f = whole j)) by done. cbn [negb].
  rewrite (bind_done _ _ _ tt (St s d di ci dout (cout ++ message Message.VERIFY_RESULT result_payload) t)); [done|].
  apply say_run; [split; [done|apply Hhash]|done|by rewrite Hr].
Qed.

Lemma finish_run s d di r dout cout t : sp <> resolve b dst -> d !! sp = Some f -> up s ->
  exists s' t', finish_commit entropy_sum b has_store j dst sp (St s d di (mk_stream (message Message.COMMIT (tid j)) r) dout cout t)
    = (Done tt, St s' (<[resolve b dst := f]> (delete sp d)) di (mk_stream [] r) dout (cout ++ message Message.COMMITTED committed_payload) t') /\ up s'.
Proof.
  intros Hne Hd Hs. destruct short_payloads as (_ & _ & Hi & Hc). unfold finish_commit.
  destruct (recv_ctl_run js nw Message.COMMIT (tid j) [] r s d di dout cout t ltac:(done) ltac:(by rewrite Hi)) as (fr & Hr & Hty & Hp). rewrite app_nil_r in Hr.
  rewrite (bind_done _ _ _ fr _ Hr), Hty, Hp, Z.eqb_refl. cbn [negb].
  assert (Commit.decode (tid j) = Ok (Commit.mk (tid j))) as Hdec by (apply Commit.commit_roundtrip; [done|done|by rewrite Hi]).
  rewrite (bind_done _ _ _ (Commit.mk (tid j)) (St s d di (mk_stream [] r) dout cout t)) by (unfold of_protocol; by rewrite Hdec). cbn [Commit.transfer_id].
  rewrite bool_decide_eq_true_2 by done. cbn [negb]. rewrite (bind_done _ _ _ (default 0 (head t)) (St s d di (mk_stream [] r) dout cout (tail t))) by done.
  assert (exists s1, up s1 /\ when has_store (ignore (on_store (write_journal (mk_entry (tid j) 1 dst CRenamed (default 0 (head t)))))) (St s d di (mk_stream [] r) dout cout (tail t))
    = (@Done VelcruxError _ tt, St s1 d di (mk_stream [] r) dout cout (tail t))) as (s1 & Hs1 & Hj).
  { destruct has_store; [|by exists s]. apply (ignore_run js nw up); [apply Hup|done]. }
  rewrite (bind_done _ _ _ tt _ Hj).
  assert (exists n, (if 0 <? size j then ret (size j) else with_files (let! r := ok (file_len sp) in ret (default 0 r))) (St s1 d di (mk_stream [] r) dout cout (tail t))
    = (@Done VelcruxError _ n, St s1 d di (mk_stream [] r) dout cout (tail t))) as [n Hn].
  { destruct (0 <? size j); [by eexists|]. unfold with_files, bind, ok, file_len, call. cbn [files events tail disk docs now]. rewrite Hd. by eexists. }
  rewrite (bind_done _ _ _ n _ Hn).
  assert (commit b sp dst (St s1 d di (mk_stream [] r) dout cout (tail t)) = (Done tt, St s1 (<[resolve b dst := f]> (delete sp d)) di (mk_stream [] r) dout cout (tail t))) as Hcom.
  { unfold commit. rewrite (bind_done _ _ _ tt (St s1 d di (mk_stream [] r) dout cout (tail t))) by done.
    rewrite (bind_done _ _ _ tt (St s1 (<[resolve b dst := f]> (delete sp d)) di (mk_stream [] r) dout cout (tail t))); [done|].
    unfold on_files, map_error, rename_file, call. cbn [files events tail disk docs now]. by rewrite Hd. }
  rewrite (bind_done _ _ _ tt _ Hcom).
  assert (exists s2, up s2 /\ when has_store (ignore (on_store (mark_journal_committed (tid j) 1))) (St s1 (<[resolve b dst := f]> (delete sp d)) di (mk_stream [] r) dout cout (tail t))
    = (@Done VelcruxError _ tt, St s2 (<[resolve b dst := f]> (delete sp d)) di (mk_stream [] r) dout cout (tail t))) as (s2 & Hs2 & Hm).
  { destruct has_store; [|by exists s1]. apply (ignore_run js nw up); [apply Hup|done]. }
  rewrite (bind_done _ _ _ tt _ Hm). exists s2, (tail t). split; [|done]. apply say_run; [by split|done|by rewrite Hc].
Qed.

Lemma bitmap_run resumed s d di ci dout cout t : CS = M3_CHUNK_SIZE -> up s -> inv ulid_text b j dst f [] [] (d, s) ->
  exists bitmap s', (if has_store && resumed then let! r := ok (on_store (read_bitmap (tid j))) in ret (default ChunkBitmap.new r) else ret ChunkBitmap.new) (St s d di ci dout cout t)
      = (@Done VelcruxError _ bitmap, St s' d di ci dout cout t) /\ up s' /\ (resumed = false -> ChunkBitmap.set bitmap = []) /\
    forall i, i ∈ ChunkBitmap.set bitmap -> exists c, d !! sp = Some c /\ holds f CS c i.
Proof.
  intros Hm3 Hs (Hsane & _ & _ & Hst). destruct (has_store && resumed) eqn:E.
  - apply andb_true_iff in E as [_ ->]. destruct (Hup.(up_read up) (tid j) s Hs) as [Hn Hu]. pose proof (read_bitmap_law (tid j) s Hsane) as Hl. unfold bind, ok, on_store. cbn [store].
    destruct (read_bitmap (tid j) s) as [[m|e|] s']; [| |done]; destruct Hl as (_ & _ & _ & Hm).
    + exists m, s'. split; [done|]. split; [done|]. split; [done|]. rewrite Hm3. intros i Hi. apply (Hst m); [by apply Hm|done|apply not_elem_of_nil].
    + exists ChunkBitmap.new, s'. split; [done|]. split; [done|]. split; [done|]. by intros i Hi%elem_of_nil.
  - exists ChunkBitmap.new, s. split; [done|]. split; [done|]. split; [done|]. by intros i Hi%elem_of_nil.
Qed.

(** The end of a session, when the staging file is the file. *)
Lemma tail_run k s d di r dout cout t : sp <> resolve b dst -> up s -> w_path (writer k) = sp ->
  exists s' t', (let! _ := when has_store (ignore (on_store (write_bitmap (tid j) (bm k)))) in
     let! computed := compute_staging_hash hash_of b (ulid_text (tid j)) dst in
     let! f := (fun x => await_verify (Datatypes.S (length (avail (ctl_in x)))) has_store (tid j) (bm k) x) in
     let! _ := answer_verify entropy_sum j computed f in
     let! _ := finish_commit entropy_sum b has_store j dst (w_path (writer k)) in
     ret computed) (St s (<[sp := f]> d) di (mk_stream client_says r) dout cout t)
    = (Done (hash_of f), St s' (<[resolve b dst := f]> (delete sp d)) di (mk_stream [] r) dout (cout ++ server_says) t').
Proof.
  intros Hne Hs2 Hk.
  assert (exists s3, up s3 /\ when has_store (ignore (on_store (write_bitmap (tid j) (bm k)))) (St s (<[sp := f]> d) di (mk_stream client_says r) dout cout t)
    = (@Done VelcruxError _ tt, St s3 (<[sp := f]> d) di (mk_stream client_says r) dout cout t)) as (s3 & Hs3 & Hw).
  { destruct has_store; [|by exists s]. apply (ignore_run js nw up); [apply Hup|done]. }
  rewrite (bind_done _ _ _ _ _ Hw).
  rewrite (bind_done _ _ _ (hash_of f) (St s3 (<[sp := f]> d) di (mk_stream client_says r) dout cout t)); cycle 1.
  { unfold compute_staging_hash, bind, on_files, map_error, read_file, call. cbn [files events tail disk docs now]. by rewrite lookup_insert_eq. }
  destruct short_payloads as (Hv & _).
  destruct (recv_ctl_run js nw Message.VERIFY verify_payload (message Message.COMMIT (tid j)) r s3 (<[sp := f]> d) di dout cout t ltac:(done) ltac:(by rewrite Hv)) as (fr & Hrv & Hty & Hpay).
  rewrite (bind_done _ _ _ fr (St s3 (<[sp := f]> d) di (mk_stream (message Message.COMMIT (tid j)) r) dout cout t)); cycle 1.
  { cbn [await_verify]. unfold client_says. rewrite (bind_done _ _ _ _ _ Hrv), Hty. done. }
  rewrite (bind_done _ _ _ _ _ (answer_run fr s3 (<[sp := f]> d) di (mk_stream (message Message.COMMIT (tid j)) r) dout cout t Hty Hpay)). rewrite Hk.
  destruct (finish_run s3 (<[sp := f]> d) di r dout (cout ++ message Message.VERIFY_RESULT result_payload) t Hne (lookup_insert_eq _ _ _) Hs3) as (s4 & t4 & Hfin & _).
  rewrite (bind_done _ _ _ _ _ Hfin). exists s4, t4. unfold ret. rewrite delete_insert_eq, <- app_assoc. done.
Qed.

Lemma server_run resumed pre p l s d r dout cout t : CS = M3_CHUNK_SIZE -> sp <> resolve b dst -> check_space b (size j) = Ok tt -> up s -> inv ulid_text b j dst f [] [] (d, s) ->
  zlen pre = Data.DATA_PREAMBLE_LEN -> Data.decode_data_preamble pre = Ok p -> Data.transfer_id p = tid j -> Forall (in_file f CS) l ->
  (forall i, in_file f CS i -> i ∈ l \/ resumed = true /\ exists c, d !! sp = Some c /\ holds f CS c i) ->
  exists s' t', server_upload_session_with_limits entropy_sum hash_of ulid_text no_space b has_store resumed j dst None (St s d (mk_stream (pre ++ frames l) None) (mk_stream client_says r) dout cout t)
    = (Done (hash_of f), St s' (<[resolve b dst := f]> (delete sp d)) (mk_stream [] None) (mk_stream [] r) dout (cout ++ server_says) t').
Proof.
  intros Hm3 Hne Hsp Hs Hinv Hpre Hp Ht Hl Hall. unfold server_upload_session_with_limits. rewrite (bool_decide_eq_false_2 (is_Some None)) by (by intros [? ?]). cbv zeta. rewrite <- Hm3.
  destruct (bitmap_run resumed s d (mk_stream (pre ++ frames l) None) (mk_stream client_says r) dout cout t Hm3 Hs Hinv) as (bitmap & s1 & Hb & Hs1 & Hnew & Hbm). rewrite (bind_done _ _ _ _ _ Hb).
  destruct (stream_run resumed bitmap pre p l s1 d (mk_stream client_says r) dout cout t Hsp Hs1 Hpre Hp Ht Hl (proj1 (proj2 Hinv)) Hnew Hbm Hall) as (k & s2 & t2 & Hr & Hs2 & Hk). rewrite (bind_done _ _ _ _ _ Hr).
  apply (tail_run k s2 d (mk_stream [] None) r dout cout t2 Hne Hs2 Hk).
Qed.
End server_runs.

(** ** The client *)

Section client_runs.
Context `{Zstd} {S : Type} `{StateStore S}.
Context (entropy_sum : list Z -> Z -> Q) (centibits : Q -> Z) (hash_of : bytes -> Hash).
Context (j : job) (f : bytes) (js : gmap bytes Empty_set) (nw : Z) (cfg : PipelineConfig).
Context (Hf : zlen f <= FILE_MAX) (Hhash : forall b, wf_hash (hash_of b)) (Hsize : size j = zlen f) (Hwhole : whole j = hash_of f).
Context (Hid : wf_id (tid j)) (Hplain : compression cfg = false).
Context (CS : Z) (Hcs : 0 < CS <= Data.DATA_MAX_CHUNK_LEN) (cb : ChunkBitmap.t).
Local Abbreviation St s d di ci dout cout t := (mkSession (S:=S) s (mkWorld d js [] nw) di ci dout cout t).
Local Abbreviation frames l := (mjoin (frame_of hash_of f CS <$> l)).
Local Abbreviation total := ((zlen f + CS - 1) / CS).

Lemma total_in i : 0 <= i -> (i < total <-> in_file f CS i).
Proof.
  intros Hi. unfold in_file. split.
  - intros Hl. split; [done|]. pose proof (Z.mul_div_le (zlen f + CS - 1) CS). nia.
  - intros [_ Hl]. apply Z.lt_le_trans with (i + 1); [lia|]. apply Z.div_le_lower_bound; nia.
Qed.

(** The chunks to send from [next] on. *)
Definition missing (next : Z) : list Z := filter (fun i => ChunkBitmap.contains cb i = false) (seqZ next (total - next)).
Lemma missing_end next : total <= next -> missing next = [].
Proof. intros Hn. unfold missing. by rewrite seqZ_nil by lia. Qed.
Lemma missing_split next m : next <= m <= total -> missing next = filter (fun i => ChunkBitmap.contains cb i = false) (seqZ next (m - next)) ++ missing m.
Proof.
  intros Hm. unfold missing. replace (total - next) with ((m - next) + (total - m)) by lia. rewrite seqZ_app by lia. rewrite filter_app. do 3 f_equal. lia.
Qed.
Lemma missing_none next m : (forall k, next <= k < m -> ChunkBitmap.contains cb k = true) -> filter (fun i => ChunkBitmap.contains cb i = false) (seqZ next (m - next)) = [].
Proof.
  intros Hk. destruct (filter _ _) as [|i l] eqn:E; [done|]. assert (i ∈ i :: l) as Hi by by left. rewrite <- E in Hi. apply list_elem_of_filter in Hi as [Hc Hi].
  apply elem_of_seqZ in Hi. by rewrite Hk in Hc by lia.
Qed.
Lemma missing_skip next m : next <= m -> (forall k, next <= k < m -> k < total -> ChunkBitmap.contains cb k = true) -> missing next = missing m.
Proof.
  intros Hm Hk. destruct (decide (m <= total)).
  - rewrite (missing_split next m) by lia. rewrite missing_none; [done|]. intros k Hk'. apply Hk; lia.
  - rewrite (missing_end m) by lia. destruct (decide (total <= next)); [by apply missing_end|]. rewrite (missing_split next total) by lia. rewrite missing_none, missing_end by (done || (intros k Hk'; apply Hk; lia)). done.
Qed.
Lemma missing_next next : next < total -> ChunkBitmap.contains cb next = false -> missing next = next :: missing (next + 1).
Proof.
  intros Hn Hc. rewrite (missing_split next (next + 1)) by lia. replace (next + 1 - next) with 1 by lia. by rewrite (seqZ_cons next 1), seqZ_nil, filter_cons_True by (done || lia).
Qed.

Lemma insert_contains x i l : BTreeSet.contains x (BTreeSet.insert i l).2 = (x =? i) || BTreeSet.contains x l.
Proof.
  unfold BTreeSet.contains. induction l as [|y l IH]; cbn [BTreeSet.insert]; [done|]. repeat case_match; cbn [snd existsb] in *; try done.
  all: rewrite ?IH; repeat match goal with |- context [?a =? ?b] => destruct (Z.eqb_spec a b) end; subst; cbn; try done; lia.
Qed.
Lemma mark_contains m i n x : ChunkBitmap.contains (ChunkBitmap.mark_complete m i n).1 x = (x =? i) || ChunkBitmap.contains m x.
Proof.
  unfold ChunkBitmap.contains, ChunkBitmap.mark_complete. pose proof (insert_contains x i (ChunkBitmap.set m)) as Hi. by destruct (BTreeSet.insert i (ChunkBitmap.set m)) as [[] l].
Qed.

Lemma first_missing_run m from s d di ci dout cout t : 0 <= from <= total -> exists n, first_missing m from total (St s d di ci dout cout t) = (Done n, St s d di ci dout cout t) /\
  from <= n /\ (n < total -> ChunkBitmap.contains m n = false) /\ forall k, from <= k < n -> k < total -> ChunkBitmap.contains m k = true.
Proof.
  intros Hfr. assert (total < zlen f + 1) as Ht by (apply Z.div_lt_upper_bound; pose proof (zlen_nonneg f); nia). unfold FILE_MAX in Hf. unfold first_missing, bind, of_outcome.
  destruct (ChunkBitmap.first_missing_correct m from) as [(n & -> & Hn & Hc & Hk)|[-> Hk]]; [unfold fits; lia| |].
  - exists n. split; [done|]. split; [done|]. split; [done|]. intros k Hk1 _. by apply Hk.
  - exists total. split; [done|]. split; [lia|]. split; [lia|]. intros k Hk1 _. apply Hk. unfold ChunkBitmap.U64_MAX. lia.
Qed.

Lemma read_chunk_run i s d di ci dout cout t : in_file f CS i ->
  read_chunk f (i * CS) (Z.min (size j - i * CS) CS) (St s d di ci dout cout t) = (Done (window f CS i), St s d di ci dout cout t).
Proof.
  intros Hi. destruct (zlen_window f CS (proj1 Hcs) i Hi) as [Hw He]. unfold read_chunk.
  assert (take (Z.to_nat (Z.min (size j - i * CS) CS)) (drop (Z.to_nat (i * CS)) f) = window f CS i) as Ht.
  { unfold window. rewrite Hsize. destruct (decide (zlen f - i * CS <= CS)); [|by rewrite Z.min_r by lia]. rewrite !take_ge; [done|..]; rewrite length_drop; unfold zlen in *; destruct Hi; lia. }
  rewrite (bind_done _ _ _ (window f CS i) (St s d di ci dout cout t)); [|unfold on_files, map_error, read_at, call; cbn [files events tail disk docs now]; by rewrite Ht].
  rewrite (proj2 (Z.eqb_eq _ _)); [done|]. rewrite Hsize. nia.
Qed.
Lemma encode_chunk_run sel i : in_file f CS i -> encode_chunk entropy_sum centibits hash_of cfg sel (i * CS) (window f CS i) = Ok (frame_of hash_of f CS i, sel).
Proof.
  intros Hi. destruct (zlen_window f CS (proj1 Hcs) i Hi) as [Hw He]. unfold encode_chunk. rewrite Hplain. unfold DataPath.encode_data_frame_maybe_compressed. cbn [obind].
  rewrite Data.data_frame_spec by apply Hhash. rewrite wrap_small by (unfold fits, Data.DATA_MAX_CHUNK_LEN in *; lia). done.
Qed.

Lemma send_missing_run fuel : forall next m c sel s d di ci dout cout t, 0 <= next -> (Z.to_nat (total - next) <= fuel)%nat ->
  (forall i, next <= i -> ChunkBitmap.contains m i = ChunkBitmap.contains cb i) -> (next < total -> ChunkBitmap.contains cb next = false) ->
  exists m', send_missing entropy_sum centibits hash_of fuel cfg false j f CS total m c sel next (St s d di ci dout cout t) = (Done m', St s d di ci (dout ++ frames (missing next)) cout t).
Proof.
  induction fuel as [|fuel IH]; intros next m c sel s d di ci dout cout t Hn Hfuel Hm Hnext; cbn [send_missing];
    (destruct (Z.ltb_spec next total) as [Hl|Hl]; [|rewrite (missing_end next) by done; cbn; rewrite app_nil_r; by exists m]); [lia|].
  assert (in_file f CS next) as Hi by by apply total_in. rewrite (bind_done _ _ _ _ _ (read_chunk_run next s d di ci dout cout t Hi)).
  rewrite (bind_done _ _ _ (frame_of hash_of f CS next, sel) (St s d di ci dout cout t)) by (by rewrite encode_chunk_run).
  rewrite (bind_done _ _ _ tt (St s d di ci (dout ++ frame_of hash_of f CS next) cout t)) by done. rewrite (bind_done _ _ _ c (St s d di ci (dout ++ frame_of hash_of f CS next) cout t)) by done.
  set (m1 := (ChunkBitmap.mark_complete m next (Z.min (size j - next * CS) CS)).1).
  destruct (first_missing_run m1 (next + 1) s d di ci (dout ++ frame_of hash_of f CS next) cout t ltac:(lia)) as (n & Hf1 & Hge & Hmiss & Hall). rewrite (bind_done _ _ _ _ _ Hf1).
  assert (forall i, next + 1 <= i -> ChunkBitmap.contains m1 i = ChunkBitmap.contains cb i) as Hm1.
  { intros i Hi1. unfold m1. rewrite mark_contains, (proj2 (Z.eqb_neq i next)) by lia. apply Hm. lia. }
  destruct (IH n m1 c sel s d di ci (dout ++ frame_of hash_of f CS next) cout t) as [m' Hs]; [lia|lia|intros i Hi1; apply Hm1; lia|intros Hlt; rewrite <- Hm1 by lia; by apply Hmiss|].
  exists m'. rewrite Hs. rewrite (missing_next next) by auto. rewrite (missing_skip (next + 1) n); [by rewrite <- app_assoc|lia|]. intros k Hk1 Hk2. rewrite <- Hm1 by lia. by apply Hall.
Qed.

(** The preamble. *)
Definition preamble : bytes := tid j ++ to_le 8 1 ++ to_le 8 1 ++ zeros 24.
Lemma preamble_ok : Data.preamble_ok (Data.mk_preamble (tid j) 1 1).
Proof. split; [done|]. split; by vm_compute. Qed.
Lemma preamble_read : zlen preamble = Data.DATA_PREAMBLE_LEN /\ Data.decode_data_preamble preamble = Ok (Data.mk_preamble (tid j) 1 1).
Proof.
  split; [unfold preamble; by rewrite !zlen_app, !zlen_to_le, zlen_zeros, (proj2 Hid)|].
  pose proof (Data.preamble_roundtrip (E:=VelcruxError) (Data.mk_preamble (tid j) 1 1) preamble [] preamble_ok (Data.preamble_bytes _ preamble_ok)) as Hp. by rewrite app_nil_r in Hp.
Qed.

(** Answers of the server as the client reads them. *)
Lemma await_result_run rest r s d di dout cout t :
  await_verify_result j (St s d di (mk_stream (message Message.VERIFY_RESULT (result_payload hash_of j f) ++ rest) r) dout cout t) = (Done (hash_of f), St s d di (mk_stream rest r) dout cout t).
Proof.
  destruct (short_payloads hash_of j f Hhash Hwhole Hid) as (_ & Hr & _). unfold await_verify_result.
  destruct (recv_ctl_run js nw Message.VERIFY_RESULT (result_payload hash_of j f) rest r s d di dout cout t ltac:(done) ltac:(by rewrite Hr)) as (fr & Hc & Hty & Hp).
  rewrite (bind_done _ _ _ _ _ Hc), Hty, Hp, Z.eqb_refl. cbn [negb].
  assert (VerifyResult.decode (result_payload hash_of j f) = Ok (VerifyResult.mk (tid j) true (hash_of f))) as Hd by (apply VerifyResult.verify_result_roundtrip; [split; [done|apply Hhash]|done|by rewrite Hr]).
  rewrite (bind_done _ _ _ (VerifyResult.mk (tid j) true (hash_of f)) (St s d di (mk_stream rest r) dout cout t)) by (unfold of_protocol; by rewrite Hd).
  cbn [VerifyResult.transfer_id VerifyResult.matches VerifyResult.computed_hash]. by rewrite bool_decide_eq_true_2.
Qed.
Lemma await_committed_run r s d di dout cout t :
  await_committed j (St s d di (mk_stream (message Message.COMMITTED (committed_payload j)) r) dout cout t) = (Done tt, St s d di (mk_stream [] r) dout cout t).
Proof.
  destruct (short_payloads hash_of j f Hhash Hwhole Hid) as (_ & _ & _ & Hr). unfold await_committed.
  destruct (recv_ctl_run js nw Message.COMMITTED (committed_payload j) [] r s d di dout cout t ltac:(done) ltac:(by rewrite Hr)) as (fr & Hc & Hty & Hp). rewrite app_nil_r in Hc.
  rewrite (bind_done _ _ _ _ _ Hc), Hty, Hp, Z.eqb_refl. cbn [negb].
  assert (Committed.decode (committed_payload j) = Ok (Committed.mk (tid j) 1)) as Hd by (apply Committed.committed_roundtrip; [split; [done|by vm_compute]|done|by rewrite Hr]).
  rewrite (bind_done _ _ _ (Committed.mk (tid j) 1) (St s d di (mk_stream [] r) dout cout t)) by (unfold of_protocol; by rewrite Hd).
  cbn [Committed.transfer_id Committed.files]. by rewrite bool_decide_eq_true_2.
Qed.

Lemma stream_sent local s d di ci dout cout t : d !! local = Some f -> ((0 <? ChunkBitmap.len cb) || match chunk_mode cfg with Fixed => true | _ => false end) = true ->
  fixed_chunk_size cfg (size j) cb = Ok CS ->
  exists m t', send_stream entropy_sum centibits hash_of cfg false j local cb (St s d di ci dout cout t) = (Done m, St s d di ci (dout ++ preamble ++ frames (missing 0)) cout t').
Proof.
  intros Hd Hbranch Hsz. unfold send_stream. rewrite (Data.preamble_bytes _ preamble_ok). rewrite (bind_done _ _ _ preamble (St s d di ci dout cout t)) by done.
  rewrite (bind_done _ _ _ tt (St s d di ci (dout ++ preamble) cout t)) by done. rewrite Hbranch. unfold send_fixed. rewrite Hsz.
  rewrite (bind_done _ _ _ CS (St s d di ci (dout ++ preamble) cout t)) by done. unfold div_ceil. rewrite (proj2 (Z.eqb_neq CS 0)) by lia. rewrite Hsize.
  rewrite (bind_done _ _ _ total (St s d di ci (dout ++ preamble) cout t)) by done.
  rewrite (bind_done _ _ _ f (St s d di ci (dout ++ preamble) cout t)) by (unfold on_files, map_error, read_file, call; cbn [files events tail disk docs now]; by rewrite Hd).
  destruct (first_missing_run cb 0 s d di ci (dout ++ preamble) cout t) as (n & Hn & Hge & Hmiss & Hall); [pose proof (zlen_nonneg f); split; [lia|apply Z.div_pos; lia]|].
  rewrite (bind_done _ _ _ _ _ Hn). rewrite (bind_done _ _ _ (default 0 (head t)) (St s d di ci (dout ++ preamble) cout (tail t))) by done.
  destruct (send_missing_run (Z.to_nat total) n cb (with_defaults (default 0 (head t))) Compression.selector_with_defaults s d di ci (dout ++ preamble) cout (tail t) ltac:(lia) ltac:(lia) ltac:(done) Hmiss) as [m Hm].
  exists m, (tail t). rewrite Hm. rewrite (missing_skip 0 n) by (auto with lia). by rewrite <- app_assoc.
Qed.

Lemma client_run local key remote r s d di dout cout t : d !! local = Some f -> ((0 <? ChunkBitmap.len cb) || match chunk_mode cfg with Fixed => true | _ => false end) = true ->
  fixed_chunk_size cfg (size j) cb = Ok CS ->
  exists t', client_upload_stream entropy_sum centibits hash_of cfg false j key local remote cb (St s d di (mk_stream (server_says hash_of j f) r) dout cout t)
    = (Done (hash_of f), St s d di (mk_stream [] r) (dout ++ preamble ++ frames (missing 0)) (cout ++ client_says j) t').
Proof.
  intros Hd Hbranch Hsz. destruct (short_payloads hash_of j f Hhash Hwhole Hid) as (Hv & _ & Hi & _). unfold client_upload_stream, server_says.
  rewrite (bind_done _ _ _ tt (St s d di (mk_stream (message Message.VERIFY_RESULT (result_payload hash_of j f) ++ message Message.COMMITTED (committed_payload j)) r) dout cout (tail t))) by done.
  destruct (stream_sent local s d di (mk_stream (message Message.VERIFY_RESULT (result_payload hash_of j f) ++ message Message.COMMITTED (committed_payload j)) r) dout cout (tail t) Hd Hbranch Hsz) as (m & t1 & Hm).
  rewrite (bind_done _ _ _ _ _ Hm). match type of Hm with _ = (_, ?y) => rewrite (bind_done (tell_progress entropy_sum false j m) _ y tt y) by done end.
  rewrite (bind_done _ _ _ tt _ (say_run entropy_sum js nw (Message.MVerify (Verify.mk (tid j) (whole j))) Message.VERIFY (verify_payload j) _ _ _ _ _ _ _ (conj Hid (eq_ind_r wf_hash (Hhash f) Hwhole)) eq_refl ltac:(by rewrite Hv))).
  rewrite (bind_done _ _ _ _ _ (await_result_run _ _ _ _ _ _ _ _)).
  rewrite (bind_done _ _ _ tt _ (say_run entropy_sum js nw (Message.MCommit (Commit.mk (tid j))) Message.COMMIT (tid j) _ _ _ _ _ _ _ Hid eq_refl ltac:(by rewrite Hi))).
  rewrite (bind_done _ _ _ _ _ (await_committed_run _ _ _ _ _ _ _)). eexists. cbn. unfold client_says. by rewrite <- app_assoc.
Qed.
End client_runs.

(** ** Both sides together *)

Lemma missing_in f CS cb : 0 < CS -> Forall (in_file f CS) (missing f CS cb 0).
Proof.
  intros Hcs. apply Forall_forall. intros i Hi. unfold missing in Hi. apply list_elem_of_filter in Hi as [_ Hi]. apply elem_of_seqZ in Hi.
  split; [lia|]. pose proof (Z.mul_div_le (zlen f + CS - 1) CS). nia.
Qed.
Lemma missing_all f CS cb i : 0 < CS -> in_file f CS i -> ChunkBitmap.contains cb i = false -> i ∈ missing f CS cb 0.
Proof.
  intros Hcs [Hi Hl] Hc. unfold missing. apply list_elem_of_filter. split; [done|]. apply elem_of_seqZ. split; [lia|].
  assert (i + 1 <= (zlen f + CS - 1) / CS) by (apply Z.div_le_lower_bound; nia). lia.
Qed.

Section together.
Context `{Zstd} {S : Type} `{StateStoreLaws S}.
Context (entropy_sum : list Z -> Z -> Q) (centibits : Q -> Z) (hash_of : bytes -> Hash) (ulid_text : TransferId -> bytes) (no_space : bytes -> bool).
Context (b : Backend) (j : job) (dst f : bytes) (js : gmap bytes Empty_set) (nw : Z) (cfg : PipelineConfig).

(** C12. An upload goes through. The client sends fixed chunks of 1 MiB (as its configuration says, or as it
    does with a bitmap to resume from), not compressed, and has no state store; the announced hash is that of
    the file and not zero, the staging file is not the destination, there is space for the file, and no call of
    the files or the streams fails. The chunks that the client leaves out and those that the stored bitmap
    counts are in the staging file, which is not longer than the file; the client leaves out chunks only when
    the server resumes. Whether or not the calls of the state store of the server succeed, the upload then ends
    on both sides with the hash of the file; each side gets exactly the control messages the other sends; the
    file is at the destination, its staging file is gone, and nothing else on the disk has changed. *)
Theorem upload_complete up (has_store resumed : bool) cb local key remote s sc d dc :
  zlen f <= FILE_MAX -> (forall b, wf_hash (hash_of b)) -> size j = zlen f -> whole j = hash_of f -> hash_of f <> HASH_ZERO -> wf_id (tid j) ->
  responsive up -> up s -> compression cfg = false ->
  ((0 <? ChunkBitmap.len cb) || match chunk_mode cfg with Fixed => true | _ => false end) = true -> fixed_chunk_size cfg (size j) cb = Ok M3_CHUNK_SIZE ->
  staging_path b (ulid_text (tid j)) dst <> resolve b dst -> check_space b (size j) = Ok tt -> dc !! local = Some f ->
  inv ulid_text b j dst f [] [] (d, s) ->
  (forall i, in_file f M3_CHUNK_SIZE i -> ChunkBitmap.contains cb i = true -> resumed = true /\ exists c, d !! staging_path b (ulid_text (tid j)) dst = Some c /\ holds f M3_CHUNK_SIZE c i) ->
  exists data ctl answers yc ys,
    client_upload_stream entropy_sum centibits hash_of cfg false j key local remote cb (mkSession sc (mkWorld dc js [] nw) (mk_stream [] None) (mk_stream answers None) [] [] []) = (Done (hash_of f), yc) /\
    data_out yc = data /\ ctl_out yc = ctl /\
    server_upload_session_with_limits entropy_sum hash_of ulid_text no_space b has_store resumed j dst None (mkSession s (mkWorld d js [] nw) (mk_stream data None) (mk_stream ctl None) [] [] []) = (Done (hash_of f), ys) /\
    ctl_out ys = answers /\ disk (files ys) = <[resolve b dst := f]> (delete (staging_path b (ulid_text (tid j)) dst) d).
Proof.
  intros Hf Hhash Hsize Hwhole Hzero Hid Hup Hs Hplain Hbranch Hcs Hne Hsp Hdc Hinv Hcb.
  destruct (client_run entropy_sum centibits hash_of j f js nw cfg Hf Hhash Hsize Hwhole Hid Hplain M3_CHUNK_SIZE ltac:(done) cb local key remote None sc dc (mk_stream [] None) [] [] [] Hdc Hbranch Hcs) as [tc Hc].
  destruct (preamble_read j Hid) as [Hpl Hpd].
  destruct (server_run entropy_sum hash_of ulid_text no_space b j dst f js nw up has_store Hf Hhash Hsize Hwhole Hzero Hup Hid M3_CHUNK_SIZE ltac:(done) resumed (preamble j) _ (missing f M3_CHUNK_SIZE cb 0)
    s d None [] [] [] eq_refl Hne Hsp Hs Hinv Hpl Hpd eq_refl (missing_in f M3_CHUNK_SIZE cb ltac:(done))) as (s' & ts & Hr).
  { intros i Hi. destruct (ChunkBitmap.contains cb i) eqn:E; [right; by apply Hcb|left; by apply missing_all]. }
  eexists _, _, _, _, _. split; [exact Hc|]. split; [reflexivity|]. split; [reflexivity|]. split; [exact Hr|]. split; reflexivity.
Qed.
End together.

(** ** Examples *)

Module CompleteExamples.
Import UploadExamples ResumeExamples.

(** The in-memory store without faults; its calls fail only for transfers it does not know. *)
Definition calm (s : flaky) : Prop := faults s = [].
Lemma alive_flake {A} (g : MockStateStore.t -> Z -> outcome StateStoreError (A * MockStateStore.t)) : (forall m n, g m n <> Panic) -> alive calm (flake g).
Proof. intros Hg s Hs. unfold flake. rewrite Hs. specialize (Hg (mock s) (clock s)). by destruct (g (mock s) (clock s)) as [[a m]| |]. Qed.
Lemma calm_responsive : responsive calm.
Proof.
  split; intros; apply alive_flake; intros g now0; try done;
    unfold unit_ok, MockStateStore.read_bitmap, MockStateStore.write_bitmap, MockStateStore.get_transfer, MockStateStore.update_transfer, MockStateStore.mark_journal_committed, ok_or;
    repeat match goal with |- context [?m !! ?k] => destruct (m !! k) end; done.
Qed.

Lemma upload_complete_witness : exists data ctl answers yc ys,
  client (fixed M3_CHUNK_SIZE) J [] SRC DST one (mkSession S0 (mkWorld disk0 ∅ [] 0) (mk_stream [] None) (mk_stream answers None) [] [] []) = (Done (num_hash file), yc) /\
  data_out yc = data /\ ctl_out yc = ctl /\
  server true J DST None (mkSession S1 (mkWorld staged_disk ∅ [] 0) (mk_stream data None) (mk_stream ctl None) [] [] []) = (Done (num_hash file), ys) /\
  ctl_out ys = answers /\ disk (files ys) = <[resolve backend DST := file]> (delete (staging_path backend (ulid (tid J)) DST) staged_disk).
Proof.
  apply (upload_complete flat cents num_hash ulid never backend J DST file ∅ 0 (fixed M3_CHUNK_SIZE) calm true true one SRC [] DST S1 S0 staged_disk disk0).
  - by vm_compute.
  - apply num_hash_ok.
  - done.
  - done.
  - vm_compute. discriminate.
  - split; [repeat constructor; lia|done].
  - apply calm_responsive.
  - by vm_compute.
  - done.
  - done.
  - done.
  - vm_compute. discriminate.
  - done.
  - by vm_compute.
  - apply cut_off_staged.
  - intros i Hi Hc. split; [done|]. exists file. split; [by vm_compute|]. by intros q Hq.
Defined.
End CompleteExamples.
