(* ===== verification/Download.v ===== *)
(** * Downloads and pipes, transfer/engine.rs

    The two halves of a single-stream download ([server_download_session_with_compression],
    [client_download_stream_with_staging]), the upload of a pipe ([client_upload_stdin_stream]) and the download
    into a pipe ([client_download_stdout_stream]), as computations over the sessions of [Upload]. *)

From Stdlib Require Import QArith.
From S2P Require Import Prelude Utf8 Protocol Varint Wire Paths Bitmap StateStore Chunking ChunkEngine FileSys CasGc Frame Compression DataPath MsgTransfer MsgResume Message Session DeltaSync Checkpoint Upload.
Import Str.
Open Scope Z_scope.

Definition partial_path (local_path : bytes) : bytes := local_path ++ lit ".velcrux-partial".

Section download.
Context `{Zstd} {S : Type}.
Context (entropy_sum : list Z -> Z -> Q) (centibits : Q -> Z) (hash_of : bytes -> Hash).
Local Abbreviation N A := (M (session S) VelcruxError A).

(** ** The client's half *)

(** The next DATA frame with its contents, checked; holes are not known here. *)
Definition recv_block : N (option (Data.DataFrameHeader * bytes)) :=
  let! header := recv_data Data.DATA_FRAME_HEADER_LEN in
  match header with
  | None => ret None
  | Some header_bytes =>
      let! '(hdr, _) := of_protocol (Data.decode_data_frame_header header_bytes) in
      let! r := recv_data (Data.chunk_len hdr) in
      let! payload := match r with Some b => ret b | None => throw (protocol_violation "download: chunk payload shorter than declared (stream EOF)") end in
      let! chunk_data := (if Data.compressed (Data.flags hdr)
                          then of_protocol (Compression.decompress_payload_bounded payload Limits.MAX_CHUNK_SIZE (Some 500))
                          else ret payload) in
      if negb (bool_decide (hash_of chunk_data = Data.chunk_hash hdr)) then throw (EProtocol (Malformed "download: chunk hash mismatch"))
      else ret (Some (hdr, chunk_data))
  end.

Definition recv_preamble (id : TransferId) : N unit :=
  let! pre := recv_data Data.DATA_PREAMBLE_LEN in
  let! pre := of_outcome (need pre) in
  let! preamble := of_protocol (Data.decode_data_preamble pre) in
  if negb (bool_decide (Data.transfer_id preamble = id)) then throw (protocol_violation "download: transfer_id mismatch in preamble") else ret tt.

(** Every round takes a header from the stream. *)
Fixpoint store_blocks (fuel : nat) (staging : bytes) (err : option bytes) : N unit :=
  match fuel with
  | O => fun x => (Crashed, x)
  | Datatypes.S fuel =>
      let! r := recv_block in
      match r with
      | None => ret tt
      | Some (hdr, chunk_data) => let! err := on_files (seek_write staging err (Data.chunk_offset hdr) chunk_data) in store_blocks fuel staging err
      end
  end.

(** VERIFY with the zero hash: the answer of the server is taken as it is. *)
Definition ask_hash (id : TransferId) : N Hash :=
  let! _ := say entropy_sum (Message.MVerify (Verify.mk id HASH_ZERO)) in
  let! f := recv_ctl in
  if negb (Frame.type_byte f =? Message.VERIFY_RESULT) then throw (protocol_violation "download: expected VERIFY_RESULT") else
  let! vr := of_protocol (VerifyResult.decode (Frame.payload f)) in
  if negb (bool_decide (VerifyResult.transfer_id vr = id)) then throw (protocol_violation "download: VERIFY_RESULT transfer_id mismatch") else
  if negb (VerifyResult.matches vr) then throw (EProtocol (Malformed "download: server reported hash mismatch")) else
  ret (VerifyResult.computed_hash vr).
Definition ask_commit (id : TransferId) : N unit :=
  let! _ := say entropy_sum (Message.MCommit (Commit.mk id)) in
  let! f := recv_ctl in
  if negb (Frame.type_byte f =? Message.COMMITTED) then throw (protocol_violation "download: expected COMMITTED") else
  let! m := of_protocol (Committed.decode (Frame.payload f)) in
  if negb (bool_decide (Committed.transfer_id m = id)) || negb (Committed.files m =? 1) then throw (protocol_violation "download: COMMITTED transfer_id/files mismatch")
  else ret tt.

(** Rename, then open and sync the directory, if that goes. *)
Definition move_into_place (staging local_path : bytes) : N unit :=
  let! _ := on_files (rename_file staging local_path) in
  let! dir := ok (on_files sync_all) in
  match dir with Some _ => ignore (on_files sync_all) | None => ret tt end.

Definition client_download_stream_with_staging (id : TransferId) (local_path : bytes) (staging_prepopulated : bool) : N Hash :=
  let staging := partial_path local_path in
  let! _ := on_files (create_parents staging) in
  let! _ := on_files (open_file staging (negb staging_prepopulated)) in
  let! _ := recv_preamble id in
  let! _ := (fun x => store_blocks (Datatypes.S (length (avail (data_in x)))) staging None x) in
  let! _ := on_files sync_all in
  let! computed := ask_hash id in
  let! _ := ask_commit id in
  let! _ := move_into_place staging local_path in
  ret computed.

(** ** The server's half *)

Definition encode_block (compress : bool) (sel : Compression.AdaptiveCompressionSelector) (offset : Z) (buf : bytes)
  : outcome VelcruxError (bytes * Compression.AdaptiveCompressionSelector) :=
  if compress
  then let? '(b, _, _, sel) := DataPath.encode_data_frame_adaptive entropy_sum centibits offset (hash_of buf) buf sel in Ok (b, sel)
  else let? '(b, _) := DataPath.encode_data_frame_maybe_compressed entropy_sum offset (hash_of buf) buf false in Ok (b, sel).

(** The chunks that are not in the skip bitmap; a file that is shorter than it was gives short chunks. The index grows in
    every round, so the number of chunks is enough fuel. *)
Fixpoint serve_missing (fuel : nat) (compress : bool) (content : bytes) (file_size chunk_size total_chunks : Z) (skip : ChunkBitmap.t)
    (sel : Compression.AdaptiveCompressionSelector) (next_chunk : Z) : N unit :=
  if next_chunk <? total_chunks then
    match fuel with
    | O => fun x => (Crashed, x)
    | Datatypes.S fuel =>
        let offset := next_chunk * chunk_size in
        let want := Z.min (file_size - offset) chunk_size in
        let! buf := on_files (read_at content offset want) in
        let! '(bytes, sel) := of_outcome (encode_block compress sel offset buf) in
        let! _ := send_data bytes in
        let! next_chunk := first_missing skip (next_chunk + 1) total_chunks in
        serve_missing fuel compress content file_size chunk_size total_chunks skip sel next_chunk
    end
  else ret tt.

(** The frames of the chunks that end in the bytes read so far. *)
Fixpoint serve_boundaries (compress : bool) (sel : Compression.AdaptiveCompressionSelector) (pending : bytes) (pending_offset : Z) (l : list ChunkBoundary)
    : N (bytes * Z * Compression.AdaptiveCompressionSelector) :=
  match l with
  | [] => ret (pending, pending_offset, sel)
  | b :: l =>
      let need := boundary_end b - pending_offset in
      let! payload := of_outcome (slice pending 0 need) in
      let! '(bytes, sel) := of_outcome (encode_block compress sel pending_offset payload) in
      let! _ := send_data bytes in
      serve_boundaries compress sel (drop (Z.to_nat need) pending) (boundary_end b) l
  end.
Definition READ_BUFFER : Z := 2 * 1024 * 1024.
(** [read_buf] is the size of the buffer, [seen] what the hasher of the whole file has been fed. Every round but the last reads a byte or more. *)
Fixpoint serve_cdc (fuel : nat) (read_buf : Z) (compress : bool) (content : bytes) (seen : bytes) (chunker : RollingChunker.t)
    (sel : Compression.AdaptiveCompressionSelector) (pending : bytes) (pending_offset : Z) : N Hash :=
  match fuel with
  | O => fun x => (Crashed, x)
  | Datatypes.S fuel =>
      let! buf := on_files (read_at content (zlen seen) read_buf) in
      if zlen buf =? 0 then
        let! _ := (if bool_decide (pending = []) then ret tt
                   else let! '(bytes, _) := of_outcome (encode_block compress sel pending_offset pending) in send_data bytes) in
        ret (hash_of seen)
      else
        let! '(chunker, l) := of_protocol (RollingChunker.push chunker buf) in
        let! '(pending, pending_offset, sel) := serve_boundaries compress sel (pending ++ buf) pending_offset l in
        serve_cdc fuel read_buf compress content (seen ++ buf) chunker sel pending pending_offset
  end.

(** [open_read]. *)
Definition open_read (b : Backend) (src : bytes) : N bytes :=
  let! c := on_files (read_file (resolve b src)) in
  let! _ := on_files (len_of c) in
  ret c.

Definition serve_file (compress : bool) (content : bytes) (file_size : Z) (file_hash : Hash) (skip_bitmap : option ChunkBitmap.t) : N Hash :=
  match skip_bitmap with
  | Some bm =>
      let chunk_size := DELTA_CHUNK_SIZE in
      let total_chunks := if file_size =? 0 then 0 else (file_size + chunk_size - 1) / chunk_size in
      let! next_chunk := first_missing bm 0 total_chunks in
      let! _ := serve_missing (Z.to_nat total_chunks) compress content file_size chunk_size total_chunks bm Compression.selector_with_defaults next_chunk in
      ret file_hash
  | None => serve_cdc (Datatypes.S (length content)) READ_BUFFER compress content [] (RollingChunker.new ChunkParams.default) Compression.selector_with_defaults [] 0
  end.

Definition grant_verify (id : TransferId) (computed : Hash) : N unit :=
  let! f := recv_ctl in
  if negb (Frame.type_byte f =? Message.VERIFY) then throw (protocol_violation "server download: expected VERIFY") else
  let! v := of_protocol (Verify.decode (Frame.payload f)) in
  if negb (bool_decide (Verify.transfer_id v = id)) then throw (protocol_violation "server download: VERIFY transfer_id mismatch") else
  say entropy_sum (Message.MVerifyResult (VerifyResult.mk id true computed)).
Definition grant_commit (id : TransferId) : N unit :=
  let! f := recv_ctl in
  if negb (Frame.type_byte f =? Message.COMMIT) then throw (protocol_violation "server download: expected COMMIT") else
  let! m := of_protocol (Commit.decode (Frame.payload f)) in
  if negb (bool_decide (Commit.transfer_id m = id)) then throw (protocol_violation "server download: COMMIT transfer_id mismatch") else
  say entropy_sum (Message.MCommitted (Committed.mk id 1)).

Definition server_download_session_with_compression (b : Backend) (id : TransferId) (src : bytes) (file_size : Z) (file_hash : Hash)
    (skip_bitmap : option ChunkBitmap.t) (compress : bool) : N unit :=
  let! pre := of_outcome (Data.encode_data_preamble (Data.mk_preamble id 1 1)) in
  let! _ := send_data pre in
  let! content := open_read b src in
  let! computed := serve_file compress content file_size file_hash skip_bitmap in
  let! _ := grant_verify id computed in
  grant_commit id.

(** ** Pipes *)

(** [input] is what the reader still gives; every round but the last takes a byte or more. The two counters of the
    source, the offset and the bytes streamed, are the same number. *)
Fixpoint pump (fuel : nat) (chunk_size : Z) (compress : bool) (sel : Compression.AdaptiveCompressionSelector) (input : bytes) (offset : Z) : N Z :=
  match fuel with
  | O => fun x => (Crashed, x)
  | Datatypes.S fuel =>
      let! piece := on_files (read_at input 0 chunk_size) in
      if zlen piece =? 0 then ret offset
      else
        let! '(bytes, sel) := of_outcome (encode_block compress sel offset piece) in
        let! _ := send_data bytes in
        pump fuel chunk_size compress sel (drop (length piece) input) (offset + zlen piece)
  end.

Definition await_streamed (id : TransferId) (final_hash : Hash) : N unit :=
  let! f := recv_ctl in
  if negb (Frame.type_byte f =? Message.VERIFY_RESULT) then throw (protocol_violation "expected VERIFY_RESULT") else
  let! vr := of_protocol (VerifyResult.decode (Frame.payload f)) in
  if negb (bool_decide (VerifyResult.transfer_id vr = id)) then throw (protocol_violation "VERIFY_RESULT transfer_id mismatch") else
  if negb (VerifyResult.matches vr) || negb (bool_decide (VerifyResult.computed_hash vr = final_hash))
  then throw (EProtocol (Malformed "streaming upload: server whole-stream BLAKE3 verification failed")) else ret tt.

Definition client_upload_stdin_stream (id : TransferId) (input : bytes) (chunk_size : Z) (compress : bool) : N (Hash * Z) :=
  let chunk_size := Z.min (Z.max chunk_size 4096) Limits.MAX_CHUNK_SIZE in
  let! pre := of_outcome (Data.encode_data_preamble (Data.mk_preamble id 1 1)) in
  let! _ := send_data pre in
  let! total_streamed := pump (Datatypes.S (length input)) chunk_size compress Compression.selector_with_defaults input 0 in
  let final_hash := hash_of input in
  let! _ := say entropy_sum (Message.MVerify (Verify.mk id final_hash)) in
  let! _ := await_streamed id final_hash in
  let! _ := say entropy_sum (Message.MCommit (Commit.mk id)) in
  let! _ := await_committed (mkJob id 0 HASH_ZERO) in
  ret (final_hash, total_streamed).

(** [out] is the name of the writer: what is written is appended to its contents. *)
Definition append (out : bytes) (b : bytes) : M fs bytes unit :=
  call (fun w => (Done tt, edit out (fun c => c ++ b) w)) (fun n w => edit out (fun c => c ++ take n b) w).
Fixpoint drain (fuel : nat) (out : bytes) (seen : bytes) : N bytes :=
  match fuel with
  | O => fun x => (Crashed, x)
  | Datatypes.S fuel =>
      let! r := recv_block in
      match r with
      | None => ret seen
      | Some (_, chunk_data) => let! _ := on_files (append out chunk_data) in drain fuel out (seen ++ chunk_data)
      end
  end.
Definition client_download_stdout_stream (id : TransferId) (out : bytes) : N (Hash * Z) :=
  let! _ := recv_preamble id in
  let! seen := (fun x => drain (Datatypes.S (length (avail (data_in x)))) out [] x) in
  let! _ := on_files sync_all in
  let! computed := ask_hash id in
  let local_computed := hash_of seen in
  if negb (bool_decide (local_computed = computed)) then throw (EProtocol (Malformed "download: local streaming BLAKE3 hash does not match server")) else
  let! _ := ask_commit id in
  ret (local_computed, zlen seen).
End download.
