(* ===== verification/DownloadCorrect.v ===== *)
(** * Downloads that go through

    Where no call fails, the two halves of a download together put exactly the file at its place, whether its chunks are
    found by content or, over a staging file that already has some of them, by a skip bitmap
    ([download_complete]). What goes into a pipe has the hash that is reported, whatever the server sends and whichever calls fail
    ([stdout_verified]). The module [DownloadExamples] shows what a download does not check. *)

From Stdlib Require Import QArith.
From S2P Require Import Prelude Utf8 Protocol Varint Wire Paths Bitmap StateStore Chunking ChunkEngine FileSys CasGc Frame Compression DataPath MsgTransfer MsgResume Message Session DeltaSync Checkpoint Upload UploadSafety UploadResume UploadComplete Download.
Import Str.
Open Scope Z_scope.

(** ** Pieces of a file *)

(** An offset and the bytes there. *)
Abbreviation piece := (Z * bytes)%type.
Definition piece_of (f : bytes) (p : piece) : Prop :=
  0 <= p.1 /\ 0 < zlen p.2 <= Data.DATA_MAX_CHUNK_LEN /\ p.1 + zlen p.2 <= zlen f /\
  forall k, (k < length p.2)%nat -> p.2 !! k = f !! (Z.to_nat p.1 + k)%nat.
Definition within (p : piece) (q : nat) : Prop := p.1 <= Z.of_nat q < p.1 + zlen p.2.
Definition write_pieces (c : bytes) (l : list piece) : bytes := foldl (fun c p => splice c p.1 p.2) c l.

Lemma splice_agrees f c p q : piece_of f p -> is_Some (f !! q) -> within p q \/ c !! q = f !! q -> splice c p.1 p.2 !! q = f !! q.
Proof.
  intros (Ho & _ & _ & Hp) [y Hy] Hq. rewrite splice_lookup by done. unfold within in Hq.
  destruct (decide (Z.of_nat q < p.1)) as [Hl|Hl].
  - destruct Hq as [Hq|Hq]; [lia|]. rewrite decide_True; [done|]. rewrite Hy in Hq. apply lookup_lt_Some in Hq. unfold zlen. lia.
  - destruct (decide (Z.of_nat q < p.1 + zlen p.2)) as [Hr|Hr]; [|destruct Hq as [Hq|Hq]; [lia|done]].
    rewrite Hp by (unfold zlen in Hr; lia). f_equal. lia.
Qed.
Lemma write_pieces_agrees f l : Forall (piece_of f) l -> forall c q, is_Some (f !! q) -> Exists (fun p => within p q) l \/ c !! q = f !! q -> write_pieces c l !! q = f !! q.
Proof.
  induction 1 as [|p l Hp _ IH]; intros c q Hs Hq; cbn.
  - destruct Hq as [Hq|Hq]; [by apply Exists_nil in Hq|done].
  - apply IH; [done|]. destruct Hq as [Hq|Hq]; [apply Exists_cons in Hq as [Hq|Hq]; [|by left]|]; right; apply splice_agrees; auto.
Qed.
Lemma write_pieces_len f l : Forall (piece_of f) l -> forall c, zlen c <= zlen f -> zlen (write_pieces c l) <= zlen f.
Proof.
  induction 1 as [|p l (Ho & _ & Hp & _) _ IH]; intros c Hc; cbn; [done|]. apply IH. rewrite zlen_splice by done. lia.
Qed.
(** Pieces that cover what the contents do not have complete them. *)
Lemma write_pieces_all f l c : Forall (piece_of f) l -> zlen c <= zlen f ->
  (forall q : nat, Z.of_nat q < zlen f -> Exists (fun p => within p q) l \/ c !! q = f !! q) -> write_pieces c l = f.
Proof.
  intros Hl Hc Hq. apply list_eq. intros q. destruct (f !! q) as [y|] eqn:Hf.
  - rewrite <- Hf. apply (write_pieces_agrees f); [done|by eexists|]. apply Hq. apply lookup_lt_Some in Hf. unfold zlen. lia.
  - apply lookup_ge_None. apply lookup_ge_None in Hf. pose proof (write_pieces_len f l Hl c Hc). unfold zlen in *. lia.
Qed.

(** Chunks one after the other. *)
Fixpoint pieces (base : Z) (l : list bytes) : list piece :=
  match l with [] => [] | c :: l => (base, c) :: pieces (base + zlen c) l end.
Lemma pieces_app l1 : forall base l2, pieces base (l1 ++ l2) = pieces base l1 ++ pieces (base + zlen (mjoin l1)) l2.
Proof.
  induction l1 as [|c l1 IH]; intros base l2; cbn [app pieces]; [change (zlen (mjoin [])) with 0; by rewrite Z.add_0_r|].
  rewrite IH. change (mjoin (c :: l1)) with (c ++ mjoin l1). by rewrite zlen_app, Z.add_assoc.
Qed.
Lemma pieces_of l : Forall (fun c => 0 < zlen c <= Data.DATA_MAX_CHUNK_LEN) l -> forall pre,
  Forall (piece_of (pre ++ mjoin l)) (pieces (zlen pre) l) /\
  forall q : nat, zlen pre <= Z.of_nat q < zlen (pre ++ mjoin l) -> Exists (fun p => within p q) (pieces (zlen pre) l).
Proof.
  induction 1 as [|c l Hc _ IH]; intros pre; cbn [pieces]; [split; [done|]; intros q Hq; rewrite app_nil_r in Hq; lia|].
  change (mjoin (c :: l)) with (c ++ mjoin l). specialize (IH (pre ++ c)). rewrite <- app_assoc, zlen_app in IH. destruct IH as [Hf Hq]. split.
  - constructor; [|done]. split; [apply zlen_nonneg|]. split; [done|]. split; [cbn; rewrite !zlen_app; pose proof (zlen_nonneg (mjoin l)); lia|].
    intros k Hk. cbn. unfold zlen. rewrite Nat2Z.id, lookup_app_r by lia. rewrite lookup_app_l by (cbn in Hk; lia). f_equal. lia.
  - intros q Hq'. destruct (decide (Z.of_nat q < zlen pre + zlen c)); [left; unfold within; cbn; lia|right; apply Hq; lia].
Qed.

(** ** The client *)

Section client.
Context `{Zstd} {S : Type}.
Context (entropy_sum : list Z -> Z -> Q) (hash_of : bytes -> Hash) (f : bytes) (id : TransferId) (js : gmap bytes Empty_set) (nw : Z).
Context (Hf : zlen f <= FILE_MAX) (Hhash : forall b, wf_hash (hash_of b)) (Hid : wf_id id).
Local Abbreviation St s d di ci dout cout t := (mkSession (S:=S) s (mkWorld d js [] nw) di ci dout cout t).

(** The frame of a piece. *)
Definition block_header (p : piece) : Data.DataFrameHeader := Data.mk_header p.1 (zlen p.2) Data.NONE (hash_of p.2).
Definition block (p : piece) : bytes := Data.header_bytes p.1 (zlen p.2) Data.NONE (hash_of p.2) ++ p.2.
Definition blocks (l : list piece) : bytes := mjoin (block <$> l).

Lemma block_header_ok p : piece_of f p -> Data.header_ok (block_header p).
Proof.
  intros (Ho & Hl & He & _). unfold Data.header_ok, block_header. cbn [Data.chunk_offset Data.chunk_len Data.flags Data.chunk_hash].
  split; [unfold fits, FILE_MAX in *; lia|]. split; [lia|]. split; [by vm_compute|apply Hhash].
Qed.
Lemma recv_block_run p rest s d ci dout cout t : piece_of f p ->
  recv_block hash_of (St s d (mk_stream (block p ++ rest) None) ci dout cout t) = (Done (Some (block_header p, p.2)), St s d (mk_stream rest None) ci dout cout t).
Proof.
  intros Hp. unfold recv_block. unfold bind at 1, recv_data at 1. cbn [data_in]. unfold block. rewrite <- app_assoc.
  rewrite Session.read_exact_app by (unfold Data.header_bytes; rewrite !zlen_app, !zlen_to_le; by rewrite (proj2 (Hhash _))).
  pose proof (Data.header_roundtrip (block_header p) [] (block_header_ok p Hp)) as Hd. rewrite app_nil_r in Hd.
  cbn [Data.chunk_offset Data.chunk_len Data.flags Data.chunk_hash block_header] in Hd.
  unfold bind at 1, of_protocol, of_outcome. rewrite Hd. cbn [map_err Data.flags Data.chunk_len block_header]. change (Data.compressed Data.NONE) with false. cbv iota.
  unfold bind at 1, recv_data. cbn [data_in]. rewrite Session.read_exact_app by done.
  cbv beta iota delta [ret bind]. cbn [Data.chunk_hash block_header]. by rewrite bool_decide_eq_true_2.
Qed.
Lemma recv_end_run s d ci dout cout t : recv_block hash_of (St s d (mk_stream [] None) ci dout cout t) = (Done None, St s d (mk_stream [] None) ci dout cout t).
Proof. done. Qed.

Lemma store_run st l : Forall (piece_of f) l -> forall fuel s d ci dout cout t c, (length l < fuel)%nat -> d !! st = Some c ->
  store_blocks hash_of fuel st None (St s d (mk_stream (blocks l) None) ci dout cout t) = (Done tt, St s (<[st := write_pieces c l]> d) (mk_stream [] None) ci dout cout t).
Proof.
  induction 1 as [|p l Hp _ IH]; intros [|fuel] s d ci dout cout t c Hfuel Hd; cbn [length] in Hfuel; try lia; cbn [store_blocks].
  - rewrite (bind_done _ _ _ _ _ (recv_end_run s d ci dout cout t)). cbn. by rewrite insert_id.
  - change (blocks (p :: l)) with (block p ++ blocks l). rewrite (bind_done _ _ _ _ _ (recv_block_run p (blocks l) s d ci dout cout t Hp)).
    rewrite (bind_done _ _ _ None (St s (<[st := splice c p.1 p.2]> d) (mk_stream (blocks l) None) ci dout cout t)); cycle 1.
    { destruct Hp as (Ho & Hl & He & _). unfold on_files, map_error. cbn [Data.chunk_offset block_header files].
      by rewrite (seek_write_ok st _ _ c) by (done || lia || (intros E; rewrite E in Hl; unfold zlen in Hl; cbn in Hl; lia)). }
    rewrite (IH fuel s (<[st := splice c p.1 p.2]> d) ci dout cout t (splice c p.1 p.2)) by (lia || apply lookup_insert_eq). by rewrite insert_insert_eq.
Qed.
Lemma drain_run out l : Forall (piece_of f) l -> forall fuel seen s d ci dout cout t c, (length l < fuel)%nat -> d !! out = Some c ->
  drain hash_of fuel out seen (St s d (mk_stream (blocks l) None) ci dout cout t) = (Done (seen ++ mjoin (snd <$> l)), St s (<[out := c ++ mjoin (snd <$> l)]> d) (mk_stream [] None) ci dout cout t).
Proof.
  induction 1 as [|p l Hp _ IH]; intros [|fuel] seen s d ci dout cout t c Hfuel Hd; cbn [length] in Hfuel; try lia; cbn [drain].
  - rewrite (bind_done _ _ _ _ _ (recv_end_run s d ci dout cout t)). cbn. by rewrite !app_nil_r, insert_id.
  - change (blocks (p :: l)) with (block p ++ blocks l). rewrite (bind_done _ _ _ _ _ (recv_block_run p (blocks l) s d ci dout cout t Hp)).
    rewrite (bind_done _ _ _ tt (St s (<[out := c ++ p.2]> d) (mk_stream (blocks l) None) ci dout cout t)); cycle 1.
    { unfold on_files, append, map_error, call. cbn [files events disk docs now tail]. unfold edit, set_disk. cbn [disk docs events now]. by rewrite (alter_at _ out c d Hd). }
    rewrite (IH fuel (seen ++ p.2) s (<[out := c ++ p.2]> d) ci dout cout t (c ++ p.2)) by (lia || apply lookup_insert_eq). rewrite insert_insert_eq.
    change (mjoin (snd <$> p :: l)) with (p.2 ++ mjoin (snd <$> l)). by rewrite !app_assoc.
Qed.
Lemma blocks_len l : (length l <= length (blocks l))%nat.
Proof.
  induction l as [|p l IH]; [done|]. change (blocks (p :: l)) with (block p ++ blocks l). rewrite length_app. cbn [length].
  assert (0 < length (block p))%nat; [|lia]. unfold block, Data.header_bytes. rewrite !length_app. pose proof (zlen_to_le 8 p.1) as Hz. unfold zlen in Hz. lia.
Qed.

(** The control messages. *)
Definition result_of (h : Hash) : bytes := id ++ push (Z.b2z true) ++ zeros 7 ++ h.
Definition committed_of : bytes := id ++ to_le 4 1.
Definition asks : bytes := message Message.VERIFY (id ++ HASH_ZERO) ++ message Message.COMMIT id.
Definition grants (h : Hash) : bytes := message Message.VERIFY_RESULT (result_of h) ++ message Message.COMMITTED committed_of.
Lemma control_sizes h : wf_hash h -> zlen (id ++ HASH_ZERO) = 48 /\ zlen (result_of h) = 56 /\ zlen id = 16 /\ zlen committed_of = 20.
Proof. intros Hh. unfold result_of, committed_of. by rewrite !zlen_app, zlen_to_le, zlen_push, zlen_zeros, (proj2 Hid), (proj2 Hh). Qed.

Lemma zero_hash_ok : wf_hash HASH_ZERO.
Proof. split; [repeat constructor; lia|done]. Qed.

Lemma ask_hash_run h rest s d di dout cout t : wf_hash h ->
  ask_hash entropy_sum id (St s d di (mk_stream (message Message.VERIFY_RESULT (result_of h) ++ rest) None) dout cout t)
  = (Done h, St s d di (mk_stream rest None) dout (cout ++ message Message.VERIFY (id ++ HASH_ZERO)) t).
Proof.
  intros Hh. destruct (control_sizes h Hh) as (Hv & Hr & _). unfold ask_hash.
  rewrite (bind_done _ _ _ tt _ (say_run entropy_sum js nw (Message.MVerify (Verify.mk id HASH_ZERO)) Message.VERIFY (id ++ HASH_ZERO) _ _ _ _ _ _ _ (conj Hid zero_hash_ok) eq_refl ltac:(by rewrite Hv))).
  edestruct (recv_ctl_run js nw Message.VERIFY_RESULT (result_of h) rest None s d di dout (cout ++ message Message.VERIFY (id ++ HASH_ZERO)) t) as (fr & Hc & Hty & Hp); [done|by rewrite Hr|].
  rewrite (bind_done _ _ _ _ _ Hc), Hty, Hp, Z.eqb_refl. cbn [negb].
  assert (VerifyResult.decode (result_of h) = Ok (VerifyResult.mk id true h)) as Hd by (apply VerifyResult.verify_result_roundtrip; [done|done|by rewrite Hr]).
  rewrite (bind_done _ _ _ (VerifyResult.mk id true h) (St s d di (mk_stream rest None) dout (cout ++ message Message.VERIFY (id ++ HASH_ZERO)) t)) by (unfold of_protocol; by rewrite Hd).
  cbn [VerifyResult.transfer_id VerifyResult.matches VerifyResult.computed_hash]. by rewrite bool_decide_eq_true_2.
Qed.
Lemma ask_commit_run s d di dout cout t :
  ask_commit entropy_sum id (St s d di (mk_stream (message Message.COMMITTED committed_of) None) dout cout t)
  = (Done tt, St s d di (mk_stream [] None) dout (cout ++ message Message.COMMIT id) t).
Proof.
  destruct (control_sizes (hash_of []) (Hhash [])) as (_ & _ & Hi & Hr). unfold ask_commit.
  rewrite (bind_done _ _ _ tt _ (say_run entropy_sum js nw (Message.MCommit (Commit.mk id)) Message.COMMIT id _ _ _ _ _ _ _ Hid eq_refl ltac:(by rewrite Hi))).
  edestruct (recv_ctl_run js nw Message.COMMITTED committed_of [] None s d di dout (cout ++ message Message.COMMIT id) t) as (fr & Hc & Hty & Hp); [done|by rewrite Hr|]. rewrite app_nil_r in Hc.
  rewrite (bind_done _ _ _ _ _ Hc), Hty, Hp, Z.eqb_refl. cbn [negb].
  assert (Committed.decode committed_of = Ok (Committed.mk id 1)) as Hd by (apply Committed.committed_roundtrip; [split; [done|by vm_compute]|done|by rewrite Hr]).
  rewrite (bind_done _ _ _ (Committed.mk id 1) (St s d di (mk_stream [] None) dout (cout ++ message Message.COMMIT id) t)) by (unfold of_protocol; by rewrite Hd).
  cbn [Committed.transfer_id Committed.files]. by rewrite bool_decide_eq_true_2.
Qed.
Lemma recv_preamble_run rest s d ci dout cout t :
  recv_preamble id (St s d (mk_stream (preamble (mkJob id 0 HASH_ZERO) ++ rest) None) ci dout cout t) = (Done tt, St s d (mk_stream rest None) ci dout cout t).
Proof.
  destruct (preamble_read (mkJob id 0 HASH_ZERO) Hid) as [Hl Hp]. unfold recv_preamble. unfold bind at 1, recv_data. cbn [data_in]. rewrite Session.read_exact_app by done.
  unfold bind at 1, of_outcome, need at 1. unfold bind at 1, of_protocol, of_outcome. rewrite Hp. cbn [map_err Data.transfer_id tid]. by rewrite bool_decide_eq_true_2.
Qed.

(** The client gets pieces that complete its staging file. *)
Lemma client_run_pieces local (pre : bool) h l s d dout cout t : wf_hash h -> Forall (piece_of f) l ->
  (let c := if pre then default [] (d !! partial_path local) else [] in
   zlen c <= zlen f /\ forall q : nat, Z.of_nat q < zlen f -> Exists (fun p => within p q) l \/ c !! q = f !! q) ->
  client_download_stream_with_staging entropy_sum hash_of id local pre (St s d (mk_stream (preamble (mkJob id 0 HASH_ZERO) ++ blocks l) None) (mk_stream (grants h) None) dout cout t)
  = (Done h, St s (<[local := f]> (delete (partial_path local) d)) (mk_stream [] None) (mk_stream [] None) dout (cout ++ asks) t).
Proof.
  intros Hh Hl. set (c := if pre then default [] (d !! partial_path local) else []). intros [Hc Hq]. unfold client_download_stream_with_staging. set (st := partial_path local) in *.
  rewrite (bind_done _ _ _ tt (St s d (mk_stream (preamble (mkJob id 0 HASH_ZERO) ++ blocks l) None) (mk_stream (grants h) None) dout cout t)) by done.
  rewrite (bind_done _ _ _ tt (St s (<[st := c]> d) (mk_stream (preamble (mkJob id 0 HASH_ZERO) ++ blocks l) None) (mk_stream (grants h) None) dout cout t)); cycle 1.
  { unfold on_files, map_error, open_file, call. cbn [files events tail disk docs now]. unfold c. destruct pre; cbn [negb]; [|done].
    destruct (d !! st) as [c'|] eqn:E; [cbn; by rewrite insert_id|done]. }
  rewrite (bind_done _ _ _ _ _ (recv_preamble_run _ _ _ _ _ _ _)).
  rewrite (bind_done _ _ _ tt (St s (<[st := f]> d) (mk_stream [] None) (mk_stream (grants h) None) dout cout t)); cycle 1.
  { cbn [data_in avail]. pose proof (blocks_len l). rewrite (store_run st l Hl _ _ _ _ _ _ _ c) by (lia || apply lookup_insert_eq). rewrite insert_insert_eq. by rewrite (write_pieces_all f). }
  rewrite (bind_done _ _ _ tt (St s (<[st := f]> d) (mk_stream [] None) (mk_stream (grants h) None) dout cout t)) by done.
  unfold grants. rewrite (bind_done _ _ _ _ _ (ask_hash_run h _ _ _ _ _ _ _ Hh)), (bind_done _ _ _ _ _ (ask_commit_run _ _ _ _ _ _)).
  rewrite (bind_done _ _ _ tt (St s (<[local := f]> (delete st d)) (mk_stream [] None) (mk_stream [] None) dout (cout ++ asks) t)); [done|].
  unfold move_into_place. rewrite (bind_done _ _ _ tt (St s (<[local := f]> (delete st d)) (mk_stream [] None) (mk_stream [] None) dout (cout ++ asks) t)); [done|].
  unfold on_files, map_error, rename_file, call. cbn [files events tail disk docs now]. rewrite lookup_insert_eq. unfold set_disk. cbn [disk docs events now]. rewrite delete_insert_eq. unfold asks. by rewrite <- app_assoc.
Qed.
End client.

(** ** The server *)

Section server.
Context `{Zstd} {S : Type}.
Context (entropy_sum : list Z -> Z -> Q) (centibits : Q -> Z) (hash_of : bytes -> Hash) (f : bytes) (id : TransferId) (js : gmap bytes Empty_set) (nw : Z).
Context (Hf : zlen f <= FILE_MAX) (Hbytes : is_bytes f) (Hhash : forall b, wf_hash (hash_of b)) (Hid : wf_id id).
Local Abbreviation St s d di ci dout cout t := (mkSession (S:=S) s (mkWorld d js [] nw) di ci dout cout t).
Local Abbreviation blks := (blocks hash_of).

Lemma blocks_app l1 l2 : blks (l1 ++ l2) = blks l1 ++ blks l2.
Proof. unfold blocks. by rewrite fmap_app, join_app. Qed.
Lemma encode_block_run sel off buf : 0 < zlen buf <= Data.DATA_MAX_CHUNK_LEN ->
  encode_block entropy_sum centibits hash_of false sel off buf = Ok (block hash_of (off, buf), sel).
Proof.
  intros Hl. unfold encode_block, DataPath.encode_data_frame_maybe_compressed. cbn [obind].
  rewrite Data.data_frame_spec by apply Hhash. by rewrite wrap_small by (unfold fits, Data.DATA_MAX_CHUNK_LEN in *; lia).
Qed.

Lemma serve_boundaries_run l : Forall (fun c => 0 < zlen c <= Data.DATA_MAX_CHUNK_LEN) l -> forall sel rest base s d di ci dout cout t,
  serve_boundaries entropy_sum centibits hash_of false sel (mjoin l ++ rest) base (boundaries base l) (St s d di ci dout cout t)
  = (Done (rest, base + zlen (mjoin l), sel), St s d di ci (dout ++ blks (pieces base l)) cout t).
Proof.
  induction 1 as [|c l Hc _ IH]; intros sel rest base s d di ci dout cout t; cbn [serve_boundaries boundaries pieces].
  { change (zlen (mjoin [])) with 0. by rewrite Z.add_0_r, app_nil_r. }
  change (mjoin (c :: l)) with (c ++ mjoin l). unfold boundary_end. cbn [b_offset b_length]. rewrite Z.add_simpl_l, <- app_assoc.
  rewrite (bind_done _ _ _ c (St s d di ci dout cout t)) by (unfold of_outcome; by rewrite slice_here).
  rewrite (bind_done _ _ _ (block hash_of (base, c), sel) (St s d di ci dout cout t)) by (by rewrite encode_block_run).
  rewrite (bind_done _ _ _ tt (St s d di ci (dout ++ block hash_of (base, c)) cout t)) by done.
  unfold zlen at 1. rewrite Nat2Z.id, drop_app_length, IH. rewrite zlen_app, Z.add_assoc. change (blks ((base, c) :: ?l)) with (block hash_of (base, c) ++ blks l). by rewrite <- app_assoc.
Qed.

Local Abbreviation cut := (RollingChunker.cut ChunkParams.default).
(** The chunks that are still to come when [cur] is pending and [rest] unread. *)
Definition rest_chunks (cur rest : bytes) : list bytes := let '(l, c) := spec_run cut cur rest in l ++ if decide (c = []) then [] else [c].
Lemma rest_chunks_app cur a rest : rest_chunks cur (a ++ rest) = (spec_run cut cur a).1 ++ rest_chunks (spec_run cut cur a).2 rest.
Proof.
  unfold rest_chunks. rewrite spec_run_app. destruct (spec_run cut cur a) as [l1 c1]. cbn [fst snd]. destruct (spec_run cut c1 rest) as [l2 c2]. by rewrite app_assoc.
Qed.
Lemma cut_full c : Data.DATA_MAX_CHUNK_LEN <= zlen c -> cut c = true.
Proof. apply (cut_max Cdc ChunkParams.default); [unfold ChunkParams.valid, ChunkParams.default, ChunkParams.CHUNK_DEFAULT_MIN, ChunkParams.CHUNK_DEFAULT_TARGET, ChunkParams.CHUNK_DEFAULT_MAX; cbn [ChunkParams.min ChunkParams.target ChunkParams.max]; lia|by left]. Qed.
Lemma run_sizes cur data : zlen cur < Data.DATA_MAX_CHUNK_LEN ->
  Forall (fun c => 0 < zlen c <= Data.DATA_MAX_CHUNK_LEN) (spec_run cut cur data).1 /\ zlen (spec_run cut cur data).2 < Data.DATA_MAX_CHUNK_LEN.
Proof.
  intros Hc. destruct (spec_run_bound cut Data.DATA_MAX_CHUNK_LEN data cut_full ltac:(done) cur Hc) as [Hl Hr]. split; [|done].
  pose proof (spec_run_cut cut data cur) as Hcut. destruct (spec_run cut cur data) as [l c]. destruct Hcut as [Hne _]. cbn [fst] in *.
  rewrite Forall_forall in Hl, Hne |- *. intros x Hx. split; [apply chunk_pos; by apply Hne|by apply Hl].
Qed.
Lemma rest_chunks_ok cur rest : zlen cur < Data.DATA_MAX_CHUNK_LEN -> Forall (fun c => 0 < zlen c <= Data.DATA_MAX_CHUNK_LEN) (rest_chunks cur rest).
Proof.
  intros Hc. destruct (run_sizes cur rest Hc) as [Hl Hr]. unfold rest_chunks. destruct (spec_run cut cur rest) as [l c]. cbn [fst snd] in *. apply Forall_app. split; [done|].
  destruct (decide (c = [])); [done|]. constructor; [|done]. split; [by apply chunk_pos|lia].
Qed.
Lemma rest_chunks_concat cur rest : mjoin (rest_chunks cur rest) = cur ++ rest.
Proof.
  unfold rest_chunks. pose proof (spec_run_concat cut rest cur) as Hc. destruct (spec_run cut cur rest) as [l c]. rewrite mjoin_app'. rewrite <- Hc. f_equal.
  destruct (decide (c = [])) as [->|]; [done|apply app_nil_r].
Qed.

Lemma serve_cdc_run read_buf fuel : 0 < read_buf -> forall seen rest chunker sel cur base s d di ci dout cout t, f = seen ++ rest -> (length rest < fuel)%nat ->
  RollingChunker.repr ChunkParams.default chunker base cur -> zlen cur < Data.DATA_MAX_CHUNK_LEN ->
  serve_cdc entropy_sum centibits hash_of fuel read_buf false f seen chunker sel cur base (St s d di ci dout cout t)
  = (Done (hash_of f), St s d di ci (dout ++ blks (pieces base (rest_chunks cur rest))) cout t).
Proof.
  intros Hbuf. induction fuel as [|fuel IH]; intros seen rest chunker sel cur base s d di ci dout cout t Hsr Hfuel Hrep Hcur; [lia|]. cbn [serve_cdc].
  set (buf := take (Z.to_nat read_buf) rest).
  rewrite (bind_done _ _ _ buf (St s d di ci dout cout t)); cycle 1.
  { unfold on_files, map_error, read_at, call. cbn [files events tail disk docs now]. unfold zlen at 1. rewrite Nat2Z.id. unfold buf. rewrite Hsr at 1. by rewrite drop_app_length. }
  destruct (Z.eqb_spec (zlen buf) 0) as [Hz|Hz].
  - assert (rest = []) as ->. { destruct rest; [done|]. assert (0 < Z.to_nat read_buf)%nat by lia. unfold buf in Hz. destruct (Z.to_nat read_buf); [lia|]. cbn in Hz. unfold zlen in Hz. cbn [length] in Hz. lia. }
    rewrite app_nil_r in Hsr. subst seen. unfold rest_chunks. cbn [spec_run app]. case_bool_decide as Hp.
    + rewrite decide_True by done. cbn [pieces]. change (blks []) with (@nil Z). by rewrite app_nil_r.
    + rewrite decide_False by done. cbn [pieces].
      rewrite (bind_done _ _ _ tt (St s d di ci (dout ++ block hash_of (base, cur)) cout t)); cycle 1.
      { rewrite (bind_done _ _ _ (block hash_of (base, cur), sel) (St s d di ci dout cout t)) by (rewrite encode_block_run; [done|split; [by apply chunk_pos|lia]]). done. }
      change (blks [?p]) with (block hash_of p ++ []). by rewrite app_nil_r.
  - assert (is_bytes buf) as Hb. { unfold buf. apply Forall_take. rewrite Hsr in Hbytes. by apply Forall_app in Hbytes as [_ ?]. }
    destruct (ck_push_spec (ChunkerSpec:=RollingChunker.rolling_spec ChunkParams.default) chunker base cur buf Hrep Hb) as (chunker' & Hpush & Hrep').
    change (ck_push chunker buf) with (RollingChunker.push chunker buf) in Hpush.
    rewrite (bind_done _ _ _ (chunker', boundaries base (spec_run cut cur buf).1) (St s d di ci dout cout t)) by (unfold of_protocol; by rewrite Hpush).
    pose proof (spec_run_concat cut buf cur) as Hcat. destruct (run_sizes cur buf Hcur) as [Hl Hr].
    assert (rest_chunks cur rest = (spec_run cut cur buf).1 ++ rest_chunks (spec_run cut cur buf).2 (drop (Z.to_nat read_buf) rest)) as Hsplit by (rewrite <- rest_chunks_app; unfold buf; by rewrite take_drop).
    rewrite Hsplit. destruct (spec_run cut cur buf) as [l c]. cbn [fst snd] in *. rewrite <- Hcat.
    rewrite (bind_done _ _ _ _ _ (serve_boundaries_run l Hl sel c base s d di ci dout cout t)).
    rewrite (IH (seen ++ buf) (drop (Z.to_nat read_buf) rest)); [|rewrite <- app_assoc; unfold buf; by rewrite take_drop| |done|done].
    + by rewrite pieces_app, blocks_app, app_assoc.
    + unfold buf in Hz. unfold zlen in Hz. rewrite length_drop. rewrite length_take in Hz. lia.
Qed.

(** The chunks of a fixed size that are not in the skip bitmap. *)
Definition windows (CS : Z) (l : list Z) : list piece := (fun i => (i * CS, window f CS i)) <$> l.
Lemma window_piece CS i : 0 < CS <= Data.DATA_MAX_CHUNK_LEN -> in_file f CS i -> piece_of f (i * CS, window f CS i).
Proof.
  intros Hcs Hi. destruct (zlen_window f CS (proj1 Hcs) i Hi) as [Hw He]. split; [destruct Hi; cbn; nia|]. split; [cbn; lia|]. split; [cbn; lia|].
  intros k Hk. cbn in *. apply window_lookup; [lia|done|]. unfold zlen in Hw. lia.
Qed.
Lemma windows_pieces CS skip : 0 < CS <= Data.DATA_MAX_CHUNK_LEN -> Forall (piece_of f) (windows CS (missing f CS skip 0)).
Proof.
  intros Hcs. apply Forall_fmap. eapply Forall_impl; [apply missing_in; lia|]. intros i Hi. by apply window_piece.
Qed.
Lemma windows_cover CS skip (q : nat) : 0 < CS <= Data.DATA_MAX_CHUNK_LEN -> Z.of_nat q < zlen f -> ChunkBitmap.contains skip (Z.of_nat q / CS) = false ->
  Exists (fun p => within p q) (windows CS (missing f CS skip 0)).
Proof.
  intros Hcs Hq Hs. assert (in_file f CS (Z.of_nat q / CS)) as Hi by (split; [apply Z.div_pos; lia|]; pose proof (Z.mul_div_le (Z.of_nat q) CS); lia).
  apply Exists_exists. exists (Z.of_nat q / CS * CS, window f CS (Z.of_nat q / CS)). split; [apply list_elem_of_fmap; eexists; split; [done|]; apply missing_all; [lia|done|done]|].
  destruct (zlen_window f CS (proj1 Hcs) _ Hi) as [_ He]. unfold within. cbn. rewrite He. pose proof (Z.mul_succ_div_gt (Z.of_nat q) CS). pose proof (Z.mul_div_le (Z.of_nat q) CS). lia.
Qed.

Lemma serve_missing_run CS skip : 0 < CS <= Data.DATA_MAX_CHUNK_LEN -> let total := (zlen f + CS - 1) / CS in
  forall fuel next sel s d di ci dout cout t, 0 <= next -> (Z.to_nat (total - next) <= fuel)%nat -> (next < total -> ChunkBitmap.contains skip next = false) ->
  serve_missing entropy_sum centibits hash_of fuel false f (zlen f) CS total skip sel next (St s d di ci dout cout t)
  = (Done tt, St s d di ci (dout ++ blks (windows CS (missing f CS skip next))) cout t).
Proof.
  intros Hcs total. induction fuel as [|fuel IH]; intros next sel s d di ci dout cout t Hn Hfuel Hnext; cbn [serve_missing];
    (destruct (Z.ltb_spec next total) as [Hl|Hl]; [|rewrite missing_end by done; cbn; by rewrite app_nil_r]); [lia|].
  assert (in_file f CS next) as Hi by by apply (total_in f CS Hcs). destruct (zlen_window f CS (proj1 Hcs) next Hi) as [Hw He].
  rewrite (bind_done _ _ _ (window f CS next) (St s d di ci dout cout t)); cycle 1.
  { unfold on_files, map_error, read_at, call. cbn [files events tail disk docs now]. do 2 f_equal. unfold window.
    destruct (decide (zlen f - next * CS <= CS)); [|by rewrite Z.min_r by lia]. rewrite !take_ge; [done|..]; rewrite length_drop; unfold zlen in *; destruct Hi; lia. }
  rewrite (bind_done _ _ _ (block hash_of (next * CS, window f CS next), sel) (St s d di ci dout cout t)) by (rewrite encode_block_run; [done|lia]).
  rewrite (bind_done _ _ _ tt (St s d di ci (dout ++ block hash_of (next * CS, window f CS next)) cout t)) by done.
  destruct (first_missing_run f js nw Hf CS Hcs skip (next + 1) s d di ci (dout ++ block hash_of (next * CS, window f CS next)) cout t) as (n & Hf1 & Hge & Hmiss & Hall); [fold total; lia|].
  rewrite (bind_done _ _ _ _ _ Hf1). rewrite (IH n) by (done || lia). rewrite (missing_next f CS skip next) by auto. rewrite (missing_skip f CS skip (next + 1) n) by done.
  cbn [windows fmap list_fmap]. change (blks (?p :: ?l)) with (block hash_of p ++ blks l). by rewrite <- app_assoc.
Qed.

(** What the server sends, and the hash it reports. *)
Definition sent (skip : option ChunkBitmap.t) : list piece :=
  match skip with Some bm => windows DELTA_CHUNK_SIZE (missing f DELTA_CHUNK_SIZE bm 0) | None => pieces 0 (rest_chunks [] f) end.
Lemma sent_pieces skip : Forall (piece_of f) (sent skip).
Proof.
  destruct skip as [bm|]; [by apply windows_pieces|]. destruct (pieces_of (rest_chunks [] f) (rest_chunks_ok [] f ltac:(done)) []) as [Hp _]. by rewrite rest_chunks_concat in Hp.
Qed.
Lemma sent_all (q : nat) : Z.of_nat q < zlen f -> Exists (fun p => within p q) (sent None).
Proof.
  intros Hq. destruct (pieces_of (rest_chunks [] f) (rest_chunks_ok [] f ltac:(done)) []) as [_ Hp]. rewrite rest_chunks_concat in Hp. apply Hp. change (zlen []) with 0. cbn [app]. lia.
Qed.

Lemma serve_delta_run CS skip (h : Hash) s d di ci dout cout t : 0 < CS <= Data.DATA_MAX_CHUNK_LEN ->
  (let total_chunks := if zlen f =? 0 then 0 else (zlen f + CS - 1) / CS in
   let! next_chunk := first_missing skip 0 total_chunks in
   let! _ := serve_missing entropy_sum centibits hash_of (Z.to_nat total_chunks) false f (zlen f) CS total_chunks skip Compression.selector_with_defaults next_chunk in
   ret h : M (session S) VelcruxError Hash) (St s d di ci dout cout t)
  = (Done h, St s d di ci (dout ++ blks (windows CS (missing f CS skip 0))) cout t).
Proof.
  intros Hcs. assert ((if zlen f =? 0 then 0 else (zlen f + CS - 1) / CS) = (zlen f + CS - 1) / CS) as ->.
  { destruct (Z.eqb_spec (zlen f) 0) as [E|]; [|done]. rewrite E. symmetry. apply Z.div_small. lia. }
  cbv zeta. pose proof (zlen_nonneg f).
  destruct (first_missing_run f js nw Hf CS Hcs skip 0 s d di ci dout cout t) as (n & Hn & Hge & Hmiss & Hall); [split; [lia|apply Z.div_pos; lia]|]. rewrite (bind_done _ _ _ _ _ Hn).
  rewrite (bind_done _ _ _ _ _ (serve_missing_run CS skip Hcs (Z.to_nat ((zlen f + CS - 1) / CS)) n _ s d di ci dout cout t ltac:(lia) ltac:(lia) Hmiss)).
  by rewrite (missing_skip f CS skip 0 n) by done.
Qed.
(** The hash of the bytes read, or with a skip bitmap the hash that the caller gives. *)
Definition reported (skip : option ChunkBitmap.t) (h : Hash) : Hash := match skip with Some _ => h | None => hash_of f end.
Lemma reported_ok skip h : wf_hash h -> wf_hash (reported skip h).
Proof. intros Hh. destruct skip; [done|apply Hhash]. Qed.
Lemma serve_file_run skip h s d di ci dout cout t :
  serve_file entropy_sum centibits hash_of false f (zlen f) h skip (St s d di ci dout cout t) = (Done (reported skip h), St s d di ci (dout ++ blks (sent skip)) cout t).
Proof.
  unfold serve_file, sent. destruct skip as [bm|]; [|by apply (serve_cdc_run READ_BUFFER); (done || (cbn; lia) || apply RollingChunker.rolling_repr_new)].
  by apply serve_delta_run.
Qed.

Lemma grant_verify_run h rest s d di dout cout t : wf_hash h ->
  grant_verify entropy_sum id h (St s d di (mk_stream (message Message.VERIFY (id ++ HASH_ZERO) ++ rest) None) dout cout t)
  = (Done tt, St s d di (mk_stream rest None) dout (cout ++ message Message.VERIFY_RESULT (result_of id h)) t).
Proof.
  intros Hh. destruct (control_sizes id Hid h Hh) as (Hv & Hr & _). unfold grant_verify.
  edestruct (recv_ctl_run js nw Message.VERIFY (id ++ HASH_ZERO) rest None s d di dout cout t) as (fr & Hc & Hty & Hp); [done|by rewrite Hv|].
  rewrite (bind_done _ _ _ _ _ Hc), Hty, Hp, Z.eqb_refl. cbn [negb].
  assert (Verify.decode (id ++ HASH_ZERO) = Ok (Verify.mk id HASH_ZERO)) as Hd by (apply Verify.verify_roundtrip; [by split; [|apply zero_hash_ok]|done|by rewrite Hv]).
  rewrite (bind_done _ _ _ (Verify.mk id HASH_ZERO) (St s d di (mk_stream rest None) dout cout t)) by (unfold of_protocol; by rewrite Hd).
  cbn [Verify.transfer_id]. rewrite bool_decide_eq_true_2 by done. apply say_run; [done|done|by rewrite Hr].
Qed.
Lemma grant_commit_run s d di dout cout t :
  grant_commit entropy_sum id (St s d di (mk_stream (message Message.COMMIT id) None) dout cout t)
  = (Done tt, St s d di (mk_stream [] None) dout (cout ++ message Message.COMMITTED (committed_of id)) t).
Proof.
  destruct (control_sizes id Hid (hash_of []) (Hhash [])) as (_ & _ & Hi & Hr). unfold grant_commit.
  edestruct (recv_ctl_run js nw Message.COMMIT id [] None s d di dout cout t) as (fr & Hc & Hty & Hp); [done|by rewrite Hi|]. rewrite app_nil_r in Hc.
  rewrite (bind_done _ _ _ _ _ Hc), Hty, Hp, Z.eqb_refl. cbn [negb].
  assert (Commit.decode id = Ok (Commit.mk id)) as Hd by (apply Commit.commit_roundtrip; [done|done|by rewrite Hi]).
  rewrite (bind_done _ _ _ (Commit.mk id) (St s d di (mk_stream [] None) dout cout t)) by (unfold of_protocol; by rewrite Hd).
  cbn [Commit.transfer_id]. rewrite bool_decide_eq_true_2 by done. apply say_run; [by split|done|by rewrite Hr].
Qed.

Lemma server_run_pieces b src skip h s d di dout cout t : d !! resolve b src = Some f -> wf_hash h ->
  server_download_session_with_compression entropy_sum centibits hash_of b id src (zlen f) h skip false (St s d di (mk_stream (asks id) None) dout cout t)
  = (Done tt, St s d di (mk_stream [] None) (dout ++ preamble (mkJob id 0 HASH_ZERO) ++ blks (sent skip)) (cout ++ grants id (reported skip h)) t).
Proof.
  intros Hd Hh. unfold server_download_session_with_compression. rewrite (Data.preamble_bytes _ (preamble_ok (mkJob id 0 HASH_ZERO) Hid)).
  rewrite (bind_done _ _ _ (preamble (mkJob id 0 HASH_ZERO)) (St s d di (mk_stream (asks id) None) dout cout t)) by done.
  rewrite (bind_done _ _ _ tt (St s d di (mk_stream (asks id) None) (dout ++ preamble (mkJob id 0 HASH_ZERO)) cout t)) by done.
  rewrite (bind_done _ _ _ f (St s d di (mk_stream (asks id) None) (dout ++ preamble (mkJob id 0 HASH_ZERO)) cout t)); cycle 1.
  { unfold open_read. rewrite (bind_done _ _ _ f (St s d di (mk_stream (asks id) None) (dout ++ preamble (mkJob id 0 HASH_ZERO)) cout t)); [done|].
    unfold on_files, map_error, read_file, call. cbn [files events tail disk docs now]. by rewrite Hd. }
  rewrite (bind_done _ _ _ _ _ (serve_file_run skip h _ _ _ _ _ _ _)). unfold asks, grants.
  rewrite (bind_done _ _ _ _ _ (grant_verify_run (reported skip h) _ _ _ _ _ _ _ (reported_ok skip h Hh))), grant_commit_run. by rewrite <- !app_assoc.
Qed.
End server.

(** ** Both sides together *)

Lemma pieces_bytes l : forall base, mjoin (snd <$> pieces base l) = mjoin l.
Proof. induction l as [|c l IH]; intros base; cbn [pieces]; [done|]. change (c ++ mjoin (snd <$> pieces (base + zlen c) l) = c ++ mjoin l). by rewrite IH. Qed.

Section together.
Context `{Zstd} {S : Type}.
Context (entropy_sum : list Z -> Z -> Q) (centibits : Q -> Z) (hash_of : bytes -> Hash) (b : Backend) (id : TransferId) (src f : bytes) (js : gmap bytes Empty_set) (nw : Z).
Local Abbreviation At s d di ci := (mkSession (S:=S) s (mkWorld d js [] nw) (mk_stream di None) (mk_stream ci None) [] [] []).

(** C16. Nothing is compressed, no call of the files and streams fails and the process does not die. The server reads a file of at
    most [FILE_MAX] bytes. The client has a staging file that is not longer than it and has, below its end, the bytes of the chunks that the skip
    bitmap counts, or begins with an empty staging file. Then the download ends on both sides; each side gets
    exactly the control messages that the other sends; the file is at its place, the staging file is gone, and nothing else has changed. The
    client returns what the server reports: the hash of the file where there is no bitmap, and with one whatever hash [h] the server was
    called with. *)
Theorem download_complete skip (pre : bool) local h s sc ds d :
  zlen f <= FILE_MAX -> is_bytes f -> (forall b, wf_hash (hash_of b)) -> wf_id id -> ds !! resolve b src = Some f -> wf_hash h ->
  (let c := if pre then default [] (d !! partial_path local) else [] in
   zlen c <= zlen f /\ forall m (q : nat), skip = Some m -> Z.of_nat q < zlen f -> ChunkBitmap.contains m (Z.of_nat q / DELTA_CHUNK_SIZE) = true -> c !! q = f !! q) ->
  exists data says answers yc ys,
    server_download_session_with_compression entropy_sum centibits hash_of b id src (zlen f) h skip false (At s ds [] says) = (Done tt, ys) /\
    data_out ys = data /\ ctl_out ys = answers /\ disk (files ys) = ds /\
    client_download_stream_with_staging entropy_sum hash_of id local pre (At sc d data answers) = (Done (if skip is Some _ then h else hash_of f), yc) /\
    ctl_out yc = says /\ disk (files yc) = <[local := f]> (delete (partial_path local) d).
Proof.
  intros Hf Hb Hhash Hid Hd Hh [Hlen Hc].
  pose proof (server_run_pieces entropy_sum centibits hash_of f id js nw Hf Hb Hhash Hid b src skip h s ds (mk_stream [] None) [] [] [] Hd Hh) as Hs.
  pose proof (client_run_pieces entropy_sum hash_of f id js nw Hf Hhash Hid local pre (reported hash_of f skip h) (sent f skip) sc d [] [] [] (reported_ok hash_of f Hhash skip h Hh) (sent_pieces f skip)) as Hcl.
  eexists _, _, _, _, _. split; [exact Hs|]. split; [reflexivity|]. split; [reflexivity|]. split; [reflexivity|]. split; [apply Hcl|split; reflexivity].
  split; [done|]. intros q Hq. destruct skip as [m|]; [|left; by apply sent_all].
  destruct (ChunkBitmap.contains m (Z.of_nat q / DELTA_CHUNK_SIZE)) eqn:E; [right; by eapply Hc|left; by apply windows_cover].
Qed.

(** No call fails and nothing is compressed: what is written to a pipe is the file. *)
Theorem pipe_complete out h c s sc ds d :
  zlen f <= FILE_MAX -> is_bytes f -> (forall b, wf_hash (hash_of b)) -> wf_id id -> wf_hash h -> ds !! resolve b src = Some f -> d !! out = Some c ->
  exists data says answers yc ys,
    server_download_session_with_compression entropy_sum centibits hash_of b id src (zlen f) h None false (At s ds [] says) = (Done tt, ys) /\
    data_out ys = data /\ ctl_out ys = answers /\
    client_download_stdout_stream entropy_sum hash_of id out (At sc d data answers) = (Done (hash_of f, zlen f), yc) /\
    ctl_out yc = says /\ disk (files yc) = <[out := c ++ f]> d.
Proof.
  intros Hf Hb Hhash Hid Hh Hd Hout.
  pose proof (server_run_pieces entropy_sum centibits hash_of f id js nw Hf Hb Hhash Hid b src None h s ds (mk_stream [] None) [] [] [] Hd Hh) as Hs.
  eexists _, _, _, _, _. split; [exact Hs|]. split; [reflexivity|]. split; [reflexivity|].
  assert (mjoin (snd <$> sent f None) = f) as Hall by (cbn [sent]; rewrite pieces_bytes; apply rest_chunks_concat).
  split; [|shelve]. unfold client_download_stdout_stream. cbn [app data_out ctl_out].
  rewrite (bind_done _ _ _ _ _ (recv_preamble_run id js nw Hid _ _ _ _ _ _ _)).
  rewrite (bind_done _ _ _ f (At sc (<[out := c ++ f]> d) [] (grants id (hash_of f)))); cycle 1.
  { cbn [data_in avail]. pose proof (blocks_len hash_of (sent f None)). rewrite (drain_run hash_of f js nw Hf Hhash out (sent f None) (sent_pieces f None) _ [] _ _ _ _ _ _ c) by (lia || done). by rewrite Hall. }
  rewrite (bind_done _ _ _ tt (At sc (<[out := c ++ f]> d) [] (grants id (hash_of f)))) by done.
  unfold grants. rewrite (bind_done _ _ _ _ _ (ask_hash_run entropy_sum id js nw Hid (hash_of f) _ _ _ _ _ _ _ (Hhash f))). rewrite bool_decide_eq_true_2 by done. cbn [negb].
  rewrite (bind_done _ _ _ _ _ (ask_commit_run entropy_sum hash_of id js nw Hhash Hid _ _ _ _ _ _)). reflexivity.
  Unshelve. split; reflexivity.
Qed.
End together.

(** ** What a pipe gets *)

Section pipe.
Context `{Zstd} {S : Type} (entropy_sum : list Z -> Z -> Q) (hash_of : bytes -> Hash) (id : TransferId) (out : bytes).
Local Abbreviation X := (session S).
Local Abbreviation grown d w := (alter (fun c => c ++ w) out d).

Lemma still_block : keeps on_disk (recv_block (S:=S) hash_of).
Proof. unfold recv_block, of_protocol. keeps. Qed.
Lemma still_preamble : keeps on_disk (recv_preamble (S:=S) id).
Proof. unfold recv_preamble, of_protocol. keeps. Qed.
Lemma still_ask_hash : keeps on_disk (ask_hash (S:=S) entropy_sum id).
Proof. unfold ask_hash, of_protocol. pose proof (quiet_say (S:=S) entropy_sum). keeps. Qed.
Lemma still_ask_commit : keeps on_disk (ask_commit (S:=S) entropy_sum id).
Proof. unfold ask_commit, of_protocol. pose proof (quiet_say (S:=S) entropy_sum). keeps. Qed.

Lemma grown_nil (d : gmap bytes bytes) : grown d [] = d.
Proof. apply map_eq. intros p. destruct (decide (p = out)) as [->|]; [rewrite lookup_alter_eq; destruct (d !! out); cbn; by rewrite ?app_nil_r|by rewrite lookup_alter_ne]. Qed.
Lemma grown_app (d : gmap bytes bytes) v w : grown (grown d v) w = grown d (v ++ w).
Proof.
  apply map_eq. intros p. destruct (decide (p = out)) as [->|]; [|by rewrite !lookup_alter_ne].
  rewrite !lookup_alter_eq. destruct (d !! out); cbn; by rewrite ?app_assoc.
Qed.

Lemma append_run b (x : X) : exists n, on_disk (on_files (append out b) x).2 = grown (on_disk x) (take n b) /\ ((on_files (append out b) x).1 = Done tt -> take n b = b).
Proof.
  unfold on_files, map_error, append, call, edit, set_disk. destruct (events (files x)) as [|[|n m|n]]; cbn;
    [exists (length b); by rewrite take_ge|exists (length b); by rewrite take_ge|by exists n|by exists n].
Qed.
(** Whatever happens, bytes are appended; they are those seen when all goes well. *)
Lemma drain_appends fuel : forall seen (x : X), exists w, on_disk (drain hash_of fuel out seen x).2 = grown (on_disk x) w /\
  forall v, (drain hash_of fuel out seen x).1 = Done v -> v = seen ++ w.
Proof.
  induction fuel as [|fuel IH]; intros seen x; cbn [drain]; [exists []; by rewrite grown_nil|].
  unfold bind. pose proof (still_block x) as Hb. destruct (recv_block hash_of x) as [[[[hdr b]|]|e|] y]; cbn [snd fst] in *;
    try (exists []; rewrite grown_nil; split; [done|]; intros v; try done; intros [= <-]; by rewrite app_nil_r).
  destruct (append_run b y) as (n & Hn & Hd). destruct (on_files (append out b) y) as [[[]|e|] z]; cbn [snd fst] in *; [|exists (take n b); split; [by rewrite Hn, Hb|done]..].
  destruct (IH (seen ++ b) z) as (w & Hw & Hv). exists (b ++ w). rewrite Hw, Hn, Hb, Hd, grown_app by done. split; [done|]. intros v Hdv. rewrite (Hv v Hdv). by rewrite app_assoc.
Qed.

(** Whatever the server sends, whichever calls fail and wherever the process dies: a download into a pipe changes nothing but the
    pipe, to which it appends; and when it succeeds, the hash that it reports, which is the one that the server announces, and the length
    are those of the bytes appended. *)
Theorem stdout_verified (x : X) : exists w, on_disk (client_download_stdout_stream entropy_sum hash_of id out x).2 = grown (on_disk x) w /\
  forall h n, (client_download_stdout_stream entropy_sum hash_of id out x).1 = Done (h, n) -> h = hash_of w /\ n = zlen w.
Proof.
  destruct (client_download_stdout_stream entropy_sum hash_of id out x) as [r u] eqn:E. cbn [fst snd]. unfold client_download_stdout_stream in E. unfold bind at 1 in E.
  pose proof (still_preamble x) as Hp. destruct (recv_preamble id x) as [[[]|e|] y]; cbn [snd] in Hp; [|injection E as <- <-; exists []; by rewrite grown_nil..].
  unfold bind at 1 in E. destruct (drain_appends (Datatypes.S (length (avail (data_in y)))) [] y) as (w & Hw & Hv). exists w.
  destruct (drain hash_of _ out [] y) as [[v|e|] z]; cbn [snd fst] in *; [|injection E as <- <-; by rewrite Hw, Hp..]. specialize (Hv v eq_refl) as ->. cbn [app] in E.
  match type of E with ?k z = _ => assert (keeps on_disk k) as Hk by (pose proof still_ask_hash; pose proof still_ask_commit; keeps) end.
  specialize (Hk z). rewrite E in Hk. cbn [snd] in Hk. split; [by rewrite Hk, Hw, Hp|]. intros h n ->.
  apply bind_inv in E as ([] & z1 & _ & E). apply bind_inv in E as (h1 & z2 & _ & E). case_bool_decide; cbn [negb] in E; [|done]. apply bind_inv in E as ([] & z3 & _ & E). by injection E as <- <-.
Qed.
End pipe.

(** ** Examples *)

Module DownloadExamples.
Import TrimCodec UploadExamples ResumeExamples.

Definition LOCAL : bytes := str "/home/u/b.bin".
Definition served : gmap bytes bytes := <[resolve backend DST := file]> ∅.
Definition begin (d : gmap bytes bytes) (data ctl : bytes) : session unit := mkSession tt (mkWorld d ∅ [] 0) (mk_stream data None) (mk_stream ctl None) [] [] [].
Definition download (d : gmap bytes bytes) (pre : bool) (data ctl : bytes) := client_download_stream_with_staging (S:=unit) flat num_hash T1 LOCAL pre (begin d data ctl).
Definition serve (skip : option ChunkBitmap.t) (h : Hash) := server_download_session_with_compression (S:=unit) flat cents num_hash backend T1 DST 6 h skip false.

Lemma download_complete_witness : exists data says answers yc ys,
  serve None HASH_ZERO (begin served [] says) = (Done tt, ys) /\ data_out ys = data /\ ctl_out ys = answers /\ disk (files ys) = served /\
  download ∅ false data answers = (Done (num_hash file), yc) /\ ctl_out yc = says /\ disk (files yc) = <[LOCAL := file]> (delete (partial_path LOCAL) ∅).
Proof.
  apply (download_complete flat cents num_hash backend T1 DST file ∅ 0 None false LOCAL HASH_ZERO tt tt served ∅).
  - by vm_compute.
  - repeat constructor; lia.
  - apply num_hash_ok.
  - split; [repeat constructor; lia|done].
  - by vm_compute.
  - apply zero_hash_ok.
  - by split.
Defined.
Lemma pipe_complete_witness : exists data says answers yc ys,
  serve None HASH_ZERO (begin served [] says) = (Done tt, ys) /\ data_out ys = data /\ ctl_out ys = answers /\
  client_download_stdout_stream (S:=unit) flat num_hash T1 LOCAL (begin (<[LOCAL := [7]]> ∅) data answers) = (Done (num_hash file, 6), yc) /\
  ctl_out yc = says /\ disk (files yc) = <[LOCAL := [7] ++ file]> (<[LOCAL := [7]]> ∅).
Proof.
  apply (pipe_complete flat cents num_hash backend T1 DST file ∅ 0 LOCAL HASH_ZERO [7] tt tt served (<[LOCAL := [7]]> ∅)).
  - by vm_compute.
  - repeat constructor; lia.
  - apply num_hash_ok.
  - split; [repeat constructor; lia|done].
  - apply zero_hash_ok.
  - by vm_compute.
  - by vm_compute.
Defined.

(** A stream that ends too early: the client does not compare what it has with the hash that it reports. *)
Definition claims : bytes := grants T1 (num_hash file).
Example download_unchecked : let '(r, y) := download ∅ false (preamble (mkJob T1 0 HASH_ZERO)) claims in
  r = Done (num_hash file) /\ disk (files y) !! LOCAL = Some [].
Proof. vm_compute. done. Qed.
(** A staging file that is longer than the file keeps its end. *)
Example download_stale_tail : let '(r, y) := download (<[partial_path LOCAL := [9; 9; 9; 9; 9; 9; 9; 9]]> ∅) true (preamble (mkJob T1 0 HASH_ZERO) ++ blocks num_hash [(0, file)]) claims in
  r = Done (num_hash file) /\ disk (files y) !! LOCAL = Some (file ++ [9; 9]).
Proof. vm_compute. done. Qed.
(** With a skip bitmap the server reports the hash that it was given, here the zero hash of a file whose hash is not stored. *)
Example delta_reports_given : let '(r, y) := serve (Some one) HASH_ZERO (begin served [] (asks T1)) in
  r = Done tt /\ ctl_out y = grants T1 HASH_ZERO.
Proof. vm_compute. done. Qed.
(** The write of a block that the file system refuses after it was handed over is not noticed: no later call of the file reports
    it, and the download puts a file with a hole in its place under the hash of the whole one. *)
Example lost_write_published : let '(r, y) := client_download_stream_with_staging (S:=unit) flat num_hash T1 LOCAL false
    (mkSession tt (mkWorld ∅ ∅ [Go; Go; Go; Fault 2 []] 0) (mk_stream (preamble (mkJob T1 0 HASH_ZERO) ++ blocks num_hash [(0, file)]) None) (mk_stream claims None) [] [] []) in
  r = Done (num_hash file) /\ disk (files y) !! LOCAL = Some (take 2 file).
Proof. vm_compute. done. Qed.
(** The same stream into a pipe is refused. *)
Example pipe_refuses : let '(r, y) := client_download_stdout_stream (S:=unit) flat num_hash T1 LOCAL (begin (<[LOCAL := []]> ∅) (preamble (mkJob T1 0 HASH_ZERO)) claims) in
  r = Failed (EProtocol (Malformed "download: local streaming BLAKE3 hash does not match server")).
Proof. vm_compute. done. Qed.
End DownloadExamples.
