(* ===== verification/Parallel.v ===== *)
(** * Transfers on several streams, transfer/engine.rs

    With more than one stream, the four sides of a transfer start a task per stream. The tasks share the files, and behind locks or
    in an atomic counter the bitmap, the staging file and the next chunk; each has a stream of its own. A task runs in turns of which
    each takes at most one chunk; what it does to the shared state in a turn commutes with what others do meanwhile, so a run is given by the order of
    the turns ([interleave]), which the runtime chooses. The caller waits for the tasks in order and returns at the first error ([join_all]). *)

From Stdlib Require Import QArith.
From S2P Require Import Prelude Utf8 Protocol Varint Wire Paths Bitmap StateStore Chunking ChunkEngine FileSys CasGc Frame Compression DataPath MsgTransfer MsgResume Message Session DeltaSync Checkpoint Upload Download.
Import Str.
Open Scope Z_scope.

(** ** Tasks *)

Inductive status (L : Type) := Busy (l : L) | Finished | Broken (e : VelcruxError).
Arguments Busy {L} _.
Arguments Finished {L}.
Arguments Broken {L} _.
(** A task with what is still to be received and what was sent on its stream. *)
Record task (L : Type) := mkTask { state : status L; lane_in : RecvStream; lane_out : bytes }.
Arguments mkTask {L} _ _ _.
Arguments state {L} _.
Arguments lane_in {L} _.
Arguments lane_out {L} _.

Section tasks.
Context {S K L : Type}.
Local Abbreviation N A := (M (session S) VelcruxError A).
(** [act k l]: a turn of a task; it gives what is shared and, unless the task ends, its next state. *)
Context (act : K -> L -> N (K * option L)).

Definition on_lane (x : session S) (i : RecvStream) (o : bytes) : session S := mkSession (store x) (files x) i (ctl_in x) o (ctl_out x) (ticks x).

(** A turn of task [i], if it has not ended. *)
Definition turn (i : nat) (k : K) (ts : list (task L)) : N (K * list (task L)) := fun x =>
  match ts !! i with
  | Some (mkTask (Busy l) ri ro) =>
      let '(r, y) := act k l (on_lane x ri ro) in
      let back st := <[i := mkTask st (data_in y) (data_out y)]> ts in
      let y := on_lane y (data_in x) (data_out x) in
      match r with
      | Done (k, Some l) => (Done (k, back (Busy l)), y)
      | Done (k, None) => (Done (k, back Finished), y)
      | Failed e => (Done (k, back (Broken e)), y)
      | Crashed => (Crashed, y)
      end
  | _ => (Done (k, ts), x)
  end.
Fixpoint interleave (sched : list nat) (k : K) (ts : list (task L)) : N (K * list (task L)) :=
  match sched with
  | [] => ret (k, ts)
  | i :: sched => let! '(k, ts) := turn i k ts in interleave sched k ts
  end.

(** The tasks are awaited in order: the first error is returned, though later tasks may still run. [None]: still waiting. *)
Fixpoint join_all (ts : list (task L)) : option (option VelcruxError) :=
  match ts with
  | [] => Some None
  | t :: ts => match state t with Busy _ => None | Broken e => Some (Some e) | Finished => join_all ts end
  end.

(** The tasks run in this order until the caller goes on; an order that ends before is no run of the caller. *)
Definition run_tasks (sched : list nat) (k : K) (ts : list (task L)) : N (K * list (task L)) :=
  let! '(k, ts) := interleave sched k ts in
  match join_all ts with
  | Some None => ret (k, ts)
  | Some (Some e) => throw e
  | None => fun x => (Crashed, x)
  end.
End tasks.

Section engine.
Context `{Zstd} {S : Type} `{StateStore S}.
Context (entropy_sum : list Z -> Z -> Q) (centibits : Q -> Z).
Context (hash_of : bytes -> Hash) (ulid_text : TransferId -> bytes) (no_space : bytes -> bool).
Local Abbreviation N A := (M (session S) VelcruxError A).

(** ** Receiving *)

(** [false]: the preamble is still to come. The staging file is locked while a block is written; [err] is
    what its last write left. The task that is told of it ends, and with it the transfer fails; the file forgets it then, while here other tasks are
    told as well: in a transfer that fails in any case they could still write blocks to the staging file. *)
Definition store_turn (id : TransferId) (staging : bytes) (err : option bytes) (started : bool) : N (option bytes * option bool) :=
  if negb started then let! _ := recv_preamble id in ret (err, Some true)
  else
    let! r := recv_block hash_of in
    match r with
    | None => ret (err, None)
    | Some (hdr, chunk_data) => let! err := on_files (seek_write staging err (Data.chunk_offset hdr) chunk_data) in ret (err, Some true)
    end.
Definition receivers (lanes : list RecvStream) : list (task bool) := (fun r => mkTask (Busy false) r []) <$> lanes.

Definition client_download_parallel (id : TransferId) (local_path : bytes) (staging_prepopulated : bool) (lanes : list RecvStream) (sched : list nat) : N Hash :=
  let staging := partial_path local_path in
  let! _ := on_files (create_parents staging) in
  let! _ := on_files (open_file staging (negb staging_prepopulated)) in
  let! _ := run_tasks (store_turn id staging) sched None (receivers lanes) in
  let! _ := on_files sync_all in
  let! computed := ask_hash entropy_sum id in
  let! _ := ask_commit entropy_sum id in
  let! _ := move_into_place staging local_path in
  ret computed.

(** An upload: the bitmap and the staging file are locked while a chunk is put. *)
Definition put_turn (id : TransferId) (chunk_size : Z) (streaming : bool) (k : intake) (started : bool) : N (intake * option bool) :=
  if negb started then
    let! pre := recv_data Data.DATA_PREAMBLE_LEN in
    let! pre := of_outcome (need pre) in
    let! preamble := of_protocol (Data.decode_data_preamble pre) in
    if negb (bool_decide (Data.transfer_id preamble = id)) then throw (protocol_violation "upload: transfer_id mismatch in preamble") else ret (k, Some true)
  else
    let! r := recv_chunk hash_of in
    match r with
    | None => ret (k, None)
    | Some (hdr, chunk_data) => let! k := put_chunk chunk_size streaming k hdr chunk_data in ret (k, Some true)
    end.

Definition server_upload_parallel (b : Backend) (has_store resumed : bool) (j : job) (dst : bytes) (initial_bitmap : option ChunkBitmap.t) (lanes : list RecvStream) (sched : list nat) : N Hash :=
  let is_delta := bool_decide (is_Some initial_bitmap) in
  let! bitmap := match initial_bitmap with
                 | Some bm => ret bm
                 | None => if has_store && resumed
                           then let! r := ok (on_store (read_bitmap (tid j))) in ret (default ChunkBitmap.new r)
                           else ret ChunkBitmap.new
                 end in
  let chunk_size := if is_delta then DELTA_CHUNK_SIZE else M3_CHUNK_SIZE in
  let! w := open_staging_resumable no_space b (ulid_text (tid j)) dst (size j) resumed in
  let! '(k, _) := run_tasks (put_turn (tid j) chunk_size (bool_decide (whole j = HASH_ZERO))) sched (mkIntake bitmap w (ChunkBitmap.bytes_completed bitmap)) (receivers lanes) in
  let! _ := fsync (writer k) in
  let! _ := when has_store (ignore (on_store (write_bitmap (tid j) (bm k)))) in
  let! computed := compute_staging_hash hash_of b (ulid_text (tid j)) dst in
  let! f := (fun x => await_verify (Datatypes.S (length (avail (ctl_in x)))) has_store (tid j) (bm k) x) in
  let! _ := answer_verify entropy_sum j computed f in
  let! _ := finish_commit entropy_sum b has_store j dst (w_path (writer k)) in
  ret computed.

(** ** Sending *)

(** A sender that has its number, or the contents of its file and the state of its compression. *)
Inductive sender := Hello (seq : Z) | Work (content : bytes) (sel : Compression.AdaptiveCompressionSelector).

(** The chunks that are not in the bitmap, in order. *)
Fixpoint missing_from (fuel : nat) (bitmap : ChunkBitmap.t) (total_chunks next : Z) : N (list Z) :=
  if next <? total_chunks then
    match fuel with
    | O => fun x => (Crashed, x)
    | Datatypes.S fuel => let! n := first_missing bitmap (next + 1) total_chunks in let! l := missing_from fuel bitmap total_chunks n in ret (next :: l)
    end
  else ret [].

(** A download: a turn takes the next chunk of the common list. The readers were opened by the caller. *)
Definition serve_turn (compress : bool) (id : TransferId) (content : bytes) (file_size chunk_size : Z) (chunks : list Z) (next_work_idx : nat) (l : sender) : N (nat * option sender) :=
  match l with
  | Hello seq =>
      let! pre := of_outcome (Data.encode_data_preamble (Data.mk_preamble id 1 seq)) in
      let! _ := send_data pre in
      ret (next_work_idx, if 0 <? file_size then Some (Work content Compression.selector_with_defaults) else None)
  | Work content sel =>
      match chunks !! next_work_idx with
      | None => ret (Datatypes.S next_work_idx, None)
      | Some chunk_idx =>
          let offset := chunk_idx * chunk_size in
          let want := Z.min (file_size - offset) chunk_size in
          let! buf := on_files (read_at content offset want) in
          let! '(bytes, sel) := of_outcome (encode_block entropy_sum centibits hash_of compress sel offset buf) in
          let! _ := send_data bytes in
          ret (Datatypes.S next_work_idx, Some (Work content sel))
      end
  end.
Definition senders (n : nat) : list (task sender) := (fun i => mkTask (Busy (Hello (Z.of_nat i + 1))) (mk_stream [] None) []) <$> seq 0 n.

(** The result is what was sent on each stream. *)
Definition server_download_parallel (b : Backend) (id : TransferId) (src : bytes) (file_size : Z) (file_hash : Hash) (skip_bitmap : option ChunkBitmap.t) (compress : bool)
    (parallel_streams : nat) (sched : list nat) : N (list bytes) :=
  let chunk_size := if bool_decide (is_Some skip_bitmap) then DELTA_CHUNK_SIZE else M3_CHUNK_SIZE in
  let! total_chunks := (if file_size =? 0 then ret 0 else of_outcome (div_ceil file_size chunk_size)) in
  let! chunks_to_send := match skip_bitmap with
                         | Some bm => let! next := first_missing bm 0 total_chunks in missing_from (Z.to_nat total_chunks) bm total_chunks next
                         | None => ret (seqZ 0 total_chunks)
                         end in
  let! content := open_read b src in
  let! '(_, ts) := run_tasks (serve_turn compress id content file_size chunk_size chunks_to_send) sched 0%nat (senders parallel_streams) in
  let! computed := (if negb (bool_decide (file_hash = HASH_ZERO)) then ret file_hash
                    else let! c := on_files (read_file (resolve b src)) in ret (hash_of c)) in
  let! _ := grant_verify entropy_sum id computed in
  let! _ := grant_commit entropy_sum id in
  ret (lane_out <$> ts).

(** An upload: the file is opened by the task; the chunk is marked in the common bitmap when it is sent. *)
Definition upload_turn (cfg : PipelineConfig) (j : job) (local_path : bytes) (chunk_size : Z) (chunks : list Z) (k : nat * ChunkBitmap.t) (l : sender) : N (nat * ChunkBitmap.t * option sender) :=
  let '(next_work_idx, bitmap) := k in
  match l with
  | Hello seq =>
      let! pre := of_outcome (Data.encode_data_preamble (Data.mk_preamble (tid j) 1 seq)) in
      let! _ := send_data pre in
      if 0 <? size j then let! content := on_files (read_file local_path) in ret (k, Some (Work content Compression.selector_with_defaults)) else ret (k, None)
  | Work content sel =>
      match chunks !! next_work_idx with
      | None => ret ((Datatypes.S next_work_idx, bitmap), None)
      | Some chunk_idx =>
          let offset := chunk_idx * chunk_size in
          let want := Z.min (size j - offset) chunk_size in
          let! buf := on_files (read_at content offset want) in
          if negb (zlen buf =? want) then throw (io_error (lit "failed to fill whole buffer")) else
          let! '(bytes, sel) := of_outcome (encode_chunk entropy_sum centibits hash_of cfg sel offset buf) in
          let! _ := send_data bytes in
          ret ((Datatypes.S next_work_idx, (ChunkBitmap.mark_complete bitmap chunk_idx want).1), Some (Work content sel))
      end
  end.
Definition client_upload_parallel (cfg : PipelineConfig) (has_store : bool) (j : job) (key local_path remote_path : bytes) (bitmap : ChunkBitmap.t) (parallel : nat) (sched : list nat) : N (Hash * list bytes) :=
  let! _ := register has_store j key local_path remote_path bitmap in
  let! chunk_size := of_outcome (fixed_chunk_size cfg (size j) bitmap) in
  let! total_chunks := (if size j =? 0 then ret 0 else of_outcome (div_ceil (size j) chunk_size)) in
  let! next := first_missing bitmap 0 total_chunks in
  let! missing_chunks := missing_from (Z.to_nat total_chunks) bitmap total_chunks next in
  let! '(k, ts) := run_tasks (upload_turn cfg j local_path chunk_size missing_chunks) sched (0%nat, bitmap) (senders parallel) in
  let! _ := tell_progress entropy_sum has_store j k.2 in
  let! _ := say entropy_sum (Message.MVerify (Verify.mk (tid j) (whole j))) in
  let! computed := await_verify_result j in
  let! _ := say entropy_sum (Message.MCommit (Commit.mk (tid j))) in
  let! _ := await_committed j in
  let! now := read_clock in
  let! _ := when has_store (
    let! r := ok (on_store (get_transfer (tid j))) in
    match r with Some r => ignore (on_store (update_transfer (set_committed r (size j) now))) | None => ret tt end) in
  ret (computed, lane_out <$> ts).
End engine.
