(* ===== verification/ParallelCorrect.v ===== *)
(** * Transfers on several streams that go through

    For every order in which the tasks get their turns, as long as each gets enough of them, and every order in which the streams
    arrive: a parallel download and a parallel upload put exactly the file at its place ([parallel_download], [parallel_upload]),
    and every chunk is sent once ([senders_run]). *)

From Stdlib Require Import QArith.
From S2P Require Import Prelude Utf8 Protocol Varint Wire Paths Bitmap StateStore Chunking ChunkEngine FileSys CasGc Frame Compression DataPath MsgTransfer MsgResume Message Session DeltaSync Checkpoint Upload UploadSafety UploadResume UploadComplete Download DownloadCorrect Parallel.
Import Str.
Open Scope Z_scope.

(** How often a task gets a turn. *)
Abbreviation turns i sched := (count_occ Nat.eq_dec sched i).
Definition lane_preamble (id : TransferId) (seq : Z) : bytes := id ++ to_le 8 1 ++ to_le 8 seq ++ zeros 24.

Lemma list_alter_some {A} (g : A -> A) (l : list A) (j : nat) x : l !! j = Some x -> alter g j l = <[j := g x]> l.
Proof. intros Hj. rewrite list_insert_alter. apply list_alter_ext; [|done]. intros y Hy. by simplify_eq. Qed.
Lemma list_alter_none {A} (g : A -> A) (l : list A) (j : nat) : l !! j = None -> alter g j l = l.
Proof. intros Hj. transitivity (alter id j l); [|by apply list_alter_id]. apply list_alter_ext; [|done]. intros y Hy. by simplify_eq. Qed.

(** ** Receivers *)

(** What a receiver still has to take: the preamble and these chunks. *)
Inductive view := VOpen (seq : Z) (l : list Z) | VRead (l : list Z) | VDone.
Definition rest_of (v : view) : list Z := match v with VOpen _ l | VRead l => l | VDone => [] end.
Definition numbered (v : view) : Prop := match v with VOpen q _ => fits 64 q | _ => True end.
Definition turns_of (v : view) : nat := match v with VOpen _ l => 2 + length l | VRead l => 1 + length l | VDone => 0 end.
Definition next_view (v : view) : view := match v with VOpen _ l => VRead l | VRead (_ :: l) => VRead l | _ => VDone end.
Lemma next_turns v : (turns_of (next_view v) <= turns_of v - 1)%nat.
Proof. destruct v as [q l|[|i l]|]; cbn; lia. Qed.

Section receivers.
Context {S K : Type} (act : K -> bool -> M (session S) VelcruxError (K * option bool)).
Context (hash_of : bytes -> Hash) (f : bytes) (CS : Z) (id : TransferId) (sp : bytes) (js : gmap bytes Empty_set) (nw : Z) (Hcs : 0 < CS <= Data.DATA_MAX_CHUNK_LEN).
Local Abbreviation St s d di ci dout cout t := (mkSession (S:=S) s (mkWorld d js [] nw) di ci dout cout t).
Local Abbreviation frames l := (mjoin (frame_of hash_of f CS <$> l)).
(** What is shared agrees with the contents. *)
Context (fit : K -> bytes -> Prop).
Context (Hopen : forall k q rest s d ci dout cout t, fits 64 q ->
  act k false (St s d (mk_stream (lane_preamble id q ++ rest) None) ci dout cout t) = (Done (k, Some true), St s d (mk_stream rest None) ci dout cout t)).
Context (Hput : forall k i rest s d ci dout cout t c, in_file f CS i -> fit k c -> d !! sp = Some c -> exists k' c',
  act k true (St s d (mk_stream (frame_of hash_of f CS i ++ rest) None) ci dout cout t) = (Done (k', Some true), St s (<[sp := c']> d) (mk_stream rest None) ci dout cout t) /\
  fit k' c' /\ better f c c' /\ holds f CS c' i).
Context (Hend : forall k s d ci dout cout t, act k true (St s d (mk_stream [] None) ci dout cout t) = (Done (k, None), St s d (mk_stream [] None) ci dout cout t)).

Definition task_of (v : view) : task bool :=
  match v with
  | VOpen q l => mkTask (Busy false) (mk_stream (lane_preamble id q ++ frames l) None) []
  | VRead l => mkTask (Busy true) (mk_stream (frames l) None) []
  | VDone => mkTask Finished (mk_stream [] None) []
  end.
(** Every chunk of the file is there or still to come. *)
Definition coming (vs : list view) (c : bytes) : Prop :=
  Forall (fun v => Forall (in_file f CS) (rest_of v) /\ numbered v) vs /\ zlen c <= zlen f /\
  forall i, in_file f CS i -> Exists (fun v => i ∈ rest_of v) vs \/ holds f CS c i.

Lemma coming_same vs c v j : vs !! j = Some v -> rest_of (next_view v) = rest_of v -> coming vs c -> coming (<[j := next_view v]> vs) c.
Proof.
  intros Hj Hr (Hf & Hz & Hc). destruct (Forall_lookup_1 _ _ _ _ Hf Hj) as [Hv _]. split; [apply Forall_insert; [done|]; rewrite Hr; split; [done|]; by destruct v as [|[]|]|]. split; [done|]. intros i Hi.
  destruct (Hc i Hi) as [He|]; [left|by right]. apply Exists_exists in He as (u & Hu & Hin). apply list_elem_of_lookup in Hu as [m Hm]. apply Exists_exists.
  destruct (decide (m = j)) as [->|Hne]; [|exists u; split; [|done]; apply list_elem_of_lookup; exists m; by rewrite list_lookup_insert_ne].
  simplify_eq. exists (next_view v). split; [|by rewrite Hr]. apply list_elem_of_lookup. exists j. apply list_lookup_insert_eq. by eapply lookup_lt_Some.
Qed.
Lemma coming_less vs c c' j i l : vs !! j = Some (VRead (i :: l)) -> coming vs c -> better f c c' -> holds f CS c' i -> coming (<[j := VRead l]> vs) c'.
Proof.
  intros Hj (Hf & Hz & Hc) Hb Hh. destruct (Forall_lookup_1 _ _ _ _ Hf Hj) as [Hv _]. split; [apply Forall_insert; [done|]; split; [by apply Forall_cons in Hv as [_ ?]|done]|]. split; [by apply Hb|].
  intros i' Hi'. destruct (decide (i' = i)) as [->|Hne]; [by right|]. destruct (Hc i' Hi') as [He|]; [|right; by eapply better_holds]. left.
  apply Exists_exists in He as (u & Hu & Hin). apply list_elem_of_lookup in Hu as [m Hm]. apply Exists_exists.
  destruct (decide (m = j)) as [->|Hmj]; [|exists u; split; [|done]; apply list_elem_of_lookup; exists m; by rewrite list_lookup_insert_ne].
  simplify_eq. exists (VRead l). split; [|cbn in Hin |- *; by apply elem_of_cons in Hin as [?|?]]. apply list_elem_of_lookup. exists j. apply list_lookup_insert_eq. by eapply lookup_lt_Some.
Qed.

Lemma turn_receives j k vs c s d di ci dout cout t : coming vs c -> fit k c -> d !! sp = Some c ->
  exists k' c' vs', turn act j k (task_of <$> vs) (St s d di ci dout cout t) = (Done (k', task_of <$> vs'), St s (<[sp := c']> d) di ci dout cout t) /\
    coming vs' c' /\ fit k' c' /\ vs' = alter next_view j vs.
Proof.
  intros Hc Hk Hd. unfold turn. rewrite list_lookup_fmap. destruct (vs !! j) as [v|] eqn:Hj; cbn [fmap option_fmap option_map];
    [|exists k, c, vs; rewrite insert_id by done; split; [done|]; split; [done|]; split; [done|]; by rewrite (list_alter_none next_view)].
  assert (alter next_view j vs = <[j := next_view v]> vs) as Ha by (by apply list_alter_some).
  destruct v as [q l|[|i l]|]; cbn [task_of]; unfold on_lane; cbn [store files ctl_in ctl_out ticks].
  - assert (fits 64 q) as Hq by (destruct Hc as [Hf _]; apply (Forall_lookup_1 _ _ _ _ Hf Hj)). rewrite Hopen by done. cbn [store files data_in ctl_in data_out ctl_out ticks]. exists k, c, (<[j := VRead l]> vs). rewrite (insert_id d) by done. rewrite list_fmap_insert.
    split; [done|]. split; [by apply (coming_same vs c (VOpen q l))|]. by rewrite Ha.
  - change (frames []) with (@nil Z). rewrite Hend. cbn [store files data_in ctl_in data_out ctl_out ticks]. exists k, c, (<[j := VDone]> vs). rewrite (insert_id d) by done. rewrite list_fmap_insert.
    split; [done|]. split; [by apply (coming_same vs c (VRead []))|]. by rewrite Ha.
  - assert (in_file f CS i) as Hi by (destruct Hc as [Hf _]; destruct (Forall_lookup_1 _ _ _ _ Hf Hj) as [Hv _]; by apply Forall_cons in Hv as [? _]).
    change (frames (i :: l)) with (frame_of hash_of f CS i ++ frames l).
    destruct (Hput k i (frames l) s d ci [] cout t c Hi Hk Hd) as (k' & c' & Hp & Hk' & Hb & Hh). rewrite Hp. cbn [store files data_in ctl_in data_out ctl_out ticks].
    exists k', c', (<[j := VRead l]> vs). rewrite list_fmap_insert. split; [done|]. split; [by eapply coming_less|]. by rewrite Ha.
  - exists k, c, vs. rewrite insert_id by done. split; [done|]. split; [done|]. split; [done|]. rewrite Ha. by rewrite list_insert_id.
Qed.

Lemma interleave_receives sched : forall k vs c s d di ci dout cout t, coming vs c -> fit k c -> d !! sp = Some c ->
  exists k' c' vs', interleave act sched k (task_of <$> vs) (St s d di ci dout cout t) = (Done (k', task_of <$> vs'), St s (<[sp := c']> d) di ci dout cout t) /\
    coming vs' c' /\ fit k' c' /\ length vs' = length vs /\ forall j v v', vs !! j = Some v -> vs' !! j = Some v' -> (turns_of v' <= turns_of v - turns j sched)%nat.
Proof.
  induction sched as [|j sched IH]; intros k vs c s d di ci dout cout t Hc Hk Hd; cbn [interleave].
  - exists k, c, vs. rewrite insert_id by done. split; [done|]. split; [done|]. split; [done|]. split; [done|]. intros j v v' Hv Hv'. cbn. simplify_eq. lia.
  - destruct (turn_receives j k vs c s d di ci dout cout t Hc Hk Hd) as (k1 & c1 & vs1 & Ht & Hc1 & Hk1 & Hvs1). rewrite (bind_done _ _ _ _ _ Ht).
    destruct (IH k1 vs1 c1 s (<[sp := c1]> d) di ci dout cout t Hc1 Hk1 (lookup_insert_eq _ _ _)) as (k2 & c2 & vs2 & Hi & Hc2 & Hk2 & Hlen & Hm).
    exists k2, c2, vs2. rewrite Hi, insert_insert_eq. split; [done|]. split; [done|]. split; [done|]. split; [by rewrite Hlen, Hvs1, length_alter|].
    intros m v v' Hv Hv'. rewrite Hvs1 in Hm. cbn [count_occ]. destruct (Nat.eq_dec j m) as [->|Hne].
    + specialize (Hm m (next_view v) v'). rewrite list_lookup_alter_eq, Hv in Hm. specialize (Hm eq_refl Hv'). pose proof (next_turns v). lia.
    + apply (Hm m v v'); [by rewrite list_lookup_alter_ne|done].
Qed.

Lemma join_done vs : Forall (eq VDone) vs -> join_all (task_of <$> vs) = Some None.
Proof. by induction 1 as [|v vs <- _ IH]. Qed.

(** Tasks that get enough turns end, and the contents are the file. *)
Lemma receivers_run sched k vs c s d di ci dout cout t : coming vs c -> fit k c -> d !! sp = Some c -> (forall j v, vs !! j = Some v -> (turns_of v <= turns j sched)%nat) ->
  exists k', run_tasks act sched k (task_of <$> vs) (St s d di ci dout cout t) = (Done (k', replicate (length vs) (task_of VDone)), St s (<[sp := f]> d) di ci dout cout t) /\ fit k' f.
Proof.
  intros Hc Hk Hd Hs. destruct (interleave_receives sched k vs c s d di ci dout cout t Hc Hk Hd) as (k' & c' & vs' & Hi & (_ & Hz & Hall) & Hk' & Hlen & Hm).
  assert (vs' = replicate (length vs) VDone) as ->.
  { symmetry. apply replicate_as_Forall. split; [done|]. apply Forall_lookup. intros j v' Hv'. destruct (lookup_lt_is_Some_2 vs j) as [v Hv]; [rewrite <- Hlen; by eapply lookup_lt_Some|].
    specialize (Hm j v v' Hv Hv'). specialize (Hs j v Hv). destruct v'; cbn in Hm; [lia|lia|done]. }
  assert (c' = f) as ->.
  { apply (all_chunks f CS Hcs); [done|]. intros i Hin. destruct (Hall i Hin) as [He|]; [|done]. apply Exists_exists in He as (v & Hv & Hin'). apply elem_of_replicate in Hv as [-> _]. by apply elem_of_nil in Hin'. }
  exists k'. split; [|done]. unfold run_tasks. rewrite (bind_done _ _ _ _ _ Hi). rewrite join_done by (apply Forall_replicate_eq). by rewrite fmap_replicate.
Qed.
End receivers.

(** ** Senders *)

(** What a sender has sent: nothing, or its preamble and these chunks. *)
Inductive sview := SHello (q : Z) | SWork (q : Z) (l : list Z) | SDone (q : Z) (l : list Z).
Definition seq_of (v : sview) : Z := match v with SHello q | SWork q _ | SDone q _ => q end.
Definition dealt (v : sview) : list Z := match v with SHello _ => [] | SWork _ l | SDone _ l => l end.
Definition ended (v : sview) : Prop := match v with SDone _ _ => True | _ => False end.

Lemma join_insert {A} (ls : list (list A)) j l l' : ls !! j = Some l -> l' ++ mjoin ls ≡ₚ l ++ mjoin (<[j := l']> ls).
Proof.
  intros Hj. rewrite <- (take_drop_middle ls j l Hj) at 1. rewrite (insert_take_drop ls j l') by (by eapply lookup_lt_Some).
  rewrite !join_app. change (mjoin (?a :: ?b)) with (a ++ mjoin b). rewrite !(Permutation_app_swap_app _ (mjoin (take j ls))). by rewrite (Permutation_app_swap_app l' l).
Qed.

Section senders.
Context {S K : Type} (act : K -> sender -> M (session S) VelcruxError (K * option sender)).
Context (hash_of : bytes -> Hash) (f : bytes) (CS : Z) (id : TransferId) (chunks : list Z) (idx : K -> nat) (more : bool) (w0 : sender) (d : gmap bytes bytes) (js : gmap bytes Empty_set) (nw : Z).
Local Abbreviation St s di ci dout cout t := (mkSession (S:=S) s (mkWorld d js [] nw) di ci dout cout t).
Local Abbreviation frames l := (mjoin (frame_of hash_of f CS <$> l)).
Context (Hempty : more = false -> chunks = []).
Context (Hhello : forall k q s di ci cout t, fits 64 q -> act k (Hello q) (St s di ci [] cout t) = (Done (k, if more then Some w0 else None), St s di ci (lane_preamble id q) cout t)).
Context (Hwork : forall k i s di ci dout cout t, chunks !! idx k = Some i ->
  exists k', act k w0 (St s di ci dout cout t) = (Done (k', Some w0), St s di ci (dout ++ frame_of hash_of f CS i) cout t) /\ idx k' = Datatypes.S (idx k)).
Context (Hstop : forall k s di ci dout cout t, chunks !! idx k = None ->
  exists k', act k w0 (St s di ci dout cout t) = (Done (k', None), St s di ci dout cout t) /\ idx k' = Datatypes.S (idx k)).

Definition sent_on (q : Z) (l : list Z) : bytes := lane_preamble id q ++ frames l.
Definition sender_of (v : sview) : task sender :=
  match v with
  | SHello q => mkTask (Busy (Hello q)) (mk_stream [] None) []
  | SWork q l => mkTask (Busy w0) (mk_stream [] None) (sent_on q l)
  | SDone q l => mkTask Finished (mk_stream [] None) (sent_on q l)
  end.
(** The chunks up to the counter have been dealt out, each once; a task ends when none is left. *)
Definition dealing (vs : list sview) (k : K) : Prop :=
  Forall (fun v => fits 64 (seq_of v)) vs /\ mjoin (dealt <$> vs) ≡ₚ take (idx k) chunks /\ Forall (fun v => ended v -> length chunks <= idx k)%nat vs.
Definition turns_left (k : K) (v : sview) : nat :=
  match v with SHello _ => 2 + (length chunks - idx k) | SWork _ _ => 1 + (length chunks - idx k) | SDone _ _ => 0 end.

Lemma dealing_insert vs k k' j v v' l : vs !! j = Some v -> seq_of v' = seq_of v -> dealt v' = dealt v ++ l -> take (idx k') chunks ≡ₚ l ++ take (idx k) chunks -> (idx k <= idx k')%nat ->
  (ended v' -> length chunks <= idx k')%nat -> dealing vs k -> dealing (<[j := v']> vs) k'.
Proof.
  intros Hj Hq Hd Ht Hk He (Hf & Hp & Hen). split; [apply Forall_insert; [done|]; rewrite Hq; by eapply Forall_lookup_1 in Hf|]. split.
  - rewrite Ht, <- Hp. rewrite list_fmap_insert. pose proof (join_insert (dealt <$> vs) j (dealt v) (dealt v') ltac:(by rewrite list_lookup_fmap, Hj)) as Hi.
    rewrite Hd in Hi at 1. rewrite <- app_assoc in Hi. symmetry. by apply (Permutation_app_inv_l (dealt v)).
  - apply Forall_insert; [|done]. eapply Forall_impl; [exact Hen|]. cbn. intros u Hu Hu'. specialize (Hu Hu'). lia.
Qed.

Lemma turn_sends j k vs s di ci dout cout t : dealing vs k ->
  exists k' vs', turn act j k (sender_of <$> vs) (St s di ci dout cout t) = (Done (k', sender_of <$> vs'), St s di ci dout cout t) /\
    dealing vs' k' /\ length vs' = length vs /\ (idx k <= idx k')%nat /\
    forall m v v', vs !! m = Some v -> vs' !! m = Some v' -> (turns_left k' v' <= turns_left k v - if Nat.eq_dec j m then 1 else 0)%nat.
Proof.
  intros Hd. unfold turn. rewrite list_lookup_fmap. destruct (vs !! j) as [v|] eqn:Hj; cbn [fmap option_fmap option_map]; cycle 1.
  { exists k, vs. split; [done|]. split; [done|]. split; [done|]. split; [done|]. intros m v v' Hv Hv'. destruct (Nat.eq_dec j m); simplify_eq; lia. }
  assert (forall k' u, (idx k <= idx k')%nat -> (turns_left k' u <= turns_left k v - 1)%nat -> forall m w w', vs !! m = Some w -> <[j := u]> vs !! m = Some w' ->
    (turns_left k' w' <= turns_left k w - if Nat.eq_dec j m then 1 else 0)%nat) as Hleft.
  { intros k' u Hk Hu m w w' Hw Hw'. destruct (Nat.eq_dec j m) as [->|Hne]; [rewrite list_lookup_insert_eq in Hw' by (by eapply lookup_lt_Some); simplify_eq; lia|].
    rewrite list_lookup_insert_ne in Hw' by done. assert (w' = w) as -> by congruence. destruct w; cbn; lia. }
  destruct v as [q|q l|q l]; cbn [sender_of]; unfold on_lane; cbn [store files ctl_in ctl_out ticks].
  - assert (fits 64 q) as Hq by (destruct Hd as [Hf _]; exact (Forall_lookup_1 _ _ _ _ Hf Hj)). rewrite Hhello by done. cbn [store files data_in ctl_in data_out ctl_out ticks]. destruct more eqn:Em.
    + exists k, (<[j := SWork q []]> vs). rewrite list_fmap_insert. cbn [sender_of]. unfold sent_on. cbn [fmap list_fmap mjoin list_join]. rewrite app_nil_r. split; [done|].
      split; [apply (dealing_insert vs k k j (SHello q) (SWork q []) []); done|]. split; [by rewrite length_insert|]. split; [done|]. apply Hleft; [done|cbn; lia].
    + exists k, (<[j := SDone q []]> vs). rewrite list_fmap_insert. cbn [sender_of]. unfold sent_on. cbn [fmap list_fmap mjoin list_join]. rewrite app_nil_r. split; [done|].
      split; [apply (dealing_insert vs k k j (SHello q) (SDone q []) []); try done; rewrite (Hempty eq_refl); cbn; lia|]. split; [by rewrite length_insert|]. split; [done|]. apply Hleft; [done|cbn; lia].
  - destruct (chunks !! idx k) as [i|] eqn:Hi.
    + destruct (Hwork k i s (mk_stream [] None) ci (sent_on q l) cout t Hi) as (k' & Ha & Hk'). rewrite Ha. cbn [store files data_in ctl_in data_out ctl_out ticks].
      exists k', (<[j := SWork q (l ++ [i])]> vs). rewrite list_fmap_insert. cbn [sender_of]. unfold sent_on. rewrite fmap_app, join_app. cbn [fmap list_fmap mjoin list_join]. rewrite app_nil_r, app_assoc. split; [done|].
      split; [apply (dealing_insert vs k k' j (SWork q l) (SWork q (l ++ [i])) [i]); try done; [|lia]|].
      { rewrite Hk', (take_S_r _ _ i) by done. by rewrite Permutation_app_comm. }
      split; [by rewrite length_insert|]. split; [lia|]. apply Hleft; [lia|]. apply lookup_lt_Some in Hi. cbn. lia.
    + destruct (Hstop k s (mk_stream [] None) ci (sent_on q l) cout t Hi) as (k' & Ha & Hk'). rewrite Ha. cbn [store files data_in ctl_in data_out ctl_out ticks]. apply lookup_ge_None in Hi.
      exists k', (<[j := SDone q l]> vs). rewrite list_fmap_insert. split; [done|].
      split; [apply (dealing_insert vs k k' j (SWork q l) (SDone q l) []); try done; [by rewrite app_nil_r|by rewrite !take_ge by lia|lia|intros _; lia]|].
      split; [by rewrite length_insert|]. split; [lia|]. apply Hleft; [lia|cbn; lia].
  - exists k, vs. split; [done|]. split; [done|]. split; [done|]. split; [done|]. intros m v v' Hv Hv'. destruct (Nat.eq_dec j m) as [->|]; simplify_eq; cbn; lia.
Qed.

Lemma interleave_sends sched : forall k vs s di ci dout cout t, dealing vs k ->
  exists k' vs', interleave act sched k (sender_of <$> vs) (St s di ci dout cout t) = (Done (k', sender_of <$> vs'), St s di ci dout cout t) /\
    dealing vs' k' /\ length vs' = length vs /\ forall m v v', vs !! m = Some v -> vs' !! m = Some v' -> (turns_left k' v' <= turns_left k v - turns m sched)%nat.
Proof.
  induction sched as [|j sched IH]; intros k vs s di ci dout cout t Hd; cbn [interleave].
  - exists k, vs. split; [done|]. split; [done|]. split; [done|]. intros m v v' Hv Hv'. cbn. simplify_eq. lia.
  - destruct (turn_sends j k vs s di ci dout cout t Hd) as (k1 & vs1 & Ht & Hd1 & Hl1 & _ & Hm1). rewrite (bind_done _ _ _ _ _ Ht).
    destruct (IH k1 vs1 s di ci dout cout t Hd1) as (k2 & vs2 & Hi & Hd2 & Hl2 & Hm2). exists k2, vs2. split; [done|]. split; [done|]. split; [lia|].
    intros m v v' Hv Hv'. destruct (lookup_lt_is_Some_2 vs1 m) as [v1 Hv1]; [rewrite Hl1; by eapply lookup_lt_Some|]. specialize (Hm1 m v v1 Hv Hv1). specialize (Hm2 m v1 v' Hv1 Hv').
    cbn [count_occ]. destruct (Nat.eq_dec j m); lia.
Qed.

Lemma join_ended vs : Forall ended vs -> join_all (sender_of <$> vs) = Some None.
Proof. by induction 1 as [|[| |] vs Hv _ IH]. Qed.

(** Tasks that get enough turns end; every chunk is then sent once. *)
Lemma senders_run sched n k s di ci dout cout t : (0 < n)%nat -> fits 64 (Z.of_nat n) -> idx k = 0%nat -> (forall m, (m < n)%nat -> (2 + length chunks <= turns m sched)%nat) ->
  exists k' dl, run_tasks act sched k (senders n) (St s di ci dout cout t) = (Done (k', sender_of <$> dl), St s di ci dout cout t) /\
    length dl = n /\ lane_out <$> (sender_of <$> dl) = (fun v => sent_on (seq_of v) (dealt v)) <$> dl /\ mjoin (dealt <$> dl) ≡ₚ chunks /\ Forall (fun v => fits 64 (seq_of v)) dl.
Proof.
  intros Hn Hfit Hk Hs. set (vs := (fun i => SHello (Z.of_nat i + 1)) <$> seq 0 n).
  assert (senders n = sender_of <$> vs) as -> by (unfold senders, vs; by rewrite <- list_fmap_compose).
  assert (length vs = n) as Hlen by (unfold vs; by rewrite length_fmap, length_seq).
  assert (dealing vs k) as Hd.
  { split; [apply Forall_fmap, Forall_forall; intros i Hi; apply elem_of_seq in Hi; cbn; unfold fits in *; lia|]. rewrite Hk. split; [|apply Forall_fmap, Forall_forall; by intros i _ []].
    rewrite take_0. unfold vs. clear. generalize 0%nat. induction n as [|n IH]; intros i; [done|]. cbn. apply IH. }
  destruct (interleave_sends sched k vs s di ci dout cout t Hd) as (k' & dl & Hi & (Hf & Hp & He) & Hl & Hm). exists k', dl.
  assert (Forall ended dl) as Hall.
  { apply Forall_lookup. intros m v' Hv'. assert (m < n)%nat as Hmn by (rewrite <- Hlen, <- Hl; by eapply lookup_lt_Some).
    assert (vs !! m = Some (SHello (Z.of_nat m + 1))) as Hv by (unfold vs; rewrite list_lookup_fmap, lookup_seq_lt by done; done).
    specialize (Hm m _ _ Hv Hv'). specialize (Hs m Hmn). cbn in Hm. destruct v'; cbn in Hm; [lia|lia|done]. }
  split; [|split; [lia|]]; [unfold run_tasks; rewrite (bind_done _ _ _ _ _ Hi); by rewrite join_ended|]. split.
  - rewrite <- list_fmap_compose. apply list_fmap_ext. intros m v Hv. eapply Forall_lookup_1 in Hall; [|exact Hv]. by destruct v.
  - split; [|done]. rewrite Hp. apply Permutation_refl'. apply take_ge. destruct dl as [|v dl]; [cbn in Hl; lia|]. apply Forall_cons in He as [He _], Hall as [Hv _]. by apply He.
Qed.
End senders.

(** ** Streams between the two *)

Section lanes.
Context (id : TransferId) (Hid : wf_id id).
Lemma lane_preamble_ok q : fits 64 q -> Data.preamble_ok (Data.mk_preamble id 1 q).
Proof. intros Hq. split; [done|]. split; [by vm_compute|done]. Qed.
Lemma lane_preamble_encode {E} q : fits 64 q -> Data.encode_data_preamble (E:=E) (Data.mk_preamble id 1 q) = Ok (lane_preamble id q).
Proof. intros Hq. apply (Data.preamble_bytes _ (lane_preamble_ok q Hq)). Qed.
Lemma lane_preamble_read q : fits 64 q -> zlen (lane_preamble id q) = Data.DATA_PREAMBLE_LEN /\ Data.decode_data_preamble (lane_preamble id q) = Ok (Data.mk_preamble id 1 q).
Proof.
  intros Hq. split; [unfold lane_preamble; by rewrite !zlen_app, !zlen_to_le, zlen_zeros, (proj2 Hid)|].
  pose proof (Data.preamble_roundtrip (E:=VelcruxError) (Data.mk_preamble id 1 q) (lane_preamble id q) [] (lane_preamble_ok q Hq) (lane_preamble_encode q Hq)) as Hp. by rewrite app_nil_r in Hp.
Qed.
End lanes.

(** The views of the receivers of what senders have sent. *)
Definition view_of (v : sview) : view := VOpen (seq_of v) (dealt v).
Lemma views_receive hash_of f CS id dl : receivers ((fun b => mk_stream b None) <$> ((fun v => sent_on hash_of f CS id (seq_of v) (dealt v)) <$> dl)) = task_of hash_of f CS id <$> (view_of <$> dl).
Proof. unfold receivers. rewrite <- !list_fmap_compose. by apply list_fmap_ext. Qed.
Lemma elem_join {A} (x : A) (ls : list (list A)) : x ∈ mjoin ls -> exists l, x ∈ l /\ l ∈ ls.
Proof. induction ls as [|l ls IH]; cbn; [by intros ?%elem_of_nil|]. intros [Hx|Hx]%elem_of_app; [exists l; split; [done|left]|]. destruct (IH Hx) as (l' & H1 & H2). exists l'. split; [done|by right]. Qed.
Lemma join_elem {A} (x : A) (l : list A) (ls : list (list A)) : x ∈ l -> l ∈ ls -> x ∈ mjoin ls.
Proof. intros Hx. induction ls as [|l' ls IH]; [by intros ?%elem_of_nil|]. intros [->|Hl]%elem_of_cons; cbn; apply elem_of_app; auto. Qed.
Lemma join_part {A} (l : list A) (ls : list (list A)) : l ∈ ls -> (length l <= length (mjoin ls))%nat.
Proof. induction ls as [|l' ls IH]; [by intros ?%elem_of_nil|]. intros Hl. change (mjoin (l' :: ls)) with (l' ++ mjoin ls). rewrite length_app. apply elem_of_cons in Hl as [->|Hl]; [lia|]. specialize (IH Hl). lia. Qed.

Section dealt.
Context (f : bytes) (CS : Z) (chunks : list Z) (dl : list sview).
Context (Hin : Forall (in_file f CS) chunks) (Hp : mjoin (dealt <$> dl) ≡ₚ chunks) (Hq : Forall (fun v => fits 64 (seq_of v)) dl).
Lemma dealt_in v : v ∈ dl -> Forall (in_file f CS) (dealt v).
Proof.
  intros Hv. apply Forall_forall. intros i Hi. rewrite Forall_forall in Hin. apply Hin. rewrite <- Hp. apply (join_elem _ (dealt v)); [done|]. by apply list_elem_of_fmap_2.
Qed.
(** The chunks that were to be sent are coming, the others there. *)
Lemma dealt_coming c dl' : dl' ≡ₚ dl -> zlen c <= zlen f -> (forall i, in_file f CS i -> i ∈ chunks \/ holds f CS c i) -> coming f CS (view_of <$> dl') c.
Proof.
  intros Hdl Hz Hc. split; [apply Forall_fmap, Forall_forall; intros v Hv; rewrite Hdl in Hv; split; [by apply dealt_in|]; by rewrite Forall_forall in Hq; apply Hq|]. split; [done|].
  intros i Hi. destruct (Hc i Hi) as [He|]; [left|by right]. rewrite <- Hp in He. apply elem_join in He as (l & Hl & He). apply list_elem_of_fmap_1 in He as (v & -> & Hv).
  apply Exists_exists. exists (view_of v). split; [|done]. apply list_elem_of_fmap_2. by rewrite Hdl.
Qed.
Lemma dealt_turns sched dl' : dl' ≡ₚ dl -> (forall m, (m < length dl)%nat -> (2 + length chunks <= turns m sched)%nat) ->
  forall m v, (view_of <$> dl') !! m = Some v -> (turns_of v <= turns m sched)%nat.
Proof.
  intros Hdl Hs m v Hv. rewrite list_lookup_fmap in Hv. destruct (dl' !! m) as [u|] eqn:Hu; [|done]. cbn in Hv. simplify_eq. cbn.
  assert (m < length dl)%nat as Hm by (rewrite <- Hdl; by eapply lookup_lt_Some). specialize (Hs m Hm).
  assert (u ∈ dl) as Hud by (rewrite <- Hdl; by eapply list_elem_of_lookup_2). pose proof (join_part (dealt u) (dealt <$> dl) (list_elem_of_fmap_2 _ _ _ Hud)) as Hl. rewrite Hp in Hl. lia.
Qed.
End dealt.

(** ** Downloads *)

Section download.
Context `{Zstd} {S : Type}.
Context (entropy_sum : list Z -> Z -> Q) (centibits : Q -> Z) (hash_of : bytes -> Hash) (f : bytes) (id : TransferId) (js : gmap bytes Empty_set) (nw : Z).
Context (Hf : zlen f <= FILE_MAX) (Hhash : forall b, wf_hash (hash_of b)) (Hid : wf_id id) (CS : Z) (Hcs : 0 < CS <= Data.DATA_MAX_CHUNK_LEN).
Local Abbreviation St s d di ci dout cout t := (mkSession (S:=S) s (mkWorld d js [] nw) di ci dout cout t).

Lemma store_open_run st err q rest s d ci dout cout t : fits 64 q ->
  store_turn hash_of id st err false (St s d (mk_stream (lane_preamble id q ++ rest) None) ci dout cout t) = (Done (err, Some true), St s d (mk_stream rest None) ci dout cout t).
Proof.
  intros Hq. destruct (lane_preamble_read id Hid q Hq) as [Hl Hp]. unfold store_turn. cbn [negb]. unfold recv_preamble, bind, recv_data. cbn [data_in]. rewrite Session.read_exact_app by done.
  unfold of_outcome at 1, need, of_protocol, of_outcome. rewrite Hp. cbn [map_err Data.transfer_id]. by rewrite bool_decide_eq_true_2.
Qed.
Lemma store_put_run st i rest s d ci dout cout t c : in_file f CS i -> d !! st = Some c ->
  store_turn hash_of id st None true (St s d (mk_stream (frame_of hash_of f CS i ++ rest) None) ci dout cout t)
  = (Done (None, Some true), St s (<[st := splice c (i * CS) (window f CS i)]> d) (mk_stream rest None) ci dout cout t).
Proof.
  intros Hi Hd. destruct (zlen_window f CS (proj1 Hcs) i Hi) as [Hw He]. unfold store_turn. cbn [negb]. pose proof (window_piece f CS i Hcs Hi) as Hp.
  rewrite (bind_done _ _ _ _ _ (recv_block_run hash_of f js nw Hf Hhash (i * CS, window f CS i) rest s d ci dout cout t Hp)).
  rewrite (bind_done _ _ _ None (St s (<[st := splice c (i * CS) (window f CS i)]> d) (mk_stream rest None) ci dout cout t)); [done|].
  unfold on_files, map_error. cbn [Data.chunk_offset block_header fst snd files].
  by rewrite (seek_write_ok st _ _ c) by (done || lia || (intros E; rewrite E in Hw; unfold zlen in Hw; cbn in Hw; lia)).
Qed.
Lemma store_tasks_run st sched vs c s d di ci dout cout t : coming f CS vs c -> d !! st = Some c -> (forall j v, vs !! j = Some v -> (turns_of v <= turns j sched)%nat) ->
  exists ts, run_tasks (store_turn hash_of id st) sched None (task_of hash_of f CS id <$> vs) (St s d di ci dout cout t) = (Done (None, ts), St s (<[st := f]> d) di ci dout cout t).
Proof.
  intros Hc Hd Hs.
  assert (forall (k : option bytes) i rest s d ci dout cout t c, in_file f CS i -> k = None -> d !! st = Some c -> exists k' c',
    store_turn hash_of id st k true (St s d (mk_stream (frame_of hash_of f CS i ++ rest) None) ci dout cout t) = (Done (k', Some true), St s (<[st := c']> d) (mk_stream rest None) ci dout cout t) /\
    k' = None /\ better f c c' /\ holds f CS c' i) as Hput.
  { intros k i rest s' d' ci' dout' cout' t' c' Hi -> Hd'. eexists None, _. split; [by apply store_put_run|]. split; [done|].
    split; [|apply write_holds; [lia|done]]. pose proof (better_write f CS (proj1 Hcs) c' i (length (window f CS i)) Hi) as Hb. by rewrite take_ge in Hb by done. }
  destruct (receivers_run (store_turn hash_of id st) hash_of f CS id st js nw Hcs (fun k _ => k = None) ltac:(intros; by apply store_open_run) Hput ltac:(by intros) sched None vs c s d di ci dout cout t Hc eq_refl Hd Hs)
    as (k' & Hr & ->). by eexists.
Qed.

Lemma serve_tasks_run compress_size sched n chunks s d di ci dout cout t : compress_size = zlen f -> (0 < n)%nat -> fits 64 (Z.of_nat n) -> Forall (in_file f CS) chunks ->
  (forall m, (m < n)%nat -> (2 + length chunks <= turns m sched)%nat) ->
  exists k dl, run_tasks (serve_turn entropy_sum centibits hash_of false id f compress_size CS chunks) sched 0%nat (senders n) (St s d di ci dout cout t) = (Done (k, sender_of hash_of f CS id (Work f Compression.selector_with_defaults) <$> dl), St s d di ci dout cout t) /\
    length dl = n /\ lane_out <$> (sender_of hash_of f CS id (Work f Compression.selector_with_defaults) <$> dl) = (fun v => sent_on hash_of f CS id (seq_of v) (dealt v)) <$> dl /\ mjoin (dealt <$> dl) ≡ₚ chunks /\ Forall (fun v => fits 64 (seq_of v)) dl.
Proof.
  intros -> Hn Hfit Hin Hs. apply (senders_run _ hash_of f CS id chunks (fun k => k) (0 <? zlen f) (Work f Compression.selector_with_defaults) d js nw); try done.
  - intros Hz%Z.ltb_ge. destruct chunks as [|i l]; [done|]. apply Forall_cons in Hin as [[? ?] _]. nia.
  - intros k q s' di' ci' cout' t' Hq. unfold serve_turn. rewrite lane_preamble_encode by done.
    rewrite (bind_done _ _ _ (lane_preamble id q) (St s' d di' ci' [] cout' t')) by done. by rewrite (bind_done _ _ _ tt (St s' d di' ci' ([] ++ lane_preamble id q) cout' t')).
  - intros k i s' di' ci' dout' cout' t' Hi. exists (Datatypes.S k). split; [|done]. unfold serve_turn. rewrite Hi. assert (in_file f CS i) as Hif by (by eapply Forall_lookup_1 in Hin).
    destruct (zlen_window f CS (proj1 Hcs) i Hif) as [Hw He].
    rewrite (bind_done _ _ _ (window f CS i) (St s' d di' ci' dout' cout' t')); cycle 1.
    { unfold on_files, map_error, read_at, call. cbn [files events tail disk docs now]. do 2 f_equal. unfold window.
      destruct (decide (zlen f - i * CS <= CS)); [|by rewrite Z.min_r by lia]. rewrite !take_ge; [done|..]; rewrite length_drop; unfold zlen in *; destruct Hif; lia. }
    rewrite (bind_done _ _ _ (block hash_of (i * CS, window f CS i), Compression.selector_with_defaults) (St s' d di' ci' dout' cout' t')) by (rewrite encode_block_run; [done|done|lia]). done.
  - intros k s' di' ci' dout' cout' t' Hi. exists (Datatypes.S k). split; [|done]. unfold serve_turn. by rewrite Hi.
Qed.

(** The list of the chunks to send. *)
Lemma missing_from_run bitmap : let total := (zlen f + CS - 1) / CS in
  forall fuel next s d di ci dout cout t, 0 <= next -> (Z.to_nat (total - next) <= fuel)%nat -> (next < total -> ChunkBitmap.contains bitmap next = false) ->
  missing_from fuel bitmap total next (St s d di ci dout cout t) = (Done (missing f CS bitmap next), St s d di ci dout cout t).
Proof.
  intros total. induction fuel as [|fuel IH]; intros next s d di ci dout cout t Hn Hfuel Hnext; cbn [missing_from];
    (destruct (Z.ltb_spec next total) as [Hl|Hl]; [|by rewrite missing_end]); [lia|].
  destruct (first_missing_run f js nw Hf CS Hcs bitmap (next + 1) s d di ci dout cout t) as (n & Hf1 & Hge & Hmiss & Hall); [fold total; lia|].
  rewrite (bind_done _ _ _ _ _ Hf1). rewrite (bind_done _ _ _ _ _ (IH n s d di ci dout cout t ltac:(lia) ltac:(lia) Hmiss)).
  rewrite (missing_next f CS bitmap next) by auto. by rewrite (missing_skip f CS bitmap (next + 1) n).
Qed.
Lemma chunk_total : (if zlen f =? 0 then 0 else (zlen f + CS - 1) / CS) = (zlen f + CS - 1) / CS.
Proof. destruct (Z.eqb_spec (zlen f) 0) as [E|]; [|done]. rewrite E. symmetry. apply Z.div_small. lia. Qed.
Lemma total_run s d di ci dout cout t :
  (if zlen f =? 0 then ret 0 else of_outcome (div_ceil (zlen f) CS)) (St s d di ci dout cout t) = (@Done VelcruxError _ ((zlen f + CS - 1) / CS), St s d di ci dout cout t).
Proof. rewrite <- chunk_total at 1. unfold div_ceil. rewrite (proj2 (Z.eqb_neq CS 0)) by lia. by destruct (zlen f =? 0). Qed.
Lemma missing_run bitmap s d di ci dout cout t : let total := (zlen f + CS - 1) / CS in
  (let! next := first_missing bitmap 0 total in missing_from (Z.to_nat total) bitmap total next) (St s d di ci dout cout t) = (Done (missing f CS bitmap 0), St s d di ci dout cout t).
Proof.
  intros total. pose proof (zlen_nonneg f).
  destruct (first_missing_run f js nw Hf CS Hcs bitmap 0 s d di ci dout cout t) as (n & Hn & Hge & Hmiss & Hall); [split; [lia|apply Z.div_pos; lia]|]. rewrite (bind_done _ _ _ _ _ Hn).
  rewrite (missing_from_run bitmap) by (done || lia). by rewrite (missing_skip f CS bitmap 0 n).
Qed.
Definition to_send (skip : option ChunkBitmap.t) : list Z := match skip with Some bm => missing f CS bm 0 | None => seqZ 0 ((zlen f + CS - 1) / CS) end.
Lemma to_send_in skip : Forall (in_file f CS) (to_send skip).
Proof.
  destruct skip as [bm|]; [apply missing_in; lia|]. apply Forall_forall. intros i Hi. apply elem_of_seqZ in Hi. apply (total_in f CS Hcs); lia.
Qed.
Lemma to_send_all skip i : in_file f CS i -> (forall m, skip = Some m -> ChunkBitmap.contains m i = false) -> i ∈ to_send skip.
Proof.
  intros Hi Hm. destruct skip as [bm|]; [apply missing_all; [lia|done|by apply Hm]|]. apply elem_of_seqZ. pose proof (proj1 Hi). apply (total_in f CS Hcs) in Hi; lia.
Qed.
Lemma to_send_len skip : (length (to_send skip) <= Z.to_nat ((zlen f + CS - 1) / CS))%nat.
Proof.
  destruct skip as [bm|]; cbn [to_send]; [|by rewrite length_seqZ]. unfold missing. etransitivity; [apply length_filter|]. rewrite length_seqZ. lia.
Qed.
Lemma to_send_run skip s d di ci dout cout t : let total := (zlen f + CS - 1) / CS in
  match skip with
  | Some bm => let! next := first_missing bm 0 total in missing_from (Z.to_nat total) bm total next
  | None => ret (seqZ 0 total)
  end (St s d di ci dout cout t) = (Done (to_send skip), St s d di ci dout cout t).
Proof. intros total. destruct skip as [bm|]; [apply missing_run|done]. Qed.
End download.

Section downloads.
Context `{Zstd} {S : Type}.
Context (entropy_sum : list Z -> Z -> Q) (centibits : Q -> Z) (hash_of : bytes -> Hash) (b : Backend) (id : TransferId) (src f : bytes) (js : gmap bytes Empty_set) (nw : Z).
Local Abbreviation At s d ci := (mkSession (S:=S) s (mkWorld d js [] nw) (mk_stream [] None) (mk_stream ci None) [] [] []).
Definition part_size (skip : option ChunkBitmap.t) : Z := if bool_decide (is_Some skip) then DELTA_CHUNK_SIZE else M3_CHUNK_SIZE.

Lemma server_lanes skip h n ss s ds CS : CS = part_size skip -> zlen f <= FILE_MAX -> (forall b, wf_hash (hash_of b)) -> wf_id id -> ds !! resolve b src = Some f -> h = hash_of f \/ h = HASH_ZERO ->
  0 < CS <= Data.DATA_MAX_CHUNK_LEN -> (0 < n)%nat -> fits 64 (Z.of_nat n) -> (forall m, (m < n)%nat -> (2 + length (to_send f CS skip) <= turns m ss)%nat) ->
  exists dl, server_download_parallel entropy_sum centibits hash_of b id src (zlen f) h skip false n ss (At s ds (asks id))
      = (Done ((fun v => sent_on hash_of f CS id (seq_of v) (dealt v)) <$> dl), mkSession s (mkWorld ds js [] nw) (mk_stream [] None) (mk_stream [] None) [] (grants id (hash_of f)) []) /\
    length dl = n /\ mjoin (dealt <$> dl) ≡ₚ to_send f CS skip /\ Forall (fun v => fits 64 (seq_of v)) dl.
Proof.
  intros Heq Hf Hhash Hid Hd Hh Hcs Hn Hfit Hs. unfold server_download_parallel. change (if bool_decide (is_Some skip) then DELTA_CHUNK_SIZE else M3_CHUNK_SIZE) with (part_size skip). rewrite <- Heq. cbv zeta.
  rewrite (bind_done _ _ _ _ _ (total_run f js nw CS Hcs _ _ _ _ _ _ _)). rewrite (bind_done _ _ _ _ _ (to_send_run f js nw Hf CS Hcs skip _ _ _ _ _ _ _)).
  rewrite (bind_done _ _ _ f (At s ds (asks id))); cycle 1.
  { unfold open_read. rewrite (bind_done _ _ _ f (At s ds (asks id))); [done|]. unfold on_files, map_error, read_file, call. cbn [files events tail disk docs now]. by rewrite Hd. }
  destruct (serve_tasks_run entropy_sum centibits hash_of f id js nw Hhash Hid CS Hcs (zlen f) ss n (to_send f CS skip) s ds (mk_stream [] None) (mk_stream (asks id) None) [] [] [] eq_refl Hn Hfit (to_send_in f CS Hcs skip) Hs)
    as (k & dl & Hr & Hlen & Hout & Hp & Hq). rewrite (bind_done _ _ _ _ _ Hr). cbv beta iota. rewrite Hout.
  rewrite (bind_done _ _ _ (hash_of f) (At s ds (asks id))); cycle 1.
  { case_bool_decide as Hz; cbn [negb]; [|by destruct Hh as [->|?]]. unfold bind, on_files, map_error, read_file, call. cbn [files events tail disk docs now]. by rewrite Hd. }
  unfold asks. rewrite (bind_done _ _ _ _ _ (grant_verify_run entropy_sum id js nw Hid (hash_of f) _ _ _ _ _ _ _ (Hhash f))), (bind_done _ _ _ _ _ (grant_commit_run entropy_sum hash_of id js nw Hhash Hid _ _ _ _ _ _)).
  exists dl. split; [done|]. split; [done|]. split; [done|done].
Qed.
Lemma client_lanes (pre : bool) local h cs sc d CS chunks dl dl' : zlen f <= FILE_MAX -> (forall b, wf_hash (hash_of b)) -> wf_id id -> 0 < CS <= Data.DATA_MAX_CHUNK_LEN -> wf_hash h ->
  Forall (in_file f CS) chunks -> mjoin (dealt <$> dl) ≡ₚ chunks -> Forall (fun v => fits 64 (seq_of v)) dl -> dl' ≡ₚ dl -> (forall m, (m < length dl)%nat -> (2 + length chunks <= turns m cs)%nat) ->
  (let c := if pre then default [] (d !! partial_path local) else [] in zlen c <= zlen f /\ forall i, in_file f CS i -> i ∈ chunks \/ holds f CS c i) ->
  client_download_parallel entropy_sum hash_of id local pre ((fun b => mk_stream b None) <$> ((fun v => sent_on hash_of f CS id (seq_of v) (dealt v)) <$> dl')) cs (At sc d (grants id h))
  = (Done h, mkSession sc (mkWorld (<[local := f]> (delete (partial_path local) d)) js [] nw) (mk_stream [] None) (mk_stream [] None) [] (asks id) []).
Proof.
  intros Hf Hhash Hid Hcs Hh Hin Hp Hq Hdl Hs. set (c := if pre then default [] (d !! partial_path local) else []). intros [Hz Hall]. unfold client_download_parallel. set (st := partial_path local) in *.
  rewrite (bind_done _ _ _ tt (At sc d (grants id h))) by done.
  rewrite (bind_done _ _ _ tt (At sc (<[st := c]> d) (grants id h))); cycle 1.
  { unfold on_files, map_error, open_file, call. cbn [files events tail disk docs now]. unfold c. destruct pre; cbn [negb]; [|done].
    destruct (d !! st) as [c'|] eqn:E; [cbn; by rewrite insert_id|done]. }
  rewrite views_receive.
  destruct (store_tasks_run hash_of f id js nw Hf Hhash Hid CS Hcs st cs (view_of <$> dl') c sc (<[st := c]> d) (mk_stream [] None) (mk_stream (grants id h) None) [] [] []) as [ts Hr];
    [by eapply (dealt_coming f CS chunks dl)|apply lookup_insert_eq|by eapply dealt_turns|]. rewrite insert_insert_eq in Hr. rewrite (bind_done _ _ _ _ _ Hr).
  rewrite (bind_done _ _ _ tt (At sc (<[st := f]> d) (grants id h))) by done.
  unfold grants. rewrite (bind_done _ _ _ _ _ (ask_hash_run entropy_sum id js nw Hid h _ _ _ _ _ _ _ Hh)), (bind_done _ _ _ _ _ (ask_commit_run entropy_sum hash_of id js nw Hhash Hid _ _ _ _ _ _)).
  unfold move_into_place. rewrite (bind_done _ _ _ tt (mkSession sc (mkWorld (<[local := f]> (delete st d)) js [] nw) (mk_stream [] None) (mk_stream [] None) [] (asks id) [])); [done|].
  rewrite (bind_done _ _ _ tt (mkSession sc (mkWorld (<[local := f]> (delete st d)) js [] nw) (mk_stream [] None) (mk_stream [] None) [] (asks id) [])); [done|].
  unfold on_files, map_error, rename_file, call. cbn [files events tail disk docs now]. rewrite lookup_insert_eq. unfold set_disk. cbn [disk docs events now]. by rewrite delete_insert_eq.
Qed.

(** C17. A download on [n] streams goes through. No call of the files and streams fails and nothing is
    compressed; the server was called with the hash of the file or with the zero hash; the staging file of the
    client, if it is kept, is not longer than the file and has the chunks that the skip bitmap counts. For
    every order of the turns of the [n] tasks on either side in which each gets one for every chunk and two
    more, and for every order in which the streams arrive at the client, the download ends on both sides, the
    client with the hash of the file; the file is at its place, the staging file is gone, and nothing else has
    changed. *)
Theorem parallel_download skip (pre : bool) local h n ss cs s sc ds d :
  zlen f <= FILE_MAX -> (forall b, wf_hash (hash_of b)) -> wf_id id -> ds !! resolve b src = Some f -> h = hash_of f \/ h = HASH_ZERO ->
  (0 < n)%nat -> fits 64 (Z.of_nat n) -> (forall m, (m < n)%nat -> (2 + Z.to_nat ((zlen f + part_size skip - 1) / part_size skip) <= turns m ss `min` turns m cs)%nat) ->
  (let c := if pre then default [] (d !! partial_path local) else [] in
   zlen c <= zlen f /\ forall m i, skip = Some m -> in_file f DELTA_CHUNK_SIZE i -> ChunkBitmap.contains m i = true -> holds f DELTA_CHUNK_SIZE c i) ->
  exists lanes says answers ys,
    server_download_parallel entropy_sum centibits hash_of b id src (zlen f) h skip false n ss (At s ds says) = (Done lanes, ys) /\ ctl_out ys = answers /\ disk (files ys) = ds /\
    forall lanes', lanes' ≡ₚ lanes -> exists yc,
      client_download_parallel entropy_sum hash_of id local pre ((fun b => mk_stream b None) <$> lanes') cs (At sc d answers) = (Done (hash_of f), yc) /\
      ctl_out yc = says /\ disk (files yc) = <[local := f]> (delete (partial_path local) d).
Proof.
  intros Hf Hhash Hid Hd Hh Hn Hfit Hturns [Hz Hc]. assert (0 < part_size skip <= Data.DATA_MAX_CHUNK_LEN) as Hcs by (by destruct skip).
  assert (forall i, in_file f (part_size skip) i -> i ∈ to_send f (part_size skip) skip \/ holds f (part_size skip) (if pre then default [] (d !! partial_path local) else []) i) as Hall.
  { intros i Hi. destruct skip as [m|]; [|left; by apply (to_send_all f _ Hcs)]. destruct (ChunkBitmap.contains m i) eqn:E; [right; by eapply Hc|left].
    apply (to_send_all f _ Hcs); [done|]. by intros m' [= ->]. }
  destruct (server_lanes skip h n ss s ds (part_size skip) eq_refl Hf Hhash Hid Hd Hh Hcs Hn Hfit) as (dl & Hs & Hlen & Hp & Hq).
  { intros m Hm. specialize (Hturns m Hm). pose proof (to_send_len f (part_size skip) skip). lia. }
  eexists _, _, _, _. split; [exact Hs|]. split; [reflexivity|]. split; [reflexivity|].
  intros lanes' (dl' & Heq & Hdl)%Permutation_map_inv. change (map ?g dl') with (g <$> dl') in Heq. subst lanes'. symmetry in Hdl. eexists. split; [|shelve].
  eapply (client_lanes pre local (hash_of f) cs sc d (part_size skip) (to_send f (part_size skip) skip) dl dl'); try done; [apply (to_send_in f _ Hcs)|].
  intros m Hm. rewrite Hlen in Hm. specialize (Hturns m Hm). pose proof (to_send_len f (part_size skip) skip). lia.
  Unshelve. split; reflexivity.
Qed.
End downloads.

(** ** Uploads *)

Section upload_server.
Context `{Zstd} {S : Type} `{StateStoreLaws S}.
Context (entropy_sum : list Z -> Z -> Q) (hash_of : bytes -> Hash) (ulid_text : TransferId -> bytes) (no_space : bytes -> bool).
Context (b : Backend) (j : job) (dst f : bytes) (js : gmap bytes Empty_set) (nw : Z) (up : S -> Prop) (has_store : bool).
Context (Hf : zlen f <= FILE_MAX) (Hhash : forall b, wf_hash (hash_of b)) (Hsize : size j = zlen f) (Hwhole : whole j = hash_of f) (Hzero : hash_of f <> HASH_ZERO).
Context (Hup : responsive up) (Hid : wf_id (tid j)) (CS : Z) (Hcs : 0 < CS <= Data.DATA_MAX_CHUNK_LEN).
Local Abbreviation sp := (staging_path b (ulid_text (tid j)) dst).
Local Abbreviation St s d di ci dout cout t := (mkSession (S:=S) s (mkWorld d js [] nw) di ci dout cout t).

(** The writer writes to the staging file, which has the chunks of the bitmap. *)
Definition fitting (k : intake) (c : bytes) : Prop := writing ulid_text b j dst (writer k) /\ forall i, i ∈ ChunkBitmap.set (bm k) -> holds f CS c i.
Lemma put_open_run k q rest s d ci dout cout t : fits 64 q ->
  put_turn hash_of (tid j) CS false k false (St s d (mk_stream (lane_preamble (tid j) q ++ rest) None) ci dout cout t) = (Done (k, Some true), St s d (mk_stream rest None) ci dout cout t).
Proof.
  intros Hq. destruct (lane_preamble_read (tid j) Hid q Hq) as [Hl Hp]. unfold put_turn. cbn [negb]. unfold bind, recv_data. cbn [data_in]. rewrite Session.read_exact_app by done.
  unfold of_outcome at 1, need, of_protocol, of_outcome. rewrite Hp. cbn [map_err Data.transfer_id]. by rewrite bool_decide_eq_true_2.
Qed.
Lemma put_turn_run k i rest s d ci dout cout t c : in_file f CS i -> fitting k c -> d !! sp = Some c -> exists k' c',
  put_turn hash_of (tid j) CS false k true (St s d (mk_stream (frame_of hash_of f CS i ++ rest) None) ci dout cout t) = (Done (k', Some true), St s (<[sp := c']> d) (mk_stream rest None) ci dout cout t) /\
  fitting k' c' /\ better f c c' /\ holds f CS c' i.
Proof.
  intros Hi [Hk Hl] Hd. unfold put_turn. cbn [negb]. rewrite (bind_done _ _ _ _ _ (recv_chunk_run hash_of f js nw Hf Hhash CS Hcs i rest s d ci dout cout t Hi)).
  destruct (put_run hash_of ulid_text b j dst f js nw Hf CS Hcs i k s d (mk_stream rest None) ci dout cout t c Hi Hk Hd Hl) as (k' & c' & Hp & Hk' & Hb & Hl' & Hh).
  rewrite (bind_done _ _ _ _ _ Hp). by exists k', c'.
Qed.

Lemma upload_lanes resumed bitmap chunks dl dl' sched s d r dout cout t : sp <> resolve b dst -> check_space b (size j) = Ok tt -> up s ->
  (forall c, d !! sp = Some c -> zlen c <= zlen f) -> (resumed = false -> ChunkBitmap.set bitmap = []) -> (forall i, i ∈ ChunkBitmap.set bitmap -> exists c, d !! sp = Some c /\ holds f CS c i) ->
  Forall (in_file f CS) chunks -> mjoin (dealt <$> dl) ≡ₚ chunks -> Forall (fun v => fits 64 (seq_of v)) dl -> dl' ≡ₚ dl -> (forall m, (m < length dl)%nat -> (2 + length chunks <= turns m sched)%nat) ->
  (forall i, in_file f CS i -> i ∈ chunks \/ resumed = true /\ exists c, d !! sp = Some c /\ holds f CS c i) ->
  exists s' t', (let! w := open_staging_resumable no_space b (ulid_text (tid j)) dst (size j) resumed in
     let! '(k, _) := run_tasks (put_turn hash_of (tid j) CS (bool_decide (whole j = HASH_ZERO))) sched (mkIntake bitmap w (ChunkBitmap.bytes_completed bitmap))
       (receivers ((fun b => mk_stream b None) <$> ((fun v => sent_on hash_of f CS (tid j) (seq_of v) (dealt v)) <$> dl'))) in
     let! _ := fsync (writer k) in
     let! _ := when has_store (ignore (on_store (write_bitmap (tid j) (bm k)))) in
     let! computed := compute_staging_hash hash_of b (ulid_text (tid j)) dst in
     let! f := (fun x => await_verify (Datatypes.S (length (avail (ctl_in x)))) has_store (tid j) (bm k) x) in
     let! _ := answer_verify entropy_sum j computed f in
     let! _ := finish_commit entropy_sum b has_store j dst (w_path (writer k)) in
     ret computed) (St s d (mk_stream [] None) (mk_stream (client_says j) r) dout cout t)
    = (Done (hash_of f), St s' (<[resolve b dst := f]> (delete sp d)) (mk_stream [] None) (mk_stream [] r) dout (cout ++ server_says hash_of j f) t').
Proof.
  intros Hne Hsp Hs Hz Hnew Hbm Hin Hp Hq Hdl Hturns Hall.
  destruct (open_run ulid_text no_space b j dst f js nw Hsize resumed s d (mk_stream [] None) (mk_stream (client_says j) r) dout cout t Hsp Hz) as (w & c0 & Ho & Hw & Hz0 & Hb0). rewrite (bind_done _ _ _ _ _ Ho).
  rewrite (bool_decide_eq_false_2 (whole j = HASH_ZERO)) by (by rewrite Hwhole). rewrite views_receive.
  assert (fitting (mkIntake bitmap w (ChunkBitmap.bytes_completed bitmap)) c0) as Hfit.
  { split; [done|]. cbn [bm]. intros i Hi. destruct resumed; [|rewrite Hnew in Hi by done; by apply elem_of_nil in Hi]. destruct (Hbm i Hi) as (c & Hc & Hh). eapply better_holds; [by apply Hb0|done]. }
  destruct (receivers_run (put_turn hash_of (tid j) CS false) hash_of f CS (tid j) sp js nw Hcs fitting put_open_run put_turn_run ltac:(done) sched (mkIntake bitmap w (ChunkBitmap.bytes_completed bitmap)) (view_of <$> dl') c0 s (<[sp := c0]> d) (mk_stream [] None) (mk_stream (client_says j) r) dout cout t) as (k & Hr & [Hk _]);
    [|exact Hfit|apply lookup_insert_eq|by eapply dealt_turns|].
  { eapply (dealt_coming f CS chunks dl); try done. intros i Hi. destruct (Hall i Hi) as [?|(Hres & c & Hc & Hh)]; [by left|right]. eapply better_holds; [by apply Hb0|done]. }
  rewrite insert_insert_eq in Hr. rewrite (bind_done _ _ _ _ _ Hr). cbv beta iota. rewrite (bind_done _ _ _ tt (St s (<[sp := f]> d) (mk_stream [] None) (mk_stream (client_says j) r) dout cout t)) by done.
  destruct Hk as [Hk _]. by apply (tail_run entropy_sum hash_of ulid_text b j dst f js nw up has_store Hhash Hwhole Hzero Hup Hid k).
Qed.
End upload_server.

Section upload_client.
Context `{Zstd} {S : Type} `{StateStore S}.
Context (entropy_sum : list Z -> Z -> Q) (centibits : Q -> Z) (hash_of : bytes -> Hash) (j : job) (f : bytes) (js : gmap bytes Empty_set) (nw : Z) (cfg : PipelineConfig).
Context (Hf : zlen f <= FILE_MAX) (Hhash : forall b, wf_hash (hash_of b)) (Hsize : size j = zlen f) (Hwhole : whole j = hash_of f).
Context (Hid : wf_id (tid j)) (Hplain : compression cfg = false) (CS : Z) (Hcs : 0 < CS <= Data.DATA_MAX_CHUNK_LEN).
Local Abbreviation St s d di ci dout cout t := (mkSession (S:=S) s (mkWorld d js [] nw) di ci dout cout t).
Local Abbreviation w0 := (Work f Compression.selector_with_defaults).

Lemma upload_tasks_run local sched n chunks cb s d di ci dout cout t : d !! local = Some f -> (0 < n)%nat -> fits 64 (Z.of_nat n) -> Forall (in_file f CS) chunks ->
  (forall m, (m < n)%nat -> (2 + length chunks <= turns m sched)%nat) ->
  exists k dl, run_tasks (upload_turn entropy_sum centibits hash_of cfg j local CS chunks) sched (0%nat, cb) (senders n) (St s d di ci dout cout t) = (Done (k, sender_of hash_of f CS (tid j) w0 <$> dl), St s d di ci dout cout t) /\
    length dl = n /\ lane_out <$> (sender_of hash_of f CS (tid j) w0 <$> dl) = (fun v => sent_on hash_of f CS (tid j) (seq_of v) (dealt v)) <$> dl /\ mjoin (dealt <$> dl) ≡ₚ chunks /\ Forall (fun v => fits 64 (seq_of v)) dl.
Proof.
  intros Hd Hn Hfit Hin Hs. apply (senders_run _ hash_of f CS (tid j) chunks fst (0 <? zlen f) w0 d js nw); try done.
  - intros Hz%Z.ltb_ge. destruct chunks as [|i l]; [done|]. apply Forall_cons in Hin as [[? ?] _]. nia.
  - intros [n0 m0] q s' di' ci' cout' t' Hq. unfold upload_turn. rewrite lane_preamble_encode by done.
    rewrite (bind_done _ _ _ (lane_preamble (tid j) q) (St s' d di' ci' [] cout' t')) by done. rewrite (bind_done _ _ _ tt (St s' d di' ci' ([] ++ lane_preamble (tid j) q) cout' t')) by done.
    rewrite Hsize. destruct (0 <? zlen f); [|done]. unfold bind, on_files, map_error, read_file, call. cbn [files events tail disk docs now]. by rewrite Hd.
  - intros [n0 m0] i s' di' ci' dout' cout' t' Hi. cbn [fst] in Hi. eexists (Datatypes.S n0, _). split; [|done]. unfold upload_turn. rewrite Hi. assert (in_file f CS i) as Hif by (exact (Forall_lookup_1 _ _ _ _ Hin Hi)).
    destruct (zlen_window f CS (proj1 Hcs) i Hif) as [Hw He].
    rewrite (bind_done _ _ _ (window f CS i) (St s' d di' ci' dout' cout' t')); cycle 1.
    { unfold on_files, map_error, read_at, call. cbn [files events tail disk docs now]. do 2 f_equal. unfold window. rewrite Hsize.
      destruct (decide (zlen f - i * CS <= CS)); [|by rewrite Z.min_r by lia]. rewrite !take_ge; [done|..]; rewrite length_drop; unfold zlen in *; destruct Hif; lia. }
    rewrite (proj2 (Z.eqb_eq _ _)) by (rewrite Hsize; lia). cbn [negb].
    rewrite (bind_done _ _ _ (frame_of hash_of f CS i, Compression.selector_with_defaults) (St s' d di' ci' dout' cout' t')) by (by rewrite (encode_chunk_run entropy_sum centibits hash_of f cfg Hhash Hplain CS Hcs)). done.
  - intros [n0 m0] s' di' ci' dout' cout' t' Hi. cbn [fst] in Hi. exists (Datatypes.S n0, m0). split; [|done]. unfold upload_turn. by rewrite Hi.
Qed.

Lemma client_lanes_run local key remote n sched cb r s d dout cout t : d !! local = Some f -> fixed_chunk_size cfg (size j) cb = Ok CS -> (0 < n)%nat -> fits 64 (Z.of_nat n) ->
  (forall m, (m < n)%nat -> (2 + length (missing f CS cb 0) <= turns m sched)%nat) ->
  exists dl t', client_upload_parallel entropy_sum centibits hash_of cfg false j key local remote cb n sched (St s d (mk_stream [] None) (mk_stream (server_says hash_of j f) r) dout cout t)
      = (Done (hash_of f, (fun v => sent_on hash_of f CS (tid j) (seq_of v) (dealt v)) <$> dl), St s d (mk_stream [] None) (mk_stream [] r) dout (cout ++ client_says j) t') /\
    length dl = n /\ mjoin (dealt <$> dl) ≡ₚ missing f CS cb 0 /\ Forall (fun v => fits 64 (seq_of v)) dl.
Proof.
  intros Hd Hsz Hn Hfit Hs. destruct (short_payloads hash_of j f Hhash Hwhole Hid) as (Hv & _ & Hi & _). unfold client_upload_parallel.
  rewrite (bind_done _ _ _ tt (St s d (mk_stream [] None) (mk_stream (server_says hash_of j f) r) dout cout (tail t))) by done. rewrite Hsz.
  rewrite (bind_done _ _ _ CS (St s d (mk_stream [] None) (mk_stream (server_says hash_of j f) r) dout cout (tail t))) by done. rewrite Hsize.
  rewrite (bind_done _ _ _ _ _ (total_run f js nw CS Hcs _ _ _ _ _ _ _)).
  destruct (bind_inv _ _ _ _ _ (missing_run f js nw Hf CS Hcs cb s d (mk_stream [] None) (mk_stream (server_says hash_of j f) r) dout cout (tail t))) as (next & u & Hn1 & Hn2).
  assert (u = St s d (mk_stream [] None) (mk_stream (server_says hash_of j f) r) dout cout (tail t)) as ->.
  { pose proof (zlen_nonneg f). edestruct (first_missing_run f js nw Hf CS Hcs cb 0 s d (mk_stream [] None) (mk_stream (server_says hash_of j f) r) dout cout (tail t)) as (n' & Hn' & _); [split; [lia|apply Z.div_pos; lia]|]. rewrite Hn' in Hn1. by injection Hn1. }
  rewrite (bind_done _ _ _ _ _ Hn1), (bind_done _ _ _ _ _ Hn2).
  destruct (upload_tasks_run local sched n (missing f CS cb 0) cb s d (mk_stream [] None) (mk_stream (server_says hash_of j f) r) dout cout (tail t) Hd Hn Hfit (missing_in f CS cb (proj1 Hcs)) Hs) as (k & dl & Hr & Hlen & Hout & Hp & Hq).
  rewrite (bind_done _ _ _ _ _ Hr). cbv beta iota. rewrite Hout.
  match type of Hr with _ = (_, ?y) => rewrite (bind_done (tell_progress entropy_sum false j k.2) _ y tt y) by done end. unfold server_says.
  rewrite (bind_done _ _ _ tt _ (say_run entropy_sum js nw (Message.MVerify (Verify.mk (tid j) (whole j))) Message.VERIFY (verify_payload j) _ _ _ _ _ _ _ (conj Hid (eq_ind_r wf_hash (Hhash f) Hwhole)) eq_refl ltac:(by rewrite Hv))).
  rewrite (bind_done _ _ _ _ _ (await_result_run hash_of j f js nw Hhash Hwhole Hid _ _ _ _ _ _ _ _)).
  rewrite (bind_done _ _ _ tt _ (say_run entropy_sum js nw (Message.MCommit (Commit.mk (tid j))) Message.COMMIT (tid j) _ _ _ _ _ _ _ Hid eq_refl ltac:(by rewrite Hi))).
  rewrite (bind_done _ _ _ _ _ (await_committed_run hash_of j f js nw Hhash Hwhole Hid _ _ _ _ _ _ _)). eexists dl, _. split; [|done]. cbn. unfold client_says. by rewrite <- app_assoc.
Qed.
End upload_client.

Section uploads.
Context `{Zstd} {S : Type} `{StateStoreLaws S}.
Context (entropy_sum : list Z -> Z -> Q) (centibits : Q -> Z) (hash_of : bytes -> Hash) (ulid_text : TransferId -> bytes) (no_space : bytes -> bool).
Context (b : Backend) (j : job) (dst f : bytes) (js : gmap bytes Empty_set) (nw : Z) (cfg : PipelineConfig).
Local Abbreviation At s d ci := (mkSession (S:=S) s (mkWorld d js [] nw) (mk_stream [] None) (mk_stream ci None) [] [] []).

(** C14. An upload on [n] streams goes through, under the conditions of [upload_complete]: 1 MiB chunks, not
    compressed, a client without a state store, the announced hash that of the file and not zero, a staging
    file that is not the destination, space for the file, no failing call of the files or the streams, and the
    chunks that the client leaves out and those that the stored bitmap counts in a staging file that is not
    longer than the file. For every order of the turns of the [n] tasks on either side in which each gets one
    for every missing chunk and two more, and for every order in which the streams arrive at the server, the
    upload ends on both sides with the hash of the file; the file is at the destination, its staging file is
    gone, and nothing else on the disk of the server has changed. *)
Theorem parallel_upload up (has_store resumed : bool) cb local key remote n cs ss s sc d dc :
  zlen f <= FILE_MAX -> (forall b, wf_hash (hash_of b)) -> size j = zlen f -> whole j = hash_of f -> hash_of f <> HASH_ZERO -> wf_id (tid j) ->
  responsive up -> up s -> compression cfg = false -> fixed_chunk_size cfg (size j) cb = Ok M3_CHUNK_SIZE ->
  staging_path b (ulid_text (tid j)) dst <> resolve b dst -> check_space b (size j) = Ok tt -> dc !! local = Some f ->
  (0 < n)%nat -> fits 64 (Z.of_nat n) -> (forall m, (m < n)%nat -> (2 + length (missing f M3_CHUNK_SIZE cb 0) <= turns m cs `min` turns m ss)%nat) ->
  inv ulid_text b j dst f [] [] (d, s) ->
  (forall i, in_file f M3_CHUNK_SIZE i -> ChunkBitmap.contains cb i = true -> resumed = true /\ exists c, d !! staging_path b (ulid_text (tid j)) dst = Some c /\ holds f M3_CHUNK_SIZE c i) ->
  exists lanes ctl answers yc,
    client_upload_parallel entropy_sum centibits hash_of cfg false j key local remote cb n cs (At sc dc answers) = (Done (hash_of f, lanes), yc) /\ ctl_out yc = ctl /\
    forall lanes', lanes' ≡ₚ lanes -> exists ys,
      server_upload_parallel entropy_sum hash_of ulid_text no_space b has_store resumed j dst None ((fun b => mk_stream b None) <$> lanes') ss (At s d ctl) = (Done (hash_of f), ys) /\
      ctl_out ys = answers /\ disk (files ys) = <[resolve b dst := f]> (delete (staging_path b (ulid_text (tid j)) dst) d).
Proof.
  intros Hf Hhash Hsize Hwhole Hzero Hid Hup Hs Hplain Hsz Hne Hsp Hdc Hn Hfit Hturns Hinv Hcb.
  destruct (client_lanes_run entropy_sum centibits hash_of j f js nw cfg Hf Hhash Hsize Hwhole Hid Hplain M3_CHUNK_SIZE ltac:(done) local key remote n cs cb None sc dc [] [] [] Hdc Hsz Hn Hfit) as (dl & tc & Hc & Hlen & Hp & Hq).
  { intros m Hm. specialize (Hturns m Hm). lia. }
  eexists _, _, _, _. split; [exact Hc|]. split; [reflexivity|]. intros lanes' (dl' & Heq & Hdl)%Permutation_map_inv. change (map ?g dl') with (g <$> dl') in Heq. subst lanes'. symmetry in Hdl.
  unfold server_upload_parallel. rewrite (bool_decide_eq_false_2 (is_Some None)) by (by intros [? ?]). cbv zeta.
  destruct (bitmap_run ulid_text b j dst f js nw up has_store Hup M3_CHUNK_SIZE resumed s d (mk_stream [] None) (mk_stream ([] ++ client_says j) None) [] [] [] eq_refl Hs Hinv) as (bitmap & s1 & Hb & Hs1 & Hnew & Hbm).
  edestruct (upload_lanes entropy_sum hash_of ulid_text no_space b j dst f js nw up has_store Hf Hhash Hsize Hwhole Hzero Hup Hid M3_CHUNK_SIZE ltac:(done) resumed bitmap (missing f M3_CHUNK_SIZE cb 0) dl dl' ss s1 d None [] [] [])
    as (s' & ts & Hr); try done; [by destruct Hinv as (_ & ? & _)|apply missing_in; done| | |].
  { intros m Hm. rewrite Hlen in Hm. specialize (Hturns m Hm). lia. }
  { intros i Hi. destruct (ChunkBitmap.contains cb i) eqn:E; [right; by apply Hcb|left; by apply missing_all]. }
  eexists. split; [rewrite (bind_done _ _ _ _ _ Hb); exact Hr|]. split; reflexivity.
Qed.
End uploads.

(** ** Whatever happens *)

Section tasks_leave.
Context {S K L : Type} (act : K -> L -> M (session S) VelcruxError (K * option L)) (P : bytes -> Prop) (T : K -> Prop).
Context (Hleaves : forall k l, T k -> leaves P (act k l)).
Context (Hkeeps : forall k l x k' o y, T k -> act k l x = (Done (k', o), y) -> T k').
Context (Hctl : forall k l, keeps ctl_in (act k l)).

(** A computation that changes files only at paths with [P] and keeps [T] of what is shared. *)
Definition tame {A} (c : M (session S) VelcruxError (K * A)) : Prop := leaves P c /\ forall x k a y, c x = (Done (k, a), y) -> T k.
Lemma turn_tame i k ts : T k -> tame (turn act i k ts).
Proof.
  intros Hk. unfold turn. destruct (ts !! i) as [[[l| |e] ri ro]|]; try (split; [by intros x p|by intros x k' a y [= <- _]]). split.
  - intros x p Hp. specialize (Hleaves k l Hk (on_lane x ri ro) p Hp). destruct (act k l (on_lane x ri ro)) as [[[k' [l'|]]|e|] y]; exact Hleaves.
  - intros x k' a y Hr. specialize (Hkeeps k l (on_lane x ri ro)). destruct (act k l (on_lane x ri ro)) as [[[k1 [l'|]]|e|] z]; [| |by injection Hr as <- _|done]; injection Hr as <- _ _; by eapply Hkeeps.
Qed.
Lemma interleave_tame sched : forall k ts, T k -> tame (interleave act sched k ts).
Proof.
  induction sched as [|i sched IH]; intros k ts Hk; cbn [interleave]; [split; [by intros x p|by intros x k' a y [= <- _]]|]. destruct (turn_tame i k ts Hk) as [Hl Ht]. split.
  - apply (leaves_bind_with _ (fun '(k, _) => T k)); [done|intros x [k' ts'] y; apply Ht|]. intros [k' ts'] Hk'. by apply IH.
  - intros x k' a y ([k1 ts1] & u & Hu & Hr)%bind_inv. eapply IH; [by eapply Ht|done].
Qed.
Lemma run_tasks_tame sched k ts : T k -> tame (run_tasks act sched k ts).
Proof.
  intros Hk. destruct (interleave_tame sched k ts Hk) as [Hl Ht]. unfold run_tasks. split.
  - apply leaves_bind; [done|]. intros [k' ts'] x p Hp. by destruct (join_all ts') as [[e|]|].
  - intros x k' a y ([k1 ts1] & u & Hu & Hr)%bind_inv. destruct (join_all ts1) as [[e|]|]; [done| |done]. injection Hr as <- _ _. by eapply Ht.
Qed.
(** The control stream is not read. *)
Lemma turn_ctl i k ts : keeps ctl_in (turn act i k ts).
Proof.
  intros x. unfold turn. destruct (ts !! i) as [[[l| |e] ri ro]|]; try done. specialize (Hctl k l (on_lane x ri ro)).
  destruct (act k l (on_lane x ri ro)) as [[[k' [l'|]]|e|] y]; exact Hctl.
Qed.
Lemma run_tasks_ctl sched k ts : keeps ctl_in (run_tasks act sched k ts).
Proof.
  unfold run_tasks. apply keeping_bind; [|intros [k' ts'] x; by destruct (join_all ts') as [[e|]|]]. revert k ts.
  induction sched as [|i sched IH]; intros k ts; cbn [interleave]; [by intros x|]. apply keeping_bind; [apply turn_ctl|]. intros [k' ts']. apply IH.
Qed.
End tasks_leave.

Section upload_safety.
Context `{Zstd} {S : Type} `{StateStore S}.
Context (entropy_sum : list Z -> Z -> Q) (hash_of : bytes -> Hash) (ulid_text : TransferId -> bytes) (no_space : bytes -> bool).
Context (b : Backend) (j : job) (dst : bytes).
Local Abbreviation sp := (staging_path b (ulid_text (tid j)) dst).

Lemma put_turn_leaves chunk_size streaming k started : w_path (writer k) = sp -> leaves (eq sp) (put_turn (S:=S) hash_of (tid j) chunk_size streaming k started).
Proof.
  intros Hk. unfold put_turn, of_protocol. destruct started; cbn [negb]; [|apply quiet_leaves; keeps].
  apply leaves_bind; [apply quiet_leaves, still_quiet, still_recv_chunk|]. intros [[hdr data]|]; [|apply quiet_leaves; keeps].
  apply leaves_bind; [by apply leaves_put|]. intros k'. apply quiet_leaves; keeps.
Qed.
Lemma put_turn_path chunk_size streaming k started x k' o y : w_path (writer k) = sp -> put_turn (S:=S) hash_of (tid j) chunk_size streaming k started x = (Done (k', o), y) -> w_path (writer k') = sp.
Proof.
  intros Hk. unfold put_turn. destruct started; cbn [negb].
  - intros ([[hdr data]|] & u & _ & Hr)%bind_inv; [|by injection Hr as <- _ _]. apply bind_inv in Hr as (k1 & u1 & Hp%put_path & Hr). injection Hr as <- _ _. congruence.
  - do 3 (intros (? & ? & _ & Hr)%bind_inv; revert Hr). case_bool_decide; cbn [negb]; [|done]. by intros [= <- _ _].
Qed.

Lemma put_turn_ctl chunk_size streaming k started : keeps (S:=S) ctl_in (put_turn hash_of (tid j) chunk_size streaming k started).
Proof.
  pose proof @ctl_recv. pose proof (ctl_recv_chunk (S:=S) hash_of). pose proof @ctl_put. unfold put_turn, of_protocol. destruct started; cbn [negb]; keeps.
Qed.

(** C15. An upload on several streams is as safe as one on a single stream: whatever the peer sends on them, in whatever order the tasks run, whichever calls fail and wherever the
    process dies, when the staging file is not the destination: every file but the staging file and the destination is as it was; the destination is as it was, or a file with a
    hash that a VERIFY of the peer for this transfer asked for, which is the announced hash unless none (the zero hash) was announced; and an upload that is reported as done has
    put a file with the reported hash there, asked for in the same way. *)
Theorem parallel_verified has_store resumed initial lanes sched x : staging_path b (ulid_text (tid j)) dst <> resolve b dst ->
  let '(r, y) := server_upload_parallel (S:=S) entropy_sum hash_of ulid_text no_space b has_store resumed j dst initial lanes sched x in
  verified_by hash_of ulid_text b j dst (ctl_in x) (disk (files x)) (disk (files y)) r.
Proof.
  intros Hne. unfold server_upload_parallel. unfold bind at 1.
  match goal with |- context [match ?c x with _ => _ end] => assert (keeps on_disk c) as Hq by keeps; assert (keeps ctl_in c) as Hc by (pose proof @ctl_store; keeps);
    specialize (Hq x); specialize (Hc x); destruct (c x) as [[bitmap|e|] x1] end;
    unfold on_disk in Hq; cbn [snd] in Hq, Hc; [|apply verified_error; rewrite ?Hq; done..]. rewrite <- Hq, <- Hc. clear Hq Hc x.
  unfold bind at 1. pose proof (ctl_open ulid_text no_space b j dst (size j) resumed x1) as Hc1. pose proof (leaves_open ulid_text no_space b j dst (size j) resumed x1) as Ho. pose proof (open_path ulid_text no_space b j dst (size j) resumed x1) as Hw.
  destruct (open_staging_resumable _ _ _ _ _ _ x1) as [[w|e|] x2]; cbn [snd] in Ho, Hc1; [|apply verified_error; [intros p Hp; apply Ho; congruence|done..]..]. specialize (Hw w x2 eq_refl).
  unfold bind at 1. match goal with |- context [run_tasks ?act sched ?k0 ?ts x2] =>
    destruct (run_tasks_tame act (eq sp) (fun k => w_path (writer k) = sp) (fun k l => put_turn_leaves _ _ k l) (fun k l x k' o y => put_turn_path _ _ k l x k' o y) sched k0 ts Hw) as [Hl Hp];
    pose proof (run_tasks_ctl act (fun k l => put_turn_ctl _ _ k l) sched k0 ts x2) as Hc2;
    specialize (Hl x2); specialize (Hp x2); destruct (run_tasks act sched k0 ts x2) as [[[k' ts']|e|] x3] end; cbn [snd] in Hl, Hc2;
    [|apply verified_error; [intros p Hn; rewrite Hl, Ho by congruence; done|done..]..]. specialize (Hp k' ts' x3 eq_refl).
  unfold bind at 1, fsync. pose proof (still_quiet _ (still_sync (S:=S)) x3) as Hq. unfold on_disk in Hq.
  pose proof (ctl_files (S:=S) sync_all x3) as Hc3.
  destruct (on_files sync_all x3) as [[[]|e|] x4]; cbn [snd] in Hq, Hc3; [|apply verified_error; [intros p Hn; rewrite Hq, Hl, Ho by congruence; done|done..]..].
  rewrite <- Hc1, <- Hc2, <- Hc3. apply after_stream; [done..|]. intros p Hn. rewrite Hq, Hl, Ho by congruence. done.
Qed.
End upload_safety.

(** ** Examples *)

Module ParallelExamples.
Import TrimCodec UploadExamples ResumeExamples CompleteExamples DownloadExamples.

Definition two_each : list nat := [0; 1; 1; 0; 1; 0]%nat.
Definition quiet_at (d : gmap bytes bytes) (ctl : bytes) : session unit := begin d [] ctl.
Lemma enough (m n : nat) (sched sched' : list nat) : forallb (fun i => (n <=? turns i sched `min` turns i sched')%nat) [0; 1]%nat = true -> (m < 2)%nat -> (n <= turns m sched `min` turns m sched')%nat.
Proof. cbn [forallb]. intros [H0 [H1 _]%andb_prop]%andb_prop Hm. apply Nat.leb_le in H0, H1. destruct m as [|[|]]; [done|done|lia]. Qed.

Lemma parallel_download_witness : exists lanes says answers ys,
  server_download_parallel flat cents num_hash backend T1 DST (zlen file) HASH_ZERO None false 2 two_each (quiet_at served says) = (Done lanes, ys) /\ ctl_out ys = answers /\ disk (files ys) = served /\
  forall lanes', lanes' ≡ₚ lanes -> exists yc,
    client_download_parallel flat num_hash T1 LOCAL false ((fun b => mk_stream b None) <$> lanes') two_each (quiet_at ∅ answers) = (Done (num_hash file), yc) /\
    ctl_out yc = says /\ disk (files yc) = <[LOCAL := file]> (delete (partial_path LOCAL) ∅).
Proof.
  apply (parallel_download flat cents num_hash backend T1 DST file ∅ 0 None false LOCAL HASH_ZERO 2 two_each two_each tt tt served ∅).
  - by vm_compute.
  - apply num_hash_ok.
  - split; [repeat constructor; lia|done].
  - by vm_compute.
  - by right.
  - lia.
  - by vm_compute.
  - intros m Hm. apply enough; [by vm_compute|done].
  - split; [by vm_compute|done].
Defined.

Lemma parallel_upload_witness : exists lanes ctl answers yc,
  client_upload_parallel flat cents num_hash (fixed M3_CHUNK_SIZE) false J [] SRC DST ChunkBitmap.new 2 two_each (start S0 disk0 [] [] answers) = (Done (num_hash file, lanes), yc) /\ ctl_out yc = ctl /\
  forall lanes', lanes' ≡ₚ lanes -> exists ys,
    server_upload_parallel flat num_hash ulid never backend true true J DST None ((fun b => mk_stream b None) <$> lanes') two_each (start S1 staged_disk [] [] ctl) = (Done (num_hash file), ys) /\
    ctl_out ys = answers /\ disk (files ys) = <[resolve backend DST := file]> (delete (staging_path backend (ulid (tid J)) DST) staged_disk).
Proof.
  apply (parallel_upload flat cents num_hash ulid never backend J DST file ∅ 0 (fixed M3_CHUNK_SIZE) calm true true ChunkBitmap.new SRC [] DST 2 two_each two_each S1 S0 staged_disk disk0).
  - by vm_compute.
  - apply num_hash_ok.
  - done.
  - done.
  - vm_compute. discriminate.
  - split; [repeat constructor; lia|done].
  - apply calm_responsive.
  - by vm_compute.
  - done.
  - done.
  - vm_compute. discriminate.
  - done.
  - by vm_compute.
  - lia.
  - by vm_compute.
  - intros m Hm. apply enough; [by vm_compute|done].
  - apply cut_off_staged.
  - by intros i Hi Hc.
Defined.

Lemma parallel_verified_witness : let '(r, y) := server_upload_parallel flat num_hash ulid never backend true false J DST None [data_in x0; mk_stream [] None] [0; 1; 0]%nat x0 in
  verified_by num_hash ulid backend J DST (ctl_in x0) (disk (files x0)) (disk (files y)) r.
Proof. apply (parallel_verified flat num_hash ulid never backend J DST true false None). vm_compute. discriminate. Defined.

(** The first task breaks and the caller returns; the second task still writes to the staging file. *)
Definition bad : RecvStream := mk_stream [] None.
Definition after (sched : list nat) := client_download_parallel flat num_hash T1 LOCAL false [bad; mk_stream (preamble (mkJob T1 0 HASH_ZERO) ++ blocks num_hash [(0, file)]) None] sched (quiet_at ∅ []).
Example writes_after_return :
  (after [0]%nat).1 = Failed (EProtocol Empty) /\ disk (files (after [0]%nat).2) !! partial_path LOCAL = Some [] /\
  (after [0; 1; 1]%nat).1 = Failed (EProtocol Empty) /\ disk (files (after [0; 1; 1]%nat).2) !! partial_path LOCAL = Some file.
Proof. vm_compute. done. Qed.
End ParallelExamples.
