(* ===== verification/EngineM3.v ===== *)
(** * The first resumable engine, transfer/engine_m3.rs

    The halves of an upload in chunks of one MiB with the state of the transfer in the store, the answer to RESUME and the
    cancellation of a transfer, over the sessions of [Upload]. Here a failing call of the store ends the session. The task that
    reads and the one that sends are one after the other. A cancelled transfer is marked in the store and nothing else of the store changes
    ([cancel_marks]); the module [M3Examples] runs the halves, which the sessions of the current server no longer use. *)

From Stdlib Require Import QArith.
From S2P Require Import Prelude Utf8 Protocol Varint Wire Paths Bitmap StateStore Chunking ChunkEngine FileSys CasGc Frame Compression DataPath MsgTransfer MsgResume Message Session DeltaSync Checkpoint Upload Download UploadSafety UploadResume UploadComplete.
Import Str.
Open Scope Z_scope.

Definition map_state_err (e : StateStoreError) : VelcruxError := EInternal "state store".
Definition CHECKPOINT_BYTES_INTERVAL : Z := Z.shiftl 1 30.
Definition CHECKPOINT_TIME_INTERVAL_MS : Z := 10000.

Definition client_record (id : TransferId) (key remote_path local_path : bytes) (size : Z) (hash : Hash) (now : Z) : TransferRecord :=
  mk_record id key Client StateStore.Upload Active remote_path local_path size hash 0 now 0 [] now now.
Definition server_record (id : TransferId) (key remote_path : bytes) (size : Z) (hash : Hash) (now : Z) : TransferRecord :=
  mk_record id key Server StateStore.Upload Active remote_path [] size hash 0 now 0 [] now now.
Definition with_staging (r : TransferRecord) (p : bytes) : TransferRecord :=
  mk_record (transfer_id r) (idempotency_key r) (role r) (direction r) (status r) (remote_path r) (local_path r) (file_size r) (file_hash r) (verified_up_to r)
    (last_checkpoint_ms r) (bytes_completed r) p (created_ms r) (updated_ms r).
Definition cancelled (r : TransferRecord) (now : Z) : TransferRecord :=
  mk_record (transfer_id r) (idempotency_key r) (role r) (direction r) Cancelled (remote_path r) (local_path r) (file_size r) (file_hash r) (verified_up_to r)
    (last_checkpoint_ms r) (bytes_completed r) (staging_relpath r) (created_ms r) now.

(** [server_staging_path]. *)
Definition server_staging_path (dir : bytes) (id dest : bytes) : bytes := staging_path (mkBackend [] dir 0 false None) id dest.
Fixpoint trim_slashes (p : bytes) : bytes := match p with c :: p' => if c =? SLASH then trim_slashes p' else p | [] => [] end.

Section m3.
Context `{Zstd} {S : Type} `{StateStore S}.
Context (entropy_sum : list Z -> Z -> Q) (hash_of : bytes -> Hash) (ulid_text : TransferId -> bytes) (no_space : bytes -> bool).
Local Abbreviation N A := (M (session S) VelcruxError A).
Definition on_state {A} (c : M S StateStoreError A) : N A := map_error map_state_err (on_store c).

(** The file is read on from [pos], wherever the chunk is. *)
Fixpoint chunker_to_channel_fixed (fuel : nat) (chunk_size : Z) (content : bytes) (pos file_size total_chunks : Z) (bitmap : ChunkBitmap.t) (next_chunk : Z) : N unit :=
  if next_chunk <? total_chunks then
    match fuel with
    | O => fun x => (Crashed, x)
    | Datatypes.S fuel =>
        let offset := next_chunk * chunk_size in
        let want := Z.min (file_size - offset) chunk_size in
        let! buf := on_files (read_at content pos want) in
        if negb (zlen buf =? want) then throw (EInternal "client: file truncated") else
        let bitmap := (ChunkBitmap.mark_complete bitmap next_chunk (zlen buf)).1 in
        let! bytes := of_outcome (Data.encode_data_frame offset (wrap 32 (zlen buf)) Data.NONE (hash_of buf) buf) in
        let! _ := send_data bytes in
        let! next_chunk := first_missing bitmap (next_chunk + 1) total_chunks in
        chunker_to_channel_fixed fuel chunk_size content (pos + want) file_size total_chunks bitmap next_chunk
    end
  else ret tt.

(** The bitmap that is stored and told is the one given, the task has marked a copy. *)
Definition client_upload (j : job) (key local_path remote_path : bytes) (bitmap : ChunkBitmap.t) : N Hash :=
  let! now := read_clock in
  let record := client_record (tid j) key remote_path local_path (size j) (whole j) now in
  let! _ := on_state (upsert_transfer record) in
  let! pre := of_outcome (Data.encode_data_preamble (Data.mk_preamble (tid j) 1 1)) in
  let! _ := send_data pre in
  let! total_chunks := of_outcome (div_ceil (size j) M3_CHUNK_SIZE) in
  let! content := on_files (read_file local_path) in
  let! next_chunk := first_missing bitmap 0 total_chunks in
  let! _ := chunker_to_channel_fixed (Z.to_nat total_chunks) M3_CHUNK_SIZE content 0 (size j) total_chunks bitmap next_chunk in
  let! _ := on_state (write_bitmap (tid j) bitmap) in
  let! now := read_clock in
  let! _ := say entropy_sum (Message.MCheckpoint (MsgResume.Checkpoint.mk (tid j) (ChunkBitmap.bytes_completed bitmap) 0 now (ChunkBitmap.indices bitmap))) in
  let! _ := say entropy_sum (Message.MVerify (Verify.mk (tid j) (whole j))) in
  let! f := recv_ctl in
  if negb (Frame.type_byte f =? Message.VERIFY_RESULT) then throw (protocol_violation "client: expected VERIFY_RESULT") else
  let! vr := of_protocol (VerifyResult.decode (Frame.payload f)) in
  if negb (bool_decide (VerifyResult.transfer_id vr = tid j)) then throw (protocol_violation "VERIFY_RESULT transfer_id mismatch") else
  if negb (VerifyResult.matches vr) then throw (EProtocol (Malformed "whole-file hash mismatch")) else
  let! _ := say entropy_sum (Message.MCommit (Commit.mk (tid j))) in
  let! f := recv_ctl in
  if negb (Frame.type_byte f =? Message.COMMITTED) then throw (protocol_violation "client: expected COMMITTED") else
  let! _ := of_protocol (Committed.decode (Frame.payload f)) in
  let! now := read_clock in
  let! _ := on_state (update_transfer (set_committed record (size j) now)) in
  ret (VerifyResult.computed_hash vr).

(** ** The server *)

Definition recv_plain : N (option (Data.DataFrameHeader * bytes)) :=
  let! header := recv_data Data.DATA_FRAME_HEADER_LEN in
  match header with
  | None => ret None
  | Some header_bytes =>
      let! '(hdr, _) := of_protocol (Data.decode_data_frame_header header_bytes) in
      let! r := recv_data (Data.chunk_len hdr) in
      let! payload := match r with Some b => ret b | None => throw (protocol_violation "upload: chunk payload shorter than declared (stream EOF)") end in
      if negb (bool_decide (hash_of payload = Data.chunk_hash hdr)) then throw (EProtocol (Malformed "upload: chunk hash mismatch")) else ret (Some (hdr, payload))
  end.

(** [last_bytes] and [last_ms]: when the bitmap was stored last. *)
Fixpoint receive_m3 (fuel : nat) (j : job) (k : intake) (last_bytes last_ms : Z) : N intake :=
  match fuel with
  | O => fun x => (Crashed, x)
  | Datatypes.S fuel =>
      let! r := recv_plain in
      match r with
      | None => ret k
      | Some (hdr, payload) =>
          let chunk_index := Data.chunk_offset hdr / M3_CHUNK_SIZE in
          let streaming := bool_decide (whole j = HASH_ZERO) in
          let! k := (if streaming || negb (ChunkBitmap.contains (bm k) chunk_index) then
                       let! w := writer_write_at (writer k) (Data.chunk_offset hdr) payload in
                       let bm := if streaming then bm k else (ChunkBitmap.mark_complete (bm k) chunk_index (zlen payload)).1 in
                       ret (mkIntake bm w (saturating_add 64 (received k) (zlen payload)))
                     else ret k) in
          let! due := (if CHECKPOINT_BYTES_INTERVAL <=? received k - last_bytes then ret true
                       else let! now := read_clock in ret (CHECKPOINT_TIME_INTERVAL_MS <=? now - last_ms)) in
          if due then
            let! _ := on_state (write_bitmap (tid j) (bm k)) in
            let! now := read_clock in
            receive_m3 fuel j k (received k) now
          else receive_m3 fuel j k last_bytes last_ms
      end
  end.

Definition server_upload_session (b : Backend) (j : job) (key dst : bytes) (bitmap : ChunkBitmap.t) : N Hash :=
  let! now := read_clock in
  let record := server_record (tid j) key dst (size j) (whole j) now in
  let! _ := on_state (upsert_transfer record) in
  let record := with_staging record (ulid_text (tid j) ++ [SLASH] ++ trim_slashes dst) in
  let! _ := on_state (update_transfer record) in
  let! now := read_clock in
  let! _ := on_state (write_journal (mk_entry (tid j) 1 dst CPending now)) in
  let! pre := recv_data Data.DATA_PREAMBLE_LEN in
  let! pre := of_outcome (need pre) in
  let! preamble := of_protocol (Data.decode_data_preamble pre) in
  if negb (bool_decide (Data.transfer_id preamble = tid j)) then throw (protocol_violation "upload: transfer_id mismatch in preamble") else
  let! w := open_staging_resumable no_space b (ulid_text (tid j)) dst (size j) false in
  let! now := read_clock in
  let! k := (fun x => receive_m3 (Datatypes.S (length (avail (data_in x)))) j (mkIntake bitmap w (ChunkBitmap.bytes_completed bitmap)) (ChunkBitmap.bytes_completed bitmap) now x) in
  let! _ := fsync (writer k) in
  let! _ := on_state (write_bitmap (tid j) (bm k)) in
  let staging := server_staging_path (staging_dir b) (ulid_text (tid j)) dst in
  let! r := with_files (ok (try_exists staging)) in
  if negb (default false r) then throw (EInternal "server: staging file not found") else
  let! c := on_files (read_file staging) in
  let computed := hash_of c in
  let! f := recv_ctl in
  if negb (Frame.type_byte f =? Message.VERIFY) then throw (protocol_violation "server: expected VERIFY") else
  let! v := of_protocol (Verify.decode (Frame.payload f)) in
  if negb (bool_decide (Verify.transfer_id v = tid j)) || negb (bool_decide (whole j = HASH_ZERO)) && negb (bool_decide (Verify.expected_hash v = whole j))
  then throw (protocol_violation "server: VERIFY transfer_id/hash mismatch") else
  let good := if negb (bool_decide (whole j = HASH_ZERO)) then bool_decide (computed = whole j) else bool_decide (computed = Verify.expected_hash v) in
  let! _ := say entropy_sum (Message.MVerifyResult (VerifyResult.mk (tid j) good computed)) in
  let! f := recv_ctl in
  if negb (Frame.type_byte f =? Message.COMMIT) then throw (protocol_violation "server: expected COMMIT") else
  let! m := of_protocol (Commit.decode (Frame.payload f)) in
  if negb (bool_decide (Commit.transfer_id m = tid j)) then throw (protocol_violation "server: COMMIT transfer_id mismatch") else
  let! now := read_clock in
  let! _ := on_state (write_journal (mk_entry (tid j) 1 dst CRenamed now)) in
  let! actual_size := (if 0 <? size j then ret (size j) else with_files (let! r := ok (file_len (w_path w)) in ret (default 0 r))) in
  let! _ := commit b (w_path w) dst in
  let! _ := on_state (mark_journal_committed (tid j) 1) in
  let! _ := say entropy_sum (Message.MCommitted (Committed.mk (tid j) 1)) in
  let! now := read_clock in
  let! _ := on_state (update_transfer (set_committed record (size j) now)) in
  ret computed.

(** ** Resumption and cancellation *)

(** [by_key] is [get_transfer_by_idempotency] of the store. *)
Definition build_resume_state (by_key : Role -> bytes -> M S StateStoreError TransferRecord) (key : bytes) : M S VelcruxError (option ResumeState.t) :=
  let! r := map_error map_state_err (by_key Server key) in
  let! m := map_error map_state_err (read_bitmap (transfer_id r)) in
  ret (Some (ResumeState.mk (transfer_id r) (staging_relpath r) (file_size r) (bytes_completed r) (verified_up_to r) (file_hash r) (ChunkBitmap.indices m))).

(** [local]: the backend is the local one. *)
Definition drop_staging (b : Backend) (local : bool) (id : TransferId) (r : TransferRecord) : N unit :=
  match VPath.validate (remote_path r) with
  | Ok vp =>
      when local (
        let staging := server_staging_path (join_to (root b) (lit "staging")) (ulid_text id) vp in
        let! e := with_files (ok (try_exists staging)) in
        when (default false e) (ignore (on_files (remove_file staging))))
  | Err _ => ret tt
  | Panic => fun x => (Crashed, x)
  end.
Definition cancel_transfer (b : Backend) (local : bool) (id : TransferId) : N unit :=
  let! r := ok (on_store (get_transfer id)) in
  match r with
  | None => ret tt
  | Some r =>
      let! _ := drop_staging b local id r in
      let! now := read_clock in
      on_state (update_transfer (cancelled r now))
  end.
End m3.

(** ** Cancellation *)

Section cancel.
Context `{Zstd} {S : Type} `{StateStoreLaws S} (ulid_text : TransferId -> bytes) (b : Backend) (local : bool) (id : TransferId).

Definition cancel_path (r : TransferRecord) : bytes := server_staging_path (join_to (root b) (lit "staging")) (ulid_text id) (remote_path r).
Lemma keeps_store_with {A} (c : M fs VelcruxError A) : keeps (S:=S) store (with_files c).
Proof. intros x. unfold with_files. by destruct (c (files x)). Qed.
Lemma keeps_store_files {A} (c : M fs bytes A) : keeps (S:=S) store (on_files c).
Proof. intros x. unfold on_files. by destruct (map_error io_error c (files x)). Qed.
Lemma leaves_ignored {E F A} P (c : M (session S) E A) : leaves P c -> leaves P (@ignore _ _ F _ c).
Proof. intros Hc x p Hp. specialize (Hc x p Hp). unfold ignore. by destruct (c x) as [[a|e|] y]. Qed.

(** The staging file, if it is where it is looked for. *)
Lemma remove_staging r : keeps (S:=S) store (drop_staging ulid_text b local id r) /\ leaves (S:=S) (eq (cancel_path r)) (drop_staging ulid_text b local id r).
Proof.
  unfold drop_staging, cancel_path. destruct (VPath.validate (remote_path r)) as [vp|e|] eqn:E; [|by split|by split]. apply VPath.validate_ok_iff in E as [-> _]. destruct local; [|by split]. cbn [when]. split.
  - apply keeping_bind; [apply keeps_store_with|]. intros e. destruct (default false e); [|done]. apply keeping_ignore, keeps_store_files.
  - apply leaves_bind; [by apply leaves_with, only_ok, only_call|]. intros e. destruct (default false e); [|done]. apply leaves_ignored, leaves_files. by apply only_remove.
Qed.

(** Whichever calls fail and wherever the process dies: a cancellation changes no bitmap, no other record, and no file but the staging file of the
    transfer below the directory [staging] of the root; and when it succeeds the transfer is marked as cancelled, unless the store could not be asked for it. *)
Theorem cancel_marks x : sane (store x) ->
  let '(r, y) := cancel_transfer ulid_text b local id x in
  sane (store y) /\ bitmap_of (store y) = bitmap_of (store x) /\ (forall i, i <> id -> record_of (store y) i = record_of (store x) i) /\
  (forall p, disk (files y) !! p <> disk (files x) !! p -> exists rec, record_of (store x) id = Some rec /\ p = cancel_path rec) /\
  (r = Done tt -> (exists e, (get_transfer id (store x)).1 = Failed e) \/ exists rec now, record_of (store x) id = Some rec /\ record_of (store y) id = Some (cancelled rec now)).
Proof.
  intros Hs. unfold cancel_transfer. unfold bind at 1, ok, on_store. pose proof (get_transfer_law id (store x) Hs) as Hg.
  destruct (get_transfer id (store x)) as [[rec|e|] s1]; destruct Hg as (Hs1 & Hr1 & Hb1 & Hrec); cbn [fst]; cycle 1.
  { cbv beta iota delta [ret]. cbn [store files]. rewrite Hr1, Hb1. split_and!; try done. intros _. left. by eexists. }
  { cbv beta iota. cbn [store files]. rewrite Hr1, Hb1. by split_and!. }
  specialize (Hrec rec eq_refl). destruct (remove_staging rec) as [Hst Hlv].
  set (x1 := mkSession s1 (files x) (data_in x) (ctl_in x) (data_out x) (ctl_out x) (ticks x)). specialize (Hst x1). specialize (Hlv x1). unfold bind at 1.
  destruct (drop_staging ulid_text b local id rec x1) as [[u|e|] x2]; cbn [snd] in Hst, Hlv; change (store x1) with s1 in Hst; change (files x1) with (files x) in Hlv;
    [|rewrite Hst, Hr1, Hb1; split_and!; try done; intros p Hp; exists rec; split; [done|]; destruct (decide (p = cancel_path rec)) as [|Hn]; [done|]; by rewrite Hlv in Hp by congruence..].
  unfold bind, read_clock. cbn [ticks]. unfold on_state, map_error, on_store. cbn [store files]. rewrite Hst.
  set (now := default 0 (head (ticks x2))). assert (transfer_id rec = id) as Hid by (exact (sane_id (store x) id rec Hs Hrec)).
  pose proof (update_transfer_law (cancelled rec now) rec s1 Hs1 ltac:(cbn; by rewrite Hid, Hr1) eq_refl eq_refl) as Hu.
  assert (forall p, disk (files x2) !! p <> disk (files x) !! p -> exists rec, record_of (store x) id = Some rec /\ p = cancel_path rec) as Hdisk.
  { intros p Hp. exists rec. split; [done|]. destruct (decide (p = cancel_path rec)) as [|Hn]; [done|]. by rewrite Hlv in Hp by congruence. }
  assert (forall s2, same_but_record (cancelled rec now) s1 s2 -> bitmap_of s2 = bitmap_of (store x) /\ forall i, i <> id -> record_of s2 i = record_of (store x) i) as Hsame.
  { intros s2 [Hb Hi]. split; [congruence|]. intros i Hne. destruct (Hi i) as [Heq|[-> _]]; [by rewrite Heq, Hr1|by rewrite <- Hid in Hne]. }
  destruct (update_transfer (cancelled rec now) s1) as [[[]|e|] s2]; destruct Hu as (Hs2 & Hsb & Hdone); destruct (Hsame s2 Hsb) as [Hb2 Hr2]; cbn [store files]; split_and!; try done.
  intros _. right. exists rec, now. split; [done|]. rewrite <- Hid. by apply (Hdone tt).
Qed.
End cancel.

(** ** Examples *)

(** A client that skips the first of two chunks sends the first bytes of the file in the place of the second. *)
Lemma skip_sends_start `{Zstd} {S : Type} (hash_of : bytes -> Hash) (f : bytes) CS bitmap js nw s d di ci dout cout t :
  (forall b, wf_hash (hash_of b)) -> zlen f <= FILE_MAX -> 0 < CS <= Data.DATA_MAX_CHUNK_LEN -> CS < zlen f <= 2 * CS -> let want := zlen f - CS in let start := take (Z.to_nat want) f in
  chunker_to_channel_fixed (S:=S) hash_of 1 CS f 0 (zlen f) 2 bitmap 1 (mkSession s (mkWorld d js [] nw) di ci dout cout t)
  = (Done tt, mkSession s (mkWorld d js [] nw) di ci (dout ++ Data.header_bytes CS want Data.NONE (hash_of start) ++ start) cout t).
Proof.
  intros Hhash Hf Hcs Hz want start. cbn [chunker_to_channel_fixed]. change (1 <? 2) with true. cbv iota zeta. rewrite Z.mul_1_l. rewrite Z.min_l by lia. fold want.
  assert (zlen start = want) as Hl by (unfold start, zlen in *; rewrite length_take; lia).
  rewrite (bind_done _ _ _ start (mkSession s (mkWorld d js [] nw) di ci dout cout t)) by done. rewrite Hl, Z.eqb_refl. cbn [negb].
  rewrite wrap_small by (unfold fits, Data.DATA_MAX_CHUNK_LEN in *; lia). rewrite Data.data_frame_spec by apply Hhash.
  rewrite (bind_done _ _ _ (Data.header_bytes CS want Data.NONE (hash_of start) ++ start) (mkSession s (mkWorld d js [] nw) di ci dout cout t)) by done.
  rewrite (bind_done _ _ _ tt (mkSession s (mkWorld d js [] nw) di ci (dout ++ Data.header_bytes CS want Data.NONE (hash_of start) ++ start) cout t)) by done.
  assert ((zlen f + CS - 1) / CS = 2) as H2 by (symmetry; apply (Z.div_unique_pos _ _ _ (zlen f - CS - 1)); lia).
  edestruct (first_missing_run f js nw Hf CS Hcs (ChunkBitmap.mark_complete bitmap 1 want).1 2 s d di ci (dout ++ Data.header_bytes CS want Data.NONE (hash_of start) ++ start) cout t) as (n & Hn & Hge & _); [lia|].
  rewrite H2 in Hn. change (1 + 1) with 2. rewrite (bind_done _ _ _ _ _ Hn). by rewrite (proj2 (Z.ltb_ge n 2)).
Qed.

Module M3Examples.
Import TrimCodec UploadExamples ResumeExamples CompleteExamples.

Definition fresh : flaky := mkFlaky MockStateStore.new [] 700.
Definition m3_client (bitmap : ChunkBitmap.t) := client_upload (S:=flaky) flat num_hash J [] SRC DST bitmap.
Definition m3_server := server_upload_session (S:=flaky) flat num_hash ulid never backend J [] DST.
Definition data_of (f : bytes) : bytes := preamble J ++ Data.header_bytes 0 (zlen f) Data.NONE (num_hash f) ++ f.
Definition ctl_of : bytes := said (Message.MVerify (Verify.mk T1 (num_hash file))) ++ said (Message.MCommit (Commit.mk T1)).

(** A fresh upload by a client that sends no checkpoint arrives. *)
Example m3_runs : let '(r, y) := m3_server ChunkBitmap.new (start fresh ∅ [] (data_of file) ctl_of) in
  r = Done (num_hash file) /\ disk (files y) !! resolve backend DST = Some file.
Proof. vm_compute. done. Qed.
(** The server says that the hash does not match, and commits all the same. *)
Example m3_commits_mismatch : let '(r, y) := m3_server ChunkBitmap.new (start fresh ∅ [] (data_of [9; 9; 9; 9; 9; 9]) ctl_of) in
  r = Done (num_hash [9; 9; 9; 9; 9; 9]) /\ disk (files y) !! resolve backend DST = Some [9; 9; 9; 9; 9; 9].
Proof. vm_compute. done. Qed.
(** The client sends a CHECKPOINT before VERIFY; the server does not take it. *)
Example m3_halves_disagree : let '(_, y) := m3_client ChunkBitmap.new (start fresh disk0 [] [] answers) in
  (m3_server ChunkBitmap.new (start fresh ∅ [] (data_out y) (ctl_out y))).1 = Failed (protocol_violation "server: expected VERIFY").
Proof. vm_compute. done. Qed.
(** The bitmap that the client stores does not have the chunks that it sent. *)
Example m3_progress_lost : let '(r, y) := m3_client ChunkBitmap.new (start fresh disk0 [] [] answers) in
  r = Done (num_hash file) /\ MockStateStore.bitmaps (mock (store y)) !! T1 = Some ChunkBitmap.new.
Proof. vm_compute. done. Qed.
(** A resumed upload: the server believes the bitmap and truncates the staging file. *)
Example m3_resume_truncates : let '(r, y) := m3_server one (start fresh staged_disk [] (preamble J) ctl_of) in
  r = Done (num_hash [0; 0; 0; 0; 0; 0]) /\ disk (files y) !! resolve backend DST = Some [0; 0; 0; 0; 0; 0].
Proof. vm_compute. done. Qed.

(** A cancellation looks for the staging file below the root and not in the staging directory. *)
Definition x_cancel : session flaky := start S0 staged_disk [] [] [].
Lemma cancel_marks_witness : let '(r, y) := cancel_transfer ulid backend true T1 x_cancel in
  sane (store y) /\ bitmap_of (store y) = bitmap_of (store x_cancel) /\ (forall i, i <> T1 -> record_of (store y) i = record_of (store x_cancel) i) /\
  (forall p, disk (files y) !! p <> disk (files x_cancel) !! p -> exists rec, record_of (store x_cancel) T1 = Some rec /\ p = cancel_path ulid backend T1 rec) /\
  (r = Done tt -> (exists e, (get_transfer T1 (store x_cancel)).1 = Failed e) \/ exists rec now, record_of (store x_cancel) T1 = Some rec /\ record_of (store y) T1 = Some (cancelled rec now)).
Proof. apply (cancel_marks ulid backend true T1 x_cancel). apply CheckpointExamples.store_sane. Defined.
Example cancel_keeps_staging : let '(r, y) := cancel_transfer ulid backend true T1 x_cancel in
  r = Done tt /\ disk (files y) = staged_disk /\ (status <$> MockStateStore.transfers_by_id (mock (store y)) !! T1) = Some Cancelled.
Proof. vm_compute. done. Qed.
(** No row for the key is an error, not [None]. *)
Example resume_unknown_fails : (build_resume_state (fun r k => flake (fun g _ => let? x := MockStateStore.get_transfer_by_idempotency g r k in Ok (x, g))) [7] fresh).1 = Failed (EInternal "state store").
Proof. vm_compute. done. Qed.
End M3Examples.
