(* ===== verification/SlidingWindow.v ===== *)
(** * Sliding windows

    The limiters of transport/migration.rs and auth/mod.rs keep, per client, the times of what they
    let through, drop those that left the window, and refuse when the rest reaches the limit. This file
    holds what such a list of times is worth: [tracked] relates it to all times so far, and [limited]
    is the promise that no window holds more than the limit. *)

From S2P Require Import Prelude.

Definition in_window (a len : Z) (ts : list Z) : list Z := filter (fun x => a <= x <= a + len) ts.

(** At most [limit] of the times lie in any window of [len]. *)
Definition limited (limit len : Z) (ts : list Z) : Prop :=
  forall a, 0 <= a -> zlen (in_window a len ts) <= limit.

(** [kept] agrees with all times [ts] on the window that ends at [now]. *)
Definition tracked (len now : Z) (ts kept : list Z) : Prop :=
  Forall (fun x => x <= now) ts /\
  forall w, saturating_sub now len <= w -> filter (fun x => w <= x) ts = filter (fun x => w <= x) kept.

Lemma filter_weaken (P Q : Z -> Prop) `{!forall x, Decision (P x), !forall x, Decision (Q x)} (l : list Z) :
  (forall x, P x -> Q x) -> filter P (filter Q l) = filter P l.
Proof. intros. rewrite list_filter_filter. apply list_filter_iff. naive_solver. Qed.

Lemma filter_agree (P Q : Z -> Prop) `{!forall x, Decision (P x), !forall x, Decision (Q x)} (l : list Z) :
  Forall (fun x => P x <-> Q x) l -> filter P l = filter Q l.
Proof.
  induction 1 as [|x l Hx _ IH]; [done|]. rewrite !filter_cons, IH.
  repeat case_decide; naive_solver.
Qed.

Lemma tracked_nil len now : tracked len now [] [].
Proof. split; [constructor|done]. Qed.

Lemma tracked_later len now now' ts kept : now <= now' -> tracked len now ts kept -> tracked len now' ts kept.
Proof.
  intros Hn [Hle Ht]. split; [eapply Forall_impl; [exact Hle|]; simpl; lia|].
  intros w Hw. apply Ht. unfold saturating_sub in *. lia.
Qed.

(** Dropping what left the window keeps the list in step. *)
Lemma tracked_retain len now ts kept : tracked len now ts kept ->
  tracked len now ts (filter (fun x => saturating_sub now len <= x) kept).
Proof. intros [Hle Ht]. split; [done|]. intros w Hw. rewrite (Ht w Hw). symmetry. apply filter_weaken. lia. Qed.

Lemma tracked_snoc len now ts kept : tracked len now ts kept -> tracked len now (ts ++ [now]) (kept ++ [now]).
Proof.
  intros [Hle Ht]. split; [apply Forall_app; by repeat constructor|].
  intros w Hw. by rewrite !filter_app, Ht.
Qed.

Lemma limited_nil limit len : 0 <= limit -> limited limit len [].
Proof. by intros ? a _. Qed.

(** One more time is within the limit when fewer were kept. *)
Lemma limited_snoc limit len now ts kept : limited limit len ts -> tracked len now ts kept -> zlen kept < limit ->
  limited limit len (ts ++ [now]).
Proof.
  intros Hb [Hle Ht] Hl a Ha. unfold in_window. rewrite filter_app, filter_cons, filter_nil.
  case_decide as D; [|rewrite app_nil_r; by apply Hb].
  assert (in_window a len ts = filter (fun x => a <= x) ts) as E.
  { apply filter_agree. eapply Forall_impl; [exact Hle|]. simpl. lia. }
  unfold in_window in E. rewrite E, Ht by (unfold saturating_sub; lia).
  pose proof (length_filter (fun x => a <= x) kept). unfold zlen in *. rewrite length_app. simpl. lia.
Qed.
