(* ===== verification/Migration.v ===== *)
(** * Connection migration, transport/migration.rs

    [MigrationCoordinator]: the gate that decides whether a connection may change its remote
    address. The addresses and their texts are those of [std::net]; the mutex around the
    connections is held for the whole of every call, so that calls run one after the other. The
    clock readings of a call are arguments; [sent] is what went into the broadcast channel. *)

From S2P Require Import Prelude Utf8 Paths SlidingWindow.

Module Net.
(** [IpAddr]: the four octets of an IPv4 address, the eight segments of an IPv6 address. *)
Inductive IpAddr := V4 (octets : list Z) | V6 (segments : list Z).
(** [SocketAddr]; an IPv6 address carries its flow label and scope as well. *)
Inductive SocketAddr :=
| SocketV4 (octets : list Z) (port : Z)
| SocketV6 (segments : list Z) (port flowinfo scope_id : Z).
#[global] Instance SocketAddr_eq_dec : EqDecision SocketAddr.
Proof. solve_decision. Defined.

Definition ip (a : SocketAddr) : IpAddr :=
  match a with SocketV4 o _ => V4 o | SocketV6 g _ _ _ => V6 g end.

Definition is_loopback (a : IpAddr) : bool :=
  match a with
  | V4 o => match o with x :: _ => x =? 127 | [] => false end
  | V6 g => bool_decide (g = [0; 0; 0; 0; 0; 0; 0; 1])
  end.

(** [{:x}] of a [u16]. *)
Definition hex_digit (v : Z) : Z := if v <? 10 then 48 + v else 87 + v.
Fixpoint hex_loop (fuel : nat) (v : Z) (acc : bytes) : bytes :=
  match fuel with
  | O => acc
  | S f => let acc' := hex_digit (v mod 16) :: acc in
           if v / 16 =? 0 then acc' else hex_loop f (v / 16) acc'
  end.
Definition hex (v : Z) : bytes := hex_loop 4 v [].

Definition separated (sep : bytes) (parts : list bytes) : bytes :=
  match parts with [] => [] | x :: xs => x ++ mjoin (app sep <$> xs) end.
Definition show_v4 (o : list Z) : bytes := separated (Utf8.str_bytes ".") (Utf8.decimal <$> o).
Definition show_segments (g : list Z) : bytes := separated (Utf8.str_bytes ":") (hex <$> g).

(** The first of the longest runs of zero segments, as its start and length. *)
Fixpoint longest_zeros (i : Z) (g : list Z) (cur best : Z * Z) : Z * Z :=
  match g with
  | [] => best
  | x :: g' =>
      if x =? 0 then
        let c := ((if cur.2 =? 0 then i else cur.1), cur.2 + 1) in
        longest_zeros (i + 1) g' c (if best.2 <? c.2 then c else best)
      else longest_zeros (i + 1) g' (0, 0) best
  end.

Definition show_v6 (g : list Z) : bytes :=
  match g with
  | [0; 0; 0; 0; 0; 65535; ab; cd] =>
      Utf8.str_bytes "::ffff:" ++ show_v4 [ab / 256; ab mod 256; cd / 256; cd mod 256]
  | _ =>
      let '(start, len) := longest_zeros 0 g (0, 0) (0, 0) in
      if 1 <? len
      then show_segments (take (Z.to_nat start) g) ++ Utf8.str_bytes "::" ++
           show_segments (drop (Z.to_nat (start + len)) g)
      else show_segments g
  end.

Definition to_string (a : IpAddr) : bytes := match a with V4 o => show_v4 o | V6 g => show_v6 g end.
End Net.
Import Net.

Inductive MigrationPolicyMode := Permissive | Gated | Disabled.
#[global] Instance MigrationPolicyMode_eq_dec : EqDecision MigrationPolicyMode.
Proof. solve_decision. Defined.

Record MigrationPolicy := mkMigrationPolicy {
  mode : MigrationPolicyMode;
  max_migrations_per_window : Z;
  rate_window_secs : Z;
  allowed_subnets : list bytes;
  disallow_loopback_migration : bool }.

Definition default_policy : MigrationPolicy := mkMigrationPolicy Permissive 5 60 [] false.

Inductive MigrationDecision :=
| Allowed
| NoChange
| RejectedDisabled
| RejectedRateLimitExceeded (count limit : Z)
| RejectedSubnetDisallowed (addr : SocketAddr).

Definition is_allowed (d : MigrationDecision) : bool :=
  match d with Allowed | NoChange => true | _ => false end.

Record MigrationEvent := mkMigrationEvent {
  connection_id : Z;
  prev_addr : SocketAddr;
  new_addr : SocketAddr;
  timestamp_ms : Z;
  rtt : Z;
  event_identity : option bytes }.

(** Counters wrap, as [AtomicU64::fetch_add] does. *)
Record MigrationStats := mkMigrationStats {
  migrations_total : Z;
  migrations_accepted : Z;
  migrations_rejected : Z;
  active_monitored_conns : Z }.
Definition no_stats : MigrationStats := mkMigrationStats 0 0 0 0.

Definition bump_total (s : MigrationStats) : MigrationStats :=
  mkMigrationStats (wrap 64 (migrations_total s + 1)) (migrations_accepted s) (migrations_rejected s)
    (active_monitored_conns s).
Definition bump_accepted (s : MigrationStats) : MigrationStats :=
  mkMigrationStats (migrations_total s) (wrap 64 (migrations_accepted s + 1)) (migrations_rejected s)
    (active_monitored_conns s).
Definition bump_rejected (s : MigrationStats) : MigrationStats :=
  mkMigrationStats (migrations_total s) (migrations_accepted s) (wrap 64 (migrations_rejected s + 1))
    (active_monitored_conns s).
Definition add_active (n : Z) (s : MigrationStats) : MigrationStats :=
  mkMigrationStats (migrations_total s) (migrations_accepted s) (migrations_rejected s)
    (wrap 64 (active_monitored_conns s + n)).

Record ConnectionRecord := mkConnectionRecord {
  current_addr : SocketAddr;
  peer_identity : option bytes;
  migration_timestamps : list Z }.

Module Migration.
Record t := mk {
  policy : MigrationPolicy;
  stats : MigrationStats;
  connections : gmap Z ConnectionRecord;
  sent : list MigrationEvent }.

Definition new (p : MigrationPolicy) (s : MigrationStats) : t := mk p s ∅ [].

Definition with_stats (c : t) (f : MigrationStats -> MigrationStats) : t :=
  mk (policy c) (f (stats c)) (connections c) (sent c).
Definition put (c : t) (id : Z) (r : ConnectionRecord) : t :=
  mk (policy c) (stats c) (<[id := r]> (connections c)) (sent c).

Definition register_connection (c : t) (id : Z) (addr : SocketAddr) (who : option bytes) : t :=
  with_stats (put c id (mkConnectionRecord addr who [])) (add_active 1).

Definition unregister_connection (c : t) (id : Z) : t :=
  match connections c !! id with
  | Some _ => with_stats (mk (policy c) (stats c) (delete id (connections c)) (sent c)) (add_active (-1))
  | None => c
  end.

(** The checks of the gated mode: the record, its old timestamps dropped once the rate limit is
    looked at, and the refusal if there is one. *)
Definition gate (p : MigrationPolicy) (now_sec : Z) (r : ConnectionRecord) (addr : SocketAddr)
    : ConnectionRecord * option MigrationDecision :=
  if disallow_loopback_migration p && negb (is_loopback (ip (current_addr r))) && is_loopback (ip addr)
  then (r, Some (RejectedSubnetDisallowed addr))
  else if negb (bool_decide (allowed_subnets p = [])) &&
          negb (existsb (fun pre => Str.starts_with pre (to_string (ip addr))) (allowed_subnets p))
  then (r, Some (RejectedSubnetDisallowed addr))
  else
    let window_start := saturating_sub now_sec (rate_window_secs p) in
    let r' := mkConnectionRecord (current_addr r) (peer_identity r)
                (filter (fun ts => window_start <= ts) (migration_timestamps r)) in
    let count := zlen (migration_timestamps r') in
    if max_migrations_per_window p <=? count
    then (r', Some (RejectedRateLimitExceeded count (max_migrations_per_window p)))
    else (r', None).

Definition evaluate_migration (c : t) (now_sec now_ms : Z) (id : Z) (addr : SocketAddr) (d : Z)
    : t * MigrationDecision :=
  match connections c !! id with
  | None => (with_stats (put c id (mkConnectionRecord addr None [])) (add_active 1), NoChange)
  | Some r =>
      if decide (current_addr r = addr) then (c, NoChange)
      else
        let c := with_stats c bump_total in
        match mode (policy c) with
        | Disabled => (with_stats c bump_rejected, RejectedDisabled)
        | m =>
            let '(r', refused) := match m with Gated => gate (policy c) now_sec r addr | _ => (r, None) end in
            match refused with
            | Some no => (with_stats (put c id r') bump_rejected, no)
            | None =>
                let c := with_stats (put c id (mkConnectionRecord addr (peer_identity r')
                           (migration_timestamps r' ++ [now_sec]))) bump_accepted in
                (mk (policy c) (stats c) (connections c)
                   (sent c ++ [mkMigrationEvent id (current_addr r') addr now_ms d (peer_identity r')]), Allowed)
            end
        end
  end.

(** ** Calls in a sequence *)
Inductive call :=
| Register (id : Z) (addr : SocketAddr) (who : option bytes)
| Unregister (id : Z)
| Evaluate (now_sec now_ms : Z) (id : Z) (addr : SocketAddr) (d : Z).

Definition step (c : t) (k : call) : t :=
  match k with
  | Register id addr who => register_connection c id addr who
  | Unregister id => unregister_connection c id
  | Evaluate s m id addr d => (evaluate_migration c s m id addr d).1
  end.
Definition run (c : t) (ks : list call) : t := foldl step c ks.

(** What a call answered, and the seconds at which calls moved the connection [id]. *)
Definition answer (c : t) (k : call) : option MigrationDecision :=
  match k with Evaluate s m id addr d => Some (evaluate_migration c s m id addr d).2 | _ => None end.
Definition moved_at (id : Z) (c : t) (k : call) : list Z :=
  match k, answer c k with
  | Evaluate s _ id' _ _, Some Allowed => if id' =? id then [s] else []
  | _, _ => []
  end.
Fixpoint moves (id : Z) (c : t) (ks : list call) : list Z :=
  match ks with [] => [] | k :: ks' => moved_at id c k ++ moves id (step c k) ks' end.

(** The connection [id] is neither registered nor unregistered by the call. *)
Definition keeps (id : Z) (k : call) : Prop :=
  match k with Register i _ _ | Unregister i => i <> id | Evaluate _ _ _ _ _ => True end.
(** The clock does not run backwards from [now]. *)
Fixpoint clock_ok (now : Z) (ks : list call) : Prop :=
  match ks with
  | [] => True
  | Evaluate s _ _ _ _ :: ks' => now <= s /\ clock_ok s ks'
  | _ :: ks' => clock_ok now ks'
  end.

(** ** Properties *)
Section Facts.
Implicit Types (c : t) (k : call) (r : ConnectionRecord).

(** The three ways a call of [evaluate_migration] on a known connection ends. *)
Inductive evaluated (c : t) (now now_ms id : Z) (addr : SocketAddr) (d : Z) : t * MigrationDecision -> Prop :=
| Ev_new : connections c !! id = None ->
    evaluated c now now_ms id addr d
      (with_stats (put c id (mkConnectionRecord addr None [])) (add_active 1), NoChange)
| Ev_same r : connections c !! id = Some r -> current_addr r = addr -> evaluated c now now_ms id addr d (c, NoChange)
| Ev_refused r r' no : connections c !! id = Some r -> current_addr r <> addr ->
    r' = r \/ mode (policy c) = Gated /\ r' = (gate (policy c) now r addr).1 ->
    is_allowed no = false ->
    evaluated c now now_ms id addr d
      (with_stats (put (with_stats c bump_total) id r') bump_rejected, no)
| Ev_moved r r' : connections c !! id = Some r -> current_addr r <> addr ->
    mode (policy c) = Permissive /\ r' = r \/
    mode (policy c) = Gated /\ gate (policy c) now r addr = (r', None) ->
    evaluated c now now_ms id addr d
      (mk (policy c) (bump_accepted (bump_total (stats c)))
         (<[id := mkConnectionRecord addr (peer_identity r') (migration_timestamps r' ++ [now])]> (connections c))
         (sent c ++ [mkMigrationEvent id (current_addr r') addr now_ms d (peer_identity r')]), Allowed).

Lemma gate_refuses p now r addr r' no : gate p now r addr = (r', Some no) -> is_allowed no = false.
Proof. unfold gate. intros. repeat case_match; simplify_eq; done. Qed.

Lemma evaluate_cases c now now_ms id addr d :
  evaluated c now now_ms id addr d (evaluate_migration c now now_ms id addr d).
Proof.
  unfold evaluate_migration. destruct (connections c !! id) as [r|] eqn:Hr; [|by apply Ev_new].
  destruct (decide _) as [?|Hne]; [by eapply Ev_same|]. simpl.
  destruct (mode (policy c)) eqn:Hm.
  - eapply (Ev_moved _ _ _ _ _ _ r r); eauto.
  - destruct (gate _ _ _ _) as [r' [no|]] eqn:G.
    + eapply Ev_refused; eauto using gate_refuses. right. by rewrite G.
    + eapply (Ev_moved _ _ _ _ _ _ r r'); eauto.
  - assert (with_stats (with_stats c bump_total) bump_rejected =
            with_stats (put (with_stats c bump_total) id r) bump_rejected) as ->
      by (unfold with_stats, put; simpl; by rewrite insert_id).
    eapply Ev_refused; eauto.
Qed.

(** A call that passes the gate: what was checked. *)
Lemma gate_passes p now r addr r' : gate p now r addr = (r', None) ->
  current_addr r' = current_addr r /\ peer_identity r' = peer_identity r /\
  migration_timestamps r' = filter (fun ts => saturating_sub now (rate_window_secs p) <= ts) (migration_timestamps r) /\
  zlen (migration_timestamps r') < max_migrations_per_window p /\
  (disallow_loopback_migration p = true -> is_loopback (ip addr) = true ->
   is_loopback (ip (current_addr r)) = true) /\
  (allowed_subnets p = [] \/
   exists pre, pre ∈ allowed_subnets p /\ Str.starts_with pre (to_string (ip addr)) = true).
Proof.
  unfold gate. destruct (_ && _ && _) eqn:L; [done|]. destruct (negb _ && _) eqn:N; [done|].
  simpl. case_match eqn:M; [done|]. intros [= <-]. simpl. repeat split; try done; [lia| |].
  - intros D A. rewrite D, A in L. by destruct (is_loopback _).
  - apply andb_false_iff in N as [N|N]; apply negb_false_iff in N.
    + left. by apply bool_decide_eq_true in N.
    + right. apply existsb_exists in N as (pre & Hin & ?). exists pre. by rewrite list_elem_of_In.
Qed.

Lemma gate_record p now r addr :
  (gate p now r addr).1 = r \/
  (gate p now r addr).1 = mkConnectionRecord (current_addr r) (peer_identity r)
    (filter (fun ts => saturating_sub now (rate_window_secs p) <= ts) (migration_timestamps r)).
Proof. unfold gate. repeat case_match; simpl; auto. Qed.

Lemma step_policy c k : policy (step c k) = policy c.
Proof.
  destruct k; simpl; [done| |].
  - unfold unregister_connection. by case_match.
  - by destruct (evaluate_cases c now_sec now_ms id addr d).
Qed.

(** *** The rate limit *)

(** [ts] are the seconds at which [id] moved so far: the record still holds those of the window. *)
Definition tracks (id now : Z) (ts : list Z) (c : t) : Prop :=
  match connections c !! id with
  | None => ts = []
  | Some r => tracked (rate_window_secs (policy c)) now ts (migration_timestamps r)
  end.

Lemma tracks_later id now now' ts c : now <= now' -> tracks id now ts c -> tracks id now' ts c.
Proof. unfold tracks. case_match; [by apply tracked_later|done]. Qed.

Lemma lookup_other c k id : keeps id k ->
  (forall s m a d, k <> Evaluate s m id a d) -> connections (step c k) !! id = connections c !! id.
Proof.
  intros K N. destruct k as [i a who|i|s m i a d]; simpl in *.
  - by apply lookup_insert_ne.
  - unfold unregister_connection. case_match; [|done]. by apply lookup_delete_ne.
  - assert (i <> id) by (intros ->; by eapply N).
    destruct (evaluate_cases c s m i a d); simpl; try done; by apply lookup_insert_ne.
Qed.

Lemma track_other c k id now ts : keeps id k -> (forall s m a d, k <> Evaluate s m id a d) ->
  tracks id now ts c -> tracks id now ts (step c k) /\ moved_at id c k = [].
Proof.
  intros K N Ht. split; [unfold tracks; by rewrite lookup_other, step_policy|].
  destruct k as [| |s m i a d]; try done. unfold moved_at. simpl.
  clear Ht. repeat case_match; try done. assert (i = id) as -> by lia. by edestruct N.
Qed.

Lemma track_evaluate c id now s m a d ts : mode (policy c) = Gated -> now <= s ->
  tracks id now ts c -> limited (max_migrations_per_window (policy c)) (rate_window_secs (policy c)) ts ->
  let k := Evaluate s m id a d in
  tracks id s (ts ++ moved_at id c k) (step c k) /\
  limited (max_migrations_per_window (policy c)) (rate_window_secs (policy c)) (ts ++ moved_at id c k).
Proof.
  intros Hm Hn Ht Hb k. apply (tracks_later _ _ s) in Ht; [|done]. subst k. unfold moved_at, tracks in *. simpl.
  rewrite Z.eqb_refl.
  destruct (evaluate_cases c s m id a d) as [Hr|r Hr _|r r' no Hr _ Hg Hno|r r' Hr _ Hg]; simpl; rewrite Hr in Ht.
  - subst ts. rewrite lookup_insert_eq. split; [apply tracked_nil|done].
  - rewrite app_nil_r, Hr. done.
  - assert (match no with Allowed => [s] | _ => [] end = []) as -> by by destruct no.
    rewrite app_nil_r, lookup_insert_eq. split; [|done]. destruct Hg as [->|[_ ->]]; [done|].
    destruct (gate_record (policy c) s r a) as [->| ->]; [done|]. by apply tracked_retain.
  - destruct Hg as [[? ?]|[_ Hg]]; [congruence|]. apply gate_passes in Hg as (_ & _ & El & Hlt & _).
    apply tracked_retain in Ht. rewrite <- El in Ht.
    rewrite lookup_insert_eq. split; [by apply tracked_snoc|by eapply limited_snoc].
Qed.

Lemma track_step c k id now ts : mode (policy c) = Gated -> clock_ok now [k] -> keeps id k ->
  tracks id now ts c -> limited (max_migrations_per_window (policy c)) (rate_window_secs (policy c)) ts ->
  let now' := match k with Evaluate s _ _ _ _ => s | _ => now end in
  tracks id now' (ts ++ moved_at id c k) (step c k) /\ limited (max_migrations_per_window (policy c)) (rate_window_secs (policy c)) (ts ++ moved_at id c k).
Proof.
  intros Hm Hc K Ht Hb.
  assert ((exists s m a d, k = Evaluate s m id a d) \/ forall s m a d, k <> Evaluate s m id a d)
    as [(s & m & a & d & ->)|N].
  { destruct k as [| |s m i a d]; [by right|by right|]. destruct (decide (i = id)) as [->|]; [left; eauto|].
    right. congruence. }
  - apply track_evaluate with now; naive_solver.
  - destruct (track_other c k id now ts) as [? ->]; [done..|]. rewrite app_nil_r. split; [|done].
    destruct k; simpl in *; try done. eapply tracks_later; [|done]. lia.
Qed.

Lemma track_run ks c id now ts : mode (policy c) = Gated -> clock_ok now ks -> Forall (keeps id) ks ->
  tracks id now ts c -> limited (max_migrations_per_window (policy c)) (rate_window_secs (policy c)) ts -> limited (max_migrations_per_window (policy c)) (rate_window_secs (policy c)) (ts ++ moves id c ks).
Proof.
  revert c now ts. induction ks as [|k ks IH]; intros c now ts Hm Hc HK Ht Hb; simpl; [by rewrite app_nil_r|].
  inversion_clear HK. rewrite app_assoc, <- (step_policy c k).
  destruct (track_step c k id now ts) as [Ht' Hb']; [done| |done..|].
  { destruct k; simpl in *; naive_solver. }
  eapply IH with (now := match k with Evaluate s _ _ _ _ => s | _ => now end); try rewrite step_policy; try done.
  destruct k; simpl in *; naive_solver.
Qed.

(** Between two registrations of a connection, with a clock that does not run backwards, a gated
    coordinator lets it move at most [max_migrations_per_window] times in any span of
    [rate_window_secs] seconds, whatever other calls run in between. *)
Theorem rate_limited c ks id now a : mode (policy c) = Gated -> 0 <= max_migrations_per_window (policy c) ->
  clock_ok now ks -> Forall (keeps id) ks ->
  (forall r, connections c !! id = Some r -> migration_timestamps r = []) -> 0 <= a ->
  zlen (in_window a (rate_window_secs (policy c)) (moves id c ks)) <= max_migrations_per_window (policy c).
Proof.
  intros Hm H0 Hc HK Hr Ha. revert a Ha. apply (track_run ks c id now []); [done..| |by apply limited_nil].
  unfold tracks. case_match; [|done]. rewrite (Hr _ eq_refl). apply tracked_nil.
Qed.

(** *** The counters *)
Definition counted (s : MigrationStats) : Prop :=
  migrations_total s = wrap 64 (migrations_accepted s + migrations_rejected s).

Lemma counted_step c k : counted (stats c) -> counted (stats (step c k)).
Proof.
  unfold counted. intros H. destruct k as [| |s m i a d]; simpl; [done| |].
  - unfold unregister_connection. by case_match.
  - destruct (evaluate_cases c s m i a d); simpl; try done; rewrite H; unfold wrap;
      rewrite ?Zplus_mod_idemp_l, ?Zplus_mod_idemp_r; f_equal; lia.
Qed.

(** Every attempt is counted once, as accepted or as rejected. *)
Theorem attempts_counted c ks : counted (stats c) -> counted (stats (run c ks)).
Proof. revert c. induction ks; intros c H; [done|]. apply IHks. by apply counted_step. Qed.

Definition active_exact (c : t) : Prop := active_monitored_conns (stats c) = wrap 64 (Z.of_nat (size (connections c))).
(** The call does not register a connection that is already there. *)
Definition fresh (c : t) (k : call) : Prop :=
  match k with Register id _ _ => connections c !! id = None | _ => True end.
Fixpoint all_fresh (c : t) (ks : list call) : Prop :=
  match ks with [] => True | k :: ks' => fresh c k /\ all_fresh (step c k) ks' end.

Lemma size_insert_present (id : Z) (r r' : ConnectionRecord) (m : gmap Z ConnectionRecord) :
  m !! id = Some r -> size (<[id := r']> m) = size m.
Proof. intros H. rewrite map_size_insert, H. done. Qed.

Lemma active_step c k : fresh c k -> active_exact c -> active_exact (step c k).
Proof.
  unfold active_exact. intros F H. destruct k as [i a who|i|s m i a d]; simpl in *.
  - rewrite H, map_size_insert, F. unfold wrap. rewrite Zplus_mod_idemp_l. f_equal. simpl. lia.
  - unfold unregister_connection. case_match eqn:E; [|done]. simpl. rewrite H, map_size_delete, E.
    assert (size (connections c) <> 0%nat).
    { rewrite map_size_non_empty_iff. intros Z0. by rewrite Z0 in E. }
    unfold wrap. rewrite Zplus_mod_idemp_l. f_equal. simpl. lia.
  - destruct (evaluate_cases c s m i a d) as [Hr|r Hr _|r r' no Hr _ Hg Hno|r r' Hr _ Hg]; simpl; try done.
    + rewrite H, map_size_insert, Hr. unfold wrap. rewrite Zplus_mod_idemp_l. f_equal. simpl. lia.
    + by rewrite (size_insert_present _ r).
    + by rewrite (size_insert_present _ r).
Qed.

(** As long as no registration meets a connection that is still registered, the gauge of active
    connections is the number of connections. *)
Theorem active_counted c ks : all_fresh c ks -> active_exact c -> active_exact (run c ks).
Proof. revert c. induction ks; intros c F H; [done|]. destruct F. apply IHks; [done|]. by apply active_step. Qed.

(** *** The gate *)

(** What the policy promises of an event: the address changed, migration is not disabled, and in
    the gated mode the new address has an allowed prefix and is not a forbidden loopback address. *)
Definition permitted (p : MigrationPolicy) (e : MigrationEvent) : Prop :=
  prev_addr e <> new_addr e /\ mode p <> Disabled /\
  (mode p = Gated ->
    (disallow_loopback_migration p = true -> is_loopback (ip (new_addr e)) = true ->
     is_loopback (ip (prev_addr e)) = true) /\
    (allowed_subnets p = [] \/
     exists pre, pre ∈ allowed_subnets p /\ Str.starts_with pre (to_string (ip (new_addr e))) = true)).

Lemma permitted_step c k : Forall (permitted (policy c)) (sent c) -> Forall (permitted (policy c)) (sent (step c k)).
Proof.
  intros H. destruct k as [| |s m i a d]; simpl; [done| |].
  - unfold unregister_connection. by case_match.
  - destruct (evaluate_cases c s m i a d) as [| | |r r' Hr Hne Hg]; simpl; try done.
    apply Forall_app; split; [done|]. constructor; [|done]. unfold permitted. simpl.
    destruct Hg as [[Hm ->]|[Hm Hg]]; [rewrite Hm; naive_solver|].
    apply gate_passes in Hg as (-> & _ & _ & _ & Hl & Hs). rewrite Hm. naive_solver.
Qed.

(** Every migration that was announced is one the policy permits. *)
Theorem announced_permitted p st ks : Forall (permitted p) (sent (run (new p st) ks)).
Proof.
  assert (forall c, policy c = p -> Forall (permitted p) (sent c) -> Forall (permitted p) (sent (run c ks))) as G;
    [|by apply G].
  induction ks as [|k ks IH]; intros c <- H; [done|]. simpl. apply IH; [by apply step_policy|]. by apply permitted_step.
Qed.

(** *** Continuity *)

(** A connection's address is the last one announced since its registration: [chain a es b] says
    that the events lead from [a] to [b] without a gap. *)
Fixpoint chain (a : SocketAddr) (es : list MigrationEvent) (b : SocketAddr) : Prop :=
  match es with [] => a = b | e :: es' => prev_addr e = a /\ chain (new_addr e) es' b end.
Definition of_connection (id : Z) (es : list MigrationEvent) : list MigrationEvent :=
  filter (fun e => connection_id e = id) es.

Lemma chain_snoc a es b e : chain a es b -> prev_addr e = b -> chain a (es ++ [e]) (new_addr e).
Proof. revert a. induction es as [|e' es IH]; intros a H P; simpl in *; [naive_solver|]. destruct H. eauto. Qed.

Lemma chain_step c k id r a es : keeps id k -> connections c !! id = Some r -> chain a es (current_addr r) ->
  exists more r', sent (step c k) = sent c ++ more /\ connections (step c k) !! id = Some r' /\
    peer_identity r' = peer_identity r /\ chain a (es ++ of_connection id more) (current_addr r').
Proof.
  intros K Hr Hc. destruct k as [i b who|i|s m i b d]; simpl in *.
  - exists [], r. rewrite !app_nil_r, lookup_insert_ne; auto.
  - exists [], r. rewrite !app_nil_r. unfold unregister_connection. case_match; [|done].
    simpl. rewrite lookup_delete_ne; auto.
  - destruct (decide (i = id)) as [->|Hne].
    + destruct (evaluate_cases c s m id b d) as [?|r0 Hr0 _|r0 r' no Hr0 _ Hg Hno|r0 r' Hr0 _ Hg]; simplify_eq/=.
      * exists [], r. by rewrite !app_nil_r.
      * exists [], r'. rewrite !app_nil_r, lookup_insert_eq.
        destruct Hg as [->|[_ ->]]; [done|]. by destruct (gate_record (policy c) s r b) as [->| ->].
      * assert (current_addr r' = current_addr r /\ peer_identity r' = peer_identity r) as [Ea Ei].
        { destruct Hg as [[_ ->]|[_ Hg]]; [done|]. apply gate_passes in Hg. tauto. }
        eexists _, _. split; [done|]. rewrite lookup_insert_eq. split; [done|]. split; [done|].
        unfold of_connection. rewrite filter_cons, filter_nil, decide_True by done.
        by apply (chain_snoc a es (current_addr r) (mkMigrationEvent _ _ _ _ _ _)).
    + destruct (evaluate_cases c s m i b d); simpl; rewrite ?lookup_insert_ne by done;
        [exists [], r; by rewrite !app_nil_r..|].
      eexists _, r. split; [done|]. unfold of_connection.
      rewrite filter_cons, filter_nil, decide_False by done. by rewrite app_nil_r.
Qed.

(** From a registration on, what was announced for a connection leads from the address it was
    registered with to its current one, and its identity stays the registered one. *)
Theorem migrations_chain c id addr who ks : Forall (keeps id) ks ->
  let c0 := register_connection c id addr who in
  exists more r, sent (run c0 ks) = sent c ++ more /\ connections (run c0 ks) !! id = Some r /\
    peer_identity r = who /\ chain addr (of_connection id more) (current_addr r).
Proof.
  intros HK c0. unfold run. subst c0.
  induction ks as [|k ks IH] using rev_ind; simpl.
  - exists [], (mkConnectionRecord addr who []). by rewrite app_nil_r, lookup_insert_eq.
  - apply Forall_app in HK as [HK Hk]. inversion_clear Hk.
    destruct (IH HK) as (more & r & Hs & Hr & Hi & Hc). rewrite foldl_app. simpl. set (c1 := foldl _ _ _) in *.
    destruct (chain_step c1 k id r addr (of_connection id more)) as (more' & r' & Hs' & ? & ? & Hc'); [done..|].
    exists (more ++ more'), r'. rewrite Hs', Hs, app_assoc. repeat split; try done; [congruence|].
    unfold of_connection in *. by rewrite filter_app.
Qed.

End Facts.
End Migration.

(** ** Examples *)
Module MigrationExamples.
Definition v4 (a b c d port : Z) : SocketAddr := SocketV4 [a; b; c; d] port.
Definition gated (limit : Z) (subnets : list bytes) : MigrationPolicy := mkMigrationPolicy Gated limit 60 subnets false.
Definition at_ (s id : Z) (a : SocketAddr) : Migration.call := Migration.Evaluate s (s * 1000) id a 5.
Definition answers (c : Migration.t) (ks : list Migration.call) : list (option MigrationDecision) :=
  (fix go c ks := match ks with [] => [] | k :: ks' => Migration.answer c k :: go (Migration.step c k) ks' end) c ks.

Example texts :
  (to_string (V4 [192; 168; 1; 7]), to_string (V6 [8193; 3512; 0; 0; 1; 0; 0; 1]),
   to_string (V6 [0; 0; 0; 0; 0; 0; 0; 1]), to_string (V6 [0; 0; 0; 0; 0; 65535; 2560; 1]),
   to_string (V6 [1; 0; 2; 3; 4; 5; 6; 2748]))
  = (Utf8.str_bytes "192.168.1.7", Utf8.str_bytes "2001:db8::1:0:0:1", Utf8.str_bytes "::1",
     Utf8.str_bytes "::ffff:10.0.0.1", Utf8.str_bytes "1:0:2:3:4:5:6:abc").
Proof. by vm_compute. Qed.

(** The third move within the window is refused; after the window it is let through again. *)
Example rate_window :
  answers (Migration.new (gated 2 []) no_stats)
    [Migration.Register 7 (v4 127 0 0 1 6000) None; at_ 100 7 (v4 127 0 0 1 6001); at_ 110 7 (v4 127 0 0 1 6002);
     at_ 160 7 (v4 127 0 0 1 6003); at_ 161 7 (v4 127 0 0 1 6003)]
  = [None; Some Allowed; Some Allowed; Some (RejectedRateLimitExceeded 2 2); Some Allowed].
Proof. by vm_compute. Qed.

(** [rate_limited] on that sequence. *)
Example rate_window_bound :
  let c := Migration.register_connection (Migration.new (gated 2 []) no_stats) 7 (v4 127 0 0 1 6000) None in
  zlen (in_window 100 60 (Migration.moves 7 c
    [at_ 100 7 (v4 127 0 0 1 6001); at_ 110 7 (v4 127 0 0 1 6002); at_ 160 7 (v4 127 0 0 1 6003)])) <= 2.
Proof.
  intros c. apply (Migration.rate_limited c _ 7 0 100); [done|done| | | |done].
  - simpl. lia.
  - repeat constructor.
  - intros r Hr. vm_compute in Hr. by inversion Hr.
Qed.

(** A subnet in CIDR form matches no address; a prefix without its dot matches more than a subnet. *)
Example cidr_matches_nothing :
  answers (Migration.new (gated 5 [Utf8.str_bytes "10.0.0.0/8"]) no_stats)
    [Migration.Register 1 (v4 10 0 0 1 1) None; at_ 100 1 (v4 10 0 0 2 1)]
  = [None; Some (RejectedSubnetDisallowed (v4 10 0 0 2 1))].
Proof. by vm_compute. Qed.
Example prefix_is_text :
  answers (Migration.new (gated 5 [Utf8.str_bytes "10.1"]) no_stats)
    [Migration.Register 1 (v4 10 1 0 1 1) None; at_ 100 1 (v4 10 199 0 2 1)]
  = [None; Some Allowed].
Proof. by vm_compute. Qed.
(** An allowed IPv4 subnet refuses the same host seen as an IPv4-mapped address. *)
Example mapped_refused :
  answers (Migration.new (gated 5 [Utf8.str_bytes "10.0."]) no_stats)
    [Migration.Register 1 (v4 10 0 0 1 1) None; at_ 100 1 (SocketV6 [0; 0; 0; 0; 0; 65535; 2560; 1] 1 0 0)]
  = [None; Some (RejectedSubnetDisallowed (SocketV6 [0; 0; 0; 0; 0; 65535; 2560; 1] 1 0 0))].
Proof. by vm_compute. Qed.

(** A registration over a connection that is still there counts it twice, and forgets its moves. *)
Example registered_twice :
  let c := Migration.run (Migration.new (gated 1 []) no_stats)
    [Migration.Register 1 (v4 10 0 0 1 1) None; Migration.Register 1 (v4 10 0 0 1 1) None; Migration.Unregister 1] in
  (size (Migration.connections c), active_monitored_conns (Migration.stats c)) = (0%nat, 1).
Proof. by vm_compute. Qed.
Example registered_twice_moves :
  answers (Migration.new (gated 1 []) no_stats)
    [Migration.Register 1 (v4 10 0 0 1 1) None; at_ 100 1 (v4 10 0 0 2 1);
     Migration.Register 1 (v4 10 0 0 2 1) None; at_ 101 1 (v4 10 0 0 3 1)]
  = [None; Some Allowed; None; Some Allowed].
Proof. by vm_compute. Qed.
(** When the clock runs backwards, the limit can be passed: three moves between 100 and 102. *)
Example clock_backwards :
  Migration.moves 1 (Migration.run (Migration.new (gated 2 []) no_stats) [Migration.Register 1 (v4 10 0 0 1 1) None])
    [at_ 100 1 (v4 10 0 0 2 1); at_ 101 1 (v4 10 0 0 3 1); at_ 300 1 (v4 10 0 0 4 1); at_ 102 1 (v4 10 0 0 5 1)]
  = [100; 101; 300; 102].
Proof. by vm_compute. Qed.
End MigrationExamples.
