(* ===== verification/MemoryBackend.v ===== *)
(** * The in-memory storage backend, storage/memory.rs

    [MemoryStorageBackend] and the in-memory target of [StagingWriter] (storage/mod.rs). A staging
    buffer is an [Arc<RwLock<Vec<u8>>>] that the file system and any number of writers share: buffers
    live in [heap], and the table of staging buffers and the writers hold their position in it. The
    calls take the lock of the file system and run one after the other; [open_staging_resumable], which
    takes it twice, is one call here. The texts of not-found errors are left out; [Hash_of] is blake3. *)

From S2P Require Import Prelude Utf8 Protocol Wire Paths.
Import Str.

Record FileMeta := mkFileMeta { size : Z; mode : Z; mtime_ns : Z; file_hash : Hash }.

Record MemoryFile := mkMemoryFile { data : bytes; meta : FileMeta; xattrs : list (bytes * bytes) }.

(** A writer into a staging buffer. *)
Record StagingWriter := mkStagingWriter { buffer : nat; staging_path : bytes; rel_path : bytes; written : Z }.

Record MemoryFileSystem := mkFs {
  files : gmap bytes MemoryFile;
  symlinks : gmap bytes bytes;
  hardlinks : gmap bytes bytes;
  dirs : gset bytes;
  staging : gmap (bytes * bytes) nat;
  chunks : gmap Hash bytes;
  heap : list bytes }.

Definition sum_len (l : list bytes) : Z := foldr (fun d n => zlen d + n) 0 l.
Definition total_stored_bytes (fs : MemoryFileSystem) : Z :=
  saturating_add 64 (wrap 64 (sum_len ((fun kf => data kf.2) <$> map_to_list (files fs))))
    (wrap 64 (sum_len ((fun kc => kc.2) <$> map_to_list (chunks fs)))).

(** [MemoryRandomRead::read_at] into a buffer of [n] bytes: what was read. *)
Definition read_at (d : bytes) (offset n : Z) : bytes :=
  if zlen d <=? offset then []
  else let available := drop (Z.to_nat offset) d in take (Z.to_nat (Z.min n (zlen available))) available.

(** [str::rfind] and [str::find] of a character. *)
Fixpoint rfind (sep : Z) (s : bytes) : option nat :=
  match s with
  | [] => None
  | b :: s' => match rfind sep s' with
               | Some i => Some (S i)
               | None => if b =? sep then Some O else None
               end
  end.
Fixpoint find (sep : Z) (s : bytes) : option nat :=
  match s with
  | [] => None
  | b :: s' => if b =? sep then Some O else S <$> find sep s'
  end.
Fixpoint strip_prefix (p s : bytes) : option bytes :=
  match p, s with
  | [], _ => Some s
  | x :: p', y :: s' => if x =? y then strip_prefix p' s' else None
  | _ :: _, [] => None
  end.

Definition first_part (s : bytes) : bytes :=
  match find SLASH s with Some idx => take idx s | None => s end.
Definition extract_direct_child (dir_prefix path : bytes) : option bytes :=
  match dir_prefix with
  | [] => match path with [] => None | _ => Some (first_part path) end
  | _ => match strip_prefix dir_prefix path with
         | Some stripped =>
             match strip_prefix [SLASH] stripped with
             | Some [] => None
             | Some sub => Some (first_part sub)
             | None => None
             end
         | None => None
         end
  end.

(** The loop over the separators from the right; every round shortens [current]. *)
Fixpoint parent_dirs_loop (fuel : nat) (current : bytes) (ds : gset bytes) : gset bytes :=
  match fuel with
  | O => ds
  | S f => match rfind SLASH current with
           | Some idx => let current := take idx current in parent_dirs_loop f current ({[current]} ∪ ds)
           | None => ds
           end
  end.
Definition parent_dirs (p : bytes) (ds : gset bytes) : gset bytes := parent_dirs_loop (S (length p)) p ds.
Definition ensure_parent_dirs_locked (fs : MemoryFileSystem) (p : bytes) : MemoryFileSystem :=
  mkFs (files fs) (symlinks fs) (hardlinks fs) (parent_dirs p (dirs fs)) (staging fs) (chunks fs) (heap fs).

Definition put_file (fs : MemoryFileSystem) (p : bytes) (f : MemoryFile) : MemoryFileSystem :=
  mkFs (<[p := f]> (files fs)) (symlinks fs) (hardlinks fs) (dirs fs) (staging fs) (chunks fs) (heap fs).
Definition put_link (fs : MemoryFileSystem) (p target : bytes) : MemoryFileSystem :=
  mkFs (files fs) (<[p := target]> (symlinks fs)) (hardlinks fs) (dirs fs) (staging fs) (chunks fs) (heap fs).

(** The content of a buffer after [write_at]: zeros fill a gap. A buffer of more than [isize::MAX]
    bytes cannot be allocated. *)
Definition ISIZE_MAX : Z := 2 ^ 63 - 1.
Definition write_buffer {E} (buf : bytes) (offset : Z) (d : bytes) : outcome E bytes :=
  let stop := saturating_add 64 offset (zlen d) in
  if (zlen buf <? stop) && (ISIZE_MAX <? stop) then Panic
  else
    let buf := if zlen buf <? stop then buf ++ replicate (Z.to_nat (stop - zlen buf)) 0 else buf in
    copy_into buf offset stop d.

Record MemoryStorageBackend := mkBackend {
  inner : MemoryFileSystem; root : bytes; capacity_bytes : Z; min_free_space : Z }.

Definition U64_MAX : Z := 2 ^ 64 - 1.
Definition empty_fs : MemoryFileSystem := mkFs ∅ ∅ ∅ {[ [] ]} ∅ ∅ [].
Definition new_with_capacity (capacity margin : Z) : MemoryStorageBackend :=
  mkBackend empty_fs (lit "/memory") capacity margin.
Definition new : MemoryStorageBackend := new_with_capacity U64_MAX 0.
Definition with_root (b : MemoryStorageBackend) (r : bytes) : MemoryStorageBackend :=
  mkBackend (inner b) r (capacity_bytes b) (min_free_space b).
Definition with_min_free_space (b : MemoryStorageBackend) (n : Z) : MemoryStorageBackend :=
  mkBackend (inner b) (root b) (capacity_bytes b) n.

Definition not_found : VelcruxError := EIo "not found".
Definition dir_meta : FileMeta := mkFileMeta 0 16877 0 Hash_ZERO.
Definition link_meta (target : bytes) : FileMeta := mkFileMeta (zlen target) 41471 0 Hash_ZERO.

(** ** Queries *)

Definition get_file_data (fs : MemoryFileSystem) (p : bytes) : option bytes := data <$> files fs !! p.
Definition file_count (fs : MemoryFileSystem) : Z := Z.of_nat (base.size (files fs)).
Definition list_all_file_paths (fs : MemoryFileSystem) : list bytes := (map_to_list (files fs)).*1.

Definition stat (fs : MemoryFileSystem) (key : bytes) : option FileMeta :=
  match files fs !! key with
  | Some f => Some (meta f)
  | None =>
      match symlinks fs !! key with
      | Some target => Some (link_meta target)
      | None => if bool_decide (key = []) || bool_decide (key ∈ dirs fs) then Some dir_meta else None
      end
  end.

Definition open_read (fs : MemoryFileSystem) (key : bytes) : outcome VelcruxError bytes :=
  match files fs !! key with Some f => Ok (data f) | None => Err not_found end.

Definition available_space (b : MemoryStorageBackend) : Z :=
  saturating_sub (capacity_bytes b) (total_stored_bytes (inner b)).

Definition exists_ (fs : MemoryFileSystem) (key : bytes) : bool :=
  if bool_decide (key = []) then true
  else bool_decide (is_Some (files fs !! key)) || bool_decide (is_Some (symlinks fs !! key)) || bool_decide (key ∈ dirs fs).

Definition child {A} (prefix : bytes) (f : A -> FileMeta) (e : bytes * A) : option (bytes * FileMeta) :=
  (fun name => (name, f e.2)) <$> extract_direct_child prefix e.1.
(** A directory is added unless its name is already there. *)
Definition list_dirs_step (prefix : bytes) (results : list (bytes * FileMeta)) (dir : bytes) : list (bytes * FileMeta) :=
  match extract_direct_child prefix dir with
  | Some name => if existsb (fun r => bool_decide (r.1 = name)) results then results else results ++ [(name, dir_meta)]
  | None => results
  end.
Definition list_dir (fs : MemoryFileSystem) (prefix : bytes) : list (bytes * FileMeta) :=
  let results := omap (child prefix meta) (map_to_list (files fs)) in
  let results := results ++ omap (child prefix link_meta) (map_to_list (symlinks fs)) in
  foldl (list_dirs_step prefix) results (elements (dirs fs)).

Definition get_xattrs (fs : MemoryFileSystem) (key : bytes) : list (bytes * bytes) :=
  default [] (xattrs <$> files fs !! key).
Definition get_chunk (fs : MemoryFileSystem) (h : Hash) : option bytes := chunks fs !! h.
Definition has_chunk (fs : MemoryFileSystem) (h : Hash) : bool := bool_decide (is_Some (chunks fs !! h)).

(** ** Operations *)
Section operations.
Context (Hash_of : bytes -> Hash).

Definition compute_file_hash (fs : MemoryFileSystem) (key : bytes) : outcome VelcruxError Hash :=
  match files fs !! key with Some f => Ok (Hash_of (data f)) | None => Err not_found end.

Definition compute_staging_hash (fs : MemoryFileSystem) (tid p : bytes) : outcome VelcruxError Hash :=
  match staging fs !! (tid, p) ≫= fun h => heap fs !! h with
  | Some buf => Ok (Hash_of buf)
  | None => Err (EInternal "memory staging buffer not found")
  end.

Definition insert_file (fs : MemoryFileSystem) (p d : bytes) (m mt : Z) : MemoryFileSystem :=
  let mta := mkFileMeta (zlen d) m mt (Hash_of d) in
  put_file (ensure_parent_dirs_locked fs p) p (mkMemoryFile d mta []).

Definition clear (fs : MemoryFileSystem) : MemoryFileSystem := mkFs ∅ ∅ ∅ {[ [] ]} ∅ ∅ (heap fs).

Definition check_capacity (b : MemoryStorageBackend) (size_hint : Z) : outcome VelcruxError unit :=
  if (capacity_bytes b <? U64_MAX) && (0 <? size_hint) then
    let avail := available_space b in
    let required := saturating_add 64 size_hint (min_free_space b) in
    if avail <? required
    then Err (EProtocol (DiskFull ("memory capacity exhausted: available " +:+ pretty avail +:+ " B < required " +:+ pretty required +:+ " B")))
    else Ok tt
  else Ok tt.

Definition new_memory (h : nat) (tid p : bytes) : StagingWriter :=
  mkStagingWriter h (lit "/memory/staging/" ++ tid ++ [SLASH] ++ p) p 0.

Definition open_staging_resumable (b : MemoryStorageBackend) (tid p : bytes) (size_hint : Z) (resumed : bool)
    : outcome VelcruxError (MemoryFileSystem * StagingWriter) :=
  let? _ := check_capacity b size_hint in
  let fs := inner b in
  match (if resumed then staging fs !! (tid, p) else None) with
  | Some h => Ok (fs, new_memory h tid p)
  | None =>
      let h := length (heap fs) in
      Ok (mkFs (files fs) (symlinks fs) (hardlinks fs) (dirs fs) (<[(tid, p) := h]> (staging fs)) (chunks fs)
            (heap fs ++ [[]]), new_memory h tid p)
  end.
Definition open_staging (b : MemoryStorageBackend) (tid p : bytes) (size_hint : Z) :=
  open_staging_resumable b tid p size_hint false.

(** [StagingWriter::write_at]. *)
Definition write_at (fs : MemoryFileSystem) (w : StagingWriter) (offset : Z) (d : bytes)
    : outcome VelcruxError (MemoryFileSystem * StagingWriter) :=
  match heap fs !! buffer w with
  | None => Panic
  | Some buf =>
      let? buf := write_buffer buf offset d in
      let stop := wrap 64 (offset + zlen d) in
      Ok (mkFs (files fs) (symlinks fs) (hardlinks fs) (dirs fs) (staging fs) (chunks fs) (<[buffer w := buf]> (heap fs)),
          mkStagingWriter (buffer w) (staging_path w) (rel_path w) (if written w <? stop then stop else written w))
  end.

Definition commit (fs : MemoryFileSystem) (tid dest : bytes) (m : FileMeta) : outcome VelcruxError MemoryFileSystem :=
  match staging fs !! (tid, dest) ≫= fun h => heap fs !! h with
  | None => Err (EInternal "memory commit: staging buffer not found")
  | Some d =>
      let fs := mkFs (files fs) (symlinks fs) (hardlinks fs) (dirs fs) (delete (tid, dest) (staging fs)) (chunks fs) (heap fs) in
      let m := mkFileMeta (zlen d) (mode m) (mtime_ns m) (Hash_of d) in
      Ok (put_file (ensure_parent_dirs_locked fs dest) dest (mkMemoryFile d m []))
  end.

Definition remove (fs : MemoryFileSystem) (p : VPath.t) : outcome VelcruxError MemoryFileSystem :=
  if VPath.is_root p then Err (EProtocol InvalidPath)
  else Ok (mkFs (delete p (files fs)) (delete p (symlinks fs)) (delete p (hardlinks fs)) (dirs fs ∖ {[p]}) (staging fs)
             (chunks fs) (heap fs)).

Definition create_dir_all (fs : MemoryFileSystem) (p : bytes) : MemoryFileSystem :=
  let fs := ensure_parent_dirs_locked fs p in
  match p with
  | [] => fs
  | _ => mkFs (files fs) (symlinks fs) (hardlinks fs) ({[p]} ∪ dirs fs) (staging fs) (chunks fs) (heap fs)
  end.

Definition rename_file (fs : MemoryFileSystem) (src dest : bytes) : outcome VelcruxError MemoryFileSystem :=
  match files fs !! src with
  | Some f =>
      let fs := mkFs (delete src (files fs)) (symlinks fs) (hardlinks fs) (dirs fs) (staging fs) (chunks fs) (heap fs) in
      let m := mkFileMeta (size (meta f)) (mode (meta f)) (mtime_ns (meta f)) (Hash_of (data f)) in
      Ok (put_file (ensure_parent_dirs_locked fs dest) dest (mkMemoryFile (data f) m (xattrs f)))
  | None =>
      match symlinks fs !! src with
      | Some target =>
          let fs := mkFs (files fs) (delete src (symlinks fs)) (hardlinks fs) (dirs fs) (staging fs) (chunks fs) (heap fs) in
          Ok (put_link (ensure_parent_dirs_locked fs dest) dest target)
      | None => Err not_found
      end
  end.

Definition create_symlink (fs : MemoryFileSystem) (dest target : bytes) : MemoryFileSystem :=
  put_link (ensure_parent_dirs_locked fs dest) dest target.

Definition create_hardlink (fs : MemoryFileSystem) (dest src : bytes) : outcome VelcruxError MemoryFileSystem :=
  match files fs !! src with
  | None => Err not_found
  | Some f =>
      let fs := put_file (ensure_parent_dirs_locked fs dest) dest f in
      Ok (mkFs (files fs) (symlinks fs) (<[dest := src]> (hardlinks fs)) (dirs fs) (staging fs) (chunks fs) (heap fs))
  end.

Definition set_xattrs (fs : MemoryFileSystem) (key : bytes) (xs : list (bytes * bytes)) : MemoryFileSystem :=
  match files fs !! key with
  | Some f => put_file fs key (mkMemoryFile (data f) (meta f) xs)
  | None => fs
  end.

Definition set_chunks (fs : MemoryFileSystem) (m : gmap Hash bytes) : MemoryFileSystem :=
  mkFs (files fs) (symlinks fs) (hardlinks fs) (dirs fs) (staging fs) m (heap fs).
Definition store_chunk (fs : MemoryFileSystem) (h : Hash) (d : bytes) : MemoryFileSystem := set_chunks fs (<[h := d]> (chunks fs)).
Definition delete_chunk (fs : MemoryFileSystem) (h : Hash) : MemoryFileSystem * bool :=
  (set_chunks fs (delete h (chunks fs)), has_chunk fs h).

(** ** The calls, in a sequence *)
Inductive op :=
| InsertFile (p d : bytes) (m mt : Z)
| OpenStaging (tid p : bytes) (size_hint : Z) (resumed : bool)
| WriteAt (w : StagingWriter) (offset : Z) (d : bytes)
| Commit (tid dest : bytes) (m : FileMeta)
| Remove (p : bytes)
| CreateDirAll (p : bytes)
| RenameFile (src dest : bytes)
| CreateSymlink (dest target : bytes)
| CreateHardlink (dest src : bytes)
| SetXattrs (p : bytes) (xs : list (bytes * bytes))
| StoreChunk (h : Hash) (d : bytes)
| DeleteChunk (h : Hash)
| Clear.

Definition step (b : MemoryStorageBackend) (o : op) : outcome VelcruxError MemoryFileSystem :=
  let fs := inner b in
  match o with
  | InsertFile p d m mt => Ok (insert_file fs p d m mt)
  | OpenStaging tid p hint resumed => let? '(fs, _) := open_staging_resumable b tid p hint resumed in Ok fs
  | WriteAt w offset d => let? '(fs, _) := write_at fs w offset d in Ok fs
  | Commit tid dest m => commit fs tid dest m
  | Remove p => remove fs p
  | CreateDirAll p => Ok (create_dir_all fs p)
  | RenameFile src dest => rename_file fs src dest
  | CreateSymlink dest target => Ok (create_symlink fs dest target)
  | CreateHardlink dest src => create_hardlink fs dest src
  | SetXattrs p xs => Ok (set_xattrs fs p xs)
  | StoreChunk h d => Ok (store_chunk fs h d)
  | DeleteChunk h => Ok (delete_chunk fs h).1
  | Clear => Ok (clear fs)
  end.

(** A call that fails changes nothing; one that panics ends the task, and the others go on. *)
Definition after (b : MemoryStorageBackend) (o : op) : MemoryStorageBackend :=
  match step b o with
  | Ok fs => mkBackend fs (root b) (capacity_bytes b) (min_free_space b)
  | _ => b
  end.
Definition run (b : MemoryStorageBackend) (os : list op) : MemoryStorageBackend := foldl after b os.
End operations.

(** ** Paths *)

(** [d] is a proper ancestor of [p]. *)
Definition above (d p : bytes) : Prop := exists s, p = d ++ SLASH :: s.

Lemma rfind_None sep s : rfind sep s = None -> sep ∉ s.
Proof.
  induction s as [|b s IH]; simpl; [intros _; by apply not_elem_of_nil|].
  destruct (rfind sep s); [done|]. destruct (Z.eqb_spec b sep); [done|]. intros _.
  apply not_elem_of_cons. split; [done|by apply IH].
Qed.

Lemma rfind_Some sep s i : rfind sep s = Some i ->
  exists rest, s = take i s ++ sep :: rest /\ sep ∉ rest /\ (i < length s)%nat.
Proof.
  revert i. induction s as [|b s IH]; intros i; simpl; [done|].
  destruct (rfind sep s) as [j|] eqn:E.
  - intros [= <-]. destruct (IH j eq_refl) as (rest & H & ? & ?). exists rest. simpl.
    split; [by f_equal|]. split; [done|lia].
  - destruct (Z.eqb_spec b sep) as [->|]; [|done]. intros [= <-]. exists s.
    split; [done|]. split; [by apply rfind_None|]. simpl. lia.
Qed.

(** An ancestor of [x/rest], where [rest] has no separator, is [x] or an ancestor of [x]. *)
Lemma above_last d x rest : SLASH ∉ rest -> above d (x ++ SLASH :: rest) <-> d = x \/ above d x.
Proof.
  intros Hn. split.
  - intros [s E]. apply app_eq_inv in E as [(k & Hx & Hk)|(k & Hd & Hk)].
    + destruct k as [|y k]; [left; by rewrite app_nil_r in Hx|]. simpl in Hk. injection Hk as <- Hk.
      right. by exists k.
    + destruct k as [|y k]; [left; by rewrite app_nil_r in Hd|]. simpl in Hk. injection Hk as <- Hk.
      destruct Hn. rewrite Hk. set_solver.
  - intros [->|[s ->]]; [by exists rest|]. exists (s ++ SLASH :: rest). by rewrite <- app_assoc.
Qed.

Lemma parent_dirs_loop_spec fuel p ds : (length p < fuel)%nat ->
  forall d, d ∈ parent_dirs_loop fuel p ds <-> d ∈ ds \/ above d p.
Proof.
  revert p ds. induction fuel as [|f IH]; intros p ds Hf d; [lia|]. simpl.
  destruct (rfind SLASH p) as [i|] eqn:E.
  - apply rfind_Some in E as (rest & Hp & Hn & Hi). rewrite IH by (rewrite length_take; lia).
    rewrite elem_of_union, elem_of_singleton.
    pose proof (above_last d (take i p) rest Hn) as Ha. rewrite <- Hp in Ha. tauto.
  - apply rfind_None in E. split; [by left|]. intros [?|[s ->]]; [done|]. destruct E. set_solver.
Qed.

(** The loop adds exactly the ancestors. *)
Lemma parent_dirs_spec p ds d : d ∈ parent_dirs p ds <-> d ∈ ds \/ above d p.
Proof. apply parent_dirs_loop_spec. lia. Qed.

Lemma above_trans a b c : above a b -> above b c -> above a c.
Proof. intros [s ->] [s' ->]. exists (s ++ SLASH :: s'). by rewrite <- app_assoc. Qed.

(** ** Invariants *)

Definition present (fs : MemoryFileSystem) (p : bytes) : Prop :=
  is_Some (files fs !! p) \/ is_Some (symlinks fs !! p) \/ p ∈ dirs fs.

(** The directories above everything that is stored are directories. *)
Definition closed (fs : MemoryFileSystem) : Prop :=
  [] ∈ dirs fs /\ forall d p, present fs p -> above d p -> d ∈ dirs fs.

(** The metadata of a file describe its content. *)
Definition described (Hash_of : bytes -> Hash) (fs : MemoryFileSystem) : Prop :=
  map_Forall (fun _ f => size (meta f) = zlen (data f) /\ file_hash (meta f) = Hash_of (data f)) (files fs).

(** Staging buffers are allocated, and no two transfers share one. *)
Definition separate (fs : MemoryFileSystem) : Prop :=
  (forall k h, staging fs !! k = Some h -> (h < length (heap fs))%nat) /\
  (forall k k' h, staging fs !! k = Some h -> staging fs !! k' = Some h -> k = k').

(** Removing a directory that still has entries below it breaks [closed]. *)
Definition tidy (fs : MemoryFileSystem) (o : op) : Prop :=
  match o with Remove p => forall q, present fs q -> ~ above p q | _ => True end.

Section facts.
Context (Hash_of : bytes -> Hash).
Implicit Types (fs : MemoryFileSystem) (b : MemoryStorageBackend).
#[local] Abbreviation step := (step Hash_of).
#[local] Abbreviation after := (after Hash_of).
#[local] Abbreviation run := (run Hash_of).

(** The new file system of a call that succeeded. *)
Lemma closed_add fs p fl sl hl st ch hp : closed fs ->
  (forall q, is_Some (fl !! q) \/ is_Some (sl !! q) -> present fs q \/ q = p) ->
  closed (mkFs fl sl hl (parent_dirs p (dirs fs)) st ch hp).
Proof.
  intros [Hr Hc] Hp. split; simpl; [apply parent_dirs_spec; by left|].
  intros d q Hq Ha. apply parent_dirs_spec. unfold present in Hq. simpl in Hq. rewrite parent_dirs_spec in Hq.
  assert (present fs q \/ q = p \/ above q p) as [Hq'|[->|Hq']].
  { destruct Hq as [Hq|[Hq|[Hq|Hq]]]; [| |by left; right; right|by right; right].
    - destruct (Hp q); auto. - destruct (Hp q); auto. }
  - left. by eapply Hc. - by right. - right. by eapply above_trans.
Qed.

Lemma is_Some_insert {A} (m : gmap bytes A) p q x : is_Some (<[p := x]> m !! q) -> is_Some (m !! q) \/ q = p.
Proof. rewrite lookup_insert_is_Some'. naive_solver. Qed.
Lemma is_Some_delete {A} (m : gmap bytes A) p q : is_Some (delete p m !! q) -> is_Some (m !! q).
Proof. rewrite lookup_delete_is_Some. naive_solver. Qed.

Ltac entries := intros ? [?|?]; unfold present; simpl in *;
  repeat match goal with
  | H : is_Some (<[_ := _]> _ !! _) |- _ => apply is_Some_insert in H as [H|H]
  | H : is_Some (delete _ _ !! _) |- _ => apply is_Some_delete in H
  end; auto.

Lemma closed_same fs fl sl hl st ch hp : closed fs ->
  (forall q, is_Some (fl !! q) \/ is_Some (sl !! q) -> present fs q) -> closed (mkFs fl sl hl (dirs fs) st ch hp).
Proof.
  intros [Hr Hc] Hp. split; [done|]. intros d q Hq Ha. apply (Hc d q); [|done].
  destruct Hq as [Hq|[Hq|Hq]]; simpl in Hq; [apply Hp; by left|apply Hp; by right|by right; right].
Qed.

Lemma closed_remove fs p st ch hp hl : closed fs -> p <> [] -> (forall q, present fs q -> ~ above p q) ->
  closed (mkFs (delete p (files fs)) (delete p (symlinks fs)) hl (dirs fs ∖ {[p]}) st ch hp).
Proof.
  intros [Hr Hc] Hne Ht. split; simpl; [set_solver|]. intros d q Hq Ha.
  assert (present fs q) as Hq'.
  { destruct Hq as [Hq|[Hq|Hq]]; simpl in Hq; unfold present; [left|right; left|right; right];
      [by eapply is_Some_delete..|set_solver]. }
  apply elem_of_difference. split; [by eapply Hc|]. intros ->%elem_of_singleton. by eapply Ht.
Qed.

Lemma memory_open_inv b tid p hint resumed fs w : open_staging_resumable b tid p hint resumed = Ok (fs, w) ->
  check_capacity b hint = Ok tt /\
  (resumed = true /\ staging (inner b) !! (tid, p) = Some (buffer w) /\ fs = inner b \/
   buffer w = length (heap (inner b)) /\ (resumed = false \/ staging (inner b) !! (tid, p) = None) /\
   fs = mkFs (files (inner b)) (symlinks (inner b)) (hardlinks (inner b)) (dirs (inner b))
          (<[(tid, p) := buffer w]> (staging (inner b))) (chunks (inner b)) (heap (inner b) ++ [[]])).
Proof.
  unfold open_staging_resumable. destruct (check_capacity b hint) as [[]| |]; simpl; try done.
  destruct resumed; [destruct (staging _ !! _) eqn:?|]; intros [= <- <-]; simpl; eauto 10.
Qed.

Lemma write_inv fs w off d fs' w' : write_at fs w off d = Ok (fs', w') ->
  exists buf buf', heap fs !! buffer w = Some buf /\ write_buffer (E := VelcruxError) buf off d = Ok buf' /\
    fs' = mkFs (files fs) (symlinks fs) (hardlinks fs) (dirs fs) (staging fs) (chunks fs) (<[buffer w := buf']> (heap fs)).
Proof.
  unfold write_at. destruct (heap fs !! buffer w) as [buf|] eqn:?; [|done].
  destruct (write_buffer buf off d) as [buf'| |] eqn:?; simpl; try done. intros [= <- _]. eauto.
Qed.

(** What a call that succeeded did, one case per way it can succeed. *)
Ltac unstep E :=
  unfold step, commit, remove, create_dir_all, rename_file, create_hardlink, set_xattrs, store_chunk, delete_chunk,
    set_chunks, insert_file, create_symlink, clear, put_file, put_link, ensure_parent_dirs_locked, VPath.is_root in E;
  repeat (simpl in E; match type of E with
    | obind ?c _ = Ok _ => destruct c as [[? ?]| |] eqn:?; try done
    | match ?c with _ => _ end = Ok _ => destruct c eqn:?; try done
    | Ok (match ?c with _ => _ end) = Ok _ => destruct c eqn:?; try done
    end);
  try (injection E as <-);
  repeat match goal with
  | H : open_staging_resumable _ _ _ _ _ = Ok _ |- _ =>
      let C := fresh "Hcap" in let K := fresh "Hkeep" in let S := fresh "Hst" in let B := fresh "Hbuf" in
      apply memory_open_inv in H as (C & [(K & S & ->)|(B & K & ->)])
  | H : write_at _ _ _ _ = Ok _ |- _ =>
      let L := fresh "Hbuf" in let W := fresh "Hwrite" in apply write_inv in H as (? & ? & L & W & ->)
  end.

Lemma step_closed b o fs : step b o = Ok fs -> tidy (inner b) o -> closed (inner b) -> closed fs.
Proof.
  intros E T C. destruct o; unstep E; try done; try (apply closed_same; [done|by entries]);
    try (apply (closed_add (inner b)); [done|by entries]).
  - apply closed_remove; [done| |done]. by apply bool_decide_eq_false in Heqb0.
  - split; simpl; [apply elem_of_union_r, parent_dirs_spec; left; apply C|]. intros q r Hr Ha.
    apply elem_of_union_r.
    destruct (closed_add (inner b) (z :: l) (files (inner b)) (symlinks (inner b)) ∅ ∅ ∅ [] C) as [_ G]; [by entries|].
    destruct (decide (r = z :: l)) as [->|]; [apply parent_dirs_spec; by right|].
    apply (G q r); [|done]. unfold present in *. simpl in *. set_solver.
  - apply closed_same; [done|]. entries. subst. left. by eexists.
  - split; [set_solver|]. intros q r Hr [s ->]. unfold present in Hr. simpl in Hr. rewrite !lookup_empty in Hr.
    destruct Hr as [[? ?]|[[? ?]|Hr%elem_of_singleton]]; [done..|]. by destruct q.
Qed.

(** ** Metadata *)
Lemma step_described b o fs : step b o = Ok fs -> described Hash_of (inner b) -> described Hash_of fs.
Proof.
  unfold described. intros E D. destruct o; unstep E; simpl; try done;
    try (apply map_Forall_insert_2; [by simpl|try done]); try by apply map_Forall_delete.
  all: destruct (D _ _ Heqo) as [? ?]; apply map_Forall_insert_2; [by simpl|]; try done.
  by apply map_Forall_delete.
Qed.

Lemma step_separate b o fs : step b o = Ok fs -> separate (inner b) -> separate fs.
Proof.
  intros E [S1 S2]. destruct o; unstep E; try done; unfold separate; simpl.
  - rewrite length_app. simpl. split.
    + intros k h. rewrite lookup_insert_Some. intros [[_ <-]|[_ Hk]]; [lia|]. apply S1 in Hk. lia.
    + intros k k' h. rewrite !lookup_insert_Some.
      intros [[? Hh]|[? Hk]] [[? Hh']|[? Hk']]; [congruence| | |by eapply S2]; exfalso;
        [apply S1 in Hk'|apply S1 in Hk]; lia.
  - by rewrite length_insert.
  - split; [intros k h [_ ?]%lookup_delete_Some; by eapply S1|].
    intros k k' h [_ ?]%lookup_delete_Some [_ ?]%lookup_delete_Some. by eapply S2.
Qed.

(** What holds of a new backend and after every call. *)
Definition ok fs : Prop := described Hash_of fs /\ separate fs.

Lemma ok_empty : ok empty_fs.
Proof. split; [apply map_Forall_empty|]. split; simpl; intros *; by rewrite lookup_empty. Qed.

(** The metadata of every file describe it, and transfers do not share buffers, whatever was called. *)
Theorem backend_ok b os : ok (inner b) -> ok (inner (run b os)).
Proof.
  revert b. induction os as [|o os IH]; intros b H; [done|]. apply IH. unfold after.
  destruct (step b o) as [fs| |] eqn:E; [|done..]. destruct H. simpl.
  split; [by eapply step_described|by eapply step_separate].
Qed.

(** Calls that do not remove a directory with entries below it. *)
Fixpoint all_tidy b (os : list op) : Prop :=
  match os with [] => True | o :: os' => tidy (inner b) o /\ all_tidy (after b o) os' end.

(** As long as no directory is removed with entries below it, everything stored lies in directories
    that exist. *)
Theorem backend_closed b os : all_tidy b os -> closed (inner b) -> closed (inner (run b os)).
Proof.
  revert b. induction os as [|o os IH]; intros b H C; [done|]. destruct H as [T H]. apply IH; [done|].
  unfold after. destruct (step b o) as [fs| |] eqn:E; [|done..]. by eapply step_closed.
Qed.

(** ** Listing *)

(** The name joined to a directory. *)
Definition entry (dir name : bytes) : bytes := match dir with [] => name | _ => dir ++ SLASH :: name end.

Lemma find_spec s : find SLASH s = None /\ SLASH ∉ s \/
  exists i rest, find SLASH s = Some i /\ s = take i s ++ SLASH :: rest /\ SLASH ∉ take i s.
Proof.
  induction s as [|x s IH]; simpl; [left; split; [done|apply not_elem_of_nil]|].
  destruct (Z.eqb_spec x SLASH) as [->|Hx].
  - right. exists O, s. repeat split. apply not_elem_of_nil.
  - destruct IH as [[-> ?]|(i & rest & -> & E & ?)].
    + left. split; [done|]. apply not_elem_of_cons. auto.
    + right. exists (S i), rest. simpl. repeat split; [by f_equal|]. apply not_elem_of_cons. auto.
Qed.

(** The part before the first separator is unique. *)
Lemma split_unique (a c r s : bytes) : SLASH ∉ a -> SLASH ∉ c -> a ++ SLASH :: r = c ++ SLASH :: s -> a = c.
Proof.
  intros Ha Hc E. apply app_eq_inv in E as [([|y k] & -> & H2)|([|y k] & -> & H2)]; simplify_eq/=;
    rewrite ?app_nil_r; set_solver.
Qed.

Lemma first_part_spec s name : first_part s = name <->
  SLASH ∉ name /\ (s = name \/ above name s).
Proof.
  unfold first_part. destruct (find_spec s) as [[-> Hn]|(i & rest & -> & E & Hn)].
  - split; [intros <-; auto|]. intros [_ [->|[r ->]]]; [done|]. destruct Hn. set_solver.
  - split; [intros <-; split; [done|]; right; by exists rest|]. intros [Hn' [->|[r Hr]]].
    + destruct Hn'. rewrite E. set_solver.
    + apply (split_unique _ _ rest r); congruence.
Qed.

Lemma strip_prefix_Some p s r : strip_prefix p s = Some r <-> s = p ++ r.
Proof.
  revert s. induction p as [|x p IH]; intros s; simpl; [naive_solver|]. destruct s as [|y s]; [naive_solver|].
  destruct (Z.eqb_spec x y) as [->|]; [rewrite IH; naive_solver|naive_solver].
Qed.

(** What counts as a child: the path is the entry, or lies below it. *)
Lemma extract_spec dir p name : name <> [] -> extract_direct_child dir p = Some name <->
  SLASH ∉ name /\ (p = entry dir name \/ above (entry dir name) p).
Proof.
  intros Hne. unfold extract_direct_child, entry. destruct dir as [|x dir].
  - rewrite <- first_part_spec. destruct p; [|naive_solver]. split; [done|]. by intros <-.
  - set (d := x :: dir). split.
    + destruct (strip_prefix d p) as [r|] eqn:E; [|done]. apply strip_prefix_Some in E as ->.
      destruct (strip_prefix [SLASH] r) as [sub|] eqn:E; [|done]. apply strip_prefix_Some in E as ->.
      intros H. assert (first_part sub = name) as F by (destruct sub; naive_solver).
      apply first_part_spec in F as [Hs [->|[s ->]]]; split; [done|by left|done|]. right. exists s. by rewrite <- app_assoc.
    + intros [Hs Hp]. assert (exists sub, p = d ++ SLASH :: sub /\ first_part sub = name) as (sub & -> & F).
      { destruct Hp as [->|[s ->]]; [exists name|exists (name ++ SLASH :: s)]; rewrite <- ?app_assoc; split; try done;
          apply first_part_spec; (split; [done|]); [by left|right; by exists s]. }
      rewrite (proj2 (strip_prefix_Some d _ (SLASH :: sub)) eq_refl).
      change (SLASH :: sub) with ([SLASH] ++ sub). rewrite (proj2 (strip_prefix_Some [SLASH] _ sub) eq_refl).
      destruct sub; [by subst name|by rewrite F].
Qed.

Lemma list_dirs_names dir ds acc name :
  name ∈ (foldl (list_dirs_step dir) acc ds).*1 <->
  name ∈ acc.*1 \/ exists d, d ∈ ds /\ extract_direct_child dir d = Some name.
Proof.
  revert acc. induction ds as [|d ds IH]; intros acc; simpl; [set_solver|]. rewrite IH. clear IH.
  assert (name ∈ (list_dirs_step dir acc d).*1 <-> name ∈ acc.*1 \/ extract_direct_child dir d = Some name) as ->;
    [|set_solver].
  unfold list_dirs_step. destruct (extract_direct_child dir d) as [n|]; [|naive_solver].
  destruct (existsb _ acc) eqn:E.
  - apply existsb_exists in E as ([n' m] & Hin & Hn%bool_decide_eq_true). simpl in Hn. subst n'.
    split; [by left|]. intros [?|[= ->]]; [done|]. apply list_elem_of_fmap. exists (name, m). by rewrite list_elem_of_In.
  - rewrite fmap_app. set_solver.
Qed.

Lemma child_names {A} (dir : bytes) (f : A -> FileMeta) (m : gmap bytes A) (name : bytes) :
  name ∈ (omap (child dir f) (map_to_list m)).*1 <->
  exists p, is_Some (m !! p) /\ extract_direct_child dir p = Some name.
Proof.
  rewrite list_elem_of_fmap. split.
  - intros ([n mt] & -> & ([p x] & Hp & E)%list_elem_of_omap). exists p. apply elem_of_map_to_list in Hp.
    unfold child in E. simpl in *. destruct (extract_direct_child dir p); naive_solver.
  - intros (p & [x Hx] & E). exists (name, f x). split; [done|]. apply list_elem_of_omap. exists (p, x).
    rewrite elem_of_map_to_list. split; [done|]. unfold child. simpl. by rewrite E.
Qed.

(** A directory lists a name exactly when there is such an entry in it. *)
Theorem list_dir_complete fs dir name : closed fs -> name <> [] -> SLASH ∉ name ->
  name ∈ (list_dir fs dir).*1 <-> exists_ fs (entry dir name) = true.
Proof.
  intros [Hroot Hc] Hne Hs. unfold list_dir. rewrite list_dirs_names, fmap_app, elem_of_app, !child_names.
  assert (exists_ fs (entry dir name) = true <-> present fs (entry dir name)) as ->.
  { unfold exists_. rewrite bool_decide_eq_false_2 by (by destruct dir, name).
    unfold present. rewrite !orb_true_iff, !bool_decide_eq_true. tauto. }
  split.
  - intros [[(p & Hp & E)|(p & Hp & E)]|(p & Hp%elem_of_elements & E)]; apply extract_spec in E as [_ [<-|Ha]]; try done;
      unfold present; auto; right; right; eapply Hc; try done; unfold present; auto.
  - assert (extract_direct_child dir (entry dir name) = Some name) by (apply extract_spec; auto).
    intros [H'|[H'|H']]; [left; left|left; right|right]; exists (entry dir name); rewrite ?elem_of_elements; auto.
Qed.

(** ** Writing *)

(** The reference: [d] over [buf] from [off] on, zeros in a gap. *)
Definition overlay (buf : bytes) (w : Z * bytes) : bytes :=
  let off := Z.to_nat w.1 in
  take off (buf ++ replicate (off - length buf) 0) ++ w.2 ++ drop (off + length w.2) buf.

Lemma write_buffer_overlay {E} buf off d : 0 <= off -> off + zlen d <= ISIZE_MAX ->
  write_buffer (E := E) buf off d = Ok (overlay buf (off, d)).
Proof.
  intros H0 H1. unfold write_buffer, saturating_add, ISIZE_MAX in *. pose proof (zlen_nonneg d).
  rewrite Z.min_l by lia. destruct (Z.ltb_spec (2 ^ 63 - 1) (off + zlen d)); [lia|]. rewrite andb_false_r.
  unfold overlay. simpl. destruct (Z.ltb_spec (zlen buf) (off + zlen d)).
  - rewrite copy_into_ok by len. f_equal. f_equal; [|f_equal].
    + rewrite !take_app. f_equal. rewrite !take_replicate. f_equal. len.
    + rewrite !drop_ge; [done|len|]. rewrite length_app, length_replicate. len.
  - rewrite copy_into_ok by len. replace (_ - _)%nat with O by len. simpl. rewrite app_nil_r. f_equal.
    f_equal. f_equal. f_equal. len.
Qed.

(** A byte of the result is the one just written, or the one that was there, or zero in a gap. *)
Lemma overlay_lookup buf off d i : overlay buf (off, d) !! i =
  if decide (Z.to_nat off <= i < Z.to_nat off + length d)%nat then d !! (i - Z.to_nat off)%nat
  else if decide (i < length buf)%nat then buf !! i
  else if decide (i < Z.to_nat off)%nat then Some 0 else None.
Proof.
  unfold overlay. simpl. set (o := Z.to_nat off).
  assert (length (take o (buf ++ replicate (o - length buf) 0)) = o) as L by (rewrite length_take, length_app, length_replicate; lia).
  destruct (decide (i < o)%nat) as [Hi|Hi].
  - rewrite lookup_app_l, lookup_take_lt, decide_False by lia. case_decide.
    + by rewrite lookup_app_l.
    + rewrite lookup_app_r by lia. apply lookup_replicate_2. lia.
  - rewrite lookup_app_r, L by lia. case_decide.
    + rewrite lookup_app_l by lia. done.
    + rewrite lookup_app_r, lookup_drop by lia. replace (_ + _)%nat with i by lia.
      case_decide; [done|]. apply lookup_ge_None. lia.
Qed.

Lemma overlay_length buf off d :
  length (overlay buf (off, d)) = (length buf `max` (Z.to_nat off + length d))%nat.
Proof.
  unfold overlay. simpl. rewrite !length_app, length_take, length_app, length_replicate, length_drop. lia.
Qed.

(** A write of a piece of [c] at its place. *)
Definition piece_of (c : bytes) (w : Z * bytes) : Prop :=
  0 <= w.1 /\ exists r, drop (Z.to_nat w.1) c = w.2 ++ r.
Definition covers (w : Z * bytes) (i : nat) : Prop := (Z.to_nat w.1 <= i < Z.to_nat w.1 + length w.2)%nat.

Lemma pieces_partial c ws buf : Forall (piece_of c) ws -> Forall (fun w => Z.to_nat w.1 <= length c)%nat ws ->
  (length buf <= length c)%nat ->
  (length (foldl overlay buf ws) <= length c)%nat /\
  forall i, buf !! i = c !! i \/ Exists (fun w => covers w i) ws -> foldl overlay buf ws !! i = c !! i.
Proof.
  intros Hp Hl. revert buf. induction ws as [|[off d] ws IH]; intros buf Hb; simpl.
  - split; [done|]. intros i [?|H]; [done|by apply Exists_nil in H].
  - inversion_clear Hp as [|? ? [H0 [r Hr]] Hp']. inversion_clear Hl as [|? ? Hoff Hl']. simpl in *.
    assert (length c - Z.to_nat off = length d + length r)%nat as Hlen
      by (rewrite <- length_drop, Hr, length_app; done).
    destruct (IH Hp' Hl' (overlay buf (off, d))) as [IH1 IH2]; [rewrite overlay_length; lia|]. split; [done|].
    assert (forall i, covers (off, d) i -> overlay buf (off, d) !! i = c !! i) as Hcov.
    { intros i Hi. unfold covers in Hi. simpl in Hi. rewrite overlay_lookup, decide_True by done.
      replace (c !! i) with (drop (Z.to_nat off) c !! (i - Z.to_nat off)%nat)
        by (rewrite lookup_drop; f_equal; lia).
      by rewrite Hr, lookup_app_l by lia. }
    intros i Hi. apply IH2. destruct (decide (covers (off, d) i)) as [Hc|Hc]; [left; by apply Hcov|].
    destruct Hi as [Hi|Hi]; [left|right; by apply Exists_cons in Hi as [?|?]].
    rewrite overlay_lookup, decide_False by done. case_decide as Hb'; [done|].
    rewrite lookup_ge_None_2 in Hi by lia. symmetry in Hi. pose proof Hi as Hi'. apply lookup_ge_None in Hi.
    by rewrite decide_False, Hi' by lia.
Qed.

(** Writes of pieces of [c], in any order, that cover [c] leave [c]. *)
Lemma pieces_complete c ws : Forall (piece_of c) ws -> Forall (fun w => Z.to_nat w.1 <= length c)%nat ws ->
  (forall i, (i < length c)%nat -> Exists (fun w => covers w i) ws) -> foldl overlay [] ws = c.
Proof.
  intros Hp Hl Hc. destruct (pieces_partial c ws [] Hp Hl) as [Hlen Hat]; [simpl; lia|].
  apply list_eq. intros i. destruct (decide (i < length c)%nat); [apply Hat; right; by apply Hc|].
  rewrite !lookup_ge_None_2; [done|lia..].
Qed.

(** ** What the backend promises *)

(** Published files, links, and what was staged of the uploads under way. *)
Record store := mkStore { published : gmap bytes bytes; links : gmap bytes bytes; partial : gmap (bytes * bytes) bytes }.

Definition abs fs : store := mkStore (data <$> files fs) (symlinks fs) (omap (fun h => heap fs !! h) (staging fs)).

Inductive label :=
| Put (p d : bytes)
| Begin (k : bytes * bytes) (keep : bool)
| Fill (k : bytes * bytes) (off : Z) (d : bytes)
| Publish (k : bytes * bytes)
| Drop (p : bytes)
| Move (src dest : bytes)
| Link (p target : bytes)
| Copy (dest src : bytes)
| Wipe
| Silent
| Refuse.

Definition spec_step (s : store) (l : label) : option store :=
  match l with
  | Put p d => Some (mkStore (<[p := d]> (published s)) (links s) (partial s))
  | Begin k keep =>
      if keep && bool_decide (is_Some (partial s !! k)) then Some s
      else Some (mkStore (published s) (links s) (<[k := []]> (partial s)))
  | Fill k off d =>
      buf ← partial s !! k; Some (mkStore (published s) (links s) (<[k := overlay buf (off, d)]> (partial s)))
  | Publish k => d ← partial s !! k; Some (mkStore (<[k.2 := d]> (published s)) (links s) (delete k (partial s)))
  | Drop p =>
      if bool_decide (p = []) then None
      else Some (mkStore (delete p (published s)) (delete p (links s)) (partial s))
  | Move src dest =>
      match published s !! src, links s !! src with
      | Some d, _ => Some (mkStore (<[dest := d]> (delete src (published s))) (links s) (partial s))
      | None, Some t => Some (mkStore (published s) (<[dest := t]> (delete src (links s))) (partial s))
      | None, None => None
      end
  | Link p target => Some (mkStore (published s) (<[p := target]> (links s)) (partial s))
  | Copy dest src => d ← published s !! src; Some (mkStore (<[dest := d]> (published s)) (links s) (partial s))
  | Wipe => Some (mkStore ∅ ∅ ∅)
  | Silent => Some s
  | Refuse => None
  end.

(** The transfer a buffer belongs to, if it still belongs to one. *)
Definition owner fs (h : nat) : option (bytes * bytes) :=
  fst <$> head (filter (fun kh => kh.2 = h) (map_to_list (staging fs))).

Definition label_of b (o : op) : label :=
  match o with
  | InsertFile p d _ _ => Put p d
  | OpenStaging tid p hint resumed => match check_capacity b hint with Ok _ => Begin (tid, p) resumed | _ => Refuse end
  | WriteAt w off d => match owner (inner b) (buffer w) with Some k => Fill k off d | None => Silent end
  | Commit tid dest _ => Publish (tid, dest)
  | Remove p => Drop p
  | RenameFile src dest => Move src dest
  | CreateSymlink dest target => Link dest target
  | CreateHardlink dest src => Copy dest src
  | Clear => Wipe
  | CreateDirAll _ | SetXattrs _ _ | StoreChunk _ _ | DeleteChunk _ => Silent
  end.

(** A writer that was handed out, and a write that a buffer can hold. *)
Definition callable fs (o : op) : Prop :=
  match o with
  | WriteAt w off d => (buffer w < length (heap fs))%nat /\ 0 <= off /\ off + zlen d <= ISIZE_MAX
  | _ => True
  end.

Lemma owner_spec fs h k : separate fs -> owner fs h = Some k <-> staging fs !! k = Some h.
Proof.
  intros [_ S2]. unfold owner. split.
  - destruct (filter _ _) as [|[k' h'] l] eqn:E; [done|]. intros [= <-].
    assert ((k', h') ∈ filter (fun kh : bytes * bytes * nat => kh.2 = h) (map_to_list (staging fs))) as Hin
      by (rewrite E; set_solver).
    apply list_elem_of_filter in Hin as [Hh Hin]. simpl in *. subst h'. by apply elem_of_map_to_list.
  - intros Hk.
    assert ((k, h) ∈ filter (fun kh : bytes * bytes * nat => kh.2 = h) (map_to_list (staging fs))) as Hin
      by (apply list_elem_of_filter; split; [done|by apply elem_of_map_to_list]).
    destruct (filter _ _) as [|[k' h'] l] eqn:E; [by apply elem_of_nil in Hin|]. simpl. f_equal.
    assert ((k', h') ∈ filter (fun kh : bytes * bytes * nat => kh.2 = h) (map_to_list (staging fs))) as Hin'
      by (rewrite E; set_solver).
    apply list_elem_of_filter in Hin' as [Hh Hin']. simpl in *. subst h'. apply elem_of_map_to_list in Hin'. by eapply S2.
Qed.

Lemma partial_lookup fs k : partial (abs fs) !! k = staging fs !! k ≫= fun h => heap fs !! h.
Proof. simpl. apply lookup_omap. Qed.

Lemma write_partial fs k h buf : separate fs -> staging fs !! k = Some h ->
  omap (fun h' => <[h := buf]> (heap fs) !! h') (staging fs) = <[k := buf]> (partial (abs fs)).
Proof.
  intros [S1 S2] Hk. apply map_eq. intros k'. rewrite lookup_omap. destruct (decide (k' = k)) as [->|Hne].
  - rewrite Hk, lookup_insert_eq. simpl. apply list_lookup_insert_eq. by eapply S1.
  - rewrite lookup_insert_ne, partial_lookup by done. destruct (staging fs !! k') as [h'|] eqn:E; [|done]. simpl.
    apply list_lookup_insert_ne. intros ->. apply Hne. by eapply S2.
Qed.

Lemma write_orphan fs h buf : separate fs -> owner fs h = None ->
  omap (fun h' => <[h := buf]> (heap fs) !! h') (staging fs) = partial (abs fs).
Proof.
  intros S Ho. apply map_eq. intros k'. rewrite lookup_omap, partial_lookup.
  destruct (staging fs !! k') as [h'|] eqn:E; [|done]. simpl.
  apply list_lookup_insert_ne. intros ->. apply (owner_spec fs h' k' S) in E. congruence.
Qed.

Lemma alloc_partial fs k : separate fs ->
  omap (fun h => (heap fs ++ [[]]) !! h) (<[k := length (heap fs)]> (staging fs)) = <[k := []]> (partial (abs fs)).
Proof.
  intros [S1 _]. apply map_eq. intros k'. rewrite lookup_omap. destruct (decide (k' = k)) as [->|Hne].
  - rewrite !lookup_insert_eq. simpl. rewrite lookup_app_r by lia. by rewrite Nat.sub_diag.
  - rewrite !lookup_insert_ne, partial_lookup by done. destruct (staging fs !! k') as [h'|] eqn:E; [|done]. simpl.
    apply lookup_app_l. by eapply S1.
Qed.

Lemma delete_partial fs k : omap (fun h => heap fs !! h) (delete k (staging fs)) = delete k (partial (abs fs)).
Proof. apply omap_delete. Qed.

Lemma partial_is_Some fs k : separate fs -> is_Some (partial (abs fs) !! k) <-> is_Some (staging fs !! k).
Proof.
  intros [S1 _]. rewrite partial_lookup.
  destruct (staging fs !! k) as [h|] eqn:E; simpl; [|by rewrite <- !not_eq_None_Some].
  split; [by eexists|]. intros _. apply lookup_lt_is_Some. by eapply S1.
Qed.

(** A call that succeeds does to the published files, links and staged content what the abstract
    store does. *)
Lemma refines_ok b o fs : separate (inner b) -> callable (inner b) o -> step b o = Ok fs ->
  spec_step (abs (inner b)) (label_of b o) = Some (abs fs).
Proof.
  intros S C E. destruct o; unstep E; unfold label_of; rewrite ?Hcap; simpl;
    unfold abs; simpl; rewrite ?fmap_insert, ?fmap_delete, ?lookup_fmap, ?Heqo, ?Heqo0; try done; simpl.
  - rewrite Hkeep, bool_decide_eq_true_2; [done|]. apply (partial_is_Some _ _ S). by eexists.
  - rewrite Hbuf, alloc_partial by done. destruct Hkeep as [->|Hno]; [done|].
    rewrite bool_decide_eq_false_2, andb_false_r; [done|]. intros Hs. apply (partial_is_Some _ _ S) in Hs.
    rewrite Hno in Hs. by destruct Hs.
  - destruct C as (_ & H0 & H1). rewrite write_buffer_overlay in Hwrite by done. injection Hwrite as <-.
    destruct (owner (inner b) (buffer w)) as [k|] eqn:Ho; simpl.
    + apply owner_spec in Ho; [|done]. rewrite lookup_omap, Ho. simpl. rewrite Hbuf. simpl. by rewrite (write_partial _ k).
    + by rewrite write_orphan.
  - rewrite lookup_omap, Heqo. simpl. by rewrite delete_partial.
  - apply bool_decide_eq_false in Heqb0. by rewrite bool_decide_eq_false_2.
  - rewrite insert_id; [done|]. by rewrite lookup_fmap, Heqo.
Qed.

Lemma write_no_err b w off d e : step b (WriteAt w off d) <> Err e.
Proof.
  simpl. unfold write_at. destruct (heap (inner b) !! buffer w) as [buf|]; [|done].
  destruct (write_buffer buf off d) as [|e'|] eqn:W; try done. exfalso. revert W.
  unfold write_buffer, copy_into. by repeat case_match.
Qed.

(** A call that fails is one the abstract store refuses. *)
Lemma refines_err b o e : step b o = Err e -> spec_step (abs (inner b)) (label_of b o) = None.
Proof.
  intros E. destruct o; simpl in E; try done.
  - unfold open_staging_resumable in E. unfold label_of. destruct (check_capacity b size_hint); [|done..].
    exfalso. simpl in E. by repeat case_match.
  - by apply write_no_err in E.
  - unfold commit in E. simpl. rewrite lookup_omap. by destruct (staging _ !! _ ≫= _) eqn:Hk; simpl in *; rewrite ?Hk.
  - unfold remove, VPath.is_root in E. simpl. destruct (decide (p = [])) as [->|]; [done|].
    by rewrite bool_decide_eq_false_2 in E.
  - unfold rename_file in E. simpl. rewrite lookup_fmap. by destruct (files _ !! _), (symlinks _ !! _).
  - unfold create_hardlink in E. simpl. rewrite lookup_fmap. by destruct (files _ !! _).
Qed.

Lemma no_panic b o : callable (inner b) o -> step b o <> Panic.
Proof.
  intros C. destruct o; simpl; try done.
  - unfold open_staging_resumable, check_capacity. by repeat (simpl; case_match).
  - destruct C as (Hh & H0 & H1). apply lookup_lt_is_Some in Hh as [buf Hb].
    unfold write_at. by rewrite Hb, write_buffer_overlay.
  - unfold commit. by case_match.
  - unfold remove. by case_match.
  - unfold rename_file. by repeat case_match.
  - unfold create_hardlink. by case_match.
Qed.

(** The backend implements the abstract store: a call succeeds exactly when the store allows it, with
    the store's effect on published files, links and staged content; a failed call is one the store
    refuses; no call panics. *)
Theorem backend_refines b o : separate (inner b) -> callable (inner b) o ->
  match step b o with
  | Ok fs => spec_step (abs (inner b)) (label_of b o) = Some (abs fs)
  | Err _ => spec_step (abs (inner b)) (label_of b o) = None
  | Panic => False
  end.
Proof.
  intros S C. destruct (step b o) as [fs|e|] eqn:E.
  - by apply refines_ok. - by eapply refines_err. - by eapply no_panic.
Qed.

(** ** Uploads *)

(** The call neither opens the upload [k] afresh nor commits it. *)
Definition spares (k : bytes * bytes) (o : op) : Prop :=
  match o with
  | OpenStaging tid p _ resumed => (tid, p) <> k \/ resumed = true
  | Commit tid dest _ => (tid, dest) <> k
  | Clear => False
  | _ => True
  end.
(** What the call writes into the buffer [h]. *)
Definition writes_to (h : nat) (o : op) : list (Z * bytes) :=
  match o with WriteAt w off d => if Nat.eqb (buffer w) h then [(off, d)] else [] | _ => [] end.
Definition in_range (o : op) : Prop :=
  match o with WriteAt _ off d => 0 <= off /\ off + zlen d <= ISIZE_MAX | _ => True end.

(** [k] is staged in the buffer [h], which holds [buf]. *)
Definition staged fs (k : bytes * bytes) (h : nat) (buf : bytes) : Prop :=
  staging fs !! k = Some h /\ heap fs !! h = Some buf.

Lemma staged_step b o k h buf : spares k o -> in_range o -> staged (inner b) k h buf ->
  staged (inner (after b o)) k h (foldl overlay buf (writes_to h o)).
Proof.
  intros Sp R [Hk Hb]. unfold after.
  destruct (step b o) as [fs|e|] eqn:E.
  - destruct o; unstep E; simpl; try done; unfold staged; simpl.
    + destruct Sp as [Hne| ->]; [|destruct Hkeep as [|Hkeep]; [done|]].
      * by rewrite lookup_insert_ne, lookup_app_l by (done || by eapply lookup_lt_Some).
      * rewrite lookup_insert_ne, lookup_app_l by (congruence || by eapply lookup_lt_Some). done.
    + destruct R. rewrite write_buffer_overlay in Hwrite by done. injection Hwrite as <-.
      destruct (Nat.eqb_spec (buffer w) h) as [Eh|Hne]; simpl.
      * rewrite Eh in *. rewrite list_lookup_insert_eq by (by eapply lookup_lt_Some). by simplify_eq.
      * by rewrite list_lookup_insert_ne.
    + by rewrite lookup_delete_ne.
  - destruct o; try done. by apply write_no_err in E.
  - destruct o; try done. simpl. destruct (Nat.eqb_spec (buffer w) h) as [Eh|]; [|done]. exfalso.
    apply (no_panic b (WriteAt w offset d)) in E; [done|]. destruct R. simpl. split; [|done]. rewrite Eh.
    by eapply lookup_lt_Some.
Qed.

Lemma staged_run b os k h buf : Forall (spares k) os -> Forall in_range os -> staged (inner b) k h buf ->
  staged (inner (run b os)) k h (foldl overlay buf (os ≫= writes_to h)).
Proof.
  revert b buf. induction os as [|o os IH]; intros b buf Sp R H; [done|].
  inversion_clear Sp. inversion_clear R. simpl. rewrite foldl_app. apply IH; [done..|]. by apply staged_step.
Qed.

(** An upload is published whole: whatever other calls run between opening and committing it, the
    committed file holds what was written to its buffer, in the order of the writes, and its metadata
    describe that content. *)
Theorem upload_published b tid dest hint fs w os m :
  open_staging b tid dest hint = Ok (fs, w) -> Forall (spares (tid, dest)) os -> Forall in_range os ->
  let content := foldl overlay [] (os ≫= writes_to (buffer w)) in
  let b' := run (mkBackend fs (root b) (capacity_bytes b) (min_free_space b)) os in
  exists fs', commit Hash_of (inner b') tid dest m = Ok fs' /\
    get_file_data fs' dest = Some content /\ open_read fs' dest = Ok content /\
    stat fs' dest = Some (mkFileMeta (zlen content) (mode m) (mtime_ns m) (Hash_of content)) /\
    staging fs' !! (tid, dest) = None.
Proof.
  intros Ho Sp R content b'. apply memory_open_inv in Ho as (_ & [(? & _)|(Hw & _ & ->)]); [done|].
  destruct (staged_run (mkBackend (mkFs (files (inner b)) (symlinks (inner b)) (hardlinks (inner b)) (dirs (inner b))
          (<[(tid, dest) := buffer w]> (staging (inner b))) (chunks (inner b)) (heap (inner b) ++ [[]]))
          (root b) (capacity_bytes b) (min_free_space b)) os (tid, dest) (buffer w) []) as [Hk Hb]; [done..| |].
  { split; simpl; [by apply lookup_insert_eq|]. rewrite lookup_app_r, Hw by lia. by rewrite Nat.sub_diag. }
  fold b' in Hk, Hb. fold content in Hb. unfold commit. rewrite Hk. simpl. rewrite Hb.
  eexists. split; [done|]. unfold get_file_data, open_read, stat. simpl. rewrite !lookup_insert_eq. repeat split; try done.
  by apply lookup_delete_eq.
Qed.

(** An upload of [c] in pieces, in any order and with repetitions, publishes [c]. *)
Theorem pieces_published b tid dest hint fs w os m c :
  open_staging b tid dest hint = Ok (fs, w) -> Forall (spares (tid, dest)) os -> Forall in_range os ->
  let ws := os ≫= writes_to (buffer w) in
  Forall (piece_of c) ws -> Forall (fun p => Z.to_nat p.1 <= length c)%nat ws ->
  (forall i, (i < length c)%nat -> Exists (fun p => covers p i) ws) ->
  let b' := run (mkBackend fs (root b) (capacity_bytes b) (min_free_space b)) os in
  exists fs', commit Hash_of (inner b') tid dest m = Ok fs' /\ get_file_data fs' dest = Some c.
Proof.
  intros Ho Sp R ws Hp Hl Hc b'.
  destruct (upload_published b tid dest hint fs w os m) as (fs' & Hcm & Hd & _); [done..|].
  exists fs'. split; [done|]. by rewrite Hd, pieces_complete with (c := c).
Qed.

End facts.

(** ** Examples *)
Module MemoryExamples.
(** A hash to run the code with: the first bytes of the content. *)
Definition hash (d : bytes) : Hash := take 32 (d ++ replicate 32 0).
Definition path (s : string) : bytes := Utf8.str_bytes s.
Definition names (l : list (bytes * FileMeta)) : list (bytes * Z) := (fun r => (r.1, size r.2)) <$> l.
Definition go (os : list op) : MemoryFileSystem := inner (run hash new os).

(** Two pieces in the wrong order, and another upload in between. *)
Example two_pieces :
  match open_staging new (path "t1") (path "d/f") 4 with
  | Ok (fs, w) =>
      let b := run hash (mkBackend fs [] U64_MAX 0)
        [WriteAt w 2 [3; 4]; OpenStaging (path "t2") (path "d/f") 9 false; WriteAt (new_memory 1 (path "t2") (path "d/f")) 0 [9];
         WriteAt w 0 [1; 2]] in
      match commit hash (inner b) (path "t1") (path "d/f") dir_meta with
      | Ok fs' => (get_file_data fs' (path "d/f"), read_at [1; 2; 3; 4] 1 2, bool_decide (path "d" ∈ dirs fs')) = (Some [1; 2; 3; 4], [2; 3], true)
      | _ => False
      end
  | _ => False
  end.
Proof. by vm_compute. Qed.

(** [pieces_published] on that upload. *)
Example two_pieces_published :
  exists fs w fs', open_staging new (path "t1") (path "d/f") 4 = Ok (fs, w) /\
    commit hash (inner (run hash (mkBackend fs (lit "/memory") U64_MAX 0) [WriteAt w 2 [3; 4]; WriteAt w 0 [1; 2]]))
      (path "t1") (path "d/f") dir_meta = Ok fs' /\ get_file_data fs' (path "d/f") = Some [1; 2; 3; 4].
Proof.
  destruct (open_staging new (path "t1") (path "d/f") 4) as [[fs w]| |] eqn:E; [|by vm_compute in E..].
  exists fs, w.
  destruct (pieces_published hash new (path "t1") (path "d/f") 4 fs w [WriteAt w 2 [3; 4]; WriteAt w 0 [1; 2]] dir_meta
    [1; 2; 3; 4]) as (fs' & Hc & Hd); [done|by repeat constructor| | | | |by exists fs'].
  - repeat constructor; simpl; unfold ISIZE_MAX; len.
  - simpl. rewrite Nat.eqb_refl. simpl. repeat constructor; simpl; try lia; [exists []|exists [3; 4]]; done.
  - simpl. rewrite Nat.eqb_refl. simpl. repeat constructor; simpl; lia.
  - simpl. rewrite Nat.eqb_refl. simpl. intros i Hi. destruct (decide (i < 2)%nat).
    + apply Exists_cons_tl, Exists_cons_hd. unfold covers. simpl. lia.
    + apply Exists_cons_hd. unfold covers. simpl. lia.
Qed.

(** A directory that is removed with files below it: the files stay, its parent still lists it, and
    it does not exist. *)
Example removed_dir :
  let fs := go [InsertFile (path "a/f") [1] 0 0; Remove (path "a")] in
  (exists_ fs (path "a"), exists_ fs (path "a/f"), names (list_dir fs [])) = (false, true, [(path "a", 1)]).
Proof. by vm_compute. Qed.

(** Files further down appear as children, once each and with the metadata of a file. *)
Example nested_listed :
  let fs := go [InsertFile (path "a/b/c") [1] 33188 0; InsertFile (path "a/b/d") [1; 2; 3] 33188 0] in
  (Permutation (names (list_dir fs (path "a"))) [(path "b", 1); (path "b", 3)]) /\ stat fs (path "a/b") = Some dir_meta.
Proof. split; [|by vm_compute]. vm_compute. first [reflexivity|apply perm_swap]. Qed.

(** The space of uploads under way is not counted: two that fit one by one exceed the capacity. *)
Example overcommitted :
  let ten := repeat 7 10 in
  let b := run hash (new_with_capacity 16 0)
    [OpenStaging (path "t") (path "f") 10 false; OpenStaging (path "t") (path "g") 10 false;
     WriteAt (new_memory 0 (path "t") (path "f")) 0 ten; WriteAt (new_memory 1 (path "t") (path "g")) 0 ten;
     Commit (path "t") (path "f") dir_meta; Commit (path "t") (path "g") dir_meta] in
  (total_stored_bytes (inner b), capacity_bytes b, available_space b) = (20, 16, 0).
Proof. by vm_compute. Qed.

(** A link renamed over a file: the call succeeds and the file is still what is there. *)
Example link_renamed :
  let fs := go [InsertFile (path "f") [1; 2] 33188 0; CreateSymlink (path "l") (path "t"); RenameFile (path "l") (path "f")] in
  (size <$> stat fs (path "f"), exists_ fs (path "l"), symlinks fs !! path "f") = (Some 2, false, Some (path "t")).
Proof. by vm_compute. Qed.

(** A directory cannot be renamed. *)
Example dir_renamed : rename_file hash (go [InsertFile (path "a/f") [1] 0 0]) (path "a") (path "b") = Err not_found.
Proof. by vm_compute. Qed.

(** An upload opened again from the start takes the place of the first: what its writer writes is lost. *)
Example stale_writer :
  let fs := go [OpenStaging (path "t") (path "f") 0 false; OpenStaging (path "t") (path "f") 0 false;
                WriteAt (new_memory 0 (path "t") (path "f")) 0 [1]; WriteAt (new_memory 1 (path "t") (path "f")) 0 [2; 2];
                Commit (path "t") (path "f") dir_meta] in
  get_file_data fs (path "f") = Some [2; 2].
Proof. by vm_compute. Qed.
End MemoryExamples.
