(* ===== verification/Authorization.v ===== *)
(** * Authorization, auth/mod.rs, and the deletions it governs in session/server.rs

    Permissions, roles, the grants of a configuration file, [FileAuthorizer] with its choice of the
    longest prefix, the policy and the limiter of deletions, and the branch of
    [handle_transfer_create] that deletes. TOML is outside: [load] takes the parsed grants. The
    lower-casing of names is that of ASCII; no other character has a lower-case form that occurs in the
    names it is compared with. The texts of configuration errors are left out. *)

From S2P Require Import Prelude Utf8 Protocol Paths SlidingWindow MsgTransfer StateStore Ledger.
Import Str.

(** ** Permissions *)
Module PermSet.
Definition t : Type := Z.
Definition UPLOAD : t := Z.shiftl 1 0.
Definition DOWNLOAD : t := Z.shiftl 1 1.
Definition LIST : t := Z.shiftl 1 2.
Definition DELETE : t := Z.shiftl 1 3.
Definition SYNC : t := Z.shiftl 1 4.
Definition RESUME : t := Z.shiftl 1 5.
Definition ADMIN : t := Z.shiftl 1 6.
Definition SYNC_DELETE : t := Z.shiftl 1 7.
Definition from_wire (bits : Z) : t := bits.
Definition to_wire (p : t) : Z := p.
Definition has (p perm : t) : bool := negb (Z.land p perm =? 0).
Definition union (p q : t) : t := Z.lor p q.
Definition ALL_TRANSFER : t := Z.lor (Z.lor (Z.lor (Z.lor UPLOAD DOWNLOAD) LIST) SYNC) RESUME.
End PermSet.

Inductive Role := RAdmin | ROperator | RSyncWriter | RSyncReplica | RReadOnly.

Definition permissions (r : Role) : PermSet.t :=
  match r with
  | RAdmin => PermSet.union (PermSet.union (PermSet.union PermSet.ADMIN PermSet.ALL_TRANSFER) PermSet.DELETE) PermSet.SYNC_DELETE
  | ROperator => PermSet.union PermSet.ALL_TRANSFER PermSet.DELETE
  | RSyncWriter =>
      PermSet.union (PermSet.union (PermSet.union (PermSet.union PermSet.UPLOAD PermSet.DOWNLOAD) PermSet.LIST) PermSet.SYNC) PermSet.RESUME
  | RSyncReplica =>
      PermSet.union (PermSet.union (PermSet.union (PermSet.union (PermSet.union PermSet.UPLOAD PermSet.DOWNLOAD) PermSet.LIST)
        PermSet.SYNC) PermSet.RESUME) PermSet.SYNC_DELETE
  | RReadOnly => PermSet.union PermSet.DOWNLOAD PermSet.LIST
  end.

Definition config_error (why : string) : VelcruxError := EConfig why.
Definition DASH : Z := 45.
Definition UNDERSCORE : Z := 95.
Definition is_text (s : bytes) (w : string) : bool := bool_decide (s = lit w).

Definition role_from_str (s : bytes) : outcome VelcruxError Role :=
  let s := replace [DASH] [UNDERSCORE] (to_ascii_lowercase (trim s)) in
  if is_text s "admin" then Ok RAdmin
  else if is_text s "operator" then Ok ROperator
  else if is_text s "sync_writer" then Ok RSyncWriter
  else if is_text s "sync_replica" then Ok RSyncReplica
  else if is_text s "read_only" || is_text s "readonly" then Ok RReadOnly
  else Err (config_error "unknown role").

Inductive Op := Upload | Download | List | Delete | Sync | Resume | Admin | SyncDelete.
#[global] Instance Op_eq_dec : EqDecision Op.
Proof. solve_decision. Defined.

Definition required_perm (o : Op) : PermSet.t :=
  match o with
  | Upload => PermSet.UPLOAD
  | Download => PermSet.DOWNLOAD
  | List => PermSet.LIST
  | Delete => PermSet.DELETE
  | Sync => PermSet.SYNC
  | Resume => PermSet.RESUME
  | Admin => PermSet.ADMIN
  | SyncDelete => PermSet.SYNC_DELETE
  end.

Inductive DeletionPolicy := AdminOnly | ExplicitGrant | Disabled | RateLimited (max_deletions window_secs : Z).

Definition policy_from_str (s : bytes) : outcome VelcruxError DeletionPolicy :=
  let s := replace [UNDERSCORE] [DASH] (to_ascii_lowercase (trim s)) in
  if is_text s "admin-only" || is_text s "admin" then Ok AdminOnly
  else if is_text s "explicit-grant" || is_text s "explicit" then Ok ExplicitGrant
  else if is_text s "disabled" || is_text s "deny" || is_text s "none" then Ok Disabled
  else if is_text s "rate-limited" then Ok (RateLimited 60 60)
  else Err (config_error "unknown deletion policy").

(** ** The limiter of deletions *)
Module DeletionLimiter.
Record t := mk { history : gmap bytes (list Z) }.
Definition new : t := mk ∅.
Definition reset (l : t) : t := mk ∅.

(** [Instant]s are times of one clock; [duration_since] saturates. *)
Definition check_and_record (l : t) (now : Z) (identity : bytes) (max_deletions window_secs : Z) : bool * t :=
  let timestamps := default [] (history l !! identity) in
  let timestamps := filter (fun ts => saturating_sub now ts <= window_secs) timestamps in
  if max_deletions <=? wrap 32 (zlen timestamps) then (false, mk (<[identity := timestamps]> (history l)))
  else (true, mk (<[identity := timestamps ++ [now]]> (history l))).
End DeletionLimiter.

(** ** Grants *)
Record Grant := mkGrant { identity : bytes; path_prefix : bytes; granted : PermSet.t }.
Record GrantToml := mkGrantToml { t_identity : bytes; t_path : bytes; t_permissions : list bytes; t_role : option bytes }.

(** [trim_start_matches('/')] and [trim_end_matches('/')]. *)
Fixpoint trim_start_slashes (s : bytes) : bytes :=
  match s with c :: s' => if c =? SLASH then trim_start_slashes s' else s | [] => [] end.
Definition trim_slashes (s : bytes) : bytes := reverse (trim_start_slashes (reverse (trim_start_slashes s))).

Definition normalize_grant_prefix (raw : bytes) : outcome VPath.VPathError bytes :=
  let trimmed := trim_slashes raw in
  if bool_decide (trimmed = []) then Ok [] else VPath.validate trimmed.

Definition permission_bit (p : bytes) : option PermSet.t :=
  if is_text p "upload" then Some PermSet.UPLOAD
  else if is_text p "download" then Some PermSet.DOWNLOAD
  else if is_text p "list" then Some PermSet.LIST
  else if is_text p "delete" then Some PermSet.DELETE
  else if is_text p "sync" then Some PermSet.SYNC
  else if is_text p "resume" then Some PermSet.RESUME
  else if is_text p "admin" then Some PermSet.ADMIN
  else if is_text p "sync_delete" || is_text p "sync-delete" then Some PermSet.SYNC_DELETE
  else None.

Definition grant_from_toml (g : GrantToml) : outcome VelcruxError Grant :=
  let? perms := match t_role g with
                | Some r => let? role := role_from_str r in Ok (PermSet.union 0 (permissions role))
                | None => Ok 0
                end in
  let? perms := for_each (t_permissions g) (fun p perms =>
                  let? bit := ok_or (permission_bit p) (config_error "unknown permission") in
                  Ok (PermSet.union perms bit)) perms in
  let? prefix := map_err (fun _ => config_error "invalid grant path") (normalize_grant_prefix (t_path g)) in
  Ok (mkGrant (t_identity g) prefix perms).

(** ** The authorizer *)
Module FileAuthorizer.
Definition t : Type := list Grant.
Definition new : t := [].
Definition from_grants (gs : list Grant) : t := gs.

(** The file's text, or the failure to read it, and the grants TOML finds in a text. *)
Definition load (read : outcome VelcruxError bytes) (toml : bytes -> option (list GrantToml)) : outcome VelcruxError t :=
  let? content := map_err (fun _ => config_error "read auth file") read in
  let? cfg := ok_or (toml content) (config_error "parse auth file") in
  for_each cfg (fun g grants => let? g := grant_from_toml g in Ok (grants ++ [g])) [].
End FileAuthorizer.

Definition prefix_match_len (grant_prefix path : bytes) : option Z :=
  let gp := trim_slashes grant_prefix in
  if bool_decide (gp = []) then Some 0
  else if bool_decide (path = gp) then Some (zlen gp)
  else if (zlen gp <? zlen path) && starts_with gp path && bool_decide (path !! length gp = Some SLASH)
  then Some (zlen gp)
  else None.

Fixpoint best_grant (gs : list Grant) (name path : bytes) (best : option Grant) (best_len : option Z) : option Grant :=
  match gs with
  | [] => best
  | g :: gs' =>
      if negb (bool_decide (identity g = name)) then best_grant gs' name path best best_len
      else
        match prefix_match_len (path_prefix g) path with
        | Some plen =>
            if match best_len with None => true | Some b => b <? plen end
            then best_grant gs' name path (Some g) (Some plen)
            else best_grant gs' name path best best_len
        | None => best_grant gs' name path best best_len
        end
  end.

Definition allows (p : PermSet.t) (o : Op) : bool :=
  if decide (o = SyncDelete) then PermSet.has p PermSet.SYNC_DELETE || (PermSet.has p PermSet.ADMIN && PermSet.has p PermSet.DELETE)
  else PermSet.has p (required_perm o).

Definition check (a : FileAuthorizer.t) (name : bytes) (o : Op) (raw_path : bytes) : outcome VelcruxError VPath.t :=
  let trimmed := trim_slashes raw_path in
  let? vpath :=
    if bool_decide (trimmed = []) then
      if bool_decide (o = Sync) || bool_decide (o = List) then Ok VPath.root else Err (EProtocol InvalidPath)
    else map_err (fun _ => EProtocol InvalidPath) (VPath.validate trimmed) in
  let? grant := ok_or (best_grant a name trimmed None None) (EProtocol PermissionDenied) in
  if allows (granted grant) o then Ok vpath else Err (EProtocol PermissionDenied).

Definition granted_permissions (a : FileAuthorizer.t) (name : bytes) : PermSet.t :=
  foldl (fun perms g => if bool_decide (identity g = name) then PermSet.union perms (granted g) else perms) 0 a.

(** ** The authorizer decides by the longest prefix *)

(** A directory covers a path whose first components are its own; the root covers every path. *)
Definition covers (p v : bytes) : Prop := p = [] \/ split_on SLASH p `prefix_of` split_on SLASH v.

Lemma split_cat a b : split_on SLASH (a ++ SLASH :: b) = split_on SLASH a ++ split_on SLASH b.
Proof.
  unfold split_on. induction a as [|x a IH]; [done|]. cbn [split app]. rewrite IH.
  pose proof (split_nonnil (Z.eqb SLASH) a). destruct (split (Z.eqb SLASH) a) as [|c cs] eqn:E; [done|].
  by destruct (SLASH =? x).
Qed.

Lemma join_cat cs ds : cs <> [] -> ds <> [] -> join (cs ++ ds) = join cs ++ SLASH :: join ds.
Proof.
  destruct cs as [|c cs], ds as [|d ds]; try done. intros _ _.
  rewrite (join_cons c cs), (join_cons d ds), <- app_comm_cons, join_cons, fmap_app, join_app, <- app_assoc. done.
Qed.

Lemma covers_bytes p v : p <> [] -> covers p v <-> v = p \/ exists s, v = p ++ SLASH :: s.
Proof.
  intros Hne. split.
  - intros [?|[k Hk]]; [done|]. destruct (decide (k = [])) as [->|Hk0].
    + left. rewrite app_nil_r in Hk. by rewrite <- (join_split v), Hk, join_split.
    + right. exists (join k). rewrite <- (join_split v), Hk, join_cat, join_split; [done|apply split_nonnil|done].
  - intros [->|[s ->]]; right; [done|]. rewrite split_cat. by eexists.
Qed.

Lemma prefix_match_spec gp path n :
  prefix_match_len gp path = Some n <-> covers (trim_slashes gp) path /\ n = zlen (trim_slashes gp).
Proof.
  unfold prefix_match_len. set (p := trim_slashes gp). destruct (decide (p = [])) as [->|Hne].
  - rewrite bool_decide_eq_true_2 by done. unfold covers. naive_solver.
  - rewrite (bool_decide_eq_false_2 (p = [])), covers_bytes by done.
    destruct (decide (path = p)) as [->|Hp]; [rewrite bool_decide_eq_true_2 by done; naive_solver|].
    rewrite bool_decide_eq_false_2 by done.
    destruct (_ && _ && _) eqn:E.
    + rewrite !andb_true_iff, bool_decide_eq_true, starts_with_prefix in E. destruct E as [[_ [s Hs]] Hl].
      rewrite Hs, lookup_app_r, Nat.sub_diag in Hl by lia. destruct s as [|c s]; [done|]. injection Hl as ->.
      rewrite Hs. naive_solver.
    + split; [done|]. intros [[?|[s ->]] _]; [done|]. exfalso. apply not_true_iff_false in E. apply E.
      rewrite !andb_true_iff, bool_decide_eq_true, starts_with_prefix, lookup_app_r, Nat.sub_diag by lia.
      split; [split; [apply Z.ltb_lt; len|by eexists]|done].
Qed.

Section governs.
Context (name v : bytes).
Implicit Types g : Grant.

Definition applies g : Prop := identity g = name /\ covers (trim_slashes (path_prefix g)) v.
Definition depth g : Z := zlen (trim_slashes (path_prefix g)).

(** The grant that decides: of those that apply, the first with the longest prefix. *)
Definition governs (gs : list Grant) g : Prop :=
  exists pre post, gs = pre ++ g :: post /\ applies g /\
    Forall (fun g' => applies g' -> depth g' < depth g) pre /\
    Forall (fun g' => applies g' -> depth g' <= depth g) post.

Lemma governs_most gs g : governs gs g -> Forall (fun g' => applies g' -> depth g' <= depth g) gs.
Proof.
  intros (pre & post & -> & ? & Hpre & ?). apply Forall_app. split; [|by constructor].
  eapply Forall_impl; [exact Hpre|]. simpl. intros x Hx Ha. specialize (Hx Ha). lia.
Qed.

Lemma governs_snoc gs g x : governs gs g -> (applies x -> depth x <= depth g) -> governs (gs ++ [x]) g.
Proof.
  intros (pre & post & -> & ? & ? & ?) Hx. exists pre, (post ++ [x]). rewrite <- app_assoc. repeat split; try done; try apply H.
  apply Forall_app. by repeat constructor.
Qed.

Lemma governs_unique gs g g' : governs gs g -> governs gs g' -> g = g'.
Proof.
  intros (pre & post & -> & Ha & Hpre & Hpost) (pre' & post' & E & Ha' & Hpre' & Hpost').
  apply app_eq_inv in E as [([|y k] & E1 & E2)|([|y k] & E1 & E2)]; simplify_eq/=; try done.
  - apply Forall_app in Hpre as [_ Hpre]. inversion_clear Hpre as [|? ? Hy _]. specialize (Hy Ha').
    apply Forall_app in Hpost' as [_ Hpost']. inversion_clear Hpost' as [|? ? Hy' _]. specialize (Hy' Ha). lia.
  - apply Forall_app in Hpre' as [_ Hpre']. inversion_clear Hpre' as [|? ? Hy _]. specialize (Hy Ha).
    apply Forall_app in Hpost as [_ Hpost]. inversion_clear Hpost as [|? ? Hy' _]. specialize (Hy' Ha'). lia.
Qed.

(** What the loop knows after the grants [seen]. *)
Definition best_of (seen : list Grant) (best : option Grant) (len : option Z) : Prop :=
  match best with
  | None => len = None /\ Forall (fun g => ~ applies g) seen
  | Some g => len = Some (depth g) /\ governs seen g
  end.

Lemma best_step seen x best len : best_of seen best len ->
  (~ applies x -> best_of (seen ++ [x]) best len) /\
  (applies x -> (match len with None => true | Some b => b <? depth x end) = true -> best_of (seen ++ [x]) (Some x) (Some (depth x))) /\
  (applies x -> (match len with None => true | Some b => b <? depth x end) = false -> best_of (seen ++ [x]) best len).
Proof.
  unfold best_of. destruct best as [g|].
  - intros [-> Hg]. repeat split; try done.
    + by apply governs_snoc.
    + exists seen, []. split; [done|]. split; [done|]. split; [|done].
      eapply Forall_impl; [by apply governs_most in Hg|]. simpl. intros y Hy Ha. specialize (Hy Ha). lia.
    + apply governs_snoc; [done|]. lia.
  - intros [-> Hn]. split; [intros; split; [done|]; apply Forall_app; by repeat constructor|]. split; [|done].
    intros Ha _. split; [done|]. exists seen, []. repeat split; try done; try apply Ha.
    eapply Forall_impl; [exact Hn|]. done.
Qed.

Lemma best_grant_run gs seen best len : best_of seen best len ->
  exists len', best_of (seen ++ gs) (best_grant gs name v best len) len'.
Proof.
  revert seen best len. induction gs as [|x gs IH]; intros seen best len H; simpl; [rewrite app_nil_r; eauto|].
  rewrite cons_middle, app_assoc. destruct (best_step seen x best len H) as (B1 & B2 & B3).
  destruct (decide (identity x = name)) as [Hi|Hi].
  - rewrite bool_decide_eq_true_2 by done. simpl.
    destruct (prefix_match_len (path_prefix x) v) as [n|] eqn:E.
    + apply prefix_match_spec in E as [Hc ->]. assert (applies x) as Ha by done. fold (depth x).
      destruct (match len with None => true | Some b => b <? depth x end) eqn:L; eauto.
    + apply IH, B1. intros [_ Hc].
      assert (prefix_match_len (path_prefix x) v = Some (depth x)) by (by apply prefix_match_spec). congruence.
  - rewrite bool_decide_eq_false_2 by done. simpl. apply IH, B1. by intros [? _].
Qed.

Lemma best_grant_spec gs g : best_grant gs name v None None = Some g <-> governs gs g.
Proof.
  destruct (best_grant_run gs [] None None) as [len H]; [by split|]. simpl in H.
  destruct (best_grant gs name v None None) as [g'|]; unfold best_of in H.
  - destruct H as [_ H]. split; [by intros [= <-]|]. intros Hg. f_equal. by eapply governs_unique.
  - split; [done|]. intros (pre & post & -> & Ha & _). destruct H as [_ H].
    apply Forall_app in H as [_ H]. by inversion_clear H.
Qed.

Lemma best_grant_none gs : best_grant gs name v None None = None <-> Forall (fun g => ~ applies g) gs.
Proof.
  destruct (best_grant_run gs [] None None) as [len H]; [by split|]. simpl in H.
  destruct (best_grant gs name v None None) as [g'|]; unfold best_of in H; [|by destruct H].
  split; [done|]. intros Hn. destruct H as [_ (pre & post & -> & Ha & _)].
  apply Forall_app in Hn as [_ Hn]. by inversion_clear Hn.
Qed.
End governs.

(** The paths that can be asked for: a valid path, or the root to be listed or synchronised. *)
Definition askable (o : Op) (v : bytes) : Prop := v = [] /\ (o = Sync \/ o = List) \/ VPath.valid_path v.

Lemma path_of_spec o v r :
  (if bool_decide (v = []) then
     if bool_decide (o = Sync) || bool_decide (o = List) then Ok VPath.root else Err (EProtocol InvalidPath)
   else map_err (fun _ => EProtocol InvalidPath) (VPath.validate v)) = r ->
  askable o v /\ r = Ok v \/ ~ askable o v /\ r = Err (EProtocol InvalidPath).
Proof.
  intros <-. unfold askable. destruct (decide (v = [])) as [->|Hv].
  - rewrite bool_decide_eq_true_2 by done. destruct (_ || _) eqn:E.
    + left. rewrite orb_true_iff, !bool_decide_eq_true in E. by split; [left|].
    + right. rewrite orb_false_iff, !bool_decide_eq_false in E. split; [|done]. intros [[_ ?]|[? _]]; naive_solver.
  - rewrite bool_decide_eq_false_2 by done. destruct (VPath.validate v) as [w|e|] eqn:E; simpl.
    + apply VPath.validate_ok_iff in E as [-> ?]. left. by split; [right|].
    + right. split; [|done]. intros [[? _]|Hp]; [done|].
      assert (VPath.validate v = Ok v) by (by apply VPath.validate_ok_iff). congruence.
    + by apply VPath.validate_no_panic in E.
Qed.

Lemma askable_dec o v : askable o v \/ ~ askable o v.
Proof. destruct (path_of_spec o v _ eq_refl) as [[? _]|[? _]]; auto. Qed.

(** [check] grants exactly what the grants say: the path without outer slashes, when it can be asked for
    and the first of the longest covering grants of this identity carries the permission. *)
Lemma check_spec a name o raw v : check a name o raw = Ok v <->
  v = trim_slashes raw /\ askable o v /\ exists g, governs name v a g /\ allows (granted g) o = true.
Proof.
  unfold check. set (w := trim_slashes raw).
  destruct (path_of_spec o w _ eq_refl) as [[Ha ->]|[Hn ->]]; simpl.
  - destruct (best_grant a name w None None) as [g|] eqn:E; simpl.
    + apply best_grant_spec in E. destruct (allows (granted g) o) eqn:L.
      * split; [intros [= <-]; eauto|]. by intros (-> & _).
      * split; [done|]. intros (-> & _ & g' & Hg & Hl). assert (g' = g) as -> by (by eapply governs_unique). congruence.
    + split; [done|]. intros (-> & _ & g & Hg & _). apply best_grant_spec in Hg. congruence.
  - split; [done|]. intros (-> & ? & _). done.
Qed.

(** Every refusal is one of two errors: a path that cannot be asked for is [InvalidPath] whatever the
    grants say, everything else is [PermissionDenied]. *)
Lemma check_errors a name o raw :
  (~ askable o (trim_slashes raw) -> check a name o raw = Err (EProtocol InvalidPath)) /\
  (askable o (trim_slashes raw) ->
   check a name o raw = Ok (trim_slashes raw) \/ check a name o raw = Err (EProtocol PermissionDenied)).
Proof.
  unfold check. destruct (path_of_spec o (trim_slashes raw) _ eq_refl) as [[Ha ->]|[Hn ->]]; simpl; [|by split].
  split; [done|]. intros _. destruct (best_grant _ _ _ _ _); simpl; [|by right]. destruct (allows _ _); auto.
Qed.

(** C9. The authorizer answers every request as the grants say, after it has removed all leading and trailing slashes of the
    path, so that an absolute path is taken for the relative one. When what is left is no valid path, or nothing is left and the operation is neither [Sync]
    nor [List], the answer is [InvalidPath] whatever the grants; otherwise the first of the longest grants that cover it, component
    by component, for this identity decides: the answer is the path without outer slashes when there is such a
    grant and it carries the permission, and [PermissionDenied] in every other case. *)
Theorem authorization_exact a name o raw :
  let v := trim_slashes raw in
  let permitted := exists g, governs name v a g /\ allows (granted g) o = true in
  (check a name o raw = Ok v <-> askable o v /\ permitted) /\
  (check a name o raw = Err (EProtocol InvalidPath) <-> ~ askable o v) /\
  (check a name o raw = Err (EProtocol PermissionDenied) <-> askable o v /\ ~ permitted).
Proof.
  intros v permitted. pose proof (check_spec a name o raw v) as Hok. destruct (check_errors a name o raw) as [Hinv Hden].
  fold v in Hinv, Hden. destruct (askable_dec o v) as [Ha|Hn].
  - destruct (Hden Ha) as [E|E]; rewrite E in Hok |- *.
    + assert permitted as Hp by (by apply Hok). split; [tauto|]. split; (split; [done|tauto]).
    + assert (~ permitted) as Hp by (intros Hp; assert (Err (EProtocol PermissionDenied) = Ok v) by (by apply Hok); done).
      split; [split; [done|tauto]|]. split; [split; [done|tauto]|tauto].
  - rewrite (Hinv Hn). split; [split; [done|tauto]|]. split; [done|]. split; [done|tauto].
Qed.

(** Deny by default: an identity without a grant that covers the path gets nothing. *)
Theorem deny_by_default a name o raw :
  Forall (fun g => ~ applies name (trim_slashes raw) g) a -> check a name o raw <> Ok (trim_slashes raw).
Proof.
  intros Hn Hc. apply check_spec in Hc as (_ & _ & g & (pre & post & -> & Ha & _) & _).
  apply Forall_app in Hn as [_ Hn]. by inversion_clear Hn.
Qed.

(** ** Permissions and grants *)

Lemma has_union p q b : PermSet.has (PermSet.union p q) b = PermSet.has p b || PermSet.has q b.
Proof.
  unfold PermSet.has, PermSet.union. rewrite Z.land_lor_distr_l, <- negb_andb. f_equal.
  apply eq_bool_prop_intro. rewrite andb_True, !Is_true_true, !Z.eqb_eq. apply Z.lor_eq_0_iff.
Qed.

Lemma has_0 b : PermSet.has 0 b = false.
Proof. done. Qed.

(** The permissions announced to a client are those of all its grants. *)
Theorem granted_permissions_spec a name b : PermSet.has (granted_permissions a name) b = true <->
  exists g, g ∈ a /\ identity g = name /\ PermSet.has (granted g) b = true.
Proof.
  unfold granted_permissions.
  assert (forall acc, PermSet.has (foldl (fun perms g => if bool_decide (identity g = name) then PermSet.union perms (granted g) else perms) acc a) b = true
    <-> PermSet.has acc b = true \/ exists g, g ∈ a /\ identity g = name /\ PermSet.has (granted g) b = true) as G.
  { induction a as [|g a IH]; intros acc; simpl; [set_solver|]. rewrite IH. setoid_rewrite elem_of_cons.
    case_bool_decide as Hg; [rewrite has_union, orb_true_iff|].
    - split; [intros [[?|?]|(g' & ? & ?)]; eauto 6|]. intros [?|(g' & [->|?] & ? & ?)]; eauto 6.
    - split; [intros [?|(g' & ? & ?)]; eauto 6|]. intros [?|(g' & [->|?] & ? & ?)]; [by left|done|eauto 6]. }
  rewrite G, has_0. naive_solver.
Qed.

(** What an operation needs is among the permissions announced. *)
Theorem check_announced a name o raw v : check a name o raw = Ok v -> o <> SyncDelete ->
  PermSet.has (granted_permissions a name) (required_perm o) = true.
Proof.
  intros (_ & _ & g & (pre & post & -> & [Hi _] & _) & Hl)%check_spec Ho. apply granted_permissions_spec.
  exists g. unfold allows in Hl. rewrite decide_False in Hl by done. set_solver.
Qed.

(** The permissions that a configuration names, by its role and one by one. *)
Definition named (g : GrantToml) (b : PermSet.t) : Prop :=
  (exists r role, t_role g = Some r /\ role_from_str r = Ok role /\ PermSet.has (permissions role) b = true) \/
  exists p bit, p ∈ t_permissions g /\ permission_bit p = Some bit /\ PermSet.has bit b = true.

Lemma named_bits ps perms out :
  for_each ps (fun p perms => let? bit := ok_or (permission_bit p) (config_error "unknown permission") in
    Ok (PermSet.union perms bit)) perms = Ok out ->
  Forall (fun p => is_Some (permission_bit p)) ps /\
  forall b, PermSet.has out b = true <-> PermSet.has perms b = true \/
    exists p bit, p ∈ ps /\ permission_bit p = Some bit /\ PermSet.has bit b = true.
Proof.
  revert perms. induction ps as [|p ps IH]; intros perms; simpl; [intros [= <-]; split; [constructor|set_solver]|].
  destruct (permission_bit p) as [bit|] eqn:E; simpl; [|done]. intros H. apply IH in H as [Hs H].
  split; [constructor; [by eexists|done]|]. intros b. rewrite H, has_union, orb_true_iff.
  setoid_rewrite elem_of_cons. split.
  - intros [[?|?]|(p' & b' & ? & ? & ?)]; [by left|right; exists p, bit; auto|right; exists p', b'; auto].
  - intros [?|(p' & b' & [->|?] & E' & ?)]; [by left; left|left; right; congruence|right; by exists p', b'].
Qed.

(** A grant that is accepted carries exactly the permissions that were named, all of them known, on a
    directory that a client could name, or on the root. *)
Theorem grant_exact t g : grant_from_toml t = Ok g ->
  identity g = t_identity t /\ path_prefix g = trim_slashes (t_path t) /\
  (path_prefix g = [] \/ VPath.valid_path (path_prefix g)) /\
  Forall (fun p => is_Some (permission_bit p)) (t_permissions t) /\
  forall b, PermSet.has (granted g) b = true <-> named t b.
Proof.
  unfold grant_from_toml, normalize_grant_prefix.
  destruct (match t_role t with Some _ => _ | None => _ end) as [p0| |] eqn:R; simpl; try done.
  destruct (for_each _ _ _) as [p1| |] eqn:F; simpl; try done. apply named_bits in F as [Hk Hb].
  assert (forall b, PermSet.has p0 b = true <->
    exists r role, t_role t = Some r /\ role_from_str r = Ok role /\ PermSet.has (permissions role) b = true) as H0.
  { intros b. destruct (t_role t) as [r|].
    - destruct (role_from_str r) as [role| |] eqn:E; simpl in R; try done. injection R as <-.
      rewrite has_union, has_0. simpl. split; [eauto|]. intros (r0 & role0 & [= <-] & ? & ?). congruence.
    - injection R as <-. rewrite has_0. split; [done|]. by intros (? & ? & ? & _). }
  assert (forall b, PermSet.has p1 b = true <-> named t b) as Hn.
  { intros b. unfold named. rewrite Hb, H0. done. }
  destruct (decide (trim_slashes (t_path t) = [])) as [E|E].
  - rewrite bool_decide_eq_true_2 by done. simpl. intros [= <-]. simpl. rewrite E. auto 10.
  - rewrite bool_decide_eq_false_2 by done. destruct (VPath.validate _) as [w| |] eqn:V; simpl; try done.
    intros [= <-]. apply VPath.validate_ok_iff in V as [-> ?]. simpl. auto 10.
Qed.

(** ** Deletions within the limit *)
Section limiter.
Context (max_deletions window_secs : Z).

Definition limiter_calls : Type := list (bytes * Z).
(** The times at which the calls let [name] delete. *)
Fixpoint deletions (l : DeletionLimiter.t) (name : bytes) (ks : limiter_calls) : list Z :=
  match ks with
  | [] => []
  | (who, now) :: ks' =>
      let '(yes, l') := DeletionLimiter.check_and_record l now who max_deletions window_secs in
      (if yes && bool_decide (who = name) then [now] else []) ++ deletions l' name ks'
  end.
Fixpoint monotone (now : Z) (ks : limiter_calls) : Prop :=
  match ks with [] => True | (_, t) :: ks' => now <= t /\ monotone t ks' end.

Definition kept (l : DeletionLimiter.t) (name : bytes) : list Z := default [] (DeletionLimiter.history l !! name).

(** The retained times are those of the window. *)
Lemma retained_window now l : 0 <= window_secs -> Forall (fun x => 0 <= x) l ->
  filter (fun ts => saturating_sub now ts <= window_secs) l = filter (fun x => saturating_sub now window_secs <= x) l.
Proof. intros HW H. apply filter_agree. eapply Forall_impl; [exact H|]. unfold saturating_sub. simpl. lia. Qed.

(** The limiter is in step with the times [ts] at which [name] deleted so far. *)
Definition in_step (l : DeletionLimiter.t) (name : bytes) (now : Z) (ts : list Z) : Prop :=
  tracked window_secs now ts (kept l name) /\ Forall (fun x => 0 <= x) (kept l name) /\
  zlen (kept l name) <= max_deletions /\ limited max_deletions window_secs ts.

Lemma limiter_step l who t name now ts : fits 32 max_deletions -> 0 <= window_secs -> now <= t -> 0 <= t ->
  in_step l name now ts ->
  let '(yes, l') := DeletionLimiter.check_and_record l t who max_deletions window_secs in
  in_step l' name t (ts ++ if yes && bool_decide (who = name) then [t] else []).
Proof.
  intros Hm HW Hn H0 (Ht & Hp & Hk & Hl). apply (tracked_later _ _ t) in Ht; [|done].
  unfold DeletionLimiter.check_and_record, in_step.
  destruct (decide (who = name)) as [->|Hne].
  - fold (kept l name). rewrite retained_window by done. set (r := filter _ (kept l name)).
    assert (Forall (fun x => 0 <= x) r) as Hr.
    { rewrite Forall_forall in Hp |- *. intros x [_ ?]%list_elem_of_filter. by apply Hp. }
    assert (zlen r <= max_deletions) as Hz.
    { pose proof (length_filter (fun x => saturating_sub t window_secs <= x) (kept l name)). unfold r, zlen in *. lia. }
    apply tracked_retain in Ht. fold r in Ht. unfold wrap, fits in *. pose proof (zlen_nonneg r).
    rewrite Z.mod_small by lia. rewrite bool_decide_eq_true_2 by done.
    destruct (Z.leb_spec max_deletions (zlen r)); unfold kept; simpl; rewrite lookup_insert_eq; simpl.
    + by rewrite app_nil_r.
    + split; [by apply tracked_snoc|]. split; [apply Forall_app; by repeat constructor|].
      split; [len|by eapply limited_snoc].
  - destruct (_ <=? _); unfold kept; simpl; rewrite lookup_insert_ne by done;
      rewrite ?bool_decide_eq_false_2, app_nil_r by done; done.
Qed.

Lemma limiter_run ks l name now ts : fits 32 max_deletions -> 0 <= window_secs -> 0 <= now -> monotone now ks ->
  in_step l name now ts -> limited max_deletions window_secs (ts ++ deletions l name ks).
Proof.
  intros Hm HW. revert l now ts. induction ks as [|[who t] ks IH]; intros l now ts H0 Hc Hs; simpl.
  - rewrite app_nil_r. apply Hs.
  - destruct Hc as [Hn Hc]. pose proof (limiter_step l who t name now ts Hm HW Hn ltac:(lia) Hs) as Hstep.
    destruct (DeletionLimiter.check_and_record _ _ _ _ _) as [yes l']. rewrite app_assoc. apply (IH l' t); [lia|done|done].
Qed.

(** Under a policy of [max_deletions] per [window_secs], no identity is let through more often in any
    span of that length, whoever else deletes. *)
Theorem deletions_limited ks name a : fits 32 max_deletions -> 0 <= window_secs -> monotone 0 ks -> 0 <= a ->
  zlen (in_window a window_secs (deletions DeletionLimiter.new name ks)) <= max_deletions.
Proof.
  intros Hm HW Hc. revert a. apply (limiter_run ks DeletionLimiter.new name 0 []); [done..|].
  unfold in_step, kept. simpl. rewrite lookup_empty. unfold fits in Hm. simpl.
  split; [apply tracked_nil|]. split; [constructor|]. split; [len|apply limited_nil; lia].
Qed.
End limiter.

(** ** Deletions, session/server.rs *)
Module Deletion.
Record Stats := mkStats {
  deletions_attempted : Z; deletions_blocked : Z; deletions_executed : Z; authz_denials : Z; resource_limit_hits : Z }.

(** What the branch uses of the server: [files] is the state of the storage backend. *)
Record server (B : Type) := mkServer {
  stats : Stats; limiter : DeletionLimiter.t; ledger : option Ledger.t; files : B }.
Arguments mkServer {B} _ _ _ _.
Arguments stats {B} _.
Arguments limiter {B} _.
Arguments ledger {B} _.
Arguments files {B} _.

Inductive reply := ReplyError (code : ErrorCode.t) (text : string) | ReplyCommitted (id : TransferId) (n : Z).

Section handler.
Context {B : Type} (remove : B -> VPath.t -> outcome VelcruxError unit * B).
Implicit Type s : server B.

Definition count (f : Stats -> Stats) s : server B := mkServer (f (stats s)) (limiter s) (ledger s) (files s).
Definition bump (n : Z) : Z := wrap 64 (n + 1).
Definition attempted (t : Stats) : Stats :=
  mkStats (bump (deletions_attempted t)) (deletions_blocked t) (deletions_executed t) (authz_denials t) (resource_limit_hits t).
Definition denied (t : Stats) : Stats :=
  mkStats (deletions_attempted t) (bump (deletions_blocked t)) (deletions_executed t) (bump (authz_denials t)) (resource_limit_hits t).
Definition over_limit (t : Stats) : Stats :=
  mkStats (deletions_attempted t) (bump (deletions_blocked t)) (deletions_executed t) (authz_denials t) (bump (resource_limit_hits t)).
Definition executed (t : Stats) : Stats :=
  mkStats (deletions_attempted t) (deletions_blocked t) (bump (deletions_executed t)) (authz_denials t) (resource_limit_hits t).

(** 1. The policy of the server: the refusal, if there is one. *)
Definition governance (p : DeletionPolicy) (a : FileAuthorizer.t) (name : bytes) (now : Z) s : server B * option reply :=
  match p with
  | AdminOnly =>
      if PermSet.has (granted_permissions a name) PermSet.ADMIN then (s, None)
      else (count denied s, Some (ReplyError ErrorCode.PermissionDenied "remote deletion requires admin role under active policy"))
  | Disabled => (count denied s, Some (ReplyError ErrorCode.PermissionDenied "remote deletion is disabled on this server"))
  | RateLimited m w =>
      let '(yes, l) := DeletionLimiter.check_and_record (limiter s) now name m w in
      let s := mkServer (stats s) l (ledger s) (files s) in
      if yes then (s, None)
      else (count over_limit s, Some (ReplyError ErrorCode.QuotaExceeded "remote deletion rate limit exceeded"))
  | ExplicitGrant => (s, None)
  end.

(** 2. The ledger, when there is one and the request has a key: the answer, if it has one. *)
Definition replay (store : option MockStateStore.t) (c : TransferCreate.t) (now : Z) (new_id : TransferId) s
    : server B * option reply :=
  match ledger s with
  | Some l =>
      if bool_decide (TransferCreate.idempotency_key c = []) then (s, None)
      else
        let q := Ledger.mk_request Server (TransferCreate.idempotency_key c) (TransferCreate.dst_path c) 0 in
        let '(act, l) := Ledger.evaluate_transfer_create l q store now new_id in
        let s := mkServer (stats s) (limiter s) (Some l) (files s) in
        match act with
        | Ledger.ReplayCommitted id n => (s, Some (ReplyCommitted id n))
        | Ledger.Conflict _ => (s, Some (ReplyError ErrorCode.ProtocolViolation "idempotency conflict"))
        | _ => (s, None)
        end
  | None => (s, None)
  end.

(** 4. The deletion: what the backend says of it is dropped. *)
Definition execute (c : TransferCreate.t) (dst : VPath.t) (now : Z) (id : TransferId) s : server B * reply :=
  let s := mkServer (stats s) (limiter s) (ledger s) (remove (files s) dst).2 in
  let s := count executed s in
  let l := if bool_decide (TransferCreate.idempotency_key c = []) then ledger s
           else (fun l => Ledger.mark_committed l Server (TransferCreate.idempotency_key c) 1 now) <$> ledger s in
  (mkServer (stats s) (limiter s) l (files s), ReplyCommitted id 1).

(** The clocks read: the limiter's and the ledger's, before and after; the identifiers drawn: the
    ledger's and the transfer's. *)
Definition handle_delete (p : DeletionPolicy) (a : FileAuthorizer.t) (store : option MockStateStore.t) (name : bytes)
    (c : TransferCreate.t) (now ledger_now ledger_now' : Z) (new_id id : TransferId) s : server B * reply :=
  let s := count attempted s in
  let is_sync := bool_decide (TransferCreate.op c = TransferOp.SyncDelete) in
  let '(s, refused) := governance p a name now s in
  match refused with
  | Some r => (s, r)
  | None =>
      let '(s, answer) := replay store c ledger_now new_id s in
      match answer with
      | Some r => (s, r)
      | None =>
          match check a name (if is_sync then SyncDelete else Delete) (TransferCreate.dst_path c) with
          | Ok dst => execute c dst ledger_now' id s
          | _ => (count denied s, ReplyError ErrorCode.FileNotFound "not found")
          end
      end
  end.

(** *** What may be deleted *)

(** The policy lets this deletion through. *)
Definition policy_allows (p : DeletionPolicy) (a : FileAuthorizer.t) (name : bytes) (now : Z) s : Prop :=
  match p with
  | AdminOnly => PermSet.has (granted_permissions a name) PermSet.ADMIN = true
  | Disabled => False
  | RateLimited m w => (DeletionLimiter.check_and_record (limiter s) now name m w).1 = true
  | ExplicitGrant => True
  end.

Lemma governance_spec p a name now s s' r : governance p a name now s = (s', r) ->
  files s' = files s /\ ledger s' = ledger s /\ (r = None <-> policy_allows p a name now s).
Proof.
  unfold governance, policy_allows. destruct p as [| | |m w].
  - case_match; intros [= <- <-]; naive_solver.
  - intros [= <- <-]. naive_solver.
  - intros [= <- <-]. naive_solver.
  - destruct (DeletionLimiter.check_and_record _ _ _ _ _) as [[] l]; intros [= <- <-]; naive_solver.
Qed.

Lemma replay_files store c now id s s' r : replay store c now id s = (s', r) -> files s' = files s.
Proof.
  unfold replay. intros H. repeat case_match; by simplify_eq.
Qed.

(** C10. A request deletes nothing, or exactly the path it names, without outer slashes, and then the policy
    lets this identity delete and the grant that governs the path permits it. *)
Theorem deletion_governed p a store name c now lnow lnow' new_id id s s' r :
  handle_delete p a store name c now lnow lnow' new_id id s = (s', r) ->
  let o := if bool_decide (TransferCreate.op c = TransferOp.SyncDelete) then SyncDelete else Delete in
  let v := trim_slashes (TransferCreate.dst_path c) in
  files s' = files s \/
  (files s' = (remove (files s) v).2 /\ r = ReplyCommitted id 1 /\ policy_allows p a name now s /\
   VPath.valid_path v /\ exists g, governs name v a g /\ allows (granted g) o = true).
Proof.
  intros H o v. unfold handle_delete in H. destruct (governance _ _ _ _ _) as [s1 r1] eqn:G.
  apply governance_spec in G as (F1 & _ & Hp). destruct r1 as [r1|]; [left; injection H as <- _; by rewrite F1|].
  destruct (replay _ _ _ _ _) as [s2 r2] eqn:R. apply replay_files in R as F2.
  destruct r2 as [r2|]; [left; injection H as <- _; by rewrite F2, F1|].
  fold o in H. destruct (check a name o _) as [dst| |] eqn:C; [|left; injection H as <- _; simpl; by rewrite F2, F1..].
  right. apply check_spec in C as (-> & Ha & Hg). fold v in H, Ha, Hg. unfold execute in H. simpl in H.
  injection H as <- <-. simpl. rewrite F2, F1. split; [done|]. split; [done|]. split; [by apply Hp|]. split; [|done].
  destruct Ha as [[_ Ho]|?]; [|done]. unfold o in Ho. case_bool_decide; naive_solver.
Qed.

(** No remote deletion under the policy [Disabled], and none by an identity without [ADMIN] under
    [AdminOnly], whatever the grants say otherwise. *)
Theorem deletion_blocked p a store name c now lnow lnow' new_id id s s' r :
  handle_delete p a store name c now lnow lnow' new_id id s = (s', r) ->
  p = Disabled \/ p = AdminOnly /\ (forall g, g ∈ a -> identity g = name -> PermSet.has (granted g) PermSet.ADMIN = false) ->
  files s' = files s /\ exists why, r = ReplyError ErrorCode.PermissionDenied why.
Proof.
  unfold handle_delete. intros H Hp. destruct (governance _ _ _ _ _) as [s1 r1] eqn:G.
  assert (exists why, s1 = count denied (count attempted s) /\ r1 = Some (ReplyError ErrorCode.PermissionDenied why)) as (why & -> & ->).
  { unfold governance in G. destruct Hp as [->|[-> Hno]]; [injection G as <- <-; eauto|].
    destruct (PermSet.has _ _) eqn:E; [|injection G as <- <-; eauto].
    apply granted_permissions_spec in E as (g & Hg & Hi & Hh). by rewrite Hno in Hh. }
  injection H as <- <-. simpl. eauto.
Qed.
End handler.
End Deletion.

(** ** Examples *)
Module AuthorizationExamples.
Definition text (s : string) : bytes := lit s.
Definition grants : FileAuthorizer.t :=
  [mkGrant (text "a") (text "data/customerA") (permissions ROperator);
   mkGrant (text "a") (text "data/customerA/archive") (permissions RReadOnly);
   mkGrant (text "root") [] (permissions RAdmin)].

(** Components are compared whole, and the longer prefix decides although it allows less. *)
Example prefixes :
  (check grants (text "a") Upload (text "data/customerA/x"), check grants (text "a") Upload (text "data/customerAB/x"),
   check grants (text "a") Upload (text "data/customerA/archive/x"), check grants (text "a") Download (text "/data/customerA/archive/x/"),
   check grants (text "root") Delete (text "data/../x"), check grants (text "root") Delete [])
  = (Ok (text "data/customerA/x"), Err (EProtocol PermissionDenied), Err (EProtocol PermissionDenied),
     Ok (text "data/customerA/archive/x"), Err (EProtocol InvalidPath), Err (EProtocol InvalidPath)).
Proof. by vm_compute. Qed.

(** [check_spec] on the third grant. *)
Example root_checked : check grants (text "root") Delete (text "x") = Ok (text "x").
Proof.
  apply check_spec. split; [done|]. split; [right; by apply (VPath.validate_ok_iff (text "x") (text "x"))|].
  exists (mkGrant (text "root") [] (permissions RAdmin)). split; [|done].
  exists (take 2 grants), []. split; [done|]. split; [split; [done|by left]|]. split; [|done].
  repeat constructor; intros [Hi _]; vm_compute in Hi; discriminate.
Qed.

(** An absolute path is not refused: it is the relative one. *)
Example absolute_accepted : check grants (text "root") Upload (text "//etc/passwd") = Ok (text "etc/passwd").
Proof. by vm_compute. Qed.

(** Two grants on one directory: the permissions of both are announced, those of the first count. *)
Example first_counts :
  let gs := [mkGrant (text "a") (text "d") PermSet.UPLOAD; mkGrant (text "a") (text "d") PermSet.DOWNLOAD] in
  (PermSet.has (granted_permissions gs (text "a")) PermSet.DOWNLOAD, check gs (text "a") Download (text "d/x"))
  = (true, Err (EProtocol PermissionDenied)).
Proof. by vm_compute. Qed.

Example grant_parsed :
  grant_from_toml (mkGrantToml (text "a") (text "/data/") [text "upload"; text "sync-delete"] (Some (text " Read-Only ")))
  = Ok (mkGrant (text "a") (text "data") 135).
Proof. by vm_compute. Qed.
Example unknown_refused :
  match grant_from_toml (mkGrantToml (text "a") (text "/data/") [text "uploads"] None) with Err _ => True | _ => False end.
Proof. by vm_compute. Qed.

(** The limit on one run. *)
Example limiter_runs :
  deletions 2 60 DeletionLimiter.new (text "a")
    [(text "a", 0); (text "b", 1); (text "a", 30); (text "a", 60); (text "a", 61); (text "a", 90); (text "a", 91)] = [0; 30; 61; 91].
Proof. by vm_compute. Qed.
Example limiter_bound :
  zlen (in_window 30 60 (deletions 2 60 DeletionLimiter.new (text "a") [(text "a", 0); (text "a", 30); (text "a", 61); (text "a", 90)])) <= 2.
Proof. apply deletions_limited; [by vm_compute|done| |done]. simpl. lia. Qed.

(** A backend that holds one file and cannot remove it. *)
Definition stuck (b : bytes) (p : VPath.t) : outcome VelcruxError unit * bytes := (Err (EIo "busy"), b).
Definition wipe (b : bytes) (p : VPath.t) : outcome VelcruxError unit * bytes := (Ok tt, []).
Definition start (l : option Ledger.t) : Deletion.server bytes :=
  Deletion.mkServer (Deletion.mkStats 0 0 0 0 0) DeletionLimiter.new l (text "data").
Definition delete_x (key : string) : TransferCreate.t :=
  TransferCreate.mk TransferOp.Delete [] (text "x") (text key) 0 (replicate 32 0).

(** A deletion that failed is answered as done, and counted. *)
Example failure_committed :
  let '(s, r) := Deletion.handle_delete stuck ExplicitGrant grants None (text "root") (delete_x "") 0 0 0 [] [1] (start None) in
  (Deletion.files s, Deletion.deletions_executed (Deletion.stats s), r) = (text "data", 1, Deletion.ReplyCommitted [1] 1).
Proof. by vm_compute. Qed.

(** [deletion_governed] on a deletion that is carried out. *)
Lemma deletion_governed_witness : exists s r,
  Deletion.handle_delete wipe ExplicitGrant grants None (text "root") (delete_x "") 0 0 0 [] [1] (start None) = (s, r) /\
  Deletion.files s = [] /\ VPath.valid_path (text "x").
Proof.
  eexists _, _. split; [reflexivity|]. split; [reflexivity|].
  destruct (Deletion.deletion_governed wipe ExplicitGrant grants None (text "root") (delete_x "") 0 0 0 [] [1] (start None) _ _ eq_refl)
    as [E|(_ & _ & _ & V & _)].
  - vm_compute in E. discriminate E.
  - exact V.
Defined.

(** A retry is answered with another transfer than the first time, and so is anyone who knows the key:
    the ledger is asked before the grants are. *)
Example replay_differs :
  let '(s, r) := Deletion.handle_delete wipe ExplicitGrant grants None (text "root") (delete_x "k") 0 0 0 [2] [1] (start (Some Ledger.new)) in
  let '(s, r') := Deletion.handle_delete wipe ExplicitGrant grants None (text "root") (delete_x "k") 1 1 1 [4] [3] s in
  let '(s, r'') := Deletion.handle_delete wipe ExplicitGrant grants None (text "nobody") (delete_x "k") 2 2 2 [6] [5] s in
  (r, r', r'') = (Deletion.ReplyCommitted [1] 1, Deletion.ReplyCommitted [2] 1, Deletion.ReplyCommitted [2] 1).
Proof. by vm_compute. Qed.

(** A refusal uses up the rate limit: the attempt is recorded before the grants are asked. *)
Example refused_counts :
  let '(s, r) := Deletion.handle_delete wipe (RateLimited 1 60) grants None (text "a") (delete_x "") 0 0 0 [] [1] (start None) in
  (r, (DeletionLimiter.check_and_record (Deletion.limiter s) 1 (text "a") 1 60).1)
  = (Deletion.ReplyError ErrorCode.FileNotFound "not found", false).
Proof. by vm_compute. Qed.
End AuthorizationExamples.
