(* ===== verification/Authentication.v ===== *)
(** * Authentication, auth/pubkey.rs, auth/crl.rs and the authenticators of auth/mod.rs

    Tokens that prove an Ed25519 key on one connection, the file of authorised keys, the store of
    revoked certificates, and the three authenticators behind one class. Ed25519 is the class
    [Ed25519] with the laws [Ed25519Laws]; [PEM] and X.509 parsing are arguments: the lists a bundle
    holds, and the serial numbers of a list. The locks are not poisoned, as no code panics while it
    holds one. The texts of configuration errors are left out. *)

From S2P Require Import Prelude Utf8 Protocol Paths MsgSession.
Import Str.

(** ** Texts *)

(** [str::lines]: a line ends at a newline, with a carriage return before it if there is one; what
    follows the last newline is a line unless it is empty. *)
Definition strip_cr (l : bytes) : bytes :=
  match reverse l with 13 :: r => reverse r | _ => l end.
Fixpoint lines_of (parts : list bytes) : list bytes :=
  match parts with
  | [] => []
  | [last] => match last with [] => [] | _ => [last] end
  | l :: parts' => strip_cr l :: lines_of parts'
  end.
Definition lines (s : bytes) : list bytes := lines_of (split_on 10 s).

(** [str::split_whitespace]; [cur] is the word so far. *)
Definition emit (cur : bytes) : list bytes := match cur with [] => [] | _ => [cur] end.
Fixpoint words (s cur : bytes) : list bytes :=
  match s with
  | [] => emit cur
  | a :: s1 =>
      if is_ws1 a then emit cur ++ words s1 []
      else
        match s1 with
        | [] => words s1 (cur ++ [a])
        | b :: s2 =>
            if is_ws2 a b then emit cur ++ words s2 []
            else
              match s2 with
              | [] => words s1 (cur ++ [a])
              | c :: s3 => if is_ws3 a b c then emit cur ++ words s3 [] else words s1 (cur ++ [a])
              end
        end
  end.
Definition split_whitespace (s : bytes) : list bytes := words s [].

(** [parts.join(" ")]. *)
Definition join_spaces (parts : list bytes) : bytes :=
  match parts with [] => [] | p :: ps => p ++ mjoin (cons 32 <$> ps) end.

Definition config_error (why : string) : VelcruxError := EConfig why.

(** ** Hexadecimal *)
Definition hex_digit (v : Z) : Z := if v <? 10 then 48 + v else 87 + v.
Definition encode_hex (b : bytes) : bytes := mjoin ((fun x => [hex_digit (x / 16); hex_digit (x mod 16)]) <$> b).

Definition digit16 (c : Z) : option Z :=
  if Utf8.in_range 48 57 c then Some (c - 48)
  else if Utf8.in_range 97 102 c then Some (c - 87)
  else if Utf8.in_range 65 70 c then Some (c - 55)
  else None.
(** [u8::from_str_radix(.., 16)] of two bytes: a sign may stand before the digit. *)
Definition byte_from_hex (a b : Z) : option Z :=
  if a =? 43 then digit16 b
  else x ← digit16 a; y ← digit16 b; Some (x * 16 + y).

(** The loop over pairs; a pair that ends inside a character is a panic. *)
Fixpoint decode_pairs (s : bytes) (out : bytes) : outcome VelcruxError bytes :=
  match s with
  | a :: b :: s' =>
      if Utf8.is_char_boundary s 2 then
        let? byte := ok_or (byte_from_hex a b) (config_error "invalid hex") in
        decode_pairs s' (out ++ [byte])
      else Panic
  | _ => Ok out
  end.
Definition decode_hex (s : bytes) : outcome VelcruxError bytes :=
  let s := trim s in
  if negb (zlen s mod 2 =? 0) then Err (config_error "hex string odd length") else decode_pairs s [].

(** ** Base64 *)
Definition base64_value (c : Z) : option Z :=
  if Utf8.in_range 65 90 c then Some (c - 65)
  else if Utf8.in_range 97 122 c then Some (c - 97 + 26)
  else if Utf8.in_range 48 57 c then Some (c - 48 + 52)
  else if c =? 43 then Some 62
  else if c =? 47 then Some 63
  else None.
Fixpoint base64_loop (s : bytes) (out : bytes) (buf bits : Z) : outcome VelcruxError bytes :=
  match s with
  | [] => Ok out
  | c :: s' =>
      if c =? 61 then Ok out
      else
        let? val := ok_or (base64_value c) (config_error "invalid base64 char") in
        let buf := Z.lor (wrap 32 (Z.shiftl buf 6)) val in
        let bits := bits + 6 in
        if 8 <=? bits then
          let bits := bits - 8 in
          base64_loop s' (out ++ [wrap 8 (Z.shiftr buf bits)]) (Z.land buf (Z.shiftl 1 bits - 1)) bits
        else base64_loop s' out buf bits
  end.
Definition decode_base64 (s : bytes) : outcome VelcruxError bytes := base64_loop (mjoin (split_whitespace s)) [] 0 0.

(** ** Tokens *)
Definition EXPORTER_SECRET_LEN : Z := 32.
Definition AUTH_SIGNATURE_PREFIX : bytes := lit "velcrux-auth-v1".
Definition ED25519_PUBKEY_LEN : Z := 32.
Definition ED25519_SIGNATURE_LEN : Z := 64.
Definition SSH_PUBKEY_TOKEN_LEN : Z := ED25519_PUBKEY_LEN + ED25519_SIGNATURE_LEN.

(** ring's Ed25519: key pairs, their public keys and signatures. *)
Class Ed25519 := {
  keypair : Type;
  public_key : keypair -> bytes;
  sign : keypair -> bytes -> bytes;
  verify : bytes -> bytes -> bytes -> bool }.
Class Ed25519Laws `{Ed25519} := {
  public_key_len k : zlen (public_key k) = 32;
  sign_len k m : zlen (sign k m) = 64;
  sign_verifies k m : verify (public_key k) m (sign k m) = true }.

Definition compute_signed_payload (exporter_secret : bytes) : bytes := AUTH_SIGNATURE_PREFIX ++ exporter_secret.

Record Identity := mkIdentity { name : bytes; issuer_fingerprint : bytes; cert_fingerprint : bytes; serial_hex : bytes }.
Definition identity_new (n issuer cert : bytes) : Identity := mkIdentity n issuer cert [].
Definition with_serial (i : Identity) (serial : bytes) : Identity :=
  mkIdentity (name i) (issuer_fingerprint i) (cert_fingerprint i) (to_ascii_lowercase serial).

Definition invalid_identity (why : string) : VelcruxError := EProtocol (InvalidIdentity why).

Section tokens.
Context `{E : Ed25519}.

Definition create_pubkey_auth_token (k : keypair) (exporter_secret : bytes) : bytes :=
  let payload := compute_signed_payload exporter_secret in public_key k ++ sign k payload.

Definition verify_pubkey_auth_token (token exporter_secret : bytes) : outcome VelcruxError bytes :=
  if negb (zlen token =? SSH_PUBKEY_TOKEN_LEN)
  then Err (EProtocol (Malformed "AUTH token invalid length for SSH pubkey mechanism"))
  else
    let? pubkey_bytes := slice token 0 ED25519_PUBKEY_LEN in
    let? sig_bytes := slice_from token ED25519_PUBKEY_LEN in
    let payload := compute_signed_payload exporter_secret in
    if verify pubkey_bytes payload sig_bytes then Ok pubkey_bytes
    else Err (invalid_identity "channel-bound pubkey signature verification failed").
End tokens.

Module AuthorizedKeys.
Definition t : Type := gmap bytes bytes.
Definition new : t := ∅.
Definition add_key (ks : t) (pubkey identity : bytes) : t := <[pubkey := identity]> ks.
Definition lookup (ks : t) (pubkey : bytes) : option bytes := ks !! pubkey.

(** The key in an OpenSSH blob, or a bare one. *)
Definition ssh_key (raw : bytes) : outcome VelcruxError bytes :=
  if zlen raw =? 32 then Ok raw
  else if 4 + 11 + 4 + 32 <=? zlen raw then let offset := 4 + 11 + 4 in slice raw offset (offset + 32)
  else Err (config_error "unexpected length for ssh-ed25519 key").

Definition parse_entry (set : t) (line_no : Z) (parts : list bytes) : outcome VelcruxError t :=
  match parts with
  | first :: second :: rest =>
      if bool_decide (first = lit "ssh-ed25519") then
        let identity := match rest with [] => lit "key-" ++ Utf8.decimal (line_no + 1) | _ => join_spaces rest end in
        let? raw := map_err (fun _ => config_error "invalid base64 in ssh-ed25519 key") (decode_base64 second) in
        let? pubkey := ssh_key raw in
        Ok (add_key set pubkey identity)
      else
        let identity := join_spaces (second :: rest) in
        let? raw := map_err (fun _ => config_error "invalid hex in authorized key") (decode_hex first) in
        if negb (zlen raw =? ED25519_PUBKEY_LEN) then Err (config_error "ed25519 pubkey must be 32 bytes")
        else Ok (add_key set raw identity)
  | _ => Err (config_error "invalid authorized_keys entry")
  end.

Fixpoint parse_lines (ls : list bytes) (line_no : Z) (set : t) : outcome VelcruxError t :=
  match ls with
  | [] => Ok set
  | line :: ls' =>
      let trimmed := trim line in
      if bool_decide (trimmed = []) || starts_with (lit "#") trimmed then parse_lines ls' (line_no + 1) set
      else
        let? set := parse_entry set line_no (split_whitespace trimmed) in
        parse_lines ls' (line_no + 1) set
  end.
Definition parse (content : bytes) : outcome VelcruxError t := parse_lines (lines content) 0 new.

Definition load (read : outcome VelcruxError bytes) : outcome VelcruxError t :=
  let? content := map_err (fun _ => config_error "read authorized_keys") read in parse content.

Definition authenticate `{Ed25519} (ks : t) (token exporter_secret : bytes) : outcome VelcruxError Identity :=
  let? pubkey := verify_pubkey_auth_token token exporter_secret in
  let? n := ok_or (lookup ks pubkey) (invalid_identity "public key not in authorized_keys") in
  Ok (identity_new n (lit "ssh-pubkey") (encode_hex pubkey)).
End AuthorizedKeys.

(** ** Revoked certificates *)
Fixpoint trim_zeros (s : bytes) : bytes := match s with 48 :: s' => trim_zeros s' | _ => s end.
Definition normalize_serial (serial : bytes) : bytes :=
  let trimmed := trim_zeros (to_ascii_lowercase serial) in
  if bool_decide (trimmed = []) then lit "0" else trimmed.

Module CrlStore.
Definition t : Type := gset bytes.
Definition new : t := ∅.
Definition insert_serial_hex (s : t) (hex : bytes) : t := {[normalize_serial hex]} ∪ s.
Definition insert_serial (s : t) (serial : bytes) : t := insert_serial_hex s (encode_hex serial).
Definition is_revoked (s : t) (serial : bytes) : bool :=
  if bool_decide (serial = []) then false else bool_decide (normalize_serial serial ∈ s).
Definition len (s : t) : Z := Z.of_nat (size s).
Definition is_empty (s : t) : bool := len s =? 0.
Definition clear (s : t) : t := ∅.

Section lists.
(** The revocation lists of a PEM bundle, and the raw serial numbers of a DER-encoded list. *)
Context (crls : bytes -> option (list bytes)) (from_der : bytes -> option (list bytes)).

Definition insert_all (s : t) (serials : list bytes) : t := foldl insert_serial s serials.

Definition add_crl_der (s : t) (der : bytes) : outcome VelcruxError Z * t :=
  match from_der der with
  | None => (Err (config_error "failed to parse X.509 CRL DER"), s)
  | Some serials => (Ok (zlen serials), insert_all s serials)
  end.

Fixpoint add_all (s : t) (ders : list bytes) (total : Z) : outcome VelcruxError Z * t :=
  match ders with
  | [] => (Ok total, s)
  | der :: ders' =>
      match add_crl_der s der with
      | (Ok n, s) => add_all s ders' (total + n)
      | (Err e, s) => (Err e, s)
      | (Panic, s) => (Panic, s)
      end
  end.

Definition is_der (pem : bytes) : bool := match pem with c :: _ => c =? 48 | [] => false end.

Definition add_crl_pem (s : t) (pem : bytes) : outcome VelcruxError Z * t :=
  match crls pem with
  | None => (Err (config_error "failed to parse CRL PEM bundle"), s)
  | Some [] => if is_der pem then add_crl_der s pem else (Ok 0, s)
  | Some ders => add_all s ders 0
  end.

(** The new set is built first; the store changes only when that succeeded. *)
Definition reload_set (ders : list bytes) : outcome VelcruxError t :=
  for_each ders (fun der s =>
    let? serials := ok_or (from_der der) (config_error "failed to parse X.509 CRL DER on reload") in
    Ok (insert_all s serials)) ∅.
Definition reload_crl_pem (s : t) (pem : bytes) : outcome VelcruxError Z * t :=
  match crls pem with
  | None => (Err (config_error "failed to parse CRL PEM bundle on reload"), s)
  | Some ders =>
      match reload_set (if bool_decide (ders = []) && is_der pem then [pem] else ders) with
      | Ok new_set => (Ok (len new_set), new_set)
      | Err e => (Err e, s)
      | Panic => (Panic, s)
      end
  end.
End lists.
End CrlStore.

(** ** Authenticators *)

(** The trait, with the default of [authenticate_token] as [no_tokens]. *)
Class Authenticator `{Ed25519} (A : Type) := {
  authenticate : A -> Identity -> outcome VelcruxError Identity;
  authenticate_token : A -> Z -> bytes -> bytes -> outcome VelcruxError Identity }.
Definition no_tokens : outcome VelcruxError Identity :=
  Err (invalid_identity "token authentication not supported by this authenticator").

Record MtlsAuthenticator := mkMtls { crl_store : option CrlStore.t }.
Record PubkeyAuthenticator := mkPubkey { authorized_keys : AuthorizedKeys.t }.
Record HybridAuthenticator := mkHybrid { mtls : MtlsAuthenticator; hybrid_keys : option AuthorizedKeys.t }.

Definition with_crl (ks : option AuthorizedKeys.t) (s : option CrlStore.t) : HybridAuthenticator := mkHybrid (mkMtls s) ks.
Definition hybrid_new (ks : option AuthorizedKeys.t) : HybridAuthenticator := mkHybrid (mkMtls None) ks.

Definition mtls_authenticate (a : MtlsAuthenticator) (i : Identity) : outcome VelcruxError Identity :=
  match crl_store a with
  | Some crl =>
      if negb (bool_decide (serial_hex i = [])) && CrlStore.is_revoked crl (serial_hex i)
      then Err (invalid_identity "certificate revoked in CRL") else Ok i
  | None => Ok i
  end.

Section authenticators.
Context `{Ed25519}.

Definition pubkey_authenticate_token (a : PubkeyAuthenticator) (mechanism : Z) (token secret : bytes) : outcome VelcruxError Identity :=
  if negb (mechanism =? MsgSession.Auth.AUTH_MECHANISM_SSH_PUBKEY) then Err (invalid_identity "unsupported mechanism for PubkeyAuthenticator")
  else AuthorizedKeys.authenticate (authorized_keys a) token secret.

Definition hybrid_authenticate_token (a : HybridAuthenticator) (mechanism : Z) (token secret : bytes) : outcome VelcruxError Identity :=
  match (if mechanism =? MsgSession.Auth.AUTH_MECHANISM_SSH_PUBKEY then hybrid_keys a else None) with
  | Some ks => AuthorizedKeys.authenticate ks token secret
  | None => Err (invalid_identity "unsupported token authentication mechanism or no authorized_keys configured")
  end.

#[global] Instance mtls_authenticator : Authenticator MtlsAuthenticator :=
  { authenticate := mtls_authenticate; authenticate_token _ _ _ _ := no_tokens }.
#[global] Instance pubkey_authenticator : Authenticator PubkeyAuthenticator :=
  { authenticate _ _ := Err (invalid_identity "mTLS certificate authentication not supported by PubkeyAuthenticator");
    authenticate_token := pubkey_authenticate_token }.
#[global] Instance hybrid_authenticator : Authenticator HybridAuthenticator :=
  { authenticate a i := mtls_authenticate (mtls a) i; authenticate_token := hybrid_authenticate_token }.
End authenticators.

(** ** Texts that are written read back *)

(** Printable ASCII characters other than the space. *)
Definition printable (c : Z) : Prop := 33 <= c <= 126.

Lemma printable_ws c : printable c -> is_ws1 c = false /\ (forall b, is_ws2 c b = false) /\ (forall a b, is_ws3 c a b = false) /\
  (forall b, is_ws2 b c = false) /\ (forall a b, is_ws3 a b c = false).
Proof. unfold printable, is_ws1, is_ws2, is_ws3, Utf8.in_range. intros. repeat split; intros; lia. Qed.

Lemma trim_printable s : Forall printable s -> trim s = s.
Proof.
  intros H. unfold trim.
  assert (trim_start s = s) as ->.
  { destruct H as [|a s Ha _]; [done|]. apply printable_ws in Ha as (H1 & H2 & H3 & _). cbn. rewrite H1.
    destruct s as [|b [|c s]]; [done|by rewrite H2|by rewrite H2, H3]. }
  assert (trim_rev (reverse s) = reverse s) as ->; [|by rewrite reverse_involutive].
  apply Forall_reverse in H. destruct H as [|a r Ha _]; [done|]. apply printable_ws in Ha as (H1 & _ & _ & H2 & H3).
  cbn. rewrite H1. destruct r as [|b [|c r]]; [done|by rewrite H2|by rewrite H2, H3].
Qed.

Lemma words_cons a s cur : printable a -> words (a :: s) cur = words s (cur ++ [a]).
Proof.
  intros (H1 & H2 & H3 & _)%printable_ws. cbn. rewrite H1. destruct s as [|b [|c s]]; [done|by rewrite H2|by rewrite H2, H3].
Qed.

Lemma words_app w s cur : Forall printable w -> words (w ++ s) cur = words s (cur ++ w).
Proof.
  intros H. revert cur. induction H as [|a w Ha _ IH]; intros cur; [by rewrite app_nil_r|].
  simpl app. by rewrite words_cons, IH, <- app_assoc.
Qed.

Lemma words_pair w v : Forall printable w -> Forall printable v -> w <> [] -> v <> [] ->
  split_whitespace (w ++ 32 :: v) = [w; v].
Proof.
  intros Hw Hv Hw0 Hv0. unfold split_whitespace. rewrite words_app by done. cbn [words]. simpl.
  rewrite <- (app_nil_r v) at 1. rewrite words_app by done. simpl. by destruct w, v.
Qed.

Lemma digit_inverse v : 0 <= v < 16 -> digit16 (hex_digit v) = Some v /\ printable (hex_digit v) /\ hex_digit v <> 43 /\ Utf8.is_cont (hex_digit v) = false.
Proof.
  intros H. unfold hex_digit, digit16, printable, Utf8.is_cont, Utf8.in_range.
  destruct (Z.ltb_spec v 10).
  - replace ((48 <=? 48 + v) && (48 + v <=? 57)) with true by lia. split; [f_equal; lia|lia].
  - replace ((48 <=? 87 + v) && (87 + v <=? 57)) with false by lia.
    replace ((97 <=? 87 + v) && (87 + v <=? 102)) with true by lia. split; [f_equal; lia|lia].
Qed.

Lemma encode_hex_cons x b : encode_hex (x :: b) = hex_digit (x / 16) :: hex_digit (x mod 16) :: encode_hex b.
Proof. done. Qed.

Lemma byte_digits x : fits 8 x -> 0 <= x / 16 < 16 /\ 0 <= x mod 16 < 16.
Proof. unfold fits. intros. split; [|by apply Z.mod_pos_bound]. split; [apply Z.div_pos; lia|apply Z.div_lt_upper_bound; lia]. Qed.

Lemma encode_hex_printable b : is_bytes b -> Forall printable (encode_hex b).
Proof.
  induction 1 as [|x b Hx _ IH]; [constructor|]. rewrite encode_hex_cons. apply byte_digits in Hx as [H1 H2].
  repeat constructor; [apply digit_inverse; lia..|done].
Qed.

Lemma encode_hex_len b : length (encode_hex b) = (2 * length b)%nat.
Proof. induction b as [|x b IH]; [done|]. rewrite encode_hex_cons. simpl in *. lia. Qed.

Lemma hex_boundary x b : is_bytes b -> Utf8.is_char_boundary (encode_hex (x :: b)) 2 = true.
Proof.
  intros Hb. unfold Utf8.is_char_boundary. rewrite encode_hex_cons. simpl. destruct b as [|y b]; [done|].
  inversion_clear Hb as [|? ? Hy _]. apply byte_digits in Hy as [Hy _]. rewrite encode_hex_cons. simpl.
  destruct (Z.leb_spec (zlen (hex_digit (x / 16) :: hex_digit (x mod 16) :: hex_digit (y / 16) :: hex_digit (y mod 16) :: encode_hex b)) 2) as [L|_];
    [rewrite !zlen_cons in L; pose proof (zlen_nonneg (encode_hex b)); lia|]. destruct (digit_inverse _ Hy) as (_ & _ & _ & ->). done.
Qed.

Lemma decode_pairs_hex b out : is_bytes b -> decode_pairs (encode_hex b) out = Ok (out ++ b).
Proof.
  intros H. revert out. induction H as [|x b Hx Hb IH]; intros out; [by rewrite app_nil_r|].
  pose proof (hex_boundary x b Hb) as Hc. rewrite encode_hex_cons in *. cbn [decode_pairs]. rewrite Hc.
  apply byte_digits in Hx as [H1 H2]. unfold byte_from_hex.
  destruct (digit_inverse _ H1) as (-> & _ & N & _), (digit_inverse _ H2) as (-> & _).
  destruct (Z.eqb_spec (hex_digit (x / 16)) 43); [done|]. simpl. rewrite IH, <- app_assoc. simpl.
  rewrite Z.mul_comm, <- Z.div_mod by done. done.
Qed.

(** Hexadecimal that was written reads back. *)
Theorem hex_roundtrip b : is_bytes b -> decode_hex (encode_hex b) = Ok b.
Proof.
  intros H. unfold decode_hex. rewrite trim_printable by (by apply encode_hex_printable).
  unfold zlen. rewrite encode_hex_len, Nat2Z.inj_mul, Z.mul_comm, Z.mod_mul by done. by apply decode_pairs_hex.
Qed.

(** The standard encoding, for reference. *)
Definition base64_char (v : Z) : Z :=
  if v <? 26 then 65 + v else if v <? 52 then 71 + v else if v <? 62 then v - 4 else if v =? 62 then 43 else 47.
Fixpoint encode_base64 (b : bytes) : bytes :=
  match b with
  | [] => []
  | [x] => [base64_char (x / 4); base64_char (x mod 4 * 16); 61; 61]
  | [x; y] => [base64_char (x / 4); base64_char (x mod 4 * 16 + y / 16); base64_char (y mod 16 * 4); 61]
  | x :: y :: z :: b' =>
      base64_char (x / 4) :: base64_char (x mod 4 * 16 + y / 16) :: base64_char (y mod 16 * 4 + z / 64)
        :: base64_char (z mod 64) :: encode_base64 b'
  end.

Lemma base64_inverse v : 0 <= v < 64 -> base64_value (base64_char v) = Some v /\ printable (base64_char v) /\ base64_char v <> 61.
Proof.
  intros H. unfold base64_value, base64_char, printable, Utf8.in_range.
  repeat case_match; try (exfalso; lia); (split; [f_equal; lia|lia]).
Qed.

(** One more character: the buffer takes its six bits. *)
Lemma base64_step v s out buf bits : 0 <= v < 64 -> 0 <= buf < 64 -> 0 <= bits <= 6 ->
  base64_loop (base64_char v :: s) out buf bits =
  let buf := buf * 64 + v in
  if 8 <=? bits + 6 then base64_loop s (out ++ [wrap 8 (buf / 2 ^ (bits - 2))]) (buf mod 2 ^ (bits - 2)) (bits - 2)
  else base64_loop s out buf (bits + 6).
Proof.
  intros Hv Hb Hk. destruct (base64_inverse v Hv) as (Hi & _ & Hne). cbn [base64_loop].
  destruct (Z.eqb_spec (base64_char v) 61); [done|]. rewrite Hi. simpl.
  assert (Z.lor (wrap 32 (Z.shiftl buf 6)) v = buf * 64 + v) as ->.
  { unfold wrap. rewrite Z.shiftl_mul_pow2, Z.mod_small by lia.
    rewrite Z.lor_comm, <- Z.shiftl_mul_pow2, lor_disjoint by (unfold fits; lia). lia. }
  destruct (Z.leb_spec 8 (bits + 6)); [|done]. replace (bits + 6 - 8) with (bits - 2) by lia.
  rewrite Z.shiftr_div_pow2 by lia. f_equal. rewrite Z.shiftl_1_l.
  replace (2 ^ (bits - 2) - 1) with (Z.ones (bits - 2)) by (rewrite Z.ones_equiv; lia). apply Z.land_ones. lia.
Qed.

Ltac euclid := Z.to_euclidean_division_equations; lia.

(** Six bits at a time: the bits of three bytes in four characters. *)
Lemma base64_two a b c s out : 0 <= a < 64 -> 0 <= b < 4 -> 0 <= c < 16 ->
  base64_loop (base64_char a :: base64_char (b * 16 + c) :: s) out 0 0 = base64_loop s (out ++ [4 * a + b]) c 4.
Proof.
  intros. rewrite base64_step by lia. cbv zeta. rewrite (proj2 (Z.leb_gt 8 (0 + 6))) by lia.
  rewrite base64_step by lia. cbv zeta. rewrite (proj2 (Z.leb_le 8 (0 + 6 + 6))) by lia.
  change (0 + 6 - 2) with 4. change (2 ^ 4) with 16.
  replace (((0 * 64 + a) * 64 + (b * 16 + c)) / 16) with (4 * a + b) by euclid.
  replace (((0 * 64 + a) * 64 + (b * 16 + c)) mod 16) with c by euclid.
  unfold wrap. by rewrite Z.mod_small by lia.
Qed.

Lemma base64_third c d e s out : 0 <= c < 16 -> 0 <= d < 16 -> 0 <= e < 4 ->
  base64_loop (base64_char (d * 4 + e) :: s) out c 4 = base64_loop s (out ++ [16 * c + d]) e 2.
Proof.
  intros. rewrite base64_step by lia. cbv zeta. rewrite (proj2 (Z.leb_le 8 (4 + 6))) by lia.
  change (4 - 2) with 2. change (2 ^ 2) with 4.
  replace ((c * 64 + (d * 4 + e)) / 4) with (16 * c + d) by euclid.
  replace ((c * 64 + (d * 4 + e)) mod 4) with e by euclid.
  unfold wrap. by rewrite Z.mod_small by lia.
Qed.

Lemma base64_fourth e f s out : 0 <= e < 4 -> 0 <= f < 64 ->
  base64_loop (base64_char f :: s) out e 2 = base64_loop s (out ++ [64 * e + f]) 0 0.
Proof.
  intros. rewrite base64_step by lia. cbv zeta. rewrite (proj2 (Z.leb_le 8 (2 + 6))) by lia.
  change (2 - 2) with 0. change (2 ^ 0) with 1. rewrite Z.div_1_r, Z.mod_1_r.
  unfold wrap. rewrite Z.mod_small by lia. do 3 f_equal. lia.
Qed.

Lemma base64_loop_encoded b out : is_bytes b -> base64_loop (encode_base64 b) out 0 0 = Ok (out ++ b).
Proof.
  remember (length b) as n eqn:Hn. revert b out Hn. induction n as [n IH] using lt_wf_ind. intros b out -> Hb.
  destruct b as [|x [|y [|z b]]]; [by rewrite app_nil_r|..]; unfold is_bytes in Hb; rewrite !Forall_cons in Hb; unfold fits in Hb.
  - cbn [encode_base64]. rewrite <- (Z.add_0_r (x mod 4 * 16)), base64_two by euclid. cbn.
    do 3 f_equal. euclid.
  - cbn [encode_base64]. rewrite base64_two by euclid. rewrite <- (Z.add_0_r (y mod 16 * 4)), base64_third by euclid. cbn.
    rewrite <- app_assoc. do 2 f_equal. cbn. f_equal; [euclid|f_equal; euclid].
  - cbn [encode_base64]. rewrite base64_two, base64_third, base64_fourth by euclid.
    rewrite (IH (length b)); [|simpl; lia|done|tauto]. rewrite <- !app_assoc. do 2 f_equal. cbn.
    f_equal; [euclid|f_equal; [euclid|f_equal; euclid]].
Qed.

Lemma encode_base64_printable b : is_bytes b -> Forall printable (encode_base64 b).
Proof.
  remember (length b) as n eqn:Hn. revert b Hn. induction n as [n IH] using lt_wf_ind. intros b -> Hb.
  assert (printable 61) by (unfold printable; lia).
  destruct b as [|x [|y [|z b]]]; [constructor|..]; unfold is_bytes in Hb; rewrite !Forall_cons in Hb; unfold fits in Hb;
    cbn [encode_base64]; repeat constructor; try done; try (apply base64_inverse; euclid).
  apply (IH (length b)); [simpl; lia|done|apply Hb].
Qed.

Lemma one_word w : Forall printable w -> mjoin (split_whitespace w) = w.
Proof.
  intros H. unfold split_whitespace. rewrite <- (app_nil_r w) at 1. rewrite words_app by done. simpl.
  destruct w; [done|]. simpl. by rewrite app_nil_r.
Qed.

(** Standard base64 reads back. *)
Theorem base64_roundtrip b : is_bytes b -> decode_base64 (encode_base64 b) = Ok b.
Proof.
  intros H. unfold decode_base64. rewrite one_word by (by apply encode_base64_printable).
  by rewrite base64_loop_encoded.
Qed.

(** ** Files of keys *)

(** A line for a key in hexadecimal, and one for a key as OpenSSH writes it. *)
Inductive entry := HexKey (key who : bytes) | SshKey (key who : bytes).
Definition key_of (e : entry) : bytes := match e with HexKey k _ | SshKey k _ => k end.
Definition who_of (e : entry) : bytes := match e with HexKey _ w | SshKey _ w => w end.

(** The blob of an OpenSSH key: two strings with their lengths before them. *)
Definition ssh_blob (key : bytes) : bytes := to_be 4 11 ++ lit "ssh-ed25519" ++ to_be 4 32 ++ key.
Definition line_of (e : entry) : bytes :=
  match e with
  | HexKey k w => encode_hex k ++ 32 :: w
  | SshKey k w => lit "ssh-ed25519" ++ 32 :: encode_base64 (ssh_blob k) ++ 32 :: w
  end.
Definition file_of (es : list entry) : bytes := mjoin ((fun e => line_of e ++ [10]) <$> es).
Definition entry_ok (e : entry) : Prop :=
  is_bytes (key_of e) /\ zlen (key_of e) = 32 /\ Forall printable (who_of e) /\ who_of e <> [].

Lemma ssh_blob_bytes k : is_bytes k -> is_bytes (ssh_blob k).
Proof.
  intros H. unfold ssh_blob, is_bytes. rewrite !Forall_app. repeat split; try done;
    vm_compute; repeat constructor; discriminate.
Qed.

Lemma ssh_blob_key k : zlen k = 32 -> AuthorizedKeys.ssh_key (ssh_blob k) = Ok k.
Proof.
  intros H. unfold AuthorizedKeys.ssh_key.
  assert (zlen (ssh_blob k) = 51) as L.
  { unfold ssh_blob. rewrite !zlen_app, H. done. }
  rewrite L. simpl. unfold slice. rewrite L. simpl. f_equal. unfold ssh_blob. rewrite !app_assoc.
  rewrite drop_app_length' by done. apply take_ge. unfold zlen in H. lia.
Qed.

(** A line that begins and ends with a printable character, and has no newline. *)
Definition framed (l : bytes) : Prop :=
  (exists a r, l = a :: r /\ printable a /\ a <> 35) /\ (exists r z, l = r ++ [z] /\ printable z) /\ 10 ∉ l.

Lemma trim_framed l : framed l -> trim l = l.
Proof.
  intros ((a & r & Hl & Ha & _) & (r' & z & Hr & Hz) & _). unfold trim.
  assert (trim_start l = l) as ->.
  { subst l. apply printable_ws in Ha as (H1 & H2 & H3 & _). cbn. rewrite H1.
    destruct r as [|b [|c r]]; [done|by rewrite H2|by rewrite H2, H3]. }
  assert (trim_rev (reverse l) = reverse l) as ->; [|by rewrite reverse_involutive].
  rewrite Hr, reverse_snoc. apply printable_ws in Hz as (H1 & _ & _ & H2 & H3).
  cbn. rewrite H1. destruct (reverse r') as [|b [|c q]]; [done|by rewrite H2|by rewrite H2, H3].
Qed.

Lemma strip_cr_framed l : framed l -> strip_cr l = l.
Proof.
  intros (_ & (r & z & -> & Hz) & _). unfold strip_cr, printable in *. rewrite reverse_snoc.
  destruct (decide (z = 13)); [lia|]. by repeat case_match; simplify_eq.
Qed.

Lemma printable_newline w : Forall printable w -> 10 ∉ w.
Proof. rewrite Forall_forall. intros H H10%H. unfold printable in H10. lia. Qed.

Lemma framed_pair w m v : Forall printable w -> head w <> Some 35 -> w <> [] -> 10 ∉ m -> Forall printable v -> v <> [] ->
  framed (w ++ 32 :: m ++ v).
Proof.
  intros Hw H35 Hw0 Hm Hv Hv0. split; [|split].
  - destruct Hw as [|a w Ha _]; [done|]. exists a, (w ++ 32 :: m ++ v). split; [done|]. split; [done|]. intros ->. done.
  - destruct v as [|z v _] using rev_ind; [done|]. exists (w ++ 32 :: m ++ v), z. rewrite <- app_assoc. simpl.
    rewrite <- app_assoc. apply Forall_app in Hv as [_ Hv]. inversion_clear Hv. done.
  - apply printable_newline in Hw, Hv. rewrite elem_of_app, elem_of_cons, elem_of_app. intuition lia.
Qed.

Lemma words_triple w m v : Forall printable w -> Forall printable m -> Forall printable v -> w <> [] -> m <> [] -> v <> [] ->
  split_whitespace (w ++ 32 :: m ++ 32 :: v) = [w; m; v].
Proof.
  intros Hw Hm Hv Hw0 Hm0 Hv0. unfold split_whitespace. rewrite words_app by done. cbn [words]. simpl.
  rewrite words_app by done. cbn [words]. simpl. rewrite <- (app_nil_r v) at 1. rewrite words_app by done. simpl.
  by destruct w, m, v.
Qed.

Lemma encode_hex_head b : is_bytes b -> head (encode_hex b) <> Some 35.
Proof.
  intros [|x b' Hx _]; [done|]. rewrite encode_hex_cons. simpl. apply byte_digits in Hx as [H1 _].
  unfold hex_digit. destruct (Z.ltb_spec (x / 16) 10); intros [= E]; lia.
Qed.

Lemma encode_base64_nonempty b : b <> [] -> encode_base64 b <> [].
Proof. by destruct b as [|x [|y [|z b]]]. Qed.

Lemma line_parses e set n : entry_ok e ->
  framed (line_of e) /\ AuthorizedKeys.parse_entry set n (split_whitespace (line_of e)) = Ok (<[key_of e := who_of e]> set).
Proof.
  intros (Hb & Hl & Hw & Hw0).
  assert (key_of e <> []) as Hk0 by (intros E; by rewrite E in Hl).
  destruct e as [k w|k w]; cbn [key_of who_of line_of] in *.
  - pose proof (encode_hex_printable k Hb) as Hp.
    assert (encode_hex k <> []) as Hn.
    { intros E. apply (f_equal length) in E. rewrite encode_hex_len in E. unfold zlen in Hl. simpl in E. lia. }
    split; [apply (framed_pair _ []); try done; [by apply encode_hex_head|by apply not_elem_of_nil]|].
    rewrite words_pair by done. cbn [AuthorizedKeys.parse_entry].
    rewrite bool_decide_eq_false_2.
    2: { intros E. apply (f_equal length) in E. rewrite encode_hex_len in E. unfold zlen in Hl.
         change (length (lit "ssh-ed25519")) with 11%nat in E. lia. }
    rewrite hex_roundtrip by done. simpl. rewrite Hl. simpl. by rewrite app_nil_r.
  - pose proof (ssh_blob_bytes k Hb) as Hbb. pose proof (encode_base64_printable _ Hbb) as Hp.
    assert (Forall printable (lit "ssh-ed25519")) as Hs by (vm_compute; repeat constructor; discriminate).
    split.
    + pose proof (framed_pair (lit "ssh-ed25519") (encode_base64 (ssh_blob k) ++ [32]) w) as F.
      rewrite <- app_assoc in F. apply F; try done.
      apply printable_newline in Hp. rewrite elem_of_app, elem_of_cons. intros [?|[?|?%elem_of_nil]]; [done|lia|done].
    + rewrite words_triple by (try done; by apply encode_base64_nonempty).
      cbn [AuthorizedKeys.parse_entry]. rewrite bool_decide_eq_true_2, base64_roundtrip by done. simpl.
      rewrite ssh_blob_key by done. simpl. by rewrite app_nil_r.
Qed.

Lemma lines_cons l r : 10 ∉ l -> lines (l ++ 10 :: r) = strip_cr l :: lines r.
Proof.
  intros H. unfold lines, split_on. rewrite split_app; [|apply Forall_forall; intros x Hx|done].
  - pose proof (split_nonnil (Z.eqb 10) r). by destruct (split (Z.eqb 10) r).
  - destruct (Z.eqb_spec 10 x) as [<-|]; done.
Qed.

(** A file of keys that was written reads back as the map from keys to identities; of two lines for the
    same key the later one counts. *)
Theorem keys_roundtrip es : Forall entry_ok es ->
  AuthorizedKeys.parse (file_of es) = Ok (foldl (fun m e => <[key_of e := who_of e]> m) ∅ es).
Proof.
  unfold AuthorizedKeys.parse, AuthorizedKeys.new. intros H. generalize 0 (∅ : AuthorizedKeys.t).
  induction H as [|e es He _ IH]; intros n set; [done|].
  destruct (line_parses e set n He) as [Hf Hp]. change (file_of (e :: es)) with ((line_of e ++ [10]) ++ file_of es).
  rewrite <- app_assoc. cbn [app]. rewrite lines_cons, strip_cr_framed by (done || apply Hf).
  cbn [AuthorizedKeys.parse_lines]. rewrite trim_framed by done.
  assert (bool_decide (line_of e = []) || starts_with (lit "#") (line_of e) = false) as ->.
  { destruct Hf as ((a & r & -> & _ & H35) & _). apply orb_false_iff. split; [by apply bool_decide_eq_false_2|].
    apply not_true_iff_false. rewrite starts_with_prefix. intros [q Hq]. by injection Hq. }
  rewrite Hp. simpl. apply IH.
Qed.

(** ** Tokens *)
Section token_facts.
Context {E : Ed25519} {L : Ed25519Laws}.

(** The payload determines the connection it is for. *)
Lemma payload_injective s s' : compute_signed_payload s = compute_signed_payload s' -> s = s'.
Proof. apply app_inv_head. Qed.

Lemma verify_split pk sig secret : zlen pk = 32 -> zlen sig = 64 ->
  verify_pubkey_auth_token (pk ++ sig) secret =
  if verify pk (compute_signed_payload secret) sig then Ok pk
  else Err (invalid_identity "channel-bound pubkey signature verification failed").
Proof.
  intros Hp Hs. unfold verify_pubkey_auth_token, SSH_PUBKEY_TOKEN_LEN, ED25519_PUBKEY_LEN, ED25519_SIGNATURE_LEN.
  rewrite zlen_app, Hp, Hs. simpl. rewrite slice_here by (done || lia). simpl.
  rewrite slice_from_skip, slice_from_0 by lia. done.
Qed.

(** A token is accepted exactly when it is a key and a signature of that key over the payload of this
    connection; the key is the result. *)
Theorem verify_token_exact token secret pk : verify_pubkey_auth_token token secret = Ok pk <->
  exists sig, token = pk ++ sig /\ zlen pk = 32 /\ zlen sig = 64 /\ verify pk (compute_signed_payload secret) sig = true.
Proof.
  split.
  - intros H. assert (zlen token = 32 + 64) as Hl.
    { unfold verify_pubkey_auth_token in H. by destruct (Z.eqb_spec (zlen token) SSH_PUBKEY_TOKEN_LEN). }
    assert (zlen (take 32 token) = 32 /\ zlen (drop 32 token) = 64) as [H1 H2].
    { unfold zlen in *. rewrite length_take, length_drop. lia. }
    rewrite <- (take_drop 32 token) in H. rewrite verify_split in H by done.
    destruct (verify _ _ _) eqn:V; [|done]. injection H as <-. exists (drop 32 token). by rewrite take_drop.
  - intros (sig & -> & H1 & H2 & V). by rewrite verify_split, V.
Qed.

(** A client that signs with an authorised key for this connection is authenticated as its identity. *)
Theorem token_authenticates ks k secret n : ks !! public_key k = Some n ->
  AuthorizedKeys.authenticate ks (create_pubkey_auth_token k secret) secret =
  Ok (identity_new n (lit "ssh-pubkey") (encode_hex (public_key k))).
Proof.
  intros Hk. unfold AuthorizedKeys.authenticate, create_pubkey_auth_token.
  rewrite verify_split by (apply public_key_len || apply sign_len). rewrite sign_verifies. simpl.
  unfold AuthorizedKeys.lookup. by rewrite Hk.
Qed.

(** Nobody else is: an identity that a token proves belongs to an authorised key, whose signature over
    the payload of this very connection the token carries. *)
Theorem token_identity ks token secret i : AuthorizedKeys.authenticate ks token secret = Ok i ->
  exists pk sig, token = pk ++ sig /\ ks !! pk = Some (name i) /\ serial_hex i = [] /\
    verify pk (AUTH_SIGNATURE_PREFIX ++ secret) sig = true.
Proof.
  unfold AuthorizedKeys.authenticate. destruct (verify_pubkey_auth_token token secret) as [pk| |] eqn:V; simpl; try done.
  apply verify_token_exact in V as (sig & -> & _ & _ & V). unfold AuthorizedKeys.lookup.
  destruct (ks !! pk) as [n|] eqn:K; simpl; [|done]. intros [= <-]. exists pk, sig. done.
Qed.
End token_facts.

(** ** Serial numbers *)

(** The number that a text of hexadecimal digits stands for. *)
Definition value_from (v : Z) (s : bytes) : Z := foldl (fun v c => v * 16 + default 0 (digit16 c)) v s.
Definition value (s : bytes) : Z := value_from 0 s.
Definition is_hex (s : bytes) : Prop := Forall (fun c => is_Some (digit16 c)) s.
(** Digits in lower case. *)
Definition low_digit (c : Z) : Prop := 48 <= c <= 57 \/ 97 <= c <= 102.
Definition digit (c : Z) : Z := default 0 (digit16 c).

Lemma digit_low c : low_digit c -> 0 <= digit c < 16 /\ (digit c = 0 <-> c = 48).
Proof. unfold low_digit, digit, digit16, Utf8.in_range. intros. repeat case_match; simpl; lia. Qed.

Lemma digit_inj c d : low_digit c -> low_digit d -> digit c = digit d -> c = d.
Proof. unfold low_digit, digit, digit16, Utf8.in_range. intros ? ?. repeat case_match; simpl; lia. Qed.

Lemma lower_digit c : is_Some (digit16 c) ->
  let c' := if Utf8.in_range 65 90 c then c + 32 else c in low_digit c' /\ digit16 c' = digit16 c.
Proof.
  unfold low_digit, digit16, Utf8.in_range. intros [v H]. cbv zeta.
  repeat case_match; try done; simplify_eq; (split; [lia|]); f_equal; lia.
Qed.

Lemma value_snoc s c : value (s ++ [c]) = value s * 16 + digit c.
Proof. unfold value, value_from. by rewrite foldl_app. Qed.

Lemma lower_spec s : is_hex s -> Forall low_digit (to_ascii_lowercase s) /\ value (to_ascii_lowercase s) = value s.
Proof.
  unfold to_ascii_lowercase, value, is_hex. intros H. generalize 0.
  induction H as [|c s Hc _ IH]; intros v; [by split|]. destruct (lower_digit c Hc) as [Hl Hd]. simpl.
  rewrite Hd. destruct (IH (v * 16 + default 0 (digit16 c))) as [H1 H2]. split; [by constructor|done].
Qed.

Lemma trim_zeros_spec s : Forall low_digit s ->
  Forall low_digit (trim_zeros s) /\ value (trim_zeros s) = value s /\ head (trim_zeros s) <> Some 48.
Proof.
  induction 1 as [|c s Hc Hs IH]; [by split|]. destruct (decide (c = 48)) as [->|Hne].
  - simpl. destruct IH as (H1 & H2 & H3). by rewrite H2.
  - assert (trim_zeros (c :: s) = c :: s) as ->.
    { simpl. by repeat case_match; simplify_eq. }
    split; [by constructor|]. split; [done|]. intros [= ?]. done.
Qed.

Lemma value_bounds s : Forall low_digit s -> 0 <= value s < 16 ^ zlen s.
Proof.
  intros H. induction s as [|c s IH] using rev_ind; [by vm_compute|].
  apply Forall_app in H as [H Hc]. inversion_clear Hc as [|? ? Hd _]. apply IH in H. apply digit_low in Hd as [Hd _].
  rewrite value_snoc, zlen_app. replace (zlen [c]) with 1 by done. rewrite Z.pow_add_r by (done || apply zlen_nonneg). lia.
Qed.

Lemma value_lower s : Forall low_digit s -> s <> [] -> head s <> Some 48 -> 16 ^ (zlen s - 1) <= value s.
Proof.
  intros H. induction s as [|c s IH] using rev_ind; [done|]. intros _ Hh.
  apply Forall_app in H as [H Hc]. inversion_clear Hc as [|? ? Hd _]. pose proof Hd as Hd'. apply digit_low in Hd as [Hd H0].
  rewrite value_snoc, zlen_app. replace (zlen s + zlen [c] - 1) with (zlen s) by (unfold zlen; simpl; lia).
  destruct (decide (s = [])) as [->|Hs].
  - simpl in *. unfold value, value_from, zlen. simpl. assert (digit c <> 0) by (intros E; apply Hh; f_equal; tauto). lia.
  - assert (head s <> Some 48) by (by destruct s). specialize (IH H Hs ltac:(done)).
    replace (zlen s) with (zlen s - 1 + 1) at 1 by lia. rewrite Z.pow_add_r; [lia| |lia].
    destruct s; [done|]. rewrite zlen_cons. pose proof (zlen_nonneg s). lia.
Qed.

Lemma value_inj s t : Forall low_digit s -> Forall low_digit t -> length s = length t -> value s = value t -> s = t.
Proof.
  revert t. induction s as [|c s IH] using rev_ind; intros t Hs Ht Hl Hv.
  - by destruct t.
  - destruct t as [|d t _] using rev_ind; [rewrite length_app in Hl; simpl in Hl; lia|].
    rewrite !length_app in Hl. simpl in Hl. apply Forall_app in Hs as [Hs Hc], Ht as [Ht Hd].
    inversion_clear Hc as [|? ? Hc' _]. inversion_clear Hd as [|? ? Hd' _]. rewrite !value_snoc in Hv.
    pose proof (proj1 (digit_low _ Hc')). pose proof (proj1 (digit_low _ Hd')).
    rewrite (IH t), (digit_inj c d); [done|done|done|lia|done|done|lia|lia].
Qed.

(** Without leading zeros a number has one text. *)
Lemma canonical_inj s t : Forall low_digit s -> Forall low_digit t -> head s <> Some 48 -> head t <> Some 48 ->
  value s = value t -> s = t.
Proof.
  intros Hs Ht Hs0 Ht0 Hv. apply value_inj; try done.
  pose proof (value_bounds s Hs). pose proof (value_bounds t Ht).
  assert (forall u, Forall low_digit u -> head u <> Some 48 -> u = [] \/ 16 ^ (zlen u - 1) <= value u) as G.
  { intros u Hu Hu0. destruct (decide (u = [])); [by left|right; by apply value_lower]. }
  assert (forall a b : bytes, value a = value b -> 0 <= value b < 16 ^ zlen b -> a = [] \/ 16 ^ (zlen a - 1) <= value a ->
    (length a <= length b)%nat) as Hle.
  { intros a b E Hb [->|Ha]; [simpl; lia|]. destruct (decide (length a <= length b)%nat); [done|]. exfalso.
    assert (16 ^ zlen b <= 16 ^ (zlen a - 1)) by (apply Z.pow_le_mono_r; unfold zlen; lia). lia. }
  apply Nat.le_antisymm; apply Hle; auto.
Qed.

(** Serial numbers are compared as numbers: the case of the digits and leading zeros make no difference. *)
Theorem serial_by_value s t : is_hex s -> is_hex t -> normalize_serial s = normalize_serial t <-> value s = value t.
Proof.
  intros Hs Ht. unfold normalize_serial.
  destruct (lower_spec s Hs) as [Ls <-], (lower_spec t Ht) as [Lt <-].
  destruct (trim_zeros_spec _ Ls) as (Ts & <- & Zs), (trim_zeros_spec _ Lt) as (Tt & <- & Zt).
  set (a := trim_zeros (to_ascii_lowercase s)) in *. set (b := trim_zeros (to_ascii_lowercase t)) in *.
  split.
  - case_bool_decide as Ea; case_bool_decide as Eb; [by rewrite Ea, Eb| | |congruence]; intros E; exfalso.
    + rewrite <- E in Zt. done.
    + rewrite E in Zs. done.
  - intros E. by rewrite (canonical_inj a b).
Qed.

(** A certificate is refused exactly when its serial number is, as a number, one that was entered. *)
Theorem revoked_exact hexes s : Forall is_hex hexes -> is_hex s ->
  CrlStore.is_revoked (foldl CrlStore.insert_serial_hex CrlStore.new hexes) s = true <->
  s <> [] /\ exists h, h ∈ hexes /\ value h = value s.
Proof.
  intros Hh Hs. unfold CrlStore.is_revoked. case_bool_decide as E; [naive_solver|]. rewrite bool_decide_eq_true.
  assert (forall c, normalize_serial s ∈ foldl CrlStore.insert_serial_hex c hexes <->
    normalize_serial s ∈ c \/ exists h, h ∈ hexes /\ value h = value s) as G.
  { induction Hh as [|h hexes Hx _ IH]; intros c; simpl; [set_solver|]. rewrite IH. unfold CrlStore.insert_serial_hex.
    rewrite elem_of_union, elem_of_singleton, (serial_by_value s h) by done. setoid_rewrite elem_of_cons. split.
    - intros [[?|?]|(h' & ? & ?)]; [right; exists h; auto|by left|right; exists h'; auto].
    - intros [?|(h' & [->|?] & ?)]; [by left; right|left; left; congruence|right; by exists h']. }
  rewrite G. unfold CrlStore.new. set_solver.
Qed.

Lemma encode_hex_is_hex b : is_bytes b -> is_hex (encode_hex b).
Proof.
  induction 1 as [|x b Hx _ IH]; [constructor|]. rewrite encode_hex_cons. apply byte_digits in Hx as [H1 H2].
  repeat constructor; [..|done]; eexists; by apply digit_inverse.
Qed.

(** ** Reloading *)
Section reload_facts.
Context (crls : bytes -> option (list bytes)) (from_der : bytes -> option (list bytes)).

Lemma reload_set_spec ders : match CrlStore.reload_set from_der ders with
  | Ok s => exists serials, mapM from_der ders = Some serials /\ s = CrlStore.insert_all ∅ (mjoin serials)
  | Err _ => mapM from_der ders = None
  | Panic => False
  end.
Proof.
  unfold CrlStore.reload_set.
  assert (forall c, match for_each ders (fun der s =>
      let? serials := ok_or (from_der der) (config_error "failed to parse X.509 CRL DER on reload") in
      Ok (CrlStore.insert_all s serials)) c with
    | Ok s => exists serials, mapM from_der ders = Some serials /\ s = CrlStore.insert_all c (mjoin serials)
    | Err _ => mapM from_der ders = None
    | Panic => False
    end) as G; [|apply G].
  induction ders as [|der ders IH]; intros c; simpl; [by exists []|].
  destruct (from_der der) as [ss|]; simpl; [|done]. specialize (IH (CrlStore.insert_all c ss)).
  destruct (for_each _ _ _) as [s|e|]; [|by rewrite IH|done]. destruct IH as (serials & -> & ->).
  exists (ss :: serials). split; [done|]. unfold CrlStore.insert_all. simpl. by rewrite foldl_app.
Qed.

(** A reload that fails leaves the store as it was; one that succeeds leaves exactly the serial numbers of
    the lists that were given. *)
Theorem reload_exact s pem : match CrlStore.reload_crl_pem crls from_der s pem with
  | (Ok n, s') => exists ders serials, crls pem = Some ders /\
      mapM from_der (if bool_decide (ders = []) && CrlStore.is_der pem then [pem] else ders) = Some serials /\
      s' = CrlStore.insert_all ∅ (mjoin serials) /\ n = CrlStore.len s'
  | (Err _, s') => s' = s
  | (Panic, _) => False
  end.
Proof.
  unfold CrlStore.reload_crl_pem. destruct (crls pem) as [ders|] eqn:E; [|done].
  pose proof (reload_set_spec (if bool_decide (ders = []) && CrlStore.is_der pem then [pem] else ders)) as H.
  destruct (CrlStore.reload_set _ _) as [s'|e|]; [|done..]. destruct H as (serials & Hm & ->). eauto 10.
Qed.
End reload_facts.

(** ** Authenticators *)
Section authenticator_facts.
Context {E : Ed25519} {L : Ed25519Laws}.

(** A certificate is taken for the identity it names, and never when its serial number is revoked. *)
Theorem mtls_exact crl ks i j : authenticate (with_crl ks (Some crl)) i = Ok j <->
  j = i /\ (serial_hex i = [] \/ CrlStore.is_revoked crl (serial_hex i) = false).
Proof.
  simpl. unfold mtls_authenticate. simpl. destruct (decide (serial_hex i = [])) as [Es|Es].
  - rewrite bool_decide_eq_true_2 by done. simpl. naive_solver.
  - rewrite bool_decide_eq_false_2 by done. simpl. destruct (CrlStore.is_revoked _ _); naive_solver.
Qed.

(** Tokens prove identities only by the mechanism of public keys and only where keys are configured. *)
Theorem hybrid_token a mechanism token secret i : authenticate_token a mechanism token secret = Ok i ->
  mechanism = MsgSession.Auth.AUTH_MECHANISM_SSH_PUBKEY /\
  exists ks pk sig, hybrid_keys a = Some ks /\ token = pk ++ sig /\ ks !! pk = Some (name i) /\
    verify pk (AUTH_SIGNATURE_PREFIX ++ secret) sig = true.
Proof.
  simpl. unfold hybrid_authenticate_token.
  destruct (Z.eqb_spec mechanism MsgSession.Auth.AUTH_MECHANISM_SSH_PUBKEY) as [->|]; [|done].
  destruct (hybrid_keys a) as [ks|]; [|done]. intros (pk & sig & ? & ? & _ & ?)%token_identity. eauto 10.
Qed.
End authenticator_facts.

(** ** Examples *)
Module AuthenticationExamples.
(** A signature scheme that satisfies the laws, to run the code with. *)
Definition toy_sign (k : Z) (m : bytes) : bytes := k :: take 63 (m ++ replicate 63 0).
#[local] Instance toy : Ed25519 := {|
  keypair := Z; public_key k := replicate 32 k; sign := toy_sign;
  verify pk m sig := bool_decide (sig = toy_sign (default 0 (head pk)) m) |}.
#[local] Instance toy_laws : Ed25519Laws.
Proof.
  split; simpl.
  - done.
  - intros k m. unfold toy_sign. rewrite zlen_cons. unfold zlen. rewrite length_take, length_app, length_replicate. lia.
  - intros k m. by rewrite bool_decide_eq_true_2.
Qed.

Definition secret : bytes := replicate 32 66.
Definition keys : AuthorizedKeys.t := {[ replicate 32 7 := lit "backup-agent" ]}.

(** The token of another connection, and a key that is not listed. *)
Example token_runs :
  (match AuthorizedKeys.authenticate keys (create_pubkey_auth_token 7 secret) secret with Ok i => name i | _ => [] end,
   match AuthorizedKeys.authenticate keys (create_pubkey_auth_token 7 (replicate 32 153)) secret with Err _ => true | _ => false end,
   match AuthorizedKeys.authenticate keys (create_pubkey_auth_token 8 secret) secret with Err _ => true | _ => false end)
  = (lit "backup-agent", true, true).
Proof. by vm_compute. Qed.

(** Written and read again, in both forms, with a comment and an empty line before it. *)
Example keys_run :
  AuthorizedKeys.parse (lit "# keys" ++ [10; 13; 10] ++ file_of [HexKey (replicate 32 7) (lit "a"); SshKey (replicate 32 9) (lit "b")])
  = Ok {[ replicate 32 7 := lit "a"; replicate 32 9 := lit "b" ]}.
Proof. by vm_compute. Qed.

(** A sign passes for a digit. *)
Example hex_sign : decode_hex (lit "+f0a") = Ok [15; 10].
Proof. by vm_compute. Qed.
(** A character of three bytes before a letter: the pair ends inside it. *)
Example hex_panics : decode_hex [0xE2; 0x82; 0xAC; 97] = Panic.
Proof. by vm_compute. Qed.
Example keys_panic : AuthorizedKeys.parse ([0xE2; 0x82; 0xAC; 97; 32] ++ lit "x") = Panic.
Proof. by vm_compute. Qed.

(** The type and the lengths inside an OpenSSH blob are not looked at. *)
Example blob_unchecked : AuthorizedKeys.ssh_key (to_be 4 7 ++ lit "ssh-rsa" ++ replicate 60 5) = Ok (replicate 32 5).
Proof. by vm_compute. Qed.

(** Case and leading zeros. *)
Example serials :
  let s := CrlStore.insert_serial CrlStore.new [0; 171] in
  (CrlStore.is_revoked s (lit "00AB"), CrlStore.is_revoked s (lit "ab"), CrlStore.is_revoked s (lit "ba")) = (true, true, false).
Proof. by vm_compute. Qed.

(** A reload from a file without any list in it, an empty one for instance, succeeds and revokes nothing
    any more. *)
Example reload_forgets :
  let s := CrlStore.insert_serial_hex CrlStore.new (lit "42") in
  (CrlStore.is_revoked s (lit "42"), CrlStore.reload_crl_pem (fun _ => Some []) (fun _ => None) s []) = (true, (Ok 0, ∅)).
Proof. by vm_compute. Qed.
End AuthenticationExamples.
